(* ===== verification/_CoqProject ===== *)
-Q . S2P
Prelude.v
QuickSort.v
HeapSort.v
Permutations.v
NumConverter.v
Stack.v
Calculator.v
AVLTree.v
HashMap.v
AvlInsertion.v
RedBlack.v
BitStream.v
Huffman.v
PQueue.v
GraphInput.v
AdjGraph.v
Dijkstra.v
SpanningTree.v
Kruskal.v
Prim.v
Knapsack.v
TopSort.v
TextFile.v
KMP.v
BTree.v
RabinKarp.v
BoyerMoore.v
Threads.v
MyLock.v
SyncQueue.v
ProxyHash.v
ListRing.v
ProxyBuffer.v
ProxyCache.v
ProxyHttp.v
ProxyForward.v
SwapList.v
Cipher.v
Sockets.v
FileTransfer.v
Socks.v
CircularBuffer.v
PoolAllocator.v
Discovery.v
Paint.v
LedMatrix.v
Streams.v
Life.v
LifeFile.v
Csv.v
Balancer.v
ConvexHull.v
Coroutines.v
MyThread.v
CopyBackwards.v
