(* ===== verification/Prelude.v ===== *)
(** * NSU-Labs: a verification library for the C and C++ programs of the repository

    The repository is a collection of programs.  This library models its C programs, and
    some in C++, that have an algorithm, a data structure or a protocol of their own, and
    proves that they do what they are for.  Each file below models one source directory (or a
    part of one) and names it in its first comment; definitions have the names of the
    C functions.

    ** Conventions

    A C function is a Rocq function of its arguments and of the state it reads, and
    returns the new state with its result in the type [res] of this file: [Ok] of a
    value, or the way the program stops -- undefined behaviour (an access outside an
    array, a signed overflow, a null or dangling pointer), a failed [assert], [exit]
    with a message, or a loop bound of the model that is used up.  The theorems state
    [Ok], so they exclude all of these, and show that loops end: the fuel of a loop is
    computed by its caller from the input (the number of elements, of bytes still to be
    read, of steps left), and that it is enough is part of the proofs.  Integers are
    [Z] with the width and the wrap-around of their C types written out ([u8] .. [u64],
    [s32], [s64], [to_s32]).  Allocation takes its answers from a list ([malloc]) where
    the code handles failure, and succeeds elsewhere.  Library functions are modelled
    by what C or POSIX says of them; [qsort] is an arbitrary function that
    permutes its array ([Qsort]), [qsort_r] one that also sorts for a comparison that is
    an order ([QsortR]), the answers of [rand] are an arbitrary list, and the HTTP parser of the proxy, which is third-party code, is a parameter.

    ** Sorting, numbers, expressions (C-Labs)

    - [QuickSort], [HeapSort]: the programs print the sorted permutation of their input;
      [heapify] repairs a heap.
    - [Permutations]: [makeNextPermutation] gives the immediate lexicographic successor.
    - [NumConverter]: conversion between bases, its value and its round trip.
    - [Stack]: the chain of blocks refines a list, as an interface ([StackImpl]) that
      [Calculator] is written against; the calculator evaluates expressions, with the
      exact restriction under which it does.

    ** Trees and maps

    - [AVLTree], [HashMap] (C-Homework/HashMap): insertion keeps the AVL invariant,
      removal keeps a search tree, and the hash map built on it refines a finite map.
    - [AvlInsertion], [BTree]: the invariants of insertion, and that the heights the
      programs print are logarithmic.
    - [RedBlack]: insertion keeps the red-black invariants; the program prints the
      black height.
    - [PQueue]: the binary heap of Dijkstra's and Prim's programs refines a bag.

    ** Graphs and optimisation

    - [GraphInput], [AdjGraph]: the input format and the adjacency matrix.
    - [Dijkstra]: shortest distances and a shortest path, and the program around it.
    - [SpanningTree]: the exchange argument; [Kruskal] (with its disjoint sets) and
      [Prim] return spanning trees, Prim's always minimum ones, Kruskal's when [qsort]
      leaves the edges in order, which C does not promise for its comparison.
    - [TopSort]: a topological order or the report of a cycle.
    - [Knapsack]: the optimal price and a selection that has it.
    - [ConvexHull]: Graham's scan returns the strictly convex hull as long as its doubles
      are exact, and what it does when they are not.

    ** Texts and files

    - [TextFile]: what the searches use of the C library; [KMP], [RabinKarp],
      [BoyerMoore]: what they print, also over the refilled buffer, and for [RabinKarp]
      how this depends on a byte that is never initialised.
    - [BitStream], [Huffman]: the archiver's round trip, and that decompression ends on
      every input.
    - [Cipher]: the substitution cipher's round trip, which runs of the program are
      defined, and the key that its frequency analysis finds.
    - [CopyBackwards] (OS-Labs): the copy of a directory tree with everything reversed, and
      that copying the copy restores it.
    - [Streams], [Csv]: the CSV parser reads what was written with escapes, and which
      rows it refuses.
    - [Life], [LifeFile]: the game of life follows its rules on the torus; its files are
      read as they were saved, and fields are always well formed.

    ** Memory and pictures

    - [PoolAllocator]: chunks of the pool never overlap, unless the size of a block wraps
      around; [CircularBuffer]: operations of the buffer of the C++ lab refine a bounded
      list under the conditions stated, with those that do not.
    - [Paint]: the span filling colours exactly the connected region, and which points a
      line has; [LedMatrix]: the panel of a microcontroller shows the
      frame and the balls where their commands have taken them.

    ** Threads (OS-Labs)

    - [Threads]: interleaved steps of threads and what is proved about all of their
      executions by induction.
    - [MyLock]: a futex mutex and a spin lock; mutual exclusion, the final sum, and the
      absence of deadlock, against the interface [LockLaws].
    - [SyncQueue]: the bounded queue in five versions; without synchronisation a race
      frees a node in use, with any of the four kinds no interleaving goes wrong and
      the threads are never both blocked.
    - [SwapList]: the list whose nodes threads compare and exchange under three kinds of
      locks: no race, no lost node, no deadlock.
    - [Coroutines]: the coroutine library, for arbitrary programs on it; [MyThread]: the
      thread library, with the joins that are right and the ones that are not.
    - [Balancer] (OPP-Labs): tasks that processes share are never duplicated, and how
      they can be lost.

    ** The HTTP proxy (OS-Labs/11-http-proxy)

    - [ProxyHash] (dynamic array, hash map) refines a finite map; [ListRing] gives the
      intrusive list's operations their meaning; [ProxyBuffer] is the buffer that grows;
      [ProxyCache] is built on the three and refines a cache with an order of use and
      reference counts.
    - [ProxyHttp]: chunked bodies are split as they were encoded; [ProxyForward]: a
      response reaches the client and the cache entry alike and unchanged, and what they
      have got when the connection to either side breaks.

    ** Networks

    - [Sockets]: streams that arrive in arbitrary pieces; [FileTransfer]: a file sent in
      pieces arrives complete, and what is on the disk when a transfer was confirmed;
      [Socks]: the proxy's handshake, its refusals and relaying; [Discovery]: an instance does what the protocol of questions
      and answers in the multicast group says, and closes what it opened unless it
      reaches an operation without a meaning.

    ** Not modelled

    Third-party code; user interfaces, databases, and programs that compute in floating
    point throughout; C#, Java, Go, Rust, Python and SQL; the system-call exercises, which
    have no logic of their own; the event loop, coroutines, name resolution and [main] of
    the HTTP proxy, which are calls of libraries, reading its request and answering from
    its cache.  Of modelled programs, the texts of messages are left out, and the closing
    of files where nothing depends on it.  Each file says what else it leaves out. *)
From stdpp Require Export base tactics numbers option list sorting strings sets.
From Stdlib Require Export ZArith Lia.

#[global] Open Scope Z_scope.

(** ** The fate of a C computation

    A modelled C function either returns a value, or stops: because the C
    standard gives the operation no meaning (a read or write outside an array,
    a signed overflow, a null dereference), because an [assert] fails, because
    the program calls [exit] after printing a message, or because the model's
    loop bound is used up.  Theorems of the other files state [Ok], so none of
    the faults occurs; in particular the loops end. *)

Inductive fault : Type :=
| Undefined
| AssertFailed
| Exited (code : Z) (message : string)
| OutOfFuel.

Inductive res (A : Type) : Type :=
| Ok (a : A)
| Err (f : fault).
Arguments Ok {A} a.
Arguments Err {A} f.

Declare Scope cmodel_scope.
Delimit Scope cmodel_scope with cmodel.
#[global] Open Scope cmodel_scope.

Notation "'let*' x ':=' e 'in' k" :=
  (match e with Ok x => k | Err f => Err f end)
  (at level 10, x name, e at level 200, k at level 200) : cmodel_scope.
Notation "'let*' ' p ':=' e 'in' k" :=
  (match e with Ok p => k | Err f => Err f end)
  (at level 10, p pattern, e at level 200, k at level 200) : cmodel_scope.

(** Sequencing a check whose value is not used. *)
Notation "'check!' e 'in' k" :=
  (match e with Ok _ => k | Err f => Err f end)
  (at level 10, e at level 200, k at level 200) : cmodel_scope.

Definition assert (b : bool) : res unit :=
  if b then Ok tt else Err AssertFailed.

(** Case analysis on the first blocked computation of a hypothesis that says a
    sequence of computations returned. *)
Ltac inv_ok :=
  repeat match goal with
  | H : (match ?e with Ok _ => _ | Err _ => _ end) = Ok _ |- _ =>
      let E := fresh "E" in destruct e eqn:E; [|discriminate H]
  | H : Ok _ = Ok _ |- _ => injection H as H; subst
  | H : Err _ = Ok _ |- _ => discriminate H
  end.

(** ** Machine integers *)

Definition INT_MIN : Z := - 2 ^ 31.
Definition INT_MAX : Z := 2 ^ 31 - 1.
Definition UINT32_MAX : Z := 2 ^ 32 - 1.
Definition UINT64_MAX : Z := 2 ^ 64 - 1.

(** The value of a signed [int] expression: out of range is undefined. *)
Definition s32 (z : Z) : res Z :=
  if (INT_MIN <=? z) && (z <=? INT_MAX) then Ok z else Err Undefined.

Definition s64 (z : Z) : res Z :=
  if (- 2 ^ 63 <=? z) && (z <=? 2 ^ 63 - 1) then Ok z else Err Undefined.

(** Unsigned arithmetic and conversions wrap around. *)
Definition u8 (z : Z) : Z := z mod 2 ^ 8.
Definition u16 (z : Z) : Z := z mod 2 ^ 16.
Definition u32 (z : Z) : Z := z mod 2 ^ 32.
Definition u64 (z : Z) : Z := z mod 2 ^ 64.

(** Conversion to a signed type of [w] bits, as the two's complement
    compilers of this code do it. *)
Definition to_signed (w : Z) (z : Z) : Z :=
  (z + 2 ^ (w - 1)) mod 2 ^ w - 2 ^ (w - 1).
Definition to_s8 : Z -> Z := to_signed 8.
Definition to_s16 : Z -> Z := to_signed 16.
Definition to_s32 : Z -> Z := to_signed 32.
Definition to_s64 : Z -> Z := to_signed 64.

Lemma s32_ok (z : Z) : - 2 ^ 31 <= z < 2 ^ 31 -> s32 z = Ok z.
Proof.
  intros H. unfold s32, INT_MIN, INT_MAX.
  destruct (Z.leb_spec (- 2 ^ 31) z), (Z.leb_spec z (2 ^ 31 - 1)); auto; lia.
Qed.

Lemma s32_inv (z r : Z) : s32 z = Ok r -> r = z /\ - 2 ^ 31 <= z < 2 ^ 31.
Proof.
  unfold s32, INT_MIN, INT_MAX.
  destruct (Z.leb_spec (- 2 ^ 31) z), (Z.leb_spec z (2 ^ 31 - 1)); cbn; try discriminate.
  intros [= ->]. lia.
Qed.

Lemma s64_ok (z : Z) : - 2 ^ 63 <= z < 2 ^ 63 -> s64 z = Ok z.
Proof.
  intros H. unfold s64.
  destruct (Z.leb_spec (- 2 ^ 63) z), (Z.leb_spec z (2 ^ 63 - 1)); auto; lia.
Qed.

Lemma u8_small (z : Z) : 0 <= z < 2 ^ 8 -> u8 z = z.
Proof. apply Z.mod_small. Qed.
Lemma u16_small (z : Z) : 0 <= z < 2 ^ 16 -> u16 z = z.
Proof. apply Z.mod_small. Qed.
Lemma u32_small (z : Z) : 0 <= z < 2 ^ 32 -> u32 z = z.
Proof. apply Z.mod_small. Qed.
Lemma u64_small (z : Z) : 0 <= z < 2 ^ 64 -> u64 z = z.
Proof. apply Z.mod_small. Qed.

Lemma to_signed_small (w z : Z) :
  0 < w -> - 2 ^ (w - 1) <= z < 2 ^ (w - 1) -> to_signed w z = z.
Proof.
  intros Hw Hz. unfold to_signed.
  assert (2 ^ w = 2 * 2 ^ (w - 1)) by
    (rewrite <- Z.pow_succ_r by lia; f_equal; lia).
  rewrite Z.mod_small by lia. lia.
Qed.

(** ** Arrays

    An array is a list, an index a [Z]; an access outside is undefined. *)

Section Arrays.
Context {A : Type}.
Implicit Types (a : list A) (i j k : Z) (x : A).

Definition zlen a : Z := Z.of_nat (length a).

Definition arr_get a i : res A :=
  if 0 <=? i
  then match a !! Z.to_nat i with Some x => Ok x | None => Err Undefined end
  else Err Undefined.

Definition zset a i x : list A := <[Z.to_nat i := x]> a.

Definition arr_set a i x : res (list A) :=
  if (0 <=? i) && (i <? zlen a) then Ok (zset a i x) else Err Undefined.

(** [swap(&a[i], &a[j])] as the sorting programs write it. *)
Definition arr_swap a i j : res (list A) :=
  let* t := arr_get a i in
  let* y := arr_get a j in
  let* a1 := arr_set a i y in
  arr_set a1 j t.

Lemma length_zset a i x : length (zset a i x) = length a.
Proof. apply length_insert. Qed.

Lemma zlen_zset a i x : zlen (zset a i x) = zlen a.
Proof. unfold zlen. by rewrite length_zset. Qed.

Lemma zlen_nonneg a : 0 <= zlen a.
Proof. unfold zlen. lia. Qed.

Lemma arr_set_ok a i x : 0 <= i < zlen a -> arr_set a i x = Ok (zset a i x).
Proof.
  intros [H1 H2]. unfold arr_set.
  apply Z.leb_le in H1 as ->. by apply Z.ltb_lt in H2 as ->.
Qed.

Lemma arr_get_range a i x : arr_get a i = Ok x -> 0 <= i < zlen a.
Proof.
  unfold arr_get, zlen. destruct (Z.leb_spec 0 i); [|discriminate].
  destruct (a !! Z.to_nat i) eqn:E; [|discriminate].
  apply lookup_lt_Some in E. lia.
Qed.

Lemma arr_set_range a i x b :
  arr_set a i x = Ok b -> 0 <= i < zlen a /\ b = zset a i x.
Proof.
  unfold arr_set. destruct (Z.leb_spec 0 i), (Z.ltb_spec i (zlen a)); cbn; try discriminate.
  intros [= <-]. auto.
Qed.

Context `{Inhabited A}.

Definition znth a i : A := a !!! Z.to_nat i.

Lemma arr_get_ok a i : 0 <= i < zlen a -> arr_get a i = Ok (znth a i).
Proof.
  intros [H1 H2]. unfold arr_get, znth, zlen in *.
  apply Z.leb_le in H1 as Hb. rewrite Hb.
  destruct (lookup_lt_is_Some_2 a (Z.to_nat i)) as [x Hx]; [lia|].
  by rewrite (list_lookup_total_correct _ _ _ Hx), Hx.
Qed.

Lemma znth_zset_eq a i x : 0 <= i < zlen a -> znth (zset a i x) i = x.
Proof. intros ?. apply list_lookup_total_insert_eq. unfold zlen in *. lia. Qed.

Lemma znth_zset_ne a i j x : 0 <= i -> 0 <= j -> i <> j -> znth (zset a i x) j = znth a j.
Proof. intros ???. apply list_lookup_total_insert_ne. lia. Qed.

Lemma znth_zset a i j x :
  0 <= i < zlen a -> 0 <= j -> znth (zset a i x) j = if i =? j then x else znth a j.
Proof.
  intros. destruct (Z.eqb_spec i j) as [->|]; [by apply znth_zset_eq|].
  apply znth_zset_ne; lia.
Qed.

Definition zswap a i j : list A := zset (zset a i (znth a j)) j (znth a i).

Lemma arr_swap_ok a i j :
  0 <= i < zlen a -> 0 <= j < zlen a -> arr_swap a i j = Ok (zswap a i j).
Proof.
  intros. unfold arr_swap. rewrite !arr_get_ok by done.
  rewrite arr_set_ok by done. rewrite arr_set_ok by (by rewrite zlen_zset). done.
Qed.

Lemma zlen_zswap a i j : zlen (zswap a i j) = zlen a.
Proof. unfold zswap. by rewrite !zlen_zset. Qed.

Lemma znth_zswap a i j k :
  0 <= i < zlen a -> 0 <= j < zlen a -> 0 <= k ->
  znth (zswap a i j) k = if j =? k then znth a i else if i =? k then znth a j else znth a k.
Proof.
  intros. unfold zswap. rewrite znth_zset by (rewrite ?zlen_zset; lia).
  destruct (j =? k); [done|]. by rewrite znth_zset by lia.
Qed.

Lemma zlist_eq a b :
  zlen a = zlen b -> (forall i, 0 <= i < zlen a -> znth a i = znth b i) -> a = b.
Proof.
  unfold zlen, znth. intros Hl Hi. apply list_eq_same_length with (length a); [lia|done|].
  intros i x y Hlt Hx Hy. specialize (Hi (Z.of_nat i)).
  rewrite Nat2Z.id in Hi. rewrite !list_lookup_total_alt, Hx, Hy in Hi. apply Hi. lia.
Qed.

Lemma zswap_perm a i j : 0 <= i < zlen a -> 0 <= j < zlen a -> zswap a i j ≡ₚ a.
Proof.
  intros Hi Hj. unfold zlen in *.
  unfold zswap, zset, znth.
  apply Permutation_insert_swap; apply list_lookup_lookup_total_lt; lia.
Qed.
End Arrays.

(** ** Matrices: arrays of rows *)

Section Matrices.
Context {A : Type} `{Inhabited A}.
Implicit Types (m : list (list A)) (u v : Z) (x : A).

Definition mat_get m u v : res A :=
  let* row := arr_get m u in arr_get row v.

Definition mat_set m u v x : res (list (list A)) :=
  let* row := arr_get m u in
  let* row := arr_set row v x in
  arr_set m u row.

Lemma mat_get_ok m (rows cols : Z) u v :
  zlen m = rows -> (forall u, 0 <= u < rows -> zlen (znth m u) = cols) -> 0 <= u < rows -> 0 <= v < cols ->
  mat_get m u v = Ok (znth (znth m u) v).
Proof.
  intros Hl Hr Hu Hv. unfold mat_get. rewrite arr_get_ok by lia. by rewrite arr_get_ok by (rewrite Hr; done).
Qed.

Lemma mat_set_ok m (rows cols : Z) u v x :
  zlen m = rows -> (forall u, 0 <= u < rows -> zlen (znth m u) = cols) -> 0 <= u < rows -> 0 <= v < cols ->
  exists m', mat_set m u v x = Ok m' /\ zlen m' = rows /\ (forall u, 0 <= u < rows -> zlen (znth m' u) = cols) /\
    forall a b, 0 <= a < rows -> 0 <= b < cols ->
      znth (znth m' a) b = if (u =? a) && (v =? b) then x else znth (znth m a) b.
Proof.
  intros Hl Hr Hu Hv. unfold mat_set. rewrite arr_get_ok by lia. rewrite arr_set_ok by (rewrite Hr by done; done).
  rewrite arr_set_ok by lia. eexists. split; [done|]. split; [by rewrite zlen_zset|].
  split; [intros a Ha|intros a b Ha Hb]; rewrite znth_zset by lia;
    destruct (Z.eqb_spec u a) as [->|]; cbn [andb]; auto.
  - rewrite zlen_zset. auto.
  - rewrite znth_zset by (rewrite ?Hr by done; lia). done.
Qed.
End Matrices.

(** ** Moving blocks

    [memmove] of [n] elements from index [i] of [src] to index [j] of [dst], which
    may be the same array. *)

Section Memmove.
Context {A : Type}.
Implicit Types (src dst : list A) (i j n : Z).

Definition memmove dst j src i n : res (list A) :=
  if (0 <=? i) && (0 <=? j) && (0 <=? n) && (i + n <=? zlen src) && (j + n <=? zlen dst)
  then Ok (take (Z.to_nat j) dst ++ take (Z.to_nat n) (drop (Z.to_nat i) src) ++ drop (Z.to_nat (j + n)) dst)
  else Err Undefined.

Lemma memmove_ok dst j src i n :
  0 <= i -> 0 <= j -> 0 <= n -> i + n <= zlen src -> j + n <= zlen dst ->
  memmove dst j src i n =
    Ok (take (Z.to_nat j) dst ++ take (Z.to_nat n) (drop (Z.to_nat i) src) ++ drop (Z.to_nat (j + n)) dst).
Proof.
  intros. unfold memmove. destruct ((0 <=? i) && (0 <=? j) && (0 <=? n) && (i + n <=? zlen src) && (j + n <=? zlen dst)) eqn:E;
    [done|]. rewrite !andb_false_iff, !Z.leb_gt in E. lia.
Qed.

Lemma memmove_length dst j src i n :
  0 <= i -> 0 <= j -> 0 <= n -> i + n <= zlen src -> j + n <= zlen dst ->
  length (take (Z.to_nat j) dst ++ take (Z.to_nat n) (drop (Z.to_nat i) src) ++ drop (Z.to_nat (j + n)) dst) = length dst.
Proof. intros. unfold zlen in *. rewrite !length_app, !length_take, !length_drop. lia. Qed.
End Memmove.

#[export] Instance fault_inhabited : Inhabited fault := populate Undefined.

(** Rewriting database of the array length equations, and the tactics that use
    it: [zarr] normalises lengths and closes index side conditions, [zcase]
    splits on the boolean comparisons a C condition was translated to. *)
Create Rewrite HintDb carray.
#[export] Hint Rewrite @zlen_zset @zlen_zswap @length_zset : carray.

Ltac zarr := autorewrite with carray in *; try lia.

Ltac zcase :=
  repeat match goal with
  | |- context [Z.eqb ?x ?y] => destruct (Z.eqb_spec x y); cbn [negb andb orb]
  | |- context [Z.ltb ?x ?y] => destruct (Z.ltb_spec x y); cbn [negb andb orb]
  | |- context [Z.leb ?x ?y] => destruct (Z.leb_spec x y); cbn [negb andb orb]
  | |- context [Z.gtb ?x ?y] => rewrite (Z.gtb_ltb x y)
  | |- context [Z.geb ?x ?y] => rewrite (Z.geb_leb x y)
  end.

Ltac zcase_in H :=
  repeat match type of H with
  | context [Z.eqb ?x ?y] => destruct (Z.eqb_spec x y); cbn [negb andb orb] in H
  | context [Z.ltb ?x ?y] => destruct (Z.ltb_spec x y); cbn [negb andb orb] in H
  | context [Z.leb ?x ?y] => destruct (Z.leb_spec x y); cbn [negb andb orb] in H
  | context [Z.gtb ?x ?y] => rewrite (Z.gtb_ltb x y) in H
  | context [Z.geb ?x ?y] => rewrite (Z.geb_leb x y) in H
  end.

(** ** Rearranging a segment of an array

    [shuffle s e a b]: [b] comes from [a] by exchanges of elements whose indices
    lie in [s..e]. *)

Section Shuffle.
Context {A : Type} `{Inhabited A}.
Implicit Types (a b c : list A) (s e i j k : Z).

Inductive shuffle (s e : Z) (a : list A) : list A -> Prop :=
| shuffle_refl : shuffle s e a a
| shuffle_swap b i j :
    shuffle s e a b -> 0 <= s -> e < zlen b -> s <= i <= e -> s <= j <= e ->
    shuffle s e a (zswap b i j).

Lemma shuffle_trans s e a b c : shuffle s e a b -> shuffle s e b c -> shuffle s e a c.
Proof. intros Hab Hbc. induction Hbc; [done|]. by apply shuffle_swap. Qed.

Lemma shuffle_zlen s e a b : shuffle s e a b -> zlen b = zlen a.
Proof. induction 1; zarr. Qed.

Lemma shuffle_mono s e s' e' a b :
  shuffle s e a b -> 0 <= s' <= s -> e <= e' < zlen a -> shuffle s' e' a b.
Proof.
  intros Hs ??. induction Hs; [apply shuffle_refl|].
  apply shuffle_zlen in Hs. apply shuffle_swap; auto; lia.
Qed.

Lemma shuffle_perm s e a b : shuffle s e a b -> b ≡ₚ a.
Proof.
  induction 1 as [|b i j Hs IH]; [done|].
  rewrite zswap_perm by lia. exact IH.
Qed.

Lemma shuffle_outside s e a b k :
  shuffle s e a b -> 0 <= k -> k < s \/ e < k -> znth b k = znth a k.
Proof.
  intros Hs ??. induction Hs as [|b i j Hs IH]; [done|].
  rewrite znth_zswap by lia. zcase; try lia; done.
Qed.

Lemma shuffle_forall (P : A -> Prop) s e a b :
  shuffle s e a b ->
  (forall k, s <= k <= e -> P (znth a k)) -> forall k, s <= k <= e -> P (znth b k).
Proof.
  intros Hs HP. induction Hs as [|b i j Hs IH]; [done|].
  intros k Hk. rewrite znth_zswap by lia. zcase; auto.
Qed.
End Shuffle.

(** ** Sorted segments of integer arrays *)

Definition sorted_seg (a : list Z) (s e : Z) : Prop :=
  forall i j, s <= i -> i <= j -> j <= e -> znth a i <= znth a j.

Lemma znth_cons_0 {A} `{Inhabited A} (x : A) (l : list A) : znth (x :: l) 0 = x.
Proof. done. Qed.

Lemma znth_cons_succ {A} `{Inhabited A} (x : A) (l : list A) i :
  0 <= i -> znth (x :: l) (Z.succ i) = znth l i.
Proof. intros ?. unfold znth. by rewrite Z2Nat.inj_succ. Qed.

Lemma zlen_cons {A} (x : A) (l : list A) : zlen (x :: l) = zlen l + 1.
Proof. unfold zlen. cbn [length]. lia. Qed.

Lemma sorted_seg_Sorted (a : list Z) : sorted_seg a 0 (zlen a - 1) -> Sorted Z.le a.
Proof.
  intros Hs. apply StronglySorted_Sorted.
  induction a as [|x a IH]; constructor.
  - apply IH. intros i j ???. specialize (Hs (Z.succ i) (Z.succ j)).
    rewrite zlen_cons, !znth_cons_succ in Hs by lia. apply Hs; lia.
  - apply Forall_lookup_2. intros i y Hy.
    specialize (Hs 0 (Z.succ (Z.of_nat i))). rewrite zlen_cons, znth_cons_0, znth_cons_succ in Hs by lia.
    unfold znth in Hs. rewrite Nat2Z.id, (list_lookup_total_correct _ _ _ Hy) in Hs.
    apply lookup_lt_Some in Hy. apply Hs; unfold zlen; lia.
Qed.

(** ** Input

    The programs read their input with [scanf("%i", ...)]: it is modelled by the
    list of the integers those calls convert, in order; at the end of the list
    the next conversion fails. *)

Definition scan_int (input : list Z) : option (Z * list Z) :=
  match input with
  | [] => None
  | x :: rest => Some (x, rest)
  end.

(** [readArray(arr, sz)] of the sorting programs: [sz] conversions, each stored
    in the next element; a failed one is the program's [badInput()]. *)
Fixpoint read_ints (sz : nat) (bad : fault) (input : list Z) : res (list Z * list Z) :=
  match sz with
  | O => Ok ([], input)
  | S sz =>
      match scan_int input with
      | None => Err bad
      | Some (x, input) =>
          let* '(xs, input) := read_ints sz bad input in
          Ok (x :: xs, input)
      end
  end.

Lemma read_ints_app (bad : fault) (xs rest : list Z) :
  read_ints (length xs) bad (xs ++ rest) = Ok (xs, rest).
Proof. induction xs as [|x xs IH]; cbn; [done|]. by rewrite IH. Qed.

Lemma read_ints_short (bad : fault) (sz : nat) (xs : list Z) :
  (length xs < sz)%nat -> read_ints sz bad xs = Err bad.
Proof.
  revert xs. induction sz as [|sz IH]; intros [|x xs] Hl; cbn in *; try lia; [done|].
  by rewrite IH by lia.
Qed.

(** Where a program tells a failed conversion from the end of the input ([scanf]
    returns 0 for the one and [EOF] for the other), its input is a list of tokens. *)
Inductive token := Int (n : Z) | Junk.

Inductive scan_result := ScanEOF | ScanFail | Scanned (n : Z) (rest : list token).

Definition scan_token (input : list token) : scan_result :=
  match input with
  | [] => ScanEOF
  | Junk :: _ => ScanFail
  | Int n :: rest => Scanned n rest
  end.

(** ** Heap allocation

    The state is the list of the answers of the next calls of [malloc]; when it
    is used up, every call succeeds. *)
Definition malloc (mem : list bool) : bool * list bool :=
  match mem with
  | [] => (true, [])
  | ok :: mem => (ok, mem)
  end.

(** ** [qsort]

    The comparators of Kruskal's program and of the archiver return 0 or 1 and never a
    negative number, so they are not the orders that the C standard asks for.  Of the
    library's [qsort] no more is taken to be known than that it rearranges the array. *)
Class Qsort (A : Type) := {
  qsort : (A -> A -> Z) -> list A -> list A;
  qsort_perm cmp l : qsort cmp l ≡ₚ l
}.

(** One such: insertion sort that exchanges when the comparison is positive. *)
Section InsertionSort.
Context {A : Type} (cmp : A -> A -> Z).

Fixpoint insert_sorted (x : A) (l : list A) : list A :=
  match l with
  | [] => [x]
  | y :: rest => if cmp x y >? 0 then y :: insert_sorted x rest else x :: l
  end.

Definition insertion_sort (l : list A) : list A := foldr insert_sorted [] l.

Lemma insert_sorted_perm (x : A) (l : list A) : insert_sorted x l ≡ₚ x :: l.
Proof.
  induction l as [|y l IH]; cbn; [done|]. destruct (cmp x y >? 0); [|done].
  rewrite IH. apply perm_swap.
Qed.

Lemma insertion_sort_perm (l : list A) : insertion_sort l ≡ₚ l.
Proof. induction l as [|x l IH]; cbn; [done|]. by rewrite insert_sorted_perm, IH. Qed.

Lemma insertion_sort_sorted (key : A -> Z) (l : list A) :
  (forall a b, 0 < cmp a b <-> key b < key a) -> StronglySorted (fun a b => key a <= key b) (insertion_sort l).
Proof.
  intros Hc. induction l as [|x l IH]; [constructor|].
  change (insertion_sort (x :: l)) with (insert_sorted x (insertion_sort l)).
  induction IH as [|y l' Hs IH' Hf]; cbn [insert_sorted]; [repeat constructor|].
  rewrite Z.gtb_ltb. destruct (Z.ltb_spec 0 (cmp x y)) as [Hlt|Hge].
  - apply Hc in Hlt. constructor; [done|]. rewrite insert_sorted_perm. constructor; [lia|done].
  - assert (key x <= key y) by (pose proof (Hc x y); lia).
    constructor; [by constructor|]. constructor; [done|]. eapply Forall_impl; [exact Hf|]. cbn. lia.
Qed.
End InsertionSort.

Definition InsertionQsort (A : Type) : Qsort A :=
  {| qsort := insertion_sort; qsort_perm := insertion_sort_perm |}.

(** ** Indexing of concatenations and slices *)

Section Index.
Context {A : Type} `{Inhabited A}.
Implicit Types (a b l : list A).

Lemma zlen_nil : zlen (@nil A) = 0.
Proof. done. Qed.

Lemma zlen_app a b : zlen (a ++ b) = zlen a + zlen b.
Proof. unfold zlen. rewrite length_app. lia. Qed.

Lemma zlen_rev a : zlen (rev a) = zlen a.
Proof. unfold zlen. by rewrite length_rev. Qed.

Lemma zlen_take (n : nat) a : Z.of_nat n <= zlen a -> zlen (take n a) = Z.of_nat n.
Proof. unfold zlen. rewrite length_take. lia. Qed.

Lemma zlen_drop (n : nat) a : Z.of_nat n <= zlen a -> zlen (drop n a) = zlen a - Z.of_nat n.
Proof. unfold zlen. rewrite length_drop. lia. Qed.

Lemma znth_app_l a b i : 0 <= i < zlen a -> znth (a ++ b) i = znth a i.
Proof. intros. unfold znth, zlen in *. apply lookup_total_app_l. lia. Qed.

Lemma znth_app_r a b i : zlen a <= i -> znth (a ++ b) i = znth b (i - zlen a).
Proof.
  intros. unfold znth, zlen in *. rewrite lookup_total_app_r by lia. f_equal. lia.
Qed.

Lemma znth_take (n : nat) a i : 0 <= i < Z.of_nat n -> znth (take n a) i = znth a i.
Proof. intros. unfold znth. apply lookup_total_take_lt. lia. Qed.

Lemma znth_drop (n : nat) a i : 0 <= i -> znth (drop n a) i = znth a (Z.of_nat n + i).
Proof. intros. unfold znth. rewrite lookup_total_drop. f_equal. lia. Qed.

Lemma znth_rev a i : 0 <= i < zlen a -> znth (rev a) i = znth a (zlen a - 1 - i).
Proof.
  intros Hi. unfold znth, zlen in *. rewrite rev_alt, !list_lookup_total_alt.
  rewrite (reverse_lookup a) by lia. do 2 f_equal. lia.
Qed.

Lemma znth_elem a i : 0 <= i < zlen a -> znth a i ∈ a.
Proof. intros. unfold zlen, znth in *. apply list_elem_of_lookup_total_2. lia. Qed.

Lemma elem_znth a x : x ∈ a -> exists i, 0 <= i < zlen a /\ znth a i = x.
Proof.
  intros (i & Hi & Hx)%list_elem_of_lookup_total_1. exists (Z.of_nat i).
  unfold znth, zlen. rewrite Nat2Z.id. split; [lia|done].
Qed.

(** A list around one of its elements. *)
Lemma zsplit a i : 0 <= i < zlen a ->
  a = take (Z.to_nat i) a ++ znth a i :: drop (S (Z.to_nat i)) a.
Proof.
  intros. unfold zlen, znth in *. symmetry. apply take_drop_middle.
  apply list_lookup_lookup_total_lt. lia.
Qed.
End Index.
#[export] Hint Rewrite @zlen_nil @zlen_app @zlen_rev @zlen_cons : carray.

(** ** Sorted lists split at an element *)

Lemma SSorted_app (l1 l2 : list Z) :
  StronglySorted Z.le (l1 ++ l2) <->
  StronglySorted Z.le l1 /\ StronglySorted Z.le l2 /\ Forall (fun x => Forall (Z.le x) l2) l1.
Proof.
  induction l1 as [|x l1 IH]; cbn.
  - split; [|tauto]. intros. split_and!; auto. constructor.
  - rewrite Forall_cons. split.
    + intros Hs. inversion_clear Hs as [|? ? Hs' Hf]. apply Forall_app in Hf as [??].
      apply IH in Hs' as (?&?&?). split_and!; auto. by constructor.
    + intros (Hs & ? & ? & ?). inversion_clear Hs. constructor; [by apply IH|]. by apply Forall_app.
Qed.

Lemma sorted_insert_left (x v : Z) (l l' r : list Z) :
  x <= v -> l' ≡ₚ x :: l -> (StronglySorted Z.le l -> StronglySorted Z.le l') ->
  StronglySorted Z.le (l ++ v :: r) -> StronglySorted Z.le (l' ++ v :: r).
Proof.
  intros Hx Hp Hs. rewrite !SSorted_app. intros (Hl & Hr & Hf). split_and!; auto. rewrite Hp.
  constructor; [|done]. inversion_clear Hr as [|? ? _ Hv]. constructor; [done|].
  eapply Forall_impl; [exact Hv|]. cbn. lia.
Qed.

Lemma sorted_insert_right (x v : Z) (l r r' : list Z) :
  v <= x -> r' ≡ₚ x :: r -> (StronglySorted Z.le r -> StronglySorted Z.le r') ->
  StronglySorted Z.le (l ++ v :: r) -> StronglySorted Z.le (l ++ v :: r').
Proof.
  intros Hx Hp Hs. rewrite !SSorted_app. intros (Hl & Hr & Hf). inversion_clear Hr as [|? ? Hr' Hv].
  split_and!; auto.
  - constructor; [auto|]. rewrite Hp. constructor; [lia|done].
  - eapply Forall_impl; [exact Hf|]. cbn. intros y Hy. apply Forall_cons in Hy as [Hyv Hyr].
    constructor; [done|]. rewrite Hp. constructor; [lia|done].
Qed.
