(* ===== verification/QuickSort.v ===== *)
(** * C-Labs/Quick_sort/src/main.c

    [partition] (Hoare's scheme around the middle element), [quickSort] and the
    whole program.  The array is passed through the functions and the indices
    are C [int]s. *)
From S2P Require Import Prelude.

(** [while (arr[lo] < pivot) ++lo;] *)
Fixpoint skip_less (fuel : nat) (arr : list Z) (pivot lo : Z) : res Z :=
  match fuel with
  | O => Err OutOfFuel
  | S fuel =>
      let* x := arr_get arr lo in
      if x <? pivot then
        let* lo := s32 (lo + 1) in skip_less fuel arr pivot lo
      else Ok lo
  end.

(** [while (arr[hi] > pivot) --hi;] *)
Fixpoint skip_greater (fuel : nat) (arr : list Z) (pivot hi : Z) : res Z :=
  match fuel with
  | O => Err OutOfFuel
  | S fuel =>
      let* x := arr_get arr hi in
      if x >? pivot then
        let* hi := s32 (hi - 1) in skip_greater fuel arr pivot hi
      else Ok hi
  end.

(** The body of [partition] after the pivot is chosen; it returns the array and
    the rightmost index of the first group. *)
Fixpoint partition_loop (fuel : nat) (arr : list Z) (pivot lo hi : Z)
  : res (list Z * Z) :=
  match fuel with
  | O => Err OutOfFuel
  | S fuel =>
      if lo <=? hi then
        let* lo := skip_less (S (length arr)) arr pivot lo in
        let* hi := skip_greater (S (length arr)) arr pivot hi in
        if lo >=? hi then Ok (arr, hi)
        else
          let* arr := arr_swap arr lo hi in
          let* lo := s32 (lo + 1) in
          let* hi := s32 (hi - 1) in
          partition_loop fuel arr pivot lo hi
      else Ok (arr, hi)
  end.

Definition partition (arr : list Z) (start end_ : Z) : res (list Z * Z) :=
  let* sum := s32 (start + end_) in
  let* pivot := arr_get arr (Z.quot sum 2) in
  partition_loop (S (length arr)) arr pivot start end_.

Fixpoint quickSort_fuel (fuel : nat) (arr : list Z) (start end_ : Z) : res (list Z) :=
  match fuel with
  | O => Err OutOfFuel
  | S fuel =>
      if start >=? end_ then Ok arr
      else
        let* '(arr, dividerIndex) := partition arr start end_ in
        let* arr := quickSort_fuel fuel arr start dividerIndex in
        let* next := s32 (dividerIndex + 1) in
        quickSort_fuel fuel arr next end_
  end.

(** A call on [n] elements nests at most [n] deep. *)
Definition quickSort (arr : list Z) (start end_ : Z) : res (list Z) :=
  quickSort_fuel (S (Z.to_nat (end_ - start + 1))) arr start end_.

Definition badInput : fault := Exited 0 "bad input".

(** [main]: the elements it prints.  A negative count makes [malloc] fail, and
    the first stored element is written through a null pointer. *)
Definition main (input : list Z) : res (list Z) :=
  match scan_int input with
  | None => Err badInput
  | Some (arraySize, input) =>
      if arraySize <? 0 then
        match scan_int input with None => Err badInput | Some _ => Err Undefined end
      else
        let* '(array, _) := read_ints (Z.to_nat arraySize) badInput input in
        let* last := s32 (arraySize - 1) in
        quickSort array 0 last
  end.

(** ** Partition *)

Section Partition.
Variables (start end_ pivot : Z).
Hypothesis (Hstart : 0 <= start).
Hypothesis (Hend : end_ < 2 ^ 31 - 1).

Lemma skip_less_spec (arr : list Z) (k : Z) :
  end_ < zlen arr -> k <= end_ -> pivot <= znth arr k ->
  forall fuel lo, start <= lo <= k -> k - lo < Z.of_nat fuel ->
  exists lo', skip_less fuel arr pivot lo = Ok lo' /\ lo <= lo' <= k /\
    pivot <= znth arr lo' /\ forall i, lo <= i < lo' -> znth arr i < pivot.
Proof.
  intros Hlen Hk Hpk. induction fuel as [|fuel IH]; intros lo Hlo Hf; [lia|].
  cbn. rewrite arr_get_ok by lia. zcase.
  - assert (lo <> k) by (intros ->; lia). rewrite s32_ok by lia.
    destruct (IH (lo + 1)) as (lo' & -> & ? & ? & Hless); [lia..|].
    exists lo'. repeat split; try lia. intros i Hi.
    destruct (decide (i = lo)) as [->|]; [lia|]. apply Hless. lia.
  - exists lo. repeat split; auto; lia.
Qed.

Lemma skip_greater_spec (arr : list Z) (k : Z) :
  end_ < zlen arr -> start <= k -> znth arr k <= pivot ->
  forall fuel hi, k <= hi <= end_ -> hi - k < Z.of_nat fuel ->
  exists hi', skip_greater fuel arr pivot hi = Ok hi' /\ k <= hi' <= hi /\
    znth arr hi' <= pivot /\ forall i, hi' < i <= hi -> pivot < znth arr i.
Proof.
  intros Hlen Hk Hpk. induction fuel as [|fuel IH]; intros hi Hhi Hf; [lia|].
  cbn. rewrite arr_get_ok by lia. zcase.
  - assert (hi <> k) by (intros ->; lia). rewrite s32_ok by lia.
    destruct (IH (hi - 1)) as (hi' & -> & ? & ? & Hgt); [lia..|].
    exists hi'. repeat split; try lia. intros i Hi.
    destruct (decide (i = hi)) as [->|]; [lia|]. apply Hgt. lia.
  - exists hi. repeat split; auto; lia.
Qed.

(** What the loop keeps: everything left of [lo] is at most the pivot,
    everything right of [hi] at least the pivot, each scan has an element to
    stop at, and [hi] has left the end of the segment or meets the pivot before
    it. *)
Record split_at (arr : list Z) (lo hi : Z) : Prop := {
  split_lo : start <= lo;
  split_hi : start <= hi <= end_;
  split_len : end_ < zlen arr;
  split_left : forall i, start <= i < lo -> znth arr i <= pivot;
  split_right : forall i, hi < i <= end_ -> pivot <= znth arr i;
  split_stop_lo : lo <= hi -> exists k, lo <= k <= end_ /\ pivot <= znth arr k;
  split_stop_hi : lo <= hi -> exists k, start <= k <= hi /\ znth arr k <= pivot;
  split_inner : hi < end_ \/ exists m, lo <= m <= hi /\ m < end_ /\ znth arr m = pivot }.

(** The answer: a divider strictly inside the segment. *)
Record divided (arr arr' : list Z) (d : Z) : Prop := {
  divided_shuffle : shuffle start end_ arr arr';
  divided_left : forall i, start <= i <= d -> znth arr' i <= pivot;
  divided_right : forall i, d < i <= end_ -> pivot <= znth arr' i;
  divided_bounds : start <= d < end_ }.

(** The state after exchanging the two elements the scans stopped at. *)
Lemma split_swap (arr : list Z) (lo hi lo' hi' : Z) :
  split_at arr lo hi -> lo <= lo' -> lo' < hi' -> hi' <= hi ->
  (forall i, lo <= i < lo' -> znth arr i < pivot) -> pivot <= znth arr lo' ->
  (forall i, hi' < i <= hi -> pivot < znth arr i) -> znth arr hi' <= pivot ->
  split_at (zswap arr lo' hi') (lo' + 1) (hi' - 1).
Proof.
  intros [] ??? Hl Hlo Hh Hhi.
  assert (Hz : forall k, 0 <= k -> znth (zswap arr lo' hi') k =
    if hi' =? k then znth arr lo' else if lo' =? k then znth arr hi' else znth arr k)
    by (intros; apply znth_zswap; lia).
  split; try (zarr; done).
  - intros i Hi. rewrite Hz by lia. zcase; try lia.
    destruct (decide (i < lo)); [apply split_left0; lia|]. specialize (Hl i). lia.
  - intros i Hi. rewrite Hz by lia. zcase; try lia.
    destruct (decide (hi < i)); [apply split_right0; lia|]. specialize (Hh i). lia.
  - intros _. exists hi'. rewrite Hz by lia. zcase; lia.
  - intros _. exists lo'. rewrite Hz by lia. zcase; lia.
Qed.

Lemma partition_loop_spec (arr0 : list Z) :
  forall fuel arr lo hi,
  split_at arr lo hi -> shuffle start end_ arr0 arr -> 0 < Z.of_nat fuel -> hi - lo + 1 < Z.of_nat fuel ->
  exists arr' d, partition_loop fuel arr pivot lo hi = Ok (arr', d) /\
    divided arr0 arr' d.
Proof.
  induction fuel as [|fuel IH]; intros arr lo hi Hs Hsh Hf0 Hf; [lia|].
  cbn [partition_loop]. destruct (Z.leb_spec lo hi) as [Hle|Hgt].
  2:{ exists arr, hi. destruct Hs. split; [done|]. split; auto.
      - intros i Hi. apply split_left0. lia.
      - destruct split_inner0 as [|(m & ? & _)]; lia. }
  destruct (split_stop_lo _ _ _ Hs Hle) as (k1 & Hk1 & Hp1).
  destruct (split_stop_hi _ _ _ Hs Hle) as (k2 & Hk2 & Hp2).
  pose proof Hs as []. unfold zlen in split_len0.
  destruct (skip_less_spec arr k1 ltac:(unfold zlen; lia) ltac:(lia) Hp1
    (S (length arr)) lo ltac:(lia) ltac:(lia)) as (lo' & -> & Hlo' & Hplo & Hless).
  destruct (skip_greater_spec arr k2 ltac:(unfold zlen; lia) ltac:(lia) Hp2
    (S (length arr)) hi ltac:(lia) ltac:(lia)) as (hi' & -> & Hhi' & Hphi & Hgr).
  rewrite Z.geb_leb. destruct (Z.leb_spec hi' lo') as [Hge|Hlt].
  - exists arr, hi'. split; [done|]. split; auto.
    + intros i Hi. destruct (decide (i = hi')) as [->|]; [lia|].
      destruct (decide (i < lo)); [apply split_left0; lia|]. specialize (Hless i). lia.
    + intros i Hi. destruct (decide (hi < i)); [apply split_right0; lia|].
      specialize (Hgr i). lia.
    + destruct split_inner0 as [|(m & Hm & ? & Hpm)]; [lia|].
      destruct (decide (m < lo')); [specialize (Hless m); lia|].
      destruct (decide (hi' < m)); [specialize (Hgr m); lia|]. lia.
  - rewrite arr_swap_ok, !s32_ok by (unfold zlen; lia).
    apply IH; [apply split_swap with lo hi; auto; lia| |lia..].
    apply shuffle_swap; auto; unfold zlen; lia.
Qed.
End Partition.


Lemma partition_divides (arr : list Z) (start end_ : Z) :
  0 <= start < end_ -> end_ < zlen arr -> zlen arr <= 2 ^ 30 ->
  exists arr' d pivot, partition arr start end_ = Ok (arr', d) /\
    divided start end_ pivot arr arr' d.
Proof.
  intros Hs He Hl. unfold partition. rewrite s32_ok by lia.
  set (m := Z.quot (start + end_) 2).
  assert (Hm : start <= m < end_) by
    (unfold m; rewrite Z.quot_div_nonneg by lia; split;
     [apply Z.div_le_lower_bound|apply Z.div_lt_upper_bound]; lia).
  rewrite arr_get_ok by lia.
  destruct (partition_loop_spec start end_ (znth arr m) ltac:(lia) ltac:(lia) arr
    (S (length arr)) arr start end_) as (arr' & d & -> & Hd).
  - split; try lia.
    + intros _. exists m. lia.
    + intros _. exists m. lia.
    + right. exists m. lia.
  - apply shuffle_refl.
  - lia.
  - unfold zlen in *. lia.
  - by exists arr', d, (znth arr m).
Qed.

(** ** Sorting *)

Lemma sorted_divided (start end_ pivot d : Z) (a : list Z) :
  sorted_seg a start d -> sorted_seg a (d + 1) end_ ->
  (forall i, start <= i <= d -> znth a i <= pivot) ->
  (forall i, d < i <= end_ -> pivot <= znth a i) ->
  sorted_seg a start end_.
Proof.
  intros H1 H2 Hl Hr i j ???.
  destruct (decide (j <= d)); [apply H1; lia|].
  destruct (decide (d < i)); [apply H2; lia|].
  specialize (Hl i ltac:(lia)). specialize (Hr j ltac:(lia)). lia.
Qed.

Lemma quickSort_fuel_spec :
  forall fuel arr start end_,
  0 <= start -> end_ < zlen arr -> zlen arr <= 2 ^ 30 -> end_ - start + 1 < Z.of_nat fuel ->
  0 < Z.of_nat fuel ->
  exists arr', quickSort_fuel fuel arr start end_ = Ok arr' /\
    shuffle start end_ arr arr' /\ sorted_seg arr' start end_.
Proof.
  induction fuel as [|fuel IH]; intros arr start end_ ?????; [lia|].
  cbn [quickSort_fuel]. rewrite Z.geb_leb.
  destruct (Z.leb_spec end_ start) as [|Hlt].
  { exists arr. repeat split; [apply shuffle_refl|]. intros i j ???.
    replace j with i by lia. lia. }
  destruct (partition_divides arr start end_) as (a1 & d & pv & -> & Hd); [lia..|].
  destruct Hd as [Hsh1 Hl Hr Hb]. pose proof (shuffle_zlen _ _ _ _ Hsh1).
  destruct (IH a1 start d) as (a2 & -> & Hsh2 & Hs2); [lia..|].
  pose proof (shuffle_zlen _ _ _ _ Hsh2). rewrite s32_ok by lia.
  destruct (IH a2 (d + 1) end_) as (a3 & -> & Hsh3 & Hs3); [lia..|].
  assert (Hout2 : forall k, d < k -> znth a2 k = znth a1 k)
    by (intros; apply (shuffle_outside start d); auto; lia).
  assert (Hout3 : forall k, 0 <= k <= d -> znth a3 k = znth a2 k)
    by (intros; apply (shuffle_outside (d + 1) end_); auto; lia).
  exists a3. split; [done|]. split.
  - apply shuffle_trans with a1; [done|]. apply shuffle_trans with a2.
    + apply shuffle_mono with start d; auto; lia.
    + apply shuffle_mono with (d + 1) end_; auto; lia.
  - apply sorted_divided with pv d; auto.
    + intros i j ???. rewrite !Hout3 by lia. apply Hs2; lia.
    + intros i Hi. rewrite Hout3 by lia.
      apply (shuffle_forall (fun x => x <= pv) start d a1); auto.
    + intros i Hi. apply (shuffle_forall (fun x => pv <= x) (d + 1) end_ a2); auto; [|lia].
      intros k Hk. rewrite Hout2 by lia. apply Hr. lia.
Qed.

Lemma quickSort_sorts (arr : list Z) :
  zlen arr <= 2 ^ 30 ->
  exists arr', quickSort arr 0 (zlen arr - 1) = Ok arr' /\ arr' ≡ₚ arr /\ Sorted Z.le arr'.
Proof.
  intros Hl. destruct (quickSort_fuel_spec (S (Z.to_nat (zlen arr - 1 - 0 + 1))) arr 0 (zlen arr - 1))
    as (arr' & E & Hsh & Hs); try (pose proof (zlen_nonneg arr); lia).
  exists arr'. split; [exact E|]. split; [by apply shuffle_perm in Hsh|].
  apply sorted_seg_Sorted. by rewrite (shuffle_zlen _ _ _ _ Hsh).
Qed.

(** [partition] on a segment of at least two elements returns; it only
    rearranges the segment, and every element up to the returned index is at
    most every element after it.  The index lies inside the segment, so both
    parts are non-empty. *)
Theorem partition_spec (arr : list Z) (start end_ : Z) :
  0 <= start < end_ -> end_ < zlen arr -> zlen arr <= 2 ^ 30 ->
  exists arr' d pivot, partition arr start end_ = Ok (arr', d) /\
    divided start end_ pivot arr arr' d.
Proof. apply partition_divides. Qed.

(** The quick sort program: when its input holds a count of at most 2^30 and
    at least that many elements, it prints exactly those elements in ascending
    order (no access outside the array, no signed overflow, no unbounded
    recursion); when the input ends before the last element, it prints
    [bad input]. *)
Theorem quick_sort_program (xs rest : list Z) :
  zlen xs <= 2 ^ 30 ->
  (exists out, main (zlen xs :: xs ++ rest) = Ok out /\ out ≡ₚ xs /\ Sorted Z.le out) /\
  forall n, zlen xs < n -> main (n :: xs) = Err badInput.
Proof.
  intros Hl. pose proof (zlen_nonneg xs). split.
  - cbn. destruct (Z.ltb_spec (zlen xs) 0); [lia|]. rewrite s32_ok by lia.
    unfold zlen at 1. rewrite Nat2Z.id, read_ints_app. by apply quickSort_sorts.
  - intros n Hn. cbn. destruct (Z.ltb_spec n 0); [lia|].
    rewrite read_ints_short; [done|]. unfold zlen in Hn. lia.
Qed.

Lemma quick_sort_program_witness :
  (exists out, main [6; 5; 3; 9; 3; 1; -2] = Ok out /\
     out ≡ₚ [5; 3; 9; 3; 1; -2] /\ Sorted Z.le out) /\
  forall n, 6 < n -> main (n :: [5; 3; 9; 3; 1; -2]) = Err badInput.
Proof. apply (quick_sort_program [5; 3; 9; 3; 1; -2] []). vm_compute. discriminate. Defined.

Lemma partition_spec_witness :
  exists arr' d pivot, partition [5; 3; 9; 3; 1; -2] 1 4 = Ok (arr', d) /\
    divided 1 4 pivot [5; 3; 9; 3; 1; -2] arr' d.
Proof. apply (partition_spec [5; 3; 9; 3; 1; -2] 1 4); vm_compute; intuition discriminate. Defined.

Example quickSort_run : main [6; 5; 3; 9; 3; 1; -2] = Ok [-2; 1; 3; 3; 5; 9].
Proof. reflexivity. Qed.
