(* ===== verification/HeapSort.v ===== *)
(** * C-Labs/Heap_sort/src/main.c

    [heapify], [makeHeap] and [heapSort] on [size_t] indices. *)
From S2P Require Import Prelude.

Fixpoint heapify_fuel (fuel : nat) (arr : list Z) (rootNode sz : Z) : res (list Z) :=
  match fuel with
  | O => Err OutOfFuel
  | S fuel =>
      let lChild := u64 (rootNode * 2 + 1) in
      let rChild := u64 (rootNode * 2 + 2) in
      let* largestNode :=
        (if lChild <? sz then
           let* l := arr_get arr lChild in
           let* r := arr_get arr rootNode in
           Ok (if l >? r then lChild else rootNode)
         else Ok rootNode) in
      let* largestNode :=
        (if rChild <? sz then
           let* r := arr_get arr rChild in
           let* g := arr_get arr largestNode in
           Ok (if r >? g then rChild else largestNode)
         else Ok largestNode) in
      let* g := arr_get arr largestNode in
      let* r := arr_get arr rootNode in
      if negb (g =? r) then
        let* arr := arr_swap arr rootNode largestNode in
        heapify_fuel fuel arr largestNode sz
      else Ok arr
  end.

(** The root of each nested call is a child of the previous one. *)
Definition heapify (arr : list Z) (rootNode sz : Z) : res (list Z) :=
  heapify_fuel (S (length arr)) arr rootNode sz.

(** [for (int i = ...; i >= 0; --i) heapify(arr, i, sz);], on [i + 1]. *)
Fixpoint makeHeap_loop (n : nat) (arr : list Z) (sz : Z) : res (list Z) :=
  match n with
  | O => Ok arr
  | S i =>
      let* arr := heapify arr (Z.of_nat i) sz in
      makeHeap_loop i arr sz
  end.

Definition makeHeap (arr : list Z) (sz : Z) : res (list Z) :=
  let i := to_s32 (u64 (sz / 2 - 1)) in
  makeHeap_loop (Z.to_nat (i + 1)) arr sz.

(** [while (sz > 0) { --sz; swap(&arr[0], &arr[sz]); heapify(arr, 0, sz); }] *)
Fixpoint heapSort_loop (sz : nat) (arr : list Z) : res (list Z) :=
  match sz with
  | O => Ok arr
  | S sz =>
      let* arr := arr_swap arr 0 (Z.of_nat sz) in
      let* arr := heapify arr 0 (Z.of_nat sz) in
      heapSort_loop sz arr
  end.

Definition heapSort (arr : list Z) (sz : Z) : res (list Z) :=
  let* arr := makeHeap arr sz in
  heapSort_loop (Z.to_nat sz) arr.

Definition badInput : fault := Exited 0 "bad input".

(** [main]: the elements it prints.  A negative count makes [malloc] fail, and
    the first stored element is written through a null pointer. *)
Definition main (input : list Z) : res (list Z) :=
  match scan_int input with
  | None => Err badInput
  | Some (elementsN, input) =>
      if elementsN <? 0 then
        match scan_int input with None => Err badInput | Some _ => Err Undefined end
      else
        let* '(elements, _) := read_ints (Z.to_nat elementsN) badInput input in
        heapSort elements elementsN
  end.

(** ** The heap order *)

Definition is_child (c p : Z) : Prop := c = 2 * p + 1 \/ c = 2 * p + 2.

(** Every node from [k] on is at least its children below [sz]. *)
Definition heap_from (a : list Z) (k sz : Z) : Prop :=
  forall p c, k <= p -> is_child c p -> c < sz -> znth a c <= znth a p.

(** The same, but for the node [r], whose children are at most its parent. *)
Definition heap_but (a : list Z) (k sz r : Z) : Prop :=
  (forall p c, k <= p -> p <> r -> is_child c p -> c < sz -> znth a c <= znth a p) /\
  (forall p c, k <= p -> is_child r p -> is_child c r -> c < sz -> znth a c <= znth a p).

Lemma heap_from_but (a : list Z) (k sz : Z) :
  0 <= k -> heap_from a (k + 1) sz -> heap_but a k sz k.
Proof.
  intros Hk Hh. split.
  - intros p c ??. apply Hh. lia.
  - unfold is_child. intros p c ???. lia.
Qed.

Lemma heap_max (a : list Z) (sz : Z) :
  heap_from a 0 sz -> forall n i, 0 <= i < sz -> (Z.to_nat i < n)%nat -> znth a i <= znth a 0.
Proof.
  intros Hh. induction n as [|n IH]; intros i Hi Hn; [lia|].
  destruct (decide (i = 0)) as [->|]; [lia|].
  set (p := (i - 1) / 2).
  assert (Hp : is_child i p) by (unfold is_child, p; pose proof (Z.div_mod (i - 1) 2);
    pose proof (Z.mod_pos_bound (i - 1) 2); lia).
  assert (0 <= p < i) by (unfold is_child in Hp; lia).
  transitivity (znth a p); [apply Hh; auto; lia|]. apply IH; lia.
Qed.

Lemma heap_but_done (a : list Z) (k sz r : Z) :
  heap_but a k sz r ->
  (forall c, is_child c r -> c < sz -> znth a c <= znth a r) -> heap_from a k sz.
Proof.
  intros [H1 _] H2 p c ???. destruct (decide (p = r)) as [->|]; auto.
Qed.

(** Moving the largest child up leaves the order broken at that child only. *)
Lemma heap_but_step (a : list Z) (k sz r l : Z) :
  heap_but a k sz r -> 0 <= k <= r -> is_child l r -> l < sz <= zlen a ->
  znth a r <= znth a l ->
  (forall c, is_child c r -> c < sz -> znth a c <= znth a l) ->
  heap_but (zswap a r l) k sz l.
Proof.
  intros [H1 H2] ? Hl ? Hrl Hmax.
  assert (Hz : forall i, 0 <= i -> znth (zswap a r l) i =
    if l =? i then znth a r else if r =? i then znth a l else znth a i)
    by (intros; apply znth_zswap; unfold is_child in *; lia).
  split; intros p c.
  - intros ?? Hc ?. rewrite !Hz by (unfold is_child in *; lia).
    assert (Hlp : l = c -> p = r) by (unfold is_child in *; lia).
    zcase; subst; try lia; try (unfold is_child in *; lia).
    + apply (H2 p l); auto; lia.
    + apply Hmax; auto.
    + apply H1; auto.
  - intros ? Hp Hc ?. rewrite !Hz by (unfold is_child in *; lia).
    assert (p = r) as -> by (unfold is_child in *; lia).
    zcase; subst; try lia; try (unfold is_child in *; lia).
    apply H1; auto; unfold is_child in *; lia.
Qed.

(** The largest of a node and its children below [sz], as [heapify] finds it. *)
Lemma heapify_unfold (fuel : nat) (arr : list Z) (r sz : Z) :
  0 <= r < 2 ^ 62 -> r < zlen arr -> sz <= zlen arr ->
  exists l, (l = r \/ is_child l r /\ l < sz) /\ znth arr r <= znth arr l /\
    (forall c, is_child c r -> c < sz -> znth arr c <= znth arr l) /\
    (znth arr l = znth arr r -> l = r) /\
    heapify_fuel (S fuel) arr r sz =
      if negb (znth arr l =? znth arr r) then
        let* arr := arr_swap arr r l in heapify_fuel fuel arr l sz
      else Ok arr.
Proof.
  intros Hr Hlen Hsz. cbn [heapify_fuel]. rewrite !u64_small by lia.
  assert (Hc : forall c, is_child c r <-> c = r * 2 + 1 \/ c = r * 2 + 2)
    by (unfold is_child; lia).
  destruct (Z.ltb_spec (r * 2 + 1) sz); destruct (Z.ltb_spec (r * 2 + 2) sz); try lia;
    rewrite ?arr_get_ok by lia; rewrite ?Z.gtb_ltb.
  - destruct (Z.ltb_spec (znth arr r) (znth arr (r * 2 + 1)));
      rewrite arr_get_ok by lia; rewrite Z.gtb_ltb.
    + destruct (Z.ltb_spec (znth arr (r * 2 + 1)) (znth arr (r * 2 + 2)));
        rewrite arr_get_ok by lia.
      * exists (r * 2 + 2). repeat split; auto; try lia.
        -- right. rewrite Hc. lia.
        -- intros c [-> | ->]%Hc ?; lia.
      * exists (r * 2 + 1). repeat split; auto; try lia.
        -- right. rewrite Hc. lia.
        -- intros c [-> | ->]%Hc ?; lia.
    + destruct (Z.ltb_spec (znth arr r) (znth arr (r * 2 + 2)));
        rewrite arr_get_ok by lia.
      * exists (r * 2 + 2). repeat split; auto; try lia.
        -- right. rewrite Hc. lia.
        -- intros c [-> | ->]%Hc ?; lia.
      * exists r. repeat split; auto; try lia. intros c [-> | ->]%Hc ?; lia.
  - destruct (Z.ltb_spec (znth arr r) (znth arr (r * 2 + 1))); rewrite arr_get_ok by lia.
    + exists (r * 2 + 1). repeat split; auto; try lia.
      * right. rewrite Hc. lia.
      * intros c [-> | ->]%Hc ?; lia.
    + exists r. repeat split; auto; try lia. intros c [-> | ->]%Hc ?; lia.
  - exists r. repeat split; auto; try lia. intros c [-> | ->]%Hc ?; lia.
Qed.

Lemma heapify_fuel_spec (k sz : Z) :
  forall fuel arr r,
  0 <= k <= r -> r < zlen arr -> sz <= zlen arr -> zlen arr <= 2 ^ 62 ->
  heap_but arr k sz r -> Z.max 0 (sz - r) < Z.of_nat fuel ->
  exists arr', heapify_fuel fuel arr r sz = Ok arr' /\ heap_from arr' k sz /\
    shuffle k (sz - 1) arr arr'.
Proof.
  induction fuel as [|fuel IH]; intros arr r ????? Hf; [lia|].
  destruct (heapify_unfold fuel arr r sz) as (l & Hl & Hrl & Hmax & Heq & ->); [lia..|].
  destruct (Z.eqb_spec (znth arr l) (znth arr r)) as [E|Hne]; cbn [negb].
  - exists arr. rewrite (Heq E) in Hmax. repeat split; [|apply shuffle_refl].
    by apply heap_but_done with r.
  - destruct Hl as [->|[Hl ?]]; [done|].
    assert (r < l) by (unfold is_child in *; lia). rewrite arr_swap_ok by lia.
    destruct (IH (zswap arr r l) l) as (arr' & -> & Hh & Hsh); zarr.
    { apply heap_but_step; auto; lia. }
    exists arr'. repeat split; auto. apply shuffle_trans with (zswap arr r l); auto.
    apply shuffle_swap; [apply shuffle_refl|lia..].
Qed.

Lemma heapify_ok (arr : list Z) (k rootNode sz : Z) :
  0 <= k <= rootNode -> rootNode < zlen arr -> sz <= zlen arr -> zlen arr <= 2 ^ 62 ->
  heap_but arr k sz rootNode ->
  exists arr', heapify arr rootNode sz = Ok arr' /\ heap_from arr' k sz /\
    shuffle k (sz - 1) arr arr'.
Proof.
  intros. apply (heapify_fuel_spec k sz); auto. unfold zlen in *. lia.
Qed.

Lemma makeHeap_loop_spec (sz : Z) :
  forall n arr, 2 * Z.of_nat n <= sz -> sz <= zlen arr -> zlen arr <= 2 ^ 62 ->
  heap_from arr (Z.of_nat n) sz ->
  exists arr', makeHeap_loop n arr sz = Ok arr' /\ heap_from arr' 0 sz /\
    shuffle 0 (sz - 1) arr arr'.
Proof.
  induction n as [|n IH]; intros arr Hn Hsz Hl Hh.
  { exists arr. repeat split; auto. apply shuffle_refl. }
  cbn [makeHeap_loop].
  destruct (heapify_ok arr (Z.of_nat n) (Z.of_nat n) sz) as (a1 & -> & Hh1 & Hs1);
    [lia..| |].
  { apply heap_from_but; [lia|]. by replace (Z.of_nat n + 1) with (Z.of_nat (S n)) by lia. }
  pose proof (shuffle_zlen _ _ _ _ Hs1).
  destruct (IH a1) as (a2 & -> & Hh2 & Hs2); auto; try lia.
  exists a2. repeat split; auto. apply shuffle_trans with a1; auto.
  apply shuffle_mono with (Z.of_nat n) (sz - 1); auto; lia.
Qed.

Lemma makeHeap_spec (arr : list Z) :
  zlen arr <= 2 ^ 32 ->
  exists arr', makeHeap arr (zlen arr) = Ok arr' /\ heap_from arr' 0 (zlen arr) /\
    shuffle 0 (zlen arr - 1) arr arr'.
Proof.
  intros Hl. pose proof (zlen_nonneg arr). unfold makeHeap.
  set (h := zlen arr / 2). assert (2 * h <= zlen arr < 2 * h + 2) by
    (unfold h; pose proof (Z.div_mod (zlen arr) 2); pose proof (Z.mod_pos_bound (zlen arr) 2); lia).
  assert (to_s32 (u64 (h - 1)) = h - 1) as ->.
  { destruct (decide (h = 0)) as [->|]; [done|].
    rewrite u64_small by lia. apply to_signed_small; lia. }
  replace (h - 1 + 1) with h by lia.
  destruct (makeHeap_loop_spec (zlen arr) (Z.to_nat h) arr) as (arr' & -> & ? & ?);
    [lia..| |by exists arr'].
  intros p c ? Hc ?. unfold is_child in Hc. lia.
Qed.

(** The loop of [heapSort]: the first [sz] elements form a heap and are at most
    the sorted rest. *)
Lemma heapSort_loop_spec :
  forall sz arr, Z.of_nat sz <= zlen arr -> zlen arr <= 2 ^ 62 ->
  heap_from arr 0 (Z.of_nat sz) -> sorted_seg arr (Z.of_nat sz) (zlen arr - 1) ->
  (forall i j, 0 <= i < Z.of_nat sz -> Z.of_nat sz <= j < zlen arr -> znth arr i <= znth arr j) ->
  exists arr', heapSort_loop sz arr = Ok arr' /\ arr' ≡ₚ arr /\ sorted_seg arr' 0 (zlen arr' - 1).
Proof.
  induction sz as [|n IH]; intros arr Hn Hl Hh Hs Hle; [by exists arr|].
  cbn [heapSort_loop]. rewrite arr_swap_ok by lia.
  set (a1 := zswap arr 0 (Z.of_nat n)).
  assert (Hz : forall i, 0 <= i -> znth a1 i = if Z.of_nat n =? i then znth arr 0
    else if 0 =? i then znth arr (Z.of_nat n) else znth arr i)
    by (intros; apply znth_zswap; lia).
  assert (Hl1 : zlen a1 = zlen arr) by apply zlen_zswap.
  destruct (heapify_ok a1 0 0 (Z.of_nat n)) as (a2 & -> & Hh2 & Hs2); [lia..| |].
  { apply heap_from_but; [lia|]. intros p c ? Hc ?.
    rewrite !Hz by (unfold is_child in *; lia).
    zcase; try (unfold is_child in *; lia). apply Hh; auto; lia. }
  pose proof (shuffle_zlen _ _ _ _ Hs2).
  assert (Hout : forall i, Z.of_nat n <= i -> znth a2 i = znth a1 i)
    by (intros; eapply shuffle_outside; eauto; lia).
  assert (Hmax : forall i, 0 <= i <= Z.of_nat n -> znth arr i <= znth arr 0)
    by (intros; eapply (heap_max _ _ Hh (S (S n))); lia).
  destruct (IH a2) as (a3 & -> & Hp & Hs3); auto; try lia.
  - intros i j ???. rewrite !Hout, !Hz by lia. zcase; subst; try lia.
    + apply Hle; lia.
    + apply Hs; lia.
  - intros i j Hi Hj. rewrite (Hout j), Hz by lia.
    apply (shuffle_forall (fun x => x <= _) 0 (Z.of_nat n - 1) a1); auto; [|lia].
    intros k Hk. rewrite Hz by lia. zcase; try lia; try (apply Hmax; lia); apply Hle; lia.
  - exists a3. split; [done|]. split; [|done]. rewrite Hp, (shuffle_perm _ _ _ _ Hs2).
    apply zswap_perm; lia.
Qed.

Lemma heapSort_sorts (arr : list Z) :
  zlen arr <= 2 ^ 32 ->
  exists arr', heapSort arr (zlen arr) = Ok arr' /\ arr' ≡ₚ arr /\ Sorted Z.le arr'.
Proof.
  intros Hl. pose proof (zlen_nonneg arr). unfold heapSort.
  destruct (makeHeap_spec arr Hl) as (a1 & -> & Hh & Hsh).
  pose proof (shuffle_zlen _ _ _ _ Hsh) as Hl1.
  destruct (heapSort_loop_spec (Z.to_nat (zlen arr)) a1) as (a2 & -> & Hp & Hs);
    rewrite ?Z2Nat.id by lia; try lia; auto.
  - intros i j ???. lia.
  - exists a2. split; [done|]. split; [|by apply sorted_seg_Sorted].
    rewrite Hp. by apply shuffle_perm in Hsh.
Qed.

(** [heapify(arr, rootNode, sz)] repairs a heap whose order may be broken at
    [rootNode] only (the children of [rootNode] being at most its parent): it
    returns, it rearranges only the nodes from [k] to [sz - 1], and the result is
    in heap order from [k] on. *)
Theorem heapify_restores (arr : list Z) (k rootNode sz : Z) :
  0 <= k <= rootNode -> rootNode < zlen arr -> sz <= zlen arr -> zlen arr <= 2 ^ 62 ->
  heap_but arr k sz rootNode ->
  exists arr', heapify arr rootNode sz = Ok arr' /\ heap_from arr' k sz /\
    shuffle k (sz - 1) arr arr'.
Proof. apply heapify_ok. Qed.

(** The heap sort program: when its input holds a count of at most 2^32 and
    at least that many elements, it prints exactly those elements in ascending
    order (every access is inside the array, every loop ends); when the input
    ends before the last element, it prints [bad input]. *)
Theorem heap_sort_program (xs rest : list Z) :
  zlen xs <= 2 ^ 32 ->
  (exists out, main (zlen xs :: xs ++ rest) = Ok out /\ out ≡ₚ xs /\ Sorted Z.le out) /\
  forall n, zlen xs < n -> main (n :: xs) = Err badInput.
Proof.
  intros Hl. pose proof (zlen_nonneg xs). split.
  - cbn. destruct (Z.ltb_spec (zlen xs) 0); [lia|]. unfold zlen at 1. rewrite Nat2Z.id.
    rewrite read_ints_app. by apply heapSort_sorts.
  - intros n Hn. cbn. destruct (Z.ltb_spec n 0); [lia|].
    rewrite read_ints_short; [done|]. unfold zlen in Hn. lia.
Qed.

Lemma heap_sort_program_witness :
  (exists out, main [7; 5; 3; 9; 3; 1; -2; 7] = Ok out /\
     out ≡ₚ [5; 3; 9; 3; 1; -2; 7] /\ Sorted Z.le out) /\
  forall n, 7 < n -> main (n :: [5; 3; 9; 3; 1; -2; 7]) = Err badInput.
Proof. apply (heap_sort_program [5; 3; 9; 3; 1; -2; 7] []). vm_compute. discriminate. Defined.

Lemma heapify_restores_witness :
  exists arr', heapify [1; 9; 7; 4; 8] 0 5 = Ok arr' /\ heap_from arr' 0 5 /\
    shuffle 0 4 [1; 9; 7; 4; 8] arr'.
Proof.
  apply (heapify_restores [1; 9; 7; 4; 8] 0 0 5); try (vm_compute; intuition discriminate).
  apply heap_from_but; [lia|]. intros p c ? [-> | ->] ?;
    assert (p = 1) as -> by lia; vm_compute; discriminate.
Defined.

Example heapSort_run : main [7; 5; 3; 9; 3; 1; -2; 7] = Ok [-2; 1; 3; 3; 5; 7; 9].
Proof. reflexivity. Qed.
