(* ===== verification/Permutations.v ===== *)
(** * C-Labs/Permutations_generator/src/main.c

    The generator of lexicographic successors.  A string is the list of its
    character codes; pointers into it are indices. *)
From S2P Require Import Prelude.

(** [hasRepeatedSymbols]: [before] holds the characters before [p1]. *)
Fixpoint hasRepeatedSymbols_from (before str : list Z) : bool :=
  match str with
  | [] => false
  | p1 :: str =>
      existsb (fun p2 => p2 =? p1) before || hasRepeatedSymbols_from (before ++ [p1]) str
  end.

Definition hasRepeatedSymbols (str : list Z) : bool := hasRepeatedSymbols_from [] str.

Definition badInput : fault := Exited 0 "bad input".

Definition validateSequence (seq : list Z) : res unit :=
  if existsb (fun p => (p <? 48) || (p >? 57)) seq then Err badInput
  else if hasRepeatedSymbols seq then Err badInput
  else Ok tt.

(** [while (start < end) { swap(start, end); ++start; --end; }] *)
Fixpoint reverse_fuel (fuel : nat) (a : list Z) (start end_ : Z) : res (list Z) :=
  match fuel with
  | O => Err OutOfFuel
  | S fuel =>
      if start <? end_ then
        let* a := arr_swap a start end_ in
        reverse_fuel fuel a (start + 1) (end_ - 1)
      else Ok a
  end.

Definition reverse (a : list Z) (start end_ : Z) : res (list Z) :=
  reverse_fuel (S (length a)) a start end_.

(** [while ( *p >= *(p + 1)) { --p; if (p < start) return -1; }]; [None] is the
    early return. *)
Fixpoint find_ascent (fuel : nat) (a : list Z) (start p : Z) : res (option Z) :=
  match fuel with
  | O => Err OutOfFuel
  | S fuel =>
      let* x := arr_get a p in
      let* y := arr_get a (p + 1) in
      if x >=? y then
        let p := p - 1 in
        if p <? start then Ok None else find_ascent fuel a start p
      else Ok (Some p)
  end.

(** [while ( *lo <= *p) --lo;] *)
Fixpoint find_greater (fuel : nat) (a : list Z) (p lo : Z) : res Z :=
  match fuel with
  | O => Err OutOfFuel
  | S fuel =>
      let* x := arr_get a lo in
      let* y := arr_get a p in
      if x <=? y then find_greater fuel a p (lo - 1) else Ok lo
  end.

Definition makeNextPermutation (sequence : list Z) (sz : Z) : res (list Z * Z) :=
  let start := 0 in
  let end_ := start + sz - 1 in
  if start =? end_ then Ok (sequence, -1)
  else
    let* found := find_ascent (S (length sequence)) sequence start (end_ - 1) in
    match found with
    | None => Ok (sequence, -1)
    | Some p =>
        let* lo := find_greater (S (length sequence)) sequence p end_ in
        let* sequence := arr_swap sequence p lo in
        let* sequence := reverse sequence (p + 1) end_ in
        Ok (sequence, 1)
    end.

(** The loop of [main]: the lines it prints. *)
Fixpoint print_permutations (permutationsAmount : nat) (sequence : list Z) (sequenceLen : Z)
  : res (list (list Z)) :=
  match permutationsAmount with
  | O => Ok []
  | S n =>
      let* '(sequence, found) := makeNextPermutation sequence sequenceLen in
      if found =? -1 then Ok []
      else
        let* lines := print_permutations n sequence sequenceLen in
        Ok (sequence :: lines)
  end.

(** [main]: [line] and [amount] are what the two [scanf] calls convert, [None]
    for a failed conversion; the first stores a non-empty string of at most 50
    characters. *)
Definition main (line : option (list Z)) (amount : option Z) : res (list (list Z)) :=
  match line with
  | None => Err badInput
  | Some sequence =>
      match amount with
      | None => Err badInput
      | Some permutationsAmount =>
          let* _ := validateSequence sequence in
          print_permutations (Z.to_nat permutationsAmount) sequence (zlen sequence)
      end
  end.

(** ** Specification: the lexicographic order *)

Fixpoint lex (s t : list Z) : Prop :=
  match s, t with
  | x :: s, y :: t => x < y \/ x = y /\ lex s t
  | _, _ => False
  end.

(** [t] is the next permutation after [s]. *)
Definition next_of (s t : list Z) : Prop :=
  t ≡ₚ s /\ lex s t /\ forall u, u ≡ₚ s -> lex s u -> t = u \/ lex t u.

Definition last_permutation (s : list Z) : Prop := forall u, u ≡ₚ s -> ~ lex s u.

Lemma ascending_least (m t : list Z) :
  StronglySorted Z.le m -> t ≡ₚ m -> m = t \/ lex m t.
Proof.
  intros Hs. revert t. induction Hs as [|a m Hs IH Ha]; intros t Ht.
  { apply Permutation_nil_r in Ht as ->. by left. }
  destruct t as [|b t]; [by apply Permutation_nil_l in Ht|].
  assert (Hab : a <= b).
  { assert (Hb : b ∈ a :: m) by (rewrite <- Ht; apply elem_of_cons; by left).
    rewrite Forall_forall in Ha. apply elem_of_cons in Hb as [->|Hb]; [lia|auto]. }
  destruct (decide (a = b)) as [<-|]; [|right; cbn; lia].
  apply Permutation_cons_inv in Ht. destruct (IH t Ht) as [->|]; [by left|right; cbn; auto].
Qed.

Lemma descending_last (m : list Z) : StronglySorted Z.ge m -> last_permutation m.
Proof.
  induction 1 as [|a m Hs IH Ha]; intros t Ht Hl.
  { by apply Permutation_nil_r in Ht as ->. }
  destruct t as [|b t]; [done|]. cbn in Hl.
  assert (Hab : b <= a).
  { assert (Hb : b ∈ a :: m) by (rewrite <- Ht; apply elem_of_cons; by left).
    rewrite Forall_forall in Ha.
    apply elem_of_cons in Hb as [->|Hb]; [lia|]. apply Ha in Hb. lia. }
  destruct Hl as [|[-> Hl]]; [lia|]. apply Permutation_cons_inv in Ht. by apply (IH t).
Qed.

(** The shape every next permutation has. *)
Lemma next_of_exchange (pre suf m : list Z) (x y : Z) :
  StronglySorted Z.ge suf -> StronglySorted Z.le m -> y :: m ≡ₚ x :: suf ->
  x < y -> (forall z, z ∈ suf -> x < z -> y <= z) ->
  next_of (pre ++ x :: suf) (pre ++ y :: m).
Proof.
  intros Hsuf Hm Hp Hxy Hmin. split; [|split].
  - by rewrite Hp.
  - induction pre; cbn; auto.
  - induction pre as [|c pre IH]; intros u Hu Hl; destruct u as [|d u]; try done; cbn in *.
    + destruct Hl as [Hl|[-> Hl]].
      2:{ apply Permutation_cons_inv in Hu. by destruct (descending_last _ Hsuf u Hu). }
      assert (Hd : d ∈ x :: suf) by (rewrite <- Hu; apply elem_of_cons; by left).
      apply elem_of_cons in Hd as [->|Hd]; [lia|]. apply Hmin in Hd; [|done].
      destruct (decide (y = d)) as [<-|]; [|right; left; lia].
      rewrite <- Hp in Hu. apply Permutation_cons_inv in Hu.
      destruct (ascending_least m u Hm Hu) as [->|]; auto.
    + destruct Hl as [Hl|[-> Hl]]; [by right; left|].
      apply Permutation_cons_inv in Hu. destruct (IH u Hu Hl) as [->|]; auto.
Qed.

(** ** What the loops compute *)

Lemma reverse_fuel_spec :
  forall fuel a s e, 0 <= s -> s <= e + 1 -> e < zlen a -> e - s + 1 < Z.of_nat fuel ->
  exists b, reverse_fuel fuel a s e = Ok b /\ zlen b = zlen a /\ b ≡ₚ a /\
    forall k, 0 <= k -> znth b k =
      if (s <=? k) && (k <=? e) then znth a (s + e - k) else znth a k.
Proof.
  induction fuel as [|fuel IH]; intros a s e ??? Hf; [lia|].
  cbn [reverse_fuel]. destruct (Z.ltb_spec s e).
  - rewrite arr_swap_ok by lia.
    destruct (IH (zswap a s e) (s + 1) (e - 1)) as (b & -> & Hl & Hp & Hb); zarr.
    exists b. repeat split; zarr; [by rewrite Hp, zswap_perm by lia|]. intros k Hk. rewrite Hb by done.
    zcase; try lia; rewrite znth_zswap by lia; zcase; try lia; f_equal; lia.
  - exists a. split_and!; try done. intros k Hk. zcase; f_equal; lia.
Qed.

Lemma find_ascent_spec (a : list Z) :
  forall fuel p, 0 <= p -> p + 1 < zlen a -> p < Z.of_nat fuel ->
  (forall i, p + 1 <= i -> i + 1 < zlen a -> znth a (i + 1) <= znth a i) ->
  exists r, find_ascent fuel a 0 p = Ok r /\
    match r with
    | None => forall i, 0 <= i -> i + 1 < zlen a -> znth a (i + 1) <= znth a i
    | Some q => 0 <= q <= p /\ znth a q < znth a (q + 1) /\
        forall i, q + 1 <= i -> i + 1 < zlen a -> znth a (i + 1) <= znth a i
    end.
Proof.
  induction fuel as [|fuel IH]; intros p ??? Hd; [lia|].
  cbn [find_ascent]. rewrite !arr_get_ok by lia. rewrite Z.geb_leb.
  destruct (Z.leb_spec (znth a (p + 1)) (znth a p)).
  2:{ exists (Some p). repeat split; auto; lia. }
  assert (Hd' : forall i, p <= i -> i + 1 < zlen a -> znth a (i + 1) <= znth a i).
  { intros i ??. destruct (decide (i = p)) as [->|]; [done|]. apply Hd; lia. }
  destruct (Z.ltb_spec (p - 1) 0).
  { exists None. split; [done|]. intros i ??. apply Hd'; lia. }
  destruct (IH (p - 1)) as (r & -> & Hr); try lia.
  { intros i ??. apply Hd'; lia. }
  exists r. split; [done|]. destruct r; [|done]. destruct Hr as (? & ? & ?). repeat split; auto; lia.
Qed.

Lemma find_greater_spec (a : list Z) (p k : Z) :
  0 <= p < k -> k < zlen a -> znth a p < znth a k ->
  forall fuel lo, k <= lo < zlen a -> lo - k < Z.of_nat fuel ->
  exists l, find_greater fuel a p lo = Ok l /\ k <= l <= lo /\ znth a p < znth a l /\
    forall i, l < i <= lo -> znth a i <= znth a p.
Proof.
  intros ?? Hk. induction fuel as [|fuel IH]; intros lo ? Hf; [lia|].
  cbn [find_greater]. rewrite !arr_get_ok by lia. destruct (Z.leb_spec (znth a lo) (znth a p)).
  - assert (lo <> k) by (intros ->; lia).
    destruct (IH (lo - 1)) as (l & -> & ? & ? & Hl); try lia.
    exists l. repeat split; auto; try lia. intros i Hi.
    destruct (decide (i = lo)) as [->|]; [done|]. apply Hl. lia.
  - exists lo. repeat split; auto; lia.
Qed.

Lemma steps_descend (a : list Z) (s : Z) :
  (forall i, s <= i -> i + 1 < zlen a -> znth a (i + 1) <= znth a i) ->
  forall i j, s <= i <= j -> j < zlen a -> znth a j <= znth a i.
Proof.
  intros Hd i j Hij. replace j with (i + Z.of_nat (Z.to_nat (j - i))) by lia.
  generalize (Z.to_nat (j - i)). intros n. induction n as [|n IH]; intros ?; [by rewrite Z.add_0_r|].
  transitivity (znth a (i + Z.of_nat n)); [|apply IH; lia].
  replace (i + Z.of_nat (S n)) with (i + Z.of_nat n + 1) by lia. apply Hd; lia.
Qed.

(** A list given by its elements is sorted when they are. *)
Lemma sorted_by_index (R : Z -> Z -> Prop) (m : list Z) :
  (forall i j, 0 <= i < j -> j < zlen m -> R (znth m i) (znth m j)) -> StronglySorted R m.
Proof.
  induction m as [|x m IH]; intros Hm; constructor.
  - apply IH. intros i j ??. specialize (Hm (Z.succ i) (Z.succ j)).
    rewrite zlen_cons, !znth_cons_succ in Hm by lia. apply Hm; lia.
  - apply Forall_forall. intros y (i & Hi & <-)%elem_znth.
    specialize (Hm 0 (Z.succ i)). rewrite zlen_cons, znth_cons_0, znth_cons_succ in Hm by lia.
    apply Hm; lia.
Qed.

(** The suffix after the exchange and the reversal, element by element. *)
Lemma exchanged_suffix_sorted (a b : list Z) (p l : Z) :
  0 <= p -> p + 1 <= l < zlen a -> zlen b = zlen a -> znth a p < znth a l ->
  (forall i, p + 1 <= i -> i + 1 < zlen a -> znth a (i + 1) <= znth a i) ->
  (forall i, l < i < zlen a -> znth a i <= znth a p) ->
  (forall k, 0 <= k -> znth b k =
      if (p + 1 <=? k) && (k <=? zlen a - 1) then znth (zswap a p l) (p + 1 + (zlen a - 1) - k)
      else znth (zswap a p l) k) ->
  StronglySorted Z.le (drop (S (Z.to_nat p)) b).
Proof.
  intros ?? Hlb Hpl Hd Hle Hb. apply sorted_by_index. intros i j ?.
  rewrite zlen_drop by lia. intros ?. rewrite !znth_drop, !Hb by lia.
  pose proof (steps_descend a (p + 1) Hd) as Hdesc.
  assert (Hgt : forall k, p + 1 <= k <= l -> znth a p <= znth a k)
    by (intros k ?; specialize (Hdesc k l); lia).
  zcase; try lia; rewrite !znth_zswap by lia; zcase; try lia.
  all: first [apply Hgt; lia | apply Hle; lia | apply Hdesc; lia].
Qed.

Lemma makeNextPermutation_spec (a : list Z) :
  1 <= zlen a ->
  exists b r, makeNextPermutation a (zlen a) = Ok (b, r) /\
    (r = -1 /\ b = a /\ last_permutation a \/ r = 1 /\ next_of a b).
Proof.
  intros Hl. unfold makeNextPermutation. rewrite Z.add_0_l.
  destruct (Z.eqb_spec 0 (zlen a - 1)).
  { exists a, (-1). split; [done|]. left. repeat split. apply descending_last, sorted_by_index. lia. }
  destruct (find_ascent_spec a (S (length a)) (zlen a - 1 - 1)) as ([p|] & -> & Hp);
    try (unfold zlen in *; lia).
  2:{ exists a, (-1). split; [done|]. left. repeat split. apply descending_last, sorted_by_index.
      intros i j ??. pose proof (steps_descend a 0 Hp i j). lia. }
  destruct Hp as (Hpl & Hasc & Hd). pose proof (steps_descend a (p + 1) Hd) as Hdesc.
  destruct (find_greater_spec a p (p + 1) ltac:(lia) ltac:(lia) Hasc (S (length a)) (zlen a - 1))
    as (l & -> & Hl1 & Hpl1 & Hle); try (unfold zlen in *; lia).
  rewrite arr_swap_ok by lia. unfold reverse.
  destruct (reverse_fuel_spec (S (length (zswap a p l))) (zswap a p l) (p + 1) (zlen a - 1))
    as (b & -> & Hlb & Hpb & Hb); zarr.
  { unfold zlen, zswap. rewrite !length_zset. lia. }
  exists b, 1. split; [done|]. right. split; [done|].
  rewrite zswap_perm in Hpb by lia.
  assert (Ebp : znth b p = znth a l) by (rewrite Hb by lia; zcase; try lia; rewrite znth_zswap by lia; zcase; try lia; done).
  assert (Epre : take (Z.to_nat p) b = take (Z.to_nat p) a).
  { apply zlist_eq; rewrite !zlen_take by lia; [done|]. intros i Hi.
    rewrite !znth_take, Hb by lia. zcase; try lia; rewrite znth_zswap by lia; zcase; try lia; done. }
  assert (Eb : b = take (Z.to_nat p) a ++ znth a l :: drop (S (Z.to_nat p)) b).
  { rewrite <- Epre, <- Ebp. apply zsplit. lia. }
  rewrite Eb. rewrite (zsplit a p) at 1 by lia. apply next_of_exchange.
  - apply sorted_by_index. intros i j ?. rewrite zlen_drop by lia. intros ?.
    rewrite !znth_drop by lia. apply Z.le_ge, Hdesc; lia.
  - apply exchanged_suffix_sorted with a l; auto; try lia. intros i ?. apply Hle; lia.
  - apply (Permutation_app_inv_l (take (Z.to_nat p) a)). rewrite <- Eb, <- zsplit by lia. done.
  - done.
  - intros z (i & Hi & <-)%elem_znth. rewrite zlen_drop in Hi by lia.
    rewrite znth_drop by lia. intros Hz.
    destruct (decide (l < Z.of_nat (S (Z.to_nat p)) + i));
      [specialize (Hle (Z.of_nat (S (Z.to_nat p)) + i)); lia|].
    apply Hdesc; lia.
Qed.

Lemma last_not_next (s t : list Z) : last_permutation s -> ~ next_of s t.
Proof. intros Hl (Hp & Hx & _). by apply (Hl t). Qed.

(** The lines [main] prints: successive next permutations, [n] of them unless
    there is no further one. *)
Inductive successors : nat -> list Z -> list (list Z) -> Prop :=
| succ_enough s : successors 0 s []
| succ_last n s : last_permutation s -> successors (S n) s []
| succ_next n s t ts : next_of s t -> successors n t ts -> successors (S n) s (t :: ts).

Lemma print_permutations_spec :
  forall n a, 1 <= zlen a ->
  exists lines, print_permutations n a (zlen a) = Ok lines /\ successors n a lines.
Proof.
  induction n as [|n IH]; intros a Hl; cbn [print_permutations].
  { exists []. split; [done|]. apply succ_enough. }
  destruct (makeNextPermutation_spec a Hl) as (b & r & -> & [(-> & -> & Hlast)|(-> & Hn)]); cbn.
  - exists []. split; [done|]. by apply succ_last.
  - assert (Hlb : zlen b = zlen a) by
      (destruct Hn as (Hp & _); unfold zlen; by rewrite Hp).
    destruct (IH b) as (lines & E & Hs); [lia|]. rewrite <- Hlb, E.
    exists (b :: lines). split; [done|]. by apply succ_next.
Qed.

Lemma hasRepeatedSymbols_from_spec (str : list Z) :
  forall before, NoDup before ->
  hasRepeatedSymbols_from before str = false <-> NoDup (before ++ str).
Proof.
  induction str as [|c str IH]; intros before Hn; cbn; [by rewrite app_nil_r|].
  replace (before ++ c :: str) with ((before ++ [c]) ++ str) by (by rewrite <- app_assoc).
  rewrite orb_false_iff.
  assert (Hc : existsb (fun p2 => p2 =? c) before = false <-> c ∉ before).
  { rewrite <- not_true_iff_false, existsb_exists. split.
    - intros Hx Hc. apply Hx. exists c. split; [by apply list_elem_of_In|apply Z.eqb_refl].
    - intros Hx (d & Hd & ->%Z.eqb_eq). by apply Hx, list_elem_of_In. }
  rewrite Hc. split.
  - intros [Hx Hr]. apply IH; [|done]. apply NoDup_app. split_and!; [done| |apply NoDup_singleton].
    by intros x Hxb ->%list_elem_of_singleton.
  - intros Hnd. pose proof Hnd as (Hl & _)%NoDup_app. split; [|by apply IH].
    apply NoDup_app in Hl as (_ & Hd & _). intros Hx. by apply (Hd c Hx), elem_of_cons; left.
Qed.

Lemma hasRepeatedSymbols_spec (str : list Z) :
  hasRepeatedSymbols str = false <-> NoDup str.
Proof. apply (hasRepeatedSymbols_from_spec str []), NoDup_nil_2. Qed.

Lemma validateSequence_spec (seq : list Z) :
  validateSequence seq =
    if decide (Forall (fun c => 48 <= c <= 57) seq /\ NoDup seq) then Ok tt else Err badInput.
Proof.
  unfold validateSequence.
  assert (Hd : existsb (fun p => (p <? 48) || (p >? 57)) seq = false <->
    Forall (fun c => 48 <= c <= 57) seq).
  { induction seq as [|c seq IH]; cbn; [by split; intros; [constructor|]|].
    rewrite Z.gtb_ltb. split.
    - intros [Hc Hs]%orb_false_iff. constructor; [|by apply IH]. zcase_in Hc; done || lia.
    - intros [Hc Hs]%Forall_cons. apply IH in Hs as ->. zcase; try lia; done. }
  pose proof (hasRepeatedSymbols_spec seq) as Hr.
  case_decide as H.
  - destruct H as [H1 H2]. by rewrite (proj2 Hd H1), (proj2 Hr H2).
  - destruct (existsb _ seq); [done|]. destruct (hasRepeatedSymbols seq); [done|].
    exfalso. apply H. split; [by apply Hd|by apply Hr].
Qed.

(** C35.  [makeNextPermutation] on a non-empty sequence returns; with result 1 it
    has turned the sequence into its next permutation in lexicographic order (no
    permutation lies strictly between the two), with result -1 it has left it
    alone, and it is the lexicographically last one.  Repeated symbols are
    allowed. *)
Theorem next_permutation_correct (sequence : list Z) :
  1 <= zlen sequence ->
  exists sequence' r, makeNextPermutation sequence (zlen sequence) = Ok (sequence', r) /\
    (r = -1 /\ sequence' = sequence /\ last_permutation sequence \/
     r = 1 /\ next_of sequence sequence').
Proof. apply makeNextPermutation_spec. Qed.

(** The program accepts a line exactly when it consists of distinct decimal
    digits, and then prints the requested number of successive next
    permutations, stopping early only at the last one. *)
Theorem permutations_program (line : list Z) (amount : Z) :
  1 <= zlen line ->
  if decide (Forall (fun c => 48 <= c <= 57) line /\ NoDup line)
  then exists lines, main (Some line) (Some amount) = Ok lines /\
         successors (Z.to_nat amount) line lines
  else main (Some line) (Some amount) = Err badInput.
Proof.
  intros Hl. cbn. rewrite validateSequence_spec. case_decide; [|done].
  by apply print_permutations_spec.
Qed.

Lemma next_permutation_correct_witness :
  exists sequence' r, makeNextPermutation [50; 51; 49] 3 = Ok (sequence', r) /\
    (r = -1 /\ sequence' = [50; 51; 49] /\ last_permutation [50; 51; 49] \/
     r = 1 /\ next_of [50; 51; 49] sequence').
Proof. apply (next_permutation_correct [50; 51; 49]). vm_compute. discriminate. Defined.

Lemma permutations_program_witness :
  if decide (Forall (fun c => 48 <= c <= 57) [50; 51; 49] /\ NoDup [50; 51; 49])
  then exists lines, main (Some [50; 51; 49]) (Some 4) = Ok lines /\
         successors (Z.to_nat 4) [50; 51; 49] lines
  else main (Some [50; 51; 49]) (Some 4) = Err badInput.
Proof. apply (permutations_program [50; 51; 49] 4). vm_compute. discriminate. Defined.

Example permutations_run :
  main (Some [50; 51; 49]) (Some 4) = Ok [[51; 49; 50]; [51; 50; 49]].
Proof. reflexivity. Qed.
