(* ===== verification/NumConverter.v ===== *)
(** * C-Labs/Numerical_system_converter/src/main.c

    Conversion of a number with an optional fractional part between numeral
    systems with bases 2 to 16.  The number is kept in 64-bit signed fields and
    the result is built in a buffer of 60 characters; both limits are part of
    the model. *)
From S2P Require Import Prelude.

Record Number := mkNumber { intPart : Z; numerator : Z; denominator : Z }.

Definition BadInput : fault := Exited 0 "bad input".

Definition ValidateBase (n : Z) : res unit :=
  if (n <? 2) || (n >? 16) then Err BadInput else Ok tt.

Definition ValidateDigit (digit base : Z) : res unit :=
  if digit >=? base then Err BadInput else Ok tt.

(** The character classes of [ctype.h] in the "C" locale. *)
Definition isdigit (c : Z) : bool := (48 <=? c) && (c <=? 57).
Definition isupper (c : Z) : bool := (65 <=? c) && (c <=? 90).
Definition islower (c : Z) : bool := (97 <=? c) && (c <=? 122).
Definition isalpha (c : Z) : bool := isupper c || islower c.
Definition tolower (c : Z) : Z := if isupper c then c + 32 else c.

Definition CharToDigit (chr : Z) : res Z :=
  if isdigit chr then Ok (chr - 48)
  else if isalpha chr then Ok (10 + tolower chr - 97)
  else Err BadInput.

Definition DigitToChar (digit : Z) : res Z :=
  if (0 <=? digit) && (digit <=? 9) then Ok (48 + digit)
  else if digit >=? 10 then Ok (97 + digit - 10)
  else Err BadInput.

(** The integer loop of [ParseString]; it stops at a dot or at the end and
    returns the value with the rest of the string. *)
Fixpoint parse_int (originalBase acc : Z) (str : list Z) : res (Z * list Z) :=
  match str with
  | [] => Ok (acc, [])
  | c :: rest =>
      if c =? 46 then Ok (acc, str)
      else
        let* digit := CharToDigit c in
        let* _ := ValidateDigit digit originalBase in
        let* m := s64 (acc * originalBase) in
        let* acc := s64 (m + digit) in
        parse_int originalBase acc rest
  end.

(** Its fractional loop, on numerator and denominator. *)
Fixpoint parse_frac (originalBase num den : Z) (str : list Z) : res (Z * Z) :=
  match str with
  | [] => Ok (num, den)
  | c :: rest =>
      let* digit := CharToDigit c in
      let* _ := ValidateDigit digit originalBase in
      let* m := s64 (num * originalBase) in
      let* num := s64 (m + digit) in
      let* den := s64 (den * originalBase) in
      parse_frac originalBase num den rest
  end.

Definition ParseString (str : list Z) (originalBase : Z) : res Number :=
  if match str with c :: _ => c =? 46 | [] => false end then Err BadInput
  else
    let* '(ip, rest) := parse_int originalBase 0 str in
    match rest with
    | [] => Ok (mkNumber ip 0 1)
    | _ :: fraction =>
        (* the loop stopped at a dot *)
        match fraction with
        | [] => Err BadInput
        | _ =>
            let* '(num, den) := parse_frac originalBase 0 1 fraction in
            Ok (mkNumber ip num den)
        end
    end.

(** [strlen]: the index of the first zero; none inside the buffer is undefined. *)
Fixpoint strlen (str : list Z) : res Z :=
  match str with
  | [] => Err Undefined
  | c :: str => if c =? 0 then Ok 0 else let* n := strlen str in Ok (n + 1)
  end.

Fixpoint reverse_loop (n : nat) (i len : Z) (str : list Z) : res (list Z) :=
  match n with
  | O => Ok str
  | S n =>
      let* temp := arr_get str i in
      let* c := arr_get str (len - i - 1) in
      let* str := arr_set str i c in
      let* str := arr_set str (len - i - 1) temp in
      reverse_loop n (i + 1) len str
  end.

Definition ReverseString (str : list Z) : res (list Z) :=
  let* len := strlen str in
  reverse_loop (Z.to_nat (len / 2)) 0 len str.

(** [do { *ptr = DigitToChar(intPart % base); intPart /= base; ++ptr; }
    while (intPart > 0);] *)
Fixpoint convert_int (fuel : nat) (targetBase ip ptr : Z) (output : list Z)
  : res (list Z * Z) :=
  match fuel with
  | O => Err OutOfFuel
  | S fuel =>
      let* c := DigitToChar (Z.rem ip targetBase) in
      let* output := arr_set output ptr c in
      let ip := Z.quot ip targetBase in
      let ptr := ptr + 1 in
      if ip >? 0 then convert_int fuel targetBase ip ptr output else Ok (output, ptr)
  end.

(** The fractional loop: at most 12 digits, [more] of them still allowed. *)
Fixpoint convert_frac (more : nat) (targetBase num den ptr : Z) (output : list Z)
  : res (list Z) :=
  match more with
  | O => Ok output
  | S more =>
      if num >? 0 then
        let ptr := ptr + 1 in
        let* num := s64 (num * targetBase) in
        let* c := DigitToChar (Z.quot num den) in
        let* output := arr_set output ptr c in
        convert_frac more targetBase (Z.rem num den) den ptr output
      else Ok output
  end.

(** 64 digits are enough for a 64-bit number in base 2. *)
Definition Convert (num : Number) (targetBase : Z) (output : list Z) : res (list Z) :=
  let* '(output, ptr) := convert_int 64 targetBase (intPart num) 0 output in
  let* output := ReverseString output in
  if numerator num >? 0 then
    let* output := arr_set output ptr 46 in
    convert_frac 12 targetBase (numerator num) (denominator num) ptr output
  else Ok output.

(** [main] after its [scanf] calls: the printed string.  [scanf("%13s")] stores a
    word of 1 to 13 characters. *)
Definition main (bases : option (Z * Z)) (input : option (list Z)) : res (list Z) :=
  match bases with
  | None => Err BadInput
  | Some (originalBase, targetBase) =>
      let* _ := ValidateBase originalBase in
      let* _ := ValidateBase targetBase in
      match input with
      | None => Err BadInput
      | Some input =>
          let* num := ParseString input originalBase in
          let* output := Convert num targetBase (replicate 60 0) in
          (* printf("%s") prints the characters before the first zero *)
          let* len := strlen output in
          Ok (take (Z.to_nat len) output)
      end
  end.

Example main_run : main (Some (10, 16)) (Some [50; 53; 53; 46; 53]) = Ok [102; 102; 46; 56].
Proof. reflexivity. Qed.

(** ** Specification *)

(** The value of a digit string, most significant digit first, after [acc]. *)
Definition horner_from (base acc : Z) (ds : list Z) : Z :=
  fold_left (fun acc d => acc * base + d) ds acc.
Definition horner (base : Z) (ds : list Z) : Z := horner_from base 0 ds.

Definition digit_char (d : Z) : Z := if d <=? 9 then 48 + d else 97 + d - 10.

(** The digit a character stands for in a base, if any. *)
Definition digit_in (base c : Z) : option Z :=
  match CharToDigit c with
  | Ok d => if d <? base then Some d else None
  | Err _ => None
  end.

(** The part before the first dot, and the part after it. *)
Fixpoint split_dot (str : list Z) : list Z * option (list Z) :=
  match str with
  | [] => ([], None)
  | c :: str =>
      if c =? 46 then ([], Some str)
      else let '(ip, fp) := split_dot str in (c :: ip, fp)
  end.

(** The number a string denotes: digits, then optionally a dot and at least one
    more digit. *)
Definition denotes (base : Z) (str : list Z) : option Number :=
  let '(ip, fp) := split_dot str in
  match ip, mapM (digit_in base) ip, fp with
  | _ :: _, Some ds, None => Some (mkNumber (horner base ds) 0 1)
  | _ :: _, Some ds, Some (c :: f) =>
      match mapM (digit_in base) (c :: f) with
      | Some fs => Some (mkNumber (horner base ds) (horner base fs) (base ^ zlen fs))
      | None => None
      end
  | _, _, _ => None
  end.

(** The printed string: the exact integer part without leading zeros, and at most
    12 digits of the fraction, exact when there are fewer. *)
Definition represents (base : Z) (n : Number) (out : list Z) : Prop :=
  exists ids fds r,
    out = map digit_char ids ++ (if numerator n >? 0 then 46 :: map digit_char fds else []) /\
    Forall (fun d => 0 <= d < base) ids /\ Forall (fun d => 0 <= d < base) fds /\
    horner base ids = intPart n /\ (ids = [0] \/ exists d ds, ids = d :: ds /\ d <> 0) /\
    numerator n * base ^ zlen fds = horner base fds * denominator n + r /\
    0 <= r < denominator n /\ zlen fds <= 12 /\ (zlen fds < 12 -> r = 0).

(** ** Digit strings *)

Lemma horner_from_spec (base acc : Z) (ds : list Z) :
  horner_from base acc ds = acc * base ^ zlen ds + horner base ds.
Proof.
  unfold horner. revert acc. induction ds as [|d ds IH]; intros acc; cbn [horner_from fold_left].
  - rewrite zlen_nil, Z.pow_0_r. cbn. lia.
  - change (fold_left _ ds ?a) with (horner_from base a ds). rewrite (IH (acc * base + d)), (IH (0 * base + d)).
    rewrite zlen_cons, Z.pow_add_r by (pose proof (zlen_nonneg ds); lia). rewrite Z.pow_1_r. ring.
Qed.

Lemma horner_cons (base d : Z) (ds : list Z) :
  horner base (d :: ds) = d * base ^ zlen ds + horner base ds.
Proof. unfold horner at 1. cbn. change (fold_left _ ds ?a) with (horner_from base a ds). by rewrite horner_from_spec. Qed.

Lemma horner_snoc (base d : Z) (ds : list Z) : horner base (ds ++ [d]) = horner base ds * base + d.
Proof. unfold horner, horner_from. by rewrite fold_left_app. Qed.

Lemma horner_bound (base : Z) (ds : list Z) :
  0 < base -> Forall (fun d => 0 <= d < base) ds -> 0 <= horner base ds < base ^ zlen ds.
Proof.
  intros Hb. induction 1 as [|d ds Hd _ IH]; [change (0 <= 0 < base ^ 0); rewrite Z.pow_0_r; lia|].
  rewrite horner_cons, zlen_cons, Z.pow_add_r, Z.pow_1_r by (pose proof (zlen_nonneg ds); lia).
  pose proof (Z.pow_pos_nonneg base (zlen ds) Hb (zlen_nonneg ds)). nia.
Qed.

Lemma digit_in_range (base c d : Z) : digit_in base c = Some d -> 0 <= d < base.
Proof.
  unfold digit_in, CharToDigit, isdigit, isalpha, tolower, isupper, islower.
  intros H. destruct (Z.leb_spec 48 c), (Z.leb_spec c 57); cbn in H; zcase_in H; cbn in *; simplify_eq; try lia.
  all: destruct (Z.leb_spec 65 c), (Z.leb_spec c 90), (Z.leb_spec 97 c), (Z.leb_spec c 122);
    cbn in *; zcase_in H; simplify_eq; lia.
Qed.

(** One step of the parsing loops, in terms of [digit_in]. *)
Lemma digit_step {A} (base c : Z) (k : Z -> res A) :
  match CharToDigit c with
  | Ok digit => let* _ := ValidateDigit digit base in k digit
  | Err f => Err f
  end = match digit_in base c with Some d => k d | None => Err BadInput end.
Proof.
  unfold digit_in. destruct (CharToDigit c) as [d|f] eqn:E.
  - unfold ValidateDigit. rewrite Z.geb_leb. destruct (Z.leb_spec base d), (Z.ltb_spec d base); try lia; done.
  - unfold CharToDigit in E. destruct (isdigit c); [done|]. destruct (isalpha c); [done|]. by injection E as <-.
Qed.

Section Parse.
Variable base : Z.
Hypothesis Hbase : 2 <= base <= 16.

Lemma mapM_digits_range (str ds : list Z) :
  mapM (digit_in base) str = Some ds -> Forall (fun d => 0 <= d < base) ds /\ zlen ds = zlen str.
Proof.
  intros H%mapM_Some_1. unfold zlen. split.
  - induction H; constructor; eauto using digit_in_range.
  - by rewrite (Forall2_length _ _ _ H).
Qed.

(** The bound that makes the 64-bit accumulator safe for [n] more digits. *)
Definition room (acc : Z) (n : Z) : Prop := 0 <= acc /\ (acc + 1) * base ^ n <= 2 ^ 63.

Lemma room_step (acc d n : Z) :
  0 <= n -> room acc (n + 1) -> 0 <= d < base ->
  room (acc * base + d) n /\ acc * base + d < 2 ^ 63.
Proof.
  intros Hn [Ha Hr] Hd. rewrite Z.pow_add_r, Z.pow_1_r in Hr by lia.
  pose proof (Z.pow_pos_nonneg base n ltac:(lia) Hn). unfold room. split; [split|]; nia.
Qed.

Lemma parse_int_spec (str : list Z) :
  forall acc, room acc (zlen str) ->
  parse_int base acc str =
    match mapM (digit_in base) (fst (split_dot str)) with
    | Some ds => Ok (horner_from base acc ds,
        match snd (split_dot str) with Some f => 46 :: f | None => [] end)
    | None => Err BadInput
    end.
Proof.
  induction str as [|c str IH]; intros acc Hr; [done|]. cbn [parse_int split_dot].
  destruct (Z.eqb_spec c 46) as [->|]; [done|].
  destruct (split_dot str) as [ip fp] eqn:E. rewrite (digit_step base c). cbn [fst snd mapM] in *.
  destruct (digit_in base c) as [d|] eqn:Ed; cbn; [|done].
  pose proof (digit_in_range _ _ _ Ed) as Hd. rewrite zlen_cons in Hr.
  destruct (room_step acc d (zlen str) (zlen_nonneg _) Hr Hd) as [Hr' Hlt].
  destruct Hr as [Hacc _]. rewrite !s64_ok by nia. rewrite IH by done.
  by destruct (mapM (digit_in base) ip).
Qed.

Lemma parse_frac_spec (str : list Z) :
  forall num den, room num (zlen str) -> 0 < den -> den * base ^ zlen str < 2 ^ 63 ->
  parse_frac base num den str =
    match mapM (digit_in base) str with
    | Some ds => Ok (horner_from base num ds, den * base ^ zlen ds)
    | None => Err BadInput
    end.
Proof.
  induction str as [|c str IH]; intros num den Hr Hden Hd2.
  { cbn. rewrite zlen_nil, Z.pow_0_r. by rewrite Z.mul_1_r. }
  cbn [parse_frac]. rewrite (digit_step base c). cbn [mapM].
  destruct (digit_in base c) as [d|] eqn:Ed; cbn; [|done].
  pose proof (digit_in_range _ _ _ Ed) as Hd. rewrite zlen_cons in Hr, Hd2.
  destruct (room_step num d (zlen str) (zlen_nonneg _) Hr Hd) as [Hr' Hlt].
  rewrite Z.pow_add_r, Z.pow_1_r in Hd2 by (pose proof (zlen_nonneg str); lia).
  pose proof (Z.pow_pos_nonneg base (zlen str) ltac:(lia) (zlen_nonneg _)).
  destruct Hr as [Hnum _]. rewrite !s64_ok by nia. rewrite IH; [|done|nia|nia].
  destruct (mapM (digit_in base) str) as [ds|]; cbn; [|done].
  rewrite zlen_cons, Z.pow_add_r, Z.pow_1_r by (pose proof (zlen_nonneg ds); lia).
  do 2 f_equal. ring.
Qed.

Lemma split_dot_length (str : list Z) :
  zlen str = zlen (fst (split_dot str)) +
    match snd (split_dot str) with Some f => 1 + zlen f | None => 0 end.
Proof.
  induction str as [|c str IH]; [done|]. cbn [split_dot].
  destruct (c =? 46); cbn [fst snd]; [rewrite zlen_cons, (zlen_nil (A := Z)); lia|].
  destruct (split_dot str) as [ip fp]. cbn [fst snd] in *. rewrite !zlen_cons. lia.
Qed.

Lemma room_13 (n : Z) : 0 <= n <= 13 -> room 0 n /\ base ^ n <= 16 ^ n.
Proof.
  intros Hn. assert (base ^ n <= 16 ^ n) by (apply Z.pow_le_mono_l; lia).
  assert (16 ^ n <= 16 ^ 13) by (apply Z.pow_le_mono_r; lia). unfold room. split; lia.
Qed.

Lemma ParseString_spec (str : list Z) :
  1 <= zlen str <= 13 ->
  ParseString str base =
    match denotes base str with Some n => Ok n | None => Err BadInput end.
Proof.
  intros Hl. unfold ParseString, denotes. rewrite parse_int_spec by (apply room_13; lia).
  pose proof (split_dot_length str) as Hs. destruct str as [|c str]; [unfold zlen in Hl; cbn in Hl; lia|].
  cbn [split_dot] in *. destruct (c =? 46); [done|].
  destruct (split_dot str) as [ip fp]. cbn [fst snd] in *.
  destruct (mapM (digit_in base) (c :: ip)) as [ds|] eqn:E; [|done].
  destruct fp as [[|f fs]|]; [done| |done]. change (horner_from base 0 ds) with (horner base ds).
  rewrite (zlen_cons c ip) in Hs. pose proof (zlen_nonneg ip).
  destruct (room_13 (zlen (f :: fs))) as [Hroom Hpow]; [pose proof (zlen_nonneg (f :: fs)); lia|].
  rewrite parse_frac_spec; [|done|lia|].
  2:{ rewrite Z.mul_1_l. apply Z.le_lt_trans with (16 ^ 13); [|lia].
      etransitivity; [exact Hpow|]. apply Z.pow_le_mono_r; lia. }
  destruct (mapM (digit_in base) (f :: fs)) as [es|]; [|done].
  by rewrite Z.mul_1_l.
Qed.
End Parse.

(** ** Writing the result *)

Lemma DigitToChar_ok (d : Z) : 0 <= d -> DigitToChar d = Ok (digit_char d).
Proof. intros. unfold DigitToChar, digit_char. zcase; try lia; done. Qed.

Lemma digit_char_nonzero (d : Z) : 0 <= d -> digit_char d <> 0.
Proof. intros. unfold digit_char. zcase; lia. Qed.

(** A buffer of [size] characters that starts with [cs]. *)
Definition buffer (size : nat) (cs : list Z) : list Z := cs ++ replicate (size - length cs) 0.

Lemma buffer_push (size : nat) (cs : list Z) (c : Z) :
  (length cs < size)%nat ->
  arr_set (buffer size cs) (zlen cs) c = Ok (buffer size (cs ++ [c])).
Proof.
  intros Hl. unfold buffer.
  replace (size - length cs)%nat with (S (size - length (cs ++ [c])))%nat
    by (rewrite length_app; cbn; lia).
  rewrite arr_set_ok by (unfold zlen; rewrite length_app; cbn; lia).
  unfold zset, zlen. rewrite Nat2Z.id, insert_app_r_alt, Nat.sub_diag by lia.
  cbn. by rewrite <- app_assoc.
Qed.

Lemma buffer_push_map (size : nat) (ds : list Z) (d : Z) :
  (length ds < size)%nat ->
  arr_set (buffer size (map digit_char ds)) (zlen ds) (digit_char d) =
    Ok (buffer size (map digit_char (ds ++ [d]))).
Proof.
  intros. rewrite map_app. cbn [map]. rewrite <- buffer_push by (by rewrite length_map).
  f_equal. unfold zlen. by rewrite length_map.
Qed.

Lemma strlen_buffer (size : nat) (cs : list Z) :
  (length cs < size)%nat -> Forall (fun c => c <> 0) cs -> strlen (buffer size cs) = Ok (zlen cs).
Proof.
  unfold buffer. intros Hl Hc. revert size Hl. induction Hc as [|c cs Hc _ IH]; intros size Hl.
  - destruct size as [|size]; [cbn in Hl; lia|done].
  - cbn. destruct (Z.eqb_spec c 0); [done|].
    destruct size as [|size]; [lia|]. cbn in *. rewrite (IH size) by lia. by rewrite zlen_cons.
Qed.

Lemma take_buffer (size : nat) (cs : list Z) : take (Z.to_nat (zlen cs)) (buffer size cs) = cs.
Proof. unfold zlen, buffer. rewrite Nat2Z.id. apply take_app_length. Qed.

Lemma reverse_loop_spec (len : Z) :
  forall n i str, 0 <= i -> i + Z.of_nat n = len / 2 -> len <= zlen str ->
  exists out, reverse_loop n i len str = Ok out /\ zlen out = zlen str /\
    forall k, 0 <= k -> znth out k =
      if (i <=? k) && (k <? len - i) then znth str (len - 1 - k) else znth str k.
Proof.
  induction n as [|n IH]; intros i str ? Hi Hl; cbn [reverse_loop].
  - exists str. split_and!; try done. intros k Hk.
    pose proof (Z.div_mod len 2). pose proof (Z.mod_pos_bound len 2). zcase; try done. f_equal. lia.
  - pose proof (Z.div_mod len 2). pose proof (Z.mod_pos_bound len 2).
    rewrite !arr_get_ok by lia. rewrite arr_set_ok by lia. rewrite arr_set_ok by (zarr; lia).
    destruct (IH (i + 1) (zset (zset str i (znth str (len - i - 1))) (len - i - 1) (znth str i)))
      as (out & -> & Hlo & Hout); zarr.
    exists out. split_and!; try done. intros k Hk. rewrite Hout by done.
    zcase; try lia; rewrite !znth_zset by (zarr; lia); zcase; try lia; f_equal; lia.
Qed.

Lemma ReverseString_buffer (size : nat) (cs : list Z) :
  (length cs < size)%nat -> Forall (fun c => c <> 0) cs ->
  ReverseString (buffer size cs) = Ok (buffer size (rev cs)).
Proof.
  intros Hl Hc. unfold ReverseString. rewrite strlen_buffer by done.
  assert (Hlb : zlen (buffer size cs) = Z.of_nat size)
    by (unfold buffer, zlen; rewrite length_app, length_replicate; lia).
  pose proof (zlen_nonneg cs).
  destruct (reverse_loop_spec (zlen cs) (Z.to_nat (zlen cs / 2)) 0 (buffer size cs))
    as (out & -> & Hlo & Hout); [lia| |unfold zlen in *; lia|].
  { rewrite Z2Nat.id; [lia|]. apply Z.div_pos; lia. }
  f_equal. apply zlist_eq.
  { rewrite Hlo. unfold buffer. rewrite !zlen_app, zlen_rev, length_rev. done. }
  intros i Hi. rewrite Hout by lia. unfold buffer. rewrite length_rev.
  zcase; try lia.
  - rewrite !znth_app_l by (rewrite ?zlen_rev; lia). by rewrite znth_rev by lia.
  - rewrite !znth_app_r by (rewrite ?zlen_rev; lia). by rewrite zlen_rev.
Qed.

Lemma horner_nil (base num : Z) : num * base ^ zlen (@nil Z) = num.
Proof. change (num * base ^ 0 = num). rewrite Z.pow_0_r. lia. Qed.

Section Convert.
Variables (base : Z) (size : nat).
Hypothesis Hbase : 2 <= base <= 16.

Lemma quot_rem_base (n : Z) :
  0 <= n -> n = base * Z.quot n base + Z.rem n base /\ 0 <= Z.rem n base < base /\ 0 <= Z.quot n base.
Proof.
  intros Hn. split; [apply Z.quot_rem'|]. split; [apply Z.rem_bound_pos; lia|apply Z.quot_pos; lia].
Qed.

(** The digits, least significant first, that the integer loop appends. *)
Lemma convert_int_spec :
  forall k fuel ip (ds : list Z), 0 <= ip < 2 ^ Z.of_nat k -> (1 <= k <= fuel)%nat ->
  (length ds + k <= size)%nat ->
  exists es,
    convert_int fuel base ip (zlen ds) (buffer size (map digit_char ds)) =
      Ok (buffer size (map digit_char (ds ++ es)), zlen (ds ++ es)) /\
    Forall (fun d => 0 <= d < base) es /\ horner base (rev es) = ip /\
    (1 <= length es <= k)%nat /\ (0 < ip -> exists fs d, es = fs ++ [d] /\ d <> 0) /\
    (ip = 0 -> es = [0]).
Proof.
  induction k as [|k IH]; intros fuel ip ds Hip Hf Hs; [lia|].
  destruct fuel as [|fuel]; [lia|]. cbn [convert_int].
  destruct (quot_rem_base ip) as (Hqr & Hr & Hq); [lia|].
  rewrite DigitToChar_ok by lia.
  rewrite buffer_push_map by lia.
  rewrite Z.gtb_ltb. destruct (Z.ltb_spec 0 (Z.quot ip base)) as [Hpos|Hz].
  - rewrite Nat2Z.inj_succ, Z.pow_succ_r in Hip by lia.
    assert (0 < Z.of_nat k) by (destruct k; [cbn in Hip; nia|lia]).
    replace (zlen ds + 1) with (zlen (ds ++ [Z.rem ip base])) by (rewrite zlen_app; done).
    destruct (IH fuel (Z.quot ip base) (ds ++ [Z.rem ip base])) as (es & -> & Hes & Hh & Hl & Hnz & _);
      [nia|lia|rewrite length_app; cbn; lia|].
    exists (Z.rem ip base :: es). rewrite <- app_assoc. split_and!; try done; try (cbn; lia).
    + constructor; auto.
    + cbn [rev]. rewrite horner_snoc, Hh. lia.
    + intros _. destruct (Hnz Hpos) as (fs & d & -> & Hd). by exists (Z.rem ip base :: fs), d.
  - assert (Hq0 : Z.quot ip base = 0) by lia. rewrite Hq0 in Hqr.
    exists [Z.rem ip base]. replace (zlen ds + 1) with (zlen (ds ++ [Z.rem ip base]))
      by (rewrite zlen_app; done).
    split_and!; try done; try (cbn; lia).
    + by constructor.
    + intros ?. exists [], (Z.rem ip base). split; [done|lia].
    + intros ->. by rewrite Z.rem_0_l by lia.
Qed.

Lemma convert_frac_spec (den : Z) :
  0 < den -> den * base < 2 ^ 63 ->
  forall more num (cs : list Z), 0 <= num < den -> (length cs + more <= size)%nat -> (1 <= length cs)%nat ->
  exists fs r,
    convert_frac more base num den (zlen cs - 1) (buffer size cs) =
      Ok (buffer size (cs ++ map digit_char fs)) /\
    Forall (fun d => 0 <= d < base) fs /\ num * base ^ zlen fs = horner base fs * den + r /\
    0 <= r < den /\ (length fs <= more)%nat /\ ((length fs < more)%nat -> r = 0).
Proof.
  intros Hden Hover. induction more as [|more IH]; intros num cs Hnum Hl H1; cbn [convert_frac].
  { exists [], num. rewrite app_nil_r, horner_nil. split_and!; try done; cbn; lia. }
  rewrite Z.gtb_ltb. destruct (Z.ltb_spec 0 num).
  2:{ exists [], 0. rewrite app_nil_r, horner_nil. split_and!; try done; cbn; lia. }
  rewrite s64_ok by nia.
  assert (Hq : num * base = den * Z.quot (num * base) den + Z.rem (num * base) den) by apply Z.quot_rem'.
  assert (0 <= Z.rem (num * base) den < den) by (apply Z.rem_bound_pos; nia).
  assert (0 <= Z.quot (num * base) den < base) by (split; [apply Z.quot_pos; nia|nia]).
  rewrite DigitToChar_ok by lia. replace (zlen cs - 1 + 1) with (zlen cs) by lia.
  rewrite buffer_push by lia.
  destruct (IH (Z.rem (num * base) den) (cs ++ [digit_char (Z.quot (num * base) den)]))
    as (fs & r & E & Hfs & Hv & Hr & Hlf & Hr0); [lia|rewrite length_app; cbn; lia..|].
  replace (zlen cs) with (zlen (cs ++ [digit_char (Z.quot (num * base) den)]) - 1)
    by (rewrite zlen_app, zlen_cons, zlen_nil; lia).
  exists (Z.quot (num * base) den :: fs), r. rewrite E, <- app_assoc. split_and!; try done; try (cbn; lia).
  - by constructor.
  - rewrite horner_cons, zlen_cons, Z.pow_add_r, Z.pow_1_r by (pose proof (zlen_nonneg fs); lia).
    nia.
Qed.
End Convert.

(** [Convert] into a zeroed buffer that is large enough for [k] bits. *)
Lemma Convert_spec (base : Z) (size : nat) (n : Number) (k : nat) :
  2 <= base <= 16 -> 0 <= intPart n < 2 ^ Z.of_nat k -> (1 <= k <= 64)%nat ->
  0 <= numerator n < denominator n -> denominator n * base < 2 ^ 63 ->
  (k + (if numerator n >? 0 then 13 else 0) < size)%nat ->
  exists out, Convert n base (replicate size 0) = Ok (buffer size out) /\
    (length out < size)%nat /\ Forall (fun c => c <> 0) out /\ represents base n out.
Proof.
  intros Hb Hip Hk Hnum Hden Hsize. unfold Convert.
  destruct (convert_int_spec base size Hb k 64 (intPart n) []) as (es & E & Hes & Hh & Hl & Hnz & Hz);
    [done|lia|cbn; lia|].
  replace (replicate size 0) with (buffer size (map digit_char []))
    by (unfold buffer; cbn; by rewrite Nat.sub_0_r).
  change (convert_int 64 base (intPart n) 0) with (convert_int 64 base (intPart n) (zlen (@nil Z))).
  rewrite E. cbn [app].
  assert (Hnzc : forall ds, Forall (fun d => 0 <= d < base) ds -> Forall (fun c => c <> 0) (map digit_char ds)).
  { intros ds Hds. induction Hds; constructor; auto. apply digit_char_nonzero. lia. }
  rewrite ReverseString_buffer; [|rewrite length_map; lia|auto]. rewrite <- map_rev.
  assert (Hrev : Forall (fun d => 0 <= d < base) (rev es)) by (by apply Forall_rev).
  assert (Hcan : rev es = [0] \/ exists d ds, rev es = d :: ds /\ d <> 0).
  { destruct (decide (intPart n = 0)) as [E0|].
    - left. by rewrite (Hz E0).
    - right. destruct Hnz as (fs & d & -> & Hd); [lia|]. rewrite rev_app_distr. by exists d, (rev fs). }
  rewrite Z.gtb_ltb in *. destruct (Z.ltb_spec 0 (numerator n)).
  - assert (Hlr : zlen es = zlen (map digit_char (rev es))) by (unfold zlen; by rewrite length_map, length_rev).
    rewrite Hlr, buffer_push by (rewrite length_map, length_rev; lia).
    set (cs := map digit_char (rev es) ++ [46]).
    replace (zlen (map digit_char (rev es))) with (zlen cs - 1)
      by (unfold cs; rewrite zlen_app, zlen_cons, (zlen_nil (A := Z)); lia).
    assert (length cs = S (length es)) by (unfold cs; rewrite length_app, length_map, length_rev; cbn; lia).
    destruct (convert_frac_spec base size Hb (denominator n) ltac:(lia) Hden 12 (numerator n) cs)
      as (fs & r & -> & Hfs & Hv & Hr & Hlf & Hr0); [lia..|].
    exists (cs ++ map digit_char fs). split_and!; [done|rewrite length_app, length_map; lia| |].
    + unfold cs. rewrite !Forall_app. split_and!; auto.
    + exists (rev es), fs, r. rewrite Z.gtb_ltb. destruct (Z.ltb_spec 0 (numerator n)); [|lia].
      unfold cs. rewrite <- app_assoc. split_and!; auto; unfold zlen; lia.
  - exists (map digit_char (rev es)).
    split_and!; [done|rewrite length_map, length_rev; lia|auto|].
    exists (rev es), [], 0. rewrite Z.gtb_ltb. destruct (Z.ltb_spec 0 (numerator n)); [lia|].
    rewrite app_nil_r, horner_nil. change (zlen (@nil Z)) with 0.
    split_and!; auto; cbn; lia.
Qed.

(** The number a string of at most 13 characters denotes fits the buffer. *)
Lemma denotes_bounds (base : Z) (str : list Z) (n : Number) :
  2 <= base <= 16 -> zlen str <= 13 -> denotes base str = Some n ->
  exists k, (1 <= k <= 64)%nat /\ 0 <= intPart n < 2 ^ Z.of_nat k /\
    0 <= numerator n < denominator n /\ denominator n <= 2 ^ 44 /\
    (k + (if (numerator n >? 0)%Z then 13 else 0) < 60)%nat.
Proof.
  intros Hb Hl Hd. unfold denotes in Hd. pose proof (split_dot_length str) as Hs.
  destruct (split_dot str) as [ip fp]. cbn [fst snd] in Hs.
  destruct ip as [|c ip]; [done|].
  destruct (mapM (digit_in base) (c :: ip)) as [ds|] eqn:E; [|done].
  destruct (mapM_digits_range base _ _ E) as [Hds Hlds].
  pose proof (horner_bound base ds ltac:(lia) Hds) as Hh.
  assert (Hpow : forall m, 0 <= m -> base ^ m <= 2 ^ (4 * m)).
  { intros m Hm. rewrite Z.pow_mul_r by lia. apply Z.pow_le_mono_l. lia. }
  assert (Hmono : forall m k, 0 <= m -> 4 * m <= Z.of_nat k -> base ^ m <= 2 ^ Z.of_nat k).
  { intros m k ??. etransitivity; [by apply Hpow|]. apply Z.pow_le_mono_r; lia. }
  pose proof (zlen_nonneg (c :: ip)). rewrite Hlds in Hh.
  destruct fp as [[|f fs]|]; [done| |].
  - destruct (mapM (digit_in base) (f :: fs)) as [es|] eqn:E2; [|done]. injection Hd as <-.
    destruct (mapM_digits_range base _ _ E2) as [Hes Hles].
    pose proof (horner_bound base es ltac:(lia) Hes). rewrite Hles in *.
    rewrite (zlen_cons f fs), (zlen_cons c ip) in *. pose proof (zlen_nonneg fs). pose proof (zlen_nonneg ip).
    exists 44%nat. cbn [intPart numerator denominator].
    pose proof (Hmono (zlen ip + 1) 44%nat). pose proof (Hmono (zlen fs + 1) 44%nat).
    split_and!; try lia. destruct (_ >? _); lia.
  - injection Hd as <-. exists 52%nat. cbn [intPart numerator denominator].
    pose proof (Hmono (zlen (c :: ip)) 52%nat). split_and!; try lia. cbn. lia.
Qed.

Lemma main_converts (originalBase targetBase : Z) (word : list Z) :
  2 <= originalBase <= 16 -> 2 <= targetBase <= 16 -> 1 <= zlen word <= 13 ->
  match denotes originalBase word with
  | None => main (Some (originalBase, targetBase)) (Some word) = Err BadInput
  | Some n => exists out,
      main (Some (originalBase, targetBase)) (Some word) = Ok out /\ represents targetBase n out
  end.
Proof.
  intros Hob Htb Hw. unfold main, ValidateBase. rewrite !Z.gtb_ltb.
  destruct (Z.ltb_spec originalBase 2), (Z.ltb_spec 16 originalBase),
    (Z.ltb_spec targetBase 2), (Z.ltb_spec 16 targetBase); try lia; cbn [orb].
  rewrite ParseString_spec by done. destruct (denotes originalBase word) as [n|] eqn:E; [|done].
  destruct (denotes_bounds originalBase word n Hob ltac:(lia) E) as (k & Hk & Hip & Hnum & Hden & Hsz).
  destruct (Convert_spec targetBase 60 n k) as (out & -> & Hlo & Hnz & Hrep); try done; [nia|].
  rewrite strlen_buffer by done. exists out. by rewrite take_buffer.
Qed.

(** ** Integers round trip *)

Lemma digit_in_char (base d : Z) :
  0 <= d < base -> base <= 16 -> digit_in base (digit_char d) = Some d /\ digit_char d <> 46.
Proof.
  intros Hd Hb. assert (H : d = 0 \/ d = 1 \/ d = 2 \/ d = 3 \/ d = 4 \/ d = 5 \/ d = 6 \/ d = 7 \/
    d = 8 \/ d = 9 \/ d = 10 \/ d = 11 \/ d = 12 \/ d = 13 \/ d = 14 \/ d = 15) by lia.
  assert (E : CharToDigit (digit_char d) = Ok d /\ digit_char d <> 46)
    by (repeat destruct H as [->|H]; try subst d; split; done).
  destruct E as [E Hne]. split; [|done]. unfold digit_in. rewrite E.
  destruct (Z.ltb_spec d base); [done|lia].
Qed.

Lemma numeral_read_back (base : Z) (ds : list Z) :
  base <= 16 -> Forall (fun d => 0 <= d < base) ds ->
  split_dot (map digit_char ds) = (map digit_char ds, None) /\
  mapM (digit_in base) (map digit_char ds) = Some ds.
Proof.
  intros Hb. induction 1 as [|d ds Hd _ [IH1 IH2]]; [done|].
  destruct (digit_in_char base d Hd Hb) as [E Hne]. cbn [map split_dot mapM].
  destruct (Z.eqb_spec (digit_char d) 46); [done|]. rewrite IH1, E, IH2. done.
Qed.

Lemma represents_denotes (base : Z) (n : Number) (out : list Z) :
  base <= 16 -> numerator n = 0 -> represents base n out ->
  denotes base out = Some (mkNumber (intPart n) 0 1) /\ 1 <= zlen out.
Proof.
  intros Hb Hn (ids & fds & r & -> & Hids & _ & Hh & Hcan & _).
  rewrite Hn, app_nil_r. destruct (numeral_read_back base ids Hb Hids) as [E1 E2].
  assert (exists d ds, ids = d :: ds) as (d & ds & ->)
    by (destruct Hcan as [->|(d & ds & -> & _)]; eauto).
  unfold denotes. rewrite E1. cbn [map] in *. rewrite E2, Hh. split; [done|].
  rewrite zlen_cons. pose proof (zlen_nonneg (map digit_char ds)). lia.
Qed.

(** For valid bases and an input word of 1 to 13 characters, the program
    prints [bad input] exactly when the word is not a numeral of the original
    base (digits, optionally a dot and further digits).  Otherwise it prints the
    number in the target base: the integer part exactly and without leading
    zeros, the fraction to at most 12 digits, each the next digit of the true
    expansion, and exactly when fewer are printed.  The 64-bit fields do not
    overflow and the 60-character buffer always holds the result. *)
Theorem converter_correct (originalBase targetBase : Z) (word : list Z) :
  2 <= originalBase <= 16 -> 2 <= targetBase <= 16 -> 1 <= zlen word <= 13 ->
  match denotes originalBase word with
  | None => main (Some (originalBase, targetBase)) (Some word) = Err BadInput
  | Some n => exists out,
      main (Some (originalBase, targetBase)) (Some word) = Ok out /\ represents targetBase n out
  end.
Proof. apply main_converts. Qed.

(** Converting an integer and converting the printed result back gives a
    numeral of the number the program started from, for every pair of bases
    (when the intermediate numeral is short enough to be read again). *)
Theorem converter_roundtrip (originalBase targetBase : Z) (word : list Z) (n : Number) :
  2 <= originalBase <= 16 -> 2 <= targetBase <= 16 -> 1 <= zlen word <= 13 ->
  denotes originalBase word = Some n -> numerator n = 0 ->
  exists out, main (Some (originalBase, targetBase)) (Some word) = Ok out /\
    (zlen out <= 13 -> exists back,
       main (Some (targetBase, originalBase)) (Some out) = Ok back /\
       denotes originalBase back = Some (mkNumber (intPart n) 0 1)).
Proof.
  intros Hob Htb Hw Hd Hn. pose proof (main_converts originalBase targetBase word Hob Htb Hw) as H.
  rewrite Hd in H. destruct H as (out & E & Hrep). exists out. split; [done|]. intros Hl.
  destruct (represents_denotes targetBase n out ltac:(lia) Hn Hrep) as [Hd2 Hl2].
  pose proof (main_converts targetBase originalBase out Htb Hob ltac:(lia)) as H.
  rewrite Hd2 in H. destruct H as (back & E2 & Hrep2). exists back. split; [done|].
  by destruct (represents_denotes originalBase (mkNumber (intPart n) 0 1) back ltac:(lia) eq_refl Hrep2).
Qed.

Lemma converter_correct_witness :
  match denotes 10 [50; 53; 53; 46; 53] with
  | None => main (Some (10, 16)) (Some [50; 53; 53; 46; 53]) = Err BadInput
  | Some n => exists out,
      main (Some (10, 16)) (Some [50; 53; 53; 46; 53]) = Ok out /\ represents 16 n out
  end.
Proof. apply (converter_correct 10 16 [50; 53; 53; 46; 53]); vm_compute; intuition discriminate. Defined.

Lemma converter_roundtrip_witness :
  exists out, main (Some (10, 2)) (Some [49; 51]) = Ok out /\
    (zlen out <= 13 -> exists back,
       main (Some (2, 10)) (Some out) = Ok back /\
       denotes 10 back = Some (mkNumber 13 0 1)).
Proof.
  apply (converter_roundtrip 10 2 [49; 51] (mkNumber 13 0 1));
    try reflexivity; vm_compute; intuition discriminate.
Defined.
