(* ===== verification/Stack.v ===== *)
(** * C-Labs/Calculator/src/stack.c, C-Labs/Red-black_tree/src/stack.c

    The stack both programs use (the two files differ only in the element type):
    a chain of blocks of 32 elements.  [StackImpl] is the interface its clients
    rely on; the block stack implements it, and so does a plain list. *)
From S2P Require Import Prelude.

(** ** The interface *)

Class StackImpl (T : Type) := {
  stack : Type;
  MakeStack : stack;
  IsEmpty : stack -> bool;
  Push : stack -> T -> res stack;
  Pop : stack -> res (T * stack);
  GetTop : stack -> res T;
  (** [holds s l]: the elements of [s] are [l], the top first. *)
  holds : stack -> list T -> Prop;
  MakeStack_holds : holds MakeStack [];
  IsEmpty_holds s l : holds s l -> IsEmpty s = match l with [] => true | _ => false end;
  Push_holds s l x : holds s l -> exists s', Push s x = Ok s' /\ holds s' (x :: l);
  Pop_holds s l :
    holds s l ->
    match l with
    | [] => Pop s = Err AssertFailed
    | x :: l => exists s', Pop s = Ok (x, s') /\ holds s' l
    end;
  GetTop_holds s l :
    holds s l -> GetTop s = match l with [] => Err AssertFailed | x :: _ => Ok x end }.

(** The specification as an implementation: a list. *)
#[export] Instance ListStack (T : Type) : StackImpl T.
Proof.
  refine {|
    stack := list T;
    MakeStack := [];
    IsEmpty l := match l with [] => true | _ => false end;
    Push l x := Ok (x :: l);
    Pop l := match l with [] => Err AssertFailed | x :: l => Ok (x, l) end;
    GetTop l := match l with [] => Err AssertFailed | x :: _ => Ok x end;
    holds s l := s = l |}.
  - done.
  - by intros s l ->.
  - intros s l x ->. eauto.
  - intros s [|x l] ->; eauto.
  - by intros s l ->.
Defined.

(** ** The block stack *)

Module Blocks.
Section Blocks.
Context {T : Type}.

Definition BLOCK_SIZE : Z := 32.

(** A block's storage; [None] marks an element [malloc] left uninitialised. *)
Definition StackBlock : Type := list (option T).

(** [prevBlocks] is the chain that [curBlock->prevBlock] starts. *)
Record StackInstance := mkStack {
  curBlock : StackBlock;
  prevBlocks : list StackBlock;
  curIndex : Z }.

Definition newBlock : StackBlock := replicate (Z.to_nat BLOCK_SIZE) None.

Definition MakeStack : StackInstance := mkStack newBlock [] 0.

Definition IsEmpty (s : StackInstance) : bool :=
  (curIndex s =? 0) && match prevBlocks s with [] => true | _ => false end.

Definition Push (s : StackInstance) (value : T) : res StackInstance :=
  let s := if curIndex s =? BLOCK_SIZE
           then mkStack newBlock (curBlock s :: prevBlocks s) 0 else s in
  let* data := arr_set (curBlock s) (curIndex s) (Some value) in
  Ok (mkStack data (prevBlocks s) (u64 (curIndex s + 1))).

(** Reading an element of a block that was never written is undefined. *)
Definition read (data : StackBlock) (i : Z) : res T :=
  let* o := arr_get data i in
  match o with Some x => Ok x | None => Err Undefined end.

Definition Pop (s : StackInstance) : res (T * StackInstance) :=
  let* _ := assert (negb (curIndex s =? 0)) in
  let curIndex := u64 (curIndex s - 1) in
  let* value := read (curBlock s) curIndex in
  match curIndex =? 0, prevBlocks s with
  | true, prevBlock :: older => Ok (value, mkStack prevBlock older BLOCK_SIZE)
  | _, _ => Ok (value, mkStack (curBlock s) (prevBlocks s) curIndex)
  end.

Definition GetTop (s : StackInstance) : res T :=
  let* _ := assert (negb (curIndex s =? 0)) in
  read (curBlock s) (u64 (curIndex s - 1)).

(** [filled b xs]: the block [b] starts with the elements [xs], pushed in order. *)
Definition filled (b : StackBlock) (xs : list T) : Prop :=
  exists tail, b = map Some xs ++ tail /\ zlen b = BLOCK_SIZE.

(** The representation: full blocks below, and an empty current block only at the
    bottom of the chain. *)
Inductive represents : StackInstance -> list T -> Prop :=
| represents_bottom b xs :
    filled b xs -> represents (mkStack b [] (zlen xs)) (rev xs)
| represents_above b xs b' older l :
    filled b xs -> xs <> [] -> represents (mkStack b' older BLOCK_SIZE) l ->
    represents (mkStack b (b' :: older) (zlen xs)) (rev xs ++ l).

Lemma filled_le (b : StackBlock) (xs : list T) : filled b xs -> zlen xs <= 32.
Proof.
  intros (tail & -> & Hl). unfold zlen, BLOCK_SIZE in *. rewrite length_app, length_map in Hl. lia.
Qed.

Lemma filled_new : filled newBlock [].
Proof. by exists newBlock. Qed.

Lemma filled_push (b : StackBlock) (xs : list T) (x : T) :
  filled b xs -> zlen xs < 32 ->
  arr_set b (zlen xs) (Some x) = Ok (zset b (zlen xs) (Some x)) /\
  filled (zset b (zlen xs) (Some x)) (xs ++ [x]).
Proof.
  intros (tail & -> & Hl) Hx. unfold BLOCK_SIZE in *.
  split; [apply arr_set_ok; unfold zlen in *; lia|].
  destruct tail as [|y tail]; [unfold zlen in *; rewrite app_nil_r, length_map in Hl; lia|].
  exists tail. split; [|by rewrite zlen_zset].
  unfold zset, zlen. rewrite Nat2Z.id, insert_app_r_alt by (by rewrite length_map).
  rewrite length_map, Nat.sub_diag, map_app, <- app_assoc. done.
Qed.

Lemma filled_read (b : StackBlock) (xs : list T) (x : T) :
  filled b (xs ++ [x]) -> read b (zlen xs) = Ok x /\ filled b xs.
Proof.
  intros (tail & -> & Hl). rewrite map_app, <- app_assoc in *. split.
  - unfold read, arr_get, zlen. rewrite Nat2Z.id. destruct (Z.leb_spec 0 (Z.of_nat (length xs))); [|lia].
    rewrite lookup_app_r by (by rewrite length_map). by rewrite length_map, Nat.sub_diag.
  - by exists (map Some [x] ++ tail).
Qed.

Lemma represents_push (s : StackInstance) (l : list T) (x : T) :
  represents s l -> exists s', Push s x = Ok s' /\ represents s' (x :: l).
Proof.
  assert (Hone : forall b older, filled newBlock [] ->
    represents (mkStack b older BLOCK_SIZE) l ->
    exists s', Push (mkStack b older BLOCK_SIZE) x = Ok s' /\ represents s' (x :: l)).
  { intros b older Hn Hr. unfold Push. cbn [curIndex curBlock prevBlocks].
    rewrite Z.eqb_refl. destruct (filled_push _ _ x Hn ltac:(done)) as [E Hf].
    cbn [curIndex curBlock prevBlocks]. change (zlen (@nil T)) with 0 in E, Hf. rewrite E.
    eexists. split; [done|]. by apply (represents_above _ [x]). }
  assert (Hmore : forall b xs older, filled b xs -> zlen xs <> 32 ->
    Push (mkStack b older (zlen xs)) x =
      Ok (mkStack (zset b (zlen xs) (Some x)) older (zlen (xs ++ [x]))) /\
    filled (zset b (zlen xs) (Some x)) (xs ++ [x])).
  { intros b xs older Hf Hne. pose proof (filled_le _ _ Hf). pose proof (zlen_nonneg xs).
    destruct (filled_push b xs x Hf) as [E Hf']; [lia|]. split; [|done].
    unfold Push, BLOCK_SIZE. cbn [curIndex curBlock prevBlocks].
    destruct (Z.eqb_spec (zlen xs) 32); [lia|]. cbn [curIndex curBlock prevBlocks]. rewrite E.
    rewrite u64_small by lia. by rewrite zlen_app. }
  intros Hr. pose proof Hr as Hr0. destruct Hr as [b xs Hf|b xs b' older l Hf Hne Hr];
    (destruct (decide (zlen xs = 32)) as [E|]; [rewrite E in *; apply Hone; auto using filled_new|]).
  - destruct (Hmore b xs [] Hf) as [-> Hf']; [done|]. eexists. split; [done|].
    rewrite <- rev_unit. by apply represents_bottom.
  - destruct (Hmore b xs (b' :: older) Hf) as [-> Hf']; [done|]. eexists. split; [done|].
    change (x :: rev xs ++ l) with ((x :: rev xs) ++ l). rewrite <- rev_unit.
    apply represents_above; auto. by destruct xs.
Qed.

Lemma represents_pop (s : StackInstance) (l : list T) :
  represents s l ->
  match l with
  | [] => Pop s = Err AssertFailed
  | x :: l => exists s', Pop s = Ok (x, s') /\ represents s' l
  end.
Proof.
  destruct 1 as [b xs Hf|b xs b' older l Hf Hne Hr];
    destruct xs as [|x xs _] using rev_ind; try done; rewrite rev_unit; cbn [app];
    destruct (filled_read _ _ _ Hf) as [E Hf']; pose proof (zlen_nonneg xs);
    pose proof (filled_le _ _ Hf); unfold Pop; cbn [curIndex curBlock prevBlocks];
    rewrite zlen_app, zlen_cons, (zlen_nil (A := T)) in *;
    (destruct (Z.eqb_spec (zlen xs + (0 + 1)) 0); [lia|]); cbn [negb assert];
    replace (zlen xs + (0 + 1) - 1) with (zlen xs) by lia;
    rewrite u64_small by lia; rewrite E.
  - eexists. split; [by destruct (zlen xs =? 0)|]. by apply represents_bottom.
  - destruct (Z.eqb_spec (zlen xs) 0) as [E0|Hx].
    + destruct xs; [|rewrite zlen_cons in E0; pose proof (zlen_nonneg xs); lia]. eauto.
    + eexists. split; [done|]. apply represents_above; auto. by intros ->.
Qed.

Lemma represents_top (s : StackInstance) (l : list T) :
  represents s l -> GetTop s = match l with [] => Err AssertFailed | x :: _ => Ok x end.
Proof.
  destruct 1 as [b xs Hf|b xs b' older l Hf Hne Hr];
    destruct xs as [|x xs _] using rev_ind; try done; rewrite rev_unit; cbn [app];
    destruct (filled_read _ _ _ Hf) as [E Hf']; pose proof (zlen_nonneg xs);
    pose proof (filled_le _ _ Hf); unfold GetTop; cbn [curIndex curBlock prevBlocks];
    rewrite zlen_app, zlen_cons, (zlen_nil (A := T)) in *;
    (destruct (Z.eqb_spec (zlen xs + (0 + 1)) 0); [lia|]); cbn [negb assert];
    replace (zlen xs + (0 + 1) - 1) with (zlen xs) by lia;
    rewrite u64_small by lia; done.
Qed.

Lemma represents_empty (s : StackInstance) (l : list T) :
  represents s l -> IsEmpty s = match l with [] => true | _ => false end.
Proof.
  destruct 1 as [b xs Hf|b xs b' older l Hf Hne Hr]; unfold IsEmpty; cbn [curIndex prevBlocks].
  - destruct xs as [|x xs _] using rev_ind; [done|]. rewrite rev_unit, zlen_app, zlen_cons.
    pose proof (zlen_nonneg xs). pose proof (zlen_nonneg (@nil T)). zcase; [lia|done].
  - destruct xs as [|x xs _] using rev_ind; [done|]. rewrite rev_unit, andb_false_r. done.
Qed.
End Blocks.
Arguments StackInstance T : clear implicits.
End Blocks.

(** The block stack implements the interface. *)
#[export] Instance BlockStack (T : Type) : StackImpl T.
Proof.
  refine {|
    stack := Blocks.StackInstance T;
    MakeStack := Blocks.MakeStack;
    IsEmpty := Blocks.IsEmpty;
    Push := Blocks.Push;
    Pop := Blocks.Pop;
    GetTop := Blocks.GetTop;
    holds := Blocks.represents |}.
  - apply (Blocks.represents_bottom _ []), Blocks.filled_new.
  - apply Blocks.represents_empty.
  - apply Blocks.represents_push.
  - apply Blocks.represents_pop.
  - apply Blocks.represents_top.
Defined.

(** ** Programs cannot tell two implementations apart *)

Inductive stack_op (T : Type) := OpPush (x : T) | OpPop | OpGetTop | OpIsEmpty.
Arguments OpPush {T} x.
Arguments OpPop {T}.
Arguments OpGetTop {T}.
Arguments OpIsEmpty {T}.

Inductive answer (T : Type) := Pushed | Got (x : T) | Flag (b : bool).
Arguments Pushed {T}.
Arguments Got {T} x.
Arguments Flag {T} b.

(** What a client sees of a sequence of calls. *)
Fixpoint observe {T} (I : StackImpl T) (s : @stack T I) (ops : list (stack_op T))
  : res (list (answer T)) :=
  match ops with
  | [] => Ok []
  | op :: ops =>
      let* '(a, s) :=
        match op with
        | OpPush x => let* s := Push s x in Ok (Pushed, s)
        | OpPop => let* '(x, s) := Pop s in Ok (Got x, s)
        | OpGetTop => let* x := GetTop s in Ok (Got x, s)
        | OpIsEmpty => Ok (Flag (IsEmpty s), s)
        end in
      let* rest := observe I s ops in
      Ok (a :: rest)
  end.

Lemma observe_same {T} (I J : StackImpl T) (ops : list (stack_op T)) :
  forall s t l, @holds T I s l -> @holds T J t l -> observe I s ops = observe J t ops.
Proof.
  induction ops as [|op ops IH]; intros s t l Hs Ht; [done|]. cbn [observe].
  destruct op as [x| | |].
  - destruct (Push_holds s l x Hs) as (s' & -> & Hs'), (Push_holds t l x Ht) as (t' & -> & Ht').
    by rewrite (IH s' t' (x :: l)).
  - pose proof (Pop_holds s l Hs) as H1. pose proof (Pop_holds t l Ht) as H2.
    destruct l as [|x l]; [by rewrite H1, H2|].
    destruct H1 as (s' & -> & ?), H2 as (t' & -> & ?). by rewrite (IH s' t' l).
  - rewrite (GetTop_holds s l Hs), (GetTop_holds t l Ht). destruct l as [|x l]; [done|].
    by rewrite (IH s t (x :: l)).
  - rewrite (IsEmpty_holds s l Hs), (IsEmpty_holds t l Ht). by rewrite (IH s t l).
Qed.

(** The chain of 32-element blocks is a stack: every sequence of pushes,
    pops, looks at the top and emptiness tests, across any number of block
    boundaries, gives a client exactly what a plain list gives, including the
    failed assertion on an empty stack; no access leaves a block and no
    uninitialised element is read. *)
Theorem block_stack_refines_list (T : Type) (ops : list (stack_op T)) :
  observe (BlockStack T) MakeStack ops = observe (ListStack T) [] ops.
Proof. apply (observe_same _ _ ops _ _ []); [apply MakeStack_holds|done]. Qed.
