(* ===== verification/Calculator.v ===== *)
(** * C-Labs/Calculator/src/main.c

    The expression evaluator with an operand and an operator stack.  An
    expression is the list of its character codes. *)
From S2P Require Import Prelude Stack.

Definition SYNTAX_ERROR : fault := Exited 0 "syntax error".
Definition DIVISION_BY_ZERO : fault := Exited 0 "division by zero".

(** Character codes. *)
Definition ch_open : Z := 40.
Definition ch_close : Z := 41.
Definition ch_mul : Z := 42.
Definition ch_add : Z := 43.
Definition ch_sub : Z := 45.
Definition ch_div : Z := 47.

(** [strchr(set, c)] for a [c] other than the terminator. *)
Definition strchr (set : list Z) (c : Z) : bool := existsb (Z.eqb c) set.

Definition isdigit (c : Z) : bool := (48 <=? c) && (c <=? 57).

Inductive ElementType := Operand | Operator.

Definition CharToDigit (ch : Z) : res Z :=
  let* _ := assert (isdigit ch) in Ok (ch - 48).

(** The digits of a number: [*value = *value * 10 + CharToDigit( **ptr)]. *)
Fixpoint read_number (value : Z) (expr : list Z) : res (Z * list Z) :=
  match expr with
  | c :: rest =>
      if isdigit c then
        let* d := CharToDigit c in
        let* m := s32 (value * 10) in
        let* value := s32 (m + d) in
        read_number value rest
      else Ok (value, expr)
  | [] => Ok (value, [])
  end.

(** [getNext]: [None] at the end of the expression. *)
Definition getNext (expr : list Z) : res (option (Z * ElementType * list Z)) :=
  match expr with
  | [] => Ok None
  | c :: rest =>
      if (c =? ch_open) && match rest with c' :: _ => c' =? ch_close | [] => false end
      then Err SYNTAX_ERROR
      else if isdigit c then
        let* '(value, rest) := read_number 0 expr in
        Ok (Some (value, Operand, rest))
      else if strchr [ch_add; ch_sub; ch_mul; ch_div; ch_open; ch_close] c then
        Ok (Some (c, Operator, rest))
      else Err SYNTAX_ERROR
  end.

Section Calculator.
Context {I : StackImpl Z}.

Definition ApplyOperator (operandsStack : stack) (operator : Z) : res stack :=
  let* _ := assert (strchr [ch_mul; ch_div; ch_add; ch_sub] operator) in
  if IsEmpty operandsStack then Err SYNTAX_ERROR
  else
    let* '(o2, operandsStack) := Pop operandsStack in
    if IsEmpty operandsStack then Err SYNTAX_ERROR
    else
      let* '(o1, operandsStack) := Pop operandsStack in
      if operator =? ch_add then
        let* r := s32 (o1 + o2) in Push operandsStack r
      else if operator =? ch_sub then
        let* r := s32 (o1 - o2) in Push operandsStack r
      else if operator =? ch_mul then
        let* r := s32 (o1 * o2) in Push operandsStack r
      else
        if o2 =? 0 then Err DIVISION_BY_ZERO
        else let* r := s32 (Z.quot o1 o2) in Push operandsStack r.

(** Applies one operator from the stack if it is present in [typesToApply]. *)
Definition ApplyTopOperator (operandsStack operatorsStack : stack) (typesToApply : list Z)
  : res (stack * stack) :=
  if negb (IsEmpty operatorsStack) then
    let* top := GetTop operatorsStack in
    if strchr typesToApply top then
      let* '(op, operatorsStack) := Pop operatorsStack in
      let* operandsStack := ApplyOperator operandsStack op in
      Ok (operandsStack, operatorsStack)
    else Ok (operandsStack, operatorsStack)
  else Ok (operandsStack, operatorsStack).

(** [while (!IsEmpty(operators))] of [ApplyBrackets]; every round pops one. *)
Fixpoint ApplyBrackets (fuel : nat) (operands operators : stack) : res (stack * stack) :=
  match fuel with
  | O => Err OutOfFuel
  | S fuel =>
      if IsEmpty operators then Err SYNTAX_ERROR
      else
        let* '(op, operators) := Pop operators in
        if op =? ch_open then Ok (operands, operators)
        else
          let* operands := ApplyOperator operands op in
          ApplyBrackets fuel operands operators
  end.

(** The loop that applies the remaining operators. *)
Fixpoint apply_rest (fuel : nat) (operands operators : stack) : res stack :=
  match fuel with
  | O => Err OutOfFuel
  | S fuel =>
      if IsEmpty operators then Ok operands
      else
        let* '(op, operators) := Pop operators in
        if negb (strchr [ch_add; ch_sub; ch_div; ch_mul] op) then Err SYNTAX_ERROR
        else
          let* operands := ApplyOperator operands op in
          apply_rest fuel operands operators
  end.

Definition finish (fuel : nat) (operands operators : stack) : res Z :=
  let* operands := apply_rest fuel operands operators in
  if IsEmpty operands then Err SYNTAX_ERROR
  else let* '(result, _) := Pop operands in Ok result.

(** One element of the main loop. *)
Definition handle_element (depth : nat) (value : Z) (type : ElementType)
    (operands operators : stack) : res (stack * stack) :=
  match type with
  | Operand => let* operands := Push operands value in Ok (operands, operators)
  | Operator =>
      if strchr [ch_mul; ch_div] value then
        let* '(operands, operators) := ApplyTopOperator operands operators [ch_mul; ch_div] in
        let* operators := Push operators value in
        Ok (operands, operators)
      else if strchr [ch_add; ch_sub] value then
        let* '(operands, operators) :=
          ApplyTopOperator operands operators [ch_add; ch_sub; ch_mul; ch_div] in
        let* operators := Push operators value in
        Ok (operands, operators)
      else if value =? ch_open then
        let* operators := Push operators value in Ok (operands, operators)
      else if value =? ch_close then ApplyBrackets depth operands operators
      else Ok (operands, operators)
  end.

(** The main loop.  [fuel] bounds the elements left, [depth] the height of the
    operator stack. *)
Fixpoint calculate (fuel depth : nat) (expr : list Z) (operands operators : stack) : res Z :=
  match fuel with
  | O => Err OutOfFuel
  | S fuel =>
      let* next := getNext expr in
      match next with
      | None => finish depth operands operators
      | Some (value, type, expr) =>
          let* '(operands, operators) := handle_element depth value type operands operators in
          calculate fuel depth expr operands operators
      end
  end.

Definition CalculateExpression (expr : list Z) : res Z :=
  calculate (S (length expr)) (S (length expr)) expr MakeStack MakeStack.
End Calculator.

(** What [scanf("%1000[^\n]s", input)] does: it stores the first 1000 characters
    of a non-empty line, or
    nothing because the line is empty, or nothing because there is no input, and
    then the program goes on with an uninitialised buffer. *)
Inductive scanned := Line (input : list Z) | EmptyLine | EndOfInput.

(** [main]: the number it prints, or the message it prints instead. *)
Definition main (input : scanned) : res Z :=
  match input with
  | EmptyLine => Err SYNTAX_ERROR
  | EndOfInput => Err Undefined
  | Line input => @CalculateExpression (BlockStack Z) (take 1000 input)
  end.

Example calc_run : main (Line [49; 42; 40; 50; 43; 51; 41; 47; 52]) = Ok 1.
Proof. reflexivity. Qed.

(** ** Any stack will do

    The evaluator only uses the stack through its interface, so it computes the
    same with every implementation. *)

#[local] Abbreviation LS := (ListStack Z) (only parsing).

Section Independence.
Context {I : StackImpl Z}.

(** Two computations on stacks agree: same fault, or same contents. *)
Definition agree (r : res stack) (r' : res (list Z)) : Prop :=
  match r, r' with
  | Ok s, Ok l => holds s l
  | Err f, Err g => f = g
  | _, _ => False
  end.

Definition agree2 (r : res (stack * stack)) (r' : res (list Z * list Z)) : Prop :=
  match r, r' with
  | Ok (s1, s2), Ok (l1, l2) => holds s1 l1 /\ holds s2 l2
  | Err f, Err g => f = g
  | _, _ => False
  end.

Lemma push_agree (r : res Z) (s : stack) (l : list Z) :
  holds s l -> agree (let* x := r in Push s x) (let* x := r in Ok (x :: l)).
Proof.
  intros Hs. destruct r as [x|f]; [|done]. cbn.
  by destruct (Push_holds s l x Hs) as (s' & -> & Hs').
Qed.

Lemma ApplyOperator_agree (s : stack) (l : list Z) (op : Z) :
  holds s l -> agree (ApplyOperator s op) (@ApplyOperator LS l op).
Proof.
  intros Hs. unfold ApplyOperator. destruct (assert _) as [[]|f]; [|done]. cbn.
  rewrite (IsEmpty_holds s l Hs). destruct l as [|o2 l]; [done|].
  destruct (Pop_holds s _ Hs) as (s1 & -> & Hs1).
  rewrite (IsEmpty_holds s1 l Hs1). destruct l as [|o1 l]; [done|].
  destruct (Pop_holds s1 _ Hs1) as (s2 & -> & Hs2).
  destruct (op =? ch_add), (op =? ch_sub), (op =? ch_mul), (o2 =? 0);
    first [by apply push_agree | done].
Qed.

Lemma ApplyTopOperator_agree (s1 s2 : stack) (l1 l2 types : list Z) :
  holds s1 l1 -> holds s2 l2 ->
  agree2 (ApplyTopOperator s1 s2 types) (@ApplyTopOperator LS l1 l2 types).
Proof.
  intros H1 H2. unfold ApplyTopOperator. rewrite (IsEmpty_holds s2 l2 H2), (GetTop_holds s2 l2 H2).
  destruct l2 as [|op l2]; [done|]. cbn. destruct (strchr types op); [|done].
  destruct (Pop_holds s2 _ H2) as (s2' & -> & H2').
  pose proof (ApplyOperator_agree s1 l1 op H1) as Ha.
  destruct (ApplyOperator s1 op), (@ApplyOperator LS l1 op); cbn in *; auto; done.
Qed.

Lemma ApplyBrackets_agree (fuel : nat) :
  forall s1 s2 l1 l2, holds s1 l1 -> holds s2 l2 ->
  agree2 (ApplyBrackets fuel s1 s2) (@ApplyBrackets LS fuel l1 l2).
Proof.
  induction fuel as [|fuel IH]; intros s1 s2 l1 l2 H1 H2; [done|]. cbn [ApplyBrackets].
  rewrite (IsEmpty_holds s2 l2 H2). destruct l2 as [|op l2]; [done|].
  destruct (Pop_holds s2 _ H2) as (s2' & -> & H2'). cbn. destruct (op =? ch_open); [done|].
  pose proof (ApplyOperator_agree s1 l1 op H1) as Ha.
  destruct (ApplyOperator s1 op), (@ApplyOperator LS l1 op); cbn in *; auto; done.
Qed.

Lemma apply_rest_agree (fuel : nat) :
  forall s1 s2 l1 l2, holds s1 l1 -> holds s2 l2 ->
  agree (apply_rest fuel s1 s2) (@apply_rest LS fuel l1 l2).
Proof.
  induction fuel as [|fuel IH]; intros s1 s2 l1 l2 H1 H2; [done|]. cbn [apply_rest].
  rewrite (IsEmpty_holds s2 l2 H2). destruct l2 as [|op l2]; [done|].
  destruct (Pop_holds s2 _ H2) as (s2' & -> & H2'). cbn -[strchr].
  destruct (negb _); [done|]. pose proof (ApplyOperator_agree s1 l1 op H1) as Ha.
  destruct (ApplyOperator s1 op), (@ApplyOperator LS l1 op); cbn in *; auto; done.
Qed.

Lemma finish_same (fuel : nat) (s1 s2 : stack) (l1 l2 : list Z) :
  holds s1 l1 -> holds s2 l2 -> finish fuel s1 s2 = @finish LS fuel l1 l2.
Proof.
  intros H1 H2. unfold finish. pose proof (apply_rest_agree fuel s1 s2 l1 l2 H1 H2) as Ha.
  destruct (apply_rest fuel s1 s2) as [s|f], (@apply_rest LS fuel l1 l2) as [l|g]; cbn in Ha |- *;
    try done; [|congruence].
  rewrite (IsEmpty_holds s l Ha). destruct l as [|x l]; [done|].
  by destruct (Pop_holds s _ Ha) as (s' & -> & _).
Qed.

Lemma handle_element_agree (depth : nat) (v : Z) (ty : ElementType) (s1 s2 : stack) (l1 l2 : list Z) :
  holds s1 l1 -> holds s2 l2 ->
  agree2 (handle_element depth v ty s1 s2) (@handle_element LS depth v ty l1 l2).
Proof.
  intros H1 H2. destruct ty; unfold handle_element.
  { by destruct (Push_holds s1 l1 v H1) as (s1' & -> & ?). }
  assert (Htop : forall types, agree2
    (let* '(operands, operators) := ApplyTopOperator s1 s2 types in
     let* operators := Push operators v in Ok (operands, operators))
    (let* '(operands, operators) := @ApplyTopOperator LS l1 l2 types in
     let* operators := @Push Z LS operators v in Ok (operands, operators))).
  { intros types. pose proof (ApplyTopOperator_agree s1 s2 l1 l2 types H1 H2) as Ha.
    destruct (ApplyTopOperator s1 s2 types) as [[t1 t2]|], (@ApplyTopOperator LS l1 l2 types) as [[m1 m2]|];
      cbn in Ha |- *; try done.
    destruct Ha as [Ha1 Ha2]. by destruct (Push_holds t2 m2 v Ha2) as (t2' & -> & ?). }
  destruct (strchr [ch_mul; ch_div] v); [apply Htop|].
  destruct (strchr [ch_add; ch_sub] v); [apply Htop|].
  destruct (v =? ch_open); [by destruct (Push_holds s2 l2 v H2) as (s2' & -> & ?)|].
  destruct (v =? ch_close); [by apply ApplyBrackets_agree|done].
Qed.

Lemma calculate_same (depth fuel : nat) :
  forall expr s1 s2 l1 l2, holds s1 l1 -> holds s2 l2 ->
  calculate fuel depth expr s1 s2 = @calculate LS fuel depth expr l1 l2.
Proof.
  induction fuel as [|fuel IH]; intros expr s1 s2 l1 l2 H1 H2; [done|]. cbn [calculate].
  destruct (getNext expr) as [[[[v ty] rest]|]|f]; [|by apply finish_same|done].
  pose proof (handle_element_agree depth v ty s1 s2 l1 l2 H1 H2) as Ha.
  destruct (handle_element depth v ty s1 s2) as [[t1 t2]|], (@handle_element LS depth v ty l1 l2) as [[m1 m2]|];
    cbn in Ha |- *; try done; [|congruence].
  destruct Ha. by apply IH.
Qed.

Lemma CalculateExpression_same (expr : list Z) :
  CalculateExpression expr = @CalculateExpression LS expr.
Proof. apply calculate_same; apply MakeStack_holds. Qed.
End Independence.

(** ** Arithmetic expressions

    The grammar of the statement of the task: sums of products of numbers and
    parenthesised expressions, all operators associating to the left. *)

Inductive addop := Add | Sub.
Inductive mulop := Mul | Div.

Inductive expr :=
| ETerm (t : term)
| EAdd (e : expr) (op : addop) (t : term)
with term :=
| TFactor (f : factor)
| TMul (t : term) (op : mulop) (f : factor)
with factor :=
| FNum (d : Z) (ds : list Z)
| FParen (e : expr).

Scheme expr_mind := Induction for expr Sort Prop
  with term_mind := Induction for term Sort Prop
  with factor_mind := Induction for factor Sort Prop.
Combined Scheme grammar_ind from expr_mind, term_mind, factor_mind.

Definition addop_char (op : addop) : Z := match op with Add => ch_add | Sub => ch_sub end.
Definition mulop_char (op : mulop) : Z := match op with Mul => ch_mul | Div => ch_div end.

(** The text of an expression. *)
Fixpoint show_expr (e : expr) : list Z :=
  match e with
  | ETerm t => show_term t
  | EAdd e op t => show_expr e ++ addop_char op :: show_term t
  end
with show_term (t : term) : list Z :=
  match t with
  | TFactor f => show_factor f
  | TMul t op f => show_term t ++ mulop_char op :: show_factor f
  end
with show_factor (f : factor) : list Z :=
  match f with
  | FNum d ds => map (Z.add 48) (d :: ds)
  | FParen e => ch_open :: show_expr e ++ [ch_close]
  end.

(** Numbers are written in decimal digits. *)
Fixpoint digits_expr (e : expr) : Prop :=
  match e with ETerm t => digits_term t | EAdd e _ t => digits_expr e /\ digits_term t end
with digits_term (t : term) : Prop :=
  match t with TFactor f => digits_factor f | TMul t _ f => digits_term t /\ digits_factor f end
with digits_factor (f : factor) : Prop :=
  match f with
  | FNum d ds => Forall (fun x => 0 <= x <= 9) (d :: ds)
  | FParen e => digits_expr e
  end.

(** The value, computed from left to right on 32-bit integers: an overflow is
    undefined, a division by zero is reported. *)
Fixpoint number (value : Z) (ds : list Z) : res Z :=
  match ds with
  | [] => Ok value
  | d :: ds =>
      let* m := s32 (value * 10) in
      let* value := s32 (m + d) in
      number value ds
  end.

Definition apply_op (op x y : Z) : res Z :=
  if op =? ch_add then s32 (x + y)
  else if op =? ch_sub then s32 (x - y)
  else if op =? ch_mul then s32 (x * y)
  else if y =? 0 then Err DIVISION_BY_ZERO else s32 (Z.quot x y).

Fixpoint eval_expr (e : expr) : res Z :=
  match e with
  | ETerm t => eval_term t
  | EAdd e op t => let* x := eval_expr e in let* y := eval_term t in apply_op (addop_char op) x y
  end
with eval_term (t : term) : res Z :=
  match t with
  | TFactor f => eval_factor f
  | TMul t op f => let* x := eval_term t in let* y := eval_factor f in apply_op (mulop_char op) x y
  end
with eval_factor (f : factor) : res Z :=
  match f with
  | FNum d ds => number 0 (d :: ds)
  | FParen e => eval_expr e
  end.

(** The evaluator applies at most one pending operator when it reads a [+] or a
    [-].  That is enough unless the sum so far ends in a product of two or more
    factors that itself follows a [+] or [-]. *)
Definition one_pending (e : expr) : bool :=
  match e with EAdd _ _ (TMul _ _ _) => false | _ => true end.

Fixpoint regular_expr (e : expr) : bool :=
  match e with
  | ETerm t => regular_term t
  | EAdd e _ t => one_pending e && regular_expr e && regular_term t
  end
with regular_term (t : term) : bool :=
  match t with TFactor f => regular_factor f | TMul t _ f => regular_term t && regular_factor f end
with regular_factor (f : factor) : bool :=
  match f with FNum _ _ => true | FParen e => regular_expr e end.

(** ** The stacks after reading an expression *)

(** What is on the two stacks, above what was there, after a term and after an
    expression: the operator of the last product and the last sum are pending. *)
Definition pending_term (t : term) : res (list Z * list Z) :=
  match t with
  | TFactor f => let* y := eval_factor f in Ok ([y], [])
  | TMul t op f =>
      let* x := eval_term t in let* y := eval_factor f in Ok ([y; x], [mulop_char op])
  end.

Definition pending_expr (e : expr) : res (list Z * list Z) :=
  match e with
  | ETerm t => pending_term t
  | EAdd e op t =>
      let* x := eval_expr e in
      let* '(vs, os) := pending_term t in
      Ok (vs ++ [x], os ++ [addop_char op])
  end.

Definition arith (op : Z) : Prop := op = ch_add \/ op = ch_sub \/ op = ch_mul \/ op = ch_div.

Lemma addop_arith (op : addop) : arith (addop_char op).
Proof. destruct op; unfold arith; cbn; auto. Qed.
Lemma mulop_arith (op : mulop) : arith (mulop_char op).
Proof. destruct op; unfold arith; cbn; auto. Qed.

Lemma ApplyOperator_list (op x y : Z) (vals : list Z) :
  arith op ->
  @ApplyOperator LS (y :: x :: vals) op = let* r := apply_op op x y in Ok (r :: vals).
Proof. intros [-> | [-> | [-> | ->]]]; cbn; try done. by destruct (y =? 0). Qed.

(** Applying pending operators one after the other. *)
Fixpoint collapse (os vals : list Z) : res (list Z) :=
  match os with
  | [] => Ok vals
  | op :: os => let* vals := @ApplyOperator LS vals op in collapse os vals
  end.

Lemma collapse_app (os os' vals : list Z) :
  collapse (os ++ os') vals = let* vals := collapse os vals in collapse os' vals.
Proof.
  revert vals. induction os as [|op os IH]; intros vals; cbn; [done|].
  destruct (@ApplyOperator LS vals op); [apply IH|done].
Qed.

Lemma collapse_term (t : term) (vals : list Z) :
  (let* '(vs, os) := pending_term t in collapse os (vs ++ vals)) =
  let* v := eval_term t in Ok (v :: vals).
Proof.
  destruct t as [f|t op f]; cbn [pending_term eval_term].
  - by destruct (eval_factor f).
  - destruct (eval_term t), (eval_factor f); cbn [collapse app]; try done.
    rewrite ApplyOperator_list by apply mulop_arith. by destruct (apply_op _ _ _).
Qed.

Lemma collapse_expr (e : expr) (vals : list Z) :
  (let* '(vs, os) := pending_expr e in collapse os (vs ++ vals)) =
  let* v := eval_expr e in Ok (v :: vals).
Proof.
  destruct e as [t|e op t]; cbn [pending_expr eval_expr]; [apply collapse_term|].
  destruct (eval_expr e) as [x|]; [|done].
  pose proof (collapse_term t (x :: vals)) as Ht.
  destruct (pending_term t) as [[vs os]|]; [|by destruct (eval_term t)].
  rewrite collapse_app, <- app_assoc. cbn [app]. rewrite Ht.
  destruct (eval_term t) as [y|]; [|done]. cbn [collapse].
  rewrite ApplyOperator_list by apply addop_arith. by destruct (apply_op _ _ _).
Qed.

Lemma show_nonempty :
  (forall e, (1 <= length (show_expr e))%nat) /\ (forall t, (1 <= length (show_term t))%nat) /\
  (forall f, (1 <= length (show_factor f))%nat).
Proof.
  apply grammar_ind; intros; cbn [show_expr show_term show_factor length map] in *;
    rewrite ?length_app; cbn; lia.
Qed.

Lemma pending_term_ops (t : term) (vs os : list Z) :
  pending_term t = Ok (vs, os) ->
  Forall arith os /\ (length os <= 1)%nat /\ (length os < length (show_term t))%nat.
Proof.
  destruct show_nonempty as (_ & Ht & Hf).
  destruct t as [f|t op f]; cbn [pending_term show_term]; intros H; inv_ok; simplify_eq.
  - specialize (Hf f). cbn. split_and!; try lia. constructor.
  - specialize (Ht t). rewrite length_app. cbn. split_and!; try lia.
    apply Forall_singleton, mulop_arith.
Qed.

Lemma pending_expr_ops (e : expr) (vs os : list Z) :
  pending_expr e = Ok (vs, os) ->
  Forall arith os /\ (length os < length (show_expr e))%nat /\
  (one_pending e = true -> (length os <= 1)%nat).
Proof.
  destruct e as [t|e op t]; cbn [pending_expr show_expr one_pending]; intros H.
  - apply pending_term_ops in H as (? & ? & ?). auto.
  - inv_ok. destruct a0 as [vs' os']. inv_ok. simplify_eq.
    destruct (pending_term_ops t vs' os' E0) as (Ha & H1 & Hl).
    rewrite !length_app. cbn. split_and!; try lia.
    + apply Forall_app. split; [done|]. apply Forall_singleton, addop_arith.
    + destruct t; [|done]. cbn in E0. inv_ok. simplify_eq. cbn. lia.
Qed.

Lemma ApplyBrackets_list (os : list Z) :
  forall fuel vals ops, Forall arith os -> (length os < fuel)%nat ->
  @ApplyBrackets LS fuel vals (os ++ ch_open :: ops) = let* vals := collapse os vals in Ok (vals, ops).
Proof.
  induction os as [|op os IH]; intros fuel vals ops Ha Hf; (destruct fuel as [|fuel]; [cbn in Hf; lia|]).
  - done.
  - apply Forall_cons in Ha as [Hop Ha]. cbn [ApplyBrackets app collapse]. cbn.
    destruct (Z.eqb_spec op ch_open) as [->|]; [by destruct Hop as [|[|[|]]]|].
    destruct (@ApplyOperator LS vals op); [|done]. apply IH; [done|]. cbn in Hf. lia.
Qed.

Lemma apply_rest_list (os : list Z) :
  forall fuel vals, Forall arith os -> (length os < fuel)%nat ->
  @apply_rest LS fuel vals os = collapse os vals.
Proof.
  induction os as [|op os IH]; intros fuel vals Ha Hf; (destruct fuel as [|fuel]; [cbn in Hf; lia|]).
  - done.
  - apply Forall_cons in Ha as [Hop Ha]. cbn [apply_rest collapse]. cbn -[strchr].
    replace (strchr _ op) with true by (by destruct Hop as [-> | [-> | [-> | ->]]]). cbn [negb].
    destruct (@ApplyOperator LS vals op); [|done]. apply IH; [done|]. cbn in Hf. lia.
Qed.

(** No product may be pending below a term, no operator below an expression. *)
Definition no_product (ops : list Z) : Prop :=
  match ops with op :: _ => op <> ch_mul /\ op <> ch_div | [] => True end.
Definition no_operator (ops : list Z) : Prop :=
  match ops with op :: _ => op = ch_open | [] => True end.

Lemma top_operator_list (types os vals ops : list Z) :
  (length os <= 1)%nat -> Forall arith os -> Forall (fun op => strchr types op = true) os ->
  match ops with op :: _ => strchr types op = false | [] => True end ->
  @ApplyTopOperator LS vals (os ++ ops) types = let* vals := collapse os vals in Ok (vals, ops).
Proof.
  intros Hl Ha Ht Ho. destruct os as [|op [|]]; [| |cbn in Hl; lia].
  - destruct ops as [|op ops]; [done|]. unfold ApplyTopOperator. cbn. by rewrite Ho.
  - apply Forall_cons in Ht as [Ht _]. unfold ApplyTopOperator. cbn. rewrite Ht.
    by destruct (@ApplyOperator LS vals op).
Qed.

(** ** Reading elements *)

Definition no_digit (rest : list Z) : Prop :=
  match rest with c :: _ => isdigit c = false | [] => True end.

Lemma digit_isdigit (d : Z) : 0 <= d <= 9 -> isdigit (48 + d) = true.
Proof. intros. unfold isdigit. zcase; try lia; done. Qed.

Lemma read_number_list (ds rest : list Z) :
  no_digit rest -> Forall (fun x => 0 <= x <= 9) ds ->
  forall v, read_number v (map (Z.add 48) ds ++ rest) = let* v := number v ds in Ok (v, rest).
Proof.
  intros Hr. induction 1 as [|d ds Hd _ IH]; intros v; cbn [map app].
  - destruct rest as [|c rest]; [done|]. cbn in *. by rewrite Hr.
  - cbn [read_number number]. unfold CharToDigit. rewrite digit_isdigit by done. cbn [assert].
    replace (48 + d - 48) with d by lia.
    destruct (s32 (v * 10)) as [m|]; [|done]. destruct (s32 (m + d)); [apply IH|done].
Qed.

Lemma getNext_number (d : Z) (ds rest : list Z) :
  no_digit rest -> Forall (fun x => 0 <= x <= 9) (d :: ds) ->
  getNext (map (Z.add 48) (d :: ds) ++ rest) =
    let* v := number 0 (d :: ds) in Ok (Some (v, Operand, rest)).
Proof.
  intros Hr Hd. pose proof (read_number_list (d :: ds) rest Hr Hd 0) as Hn.
  apply Forall_cons in Hd as [Hd _]. cbn [map app] in *. unfold getNext.
  destruct (Z.eqb_spec (48 + d) ch_open) as [E|_]; [unfold ch_open in E; lia|]. cbn [andb].
  rewrite digit_isdigit, Hn by done. by destruct (number 0 (d :: ds)).
Qed.

Lemma getNext_operator (op : Z) (rest : list Z) :
  arith op \/ op = ch_close -> getNext (op :: rest) = Ok (Some (op, Operator, rest)).
Proof. intros [[-> | [-> | [-> | ->]]] | ->]; done. Qed.

Lemma getNext_open (c : Z) (rest : list Z) :
  c <> ch_close -> getNext (ch_open :: c :: rest) = Ok (Some (ch_open, Operator, c :: rest)).
Proof. intros Hc. unfold getNext. destruct (Z.eqb_spec c ch_close); done. Qed.

Lemma show_head :
  (forall e, digits_expr e -> exists c s, show_expr e = c :: s /\ c <> ch_close) /\
  (forall t, digits_term t -> exists c s, show_term t = c :: s /\ c <> ch_close) /\
  (forall f, digits_factor f -> exists c s, show_factor f = c :: s /\ c <> ch_close).
Proof.
  apply grammar_ind; cbn [show_expr show_term show_factor digits_expr digits_term digits_factor].
  - auto.
  - intros e IH op t _ [He _]. destruct (IH He) as (c & s & -> & Hc). cbn. eauto.
  - auto.
  - intros t IH op f _ [Ht _]. destruct (IH Ht) as (c & s & -> & Hc). cbn. eauto.
  - intros d ds [Hd _]%Forall_cons. cbn [map]. do 2 eexists. split; [done|]. unfold ch_close. lia.
  - intros e _ _. by do 2 eexists.
Qed.

Lemma operator_no_digit (op : Z) (rest : list Z) : arith op \/ op = ch_close -> no_digit (op :: rest).
Proof. intros [[-> | [-> | [-> | ->]]] | ->]; done. Qed.

(** ** The evaluator on a well-formed text *)

Section Simulation.
Variable depth : nat.

(** The computation from [expr], with whatever fuel is left, continues as [k]. *)
Definition runs_to (expr vals ops rest : list Z) (r : res (list Z * list Z)) : Prop :=
  forall fuel, (length expr < fuel)%nat ->
  exists fuel', (length rest < fuel')%nat /\
    @calculate LS fuel depth expr vals ops =
      let* '(vals, ops) := r in @calculate LS fuel' depth rest vals ops.

Lemma runs_to_step (expr vals ops rest : list Z) (v : Z) (ty : ElementType) :
  (length rest < length expr)%nat -> getNext expr = Ok (Some (v, ty, rest)) ->
  runs_to expr vals ops rest (@handle_element LS depth v ty vals ops).
Proof.
  intros Hl E [|fuel] Hf; [lia|]. exists fuel. split; [lia|]. cbn [calculate]. rewrite E. done.
Qed.

Lemma runs_to_trans (expr vals ops mid rest : list Z) r (k : list Z -> list Z -> res (list Z * list Z)) :
  (length rest <= length mid)%nat ->
  runs_to expr vals ops mid r ->
  (forall vals ops, r = Ok (vals, ops) -> runs_to mid vals ops rest (k vals ops)) ->
  runs_to expr vals ops rest (let* '(vals, ops) := r in k vals ops).
Proof.
  intros Hl H1 H2 fuel Hf. destruct (H1 fuel Hf) as (f1 & Hf1 & ->).
  destruct r as [[vals' ops']|f]; [by apply (H2 vals' ops')|]. exists f1. split; [lia|done].
Qed.

Lemma runs_to_eq (expr vals ops rest : list Z) r r' :
  runs_to expr vals ops rest r -> r = r' -> runs_to expr vals ops rest r'.
Proof. by intros ? ->. Qed.

Definition factor_runs (f : factor) : Prop :=
  digits_factor f -> regular_factor f = true -> (length (show_factor f) <= depth)%nat ->
  forall rest vals ops, no_digit rest ->
  runs_to (show_factor f ++ rest) vals ops rest (let* v := eval_factor f in Ok (v :: vals, ops)).

Definition term_runs (t : term) : Prop :=
  digits_term t -> regular_term t = true -> (length (show_term t) <= depth)%nat ->
  forall rest vals ops, no_digit rest -> no_product ops ->
  runs_to (show_term t ++ rest) vals ops rest
    (let* '(vs, os) := pending_term t in Ok (vs ++ vals, os ++ ops)).

Definition expr_runs (e : expr) : Prop :=
  digits_expr e -> regular_expr e = true -> (length (show_expr e) <= depth)%nat ->
  forall rest vals ops, no_digit rest -> no_operator ops ->
  runs_to (show_expr e ++ rest) vals ops rest
    (let* '(vs, os) := pending_expr e in Ok (vs ++ vals, os ++ ops)).

Lemma number_runs (d : Z) (ds : list Z) : factor_runs (FNum d ds).
Proof.
  intros Hd _ _ rest vals ops Hr. cbn [show_factor eval_factor]. intros [|fuel] Hf; [lia|].
  exists fuel. rewrite length_app, length_map in Hf. cbn [length] in Hf. split; [lia|].
  cbn [calculate]. rewrite getNext_number by done. by destruct (number 0 (d :: ds)).
Qed.

Lemma paren_runs (e : expr) : expr_runs e -> factor_runs (FParen e).
Proof.
  intros IH Hd Hr Hl rest vals ops Hrest. cbn [show_factor eval_factor digits_factor regular_factor] in *.
  cbn [length] in Hl. rewrite length_app in Hl. cbn in Hl.
  destruct (proj1 show_head e Hd) as (c & s & Es & Hc).
  change ((ch_open :: show_expr e ++ [ch_close]) ++ rest)
    with (ch_open :: (show_expr e ++ [ch_close]) ++ rest). rewrite <- app_assoc. cbn [app].
  eapply runs_to_eq.
  { apply runs_to_trans with (mid := show_expr e ++ ch_close :: rest)
      (r := @handle_element LS depth ch_open Operator vals ops)
      (k := fun vals ops =>
        let* '(vals, ops) :=
          (let* '(vs, os) := pending_expr e in Ok (vs ++ vals, os ++ ops)) in
        @handle_element LS depth ch_close Operator vals ops).
    - rewrite length_app. cbn. lia.
    - apply runs_to_step; [cbn; lia|]. rewrite Es. by apply getNext_open.
    - intros vals' ops' [= <- <-].
      apply runs_to_trans with (mid := ch_close :: rest); [cbn; lia| |].
      + apply IH; auto; [lia|by apply operator_no_digit; right|done].
      + intros vals' ops' _. apply runs_to_step; [cbn; lia|]. by apply getNext_operator; right. }
  change (@handle_element LS depth ch_open Operator vals ops) with (@Ok (list Z * list Z) (vals, ch_open :: ops)).
  cbn -[handle_element ApplyBrackets]. pose proof (collapse_expr e vals) as Hce.
  destruct (pending_expr e) as [[vs os]|f] eqn:Ep; [|destruct (eval_expr e); congruence].
  destruct (pending_expr_ops e vs os Ep) as (Ha & Hos & _).
  cbn -[handle_element ApplyBrackets].
  change (@handle_element LS depth ch_close Operator (vs ++ vals) (os ++ ch_open :: ops))
    with (@ApplyBrackets LS depth (vs ++ vals) (os ++ ch_open :: ops)).
  rewrite ApplyBrackets_list by (auto; lia). rewrite Hce. by destruct (eval_expr e).
Qed.

Lemma product_runs (t : term) (op : mulop) (f : factor) :
  term_runs t -> factor_runs f -> term_runs (TMul t op f).
Proof.
  intros IHt IHf [Hdt Hdf] Hr Hl rest vals ops Hrest Hops.
  cbn [show_term regular_term pending_term] in *. apply andb_prop in Hr as [Hrt Hrf].
  rewrite length_app in Hl. cbn [length] in Hl. rewrite <- app_assoc. cbn [app].
  eapply runs_to_eq.
  { apply runs_to_trans with (mid := mulop_char op :: show_factor f ++ rest)
      (r := let* '(vs, os) := pending_term t in Ok (vs ++ vals, os ++ ops))
      (k := fun vals ops =>
        let* '(vals, ops) := @handle_element LS depth (mulop_char op) Operator vals ops in
        let* v := eval_factor f in Ok (v :: vals, ops)).
    - cbn. rewrite length_app. lia.
    - apply IHt; auto; [lia|]. apply operator_no_digit. left. apply mulop_arith.
    - intros vals' ops' _.
      apply runs_to_trans with (mid := show_factor f ++ rest); [rewrite length_app; lia| |].
      + apply runs_to_step; [cbn; lia|]. apply getNext_operator. left. apply mulop_arith.
      + intros vals'' ops'' _. apply IHf; auto. lia. }
  pose proof (collapse_term t vals) as Hct.
  destruct (pending_term t) as [[vs os]|e] eqn:Ep; [|destruct (eval_term t); congruence].
  destruct (pending_term_ops t vs os Ep) as (Ha & Hos & _).
  assert (Eh : @handle_element LS depth (mulop_char op) Operator (vs ++ vals) (os ++ ops) =
    let* vals := collapse os (vs ++ vals) in Ok (vals, mulop_char op :: ops)).
  { unfold handle_element. replace (strchr [ch_mul; ch_div] (mulop_char op)) with true by (by destruct op).
    rewrite top_operator_list; [by destruct (collapse _ _)|done|done| |].
    - destruct t; cbn in Ep; inv_ok; simplify_eq; constructor; [by destruct op0|done].
    - destruct ops as [|o ops]; [done|]. destruct Hops as [H1 H2]. cbn.
      destruct (Z.eqb_spec o ch_mul), (Z.eqb_spec o ch_div); done. }
  rewrite Eh, Hct. destruct (eval_term t) as [x|]; [|done]. by destruct (eval_factor f).
Qed.

Lemma sum_runs (e : expr) (op : addop) (t : term) :
  expr_runs e -> term_runs t -> expr_runs (EAdd e op t).
Proof.
  intros IHe IHt [Hde Hdt] Hr Hl rest vals ops Hrest Hops.
  cbn [show_expr regular_expr pending_expr] in *.
  apply andb_prop in Hr as [[Hone Hre]%andb_prop Hrt].
  rewrite length_app in Hl. cbn [length] in Hl. rewrite <- app_assoc. cbn [app].
  eapply runs_to_eq.
  { apply runs_to_trans with (mid := addop_char op :: show_term t ++ rest)
      (r := let* '(vs, os) := pending_expr e in Ok (vs ++ vals, os ++ ops))
      (k := fun vals ops =>
        let* '(vals, ops) := @handle_element LS depth (addop_char op) Operator vals ops in
        let* '(vs, os) := pending_term t in Ok (vs ++ vals, os ++ ops)).
    - cbn. rewrite length_app. lia.
    - apply IHe; auto; [lia|]. apply operator_no_digit. left. apply addop_arith.
    - intros vals' ops' E'.
      apply runs_to_trans with (mid := show_term t ++ rest); [rewrite length_app; lia| |].
      + apply runs_to_step; [cbn; lia|]. apply getNext_operator. left. apply addop_arith.
      + intros vals'' ops'' E''. apply IHt; auto; [lia|].
        unfold handle_element in E''.
        replace (strchr [ch_mul; ch_div] (addop_char op)) with false in E'' by (by destruct op).
        replace (strchr [ch_add; ch_sub] (addop_char op)) with true in E'' by (by destruct op).
        inv_ok. destruct a as [v1 o1]. cbn in E''. injection E'' as <- <-. by destruct op. }
  pose proof (collapse_expr e vals) as Hce.
  destruct (pending_expr e) as [[vs os]|f] eqn:Ep; [|destruct (eval_expr e); congruence].
  destruct (pending_expr_ops e vs os Ep) as (Ha & _ & Hos).
  assert (Eh : @handle_element LS depth (addop_char op) Operator (vs ++ vals) (os ++ ops) =
    let* vals := collapse os (vs ++ vals) in Ok (vals, addop_char op :: ops)).
  { unfold handle_element. replace (strchr [ch_mul; ch_div] (addop_char op)) with false by (by destruct op).
    replace (strchr [ch_add; ch_sub] (addop_char op)) with true by (by destruct op).
    rewrite top_operator_list; [by destruct (collapse _ _)|by apply Hos|done| |].
    - eapply Forall_impl; [exact Ha|]. by intros o [-> | [-> | [-> | ->]]].
    - destruct ops as [|o ops]; [done|]. cbn in Hops. by subst o. }
  rewrite Eh, Hce. destruct (eval_expr e) as [x|]; [|done].
  destruct (pending_term t) as [[vs' os']|]; [|done]. by rewrite <- !app_assoc.
Qed.

Lemma grammar_runs : (forall e, expr_runs e) /\ (forall t, term_runs t) /\ (forall f, factor_runs f).
Proof.
  apply grammar_ind.
  - intros t IH Hd Hr Hl rest vals ops Hrest Hops. apply IH; auto.
    destruct ops as [|o ops]; [done|]. cbn in *. by subst o.
  - intros e IHe op t IHt. by apply sum_runs.
  - intros f IH Hd Hr Hl rest vals ops Hrest _. cbn [show_term pending_term].
    eapply runs_to_eq; [by apply IH|]. by destruct (eval_factor f).
  - intros t IHt op f IHf. by apply product_runs.
  - apply number_runs.
  - intros e IH. by apply paren_runs.
Qed.
End Simulation.

Lemma CalculateExpression_correct (e : expr) :
  digits_expr e -> regular_expr e = true ->
  @CalculateExpression LS (show_expr e) = eval_expr e.
Proof.
  intros Hd Hr. unfold CalculateExpression. change (@MakeStack Z LS) with (@nil Z).
  destruct (proj1 (grammar_runs (S (length (show_expr e)))) e Hd Hr ltac:(lia) [] [] [] I I
    (S (length (show_expr e)))) as (fuel' & Hf & E); [rewrite app_nil_r; lia|].
  rewrite app_nil_r in E. rewrite E. pose proof (collapse_expr e []) as Hce.
  destruct (pending_expr e) as [[vs os]|f] eqn:Ep; [|destruct (eval_expr e); congruence].
  destruct (pending_expr_ops e vs os Ep) as (Ha & Hos & _).
  destruct fuel' as [|fuel']; [cbn in Hf; lia|]. cbn [calculate getNext].
  unfold finish. rewrite !app_nil_r in *. rewrite apply_rest_list by (auto; lia).
  rewrite Hce. by destruct (eval_expr e).
Qed.

(** C36.  On the text, of at most 1000 characters, of every arithmetic expression (digits, the four operators,
    parentheses) in which no product of two or more factors stands between two
    additive operators of one sum, the program computes the value of the
    expression by the usual rules of precedence and association: same number,
    and [division by zero] exactly when the evaluation from left to right first
    fails by dividing by zero.  (Overflow of [int] is undefined in both.) *)
Theorem calculator_evaluates (e : expr) :
  digits_expr e -> regular_expr e = true -> (length (show_expr e) <= 1000)%nat ->
  main (Line (show_expr e)) = eval_expr e.
Proof.
  intros Hd Hr Hl. cbn [main]. rewrite take_ge, CalculateExpression_same by done. by apply CalculateExpression_correct.
Qed.

(** 1*(2+3)/4 *)
Definition sample : expr :=
  ETerm (TMul (TMul (TFactor (FNum 1 [])) Mul
    (FParen (EAdd (ETerm (TFactor (FNum 2 []))) Add (TFactor (FNum 3 []))))) Div (FNum 4 [])).

Lemma calculator_evaluates_witness : main (Line (show_expr sample)) = eval_expr sample.
Proof.
  apply (calculator_evaluates sample); [|reflexivity|cbn; lia].
  cbn. repeat split; repeat constructor; lia.
Defined.

(** 1-2*3-4 *)
Definition irregular : expr :=
  EAdd (EAdd (ETerm (TFactor (FNum 1 []))) Sub (TMul (TFactor (FNum 2 [])) Mul (FNum 3 [])))
    Sub (TFactor (FNum 4 [])).

(** The restriction is needed: for 1-2*3-4, whose value is -9, the program
    prints -1, because reading the second minus applies the product only and
    leaves the first minus to be applied last.  And a text that is no expression
    is not always refused: for 2(3) it prints 3. *)
Theorem calculator_misreads :
  eval_expr irregular = Ok (-9) /\ main (Line (show_expr irregular)) = Ok (-1) /\
  main (Line [50; 40; 51; 41]) = Ok 3.
Proof. repeat split. Qed.
