(* ===== verification/AVLTree.v ===== *)
(** * C-Homework/HashMap/src/avl_tree.c

    The AVL tree that holds a bucket of the hash map.  The nodes reachable from
    [head] form a tree in which each node has one owner, so a tree is a value;
    the comparator is the function the tree was created with. *)
From S2P Require Import Prelude.

Section AVL.
Context {A : Type}.

(** [AVLNode_t], with [Null] for the null pointer. *)
Inductive AVLNode :=
| Null
| Node (depth : Z) (data : A) (leftChild rightChild : AVLNode).

Definition getDepth (node : AVLNode) : Z :=
  match node with Null => 0 | Node d _ _ _ => d end.

Definition max2 (a b : Z) : Z := if a >? b then a else b.

(** [depth] is an [int8_t]. *)
Definition updateDepth (node : AVLNode) : res AVLNode :=
  match node with
  | Null => Err Undefined
  | Node _ x l r => Ok (Node (to_s8 (1 + max2 (getDepth l) (getDepth r))) x l r)
  end.

Definition getBalanceFactor (node : AVLNode) : Z :=
  match node with
  | Null => 0
  | Node _ _ l r => getDepth r - getDepth l
  end.

Definition rotateLeft (nodeA : AVLNode) : res AVLNode :=
  match nodeA with
  | Node da xa la (Node db xb lb rb) =>
      let* nodeA := updateDepth (Node da xa la lb) in
      updateDepth (Node db xb nodeA rb)
  | _ => Err Undefined
  end.

Definition rotateRight (nodeA : AVLNode) : res AVLNode :=
  match nodeA with
  | Node da xa (Node db xb lb rb) ra =>
      let* nodeA := updateDepth (Node da xa rb ra) in
      updateDepth (Node db xb lb nodeA)
  | _ => Err Undefined
  end.

Definition rotateLeftRight (nodeA : AVLNode) : res AVLNode :=
  match nodeA with
  | Node d x l r => let* l := rotateLeft l in rotateRight (Node d x l r)
  | Null => Err Undefined
  end.

Definition rotateRightLeft (nodeA : AVLNode) : res AVLNode :=
  match nodeA with
  | Node d x l r => let* r := rotateRight r in rotateLeft (Node d x l r)
  | Null => Err Undefined
  end.

(** [rebalance] reads the children of a node out of balance: it is not null then. *)
Definition rebalance (node : AVLNode) : res AVLNode :=
  let balanceFactor := getBalanceFactor node in
  match node with
  | Null => Ok Null
  | Node _ _ l r =>
      if balanceFactor <? -1 then
        if getBalanceFactor l <? 0 then rotateRight node else rotateLeftRight node
      else if balanceFactor >? 1 then
        if getBalanceFactor r >? 0 then rotateLeft node else rotateRightLeft node
      else Ok node
  end.

Definition createNode (value : A) (mem : list bool) : AVLNode * list bool :=
  let '(ok, mem) := malloc mem in
  ((if ok then Node 1 value Null Null else Null), mem).

(** The leftmost data, and the tree with other data there. *)
Fixpoint findMinimalNode (node : AVLNode) : res A :=
  match node with
  | Null => Err Undefined
  | Node _ x Null _ => Ok x
  | Node _ _ l _ => findMinimalNode l
  end.

Fixpoint setMinimalNode (y : A) (node : AVLNode) : AVLNode :=
  match node with
  | Null => Null
  | Node d _ Null r => Node d y Null r
  | Node d x l r => Node d x (setMinimalNode y l) r
  end.

Variable cmp : A -> A -> Z.

(** The new subtree, [*inserted] and the allocator. *)
Fixpoint insertImpl (curNode : AVLNode) (data : A) (mem : list bool)
  : res (AVLNode * bool * list bool) :=
  match curNode with
  | Null => let '(node, mem) := createNode data mem in Ok (node, true, mem)
  | Node d x l r =>
      let cmpResult := cmp data x in
      if cmpResult <? 0 then
        let* '(l, inserted, mem) := insertImpl l data mem in
        let* curNode := updateDepth (Node d x l r) in
        let* curNode := rebalance curNode in
        Ok (curNode, inserted, mem)
      else if cmpResult >? 0 then
        let* '(r, inserted, mem) := insertImpl r data mem in
        let* curNode := updateDepth (Node d x l r) in
        let* curNode := rebalance curNode in
        Ok (curNode, inserted, mem)
      else Ok (Node d data l r, false, mem)
  end.

Definition fix_up (curNode : AVLNode) (removedData : option A) : res (AVLNode * option A) :=
  match curNode with
  | Null => Ok (Null, removedData)
  | _ =>
      let* curNode := updateDepth curNode in
      let* curNode := rebalance curNode in
      Ok (curNode, removedData)
  end.

(** Every call goes down one level. *)
Fixpoint removeImpl (fuel : nat) (curNode : AVLNode) (data : A) : res (AVLNode * option A) :=
  match fuel with
  | O => Err OutOfFuel
  | S fuel =>
      match curNode with
      | Null => Ok (Null, None)
      | Node d x l r =>
          let cmpResult := cmp data x in
          if cmpResult <? 0 then
            let* '(l, removedData) := removeImpl fuel l data in
            fix_up (Node d x l r) removedData
          else if cmpResult >? 0 then
            let* '(r, removedData) := removeImpl fuel r data in
            fix_up (Node d x l r) removedData
          else
            match l, r with
            | Null, _ => fix_up r (Some x)
            | _, Null => fix_up l (Some x)
            | _, _ =>
                let* successor := findMinimalNode r in
                let* '(r, removedData) := removeImpl fuel (setMinimalNode x r) x in
                fix_up (Node d successor l r) removedData
            end
      end
  end.

Fixpoint levels (t : AVLNode) : nat :=
  match t with Null => 0 | Node _ _ l r => S (max (levels l) (levels r)) end.

(** [AVLTree_t] without its function pointers. *)
Record AVLTree := mkTree { head : AVLNode; size : Z }.

Definition avl_createTree (mem : list bool) : option AVLTree * list bool :=
  let '(ok, mem) := malloc mem in
  ((if ok then Some (mkTree Null 0) else None), mem).

Definition avl_insert (tree : AVLTree) (data : A) (mem : list bool)
  : res (AVLTree * bool * list bool) :=
  let* '(h, inserted, mem) := insertImpl (head tree) data mem in
  Ok (mkTree h (if inserted then u64 (size tree + 1) else size tree), inserted, mem).

Definition avl_remove (tree : AVLTree) (data : A) : res (AVLTree * option A) :=
  let* '(h, removedData) := removeImpl (S (levels (head tree))) (head tree) data in
  Ok (mkTree h (match removedData with Some _ => u64 (size tree - 1) | None => size tree end),
      removedData).

Fixpoint find_node (curNode : AVLNode) (data : A) : option A :=
  match curNode with
  | Null => None
  | Node _ x l r =>
      let cmpResult := cmp data x in
      if cmpResult <? 0 then find_node l data
      else if cmpResult >? 0 then find_node r data
      else Some x
  end.

Definition avl_find (tree : AVLTree) (data : A) : option A := find_node (head tree) data.

Definition avl_getSize (tree : AVLTree) : Z := size tree.

Fixpoint foreachImpl {S} (curNode : AVLNode) (func : A -> S -> res S) (context : S) : res S :=
  match curNode with
  | Null => Ok context
  | Node _ x l r =>
      let* context := foreachImpl l func context in
      let* context := func x context in
      foreachImpl r func context
  end.

Definition avl_foreach {S} (tree : AVLTree) (func : A -> S -> res S) (context : S) : res S :=
  foreachImpl (head tree) func context.

End AVL.
Arguments AVLNode : clear implicits.
Arguments AVLTree : clear implicits.

(** ** Shape: heights, exact depth fields, balance *)

Section Shape.
Context {A : Type}.
Implicit Types (t l r : AVLNode A) (x : A).

Fixpoint height t : Z :=
  match t with Null => 0 | Node _ _ l r => 1 + Z.max (height l) (height r) end.

(** Every [depth] field holds the height. *)
Fixpoint exact t : Prop :=
  match t with
  | Null => True
  | Node d _ l r => d = 1 + Z.max (height l) (height r) /\ exact l /\ exact r
  end.

(** The AVL condition. *)
Fixpoint balanced t : Prop :=
  match t with
  | Null => True
  | Node _ _ l r => -1 <= height r - height l <= 1 /\ balanced l /\ balanced r
  end.

Fixpoint inorder t : list A :=
  match t with Null => [] | Node _ x l r => inorder l ++ x :: inorder r end.

(** A node with the right depth. *)
Definition nd l x r : AVLNode A := Node (1 + Z.max (height l) (height r)) x l r.

Definition lean t : Z := match t with Null => 0 | Node _ _ l r => height r - height l end.

Lemma height_nonneg t : 0 <= height t.
Proof. induction t; cbn; lia. Qed.

Lemma height_levels t : height t = Z.of_nat (levels t).
Proof. induction t as [|d x l IHl r IHr]; cbn [height levels]; lia. Qed.

Lemma height_length t : height t <= zlen (inorder t).
Proof.
  induction t as [|d x l IHl r IHr]; cbn [height inorder]; [done|].
  rewrite zlen_app, zlen_cons. pose proof (zlen_nonneg (inorder l)).
  pose proof (zlen_nonneg (inorder r)). lia.
Qed.

Lemma getDepth_exact t : exact t -> getDepth t = height t.
Proof. destruct t; [done|]. by intros [-> _]. Qed.

Lemma getBalanceFactor_exact t : exact t -> getBalanceFactor t = lean t.
Proof. destruct t; [done|]. intros (_ & ? & ?). cbn. by rewrite !getDepth_exact. Qed.

Lemma max2_max (a b : Z) : max2 a b = Z.max a b.
Proof. unfold max2. zcase; lia. Qed.

Lemma updateDepth_nd (d : Z) x l r :
  exact l -> exact r -> height l < 127 -> height r < 127 ->
  updateDepth (Node d x l r) = Ok (nd l x r).
Proof.
  intros Hl Hr ??. cbn. rewrite !getDepth_exact, max2_max by done.
  pose proof (height_nonneg l). unfold to_s8. rewrite to_signed_small by (cbn; lia). done.
Qed.

Lemma exact_nd l x r : exact (nd l x r) <-> exact l /\ exact r.
Proof. unfold nd. cbn. tauto. Qed.

Lemma exact_node d x l r : exact (Node d x l r) -> Node d x l r = nd l x r /\ exact l /\ exact r.
Proof. intros (-> & ? & ?). done. Qed.

Lemma rotateRight_nd d d' x y l m r :
  exact l -> exact m -> exact r -> height l < 127 -> height m < 126 -> height r < 126 ->
  rotateRight (Node d x (Node d' y l m) r) = Ok (nd l y (nd m x r)).
Proof.
  intros. cbn [rotateRight]. rewrite updateDepth_nd by (auto; lia).
  apply updateDepth_nd; [done|by apply exact_nd|done|cbn; lia].
Qed.

Lemma rotateLeft_nd d d' x y l m r :
  exact l -> exact m -> exact r -> height l < 126 -> height m < 126 -> height r < 127 ->
  rotateLeft (Node d x l (Node d' y m r)) = Ok (nd (nd l x m) y r).
Proof.
  intros. cbn [rotateLeft]. rewrite updateDepth_nd by (auto; lia).
  apply updateDepth_nd; [by apply exact_nd|done|cbn; lia|done].
Qed.

Lemma rotateLeftRight_nd d d1 d2 x y z a b c r :
  exact a -> exact b -> exact c -> exact r ->
  height a < 126 -> height b < 126 -> height c < 126 -> height r < 126 ->
  rotateLeftRight (Node d x (Node d1 y a (Node d2 z b c)) r) = Ok (nd (nd a y b) z (nd c x r)).
Proof.
  intros. cbn [rotateLeftRight]. rewrite rotateLeft_nd by (auto; lia).
  apply rotateRight_nd; auto; [by apply exact_nd|cbn; lia].
Qed.

Lemma rotateRightLeft_nd d d1 d2 x y z l a b c :
  exact l -> exact a -> exact b -> exact c ->
  height l < 126 -> height a < 126 -> height b < 126 -> height c < 126 ->
  rotateRightLeft (Node d x l (Node d1 y (Node d2 z a b) c)) = Ok (nd (nd l x a) z (nd b y c)).
Proof.
  intros. cbn [rotateRightLeft]. rewrite rotateRight_nd by (auto; lia).
  apply rotateLeft_nd; auto; [by apply exact_nd|cbn; lia].
Qed.

(** What [rebalance] does to a node, whatever its balance: it stays in the
    tree's order and gets no higher; and if one of two AVL subtrees is higher by
    at most 2, and leans to its outer or inner side when it is, the result is an
    AVL tree, one level lower after a rotation. *)
Record rebalanced l x r t : Prop := {
  reb_exact : exact t;
  reb_inorder : inorder t = inorder l ++ x :: inorder r;
  reb_height : height t <= height (nd l x r);
  reb_balanced :
    balanced l -> balanced r -> -2 <= height r - height l <= 2 ->
    (height r - height l = -2 -> lean l <> 0) -> (height r - height l = 2 -> lean r <> 0) ->
    balanced t /\
    (if (height r - height l =? -2) || (height r - height l =? 2)
     then height t = Z.max (height l) (height r) else t = nd l x r)
}.

Ltac rebalanced_tac :=
  split;
  [ rewrite ?exact_nd; tauto
  | cbn [inorder nd]; by repeat (rewrite <- app_assoc; cbn [app])
  | cbn [height nd] in *; lia
  | intros; cbn [balanced height nd lean] in *; zcase; try lia; split; [intuition lia|lia] ].

Lemma rebalance_spec l x r :
  exact l -> exact r -> height (nd l x r) <= 127 ->
  exists t, rebalance (nd l x r) = Ok t /\ rebalanced l x r t.
Proof.
  intros Hl Hr Hh. unfold rebalance. rewrite getBalanceFactor_exact by by apply exact_nd.
  pose proof (height_nonneg r). pose proof (height_nonneg l). unfold nd.
  cbn [lean]. cbn [height nd] in Hh. rewrite !getBalanceFactor_exact by done.
  destruct (Z.ltb_spec (height r - height l) (-1)) as [Hb|Hb].
  - destruct l as [|dl xl ll lr]; cbn [height] in *; [lia|]. destruct Hl as (-> & Hll & Hlr).
    pose proof (height_nonneg ll). pose proof (height_nonneg lr). cbn [lean].
    destruct (Z.ltb_spec (height lr - height ll) 0).
    + eexists. rewrite rotateRight_nd by (auto; lia). split; [done|rebalanced_tac].
    + destruct lr as [|d2 z b c]; cbn [height] in *; [lia|]. destruct Hlr as (-> & Hb2 & Hc).
      eexists. rewrite rotateLeftRight_nd by (auto; lia).
      split; [done|rebalanced_tac].
  - rewrite Z.gtb_ltb. destruct (Z.ltb_spec 1 (height r - height l)).
    + destruct r as [|dr xr rl rr]; cbn [height] in *; [lia|]. destruct Hr as (-> & Hrl & Hrr).
      pose proof (height_nonneg rl). pose proof (height_nonneg rr). cbn [lean].
      rewrite Z.gtb_ltb. destruct (Z.ltb_spec 0 (height rr - height rl)).
      * eexists. rewrite rotateLeft_nd by (auto; lia). split; [done|rebalanced_tac].
      * destruct rl as [|d2 z b c]; cbn [height] in *; [lia|]. destruct Hrl as (-> & Hb2 & Hc).
        eexists. rewrite rotateRightLeft_nd by (auto; lia).
        split; [done|rebalanced_tac].
    + eexists. split; [done|]. split; [by apply exact_nd|done|cbn [height nd]; lia|].
      intros. cbn [balanced nd]. zcase; try lia. repeat split; auto; lia.
Qed.
End Shape.

(** ** Order

    What the tree needs of its comparator: on the data that satisfy [P] it is a
    total preorder, with the sign of the result telling the order. *)
Class Comparator {A : Type} (P : A -> Prop) (cmp : A -> A -> Z) : Prop := {
  cmp_swap x y : P x -> P y -> cmp x y < 0 <-> 0 < cmp y x;
  cmp_trans x y z : P x -> P y -> P z -> cmp x y < 0 -> cmp y z < 0 -> cmp x z < 0;
  cmp_same x y z : P x -> P y -> P z -> cmp x y = 0 -> cmp y z < 0 -> cmp x z < 0
}.

Section Order.
Context {A : Type} {P : A -> Prop} {cmp : A -> A -> Z} `{!Comparator P cmp}.
Implicit Types (x y z : A) (l r : list A) (o : option A).

(** The data are in strictly ascending order: a search tree. *)
Definition ordered (l : list A) : Prop := StronglySorted (fun x y => cmp x y < 0) l.

(** [l1], [o], [l2]: the elements of [l] before, equivalent to and after [x]. *)
Record split_by x (l l1 : list A) (o : option A) (l2 : list A) : Prop := {
  split_app : l = l1 ++ option_list o ++ l2;
  split_before : Forall (fun y => 0 < cmp x y) l1;
  split_same : match o with Some y => cmp x y = 0 | None => True end;
  split_after : Forall (fun y => cmp x y < 0) l2
}.

Lemma cmp_gt x y : P x -> P y -> 0 < cmp x y <-> cmp y x < 0.
Proof. intros. by rewrite cmp_swap. Qed.

Lemma cmp_zero x y : P x -> P y -> cmp x y = 0 -> cmp y x = 0.
Proof. intros Hx Hy ?. pose proof (cmp_swap x y Hx Hy). pose proof (cmp_swap y x Hy Hx). lia. Qed.

Lemma cmp_refl x : P x -> cmp x x = 0.
Proof. intros Hx. pose proof (cmp_swap x x Hx Hx). lia. Qed.

Lemma cmp_same_gt x y z : P x -> P y -> P z -> cmp x y = 0 -> 0 < cmp y z -> 0 < cmp x z.
Proof.
  intros Hx Hy Hz E Hg. rewrite cmp_gt in Hg |- * by done.
  destruct (Z.lt_trichotomy (cmp z x) 0) as [?|[E'|Hlt]]; [done| |].
  - apply cmp_zero in E'; [|done..]. pose proof (cmp_same x z y Hx Hz Hy E' Hg). lia.
  - rewrite cmp_gt in Hlt by done. pose proof (cmp_trans x z y Hx Hz Hy Hlt Hg). lia.
Qed.

Lemma ordered_app l1 l2 :
  ordered (l1 ++ l2) <->
  ordered l1 /\ ordered l2 /\ Forall (fun x => Forall (fun y => cmp x y < 0) l2) l1.
Proof.
  unfold ordered. induction l1 as [|x l1 IH]; cbn.
  - split; [|tauto]. intros. split_and!; auto. constructor.
  - rewrite Forall_cons. split.
    + intros Hs. inversion_clear Hs as [|? ? Hs' Hf]. apply Forall_app in Hf as [??].
      apply IH in Hs' as (?&?&?). split_and!; auto. by constructor.
    + intros (Hs & ? & ? & ?). inversion_clear Hs. constructor; [by apply IH|].
      by apply Forall_app.
Qed.

Lemma ordered_cons x l : ordered (x :: l) <-> ordered l /\ Forall (fun y => cmp x y < 0) l.
Proof. unfold ordered. split; [by inversion_clear 1|]. intros [??]. by constructor. Qed.

Lemma Forall_swap x l :
  P x -> Forall P l -> Forall (fun y => 0 < cmp x y) l <-> Forall (fun y => cmp y x < 0) l.
Proof.
  intros Hx HP. rewrite !Forall_forall in *. split; intros H y Hy; specialize (H y Hy);
    (apply cmp_gt in H || apply cmp_gt); auto.
Qed.

(** Going down the left or the right subtree extends the split. *)
Lemma split_left x y l r l1 o l2 :
  P x -> P y -> Forall P r -> ordered (l ++ y :: r) -> cmp x y < 0 ->
  split_by x l l1 o l2 -> split_by x (l ++ y :: r) l1 o (l2 ++ y :: r).
Proof.
  intros Hx Hy Hr Ho Hlt [E H1 H2 H3]. split; [|done|done|].
  - rewrite E. by rewrite <- !app_assoc.
  - apply Forall_app; split; [done|]. constructor; [done|].
    apply ordered_app in Ho as (_ & Ho & _). apply ordered_cons in Ho as [_ Ho].
    rewrite Forall_forall in Ho, Hr |- *. intros z Hz. apply (cmp_trans x y z); auto.
Qed.

Lemma split_right x y l r l1 o l2 :
  P x -> P y -> Forall P l -> ordered (l ++ y :: r) -> 0 < cmp x y ->
  split_by x r l1 o l2 -> split_by x (l ++ y :: r) (l ++ y :: l1) o l2.
Proof.
  intros Hx Hy Hl Ho Hgt [E H1 H2 H3]. split; [|  |done|done].
  - rewrite E. by rewrite <- !app_assoc.
  - apply Forall_app; split; [|by constructor]. apply Forall_swap; [done..|].
    apply ordered_app in Ho as (_ & _ & Ho). rewrite cmp_gt in Hgt by done.
    rewrite Forall_forall in Ho, Hl |- *. intros z Hz. specialize (Ho z Hz).
    apply Forall_cons in Ho as [Ho _]. apply (cmp_trans z y x); auto.
Qed.

Lemma split_here x y l r :
  P x -> P y -> Forall P l -> Forall P r -> ordered (l ++ y :: r) -> cmp x y = 0 ->
  split_by x (l ++ y :: r) l (Some y) r.
Proof.
  intros Hx Hy Hl Hr Ho E. apply ordered_app in Ho as (_ & Ho & Hf).
  apply ordered_cons in Ho as [_ Ho]. split; [done| |done|].
  - rewrite Forall_forall in Hf, Hl |- *. intros z Hz. specialize (Hf z Hz).
    apply Forall_cons in Hf as [Hf _]. apply (cmp_same_gt x y z); auto. by rewrite cmp_gt by auto.
  - rewrite Forall_forall in Ho, Hr |- *. intros z Hz. apply (cmp_same x y z); auto.
Qed.

(** Replacing the middle of a split keeps the order. *)
Lemma ordered_split_insert x l l1 o l2 :
  P x -> Forall P l -> ordered l -> split_by x l l1 o l2 -> ordered (l1 ++ x :: l2).
Proof.
  intros Hx HP Ho [-> H1 H2 H3]. apply Forall_app in HP as [HP1 [_ HP2]%Forall_app].
  apply ordered_app in Ho as (Ho1 & Ho2 & Hf). apply ordered_app in Ho2 as (_ & Ho2 & _).
  apply ordered_app. split_and!; [done|by apply ordered_cons|].
  apply Forall_swap in H1; [|done..].
  rewrite Forall_forall in H1, Hf |- *. intros z Hz. constructor; [auto|].
  by destruct (proj1 (Forall_app _ _ _) (Hf z Hz)).
Qed.

Lemma ordered_split_remove x l l1 o l2 : ordered l -> split_by x l l1 o l2 -> ordered (l1 ++ l2).
Proof.
  intros Ho [-> H1 H2 H3]. apply ordered_app in Ho as (Ho1 & Ho2 & Hf).
  apply ordered_app in Ho2 as (_ & Ho2 & _). apply ordered_app. split_and!; [done..|].
  eapply Forall_impl; [exact Hf|]. cbn. by intros z [_ ?]%Forall_app.
Qed.
End Order.

(** ** The operations *)

Section Operations.
Context {A : Type} {P : A -> Prop} {cmp : A -> A -> Z} `{!Comparator P cmp}.
Implicit Types (t : AVLNode A) (x y : A).

(** A search tree with exact depth fields. *)
Record search_tree t : Prop := {
  st_exact : exact t;
  st_ordered : ordered (cmp := cmp) (inorder t);
  st_forall : Forall P (inorder t)
}.

Lemma search_tree_node d x l r :
  search_tree (Node d x l r) ->
  search_tree l /\ search_tree r /\ P x /\ d = 1 + Z.max (height l) (height r).
Proof.
  intros [(Hd & Hel & Her) Ho HP]. cbn in Ho, HP.
  apply ordered_app in Ho as (Hol & Hor & _). apply ordered_cons in Hor as [Hor _].
  apply Forall_app in HP as [HPl [HPx HPr]%Forall_cons]. split_and!; auto; by split.
Qed.

Lemma settle_spec d x l r :
  exact l -> exact r -> Z.max (height l) (height r) < 127 ->
  exists t, (let* n := updateDepth (Node d x l r) in rebalance n) = Ok t /\ rebalanced l x r t.
Proof.
  intros Hl Hr Hh. rewrite updateDepth_nd by (auto; lia). apply rebalance_spec; auto. cbn. lia.
Qed.

(** An insertion that makes a subtree higher leaves it leaning to a side. *)
Definition grown t t' : Prop :=
  balanced t -> balanced t' /\
  (height t' = height t \/ height t' = height t + 1 /\ (t = Null \/ lean t' <> 0)).

Definition is_new (o : option A) : bool := match o with Some _ => false | None => true end.

Lemma grown_left d x l l' r t :
  d = 1 + Z.max (height l) (height r) ->
  grown l l' -> rebalanced l' x r t -> grown (Node d x l r) t.
Proof.
  intros Hd Hg [_ _ _ Hb] (Hbf & Hbl & Hbr). destruct (Hg Hbl) as [Hbl' Hh].
  pose proof (height_nonneg r). destruct Hb as [Hbt Ht]; [done|done|lia| | |].
  - intros. destruct Hh as [?|[? [-> | ?]]]; [lia|cbn in *; lia|done].
  - intros. lia.
  - split; [done|]. cbn [height]. revert Ht. zcase; intros Ht; [lia|lia|].
    subst t. cbn [height nd lean]. destruct (Z.eq_dec (height r) (height l')); [left|]; lia.
Qed.

Lemma grown_right d x l r r' t :
  d = 1 + Z.max (height l) (height r) ->
  grown r r' -> rebalanced l x r' t -> grown (Node d x l r) t.
Proof.
  intros Hd Hg [_ _ _ Hb] (Hbf & Hbl & Hbr). destruct (Hg Hbr) as [Hbr' Hh].
  pose proof (height_nonneg l). destruct Hb as [Hbt Ht]; [done|done|lia| | |].
  - intros. lia.
  - intros. destruct Hh as [?|[? [-> | ?]]]; [lia|cbn in *; lia|done].
  - split; [done|]. cbn [height]. revert Ht. zcase; intros Ht; [lia|lia|].
    subst t. cbn [height nd lean]. destruct (Z.eq_dec (height r') (height l)); [left|]; lia.
Qed.

Record inserted_into t x t' (isnew : bool) : Prop := {
  ins_split : exists l1 o l2,
    split_by (cmp := cmp) x (inorder t) l1 o l2 /\ inorder t' = l1 ++ x :: l2 /\ isnew = is_new o;
  ins_exact : exact t';
  ins_height : height t' <= height t + 1;
  ins_grown : grown t t'
}.

Lemma insertImpl_spec x :
  P x -> forall t, search_tree t -> height t < 127 ->
  exists t' isnew, insertImpl cmp t x [] = Ok (t', isnew, []) /\ inserted_into t x t' isnew.
Proof.
  intros Hx. induction t as [|d y l IHl r IHr]; intros Ht Hh.
  { do 2 eexists. split; [done|]. split; [|cbn; auto; lia..| ].
    - exists [], None, []. split_and!; [by split|done|done].
    - intros _. cbn. split; [lia|]. right. split; [lia|auto]. }
  pose proof (st_ordered _ Ht) as Ho. pose proof (st_forall _ Ht) as HP. cbn in Ho, HP.
  apply Forall_app in HP as [HPl [_ HPr]%Forall_cons].
  apply search_tree_node in Ht as (Hl & Hr & Hy & Hd). cbn [height] in Hh. cbn [insertImpl].
  destruct (Z.ltb_spec (cmp x y) 0) as [Hlt|Hge].
  - destruct IHl as (l' & isnew & -> & [(l1 & o & l2 & Hs & El & Ei) Hel Hhl Hg]); [done|lia|].
    destruct (settle_spec d y l' r) as (t & E & Hreb); [done|apply Hr|lia|].
    exists t, isnew. revert E. destruct (updateDepth _) as [n|]; [|done]. intros ->.
    split; [done|]. split; [|apply Hreb| |by eapply grown_left].
    + exists l1, o, (l2 ++ y :: inorder r). split_and!; [by apply split_left| |done].
      rewrite (reb_inorder _ _ _ _ Hreb), El. by rewrite <- app_assoc.
    + pose proof (reb_height _ _ _ _ Hreb) as Hr2. cbn [height nd] in *. lia.
  - rewrite Z.gtb_ltb. destruct (Z.ltb_spec 0 (cmp x y)) as [Hgt|Hle].
    + destruct IHr as (r' & isnew & -> & [(l1 & o & l2 & Hs & Er & Ei) Her Hhr Hg]); [done|lia|].
      destruct (settle_spec d y l r') as (t & E & Hreb); [apply Hl|done|lia|].
      exists t, isnew. revert E. destruct (updateDepth _) as [n|]; [|done]. intros ->.
      split; [done|]. split; [|apply Hreb| |by eapply grown_right].
      * exists (inorder l ++ y :: l1), o, l2. split_and!; [by apply split_right| |done].
        rewrite (reb_inorder _ _ _ _ Hreb), Er. by rewrite <- app_assoc.
      * pose proof (reb_height _ _ _ _ Hreb) as Hr2. cbn [height nd] in *. lia.
    + do 2 eexists. split; [done|]. split; [| |cbn; lia|].
      * exists (inorder l), (Some y), (inorder r). split_and!; [|done|done].
        apply split_here; auto. lia.
      * split_and!; [done|apply Hl|apply Hr].
      * intros Hb. split; [exact Hb|by left].
Qed.

Lemma split_unique x l l1 o l2 l1' o' l2' :
  split_by (cmp := cmp) x l l1 o l2 -> split_by (cmp := cmp) x l l1' o' l2' ->
  l1 = l1' /\ o = o' /\ l2 = l2'.
Proof.
  intros [-> H1 H2 H3] [E H1' H2' H3']. revert l1' E H1'.
  induction H1 as [|y l1 Hy H1 IH]; intros [|y' l1'] E H1'.
  - destruct o as [y|], o' as [y'|]; cbn in E; simplify_eq; auto;
      rewrite ?Forall_cons in *; lia.
  - destruct o as [y|]; cbn in E; simplify_eq; rewrite ?Forall_cons in *; lia.
  - destruct o' as [y'|]; cbn in E; simplify_eq; rewrite ?Forall_cons in *; lia.
  - cbn in E. injection E as -> E. apply Forall_cons in H1' as [_ H1'].
    by destruct (IH l1' E H1') as (-> & -> & ->).
Qed.

Lemma find_node_spec x :
  P x -> forall t, search_tree t ->
  exists l1 l2, split_by (cmp := cmp) x (inorder t) l1 (find_node cmp t x) l2.
Proof.
  intros Hx. induction t as [|d y l IHl r IHr]; intros Ht.
  { exists [], []. by split. }
  pose proof (st_ordered _ Ht) as Ho. pose proof (st_forall _ Ht) as HP. cbn in Ho, HP.
  apply Forall_app in HP as [HPl [_ HPr]%Forall_cons].
  apply search_tree_node in Ht as (Hl & Hr & Hy & _). cbn [find_node inorder].
  destruct (Z.ltb_spec (cmp x y) 0); [|rewrite Z.gtb_ltb; destruct (Z.ltb_spec 0 (cmp x y))].
  - destruct (IHl Hl) as (l1 & l2 & Hs). do 2 eexists. by eapply split_left.
  - destruct (IHr Hr) as (l1 & l2 & Hs). do 2 eexists. by eapply split_right.
  - do 2 eexists. apply split_here; auto. lia.
Qed.

(** Removal *)

Lemma min_spec t :
  t <> Null -> exists y rest,
    findMinimalNode t = Ok y /\ inorder t = y :: rest /\
    forall x, inorder (setMinimalNode x t) = x :: rest /\ levels (setMinimalNode x t) = levels t /\
      height (setMinimalNode x t) = height t /\ (exact t -> exact (setMinimalNode x t)).
Proof.
  induction t as [|d x l IHl r _]; [done|]. intros _. destruct l as [|dl xl ll lr].
  - cbn. exists x, (inorder r). split_and!; auto.
  - destruct IHl as (y & rest & E1 & E2 & E3); [done|].
    exists y, (rest ++ x :: inorder r). split; [exact E1|]. split.
    + cbn [inorder] in *. by rewrite E2.
    + intros z. destruct (E3 z) as (F1 & F2 & F3 & F4).
      change (setMinimalNode z (Node d x (Node dl xl ll lr) r))
        with (Node d x (setMinimalNode z (Node dl xl ll lr)) r).
      cbn [inorder levels height exact] in *. rewrite F1, F2, F3. split_and!; auto.
      intros (-> & H1 & H2). auto.
Qed.

Record removed_from t x t' (o : option A) : Prop := {
  rem_split : exists l1 l2,
    split_by (cmp := cmp) x (inorder t) l1 o l2 /\ inorder t' = l1 ++ l2;
  rem_exact : exact t';
  rem_height : height t' <= height t
}.

Lemma fix_up_spec d x l r o :
  exact l -> exact r -> Z.max (height l) (height r) < 127 ->
  exists t, fix_up (Node d x l r) o = Ok (t, o) /\ rebalanced l x r t.
Proof.
  intros Hl Hr Hh. destruct (settle_spec d x l r Hl Hr Hh) as (t & E & Hreb).
  exists t. split; [|done]. revert E. unfold fix_up. destruct (updateDepth _) as [n|]; [|done].
  by intros ->.
Qed.

(** The subtree that takes the place of a removed node with one child. *)
Lemma fix_up_child t o :
  exact t -> height t <= 127 ->
  exists t', fix_up t o = Ok (t', o) /\ exact t' /\ inorder t' = inorder t /\ height t' <= height t.
Proof.
  intros He Hh. destruct t as [|d x l r]; [by exists Null|]. cbn [height] in Hh.
  destruct He as (-> & Hl & Hr). destruct (fix_up_spec (1 + Z.max (height l) (height r)) x l r o)
    as (t & E & [H1 H2 H3 _]); [done|done|lia|]. by exists t.
Qed.

Lemma search_tree_replace_min d x l r rest y :
  search_tree (Node d x l r) -> inorder r = y :: rest -> r <> Null ->
  search_tree (setMinimalNode x r).
Proof.
  intros Ht Er Hr. destruct (min_spec r Hr) as (y' & rest' & _ & E & F). rewrite E in Er.
  injection Er as -> ->. pose proof (st_ordered _ Ht) as Ho. pose proof (st_forall _ Ht) as HP.
  cbn in Ho, HP. apply search_tree_node in Ht as (_ & Htr & Hx & _).
  destruct (F x) as (F1 & _ & _ & F4). split; [by apply F4, st_exact|..]; rewrite F1.
  - rewrite E in Ho. apply ordered_app in Ho as (_ & Ho & _).
    apply ordered_cons in Ho as [Ho Hf]. apply ordered_cons in Ho as [Ho _].
    apply Forall_cons in Hf as [_ Hf]. by apply ordered_cons.
  - rewrite E in HP. rewrite Forall_app, !Forall_cons in HP. constructor; tauto.
Qed.

Lemma removeImpl_spec (fuel : nat) :
  forall t x, P x -> search_tree t -> height t <= 127 -> (levels t < fuel)%nat ->
  exists t' o, removeImpl cmp fuel t x = Ok (t', o) /\ removed_from t x t' o.
Proof.
  induction fuel as [|fuel IH]; intros t x Hx Ht Hh Hf; [lia|].
  destruct t as [|d y l r]; cbn [removeImpl].
  { do 2 eexists. split; [done|]. split; [|done..]. exists [], []. by split; [split|]. }
  cbn [levels height] in *. pose proof (height_nonneg l). pose proof (height_nonneg r).
  pose proof (st_ordered _ Ht) as Ho. pose proof (st_forall _ Ht) as HP. cbn in Ho, HP.
  apply Forall_app in HP as [HPl [_ HPr]%Forall_cons].
  destruct (search_tree_node _ _ _ _ Ht) as (Hl & Hr & Hy & Hd).
  destruct (Z.ltb_spec (cmp x y) 0) as [Hlt|Hge].
  - destruct (IH l x) as (l' & o & -> & [(l1 & l2 & Hs & El) Hel Hhl]); [done|done|lia|lia|].
    destruct (fix_up_spec d y l' r o) as (t & -> & Hreb); [done|apply Hr|lia|].
    do 2 eexists. split; [done|]. split; [|apply Hreb|].
    + exists l1, (l2 ++ y :: inorder r). split; [by apply split_left|].
      rewrite (reb_inorder _ _ _ _ Hreb), El. by rewrite <- app_assoc.
    + pose proof (reb_height _ _ _ _ Hreb). cbn [height nd] in *. lia.
  - rewrite Z.gtb_ltb. destruct (Z.ltb_spec 0 (cmp x y)) as [Hgt|Hle].
    + destruct (IH r x) as (r' & o & -> & [(l1 & l2 & Hs & Er) Her Hhr]); [done|done|lia|lia|].
      destruct (fix_up_spec d y l r' o) as (t & -> & Hreb); [apply Hl|done|lia|].
      do 2 eexists. split; [done|]. split; [|apply Hreb|].
      * exists (inorder l ++ y :: l1), l2. split; [by apply split_right|].
        rewrite (reb_inorder _ _ _ _ Hreb), Er. by rewrite <- app_assoc.
      * pose proof (reb_height _ _ _ _ Hreb). cbn [height nd] in *. lia.
    + assert (Hhere : split_by (cmp := cmp) x (inorder l ++ y :: inorder r) (inorder l) (Some y) (inorder r))
        by (apply split_here; auto; lia).
      destruct l as [|dl xl ll lr]; [|destruct r as [|dr xr rl rr]].
      * destruct (fix_up_child r (Some y)) as (t' & -> & H1 & H2 & H3); [apply Hr|lia|].
        do 2 eexists. split; [done|]. split; [|done|cbn; lia]. by exists [], (inorder r).
      * destruct (fix_up_child (Node dl xl ll lr) (Some y)) as (t' & -> & H1 & H2 & H3);
          [apply Hl|lia|]. do 2 eexists. split; [done|]. split; [|done|cbn [height] in *; lia].
        exists (inorder (Node dl xl ll lr)), []. split; [done|]. by rewrite app_nil_r.
      * remember (Node dl xl ll lr) as l. remember (Node dr xr rl rr) as r.
        assert (Hnr : r <> Null) by by subst r.
        destruct (min_spec r Hnr) as (s & rest & -> & Es & F). destruct (F y) as (F1 & F2 & F3 & F4).
        pose proof (search_tree_replace_min _ _ _ _ _ _ Ht Es Hnr) as Htr.
        destruct (IH (setMinimalNode y r) y) as (r' & o & -> & [(l1 & l2 & Hs & Er) Her Hhr]);
          [done|done|lia|lia|]. rewrite F1 in Hs.
        assert (Hs0 : split_by (cmp := cmp) y (y :: rest) [] (Some y) rest).
        { pose proof (st_ordered _ Htr) as Ho'. pose proof (st_forall _ Htr) as HP'. rewrite F1 in Ho', HP'.
          apply Forall_cons in HP' as [_ HP']. apply (split_here y y [] rest); auto.
          by eapply cmp_refl. }
        destruct (split_unique _ _ _ _ _ _ _ _ Hs Hs0) as (-> & -> & ->).
        destruct (fix_up_spec d s l r' (Some y)) as (t & -> & Hreb); [apply Hl|done|lia|].
        do 2 eexists. split; [done|]. split; [|apply Hreb|].
        -- exists (inorder l), (inorder r). split; [done|].
           by rewrite (reb_inorder _ _ _ _ Hreb), Er, Es.
        -- pose proof (reb_height _ _ _ _ Hreb). cbn [height nd] in *. lia.
Qed.

(** An AVL tree of [n] nodes has at most [2 log2 (n + 1)] levels. *)
Lemma balanced_height t : balanced t -> 2 ^ height t <= (zlen (inorder t) + 1) ^ 2.
Proof.
  induction t as [|d x l IHl r IHr]; cbn [balanced height inorder]; [done|].
  intros (Hb & Hl & Hr). specialize (IHl Hl). specialize (IHr Hr). rewrite zlen_app, zlen_cons.
  pose proof (height_nonneg l). pose proof (height_nonneg r).
  assert (Hpow : forall a b, 0 <= b <= a -> a <= b + 1 -> 2 ^ b <= 2 ^ a <= 2 * 2 ^ b).
  { intros a b ??. split; [apply Z.pow_le_mono_r; lia|].
    rewrite <- Z.pow_succ_r by lia. apply Z.pow_le_mono_r; lia. }
  pose proof (zlen_nonneg (inorder l)). pose proof (zlen_nonneg (inorder r)).
  rewrite Z.pow_add_r, Z.pow_1_r, !Z.pow_2_r in * by lia.
  destruct (Z.max_spec (height l) (height r)) as [[? ->]|[? ->]].
  - specialize (Hpow (height r) (height l)). destruct Hpow; [lia..|]. nia.
  - specialize (Hpow (height l) (height r)). destruct Hpow; [lia..|]. nia.
Qed.

Lemma balanced_height_small t : balanced t -> zlen (inorder t) < 2 ^ 62 -> height t < 127.
Proof.
  intros Hb Hs. apply balanced_height in Hb. pose proof (height_nonneg t).
  pose proof (zlen_nonneg (inorder t)).
  assert (Hlt : 2 ^ height t < 2 ^ 127).
  { eapply Z.le_lt_trans; [exact Hb|]. apply Z.le_lt_trans with ((2 ^ 62) ^ 2); [|done].
    apply Z.pow_le_mono_l. lia. }
  apply Z.pow_lt_mono_r_iff in Hlt; lia.
Qed.
End Operations.

(** ** The module's contract *)

Section Contract.
Context {A : Type} (P : A -> Prop) (cmp : A -> A -> Z) `{!Comparator P cmp}.

(** A tree that only insertions have built. *)
Definition avl_ok (tree : AVLTree A) : Prop :=
  search_tree (P := P) (cmp := cmp) (head tree) /\ balanced (head tree) /\
  size tree = zlen (inorder (head tree)).

Lemma is_new_length x l l1 o l2 :
  split_by (cmp := cmp) x l l1 o l2 ->
  zlen (l1 ++ x :: l2) = (if is_new o then zlen l + 1 else zlen l).
Proof.
  intros [-> _ _ _]. destruct o; cbn [is_new option_list option_rect app];
    rewrite ?zlen_app, ?zlen_cons; lia.
Qed.

Lemma search_tree_inserted t x t' isnew :
  P x -> search_tree (P := P) (cmp := cmp) t -> inserted_into (cmp := cmp) t x t' isnew ->
  search_tree (P := P) (cmp := cmp) t'.
Proof.
  intros Hx [He Ho HP] [(l1 & o & l2 & Hs & Ei & _) He' _ _]. split; [done|..]; rewrite Ei.
  - by eapply ordered_split_insert.
  - destruct Hs as [E _ _ _]. rewrite E in HP. rewrite !Forall_app, Forall_cons in *. tauto.
Qed.

Lemma search_tree_removed t x t' o :
  search_tree (P := P) (cmp := cmp) t -> removed_from (cmp := cmp) t x t' o ->
  search_tree (P := P) (cmp := cmp) t'.
Proof.
  intros [He Ho HP] [(l1 & l2 & Hs & Ei) He' _]. split; [done|..]; rewrite Ei.
  - by eapply ordered_split_remove.
  - destruct Hs as [E _ _ _]. rewrite E in HP. rewrite !Forall_app in *. tauto.
Qed.

(** C26.  [avl_insert] into a balanced search tree of fewer than 2^62 nodes, when
    memory is available, returns a balanced search tree whose depth fields are the
    heights (they fit an [int8_t]) and whose [size] is the number of nodes; its
    data in order are the old ones with the new one put in its place, instead of
    the data the comparator finds equal to it if there was one, which is what the
    result tells. *)
Theorem avl_insert_correct (tree : AVLTree A) (x : A) :
  P x -> avl_ok tree -> size tree < 2 ^ 62 ->
  exists tree' inserted l1 o l2,
    avl_insert cmp tree x [] = Ok (tree', inserted, []) /\ avl_ok tree' /\
    split_by (cmp := cmp) x (inorder (head tree)) l1 o l2 /\
    inorder (head tree') = l1 ++ x :: l2 /\ inserted = is_new o.
Proof.
  intros Hx (Ht & Hb & Hn) Hs. destruct tree as [t n]. cbn in *. subst n.
  destruct (insertImpl_spec x Hx t Ht) as (t' & isnew & E & Hi);
    [by apply balanced_height_small|].
  pose proof (search_tree_inserted _ _ _ _ Hx Ht Hi) as Ht'.
  destruct Hi as [(l1 & o & l2 & Hsp & Ei & ->) _ _ Hg]. destruct (Hg Hb) as [Hb' _].
  unfold avl_insert. cbn. rewrite E. do 5 eexists. split; [done|].
  split_and!; [|exact Hsp|done|done]. split_and!; [done|done|]. cbn [size head].
  rewrite Ei, (is_new_length _ _ _ _ _ Hsp). destruct o; [done|]. cbn [is_new].
  apply u64_small. pose proof (zlen_nonneg (inorder t)). lia.
Qed.

(** [avl_remove] on a search tree of at most 127 levels returns; it removes
    the data that the comparator finds equal to its argument, if there is one, and
    returns it, and leaves a search tree of at most as many levels with exact
    depth fields.  [avl_find] returns the same data and finds nothing else. *)
Theorem avl_remove_correct (tree : AVLTree A) (x : A) :
  P x -> search_tree (P := P) (cmp := cmp) (head tree) -> height (head tree) <= 127 ->
  size tree = zlen (inorder (head tree)) -> size tree < 2 ^ 64 ->
  exists tree' o l1 l2,
    avl_remove cmp tree x = Ok (tree', o) /\ avl_find cmp tree x = o /\
    split_by (cmp := cmp) x (inorder (head tree)) l1 o l2 /\
    search_tree (P := P) (cmp := cmp) (head tree') /\ height (head tree') <= height (head tree) /\
    inorder (head tree') = l1 ++ l2 /\ size tree' = zlen (l1 ++ l2) /\
    avl_find cmp tree' x = None.
Proof.
  intros Hx Ht Hh Hn Hs. destruct tree as [t n]. cbn in *. subst n.
  destruct (removeImpl_spec (S (levels t)) t x) as (t' & o & E & Hr); [done..|lia|].
  pose proof (search_tree_removed _ _ _ _ Ht Hr) as Ht'.
  destruct Hr as [(l1 & l2 & Hsp & Ei) _ Hh']. unfold avl_remove, avl_find. cbn [head].
  rewrite E. destruct (find_node_spec x Hx t Ht) as (k1 & k2 & Hf).
  destruct (split_unique _ _ _ _ _ _ _ _ Hf Hsp) as (-> & -> & ->).
  destruct (find_node_spec x Hx t' Ht') as (k1 & k2 & Hf'). rewrite Ei in Hf'.
  assert (Hnone : split_by (cmp := cmp) x (l1 ++ l2) l1 None l2) by (destruct Hsp; by split).
  destruct (split_unique _ _ _ _ _ _ _ _ Hf' Hnone) as (-> & Hn & ->).
  do 4 eexists. split; [done|]. cbn [head size]. split_and!; [done|exact Hsp|done|done|exact Ei| |done].
  pose proof (zlen_nonneg (l1 ++ l2)). destruct Hsp as [E' _ _ _]. rewrite E' in Hs |- *.
  destruct o; cbn [option_list option_rect app] in *; [|done].
  rewrite !zlen_app, zlen_cons in *. rewrite u64_small; lia.
Qed.
End Contract.

(** ** Integers, compared by their difference *)

#[export] Instance sub_comparator : Comparator (fun _ => True) Z.sub.
Proof. split; lia. Qed.

Definition insert_all (xs : list Z) : res (AVLTree Z) :=
  foldl (fun r x => let* t := r in let* '(t, _, _) := avl_insert Z.sub t x [] in Ok t)
    (Ok (mkTree Null 0)) xs.

Definition sample : AVLTree Z :=
  match insert_all [10; 5; 20; 2; 7; 30; 1; 8] with Ok t => t | Err _ => mkTree Null 0 end.

Lemma sample_ok : avl_ok (fun _ => True) Z.sub sample.
Proof.
  split_and!; [split|..]; vm_compute;
    repeat (first [discriminate | done | split | constructor]).
Qed.

Lemma avl_insert_correct_witness :
  exists tree' inserted l1 o l2,
    avl_insert Z.sub sample 6 [] = Ok (tree', inserted, []) /\ avl_ok (fun _ => True) Z.sub tree' /\
    split_by (cmp := Z.sub) 6 (inorder (head sample)) l1 o l2 /\
    inorder (head tree') = l1 ++ 6 :: l2 /\ inserted = is_new o.
Proof. apply (avl_insert_correct (fun _ => True) Z.sub sample 6); [done|apply sample_ok|done]. Defined.

Lemma avl_remove_correct_witness :
  exists tree' o l1 l2,
    avl_remove Z.sub sample 10 = Ok (tree', o) /\ avl_find Z.sub sample 10 = o /\
    split_by (cmp := Z.sub) 10 (inorder (head sample)) l1 o l2 /\
    search_tree (P := fun _ => True) (cmp := Z.sub) (head tree') /\
    height (head tree') <= height (head sample) /\
    inorder (head tree') = l1 ++ l2 /\ size tree' = zlen (l1 ++ l2) /\
    avl_find Z.sub tree' 10 = None.
Proof.
  apply (avl_remove_correct (fun _ => True) Z.sub sample 10); [done|apply sample_ok|done..].
Defined.

(** Two defects.  Removing 30 from the balanced tree built from 10, 5, 20, 2,
    7, 30, 1, 8 leaves a tree out of balance, because [rebalance] rotates twice
    when the higher child is itself even.  And when [malloc] fails in [createNode],
    [avl_insert] still returns [true] and counts a node that is not there. *)
Theorem avl_defects :
  (exists tree, avl_remove Z.sub sample 30 = Ok (tree, Some 30) /\ ~ balanced (head tree)) /\
  avl_insert Z.sub (mkTree Null 0) 1 [false] = Ok (mkTree Null 1, true, []).
Proof.
  split; [|done]. eexists. split; [vm_compute; reflexivity|].
  cbn. intros (_ & (Hb & _) & _). lia.
Qed.
