(* ===== verification/HashMap.v ===== *)
(** * C-Homework/HashMap/src/hash_map.c

    The hash map with AVL trees for buckets.  A key is the list of the bytes its
    pointer and size designate (the map keeps the pointer: the caller must leave
    the bytes alone while the entry is in the map); [D] is the type of the data
    pointers. *)
From stdpp Require Export gmap.
From Stdlib Require Import SpecFloat.
From S2P Require Import Prelude AVLTree.

(** ** [float] *)

Definition float_of_Z (z : Z) : spec_float := binary_normalize 24 128 z 0 false.
Definition float_mul (x y : spec_float) : spec_float := SFmul 24 128 x y.

(** Conversion to [size_t]: the fraction is dropped; out of range is undefined. *)
Definition size_of_float (x : spec_float) : res Z :=
  match x with
  | S754_zero _ => Ok 0
  | S754_finite s m e =>
      let n := if 0 <=? e then Z.pos m * 2 ^ e else Z.pos m / 2 ^ (- e) in
      if s then (if n =? 0 then Ok 0 else Err Undefined)
      else if n <=? UINT64_MAX then Ok n else Err Undefined
  | _ => Err Undefined
  end.

Definition defaultLoadFactor : spec_float := S754_finite false 12582912 (-24).
Definition capacityExpandFactor : spec_float := S754_finite false 8388608 (-22).
Definition startCapacity : Z := 10.

(** ** Entries *)

(** The sign of the first difference of two byte strings. *)
Fixpoint memcmp (a b : list Z) : Z :=
  match a, b with
  | x :: a, y :: b => if x =? y then memcmp a b else x - y
  | _, _ => 0
  end.

Definition djb2_hash (data : list Z) : Z :=
  foldl (fun hash byte => u64 (u64 (u64 (Z.shiftl hash 5) + hash) + byte)) 5381 data.

Section HashMap.
Context {D : Type}.

Record HashMapEntry := mkEntry {
  keySize : Z; key : list Z; data : option D; hash : Z
}.

Definition entryCompare (entry_a entry_b : HashMapEntry) : Z :=
  if keySize entry_a <? keySize entry_b then -1
  else if keySize entry_a >? keySize entry_b then 1
  else if hash entry_a =? hash entry_b then 0
  else memcmp (key entry_a) (key entry_b).

(** ** The table *)

Record HashMap := mkMap {
  buckets : list (AVLTree HashMapEntry);
  hm_size : Z;
  capacity : Z;
  loadFactor : spec_float;
  threshold : Z
}.

Definition calculateThreshold (hm : HashMap) : res HashMap :=
  let* t := size_of_float (float_mul (loadFactor hm) (float_of_Z (capacity hm))) in
  Ok (mkMap (buckets hm) (hm_size hm) (capacity hm) (loadFactor hm) t).

Definition hm_setLoadFactor (hm : HashMap) (lf : spec_float) : res HashMap :=
  calculateThreshold (mkMap (buckets hm) (hm_size hm) (capacity hm) lf (threshold hm)).

(** The loop that creates the buckets; [None] when a tree cannot be created. *)
Fixpoint create_buckets (n : nat) (mem : list bool)
  : option (list (AVLTree HashMapEntry)) * list bool :=
  match n with
  | O => (Some [], mem)
  | S n =>
      let '(tree, mem) := avl_createTree mem in
      match tree with
      | None => (None, mem)
      | Some tree =>
          let '(rest, mem) := create_buckets n mem in
          (match rest with Some rest => Some (tree :: rest) | None => None end, mem)
      end
  end.

(** [None] is the null pointer. *)
Definition hm_create (mem : list bool) : res (option HashMap * list bool) :=
  let '(ok, mem) := malloc mem in
  if negb ok then Ok (None, mem)
  else
    let* hm := hm_setLoadFactor
                 (mkMap [] 0 startCapacity defaultLoadFactor 0) defaultLoadFactor in
    let '(ok, mem) := malloc mem in
    if negb ok then Ok (None, mem)
    else
      let '(bs, mem) := create_buckets (Z.to_nat (capacity hm)) mem in
      match bs with
      | None => Ok (None, mem)
      | Some bs =>
          Ok (Some (mkMap bs (hm_size hm) (capacity hm) (loadFactor hm) (threshold hm)), mem)
      end.

Definition state : Type := HashMap * list bool.

(** [avl_insert(hm->buckets[bucketIndex], entry)]. *)
Definition insert_bucket (hm : HashMap) (entry : HashMapEntry) (mem : list bool)
  : res (HashMap * bool * list bool) :=
  let bucketIndex := hash entry mod capacity hm in
  let* tree := arr_get (buckets hm) bucketIndex in
  let* '(tree, inserted, mem) := avl_insert entryCompare tree entry mem in
  let* bs := arr_set (buckets hm) bucketIndex tree in
  Ok (mkMap bs (hm_size hm) (capacity hm) (loadFactor hm) (threshold hm), inserted, mem).

Definition entryTransferVisitor (entry : HashMapEntry) (context : state) : res state :=
  let '(hm, mem) := context in
  let* '(hm, _, mem) := insert_bucket hm entry mem in
  Ok (hm, mem).

Fixpoint transfer (oldBuckets : list (AVLTree HashMapEntry)) (st : state) : res state :=
  match oldBuckets with
  | [] => Ok st
  | b :: rest =>
      let* st := avl_foreach b entryTransferVisitor st in
      transfer rest st
  end.

(** When memory runs out the old buckets and capacity stay (and the new
    threshold). *)
Definition resize (hm : HashMap) (mem : list bool) : res state :=
  let* cap := size_of_float (float_mul (float_of_Z (capacity hm)) capacityExpandFactor) in
  let* hm' := calculateThreshold
                (mkMap (buckets hm) (hm_size hm) cap (loadFactor hm) (threshold hm)) in
  let failed := mkMap (buckets hm) (hm_size hm) (capacity hm) (loadFactor hm) (threshold hm') in
  let '(ok, mem) := malloc mem in
  if negb ok then Ok (failed, mem)
  else
    let '(bs, mem) := create_buckets (Z.to_nat cap) mem in
    match bs with
    | None => Ok (failed, mem)
    | Some bs => transfer (buckets hm) (mkMap bs (hm_size hm) cap (loadFactor hm) (threshold hm'), mem)
    end.

(** [None] for a null [key] or [data]. *)
Definition hm_put (hm : HashMap) (k : option (list Z)) (d : option D) (mem : list bool)
  : res (HashMap * bool * list bool) :=
  match k, d with
  | Some k, Some d =>
      let h := djb2_hash k in
      let '(ok, mem) := malloc mem in
      if negb ok then Ok (hm, false, mem)
      else
        let entry := mkEntry (zlen k) k (Some d) h in
        let* '(hm, inserted, mem) := insert_bucket hm entry mem in
        if inserted then
          let hm := mkMap (buckets hm) (u64 (hm_size hm + 1)) (capacity hm) (loadFactor hm)
                      (threshold hm) in
          if hm_size hm >=? threshold hm then
            let* '(hm, mem) := resize hm mem in
            Ok (hm, true, mem)
          else Ok (hm, true, mem)
        else Ok (hm, false, mem)
  | _, _ => Ok (hm, false, mem)
  end.

Definition hm_get (hm : HashMap) (k : list Z) : res (option D) :=
  let h := djb2_hash k in
  let* tree := arr_get (buckets hm) (h mod capacity hm) in
  match avl_find entryCompare tree (mkEntry (zlen k) k None h) with
  | None => Ok None
  | Some found => Ok (data found)
  end.

Definition hm_remove (hm : HashMap) (k : list Z) : res (HashMap * option D) :=
  let h := djb2_hash k in
  let bucketIndex := h mod capacity hm in
  let* tree := arr_get (buckets hm) bucketIndex in
  let* '(tree, removedEntry) := avl_remove entryCompare tree (mkEntry (zlen k) k None h) in
  let* bs := arr_set (buckets hm) bucketIndex tree in
  match removedEntry with
  | Some e =>
      Ok (mkMap bs (u64 (hm_size hm - 1)) (capacity hm) (loadFactor hm) (threshold hm), data e)
  | None => Ok (mkMap bs (hm_size hm) (capacity hm) (loadFactor hm) (threshold hm), None)
  end.

Definition hm_getSize (hm : HashMap) : Z := hm_size hm.
End HashMap.
Arguments HashMapEntry : clear implicits.
Arguments HashMap : clear implicits.

(** The bucket sizes that [hm_printStatistics] prints. *)
Definition hm_printStatistics {D} (hm : HashMap D) : Z * Z * list Z :=
  (hm_size hm, capacity hm, map avl_getSize (buckets hm)).

(** ** Operations and their answers *)

Inductive map_op (D : Type) :=
| Put (k : list Z) (d : D) | Get (k : list Z) | Remove (k : list Z) | GetSize.
Arguments Put {D}. Arguments Get {D}. Arguments Remove {D}. Arguments GetSize {D}.

Inductive map_answer (D : Type) := WasNew (b : bool) | Data (d : option D) | Size (n : Z).
Arguments WasNew {D}. Arguments Data {D}. Arguments Size {D}.

Section Runs.
Context {D : Type}.

Definition hm_step (hm : HashMap D) (op : map_op D) : res (HashMap D * map_answer D) :=
  match op with
  | Put k d => let* '(hm, b, _) := hm_put hm (Some k) (Some d) [] in Ok (hm, WasNew b)
  | Get k => let* d := hm_get hm k in Ok (hm, Data d)
  | Remove k => let* '(hm, d) := hm_remove hm k in Ok (hm, Data d)
  | GetSize => Ok (hm, Size (hm_getSize hm))
  end.

Fixpoint hm_run (hm : HashMap D) (ops : list (map_op D)) : res (list (map_answer D)) :=
  match ops with
  | [] => Ok []
  | op :: ops =>
      let* '(hm, a) := hm_step hm op in
      let* rest := hm_run hm ops in
      Ok (a :: rest)
  end.

Definition program (ops : list (map_op D)) : res (list (map_answer D)) :=
  let* '(hm, _) := hm_create [] in
  match hm with Some hm => hm_run hm ops | None => Err Undefined end.

(** The abstract map. *)
Definition gmap_step (m : gmap (list Z) D) (op : map_op D) : gmap (list Z) D * map_answer D :=
  match op with
  | Put k d => (<[k := d]> m, WasNew (match m !! k with Some _ => false | None => true end))
  | Get k => (m, Data (m !! k))
  | Remove k => (delete k m, Data (m !! k))
  | GetSize => (m, Size (Z.of_nat (base.size m)))
  end.

Fixpoint gmap_run (m : gmap (list Z) D) (ops : list (map_op D)) : list (map_answer D) :=
  match ops with
  | [] => []
  | op :: ops => let '(m, a) := gmap_step m op in a :: gmap_run m ops
  end.

Definition op_key (op : map_op D) : option (list Z) :=
  match op with Put k _ => Some k | Get k => Some k | Remove k => Some k | GetSize => None end.

Definition puts (ops : list (map_op D)) : Z :=
  zlen (List.filter (fun op => match op with Put _ _ => true | _ => false end) ops).
End Runs.

Definition demo : list (map_op Z) :=
  [Put [65] 1; Put [66; 67] 2; GetSize; Get [65]; Put [65] 3; Get [65]; Remove [65]; Get [65]; GetSize].

Example demo_run : program demo = Ok (gmap_run ∅ demo).
Proof. vm_compute. reflexivity. Qed.

(** ** The order on entries *)

(** Keys of one length with one hash are the same key. *)
Definition collision_free (K : list Z -> Prop) : Prop :=
  forall k k', K k -> K k' -> zlen k = zlen k' -> djb2_hash k = djb2_hash k' -> k = k'.

Lemma memcmp_refl (a : list Z) : memcmp a a = 0.
Proof. induction a as [|x a IH]; cbn; [done|]. by rewrite Z.eqb_refl. Qed.

Lemma memcmp_zero (a b : list Z) : zlen a = zlen b -> memcmp a b = 0 -> a = b.
Proof.
  revert b. induction a as [|x a IH]; intros [|y b]; unfold zlen in *; cbn [length memcmp];
    try (intros; lia); [done|]. intros Hl. destruct (Z.eqb_spec x y) as [->|]; [|lia].
  intros E. f_equal. apply IH; [lia|done].
Qed.

Lemma memcmp_opp (a b : list Z) : memcmp b a = - memcmp a b.
Proof.
  revert b. induction a as [|x a IH]; intros [|y b]; cbn; [done..|].
  rewrite (Z.eqb_sym y x). destruct (Z.eqb_spec x y); [apply IH|lia].
Qed.

Lemma memcmp_trans (a b c : list Z) :
  zlen a = zlen b -> zlen b = zlen c -> memcmp a b < 0 -> memcmp b c < 0 -> memcmp a c < 0.
Proof.
  revert b c. induction a as [|x a IH]; intros [|y b] [|z c]; unfold zlen in *; cbn [length memcmp];
    try (intros; lia). intros Hab Hbc.
  destruct (Z.eqb_spec x y) as [->|], (Z.eqb_spec y z) as [->|]; zcase; try lia.
  intros. apply (IH b c); auto; lia.
Qed.

(** The order of the keys: by length, then bytewise. *)
Definition key_compare (a b : list Z) : Z :=
  if zlen a <? zlen b then -1 else if zlen a >? zlen b then 1 else memcmp a b.

Lemma key_compare_zero (a b : list Z) : key_compare a b = 0 -> a = b.
Proof. unfold key_compare. zcase; try lia. intros. apply memcmp_zero; [lia|done]. Qed.

#[export] Instance key_comparator : Comparator (fun _ => True) key_compare.
Proof.
  assert (Hopp : forall a b, key_compare b a = - key_compare a b).
  { intros a b. unfold key_compare. zcase; try lia. apply memcmp_opp. }
  split.
  - intros x y _ _. rewrite (Hopp x y). lia.
  - intros x y z _ _ _. unfold key_compare. zcase; try lia. intros. eapply (memcmp_trans x y z); auto; lia.
  - intros x y z _ _ _ ->%key_compare_zero. done.
Qed.

Section Entries.
Context {D : Type} (K : list Z -> Prop).

Record good (e : HashMapEntry D) : Prop := {
  good_key : K (key e);
  good_size : keySize e = zlen (key e);
  good_hash : hash e = djb2_hash (key e)
}.

Hypothesis HK : collision_free K.

Lemma entryCompare_keys (a b : HashMapEntry D) :
  good a -> good b -> entryCompare a b = key_compare (key a) (key b).
Proof.
  intros [Ka Sa Ha] [Kb Sb Hb]. unfold entryCompare, key_compare. rewrite Sa, Sb, Ha, Hb.
  zcase; try done. rewrite (HK (key a) (key b)) by (auto; lia). by rewrite memcmp_refl.
Qed.

Lemma entry_comparator : Comparator good entryCompare.
Proof.
  split.
  - intros x y Hx Hy. rewrite !entryCompare_keys by done. by apply cmp_swap.
  - intros x y z Hx Hy Hz. rewrite !entryCompare_keys by done. by apply cmp_trans.
  - intros x y z Hx Hy Hz. rewrite !entryCompare_keys by done. by apply cmp_same.
Qed.

Lemma entryCompare_zero (a b : HashMapEntry D) :
  good a -> good b -> entryCompare a b = 0 <-> key a = key b.
Proof.
  intros Ha Hb. rewrite entryCompare_keys by done. split; [apply key_compare_zero|].
  intros ->. by apply (cmp_refl (P := fun _ => True)).
Qed.
End Entries.

(** ** The table of buckets *)

#[export] Instance tree_inhabited {A} : Inhabited (AVLTree A) := populate (mkTree Null 0).

Section Table.
Context {D : Type} (K : list Z -> Prop) (HK : collision_free K).
#[local] Abbreviation entry := (HashMapEntry D).
#[local] Instance entry_cmp : Comparator (good (D := D) K) entryCompare := entry_comparator K HK.
Implicit Types (e : entry) (bs : list (AVLTree entry)).

Definition tree_data (b : AVLTree entry) : list entry := inorder (head b).
Definition entries bs : list entry := flat_map tree_data bs.

Record tree_ok (cap i : Z) (b : AVLTree entry) : Prop := {
  tok_tree : search_tree (P := good K) (cmp := entryCompare) (head b);
  tok_size : size b = zlen (tree_data b);
  tok_place : Forall (fun e => hash e mod cap = i) (tree_data b)
}.

(** The buckets hold exactly the entries [E], each where its hash puts it. *)
Record table_ok (cap : Z) bs (E : list entry) : Prop := {
  tab_cap : 0 < cap;
  tab_len : zlen bs = cap;
  tab_tree i : 0 <= i < cap -> tree_ok cap i (znth bs i);
  tab_entries : entries bs ≡ₚ E
}.

Lemma elem_entries bs e : e ∈ entries bs <-> exists i, 0 <= i < zlen bs /\ e ∈ tree_data (znth bs i).
Proof.
  unfold entries. rewrite list_elem_of_In, in_flat_map. setoid_rewrite <- list_elem_of_In. split.
  - intros (b & (i & Hi & <-)%elem_znth & Hb). eauto.
  - intros (i & Hi & He). exists (znth bs i). split; [by apply znth_elem|done].
Qed.

Lemma entries_set bs i b :
  0 <= i < zlen bs -> exists rest,
    entries bs ≡ₚ tree_data (znth bs i) ++ rest /\ entries (zset bs i b) ≡ₚ tree_data b ++ rest.
Proof.
  intros Hi. set (l1 := take (Z.to_nat i) bs). set (l2 := drop (S (Z.to_nat i)) bs).
  exists (entries l1 ++ entries l2). unfold entries. split.
  - rewrite (zsplit bs i Hi) at 1. fold l1 l2. rewrite flat_map_app. cbn.
    by rewrite !app_assoc, (Permutation_app_comm _ (tree_data _)).
  - assert (zset bs i b = l1 ++ b :: l2) as ->.
    { unfold zset, l1, l2. rewrite insert_take_drop; [done|]. unfold zlen in Hi. lia. }
    rewrite flat_map_app. cbn. by rewrite !app_assoc, (Permutation_app_comm _ (tree_data _)).
Qed.

Lemma table_bucket cap bs E e :
  table_ok cap bs E -> e ∈ E -> e ∈ tree_data (znth bs (hash e mod cap)).
Proof.
  intros [Hc Hl Ht HE] He. rewrite <- HE in He. apply elem_entries in He as (i & Hi & He).
  rewrite Hl in Hi. pose proof (tok_place _ _ _ (Ht i Hi)) as Hp.
  rewrite Forall_forall in Hp. by rewrite (Hp e He).
Qed.

Lemma table_index cap bs E e : table_ok cap bs E -> 0 <= hash e mod cap < cap.
Proof. intros [Hc _ _ _]. by apply Z.mod_pos_bound. Qed.

Lemma table_tree_short cap bs E i :
  table_ok cap bs E -> 0 <= i < cap -> zlen (tree_data (znth bs i)) <= zlen E.
Proof.
  intros [Hc Hl Ht HE] Hi. destruct (entries_set bs i (znth bs i)) as (rest & Hp & _); [lia|].
  rewrite HE in Hp. apply Permutation_length in Hp. rewrite length_app in Hp. unfold zlen. lia.
Qed.

Lemma table_good cap bs E : table_ok cap bs E -> Forall (good K) E.
Proof.
  intros Htab. apply Forall_forall. intros e He. pose proof (table_bucket _ _ _ _ Htab He) as Hb.
  pose proof (tab_tree _ _ _ Htab _ (table_index _ _ _ e Htab)) as [[_ _ HP] _ _].
  rewrite Forall_forall in HP. by apply HP.
Qed.

Lemma good_same_bucket cap e e' :
  good K e -> good K e' -> key e = key e' -> hash e mod cap = hash e' mod cap.
Proof. intros [_ _ ->] [_ _ ->] ->. done. Qed.

(** An entry with [e]'s key is the one the comparator finds in [e]'s bucket. *)
Lemma table_split cap bs E e l1 o l2 :
  table_ok cap bs E -> good K e ->
  split_by (cmp := entryCompare) e (tree_data (znth bs (hash e mod cap))) l1 o l2 ->
  match o with
  | Some e' => e' ∈ E /\ key e' = key e
  | None => forall e', e' ∈ E -> key e' <> key e
  end.
Proof.
  intros Htab Hg Hs. pose proof (table_good _ _ _ Htab) as HgE. rewrite Forall_forall in HgE.
  pose proof (table_index _ _ _ e Htab) as Hi. destruct o as [e'|].
  - assert (e' ∈ E).
    { rewrite <- (tab_entries _ _ _ Htab). apply elem_entries.
      exists (hash e mod cap). rewrite (tab_len _ _ _ Htab). split; [done|].
      rewrite (split_app _ _ _ _ _ Hs). cbn. rewrite elem_of_app, elem_of_cons. auto. }
    split; [done|]. symmetry. apply (entryCompare_zero K HK); auto. by apply (split_same _ _ _ _ _ Hs).
  - intros e' He' Hk. pose proof (table_bucket _ _ _ _ Htab He') as Hb.
    rewrite (good_same_bucket cap e' e) in Hb by auto.
    rewrite (split_app _ _ _ _ _ Hs) in Hb. cbn in Hb.
    assert (Hz : entryCompare e e' = 0) by (apply (entryCompare_zero K HK); auto).
    destruct Hs as [_ Hb1 _ Hb2]. rewrite Forall_forall in Hb1, Hb2.
    apply elem_of_app in Hb as [Hb|Hb]; [specialize (Hb1 _ Hb)|specialize (Hb2 _ Hb)]; lia.
Qed.

Lemma table_update cap bs E i b rest :
  table_ok cap bs E -> 0 <= i < cap -> tree_ok cap i b ->
  E ≡ₚ tree_data (znth bs i) ++ rest ->
  table_ok cap (zset bs i b) (tree_data b ++ rest).
Proof.
  intros [Hc Hl Ht HE] Hi Hb Hr. split; [done|by rewrite zlen_zset| |].
  - intros j Hj. rewrite znth_zset by lia. destruct (Z.eqb_spec i j) as [<-|]; auto.
  - destruct (entries_set bs i b) as (rest' & Hp & Hp'); [lia|]. rewrite Hp'.
    rewrite HE, Hr in Hp. apply Permutation_app_inv_l in Hp. by rewrite Hp.
Qed.

Lemma table_rest cap bs E i :
  table_ok cap bs E -> 0 <= i < cap -> exists rest, E ≡ₚ tree_data (znth bs i) ++ rest.
Proof.
  intros [Hc Hl Ht HE] Hi. destruct (entries_set bs i (znth bs i)) as (rest & Hp & _); [lia|].
  exists rest. by rewrite <- HE.
Qed.

(** How the entries change when [e] is put in. *)
Definition replaced (E : list entry) e (isnew : bool) (E' : list entry) : Prop :=
  if isnew then (forall e', e' ∈ E -> key e' <> key e) /\ E' ≡ₚ e :: E
  else exists e0 rest, E ≡ₚ e0 :: rest /\ key e0 = key e /\ E' ≡ₚ e :: rest.

Lemma table_insert cap bs E e :
  table_ok cap bs E -> good K e -> zlen E < 127 ->
  exists b isnew E',
    avl_insert entryCompare (znth bs (hash e mod cap)) e [] = Ok (b, isnew, []) /\
    table_ok cap (zset bs (hash e mod cap) b) E' /\ replaced E e isnew E'.
Proof.
  intros Htab Hg Hlen. set (i := hash e mod cap). pose proof (table_index _ _ _ e Htab) as Hi. fold i in Hi.
  pose proof (tab_tree _ _ _ Htab i Hi) as [Ht Hsz Hpl].
  pose proof (table_tree_short _ _ _ _ Htab Hi) as Hshort.
  pose proof (height_length (head (znth bs i))) as Hh. fold (tree_data (znth bs i)) in Hh.
  destruct (insertImpl_spec e Hg _ Ht) as (t & isnew & Ei & Hins); [lia|].
  pose proof (search_tree_inserted _ _ _ _ _ _ Hg Ht Hins) as Ht'.
  destruct Hins as [(l1 & o & l2 & Hs & Eo & ->) _ _ _].
  pose proof (table_split _ _ _ _ _ _ _ Htab Hg Hs) as Hkey.
  destruct (table_rest _ _ _ _ Htab Hi) as (rest & Hrest).
  unfold avl_insert. rewrite Ei. do 2 eexists. exists (l1 ++ e :: l2 ++ rest).
  pose proof (is_new_length _ _ _ _ _ _ Hs) as Hnl.
  assert (Happ : tree_data (znth bs i) = l1 ++ option_list o ++ l2) by apply Hs.
  split; [done|]. split.
  - match goal with |- table_ok _ (zset _ _ ?b) _ =>
      assert (Hd : tree_data b = l1 ++ e :: l2) by exact Eo;
      replace (l1 ++ e :: l2 ++ rest) with (tree_data b ++ rest) by (rewrite Hd; by rewrite <- app_assoc);
      apply table_update with E; [done|done| |done]
    end.
    split; [exact Ht'| |].
    + rewrite Hd, Hnl. cbn [size]. fold (tree_data (znth bs i)). rewrite Hsz.
      destruct (is_new o); [|done]. apply u64_small. pose proof (zlen_nonneg (tree_data (znth bs i))). lia.
    + rewrite Hd. rewrite Happ in Hpl. rewrite !Forall_app, Forall_cons in *. tauto.
  - rewrite Happ in Hrest. destruct o as [e0|]; cbn in Hrest, Hkey |- *.
    + exists e0, ((l1 ++ l2) ++ rest). split_and!; [|apply Hkey|].
      * by rewrite Hrest, <- (Permutation_middle l1 l2 e0).
      * by rewrite <- Permutation_middle, app_assoc.
    + split; [done|]. by rewrite <- Permutation_middle, Hrest, app_assoc.
Qed.

Lemma table_find cap bs E e :
  table_ok cap bs E -> good K e ->
  match avl_find entryCompare (znth bs (hash e mod cap)) e with
  | Some e' => e' ∈ E /\ key e' = key e
  | None => forall e', e' ∈ E -> key e' <> key e
  end.
Proof.
  intros Htab Hg. pose proof (table_index _ _ _ e Htab) as Hi.
  pose proof (tab_tree _ _ _ Htab _ Hi) as [Ht _ _].
  destruct (find_node_spec e Hg _ Ht) as (l1 & l2 & Hs).
  exact (table_split _ _ _ _ _ _ _ Htab Hg Hs).
Qed.

Lemma table_remove cap bs E e :
  table_ok cap bs E -> good K e -> zlen E < 127 ->
  exists b o E',
    avl_remove entryCompare (znth bs (hash e mod cap)) e = Ok (b, o) /\
    table_ok cap (zset bs (hash e mod cap) b) E' /\
    match o with
    | Some e' => E ≡ₚ e' :: E' /\ key e' = key e
    | None => E ≡ₚ E' /\ forall e', e' ∈ E -> key e' <> key e
    end.
Proof.
  intros Htab Hg Hlen. set (i := hash e mod cap). pose proof (table_index _ _ _ e Htab) as Hi. fold i in Hi.
  pose proof (tab_tree _ _ _ Htab i Hi) as [Ht Hsz Hpl].
  pose proof (table_tree_short _ _ _ _ Htab Hi) as Hshort.
  pose proof (height_length (head (znth bs i))) as Hh. fold (tree_data (znth bs i)) in Hh.
  destruct (removeImpl_spec (S (levels (head (znth bs i)))) _ e Hg Ht) as (t & o & Er & Hrem); [lia|lia|].
  pose proof (search_tree_removed _ _ _ _ _ _ Ht Hrem) as Ht'.
  destruct Hrem as [(l1 & l2 & Hs & Eo) _ _].
  pose proof (table_split _ _ _ _ _ _ _ Htab Hg Hs) as Hkey.
  destruct (table_rest _ _ _ _ Htab Hi) as (rest & Hrest).
  unfold avl_remove. rewrite Er. do 2 eexists. exists ((l1 ++ l2) ++ rest).
  assert (Happ : tree_data (znth bs i) = l1 ++ option_list o ++ l2) by apply Hs.
  split; [done|]. split.
  - match goal with |- table_ok _ (zset _ _ ?b) _ =>
      assert (Hd : tree_data b = l1 ++ l2) by exact Eo;
      rewrite <- Hd; apply table_update with E; [done|done| |done]
    end.
    split; [exact Ht'| |].
    + rewrite Hd. cbn [size]. rewrite Hsz, Happ in *. pose proof (zlen_nonneg (l1 ++ l2)).
      destruct o; cbn [option_list option_rect app] in *; [|done].
      rewrite !zlen_app, zlen_cons in *. rewrite u64_small; lia.
    + rewrite Hd. rewrite Happ in Hpl. rewrite !Forall_app in *. tauto.
  - rewrite Happ in Hrest. destruct o as [e0|]; cbn in Hrest, Hkey |- *.
    + split; [|apply Hkey]. by rewrite Hrest, <- (Permutation_middle l1 l2 e0).
    + split; [done|exact Hkey].
Qed.

(** ** Entries and the abstract map *)

#[local] Abbreviation dmap := (gmap (list Z) (option D)).
Implicit Types (M : dmap) (E : list entry).

Definition kv e : list Z * option D := (key e, data e).
Definition rep M E : Prop := map_to_list M ≡ₚ kv <$> E.

Lemma rep_elem M E e : rep M E -> e ∈ E -> M !! key e = Some (data e).
Proof.
  intros Hr He. apply elem_of_map_to_list. rewrite Hr. by apply (list_elem_of_fmap_2 kv).
Qed.

Lemma rep_none M E (k : list Z) : rep M E -> (forall e, e ∈ E -> key e <> k) -> M !! k = None.
Proof.
  intros Hr Hk. destruct (M !! k) as [d|] eqn:Ed; [|done]. apply elem_of_map_to_list in Ed.
  rewrite Hr in Ed. apply list_elem_of_fmap in Ed as (e & [= -> ->] & He). by destruct (Hk e He).
Qed.

Lemma rep_perm M E E' : rep M E -> E ≡ₚ E' -> rep M E'.
Proof. unfold rep. by intros -> ->. Qed.

Lemma rep_size M E : rep M E -> Z.of_nat (base.size M) = zlen E.
Proof. intros Hr. unfold zlen. by rewrite <- length_map_to_list, Hr, length_fmap. Qed.

Lemma rep_nodup M E : rep M E -> NoDup (key <$> E).
Proof.
  intros Hr. pose proof (NoDup_fst_map_to_list M) as Hn. rewrite Hr in Hn.
  by rewrite <- list_fmap_compose in Hn.
Qed.

Lemma rep_delete M E e E' : rep M E -> E ≡ₚ e :: E' -> rep (delete (key e) M) E'.
Proof.
  intros Hr Hp. assert (He : M !! key e = Some (data e)).
  { eapply rep_elem; [exact Hr|]. rewrite Hp. by apply elem_of_cons; left. }
  apply map_to_list_delete in He. rewrite Hr, Hp in He. cbn in He.
  by apply Permutation_cons_inv in He.
Qed.

Lemma rep_insert M E e isnew E' :
  rep M E -> replaced E e isnew E' ->
  rep (<[key e := data e]> M) E' /\
  isnew = match M !! key e with Some _ => false | None => true end.
Proof.
  intros Hr Hp. destruct isnew; cbn in Hp.
  - destruct Hp as [Hn Hp]. rewrite (rep_none M E) by done. split; [|done].
    eapply rep_perm; [|by symmetry]. unfold rep. rewrite map_to_list_insert, Hr; [done|].
    by eapply rep_none.
  - destruct Hp as (e0 & rest & HE & Hk & Hp). pose proof (rep_delete _ _ _ _ Hr HE) as Hd.
    rewrite Hk in Hd. split.
    + eapply rep_perm; [|by symmetry]. rewrite <- insert_delete_eq. unfold rep.
      rewrite map_to_list_insert, Hd; [done|apply lookup_delete_eq].
    + rewrite <- Hk, (rep_elem M E e0); [done|done|]. rewrite HE. by apply elem_of_cons; left.
Qed.

(** ** Resizing *)

Fixpoint fold_res {S} (f : entry -> S -> res S) (l : list entry) (s : S) : res S :=
  match l with
  | [] => Ok s
  | e :: l => let* s := f e s in fold_res f l s
  end.

Lemma fold_res_app {S} (f : entry -> S -> res S) l l' s :
  fold_res f (l ++ l') s = let* s := fold_res f l s in fold_res f l' s.
Proof. revert s. induction l as [|e l IH]; intros s; cbn; [done|]. by destruct (f e s). Qed.

Lemma foreachImpl_fold {S} (f : entry -> S -> res S) (t : AVLNode entry) (s : S) :
  foreachImpl t f s = fold_res f (inorder t) s.
Proof.
  revert s. induction t as [|d x l IHl r IHr]; intros s; cbn; [done|].
  rewrite fold_res_app, IHl. destruct (fold_res f (inorder l) s) as [s'|]; [|done]. cbn.
  by destruct (f x s').
Qed.

Lemma transfer_fold bs (st : @state D) : transfer bs st = fold_res entryTransferVisitor (entries bs) st.
Proof.
  revert st. induction bs as [|b bs IH]; intros st; cbn; [done|].
  rewrite fold_res_app. unfold avl_foreach. rewrite foreachImpl_fold.
  unfold tree_data. by destruct (fold_res _ (inorder (head b)) st).
Qed.

Lemma insert_bucket_spec (hm : HashMap D) E e :
  table_ok (capacity hm) (buckets hm) E -> good K e -> zlen E < 127 ->
  exists bs isnew E',
    insert_bucket hm e [] =
      Ok (mkMap bs (hm_size hm) (capacity hm) (loadFactor hm) (threshold hm), isnew, []) /\
    table_ok (capacity hm) bs E' /\ replaced E e isnew E'.
Proof.
  intros Htab Hg Hl. destruct (table_insert _ _ _ _ Htab Hg Hl) as (b & isnew & E' & Ei & Ht & Hr).
  pose proof (table_index _ _ _ e Htab) as Hi. pose proof (tab_len _ _ _ Htab) as Hlen.
  unfold insert_bucket. rewrite arr_get_ok by lia. rewrite Ei, arr_set_ok by lia. by do 3 eexists.
Qed.

Lemma transfer_spec L :
  forall (hm : HashMap D) E, table_ok (capacity hm) (buckets hm) E -> Forall (good K) L ->
  NoDup (key <$> L ++ E) -> zlen (L ++ E) <= 127 ->
  exists bs E',
    fold_res entryTransferVisitor L (hm, []) =
      Ok (mkMap bs (hm_size hm) (capacity hm) (loadFactor hm) (threshold hm), []) /\
    table_ok (capacity hm) bs E' /\ E' ≡ₚ L ++ E.
Proof.
  induction L as [|e L IH]; intros hm E Htab Hg Hn Hl.
  { exists (buckets hm), E. by destruct hm. }
  apply Forall_cons in Hg as [Hge HgL]. change ((e :: L) ++ E) with (e :: L ++ E) in Hn, Hl.
  rewrite zlen_cons, zlen_app in Hl. pose proof (zlen_nonneg L).
  destruct (insert_bucket_spec hm E e Htab Hge) as (bs & isnew & E1 & Ei & Ht1 & Hr); [lia|].
  cbn [fmap list_fmap] in Hn. apply NoDup_cons in Hn as [Hnin Hn]. cbn [fold_res].
  unfold entryTransferVisitor at 1. rewrite Ei. destruct isnew; cbn in Hr.
  2:{ destruct Hr as (e0 & rest & HE & Hk & _). destruct Hnin. rewrite <- Hk.
      apply list_elem_of_fmap_2. apply elem_of_app. right. rewrite HE. by apply elem_of_cons; left. }
  destruct Hr as [_ Hr].
  destruct (IH (mkMap bs (hm_size hm) (capacity hm) (loadFactor hm) (threshold hm)) E1)
    as (bs' & E' & Ef & Ht' & Hp); [done|done| | |].
  - rewrite Hr, <- Permutation_middle. cbn. by apply NoDup_cons.
  - unfold zlen. rewrite Hr, <- Permutation_middle. cbn [length]. unfold zlen in Hl.
    rewrite length_app. lia.
  - exists bs', E'. split; [exact Ef|]. split; [done|]. by rewrite Hp, Hr, <- Permutation_middle.
Qed.

Lemma create_buckets_spec (n : nat) :
  create_buckets (D := D) n [] = (Some (replicate n (mkTree Null 0)), []).
Proof. induction n as [|n IH]; cbn; [done|]. by rewrite IH. Qed.

Lemma empty_table (cap : Z) : 0 < cap -> table_ok cap (replicate (Z.to_nat cap) (mkTree Null 0)) [].
Proof.
  intros Hc. split; [done|unfold zlen; rewrite length_replicate; lia| |].
  - intros i Hi. unfold znth. rewrite lookup_total_replicate_2 by lia.
    split; [|done|constructor]. split; [done| |]; constructor.
  - generalize (Z.to_nat cap). intros n. induction n; cbn; done.
Qed.
End Table.

(** ** Refinement *)

(** The capacities a map of at most 126 entries goes through. *)
Definition capacities : list Z := [10; 20; 40; 80; 160; 320].

Lemma grow_capacity (cap : Z) :
  cap ∈ [10; 20; 40; 80; 160] ->
  size_of_float (float_mul (float_of_Z cap) capacityExpandFactor) = Ok (2 * cap) /\
  2 * cap ∈ capacities.
Proof.
  intros Hc. repeat (apply elem_of_cons in Hc as [-> | Hc];
    [split; [reflexivity|apply list_elem_of_In; cbn; tauto]|]).
  by apply elem_of_nil in Hc.
Qed.

Lemma default_threshold (cap : Z) :
  cap ∈ capacities ->
  size_of_float (float_mul defaultLoadFactor (float_of_Z cap)) = Ok (3 * cap / 4) /\ 10 <= cap <= 320.
Proof.
  intros Hc. repeat (apply elem_of_cons in Hc as [-> | Hc]; [split; [reflexivity|lia]|]).
  by apply elem_of_nil in Hc.
Qed.

Lemma small_capacity (cap : Z) : cap ∈ capacities -> 3 * cap / 4 <= 126 -> cap ∈ [10; 20; 40; 80; 160].
Proof.
  intros Hc Hs. repeat (apply elem_of_cons in Hc as [-> | Hc];
    [first [apply list_elem_of_In; cbn; tauto | by vm_compute in Hs]|]).
  by apply elem_of_nil in Hc.
Qed.

Section Refinement.
Context {D : Type} (K : list Z -> Prop) (HK : collision_free K).

Record hm_ok (hm : HashMap D) (m : gmap (list Z) D) (E : list (HashMapEntry D)) : Prop := {
  ok_table : table_ok K (capacity hm) (buckets hm) E;
  ok_rep : rep (Some <$> m) E;
  ok_size : hm_size hm = zlen E;
  ok_cap : capacity hm ∈ capacities;
  ok_factor : loadFactor hm = defaultLoadFactor;
  ok_threshold : threshold hm = 3 * capacity hm / 4
}.

Lemma create_ok : exists hm, hm_create [] = Ok (Some hm, []) /\ hm_ok hm ∅ [].
Proof.
  unfold hm_create. cbn [malloc negb hm_setLoadFactor calculateThreshold loadFactor capacity buckets hm_size].
  destruct (default_threshold 10) as [E _]; [apply list_elem_of_In; cbn; tauto|].
  unfold hm_setLoadFactor, calculateThreshold. cbn [loadFactor capacity buckets hm_size].
  unfold startCapacity. rewrite E. cbn [capacity hm_size loadFactor threshold].
  rewrite create_buckets_spec. eexists. split; [reflexivity|]. split; try done.
  - by apply empty_table.
  - unfold rep. by rewrite fmap_empty, map_to_list_empty.
  - apply list_elem_of_In; cbn; tauto.
Qed.

Lemma resize_ok (hm : HashMap D) m E :
  hm_ok hm m E -> zlen E <= 126 -> threshold hm <= zlen E ->
  exists hm' E', resize hm [] = Ok (hm', []) /\ hm_ok hm' m E' /\ E' ≡ₚ E.
Proof.
  intros [Htab Hrep Hsz Hcap Hf Hth] Hl Ht. unfold resize, calculateThreshold.
  destruct (grow_capacity (capacity hm)) as [-> Hcap2]; [apply small_capacity; [done|lia]|].
  cbn [loadFactor capacity buckets hm_size]. rewrite Hf.
  destruct (default_threshold _ Hcap2) as [-> Hb]. cbn [malloc negb threshold].
  rewrite create_buckets_spec, transfer_fold.
  pose proof (empty_table (D := D) K (2 * capacity hm) ltac:(lia)) as Hemp.
  set (hm1 := mkMap _ _ _ _ _).
  destruct (transfer_spec K HK (entries (buckets hm)) hm1 []) as (bs & E' & -> & Htab' & Hp).
  - exact Hemp.
  - rewrite (tab_entries _ _ _ _ Htab). by eapply table_good.
  - rewrite app_nil_r, (tab_entries _ _ _ _ Htab). by eapply rep_nodup.
  - rewrite app_nil_r. unfold zlen. rewrite (tab_entries _ _ _ _ Htab). unfold zlen in Hl. lia.
  - rewrite app_nil_r, (tab_entries _ _ _ _ Htab) in Hp. do 2 eexists. split; [done|]. split; [|exact Hp].
    split; cbn; auto.
    + eapply rep_perm; [exact Hrep|by symmetry].
    + rewrite Hsz. unfold zlen. by rewrite Hp.
Qed.

Lemma probe_good (k : list Z) (d : option D) : K k -> good K (mkEntry (zlen k) k d (djb2_hash k)).
Proof. by split. Qed.

Lemma put_ok (hm : HashMap D) m E (k : list Z) (d : D) :
  hm_ok hm m E -> K k -> zlen E <= 125 ->
  exists hm' E' isnew, hm_put hm (Some k) (Some d) [] = Ok (hm', isnew, []) /\
    isnew = match m !! k with Some _ => false | None => true end /\
    hm_ok hm' (<[k := d]> m) E' /\ zlen E' <= zlen E + 1.
Proof.
  intros Hok Hk Hl. pose proof Hok as [Htab Hrep Hsz Hcap Hf Hth].
  unfold hm_put. cbn [malloc negb]. set (e := mkEntry _ _ _ _).
  destruct (insert_bucket_spec K HK hm E e Htab) as (bs & isnew & E1 & -> & Htab1 & Hr);
    [by apply probe_good|lia|].
  destruct (rep_insert _ _ _ _ _ Hrep Hr) as [Hrep1 Hnew].
  change (key e) with k in *. change (data e) with (Some d) in *.
  rewrite lookup_fmap in Hnew. rewrite <- fmap_insert in Hrep1.
  assert (Hnew' : isnew = match m !! k with Some _ => false | None => true end)
    by (rewrite Hnew; by destruct (m !! k)).
  destruct isnew; cbn in Hr.
  - destruct Hr as [_ Hp]. assert (Hl1 : zlen E1 = zlen E + 1) by (unfold zlen; rewrite Hp; cbn; lia).
    cbn [hm_size buckets capacity loadFactor threshold]. pose proof (zlen_nonneg E).
    rewrite Hsz, u64_small by lia. set (hm1 := mkMap _ _ _ _ _).
    assert (Hok1 : hm_ok hm1 (<[k := d]> m) E1) by (by split; cbn [capacity buckets hm_size loadFactor threshold]; auto).
    rewrite Z.geb_leb. destruct (Z.leb_spec (threshold hm) (zlen E + 1)).
    + destruct (resize_ok hm1 _ E1 Hok1) as (hm' & E' & -> & Hok' & Hp'); [lia|cbn; lia|].
      do 3 eexists. split; [done|]. split_and!; [done|exact Hok'|]. unfold zlen in *. rewrite Hp'. lia.
    + do 3 eexists. split; [done|]. split_and!; [done|exact Hok1|lia].
  - destruct Hr as (e0 & rest & HE & _ & Hp).
    assert (Hl1 : zlen E1 = zlen E) by (unfold zlen; rewrite Hp, HE; cbn; lia).
    do 3 eexists. split; [done|]. split_and!; [done| |]; [|rewrite Hl1; lia]. split; cbn [capacity buckets hm_size loadFactor threshold]; auto; lia.
Qed.

Lemma get_ok (hm : HashMap D) m E (k : list Z) : hm_ok hm m E -> K k -> hm_get hm k = Ok (m !! k).
Proof.
  intros [Htab Hrep _ _ _ _] Hk. set (e := mkEntry (zlen k) k (@None D) (djb2_hash k)).
  pose proof (table_index _ _ _ _ e Htab) as Hi. pose proof (tab_len _ _ _ _ Htab) as Hlen.
  pose proof (table_find K HK _ _ _ e Htab (probe_good k None Hk)) as Hf.
  unfold hm_get. fold e. change (djb2_hash k) with (hash e). rewrite arr_get_ok by lia.
  destruct (avl_find _ _ e) as [e'|].
  - destruct Hf as [He Hkey]. pose proof (rep_elem _ _ _ Hrep He) as Hm. rewrite Hkey in Hm.
    change (key e) with k in Hm. rewrite lookup_fmap in Hm. f_equal.
    destruct (m !! k); cbn in Hm; by simplify_eq.
  - pose proof (rep_none _ _ k Hrep Hf) as Hm. rewrite lookup_fmap in Hm. by destruct (m !! k).
Qed.

Lemma remove_ok (hm : HashMap D) m E (k : list Z) :
  hm_ok hm m E -> K k -> zlen E <= 126 ->
  exists hm' E', hm_remove hm k = Ok (hm', m !! k) /\ hm_ok hm' (delete k m) E' /\ zlen E' <= zlen E.
Proof.
  intros [Htab Hrep Hsz Hcap Hf Hth] Hk Hl. set (e := mkEntry (zlen k) k (@None D) (djb2_hash k)).
  pose proof (table_index _ _ _ _ e Htab) as Hi. pose proof (tab_len _ _ _ _ Htab) as Hlen.
  destruct (table_remove K HK _ _ _ e Htab (probe_good k None Hk)) as (b & o & E' & Er & Htab' & Ho); [lia|].
  unfold hm_remove. fold e. change (djb2_hash k) with (hash e). rewrite arr_get_ok by lia.
  rewrite Er, arr_set_ok by lia. destruct o as [e'|].
  - destruct Ho as [HE Hkey]. pose proof (rep_delete _ _ _ _ Hrep HE) as Hd.
    assert (Hm : m !! k = data e').
    { assert (He : e' ∈ E) by (rewrite HE; by apply elem_of_cons; left).
      pose proof (rep_elem _ _ _ Hrep He) as Hm. rewrite Hkey in Hm. change (key e) with k in Hm.
      rewrite lookup_fmap in Hm. destruct (m !! k); cbn in Hm; by simplify_eq. }
    assert (Hl1 : zlen E = zlen E' + 1) by (unfold zlen; rewrite HE; cbn; lia).
    pose proof (zlen_nonneg E'). eexists. exists E'. split; [by rewrite Hm|]. split; [|rewrite Hl1; lia].
    split; cbn [capacity buckets hm_size loadFactor threshold]; auto.
    + rewrite Hkey in Hd. change (key e) with k in Hd. by rewrite fmap_delete.
    + rewrite Hsz, Hl1, u64_small; lia.
  - destruct Ho as [HE Hn]. pose proof (rep_none _ _ k Hrep Hn) as Hm. rewrite lookup_fmap in Hm.
    assert (Hl1 : zlen E' = zlen E) by (unfold zlen; by rewrite HE).
    assert (m !! k = None) as Hm' by (by destruct (m !! k)).
    eexists. exists E'. split; [by rewrite Hm'|]. split; [|rewrite Hl1; lia].
    rewrite delete_id by done. split; cbn [capacity buckets hm_size loadFactor threshold]; auto; [|lia]. by eapply rep_perm.
Qed.

Lemma hm_run_ok (ops : list (map_op D)) :
  forall hm m E, hm_ok hm m E -> Forall K (omap op_key ops) -> zlen E + puts ops <= 126 ->
  hm_run hm ops = Ok (gmap_run m ops).
Proof.
  induction ops as [|op ops IH]; intros hm m E Hok HKs Hl; [done|].
  cbn [hm_run gmap_run]. assert (Hp : 0 <= puts ops) by apply zlen_nonneg.
  assert (Hc : puts (op :: ops) = match op with Put _ _ => puts ops + 1 | _ => puts ops end)
    by (destruct op; [apply zlen_cons|done..]). rewrite Hc in Hl.
  destruct op as [k d|k|k|]; cbn [omap list_omap op_key] in HKs.
  - apply Forall_cons in HKs as [Hk HKs]. cbn [hm_step gmap_step].
    destruct (put_ok hm m E k d Hok Hk) as (hm' & E' & isnew & -> & -> & Hok' & Hl'); [lia|].
    rewrite (IH _ _ _ Hok') by (auto; lia). done.
  - apply Forall_cons in HKs as [Hk HKs]. cbn [hm_step gmap_step]. rewrite (get_ok hm m E) by done.
    by rewrite (IH hm m E).
  - apply Forall_cons in HKs as [Hk HKs]. cbn [hm_step gmap_step].
    destruct (remove_ok hm m E k Hok Hk) as (hm' & E' & -> & Hok' & Hl'); [lia|].
    rewrite (IH _ _ _ Hok') by (auto; lia). done.
  - cbn [hm_step gmap_step]. rewrite (IH hm m E) by done. unfold hm_getSize.
    rewrite (ok_size _ _ _ Hok), <- (rep_size _ _ (ok_rep _ _ _ Hok)). by rewrite map_size_fmap.
Qed.

Lemma program_ok (ops : list (map_op D)) :
  Forall K (omap op_key ops) -> puts ops <= 126 -> program ops = Ok (gmap_run ∅ ops).
Proof.
  intros HKs Hl. unfold program. destruct create_ok as (hm & -> & Hok).
  apply (hm_run_ok ops hm ∅ []); [done|done|]. change (zlen (@nil (HashMapEntry D))) with 0. lia.
Qed.
End Refinement.

(** The hash map is a map: when memory is available and the keys used are
    such that no two of one length have one hash, every sequence of puts, gets,
    removals and size queries with at most 126 puts gets the answers that a finite
    map from byte strings gives, through all the resizings on the way. *)
Theorem hash_map_refines_map (D : Type) (K : list Z -> Prop) (ops : list (map_op D)) :
  collision_free K -> Forall K (omap op_key ops) -> puts ops <= 126 ->
  program ops = Ok (gmap_run ∅ ops).
Proof. intros HK. by apply program_ok. Qed.

(** Twenty keys of one byte: two resizings. *)
Definition one_byte (k : list Z) : Prop := exists b, k = [b] /\ 0 <= b < 256.

Lemma one_byte_collision_free : collision_free one_byte.
Proof.
  intros k k' (b & -> & Hb) (b' & -> & Hb') _. unfold djb2_hash. cbn [foldl].
  change (Z.shiftl 5381 5) with 172192. change (u64 (u64 172192 + 5381)) with 177573.
  rewrite !u64_small by lia. intros. f_equal. lia.
Qed.

Definition demo_keys : list (list Z) := map (fun i => [Z.of_nat i * 7]) (seq 0 20).

Definition demo_ops : list (map_op Z) :=
  map (fun k => Put k (zlen k)) demo_keys ++ [Remove [14]; Get [14]; Get [21]; GetSize].

Lemma hash_map_refines_map_witness : program demo_ops = Ok (gmap_run ∅ demo_ops).
Proof.
  apply (hash_map_refines_map Z one_byte); [exact one_byte_collision_free| |].
  - vm_compute omap. repeat (constructor; [eexists; split; [reflexivity|lia]|]). constructor.
  - by vm_compute.
Defined.

(** The condition on hashes is needed: "Az" and "BY" have the same djb2 hash,
    and the map takes the one for the other, because [entryCompare] never compares
    the bytes of keys whose sizes and hashes agree. *)
Theorem hash_map_conflates :
  program [Put [65; 122] 1; Get [66; 89]; Put [66; 89] 2; Get [65; 122]; GetSize] =
    Ok [WasNew true; Data (Some 1); WasNew false; Data (Some 2); Size 1].
Proof. vm_compute. reflexivity. Qed.
