(* ===== verification/AvlInsertion.v ===== *)
(** * C-Labs/AVL_tree_insertion/src/main.c

    Builds an AVL tree of integers, equal ones included, and prints its height.
    The type of trees and their shape are those of [AVLTree]. *)
From S2P Require Import Prelude AVLTree.

#[local] Abbreviation node := (AVLNode Z).

Definition BST_TO_LEFT (val nodeVal : Z) : bool := val <=? nodeVal.

Definition MakeNode (value : Z) : node := Node 1 value Null Null.

Definition GetDepth (n : node) : Z := match n with Null => 0 | Node depth _ _ _ => depth end.

Definition UpdateDepth (n : node) : res node :=
  match n with
  | Null => Err AssertFailed
  | Node _ v l r =>
      let d1 := GetDepth l in
      let d2 := GetDepth r in
      Ok (Node (to_s8 (1 + (if d1 <? d2 then d2 else d1))) v l r)
  end.

Definition GetBalanceFactor (n : node) : res Z :=
  match n with
  | Null => Err AssertFailed
  | Node _ _ l r => Ok (GetDepth r - GetDepth l)
  end.

Definition RotateLeft (nodeA : node) : res node :=
  match nodeA with
  | Node da va la (Node db vb lb rb) =>
      let* nodeA := UpdateDepth (Node da va la lb) in
      UpdateDepth (Node db vb nodeA rb)
  | _ => Err Undefined
  end.

Definition RotateRight (nodeA : node) : res node :=
  match nodeA with
  | Node da va (Node db vb lb rb) ra =>
      let* nodeA := UpdateDepth (Node da va rb ra) in
      UpdateDepth (Node db vb lb nodeA)
  | _ => Err Undefined
  end.

Definition RotateLeftRight (nodeA : node) : res node :=
  match nodeA with
  | Node d v l r => let* l := RotateLeft l in RotateRight (Node d v l r)
  | Null => Err Undefined
  end.

Definition RotateRightLeft (nodeA : node) : res node :=
  match nodeA with
  | Node d v l r => let* r := RotateRight r in RotateLeft (Node d v l r)
  | Null => Err Undefined
  end.

Definition node_value (n : node) : res Z :=
  match n with Null => Err Undefined | Node _ v _ _ => Ok v end.

Definition left_of (n : node) : node := match n with Null => Null | Node _ _ l _ => l end.
Definition right_of (n : node) : node := match n with Null => Null | Node _ _ _ r => r end.

(** From [updateDepth(node)] to the end of [Insert]. *)
Definition Rebalance (n : node) (value : Z) : res node :=
  let* n := UpdateDepth n in
  let* balanceFactor := GetBalanceFactor n in
  let* n :=
    if balanceFactor <? -1 then
      let* v := node_value (left_of n) in
      if BST_TO_LEFT value v then RotateRight n else RotateLeftRight n
    else Ok n in
  if balanceFactor >? 1 then
    let* v := node_value (right_of n) in
    if BST_TO_LEFT value v then RotateRightLeft n else RotateLeft n
  else Ok n.

Fixpoint Insert (n : node) (value : Z) : res node :=
  match n with
  | Null => Ok (MakeNode value)
  | Node d v l r =>
      if BST_TO_LEFT value v then
        let* l := Insert l value in Rebalance (Node d v l r) value
      else
        let* r := Insert r value in Rebalance (Node d v l r) value
  end.

(** [scanf] returns [EOF], which is not 0, at the end of the input: the program
    then goes on with an uninitialised variable. *)
Fixpoint insert_loop (n : nat) (root : node) (input : list token) : res node :=
  match n with
  | O => Ok root
  | S n =>
      match scan_token input with
      | ScanEOF => Err Undefined
      | ScanFail => Err (Exited 0 "No input")
      | Scanned val input =>
          let* root := Insert root val in
          insert_loop n root input
      end
  end.

(** The number that [main] prints. *)
Definition main (input : list token) : res Z :=
  match scan_token input with
  | ScanEOF => Err Undefined
  | ScanFail => Err (Exited 0 "No input")
  | Scanned nodesCount input =>
      let* root := insert_loop (Z.to_nat nodesCount) Null input in
      Ok (GetDepth root)
  end.

(** ** The rotations are those of the other tree *)

Lemma UpdateDepth_node (d v : Z) (l r : node) : UpdateDepth (Node d v l r) = updateDepth (Node d v l r).
Proof.
  unfold UpdateDepth, updateDepth. change GetDepth with (@getDepth Z).
  do 3 f_equal. rewrite max2_max. zcase; lia.
Qed.

Lemma updateDepth_is_node (d v : Z) (l r n : node) :
  updateDepth (Node d v l r) = Ok n -> exists d', n = Node d' v l r.
Proof. intros [= <-]. eauto. Qed.

Lemma RotateLeft_same (n : node) : RotateLeft n = rotateLeft n.
Proof.
  destruct n as [|da va la [|db vb lb rb]]; [done..|]. unfold RotateLeft, rotateLeft.
  rewrite UpdateDepth_node. destruct (updateDepth (Node da va la lb)); [|done]. apply UpdateDepth_node.
Qed.

Lemma RotateRight_same (n : node) : RotateRight n = rotateRight n.
Proof.
  destruct n as [|da va [|db vb lb rb] ra]; [done..|]. unfold RotateRight, rotateRight.
  rewrite UpdateDepth_node. destruct (updateDepth (Node da va rb ra)); [|done]. apply UpdateDepth_node.
Qed.

Lemma RotateLeftRight_same (n : node) : RotateLeftRight n = rotateLeftRight n.
Proof.
  destruct n as [|d v l r]; [done|]. unfold RotateLeftRight, rotateLeftRight. rewrite RotateLeft_same.
  destruct (rotateLeft l); [|done]. apply RotateRight_same.
Qed.

Lemma RotateRightLeft_same (n : node) : RotateRightLeft n = rotateRightLeft n.
Proof.
  destruct n as [|d v l r]; [done|]. unfold RotateRightLeft, rotateRightLeft. rewrite RotateRight_same.
  destruct (rotateRight r); [|done]. apply RotateLeft_same.
Qed.

(** ** Insertion *)

(** After an insertion of [x], a subtree that became higher leans to the side
    where [x] went. *)
Definition leans_to (x : Z) (t : node) : Prop :=
  match t with
  | Null => False
  | Node _ v l r =>
      lean t = -1 /\ x <= v \/ lean t = 1 /\ v < x
  end.

Definition grew (x : Z) (t t' : node) : Prop :=
  height t' = height t \/ height t' = height t + 1 /\ (t = Null \/ leans_to x t').

Lemma grew_grown (x : Z) (t t' : node) : balanced t' -> grew x t t' -> grown t t'.
Proof.
  intros Hb [?|[? Hg]] _; split; auto. right. split; [done|]. destruct Hg as [|Hg]; [auto|].
  right. destruct t'; cbn in *; [done|]. lia.
Qed.

(** [Insert] rotates as [rebalance] does when the tree grew on [value]'s side. *)
Lemma Rebalance_same (d v x : Z) (l r : node) :
  exact l -> exact r -> height l < 127 -> height r < 127 ->
  (height r - height l < -1 -> leans_to x l) -> (1 < height r - height l -> leans_to x r) ->
  Rebalance (Node d v l r) x = rebalance (nd l v r).
Proof.
  intros Hl Hr Hhl Hhr HL HR. unfold Rebalance. rewrite UpdateDepth_node, updateDepth_nd by done.
  cbn [nd GetBalanceFactor]. change GetDepth with (@getDepth Z). rewrite !getDepth_exact by done.
  unfold rebalance. rewrite getBalanceFactor_exact by (by apply exact_nd).
  cbn [nd lean left_of right_of]. rewrite !getBalanceFactor_exact by done. rewrite !Z.gtb_ltb.
  destruct (Z.ltb_spec (height r - height l) (-1)) as [Hlt|Hge].
  - specialize (HL Hlt). destruct l as [|dl vl ll lr]; [done|]. cbn [node_value leans_to lean] in *.
    unfold BST_TO_LEFT. destruct (Z.ltb_spec 1 (height r - height (Node dl vl ll lr))); [lia|].
    destruct (Z.leb_spec x vl), (Z.ltb_spec (height lr - height ll) 0); try lia;
      [rewrite RotateRight_same; by destruct (rotateRight _) |
       rewrite RotateLeftRight_same; by destruct (rotateLeftRight _)].
  - destruct (Z.ltb_spec 1 (height r - height l)) as [Hgt|Hle]; [|done].
    specialize (HR Hgt). destruct r as [|dr vr rl rr]; [done|]. cbn [node_value leans_to lean] in *.
    unfold nd. cbn [right_of node_value]. unfold BST_TO_LEFT. rewrite ?Z.gtb_ltb.
    destruct (Z.leb_spec x vr), (Z.ltb_spec 0 (height rr - height rl)); try lia;
      [apply RotateRightLeft_same | apply RotateLeft_same].
Qed.

Record inserted (x : Z) (t t' : node) : Prop := {
  i_exact : exact t';
  i_balanced : balanced t';
  i_perm : inorder t' ≡ₚ x :: inorder t;
  i_sorted : StronglySorted Z.le (inorder t) -> StronglySorted Z.le (inorder t');
  i_grew : grew x t t'
}.

Lemma Insert_spec (x : Z) (t : node) :
  exact t -> balanced t -> height t < 127 -> exists t', Insert t x = Ok t' /\ inserted x t t'.
Proof.
  induction t as [|d v l IHl r IHr]; intros He Hb Hh.
  { eexists. split; [done|]. split.
    - done.
    - cbn. lia.
    - done.
    - intros _. by repeat constructor.
    - right. split; [done|auto]. }
  destruct He as (Hd & Hel & Her). destruct Hb as (Hbf & Hbl & Hbr). cbn [height] in Hh.
  pose proof (height_nonneg l). pose proof (height_nonneg r).
  cbn [Insert]. unfold BST_TO_LEFT. destruct (Z.leb_spec x v).
  - destruct IHl as (l' & -> & [Hel' Hbl' Hpl Hsl Hgl]); [done|done|lia|].
    rewrite Rebalance_same; [|done|done|unfold grew in Hgl; lia|lia| |].
    2:{ intros. destruct Hgl as [?|[? [-> |?]]]; [lia|cbn in *; lia|done]. }
    2:{ unfold grew in Hgl. lia. }
    destruct (rebalance_spec l' v r) as (t & -> & Hreb); [done|done|cbn; unfold grew in Hgl; lia|].
    exists t. split; [done|]. pose proof (grown_left d v l l' r t Hd (grew_grown _ _ _ Hbl' Hgl) Hreb) as Hg.
    destruct Hg as [Hbt _]; [done|]. pose proof Hreb as [Het Ein _ Hbal]. split; [done|done| | |].
    + rewrite Ein, Hpl. cbn. done.
    + rewrite Ein. by apply (sorted_insert_left x).
    + destruct Hbal as [_ Hbal]; [done|done|unfold grew in Hgl; lia| |unfold grew in Hgl; lia|].
      { intros. destruct Hgl as [?|[? [-> |Hgl]]]; [lia|cbn in *; lia|]. destruct l'; [done|]. cbn in *. lia. }
      revert Hbal. zcase; intros Ht; [left; unfold grew in Hgl; cbn [height] in *; lia..|].
      subst t. unfold grew. cbn [height nd lean leans_to] in *. unfold grew in Hgl. lia.
  - destruct IHr as (r' & -> & [Her' Hbr' Hpr Hsr Hgr]); [done|done|lia|].
    rewrite Rebalance_same; [|done|done|lia|unfold grew in Hgr; lia| |].
    2:{ unfold grew in Hgr. lia. }
    2:{ intros. destruct Hgr as [?|[? [-> |?]]]; [lia|cbn in *; lia|done]. }
    destruct (rebalance_spec l v r') as (t & -> & Hreb); [done|done|cbn; unfold grew in Hgr; lia|].
    exists t. split; [done|]. pose proof (grown_right d v l r r' t Hd (grew_grown _ _ _ Hbr' Hgr) Hreb) as Hg.
    destruct Hg as [Hbt _]; [done|]. pose proof Hreb as [Het Ein _ Hbal]. split; [done|done| | |].
    + rewrite Ein, Hpr. cbn [inorder]. rewrite perm_swap. by rewrite <- Permutation_middle.
    + rewrite Ein. apply (sorted_insert_right x); [lia|done..].
    + destruct Hbal as [_ Hbal]; [done|done|unfold grew in Hgr; lia|unfold grew in Hgr; lia| |].
      { intros. destruct Hgr as [?|[? [-> |Hgr]]]; [lia|cbn in *; lia|]. destruct r'; [done|]. cbn in *. lia. }
      revert Hbal. zcase; intros Ht; [left; unfold grew in Hgr; cbn [height] in *; lia..|].
      subst t. unfold grew. cbn [height nd lean leans_to] in *. unfold grew in Hgr. lia.
Qed.

(** ** The program *)

Record avl_of (xs : list Z) (t : node) : Prop := {
  of_exact : exact t;
  of_balanced : balanced t;
  of_perm : inorder t ≡ₚ xs;
  of_sorted : StronglySorted Z.le (inorder t)
}.

Lemma avl_of_insert (x : Z) (xs : list Z) (t t' : node) :
  avl_of xs t -> inserted x t t' -> avl_of (x :: xs) t'.
Proof. intros [H1 H2 H3 H4] [I1 I2 I3 I4 _]. split; auto. by rewrite I3, H3. Qed.

Lemma insert_loop_spec (xs : list Z) (k : nat) (rest : list token) :
  forall ys t, avl_of ys t -> zlen xs + zlen ys < 2 ^ 62 ->
  exists t', avl_of (rev xs ++ ys) t' /\
    insert_loop (length xs + k) t (map Int xs ++ rest) = insert_loop k t' rest.
Proof.
  induction xs as [|x xs IH]; intros ys t Ht Hl; [by exists t|]. rewrite zlen_cons in Hl.
  pose proof (zlen_nonneg xs). cbn [Nat.add length map app insert_loop scan_token].
  destruct (Insert_spec x t) as (t1 & -> & Hi); [apply Ht|apply Ht| |].
  { apply balanced_height_small; [apply Ht|]. unfold zlen in *. rewrite (of_perm _ _ Ht). lia. }
  destruct (IH (x :: ys) t1) as (t' & Ht' & ->); [by eapply avl_of_insert|rewrite zlen_cons; lia|].
  exists t'. split; [|done]. cbn. by rewrite <- app_assoc.
Qed.

(** The AVL tree program: given a count below 2^31 and at least that many
    numbers, it prints the height of a balanced binary search tree (equal numbers
    kept) that holds exactly those numbers; so the height h satisfies
    2^h <= (n+1)^2.  When something that is no number comes before the last one, it
    prints [No input]. *)
Theorem avl_insertion_program (xs : list Z) (rest : list token) :
  zlen xs < 2 ^ 31 ->
  (exists t, main (Int (zlen xs) :: map Int xs ++ rest) = Ok (height t) /\
     balanced t /\ StronglySorted Z.le (inorder t) /\ inorder t ≡ₚ xs /\
     2 ^ height t <= (zlen xs + 1) ^ 2) /\
  forall n, zlen xs < n ->
    main (Int n :: map Int xs ++ Junk :: rest) = Err (Exited 0 "No input").
Proof.
  intros Hl. assert (H0 : avl_of [] Null) by (split; cbn; auto; constructor). split.
  - cbn [main scan_token]. unfold zlen at 1. rewrite Nat2Z.id, <- (Nat.add_0_r (length xs)).
    destruct (insert_loop_spec xs 0 rest [] Null H0) as (t & Ht & ->);
      [change (zlen (@nil Z)) with 0; lia|]. cbn [insert_loop].
    exists t. change (GetDepth t) with (getDepth t). rewrite getDepth_exact by apply Ht.
    rewrite app_nil_r in Ht. destruct Ht as [He Hb Hp Hs]. rewrite <- Permutation_rev in Hp.
    split_and!; auto. apply balanced_height in Hb. unfold zlen in *. by rewrite Hp in Hb.
  - intros n Hn. cbn [main scan_token].
    destruct (insert_loop_spec xs (Z.to_nat n - length xs) (Junk :: rest) [] Null H0) as (t & _ & E);
      [change (zlen (@nil Z)) with 0; lia|]. unfold zlen in Hn.
    replace (length xs + (Z.to_nat n - length xs))%nat with (Z.to_nat n) in E by lia. rewrite E.
    by replace (Z.to_nat n - length xs)%nat with (S (Z.to_nat n - length xs - 1))%nat by lia.
Qed.

Lemma avl_insertion_program_witness :
  (exists t, main [Int 5; Int 4; Int 4; Int 4; Int 1; Int 9; Int 7] = Ok (height t) /\
     balanced t /\ StronglySorted Z.le (inorder t) /\ inorder t ≡ₚ [4; 4; 4; 1; 9] /\
     2 ^ height t <= (5 + 1) ^ 2) /\
  forall n, 5 < n -> main (Int n :: [Int 4; Int 4; Int 4; Int 1; Int 9; Junk; Int 7]) = Err (Exited 0 "No input").
Proof. apply (avl_insertion_program [4; 4; 4; 1; 9] [Int 7]). by vm_compute. Defined.
