(* ===== verification/RedBlack.v ===== *)
(** * C-Labs/Red-black_tree/src/main.c

    Builds a red-black tree of integers, equal ones included, and prints its black
    height.  The nodes are cells of an array and hold the indices of their children; the
    way from the root to a node is kept on the stack of [Stack], against whose interface
    the code is modelled.  A cell that was not written yet cannot be read.

    The theorems relate the cells to a tree: insertion is followed on a zipper, a
    subtree with the frames above it, which is what the stack holds. *)
From stdpp Require Import gmap.
From S2P Require Import Prelude Stack.

(** ** The program *)

Inductive Color := RED | BLACK.
#[export] Instance Color_eq_dec : EqDecision Color.
Proof. solve_decision. Defined.

Record RBNode := mkRB { leftChild : option nat; rightChild : option nat; color : Color; value : Z }.

#[local] Abbreviation memory := (gmap nat RBNode).

Definition get (m : memory) (p : nat) : res RBNode := match m !! p with Some n => Ok n | None => Err Undefined end.

Definition set_leftChild (m : memory) (p : nat) (q : option nat) : res memory :=
  let* n := get m p in Ok (<[p := mkRB q (rightChild n) (color n) (value n)]> m).
Definition set_rightChild (m : memory) (p : nat) (q : option nat) : res memory :=
  let* n := get m p in Ok (<[p := mkRB (leftChild n) q (color n) (value n)]> m).
Definition set_color (m : memory) (p : nat) (c : Color) : res memory :=
  let* n := get m p in Ok (<[p := mkRB (leftChild n) (rightChild n) c (value n)]> m).

(** A pointer that is dereferenced. *)
Definition deref (p : option nat) : res nat := match p with Some p => Ok p | None => Err Undefined end.

Definition BST_TO_LEFT (val nodeVal : Z) : bool := val <? nodeVal.

Definition MakeNode (m : memory) (v : Z) (ph : nat) : memory := <[ph := mkRB None None RED v]> m.

Definition IsLeftChild (m : memory) (node : nat) (parent : option nat) : res bool :=
  match parent with
  | None => Ok false
  | Some p => let* n := get m p in Ok (bool_decide (leftChild n = Some node))
  end.

Definition IsRightChild (m : memory) (node : nat) (parent : option nat) : res bool :=
  match parent with
  | None => Ok false
  | Some p => let* n := get m p in Ok (bool_decide (rightChild n = Some node))
  end.

Definition IsLined (m : memory) (node : nat) (parent grandparent : option nat) : res bool :=
  check! assert (bool_decide (is_Some parent)) in
  check! assert (bool_decide (is_Some grandparent)) in
  let* p := deref parent in
  let* a := IsLeftChild m node parent in
  let* b := IsLeftChild m p grandparent in
  let* c := IsRightChild m node parent in
  let* d := IsRightChild m p grandparent in
  Ok ((a && b) || (c && d)).

(** The child pointer of [parent] that was [nodeA] becomes [nodeB]. *)
Definition replace_child (m : memory) (nodeA : nat) (parent nodeB : option nat) : res memory :=
  let* l := IsLeftChild m nodeA parent in
  let* m := if l then let* p := deref parent in set_leftChild m p nodeB else Ok m in
  let* r := IsRightChild m nodeA parent in
  if r then let* p := deref parent in set_rightChild m p nodeB else Ok m.

Definition RotateLeft (m : memory) (nodeA : nat) (parent : option nat) : res memory :=
  let* a := get m nodeA in
  let nodeB := rightChild a in
  let* m := replace_child m nodeA parent nodeB in
  let* b := deref nodeB in
  let* nb := get m b in
  let* m := set_rightChild m nodeA (leftChild nb) in
  set_leftChild m b (Some nodeA).

Definition RotateRight (m : memory) (nodeA : nat) (parent : option nat) : res memory :=
  let* a := get m nodeA in
  let nodeB := leftChild a in
  let* m := replace_child m nodeA parent nodeB in
  let* b := deref nodeB in
  let* nb := get m b in
  let* m := set_leftChild m nodeA (rightChild nb) in
  set_rightChild m b (Some nodeA).

(** The new [node] and [parent] are the old ones swapped. *)
Definition MakeLined (m : memory) (node parent : nat) (grandparent : option nat) : res (memory * nat * nat) :=
  let* l := IsLeftChild m node (Some parent) in
  let* m := if l then RotateRight m parent grandparent else RotateLeft m parent grandparent in
  Ok (m, parent, node).

Definition getUncle (m : memory) (parent grandparent : option nat) : res (option nat) :=
  match parent, grandparent with
  | Some p, Some g =>
      let* l := IsLeftChild m p grandparent in
      let* n := get m g in
      Ok (if l then rightChild n else leftChild n)
  | _, _ => Ok None
  end.

Definition is_red (m : memory) (p : option nat) : res bool :=
  match p with
  | None => Ok false
  | Some p => let* n := get m p in Ok (bool_decide (color n = RED))
  end.

Section Program.
Context {I : StackImpl nat}.

(** [IsEmpty(ancestors) ? NULL : Pop(ancestors)]. *)
Definition pop_or_null (s : stack) : res (option nat * stack) :=
  if IsEmpty s then Ok (None, s) else let* '(p, s) := Pop s in Ok (Some p, s).

Definition top_or_null (s : stack) : res (option nat) :=
  if IsEmpty s then Ok None else let* p := GetTop s in Ok (Some p).

(** The case of a red parent and a black uncle up to the recursive call: the cells and
    the node that took the grandparent's place. *)
Definition black_uncle (m : memory) (node p : nat) (grandparent : option nat) (ancestors : stack) : res (memory * nat) :=
  let* lined := IsLined m node (Some p) grandparent in
  let* '(m, node, p) := if negb lined then MakeLined m node p grandparent else Ok (m, node, p) in
  let* m := set_color m p BLACK in
  let* g := deref grandparent in
  let* m := set_color m g RED in
  let* grandGrandParent := top_or_null ancestors in
  let* l := IsLeftChild m node (Some p) in
  let* m := if l then RotateRight m g grandGrandParent else RotateLeft m g grandGrandParent in
  Ok (m, p).

Fixpoint RBTreeBalance (fuel : nat) (m : memory) (node : nat) (ancestors : stack) : res (option nat * memory) :=
  match fuel with
  | O => Err OutOfFuel
  | S fuel =>
      let* '(parent, ancestors) := pop_or_null ancestors in
      let* '(grandparent, ancestors) := pop_or_null ancestors in
      let* uncle := getUncle m parent grandparent in
      match parent with
      | None => let* m := set_color m node BLACK in Ok (Some node, m)
      | Some p =>
          let* n := get m node in
          if bool_decide (color n = BLACK) then Ok (None, m)
          else
            let* np := get m p in
            if bool_decide (color np = BLACK) then Ok (None, m)
            else
              let* red_uncle := is_red m uncle in
              if red_uncle then
                let* u := deref uncle in
                let* m := set_color m u BLACK in
                let* m := set_color m p BLACK in
                let* g := deref grandparent in
                let* m := set_color m g RED in
                RBTreeBalance fuel m g ancestors
              else
                let* '(m, p) := black_uncle m node p grandparent ancestors in
                RBTreeBalance fuel m p ancestors
      end
  end.

(** The way down; the stack holds the nodes passed. *)
Fixpoint descend (fuel : nat) (m : memory) (curNode : option nat) (v : Z) (ancestors : stack) : res stack :=
  match curNode with
  | None => Ok ancestors
  | Some p =>
      match fuel with
      | O => Err OutOfFuel
      | S fuel =>
          let* ancestors := Push ancestors p in
          let* n := get m p in
          descend fuel m (if BST_TO_LEFT v (value n) then leftChild n else rightChild n) v ancestors
      end
  end.

(** The new root and the cells. *)
Definition Insert (m : memory) (root : option nat) (v : Z) (placeholder : nat) : res (option nat * memory) :=
  let* ancestors := descend (S (size m)) m root v MakeStack in
  let curNode := placeholder in
  let m := MakeNode m v placeholder in
  let* parent := top_or_null ancestors in
  let* '(root, m) :=
    match parent with
    | None => Ok (Some curNode, m)
    | Some p =>
        let* n := get m p in
        let* m := if BST_TO_LEFT v (value n) then set_leftChild m p (Some curNode) else set_rightChild m p (Some curNode) in
        Ok (root, m)
    end in
  let* '(newRoot, m) := RBTreeBalance (S (size m)) m curNode ancestors in
  Ok (match newRoot with Some _ => newRoot | None => root end, m).

Fixpoint CalculateBlackHeight (fuel : nat) (m : memory) (node : option nat) : res Z :=
  match node with
  | None => Ok 1
  | Some p =>
      match fuel with
      | O => Err OutOfFuel
      | S fuel =>
          let* n := get m p in
          let* h1 := CalculateBlackHeight fuel m (leftChild n) in
          let* h2 := CalculateBlackHeight fuel m (rightChild n) in
          s32 ((if h1 <? h2 then h2 else h1) + (if bool_decide (color n = BLACK) then 1 else 0))
      end
  end.

Fixpoint insert_loop (k : nat) (i : nat) (m : memory) (root : option nat) (input : list token) : res (option nat * memory) :=
  match k with
  | O => Ok (root, m)
  | S k =>
      match scan_token input with
      | ScanEOF => Err Undefined
      | ScanFail => Err (Exited 0 "No input")
      | Scanned val input =>
          let* '(root, m) := Insert m root val i in
          insert_loop k (S i) m root input
      end
  end.

(** The number that [main] prints; the allocation of the nodes succeeds. *)
Definition main (input : list token) : res Z :=
  match scan_token input with
  | ScanEOF => Err Undefined
  | ScanFail => Err (Exited 0 "No input")
  | Scanned nodesCount input =>
      if nodesCount =? 0 then Err (Exited 0 "0")
      else
        let* '(root, m) := insert_loop (Z.to_nat nodesCount) 0 ∅ None input in
        CalculateBlackHeight (S (size m)) m root
  end.

End Program.

Example rb_ten : main (I := BlockStack nat) (map Int [10; 5; 1; 7; 3; 3; 9; 8; 2; 6; 4]) = Ok 3.
Proof. vm_compute. reflexivity. Qed.

(** ** Trees in memory *)

Inductive tree := Leaf | Node (c : Color) (l : tree) (p : nat) (v : Z) (r : tree).

Definition root_of (t : tree) : option nat := match t with Leaf => None | Node _ _ p _ _ => Some p end.
Definition color_of (t : tree) : Color := match t with Leaf => BLACK | Node c _ _ _ _ => c end.

Fixpoint cells (t : tree) : list nat := match t with Leaf => [] | Node _ l p _ r => p :: cells l ++ cells r end.
Fixpoint inorder (t : tree) : list Z := match t with Leaf => [] | Node _ l _ v r => inorder l ++ v :: inorder r end.

Fixpoint repr (m : memory) (t : tree) : Prop :=
  match t with
  | Leaf => True
  | Node c l p v r => m !! p = Some (mkRB (root_of l) (root_of r) c v) /\ repr m l /\ repr m r
  end.

(** A node with a hole in place of one of its children. *)
Record frame := mkF { on_left : bool; f_color : Color; f_cell : nat; f_value : Z; sibling : tree }.

Definition fill (f : frame) (t : tree) : tree :=
  if on_left f then Node (f_color f) t (f_cell f) (f_value f) (sibling f) else Node (f_color f) (sibling f) (f_cell f) (f_value f) t.

(** The frames around a subtree, the innermost first. *)
Fixpoint plug (t : tree) (ctx : list frame) : tree := match ctx with [] => t | f :: ctx => plug (fill f t) ctx end.

Definition frame_cells (f : frame) : list nat := f_cell f :: cells (sibling f).
Definition ctx_cells (ctx : list frame) : list nat := concat (frame_cells <$> ctx).

Lemma ctx_cells_cons f ctx : ctx_cells (f :: ctx) = f_cell f :: cells (sibling f) ++ ctx_cells ctx.
Proof. done. Qed.

(** The cell of a frame whose hole holds [q]. *)
Definition frame_node (f : frame) (q : option nat) : RBNode :=
  if on_left f then mkRB q (root_of (sibling f)) (f_color f) (f_value f) else mkRB (root_of (sibling f)) q (f_color f) (f_value f).

Fixpoint repr_ctx (m : memory) (q : option nat) (ctx : list frame) : Prop :=
  match ctx with
  | [] => True
  | f :: ctx => m !! f_cell f = Some (frame_node f q) /\ repr m (sibling f) /\ repr_ctx m (Some (f_cell f)) ctx
  end.

(** The node above the hole. *)
Definition above (ctx : list frame) : option nat := f_cell <$> head ctx.

Lemma root_fill f t : root_of (fill f t) = Some (f_cell f).
Proof. unfold fill. by destruct (on_left f). Qed.

Lemma repr_plug m ctx : forall t, repr m (plug t ctx) <-> repr m t /\ repr_ctx m (root_of t) ctx.
Proof.
  induction ctx as [|f ctx IH]; intros t; cbn [plug repr_ctx]; [tauto|]. rewrite IH, root_fill. unfold fill, frame_node. destruct (on_left f); cbn [repr]; tauto.
Qed.

Lemma cells_plug ctx : forall t, cells (plug t ctx) ≡ₚ cells t ++ ctx_cells ctx.
Proof.
  induction ctx as [|f ctx IH]; intros t; cbn [plug]; [by rewrite app_nil_r|]. rewrite IH. unfold ctx_cells. rewrite fmap_cons. cbn [concat]. rewrite app_assoc. f_equiv.
  unfold fill, frame_cells. destruct (on_left f); cbn [cells]; [by rewrite <- Permutation_middle|]. rewrite <- Permutation_middle. f_equiv. apply Permutation_app_comm.
Qed.

(** Each cell of a tree has one owner. *)
Definition owned (t : tree) : Prop := NoDup (cells t).

Lemma owned_plug t ctx : owned (plug t ctx) <-> NoDup (cells t) /\ (forall p, p ∈ cells t -> p ∉ ctx_cells ctx) /\ NoDup (ctx_cells ctx).
Proof. unfold owned. rewrite cells_plug, NoDup_app. done. Qed.

Lemma owned_same t t' ctx : cells t ≡ₚ cells t' -> owned (plug t ctx) -> owned (plug t' ctx).
Proof. unfold owned. rewrite !cells_plug. by intros ->. Qed.

Lemma repr_insert m t p x : p ∉ cells t -> repr m t -> repr (<[p := x]> m) t.
Proof.
  induction t as [|c l IHl q v r IHr]; [done|]. cbn [cells repr]. rewrite not_elem_of_cons, not_elem_of_app. intros (Hq & Hl & Hr) (H1 & H2 & H3).
  rewrite lookup_insert_ne by done. auto.
Qed.

Lemma repr_ctx_insert m q ctx p x : p ∉ ctx_cells ctx -> repr_ctx m q ctx -> repr_ctx (<[p := x]> m) q ctx.
Proof.
  revert q. induction ctx as [|f ctx IH]; intros q; [done|]. rewrite ctx_cells_cons. cbn [repr_ctx].
  rewrite not_elem_of_cons, not_elem_of_app. intros (Hq & Hs & Hc) (H1 & H2 & H3). rewrite lookup_insert_ne by done. auto using repr_insert.
Qed.

Lemma root_elem t p : root_of t = Some p -> p ∈ cells t.
Proof. destruct t; [done|]. intros [= ->]. cbn. set_solver. Qed.

(** ** The operations on a tree with a hole *)

Lemma rb_cell_ok m p x : m !! p = Some x -> get m p = Ok x.
Proof. unfold get. by intros ->. Qed.

Lemma repr_node m c l p v r ctx : repr m (plug (Node c l p v r) ctx) -> get m p = Ok (mkRB (root_of l) (root_of r) c v).
Proof. intros (H & _ & _)%repr_plug%proj1. by apply rb_cell_ok. Qed.

(** Writing the cell at the root of the subtree in the hole. *)
Lemma repr_write m c c' l p v r ctx : owned (plug (Node c l p v r) ctx) -> repr m (plug (Node c l p v r) ctx) ->
  repr (<[p := mkRB (root_of l) (root_of r) c' v]> m) (plug (Node c' l p v r) ctx).
Proof.
  rewrite owned_plug, !repr_plug. cbn [cells repr root_of]. rewrite NoDup_cons, not_elem_of_app. intros (([Hl Hr] & _) & Hd & _) ((_ & H2 & H3) & H4).
  rewrite lookup_insert_eq. repeat split; auto using repr_insert. apply repr_ctx_insert; [|done]. apply Hd. set_solver.
Qed.

Lemma set_color_ok m c c' l p v r ctx : owned (plug (Node c l p v r) ctx) -> repr m (plug (Node c l p v r) ctx) ->
  exists m', set_color m p c' = Ok m' /\ repr m' (plug (Node c' l p v r) ctx).
Proof. intros Ho Hr. unfold set_color. rewrite (repr_node _ _ _ _ _ _ _ Hr). eexists. split; [done|]. by apply (repr_write m c). Qed.

Lemma owned_frame t f ctx q : owned (plug t (f :: ctx)) -> root_of t = Some q -> root_of (sibling f) <> Some q.
Proof.
  rewrite owned_plug. intros (_ & Hd & _) Hq Hs. apply root_elem in Hq, Hs. apply Hd in Hq. apply Hq. rewrite ctx_cells_cons. set_solver.
Qed.

Lemma which_child m t f ctx q : owned (plug t (f :: ctx)) -> repr m (plug t (f :: ctx)) -> root_of t = Some q ->
  IsLeftChild m q (Some (f_cell f)) = Ok (on_left f) /\ IsRightChild m q (Some (f_cell f)) = Ok (negb (on_left f)).
Proof.
  intros Ho Hr Hq. pose proof (owned_frame _ _ _ _ Ho Hq) as Hs. apply repr_plug in Hr as [_ (Hf & _)]. unfold IsLeftChild, IsRightChild. rewrite (rb_cell_ok _ _ _ Hf), Hq.
  unfold frame_node. destruct (on_left f); cbn; rewrite (bool_decide_eq_true_2 (Some q = Some q)), bool_decide_eq_false_2 by done; done.
Qed.

(** The hole gets another root. *)
Lemma replace_child_ok m t ctx q q' : owned (plug t ctx) -> repr m (plug t ctx) -> root_of t = Some q ->
  exists m', replace_child m q (above ctx) q' = Ok m' /\ repr_ctx m' q' ctx /\ (forall p, p ∉ ctx_cells ctx -> m' !! p = m !! p).
Proof.
  intros Ho Hr Hq. destruct ctx as [|f ctx]; [by exists m|]. cbn [above head fmap option_fmap option_map]. unfold replace_child.
  pose proof (owned_frame _ _ _ _ Ho Hq) as Hs. destruct (which_child _ _ _ _ _ Ho Hr Hq) as [-> HR]. apply repr_plug in Hr as [_ (Hf & Hsib & Hctx)].
  apply owned_plug in Ho as (_ & _ & Ho). rewrite ctx_cells_cons in Ho.
  apply NoDup_cons in Ho as [[Hn1 Hn2]%not_elem_of_app _].
  assert (Hset : forall x, x = frame_node f q' -> repr_ctx (<[f_cell f := x]> m) q' (f :: ctx) /\ (forall p, p ∉ ctx_cells (f :: ctx) -> <[f_cell f := x]> m !! p = m !! p)).
  { intros x ->. split.
    - cbn [repr_ctx]. rewrite lookup_insert_eq. split; [done|]. split; [by apply repr_insert|by apply repr_ctx_insert].
    - intros p Hp. apply lookup_insert_ne. intros <-. apply Hp. rewrite ctx_cells_cons. set_solver. }
  destruct (on_left f) eqn:El; cbn [deref].
  - unfold set_leftChild. rewrite (rb_cell_ok _ _ _ Hf). unfold frame_node in *. rewrite El in *. cbn [leftChild rightChild color value]. unfold IsRightChild, get.
    rewrite lookup_insert_eq. cbn [rightChild]. rewrite bool_decide_eq_false_2 by done. eexists. split; [done|]. by apply Hset.
  - rewrite HR. cbn [negb]. unfold set_rightChild. rewrite (rb_cell_ok _ _ _ Hf). unfold frame_node in *. rewrite El in *. cbn [leftChild rightChild color value].
    eexists. split; [done|]. by apply Hset.
Qed.

Lemma repr_same m m' t : (forall p, p ∈ cells t -> m' !! p = m !! p) -> repr m t -> repr m' t.
Proof.
  induction t as [|c l IHl q v r IHr]; [done|]. cbn [cells repr]. intros H (H1 & H2 & H3). rewrite H by set_solver. split; [done|]. split; [apply IHl|apply IHr]; set_solver.
Qed.

(** Two cells of the subtree in the hole are written and another root put into it. *)
Lemma rotate_ok m t ctx a b x y t' : owned (plug t ctx) -> repr m (plug t ctx) -> root_of t = Some a -> root_of t' = Some b ->
  a ∈ cells t -> b ∈ cells t -> a <> b ->
  (forall m', (forall p, p ∈ cells t -> p <> a -> p <> b -> m' !! p = m !! p) -> m' !! a = Some x -> m' !! b = Some y -> repr m' t') ->
  exists m', replace_child m a (above ctx) (Some b) = Ok m' /\ m' !! a = m !! a /\ m' !! b = m !! b /\
    repr (<[b := y]> (<[a := x]> m')) (plug t' ctx).
Proof.
  intros Ho Hr Ha Hb Hca Hcb Hab Ht. destruct (replace_child_ok m t ctx a (Some b) Ho Hr Ha) as (m' & -> & Hc & Hs). apply owned_plug in Ho as (_ & Hd & _).
  exists m'. split; [done|]. split; [by apply Hs, Hd|]. split; [by apply Hs, Hd|]. rewrite repr_plug, Hb. split.
  - apply Ht.
    + intros p Hp Hpa Hpb. rewrite !lookup_insert_ne by done. by apply Hs, Hd.
    + by rewrite lookup_insert_ne, lookup_insert_eq by done.
    + by rewrite lookup_insert_eq.
  - apply repr_ctx_insert; [by apply Hd|]. apply repr_ctx_insert; [by apply Hd|done].
Qed.

(** The distinct cells of two nodes and three subtrees. *)
Ltac split_owned Ho :=
  let H := fresh "Hnd" in pose proof Ho as H; apply owned_plug in H as (H & _ & _); cbn [cells] in H; repeat (rewrite ?NoDup_cons, ?NoDup_app, ?not_elem_of_app, ?not_elem_of_cons in H); destruct_and! H.

Lemma RotateRight_ok m c c2 ll a b v v2 lr r ctx :
  let t := Node c (Node c2 ll b v2 lr) a v r in owned (plug t ctx) -> repr m (plug t ctx) ->
  exists m', RotateRight m a (above ctx) = Ok m' /\ repr m' (plug (Node c2 ll b v2 (Node c lr a v r)) ctx).
Proof.
  intros t Ho Hr. subst t. pose proof (repr_node _ _ _ _ _ _ _ Hr) as Ea. pose proof Hr as (Hra & (Hrb & Hll & Hlr) & Hrr)%repr_plug%proj1. split_owned Ho.
  destruct (rotate_ok m _ ctx a b (mkRB (root_of lr) (root_of r) c v) (mkRB (root_of ll) (Some a) c2 v2) (Node c2 ll b v2 (Node c lr a v r)) Ho Hr)
    as (m1 & Hrep & Hm1 & Hm2 & Hfin); [done|done|cbn; set_solver|cbn; set_solver|congruence|..].
  { intros m' Hsame Ha Hb. cbn [repr root_of]. repeat split; try done; (eapply repr_same; [|done]); intros p Hp; (apply Hsame; [cbn; set_solver|intros ->; set_solver|intros ->; set_solver]). }
  unfold RotateRight. rewrite Ea. cbn [leftChild root_of]. rewrite Hrep. cbn [deref]. unfold get at 1. rewrite Hm2, Hrb. cbn [rightChild]. unfold set_leftChild, get.
  rewrite Hm1, Hra. cbn. unfold set_rightChild, get. rewrite lookup_insert_ne, Hm2, Hrb by done. eexists. split; [done|]. exact Hfin.
Qed.

Lemma RotateLeft_ok m c c2 l a b v v2 rl rr ctx :
  let t := Node c l a v (Node c2 rl b v2 rr) in owned (plug t ctx) -> repr m (plug t ctx) ->
  exists m', RotateLeft m a (above ctx) = Ok m' /\ repr m' (plug (Node c2 (Node c l a v rl) b v2 rr) ctx).
Proof.
  intros t Ho Hr. subst t. pose proof (repr_node _ _ _ _ _ _ _ Hr) as Ea. pose proof Hr as (Hra & Hl & (Hrb & Hrl & Hrr))%repr_plug%proj1. split_owned Ho.
  destruct (rotate_ok m _ ctx a b (mkRB (root_of l) (root_of rl) c v) (mkRB (Some a) (root_of rr) c2 v2) (Node c2 (Node c l a v rl) b v2 rr) Ho Hr)
    as (m1 & Hrep & Hm1 & Hm2 & Hfin); [done|done|cbn; set_solver|cbn; set_solver|congruence|..].
  { intros m' Hsame Ha Hb. cbn [repr root_of]. repeat split; try done; (eapply repr_same; [|done]); intros p Hp; (apply Hsame; [cbn; set_solver|intros ->; set_solver|intros ->; set_solver]). }
  unfold RotateLeft. rewrite Ea. cbn [rightChild root_of]. rewrite Hrep. cbn [deref]. unfold get at 1. rewrite Hm2, Hrb. cbn [leftChild]. unfold set_rightChild, get.
  rewrite Hm1, Hra. cbn. unfold set_leftChild, get. rewrite lookup_insert_ne, Hm2, Hrb by done. eexists. split; [done|]. exact Hfin.
Qed.

(** ** Rebalancing, on the tree *)

Definition recolor (c : Color) (f : frame) : frame := mkF (on_left f) c (f_cell f) (f_value f) (sibling f).
Definition blacken (t : tree) : tree := match t with Leaf => Leaf | Node _ l p v r => Node BLACK l p v r end.

(** The rotations around a red node, its red parent [f] and its grandparent [g]. *)
Definition lined (t : tree) (f g : frame) : tree :=
  match t with
  | Leaf => Leaf
  | Node ct tl pt vt tr =>
      let '(pf, vf, sf) := (f_cell f, f_value f, sibling f) in
      let '(pg, vg, sg) := (f_cell g, f_value g, sibling g) in
      match on_left g, on_left f with
      | true, true => Node BLACK t pf vf (Node RED sf pg vg sg)
      | true, false => Node BLACK (Node (f_color f) sf pf vf tl) pt vt (Node RED tr pg vg sg)
      | false, false => Node BLACK (Node RED sg pg vg sf) pf vf t
      | false, true => Node BLACK (Node RED sg pg vg tl) pt vt (Node (f_color f) tr pf vf sf)
      end
  end.

Fixpoint balance_up (t : tree) (ctx : list frame) : tree :=
  match ctx with
  | [] => blacken t
  | f :: ctx1 =>
      if bool_decide (color_of t = BLACK) || bool_decide (f_color f = BLACK) then plug t ctx
      else
        match ctx1 with
        | [] => plug t ctx
        | g :: ctx2 =>
            if bool_decide (color_of (sibling g) = RED) then
              balance_up (fill (mkF (on_left g) RED (f_cell g) (f_value g) (blacken (sibling g))) (fill (recolor BLACK f) t)) ctx2
            else plug (lined t f g) ctx2
        end
  end.

Section Balance.
Context {I : StackImpl nat}.

Lemma pop_ok s l : holds s l -> exists s', pop_or_null s = Ok (head l, s') /\ holds s' (tail l).
Proof.
  intros H. unfold pop_or_null. rewrite (IsEmpty_holds s l H). pose proof (Pop_holds s l H) as Hp. destruct l as [|x l]; [by exists s|].
  destruct Hp as (s' & -> & Hs). by exists s'.
Qed.

Lemma top_ok s l : holds s l -> top_or_null s = Ok (head l).
Proof. intros H. unfold top_or_null. rewrite (IsEmpty_holds s l H), (GetTop_holds s l H). by destruct l. Qed.

Lemma uncle_ok m t f g ctx : owned (plug t (f :: g :: ctx)) -> repr m (plug t (f :: g :: ctx)) ->
  getUncle m (Some (f_cell f)) (Some (f_cell g)) = Ok (root_of (sibling g)).
Proof.
  intros Ho Hr. change (plug t (f :: g :: ctx)) with (plug (fill f t) (g :: ctx)) in *. unfold getUncle.
  destruct (which_child m _ _ _ (f_cell f) Ho Hr (root_fill f t)) as [-> _]. apply repr_plug in Hr as [_ (Hg & _)].
  rewrite (rb_cell_ok _ _ _ Hg). unfold frame_node. by destruct (on_left g).
Qed.

Lemma is_red_ok m t : repr m t -> is_red m (root_of t) = Ok (bool_decide (color_of t = RED)).
Proof. destruct t as [|c l p v r]; [done|]. intros [H _]. unfold is_red. cbn [root_of]. by rewrite (rb_cell_ok _ _ _ H). Qed.

Lemma root_plug ctx t t' : root_of t = root_of t' \/ ctx <> [] -> root_of (plug t ctx) = root_of (plug t' ctx).
Proof.
  revert t t'. induction ctx as [|f ctx IH]; intros t t' [H|H]; try done; cbn [plug]; apply IH; left; by rewrite !root_fill.
Qed.

(** The last round, with a black node. *)
Lemma balance_black m l p v r ctx s fuel : owned (plug (Node BLACK l p v r) ctx) -> repr m (plug (Node BLACK l p v r) ctx) -> holds s (f_cell <$> ctx) ->
  exists res m', RBTreeBalance (S fuel) m p s = Ok (res, m') /\ repr m' (plug (Node BLACK l p v r) ctx) /\
    root_of (plug (Node BLACK l p v r) ctx) = match res with Some _ => res | None => root_of (plug Leaf ctx) end /\ (ctx = [] -> res = Some p).
Proof.
  intros Ho Hr Hs. cbn [RBTreeBalance]. destruct (pop_ok _ _ Hs) as (s1 & -> & Hs1). destruct (pop_ok _ _ Hs1) as (s2 & -> & Hs2).
  destruct ctx as [|f ctx]; rewrite ?fmap_nil, ?fmap_cons in *; cbn [head tail] in *.
  - cbn [getUncle]. destruct (set_color_ok m BLACK BLACK l p v r [] Ho Hr) as (m' & -> & Hr'). by exists (Some p), m'.
  - assert (Hu : exists u, getUncle m (Some (f_cell f)) (head (f_cell <$> ctx)) = Ok u).
    { destruct ctx as [|g ctx]; [by exists None|]. rewrite fmap_cons. cbn [head]. rewrite (uncle_ok m _ f g ctx Ho Hr). eauto. }
    destruct Hu as (u & ->). rewrite (repr_node _ _ _ _ _ _ _ Hr). cbn [color]. rewrite bool_decide_eq_true_2 by done.
    exists None, m. split; [done|]. split; [done|]. split; [|done]. apply root_plug. by right.
Qed.

Lemma head_cells ctx : head (f_cell <$> ctx) = above ctx.
Proof. by destruct ctx. Qed.

Lemma set_frame_color m t f ctx c : owned (plug t (f :: ctx)) -> repr m (plug t (f :: ctx)) ->
  exists m', set_color m (f_cell f) c = Ok m' /\ repr m' (plug t (recolor c f :: ctx)) /\ owned (plug t (recolor c f :: ctx)).
Proof.
  intros Ho Hr. assert (Ho' : owned (plug t (recolor c f :: ctx))).
  { apply (owned_same (fill f t) (fill (recolor c f) t) ctx); [|done]. unfold fill, recolor. cbn. by destruct (on_left f). }
  cbn [plug] in *. unfold fill, recolor in *. cbn [on_left f_color f_cell f_value sibling] in *.
  destruct (on_left f); destruct (set_color_ok m _ c _ _ _ _ _ Ho Hr) as (m' & -> & Hr'); by exists m'.
Qed.

(** A red parent and a red uncle. *)
Lemma red_uncle_ok m t f g ctx l u v r : owned (plug t (f :: g :: ctx)) -> repr m (plug t (f :: g :: ctx)) -> sibling g = Node RED l u v r ->
  exists m1 m2 m3, set_color m u BLACK = Ok m1 /\ set_color m1 (f_cell f) BLACK = Ok m2 /\ set_color m2 (f_cell g) RED = Ok m3 /\
    let t' := fill (mkF (on_left g) RED (f_cell g) (f_value g) (blacken (sibling g))) (fill (recolor BLACK f) t) in
    repr m3 (plug t' ctx) /\ owned (plug t' ctx).
Proof.
  intros Ho Hr Hs. set (g1 := mkF (on_left g) (f_color g) (f_cell g) (f_value g) (blacken (sibling g))).
  assert (H1 : exists m1, set_color m u BLACK = Ok m1 /\ repr m1 (plug t (f :: g1 :: ctx)) /\ owned (plug t (f :: g1 :: ctx))).
  { assert (Ho1 : owned (plug t (f :: g1 :: ctx))).
    { apply (owned_same (fill g (fill f t)) (fill g1 (fill f t)) ctx); [|done]. unfold fill at 1 3, g1. cbn. rewrite Hs. by destruct (on_left g). }
    set (f' := mkF (negb (on_left g)) (f_color g) (f_cell g) (f_value g) (fill f t)).
    assert (E : plug t (f :: g :: ctx) = plug (Node RED l u v r) (f' :: ctx)).
    { cbn [plug]. unfold fill at 1 3, f'. cbn. rewrite Hs. by destruct (on_left g). }
    rewrite E in Ho, Hr. destruct (set_color_ok m RED BLACK l u v r (f' :: ctx) Ho Hr) as (m1 & -> & Hr1). exists m1. split; [done|]. split; [|done].
    replace (plug t (f :: g1 :: ctx)) with (plug (Node BLACK l u v r) (f' :: ctx)); [done|]. cbn [plug]. unfold fill at 1 2, f', g1. cbn. rewrite Hs. by destruct (on_left g). }
  destruct H1 as (m1 & H1 & Hr1 & Ho1). destruct (set_frame_color m1 t f (g1 :: ctx) BLACK Ho1 Hr1) as (m2 & H2 & Hr2 & Ho2).
  destruct (set_frame_color m2 (fill (recolor BLACK f) t) g1 ctx RED Ho2 Hr2) as (m3 & H3 & Hr3 & Ho3).
  exists m1, m2, m3. by split.
Qed.

Lemma rotated_cells c c2 c3 c4 x y z a b v v2 : cells (Node c2 x b v2 (Node c y a v z)) ≡ₚ cells (Node c3 (Node c4 x b v2 y) a v z).
Proof. cbn [cells]. rewrite <- Permutation_middle. cbn. rewrite <- app_assoc. apply Permutation_swap. Qed.

Lemma owned_right c c2 c3 c4 x y z a b v v2 ctx :
  owned (plug (Node c3 (Node c4 x b v2 y) a v z) ctx) -> owned (plug (Node c2 x b v2 (Node c y a v z)) ctx).
Proof. apply owned_same. symmetry. apply rotated_cells. Qed.

Lemma owned_left c c2 c3 c4 x y z a b v v2 ctx :
  owned (plug (Node c2 x b v2 (Node c y a v z)) ctx) -> owned (plug (Node c3 (Node c4 x b v2 y) a v z) ctx).
Proof. apply owned_same, rotated_cells. Qed.

Lemma black_uncle_ok m ct tl pt vt tr f g ctx s : let t := Node ct tl pt vt tr in
  owned (plug t (f :: g :: ctx)) -> repr m (plug t (f :: g :: ctx)) -> holds s (f_cell <$> ctx) ->
  exists m' p, black_uncle m pt (f_cell f) (Some (f_cell g)) s = Ok (m', p) /\ repr m' (plug (lined t f g) ctx) /\ owned (plug (lined t f g) ctx) /\
    root_of (lined t f g) = Some p.
Proof.
  intros t Ho Hr Hs. unfold black_uncle, IsLined. destruct (which_child m t f (g :: ctx) pt Ho Hr eq_refl) as [Hl Hr1].
  destruct (which_child m (fill f t) g ctx (f_cell f) Ho Hr (root_fill f t)) as [Hl2 Hr2]. rewrite !bool_decide_eq_true_2 by eauto. cbn [assert deref].
  rewrite Hl, Hl2, Hr1, Hr2, (top_ok s _ Hs), head_cells. clear Hr1 Hl2 Hr2.
  destruct (decide (on_left f = on_left g)) as [E|E].
  - rewrite E. replace ((on_left g && on_left g) || (negb (on_left g) && negb (on_left g))) with true by (by destruct (on_left g)). cbn [negb].
    destruct (set_frame_color m t f (g :: ctx) BLACK Ho Hr) as (m1 & -> & Hr1 & Ho1).
    destruct (set_frame_color m1 (fill (recolor BLACK f) t) g ctx RED Ho1 Hr1) as (m2 & -> & Hr2 & Ho2).
    destruct (which_child m2 t (recolor BLACK f) (recolor RED g :: ctx) pt Ho2 Hr2 eq_refl) as [Hc _]. cbn [f_cell on_left recolor] in Hc. rewrite Hc.
    cbn [plug] in Hr2, Ho2. unfold fill, recolor in Hr2, Ho2. unfold lined, t in *. cbn [on_left f_color f_cell f_value sibling] in *. rewrite E in *.
    destruct (on_left g).
    + destruct (RotateRight_ok m2 _ _ _ _ _ _ _ _ _ _ Ho2 Hr2) as (m3 & -> & Hr3). exists m3, (f_cell f). split; [done|]. split; [done|]. split; [|done]. eapply owned_right; exact Ho2.
    + destruct (RotateLeft_ok m2 _ _ _ _ _ _ _ _ _ _ Ho2 Hr2) as (m3 & -> & Hr3). exists m3, (f_cell f). split; [done|]. split; [done|]. split; [|done]. eapply owned_left; exact Ho2.
  - replace ((on_left f && on_left g) || (negb (on_left f) && negb (on_left g))) with false by (by destruct (on_left f), (on_left g)). cbn [negb].
    unfold MakeLined. rewrite Hl. unfold lined, t in *. clear Hl. change (plug (Node ct tl pt vt tr) (f :: g :: ctx)) with (plug (fill f (Node ct tl pt vt tr)) (g :: ctx)) in *.
    unfold fill in Ho, Hr. change (Some (f_cell g)) with (above (g :: ctx)). destruct (on_left f), (on_left g) eqn:Eg; try done.
    + destruct (RotateRight_ok m _ _ _ _ _ _ _ _ _ _ Ho Hr) as (m1 & -> & Hr1). apply (owned_right (f_color f) ct) in Ho.
      destruct (set_frame_color m1 _ (mkF false ct pt vt tl) (g :: ctx) BLACK Ho Hr1) as (m2 & Hc2 & Hr2 & Ho2). cbn [f_cell] in Hc2. rewrite Hc2.
      destruct (set_frame_color m2 _ g ctx RED Ho2 Hr2) as (m3 & Hc3 & Hr3 & Ho3). cbn [above head fmap option_fmap option_map deref]. rewrite Hc3.
      destruct (which_child m3 _ (mkF false BLACK pt vt tl) (recolor RED g :: ctx) (f_cell f) Ho3 Hr3 eq_refl) as [Hc _]. cbn [f_cell on_left] in Hc. rewrite Hc.
      cbn [plug] in Hr3, Ho3. unfold fill, recolor in Hr3, Ho3. cbn [on_left f_color f_cell f_value sibling] in *. rewrite Eg in *.
      destruct (RotateLeft_ok m3 _ _ _ _ _ _ _ _ _ _ Ho3 Hr3) as (m4 & -> & Hr4). exists m4, pt. split; [done|]. split; [done|]. split; [|done]. eapply owned_left; exact Ho3.
    + destruct (RotateLeft_ok m _ _ _ _ _ _ _ _ _ _ Ho Hr) as (m1 & -> & Hr1). apply (owned_left _ _ ct (f_color f)) in Ho.
      destruct (set_frame_color m1 _ (mkF true ct pt vt tr) (g :: ctx) BLACK Ho Hr1) as (m2 & Hc2 & Hr2 & Ho2). cbn [f_cell] in Hc2. rewrite Hc2.
      destruct (set_frame_color m2 _ g ctx RED Ho2 Hr2) as (m3 & Hc3 & Hr3 & Ho3). cbn [above head fmap option_fmap option_map deref]. rewrite Hc3.
      destruct (which_child m3 _ (mkF true BLACK pt vt tr) (recolor RED g :: ctx) (f_cell f) Ho3 Hr3 eq_refl) as [Hc _]. cbn [f_cell on_left] in Hc. rewrite Hc.
      cbn [plug] in Hr3, Ho3. unfold fill, recolor in Hr3, Ho3. cbn [on_left f_color f_cell f_value sibling] in *. rewrite Eg in *.
      destruct (RotateRight_ok m3 _ _ _ _ _ _ _ _ _ _ Ho3 Hr3) as (m4 & -> & Hr4). exists m4, pt. split; [done|]. split; [done|]. split; [|done]. eapply owned_right; exact Ho3.
Qed.

(** The outermost frame is that of a black root. *)
Definition last_black (ctx : list frame) : Prop := forall f, list.last ctx = Some f -> f_color f = BLACK.

Lemma balance_ok fuel : forall m t ctx s node, (length ctx < fuel)%nat -> root_of t = Some node -> owned (plug t ctx) -> repr m (plug t ctx) ->
  holds s (f_cell <$> ctx) -> last_black ctx ->
  exists r m', RBTreeBalance fuel m node s = Ok (r, m') /\ repr m' (balance_up t ctx) /\ owned (balance_up t ctx) /\
    root_of (balance_up t ctx) = match r with Some _ => r | None => root_of (plug t ctx) end.
Proof.
  induction fuel as [|fuel IH]; intros m t ctx s node Hfuel Hroot Ho Hr Hs Hlast; [lia|]. destruct t as [|ct tl pt vt tr]; [done|]. injection Hroot as <-.
  destruct ctx as [|f ctx].
  { cbn [RBTreeBalance]. destruct (pop_ok _ _ Hs) as (s1 & -> & Hs1). destruct (pop_ok _ _ Hs1) as (s2 & -> & Hs2). cbn [fmap list_fmap head tail getUncle].
    destruct (set_color_ok m ct BLACK tl pt vt tr [] Ho Hr) as (m' & -> & Hr'). exists (Some pt), m'. split; [done|]. split; [done|]. split; [|done]. by apply (owned_same (Node ct tl pt vt tr) (Node BLACK tl pt vt tr) []). }
  destruct (decide (ct = BLACK)) as [->|Hct].
  { destruct (balance_black m tl pt vt tr (f :: ctx) s fuel Ho Hr Hs) as (r & m' & -> & Hr' & Hroot & _). cbn [balance_up color_of]. rewrite bool_decide_eq_true_2 by done.
    exists r, m'. split; [done|]. split; [done|]. split; [done|]. rewrite Hroot. destruct r; [done|]. apply root_plug. by right. }
  cbn [RBTreeBalance balance_up color_of]. rewrite (bool_decide_eq_false_2 (ct = BLACK)) by done. cbn [orb].
  destruct (pop_ok _ _ Hs) as (s1 & -> & Hs1). destruct (pop_ok _ _ Hs1) as (s2 & -> & Hs2). rewrite !fmap_cons in *. cbn [head tail] in *.
  assert (Hf : get m (f_cell f) = Ok (frame_node f (Some pt))) by (apply repr_plug in Hr as [_ (H & _)]; by apply rb_cell_ok).
  assert (Hfc : color (frame_node f (Some pt)) = f_color f) by (unfold frame_node; by destruct (on_left f)).
  destruct ctx as [|g ctx].
  { assert (Hb : f_color f = BLACK) by (by apply Hlast). cbn [getUncle fmap list_fmap head]. rewrite (repr_node _ _ _ _ _ _ _ Hr). cbn [color].
    rewrite (bool_decide_eq_false_2 (ct = BLACK)), Hf by done. rewrite Hfc, Hb, bool_decide_eq_true_2 by done. by exists None, m. }
  rewrite !fmap_cons in *. cbn [head tail] in *. rewrite (uncle_ok m _ f g ctx Ho Hr), (repr_node _ _ _ _ _ _ _ Hr). cbn [color].
  rewrite (bool_decide_eq_false_2 (ct = BLACK)), Hf, Hfc by done. destruct (bool_decide (f_color f = BLACK)); [by exists None, m|].
  assert (Hsib : repr m (sibling g)) by (apply repr_plug in Hr as [_ (_ & _ & _ & H & _)]; done). rewrite (is_red_ok m _ Hsib).
  assert (Hl2 : last_black ctx). { intros x Hx. apply Hlast. destruct ctx as [|h ctx]; [done|]. by rewrite !last_cons_cons. }
  destruct (bool_decide (color_of (sibling g) = RED)) eqn:Er.
  - apply bool_decide_eq_true in Er. destruct (sibling g) as [|cs l u v r] eqn:Es; [done|]. cbn in Er. subst cs. cbn [root_of deref].
    destruct (red_uncle_ok m _ f g ctx l u v r Ho Hr Es) as (m1 & m2 & m3 & -> & -> & -> & Hr3 & Ho3). rewrite <- Es. set (t' := fill _ (fill (recolor BLACK f) _)) in *.
    assert (Ht' : root_of t' = Some (f_cell g)) by (unfold t'; by rewrite root_fill). destruct (IH m3 t' ctx s2 (f_cell g) ltac:(cbn in Hfuel; lia) Ht' Ho3 Hr3 Hs2 Hl2) as (r' & m' & -> & Hr' & Ho' & Hroot).
    exists r', m'. split; [done|]. split; [done|]. split; [done|]. rewrite Hroot. destruct r'; [done|]. cbn [plug]. apply root_plug. left. by rewrite Ht', root_fill.
  - destruct (black_uncle_ok m ct tl pt vt tr f g ctx s2 Ho Hr Hs2) as (m1 & p & -> & Hr1 & Ho1 & Hp).
    assert (Hshape : exists l v r, lined (Node ct tl pt vt tr) f g = Node BLACK l p v r).
    { unfold lined in *. destruct (on_left g), (on_left f); injection Hp as <-; eauto. }
    destruct Hshape as (l & v & r & E). rewrite E in *. destruct fuel as [|fuel]; [cbn in Hfuel; lia|].
    destruct (balance_black m1 l p v r ctx s2 fuel Ho1 Hr1 Hs2) as (r' & m' & -> & Hr' & Hroot & Hnil). exists r', m'. split; [done|]. split; [done|]. split; [done|].
    rewrite Hroot. destruct r'; [done|]. destruct ctx as [|h ctx]; [by specialize (Hnil eq_refl)|]. cbn [plug]. apply root_plug. left. by rewrite !root_fill.
Qed.

End Balance.

(** ** Insertion *)

(** The frames passed on the way down. *)
Fixpoint way (t : tree) (v : Z) (ctx : list frame) : list frame :=
  match t with
  | Leaf => ctx
  | Node c l p x r => if v <? x then way l v (mkF true c p x r :: ctx) else way r v (mkF false c p x l :: ctx)
  end.

Fixpoint bst_insert (t : tree) (v : Z) (ph : nat) : tree :=
  match t with
  | Leaf => Node RED Leaf ph v Leaf
  | Node c l p x r => if v <? x then Node c (bst_insert l v ph) p x r else Node c l p x (bst_insert r v ph)
  end.

Definition rb_insert (t : tree) (v : Z) (ph : nat) : tree := balance_up (Node RED Leaf ph v Leaf) (way t v []).

Lemma plug_way t v : forall ctx, plug Leaf (way t v ctx) = plug t ctx.
Proof. induction t as [|c l IHl p x r IHr]; intros ctx; [done|]. cbn [way]. destruct (v <? x); [rewrite IHl|rewrite IHr]; done. Qed.

Lemma plug_way_insert t v ph : forall ctx, plug (Node RED Leaf ph v Leaf) (way t v ctx) = plug (bst_insert t v ph) ctx.
Proof. induction t as [|c l IHl p x r IHr]; intros ctx; [done|]. cbn [way bst_insert]. destruct (v <? x); [rewrite IHl|rewrite IHr]; done. Qed.

Lemma way_head t v : forall ctx, (forall f, head ctx = Some f -> on_left f = (v <? f_value f)) ->
  forall f, head (way t v ctx) = Some f -> on_left f = (v <? f_value f).
Proof.
  induction t as [|c l IHl p x r IHr]; intros ctx H; [done|]. cbn [way]. destruct (v <? x) eqn:E; [apply IHl|apply IHr]; intros f [= <-]; by cbn.
Qed.

Lemma way_last t v : forall ctx, ctx <> [] -> list.last (way t v ctx) = list.last ctx.
Proof.
  induction t as [|c l IHl p x r IHr]; intros ctx H; [done|]. cbn [way]. destruct ctx as [|f ctx]; [done|].
  destruct (v <? x); [rewrite IHl by done|rewrite IHr by done]; by rewrite last_cons_cons.
Qed.

Lemma way_last_black t v : color_of t = BLACK -> last_black (way t v []).
Proof.
  destruct t as [|c l p x r]; [done|]. cbn. intros -> f. destruct (v <? x); rewrite way_last by done; cbn; by intros [= <-].
Qed.

Lemma repr_elem m t p : repr m t -> p ∈ cells t -> is_Some (m !! p).
Proof.
  induction t as [|c l IHl q v r IHr]; cbn [cells repr]; [by intros _ ?%not_elem_of_nil|]. intros (H1 & H2 & H3) [->|[Hp|Hp]%elem_of_app]%elem_of_cons; eauto.
Qed.

Lemma cells_size m t : owned t -> repr m t -> (length (cells t) <= size m)%nat.
Proof.
  intros Ho Hr. rewrite <- (size_list_to_set (C := gset nat) (cells t)) by done. rewrite <- (size_dom (D := gset nat) m). apply subseteq_size.
  intros p. rewrite elem_of_list_to_set, elem_of_dom. by apply repr_elem.
Qed.

Lemma length_ctx ctx : (length ctx <= length (ctx_cells ctx))%nat.
Proof. induction ctx as [|f ctx IH]; [done|]. rewrite ctx_cells_cons. cbn [length]. rewrite length_app. lia. Qed.

Section Insertion.
Context {I : StackImpl nat}.

Lemma descend_ok fuel : forall m t v ctx s, (length (cells t) < fuel)%nat -> repr m t -> holds s (f_cell <$> ctx) ->
  exists s', descend fuel m (root_of t) v s = Ok s' /\ holds s' (f_cell <$> way t v ctx).
Proof.
  induction fuel as [|fuel IH]; intros m t v ctx s Hf Hr Hs; [lia|]. destruct t as [|c l p x r]; [by exists s|]. cbn [root_of descend way].
  destruct (Push_holds s _ p Hs) as (s' & -> & Hs'). destruct Hr as (Hp & Hl & Hr). rewrite (rb_cell_ok _ _ _ Hp). cbn [value leftChild rightChild]. unfold BST_TO_LEFT.
  cbn in Hf. rewrite length_app in Hf. destruct (v <? x); apply IH; try done; lia.
Qed.

Lemma Insert_ok m t v ph : owned t -> repr m t -> color_of t = BLACK -> ph ∉ cells t ->
  exists m', Insert m (root_of t) v ph = Ok (root_of (rb_insert t v ph), m') /\ repr m' (rb_insert t v ph) /\ owned (rb_insert t v ph).
Proof.
  intros Ho Hr Hc Hph. unfold Insert. pose proof (cells_size m t Ho Hr) as Hsz.
  destruct (descend_ok (S (size m)) m t v [] MakeStack ltac:(lia) Hr MakeStack_holds) as (s & -> & Hs). rewrite (top_ok _ _ Hs), head_cells.
  unfold rb_insert. pose proof (way_last_black t v Hc) as Hlast. pose proof (way_head t v [] ltac:(done)) as Hhead.
  pose proof (plug_way t v []) as Ht. cbn [plug] in Ht. set (ctx := way t v []) in *. set (t' := Node RED Leaf ph v Leaf).
  assert (Ho' : owned (plug t' ctx)).
  { apply owned_plug. rewrite <- Ht in Hph, Ho. rewrite cells_plug in Hph. apply owned_plug in Ho as (_ & _ & Ho). cbn in *. split; [apply NoDup_singleton|].
    split; [|done]. by intros p ->%list_elem_of_singleton. }
  assert (Hm : repr (MakeNode m v ph) t) by (by apply repr_insert).
  assert (Hstep : exists m2, match above ctx with
      | None => Ok (Some ph, MakeNode m v ph)
      | Some p => let* n := get (MakeNode m v ph) p in
                  let* m := if BST_TO_LEFT v (value n) then set_leftChild (MakeNode m v ph) p (Some ph) else set_rightChild (MakeNode m v ph) p (Some ph) in
                  Ok (root_of t, m)
      end = Ok (root_of (plug t' ctx), m2) /\ repr m2 (plug t' ctx)).
  { rewrite <- Ht in Hm. apply repr_plug in Hm as [_ Hm]. rewrite <- Ht in Hph. rewrite cells_plug in Hph. cbn [cells app] in Hph. destruct ctx as [|f ctx'] eqn:Ec.
    - exists (MakeNode m v ph). split; [done|]. cbn. unfold MakeNode. by rewrite lookup_insert_eq.
    - cbn [above head fmap option_fmap option_map]. destruct Hm as (Hf & Hsib & Hctx). rewrite (rb_cell_ok _ _ _ Hf).
      apply owned_plug in Ho' as (_ & Hd & Hnd). rewrite ctx_cells_cons in Hnd, Hph.
      apply not_elem_of_cons in Hph as [Hp1 [Hp2 Hp3]%not_elem_of_app]. apply NoDup_cons in Hnd as [[Hn1 Hn2]%not_elem_of_app _].
      assert (Hv : value (frame_node f (root_of Leaf)) = f_value f) by (unfold frame_node; by destruct (on_left f)). unfold BST_TO_LEFT. rewrite Hv, <- (Hhead f eq_refl).
      exists (<[f_cell f := frame_node f (Some ph)]> (MakeNode m v ph)). split.
      + rewrite <- Ht. rewrite (root_plug (f :: ctx') Leaf t' ltac:(by right)). unfold set_leftChild, set_rightChild. rewrite (rb_cell_ok _ _ _ Hf). unfold frame_node. by destruct (on_left f).
      + apply repr_plug. split.
        * cbn. unfold MakeNode. rewrite lookup_insert_ne, lookup_insert_eq by done. done.
        * cbn [repr_ctx root_of t']. rewrite lookup_insert_eq. split; [done|]. split; [by apply repr_insert|by apply repr_ctx_insert]. }
  destruct Hstep as (m2 & -> & Hr2). pose proof (cells_size m2 _ Ho' Hr2) as Hsz2. rewrite cells_plug, length_app in Hsz2. pose proof (length_ctx ctx) as Hlen. cbn [length cells t'] in Hsz2.
  destruct (balance_ok (S (size m2)) m2 t' ctx s ph) as (r & m' & -> & Hr' & Ho'' & Hroot); try done; [lia|]. exists m'. by rewrite Hroot.
Qed.

End Insertion.

(** ** The invariants *)

(** A tree without a red child of a red node in which every way down meets [n] black
    nodes, the empty tree counted as one. *)
Inductive rb : tree -> Color -> nat -> Prop :=
| rb_leaf : rb Leaf BLACK 1
| rb_red l p v r n : rb l BLACK n -> rb r BLACK n -> rb (Node RED l p v r) RED n
| rb_black l p v r n c1 c2 : rb l c1 n -> rb r c2 n -> rb (Node BLACK l p v r) BLACK (S n).

(** Frames that accept a tree of black height [n]; the colour is that of the node above the
    hole. *)
Inductive rb_ctx : list frame -> Color -> nat -> Prop :=
| ctx_nil n : rb_ctx [] BLACK n
| ctx_red b p v s ctx n : ctx <> [] -> rb s BLACK n -> rb_ctx ctx BLACK n -> rb_ctx (mkF b RED p v s :: ctx) RED n
| ctx_black b p v s ctx n c c' : rb s c n -> rb_ctx ctx c' (S n) -> rb_ctx (mkF b BLACK p v s :: ctx) BLACK n.

#[local] Hint Constructors rb rb_ctx : core.

Lemma rb_color t c n : rb t c n -> color_of t = c.
Proof. by destruct 1. Qed.

(** A tree in a hole it fits. *)
Lemma rb_plug ctx : forall t c pc n, rb t c n -> rb_ctx ctx pc n -> (pc = RED -> c = BLACK) -> (ctx = [] -> c = BLACK) -> exists k, rb (plug t ctx) BLACK k.
Proof.
  induction ctx as [|f ctx IH]; intros t c pc n Ht Hc Hfit Hnil; cbn [plug]; [rewrite Hnil in Ht by done; eauto|].
  inversion Hc as [|b p v s ctx' n' Hne Hs Hctx|b p v s ctx' n' c1 c2 Hs Hctx]; subst; unfold fill; cbn [on_left f_color f_cell f_value sibling].
  - rewrite Hfit in Ht by done. destruct b; (eapply IH; [eauto|exact Hctx|done|done]).
  - destruct b; (eapply IH; [eauto|exact Hctx|done|done]).
Qed.

Lemma rb_unplug ctx : forall t k, rb (plug t ctx) BLACK k -> exists c pc n, rb t c n /\ rb_ctx ctx pc n /\ (pc = RED -> c = BLACK) /\ (ctx = [] -> c = BLACK).
Proof.
  induction ctx as [|f ctx IH]; intros t k H; cbn [plug] in H; [exists BLACK, BLACK, k; eauto|].
  destruct (IH _ _ H) as (c & pc & n & Hf & Hctx & Hfit & Hnil). destruct f as [b fc p v s]. unfold fill in Hf. cbn in Hf.
  destruct b; inversion Hf as [|l p' v' r n' Hl Hr|l p' v' r n' c1 c2 Hl Hr]; subst;
    try (assert (pc = BLACK) as -> by (destruct pc; [by specialize (Hfit eq_refl)|done]); exists BLACK, RED, n; repeat split; eauto; constructor; eauto; intros ->; by specialize (Hnil eq_refl)).
  - exists c1, BLACK, n'. repeat split; eauto; done.
  - exists c2, BLACK, n'. repeat split; eauto; done.
Qed.

Lemma rb_lined t f g n : rb t RED n -> f_color f = RED -> rb (sibling f) BLACK n -> rb (sibling g) BLACK n -> rb (lined t f g) BLACK (S n).
Proof.
  intros Ht Hf Hsf Hsg. inversion Ht as [|l p v r n' Hl Hr|]; subst. unfold lined. rewrite Hf. destruct (on_left g), (on_left f); eauto.
Qed.

Lemma rb_blacken t n : rb t RED n -> rb (blacken t) BLACK (S n).
Proof. inversion 1; subst. cbn. eauto. Qed.

Lemma rb_balance k : forall ctx t pc n, (length ctx <= k)%nat -> rb t RED n -> rb_ctx ctx pc n -> exists h, rb (balance_up t ctx) BLACK h.
Proof.
  induction k as [|k IH]; intros ctx t pc n Hk Ht Hctx; (destruct ctx as [|f ctx]; [exists (S n); by apply rb_blacken|]); [cbn in Hk; lia|].
  cbn [balance_up]. rewrite (rb_color _ _ _ Ht). rewrite (bool_decide_eq_false_2 (RED = BLACK)) by done. cbn [orb]. pose proof Hctx as Hwhole.
  inversion Hctx as [|b p v s ctx' n' Hne Hs Hc|b p v s ctx' n' c1 c2 Hs Hc]; subst; cbn [f_color].
  2:{ rewrite bool_decide_eq_true_2 by done. by eapply (rb_plug _ t RED BLACK n). }
  rewrite bool_decide_eq_false_2 by done. destruct ctx as [|g ctx]; [done|]. inversion Hc as [|b' p' v' s' ctx' n' c1 c2 Hs' Hc'|b' p' v' s' ctx' n' c1 c2 Hs' Hc']; subst.
  cbn [sibling]. destruct (bool_decide (color_of s' = RED)) eqn:E.
  - apply bool_decide_eq_true in E. rewrite (rb_color _ _ _ Hs') in E. subst c1. eapply (IH ctx _ c2 (S n)); [cbn in Hk; lia| |done].
    apply rb_blacken in Hs'. unfold fill. cbn [on_left f_color f_cell f_value sibling recolor]. destruct b', b; eauto.
  - apply bool_decide_eq_false in E. assert (c1 = BLACK) as -> by (rewrite (rb_color _ _ _ Hs') in E; by destruct c1).
    eapply (rb_plug ctx _ BLACK c2 (S n)); [|done|done|done]. by apply rb_lined.
Qed.

Lemma rb_insert_rb t v ph n : rb t BLACK n -> exists h, rb (rb_insert t v ph) BLACK h.
Proof.
  intros Ht. pose proof (plug_way t v []) as E. cbn [plug] in E. rewrite <- E in Ht. destruct (rb_unplug _ _ _ Ht) as (c & pc & k & Hl & Hctx & _ & _).
  assert (k = 1%nat) as -> by (by inversion Hl). unfold rb_insert. eapply (rb_balance _ _ _ pc 1); [done| |done]. eauto.
Qed.

(** ** What the tree holds *)

Lemma inorder_plug ctx : forall t t', inorder t = inorder t' -> inorder (plug t ctx) = inorder (plug t' ctx).
Proof. induction ctx as [|f ctx IH]; intros t t' E; [done|]. cbn [plug]. apply IH. unfold fill. destruct (on_left f); cbn; by rewrite E. Qed.

Lemma cells_plug_same ctx t t' : cells t ≡ₚ cells t' -> cells (plug t ctx) ≡ₚ cells (plug t' ctx).
Proof. intros E. by rewrite !cells_plug, E. Qed.

Lemma blacken_same t : inorder (blacken t) = inorder t /\ cells (blacken t) = cells t.
Proof. by destruct t. Qed.

Lemma lined_same t f g : color_of t = RED ->
  inorder (lined t f g) = inorder (fill g (fill f t)) /\ cells (lined t f g) ≡ₚ cells (fill g (fill f t)).
Proof.
  destruct t as [|c l p v r]; [done|]. intros _. unfold lined, fill. destruct (on_left g), (on_left f); cbn; rewrite <- ?app_assoc; cbn; rewrite <- ?app_assoc; (split; [done|]); solve_Permutation.
Qed.

Lemma balance_same k : forall ctx t, (length ctx <= k)%nat -> inorder (balance_up t ctx) = inorder (plug t ctx) /\ cells (balance_up t ctx) ≡ₚ cells (plug t ctx).
Proof.
  induction k as [|k IH]; intros ctx t Hk; (destruct ctx as [|f ctx]; [destruct (blacken_same t) as [H1 H2]; cbn; by rewrite H1, H2|]); [cbn in Hk; lia|].
  cbn [balance_up]. destruct (bool_decide (color_of t = BLACK)) eqn:Ec; [done|]. destruct (bool_decide (f_color f = BLACK)); [done|]. cbn [orb].
  destruct ctx as [|g ctx]; [done|]. apply bool_decide_eq_false in Ec. assert (Hred : color_of t = RED) by (by destruct (color_of t)). cbn [plug].
  destruct (bool_decide (color_of (sibling g) = RED)).
  - destruct (IH ctx (fill (mkF (on_left g) RED (f_cell g) (f_value g) (blacken (sibling g))) (fill (recolor BLACK f) t)) ltac:(cbn in Hk; lia)) as [-> ->].
    destruct (blacken_same (sibling g)) as [H1 H2]. split; [apply inorder_plug|apply cells_plug_same]; unfold fill, recolor; cbn [on_left f_color f_cell f_value sibling];
      destruct (on_left g), (on_left f); cbn; by rewrite ?H1, ?H2.
  - destruct (lined_same t f g Hred) as [H1 H2]. split; [by apply inorder_plug|by apply cells_plug_same].
Qed.

Lemma insert_same t v ph : inorder (rb_insert t v ph) = inorder (bst_insert t v ph) /\ cells (rb_insert t v ph) ≡ₚ cells (bst_insert t v ph).
Proof. unfold rb_insert. destruct (balance_same _ (way t v []) (Node RED Leaf ph v Leaf) (le_n _)) as [-> ->]. by rewrite plug_way_insert. Qed.

Lemma bst_insert_holds t v ph : cells (bst_insert t v ph) ≡ₚ ph :: cells t /\ inorder (bst_insert t v ph) ≡ₚ v :: inorder t /\
  (StronglySorted Z.le (inorder t) -> StronglySorted Z.le (inorder (bst_insert t v ph))).
Proof.
  induction t as [|c l (Hc1 & Hi1 & Hs1) p x r (Hc2 & Hi2 & Hs2)]; cbn [bst_insert cells inorder]; [split; [done|]; split; [done|]; intros _; by repeat constructor|].
  destruct (Z.ltb_spec v x); cbn [cells inorder].
  - split; [rewrite Hc1; solve_Permutation|]. split; [by rewrite Hi1|]. apply (sorted_insert_left v); [lia|done|done].
  - split; [rewrite Hc2; solve_Permutation|]. split; [rewrite Hi2; solve_Permutation|]. apply (sorted_insert_right v); [lia|done|done].
Qed.

Definition extra (c : Color) : Z := match c with RED => 1 | BLACK => 0 end.

Lemma rb_size t c n : rb t c n -> (0 < n)%nat /\
  2 ^ (Z.of_nat n - 1) <= zlen (inorder t) + 1 <= 2 ^ (2 * (Z.of_nat n - 1) + extra c).
Proof.
  induction 1 as [|l p v r n _ (Hn & IHl) _ (_ & IHr)|l p v r n c1 c2 _ (Hn & IHl) _ (_ & IHr)]; [split; [lia|]; vm_compute; split; discriminate|..]; (split; [lia|]); cbn [inorder extra] in *; rewrite zlen_app, zlen_cons.
  - replace (2 * (Z.of_nat n - 1) + 1) with (Z.succ (2 * (Z.of_nat n - 1) + 0)) by lia. rewrite Z.pow_succ_r by lia. lia.
  - replace (Z.of_nat (S n) - 1) with (Z.succ (Z.of_nat n - 1)) by lia. rewrite Z.pow_succ_r by lia.
    assert (Hle : forall c : Color, 2 ^ (2 * (Z.of_nat n - 1) + extra c) <= 2 ^ (2 * (Z.of_nat n - 1) + 1)) by (intros []; cbn [extra]; apply Z.pow_le_mono_r; lia).
    replace (2 * Z.succ (Z.of_nat n - 1) + 0) with (Z.succ (2 * (Z.of_nat n - 1) + 1)) by lia. rewrite Z.pow_succ_r by lia. pose proof (Hle c1). pose proof (Hle c2). lia.
Qed.

Lemma black_height_ok t c n : rb t c n -> forall m fuel, repr m t -> (length (cells t) < fuel)%nat -> Z.of_nat n < 2 ^ 31 ->
  CalculateBlackHeight fuel m (root_of t) = Ok (Z.of_nat n).
Proof.
  induction 1 as [|l p v r n _ IHl _ IHr|l p v r n c1 c2 _ IHl _ IHr]; intros m fuel Hr Hf Hn; (destruct fuel as [|fuel]; [lia|]); [done|..];
    destruct Hr as (Hp & Hrl & Hrr); cbn [root_of CalculateBlackHeight]; rewrite (rb_cell_ok _ _ _ Hp); cbn [leftChild rightChild color];
    cbn in Hf; rewrite length_app in Hf; rewrite IHl, IHr by (done || lia); rewrite Z.ltb_irrefl.
  - rewrite bool_decide_eq_false_2, s32_ok by (done || lia). f_equal. lia.
  - rewrite bool_decide_eq_true_2, s32_ok by (done || lia). f_equal. lia.
Qed.

(** ** The theorems *)

(** The cells hold the tree [t] from the root on: a search tree with the red-black
    invariants, in which no cell is shared. *)
Record rb_tree (m : memory) (t : tree) (n : nat) : Prop := {
  t_repr : repr m t;
  t_owned : owned t;
  t_rb : rb t BLACK n;
  t_sorted : StronglySorted Z.le (inorder t)
}.

Section Theorems.
Context {I : StackImpl nat}.

Lemma insert_correct m t n v ph : rb_tree m t n -> ph ∉ cells t ->
  exists m' t' n', Insert m (root_of t) v ph = Ok (root_of t', m') /\ rb_tree m' t' n' /\ inorder t' ≡ₚ v :: inorder t /\ cells t' ≡ₚ ph :: cells t.
Proof.
  intros [Hr Ho Hrb Hs] Hph. destruct (Insert_ok m t v ph Ho Hr (rb_color _ _ _ Hrb) Hph) as (m' & -> & Hr' & Ho').
  destruct (rb_insert_rb t v ph n Hrb) as (n' & Hrb'). destruct (insert_same t v ph) as [Hi Hc]. destruct (bst_insert_holds t v ph) as (Hc2 & Hi2 & Hs2).
  exists m', (rb_insert t v ph), n'. split; [done|]. rewrite Hi, Hc. split; [|done]. split; [done|done|done|]. rewrite Hi. auto.
Qed.

Lemma insert_loop_ok xs : forall i m t n rest, rb_tree m t n -> (forall p, p ∈ cells t -> (p < i)%nat) ->
  exists m' t' n', insert_loop (length xs) i m (root_of t) (map Int xs ++ rest) = Ok (root_of t', m') /\ rb_tree m' t' n' /\ inorder t' ≡ₚ xs ++ inorder t.
Proof.
  induction xs as [|x xs IH]; intros i m t n rest Ht Hi; cbn [length map insert_loop app scan_token]; [by exists m, t, n|].
  destruct (insert_correct m t n x i Ht) as (m1 & t1 & n1 & -> & Ht1 & Hp1 & Hc1). { intros Hin%Hi. lia. }
  destruct (IH (S i) m1 t1 n1 rest Ht1) as (m2 & t2 & n2 & -> & Ht2 & Hp2).
  { intros p. rewrite Hc1. intros [->|Hin%Hi]%elem_of_cons; lia. }
  exists m2, t2, n2. split; [done|]. split; [done|]. rewrite Hp2, Hp1. solve_Permutation.
Qed.

End Theorems.

(** C10.  [Insert] keeps the red-black invariants: into cells that hold a search tree with a
    black root, no red child of a red node and the same number of black nodes on every way
    down, it puts the new value and returns the root of such a tree again, with exactly
    the new value and the new cell added; no dereference fails and no assertion, with
    any implementation of the stack. *)
Theorem rb_insert_correct (I : StackImpl nat) (m : gmap nat RBNode) (t : tree) (n : nat) (v : Z) (placeholder : nat) :
  rb_tree m t n -> placeholder ∉ cells t ->
  exists m' t' n', Insert m (root_of t) v placeholder = Ok (root_of t', m') /\ rb_tree m' t' n' /\
    inorder t' ≡ₚ v :: inorder t /\ cells t' ≡ₚ placeholder :: cells t.
Proof. apply insert_correct. Qed.

Lemma empty_tree : rb_tree ∅ Leaf 1.
Proof. split; [done|apply NoDup_nil_2|constructor|constructor]. Qed.

Lemma rb_insert_correct_witness :
  exists m' t' n', Insert (I := BlockStack nat) ∅ None 7 0 = Ok (root_of t', m') /\ rb_tree m' t' n' /\ inorder t' ≡ₚ [7] /\ cells t' ≡ₚ [0%nat].
Proof. exact (rb_insert_correct (BlockStack nat) ∅ Leaf 1 7 0 empty_tree (not_elem_of_nil _)). Defined.

(** The red-black tree program prints the black height [n] of a red-black tree of exactly
    the numbers it read, and with [k] numbers [n] is between [log2 (k + 1) / 2 + 1] and
    [log2 (k + 1) + 1]; for no numbers it prints 0. *)
Theorem rb_program (xs : list Z) (rest : list token) : zlen xs < 2 ^ 31 ->
  (xs = [] -> main (I := BlockStack nat) (Int (zlen xs) :: map Int xs ++ rest) = Err (Exited 0 "0")) /\
  (xs <> [] -> exists m t n, rb_tree m t n /\ inorder t ≡ₚ xs /\
    main (I := BlockStack nat) (Int (zlen xs) :: map Int xs ++ rest) = Ok (Z.of_nat n) /\
    2 ^ (Z.of_nat n - 1) <= zlen xs + 1 <= 4 ^ (Z.of_nat n - 1)).
Proof.
  intros Hlen. split; [by intros ->|]. intros Hne. destruct (insert_loop_ok (I := BlockStack nat) xs 0 ∅ Leaf 1 rest empty_tree) as (m & t & n & Hl & Ht & Hp); [by intros p ?%not_elem_of_nil|].
  change (root_of Leaf) with (@None nat) in Hl. cbn [inorder] in Hp. rewrite app_nil_r in Hp. exists m, t, n. destruct Ht as [Hr Ho Hrb Hs]. split; [by split|]. split; [done|].
  destruct (rb_size t BLACK n Hrb) as [Hn Hsize]. assert (Hz : zlen (inorder t) = zlen xs) by (unfold zlen; by rewrite Hp). rewrite Hz in Hsize. cbn [extra] in Hsize. rewrite Z.add_0_r in Hsize.
  rewrite Z.pow_mul_r in Hsize by lia. change (2 ^ 2) with 4 in Hsize. split; [|done]. unfold main. cbn [scan_token].
  destruct (Z.eqb_spec (zlen xs) 0) as [E|_]; [destruct xs; [done|rewrite zlen_cons in E; pose proof (zlen_nonneg xs); lia]|].
  replace (Z.to_nat (zlen xs)) with (length xs) by (unfold zlen; lia). rewrite Hl. pose proof (cells_size m t Ho Hr). eapply black_height_ok; [done|done|lia|].
  destruct (Z.le_gt_cases 32 (Z.of_nat n - 1)) as [Hbig|]; [|lia]. pose proof (Z.pow_le_mono_r 2 32 (Z.of_nat n - 1) ltac:(lia) Hbig). lia.
Qed.

Lemma rb_program_witness : exists m t n, rb_tree m t n /\ inorder t ≡ₚ [5; 1; 3] /\
    main (I := BlockStack nat) (Int 3 :: map Int [5; 1; 3] ++ []) = Ok (Z.of_nat n) /\ 2 ^ (Z.of_nat n - 1) <= 4 <= 4 ^ (Z.of_nat n - 1).
Proof. apply (proj2 (rb_program [5; 1; 3] [] eq_refl)). discriminate. Defined.
