(* ===== verification/BitStream.v ===== *)
(** * C-Labs/Huffman_archiver/src/BitStream.c

    Bits packed into the bytes of a file, the first bit in the highest position.
    Of a stream that is written, [file] is what the file holds so far; of a stream
    that is read, what is still to be read. *)
From S2P Require Import Prelude.

Record BitStream := mkBits {
  file : list Z;
  buffer : Z;
  bufferedBitsCount : Z
}.

Definition EOF : Z := -1.
Definition bufferCapacity : Z := 8.

Definition OpenBitStream (f : list Z) : BitStream := mkBits f 0 0.

Definition Flush (s : BitStream) : BitStream :=
  if negb (bufferedBitsCount s =? 0) then mkBits (file s ++ [buffer s]) 0 0 else s.

(** The file that is left after [CloseBitStream] on a stream that was written. *)
Definition CloseBitStream (s : BitStream) : list Z := file (Flush s).

Definition WriteBit (s : BitStream) (bit : bool) : BitStream :=
  let s := mkBits (file s)
    (u8 (Z.lor (buffer s) (Z.shiftl (Z.b2z bit) (bufferCapacity - bufferedBitsCount s - 1))))
    (u8 (bufferedBitsCount s + 1)) in
  if bufferedBitsCount s =? bufferCapacity then Flush s else s.

(** [for (i = 0; i < 8; ++i) WriteBit(s, byte & (0x1 << i))] *)
Definition WriteByte (s : BitStream) (byte : Z) : BitStream :=
  foldl (fun s i => WriteBit s (negb (Z.land byte (Z.shiftl 1 i) =? 0))) s (seqZ 0 8).

Definition WriteByteArray (s : BitStream) (array : list Z) : BitStream := foldl WriteByte s array.

Definition ReadBit (s : BitStream) : Z * BitStream :=
  let take_bit s :=
    let n := bufferedBitsCount s - 1 in
    (Z.b2z (negb (Z.land (buffer s) (Z.shiftl 1 n) =? 0)), mkBits (file s) (buffer s) n) in
  if bufferedBitsCount s =? 0 then
    match file s with
    | [] => (EOF, s)
    | byte :: rest => take_bit (mkBits rest byte bufferCapacity)
    end
  else take_bit s.

Fixpoint read_byte (ix : list Z) (byte : Z) (s : BitStream) : Z * BitStream :=
  match ix with
  | [] => (byte, s)
  | i :: ix =>
      let '(bit, s) := ReadBit s in
      if bit =? EOF then (EOF, s)
      else read_byte ix (u8 (Z.lor byte (Z.shiftl bit i))) s
  end.

Definition ReadByte (s : BitStream) : Z * BitStream := read_byte (seqZ 0 8) 0 s.

Fixpoint ReadByteArray (s : BitStream) (sz : nat) : list Z * BitStream :=
  match sz with
  | O => ([], s)
  | S sz =>
      let '(byte, s) := ReadByte s in
      let '(rest, s) := ReadByteArray s sz in
      (u8 byte :: rest, s)
  end.

(** ** Streams as lists of bits *)

(** The bits of a byte in the order they are packed, and in the order
    [WriteByte] writes them. *)
Definition packed (byte : Z) : list bool := map (fun i => Z.testbit byte (7 - i)) (seqZ 0 8).
Definition byte_bits (byte : Z) : list bool := map (Z.testbit byte) (seqZ 0 8).

Definition written (s : BitStream) : list bool :=
  flat_map packed (file s) ++ take (Z.to_nat (bufferedBitsCount s)) (packed (buffer s)).

Definition unread (s : BitStream) : list bool :=
  drop (Z.to_nat (8 - bufferedBitsCount s)) (packed (buffer s)) ++ flat_map packed (file s).

(** A stream that is being written: the unused positions of the buffer are 0. *)
Record writing (s : BitStream) : Prop := {
  wr_count : 0 <= bufferedBitsCount s < 8;
  wr_buffer : 0 <= buffer s < 256;
  wr_unused : buffer s mod 2 ^ (8 - bufferedBitsCount s) = 0
}.

Definition reading (s : BitStream) : Prop := 0 <= bufferedBitsCount s <= 8.

(** Facts on bytes are checked for every byte. *)
Lemma all_bytes (P : Z -> bool) :
  forallb P (seqZ 0 256) = true -> forall b, 0 <= b < 256 -> P b = true.
Proof.
  rewrite forallb_forall. intros H b Hb. apply H, list_elem_of_In, elem_of_seqZ. lia.
Qed.

(** What [WriteBit] does to a buffer [b] with [c] bits. *)
Definition push_ok (b c : Z) (bit : bool) : bool :=
  let b' := u8 (Z.lor b (Z.shiftl (Z.b2z bit) (bufferCapacity - c - 1))) in
  implb (b mod 2 ^ (8 - c) =? 0)
    ((0 <=? b') && (b' <? 256) && (b' mod 2 ^ (8 - (c + 1)) =? 0) &&
     bool_decide (take (Z.to_nat (c + 1)) (packed b') = take (Z.to_nat c) (packed b) ++ [bit])).

Lemma push_ok_all (b c : Z) (bit : bool) : 0 <= b < 256 -> 0 <= c < 8 -> push_ok b c bit = true.
Proof.
  intros Hb Hc.
  assert (H : forallb (fun b => forallb (fun c => push_ok b c true && push_ok b c false) (seqZ 0 8))
                (seqZ 0 256) = true) by (vm_compute; reflexivity).
  pose proof (all_bytes _ H b Hb) as H'. cbn beta in H'. rewrite forallb_forall in H'.
  specialize (H' c). apply andb_prop in H' as [Ht Hf].
  - by destruct bit.
  - apply list_elem_of_In, elem_of_seqZ. lia.
Qed.

Lemma WriteBit_spec (s : BitStream) (bit : bool) :
  writing s -> writing (WriteBit s bit) /\ written (WriteBit s bit) = written s ++ [bit].
Proof.
  intros [Hc Hb Hu]. destruct s as [f b c]. cbn in *.
  pose proof (push_ok_all b c bit Hb Hc) as Hp. unfold push_ok in Hp.
  rewrite Hu in Hp. cbn [implb Z.eqb] in Hp.
  apply andb_prop in Hp as [[[H1 H2]%andb_prop H3]%andb_prop H4].
  apply Z.leb_le in H1. apply Z.ltb_lt in H2. apply Z.eqb_eq in H3. apply bool_decide_eq_true in H4.
  unfold WriteBit, bufferCapacity in *. cbn [file buffer bufferedBitsCount].
  rewrite (u8_small (c + 1)) by lia.
  set (b' := u8 _) in *. unfold written. cbn [file buffer bufferedBitsCount]. rewrite <- app_assoc, <- H4.
  destruct (Z.eqb_spec (c + 1) 8) as [E|].
  - unfold Flush. cbn [file buffer bufferedBitsCount]. rewrite E. cbn. split; [by split|].
    rewrite flat_map_app. cbn. by rewrite !app_nil_r.
  - cbn [file buffer bufferedBitsCount]. split; [|done]. split; cbn; [lia|lia|done].
Qed.

Lemma write_bits_spec {A} (f : A -> bool) (xs : list A) :
  forall s, writing s ->
  writing (foldl (fun s i => WriteBit s (f i)) s xs) /\
  written (foldl (fun s i => WriteBit s (f i)) s xs) = written s ++ map f xs.
Proof.
  induction xs as [|x xs IH]; intros s Hs; cbn; [by rewrite app_nil_r|].
  destruct (WriteBit_spec s (f x) Hs) as [Hs' E]. destruct (IH _ Hs') as [H1 H2].
  split; [done|]. by rewrite H2, E, <- app_assoc.
Qed.

Lemma land_bit (z i : Z) : 0 <= i -> negb (Z.land z (Z.shiftl 1 i) =? 0) = Z.testbit z i.
Proof.
  intros Hi. rewrite Z.shiftl_1_l. destruct (Z.eqb_spec (Z.land z (2 ^ i)) 0) as [E|E]; cbn.
  - assert (H : Z.testbit (Z.land z (2 ^ i)) i = false) by (by rewrite E, Z.bits_0).
    rewrite Z.land_spec, Z.pow2_bits_true, andb_true_r in H by lia. done.
  - destruct (Z.testbit z i) eqn:Et; [done|]. destruct E. apply Z.bits_inj'. intros n Hn.
    rewrite Z.land_spec, Z.bits_0. destruct (Z.eq_dec i n) as [<-|]; [by rewrite Et|].
    rewrite Z.pow2_bits_false by done. apply andb_false_r.
Qed.

Lemma WriteByte_spec (s : BitStream) (byte : Z) :
  writing s -> writing (WriteByte s byte) /\ written (WriteByte s byte) = written s ++ byte_bits byte.
Proof.
  intros Hs. destruct (write_bits_spec (fun i => negb (Z.land byte (Z.shiftl 1 i) =? 0)) (seqZ 0 8) s Hs)
    as [H1 H2]. split; [done|]. unfold WriteByte. rewrite H2. f_equal. unfold byte_bits.
  apply map_ext_in. intros i Hi%list_elem_of_In. apply elem_of_seqZ in Hi. apply land_bit. lia.
Qed.

Lemma WriteByteArray_spec (array : list Z) :
  forall s, writing s -> writing (WriteByteArray s array) /\
  written (WriteByteArray s array) = written s ++ flat_map byte_bits array.
Proof.
  induction array as [|b array IH]; intros s Hs; cbn; [by rewrite app_nil_r|].
  destruct (WriteByte_spec s b Hs) as [Hs' E]. destruct (IH _ Hs') as [H1 H2].
  split; [done|]. unfold WriteByteArray in *. by rewrite H2, E, <- app_assoc.
Qed.

Lemma open_writing : writing (OpenBitStream []) /\ written (OpenBitStream []) = [].
Proof. by repeat split. Qed.

(** Closing keeps the bits written and pads the last byte. *)
Lemma CloseBitStream_spec (s : BitStream) :
  writing s -> exists pad, flat_map packed (CloseBitStream s) = written s ++ pad.
Proof.
  intros [Hc Hb Hu]. destruct s as [f b c]. unfold CloseBitStream, Flush, written. cbn in *.
  destruct (Z.eqb_spec c 0) as [->|]; cbn; [exists []; by rewrite !app_nil_r|].
  rewrite flat_map_app. cbn [flat_map]. rewrite app_nil_r. exists (drop (Z.to_nat c) (packed b)).
  by rewrite <- app_assoc, take_drop.
Qed.

(** ** Reading *)

Lemma drop_packed (b c : Z) :
  1 <= c <= 8 ->
  drop (Z.to_nat (8 - c)) (packed b) = Z.testbit b (c - 1) :: drop (Z.to_nat (8 - (c - 1))) (packed b).
Proof.
  intros Hc. assert (c = 1 \/ c = 2 \/ c = 3 \/ c = 4 \/ c = 5 \/ c = 6 \/ c = 7 \/ c = 8) as
    [-> | [-> | [-> | [-> | [-> | [-> | [-> | ->]]]]]]] by lia; reflexivity.
Qed.

Lemma take_bit_spec (f : list Z) (b c : Z) :
  1 <= c <= 8 ->
  Z.b2z (negb (Z.land b (Z.shiftl 1 (c - 1)) =? 0)) = Z.b2z (Z.testbit b (c - 1)) /\
  unread (mkBits f b c) = Z.testbit b (c - 1) :: unread (mkBits f b (c - 1)).
Proof.
  intros Hc. rewrite land_bit by lia. split; [done|]. unfold unread. cbn [file buffer bufferedBitsCount].
  by rewrite drop_packed.
Qed.

Lemma ReadBit_spec (s : BitStream) :
  reading s ->
  match unread s with
  | bit :: rest => exists s', ReadBit s = (Z.b2z bit, s') /\ reading s' /\ unread s' = rest
  | [] => ReadBit s = (EOF, s)
  end.
Proof.
  intros Hs. destruct s as [f b c]. unfold reading, ReadBit, bufferCapacity in *. cbn [file buffer bufferedBitsCount] in *.
  destruct (Z.eqb_spec c 0) as [->|Hne].
  - destruct f as [|byte f]; [done|].
    destruct (take_bit_spec f byte 8) as [-> E]; [lia|].
    assert (unread (mkBits (byte :: f) b 0) = unread (mkBits f byte 8)) as -> by done. rewrite E.
    eexists. split; [done|]. cbn. split; [lia|done].
  - destruct (take_bit_spec f b c) as [-> ->]; [lia|]. eexists. split; [done|]. cbn. split; [lia|done].
Qed.

Lemma ReadBit_cons (s : BitStream) (bit : bool) (rest : list bool) :
  reading s -> unread s = bit :: rest ->
  exists s', ReadBit s = (Z.b2z bit, s') /\ reading s' /\ unread s' = rest.
Proof. intros Hs E. pose proof (ReadBit_spec s Hs) as H. by rewrite E in H. Qed.

Fixpoint gather (ix : list Z) (bits : list bool) (byte : Z) : Z :=
  match ix, bits with
  | i :: ix, b :: bits => gather ix bits (u8 (Z.lor byte (Z.shiftl (Z.b2z b) i)))
  | _, _ => byte
  end.

Lemma read_byte_spec (ix : list Z) (bits rest : list bool) :
  length ix = length bits -> forall byte s, reading s -> unread s = bits ++ rest ->
  exists s', read_byte ix byte s = (gather ix bits byte, s') /\ reading s' /\ unread s' = rest.
Proof.
  revert bits. induction ix as [|i ix IH]; intros [|b bits] Hl byte s Hs E; [by exists s|done..|].
  cbn [read_byte gather]. destruct (ReadBit_cons s b (bits ++ rest) Hs E) as (s1 & -> & Hs1 & E1).
  replace (Z.b2z b =? EOF) with false by (by destruct b). apply IH; auto.
Qed.

Lemma ReadByte_spec (s : BitStream) (byte : Z) (rest : list bool) :
  0 <= byte < 256 -> reading s -> unread s = byte_bits byte ++ rest ->
  exists s', ReadByte s = (byte, s') /\ reading s' /\ unread s' = rest.
Proof.
  intros Hb Hs E. destruct (read_byte_spec (seqZ 0 8) (byte_bits byte) rest eq_refl 0 s Hs E)
    as (s' & E' & H). exists s'. split; [|done]. unfold ReadByte. rewrite E'. f_equal.
  assert (Hall : forallb (fun b => gather (seqZ 0 8) (byte_bits b) 0 =? b) (seqZ 0 256) = true)
    by (vm_compute; reflexivity).
  apply Z.eqb_eq. exact (all_bytes _ Hall byte Hb).
Qed.

Lemma ReadByteArray_spec (bytes : list Z) (rest : list bool) :
  Forall (fun b => 0 <= b < 256) bytes -> forall s, reading s ->
  unread s = flat_map byte_bits bytes ++ rest ->
  exists s', ReadByteArray s (length bytes) = (bytes, s') /\ reading s' /\ unread s' = rest.
Proof.
  induction 1 as [|b bytes Hb _ IH]; intros s Hs E; [by exists s|]. cbn in E. rewrite <- app_assoc in E.
  destruct (ReadByte_spec s b _ Hb Hs E) as (s1 & E1 & Hs1 & U1). cbn [length ReadByteArray]. rewrite E1.
  destruct (IH s1 Hs1 U1) as (s2 & -> & H). exists s2. rewrite u8_small by done. done.
Qed.

Lemma open_reading (f : list Z) : reading (OpenBitStream f) /\ unread (OpenBitStream f) = flat_map packed f.
Proof. done. Qed.

(** Reading never adds bits, and takes one whenever there is one. *)
Lemma ReadBit_progress (s : BitStream) :
  reading s -> let '(bit, s') := ReadBit s in
  reading s' /\ (bit = EOF /\ s' = s \/ (bit = 0 \/ bit = 1) /\ (length (unread s') < length (unread s))%nat).
Proof.
  intros Hs. pose proof (ReadBit_spec s Hs) as H. destruct (unread s) as [|b rest].
  - rewrite H. auto.
  - destruct H as (s' & -> & Hs' & E). split; [done|]. right. rewrite E. destruct b; cbn; auto.
Qed.

Lemma read_byte_progress (ix : list Z) :
  forall byte s, reading s -> let '(_, s') := read_byte ix byte s in
  reading s' /\ (length (unread s') <= length (unread s))%nat.
Proof.
  induction ix as [|i ix IH]; intros byte s Hs; cbn; [done|].
  pose proof (ReadBit_progress s Hs) as Hp. destruct (ReadBit s) as [bit s1].
  destruct Hp as [Hs1 Hp]. destruct (bit =? EOF).
  - split; [done|]. destruct Hp as [[_ ->]|[_ ?]]; lia.
  - specialize (IH (u8 (Z.lor byte (Z.shiftl bit i))) s1 Hs1). destruct (read_byte ix _ s1) as [r s2].
    destruct IH as [? ?]. split; [done|]. destruct Hp as [[_ ->]|[_ ?]]; lia.
Qed.
