(* ===== verification/Huffman.v ===== *)
(** * C-Labs/Huffman_archiver/src: Queue.c, HuffmanTree.c, Compress.c, Decompress.c, main.c

    The archiver.  Files are lists of bytes. *)
From S2P Require Import Prelude BitStream.

(** ** Queue.c

    The chain from [frontNode] to [backNode] as a list. *)
Module Queue.
Section Queue.
Context {T : Type}.

Record Queue := mkQueue { nodes : list T; qsize : Z }.

Definition CreateQueue : Queue := mkQueue [] 0.

Definition Push (queue : Queue) (value : T) : res Queue :=
  if qsize queue =? 0 then Ok (mkQueue [value] (u64 (qsize queue + 1)))
  else
    match nodes queue with
    | [] => Err Undefined
    | _ => Ok (mkQueue (nodes queue ++ [value]) (u64 (qsize queue + 1)))
    end.

Definition Pop (queue : Queue) : res (T * Queue) :=
  let* _ := assert (negb (qsize queue =? 0)) in
  match nodes queue with
  | [] => Err Undefined
  | value :: rest => Ok (value, mkQueue rest (u64 (qsize queue - 1)))
  end.

Definition GetFront (queue : Queue) : res T :=
  let* _ := assert (negb (qsize queue =? 0)) in
  match nodes queue with [] => Err Undefined | value :: _ => Ok value end.

Definition GetSize (queue : Queue) : Z := qsize queue.

Definition IsEmpty (queue : Queue) : bool := match nodes queue with [] => true | _ => false end.

Definition MakeEmpty (queue : Queue) : Queue := mkQueue [] 0.

(** The invariant: [size] counts the nodes. *)
Definition queue_of (q : Queue) (xs : list T) : Prop :=
  nodes q = xs /\ qsize q = zlen xs /\ zlen xs < 2 ^ 63.

Lemma CreateQueue_of : queue_of CreateQueue [].
Proof. done. Qed.

Lemma Push_of (q : Queue) (xs : list T) (x : T) :
  queue_of q xs -> zlen xs + 1 < 2 ^ 63 ->
  exists q', Push q x = Ok q' /\ queue_of q' (xs ++ [x]).
Proof.
  intros (Hn & Hs & Hl) Hb. unfold Push. rewrite Hn, Hs. pose proof (zlen_nonneg xs).
  assert (Hlen : zlen (xs ++ [x]) = zlen xs + 1) by (rewrite zlen_app; done).
  rewrite u64_small by lia. destruct (Z.eqb_spec (zlen xs) 0) as [E|Hne].
  - destruct xs; [|unfold zlen in E; cbn in E; lia]. eexists. split; [done|].
    by unfold queue_of.
  - destruct xs as [|y xs]; [done|]. eexists. split; [done|]. unfold queue_of. cbn [nodes qsize].
    split_and!; [done|lia|lia].
Qed.

Lemma Pop_of (q : Queue) (xs : list T) (x : T) :
  queue_of q (x :: xs) -> exists q', Pop q = Ok (x, q') /\ queue_of q' xs.
Proof.
  intros (Hn & Hs & Hl). unfold Pop. rewrite Hn, Hs. rewrite zlen_cons in *.
  pose proof (zlen_nonneg xs). destruct (Z.eqb_spec (zlen xs + 1) 0); [lia|]. cbn.
  eexists. split; [done|]. unfold queue_of. cbn. rewrite u64_small by lia. split_and!; [done|lia|lia].
Qed.

Lemma GetFront_of (q : Queue) (xs : list T) (x : T) : queue_of q (x :: xs) -> GetFront q = Ok x.
Proof.
  intros (Hn & Hs & Hl). unfold GetFront. rewrite Hn, Hs. rewrite zlen_cons in *.
  pose proof (zlen_nonneg xs). by destruct (Z.eqb_spec (zlen xs + 1) 0); [lia|].
Qed.

Lemma IsEmpty_of (q : Queue) (xs : list T) :
  queue_of q xs -> IsEmpty q = match xs with [] => true | _ => false end.
Proof. intros (Hn & _). unfold IsEmpty. by rewrite Hn. Qed.
End Queue.
Arguments Queue : clear implicits.
End Queue.

(** ** HuffmanTree.c *)

(** [HTree], with [HNull] for the null pointer. *)
Inductive HTree := HNull | HNode (left right : HTree) (value : Z).

Record HSortNode := mkSort { treeNode : HTree; frequency : Z }.

Definition CreateTreeNode (value : Z) : HTree := HNode HNull HNull (u8 value).

(** [IsLeafNode] reads the node, so it is undefined on a null pointer. *)
Definition IsLeafNode (node : HTree) : res bool :=
  match node with
  | HNull => Err Undefined
  | HNode HNull HNull _ => Ok true
  | _ => Ok false
  end.

Definition HSortNodeCompare (a b : HSortNode) : Z := Z.b2z (frequency b <? frequency a).

(** The leaves, in the order of the byte values. *)
Fixpoint collect_leaves (i : Z) (freqTable : list Z) : list HSortNode :=
  match freqTable with
  | [] => []
  | f :: rest =>
      if f =? 0 then collect_leaves (i + 1) rest
      else mkSort (CreateTreeNode i) f :: collect_leaves (i + 1) rest
  end.

Fixpoint push_all (queue : Queue.Queue HSortNode) (leaves : list HSortNode)
  : res (Queue.Queue HSortNode) :=
  match leaves with
  | [] => Ok queue
  | x :: rest => let* queue := Queue.Push queue x in push_all queue rest
  end.

Definition PopMinimum (leafNodes compositeNodes : Queue.Queue HSortNode)
  : res (HSortNode * Queue.Queue HSortNode * Queue.Queue HSortNode) :=
  let* _ := assert (negb (Queue.IsEmpty leafNodes) || negb (Queue.IsEmpty compositeNodes)) in
  if Queue.IsEmpty leafNodes then
    let* '(x, compositeNodes) := Queue.Pop compositeNodes in Ok (x, leafNodes, compositeNodes)
  else if Queue.IsEmpty compositeNodes then
    let* '(x, leafNodes) := Queue.Pop leafNodes in Ok (x, leafNodes, compositeNodes)
  else
    let* leaf := Queue.GetFront leafNodes in
    let* composite := Queue.GetFront compositeNodes in
    if frequency leaf <? frequency composite then
      let* '(x, leafNodes) := Queue.Pop leafNodes in Ok (x, leafNodes, compositeNodes)
    else
      let* '(x, compositeNodes) := Queue.Pop compositeNodes in Ok (x, leafNodes, compositeNodes).

(** The main loop: every round leaves one node less. *)
Fixpoint build_loop (fuel : nat) (leafNodes compositeNodes : Queue.Queue HSortNode)
  : res (Queue.Queue HSortNode * Queue.Queue HSortNode) :=
  if u64 (Queue.GetSize leafNodes + Queue.GetSize compositeNodes) >? 1 then
    match fuel with
    | O => Err OutOfFuel
    | S fuel =>
        let* '(m1, leafNodes, compositeNodes) := PopMinimum leafNodes compositeNodes in
        let* '(m2, leafNodes, compositeNodes) := PopMinimum leafNodes compositeNodes in
        let newTreeNode := HNode (treeNode m2) (treeNode m1) (u8 0) in
        let newSortNode := mkSort newTreeNode (u64 (frequency m1 + frequency m2)) in
        let* compositeNodes := Queue.Push compositeNodes newSortNode in
        build_loop fuel leafNodes compositeNodes
    end
  else Ok (leafNodes, compositeNodes).

Section Tree.
Context {Q : Qsort HSortNode}.

(** Fewer or more leaves than [uniqueBytesCount] would leave the array partly
    uninitialised or overrun it. *)
Definition PrepareLeafNodesQueue (freqTable : list Z) (uniqueBytesCount : Z)
  : res (Queue.Queue HSortNode) :=
  let leaves := collect_leaves 0 (take 256 freqTable) in
  if zlen leaves =? uniqueBytesCount then
    push_all Queue.CreateQueue (qsort HSortNodeCompare leaves)
  else Err Undefined.

Definition BuildHuffmanTree (freqTable : list Z) (uniqueBytesCount : Z) : res HTree :=
  let* _ := assert (negb (uniqueBytesCount =? 0)) in
  let* leafNodes := PrepareLeafNodesQueue freqTable uniqueBytesCount in
  if Queue.GetSize leafNodes =? 1 then
    let* '(x, _) := Queue.Pop leafNodes in Ok (treeNode x)
  else
    let* '(_, compositeNodes) :=
      build_loop (Z.to_nat uniqueBytesCount) leafNodes Queue.CreateQueue in
    let* front := Queue.GetFront compositeNodes in
    Ok (treeNode front).
End Tree.

Fixpoint SerializeHuffmanTree (bitOut : BitStream) (tree : HTree) : res BitStream :=
  match tree with
  | HNull => Err AssertFailed
  | HNode l r value =>
      let* leaf := IsLeafNode tree in
      if leaf then Ok (WriteByte (WriteBit bitOut true) value)
      else
        let bitOut := WriteBit bitOut false in
        let* bitOut := SerializeHuffmanTree bitOut l in
        SerializeHuffmanTree bitOut r
  end.

(** At the end of the input [ReadBit] gives [EOF], which is [true] as a [bool]. *)
Fixpoint DeserializeHuffmanTree (fuel : nat) (bitIn : BitStream) : res (HTree * BitStream) :=
  match fuel with
  | O => Err OutOfFuel
  | S fuel =>
      let '(bit, bitIn) := ReadBit bitIn in
      if negb (bit =? 0) then
        let '(value, bitIn) := ReadByte bitIn in
        Ok (CreateTreeNode value, bitIn)
      else
        let* '(l, bitIn) := DeserializeHuffmanTree fuel bitIn in
        let* '(r, bitIn) := DeserializeHuffmanTree fuel bitIn in
        Ok (HNode l r (u8 0), bitIn)
  end.

(** *** Code table *)

Definition codeTable : Type := list (option (list Z)).

(** The characters of a string up to its terminator. *)
Fixpoint c_string (s : list Z) : res (list Z) :=
  match s with
  | [] => Err Undefined
  | c :: rest => if c =? 0 then Ok [] else let* t := c_string rest in Ok (c :: t)
  end.

Definition ch_0 : Z := 48.
Definition ch_1 : Z := 49.

(** [curCode] is one buffer of 256 characters for the whole traversal. *)
Fixpoint MakeCodeTableImpl (node : HTree) (table : codeTable) (curCode : list Z) (curDepth : Z)
  : res (codeTable * list Z) :=
  let* leaf := IsLeafNode node in
  match node with
  | HNull => Err Undefined
  | HNode l r value =>
      if leaf then
        let* curCode := arr_set curCode curDepth 0 in
        let* code := c_string curCode in
        let* table := arr_set table value (Some code) in
        Ok (table, curCode)
      else
        let* curCode := arr_set curCode curDepth ch_0 in
        let* '(table, curCode) := MakeCodeTableImpl l table curCode (curDepth + 1) in
        let* curCode := arr_set curCode curDepth ch_1 in
        MakeCodeTableImpl r table curCode (curDepth + 1)
  end.

(** The contents of the fresh buffer are indeterminate: [garbage]. *)
Definition MakeCodeTable (garbage : list Z) (tree : HTree) : res codeTable :=
  let* '(table, _) := MakeCodeTableImpl tree (replicate 256 None) garbage 0 in
  Ok table.

Fixpoint emit (bitOut : BitStream) (code : list Z) : res BitStream :=
  match code with
  | [] => Ok bitOut
  | c :: rest =>
      let* _ := assert ((c =? ch_0) || (c =? ch_1)) in
      emit (WriteBit bitOut (c =? ch_1)) rest
  end.

Definition EmitCode (bitOut : BitStream) (table : codeTable) (byte : Z) : res BitStream :=
  let* code := arr_get table byte in
  match code with
  | None => Err Undefined
  | Some code => emit bitOut code
  end.

(** *** Decoding *)

Fixpoint DecodeByte (bitIn : BitStream) (curNode : HTree) : res (Z * BitStream) :=
  let* leaf := IsLeafNode curNode in
  match curNode with
  | HNull => Err Undefined
  | HNode l r value =>
      if leaf then Ok (value, bitIn)
      else
        let '(bit, bitIn) := ReadBit bitIn in
        if bit =? 0 then DecodeByte bitIn l
        else if bit =? 1 then DecodeByte bitIn r
        else Ok (EOF, bitIn)
  end.

(** ** Compress.c *)

Record counts := mkCounts { freqTable : list Z; uniqueBytesCount : Z; totalBytesCount : Z }.

(** The first loop of [Compress]. *)
Fixpoint count_bytes (input : list Z) (c : counts) : res counts :=
  match input with
  | [] => Ok c
  | byte :: rest =>
      let* f := arr_get (freqTable c) byte in
      let unique := if f =? 0 then u16 (uniqueBytesCount c + 1) else uniqueBytesCount c in
      let* table := arr_set (freqTable c) byte (u32 (f + 1)) in
      count_bytes rest (mkCounts table unique (u32 (totalBytesCount c + 1)))
  end.

Fixpoint emit_all (bitOut : BitStream) (table : codeTable) (input : list Z) : res BitStream :=
  match input with
  | [] => Ok bitOut
  | byte :: rest =>
      let* bitOut := EmitCode bitOut table byte in
      emit_all bitOut table rest
  end.

(** The bytes of a 32-bit integer in memory, the lowest first. *)
Definition bytes_of_u32 (n : Z) : list Z :=
  [u8 n; u8 (n / 2 ^ 8); u8 (n / 2 ^ 16); u8 (n / 2 ^ 24)].

Definition u32_of_bytes (bytes : list Z) : Z := foldr (fun b acc => b + 2 ^ 8 * acc) 0 bytes.

Section Archiver.
Context {Q : Qsort HSortNode}.
(** The indeterminate contents of the 256 bytes that [MakeCodeTable] allocates. *)
Variable garbage : list Z.

Definition Compress (input : list Z) : res (list Z) :=
  let* c := count_bytes input (mkCounts (replicate 256 0) 0 0) in
  let bitOutput := OpenBitStream [] in
  let bitOutput := WriteByteArray bitOutput (bytes_of_u32 (totalBytesCount c)) in
  let* huffmanTree := BuildHuffmanTree (freqTable c) (uniqueBytesCount c) in
  let* bitOutput := SerializeHuffmanTree bitOutput huffmanTree in
  let* table := MakeCodeTable garbage huffmanTree in
  let* bitOutput := emit_all bitOutput table input in
  Ok (CloseBitStream bitOutput).

(** ** Decompress.c *)

Fixpoint decode_loop (n : nat) (bitInput : BitStream) (tree : HTree) (out : list Z) : res (list Z) :=
  match n with
  | O => Ok out
  | S n =>
      let* '(byte, bitInput) := DecodeByte bitInput tree in
      if byte =? EOF then Ok out
      else decode_loop n bitInput tree (out ++ [u8 byte])
  end.

(** Every nested call of [DeserializeHuffmanTree] reads a bit of the input. *)
Definition Decompress (input : list Z) : res (list Z) :=
  let bitInput := OpenBitStream input in
  let '(total, bitInput) := ReadByteArray bitInput 4 in
  let totalBytesEncoded := u32_of_bytes total in
  let* '(huffmanTree, bitInput) :=
    DeserializeHuffmanTree (S (8 * length input)) bitInput in
  decode_loop (Z.to_nat totalBytesEncoded) bitInput huffmanTree [].

(** ** main.c *)

(** How the program is started: with no arguments and the standard input; with a
    mode, an input file that may be missing and an output file that can be created
    or not; or with another number of arguments. *)
Inductive invocation :=
| NoArguments (stdin : list Z)
| Files (mode : Z) (input : option (list Z)) (can_create : bool)
| OtherArguments.

Definition ch_c : Z := 99.
Definition ch_d : Z := 100.

Definition run_mode (mode : Z) (input : list Z) : res (list Z) :=
  match input with
  | [] => Ok []
  | _ =>
      if mode =? ch_c then Compress input
      else if mode =? ch_d then Decompress input
      else Err (Exited 1 "unknown mode identifier")
  end.

(** The output. *)
Definition main (args : invocation) : res (list Z) :=
  match args with
  | NoArguments [] => run_mode EOF []
  | NoArguments (mode :: input) => run_mode mode input
  | Files mode input can_create =>
      match input with
      | None => Err (Exited 1 "Can't open file")
      | Some input =>
          if can_create then run_mode mode input else Err (Exited 1 "Can't create file")
      end
  | OtherArguments => Err (Exited 1 "Invalid arguments")
  end.
End Archiver.

Definition sample : list Z := [97; 98; 114; 97; 99; 97; 100; 97; 98; 114; 97; 255; 0].

Example archiver_run :
  (let* p := @main (InsertionQsort _) (replicate 256 7) (NoArguments (ch_c :: sample)) in
   @main (InsertionQsort _) (replicate 256 7) (NoArguments (ch_d :: p))) = Ok sample.
Proof. vm_compute. reflexivity. Qed.

(** ** Trees and their codes *)

Inductive tree_ok : HTree -> Prop :=
| leaf_ok v : 0 <= v < 256 -> tree_ok (HNode HNull HNull v)
| inner_ok l r : tree_ok l -> tree_ok r -> tree_ok (HNode l r 0).

Lemma inner_not_leaf (l r : HTree) (v : Z) : tree_ok l -> IsLeafNode (HNode l r v) = Ok false.
Proof. by destruct 1. Qed.

Fixpoint depth (t : HTree) : nat :=
  match t with HNull => 0 | HNode l r _ => S (max (depth l) (depth r)) end.

(** The bytes at the leaves, each with its path: [false] to the left. *)
Fixpoint codes (t : HTree) : list (Z * list bool) :=
  match t with
  | HNull => []
  | HNode HNull HNull v => [(v, [])]
  | HNode l r _ => map (prod_map id (cons false)) (codes l) ++ map (prod_map id (cons true)) (codes r)
  end.

Definition leaves (t : HTree) : list Z := (codes t).*1.

Lemma codes_inner (l r : HTree) (v : Z) :
  tree_ok l -> codes (HNode l r v) =
    map (prod_map id (cons false)) (codes l) ++ map (prod_map id (cons true)) (codes r).
Proof. by destruct 1. Qed.

Lemma fst_prod_map (f : list bool -> list bool) (l : list (Z * list bool)) : (map (prod_map id f) l).*1 = l.*1.
Proof. induction l as [|[??] l IH]; cbn; [done|]. by f_equal. Qed.

Lemma leaves_inner (l r : HTree) (v : Z) : tree_ok l -> leaves (HNode l r v) = leaves l ++ leaves r.
Proof. intros Hl. unfold leaves. rewrite codes_inner, fmap_app, !fst_prod_map by done. done. Qed.

Lemma depth_leaves (t : HTree) : tree_ok t -> (depth t <= length (leaves t))%nat /\ (0 < length (leaves t))%nat.
Proof.
  induction 1 as [v Hv|l r Hl [IHl Il] Hr [IHr Ir]]; [cbn; lia|].
  rewrite leaves_inner, length_app by done. cbn [depth]. lia.
Qed.

(** Serialised trees. *)
Fixpoint ser (t : HTree) : list bool :=
  match t with
  | HNull => []
  | HNode HNull HNull v => true :: byte_bits v
  | HNode l r _ => false :: ser l ++ ser r
  end.

Lemma ser_inner (l r : HTree) (v : Z) : tree_ok l -> ser (HNode l r v) = false :: ser l ++ ser r.
Proof. by destruct 1. Qed.

Lemma depth_ser (t : HTree) : tree_ok t -> (depth t <= length (ser t))%nat.
Proof.
  induction 1 as [v Hv|l r Hl IHl Hr IHr]; [cbn; lia|].
  rewrite ser_inner by done. cbn [depth length]. rewrite length_app. lia.
Qed.

Lemma Serialize_spec (t : HTree) :
  tree_ok t -> forall s, writing s ->
  exists s', SerializeHuffmanTree s t = Ok s' /\ writing s' /\ written s' = written s ++ ser t.
Proof.
  induction 1 as [v Hv|l r Hl IHl Hr IHr]; intros s Hs.
  - cbn. destruct (WriteBit_spec s true Hs) as [Hs1 E1]. destruct (WriteByte_spec _ v Hs1) as [Hs2 E2].
    eexists. split; [done|]. split; [done|]. by rewrite E2, E1, <- app_assoc.
  - cbn [SerializeHuffmanTree]. rewrite inner_not_leaf by done.
    destruct (WriteBit_spec s false Hs) as [Hs1 E1].
    destruct (IHl _ Hs1) as (s2 & -> & Hs2 & E2). destruct (IHr _ Hs2) as (s3 & -> & Hs3 & E3).
    exists s3. split; [done|]. split; [done|]. rewrite E3, E2, E1, ser_inner by done.
    by rewrite <- !app_assoc.
Qed.

Lemma Deserialize_spec (t : HTree) :
  tree_ok t -> forall fuel s rest, (depth t <= fuel)%nat -> reading s -> unread s = ser t ++ rest ->
  exists s', DeserializeHuffmanTree fuel s = Ok (t, s') /\ reading s' /\ unread s' = rest.
Proof.
  induction 1 as [v Hv|l r Hl IHl Hr IHr]; intros [|fuel] s rest Hf Hs E; try (cbn in Hf; lia).
  - cbn in E. cbn [DeserializeHuffmanTree].
    destruct (ReadBit_cons s true _ Hs E) as (s1 & -> & Hs1 & E1). cbn [Z.b2z Z.eqb negb].
    destruct (ReadByte_spec s1 v rest Hv Hs1 E1) as (s2 & -> & Hs2 & E2).
    exists s2. unfold CreateTreeNode. by rewrite u8_small.
  - rewrite ser_inner in E by done. cbn in E. rewrite <- app_assoc in E. cbn [depth] in Hf.
    cbn [DeserializeHuffmanTree].
    destruct (ReadBit_cons s false _ Hs E) as (s1 & -> & Hs1 & E1). cbn [Z.b2z Z.eqb negb].
    destruct (IHl fuel s1 _ ltac:(lia) Hs1 E1) as (s2 & -> & Hs2 & E2).
    destruct (IHr fuel s2 _ ltac:(lia) Hs2 E2) as (s3 & -> & Hs3 & E3). by exists s3.
Qed.

(** On any input the deserialiser returns a tree. *)
Lemma Deserialize_total (fuel : nat) :
  forall s, reading s -> (length (unread s) < fuel)%nat ->
  exists t s', DeserializeHuffmanTree fuel s = Ok (t, s') /\ tree_ok t /\ reading s' /\
    (length (unread s') <= length (unread s))%nat.
Proof.
  induction fuel as [|fuel IH]; intros s Hs Hf; [lia|]. cbn [DeserializeHuffmanTree].
  pose proof (ReadBit_progress s Hs) as Hp. destruct (ReadBit s) as [bit s1]. destruct Hp as [Hs1 Hp].
  destruct (Z.eqb_spec bit 0) as [->|Hne]; cbn [negb].
  - destruct Hp as [[? _]|[_ Hlt]]; [done|].
    destruct (IH s1 Hs1) as (l & s2 & -> & Hl & Hs2 & H2); [lia|].
    destruct (IH s2 Hs2) as (r & s3 & -> & Hr & Hs3 & H3); [lia|].
    do 2 eexists. split; [done|]. split; [by apply inner_ok|]. split; [done|lia].
  - pose proof (read_byte_progress (seqZ 0 8) 0 s1 Hs1) as Hb. fold (ReadByte s1) in Hb.
    destruct (ReadByte s1) as [v s2]. destruct Hb as [Hs2 Hb]. do 2 eexists. split; [done|].
    split; [apply leaf_ok; apply Z.mod_pos_bound; lia|]. split; [done|].
    destruct Hp as [[_ ->]|[_ Hlt]]; lia.
Qed.

Lemma DecodeByte_total (t : HTree) :
  tree_ok t -> forall s, reading s -> exists b s', DecodeByte s t = Ok (b, s') /\ reading s'.
Proof.
  induction 1 as [v Hv|l r Hl IHl Hr IHr]; intros s Hs; [by do 2 eexists|]. cbn [DecodeByte].
  rewrite inner_not_leaf by done. pose proof (ReadBit_progress s Hs) as Hp.
  destruct (ReadBit s) as [bit s1]. destruct Hp as [Hs1 _].
  destruct (bit =? 0); [by apply IHl|]. destruct (bit =? 1); [by apply IHr|]. by do 2 eexists.
Qed.

Lemma DecodeByte_code (t : HTree) :
  tree_ok t -> forall v c s rest, (v, c) ∈ codes t -> reading s -> unread s = c ++ rest ->
  exists s', DecodeByte s t = Ok (v, s') /\ reading s' /\ unread s' = rest.
Proof.
  induction 1 as [v' Hv|l r Hl IHl Hr IHr]; intros v c s rest Hin Hs E.
  - apply list_elem_of_singleton in Hin. injection Hin as -> ->. by exists s.
  - rewrite codes_inner in Hin by done. cbn [DecodeByte]. rewrite inner_not_leaf by done.
    apply elem_of_app in Hin as [Hin|Hin]; apply list_elem_of_fmap in Hin as ([w d] & [= -> ->] & Hin); cbn in E.
    + destruct (ReadBit_cons s false _ Hs E) as (s1 & -> & Hs1 & E1). by apply (IHl w d).
    + destruct (ReadBit_cons s true _ Hs E) as (s1 & -> & Hs1 & E1). by apply (IHr w d).
Qed.

(** ** The code table *)

Definition code_chars (c : list bool) : list Z := map (fun b : bool => if b then ch_1 else ch_0) c.

Lemma c_string_spec (c : list bool) (rest : list Z) :
  c_string (code_chars c ++ 0 :: rest) = Ok (code_chars c).
Proof.
  induction c as [|b c IH]; [done|]. cbn [code_chars map app c_string]. fold (code_chars c).
  rewrite IH. by destruct b.
Qed.

(** The buffer holds the path to the current node. *)
Definition holds_path (curCode : list Z) (p : list bool) : Prop :=
  zlen curCode = 256 /\ take (length p) curCode = code_chars p.

Lemma holds_path_put (curCode : list Z) (p : list bool) (c : Z) :
  holds_path curCode p -> zlen p < 256 ->
  exists rest, arr_set curCode (zlen p) c = Ok (code_chars p ++ c :: rest) /\
    zlen (code_chars p ++ c :: rest) = 256.
Proof.
  intros [Hl Ht] Hp. pose proof (zlen_nonneg p). rewrite arr_set_ok by lia.
  exists (drop (S (length p)) curCode).
  assert (E : zset curCode (zlen p) c = code_chars p ++ c :: drop (S (length p)) curCode).
  { unfold zset, zlen in *. rewrite Nat2Z.id, insert_take_drop by lia. by rewrite Ht. }
  rewrite <- E, zlen_zset. done.
Qed.

Lemma holds_path_app (p q : list bool) (rest : list Z) :
  zlen (code_chars p ++ code_chars q ++ rest) = 256 -> holds_path (code_chars p ++ code_chars q ++ rest) (p ++ q).
Proof.
  intros Hl. split; [done|]. rewrite app_assoc. unfold code_chars. rewrite <- map_app.
  by rewrite take_app_length' by (by rewrite length_map).
Qed.

Lemma holds_path_prefix (curCode : list Z) (p : list bool) (b : bool) :
  holds_path curCode (p ++ [b]) -> holds_path curCode p.
Proof.
  intros [Hl Ht]. split; [done|]. apply (f_equal (take (length p))) in Ht.
  rewrite take_take, length_app in Ht. replace (length p `min` (length p + length [b]))%nat with (length p) in Ht by (cbn; lia).
  rewrite Ht. unfold code_chars. rewrite map_app. by rewrite take_app_length' by (by rewrite length_map).
Qed.

(** After the traversal of a subtree whose leaves are distinct, the table has the
    codes of its leaves and is unchanged elsewhere. *)
Record table_has (t : HTree) (p : list bool) (table table' : codeTable) : Prop := {
  th_len : zlen table' = 256;
  th_code v c : (v, c) ∈ codes t -> znth table' v = Some (code_chars (p ++ c));
  th_rest v : 0 <= v -> v ∉ leaves t -> znth table' v = znth table v
}.

Lemma codes_range (t : HTree) (v : Z) : tree_ok t -> v ∈ leaves t -> 0 <= v < 256.
Proof.
  induction 1 as [w Hw|l r Hl IHl Hr IHr]; [by intros ->%list_elem_of_singleton|].
  rewrite leaves_inner, elem_of_app by done. intros [?|?]; auto.
Qed.

Lemma codes_leaf (t : HTree) (v : Z) (c : list bool) : (v, c) ∈ codes t -> v ∈ leaves t.
Proof. intros H. exact (list_elem_of_fmap_2 fst _ _ H). Qed.

Lemma MakeCodeTableImpl_spec (t : HTree) :
  tree_ok t -> NoDup (leaves t) -> forall table curCode p,
  zlen table = 256 -> holds_path curCode p -> zlen p + Z.of_nat (depth t) <= 256 ->
  exists table' curCode', MakeCodeTableImpl t table curCode (zlen p) = Ok (table', curCode') /\
    holds_path curCode' p /\ table_has t p table table'.
Proof.
  induction 1 as [v Hv|l r Hl IHl Hr IHr]; intros Hn table curCode p Htab Hp Hd; cbn [depth] in Hd.
  - cbn [MakeCodeTableImpl IsLeafNode].
    destruct (holds_path_put curCode p 0 Hp) as (rest & -> & Hlen); [lia|].
    rewrite c_string_spec, arr_set_ok by lia. do 2 eexists. split; [done|]. split.
    + split; [done|]. by rewrite take_app_length' by (by unfold code_chars; rewrite length_map).
    + split; [by rewrite zlen_zset| |].
      * intros w c [= -> ->]%list_elem_of_singleton. rewrite znth_zset_eq by lia. by rewrite app_nil_r.
      * intros w Hw Hni. rewrite znth_zset_ne; [done|lia|lia|]. intros ->. apply Hni.
        by apply list_elem_of_singleton.
  - rewrite leaves_inner in Hn by done. apply NoDup_app in Hn as (Hnl & Hd' & Hnr).
    cbn [MakeCodeTableImpl]. rewrite inner_not_leaf by done.
    assert (Hpl : forall b : bool, zlen (p ++ [b]) = zlen p + 1) by (intros; by rewrite zlen_app).
    destruct (holds_path_put curCode p ch_0 Hp) as (rest1 & -> & Hlen1); [lia|].
    destruct (IHl Hnl table (code_chars p ++ ch_0 :: rest1) (p ++ [false])) as (t1 & c1 & E1 & Hc1 & [L1 C1 R1]);
      [done|exact (holds_path_app p [false] rest1 Hlen1)|rewrite Hpl; lia|].
    rewrite Hpl in E1. rewrite E1. apply holds_path_prefix in Hc1.
    destruct (holds_path_put c1 p ch_1 Hc1) as (rest2 & -> & Hlen2); [lia|].
    destruct (IHr Hnr t1 (code_chars p ++ ch_1 :: rest2) (p ++ [true])) as (t2 & c2 & E2 & Hc2 & [L2 C2 R2]);
      [done|exact (holds_path_app p [true] rest2 Hlen2)|rewrite Hpl; lia|].
    rewrite Hpl in E2. rewrite E2. do 2 eexists. split; [done|].
    split; [by apply holds_path_prefix in Hc2|]. split; [done| |].
    + intros v c Hin. rewrite codes_inner in Hin by done.
      apply elem_of_app in Hin as [Hin|Hin]; apply list_elem_of_fmap in Hin as ([w d] & [= -> ->] & Hin); cbn.
      * pose proof (codes_leaf _ _ _ Hin) as Hlf. rewrite R2; [|by apply (codes_range l)|by apply Hd'].
        rewrite (C1 w d Hin). by rewrite <- app_assoc.
      * rewrite (C2 w d Hin). by rewrite <- app_assoc.
    + intros v Hv. rewrite leaves_inner, elem_of_app by done. intros Hni.
      rewrite R2, R1 by tauto. done.
Qed.

Lemma MakeCodeTable_spec (garbage : list Z) (t : HTree) :
  zlen garbage = 256 -> tree_ok t -> NoDup (leaves t) -> (length (leaves t) <= 256)%nat ->
  exists table, MakeCodeTable garbage t = Ok table /\ zlen table = 256 /\
    forall v c, (v, c) ∈ codes t -> znth table v = Some (code_chars c).
Proof.
  intros Hg Ht Hn Hl. destruct (depth_leaves t Ht) as [Hd _].
  destruct (MakeCodeTableImpl_spec t Ht Hn (replicate 256 None) garbage []) as (table & cur & E & _ & [L C _]);
    [done|by split|change (zlen (@nil bool)) with 0; lia|].
  unfold MakeCodeTable. change (zlen (@nil bool)) with 0 in E. rewrite E. by exists table.
Qed.

(** ** Emitting and decoding *)

Lemma emit_spec (c : list bool) :
  forall s, writing s -> exists s', emit s (code_chars c) = Ok s' /\ writing s' /\ written s' = written s ++ c.
Proof.
  induction c as [|b c IH]; intros s Hs; [exists s; by rewrite app_nil_r|].
  destruct (WriteBit_spec s b Hs) as [Hs1 E1]. destruct (IH _ Hs1) as (s' & E & Hs' & W).
  exists s'. cbn [code_chars map emit]. fold (code_chars c).
  replace ((if b then ch_1 else ch_0) =? ch_1) with b by (by destruct b).
  replace (((if b then ch_1 else ch_0) =? ch_0) || b) with true by (by destruct b). cbn [assert].
  split; [done|]. split; [done|]. by rewrite W, E1, <- app_assoc.
Qed.

(** [bits] is a concatenation of codes for the bytes of [input]. *)
Inductive encoding (t : HTree) : list Z -> list bool -> Prop :=
| enc_nil : encoding t [] []
| enc_cons v c input bits :
    (v, c) ∈ codes t -> encoding t input bits -> encoding t (v :: input) (c ++ bits).

Lemma emit_all_spec (t : HTree) (table : codeTable) (input : list Z) :
  tree_ok t -> zlen table = 256 ->
  (forall v c, (v, c) ∈ codes t -> znth table v = Some (code_chars c)) ->
  Forall (fun v => v ∈ leaves t) input -> forall s, writing s ->
  exists s' bits, emit_all s table input = Ok s' /\ writing s' /\
    written s' = written s ++ bits /\ encoding t input bits.
Proof.
  intros Ht Hl Hc. induction 1 as [|v input Hv _ IH]; intros s Hs.
  { exists s, []. rewrite app_nil_r. split_and!; [done..|constructor]. }
  pose proof (codes_range t v Ht Hv) as Hrange.
  unfold leaves in Hv. apply list_elem_of_fmap in Hv as ([w c] & -> & Hin). cbn [fst] in *.
  destruct (emit_spec c s Hs) as (s1 & E1 & Hs1 & W1). destruct (IH s1 Hs1) as (s2 & bits & E2 & Hs2 & W2 & He).
  exists s2, (c ++ bits). cbn [emit_all]. unfold EmitCode. rewrite arr_get_ok by lia.
  rewrite (Hc w c Hin), E1, E2. split_and!; [done|done|by rewrite W2, W1, app_assoc|by constructor].
Qed.

Lemma decode_loop_spec (t : HTree) (input : list Z) (bits : list bool) :
  tree_ok t -> encoding t input bits -> forall s rest out, reading s -> unread s = bits ++ rest ->
  decode_loop (length input) s t out = Ok (out ++ input).
Proof.
  intros Ht. induction 1 as [|v c input bits Hin He IH]; intros s rest out Hs E; cbn [length decode_loop].
  { by rewrite app_nil_r. }
  rewrite <- app_assoc in E. destruct (DecodeByte_code t Ht v c s _ Hin Hs E) as (s' & -> & Hs' & E').
  pose proof (codes_range t v Ht (codes_leaf _ _ _ Hin)) as Hv.
  destruct (Z.eqb_spec v EOF) as [Eq|_]; [unfold EOF in Eq; lia|].
  rewrite (IH s' rest) by done. rewrite u8_small by done. by rewrite <- app_assoc.
Qed.

Lemma decode_loop_total (t : HTree) (n : nat) :
  tree_ok t -> forall s out, reading s -> exists r, decode_loop n s t out = Ok r.
Proof.
  intros Ht. induction n as [|n IH]; intros s out Hs; cbn; [by eexists|].
  destruct (DecodeByte_total t Ht s Hs) as (b & s' & -> & Hs'). destruct (b =? EOF); [by eexists|]. by apply IH.
Qed.

(** ** Building the tree *)

(** Distinct bytes are at most 256. *)
Lemma NoDup_length_bound (l : list Z) (n : nat) :
  NoDup l -> (forall v, v ∈ l -> 0 <= v < Z.of_nat n) -> (length l <= n)%nat.
Proof.
  intros Hn Hr. rewrite <- (Nat2Z.id n), <- (length_seqZ 0 (Z.of_nat n)).
  apply submseteq_length, NoDup_submseteq; [done|]. intros v Hv. apply elem_of_seqZ. apply Hr in Hv. lia.
Qed.

Section Build.
Import Queue.
Implicit Types (lq cq : Queue.Queue HSortNode) (ls cs : list HSortNode).

Definition forest_leaves (xs : list HSortNode) : list Z := flat_map (fun x => leaves (treeNode x)) xs.
Definition forest_ok (xs : list HSortNode) : Prop := Forall (fun x => tree_ok (treeNode x)) xs.

Lemma forest_leaves_perm (xs ys : list HSortNode) : xs ≡ₚ ys -> forest_leaves xs ≡ₚ forest_leaves ys.
Proof.
  unfold forest_leaves. induction 1; cbn; [done|by f_equiv|by rewrite !app_assoc, (Permutation_app_comm (leaves _))|].
  by etrans.
Qed.

Lemma PopMinimum_spec lq cq ls cs :
  queue_of lq ls -> queue_of cq cs -> ls ++ cs <> [] ->
  exists x lq' cq' ls' cs', PopMinimum lq cq = Ok (x, lq', cq') /\
    queue_of lq' ls' /\ queue_of cq' cs' /\ ls ++ cs ≡ₚ x :: ls' ++ cs'.
Proof.
  intros Hl Hc Hne. unfold PopMinimum. rewrite (IsEmpty_of lq ls Hl), (IsEmpty_of cq cs Hc).
  destruct ls as [|l ls], cs as [|c cs]; [done|..]; cbn [negb orb assert].
  - destruct (Pop_of cq cs c Hc) as (cq' & -> & Hc'). by exists c, lq, cq', [], cs.
  - destruct (Pop_of lq ls l Hl) as (lq' & -> & Hl'). by exists l, lq', cq, ls, [].
  - rewrite (GetFront_of lq ls l Hl), (GetFront_of cq cs c Hc). destruct (_ <? _).
    + destruct (Pop_of lq ls l Hl) as (lq' & -> & Hl'). by exists l, lq', cq, ls, (c :: cs).
    + destruct (Pop_of cq cs c Hc) as (cq' & -> & Hc'). exists c, lq, cq', (l :: ls), cs.
      split_and!; [done..|]. by rewrite <- Permutation_middle.
Qed.

Lemma build_loop_spec (L : list Z) (fuel : nat) :
  forall lq cq ls cs, queue_of lq ls -> queue_of cq cs -> forest_ok (ls ++ cs) ->
  forest_leaves (ls ++ cs) ≡ₚ L -> (1 <= length (ls ++ cs) <= S fuel)%nat -> zlen (ls ++ cs) < 2 ^ 62 ->
  (cs <> [] \/ (2 <= length (ls ++ cs))%nat) ->
  exists lq' cq' x, build_loop fuel lq cq = Ok (lq', cq') /\ queue_of cq' [x] /\
    tree_ok (treeNode x) /\ leaves (treeNode x) ≡ₚ L.
Proof.
  induction fuel as [|fuel IH]; intros lq cq ls cs Hl Hc Hok HL Hlen Hz Hcs; cbn [build_loop];
    unfold GetSize; destruct (Hl) as (_ & El & _); destruct (Hc) as (_ & Ec & _); rewrite El, Ec, <- zlen_app;
    rewrite (u64_small (zlen _)) by (pose proof (zlen_nonneg (ls ++ cs)); lia);
    rewrite Z.gtb_ltb; destruct (Z.ltb_spec 1 (zlen (ls ++ cs))) as [Hgt|Hle];
    try (unfold zlen in Hgt; lia).
  1, 3: assert (H1 : length (ls ++ cs) = 1%nat) by (unfold zlen in Hle; lia); rewrite length_app in H1, Hcs;
    destruct cs as [|x cs]; [destruct Hcs; [done|cbn in *; lia]|]; cbn in H1;
    destruct ls; [|cbn in H1; lia]; destruct cs; [|cbn in H1; lia];
    exists lq, cq, x; split; [done|]; split; [done|]; cbn in HL, Hok; rewrite app_nil_r in HL;
    by apply Forall_cons in Hok as [? _].
  destruct (PopMinimum_spec lq cq ls cs Hl Hc) as (m1 & lq1 & cq1 & ls1 & cs1 & -> & Hl1 & Hc1 & P1).
  { intros E. rewrite E in Hlen. cbn in Hlen. lia. }
  pose proof (Permutation_length P1) as Hlen1. cbn in Hlen1. unfold zlen in Hgt.
  destruct (PopMinimum_spec lq1 cq1 ls1 cs1 Hl1 Hc1) as (m2 & lq2 & cq2 & ls2 & cs2 & -> & Hl2 & Hc2 & P2).
  { intros E. rewrite E in Hlen1. cbn in Hlen1. lia. }
  pose proof (Permutation_length P2) as Hlen2. cbn in Hlen2. rewrite P2 in P1.
  set (new := mkSort _ _).
  destruct (Push_of cq2 cs2 new Hc2) as (cq3 & -> & Hc3).
  { unfold zlen in *. rewrite !length_app in *. lia. }
  assert (P3 : ls2 ++ cs2 ++ [new] ≡ₚ new :: ls2 ++ cs2).
  { rewrite (Permutation_app_comm cs2). cbn. by rewrite <- Permutation_middle. }
  unfold forest_ok in Hok. rewrite P1 in Hok. rewrite !Forall_cons in Hok. destruct Hok as (Ho1 & Ho2 & Hok).
  apply (IH lq2 cq3 ls2 (cs2 ++ [new])); auto.
  - unfold forest_ok. rewrite P3. constructor; [|done]. by apply inner_ok.
  - rewrite (forest_leaves_perm _ _ P3), <- HL, (forest_leaves_perm _ _ P1).
    cbn [forest_leaves flat_map treeNode new]. rewrite leaves_inner, app_assoc by done.
    f_equiv. apply Permutation_app_comm.
  - rewrite P3. cbn. lia.
  - unfold zlen. rewrite P3. cbn. unfold zlen in Hz. lia.
  - left. by destruct cs2.
Qed.

Lemma push_all_spec (xs : list HSortNode) :
  forall q ys, queue_of q ys -> zlen ys + zlen xs < 2 ^ 62 ->
  exists q', push_all q xs = Ok q' /\ queue_of q' (ys ++ xs).
Proof.
  induction xs as [|x xs IH]; intros q ys Hq Hl; cbn; [exists q; by rewrite app_nil_r|].
  rewrite zlen_cons in Hl. pose proof (zlen_nonneg xs).
  destruct (Push_of q ys x Hq) as (q1 & -> & Hq1); [lia|].
  destruct (IH q1 _ Hq1) as (q' & -> & Hq'); [rewrite zlen_app, zlen_cons, zlen_nil; lia|].
  exists q'. by rewrite <- app_assoc in Hq'.
Qed.

(** The leaves collected from a table: the indices of the positive entries. *)
Lemma collect_leaves_spec (ft : list Z) :
  forall i, 0 <= i -> i + zlen ft <= 256 ->
  forest_ok (collect_leaves i ft) /\
  NoDup (forest_leaves (collect_leaves i ft)) /\
  length (forest_leaves (collect_leaves i ft)) = length (collect_leaves i ft) /\
  (forall v, v ∈ forest_leaves (collect_leaves i ft) <-> i <= v < i + zlen ft /\ znth ft (v - i) <> 0).
Proof.
  induction ft as [|f ft IH]; intros i Hi Hl.
  { cbn. split_and!; [constructor|constructor|done|]. intros v. rewrite zlen_nil. split; [by intros ?%elem_of_nil|lia]. }
  rewrite zlen_cons in Hl. pose proof (zlen_nonneg ft). cbn [collect_leaves].
  destruct (IH (i + 1)) as (Hok & Hn & Hlen & Hmem); [lia|lia|].
  assert (Hnth : forall v, i < v -> znth (f :: ft) (v - i) = znth ft (v - (i + 1))).
  { intros v Hv. replace (v - i) with (Z.succ (v - (i + 1))) by lia. apply znth_cons_succ. lia. }
  destruct (Z.eqb_spec f 0) as [->|Hf].
  - split_and!; [done..|]. intros v. rewrite Hmem, zlen_cons. split.
    + intros [Hr Hz]. rewrite Hnth by lia. split; [lia|done].
    + intros [Hr Hz]. destruct (Z.eq_dec v i) as [->|]; [by rewrite Z.sub_diag in Hz|].
      rewrite Hnth in Hz by lia. split; [lia|done].
  - cbn [forest_leaves flat_map treeNode]. unfold CreateTreeNode. rewrite u8_small by lia.
    fold (forest_leaves (collect_leaves (i + 1) ft)). change (leaves (HNode HNull HNull i)) with [i]. cbn [app].
    split_and!.
    + constructor; [by apply leaf_ok; lia|done].
    + constructor; [|done]. rewrite Hmem. lia.
    + cbn [length]. by rewrite Hlen.
    + intros v. rewrite elem_of_cons, Hmem, zlen_cons. split.
      * intros [->|[Hr Hz]]; [rewrite Z.sub_diag; split; [lia|done]|]. rewrite Hnth by lia. split; [lia|done].
      * intros [Hr Hz]. destruct (Z.eq_dec v i) as [->|]; [by left|]. right.
        rewrite Hnth in Hz by lia. split; [lia|done].
Qed.

Lemma BuildHuffmanTree_spec {Q : Qsort HSortNode} (ft : list Z) (n : Z) :
  zlen ft = 256 -> zlen (collect_leaves 0 ft) = n -> 0 < n ->
  exists t, BuildHuffmanTree ft n = Ok t /\ tree_ok t /\ NoDup (leaves t) /\ (length (leaves t) <= 256)%nat /\
    forall v, v ∈ leaves t <-> 0 <= v < 256 /\ znth ft v <> 0.
Proof.
  intros Hl Hn Hpos. destruct (collect_leaves_spec ft 0) as (Hok & Hnd & Hlen & Hmem); [lia|lia|].
  set (xs := collect_leaves 0 ft) in *.
  assert (H256 : (length (forest_leaves xs) <= 256)%nat).
  { apply NoDup_length_bound; [done|]. intros v Hv. apply Hmem in Hv. rewrite Hl in Hv. lia. }
  assert (Hfin : forall t, tree_ok t -> leaves t ≡ₚ forest_leaves xs -> tree_ok t /\ NoDup (leaves t) /\
    (length (leaves t) <= 256)%nat /\ forall v, v ∈ leaves t <-> 0 <= v < 256 /\ znth ft v <> 0).
  { intros t Ht Hp. split; [done|]. rewrite Hp. split; [done|]. split.
    - done.
    - intros v. rewrite Hp, Hmem, Hl, Z.sub_0_r. lia. }
  unfold BuildHuffmanTree, PrepareLeafNodesQueue. destruct (Z.eqb_spec n 0); [lia|]. cbn [negb assert].
  rewrite take_ge by (unfold zlen in Hl; lia). fold xs. rewrite Hn, Z.eqb_refl.
  pose proof (qsort_perm HSortNodeCompare xs) as Hq. set (ys := qsort HSortNodeCompare xs) in *.
  assert (Hly : zlen ys = n) by (unfold zlen in *; rewrite Hq; done).
  assert (Hn256 : n <= 256) by (unfold zlen in Hn; lia).
  destruct (push_all_spec ys CreateQueue [] CreateQueue_of) as (lq & -> & Hlq);
    [change (zlen (@nil HSortNode)) with 0; lia|]. cbn [app] in Hlq.
  destruct (Hlq) as (_ & Hsz & _). unfold GetSize at 1. rewrite Hsz, Hly.
  assert (Hoky : forest_ok ys) by (unfold forest_ok; by rewrite Hq).
  pose proof (forest_leaves_perm _ _ Hq) as HLy.
  destruct (Z.eqb_spec n 1) as [->|Hn1].
  - destruct ys as [|y [|]]; unfold zlen in Hly; cbn in Hly; try lia.
    destruct (Pop_of lq [] y Hlq) as (lq' & -> & _). exists (treeNode y). split; [done|].
    cbn in HLy. rewrite app_nil_r in HLy. apply Hfin; [by apply Forall_cons in Hoky as [? _]|done].
  - destruct (build_loop_spec (forest_leaves xs) (Z.to_nat n) lq CreateQueue ys []) as (lq' & cq' & x & -> & Hcq & Hx & HL);
      rewrite ?app_nil_r; auto using CreateQueue_of; unfold zlen in *; [lia|lia|right; lia|].
    rewrite (GetFront_of cq' [] x Hcq). exists (treeNode x). split; [done|]. by apply Hfin.
Qed.
End Build.

(** ** Counting *)

Lemma u32_bytes_roundtrip (n : Z) : 0 <= n < 2 ^ 32 -> u32_of_bytes (bytes_of_u32 n) = n.
Proof. intros Hn. unfold u32_of_bytes, bytes_of_u32, u8. cbn [foldr]. Z.to_euclidean_division_equations. lia. Qed.

Lemma u32_bytes_range (n : Z) : Forall (fun b => 0 <= b < 256) (bytes_of_u32 n).
Proof. repeat constructor; unfold u8; apply Z.mod_pos_bound; lia. Qed.

Lemma collect_leaves_length (ft : list Z) : forall i, zlen (collect_leaves i ft) <= zlen ft.
Proof.
  induction ft as [|f ft IH]; intros i; cbn [collect_leaves]; [done|]. specialize (IH (i + 1)).
  destruct (f =? 0); rewrite ?zlen_cons; lia.
Qed.

Lemma collect_leaves_set (ft : list Z) :
  forall i k x, 0 <= k < zlen ft -> x <> 0 ->
  zlen (collect_leaves i (zset ft k x)) =
    zlen (collect_leaves i ft) + (if znth ft k =? 0 then 1 else 0).
Proof.
  induction ft as [|f ft IH]; intros i k x Hk Hx; [unfold zlen in Hk; cbn in Hk; lia|]. rewrite zlen_cons in Hk.
  destruct (Z.eq_dec k 0) as [->|].
  - change (zset (f :: ft) 0 x) with (x :: ft). rewrite znth_cons_0. cbn [collect_leaves].
    destruct (Z.eqb_spec x 0); [done|]. destruct (f =? 0); rewrite ?zlen_cons; lia.
  - replace k with (Z.succ (k - 1)) by lia. rewrite znth_cons_succ by lia.
    assert (zset (f :: ft) (Z.succ (k - 1)) x = f :: zset ft (k - 1) x) as ->.
    { unfold zset. by rewrite Z2Nat.inj_succ by lia. }
    cbn [collect_leaves]. destruct (f =? 0); rewrite ?zlen_cons, IH by lia; lia.
Qed.

Record counted (seen : list Z) (c : counts) : Prop := {
  ct_len : zlen (freqTable c) = 256;
  ct_range v : 0 <= v < 256 -> 0 <= znth (freqTable c) v <= zlen seen;
  ct_seen v : 0 <= v < 256 -> znth (freqTable c) v <> 0 <-> v ∈ seen;
  ct_unique : uniqueBytesCount c = zlen (collect_leaves 0 (freqTable c));
  ct_total : totalBytesCount c = zlen seen
}.

Lemma count_bytes_spec (input : list Z) :
  Forall (fun b => 0 <= b < 256) input -> forall seen c, counted seen c -> zlen seen + zlen input < 2 ^ 32 ->
  exists c', count_bytes input c = Ok c' /\ counted (seen ++ input) c'.
Proof.
  induction 1 as [|b input Hb _ IH]; intros seen c Hc Hl; [exists c; by rewrite app_nil_r|].
  rewrite zlen_cons in Hl. pose proof (zlen_nonneg input). pose proof (zlen_nonneg seen).
  destruct Hc as [Hlen Hr Hs Hu Ht]. cbn [count_bytes]. rewrite arr_get_ok by lia.
  pose proof (Hr b Hb) as Hf. set (f := znth (freqTable c) b) in *.
  rewrite u32_small, arr_set_ok by lia. set (c1 := mkCounts _ _ _).
  assert (Hl1 : zlen (seen ++ [b]) = zlen seen + 1) by (by rewrite zlen_app).
  assert (Hset : forall v, 0 <= v < 256 -> znth (zset (freqTable c) b (f + 1)) v =
    if b =? v then f + 1 else znth (freqTable c) v) by (intros; apply znth_zset; lia).
  destruct (IH (seen ++ [b]) c1) as (c' & -> & Hc').
  - split; cbn [freqTable uniqueBytesCount totalBytesCount c1].
    + by rewrite zlen_zset.
    + intros v Hv. rewrite Hset by done. specialize (Hr v Hv). destruct (b =? v); lia.
    + intros v Hv. rewrite Hset, elem_of_app, list_elem_of_singleton, <- Hs by done.
      destruct (Z.eqb_spec b v) as [->|]; [split; [by right|lia]|]. split; [by left|]. by intros [?|?].
    + rewrite collect_leaves_set by lia. fold f. rewrite Hu.
      pose proof (collect_leaves_length (freqTable c) 0). pose proof (zlen_nonneg (collect_leaves 0 (freqTable c))).
      destruct (f =? 0); [|lia]. by rewrite u16_small by lia.
    + rewrite Ht, Hl1. apply u32_small. lia.
  - lia.
  - exists c'. by rewrite <- app_assoc in Hc'.
Qed.

Lemma counted_start : counted [] (mkCounts (replicate 256 0) 0 0).
Proof.
  assert (Hz : forall v, 0 <= v < 256 -> znth (replicate 256 0) v = 0).
  { intros v Hv. unfold znth. apply lookup_total_replicate_2. lia. }
  split; cbn [freqTable uniqueBytesCount totalBytesCount]; try done.
  - intros v Hv. by rewrite Hz.
  - intros v Hv. rewrite Hz by done. split; [done|]. by intros ?%elem_of_nil.
Qed.

Lemma counted_positive (input : list Z) (c : counts) :
  counted input c -> Forall (fun b => 0 <= b < 256) input -> input <> [] -> 0 < uniqueBytesCount c.
Proof.
  intros [Hlen Hr Hs Hu Ht] Hb Hne. destruct input as [|b input]; [done|].
  apply Forall_cons in Hb as [Hb _].
  assert (Hin : znth (freqTable c) b <> 0) by (apply Hs; [done|by left]).
  destruct (collect_leaves_spec (freqTable c) 0) as (_ & _ & Hcl & Hm); [lia|lia|].
  rewrite Hu. unfold zlen. rewrite <- Hcl.
  assert (Hb' : b ∈ forest_leaves (collect_leaves 0 (freqTable c))).
  { apply Hm. rewrite Z.sub_0_r. split; [lia|done]. }
  destruct (forest_leaves _); [by apply elem_of_nil in Hb'|cbn; lia].
Qed.

(** ** The archiver *)

Section Correctness.
Context {Q : Qsort HSortNode} (garbage : list Z) (Hgarbage : zlen garbage = 256).

Lemma Compress_spec (input : list Z) :
  Forall (fun b => 0 <= b < 256) input -> input <> [] -> zlen input < 2 ^ 32 ->
  exists packed_bytes t bits pad, Compress garbage input = Ok packed_bytes /\
    tree_ok t /\ encoding t input bits /\
    flat_map packed packed_bytes =
      flat_map byte_bits (bytes_of_u32 (zlen input)) ++ ser t ++ bits ++ pad.
Proof.
  intros Hb Hne Hl. unfold Compress.
  destruct (count_bytes_spec input Hb [] _ counted_start) as (c & -> & Hc);
    [change (zlen (@nil Z)) with 0; lia|]. cbn [app] in *. pose proof Hc as [Hlen Hr Hs Hu Ht].
  destruct open_writing as [Ho E0].
  destruct (WriteByteArray_spec (bytes_of_u32 (totalBytesCount c)) _ Ho) as [H1 E1].
  destruct (BuildHuffmanTree_spec (freqTable c) (uniqueBytesCount c)) as (t & -> & Htree & Hnd & Hl256 & Hmem);
    [done|done| |].
  { exact (counted_positive input c Hc Hb Hne). }
  destruct (Serialize_spec t Htree _ H1) as (s2 & -> & H2 & E2).
  destruct (MakeCodeTable_spec garbage t Hgarbage Htree Hnd Hl256) as (table & -> & Htl & Hcodes).
  destruct (emit_all_spec t table input Htree Htl Hcodes) with (s := s2) as (s3 & bits & -> & H3 & E3 & Henc); [|done|].
  { rewrite Forall_forall in Hb |- *. intros v Hv. apply Hmem. split; [by apply Hb|]. apply Hs; auto. }
  destruct (CloseBitStream_spec s3 H3) as (pad & E4). do 4 eexists. split; [done|].
  split; [done|]. split; [exact Henc|]. rewrite E4, E3, E2, E1, E0, Ht. by rewrite <- !app_assoc.
Qed.

Lemma flat_packed_length (bytes : list Z) : length (flat_map packed bytes) = (8 * length bytes)%nat.
Proof. induction bytes as [|b bytes IH]; [done|]. cbn [flat_map length]. rewrite length_app, IH. change (length (packed b)) with 8%nat. lia. Qed.

Lemma Decompress_spec (input : list Z) (t : HTree) (n : Z) (out : list Z) (bits pad : list bool) :
  0 <= n < 2 ^ 32 -> n = zlen out -> tree_ok t -> encoding t out bits ->
  flat_map packed input = flat_map byte_bits (bytes_of_u32 n) ++ ser t ++ bits ++ pad ->
  Decompress input = Ok out.
Proof.
  intros Hn Hlen Ht He Ein. unfold Decompress. destruct (open_reading input) as [Hs Hu]. rewrite Ein in Hu.
  destruct (ReadByteArray_spec (bytes_of_u32 n) _ (u32_bytes_range n) _ Hs Hu) as (s1 & E1 & Hs1 & U1).
  change (length (bytes_of_u32 n)) with 4%nat in E1. rewrite E1, u32_bytes_roundtrip by done.
  assert (Hf : (depth t <= S (8 * length input))%nat).
  { pose proof (depth_ser t Ht). rewrite <- flat_packed_length, Ein, !length_app. lia. }
  destruct (Deserialize_spec t Ht _ s1 _ Hf Hs1 U1) as (s2 & -> & Hs2 & U2).
  subst n. unfold zlen. rewrite Nat2Z.id. by rewrite (decode_loop_spec t out bits Ht He s2 pad []).
Qed.

Lemma Decompress_total_ok (input : list Z) : exists out, Decompress input = Ok out.
Proof.
  unfold Decompress. destruct (open_reading input) as [Hs Hu].
  assert (Hprog : forall n s, reading s -> let '(_, s') := ReadByteArray s n in
    reading s' /\ (length (unread s') <= length (unread s))%nat).
  { induction n as [|n IH]; intros s Hr; cbn; [done|].
    pose proof (read_byte_progress (seqZ 0 8) 0 s Hr) as Hb. fold (ReadByte s) in Hb.
    destruct (ReadByte s) as [b s1]. destruct Hb as [Hs1 Hb]. specialize (IH s1 Hs1).
    destruct (ReadByteArray s1 n) as [bs s2]. destruct IH. split; [done|lia]. }
  specialize (Hprog 4%nat _ Hs). destruct (ReadByteArray _ 4) as [bs s1]. destruct Hprog as [Hs1 Hl].
  destruct (Deserialize_total (S (8 * length input)) s1 Hs1) as (t & s2 & -> & Ht & Hs2 & _).
  { rewrite Hu, flat_packed_length in Hl. lia. }
  by apply decode_loop_total.
Qed.

Lemma roundtrip_ok (input : list Z) :
  Forall (fun b => 0 <= b < 256) input -> input <> [] -> zlen input < 2 ^ 32 ->
  exists p, Compress garbage input = Ok p /\ p <> [] /\ Decompress p = Ok input.
Proof.
  intros Hb Hne Hl. destruct (Compress_spec input Hb Hne Hl) as (p & t & bits & pad & E & Ht & He & Ep).
  exists p. split; [done|]. split.
  - intros ->. destruct input as [|b input]; [done|]. cbn in Ep. discriminate Ep.
  - apply (Decompress_spec p t (zlen input) input bits pad); auto. pose proof (zlen_nonneg input). lia.
Qed.
End Correctness.

(** C5.  The archiver loses nothing: for every sequence of fewer than 2^32 bytes
    (the empty one included), whatever the library's [qsort] does beyond permuting
    and whatever the fresh code buffer contains, the program started with [c]
    returns an archive, and started with [d] on that archive it returns the
    original bytes. *)
Theorem archiver_roundtrip (Q : Qsort HSortNode) (garbage data : list Z) :
  zlen garbage = 256 -> Forall (fun b => 0 <= b < 256) data -> zlen data < 2 ^ 32 ->
  exists archive, main garbage (NoArguments (ch_c :: data)) = Ok archive /\
    main garbage (NoArguments (ch_d :: archive)) = Ok data /\
    main garbage (Files ch_d (Some archive) true) = Ok data.
Proof.
  intros Hg Hb Hl. destruct data as [|b data]; [by exists []|].
  destruct (roundtrip_ok garbage Hg (b :: data) Hb ltac:(done) Hl) as (p & E & Hp & E').
  exists p. split; [exact E|]. destruct p; [contradiction|]. split; exact E'.
Qed.

Lemma archiver_roundtrip_witness :
  exists archive,
    @main (InsertionQsort _) (replicate 256 7) (NoArguments (ch_c :: sample)) = Ok archive /\
    @main (InsertionQsort _) (replicate 256 7) (NoArguments (ch_d :: archive)) = Ok sample /\
    @main (InsertionQsort _) (replicate 256 7) (Files ch_d (Some archive) true) = Ok sample.
Proof.
  apply (archiver_roundtrip (InsertionQsort _) (replicate 256 7) sample); [done| |done].
  unfold sample. repeat (constructor; [lia|]). constructor.
Defined.

(** C38.  The decompressor returns on every input, however damaged: it never reads
    through a null pointer and the recursive tree reader ends. *)
Theorem decompress_total (input : list Z) : exists out, Decompress input = Ok out.
Proof. apply Decompress_total_ok. Qed.
