(* ===== verification/PQueue.v ===== *)
(** * C-Labs/Shortest_path_Dijkstra_algo/src/priority_queue.c

    The binary heap that Dijkstra's and Prim's programs use (the file is the same
    in both).  An element is the structure its pointer designates; the pointers in
    the array are distinct, so the comparison of [heap[largest]] with [heap[root]]
    is that of the indices.  [heap] holds the slots written so far, of which the
    first [size] are in use.  Allocation is taken to succeed. *)
From S2P Require Import Prelude HeapSort.

(** ** [pq->capacity *= 1.5f]

    [round24 n] is the binary32 number nearest to the integer [n], ties to even;
    a product with 1.5 is a multiple of one half, and halving is exact. *)
Definition round24 (n : Z) : Z :=
  let k := Z.max 0 (Z.log2 n - 23) in
  let q := n / 2 ^ k in
  let r := n mod 2 ^ k in
  let half := 2 ^ k / 2 in
  2 ^ k * (if (half <? r) || ((0 <? k) && (r =? half) && Z.odd q) then q + 1 else q).

Definition mul_realloc_factor (capacity : Z) : Z := round24 (3 * round24 capacity) / 2.

Lemma round24_small (n : Z) : 0 <= n < 2 ^ 24 -> round24 n = n.
Proof.
  intros Hn. unfold round24.
  assert (Z.log2 n < 24).
  { destruct (Z.eq_dec n 0) as [->|]; [done|]. apply Z.log2_lt_pow2; lia. }
  rewrite Z.max_l by lia. rewrite Z.pow_0_r, Z.div_1_r, Z.mod_1_r.
  change (1 / 2) with 0. cbn [Z.ltb Z.compare Z.eqb andb orb]. lia.
Qed.

Lemma round24_lower (n : Z) : 2 ^ 22 <= n -> n - n / 2 ^ 23 - 1 <= round24 n.
Proof.
  intros Hn. destruct (Z.lt_ge_cases n (2 ^ 24)) as [?|Hbig].
  { rewrite round24_small by lia. pose proof (Z.div_pos n (2 ^ 23)). lia. }
  unfold round24. assert (24 <= Z.log2 n) by (apply Z.log2_le_pow2; lia). rewrite Z.max_r by lia.
  set (k := Z.log2 n - 23). pose proof (Z.div_mod n (2 ^ k)) as Hdm.
  assert (Hk : 0 < 2 ^ k) by (apply Z.pow_pos_nonneg; lia).
  pose proof (Z.mod_pos_bound n (2 ^ k) Hk) as Hm.
  assert (Hpow : 2 ^ k <= n / 2 ^ 23).
  { apply Z.div_le_lower_bound; [lia|]. rewrite <- Z.pow_add_r by lia.
    replace (23 + k) with (Z.log2 n) by lia. apply Z.log2_spec. lia. }
  destruct (_ || _); nia.
Qed.

Lemma mul_realloc_factor_grows (c : Z) : 2 <= c -> c < mul_realloc_factor c.
Proof.
  intros Hc. unfold mul_realloc_factor. destruct (Z.lt_ge_cases c (2 ^ 22)) as [Hs|Hb].
  - rewrite (round24_small c) by lia. rewrite round24_small by lia.
    apply Z.lt_le_trans with (c + 1); [lia|]. apply Z.div_le_lower_bound; lia.
  - pose proof (round24_lower c Hb) as H1. set (x := round24 c) in *.
    assert (Hx : 2 ^ 22 <= 3 * x) by (Z.to_euclidean_division_equations; lia).
    pose proof (round24_lower (3 * x) Hx) as H2. set (y := round24 (3 * x)) in *.
    apply Z.lt_le_trans with (c + 1); [lia|]. apply Z.div_le_lower_bound; [lia|].
    Z.to_euclidean_division_equations. lia.
Qed.

(** ** The queue *)

Inductive exitCode := SUCCESS | OUT_OF_BOUNDS.

Section Queue.
Context {A : Type} `{Inhabited A}.
Variable cmp : A -> A -> Z.

Record PriorityQueue := mkPQ { heap : list A; size : Z; capacity : Z }.

Definition createPQueue (sizeToReserve : Z) : PriorityQueue := mkPQ [] 0 sizeToReserve.

(** [pq->heap[i] = x]: inside the allocated array. *)
Definition write_slot (pq : PriorityQueue) (i : Z) (x : A) : res (list A) :=
  if i <? capacity pq then
    if i =? zlen (heap pq) then Ok (heap pq ++ [x]) else arr_set (heap pq) i x
  else Err Undefined.

(** Every call goes to the parent, whose index is smaller. *)
Fixpoint heapifyBottomUp (fuel : nat) (h : list A) (node : Z) : res (list A) :=
  match fuel with
  | O => Err OutOfFuel
  | S fuel =>
      if node =? 0 then Ok h
      else
        let root := (node - 1) / 2 in
        let* r := arr_get h root in
        let* n := arr_get h node in
        if cmp r n <? 0 then
          let* h := arr_swap h root node in
          heapifyBottomUp fuel h root
        else Ok h
  end.

Definition pqAdd (pq : PriorityQueue) (data : A) : res PriorityQueue :=
  let pq := if size pq =? capacity pq
            then mkPQ (heap pq) (size pq) (mul_realloc_factor (capacity pq)) else pq in
  let* h := write_slot pq (size pq) data in
  let* h := heapifyBottomUp (S (Z.to_nat (size pq))) h (size pq) in
  Ok (mkPQ h (u64 (size pq + 1)) (capacity pq)).

(** Every call goes to a child. *)
Fixpoint heapifyUpBottom (fuel : nat) (h : list A) (sz root : Z) : res (list A) :=
  match fuel with
  | O => Err OutOfFuel
  | S fuel =>
      let l := u64 (root * 2 + 1) in
      let r := u64 (root * 2 + 2) in
      let* largest :=
        (if l <? sz then
           let* a := arr_get h root in
           let* b := arr_get h l in
           Ok (if cmp a b <? 0 then l else root)
         else Ok root) in
      let* largest :=
        (if r <? sz then
           let* a := arr_get h largest in
           let* b := arr_get h r in
           Ok (if cmp a b <? 0 then r else largest)
         else Ok largest) in
      if negb (largest =? root) then
        let* h := arr_swap h root largest in
        heapifyUpBottom fuel h sz largest
      else Ok h
  end.

Definition pqPop (pq : PriorityQueue) : res (exitCode * option A * PriorityQueue) :=
  if size pq =? 0 then Ok (OUT_OF_BOUNDS, None, pq)
  else
    let* dst := arr_get (heap pq) 0 in
    let sz := u64 (size pq - 1) in
    let* last := arr_get (heap pq) sz in
    let* h := arr_set (heap pq) 0 last in
    let* h := heapifyUpBottom (S (Z.to_nat sz)) h sz 0 in
    Ok (SUCCESS, Some dst, mkPQ h sz (capacity pq)).

Definition pqIsEmpty (pq : PriorityQueue) : bool := size pq =? 0.
End Queue.
Arguments PriorityQueue : clear implicits.

(** ** Correctness

    The comparator orders by a key, the elements with the greatest key first. *)
Class Keyed {A : Type} (cmp : A -> A -> Z) (key : A -> Z) : Prop :=
  keyed a b : cmp a b < 0 <-> key a < key b.

Section Heap.
Context {A : Type} `{Inhabited A} {cmp : A -> A -> Z} {key : A -> Z} `{!Keyed cmp key}.
Implicit Types (h : list A) (pq : PriorityQueue A).

Lemma znth_map h (i : Z) : 0 <= i < zlen h -> znth (map key h) i = key (znth h i).
Proof.
  intros Hi. unfold znth, zlen in *. apply list_lookup_total_correct.
  change (map key h) with (key <$> h). rewrite list_lookup_fmap, list_lookup_lookup_total_lt by lia. done.
Qed.

Lemma zlen_map h : zlen (map key h) = zlen h.
Proof. unfold zlen. by rewrite length_map. Qed.

Lemma map_zswap h (i j : Z) :
  0 <= i < zlen h -> 0 <= j < zlen h -> map key (zswap h i j) = zswap (map key h) i j.
Proof.
  intros Hi Hj. apply zlist_eq; [by rewrite !zlen_map, !zlen_zswap, zlen_map|].
  intros k. rewrite zlen_map, zlen_zswap. intros Hk.
  rewrite znth_map by (rewrite zlen_zswap; lia). rewrite !znth_zswap by (rewrite ?zlen_map; lia).
  rewrite !znth_map by lia. zcase; done.
Qed.

(** Heap order everywhere but between [i] and its parent; [i]'s children are at
    most [i]'s parent. *)
Definition heap_up (a : list Z) (sz i : Z) : Prop :=
  (forall p c, 0 <= p -> is_child c p -> c < sz -> c <> i -> znth a c <= znth a p) /\
  (forall p c, 0 <= p -> is_child i p -> is_child c i -> c < sz -> znth a c <= znth a p).

Lemma parent_child (i : Z) : 0 < i -> is_child i ((i - 1) / 2) /\ 0 <= (i - 1) / 2 < i.
Proof. intros Hi. unfold is_child. Z.to_euclidean_division_equations. lia. Qed.

Lemma heap_up_step (a : list Z) (sz i : Z) :
  heap_up a sz i -> 0 < i < sz -> sz <= zlen a -> znth a ((i - 1) / 2) <= znth a i ->
  heap_up (zswap a ((i - 1) / 2) i) sz ((i - 1) / 2).
Proof.
  intros [H1 H2] Hi Hsz Hle. destruct (parent_child i) as [Hp Hr]; [lia|]. set (p := (i - 1) / 2) in *.
  assert (Hz : forall k, 0 <= k -> znth (zswap a p i) k =
    if i =? k then znth a p else if p =? k then znth a i else znth a k)
    by (intros; apply znth_zswap; lia).
  split; intros q c Hq.
  - intros Hc Hcs Hne. rewrite !Hz by (unfold is_child in *; lia).
    assert (i = c -> q = p) by (unfold is_child in *; lia).
    zcase; subst; try lia; try (unfold is_child in *; lia).
    + apply (H2 p c); auto; lia.
    + transitivity (znth a p); [|done]. apply H1; auto.
    + apply H1; auto.
  - intros Hc1 Hc2 Hcs. rewrite !Hz by (unfold is_child in *; lia).
    assert (Hpq : znth a p <= znth a q) by (apply H1; auto; lia).
    zcase; subst; try lia; try (unfold is_child in *; lia).
    transitivity (znth a p); [|done]. apply H1; auto. lia.
Qed.

Lemma heap_up_done (a : list Z) (sz i : Z) :
  heap_up a sz i -> (forall p, 0 <= p -> is_child i p -> znth a i <= znth a p) -> heap_from a 0 sz.
Proof. intros [H1 _] H2 p c Hp Hc Hcs. destruct (decide (c = i)) as [->|]; auto. Qed.

Lemma heapifyBottomUp_spec (sz : Z) (fuel : nat) :
  forall h i, 0 <= i < sz -> sz <= zlen h -> heap_up (map key h) sz i -> (Z.to_nat i < fuel)%nat ->
  exists h', heapifyBottomUp cmp fuel h i = Ok h' /\ heap_from (map key h') 0 sz /\ shuffle 0 (sz - 1) h h'.
Proof.
  induction fuel as [|fuel IH]; intros h i Hi Hsz Hup Hf; [lia|]. cbn [heapifyBottomUp].
  destruct (Z.eqb_spec i 0) as [->|Hne].
  { exists h. split; [done|]. split; [|constructor]. apply heap_up_done with 0; [done|].
    unfold is_child. intros. lia. }
  destruct (parent_child i) as [Hp Hr]; [lia|]. rewrite !arr_get_ok by lia.
  destruct (Z.ltb_spec (cmp (znth h ((i - 1) / 2)) (znth h i)) 0) as [Hlt|Hge].
  - apply keyed in Hlt. rewrite arr_swap_ok by lia.
    destruct (IH (zswap h ((i - 1) / 2) i) ((i - 1) / 2)) as (h' & -> & Hh & Hs); [lia|zarr| |lia|].
    { rewrite map_zswap by lia. apply heap_up_step; [done|lia|by rewrite zlen_map|].
      rewrite !znth_map by lia. lia. }
    exists h'. split; [done|]. split; [done|]. eapply shuffle_trans; [|exact Hs].
    apply shuffle_swap; [constructor|lia..].
  - exists h. split; [done|]. split; [|constructor]. apply heap_up_done with i; [done|].
    intros p Hp0 Hc. assert (p = (i - 1) / 2) as -> by (unfold is_child in *; lia).
    rewrite !znth_map by lia. pose proof (keyed (znth h ((i - 1) / 2)) (znth h i)). lia.
Qed.

(** One round of the loop, with the index of the greatest of the three. *)
Lemma heapifyUpBottom_unfold (fuel : nat) h (r sz : Z) :
  0 <= r < 2 ^ 62 -> r < zlen h -> sz <= zlen h ->
  exists l, (l = r \/ is_child l r /\ l < sz) /\ key (znth h r) <= key (znth h l) /\
    (forall c, is_child c r -> c < sz -> key (znth h c) <= key (znth h l)) /\
    heapifyUpBottom cmp (S fuel) h sz r =
      if negb (l =? r) then let* h := arr_swap h r l in heapifyUpBottom cmp fuel h sz l else Ok h.
Proof.
  intros Hr Hlen Hsz. cbn [heapifyUpBottom]. rewrite !u64_small by lia.
  assert (Hc : forall c, is_child c r <-> c = r * 2 + 1 \/ c = r * 2 + 2) by (unfold is_child; lia).
  assert (Hk : forall a b, (cmp a b <? 0) = (key a <? key b)).
  { intros a b. pose proof (keyed a b). zcase; lia || done. }
  destruct (Z.ltb_spec (r * 2 + 1) sz); destruct (Z.ltb_spec (r * 2 + 2) sz); try lia;
    rewrite ?arr_get_ok by lia; rewrite ?Hk;
    try (destruct (Z.ltb_spec (key (znth h r)) (key (znth h (r * 2 + 1)))));
    rewrite ?arr_get_ok by lia; rewrite ?Hk;
    try (destruct (Z.ltb_spec (key (znth h (r * 2 + 1))) (key (znth h (r * 2 + 2)))));
    try (destruct (Z.ltb_spec (key (znth h r)) (key (znth h (r * 2 + 2)))));
    match goal with |- exists l, _ /\ _ /\ _ /\ (if negb (?x =? _) then _ else _) = _ =>
      exists x; split; [rewrite Hc; lia|]; split; [lia|]; split; [intros c [-> | ->]%Hc ?; lia|done] end.
Qed.

Lemma heapifyUpBottom_spec (sz : Z) (fuel : nat) :
  forall h r, 0 <= r < zlen h -> sz <= zlen h <= 2 ^ 62 -> heap_but (map key h) 0 sz r ->
  Z.max 0 (sz - r) < Z.of_nat fuel ->
  exists h', heapifyUpBottom cmp fuel h sz r = Ok h' /\ heap_from (map key h') 0 sz /\
    shuffle 0 (sz - 1) h h'.
Proof.
  induction fuel as [|fuel IH]; intros h r Hr Hsz Hb Hf; [lia|].
  destruct (heapifyUpBottom_unfold fuel h r sz) as (l & Hl & Hrl & Hmax & ->); [lia..|].
  destruct (Z.eqb_spec l r) as [->|Hne]; cbn [negb].
  - exists h. split; [done|]. split; [|constructor]. apply heap_but_done with r; [done|].
    intros c Hc Hcs. rewrite !znth_map by (unfold is_child in *; lia). auto.
  - destruct Hl as [->|[Hl Hls]]; [done|]. assert (r < l) by (unfold is_child in *; lia).
    rewrite arr_swap_ok by lia.
    destruct (IH (zswap h r l) l) as (h' & -> & Hh & Hs); [zarr|zarr| |lia|].
    { rewrite map_zswap by lia. apply heap_but_step; [done|lia|done|rewrite zlen_map; lia| |].
      - rewrite !znth_map by lia. done.
      - intros c Hc Hcs. rewrite !znth_map by (unfold is_child in *; lia). auto. }
    exists h'. split; [done|]. split; [done|]. eapply shuffle_trans; [|exact Hs].
    apply shuffle_swap; [constructor|lia..].
Qed.
End Heap.

(** ** The queue as a bag

    [contains pq B]: the queue is well formed and holds the elements [B]. *)
Section Bag.
Context {A : Type} `{Inhabited A} (cmp : A -> A -> Z) (key : A -> Z) `{!Keyed cmp key}.
Implicit Types (pq : PriorityQueue A) (B : list A).

Record contains pq B : Prop := {
  pq_size : size pq = zlen B;
  pq_slots : size pq <= zlen (heap pq) <= capacity pq;
  pq_small : zlen (heap pq) < 2 ^ 61;
  pq_heap : heap_from (map key (heap pq)) 0 (size pq);
  pq_bag : take (Z.to_nat (size pq)) (heap pq) ≡ₚ B
}.

Lemma contains_perm pq B B' : contains pq B -> B ≡ₚ B' -> contains pq B'.
Proof.
  intros [H1 H2 H3 H4 H5] Hp. split; auto; [|by rewrite H5].
  rewrite H1. unfold zlen. by rewrite Hp.
Qed.

Lemma create_contains (n : Z) : 0 <= n -> contains (createPQueue n) [].
Proof.
  intros Hn. by split.
Qed.

Lemma shuffle_take (h h' : list A) (n : Z) :
  shuffle 0 (n - 1) h h' -> 0 <= n <= zlen h -> take (Z.to_nat n) h' ≡ₚ take (Z.to_nat n) h.
Proof.
  intros Hs Hn. pose proof (shuffle_perm _ _ _ _ Hs) as Hp. pose proof (shuffle_zlen _ _ _ _ Hs) as Hl.
  rewrite <- (take_drop (Z.to_nat n) h'), <- (take_drop (Z.to_nat n) h) in Hp.
  assert (E : drop (Z.to_nat n) h' = drop (Z.to_nat n) h).
  { apply zlist_eq; [rewrite !zlen_drop by lia; lia|]. intros i. rewrite zlen_drop by lia. intros Hi.
    rewrite !znth_drop by lia. apply (shuffle_outside _ _ _ _ _ Hs); lia. }
  rewrite E in Hp. by apply Permutation_app_inv_r in Hp.
Qed.

(** The slots after [heap[size] = x]. *)
Lemma write_slot_spec pq B (x : A) :
  contains pq B -> size pq < capacity pq -> size pq + 1 < 2 ^ 61 ->
  exists h, write_slot pq (size pq) x = Ok h /\ size pq < zlen h <= capacity pq /\ zlen h < 2 ^ 61 /\
    take (Z.to_nat (size pq)) h = take (Z.to_nat (size pq)) (heap pq) /\ znth h (size pq) = x.
Proof.
  intros [Hs Hsl Hsm _ _] Hc Hb. pose proof (zlen_nonneg B). unfold write_slot.
  destruct (Z.ltb_spec (size pq) (capacity pq)); [|lia].
  destruct (Z.eqb_spec (size pq) (zlen (heap pq))) as [E|Hne].
  - eexists. split; [done|]. rewrite zlen_app, zlen_cons, zlen_nil. split_and!; [lia..| |].
    + rewrite E. unfold zlen. by rewrite Nat2Z.id, take_app_length, take_ge by lia.
    + rewrite E. rewrite znth_app_r by lia. by rewrite Z.sub_diag.
  - rewrite arr_set_ok by lia. eexists. split; [done|]. rewrite zlen_zset. split_and!; [lia..| |].
    + unfold zset. by rewrite take_insert_ge by lia.
    + apply znth_zset_eq. lia.
Qed.

Lemma heap_from_prefix (a b : list Z) (n : Z) :
  heap_from a 0 n -> 0 <= n -> (forall i, 0 <= i < n -> znth b i = znth a i) -> heap_up b (n + 1) n.
Proof.
  intros Hh Hn Heq. split.
  - intros p c Hp Hc Hcs Hne. rewrite !Heq by (unfold is_child in *; lia). apply Hh; auto. lia.
  - unfold is_child. intros. lia.
Qed.

Lemma pqAdd_spec pq B (x : A) :
  contains pq B -> size pq < capacity pq \/ 2 <= capacity pq -> zlen B + 1 < 2 ^ 61 ->
  exists pq', pqAdd cmp pq x = Ok pq' /\ contains pq' (x :: B) /\ capacity pq <= capacity pq'.
Proof.
  intros Hpq Hcap Hb. unfold pqAdd.
  set (pq1 := if size pq =? capacity pq then _ else pq).
  assert (H1 : contains pq1 B /\ size pq1 < capacity pq1 /\ capacity pq <= capacity pq1).
  { unfold pq1. pose proof Hpq as [Hs Hsl Hsm Hh Hp].
    destruct (Z.eqb_spec (size pq) (capacity pq)) as [E|Hne]; [|split; [done|lia]].
    pose proof (mul_realloc_factor_grows (capacity pq)) as Hg.
    split; [|cbn; lia]. split; cbn [size heap capacity]; auto. lia. }
  clearbody pq1. destruct H1 as (Hpq1 & Hc1 & Hc2). pose proof (pq_size _ _ Hpq1) as Hs1.
  pose proof (zlen_nonneg B).
  destruct (write_slot_spec pq1 B x Hpq1 Hc1) as (h & -> & Hh1 & Hh2 & Htk & Hx); [lia|].
  pose proof Hpq1 as [_ Hsl Hsm Hh Hp]. set (n := size pq1) in *.
  assert (Hsame : forall i, 0 <= i < n -> znth h i = znth (heap pq1) i).
  { intros i Hi. rewrite <- (znth_take (Z.to_nat n) h i), <- (znth_take (Z.to_nat n) (heap pq1) i) by lia. by rewrite Htk. }
  destruct (heapifyBottomUp_spec (key := key) (n + 1) (S (Z.to_nat n)) h n) as (h' & -> & Hhp & Hsh); [lia|lia| |lia|].
  { apply heap_from_prefix with (map key (heap pq1)); [done|lia|]. intros i Hi.
    rewrite !znth_map by lia. by rewrite Hsame. }
  eexists. split; [done|]. rewrite u64_small by lia. split; [|cbn; lia].
  pose proof (shuffle_zlen _ _ _ _ Hsh) as Hzl. split; cbn [size heap capacity]; [rewrite zlen_cons; lia|lia|lia|done|].
  rewrite (shuffle_take _ _ (n + 1) Hsh) by lia. rewrite <- Hp, <- Htk.
  replace (Z.to_nat (n + 1)) with (S (Z.to_nat n)) by lia.
  assert (Hl : h !! Z.to_nat n = Some x).
  { rewrite <- Hx. apply list_lookup_lookup_total_lt. unfold zlen in *. lia. }
  rewrite (take_S_r _ _ _ Hl). by rewrite Permutation_app_comm.
Qed.

Lemma pqPop_spec pq B :
  contains pq B -> B <> [] ->
  exists x pq' B', pqPop cmp pq = Ok (SUCCESS, Some x, pq') /\ contains pq' B' /\ B ≡ₚ x :: B' /\
    (forall y, y ∈ B -> key y <= key x) /\ capacity pq' = capacity pq.
Proof.
  intros Hpq Hne. pose proof Hpq as [Hs Hsl Hsm Hh Hp]. pose proof (zlen_nonneg B).
  assert (Hpos : 0 < size pq) by (destruct B; [done|rewrite zlen_cons in *; pose proof (zlen_nonneg B); lia]).
  unfold pqPop. destruct (Z.eqb_spec (size pq) 0) as [|_]; [lia|]. set (n := size pq) in *. set (hp := heap pq) in *.
  rewrite u64_small by lia. rewrite !arr_get_ok by lia. rewrite arr_set_ok by lia.
  set (h := zset hp 0 (znth hp (n - 1))).
  assert (Hz : forall i, 0 <= i -> znth h i = if 0 =? i then znth hp (n - 1) else znth hp i)
    by (intros; apply znth_zset; lia).
  destruct (heapifyUpBottom_spec (key := key) (n - 1) (S (Z.to_nat (n - 1))) h 0) as (h' & -> & Hhp & Hsh);
    [unfold h; zarr|unfold h; zarr| |lia|].
  { apply heap_from_but; [lia|]. intros p c Hp0 Hc Hcs.
    rewrite !znth_map by (unfold h; rewrite zlen_zset; unfold is_child in *; lia).
    rewrite !Hz by (unfold is_child in *; lia). zcase; try (unfold is_child in *; lia).
    rewrite <- !znth_map by (unfold is_child in *; lia). apply Hh; [lia|done|lia]. }
  do 3 eexists. split; [done|]. pose proof (shuffle_zlen _ _ _ _ Hsh) as Hzl.
  assert (Hzh : zlen h = zlen hp) by (unfold h; zarr).
  assert (Hbag : take (Z.to_nat n) hp ≡ₚ znth hp 0 :: take (Z.to_nat (n - 1)) h).
  { assert (Ht : forall i, 0 <= i < n -> take (Z.to_nat n) hp !! Z.to_nat i = Some (znth hp i)).
    { intros i Hi. rewrite lookup_take_lt by lia. apply list_lookup_lookup_total_lt. unfold zlen in *. lia. }
    replace (Z.to_nat n) with (S (Z.to_nat (n - 1))) by lia.
    assert (Hlast : hp !! Z.to_nat (n - 1) = Some (znth hp (n - 1)))
      by (apply list_lookup_lookup_total_lt; unfold zlen in *; lia).
    rewrite (take_S_r _ _ _ Hlast). unfold h, zset.
    destruct (Z.eq_dec n 1) as [E|]; [by rewrite E|].
    destruct hp as [|y hp']; [unfold zlen in Hzh; cbn in *; unfold zlen in Hsl; cbn in Hsl; lia|].
    replace (Z.to_nat (n - 1)) with (S (Z.to_nat (n - 2))) by lia. cbn [Z.to_nat insert list_insert take app].
    rewrite znth_cons_0. constructor. by rewrite Permutation_app_comm. }
  split; [|split; [|split; [|done]]].
  - split; cbn [size heap capacity]; [|lia|lia|exact Hhp|].
    2:{ rewrite (shuffle_take _ _ (n - 1) Hsh) by lia. reflexivity. }
    unfold zlen. rewrite length_take. unfold zlen in *. lia.
  - by rewrite <- Hp, Hbag.
  - intros y Hy. rewrite <- Hp in Hy. apply elem_znth in Hy as (i & Hi & <-).
    rewrite zlen_take in Hi by lia. rewrite znth_take by lia. rewrite <- !znth_map by lia.
    apply (heap_max _ _ Hh (S (Z.to_nat i))); lia.
Qed.

Lemma pqIsEmpty_spec pq B : contains pq B -> pqIsEmpty pq = match B with [] => true | _ => false end.
Proof.
  intros [Hs _ _ _ _]. unfold pqIsEmpty. rewrite Hs. destruct B; [done|]. rewrite zlen_cons.
  pose proof (zlen_nonneg B). zcase; [lia|done].
Qed.

Lemma pqPop_empty pq : contains pq [] -> pqPop cmp pq = Ok (OUT_OF_BOUNDS, None, pq).
Proof. intros [Hs _ _ _ _]. unfold pqPop. by rewrite Hs. Qed.
End Bag.

(** ** Sequences of operations *)

Inductive pq_op (A : Type) := Add (x : A) | Pop.
Arguments Add {A}. Arguments Pop {A}.

Section Runs.
Context {A : Type} `{Inhabited A} (cmp : A -> A -> Z) (key : A -> Z) `{!Keyed cmp key}.

(** The result of every operation: [None] for an addition and for a [Pop] that
    finds the queue empty. *)
Fixpoint pq_run (pq : PriorityQueue A) (ops : list (pq_op A)) : res (list (option A)) :=
  match ops with
  | [] => Ok []
  | Add x :: ops =>
      let* pq := pqAdd cmp pq x in
      let* rest := pq_run pq ops in
      Ok (None :: rest)
  | Pop :: ops =>
      let* '(_, x, pq) := pqPop cmp pq in
      let* rest := pq_run pq ops in
      Ok (x :: rest)
  end.

(** The same on a bag, where a [Pop] takes any element with the greatest key. *)
Inductive bag_run : list A -> list (pq_op A) -> list (option A) -> Prop :=
| bag_nil B : bag_run B [] []
| bag_add B x ops ans : bag_run (x :: B) ops ans -> bag_run B (Add x :: ops) (None :: ans)
| bag_pop_empty ops ans : bag_run [] ops ans -> bag_run [] (Pop :: ops) (None :: ans)
| bag_pop B x B' ops ans :
    B ≡ₚ x :: B' -> (forall y, y ∈ B -> key y <= key x) -> bag_run B' ops ans ->
    bag_run B (Pop :: ops) (Some x :: ans).

Lemma pq_run_ok (ops : list (pq_op A)) :
  forall pq B, contains key pq B -> 2 <= capacity pq -> zlen B + zlen ops < 2 ^ 61 ->
  exists ans, pq_run pq ops = Ok ans /\ bag_run B ops ans.
Proof.
  induction ops as [|op ops IH]; intros pq B Hpq Hc Hl; [eexists; split; [done|constructor]|].
  rewrite zlen_cons in Hl. pose proof (zlen_nonneg ops). destruct op as [x|]; cbn [pq_run].
  - destruct (pqAdd_spec cmp key pq B x Hpq) as (pq' & -> & Hpq' & Hc'); [by right|lia|].
    destruct (IH pq' (x :: B) Hpq') as (ans & -> & Hr); [lia|rewrite zlen_cons; lia|].
    eexists. split; [done|]. by constructor.
  - destruct B as [|b B].
    + rewrite (pqPop_empty cmp key pq Hpq). destruct (IH pq [] Hpq) as (ans & -> & Hr); [lia|lia|].
      eexists. split; [done|]. by constructor.
    + destruct (pqPop_spec cmp key pq (b :: B) Hpq) as (x & pq' & B' & -> & Hpq' & Hp & Hmax & Hc'); [done|].
      pose proof (Permutation_length Hp) as Hlen. cbn in Hlen.
      destruct (IH pq' B' Hpq') as (ans & -> & Hr); [lia|rewrite zlen_cons in Hl; unfold zlen in *; lia|].
      eexists. split; [done|]. by eapply bag_pop.
Qed.
End Runs.

(** C34.  The binary heap is a priority queue: on a queue created for at least two
    and fewer than 2^60 elements (so that no allocation size wraps around), every
    sequence of fewer than 2^60 additions and removals returns, each removal giving
    an element than which no element present is greater, however often the array
    is enlarged.  On a queue created for one element the second addition writes
    outside the array, because one and a half times 1 is 1 after conversion. *)
Theorem pqueue_refines_bag (A : Type) (IA : Inhabited A) (cmp : A -> A -> Z) (key : A -> Z)
    (n : Z) (ops : list (pq_op A)) :
  Keyed cmp key -> 2 <= n < 2 ^ 60 -> zlen ops < 2 ^ 60 ->
  (exists ans, pq_run cmp (createPQueue n) ops = Ok ans /\ bag_run key [] ops ans) /\
  forall x y rest, pq_run cmp (createPQueue 1) (Add x :: Add y :: rest) = Err Undefined.
Proof.
  intros HK Hn Hl. split; [|done].
  apply pq_run_ok; [done|apply create_contains; lia|cbn; lia|]. change (zlen (@nil A)) with 0. lia.
Qed.

#[export] Instance sub_keyed : Keyed Z.sub id.
Proof. intros a b. cbn. lia. Qed.

Definition demo_ops : list (pq_op Z) := [Add 3; Add 8; Add 5; Pop; Add 1; Pop; Pop; Pop; Pop].

Lemma pqueue_refines_bag_witness :
  (exists ans, pq_run Z.sub (createPQueue 2) demo_ops = Ok ans /\ bag_run id [] demo_ops ans) /\
  forall x y rest, pq_run Z.sub (createPQueue 1) (Add x :: Add y :: rest) = Err Undefined.
Proof. apply (pqueue_refines_bag Z _ Z.sub id 2 demo_ops); [exact sub_keyed|lia|done]. Defined.

Example demo_ops_run :
  pq_run Z.sub (createPQueue 2) demo_ops =
    Ok [None; None; None; Some 8; None; Some 5; Some 3; Some 1; None].
Proof. vm_compute. reflexivity. Qed.
