(* ===== verification/GraphInput.v ===== *)
(** * The edge lists of the graph programs

    The input files of Dijkstra's, Prim's and Kruskal's programs list edges with
    vertices numbered from 1. *)
From S2P Require Import Prelude.

(** An edge the programs accept in a graph of [n] vertices. *)
Definition valid_edge (n : Z) (e : Z * Z * Z) : Prop :=
  let '(u, v, len) := e in 1 <= u <= n /\ 1 <= v <= n /\ 0 <= len <= INT_MAX.

(** The numbers of the file, in order. *)
Definition edge_text (es : list (Z * Z * Z)) : list Z := flat_map (fun '(u, v, len) => [u; v; len]) es.

(** The adjacency described by a list of edges: for two vertices the last edge
    listed counts. *)
Fixpoint listed (es : list (Z * Z * Z)) (acc : option Z) (a b : Z) : option Z :=
  match es with
  | [] => acc
  | (u, v, len) :: es =>
      listed es (if (u - 1 =? a) && (v - 1 =? b) || (v - 1 =? a) && (u - 1 =? b) then Some len else acc) a b
  end.

Lemma listed_sym es : forall acc a b, listed es acc a b = listed es acc b a.
Proof.
  induction es as [|[[u v] len] es IH]; intros acc a b; cbn [listed]; [done|]. rewrite IH.
  f_equal. zcase; done.
Qed.
