(* ===== verification/AdjGraph.v ===== *)
(** * C-Labs/Shortest_path_Dijkstra_algo/src/graph.c

    Undirected weighted graphs as adjacency matrices of [int32_t], with -1 for the
    absence of an edge.  Allocation is taken to succeed. *)
From S2P Require Import Prelude.

Record Graph := mkGraph { adjMatrix : list (list Z); vertCount : Z }.

Definition allocateAdjMatrix (n : Z) : list (list Z) :=
  replicate (Z.to_nat n) (replicate (Z.to_nat n) (-1)).

(** [None] is the null pointer. *)
Definition createGraph (vertexCount : Z) : option Graph :=
  if vertexCount =? 0 then None
  else Some (mkGraph (allocateAdjMatrix vertexCount) vertexCount).

(** [false] is [OUT_OF_BOUNDS]; the length is stored as an [int32_t]. *)
Definition addEdge (graph : Graph) (u v length : Z) : res (Graph * bool) :=
  if (u >=? vertCount graph) || (v >=? vertCount graph) then Ok (graph, false)
  else
    let* m := mat_set (adjMatrix graph) u v (to_s32 length) in
    let* m := mat_set m v u (to_s32 length) in
    Ok (mkGraph m (vertCount graph), true).

Definition hasEdge (graph : Graph) (u v : Z) : res bool :=
  let* x := mat_get (adjMatrix graph) u v in
  Ok (negb (x =? -1)).

Definition getVertexCount (graph : Graph) : Z := vertCount graph.

(** [EdgeIterator_t], on its graph. *)
Record EdgeIterator := mkIt { it_u : Z; curV : Z }.

Definition constructEdgeIterator (vertex : Z) : EdgeIterator := mkIt (to_s64 vertex) (-1).

(** The search of [nextEdge] from [v] on: the vertex and the length. *)
Fixpoint find_edge (k : nat) (graph : Graph) (u v : Z) : res (option (Z * Z)) :=
  match k with
  | O => Ok None
  | S k =>
      let* e := hasEdge graph u v in
      if e then
        let* x := mat_get (adjMatrix graph) u v in
        Ok (Some (v, u32 x))
      else find_edge k graph u (v + 1)
  end.

(** [dst] and whether there was an edge, and the new state of the iterator. *)
Definition nextEdge (graph : Graph) (it : EdgeIterator) : res (option (Z * Z) * EdgeIterator) :=
  let v := u64 (curV it + 1) in
  let* e := find_edge (Z.to_nat (vertCount graph - v)) graph (it_u it) v in
  match e with
  | Some (v, len) => Ok (Some (v, len), mkIt (it_u it) (to_s64 v))
  | None => Ok (None, mkIt (it_u it) (-1))
  end.

(** ** The graph the matrix stands for *)

(** [n] rows of [n] entries, -1 or a length. *)
Record graph_ok (g : Graph) : Prop := {
  g_pos : 0 < vertCount g < 2 ^ 15;
  g_rows : zlen (adjMatrix g) = vertCount g;
  g_cols u : 0 <= u < vertCount g -> zlen (znth (adjMatrix g) u) = vertCount g;
  g_entries u v : 0 <= u < vertCount g -> 0 <= v < vertCount g ->
    -1 <= znth (znth (adjMatrix g) u) v < 2 ^ 31
}.

(** The length of the edge from [u] to [v]. *)
Definition edge (g : Graph) (u v : Z) : option Z :=
  if (0 <=? u) && (u <? vertCount g) && (0 <=? v) && (v <? vertCount g) then
    let x := znth (znth (adjMatrix g) u) v in
    if x =? -1 then None else Some x
  else None.

Definition vertex (g : Graph) (v : Z) : Prop := 0 <= v < vertCount g.

Lemma edge_inv (g : Graph) (u v w : Z) :
  graph_ok g -> edge g u v = Some w -> vertex g u /\ vertex g v /\ 0 <= w < 2 ^ 31.
Proof.
  intros Hg. unfold edge, vertex. zcase; try discriminate. intros [= <-].
  pose proof (g_entries g Hg u v). lia.
Qed.

Lemma cell_ok (g : Graph) (u v : Z) :
  graph_ok g -> vertex g u -> vertex g v ->
  mat_get (adjMatrix g) u v = Ok (znth (znth (adjMatrix g) u) v).
Proof.
  intros Hg Hu Hv. apply (mat_get_ok _ (vertCount g) (vertCount g)); [apply Hg..|done|done].
Qed.

Lemma hasEdge_spec (g : Graph) (u v : Z) :
  graph_ok g -> vertex g u -> vertex g v ->
  hasEdge g u v = Ok (match edge g u v with Some _ => true | None => false end).
Proof.
  intros Hg Hu Hv. unfold hasEdge. rewrite cell_ok by done. unfold edge, vertex in *.
  zcase; try lia; done.
Qed.

(** The edges of [u] to the vertices from [v] on, as the iterator gives them. *)
Fixpoint edges_from (k : nat) (g : Graph) (u v : Z) : list (Z * Z) :=
  match k with
  | O => []
  | S k =>
      match edge g u v with
      | Some w => (v, w) :: edges_from k g u (v + 1)
      | None => edges_from k g u (v + 1)
      end
  end.

Lemma find_edge_spec (k : nat) (g : Graph) (u : Z) :
  graph_ok g -> vertex g u -> forall v, 0 <= v -> v + Z.of_nat k = vertCount g ->
  exists r, find_edge k g u v = Ok r /\
    match r with
    | None => edges_from k g u v = []
    | Some (v', w) => v <= v' < vertCount g /\
        edges_from k g u v = (v', w) :: edges_from (Z.to_nat (vertCount g - (v' + 1))) g u (v' + 1)
    end.
Proof.
  intros Hg Hu. induction k as [|k IH]; intros v Hv Hk; [by eexists|]. cbn [find_edge edges_from].
  assert (Hvv : vertex g v) by (unfold vertex; lia). rewrite hasEdge_spec by done.
  destruct (edge g u v) as [w|] eqn:Ee.
  - rewrite cell_ok by done. eexists. split; [done|]. destruct (edge_inv g u v w Hg Ee) as (_ & _ & Hw).
    assert (Hx : znth (znth (adjMatrix g) u) v = w).
    { revert Ee. unfold edge, vertex in *. zcase; try lia; try done. by intros [= ->]. }
    rewrite Hx, u32_small by lia. split; [unfold vertex in Hvv; lia|]. do 2 f_equal. lia.
  - destruct (IH (v + 1)) as (r & -> & Hr); [lia|lia|]. exists r. split; [done|].
    destruct r as [[v' w]|]; [|done]. destruct Hr. split; [lia|done].
Qed.

(** The iterator at a vertex: [rest] are the edges still to come. *)
Definition iterates (g : Graph) (it : EdgeIterator) (rest : list (Z * Z)) : Prop :=
  -1 <= curV it < vertCount g /\ vertex g (it_u it) /\
  rest = edges_from (Z.to_nat (vertCount g - (curV it + 1))) g (it_u it) (curV it + 1).

Lemma construct_iterates (g : Graph) (u : Z) :
  graph_ok g -> vertex g u -> iterates g (constructEdgeIterator u) (edges_from (Z.to_nat (vertCount g)) g u 0).
Proof.
  intros Hg Hu. pose proof (g_pos g Hg). unfold vertex in Hu. unfold iterates, constructEdgeIterator, to_s64.
  cbn [curV it_u]. rewrite to_signed_small by lia. split; [lia|]. split; [done|]. do 2 f_equal. lia.
Qed.

Lemma nextEdge_spec (g : Graph) (it : EdgeIterator) (rest : list (Z * Z)) :
  graph_ok g -> iterates g it rest ->
  match rest with
  | [] => exists it', nextEdge g it = Ok (None, it')
  | e :: rest => exists it', nextEdge g it = Ok (Some e, it') /\ iterates g it' rest
  end.
Proof.
  intros Hg (Hc & Hu & ->). pose proof (g_pos g Hg). unfold nextEdge. rewrite u64_small by lia.
  destruct (find_edge_spec (Z.to_nat (vertCount g - (curV it + 1))) g (it_u it) Hg Hu (curV it + 1))
    as (r & -> & Hr); [lia|lia|].
  destruct r as [[v w]|].
  - destruct Hr as [Hv ->]. eexists. split; [done|]. unfold iterates, to_s64. cbn [curV it_u].
    rewrite to_signed_small by lia. split; [lia|]. split; [done|]. done.
  - rewrite Hr. by eexists.
Qed.

Lemma edges_from_spec (k : nat) (g : Graph) (u : Z) :
  forall v, 0 <= v -> v + Z.of_nat k = vertCount g -> forall x w,
  (x, w) ∈ edges_from k g u v <-> v <= x < vertCount g /\ edge g u x = Some w.
Proof.
  induction k as [|k IH]; intros v Hv Hk x w; cbn [edges_from].
  { split; [by intros ?%elem_of_nil|lia]. }
  destruct (edge g u v) as [w'|] eqn:Ee.
  - rewrite elem_of_cons, IH by lia. split.
    + intros [[= -> ->]|[? ?]]; [split; [lia|done]|split; [lia|done]].
    + intros [Hx E]. destruct (Z.eq_dec x v) as [->|]; [left; congruence|right; split; [lia|done]].
  - rewrite IH by lia. split; [intros [? ?]; split; [lia|done]|]. intros [Hx E].
    destruct (Z.eq_dec x v) as [->|]; [congruence|split; [lia|done]].
Qed.

Lemma edges_from_length (k : nat) (g : Graph) (u v : Z) : (length (edges_from k g u v) <= k)%nat.
Proof.
  revert v. induction k as [|k IH]; intros v; cbn [edges_from]; [done|]. specialize (IH (v + 1)).
  destruct (edge g u v); cbn; lia.
Qed.

(** ** Construction *)

Lemma createGraph_ok (n : Z) :
  0 < n < 2 ^ 15 -> exists g, createGraph n = Some g /\ graph_ok g /\ vertCount g = n /\
    forall u v, edge g u v = None.
Proof.
  intros Hn. unfold createGraph. destruct (Z.eqb_spec n 0); [lia|]. eexists. split; [done|].
  unfold allocateAdjMatrix. set (row := replicate (Z.to_nat n) (-1)).
  assert (Hrow : forall u, 0 <= u < n -> znth (replicate (Z.to_nat n) row) u = row).
  { intros u Hu. unfold znth. apply lookup_total_replicate_2. lia. }
  assert (Hcell : forall v, 0 <= v < n -> znth row v = -1).
  { intros v Hv. unfold znth, row. apply lookup_total_replicate_2. lia. }
  split; [|split; [done|]].
  - split; cbn [vertCount adjMatrix]; [done|unfold zlen; rewrite length_replicate; lia| |].
    + intros u Hu. rewrite Hrow by done. unfold zlen, row. rewrite length_replicate. lia.
    + intros u v Hu Hv. rewrite Hrow, Hcell by done. lia.
  - intros u v. unfold edge. cbn [vertCount adjMatrix]. zcase; try done.
    rewrite Hrow in * by lia. rewrite Hcell in * by lia. done.
Qed.

Lemma addEdge_spec (g : Graph) (u v len : Z) :
  graph_ok g -> vertex g u -> vertex g v -> 0 <= len < 2 ^ 31 ->
  exists g', addEdge g u v len = Ok (g', true) /\ graph_ok g' /\ vertCount g' = vertCount g /\
    forall a b, edge g' a b =
      if (u =? a) && (v =? b) || (v =? a) && (u =? b) then Some len else edge g a b.
Proof.
  intros Hg Hu Hv Hlen. pose proof Hg as [Hpos Hrows Hcols Hent]. unfold addEdge, vertex in *.
  rewrite !Z.geb_leb. destruct (Z.leb_spec (vertCount g) u); [lia|].
  destruct (Z.leb_spec (vertCount g) v); [lia|]. cbn [orb].
  unfold to_s32. rewrite to_signed_small by lia.
  destruct (mat_set_ok (adjMatrix g) (vertCount g) (vertCount g) u v len Hrows Hcols Hu Hv) as (m1 & -> & L1 & R1 & C1).
  destruct (mat_set_ok m1 (vertCount g) (vertCount g) v u len L1 R1 Hv Hu) as (m2 & -> & L2 & R2 & C2).
  eexists. split; [done|].
  assert (Hcell : forall a b, 0 <= a < vertCount g -> 0 <= b < vertCount g -> znth (znth m2 a) b =
    if (u =? a) && (v =? b) || (v =? a) && (u =? b) then len else znth (znth (adjMatrix g) a) b).
  { intros a b Ha Hb. rewrite C2, C1 by done. zcase; done. }
  split; [|split; [done|]].
  - split; cbn [vertCount adjMatrix]; [done|done|done|]. intros a b Ha Hb. rewrite Hcell by done.
    specialize (Hent a b Ha Hb). destruct (_ || _); lia.
  - intros a b. unfold edge. cbn [vertCount adjMatrix].
    destruct ((0 <=? a) && (a <? vertCount g) && (0 <=? b) && (b <? vertCount g)) eqn:Er.
    + rewrite Hcell by lia. destruct (_ || _); [|done]. zcase; lia || done.
    + destruct (_ || _) eqn:Eo; [lia|done].
Qed.
