(* ===== verification/Dijkstra.v ===== *)
(** * C-Labs/Shortest_path_Dijkstra_algo/src: shortest_path.c, main.c

    Dijkstra's algorithm with a binary heap and lazy deletion. *)
From S2P Require Import Prelude HeapSort PQueue GraphInput AdjGraph.

Inductive status :=
| Success | BadNumberOfLines | BadNumberOfVertices | BadNumberOfEdges | BadVertex | BadLength
| AllocationError | OutOfBounds | NoPath | Overflow.

(** [DijkstraNode_t] *)
Record DijkstraNode := mkNode { node_vertex : Z; dist : Z }.

#[export] Instance node_inhabited : Inhabited DijkstraNode := populate (mkNode 0 0).

Definition nodeCompare (a b : DijkstraNode) : Z :=
  if dist a <? dist b then 1 else if dist a =? dist b then 0 else -1.

(** The local variables of [findShortestPath]. *)
Record search := mkSearch {
  distances : list Z;
  parents : list Z;
  visited : list bool;
  queue : PriorityQueue DijkstraNode;
  overflowCount : Z
}.

(** The body of the loop over the edges of the current vertex. *)
Definition relax (curNode : DijkstraNode) (st : search) (e : Z * Z) : res search :=
  let '(v, len) := e in
  let newLength := u64 (dist curNode + len) in
  let* vis := arr_get (visited st) v in
  let* d := arr_get (distances st) v in
  if negb vis && (newLength <? d) then
    let* oc := if newLength >=? INT_MAX then s32 (overflowCount st + 1) else Ok (overflowCount st) in
    let* ps := arr_set (parents st) v (node_vertex curNode) in
    let* ds := arr_set (distances st) v newLength in
    let* q := pqAdd nodeCompare (queue st) (mkNode v newLength) in
    Ok (mkSearch ds ps (visited st) q oc)
  else Ok st.

(** [for (Edge_t e; nextEdge(&it, &e); )]: a vertex has at most as many edges as
    there are vertices. *)
Fixpoint edge_loop (fuel : nat) (graph : Graph) (curNode : DijkstraNode) (it : EdgeIterator)
    (st : search) : res search :=
  match fuel with
  | O => Err OutOfFuel
  | S fuel =>
      let* '(e, it) := nextEdge graph it in
      match e with
      | None => Ok st
      | Some e =>
          let* st := relax curNode st e in
          edge_loop fuel graph curNode it st
      end
  end.

(** [while (!pqIsEmpty(queue))] *)
Fixpoint main_loop (fuel : nat) (graph : Graph) (st : search) : res search :=
  if pqIsEmpty (queue st) then Ok st
  else
    match fuel with
    | O => Err OutOfFuel
    | S fuel =>
        let* '(_, popped, q) := pqPop nodeCompare (queue st) in
        match popped with
        | None => Err Undefined
        | Some curNode =>
            let st := mkSearch (distances st) (parents st) (visited st) q (overflowCount st) in
            let* vis := arr_get (visited st) (node_vertex curNode) in
            if vis then main_loop fuel graph st
            else
              let* vs := arr_set (visited st) (node_vertex curNode) true in
              let st := mkSearch (distances st) (parents st) vs q (overflowCount st) in
              let* st := edge_loop (S (Z.to_nat (getVertexCount graph))) graph curNode
                           (constructEdgeIterator (node_vertex curNode)) st in
              main_loop fuel graph st
        end
    end.

(** The next index and the array [data->path]. *)
Fixpoint convertToPath (fuel : nat) (v : Z) (ps path : list Z) : res (Z * list Z) :=
  match fuel with
  | O => Err OutOfFuel
  | S fuel =>
      if v =? UINT64_MAX then Ok (0, path)
      else
        let* p := arr_get ps v in
        let* '(idx, path) := convertToPath fuel p ps path in
        let* path := arr_set path idx v in
        Ok (idx + 1, path)
  end.

(** [ShortestPathData_t] *)
Record ShortestPathData := mkData { d_distances : list Z; d_path : list Z; d_pathLen : Z }.

(** [garbage] is what the fresh array for the path contains. *)
Definition findShortestPath (graph : Graph) (start finish : Z) (garbage : list Z)
  : res (status * ShortestPathData) :=
  let n := getVertexCount graph in
  let infinite := replicate (Z.to_nat n) UINT64_MAX in
  let* ds := arr_set infinite start 0 in
  let* q := pqAdd nodeCompare (createPQueue n) (mkNode start 0) in
  let* st := main_loop (Z.to_nat ((n + 1) * n + 2)) graph
               (mkSearch ds infinite (replicate (Z.to_nat n) false) q 0) in
  let* d := arr_get (distances st) finish in
  if d =? UINT64_MAX then Ok (NoPath, mkData (distances st) garbage 0)
  else if (overflowCount st >? 2) && (d >? INT_MAX) then Ok (Overflow, mkData (distances st) garbage 0)
  else
    let* '(pathLen, path) := convertToPath (S (S (Z.to_nat n))) finish (parents st) garbage in
    Ok (Success, mkData (distances st) path pathLen).

(** ** main.c *)

Definition validateVerticesNumber (vertN : Z) : bool := (0 <=? vertN) && (vertN <=? 5000).

Definition validateEdgesNumber (vertN edgesN : Z) : res bool :=
  let* m := s32 (vertN * (vertN - 1)) in
  let maxEdgesN := Z.quot m 2 in
  Ok ((0 <=? edgesN) && (edgesN <=? maxEdgesN)).

Definition validateVertexIndex (vertN idx : Z) : bool := (1 <=? idx) && (idx <=? vertN).

Definition validateVertexLength (len : Z) : bool := (0 <=? len) && (len <=? INT_MAX).

(** What the program prints: a message, or the distances and the second line. *)
Inductive distance_text := Infinite | IntMaxPlus | Finite (d : Z).
Inductive path_text := NoPathText | OverflowText | Vertices (path : list Z).
Inductive output := Message (s : status) | Answer (ds : list distance_text) (p : path_text).

Definition print_distance (d : Z) : distance_text :=
  if d =? UINT64_MAX then Infinite else if d >? INT_MAX then IntMaxPlus else Finite d.

(** [for (i = pathLen - 1; i != (size_t) -1; --i) print path[i] + 1] *)
Fixpoint print_path (k : nat) (path : list Z) : res (list Z) :=
  match k with
  | O => Ok []
  | S k =>
      let* v := arr_get path (Z.of_nat k) in
      let* rest := print_path k path in
      Ok (u64 (v + 1) :: rest)
  end.

(** The loop that reads the edges: the graph, or the reason to stop. *)
Fixpoint read_edges (k : nat) (vertN : Z) (graph : Graph) (input : list Z) : res (Graph + status) :=
  match k with
  | O => Ok (inl graph)
  | S k =>
      match input with
      | u :: v :: len :: input =>
          if negb (validateVertexIndex (to_s32 vertN) u) then Ok (inr BadVertex)
          else if negb (validateVertexIndex (to_s32 vertN) v) then Ok (inr BadVertex)
          else if negb (validateVertexLength len) then Ok (inr BadLength)
          else
            let* '(graph, added) := addEdge graph (u64 (u - 1)) (u64 (v - 1)) (u32 len) in
            if added then read_edges k vertN graph input else Ok (inr OutOfBounds)
      | _ => Ok (inr BadNumberOfLines)
      end
  end.

(** The first four numbers are read as [size_t] and converted to [int] where they
    are validated. *)
Definition main (garbage input : list Z) : res output :=
  match input with
  | vertN :: start :: finish :: edgesN :: input =>
      if negb (validateVerticesNumber (to_s32 vertN)) then Ok (Message BadNumberOfVertices)
      else if negb (validateVertexIndex (to_s32 vertN) (to_s32 start)) ||
              negb (validateVertexIndex (to_s32 vertN) (to_s32 finish)) then Ok (Message BadVertex)
      else
        let* edges_ok := validateEdgesNumber (to_s32 vertN) (to_s32 edgesN) in
        if negb edges_ok then Ok (Message BadNumberOfEdges)
        else
          match createGraph vertN with
          | None => Ok (Message AllocationError)
          | Some graph =>
              let* r := read_edges (Z.to_nat edgesN) vertN graph input in
              match r with
              | inr s => Ok (Message s)
              | inl graph =>
                  let* '(code, ans) :=
                    findShortestPath graph (u64 (start - 1)) (u64 (finish - 1)) garbage in
                  let ds := map print_distance (d_distances ans) in
                  match code with
                  | NoPath => Ok (Answer ds NoPathText)
                  | Overflow => Ok (Answer ds OverflowText)
                  | _ =>
                      let* p := print_path (Z.to_nat (d_pathLen ans)) (d_path ans) in
                      Ok (Answer ds (Vertices p))
                  end
              end
          end
  | _ => Ok (Message BadNumberOfLines)
  end.

Example dijkstra_run :
  main (replicate 4 77) [4; 1; 3; 4;  1; 2; 5;  2; 3; 7;  1; 3; 20;  3; 4; 2147483647] =
    Ok (Answer [Finite 0; Finite 5; Finite 12; IntMaxPlus] (Vertices [3; 2; 1])).
Proof. vm_compute. reflexivity. Qed.

(** ** Walks *)

Section Correct.
Context (g : Graph) (Hg : graph_ok g) (s : Z) (Hs : vertex g s).
#[local] Abbreviation n := (vertCount g).
#[local] Abbreviation MAX := UINT64_MAX.

(** [walk v d]: there is a walk from the start to [v] of length [d]. *)
Inductive walk : Z -> Z -> Prop :=
| walk_start : walk s 0
| walk_step u v d w : walk u d -> edge g u v = Some w -> walk v (d + w).

(** The vertices of a walk, in order. *)
Inductive route : list Z -> Z -> Prop :=
| route_start : route [s] 0
| route_step p u v d w :
    route (p ++ [u]) d -> edge g u v = Some w -> route (p ++ [u; v]) (d + w).

Definition shortest (v d : Z) : Prop := walk v d /\ forall d', walk v d' -> d <= d'.

#[export] Instance nodeCompare_keyed : Keyed nodeCompare (fun x => - dist x).
Proof. intros a b. unfold nodeCompare. zcase; lia. Qed.

(** ** Traces of the parent array

    [trace V ps ds v p]: following [ps] back from [v] gives the path [p] from the
    start, all of whose vertices but the last are in [V], and the distances in [ds]
    add up along it. *)
Inductive trace (V : list Z) (ps ds : list Z) : Z -> list Z -> Prop :=
| trace_start : znth ps s = MAX -> znth ds s = 0 -> trace V ps ds s [s]
| trace_step u v p w :
    trace V ps ds u p -> u ∈ V -> v ∉ p -> znth ps v = u -> edge g u v = Some w ->
    znth ds v = znth ds u + w -> trace V ps ds v (p ++ [v]).

Lemma trace_vertex V ps ds v p : trace V ps ds v p -> vertex g v.
Proof. induction 1; [done|]. by eapply edge_inv. Qed.

Lemma trace_last V ps ds v p : trace V ps ds v p -> exists q, p = q ++ [v] /\ Forall (fun x => x ∈ V) q.
Proof.
  induction 1 as [|u v p w Ht (q & -> & Hq) Hu Hv]; [by exists []|].
  exists (q ++ [u]). split; [done|]. apply Forall_app. split; [done|]. by constructor.
Qed.

Lemma trace_nodup V ps ds v p : trace V ps ds v p -> NoDup p /\ Forall (vertex g) p.
Proof.
  induction 1 as [|u v p w Ht [Hn Hf] Hu Hv Hp He Hd]; [split; [apply NoDup_singleton|by constructor]|].
  split.
  - apply NoDup_app. split_and!; [done| |apply NoDup_singleton].
    intros x Hx ->%list_elem_of_singleton. done.
  - apply Forall_app. split; [done|]. constructor; [by eapply edge_inv|constructor].
Qed.

Lemma V_length V : NoDup V -> Forall (vertex g) V -> zlen V <= n.
Proof.
  intros Hn Hf. pose proof (g_pos g Hg). unfold zlen. transitivity (Z.of_nat (length (seqZ 0 n))); [|rewrite length_seqZ; lia].
  apply Nat2Z.inj_le, submseteq_length, NoDup_submseteq; [done|]. intros x Hx.
  rewrite Forall_forall in Hf. specialize (Hf x Hx). unfold vertex in Hf. apply elem_of_seqZ. lia.
Qed.

Lemma trace_length V ps ds v p : trace V ps ds v p -> zlen p <= n.
Proof. intros Ht. destruct (trace_nodup _ _ _ _ _ Ht). by apply V_length. Qed.

Lemma trace_route V ps ds v p : trace V ps ds v p -> route p (znth ds v).
Proof.
  induction 1 as [_ ->|u v p w Ht IH Hu Hv Hp He Hd]; [constructor|].
  destruct (trace_last _ _ _ _ _ Ht) as (q & -> & _). rewrite <- app_assoc, Hd. cbn. by constructor.
Qed.

Lemma trace_walk V ps ds v p : trace V ps ds v p -> walk v (znth ds v).
Proof. induction 1 as [_ ->|u v p w Ht IH Hu Hv Hp He ->]; [constructor|]. exact (walk_step u v _ w IH He). Qed.

Lemma trace_bound V ps ds v p :
  trace V ps ds v p -> 0 <= znth ds v <= (zlen p - 1) * 2 ^ 31.
Proof.
  induction 1 as [_ ->|u v p w Ht IH Hu Hv Hp He ->]; [done|].
  destruct (edge_inv g u v w Hg He) as (_ & _ & Hw). rewrite zlen_app. change (zlen [v]) with 1. lia.
Qed.

Lemma trace_small V ps ds v p : trace V ps ds v p -> 0 <= znth ds v < 2 ^ 52.
Proof.
  intros Ht. pose proof (trace_bound _ _ _ _ _ Ht). pose proof (trace_length _ _ _ _ _ Ht).
  pose proof (g_pos g Hg). nia.
Qed.

Lemma trace_mono V V' ps ds v p :
  (forall x, x ∈ V -> x ∈ V') -> trace V ps ds v p -> trace V' ps ds v p.
Proof. intros HV. induction 1; [by constructor|]. eapply trace_step; eauto. Qed.

(** Changing the entry of a vertex outside [V] other than the start does not
    disturb the traces of the others. *)
Lemma trace_update V ps ds v x p pv dv :
  zlen ps = n -> zlen ds = n -> vertex g v -> v ∉ V -> v <> s ->
  trace V ps ds x p -> x <> v -> trace V (zset ps v pv) (zset ds v dv) x p.
Proof.
  intros Hlp Hld Hv HvV Hvs Ht. unfold vertex in *.
  induction Ht as [E1 E2|u y p w Ht IH Hu Hy Hp He Hd]; intros Hne.
  - constructor; rewrite znth_zset_ne; auto; lia.
  - assert (Huv : u <> v) by (intros ->; done). destruct (edge_inv g u y w Hg He) as (Hug & Hyg & _).
    unfold vertex in *. eapply trace_step; eauto; rewrite !znth_zset_ne; auto; lia.
Qed.

(** ** The invariant

    [V]: the visited vertices; [B]: the contents of the queue; [done u v]: the
    edge from the visited [u] to [v] has been relaxed. *)
Record inv (V : list Z) (B : list DijkstraNode) (done : Z -> Z -> Prop) (st : search) : Prop := {
  i_ds : zlen (distances st) = n;
  i_ps : zlen (parents st) = n;
  i_vs : zlen (visited st) = n;
  i_V : NoDup V;
  i_Vv : Forall (vertex g) V;
  i_visited v : vertex g v -> znth (visited st) v = true <-> v ∈ V;
  i_queue : contains (fun x => - dist x) (queue st) B;
  i_cap : n <= capacity (queue st);
  i_start : znth (distances st) s = 0;
  i_trace v : vertex g v -> znth (distances st) v = MAX \/ exists p, trace V (parents st) (distances st) v p;
  i_final v d : v ∈ V -> znth (distances st) v <> MAX /\ (walk v d -> znth (distances st) v <= d);
  i_relaxed u v w : u ∈ V -> done u v -> edge g u v = Some w ->
    znth (distances st) v <= znth (distances st) u + w;
  i_frontier v : vertex g v -> v ∉ V -> znth (distances st) v <> MAX ->
    mkNode v (znth (distances st) v) ∈ B;
  i_bag x : x ∈ B -> vertex g (node_vertex x) /\ znth (distances st) (node_vertex x) <= dist x < MAX
}.

Lemma inv_trace V B done st v :
  inv V B done st -> vertex g v -> znth (distances st) v <> MAX ->
  exists p, trace V (parents st) (distances st) v p.
Proof. intros Hi Hv Hne. by destruct (i_trace _ _ _ _ Hi v Hv). Qed.

Lemma inv_small V B done st v :
  inv V B done st -> vertex g v -> znth (distances st) v <> MAX -> 0 <= znth (distances st) v < 2 ^ 52.
Proof. intros Hi Hv Hne. destruct (inv_trace _ _ _ _ v Hi Hv Hne) as (p & Hp). by eapply trace_small. Qed.

(** Every walk to an unvisited vertex passes an unvisited vertex whose tentative
    distance is at most its length. *)
Lemma frontier_walk V B st x d :
  inv V B (fun _ _ => True) st -> walk x d -> x ∉ V ->
  exists y, vertex g y /\ (y ∉ V) /\ znth (distances st) y <= d /\ znth (distances st) y <> MAX.
Proof.
  intros Hi Hw. induction Hw as [|u v d w Hw IH He]; intros Hx.
  - exists s. rewrite (i_start _ _ _ _ Hi). by split_and!.
  - destruct (edge_inv g u v w Hg He) as (Hu & Hv & Hwb). destruct (decide (u ∈ V)) as [HuV|HuV].
    + exists v. pose proof (i_relaxed _ _ _ _ Hi u v w HuV I He) as Hr.
      destruct (i_final _ _ _ _ Hi u d HuV) as [Hne Hf]. specialize (Hf Hw).
      pose proof (inv_small _ _ _ _ u Hi Hu Hne). split_and!; [done|done|lia|unfold UINT64_MAX; lia].
    + destruct (IH HuV) as (y & H1 & H2 & H3 & H4). exists y. split_and!; auto. lia.
Qed.

(** ** Relaxation of one edge *)

Lemma relaxed_visited V B done st u v w :
  inv V B done st -> u ∈ V -> v ∈ V -> edge g u v = Some w ->
  znth (distances st) v <= znth (distances st) u + w.
Proof.
  intros Hi Hu Hv He. destruct (i_final _ _ _ _ Hi u 0 Hu) as [Hne _].
  destruct (edge_inv g u v w Hg He) as (Hug & _ & _).
  destruct (inv_trace _ _ _ _ u Hi Hug Hne) as (p & Hp).
  apply (i_final _ _ _ _ Hi v _ Hv). eapply walk_step; [|exact He]. by eapply trace_walk.
Qed.

(** The state after a better path to [v] through [u] was found. *)
Lemma inv_improve V B done st u v w q oc :
  inv V B done st -> u ∈ V -> vertex g v -> v ∉ V -> edge g u v = Some w ->
  znth (distances st) u + w < znth (distances st) v ->
  contains (fun x => - dist x) q (mkNode v (znth (distances st) u + w) :: B) -> n <= capacity q ->
  inv V (mkNode v (znth (distances st) u + w) :: B) (fun a b => done a b \/ a = u /\ b = v)
    (mkSearch (zset (distances st) v (znth (distances st) u + w)) (zset (parents st) v u) (visited st) q oc).
Proof.
  intros Hi Hu Hv HvV He Hlt Hq Hcap. pose proof Hi as [Hds Hps Hvs HV HVv Hvis _ _ Hst Htr Hfin Hrel Hfr Hbag].
  destruct (edge_inv g u v w Hg He) as (Hug & _ & Hw).
  destruct (Hfin u 0 Hu) as [Hune _]. destruct (inv_trace _ _ _ _ u Hi Hug Hune) as (p & Hp).
  pose proof (inv_small _ _ _ _ u Hi Hug Hune) as Husm.
  set (nl := znth (distances st) u + w) in *.
  assert (Hvs' : v <> s) by (intros ->; lia).
  assert (Huv : u <> v) by (intros ->; done).
  assert (Hz : forall x, vertex g x -> znth (zset (distances st) v nl) x = if v =? x then nl else znth (distances st) x).
  { intros x Hx. unfold vertex in *. apply znth_zset; lia. }
  assert (Hpu : trace V (zset (parents st) v u) (zset (distances st) v nl) u p)
    by (apply trace_update; auto).
  split; cbn [distances parents visited queue overflowCount]; rewrite ?zlen_zset; auto.
  - rewrite Hz by done. zcase; done.
  - intros x Hx. rewrite Hz by done. destruct (Z.eqb_spec v x) as [<-|Hne].
    + right. exists (p ++ [v]). eapply trace_step; [exact Hpu|done| | |exact He|].
      * intros Hin. destruct (trace_last _ _ _ _ _ Hp) as (q' & -> & Hq'). apply elem_of_app in Hin as [Hin|Hin].
        -- rewrite Forall_forall in Hq'. by apply HvV, Hq'.
        -- apply list_elem_of_singleton in Hin. done.
      * apply znth_zset_eq. unfold vertex in Hv. lia.
      * rewrite !Hz by done. rewrite Z.eqb_refl. by destruct (Z.eqb_spec v u).
    + destruct (Htr x Hx) as [?|(px & Hpx)]; [by left|]. right. exists px. by apply trace_update.
  - intros x d Hx. assert (Hxg : vertex g x) by (rewrite Forall_forall in HVv; auto). rewrite Hz by done.
    destruct (Z.eqb_spec v x) as [<-|]; [done|]. auto.
  - intros a b wab Ha Hd Hab. destruct (edge_inv g a b wab Hg Hab) as (Hag & Hbg & _). rewrite !Hz by done.
    destruct (Z.eqb_spec v a) as [<-|]; [done|].
    assert (Hold : done a b -> znth (distances st) b <= znth (distances st) a + wab) by (intros; by apply Hrel).
    destruct (Z.eqb_spec v b) as [<-|].
    + destruct Hd as [Hd|[-> _]]; [specialize (Hold Hd); lia|]. assert (wab = w) as -> by congruence. lia.
    + destruct Hd as [Hd|[-> ->]]; [auto|done].
  - intros x Hx HxV. rewrite Hz by done. destruct (Z.eqb_spec v x) as [<-|]; [by left|]. intros. right. auto.
  - intros x [->|Hx]%elem_of_cons; cbn [node_vertex dist].
    + rewrite Hz, Z.eqb_refl by done. split; [done|]. unfold UINT64_MAX. lia.
    + destruct (Hbag x Hx) as [Hxg Hxd]. split; [done|]. rewrite Hz by done.
      destruct (Z.eqb_spec v (node_vertex x)) as [Ev|]; [rewrite <- Ev in Hxd|]; lia.
Qed.

Lemma relax_spec V B done st u v w :
  inv V B done st -> u ∈ V -> edge g u v = Some w ->
  zlen B + 1 < 2 ^ 61 -> 0 <= overflowCount st < 2 ^ 31 - 1 ->
  exists st' B', relax (mkNode u (znth (distances st) u)) st (v, w) = Ok st' /\
    inv V B' (fun a b => done a b \/ a = u /\ b = v) st' /\ zlen B' <= zlen B + 1 /\
    znth (distances st') u = znth (distances st) u /\
    overflowCount st <= overflowCount st' <= overflowCount st + 1.
Proof.
  intros Hi Hu He Hb Hoc. pose proof Hi as [Hds Hps Hvs HV HVv Hvis Hq Hcap Hst Htr Hfin Hrel Hfr Hbag].
  destruct (edge_inv g u v w Hg He) as (Hug & Hvg & Hw).
  destruct (Hfin u 0 Hu) as [Hune _]. pose proof (inv_small _ _ _ _ u Hi Hug Hune) as Husm.
  unfold relax. cbn [dist node_vertex]. rewrite u64_small by lia. unfold vertex in Hug, Hvg.
  rewrite !arr_get_ok by lia. set (nl := znth (distances st) u + w).
  destruct (negb (znth (visited st) v) && (nl <? znth (distances st) v)) eqn:Ec.
  - apply andb_prop in Ec as [Ev Elt]. apply Z.ltb_lt in Elt. apply negb_true_iff in Ev.
    assert (HvV : v ∉ V) by (intros Hin; apply Hvis in Hin; [congruence|done]).
    assert (Hn2 : 2 <= n).
    { assert (u <> v) by (intros ->; done). lia. }
    assert (Hoc' : exists oc, (if nl >=? INT_MAX then s32 (overflowCount st + 1) else Ok (overflowCount st)) = Ok oc /\
      overflowCount st <= oc <= overflowCount st + 1).
    { destruct (nl >=? INT_MAX); [rewrite s32_ok by lia|]; eexists; (split; [done|lia]). }
    destruct Hoc' as (oc & -> & Hocb). rewrite !arr_set_ok by lia.
    destruct (pqAdd_spec nodeCompare (fun x => - dist x) (queue st) B (mkNode v nl) Hq) as (q & -> & Hq' & Hc'); [lia|lia|].
    eexists. exists (mkNode v nl :: B). split; [done|]. split; [|split; [|split]].
    + apply inv_improve; auto. lia.
    + rewrite zlen_cons. lia.
    + cbn [distances]. apply znth_zset_ne; [lia|lia|]. intros ->. done.
    + done.
  - exists st, B. split; [done|]. split; [|lia]. split; auto.
    intros a b wab Ha [Hd|[-> ->]] Hab; [by eapply Hrel|]. assert (wab = w) as -> by congruence.
    apply andb_false_iff in Ec as [Ev|Elt].
    + apply negb_false_iff, Hvis in Ev; [|done]. by eapply relaxed_visited.
    + apply Z.ltb_ge in Elt. done.
Qed.

(** ** The loops *)

Lemma inv_weaken V B (done done' : Z -> Z -> Prop) st :
  inv V B done st -> (forall a b w, a ∈ V -> edge g a b = Some w -> done' a b -> done a b) -> inv V B done' st.
Proof.
  intros [Hds Hps Hvs HV HVv Hvis Hq Hcap Hst Htr Hfin Hrel Hfr Hbag] Hd.
  split; auto. intros a b w Ha Hd' He. apply Hrel; auto. by eapply Hd.
Qed.

Lemma edge_loop_spec V u rest :
  Forall (fun e => edge g u e.1 = Some e.2) rest -> u ∈ V ->
  forall fuel it B done st, iterates g it rest -> (length rest < fuel)%nat ->
  inv V B done st -> zlen B + zlen rest < 2 ^ 61 -> 0 <= overflowCount st ->
  overflowCount st + zlen rest < 2 ^ 31 ->
  exists st' B', edge_loop fuel g (mkNode u (znth (distances st) u)) it st = Ok st' /\
    inv V B' (fun a b => done a b \/ a = u /\ b ∈ rest.*1) st' /\ zlen B' <= zlen B + zlen rest /\
    0 <= overflowCount st' <= overflowCount st + zlen rest.
Proof.
  intros Hrest Hu. induction Hrest as [|[v w] rest He Hrest IH]; intros [|fuel] it B done st Hit Hf Hi Hb Ho1 Ho2;
    try (cbn in Hf; lia); cbn [edge_loop]; pose proof (nextEdge_spec g it _ Hg Hit) as Hn; cbn in Hn.
  - destruct Hn as (it' & ->). exists st, B. change (zlen (@nil (Z * Z))) with 0 in *.
    split; [done|]. split; [|lia].
    eapply inv_weaken; [exact Hi|]. intros a b w _ _ [?|[_ ?%elem_of_nil]]; done.
  - destruct Hn as (it' & -> & Hit'). rewrite zlen_cons in *. pose proof (zlen_nonneg rest). cbn in He.
    destruct (relax_spec V B done st u v w Hi Hu He) as (st1 & B1 & -> & Hi1 & Hb1 & Hd1 & Ho); [lia|lia|].
    rewrite <- Hd1. destruct (IH fuel it' B1 (fun a b => done a b \/ a = u /\ b = v) st1 Hit') as (st' & B' & -> & Hi' & Hb' & Ho'); [cbn in Hf; lia|exact Hi1|lia..|].
    exists st', B'. split; [done|]. split; [|lia]. eapply inv_weaken; [exact Hi'|].
    intros a b wab _ _ [?|[-> Hin]]; [tauto|]. cbn in Hin. apply elem_of_cons in Hin as [->|Hin]; tauto.
Qed.

(** Popping a vertex that was visited before. *)
Lemma inv_drop V B B' x st q :
  inv V B (fun _ _ => True) st -> B ≡ₚ x :: B' -> node_vertex x ∈ V ->
  contains (fun x => - dist x) q B' -> n <= capacity q ->
  inv V B' (fun _ _ => True) (mkSearch (distances st) (parents st) (visited st) q (overflowCount st)).
Proof.
  intros [Hds Hps Hvs HV HVv Hvis Hq Hcap Hst Htr Hfin Hrel Hfr Hbag] Hp Hx Hq' Hc'.
  split; cbn [distances parents visited queue]; auto.
  - intros v Hv HvV Hne. specialize (Hfr v Hv HvV Hne). rewrite Hp in Hfr.
    apply elem_of_cons in Hfr as [Hxe|?]; [|done]. rewrite <- Hxe in Hx. done.
  - intros y Hy. apply Hbag. rewrite Hp. by right.
Qed.

(** Popping a vertex for the first time settles its distance. *)
Lemma inv_visit V B B' x st q :
  inv V B (fun _ _ => True) st -> B ≡ₚ x :: B' -> (forall y, y ∈ B -> - dist y <= - dist x) ->
  (node_vertex x ∉ V) -> contains (fun x => - dist x) q B' -> n <= capacity q ->
  dist x = znth (distances st) (node_vertex x) /\
  inv (node_vertex x :: V) B' (fun a _ => a <> node_vertex x)
    (mkSearch (distances st) (parents st) (zset (visited st) (node_vertex x) true) q (overflowCount st)).
Proof.
  intros Hi Hp Hmax HxV Hq' Hc'. pose proof Hi as [Hds Hps Hvs HV HVv Hvis Hq Hcap Hst Htr Hfin Hrel Hfr Hbag].
  assert (HxB : x ∈ B) by (rewrite Hp; by left). destruct (Hbag x HxB) as [Hxg Hxd].
  set (v := node_vertex x) in *. assert (Hne : znth (distances st) v <> MAX) by lia.
  assert (Hd : dist x = znth (distances st) v).
  { specialize (Hmax _ (Hfr v Hxg HxV Hne)). cbn in Hmax. lia. }
  split; [done|]. unfold vertex in Hxg.
  split; cbn [distances parents visited queue]; rewrite ?zlen_zset; auto.
  - by constructor.
  - intros y Hy. unfold vertex in Hy. rewrite znth_zset by lia. rewrite elem_of_cons, <- Hvis by done.
    destruct (Z.eqb_spec v y) as [->|]; [tauto|]. split; [tauto|]. by intros [?|?].
  - intros y Hy. destruct (Htr y Hy) as [?|(p & Hpt)]; [by left|]. right. exists p.
    eapply trace_mono; [|exact Hpt]. intros z Hz. by right.
  - intros y d Hy. apply elem_of_cons in Hy as [->|Hy]; [|by apply Hfin]. split; [done|]. intros Hw.
    destruct (frontier_walk V B st v d Hi Hw HxV) as (y & H1 & H2 & H3 & H4).
    specialize (Hmax _ (Hfr y H1 H2 H4)). cbn in Hmax. lia.
  - intros a b w Ha Hav He. apply elem_of_cons in Ha as [->|Ha]; [done|]. by apply Hrel.
  - intros y Hy HyV Hyne. rewrite not_elem_of_cons in HyV. destruct HyV as [Hyv HyV].
    specialize (Hfr y Hy HyV Hyne). rewrite Hp in Hfr. apply elem_of_cons in Hfr as [Hxe|?]; [|done].
    destruct Hyv. unfold v. by rewrite <- Hxe.
  - intros y Hy. apply Hbag. rewrite Hp. by right.
Qed.

Lemma main_loop_spec (fuel : nat) :
  forall V B st, inv V B (fun _ _ => True) st ->
  (n + 1) * (n - zlen V) + zlen B < Z.of_nat fuel ->
  zlen B <= 1 + n * zlen V -> 0 <= overflowCount st <= n * zlen V ->
  exists V' st', main_loop fuel g st = Ok st' /\ inv V' [] (fun _ _ => True) st'.
Proof.
  pose proof (g_pos g Hg) as Hn.
  induction fuel as [|fuel IH]; intros V B st Hi Hf Hb Ho.
  { pose proof (V_length V (i_V _ _ _ _ Hi) (i_Vv _ _ _ _ Hi)). pose proof (zlen_nonneg B). nia. }
  cbn [main_loop]. rewrite (pqIsEmpty_spec _ _ B (i_queue _ _ _ _ Hi)).
  destruct B as [|b B0]; [by exists V, st|]. set (B := b :: B0) in *.
  destruct (pqPop_spec nodeCompare _ _ B (i_queue _ _ _ _ Hi)) as (x & q & B' & -> & Hq & Hp & Hmax & Hc); [done|].
  pose proof (Permutation_length Hp) as Hlen. cbn [length] in Hlen.
  assert (HlB : zlen B = zlen B' + 1) by (unfold zlen; lia). pose proof (zlen_nonneg B').
  pose proof Hi as [Hds Hps Hvs HV HVv Hvis _ Hcap _ _ _ _ _ Hbag].
  assert (HxB : x ∈ B) by (rewrite Hp; by left). destruct (Hbag x HxB) as [Hxg _].
  pose proof Hxg as Hxg'. unfold vertex in Hxg'.
  cbn [visited distances parents]. rewrite arr_get_ok by lia.
  pose proof (V_length V HV HVv) as HVn.
  destruct (znth (visited st) (node_vertex x)) eqn:Ev.
  - apply Hvis in Ev; [|done]. apply (IH V B'); [apply (inv_drop V B B' x); auto; lia|lia|lia|done].
  - assert (HxV : node_vertex x ∉ V) by (intros Hin; apply Hvis in Hin; [congruence|done]).
    destruct (inv_visit V B B' x st q Hi Hp Hmax HxV Hq) as [Hd Hi1]; [lia|].
    rewrite arr_set_ok by lia. set (st1 := mkSearch _ _ _ _ _) in *. set (v := node_vertex x) in *.
    pose proof (construct_iterates g v Hg Hxg) as Hit. set (rest := edges_from _ g v 0) in *.
    pose proof (edges_from_length (Z.to_nat n) g v 0) as Hrl. fold rest in Hrl.
    assert (Hrest : Forall (fun e => edge g v e.1 = Some e.2) rest).
    { apply Forall_forall. intros [y w] Hin. apply (edges_from_spec (Z.to_nat n) g v 0) in Hin; [|lia..]. by destruct Hin. }
    pose proof (V_length (v :: V) (i_V _ _ _ _ Hi1) (i_Vv _ _ _ _ Hi1)) as HVn1. rewrite zlen_cons in HVn1.
    assert (Hzr : zlen rest <= n) by (unfold zlen; lia).
    destruct (edge_loop_spec (v :: V) v rest Hrest ltac:(by left) (S (Z.to_nat (getVertexCount g)))
      (constructEdgeIterator v) B' (fun a _ => a <> v) st1 Hit) as (st2 & B2 & E2 & Hi2 & Hb2 & Ho2);
      [unfold getVertexCount; lia|exact Hi1|nia|cbn; lia|cbn [overflowCount st1]; nia|].
    assert (Hx : x = mkNode v (znth (distances st1) v)) by (destruct x; cbn in *; by rewrite Hd).
    rewrite Hx. unfold getVertexCount in *. rewrite E2.
    apply (IH (v :: V) B2).
    + eapply inv_weaken; [exact Hi2|]. intros a y w Ha He _. destruct (Z.eq_dec a v) as [->|]; [right|by left].
      split; [done|]. destruct (edge_inv g v y w Hg He) as (_ & Hyg & _). unfold vertex in Hyg.
      change y with ((y, w).1). apply list_elem_of_fmap_2.
      apply (edges_from_spec (Z.to_nat n) g v 0); [lia..|]. split; [lia|done].
    + rewrite zlen_cons. nia.
    + rewrite zlen_cons. nia.
    + rewrite zlen_cons. cbn [overflowCount st1] in Ho2. nia.
Qed.

(** ** The path *)

Lemma take_set (l : list Z) (k : Z) (x : Z) (p : list Z) :
  take (length p) l = p -> k = zlen p -> k < zlen l -> take (length (p ++ [x])) (zset l k x) = p ++ [x].
Proof.
  intros Ht -> Hk. unfold zlen, zset in *. rewrite Nat2Z.id, length_app. cbn [length].
  replace (length p + 1)%nat with (S (length p)) by lia.
  erewrite take_S_r; [|apply list_lookup_insert_eq; lia]. by rewrite take_insert_ge, Ht by lia.
Qed.

Lemma convertToPath_spec V ps ds v p :
  trace V ps ds v p -> zlen ps = n -> forall fuel path, zlen path = n -> (length p < fuel)%nat ->
  exists path', convertToPath fuel v ps path = Ok (zlen p, path') /\ zlen path' = n /\
    take (length p) path' = p.
Proof.
  pose proof (g_pos g Hg) as Hn. intros Ht Hps. pose proof (trace_length _ _ _ _ _ Ht) as Hlp.
  induction Ht as [E1 E2|u v p w Ht IH Hu Hv Hp He Hd]; intros [|fuel] path Hpath Hf; try lia; cbn [convertToPath].
  - destruct fuel as [|fuel]; [cbn in Hf; lia|]. unfold vertex in Hs.
    destruct (Z.eqb_spec s MAX); [unfold UINT64_MAX in *; lia|]. rewrite arr_get_ok by lia. rewrite E1.
    cbn [convertToPath]. rewrite Z.eqb_refl, arr_set_ok by lia. eexists. split; [done|]. rewrite zlen_zset.
    split; [done|]. apply (take_set path 0 s []); [done|done|lia].
  - destruct (edge_inv g u v w Hg He) as (_ & Hvg & _). unfold vertex in Hvg.
    destruct (Z.eqb_spec v MAX); [unfold UINT64_MAX in *; lia|]. rewrite arr_get_ok, Hp by lia.
    rewrite zlen_app in Hlp. change (zlen [v]) with 1 in Hlp. rewrite length_app in Hf. cbn [length] in Hf.
    destruct IH with (fuel := fuel) (path := path) as (path' & -> & Hl' & Htk); [lia|done|lia|].
    pose proof (zlen_nonneg p). rewrite arr_set_ok by lia. eexists. split; [by rewrite zlen_app|].
    rewrite zlen_zset. split; [done|]. apply take_set; [done|done|lia].
Qed.

(** ** [findShortestPath] *)

(** The distances are those of the shortest walks, or [UINT64_MAX] where there is
    no walk. *)
Definition distances_ok (ds : list Z) : Prop :=
  zlen ds = n /\
  forall v, vertex g v ->
    znth ds v = MAX /\ (forall d, ~ walk v d) \/ znth ds v < 2 ^ 52 /\ shortest v (znth ds v).

Definition answer_ok (finish : Z) (code : status) (data : ShortestPathData) : Prop :=
  match code with
  | NoPath => forall d, ~ walk finish d
  | Overflow => exists d, shortest finish d /\ INT_MAX < d
  | Success => exists q d, take (Z.to_nat (d_pathLen data)) (d_path data) = q ++ [finish] /\
      0 < d_pathLen data <= zlen (d_path data) /\
      route (q ++ [finish]) d /\ shortest finish d /\ NoDup (q ++ [finish]) /\
      Forall (vertex g) (q ++ [finish])
  | _ => False
  end.

Lemma inv_end V st : inv V [] (fun _ _ => True) st -> distances_ok (distances st).
Proof.
  intros Hi. split; [apply Hi|]. intros v Hv. destruct (Z.eq_dec (znth (distances st) v) MAX) as [E|Hne].
  - left. split; [done|]. intros d Hw.
    assert (HvV : v ∉ V) by (intros Hin; by destruct (i_final _ _ _ _ Hi v d Hin)).
    destruct (frontier_walk V [] st v d Hi Hw HvV) as (y & H1 & H2 & H3 & H4).
    by pose proof (i_frontier _ _ _ _ Hi y H1 H2 H4) as ?%elem_of_nil.
  - right. pose proof (inv_small _ _ _ _ v Hi Hv Hne). split; [lia|].
    assert (HvV : v ∈ V).
    { destruct (decide (v ∈ V)) as [|HvV]; [done|].
      by pose proof (i_frontier _ _ _ _ Hi v Hv HvV Hne) as ?%elem_of_nil. }
    destruct (inv_trace _ _ _ _ v Hi Hv Hne) as (p & Hp). split; [by eapply trace_walk|].
    intros d' Hw. by apply (i_final _ _ _ _ Hi v d' HvV).
Qed.

Lemma inv_init (q : PriorityQueue DijkstraNode) :
  contains (fun x => - dist x) q [mkNode s 0] -> n <= capacity q ->
  inv [] [mkNode s 0] (fun _ _ => True)
    (mkSearch (zset (replicate (Z.to_nat n) MAX) s 0) (replicate (Z.to_nat n) MAX)
       (replicate (Z.to_nat n) false) q 0).
Proof.
  intros Hq Hc. pose proof (g_pos g Hg) as Hn. pose proof Hs as Hs'. unfold vertex in Hs'.
  assert (Hlen : forall A (x : A), zlen (replicate (Z.to_nat n) x) = n)
    by (intros; unfold zlen; rewrite length_replicate; lia).
  assert (Hrep : forall A (IA : Inhabited A) (x : A) v, vertex g v -> znth (replicate (Z.to_nat n) x) v = x).
  { intros A IA x v Hv. unfold znth, vertex in *. apply lookup_total_replicate_2. lia. }
  assert (Hz : forall v, vertex g v -> znth (zset (replicate (Z.to_nat n) MAX) s 0) v = if s =? v then 0 else MAX).
  { intros v Hv. pose proof Hv as Hv'. unfold vertex in Hv'. rewrite znth_zset by (rewrite ?Hlen; lia).
    by rewrite Hrep. }
  split; cbn [distances parents visited queue]; rewrite ?zlen_zset; auto.
  - constructor.
  - intros v Hv. rewrite Hrep by done. split; [done|]. by intros ?%elem_of_nil.
  - rewrite Hz, Z.eqb_refl by done. done.
  - intros v Hv. rewrite Hz by done. destruct (Z.eqb_spec s v) as [<-|]; [|by left].
    right. exists [s]. constructor; [by apply Hrep|]. by rewrite Hz, Z.eqb_refl.
  - by intros v d ?%elem_of_nil.
  - by intros u v w ?%elem_of_nil.
  - intros v Hv _. rewrite Hz by done. destruct (Z.eqb_spec s v) as [<-|]; [|done]. intros _. by left.
  - intros x ->%list_elem_of_singleton. cbn. rewrite Hz, Z.eqb_refl by done. done.
Qed.

Lemma findShortestPath_correct (finish : Z) (garbage : list Z) :
  vertex g finish -> zlen garbage = n ->
  exists code data, findShortestPath g s finish garbage = Ok (code, data) /\
    distances_ok (d_distances data) /\ answer_ok finish code data.
Proof.
  intros Hfv Hgar. pose proof (g_pos g Hg) as Hn. pose proof Hs as Hs'. unfold vertex in Hs', Hfv.
  unfold findShortestPath, getVertexCount.
  assert (Hlen : zlen (replicate (Z.to_nat n) MAX) = n) by (unfold zlen; rewrite length_replicate; lia).
  rewrite arr_set_ok by lia.
  destruct (pqAdd_spec nodeCompare (fun x => - dist x) (createPQueue n) [] (mkNode s 0))
    as (q & -> & Hq & Hc); [apply create_contains; lia|left; cbn; lia|done|].
  destruct (main_loop_spec (Z.to_nat ((n + 1) * n + 2)) [] [mkNode s 0] _ (inv_init q Hq Hc))
    as (V & st & -> & Hi); [change (zlen [mkNode s 0]) with 1; change (zlen (@nil Z)) with 0; nia|
      change (zlen [mkNode s 0]) with 1; change (zlen (@nil Z)) with 0; lia|
      change (zlen (@nil Z)) with 0; cbn; lia|].
  pose proof (inv_end V st Hi) as Hdok. pose proof Hdok as [Hdl Hdv]. rewrite arr_get_ok by lia.
  destruct (Hdv finish Hfv) as [[E Hno]|[Hsm Hsh]].
  - rewrite E. cbn [Z.eqb]. rewrite Z.eqb_refl. by do 2 eexists.
  - destruct (Z.eqb_spec (znth (distances st) finish) MAX) as [E|Hne]; [unfold UINT64_MAX in E; lia|].
    destruct ((overflowCount st >? 2) && (znth (distances st) finish >? INT_MAX)) eqn:Eo.
    + do 2 eexists. split; [done|]. split; [done|]. cbn. eexists. split; [exact Hsh|].
      apply andb_prop in Eo as [_ Eo]. rewrite Z.gtb_ltb in Eo. by apply Z.ltb_lt in Eo.
    + destruct (inv_trace _ _ _ _ finish Hi Hfv Hne) as (p & Hp).
      pose proof (trace_length _ _ _ _ _ Hp) as Hpl.
      destruct (convertToPath_spec _ _ _ _ _ Hp (i_ps _ _ _ _ Hi) (S (S (Z.to_nat n))) garbage Hgar)
        as (path & -> & Hpath & Htk); [unfold zlen in Hpl; lia|].
      do 2 eexists. split; [done|]. split; [done|]. cbn [answer_ok d_pathLen d_path].
      destruct (trace_last _ _ _ _ _ Hp) as (q' & Ep & _). exists q', (znth (distances st) finish).
      unfold zlen at 1. rewrite Nat2Z.id, Htk, <- Ep. destruct (trace_nodup _ _ _ _ _ Hp).
      split_and!; [done| |lia|by eapply trace_route|done|done|done].
      rewrite Ep, zlen_app. change (zlen [finish]) with 1. pose proof (zlen_nonneg q'). lia.
Qed.
End Correct.

(** ** The program *)

Lemma read_edges_spec (n : Z) (es : list (Z * Z * Z)) (rest : list Z) :
  Forall (valid_edge n) es -> 0 < n <= 5000 ->
  forall g, graph_ok g -> vertCount g = n ->
  exists g', read_edges (length es) n g (edge_text es ++ rest) = Ok (inl g') /\ graph_ok g' /\
    vertCount g' = n /\ forall a b, edge g' a b = listed es (edge g a b) a b.
Proof.
  intros Hes Hn. induction Hes as [|[[u v] len] es (Hu & Hv & Hlen) _ IH]; intros g Hg Hvc; [by exists g|].
  cbn [length edge_text flat_map app read_edges]. fold (edge_text es). unfold to_s32. rewrite !to_signed_small by lia.
  unfold validateVertexIndex, validateVertexLength, INT_MAX in *. zcase; try lia.
  rewrite !u64_small, u32_small by lia.
  destruct (addEdge_spec g (u - 1) (v - 1) len Hg) as (g1 & -> & Hg1 & Hvc1 & He); [unfold vertex; lia..|].
  destruct (IH g1 Hg1) as (g' & -> & Hg' & Hvc' & He'); [congruence|]. exists g'. split_and!; auto.
  intros a b. rewrite He', He. cbn [listed]. done.
Qed.

Lemma print_path_spec (path : list Z) (k : nat) :
  (k <= length path)%nat -> Forall (fun v => 0 <= v < 5000) (take k path) ->
  print_path k path = Ok (map (Z.add 1) (rev (take k path))).
Proof.
  induction k as [|k IH]; intros Hk Hf; [done|]. cbn [print_path]. rewrite arr_get_ok by (unfold zlen; lia).
  assert (Hl : path !! k = Some (znth path (Z.of_nat k))).
  { unfold znth. rewrite Nat2Z.id. apply list_lookup_lookup_total_lt. lia. }
  rewrite (take_S_r _ _ _ Hl) in *. apply Forall_app in Hf as [Hf1 Hf2]. apply Forall_cons in Hf2 as [Hf2 _].
  rewrite IH by (auto; lia). rewrite rev_app_distr. cbn. rewrite u64_small by lia. do 2 f_equal. lia.
Qed.

(** The first line shows every distance, or that there is none, or that it is
    larger than [INT_MAX]. *)
Definition distance_shown (g : Graph) (s : Z) (v : Z) (t : distance_text) : Prop :=
  match t with
  | Infinite => forall d, ~ walk g s v d
  | IntMaxPlus => exists d, shortest g s v d /\ INT_MAX < d
  | Finite d => shortest g s v d /\ d <= INT_MAX
  end.

(** The second line: no path, a distance larger than [INT_MAX], or the vertices of
    a shortest path from the finish back to the start, none of them twice. *)
Definition path_shown (g : Graph) (s f : Z) (t : path_text) : Prop :=
  match t with
  | NoPathText => forall d, ~ walk g s f d
  | OverflowText => exists d, shortest g s f d /\ INT_MAX < d
  | Vertices vs => exists p d, vs = map (Z.add 1) (rev p) /\ NoDup p /\ last p = Some f /\
      route g s p d /\ shortest g s f d
  end.

Lemma print_distance_spec (g : Graph) (s v d : Z) :
  d = UINT64_MAX /\ (forall d', ~ walk g s v d') \/ d < 2 ^ 52 /\ shortest g s v d ->
  distance_shown g s v (print_distance d).
Proof.
  intros [[-> Hno]|[Hd Hsh]]; unfold print_distance; [done|].
  destruct (Z.eqb_spec d UINT64_MAX); [unfold UINT64_MAX in *; lia|]. rewrite Z.gtb_ltb.
  destruct (Z.ltb_spec INT_MAX d); cbn; eauto.
Qed.

Lemma dijkstra_program_ok (n s f : Z) (es : list (Z * Z * Z)) (rest garbage : list Z) :
  1 <= n <= 5000 -> 1 <= s <= n -> 1 <= f <= n -> zlen es <= n * (n - 1) / 2 ->
  Forall (valid_edge n) es -> zlen garbage = n ->
  exists g ds p, main garbage (n :: s :: f :: zlen es :: edge_text es ++ rest) = Ok (Answer ds p) /\
    graph_ok g /\ vertCount g = n /\ (forall a b, edge g a b = listed es None a b) /\
    zlen ds = n /\ (forall v, vertex g v -> exists t, ds !! Z.to_nat v = Some t /\ distance_shown g (s - 1) v t) /\
    path_shown g (s - 1) (f - 1) p.
Proof.
  intros Hn Hs Hf Hm Hes Hgar. cbn [main]. pose proof (zlen_nonneg es).
  assert (Hm' : zlen es < 2 ^ 30) by (Z.to_euclidean_division_equations; nia).
  unfold to_s32. rewrite !to_signed_small by lia.
  unfold validateVerticesNumber, validateVertexIndex, validateEdgesNumber.
  rewrite s32_ok by nia. rewrite Z.quot_div_nonneg by nia. zcase; try lia.
  destruct (createGraph_ok n) as (g0 & -> & Hg0 & Hv0 & He0); [lia|]. unfold zlen at 1. rewrite Nat2Z.id.
  destruct (read_edges_spec n es rest Hes ltac:(lia) g0 Hg0 Hv0) as (g & -> & Hg & Hvg & Heg).
  rewrite !u64_small by lia.
  assert (Hsv : vertex g (s - 1)) by (unfold vertex; lia). assert (Hfv : vertex g (f - 1)) by (unfold vertex; lia).
  destruct (findShortestPath_correct g Hg (s - 1) Hsv (f - 1) garbage Hfv) as (code & data & -> & [Hdl Hdv] & Hans); [lia|].
  assert (Hedges : forall a b, edge g a b = listed es None a b) by (intros; by rewrite Heg, He0).
  set (ds := map print_distance (d_distances data)).
  assert (Hds : zlen ds = n) by (unfold ds, zlen in *; rewrite length_map; lia).
  assert (Hshown : forall v, vertex g v -> exists t, ds !! Z.to_nat v = Some t /\ distance_shown g (s - 1) v t).
  { intros v Hv. exists (print_distance (znth (d_distances data) v)). split; [|by apply print_distance_spec, Hdv].
    unfold ds. change (map print_distance) with (fmap (M := list) print_distance).
    rewrite list_lookup_fmap. unfold znth. rewrite list_lookup_lookup_total_lt; [done|]. unfold vertex, zlen in *. lia. }
  exists g, ds. destruct code; try (destruct Hans; done).
  - destruct Hans as (q & d & Ep & Hpl & Hr & Hsh & Hnd & Hvs).
    rewrite print_path_spec.
    + eexists. split; [done|]. split_and!; auto. cbn. exists (q ++ [f - 1]), d. rewrite Ep.
      split_and!; auto. apply last_snoc.
    + unfold zlen in Hpl. lia.
    + rewrite Ep. eapply Forall_impl; [exact Hvs|]. unfold vertex. cbn. lia.
  - eexists. split; [done|]. by split_and!.
  - eexists. split; [done|]. by split_and!.
Qed.

(** C2.  [findShortestPath] on any graph of fewer than 2^15 vertices returns within
    the bound on its loops, without overflow and without leaving an array.  The
    distances it stores are the lengths of the shortest walks from the start, and
    [UINT64_MAX] exactly where there is no walk; it reports [NO_PATH] only when the
    finish cannot be reached, [OVERFLOW] only when the distance exceeds [INT_MAX],
    and otherwise stores the vertices of a shortest path without repetition. *)
Theorem dijkstra_correct (g : Graph) (s f : Z) (garbage : list Z) :
  graph_ok g -> vertex g s -> vertex g f -> zlen garbage = vertCount g ->
  exists code data, findShortestPath g s f garbage = Ok (code, data) /\
    distances_ok g s (d_distances data) /\ answer_ok g s f code data.
Proof. intros. by apply findShortestPath_correct. Qed.

(** The program, given 1 to 5000 vertices, the start, the finish and at most
    n(n-1)/2 valid edges, prints for every vertex its distance (or that there is
    none, or that it is larger than [INT_MAX]), and on the second line [no path],
    [overflow] or a shortest path from the finish back to the start. *)
Theorem dijkstra_program (n s f : Z) (es : list (Z * Z * Z)) (rest garbage : list Z) :
  1 <= n <= 5000 -> 1 <= s <= n -> 1 <= f <= n -> zlen es <= n * (n - 1) / 2 ->
  Forall (valid_edge n) es -> zlen garbage = n ->
  exists g ds p, main garbage (n :: s :: f :: zlen es :: edge_text es ++ rest) = Ok (Answer ds p) /\
    graph_ok g /\ vertCount g = n /\ (forall a b, edge g a b = listed es None a b) /\
    zlen ds = n /\ (forall v, vertex g v -> exists t, ds !! Z.to_nat v = Some t /\ distance_shown g (s - 1) v t) /\
    path_shown g (s - 1) (f - 1) p.
Proof. apply dijkstra_program_ok. Qed.

Definition demo_edges : list (Z * Z * Z) := [(1, 2, 5); (2, 3, 7); (1, 3, 20)].

Lemma dijkstra_program_witness :
  exists g ds p,
    main (replicate 4 0) (4 :: 1 :: 3 :: zlen demo_edges :: edge_text demo_edges ++ []) = Ok (Answer ds p) /\
    graph_ok g /\ vertCount g = 4 /\ (forall a b, edge g a b = listed demo_edges None a b) /\
    zlen ds = 4 /\ (forall v, vertex g v -> exists t, ds !! Z.to_nat v = Some t /\ distance_shown g (1 - 1) v t) /\
    path_shown g (1 - 1) (3 - 1) p.
Proof.
  apply (dijkstra_program 4 1 3 demo_edges [] (replicate 4 0)); [lia..|by vm_compute| |done].
  unfold demo_edges, INT_MAX. repeat constructor; unfold INT_MAX; lia.
Defined.

Definition demo_graph : Graph := mkGraph [[-1; 5; 20]; [5; -1; 7]; [20; 7; -1]] 3.

Lemma demo_graph_ok : graph_ok demo_graph.
Proof.
  assert (H3 : forall u, 0 <= u < 3 -> u = 0 \/ u = 1 \/ u = 2) by lia.
  split; cbn [vertCount adjMatrix demo_graph]; [lia|done| |].
  - intros u [-> | [-> | ->]]%H3; done.
  - intros u v [-> | [-> | ->]]%H3 [-> | [-> | ->]]%H3; by vm_compute.
Qed.

Lemma dijkstra_correct_witness :
  exists code data, findShortestPath demo_graph 0 2 [0; 0; 0] = Ok (code, data) /\
    distances_ok demo_graph 0 (d_distances data) /\ answer_ok demo_graph 0 2 code data.
Proof.
  apply (dijkstra_correct demo_graph 0 2 [0; 0; 0]);
    [exact demo_graph_ok|unfold vertex; cbn; lia|unfold vertex; cbn; lia|done].
Defined.

(** A vertex number that is read as [size_t] is validated as [int]: with start
    2^32+1 the check sees 1 and passes, and the program then writes far outside the
    array of distances. *)
Theorem dijkstra_truncates_start :
  main (replicate 2 0) [2; 2 ^ 32 + 1; 1; 0] = Err Undefined.
Proof. vm_compute. reflexivity. Qed.
