(* ===== verification/SpanningTree.v ===== *)
(** * Minimum spanning trees

    Weighted edges, what they connect, and the exchange argument that Kruskal's and
    Prim's algorithms share. *)
From S2P Require Import Prelude.

(** [Edge_t] of C-Labs/Minimal_spanning_tree_Kruskal_algo/src/graph.h. *)
Record Edge := mkEdge { e_u : Z; e_v : Z; e_length : Z }.

#[export] Instance edge_inhabited : Inhabited Edge := populate (mkEdge 0 0 0).
#[export] Instance edge_eq_dec : EqDecision Edge.
Proof. solve_decision. Defined.

(** ** Connections *)

Definition joins (e : Edge) (a b : Z) : Prop :=
  e_u e = a /\ e_v e = b \/ e_u e = b /\ e_v e = a.

(** [conn es a b]: the edges [es] connect [a] and [b]. *)
Inductive conn (es : list Edge) : Z -> Z -> Prop :=
| conn_refl a : conn es a a
| conn_step a b c e : conn es a b -> e ∈ es -> joins e b c -> conn es a c.

Lemma conn_trans es a b c : conn es a b -> conn es b c -> conn es a c.
Proof. intros Hab Hbc. induction Hbc as [|b c d e _ IH He Hj]; [done|]. exact (conn_step es _ _ _ e (IH Hab) He Hj). Qed.

Lemma conn_edge es e : e ∈ es -> conn es (e_u e) (e_v e).
Proof. intros He. eapply conn_step; [constructor|exact He|]. by left. Qed.

Lemma conn_sym es a b : conn es a b -> conn es b a.
Proof.
  induction 1 as [|a b c e _ IH He Hj]; [constructor|]. eapply conn_trans; [|exact IH].
  eapply conn_step; [constructor|exact He|]. unfold joins in *. tauto.
Qed.

(** What the edges of [es] connect, any connection of their ends gives. *)
Lemma conn_sub es es' a b :
  (forall e, e ∈ es -> conn es' (e_u e) (e_v e)) -> conn es a b -> conn es' a b.
Proof.
  intros Hs. induction 1 as [|a b c e _ IH He Hj]; [constructor|]. eapply conn_trans; [exact IH|].
  destruct Hj as [[<- <-]|[<- <-]]; [|apply conn_sym]; by apply Hs.
Qed.

Lemma conn_mono es es' a b : (forall e, e ∈ es -> e ∈ es') -> conn es a b -> conn es' a b.
Proof. intros Hs. apply conn_sub. intros e He. by apply conn_edge, Hs. Qed.

(** A connection from outside a set into it uses an edge that enters the set,
    after edges that stay outside. *)
Lemma conn_enter es (inside : Z -> bool) a b :
  conn es a b -> inside a = false ->
  (inside b = false /\
   conn (List.filter (fun e => negb (inside (e_u e)) && negb (inside (e_v e))) es) a b) \/
  exists x y f, f ∈ es /\ joins f x y /\ inside x = false /\ inside y = true /\
    conn (List.filter (fun e => negb (inside (e_u e)) && negb (inside (e_v e))) es) a x.
Proof.
  induction 1 as [|a b c e _ IH He Hj]; intros Ha; [left; split; [done|constructor]|].
  destruct (IH Ha) as [[Hb Hc]|?]; [|by right]. destruct (inside c) eqn:Ec.
  - right. exists b, c, e. by split_and!.
  - left. split; [done|]. eapply conn_step; [exact Hc| |exact Hj].
    apply list_elem_of_In, filter_In. split; [by apply list_elem_of_In|].
    destruct Hj as [[-> ->]|[-> ->]]; by rewrite Hb, Ec.
Qed.

(** ** Spanning trees *)

Definition weight (es : list Edge) : Z := foldr (fun e acc => e_length e + acc) 0 es.

Lemma weight_perm es es' : es ≡ₚ es' -> weight es = weight es'.
Proof. unfold weight. induction 1; cbn; lia. Qed.

Lemma weight_app es es' : weight (es ++ es') = weight es + weight es'.
Proof. unfold weight in *. induction es as [|e es IH]; cbn; lia. Qed.

Lemma weight_nonneg es : Forall (fun e => 0 <= e_length e) es -> 0 <= weight es.
Proof. unfold weight. induction 1; cbn; lia. Qed.

Section Spanning.
Variables (n : Z) (E : list Edge).
Hypothesis HE : Forall (fun e => (0 <= e_u e < n /\ 0 <= e_v e < n) /\ 0 <= e_length e) E.

(** A choice of edges of the graph that connects all vertices. *)
Definition spanning (es : list Edge) : Prop :=
  Forall (fun e => e ∈ E) es /\ forall a b, 0 <= a < n -> 0 <= b < n -> conn es a b.

(** Every spanning choice can be turned into one that contains [T], at no cost. *)
Definition extends (T : list Edge) : Prop :=
  forall S, spanning S -> exists R, spanning (T ++ R) /\ weight (T ++ R) <= weight S.

(** The exchange.  [inside] is a set of vertices that the edges of [T] connect to
    one another and do not leave; [e] joins [x] outside to [y] inside, and no edge
    of the graph that leaves the set is shorter. *)
Lemma exchange (inside : Z -> bool) T e x y :
  extends T -> e ∈ E -> joins e x y -> inside x = false -> inside y = true ->
  (forall f, f ∈ T -> inside (e_u f) = inside (e_v f)) ->
  (forall z, 0 <= z < n -> inside z = true -> conn T z y) ->
  (forall f, f ∈ E -> inside (e_u f) <> inside (e_v f) -> e_length e <= e_length f) ->
  extends (T ++ [e]).
Proof.
  intros Hext He Hex Hix Hiy HT Hin Hmin S HS. destruct (Hext S HS) as (R & [HR HRc] & HRw).
  rewrite Forall_forall in HE. assert (Hxy0 : 0 <= x < n /\ 0 <= y < n).
  { destruct (HE e He) as [[Hu Hv] _]. destruct Hex as [[<- <-]|[<- <-]]; done. }
  destruct Hxy0 as [Hx0 Hy0].
  destruct (conn_enter (T ++ R) inside x y (HRc _ _ Hx0 Hy0) Hix) as [[? _]|Hent]; [congruence|].
  destruct Hent as (p & q & f & Hf & Hj & Hp & Hq & Hpre).
  rewrite Forall_forall in HR. assert (HfE : f ∈ E) by auto.
  assert (Hcross : inside (e_u f) <> inside (e_v f)) by (destruct Hj as [[-> ->]|[-> ->]]; congruence).
  assert (HfR : f ∈ R).
  { apply elem_of_app in Hf as [HfT|?]; [|done]. by destruct (Hcross (HT f HfT)). }
  apply elem_of_Permutation in HfR as (R' & HR'). exists R'.
  assert (Hw : weight ((T ++ [e]) ++ R') <= weight S).
  { rewrite !weight_app in *. rewrite (weight_perm R (f :: R') HR') in HRw. unfold weight in *. cbn in *.
    specialize (Hmin f HfE Hcross). lia. }
  split; [|done]. split.
  { apply Forall_forall. intros g Hg. rewrite <- app_assoc in Hg. rewrite !elem_of_app in Hg.
    destruct Hg as [Hg|[->%list_elem_of_singleton|Hg]]; [apply HR, elem_of_app; by left|done|].
    apply HR, elem_of_app. right. rewrite HR'. by right. }
  set (S' := (T ++ [e]) ++ R').
  assert (HRS : forall g, g ∈ T ++ R -> g <> f -> g ∈ S').
  { intros g Hg Hgf. unfold S'. rewrite !elem_of_app. apply elem_of_app in Hg as [?|Hg]; [tauto|].
    rewrite HR' in Hg. apply elem_of_cons in Hg as [?|?]; [done|tauto]. }
  assert (Hxp : conn S' x p).
  { eapply conn_mono; [|exact Hpre]. intros g Hg. apply list_elem_of_In, filter_In in Hg as [Hg Hout].
    apply HRS; [by apply list_elem_of_In|]. intros ->. apply andb_prop in Hout as [H1 H2].
    destruct Hj as [[<- <-]|[<- <-]]; rewrite ?Hp, ?Hq in *; done. }
  assert (Hqy : conn S' q y).
  { apply conn_mono with T; [intros g Hg; unfold S'; rewrite !elem_of_app; tauto|]. apply Hin; [|done].
    destruct (HE f HfE) as [[? ?] _]. destruct Hj as [[<- <-]|[<- <-]]; done. }
  assert (Hxy : conn S' x y).
  { eapply conn_step; [constructor| |exact Hex]. unfold S'. rewrite !elem_of_app. left. right. by left. }
  assert (Hpq : conn S' p q)
    by (eapply conn_trans; [apply conn_sym, Hxp|]; eapply conn_trans; [exact Hxy|]; by apply conn_sym).
  intros a b Ha Hb. eapply conn_sub; [|exact (HRc a b Ha Hb)]. intros g Hg.
  destruct (decide (g = f)) as [->|Hgf]; [|by apply conn_edge, HRS].
  destruct Hj as [[<- <-]|[<- <-]]; [done|by apply conn_sym].
Qed.

(** A tree that can be extended and connects everything is lightest. *)
Lemma extends_minimal T S : extends T -> spanning S -> weight T <= weight S.
Proof.
  intros Hext HS. destruct (Hext S HS) as (R & [HR _] & Hw). rewrite weight_app in Hw.
  assert (0 <= weight R); [|lia]. apply weight_nonneg. apply Forall_forall. intros e He.
  rewrite Forall_forall in HE, HR. apply (HE e). apply HR. apply elem_of_app. by right.
Qed.

Lemma extends_nil : extends [].
Proof. intros S HS. exists S. split; [done|]. cbn [app]. lia. Qed.
End Spanning.
