(* ===== verification/Kruskal.v ===== *)
(** * C-Labs/Minimal_spanning_tree_Kruskal_algo/src: dsu.c, graph.c, spanning_tree.c, main.c

    Kruskal's algorithm.  [qsort] is any function that permutes its array; the answers of [rand() % 2] are an arbitrary list of bits
    (and 0 when it is used up); allocation is taken to succeed. *)
From S2P Require Import Prelude GraphInput SpanningTree.

(** ** dsu.c *)

Record DSU := mkDSU { link : list Z; dsu_size : Z }.

Definition createDSU (size : Z) : DSU := mkDSU (seqZ 0 size) size.

(** [while (set->link[a] != a) a = set->link[a];] *)
Fixpoint find_loop (fuel : nat) (lk : list Z) (a : Z) : res Z :=
  match fuel with
  | O => Err OutOfFuel
  | S fuel =>
      let* l := arr_get lk a in
      if negb (l =? a) then find_loop fuel lk l else Ok a
  end.

(** A path to the root visits no element twice. *)
Definition find (set : DSU) (a : Z) : res Z :=
  if a >=? dsu_size set then Ok (-1) else find_loop (S (length (link set))) (link set) a.

Definition rand (rands : list bool) : bool * list bool :=
  match rands with [] => (false, []) | b :: rands => (b, rands) end.

Definition unite (set : DSU) (a b : Z) (rands : list bool) : res (DSU * list bool) :=
  let* a := find set a in
  let* b := find set b in
  let a := u32 a in
  let b := u32 b in
  let '(doSwap, rands) := rand rands in
  let '(a, b) := if doSwap then (b, a) else (a, b) in
  let* lk := arr_set (link set) a b in
  Ok (mkDSU lk (dsu_size set), rands).

(** ** graph.c *)

(** [edges] holds the [edgesCount] edges in use of the [maxEdges] allocated. *)
Record Graph := mkGraph { edges : list Edge; vertCount : Z; maxEdges : Z }.

Definition edgesCount (graph : Graph) : Z := zlen (edges graph).

Definition createGraph (vertexCount maxEdgesCount : Z) : res Graph :=
  let* _ := assert (vertexCount >? 0) in
  Ok (mkGraph [] vertexCount maxEdgesCount).

(** [false] is [OUT_OF_RANGE]. *)
Definition addEdge (graph : Graph) (u v length : Z) : res (Graph * bool) :=
  if (u >=? vertCount graph) || (v >=? vertCount graph) then Ok (graph, false)
  else if edgesCount graph <? maxEdges graph then
    Ok (mkGraph (edges graph ++ [mkEdge u v length]) (vertCount graph) (maxEdges graph), true)
  else Err Undefined.

(** ** spanning_tree.c *)

Inductive status :=
| Success | NoSpanningTree | BadNumberOfLines | BadNumberOfVertices | BadNumberOfEdges
| BadVertex | BadLength | OutOfRange.

Definition edgeComapre (a b : Edge) : Z := Z.b2z (e_length b <? e_length a).

(** The loop over the sorted edges.  [tree] holds the [spanningEdges] edges stored
    in an array of [vertCount - 1]. *)
Fixpoint span_loop (es : list Edge) (vertN : Z) (subsets : DSU) (tree : list Edge) (rands : list bool)
  : res (list Edge) :=
  match es with
  | [] => Ok tree
  | curEdge :: es =>
      let* u_root := find subsets (e_u curEdge) in
      let* v_root := find subsets (e_v curEdge) in
      if negb (to_s32 u_root =? to_s32 v_root) then
        let* '(subsets, rands) := unite subsets (u32 (to_s32 u_root)) (u32 (to_s32 v_root)) rands in
        if zlen tree <? vertN - 1 then
          let tree := tree ++ [curEdge] in
          if zlen tree =? u32 (vertN - 1) then Ok tree
          else span_loop es vertN subsets tree rands
        else Err Undefined
      else span_loop es vertN subsets tree rands
  end.

Section SpanningTree.
Context {Q : Qsort Edge}.

Definition findSpanningTree (graph : Graph) (rands : list bool) : res (status * list Edge) :=
  let subsets := createDSU (vertCount graph) in
  let es := qsort edgeComapre (edges graph) in
  let* tree := span_loop es (vertCount graph) subsets [] rands in
  if zlen tree <? u32 (vertCount graph - 1) then Ok (NoSpanningTree, tree) else Ok (Success, tree).

(** ** main.c *)

Definition validateVerticesNumber (vertN : Z) : bool := (0 <=? vertN) && (vertN <=? 5000).

Definition validateEdgesNumber (vertN edgesN : Z) : res bool :=
  let* m := s32 (vertN * (vertN - 1)) in
  let maxEdgesN := Z.quot m 2 in
  Ok ((0 <=? edgesN) && (edgesN <=? maxEdgesN)).

Definition validateVertexIndex (vertN idx : Z) : bool := (1 <=? idx) && (idx <=? vertN).

Definition validateVertexLength (len : Z) : bool := (0 <=? len) && (len <=? INT_MAX).

Fixpoint read_edges (k : nat) (vertN : Z) (graph : Graph) (input : list Z) : res (Graph + status) :=
  match k with
  | O => Ok (inl graph)
  | S k =>
      match input with
      | u :: v :: len :: input =>
          if negb (validateVertexIndex vertN u) then Ok (inr BadVertex)
          else if negb (validateVertexIndex vertN v) then Ok (inr BadVertex)
          else if negb (validateVertexLength len) then Ok (inr BadLength)
          else
            let* '(graph, added) := addEdge graph (u32 (u - 1)) (u32 (v - 1)) (u32 len) in
            if added then read_edges k vertN graph input else Ok (inr OutOfRange)
      | _ => Ok (inr BadNumberOfLines)
      end
  end.

(** The edges that are printed, or the status that is reported. *)
Definition main (rands : list bool) (input : list Z) : res (list (Z * Z) + status) :=
  match input with
  | vertN :: edgesN :: input =>
      if negb (validateVerticesNumber vertN) then Ok (inr BadNumberOfVertices)
      else
        let* edges_ok := validateEdgesNumber vertN edgesN in
        if negb edges_ok then Ok (inr BadNumberOfEdges)
        else if vertN =? 0 then Ok (inr NoSpanningTree)
        else
          let* graph := createGraph vertN edgesN in
          let* r := read_edges (Z.to_nat edgesN) vertN graph input in
          match r with
          | inr s => Ok (inr s)
          | inl graph =>
              let* '(code, tree) := findSpanningTree graph rands in
              match code with
              | Success => Ok (inl (map (fun e => (u32 (e_u e + 1), u32 (e_v e + 1))) tree))
              | s => Ok (inr s)
              end
          end
  | _ => Ok (inr BadNumberOfLines)
  end.
End SpanningTree.

Example kruskal_run :
  @main (InsertionQsort _) [true; false; true] [4; 5;  1; 2; 10;  2; 3; 1;  1; 3; 2;  3; 4; 7;  1; 4; 8] =
    Ok (inl [(2, 3); (1, 3); (3, 4)]).
Proof. vm_compute. reflexivity. Qed.

(** ** The disjoint sets *)

Inductive reach (lk : list Z) : nat -> Z -> Z -> Prop :=
| reach_root a : 0 <= a < zlen lk -> znth lk a = a -> reach lk 0 a a
| reach_step k a r :
    0 <= a < zlen lk -> znth lk a <> a -> reach lk k (znth lk a) r -> reach lk (S k) a r.

Lemma reach_find lk k a r :
  reach lk k a r -> forall fuel, (k < fuel)%nat -> find_loop fuel lk a = Ok r.
Proof.
  induction 1 as [a Ha E|k a r Ha Hne _ IH]; intros [|fuel] Hf; try lia; cbn [find_loop];
    rewrite arr_get_ok by done.
  - rewrite E, Z.eqb_refl. done.
  - destruct (Z.eqb_spec (znth lk a) a); [done|]. apply IH. lia.
Qed.

Lemma reach_is_root lk k a r : reach lk k a r -> 0 <= r < zlen lk /\ znth lk r = r.
Proof. induction 1; auto. Qed.

Definition root (lk : list Z) (a : Z) : Z :=
  match find_loop (S (length lk)) lk a with Ok r => r | Err _ => -1 end.

Definition is_root (lk : list Z) (a : Z) : bool := znth lk a =? a.

Lemma reach_link lk ra rb k a r :
  reach lk k a r -> is_root lk ra = true -> is_root lk rb = true -> ra <> rb ->
  0 <= ra < zlen lk -> 0 <= rb < zlen lk ->
  exists k', (k' <= S k)%nat /\ reach (zset lk ra rb) k' a (if r =? ra then rb else r).
Proof.
  unfold is_root. intros Hr Hra Hrb Hne Ha Hb. apply Z.eqb_eq in Hra, Hrb.
  assert (Hz : forall x, 0 <= x -> znth (zset lk ra rb) x = if ra =? x then rb else znth lk x)
    by (intros; by apply znth_zset).
  induction Hr as [a Har E|k a r Har Hna _ IH].
  - destruct (Z.eqb_spec a ra) as [->|].
    + exists 1%nat. split; [lia|]. apply reach_step; [by rewrite zlen_zset|rewrite Hz, Z.eqb_refl; lia|].
      rewrite Hz, Z.eqb_refl by lia. apply reach_root; [by rewrite zlen_zset|]. rewrite Hz by lia. zcase; congruence.
    + exists 0%nat. split; [lia|]. apply reach_root; [by rewrite zlen_zset|]. rewrite Hz by lia. zcase; congruence.
  - destruct IH as (k' & Hk & IH). exists (S k'). split; [lia|].
    assert (Ez : znth (zset lk ra rb) a = znth lk a).
    { rewrite Hz by lia. destruct (Z.eqb_spec ra a); [congruence|done]. }
    apply reach_step; [by rewrite zlen_zset|by rewrite Ez|by rewrite Ez].
Qed.

Definition root_count (lk : list Z) (l : list Z) : nat := length (List.filter (is_root lk) l).

Lemma root_count_link lk ra rb l :
  NoDup l -> Forall (fun x => 0 <= x < zlen lk) l -> ra ∈ l -> is_root lk ra = true -> ra <> rb ->
  S (root_count (zset lk ra rb) l) = root_count lk l.
Proof.
  unfold root_count, is_root. intros Hn Hf Hin Hra Hne.
  assert (Hz : forall x, 0 <= x < zlen lk -> (znth (zset lk ra rb) x =? x) = negb (ra =? x) && (znth lk x =? x)).
  { intros x Hx. assert (0 <= ra < zlen lk) by (rewrite Forall_forall in Hf; auto).
    rewrite znth_zset by lia. destruct (Z.eqb_spec ra x) as [<-|]; [|done]. cbn. by apply Z.eqb_neq. }
  induction Hn as [|x l Hx Hn IH]; [by apply elem_of_nil in Hin|].
  apply Forall_cons in Hf as [Hxr Hf]. cbn [List.filter]. rewrite Hz by done.
  destruct (Z.eqb_spec ra x) as [<-|Hrx]; cbn [negb andb].
  - rewrite Hra. cbn [length]. f_equal. f_equal. apply filter_ext_in. intros y Hy%list_elem_of_In.
    rewrite Forall_forall in Hf. rewrite Hz by auto. destruct (Z.eqb_spec ra y) as [<-|]; done.
  - apply elem_of_cons in Hin as [?|Hin]; [done|]. specialize (IH Hf Hin).
    destruct (znth lk x =? x); cbn [length]; lia.
Qed.

Section Dsu.
Variable n : Z.
Hypothesis Hn : 0 < n < 2 ^ 31.

(** The sets of [lk] are those that the edges [T], one per union, connect. *)
Record dsu_ok (lk : list Z) (T : list Edge) : Prop := {
  d_len : zlen lk = n;
  d_reach a : 0 <= a < n -> exists k, (k <= length T)%nat /\ reach lk k a (root lk a);
  d_conn a b : 0 <= a < n -> 0 <= b < n -> root lk a = root lk b <-> conn T a b;
  d_count : (root_count lk (seqZ 0 n) + length T = Z.to_nat n)%nat;
  d_edges : Forall (fun e => 0 <= e_u e < n /\ 0 <= e_v e < n) T
}.

Lemma seqZ_root (k : nat) (l : list Z) :
  Forall (fun x => 0 <= x < n) l -> root_count (seqZ 0 n) l = length l.
Proof.
  intros Hf. unfold root_count, is_root. induction Hf as [|x l Hx _ IH]; [done|]. cbn [List.filter].
  assert (E : znth (seqZ 0 n) x = x).
  { unfold znth. rewrite lookup_total_seqZ_lt; lia. }
  rewrite E, Z.eqb_refl. cbn. by rewrite IH.
Qed.

Lemma createDSU_ok : dsu_ok (link (createDSU n)) [].
Proof.
  cbn. assert (Hl : zlen (seqZ 0 n) = n) by (unfold zlen; rewrite length_seqZ; lia).
  assert (Hr : forall a, 0 <= a < n -> reach (seqZ 0 n) 0 a a).
  { intros a Ha. apply reach_root; [lia|]. unfold znth. rewrite lookup_total_seqZ_lt; lia. }
  assert (Hroot : forall a, 0 <= a < n -> root (seqZ 0 n) a = a).
  { intros a Ha. unfold root. by rewrite (reach_find _ _ _ _ (Hr a Ha)) by lia. }
  split; [done| | | |constructor].
  - intros a Ha. exists 0%nat. rewrite Hroot by done. split; [done|by apply Hr].
  - intros a b Ha Hb. rewrite !Hroot by done. split; [intros ->; constructor|].
    induction 1 as [|a b c e _ _ He _]; [done|by apply elem_of_nil in He].
  - rewrite seqZ_root; [cbn; rewrite length_seqZ; lia|exact 0%nat|].
    apply Forall_forall. intros x Hx%elem_of_seqZ. lia.
Qed.

Lemma root_range lk T a : dsu_ok lk T -> 0 <= a < n -> 0 <= root lk a < n /\ is_root lk (root lk a) = true.
Proof.
  intros Hd Ha. destruct (d_reach _ _ Hd a Ha) as (k & _ & Hr). apply reach_is_root in Hr as [H1 H2].
  rewrite (d_len _ _ Hd) in H1. split; [done|]. by apply Z.eqb_eq.
Qed.

Lemma tree_short lk T : dsu_ok lk T -> (length T < Z.to_nat n)%nat.
Proof.
  intros Hd. pose proof (d_count _ _ Hd). destruct (root_range lk T 0 Hd) as [Hr Hroot]; [lia|].
  assert (root_count lk (seqZ 0 n) <> 0%nat); [|lia]. unfold root_count. intros E.
  apply length_zero_iff_nil in E.
  assert (Hin : root lk 0 ∈ List.filter (is_root lk) (seqZ 0 n)).
  { apply list_elem_of_In, filter_In. split; [|done]. apply list_elem_of_In, elem_of_seqZ. lia. }
  rewrite E in Hin. by apply elem_of_nil in Hin.
Qed.

Lemma find_spec lk T a : dsu_ok lk T -> 0 <= a < n -> find (mkDSU lk n) a = Ok (root lk a).
Proof.
  intros Hd Ha. unfold find. cbn [dsu_size link]. rewrite Z.geb_leb. destruct (Z.leb_spec n a); [lia|].
  destruct (d_reach _ _ Hd a Ha) as (k & Hk & Hr). apply (reach_find _ _ _ _ Hr).
  pose proof (tree_short _ _ Hd). pose proof (d_len _ _ Hd) as Hl. unfold zlen in Hl. lia.
Qed.

Lemma root_of_root lk T a : dsu_ok lk T -> 0 <= a < n -> root lk (root lk a) = root lk a.
Proof.
  intros Hd Ha. destruct (root_range _ _ _ Hd Ha) as [Hr Hroot]. apply Z.eqb_eq in Hroot.
  unfold root at 1. rewrite (reach_find lk 0 (root lk a) (root lk a)); [done| |lia].
  apply reach_root; [by rewrite (d_len _ _ Hd)|done].
Qed.

(** Linking the roots of the ends of an edge adds that edge to the forest. *)
Lemma link_ok lk T e ra rb :
  dsu_ok lk T -> 0 <= e_u e < n -> 0 <= e_v e < n ->
  (ra = root lk (e_u e) /\ rb = root lk (e_v e) \/ ra = root lk (e_v e) /\ rb = root lk (e_u e)) ->
  ra <> rb -> dsu_ok (zset lk ra rb) (T ++ [e]).
Proof.
  intros Hd Hu Hv Hab Hne. pose proof Hd as [Hl Hr Hc Hcnt Hed].
  destruct (root_range _ _ _ Hd Hu) as [Hru Hruu]. destruct (root_range _ _ _ Hd Hv) as [Hrv Hrvv].
  assert (Hra : 0 <= ra < n /\ is_root lk ra = true) by (destruct Hab as [[-> ->]|[-> ->]]; done).
  assert (Hrb : 0 <= rb < n /\ is_root lk rb = true) by (destruct Hab as [[-> ->]|[-> ->]]; done).
  destruct Hra as [Ha1 Ha2], Hrb as [Hb1 Hb2].
  pose proof (tree_short _ _ Hd) as Hts.
  assert (Hreach : forall a, 0 <= a < n -> exists k, (k <= S (length T))%nat /\
    reach (zset lk ra rb) k a (if root lk a =? ra then rb else root lk a)).
  { intros a Ha. destruct (Hr a Ha) as (k & Hk & Hk').
    destruct (reach_link lk ra rb k a (root lk a) Hk' Ha2 Hb2 Hne) as (k' & Hk1 & Hk2); [lia..|].
    exists k'. split; [lia|done]. }
  assert (Hroot : forall a, 0 <= a < n -> root (zset lk ra rb) a = if root lk a =? ra then rb else root lk a).
  { intros a Ha. destruct (Hreach a Ha) as (k & Hk & Hk'). unfold root at 1.
    rewrite (reach_find _ _ _ _ Hk'); [done|]. rewrite length_zset. unfold zlen in Hl. lia. }
  assert (Hends : root (zset lk ra rb) (e_u e) = rb /\ root (zset lk ra rb) (e_v e) = rb).
  { rewrite !Hroot by done. destruct Hab as [[-> ->]|[-> ->]]; rewrite Z.eqb_refl;
      split; try done; destruct (Z.eqb_spec (root lk (e_v e)) (root lk (e_u e))); congruence ||
      (destruct (Z.eqb_spec (root lk (e_u e)) (root lk (e_v e))); congruence). }
  assert (Hmono : forall x y, conn T x y -> conn (T ++ [e]) x y).
  { intros x y. apply conn_mono. intros f Hf. apply elem_of_app. by left. }
  assert (Hold : forall x y, 0 <= x < n -> 0 <= y < n -> root lk x = root lk y -> conn (T ++ [e]) x y).
  { intros x y Hx Hy E. by apply Hmono, Hc. }
  assert (Hen : conn (T ++ [e]) (e_u e) (e_v e)).
  { apply conn_edge, elem_of_app. right. by left. }
  assert (Hab' : forall x y, 0 <= x < n -> 0 <= y < n -> root lk x = ra -> root lk y = rb -> conn (T ++ [e]) x y).
  { intros x y Hx Hy Ex Ey. destruct Hab as [[E1 E2]|[E1 E2]].
    - eapply conn_trans; [apply (Hold x (e_u e)); auto; congruence|].
      eapply conn_trans; [exact Hen|]. apply Hold; auto; congruence.
    - eapply conn_trans; [apply (Hold x (e_v e)); auto; congruence|].
      eapply conn_trans; [apply conn_sym, Hen|]. apply Hold; auto; congruence. }
  split.
  - by rewrite zlen_zset.
  - intros a Ha. destruct (Hreach a Ha) as (k & Hk & Hk'). exists k. rewrite Hroot by done.
    rewrite length_app. cbn. split; [lia|done].
  - intros a b Ha Hb. split.
    + rewrite !Hroot by done. destruct (Z.eqb_spec (root lk a) ra), (Z.eqb_spec (root lk b) ra); intros E.
      * apply Hold; auto; congruence.
      * by apply Hab'.
      * apply conn_sym. by apply Hab'.
      * by apply Hold.
    + intros Hab''. revert Hb. induction Hab'' as [|a b c f Hab'' IH Hf Hj]; intros Hb; [done|].
      assert (Hbr : 0 <= b < n /\ root (zset lk ra rb) b = root (zset lk ra rb) c).
      { apply elem_of_app in Hf as [Hf|Hf%list_elem_of_singleton].
        - pose proof (conn_edge T f Hf) as Hcf. rewrite Forall_forall in Hed. destruct (Hed f Hf) as [Hfu Hfv].
          apply Hc in Hcf; [|done..]. rewrite !Hroot by (destruct Hj as [[<- <-]|[<- <-]]; done).
          destruct Hj as [[<- <-]|[<- <-]]; (split; [done|by rewrite Hcf]).
        - subst f. destruct Hj as [[<- <-]|[<- <-]]; (split; [done|]); destruct Hends; congruence. }
      destruct Hbr as [Hbr <-]. by apply IH.
  - rewrite length_app. cbn [length].
    pose proof (root_count_link lk ra rb (seqZ 0 n) (NoDup_seqZ 0 n)) as Hrc.
    assert (S (root_count (zset lk ra rb) (seqZ 0 n)) = root_count lk (seqZ 0 n)); [|lia].
    apply Hrc; auto; [|apply elem_of_seqZ; lia]. apply Forall_forall. intros x Hx%elem_of_seqZ. lia.
  - apply Forall_app. split; [done|]. by apply Forall_singleton.
Qed.
End Dsu.

(** ** The loop *)

Section Kruskal.
Variables (n : Z) (E : list Edge).
Hypothesis Hn : 0 < n < 2 ^ 31.
Hypothesis HE : Forall (fun e => (0 <= e_u e < n /\ 0 <= e_v e < n) /\ 0 <= e_length e) E.

(** The exchange: an edge [e] that joins two sets of the forest [T], and that is no
    longer than any edge of the graph that joins two sets, can be added. *)
Lemma extends_add lk T e :
  dsu_ok n lk T -> Forall (fun e => e ∈ E) T -> extends n E T -> e ∈ E -> root lk (e_u e) <> root lk (e_v e) ->
  (forall f, f ∈ E -> root lk (e_u f) <> root lk (e_v f) -> e_length e <= e_length f) ->
  extends n E (T ++ [e]).
Proof.
  intros Hd HT Hext He Hne Hmin. rewrite Forall_forall in HE, HT.
  apply (exchange n E ltac:(by apply Forall_forall) (fun x => root lk x =? root lk (e_v e)) T e (e_u e) (e_v e)); auto.
  - by left.
  - by apply Z.eqb_neq.
  - by apply Z.eqb_eq.
  - intros f Hf. destruct (HE f (HT f Hf)) as [[Hu Hv] _]. f_equal.
    apply (d_conn _ _ _ Hd); [done..|]. by apply conn_edge.
  - intros z Hz Hr. apply Z.eqb_eq in Hr. destruct (HE e He) as [[_ Hv] _]. by apply (d_conn _ _ _ Hd).
  - intros f Hf Hc. apply Hmin; [done|]. intros Hr. apply Hc. by rewrite Hr.
Qed.

(** What the loop has achieved when it stops with the tree [T]; [P] says that the edges
    were in ascending order. *)
Record result (P : Prop) (T : list Edge) : Prop := {
  res_ext : P -> extends n E T;
  res_dsu : exists lk, dsu_ok n lk T;
  res_sub : T ⊆+ E;
  res_stop : zlen T = n - 1 \/ forall e, e ∈ E -> conn T (e_u e) (e_v e)
}.

Lemma span_loop_spec (P : Prop) (es : list Edge) :
  forall D T lk rands, D ++ es ≡ₚ E -> (P -> StronglySorted (fun a b => e_length a <= e_length b) es) ->
  dsu_ok n lk T -> (P -> extends n E T) -> T ⊆+ D -> zlen T < n ->
  (zlen T < n - 1 \/ n = 1) ->
  (forall e, e ∈ D -> root lk (e_u e) = root lk (e_v e)) ->
  exists T', span_loop es n (mkDSU lk n) T rands = Ok T' /\ result P T'.
Proof.
  induction es as [|e es IH]; intros D T lk rands HDE Hsort Hd Hext Hsub HTn HT1 Hproc.
  { exists T. split; [done|]. rewrite app_nil_r in HDE. split; [done|by exists lk|by rewrite <- HDE|].
    right. intros e He. rewrite <- HDE in He. rewrite Forall_forall in HE.
    destruct (HE e) as [[Hu Hv] _]; [by rewrite <- HDE|]. apply (d_conn _ _ _ Hd); auto. }
  assert (HeE : e ∈ E) by (rewrite <- HDE, elem_of_app; right; by left).
  pose proof HE as HE'. rewrite Forall_forall in HE'. destruct (HE' e HeE) as [[Hu Hv] _].
  destruct (root_range n _ _ _ Hd Hu) as [Hru _]. destruct (root_range n _ _ _ Hd Hv) as [Hrv _].
  assert (Hsort' : P -> StronglySorted (fun a b => e_length a <= e_length b) es) by (intros HP; specialize (Hsort HP); by inversion Hsort).
  assert (HDE' : (D ++ [e]) ++ es ≡ₚ E) by (by rewrite <- app_assoc).
  cbn [span_loop]. rewrite (find_spec n Hn lk T _ Hd Hu), (find_spec n Hn lk T _ Hd Hv).
  unfold to_s32. rewrite !to_signed_small by lia.
  destruct (Z.eqb_spec (root lk (e_u e)) (root lk (e_v e))) as [Heq|Hne]; cbn [negb].
  - apply (IH (D ++ [e]) T lk rands); auto.
    + etrans; [exact Hsub|]. apply submseteq_inserts_r. done.
    + intros f [Hf | ->%list_elem_of_singleton]%elem_of_app; auto.
  - unfold unite. rewrite !u32_small by lia.
    rewrite !(find_spec n Hn lk T) by done. rewrite !(root_of_root n lk T) by done. rewrite !u32_small by lia.
    assert (Hn1 : 1 < n) by (destruct (Z.eq_dec n 1) as [->|]; [|lia]; lia).
    destruct (rand rands) as [doSwap rands']. cbn [link dsu_size].
    destruct (if doSwap then (root lk (e_v e), root lk (e_u e)) else (root lk (e_u e), root lk (e_v e)))
      as [ra rb] eqn:Eab.
    assert (Hab : ra = root lk (e_u e) /\ rb = root lk (e_v e) \/ ra = root lk (e_v e) /\ rb = root lk (e_u e))
      by (destruct doSwap; injection Eab as <- <-; auto).
    assert (Hra : 0 <= ra < n) by (destruct Hab as [[-> _]|[-> _]]; done).
    assert (Hrne : ra <> rb) by (destruct Hab as [[-> ->]|[-> ->]]; congruence).
    rewrite arr_set_ok by (rewrite (d_len _ _ _ Hd); done).
    destruct (Z.ltb_spec (zlen T) (n - 1)); [|lia].
    assert (Hl1 : zlen (T ++ [e]) = zlen T + 1) by (by rewrite zlen_app).
    pose proof (link_ok n Hn lk T e ra rb Hd Hu Hv Hab Hrne) as Hd'.
    assert (Hext' : P -> extends n E (T ++ [e])).
    { intros HP. specialize (Hsort HP). apply StronglySorted_inv in Hsort as [_ Hmin]. assert (HTE : Forall (fun e => e ∈ E) T).
      { apply Forall_forall. intros f Hf. rewrite <- HDE. apply elem_of_app. left. by apply (elem_of_submseteq T). }
      apply (extends_add lk); auto. intros f Hf Hfr. rewrite <- HDE in Hf. apply elem_of_app in Hf as [Hf|Hf].
      - by destruct Hfr; apply Hproc.
      - apply elem_of_cons in Hf as [->|Hf]; [lia|]. rewrite Forall_forall in Hmin. by apply Hmin. }
    assert (Hsub' : T ++ [e] ⊆+ D ++ [e]) by (by apply submseteq_app).
    pose proof (zlen_nonneg T). destruct (Z.eqb_spec (zlen (T ++ [e])) (n - 1)) as [Estop|].
    + exists (T ++ [e]). split; [done|]. split; [done|by eexists| |by left].
      etrans; [exact Hsub'|]. rewrite <- HDE'. by apply submseteq_inserts_r.
    + apply (IH (D ++ [e]) (T ++ [e]) (zset lk ra rb) rands'); auto; [lia|lia|].
      intros f [Hf | ->%list_elem_of_singleton]%elem_of_app.
      * assert (HfE : f ∈ E) by (rewrite <- HDE, elem_of_app; by left). destruct (HE' f HfE) as [[Hfu Hfv] _].
        apply (d_conn _ _ _ Hd'); auto. apply conn_mono with T; [intros g Hg; apply elem_of_app; by left|].
        apply (d_conn _ _ _ Hd); auto.
      * apply (d_conn _ _ _ Hd'); auto. apply conn_edge, elem_of_app. right. by left.
Qed.

(** A tree of [n - 1] edges leaves one set only. *)
Lemma full_tree_connects lk T :
  dsu_ok n lk T -> zlen T = n - 1 -> forall a b, 0 <= a < n -> 0 <= b < n -> conn T a b.
Proof.
  intros Hd Hl a b Ha Hb. apply (d_conn _ _ _ Hd); auto. pose proof (d_count _ _ _ Hd) as Hc.
  destruct (root_range n _ _ _ Hd Ha) as [Hra Hrar]. destruct (root_range n _ _ _ Hd Hb) as [Hrb Hrbr].
  unfold zlen in Hl. unfold root_count in Hc.
  assert (Hmem : forall r, 0 <= r < n -> is_root lk r = true -> r ∈ List.filter (is_root lk) (seqZ 0 n)).
  { intros r Hr Hroot. apply list_elem_of_In, filter_In. split; [|done]. apply list_elem_of_In, elem_of_seqZ. lia. }
  pose proof (Hmem _ Hra Hrar) as H1. pose proof (Hmem _ Hrb Hrbr) as H2.
  destruct (List.filter (is_root lk) (seqZ 0 n)) as [|r [|]]; cbn in Hc; try lia.
  apply list_elem_of_singleton in H1, H2. congruence.
Qed.
End Kruskal.

(** ** The program *)

(** A graph as the program builds it. *)
Record graph_ok (g : Graph) : Prop := {
  gk_count : 0 < vertCount g < 2 ^ 31;
  gk_edges : Forall (fun e => (0 <= e_u e < vertCount g /\ 0 <= e_v e < vertCount g) /\ 0 <= e_length e) (edges g)
}.

(** [T] is a spanning tree of [g]. *)
Record spanning_tree (g : Graph) (T : list Edge) : Prop := {
  st_sub : T ⊆+ edges g;
  st_size : zlen T = vertCount g - 1;
  st_conn a b : 0 <= a < vertCount g -> 0 <= b < vertCount g -> conn T a b
}.

(** No choice of edges that connects the vertices of [g] is lighter. *)
Definition lightest (g : Graph) (T : list Edge) : Prop := forall S, spanning (vertCount g) (edges g) S -> weight T <= weight S.

(** The comparison says of two edges of different length that they are equal or in order,
    depending on which comes first: it is not an order, and the C standard leaves open
    what [qsort] makes of it. *)
Lemma edgeComapre_no_order (a b : Edge) : e_length a < e_length b -> edgeComapre a b = 0 /\ 0 < edgeComapre b a.
Proof. unfold edgeComapre. zcase; cbn; lia. Qed.

Section Program.
Context {Q : Qsort Edge}.

(** The edges as [qsort] leaves them are in ascending order. *)
Definition sorts (g : Graph) : Prop := StronglySorted (fun a b => e_length a <= e_length b) (qsort edgeComapre (edges g)).

Lemma findSpanningTree_correct (g : Graph) (rands : list bool) :
  graph_ok g ->
  exists code T, findSpanningTree g rands = Ok (code, T) /\
    match code with
    | Success => spanning_tree g T /\ (sorts g -> lightest g T)
    | NoSpanningTree => exists a b, 0 <= a < vertCount g /\ 0 <= b < vertCount g /\ ~ conn (edges g) a b
    | _ => False
    end.
Proof.
  intros [Hn HE]. unfold findSpanningTree. set (n := vertCount g) in *. set (E := edges g) in *.
  pose proof (qsort_perm edgeComapre E) as Hp.
  destruct (span_loop_spec n E Hn HE (sorts g) (qsort edgeComapre E) [] [] (seqZ 0 n) rands) as (T & Et & [Hext (lk & Hd) Hsub Hstop]);
    [done|done|exact (createDSU_ok n Hn)|intros _; by apply extends_nil|done|change (zlen (@nil Edge)) with 0; lia|
     change (zlen (@nil Edge)) with 0; lia|by intros e ?%elem_of_nil|].
  unfold createDSU. rewrite Et, u32_small by lia. pose proof (tree_short n Hn _ _ Hd) as Hts.
  destruct (Z.ltb_spec (zlen T) (n - 1)) as [Hlt|Hge].
  - do 2 eexists. split; [done|]. cbn. destruct Hstop as [?|Hall]; [lia|].
    pose proof (d_count _ _ _ Hd) as Hc. unfold zlen in Hlt. unfold root_count in Hc.
    assert (Hroots : forall r, r ∈ List.filter (is_root lk) (seqZ 0 n) -> 0 <= r < n /\ root lk r = r).
    { intros r Hr. apply list_elem_of_In, filter_In in Hr as [Hr Hroot]. apply list_elem_of_In, elem_of_seqZ in Hr.
      split; [lia|]. apply Z.eqb_eq in Hroot. unfold root.
      rewrite (reach_find lk 0 r r); [done| |lia]. apply reach_root; [rewrite (d_len _ _ _ Hd); lia|done]. }
    assert (Hnd : NoDup (List.filter (is_root lk) (seqZ 0 n))).
    { apply NoDup_ListNoDup, List.NoDup_filter, NoDup_ListNoDup, NoDup_seqZ. }
    destruct (List.filter (is_root lk) (seqZ 0 n)) as [|a [|b rest]]; cbn in Hc; [lia|lia|].
    destruct (Hroots a) as [Ha Hra]; [by left|]. destruct (Hroots b) as [Hb Hrb]; [by right; left|].
    exists a, b. split; [done|]. split; [done|]. intros Hconn.
    assert (HcT : conn T a b) by (eapply conn_sub; [exact Hall|exact Hconn]).
    apply (d_conn _ _ _ Hd) in HcT; [|done..]. apply NoDup_cons in Hnd as [Hnin _]. apply Hnin.
    rewrite Hra, Hrb in HcT. subst b. by left.
  - do 2 eexists. split; [done|]. cbn. assert (Hfull : zlen T = n - 1) by (unfold zlen in *; lia).
    split; [split; [done|done|by apply (full_tree_connects n Hn lk)]|].
    intros Hso S HS. by apply (extends_minimal n E HE); [apply Hext|..].
Qed.

(** An edge of the input. *)
Definition to_edge (e : Z * Z * Z) : Edge := let '(u, v, len) := e in mkEdge (u - 1) (v - 1) len.

Lemma kruskal_read_edges (n : Z) (es : list (Z * Z * Z)) (rest : list Z) :
  Forall (valid_edge n) es -> 0 < n <= 5000 ->
  forall g, vertCount g = n -> edgesCount g + zlen es <= maxEdges g ->
  read_edges (length es) n g (edge_text es ++ rest) =
    Ok (inl (mkGraph (edges g ++ map to_edge es) n (maxEdges g))).
Proof.
  intros Hes Hn. induction Hes as [|[[u v] len] es (Hu & Hv & Hlen) _ IH]; intros g Hvc Hm.
  { destruct g. cbn in *. subst. by rewrite app_nil_r. }
  cbn [length edge_text flat_map app read_edges]. fold (edge_text es).
  unfold validateVertexIndex, validateVertexLength, INT_MAX in *. zcase; try lia.
  rewrite !u32_small by lia. unfold addEdge. rewrite !Z.geb_leb. rewrite zlen_cons in Hm. pose proof (zlen_nonneg es).
  zcase; try lia. rewrite IH; [|done|unfold edgesCount in *; cbn; rewrite zlen_app; change (zlen [_]) with 1; lia].
  cbn. by rewrite <- app_assoc.
Qed.

Lemma kruskal_program_ok (rands : list bool) (n : Z) (es : list (Z * Z * Z)) (rest : list Z) :
  1 <= n <= 5000 -> zlen es <= n * (n - 1) / 2 -> Forall (valid_edge n) es ->
  let g := mkGraph (map to_edge es) n (zlen es) in
  (exists T, main rands (n :: zlen es :: edge_text es ++ rest) =
     Ok (inl (map (fun e => (e_u e + 1, e_v e + 1)) T)) /\ spanning_tree g T /\ (sorts g -> lightest g T)) \/
  (main rands (n :: zlen es :: edge_text es ++ rest) = Ok (inr NoSpanningTree) /\
   exists a b, 0 <= a < n /\ 0 <= b < n /\ ~ conn (edges g) a b).
Proof.
  intros Hn Hm Hes g. pose proof (zlen_nonneg es).
  assert (Hgok : graph_ok g).
  { split; cbn; [lia|]. apply Forall_forall. intros e He. apply list_elem_of_fmap in He as ([[u v] len] & -> & He).
    rewrite Forall_forall in Hes. specialize (Hes _ He). cbn in *. lia. }
  assert (Hmain : main rands (n :: zlen es :: edge_text es ++ rest) =
    let* '(code, tree) := findSpanningTree g rands in
    match code with
    | Success => Ok (inl (map (fun e => (u32 (e_u e + 1), u32 (e_v e + 1))) tree))
    | s => Ok (inr s)
    end).
  { cbn [main]. unfold validateVerticesNumber, validateEdgesNumber, createGraph.
    rewrite s32_ok by nia. rewrite Z.quot_div_nonneg by nia. rewrite Z.gtb_ltb. zcase; try lia. cbn [assert].
    unfold zlen at 1. rewrite Nat2Z.id, (kruskal_read_edges n); [done|done|lia|done|].
    unfold edgesCount. cbn [edges maxEdges]. change (zlen (@nil Edge)) with 0. lia. }
  rewrite Hmain. destruct (findSpanningTree_correct g rands Hgok) as (code & T & -> & Hres).
  destruct code; try done; [left|by right]. exists T. split; [|done]. do 2 f_equal.
  apply map_ext_in. intros e He%list_elem_of_In. destruct Hres as [[Hsub _ _] _].
  assert (HeE : e ∈ edges g) by (by apply (elem_of_submseteq T)).
  destruct Hgok as [Hc HE]. rewrite Forall_forall in HE. destruct (HE e HeE) as [[Hu Hv] _].
  cbn [vertCount g] in Hu, Hv. rewrite !u32_small by lia. done.
Qed.
End Program.

(** C8.  [findSpanningTree], on any graph with fewer than 2^31 vertices, for every
    [qsort] that rearranges the array and whatever [rand] answers, returns a spanning
    tree: n-1 of the given edges that connect all vertices; or it reports that there is
    none, and then some two vertices are not connected by the graph.  When [qsort] leaves
    the edges in ascending order, which the C standard does not promise for this
    comparison, the tree is a minimum one: no other choice of edges that connects the
    vertices is lighter. *)
Theorem kruskal_correct (Q : Qsort Edge) (g : Graph) (rands : list bool) :
  graph_ok g ->
  exists code T, findSpanningTree g rands = Ok (code, T) /\
    match code with
    | Success => spanning_tree g T /\ (sorts g -> lightest g T)
    | NoSpanningTree => exists a b, 0 <= a < vertCount g /\ 0 <= b < vertCount g /\ ~ conn (edges g) a b
    | _ => False
    end.
Proof. intros. by apply findSpanningTree_correct. Qed.

(** Kruskal's program, given 1 to 5000 vertices and at most n(n-1)/2 valid
    edges, prints the edges of a spanning tree of the graph they describe, a minimum one
    when [qsort] sorts, or reports that the graph is not connected. *)
Theorem kruskal_program (Q : Qsort Edge) (rands : list bool) (n : Z) (es : list (Z * Z * Z)) (rest : list Z) :
  1 <= n <= 5000 -> zlen es <= n * (n - 1) / 2 -> Forall (valid_edge n) es ->
  let g := mkGraph (map to_edge es) n (zlen es) in
  (exists T, main rands (n :: zlen es :: edge_text es ++ rest) =
     Ok (inl (map (fun e => (e_u e + 1, e_v e + 1)) T)) /\ spanning_tree g T /\ (sorts g -> lightest g T)) \/
  (main rands (n :: zlen es :: edge_text es ++ rest) = Ok (inr NoSpanningTree) /\
   exists a b, 0 <= a < n /\ 0 <= b < n /\ ~ conn (edges g) a b).
Proof. intros. by apply kruskal_program_ok. Qed.

Definition demo_edges : list (Z * Z * Z) := [(1, 2, 10); (2, 3, 1); (1, 3, 2); (3, 4, 7)].
Definition demo_graph : Graph := mkGraph (map to_edge demo_edges) 4 4.

Lemma edgeComapre_key (a b : Edge) : 0 < edgeComapre a b <-> e_length b < e_length a.
Proof. unfold edgeComapre. zcase; cbn; lia. Qed.

(** Insertion sort does sort with this comparison. *)
Lemma insertion_sorts g : @sorts (InsertionQsort _) g.
Proof. apply insertion_sort_sorted, edgeComapre_key. Qed.

Lemma kruskal_correct_witness :
  exists T, @findSpanningTree (InsertionQsort _) demo_graph [true] = Ok (Success, T) /\ spanning_tree demo_graph T /\ lightest demo_graph T.
Proof.
  destruct (kruskal_correct (InsertionQsort _) demo_graph [true]) as (code & T & E & H).
  - split; cbn; [lia|]. repeat (constructor; [cbn; lia|]). constructor.
  - exists T. assert (Hc : code = Success) by (vm_compute in E; injection E as <- _; reflexivity). rewrite Hc in E, H.
    split; [exact E|]. split; [apply H|]. apply H, insertion_sorts.
Defined.

Lemma kruskal_program_witness :
  let g := mkGraph (map to_edge demo_edges) 4 (zlen demo_edges) in
  (exists T, @main (InsertionQsort _) [] (4 :: zlen demo_edges :: edge_text demo_edges ++ []) =
     Ok (inl (map (fun e => (e_u e + 1, e_v e + 1)) T)) /\ spanning_tree g T /\ (@sorts (InsertionQsort _) g -> lightest g T)) \/
  (@main (InsertionQsort _) [] (4 :: zlen demo_edges :: edge_text demo_edges ++ []) = Ok (inr NoSpanningTree) /\
   exists a b, 0 <= a < 4 /\ 0 <= b < 4 /\ ~ conn (edges g) a b).
Proof.
  apply (kruskal_program (InsertionQsort _) [] 4 demo_edges []); [lia|by vm_compute|].
  unfold demo_edges. repeat (constructor; [unfold valid_edge, INT_MAX; lia|]). constructor.
Defined.
