(* ===== verification/Prim.v ===== *)
(** * C-Labs/Minimal_spanning_tree_Prim_algo/src: spanning_tree.c, main.c

    Prim's algorithm with a binary heap and lazy deletion, on the adjacency matrices
    of [AdjGraph]: graph.c is the file of Dijkstra's program but for the type of the
    length given to [addEdge], which is converted to [int32_t] in both. *)
From S2P Require Import Prelude HeapSort PQueue GraphInput AdjGraph SpanningTree.

Inductive status :=
| Success | BadNumberOfLines | BadNumberOfVertices | BadNumberOfEdges | BadVertex | BadLength
| AllocationError | OutOfBounds | NoSpanningTree.

(** [Edge_t] of graph.h: the vertex and the length. *)
Definition edgeCompare (a b : Z * Z) : Z :=
  if a.2 <? b.2 then 1 else if a.2 =? b.2 then 0 else -1.

(** The local variables of [findSpanningTree], and the array it fills. *)
Record search := mkSearch {
  verticesInMST : list bool;
  minDistance : list Z;
  spanningTreeParents : list Z;
  queue : PriorityQueue (Z * Z)
}.

(** The body of the loop over the edges of the vertex just added. *)
Definition offer (best : Z) (st : search) (e : Z * Z) : res search :=
  let '(v, len) := e in
  let* inMST := arr_get (verticesInMST st) v in
  let* md := arr_get (minDistance st) v in
  if negb inMST && (len <? md) then
    let* mds := arr_set (minDistance st) v len in
    let* ps := arr_set (spanningTreeParents st) v best in
    let* q := pqAdd edgeCompare (queue st) (v, len) in
    Ok (mkSearch (verticesInMST st) mds ps q)
  else Ok st.

Fixpoint edge_loop (fuel : nat) (graph : Graph) (best : Z) (it : EdgeIterator) (st : search) : res search :=
  match fuel with
  | O => Err OutOfFuel
  | S fuel =>
      let* '(e, it) := nextEdge graph it in
      match e with
      | None => Ok st
      | Some e =>
          let* st := offer best st e in
          edge_loop fuel graph best it st
      end
  end.

(** [while (!pqIsEmpty(queue))], with [spanningVertices]. *)
Fixpoint main_loop (fuel : nat) (graph : Graph) (st : search) (spanningVertices : Z) : res (search * Z) :=
  if pqIsEmpty (queue st) then Ok (st, spanningVertices)
  else
    match fuel with
    | O => Err OutOfFuel
    | S fuel =>
        let* '(_, popped, q) := pqPop edgeCompare (queue st) in
        match popped with
        | None => Err Undefined
        | Some (best, _) =>
            let* inMST := arr_get (verticesInMST st) best in
            if inMST then
              main_loop fuel graph (mkSearch (verticesInMST st) (minDistance st) (spanningTreeParents st) q)
                spanningVertices
            else
              let* vs := arr_set (verticesInMST st) best true in
              let* st := edge_loop (S (Z.to_nat (getVertexCount graph))) graph best (constructEdgeIterator best)
                           (mkSearch vs (minDistance st) (spanningTreeParents st) q) in
              main_loop fuel graph st (u64 (spanningVertices + 1))
        end
    end.

(** [parents] is the array of the caller. *)
Definition findSpanningTree (graph : Graph) (parents : list Z) : res (status * list Z) :=
  let n := getVertexCount graph in
  let* q := pqAdd edgeCompare (createPQueue 10) (0, 0) in
  let* '(st, spanningVertices) := main_loop (Z.to_nat ((n + 1) * n + 2)) graph
      (mkSearch (replicate (Z.to_nat n) false) (replicate (Z.to_nat n) UINT32_MAX) parents q) 0 in
  if spanningVertices <? n then Ok (NoSpanningTree, spanningTreeParents st)
  else Ok (Success, spanningTreeParents st).

(** ** main.c *)

Definition validateVerticesNumber (vertN : Z) : bool := (0 <=? vertN) && (vertN <=? 5000).

Definition validateEdgesNumber (vertN edgesN : Z) : res bool :=
  let* m := s32 (vertN * (vertN - 1)) in
  let maxEdgesN := Z.quot m 2 in
  Ok ((0 <=? edgesN) && (edgesN <=? maxEdgesN)).

Definition validateVertexIndex (vertN idx : Z) : bool := (1 <=? idx) && (idx <=? vertN).

Definition validateVertexLength (len : Z) : bool := (0 <=? len) && (len <=? INT_MAX).

(** The loop that reads the edges: the graph, or the reason to stop. *)
Fixpoint read_edges (k : nat) (vertN : Z) (graph : Graph) (input : list Z) : res (Graph + status) :=
  match k with
  | O => Ok (inl graph)
  | S k =>
      match input with
      | u :: v :: len :: input =>
          if negb (validateVertexIndex (to_s32 vertN) u) then Ok (inr BadVertex)
          else if negb (validateVertexIndex (to_s32 vertN) v) then Ok (inr BadVertex)
          else if negb (validateVertexLength len) then Ok (inr BadLength)
          else
            let* '(graph, added) := addEdge graph (u64 (u - 1)) (u64 (v - 1)) (u64 len) in
            if added then read_edges k vertN graph input else Ok (inr OutOfBounds)
      | _ => Ok (inr BadNumberOfLines)
      end
  end.

(** [for (i = 1; i < vertN; ++i) print parents[i] + 1 and i + 1] *)
Fixpoint print_tree (k : nat) (i : Z) (parents : list Z) : res (list (Z * Z)) :=
  match k with
  | O => Ok []
  | S k =>
      let* p := arr_get parents i in
      let* rest := print_tree k (i + 1) parents in
      Ok ((u64 (p + 1), u64 (i + 1)) :: rest)
  end.

(** [garbage] is what the fresh array of parents contains. *)
Definition main (garbage input : list Z) : res (list (Z * Z) + status) :=
  match input with
  | vertN :: edgesN :: input =>
      if negb (validateVerticesNumber (to_s32 vertN)) then Ok (inr BadNumberOfVertices)
      else
        let* edges_ok := validateEdgesNumber (to_s32 vertN) (to_s32 edgesN) in
        if negb edges_ok then Ok (inr BadNumberOfEdges)
        else if vertN =? 0 then Ok (inr NoSpanningTree)
        else
          match createGraph vertN with
          | None => Ok (inr AllocationError)
          | Some graph =>
              let* r := read_edges (Z.to_nat edgesN) vertN graph input in
              match r with
              | inr s => Ok (inr s)
              | inl graph =>
                  let* '(code, parents) := findSpanningTree graph garbage in
                  match code with
                  | Success =>
                      let* tree := print_tree (Z.to_nat (vertN - 1)) 1 parents in
                      Ok (inl tree)
                  | s => Ok (inr s)
                  end
              end
          end
  | _ => Ok (inr BadNumberOfLines)
  end.

Example prim_run :
  main (replicate 4 77) [4; 5;  1; 2; 10;  2; 3; 1;  1; 3; 2;  3; 4; 7;  1; 4; 8] =
    Ok (inl [(3, 2); (1, 3); (3, 4)]).
Proof. vm_compute. reflexivity. Qed.

(** ** The edges of a graph *)

(** All edges, in both directions. *)
Definition graph_edges (g : Graph) : list Edge :=
  flat_map (fun u => map (fun '(v, w) => mkEdge u v w) (edges_from (Z.to_nat (vertCount g)) g u 0))
    (seqZ 0 (vertCount g)).

Definition symmetric (g : Graph) : Prop := forall u v, edge g u v = edge g v u.

Lemma graph_edges_spec g e :
  graph_ok g -> e ∈ graph_edges g <-> edge g (e_u e) (e_v e) = Some (e_length e).
Proof.
  intros Hg. pose proof (g_pos g Hg). unfold graph_edges.
  rewrite list_elem_of_In, in_flat_map. split.
  - intros (u & _ & Hin). apply in_map_iff in Hin as ([v w] & <- & Hin). cbn.
    apply list_elem_of_In, edges_from_spec in Hin as [_ ?]; [done|lia..].
  - intros He. destruct (edge_inv g _ _ _ Hg He) as (Hu & Hv & Hw). unfold vertex in *.
    exists (e_u e). split; [apply list_elem_of_In, elem_of_seqZ; lia|].
    apply in_map_iff. exists (e_v e, e_length e). split; [by destruct e|].
    apply list_elem_of_In, edges_from_spec; [lia..|]. split; [lia|done].
Qed.

Lemma graph_edges_range g :
  graph_ok g -> Forall (fun e => (0 <= e_u e < vertCount g /\ 0 <= e_v e < vertCount g) /\ 0 <= e_length e) (graph_edges g).
Proof.
  intros Hg. apply Forall_forall. intros e He%graph_edges_spec; [|done].
  destruct (edge_inv g _ _ _ Hg He) as (Hu & Hv & Hw). unfold vertex in *. lia.
Qed.

#[export] Instance edgeCompare_keyed : Keyed edgeCompare (fun e => - e.2).
Proof. intros a b. unfold edgeCompare. zcase; lia. Qed.

Section Correct.
Context (g : Graph) (Hg : graph_ok g) (Hsym : symmetric g).
Local Abbreviation n := (vertCount g).
Local Abbreviation E := (graph_edges g).

(** The edges chosen for the vertices [W]. *)
Definition tree_edges (ps mds : list Z) (W : list Z) : list Edge :=
  map (fun v => mkEdge (znth ps v) v (znth mds v)) W.

(** ** The invariant

    [W]: the vertices added after vertex 0, in that order; [B]: the contents of the
    queue; [done u v]: the edge from the added [u] to [v] has been offered. *)
Record inv (W : list Z) (B : list (Z * Z)) (done : Z -> Z -> Prop) (st : search) : Prop := {
  i_vs : zlen (verticesInMST st) = n;
  i_md : zlen (minDistance st) = n;
  i_ps : zlen (spanningTreeParents st) = n;
  i_V : NoDup (0 :: W);
  i_Vv : Forall (vertex g) (0 :: W);
  i_in v : vertex g v -> znth (verticesInMST st) v = true <-> v ∈ 0 :: W;
  i_queue : contains (fun e => - e.2) (queue st) B;
  i_cap : 10 <= capacity (queue st);
  i_tree : Forall (fun e => e ∈ E) (tree_edges (spanningTreeParents st) (minDistance st) W);
  i_inner v : v ∈ W -> znth (spanningTreeParents st) v ∈ 0 :: W;
  i_conn v : v ∈ 0 :: W -> conn (tree_edges (spanningTreeParents st) (minDistance st) W) v 0;
  i_ext : extends n E (tree_edges (spanningTreeParents st) (minDistance st) W);
  i_best u v w : u ∈ 0 :: W -> (v ∉ 0 :: W) -> done u v -> edge g u v = Some w -> znth (minDistance st) v <= w;
  i_frontier v : vertex g v -> (v ∉ 0 :: W) -> znth (minDistance st) v <> UINT32_MAX ->
    (v, znth (minDistance st) v) ∈ B /\ znth (spanningTreeParents st) v ∈ 0 :: W /\
    edge g (znth (spanningTreeParents st) v) v = Some (znth (minDistance st) v);
  i_bag x : x ∈ B -> vertex g x.1 /\ ((x.1 ∉ 0 :: W) -> znth (minDistance st) x.1 <= x.2 < UINT32_MAX)
}.

Lemma prim_V_length V : NoDup V -> Forall (vertex g) V -> zlen V <= n.
Proof.
  intros Hnd Hv. pose proof (g_pos g Hg). assert (Hs : V ⊆ seqZ 0 n).
  { intros x Hx. rewrite Forall_forall in Hv. specialize (Hv x Hx). unfold vertex in Hv. apply elem_of_seqZ. lia. }
  pose proof (submseteq_length _ _ (NoDup_submseteq _ _ Hnd Hs)) as Hl.
  rewrite length_seqZ in Hl. unfold zlen. lia.
Qed.

Lemma prim_inv_weaken W B (done done' : Z -> Z -> Prop) st :
  inv W B done st -> (forall a b w, edge g a b = Some w -> a ∈ 0 :: W -> done' a b -> done a b) -> inv W B done' st.
Proof. intros Hi Hd. destruct Hi. split; auto. intros u v w Hu Hv Hd' He. eapply i_best0; eauto. Qed.

(** What is stored for a vertex outside the tree does not change the tree. *)
Lemma tree_edges_set ps mds W v p d :
  v ∉ W -> Forall (fun x => 0 <= x) W -> 0 <= v < zlen ps -> 0 <= v < zlen mds ->
  tree_edges (zset ps v p) (zset mds v d) W = tree_edges ps mds W.
Proof.
  intros Hv HW Hp Hm. apply map_ext_in. intros x Hx%list_elem_of_In. rewrite Forall_forall in HW.
  specialize (HW x Hx). assert (v <> x) by (intros ->; done). by rewrite !znth_zset_ne by lia.
Qed.

Lemma offer_spec W B done st u v w :
  inv W B done st -> u ∈ 0 :: W -> edge g u v = Some w -> zlen B + 1 < 2 ^ 61 ->
  exists st' B', offer u st (v, w) = Ok st' /\ inv W B' (fun a b => done a b \/ a = u /\ b = v) st' /\
    zlen B' <= zlen B + 1.
Proof.
  intros Hi Hu He Hb. pose proof Hi as [Hvs Hmd Hps HV HVv Hin Hq Hcap Htr Hinn Hcn Hext Hbest Hfr Hbag].
  destruct (edge_inv g u v w Hg He) as (Hug & Hvg & Hw). pose proof Hvg as Hvg'. unfold vertex in Hvg'.
  unfold offer. rewrite !arr_get_ok by lia.
  destruct (negb (znth (verticesInMST st) v) && (w <? znth (minDistance st) v)) eqn:Ec.
  - apply andb_prop in Ec as [Ev Elt]. apply Z.ltb_lt in Elt. apply negb_true_iff in Ev.
    assert (HvV : v ∉ 0 :: W) by (intros ?%Hin; [congruence|done]). pose proof HvV as [_ HvW]%not_elem_of_cons.
    rewrite !arr_set_ok by lia.
    destruct (pqAdd_spec edgeCompare (fun e => - e.2) (queue st) B (v, w) Hq) as (q & -> & Hq' & Hc'); [lia|done|].
    eexists. exists ((v, w) :: B). split; [done|]. split; [|rewrite zlen_cons; lia].
    assert (HW0 : Forall (fun x => 0 <= x) W).
    { apply Forall_cons in HVv as [_ HWv]. eapply Forall_impl; [exact HWv|]. unfold vertex. cbn. lia. }
    assert (Ht : tree_edges (zset (spanningTreeParents st) v u) (zset (minDistance st) v w) W =
      tree_edges (spanningTreeParents st) (minDistance st) W) by (apply tree_edges_set; auto; lia).
    assert (Hz : forall l (y x : Z), zlen l = n -> vertex g x -> znth (zset l v y) x = if v =? x then y else znth l x).
    { intros l y x Hl Hx. unfold vertex in Hx. apply znth_zset; lia. }
    assert (HWg : forall x, x ∈ W -> vertex g x) by (apply Forall_cons in HVv as [_ HWv]; by apply Forall_forall).
    split; cbn [verticesInMST minDistance spanningTreeParents queue]; rewrite ?zlen_zset, ?Ht; auto.
    + lia.
    + intros x Hx. rewrite Hz by auto. destruct (Z.eqb_spec v x) as [->|]; [done|auto].
    + intros a b wab Ha Hb' Hd Hab. destruct (edge_inv g a b wab Hg Hab) as (_ & Hbg & _). rewrite Hz by done.
      destruct (Z.eqb_spec v b) as [<-|].
      * destruct Hd as [Hd|[-> _]]; [|assert (wab = w) as -> by congruence; lia].
        specialize (Hbest a v wab Ha Hb' Hd Hab). lia.
      * destruct Hd as [Hd|[_ ->]]; [by eapply Hbest|done].
    + intros x Hx HxV. rewrite !Hz by done. destruct (Z.eqb_spec v x) as [<-|]; [intros _; split; [by left|done]|].
      intros Hne. destruct (Hfr x Hx HxV Hne) as (? & ? & ?). split; [by right|done].
    + intros x [->|Hx]%elem_of_cons; cbn [fst snd].
      * rewrite Hz, Z.eqb_refl by done. split; [done|]. unfold UINT32_MAX. lia.
      * destruct (Hbag x Hx) as [Hxg Hxd]. split; [done|]. intros HxV. rewrite Hz by done. specialize (Hxd HxV).
        destruct (Z.eqb_spec v x.1) as [Ex|]; [rewrite <- Ex in Hxd|]; lia.
  - exists st, B. split; [done|]. split; [|lia]. split; auto.
    intros a b wab Ha Hb' [Hd|[-> ->]] Hab; [by eapply Hbest|]. assert (wab = w) as -> by congruence.
    apply andb_false_iff in Ec as [Ev|Elt]; [|by apply Z.ltb_ge in Elt].
    apply negb_false_iff, Hin in Ev; [|done]. by destruct Hb'.
Qed.

(** ** The loops *)

Lemma prim_edge_loop_spec W u rest :
  Forall (fun e => edge g u e.1 = Some e.2) rest -> u ∈ 0 :: W ->
  forall fuel it B done st, iterates g it rest -> (length rest < fuel)%nat ->
  inv W B done st -> zlen B + zlen rest < 2 ^ 61 ->
  exists st' B', edge_loop fuel g u it st = Ok st' /\
    inv W B' (fun a b => done a b \/ a = u /\ b ∈ rest.*1) st' /\ zlen B' <= zlen B + zlen rest.
Proof.
  intros Hrest Hu. induction Hrest as [|[v w] rest He Hrest IH]; intros [|fuel] it B done st Hit Hf Hi Hb;
    try (cbn in Hf; lia); cbn [edge_loop]; pose proof (nextEdge_spec g it _ Hg Hit) as Hn; cbn in Hn.
  - destruct Hn as (it' & ->). exists st, B. change (zlen (@nil (Z * Z))) with 0 in *.
    split; [done|]. split; [|lia].
    eapply prim_inv_weaken; [exact Hi|]. intros a b w _ _ [?|[_ ?%elem_of_nil]]; done.
  - destruct Hn as (it' & -> & Hit'). rewrite zlen_cons in *. pose proof (zlen_nonneg rest). cbn in He.
    destruct (offer_spec W B done st u v w Hi Hu He) as (st1 & B1 & -> & Hi1 & Hb1); [lia|].
    destruct (IH fuel it' B1 (fun a b => done a b \/ a = u /\ b = v) st1 Hit') as (st' & B' & -> & Hi' & Hb');
      [cbn in Hf; lia|exact Hi1|lia|].
    exists st', B'. split; [done|]. split; [|lia]. eapply prim_inv_weaken; [exact Hi'|].
    intros a b wab _ _ [?|[-> Hin]]; [tauto|]. cbn in Hin. apply elem_of_cons in Hin as [->|Hin]; tauto.
Qed.

(** All edges of the vertex [u] just added are offered. *)
Lemma process_spec W B u st :
  inv W B (fun a _ => a <> u) st -> u ∈ 0 :: W -> zlen B + n < 2 ^ 61 ->
  exists st' B', edge_loop (S (Z.to_nat (getVertexCount g))) g u (constructEdgeIterator u) st = Ok st' /\
    inv W B' (fun _ _ => True) st' /\ zlen B' <= zlen B + n.
Proof.
  intros Hi Hu Hb. pose proof (g_pos g Hg) as Hn.
  assert (Hug : vertex g u) by (pose proof (i_Vv _ _ _ _ Hi) as HV; rewrite Forall_forall in HV; by apply HV).
  pose proof (construct_iterates g u Hg Hug) as Hit. set (rest := edges_from _ g u 0) in *.
  pose proof (edges_from_length (Z.to_nat n) g u 0) as Hrl. fold rest in Hrl.
  assert (Hspec : forall y w, (y, w) ∈ rest <-> 0 <= y < n /\ edge g u y = Some w)
    by (intros; apply edges_from_spec; lia).
  assert (Hrest : Forall (fun e => edge g u e.1 = Some e.2) rest).
  { apply Forall_forall. intros [y w] Hin. by apply Hspec in Hin as [_ ?]. }
  assert (Hzr : zlen rest <= n) by (unfold zlen; lia).
  destruct (prim_edge_loop_spec W u rest Hrest Hu (S (Z.to_nat (getVertexCount g))) (constructEdgeIterator u) B
    (fun a _ => a <> u) st Hit) as (st' & B' & -> & Hi' & Hb'); [unfold getVertexCount; lia|exact Hi|lia|].
  exists st', B'. split; [done|]. split; [|lia]. eapply prim_inv_weaken; [exact Hi'|]. intros a y w He Ha _.
  destruct (Z.eq_dec a u) as [->|]; [right|by left]. split; [done|].
  destruct (edge_inv g u y w Hg He) as (_ & Hyg & _). unfold vertex in Hyg.
  change y with ((y, w).1). apply list_elem_of_fmap_2, Hspec. done.
Qed.

(** Popping a vertex that is in the tree. *)
Lemma prim_inv_drop W B B' x st q :
  inv W B (fun _ _ => True) st -> B ≡ₚ x :: B' -> x.1 ∈ 0 :: W ->
  contains (fun e => - e.2) q B' -> 10 <= capacity q ->
  inv W B' (fun _ _ => True) (mkSearch (verticesInMST st) (minDistance st) (spanningTreeParents st) q).
Proof.
  intros [Hvs Hmd Hps HV HVv Hin Hq Hcap Htr Hinn Hcn Hext Hbest Hfr Hbag] Hp Hx Hq' Hc'.
  split; cbn [verticesInMST minDistance spanningTreeParents queue]; auto.
  - intros v Hv HvV Hne. destruct (Hfr v Hv HvV Hne) as (Hin' & ? & ?). split; [|done].
    rewrite Hp in Hin'. apply elem_of_cons in Hin' as [Hxe|?]; [|done]. rewrite <- Hxe in Hx. done.
  - intros y Hy. apply Hbag. rewrite Hp. by right.
Qed.

Lemma tree_edges_snoc ps mds W v :
  tree_edges ps mds (W ++ [v]) = tree_edges ps mds W ++ [mkEdge (znth ps v) v (znth mds v)].
Proof. apply map_app. Qed.

Lemma cons_snoc_elem (a v : Z) W x : x ∈ a :: W ++ [v] <-> x ∈ a :: W \/ x = v.
Proof. rewrite !elem_of_cons, elem_of_app, list_elem_of_singleton. tauto. Qed.

(** Popping a vertex for the first time: its edge is a lightest one that leaves the
    tree. *)
Lemma prim_inv_visit W B B' x st q :
  inv W B (fun _ _ => True) st -> B ≡ₚ x :: B' -> (forall y, y ∈ B -> - y.2 <= - x.2) ->
  (x.1 ∉ 0 :: W) -> contains (fun e => - e.2) q B' -> 10 <= capacity q ->
  inv (W ++ [x.1]) B' (fun a _ => a <> x.1)
    (mkSearch (zset (verticesInMST st) x.1 true) (minDistance st) (spanningTreeParents st) q).
Proof.
  intros Hi Hp Hmax HxV Hq' Hc'. pose proof Hi as [Hvs Hmd Hps HV HVv Hin Hq Hcap Htr Hinn Hcn Hext Hbest Hfr Hbag].
  assert (HxB : x ∈ B) by (rewrite Hp; by left). destruct (Hbag x HxB) as [Hxg Hxd]. specialize (Hxd HxV).
  set (v := x.1) in *. destruct (Hfr v Hxg HxV ltac:(lia)) as (HvB & Hpar & Hedge).
  set (p := znth (spanningTreeParents st) v) in *. set (d := znth (minDistance st) v) in *.
  assert (Hx2 : x.2 = d) by (specialize (Hmax _ HvB); cbn in Hmax; lia).
  set (T := tree_edges (spanningTreeParents st) (minDistance st) W) in *.
  assert (HeE : mkEdge p v d ∈ E) by (by apply graph_edges_spec).
  assert (HVg : forall y, y ∈ 0 :: W -> vertex g y) by (by apply Forall_forall).
  assert (Hext' : extends n E (T ++ [mkEdge p v d])).
  { apply (exchange n E (graph_edges_range g Hg) (fun y => bool_decide (y ∈ 0 :: W)) T _ v p); auto.
    - by right.
    - by apply bool_decide_eq_false.
    - by apply bool_decide_eq_true.
    - intros f Hf. apply list_elem_of_In, in_map_iff in Hf as (y & <- & Hy%list_elem_of_In). cbn.
      rewrite !bool_decide_eq_true_2; [done|by right|by apply Hinn].
    - intros z _ Hz%bool_decide_eq_true. eapply conn_trans; [by apply Hcn|]. apply conn_sym. by apply Hcn.
    - intros f Hf%graph_edges_spec Hcross; [|done]. cbn [e_length]. destruct f as [a b w]. cbn in *.
      assert (Hc : exists a b, a ∈ 0 :: W /\ (b ∉ 0 :: W) /\ edge g a b = Some w).
      { destruct (decide (a ∈ 0 :: W)) as [Ha|Ha], (decide (b ∈ 0 :: W)) as [Hb|Hb].
        - by rewrite !bool_decide_eq_true_2 in Hcross.
        - by exists a, b.
        - exists b, a. by rewrite Hsym.
        - by rewrite !bool_decide_eq_false_2 in Hcross. }
      destruct Hc as (a' & b' & Ha & Hb & He). destruct (edge_inv g _ _ _ Hg He) as (_ & Hbg & Hwb).
      pose proof (Hbest a' b' w Ha Hb I He) as Hle.
      destruct (Hfr b' Hbg Hb ltac:(unfold UINT32_MAX; lia)) as (HbB & _). specialize (Hmax _ HbB). cbn in Hmax. lia. }
  unfold vertex in Hxg.
  split; cbn [verticesInMST minDistance spanningTreeParents queue]; rewrite ?zlen_zset, ?tree_edges_snoc; fold p d T; auto.
  - change (NoDup ((0 :: W) ++ [v])). apply NoDup_app. split_and!; [done| |apply NoDup_singleton].
    intros y Hy ->%list_elem_of_singleton. done.
  - change (Forall (vertex g) ((0 :: W) ++ [v])). apply Forall_app. split; [done|]. by apply Forall_singleton.
  - intros y Hy. unfold vertex in Hy. rewrite znth_zset by lia. rewrite cons_snoc_elem, <- Hin by done.
    destruct (Z.eqb_spec v y) as [->|]; [tauto|]. split; [tauto|]. by intros [?| ->].
  - apply Forall_app. split; [done|]. by apply Forall_singleton.
  - intros y [Hy | ->%list_elem_of_singleton]%elem_of_app; apply cons_snoc_elem; left; [by apply Hinn|done].
  - intros y Hy. apply cons_snoc_elem in Hy.
    assert (HTm : forall f, f ∈ T -> f ∈ T ++ [mkEdge p v d]) by (intros; apply elem_of_app; by left).
    destruct Hy as [Hy | ->]; [apply conn_mono with T; auto|].
    apply conn_trans with p; [|apply conn_mono with T; auto]. apply conn_sym.
    apply (conn_edge _ (mkEdge p v d)). apply elem_of_app. right. by left.
  - intros a b w [Ha | ->]%cons_snoc_elem Hb Hne He; [|done]. apply (Hbest a b w); auto.
    intros Hb'. apply Hb. apply cons_snoc_elem. by left.
  - intros y Hy HyV Hyne. rewrite cons_snoc_elem in HyV.
    destruct (Hfr y Hy ltac:(tauto) Hyne) as (HyB & Hyp & Hye). rewrite cons_snoc_elem. split; [|tauto].
    rewrite Hp in HyB. apply elem_of_cons in HyB as [Hxe|?]; [|done]. destruct HyV. right. unfold v. by rewrite <- Hxe.
  - intros y Hy. destruct (Hbag y) as [Hyg Hyd]; [rewrite Hp; by right|]. split; [done|]. intros HyV.
    apply Hyd. rewrite cons_snoc_elem in HyV. tauto.
Qed.

Lemma prim_main_loop_spec (fuel : nat) :
  forall W B st, inv W B (fun _ _ => True) st ->
  (n + 1) * (n - zlen (0 :: W)) + zlen B < Z.of_nat fuel -> zlen B <= 1 + n * zlen (0 :: W) ->
  exists W' st', main_loop fuel g st (zlen (0 :: W)) = Ok (st', zlen (0 :: W')) /\ inv W' [] (fun _ _ => True) st'.
Proof.
  pose proof (g_pos g Hg) as Hn.
  induction fuel as [|fuel IH]; intros W B st Hi Hf Hb; pose proof (prim_V_length _ (i_V _ _ _ _ Hi) (i_Vv _ _ _ _ Hi)) as HVn.
  { pose proof (zlen_nonneg B). nia. }
  cbn [main_loop]. rewrite (pqIsEmpty_spec _ _ B (i_queue _ _ _ _ Hi)).
  destruct B as [|b B0]; [by exists W, st|]. set (B := b :: B0) in *.
  destruct (pqPop_spec edgeCompare _ _ B (i_queue _ _ _ _ Hi)) as (x & q & B' & -> & Hq & Hp & Hmax & Hc); [done|].
  pose proof (Permutation_length Hp) as Hlen. cbn [length] in Hlen.
  assert (HlB : zlen B = zlen B' + 1) by (unfold zlen; lia). pose proof (zlen_nonneg B').
  pose proof (i_cap _ _ _ _ Hi) as Hcap. assert (HxB : x ∈ B) by (rewrite Hp; by left).
  destruct (i_bag _ _ _ _ Hi x HxB) as [Hxg _]. pose proof Hxg as Hxg'. unfold vertex in Hxg'.
  destruct x as [v d] eqn:Ex. cbn [fst] in Hxg, Hxg'. rewrite arr_get_ok by (rewrite (i_vs _ _ _ _ Hi); lia).
  destruct (znth (verticesInMST st) v) eqn:Ev.
  - apply (i_in _ _ _ _ Hi) in Ev; [|done]. apply (IH W B'); [apply (prim_inv_drop W B B' x); subst x; auto; lia|lia|lia].
  - assert (HxV : v ∉ 0 :: W) by (intros ?%(i_in _ _ _ _ Hi); [congruence|done]).
    assert (Hi1 := prim_inv_visit W B B' x st q Hi ltac:(by subst x) ltac:(by subst x) ltac:(by subst x) Hq ltac:(lia)).
    rewrite arr_set_ok by (rewrite (i_vs _ _ _ _ Hi); lia). subst x. cbn [fst] in Hi1.
    pose proof (prim_V_length _ (i_V _ _ _ _ Hi1) (i_Vv _ _ _ _ Hi1)) as HVn1.
    assert (HzW : zlen (0 :: W ++ [v]) = zlen (0 :: W) + 1)
      by (change (0 :: W ++ [v]) with ((0 :: W) ++ [v]); by rewrite zlen_app).
    destruct (process_spec (W ++ [v]) B' v _ Hi1) as (st2 & B2 & -> & Hi2 & Hb2);
      [apply cons_snoc_elem; by right|nia|].
    pose proof (zlen_nonneg (0 :: W)). rewrite u64_small by lia. rewrite <- HzW. apply (IH (W ++ [v]) B2); [done|nia|nia].
Qed.

(** ** [findSpanningTree] *)

(** The edges from the parents to the vertices 1 .. n-1, as they are printed. *)
Definition parent_edges (ps : list Z) : list Edge :=
  map (fun v => mkEdge (znth ps v) v (default 0 (edge g (znth ps v) v))) (seqZ 1 (n - 1)).

Record minimum_spanning_tree (T : list Edge) : Prop := {
  mst_edges : Forall (fun e => e ∈ E) T;
  mst_size : zlen T = n - 1;
  mst_conn a b : 0 <= a < n -> 0 <= b < n -> conn T a b;
  mst_min S : spanning n E S -> weight T <= weight S
}.

(** When the queue is empty nothing outside the tree is connected to it. *)
Lemma inv_closed W st a b :
  inv W [] (fun _ _ => True) st -> conn E a b -> a ∈ 0 :: W -> b ∈ 0 :: W.
Proof.
  intros Hi. induction 1 as [|a b c e _ IH He Hj]; [done|]. intros Ha. specialize (IH Ha).
  apply graph_edges_spec in He; [|done]. assert (Hbc : edge g b c = Some (e_length e)).
  { destruct Hj as [[<- <-]|[<- <-]]; [done|]. by rewrite Hsym. }
  destruct (decide (c ∈ 0 :: W)) as [|Hc]; [done|]. destruct (edge_inv g _ _ _ Hg Hbc) as (_ & Hcg & Hw).
  pose proof (i_best _ _ _ _ Hi b c _ IH Hc I Hbc) as Hle.
  destruct (i_frontier _ _ _ _ Hi c Hcg Hc) as (?%elem_of_nil & _); [|done]. unfold UINT32_MAX. lia.
Qed.

Lemma inv_full W st :
  inv W [] (fun _ _ => True) st -> n <= zlen (0 :: W) ->
  W ≡ₚ seqZ 1 (n - 1) /\
  parent_edges (spanningTreeParents st) ≡ₚ tree_edges (spanningTreeParents st) (minDistance st) W.
Proof.
  intros Hi Hl. pose proof (g_pos g Hg). assert (HW : W ≡ₚ seqZ 1 (n - 1)).
  { apply (Permutation_cons_inv (a := 0)). change (0 :: seqZ 1 (n - 1)) with ([0] ++ seqZ 1 (n - 1)).
    replace ([0] ++ seqZ 1 (n - 1)) with (seqZ 0 n)
      by (replace n with (1 + (n - 1)) at 1 by lia; rewrite seqZ_app by lia; done).
    assert (Hsub : 0 :: W ⊆+ seqZ 0 n).
    { apply NoDup_submseteq; [apply (i_V _ _ _ _ Hi)|]. intros y Hy. pose proof (i_Vv _ _ _ _ Hi) as HV.
      rewrite Forall_forall in HV. specialize (HV y Hy). unfold vertex in HV. apply elem_of_seqZ. lia. }
    apply submseteq_length_Permutation; [done|]. rewrite length_seqZ. unfold zlen in Hl. lia. }
  split; [done|]. unfold parent_edges. rewrite <- HW. apply reflexive_eq. apply map_ext_in.
  intros v Hv%list_elem_of_In. f_equal. pose proof (i_tree _ _ _ _ Hi) as Ht. rewrite Forall_forall in Ht.
  assert (Hin : mkEdge (znth (spanningTreeParents st) v) v (znth (minDistance st) v) ∈ E).
  { apply Ht. apply list_elem_of_In, in_map_iff. exists v. split; [done|]. by apply list_elem_of_In. }
  apply graph_edges_spec in Hin; [|done]. cbn in Hin. by rewrite Hin.
Qed.

Lemma inv_success W st :
  inv W [] (fun _ _ => True) st -> n <= zlen (0 :: W) -> minimum_spanning_tree (parent_edges (spanningTreeParents st)).
Proof.
  intros Hi Hl. destruct (inv_full W st Hi Hl) as [HW HT]. pose proof (g_pos g Hg).
  set (T := tree_edges _ _ W) in *. split.
  - rewrite HT. apply (i_tree _ _ _ _ Hi).
  - unfold parent_edges, zlen. rewrite length_map, length_seqZ. lia.
  - intros a b Ha Hb. apply conn_mono with T; [intros e He; by rewrite HT|].
    assert (Hall : forall v, 0 <= v < n -> conn T v 0).
    { intros v Hv. apply (i_conn _ _ _ _ Hi). destruct (Z.eq_dec v 0) as [->|]; [by left|right].
      rewrite HW. apply elem_of_seqZ. lia. }
    eapply conn_trans; [by apply Hall|]. apply conn_sym. by apply Hall.
  - intros S HS. rewrite (weight_perm _ T HT).
    apply (extends_minimal n E (graph_edges_range g Hg)); [apply (i_ext _ _ _ _ Hi)|done].
Qed.

Lemma prim_inv_init (parents : list Z) q :
  zlen parents = n -> contains (fun e => - e.2) q [] -> 10 <= capacity q ->
  inv [] [] (fun a _ => a <> 0)
    (mkSearch (zset (replicate (Z.to_nat n) false) 0 true) (replicate (Z.to_nat n) UINT32_MAX) parents q).
Proof.
  intros Hp Hq Hc. pose proof (g_pos g Hg) as Hn.
  assert (Hlen : forall A (x : A), zlen (replicate (Z.to_nat n) x) = n)
    by (intros; unfold zlen; rewrite length_replicate; lia).
  assert (Hrep : forall A (IA : Inhabited A) (x : A) v, vertex g v -> znth (replicate (Z.to_nat n) x) v = x).
  { intros A IA x v Hv. unfold znth, vertex in *. apply lookup_total_replicate_2. lia. }
  split; cbn [verticesInMST minDistance spanningTreeParents queue]; rewrite ?zlen_zset; auto.
  - apply NoDup_singleton.
  - apply Forall_singleton. unfold vertex. lia.
  - intros v Hv. pose proof Hv as Hv'. unfold vertex in Hv'. rewrite znth_zset by (rewrite ?Hlen; lia).
    rewrite list_elem_of_singleton. destruct (Z.eqb_spec 0 v) as [<-|]; [done|]. rewrite Hrep by done. split; [done|lia].
  - by intros v ?%elem_of_nil.
  - intros v ->%list_elem_of_singleton. constructor.
  - apply extends_nil.
  - by intros u v w ->%list_elem_of_singleton.
  - intros v Hv _. by rewrite Hrep.
  - by intros x ?%elem_of_nil.
Qed.

Lemma findSpanningTree_ok (parents : list Z) :
  zlen parents = n ->
  exists code ps, findSpanningTree g parents = Ok (code, ps) /\ zlen ps = n /\
    match code with
    | Success => minimum_spanning_tree (parent_edges ps)
    | NoSpanningTree => exists a b, 0 <= a < n /\ 0 <= b < n /\ ~ conn E a b
    | _ => False
    end.
Proof.
  intros Hpar. pose proof (g_pos g Hg) as Hn. unfold findSpanningTree, getVertexCount.
  destruct (pqAdd_spec edgeCompare (fun e => - e.2) (createPQueue 10) [] (0, 0))
    as (q0 & -> & Hq0 & Hc0); [by apply create_contains|left; cbn; lia|done|]. cbn [capacity createPQueue] in Hc0.
  replace (Z.to_nat ((n + 1) * n + 2)) with (S (Z.to_nat ((n + 1) * n + 1))) by nia. cbn [main_loop queue].
  rewrite (pqIsEmpty_spec _ _ _ Hq0).
  destruct (pqPop_spec edgeCompare _ _ _ Hq0) as (x & q & B' & -> & Hq & Hp & _ & Hc); [done|].
  assert (x = (0, 0) /\ B' = []) as [-> ->].
  { apply Permutation_singleton_l in Hp. by injection Hp as -> ->. }
  cbn [verticesInMST minDistance spanningTreeParents].
  assert (Hlen : zlen (replicate (Z.to_nat n) false) = n) by (unfold zlen; rewrite length_replicate; lia).
  rewrite arr_get_ok, arr_set_ok by lia.
  replace (znth (replicate (Z.to_nat n) false) 0) with false
    by (unfold znth; symmetry; apply lookup_total_replicate_2; lia).
  destruct (process_spec [] [] 0 _ (prim_inv_init parents q Hpar Hq ltac:(lia))) as (st & B & E1 & Hi & Hb);
    [by left|change (zlen (@nil (Z * Z))) with 0; lia|].
  rewrite E1. change (zlen (@nil (Z * Z))) with 0 in Hb.
  change (u64 (0 + 1)) with (zlen (0 :: @nil Z)).
  destruct (prim_main_loop_spec (Z.to_nat ((n + 1) * n + 1)) [] B st Hi) as (W & st' & -> & Hi');
    [change (zlen (0 :: @nil Z)) with 1; nia|change (zlen (0 :: @nil Z)) with 1; lia|].
  destruct (Z.ltb_spec (zlen (0 :: W)) n) as [Hlt|Hge]; do 2 eexists; (split; [done|]); (split; [apply Hi'|]); cbn.
  - assert (Hex : ~ seqZ 0 n ⊆ 0 :: W).
    { intros Hsub. pose proof (submseteq_length _ _ (NoDup_submseteq _ _ (NoDup_seqZ 0 n) Hsub)) as Hl.
      rewrite length_seqZ in Hl. unfold zlen in Hlt. lia. }
    assert (Hf : ~ Forall (fun v => v ∈ 0 :: W) (seqZ 0 n)) by (rewrite Forall_forall; exact Hex).
    apply (not_Forall_Exists _), Exists_exists in Hf as (v & Hv%elem_of_seqZ & HvW). exists 0, v.
    split; [lia|]. split; [lia|]. intros Hcn. apply HvW. apply (inv_closed W st' 0 v Hi' Hcn). by left.
  - by apply (inv_success W).
Qed.
End Correct.

(** ** The program *)

Lemma prim_read_edges (n : Z) (es : list (Z * Z * Z)) (rest : list Z) :
  Forall (valid_edge n) es -> 0 < n <= 5000 ->
  forall g, graph_ok g -> vertCount g = n ->
  exists g', read_edges (length es) n g (edge_text es ++ rest) = Ok (inl g') /\ graph_ok g' /\
    vertCount g' = n /\ forall a b, edge g' a b = listed es (edge g a b) a b.
Proof.
  intros Hes Hn. induction Hes as [|[[u v] len] es (Hu & Hv & Hlen) _ IH]; intros g Hg Hvc; [by exists g|].
  cbn [length edge_text flat_map app read_edges]. fold (edge_text es). unfold to_s32. rewrite !to_signed_small by lia.
  unfold validateVertexIndex, validateVertexLength, INT_MAX in *. zcase; try lia. rewrite !u64_small by lia.
  destruct (addEdge_spec g (u - 1) (v - 1) len Hg) as (g1 & -> & Hg1 & Hvc1 & He); [unfold vertex; lia..|].
  destruct (IH g1 Hg1) as (g' & -> & Hg' & Hvc' & He'); [congruence|]. exists g'. split_and!; auto.
  intros a b. rewrite He', He. cbn [listed]. done.
Qed.

Lemma print_tree_spec (ps : list Z) (k : nat) :
  forall i, 0 <= i -> i + Z.of_nat k = zlen ps -> zlen ps <= 5000 ->
  (forall v, i <= v < zlen ps -> 0 <= znth ps v < 5000) ->
  print_tree k i ps = Ok (map (fun v => (znth ps v + 1, v + 1)) (seqZ i (Z.of_nat k))).
Proof.
  induction k as [|k IH]; intros i Hi Hk Hl Hv; [done|]. cbn [print_tree].
  rewrite arr_get_ok by lia. specialize (Hv i ltac:(lia)) as Hvi. rewrite IH by (auto with lia).
  rewrite (seqZ_cons i (Z.of_nat (S k))) by lia. cbn [map]. rewrite !u64_small by lia.
  replace (Z.pred (Z.of_nat (S k))) with (Z.of_nat k) by lia. by rewrite Z.add_1_r.
Qed.

Lemma prim_program_ok (n : Z) (es : list (Z * Z * Z)) (rest garbage : list Z) :
  1 <= n <= 5000 -> zlen es <= n * (n - 1) / 2 -> Forall (valid_edge n) es -> zlen garbage = n ->
  exists g, graph_ok g /\ vertCount g = n /\ (forall a b, edge g a b = listed es None a b) /\
   ((exists T, main garbage (n :: zlen es :: edge_text es ++ rest) =
       Ok (inl (map (fun e => (e_u e + 1, e_v e + 1)) T)) /\ minimum_spanning_tree g T) \/
    (main garbage (n :: zlen es :: edge_text es ++ rest) = Ok (inr NoSpanningTree) /\
     exists a b, 0 <= a < n /\ 0 <= b < n /\ ~ conn (graph_edges g) a b)).
Proof.
  intros Hn Hm Hes Hgar. cbn [main]. pose proof (zlen_nonneg es).
  assert (Hm' : zlen es < 2 ^ 30) by (Z.to_euclidean_division_equations; nia).
  unfold to_s32. rewrite !to_signed_small by lia. unfold validateVerticesNumber, validateEdgesNumber.
  rewrite s32_ok by nia. rewrite Z.quot_div_nonneg by nia. zcase; try lia.
  destruct (createGraph_ok n) as (g0 & -> & Hg0 & Hv0 & He0); [lia|]. replace (Z.to_nat (zlen es)) with (length es) by (unfold zlen; lia).
  destruct (prim_read_edges n es rest Hes ltac:(lia) g0 Hg0 Hv0) as (g & -> & Hg & Hvg & Heg).
  assert (Hedges : forall a b, edge g a b = listed es None a b) by (intros; by rewrite Heg, He0).
  exists g. do 3 (split; [done|]).
  assert (Hsym : symmetric g) by (intros a b; rewrite !Hedges; apply listed_sym).
  destruct (findSpanningTree_ok g Hg Hsym garbage) as (code & ps & -> & Hps & Hres); [lia|]. rewrite Hvg in *.
  destruct code; try done; [left|by right]. exists (parent_edges g ps). split; [|done].
  assert (Hrange : forall v, 1 <= v < zlen ps -> 0 <= znth ps v < 5000).
  { intros v Hv. pose proof (mst_edges _ _ Hres) as HE. rewrite Forall_forall in HE.
    assert (Hin : mkEdge (znth ps v) v (default 0 (edge g (znth ps v) v)) ∈ graph_edges g).
    { apply HE. apply list_elem_of_In, in_map_iff. exists v. split; [done|]. apply list_elem_of_In, elem_of_seqZ. lia. }
    apply graph_edges_spec in Hin; [|done]. apply edge_inv in Hin as (Hu & _ & _); [|done].
    unfold vertex in Hu. cbn in Hu. lia. }
  rewrite print_tree_spec by (auto; lia). do 2 f_equal. unfold parent_edges. rewrite map_map, Hvg.
  rewrite Z2Nat.id by lia. done.
Qed.

(** C22.  [findSpanningTree] (Prim), on any symmetric graph of fewer than 2^15
    vertices, returns within the bound on its loops without leaving an array; the
    parents it stores give a minimum spanning tree: n-1 edges of the graph that
    connect all vertices, no other choice of edges that connects them being lighter.
    It reports that there is none only when two vertices are not connected. *)
Theorem prim_correct (g : Graph) (parents : list Z) :
  graph_ok g -> symmetric g -> zlen parents = vertCount g ->
  exists code ps, findSpanningTree g parents = Ok (code, ps) /\ zlen ps = vertCount g /\
    match code with
    | Success => minimum_spanning_tree g (parent_edges g ps)
    | NoSpanningTree => exists a b, 0 <= a < vertCount g /\ 0 <= b < vertCount g /\ ~ conn (graph_edges g) a b
    | _ => False
    end.
Proof. intros. by apply findSpanningTree_ok. Qed.

(** Prim's program, given 1 to 5000 vertices and at most n(n-1)/2 valid edges,
    prints the edges of a minimum spanning tree of the graph they describe (the last
    edge listed for two vertices counts), or reports that it is not connected. *)
Theorem prim_program (n : Z) (es : list (Z * Z * Z)) (rest garbage : list Z) :
  1 <= n <= 5000 -> zlen es <= n * (n - 1) / 2 -> Forall (valid_edge n) es -> zlen garbage = n ->
  exists g, graph_ok g /\ vertCount g = n /\ (forall a b, edge g a b = listed es None a b) /\
   ((exists T, main garbage (n :: zlen es :: edge_text es ++ rest) =
       Ok (inl (map (fun e => (e_u e + 1, e_v e + 1)) T)) /\ minimum_spanning_tree g T) \/
    (main garbage (n :: zlen es :: edge_text es ++ rest) = Ok (inr NoSpanningTree) /\
     exists a b, 0 <= a < n /\ 0 <= b < n /\ ~ conn (graph_edges g) a b)).
Proof. apply prim_program_ok. Qed.

Definition demo_matrix : Graph := mkGraph [[-1; 5; 20]; [5; -1; 7]; [20; 7; -1]] 3.

Lemma demo_matrix_ok : graph_ok demo_matrix /\ symmetric demo_matrix.
Proof.
  assert (H3 : forall u, 0 <= u < 3 -> u = 0 \/ u = 1 \/ u = 2) by lia.
  assert (Hok : graph_ok demo_matrix).
  { split; cbn [vertCount adjMatrix demo_matrix]; [lia|done| |].
    - intros u [-> | [-> | ->]]%H3; done.
    - intros u v [-> | [-> | ->]]%H3 [-> | [-> | ->]]%H3; by vm_compute. }
  split; [done|]. intros u v. unfold edge. cbn [vertCount demo_matrix]. zcase; try done; try lia;
    (assert (Hu : 0 <= u < 3) by lia; assert (Hv : 0 <= v < 3) by lia;
     destruct (H3 u Hu) as [-> | [-> | ->]], (H3 v Hv) as [-> | [-> | ->]]; vm_compute in *; congruence).
Qed.

Lemma prim_correct_witness :
  exists code ps, findSpanningTree demo_matrix [0; 0; 0] = Ok (code, ps) /\ zlen ps = 3 /\
    match code with
    | Success => minimum_spanning_tree demo_matrix (parent_edges demo_matrix ps)
    | NoSpanningTree => exists a b, 0 <= a < 3 /\ 0 <= b < 3 /\ ~ conn (graph_edges demo_matrix) a b
    | _ => False
    end.
Proof. apply (prim_correct demo_matrix [0; 0; 0]); [apply demo_matrix_ok..|done]. Defined.

Definition prim_demo : list (Z * Z * Z) := [(1, 2, 5); (2, 3, 7); (1, 3, 20)].

Lemma prim_program_witness :
  exists g, graph_ok g /\ vertCount g = 3 /\ (forall a b, edge g a b = listed prim_demo None a b) /\
   ((exists T, main [0; 0; 0] (3 :: zlen prim_demo :: edge_text prim_demo ++ []) =
       Ok (inl (map (fun e => (e_u e + 1, e_v e + 1)) T)) /\ minimum_spanning_tree g T) \/
    (main [0; 0; 0] (3 :: zlen prim_demo :: edge_text prim_demo ++ []) = Ok (inr NoSpanningTree) /\
     exists a b, 0 <= a < 3 /\ 0 <= b < 3 /\ ~ conn (graph_edges g) a b)).
Proof.
  apply (prim_program 3 prim_demo [] [0; 0; 0]); [lia|by vm_compute| |done].
  unfold prim_demo. repeat constructor; unfold INT_MAX; lia.
Defined.
