(* ===== verification/Knapsack.v ===== *)
(** * C-Labs/Knapsack_problem/src: KnapsackProblem.c, main.c

    The 0-1 knapsack by dynamic programming, and the recovery of the chosen items
    from the table.  Allocation is taken to succeed. *)
From S2P Require Import Prelude.

Record KnapsackData := mkData { itemsCount : Z; capacity : Z; weights : list Z; prices : list Z }.

Record KnapsackAnswer := mkAnswer { bestTotalCost : Z; includedItems : list Z; includedItemsCount : Z }.

Definition Max (a b : Z) : Z := if b <? a then a else b.

Definition AllocateIntMatrix (n m : Z) : list (list Z) :=
  replicate (Z.to_nat n) (replicate (Z.to_nat m) 0).

Definition GetBestTotalCost (costTable : list (list Z)) (data : KnapsackData) (step load : Z) : res Z :=
  let* w := arr_get (weights data) (step - 1) in
  let* p := arr_get (prices data) (step - 1) in
  let* leaveItem := mat_get costTable (step - 1) load in
  let* d := s32 (load - w) in
  if d >=? 0 then
    let* c := mat_get costTable (step - 1) d in
    let* takeItem := s32 (c + p) in
    Ok (Max leaveItem takeItem)
  else Ok leaveItem.

(** [for (load = ...; load <= capacity; ++load)], [k] passes. *)
Fixpoint fill_row (k : nat) (costTable : list (list Z)) (data : KnapsackData) (step load : Z)
  : res (list (list Z)) :=
  match k with
  | O => Ok costTable
  | S k =>
      let* c := GetBestTotalCost costTable data step load in
      let* costTable := mat_set costTable step load c in
      fill_row k costTable data step (load + 1)
  end.

Fixpoint fill_table (k : nat) (costTable : list (list Z)) (data : KnapsackData) (step : Z)
  : res (list (list Z)) :=
  match k with
  | O => Ok costTable
  | S k =>
      let* costTable := fill_row (Z.to_nat (capacity data + 1)) costTable data step 0 in
      fill_table k costTable data (step + 1)
  end.

(** The loop of [CollectIncludedItems] from the last step down: the array
    [included] and the number of items. *)
Fixpoint mark_items (step : nat) (costTable : list (list Z)) (data : KnapsackData) (load : Z)
    (included : list bool) (count : Z) : res (list bool * Z) :=
  match step with
  | O => Ok (included, count)
  | S s =>
      let* here := mat_get costTable (Z.of_nat step) load in
      let* above := mat_get costTable (Z.of_nat s) load in
      if here =? above then
        let* included := arr_set included (Z.of_nat s) false in
        mark_items s costTable data load included count
      else
        let* included := arr_set included (Z.of_nat s) true in
        let* count := s32 (count + 1) in
        let* w := arr_get (weights data) (Z.of_nat s) in
        let* load := s32 (load - w) in
        mark_items s costTable data load included count
  end.

(** The second loop: [items] are the [idx] entries written so far of the [count]
    allocated. *)
Fixpoint gather_items (k : nat) (i : Z) (included : list bool) (count : Z) (items : list Z) : res (list Z) :=
  match k with
  | O => Ok items
  | S k =>
      let* b := arr_get included i in
      if b then
        if zlen items <? count then gather_items k (i + 1) included count (items ++ [i]) else Err Undefined
      else gather_items k (i + 1) included count items
  end.

Definition CollectIncludedItems (costTable : list (list Z)) (data : KnapsackData) (best : Z) : res KnapsackAnswer :=
  let* '(included, count) :=
    mark_items (Z.to_nat (itemsCount data)) costTable data (capacity data)
      (replicate (Z.to_nat (itemsCount data)) false) 0 in
  let* items := gather_items (Z.to_nat (itemsCount data)) 0 included count [] in
  Ok (mkAnswer best items count).

Definition KnapsackProblem (weights prices : list Z) (itemsCount capacity : Z) : res KnapsackAnswer :=
  let* n1 := s32 (itemsCount + 1) in
  let* c1 := s32 (capacity + 1) in
  let data := mkData itemsCount capacity weights prices in
  let* costTable := fill_table (Z.to_nat itemsCount) (AllocateIntMatrix n1 c1) data 1 in
  let* best := mat_get costTable itemsCount capacity in
  CollectIncludedItems costTable data best.

(** ** main.c *)

(** The loop that reads the items; [None] is [INPUT_ERROR]. *)
Fixpoint read_items (k : nat) (input : list Z) : option (list Z * list Z) :=
  match k with
  | O => Some ([], [])
  | S k =>
      match input with
      | w :: p :: input =>
          match read_items k input with
          | Some (ws, ps) => Some (w :: ws, p :: ps)
          | None => None
          end
      | _ => None
      end
  end.

(** [printf("%i %i\n", weights[item], prices[item])] for every included item. *)
Fixpoint print_items (items : list Z) (weights prices : list Z) : res (list (Z * Z)) :=
  match items with
  | [] => Ok []
  | item :: items =>
      let* w := arr_get weights item in
      let* p := arr_get prices item in
      let* rest := print_items items weights prices in
      Ok ((w, p) :: rest)
  end.

(** What is printed: the cost and the items; [None] is the message of
    [INPUT_ERROR]. *)
Definition main (input : list Z) : res (option (Z * list (Z * Z))) :=
  match input with
  | itemsCount :: capacity :: input =>
      match read_items (Z.to_nat itemsCount) input with
      | None => Ok None
      | Some (weights, prices) =>
          let* ans := KnapsackProblem weights prices itemsCount capacity in
          let* lines := print_items (take (Z.to_nat (includedItemsCount ans)) (includedItems ans)) weights prices in
          Ok (Some (bestTotalCost ans, lines))
      end
  | _ => Ok None
  end.

Example knapsack_run :
  main [3; 25; 10; 234; 15; 23; 13; 45] = Ok (Some (279, [(10, 234); (13, 45)])).
Proof. vm_compute. reflexivity. Qed.

(** ** Optimal selections

    A selection says for every item whether it is taken. *)

Fixpoint total (sel : list bool) (xs : list Z) : Z :=
  match sel, xs with
  | b :: sel, x :: xs => (if b then x else 0) + total sel xs
  | _, _ => 0
  end.

(** [x] is the greatest price of a selection of total weight at most [c]. *)
Definition optimal (ws ps : list Z) (c x : Z) : Prop :=
  (exists sel, length sel = length ws /\ total sel ws <= c /\ total sel ps = x) /\
  forall sel, length sel = length ws -> total sel ws <= c -> total sel ps <= x.

Lemma total_snoc sel xs b x :
  length sel = length xs -> total (sel ++ [b]) (xs ++ [x]) = total sel xs + if b then x else 0.
Proof.
  revert xs. induction sel as [|b' sel IH]; intros [|y xs]; cbn; try lia; intros Hl.
  rewrite IH by lia. lia.
Qed.

Lemma total_range sel xs :
  Forall (fun x => 0 <= x) xs -> 0 <= total sel xs <= foldr Z.add 0 xs.
Proof.
  intros Hx. revert sel. induction Hx as [|x xs Hx Hxs IH]; intros [|b sel]; cbn; try lia.
  - specialize (IH []). cbn in IH. lia.
  - specialize (IH sel). destruct b; lia.
Qed.

Lemma optimal_step ws ps w p c x1 x2 :
  length ps = length ws -> Forall (fun x => 0 <= x) ws -> optimal ws ps c x1 ->
  (0 <= c - w -> optimal ws ps (c - w) x2) ->
  optimal (ws ++ [w]) (ps ++ [p]) c (if c - w >=? 0 then Max x1 (x2 + p) else x1).
Proof.
  intros Hl Hws [(s1 & L1 & W1 & P1) M1] H2. rewrite Z.geb_leb.
  assert (Hsplit : forall sel : list bool, length sel = length (ws ++ [w]) -> exists s b, sel = s ++ [b] /\ length s = length ws).
  { intros sel. destruct sel as [|b s _] using rev_ind; rewrite !length_app; cbn; [lia|]. intros. exists s, b.
    split; [done|lia]. }
  split.
  - assert (Hleave : exists sel, length sel = length (ws ++ [w]) /\ total sel (ws ++ [w]) <= c /\ total sel (ps ++ [p]) = x1).
    { exists (s1 ++ [false]). rewrite !length_app, !total_snoc by lia. cbn. split_and!; lia. }
    destruct (Z.leb_spec 0 (c - w)) as [Hc|]; [|done]. unfold Max. destruct (Z.ltb_spec (x2 + p) x1); [done|].
    destruct (H2 Hc) as [(s2 & L2 & W2 & P2) _]. exists (s2 ++ [true]).
    rewrite !length_app, !total_snoc by lia. cbn. split_and!; lia.
  - intros sel Hsel. destruct (Hsplit sel Hsel) as (s & b & -> & Hs). rewrite !total_snoc by lia. intros Hw.
    pose proof (total_range s ws Hws). destruct b.
    + destruct (Z.leb_spec 0 (c - w)) as [Hc|]; [|lia]. destruct (H2 Hc) as [_ M2]. specialize (M2 s Hs ltac:(lia)).
      unfold Max. zcase; lia.
    + specialize (M1 s Hs ltac:(lia)). destruct (Z.leb_spec 0 (c - w)); [unfold Max; zcase|]; lia.
Qed.

(** ** The table *)

Section Table.
Context (ws ps : list Z) (cap : Z).
Hypothesis Hlen : length ps = length ws.
Hypothesis Hws : Forall (fun w => 0 <= w <= INT_MAX) ws.
Hypothesis Hps : Forall (fun p => 0 <= p) ps.
Hypothesis Hsum : foldr Z.add 0 ps <= INT_MAX.
Hypothesis Hn : zlen ws < INT_MAX.
Hypothesis Hcap : 0 <= cap < INT_MAX.
Local Abbreviation n := (zlen ws).
Local Abbreviation data := (mkData n cap ws ps).

(** Row [s] of the table is right for the loads below [l]. *)
Definition row_ok (t : list (list Z)) (s l : Z) : Prop :=
  forall c, 0 <= c < l -> optimal (take (Z.to_nat s) ws) (take (Z.to_nat s) ps) c (znth (znth t s) c).

Record shape (t : list (list Z)) : Prop := {
  sh_rows : zlen t = n + 1;
  sh_cols u : 0 <= u < n + 1 -> zlen (znth t u) = cap + 1
}.

Lemma cell t u v : shape t -> 0 <= u <= n -> 0 <= v <= cap -> mat_get t u v = Ok (znth (znth t u) v).
Proof. intros [Hr Hc] Hu Hv. apply (mat_get_ok _ (n + 1) (cap + 1)); auto; lia. Qed.

Lemma take_item (xs : list Z) (s : Z) :
  0 < s <= zlen xs -> take (Z.to_nat s) xs = take (Z.to_nat (s - 1)) xs ++ [znth xs (s - 1)].
Proof.
  intros Hs. replace (Z.to_nat s) with (S (Z.to_nat (s - 1))) by lia. apply take_S_r.
  apply list_lookup_lookup_total_lt. unfold zlen in Hs. lia.
Qed.

Lemma sum_take (xs : list Z) (k : nat) : Forall (fun x => 0 <= x) xs -> foldr Z.add 0 (take k xs) <= foldr Z.add 0 xs.
Proof.
  intros Hx. rewrite <- (take_drop k xs) in Hx |- * at 2. apply Forall_app in Hx as [_ Hd].
  rewrite foldr_app. assert (Hpos : 0 <= foldr Z.add 0 (drop k xs)) by (induction Hd; cbn; lia).
  generalize dependent (foldr Z.add 0 (drop k xs)). intros d Hd0. induction (take k xs); cbn; lia.
Qed.

(** A cost of the table, with the price of the next item, fits an [int]. *)
Lemma cost_bound s c x :
  0 < s <= n -> optimal (take (Z.to_nat (s - 1)) ws) (take (Z.to_nat (s - 1)) ps) c x ->
  0 <= x /\ x + znth ps (s - 1) <= INT_MAX.
Proof.
  intros Hs [(sel & Hl & _ & <-) _].
  assert (Hp : Forall (fun p => 0 <= p) (take (Z.to_nat (s - 1)) ps)) by (by apply Forall_take).
  pose proof (total_range sel _ Hp). split; [lia|]. pose proof (sum_take ps (Z.to_nat s) Hps) as Ht.
  rewrite take_item in Ht by (unfold zlen in *; lia). rewrite foldr_app in Ht. cbn in Ht.
  assert (Hf : forall l z, foldr Z.add z l = foldr Z.add 0 l + z) by (induction l; intros; cbn; [lia|rewrite IHl; lia]).
  rewrite Hf in Ht. lia.
Qed.

Lemma weight_range s : 0 < s <= n -> 0 <= znth ws (s - 1) <= INT_MAX.
Proof.
  intros Hs. apply (Forall_lookup_1 _ _ (Z.to_nat (s - 1)) _ Hws), list_lookup_lookup_total_lt. unfold zlen in Hs. lia.
Qed.

Lemma GetBestTotalCost_spec t s l :
  shape t -> 0 < s <= n -> 0 <= l <= cap -> row_ok t (s - 1) (cap + 1) ->
  exists x, GetBestTotalCost t data s l = Ok x /\ optimal (take (Z.to_nat s) ws) (take (Z.to_nat s) ps) l x.
Proof.
  intros Ht Hs Hl Hrow. pose proof (weight_range s Hs) as Hw. unfold GetBestTotalCost. cbn [weights prices].
  rewrite !arr_get_ok by (unfold zlen in *; lia). rewrite cell by (auto; lia). unfold INT_MAX in *.
  rewrite s32_ok by lia.
  assert (Hle : length (take (Z.to_nat (s - 1)) ps) = length (take (Z.to_nat (s - 1)) ws)) by (rewrite !length_take; lia).
  assert (Hp0 : Forall (fun x => 0 <= x) (take (Z.to_nat (s - 1)) ws)).
  { apply Forall_take. eapply Forall_impl; [exact Hws|]. cbn. lia. }
  pose proof (optimal_step _ _ (znth ws (s - 1)) (znth ps (s - 1)) l (znth (znth t (s - 1)) l)
    (znth (znth t (s - 1)) (l - znth ws (s - 1))) Hle Hp0) as Hopt.
  rewrite <- !take_item in Hopt by (unfold zlen in *; lia).
  specialize (Hopt (Hrow l ltac:(lia)) ltac:(intros; apply Hrow; lia)).
  revert Hopt. rewrite Z.geb_leb. destruct (Z.leb_spec 0 (l - znth ws (s - 1))) as [Hd|]; [|by eauto].
  assert (Hd' : 0 <= l - znth ws (s - 1) < cap + 1) by lia.
  rewrite cell by (auto; lia). destruct (cost_bound s _ _ Hs (Hrow _ Hd')) as [Hx Hxp].
  assert (0 <= znth ps (s - 1)).
  { apply (Forall_lookup_1 _ _ (Z.to_nat (s - 1)) _ Hps), list_lookup_lookup_total_lt. unfold zlen in *. lia. }
  unfold INT_MAX in *. rewrite s32_ok by lia. eauto.
Qed.

Lemma fill_row_spec s : 0 < s <= n -> forall k l t, 0 <= l -> l + Z.of_nat k = cap + 1 -> shape t ->
  (forall r, 0 <= r < s -> row_ok t r (cap + 1)) -> row_ok t s l ->
  exists t', fill_row k t data s l = Ok t' /\ shape t' /\ forall r, 0 <= r <= s -> row_ok t' r (cap + 1).
Proof.
  intros Hs. induction k as [|k IH]; intros l t Hl Hk Ht Hrows Hrow; cbn [fill_row].
  { exists t. split; [done|]. split; [done|]. intros r Hr. destruct (Z.eq_dec r s) as [->|]; [|apply Hrows; lia].
    by replace (cap + 1) with l by lia. }
  destruct (GetBestTotalCost_spec t s l Ht Hs ltac:(lia) (Hrows (s - 1) ltac:(lia))) as (x & -> & Hx).
  destruct (mat_set_ok t (n + 1) (cap + 1) s l x (sh_rows t Ht) (sh_cols t Ht)) as (t1 & -> & Hr1 & Hc1 & Hz); [lia..|].
  apply IH; [lia|lia|done| |].
  - intros r Hr c Hc. rewrite Hz by lia. destruct (Z.eqb_spec s r); [lia|]. by apply Hrows.
  - intros c Hc. rewrite Hz by lia. rewrite Z.eqb_refl. cbn [andb]. destruct (Z.eqb_spec l c) as [<-|]; [done|].
    apply Hrow. lia.
Qed.

Lemma fill_table_spec : forall k s t, 0 < s -> s + Z.of_nat k = n + 1 -> shape t ->
  (forall r, 0 <= r < s -> row_ok t r (cap + 1)) ->
  exists t', fill_table k t data s = Ok t' /\ shape t' /\ forall r, 0 <= r <= n -> row_ok t' r (cap + 1).
Proof.
  induction k as [|k IH]; intros s t Hs Hk Ht Hrows; cbn [fill_table].
  { exists t. split; [done|]. split; [done|]. intros r Hr. apply Hrows. lia. }
  cbn [capacity]. destruct (fill_row_spec s ltac:(lia) (Z.to_nat (cap + 1)) 0 t) as (t1 & -> & Ht1 & Hr1);
    [lia|lia|done|done|intros c Hc; lia|].
  apply IH; [lia|lia|done|]. intros r Hr. apply Hr1. lia.
Qed.

(** ** The items *)

(** The indices of the items a selection takes, counted from [i]. *)
Fixpoint indices (i : Z) (sel : list bool) : list Z :=
  match sel with
  | [] => []
  | b :: sel => (if b then [i] else []) ++ indices (i + 1) sel
  end.

Lemma indices_snoc sel b : forall i, indices i (sel ++ [b]) = indices i sel ++ if b then [i + zlen sel] else [].
Proof.
  induction sel as [|c sel IH]; intros i; cbn [app indices].
  - change (zlen (@nil bool)) with 0. rewrite Z.add_0_r. by rewrite app_nil_r.
  - rewrite IH, zlen_cons, <- app_assoc. do 2 f_equal. destruct b; [|done]. f_equal. lia.
Qed.

(** Following the table from row [s] and load [l]. *)
Lemma mark_items_spec t : shape t -> (forall r, 0 <= r <= n -> row_ok t r (cap + 1)) ->
  forall s l inc count, Z.of_nat s <= n -> 0 <= l <= cap -> zlen inc = n -> 0 <= count -> count + Z.of_nat s <= INT_MAX ->
  exists inc', mark_items s t data l inc count = Ok (inc', count + zlen (indices 0 (take s inc'))) /\
    zlen inc' = n /\ drop s inc' = drop s inc /\ total (take s inc') (take s ws) <= l /\
    total (take s inc') (take s ps) = znth (znth t (Z.of_nat s)) l.
Proof.
  intros Ht Hrows. induction s as [|s IH]; intros l inc count Hs Hl Hinc Hc Hcs.
  { exists inc. rewrite !take_0. cbn [mark_items indices]. change (zlen (@nil Z)) with 0. rewrite Z.add_0_r.
    do 3 (split; [done|]). cbn. split; [lia|]. destruct (Hrows 0 ltac:(lia) l ltac:(lia)) as [(sel & _ & _ & E) _].
    change (Z.of_nat 0) with 0. rewrite <- E. by destruct sel. }
  assert (Htake : forall inc' b, zlen inc' = n -> drop s inc' = drop s (zset inc (Z.of_nat s) b) ->
    take (S s) inc' = take s inc' ++ [b] /\ drop (S s) inc' = drop (S s) inc).
  { intros inc' b Hi Hd. assert (Hb : inc' !! s = Some b).
    { replace s with (s + 0)%nat by lia. rewrite <- lookup_drop, Hd, lookup_drop. unfold zset.
      rewrite Nat2Z.id, Nat.add_0_r. apply list_lookup_insert_eq. unfold zlen in *. lia. }
    split; [by apply take_S_r|]. replace (S s) with (s + 1)%nat by lia. rewrite <- !drop_drop, Hd. unfold zset.
    rewrite !drop_drop, Nat2Z.id. apply drop_insert_lt. lia. }
  cbn [mark_items weights]. rewrite !cell by (auto; lia).
  destruct (GetBestTotalCost_spec t (Z.of_nat (S s)) l Ht ltac:(lia) Hl (Hrows (Z.of_nat (S s) - 1) ltac:(lia))) as (x & Eg & Hx).
  assert (Ex : x = znth (znth t (Z.of_nat (S s))) l).
  { destruct (Hrows (Z.of_nat (S s)) ltac:(lia) l ltac:(lia)) as [(s1 & L1 & W1 & P1) M1].
    destruct Hx as [(s2 & L2 & W2 & P2) M2]. specialize (M1 s2 L2 W2). specialize (M2 s1 L1 W1). lia. }
  rewrite <- Ex. pose proof (weight_range (Z.of_nat (S s)) ltac:(lia)) as Hw.
  pose proof (take_item ws (Z.of_nat (S s)) ltac:(lia)) as Htw.
  pose proof (take_item ps (Z.of_nat (S s)) ltac:(unfold zlen in *; lia)) as Htp.
  replace (Z.of_nat (S s) - 1) with (Z.of_nat s) in * by lia. rewrite !Nat2Z.id in *.
  assert (Hls : forall inc' : list bool, zlen inc' = n -> length (take s inc') = length (take s ws) /\ length (take s inc') = length (take s ps)).
  { intros inc' Hi. rewrite !length_take. unfold zlen in *. lia. }
  destruct (Z.eqb_spec x (znth (znth t (Z.of_nat s)) l)) as [E|Hne].
  - rewrite arr_set_ok by lia.
    destruct (IH l (zset inc (Z.of_nat s) false) count) as (inc' & -> & Hi & Hd & Hwt & Hpt); [lia|lia|by rewrite zlen_zset|lia|lia|].
    destruct (Htake inc' false Hi Hd) as [Ht1 Hd1]. destruct (Hls inc' Hi) as [L1 L2]. exists inc'.
    rewrite Ht1, indices_snoc, app_nil_r, Htw, Htp, !total_snoc by done. split_and!; auto; lia.
  - revert Eg. unfold GetBestTotalCost. cbn [weights prices]. replace (Z.of_nat (S s) - 1) with (Z.of_nat s) by lia.
    rewrite !arr_get_ok by (unfold zlen in *; lia). rewrite cell by (auto; lia). unfold INT_MAX in *.
    rewrite !s32_ok by lia. rewrite Z.geb_leb. destruct (Z.leb_spec 0 (l - znth ws (Z.of_nat s))) as [Hd0|]; [|intros [= E]; congruence].
    rewrite cell by (auto; lia). intros Eg. inv_ok. apply s32_inv in E as [-> _]. rewrite arr_set_ok by lia.
    destruct (IH (l - znth ws (Z.of_nat s)) (zset inc (Z.of_nat s) true) (count + 1)) as (inc' & -> & Hi & Hd & Hwt & Hpt);
      [lia|lia|by rewrite zlen_zset|lia|lia|].
    destruct (Htake inc' true Hi Hd) as [Ht1 Hd1]. destruct (Hls inc' Hi) as [L1 L2]. exists inc'.
    rewrite Ht1, indices_snoc, zlen_app, Htw, Htp, !total_snoc by done. change (zlen [0 + zlen (take s inc')]) with 1.
    split_and!; [do 2 f_equal; lia|done|done|lia|]. rewrite Hpt. unfold Max in *. zcase_in Eg; lia.
Qed.

Lemma gather_items_spec inc count : forall k i items, 0 <= i -> i + Z.of_nat k = zlen inc ->
  zlen items + zlen (indices i (drop (Z.to_nat i) inc)) <= count ->
  gather_items k i inc count items = Ok (items ++ indices i (drop (Z.to_nat i) inc)).
Proof.
  induction k as [|k IH]; intros i items Hi Hk Hc; cbn [gather_items].
  { rewrite drop_ge by (unfold zlen in *; lia). cbn. by rewrite app_nil_r. }
  rewrite arr_get_ok by lia.
  assert (Hd : drop (Z.to_nat i) inc = znth inc i :: drop (Z.to_nat (i + 1)) inc).
  { replace (Z.to_nat (i + 1)) with (S (Z.to_nat i)) by lia. apply drop_S.
    apply list_lookup_lookup_total_lt. unfold zlen in *. lia. }
  rewrite Hd in *. cbn [indices] in *. destruct (znth inc i); cbn [app] in *.
  - rewrite zlen_cons in Hc. pose proof (zlen_nonneg (indices (i + 1) (drop (Z.to_nat (i + 1)) inc))).
    destruct (Z.ltb_spec (zlen items) count); [|lia].
    rewrite IH by (rewrite ?zlen_app; change (zlen [i]) with 1; lia). by rewrite <- app_assoc.
  - by rewrite IH by lia.
Qed.

(** The answer describes a best selection. *)
Record best_answer (ans : KnapsackAnswer) (sel : list bool) : Prop := {
  ba_sel : length sel = length ws;
  ba_fits : total sel ws <= cap;
  ba_cost : bestTotalCost ans = total sel ps;
  ba_best sel' : length sel' = length ws -> total sel' ws <= cap -> total sel' ps <= bestTotalCost ans;
  ba_items : includedItems ans = indices 0 sel;
  ba_count : includedItemsCount ans = zlen (includedItems ans)
}.

Lemma KnapsackProblem_ok : exists ans sel, KnapsackProblem ws ps n cap = Ok ans /\ best_answer ans sel.
Proof.
  unfold KnapsackProblem, AllocateIntMatrix. pose proof (zlen_nonneg ws) as Hn0. unfold INT_MAX in *.
  rewrite !s32_ok by lia. set (t0 := replicate (Z.to_nat (n + 1)) (replicate (Z.to_nat (cap + 1)) 0)).
  assert (Hrow0 : forall u, 0 <= u < n + 1 -> znth t0 u = replicate (Z.to_nat (cap + 1)) 0)
    by (intros; apply lookup_total_replicate_2; lia).
  assert (Ht0 : shape t0).
  { split; [unfold zlen, t0; rewrite length_replicate; unfold zlen in *; lia|]. intros u Hu. rewrite Hrow0 by done.
    unfold zlen. rewrite length_replicate. lia. }
  destruct (fill_table_spec (Z.to_nat n) 1 t0) as (t & -> & Ht & Hrows); [lia|lia|done| |].
  { intros r Hr c Hc. replace r with 0 by lia. rewrite Hrow0 by lia. rewrite !take_0.
    replace (znth (replicate (Z.to_nat (cap + 1)) 0) c) with 0 by (symmetry; apply lookup_total_replicate_2; lia).
    split; [exists []; cbn; split_and!; [done|lia|done]|]. intros [|]; cbn; [lia|done]. }
  rewrite cell by (auto; lia). unfold CollectIncludedItems. cbn [itemsCount capacity].
  destruct (mark_items_spec t Ht Hrows (Z.to_nat n) cap (replicate (Z.to_nat n) false) 0) as (inc & -> & Hi & _ & Hw & Hp);
    [lia|lia|unfold zlen at 1; rewrite length_replicate; lia|lia|unfold INT_MAX; lia|].
  rewrite !take_ge in * by (unfold zlen in *; lia). rewrite Z2Nat.id in Hp by lia.
  rewrite gather_items_spec by (rewrite ?drop_0; change (zlen (@nil Z)) with 0; lia). cbn [app].
  eexists. exists inc. split; [done|]. destruct (Hrows n ltac:(lia) cap ltac:(lia)) as [_ Hmax].
  rewrite !take_ge in Hmax by (unfold zlen in *; lia).
  change (Z.to_nat 0) with 0%nat. rewrite drop_0.
  split; cbn [bestTotalCost includedItems includedItemsCount]; auto; unfold zlen in *; lia.
Qed.
End Table.

(** ** The program *)

(** The chosen items, in the order of the input. *)
Fixpoint chosen (sel : list bool) (items : list (Z * Z)) : list (Z * Z) :=
  match sel, items with
  | b :: sel, it :: items => (if b then [it] else []) ++ chosen sel items
  | _, _ => []
  end.

Definition item_text (items : list (Z * Z)) : list Z := flat_map (fun '(w, p) => [w; p]) items.

Lemma read_items_spec items rest :
  read_items (length items) (item_text items ++ rest) = Some (items.*1, items.*2).
Proof.
  induction items as [|[w p] items IH]; [done|]. cbn [length item_text flat_map app read_items].
  fold (item_text items). by rewrite IH.
Qed.

Lemma print_items_spec items sel : length sel = length items ->
  print_items (indices 0 sel) items.*1 items.*2 = Ok (chosen sel items).
Proof.
  enough (Hgen : forall pre sel post, length sel = length post ->
    print_items (indices (zlen pre) sel) (pre ++ post).*1 (pre ++ post).*2 = Ok (chosen sel post))
    by (intros; by apply (Hgen [])).
  intros pre sel' post. revert pre sel'. induction post as [|it post IH]; intros pre [|b sel']; cbn [length]; try lia; [done|].
  intros Hl. cbn [indices chosen]. replace (pre ++ it :: post) with ((pre ++ [it]) ++ post) by (by rewrite <- app_assoc).
  specialize (IH (pre ++ [it]) sel' ltac:(lia)). rewrite zlen_app in IH. change (zlen [it]) with 1 in IH.
  destruct b; cbn [app print_items]; [|done].
  assert (Hg : forall f : Z * Z -> Z, arr_get (map f ((pre ++ [it]) ++ post)) (zlen pre) = Ok (f it)).
  { intros f. unfold arr_get. pose proof (zlen_nonneg pre) as Hp. apply Z.leb_le in Hp as ->.
    unfold zlen. rewrite Nat2Z.id. change (map f) with (fmap (M := list) f). rewrite list_lookup_fmap.
    rewrite lookup_app_l by (rewrite length_app; cbn; lia). by rewrite lookup_app_r, Nat.sub_diag by lia. }
  change (((pre ++ [it]) ++ post).*1) with (map fst ((pre ++ [it]) ++ post)) in *.
  change (((pre ++ [it]) ++ post).*2) with (map snd ((pre ++ [it]) ++ post)) in *.
  rewrite !Hg, IH. by destruct it.
Qed.

Definition item_ok (it : Z * Z) : Prop := 0 <= it.1 <= INT_MAX /\ 0 <= it.2.

Lemma knapsack_program_ok (items : list (Z * Z)) (cap : Z) (rest : list Z) :
  Forall item_ok items -> foldr Z.add 0 items.*2 <= INT_MAX -> zlen items < INT_MAX -> 0 <= cap < INT_MAX ->
  exists sel, length sel = length items /\ total sel items.*1 <= cap /\
    (forall sel', length sel' = length items -> total sel' items.*1 <= cap -> total sel' items.*2 <= total sel items.*2) /\
    main (zlen items :: cap :: item_text items ++ rest) = Ok (Some (total sel items.*2, chosen sel items)).
Proof.
  intros Hit Hsum Hn Hcap. cbn [main]. replace (Z.to_nat (zlen items)) with (length items) by (unfold zlen; lia).
  rewrite read_items_spec. assert (Hl1 : zlen items.*1 = zlen items) by (unfold zlen; by rewrite length_fmap).
  rewrite <- Hl1.
  destruct (KnapsackProblem_ok items.*1 items.*2 cap) as (ans & sel & -> & [Hs Hf Hc Hb Hi Hcnt]); auto.
  - by rewrite !length_fmap.
  - apply Forall_fmap. eapply Forall_impl; [exact Hit|]. by intros x [? ?].
  - apply Forall_fmap. eapply Forall_impl; [exact Hit|]. by intros x [? ?].
  - lia.
  - rewrite length_fmap in *. exists sel. split; [done|]. split; [done|]. split; [by rewrite <- Hc|].
    rewrite take_ge by (rewrite Hcnt; unfold zlen; lia). rewrite Hi, print_items_spec by done. by rewrite Hc.
Qed.

(** C21.  [KnapsackProblem], for weights that are not negative and prices that are not
    negative and sum to at most [INT_MAX], fills its table without overflow and
    without leaving it; the cost it returns is the greatest price of a selection that
    fits the capacity, and the items it returns are such a selection, listed once
    each in the order of the input. *)
Theorem knapsack_optimal (ws ps : list Z) (cap : Z) :
  length ps = length ws -> Forall (fun w => 0 <= w <= INT_MAX) ws -> Forall (fun p => 0 <= p) ps ->
  foldr Z.add 0 ps <= INT_MAX -> zlen ws < INT_MAX -> 0 <= cap < INT_MAX ->
  exists ans sel, KnapsackProblem ws ps (zlen ws) cap = Ok ans /\ best_answer ws ps cap ans sel.
Proof. intros. by apply KnapsackProblem_ok. Qed.

(** The knapsack program prints the greatest price and the items of a selection
    that has it, for every input within the ranges of the previous property. *)
Theorem knapsack_program (items : list (Z * Z)) (cap : Z) (rest : list Z) :
  Forall item_ok items -> foldr Z.add 0 items.*2 <= INT_MAX -> zlen items < INT_MAX -> 0 <= cap < INT_MAX ->
  exists sel, length sel = length items /\ total sel items.*1 <= cap /\
    (forall sel', length sel' = length items -> total sel' items.*1 <= cap -> total sel' items.*2 <= total sel items.*2) /\
    main (zlen items :: cap :: item_text items ++ rest) = Ok (Some (total sel items.*2, chosen sel items)).
Proof. apply knapsack_program_ok. Qed.

Lemma knapsack_optimal_witness :
  exists ans sel, KnapsackProblem [10; 15; 13] [234; 23; 45] (zlen [10; 15; 13]) 25 = Ok ans /\
    best_answer [10; 15; 13] [234; 23; 45] 25 ans sel.
Proof.
  apply (knapsack_optimal [10; 15; 13] [234; 23; 45] 25); [done| | |by vm_compute|done|done];
    repeat (constructor; [unfold INT_MAX; lia|]); constructor.
Defined.

Definition demo_items : list (Z * Z) := [(10, 234); (15, 23); (13, 45)].

Lemma knapsack_program_witness :
  exists sel, length sel = length demo_items /\ total sel demo_items.*1 <= 25 /\
    (forall sel', length sel' = length demo_items -> total sel' demo_items.*1 <= 25 ->
      total sel' demo_items.*2 <= total sel demo_items.*2) /\
    main (zlen demo_items :: 25 :: item_text demo_items ++ []) = Ok (Some (total sel demo_items.*2, chosen sel demo_items)).
Proof.
  apply (knapsack_program demo_items 25 []); [|by vm_compute|done|done].
  unfold demo_items. repeat (constructor; [unfold item_ok, INT_MAX; cbn; lia|]). constructor.
Defined.
