(* ===== verification/TopSort.v ===== *)
(** * C-Labs/Topological_sort/src: Graph.c, main.c

    Topological sorting by depth-first search with three colours, on a directed
    graph stored as a bit matrix.  Allocation is taken to succeed. *)
From S2P Require Import Prelude.

(** ** Graph.c *)

Record Graph := mkGraph { vertCount : Z; edges : list (list Z) }.

Definition bitsPerEntry : Z := 32.

(** [0x1 << (v % bitsPerEntry)] as an [int]; the compilers of this code give
    [INT_MIN] for the shift by 31. *)
Definition bit (v : Z) : Z := to_s32 (Z.shiftl 1 (v mod bitsPerEntry)).

Definition CreateGraph (vertexCount : Z) : res Graph :=
  let* _ := assert (vertexCount >? 0) in
  let* total := s32 (vertexCount + bitsPerEntry - 1) in
  let stringLen := total / bitsPerEntry in
  Ok (mkGraph vertexCount (replicate (Z.to_nat vertexCount) (replicate (Z.to_nat stringLen) 0))).

Definition AddEdge (graph : Graph) (u v : Z) : res Graph :=
  let* _ := assert ((0 <=? u) && (u <? vertCount graph)) in
  let* _ := assert ((0 <=? v) && (v <? vertCount graph)) in
  let* x := mat_get (edges graph) u (v / bitsPerEntry) in
  let* m := mat_set (edges graph) u (v / bitsPerEntry) (Z.lor x (bit v)) in
  Ok (mkGraph (vertCount graph) m).

Definition HasEdge (graph : Graph) (u v : Z) : res bool :=
  let* _ := assert ((0 <=? u) && (u <? vertCount graph)) in
  let* _ := assert ((0 <=? v) && (v <? vertCount graph)) in
  let* x := mat_get (edges graph) u (v / bitsPerEntry) in
  Ok (negb (Z.land x (bit v) =? 0)).

Definition GetVertexCount (graph : Graph) : Z := vertCount graph.

(** [EdgeIterator], on its graph. *)
Record EdgeIterator := mkIt { nodeIdx : Z; curChildIdx : Z }.

Definition ConstructEdgeIterator (node : Z) : EdgeIterator := mkIt node (-1).

(** The loop of [NextEdge] from [i] on. *)
Fixpoint find_child (k : nat) (graph : Graph) (u i : Z) : res Z :=
  match k with
  | O => Ok (-1)
  | S k =>
      let* e := HasEdge graph u i in
      if e then Ok i else find_child k graph u (i + 1)
  end.

Definition NextEdge (graph : Graph) (it : EdgeIterator) : res (Z * EdgeIterator) :=
  let i := curChildIdx it + 1 in
  let* v := find_child (Z.to_nat (vertCount graph - i)) graph (nodeIdx it) i in
  Ok (v, mkIt (nodeIdx it) v).

(** ** main.c *)

Record TopSortData := mkData { sortedResult : list Z; color : list Z; count : Z }.

Definition WHITE : Z := 0.
Definition GRAY : Z := 1.
Definition BLACK : Z := 2.

(** The loop over the children, [visit] being the recursive call. *)
Fixpoint children (visit : Z -> TopSortData -> res (bool * TopSortData)) (k : nat) (graph : Graph)
    (it : EdgeIterator) (data : TopSortData) : res (bool * TopSortData) :=
  match k with
  | O => Err OutOfFuel
  | S k =>
      let* '(v, it) := NextEdge graph it in
      if v >=? 0 then
        let* '(success, data) := visit v data in
        if success then children visit k graph it data else Ok (false, data)
      else Ok (true, data)
  end.

(** The fuel bounds the depth of the recursion. *)
Fixpoint TopSortImpl (fuel : nat) (graph : Graph) (u : Z) (data : TopSortData) : res (bool * TopSortData) :=
  match fuel with
  | O => Err OutOfFuel
  | S fuel =>
      let* c := arr_get (color data) u in
      if c =? GRAY then Ok (false, data)
      else if c =? BLACK then Ok (true, data)
      else
        let* col := arr_set (color data) u GRAY in
        let* '(success, data) :=
          children (TopSortImpl fuel graph) (S (Z.to_nat (GetVertexCount graph))) graph (ConstructEdgeIterator u)
            (mkData (sortedResult data) col (count data)) in
        if success then
          let* r := arr_set (sortedResult data) (count data) u in
          let* col := arr_set (color data) u BLACK in
          Ok (true, mkData r col (count data - 1))
        else Ok (false, data)
  end.

(** [for (u = 0; u < GetVertexCount(graph); ++u)], [k] passes. *)
Fixpoint sort_loop (k : nat) (graph : Graph) (u : Z) (data : TopSortData) : res (bool * TopSortData) :=
  match k with
  | O => Ok (true, data)
  | S k =>
      let* c := arr_get (color data) u in
      if c =? WHITE then
        let* '(success, data) := TopSortImpl (S (Z.to_nat (GetVertexCount graph))) graph u data in
        if success then sort_loop k graph (u + 1) data else Ok (false, data)
      else sort_loop k graph (u + 1) data
  end.

(** Whether it succeeded, and the array [result]. *)
Definition TopSort (graph : Graph) (result : list Z) : res (bool * list Z) :=
  let n := GetVertexCount graph in
  let* '(success, data) :=
    sort_loop (Z.to_nat n) graph 0 (mkData result (replicate (Z.to_nat n) 0) (n - 1)) in
  Ok (success, sortedResult data).

Inductive message := BadVertices | BadEdges | BadVertex | BadLines | Impossible.

Definition ValidateVerticesNumber (vertN : Z) : bool := negb ((vertN <? 0) || (2000 <? vertN)).

Definition ValidateEdgesNumber (vertN edgesN : Z) : res bool :=
  let* m := s32 (vertN * (vertN - 1)) in
  let maxEdgesN := Z.quot m 2 in
  Ok (negb ((edgesN <? 0) || (maxEdgesN <? edgesN))).

Definition ValidateVertexIndex (vertN idx : Z) : bool := negb ((idx <? 1) || (vertN <? idx)).

Fixpoint read_edges (k : nat) (vertN : Z) (graph : Graph) (input : list Z) : res (Graph + message) :=
  match k with
  | O => Ok (inl graph)
  | S k =>
      match input with
      | u :: v :: input =>
          if negb (ValidateVertexIndex vertN u) then Ok (inr BadVertex)
          else if negb (ValidateVertexIndex vertN v) then Ok (inr BadVertex)
          else
            let* graph := AddEdge graph (u - 1) (v - 1) in
            read_edges k vertN graph input
      | _ => Ok (inr BadLines)
      end
  end.

(** [garbage] is what the fresh array of the result contains. *)
Definition main (garbage input : list Z) : res (list Z + message) :=
  match input with
  | vertN :: edgesN :: input =>
      if negb (ValidateVerticesNumber vertN) then Ok (inr BadVertices)
      else
        let* edges_ok := ValidateEdgesNumber vertN edgesN in
        if negb edges_ok then Ok (inr BadEdges)
        else
          let* graph := CreateGraph vertN in
          let* r := read_edges (Z.to_nat edgesN) vertN graph input in
          match r with
          | inr m => Ok (inr m)
          | inl graph =>
              let* '(success, sorted) := TopSort graph garbage in
              if success then Ok (inl (map (fun v => v + 1) (take (Z.to_nat vertN) sorted)))
              else Ok (inr Impossible)
          end
  | _ => Ok (inr BadLines)
  end.

Example topsort_run :
  main (replicate 4 77) [4; 4;  4; 2;  2; 1;  4; 3;  3; 1] = Ok (inl [4; 3; 2; 1]).
Proof. vm_compute. reflexivity. Qed.

Example topsort_run_cycle : main (replicate 3 77) [3; 3;  1; 2;  2; 3;  3; 1] = Ok (inr Impossible).
Proof. vm_compute. reflexivity. Qed.

(** The readme allows a graph without vertices, which stops the program at an
    assertion. *)
Example topsort_empty : main [] [0; 0] = Err AssertFailed.
Proof. vm_compute. reflexivity. Qed.

(** ** The bit matrix *)

(** An [int] repeats its sign bit. *)
Lemma s32_bits (z : Z) : - 2 ^ 31 <= z < 2 ^ 31 <-> forall j, 31 <= j -> Z.testbit z j = Z.testbit z 31.
Proof.
  split.
  - intros Hz j Hj. assert (Hs : Z.shiftr z 31 = 0 \/ Z.shiftr z 31 = -1).
    { rewrite Z.shiftr_div_pow2 by lia. destruct (Z.lt_ge_cases z 0).
      - right. symmetry. apply Z.div_unique with (z + 2 ^ 31); lia.
      - left. apply Z.div_small. lia. }
    replace j with ((j - 31) + 31) by lia. replace 31 with (0 + 31) at 3 by lia.
    rewrite <- !Z.shiftr_spec by lia. destruct Hs as [-> | ->]; [by rewrite !Z.bits_0|by rewrite !Z.bits_m1 by lia].
  - intros Hz. assert (Hs : Z.shiftr z 31 = if Z.testbit z 31 then -1 else 0).
    { apply Z.bits_inj'. intros j Hj. rewrite Z.shiftr_spec, Hz by lia.
      destruct (Z.testbit z 31); [by rewrite Z.bits_m1 by lia|by rewrite Z.bits_0]. }
    rewrite Z.shiftr_div_pow2 in Hs by lia. pose proof (Z.div_mod z (2 ^ 31) ltac:(lia)).
    pose proof (Z.mod_pos_bound z (2 ^ 31) ltac:(lia)). destruct (Z.testbit z 31); lia.
Qed.

(** Bit [i] of an [int] is tested by masking, also the sign bit. *)
Lemma land_bit32 (x v : Z) :
  - 2 ^ 31 <= x < 2 ^ 31 -> negb (Z.land x (bit v) =? 0) = Z.testbit x (v mod 32).
Proof.
  intros Hx. unfold bit, bitsPerEntry. pose proof (Z.mod_pos_bound v 32 ltac:(lia)) as Hi.
  set (i := v mod 32) in *. clearbody i. rewrite Z.shiftl_1_l.
  pose proof (proj1 (s32_bits x) Hx) as Hhigh.
  destruct (Z.eq_dec i 31) as [->|Hne].
  - change (to_s32 (2 ^ 31)) with (- 2 ^ 31). 
    assert (Hl : Z.land x (- 2 ^ 31) = if Z.testbit x 31 then - 2 ^ 31 else 0).
    { apply Z.bits_inj'. intros j Hj. rewrite Z.land_spec.
      destruct (Z.ltb_spec j 31).
      - replace (Z.testbit (- 2 ^ 31) j) with false by (symmetry; apply Z.mul_pow2_bits_low with (a := -1) (n := 31); lia).
        rewrite andb_false_r. destruct (Z.testbit x 31); [|by rewrite Z.bits_0].
        symmetry. apply Z.mul_pow2_bits_low with (a := -1) (n := 31); lia.
      - rewrite (Hhigh j) by lia. destruct (Z.testbit x 31); [done|by rewrite Z.bits_0]. }
    rewrite Hl. by destruct (Z.testbit x 31).
  - assert (Hpow : 0 < 2 ^ i < 2 ^ 31) by (split; [apply Z.pow_pos_nonneg; lia|apply Z.pow_lt_mono_r; lia]).
    unfold to_s32. rewrite to_signed_small by lia.
    assert (Hl : Z.land x (2 ^ i) = if Z.testbit x i then 2 ^ i else 0).
    { apply Z.bits_inj'. intros j Hj. rewrite Z.land_spec, Z.pow2_bits_eqb by lia.
      destruct (Z.eqb_spec i j) as [->|].
      - destruct (Z.testbit x j); [by rewrite Z.pow2_bits_true by lia|by rewrite Z.bits_0].
      - rewrite andb_false_r. destruct (Z.testbit x i); [|by rewrite Z.bits_0]. by rewrite Z.pow2_bits_false by lia. }
    rewrite Hl. destruct (Z.testbit x i); [|done]. destruct (Z.eqb_spec (2 ^ i) 0); [lia|done].
Qed.

Lemma bit_range (v : Z) : - 2 ^ 31 <= bit v < 2 ^ 31.
Proof. unfold bit, to_s32, to_signed. pose proof (Z.mod_pos_bound (Z.shiftl 1 (v mod bitsPerEntry) + 2 ^ (32 - 1)) (2 ^ 32) ltac:(lia)). lia. Qed.

Lemma bit_testbit (v i : Z) : 0 <= i < 32 -> Z.testbit (bit v) i = (v mod 32 =? i).
Proof.
  intros Hi. unfold bit, bitsPerEntry. pose proof (Z.mod_pos_bound v 32 ltac:(lia)) as Hv.
  set (j := v mod 32) in *. clearbody j. rewrite Z.shiftl_1_l. destruct (Z.eq_dec j 31) as [->|Hne].
  - change (to_s32 (2 ^ 31)) with (-1 * 2 ^ 31). destruct (Z.eqb_spec 31 i) as [<-|]; [done|].
    apply Z.mul_pow2_bits_low. lia.
  - assert (Hpow : 0 < 2 ^ j < 2 ^ 31) by (split; [apply Z.pow_pos_nonneg; lia|apply Z.pow_lt_mono_r; lia]).
    unfold to_s32. rewrite to_signed_small by lia. by rewrite Z.pow2_bits_eqb by lia.
Qed.

Lemma lor_range (x y : Z) : - 2 ^ 31 <= x < 2 ^ 31 -> - 2 ^ 31 <= y < 2 ^ 31 -> - 2 ^ 31 <= Z.lor x y < 2 ^ 31.
Proof.
  rewrite !s32_bits. intros Hx Hy j Hj. by rewrite !Z.lor_spec, (Hx j), (Hy j).
Qed.

Record graph_ok (g : Graph) : Prop := {
  g_pos : 0 < vertCount g < 2 ^ 30;
  g_rows : zlen (edges g) = vertCount g;
  g_cols u : 0 <= u < vertCount g -> zlen (znth (edges g) u) = (vertCount g + 31) / 32;
  g_ints u i : 0 <= u < vertCount g -> 0 <= i < (vertCount g + 31) / 32 ->
    - 2 ^ 31 <= znth (znth (edges g) u) i < 2 ^ 31
}.

Definition vertex (g : Graph) (v : Z) : Prop := 0 <= v < vertCount g.

(** The directed graph the bits stand for. *)
Definition edge (g : Graph) (u v : Z) : bool :=
  (0 <=? u) && (u <? vertCount g) && (0 <=? v) && (v <? vertCount g) &&
  Z.testbit (znth (znth (edges g) u) (v / 32)) (v mod 32).

Lemma edge_vertex g u v : edge g u v = true -> vertex g u /\ vertex g v.
Proof. unfold edge, vertex. intros H. repeat (apply andb_prop in H as [H ?]). lia. Qed.

Lemma edge_bit g u v : vertex g u -> vertex g v ->
  edge g u v = Z.testbit (znth (znth (edges g) u) (v / 32)) (v mod 32).
Proof. intros Hu Hv. unfold edge, vertex in *. zcase; try lia. done. Qed.

Lemma word_range g v : vertex g v -> 0 <= v / 32 < (vertCount g + 31) / 32.
Proof. unfold vertex. intros. Z.to_euclidean_division_equations. lia. Qed.

Lemma HasEdge_spec g u v : graph_ok g -> vertex g u -> vertex g v -> HasEdge g u v = Ok (edge g u v).
Proof.
  intros [Hp Hr Hc Hi] Hu Hv. pose proof (word_range g v Hv) as Hw. rewrite edge_bit by done. unfold HasEdge, vertex in *.
  zcase; try lia. cbn [assert]. unfold bitsPerEntry.
  rewrite (mat_get_ok _ (vertCount g) ((vertCount g + 31) / 32)) by done.
  rewrite land_bit32 by (by apply Hi). done.
Qed.

Lemma AddEdge_spec g u v : graph_ok g -> vertex g u -> vertex g v ->
  exists g', AddEdge g u v = Ok g' /\ graph_ok g' /\ vertCount g' = vertCount g /\
    forall a b, edge g' a b = (u =? a) && (v =? b) || edge g a b.
Proof.
  intros [Hp Hr Hc Hi] Hu Hv. pose proof (word_range g v Hv) as Hw. unfold AddEdge, vertex in *.
  zcase; try lia. cbn [assert]. unfold bitsPerEntry. set (m := (vertCount g + 31) / 32) in *.
  rewrite (mat_get_ok _ (vertCount g) m) by done.
  set (x := znth (znth (edges g) u) (v / 32)).
  destruct (mat_set_ok (edges g) (vertCount g) m u (v / 32) (Z.lor x (bit v)) Hr Hc Hu Hw) as (es & -> & Hr' & Hc' & Hz).
  eexists. split; [done|]. split; [|split; [done|]].
  - split; cbn [vertCount edges]; auto. intros a i Ha Hb. rewrite Hz by done.
    destruct ((u =? a) && (v / 32 =? i)); [|by apply Hi]. apply lor_range; [by apply Hi|apply bit_range].
  - intros a b. unfold edge. cbn [vertCount edges].
    destruct ((0 <=? a) && (a <? vertCount g) && (0 <=? b) && (b <? vertCount g)) eqn:Er.
    + cbn [andb]. assert (Hb : vertex g b) by (unfold vertex; lia). pose proof (word_range g b Hb) as Hwb.
      rewrite Hz by (lia || done).
      destruct (Z.eqb_spec u a) as [->|]; cbn [andb orb]; [|done].
      pose proof (Z.mod_pos_bound b 32 ltac:(lia)). pose proof (Z.div_mod b 32 ltac:(lia)). pose proof (Z.div_mod v 32 ltac:(lia)).
      destruct (Z.eqb_spec (v / 32) (b / 32)) as [E|].
      * rewrite Z.lor_spec, bit_testbit by done. unfold x. rewrite E, orb_comm. f_equal. zcase; try done; lia.
      * destruct (Z.eqb_spec v b) as [->|]; done.
    + cbn [andb]. rewrite orb_false_r. symmetry. destruct (Z.eqb_spec u a) as [->|], (Z.eqb_spec v b) as [->|]; try done. lia.
Qed.

Lemma CreateGraph_ok n : 0 < n < 2 ^ 30 ->
  exists g, CreateGraph n = Ok g /\ graph_ok g /\ vertCount g = n /\ forall a b, edge g a b = false.
Proof.
  intros Hn. unfold CreateGraph, bitsPerEntry. rewrite Z.gtb_ltb. destruct (Z.ltb_spec 0 n); [|lia]. cbn [assert].
  rewrite s32_ok by lia. eexists. split; [done|]. replace (n + 32 - 1) with (n + 31) by lia. set (m := (n + 31) / 32).
  assert (Hm : 0 <= m) by (apply Z.div_pos; lia).
  assert (Hrow : forall u, 0 <= u < n -> znth (replicate (Z.to_nat n) (replicate (Z.to_nat m) 0)) u = replicate (Z.to_nat m) 0)
    by (intros; apply lookup_total_replicate_2; lia).
  assert (Hcell : forall i, 0 <= i < m -> znth (replicate (Z.to_nat m) 0) i = 0)
    by (intros; apply lookup_total_replicate_2; lia).
  split; [|split; [done|]].
  - split; cbn [vertCount edges]; fold m; [done|unfold zlen; rewrite length_replicate; lia| |].
    + intros u Hu. rewrite Hrow by done. unfold zlen. rewrite length_replicate. lia.
    + intros u i Hu Hi. rewrite Hrow, Hcell by done. lia.
  - intros a b. unfold edge. cbn [vertCount edges].
    destruct ((0 <=? a) && (a <? n) && (0 <=? b) && (b <? n)) eqn:Er; [|done]. cbn [andb].
    assert (Hb : 0 <= b / 32 < m) by (unfold m; Z.to_euclidean_division_equations; lia).
    rewrite Hrow by lia. rewrite Hcell by done. apply Z.bits_0.
Qed.

(** ** The children of a vertex *)

Fixpoint children_from (k : nat) (g : Graph) (u i : Z) : list Z :=
  match k with
  | O => []
  | S k => if edge g u i then i :: children_from k g u (i + 1) else children_from k g u (i + 1)
  end.

Definition iterates (g : Graph) (it : EdgeIterator) (rest : list Z) : Prop :=
  -1 <= curChildIdx it < vertCount g /\ vertex g (nodeIdx it) /\
  rest = children_from (Z.to_nat (vertCount g - (curChildIdx it + 1))) g (nodeIdx it) (curChildIdx it + 1).

Lemma find_child_spec g u : graph_ok g -> vertex g u -> forall k i, 0 <= i -> i + Z.of_nat k = vertCount g ->
  exists v, find_child k g u i = Ok v /\
    (v = -1 /\ children_from k g u i = [] \/
     i <= v < vertCount g /\
     children_from k g u i = v :: children_from (Z.to_nat (vertCount g - (v + 1))) g u (v + 1)).
Proof.
  intros Hg Hu. induction k as [|k IH]; intros i Hi Hk; cbn [find_child children_from].
  { exists (-1). split; [done|by left]. }
  rewrite HasEdge_spec by (auto; unfold vertex; lia). destruct (edge g u i) eqn:Ee.
  - exists i. split; [done|]. right. split; [lia|]. do 2 f_equal. lia.
  - destruct (IH (i + 1)) as (v & -> & [[-> Hc]|[Hv Hc]]); [lia|lia|by exists (-1); auto|].
    exists v. split; [done|]. right. split; [lia|done].
Qed.

Lemma NextEdge_spec g it rest : graph_ok g -> iterates g it rest ->
  match rest with
  | [] => exists it', NextEdge g it = Ok (-1, it')
  | v :: rest => exists it', NextEdge g it = Ok (v, it') /\ 0 <= v /\ iterates g it' rest
  end.
Proof.
  intros Hg (Hc & Hu & ->). unfold NextEdge.
  destruct (find_child_spec g (nodeIdx it) Hg Hu (Z.to_nat (vertCount g - (curChildIdx it + 1))) (curChildIdx it + 1))
    as (v & -> & [[-> ->]|[Hv ->]]); [lia|lia|by eexists|].
  eexists. split; [done|]. split; [lia|]. split; cbn; [lia|]. split; [done|]. done.
Qed.

Lemma children_from_spec g u : forall k i, 0 <= i -> i + Z.of_nat k = vertCount g ->
  forall v, v ∈ children_from k g u i <-> i <= v < vertCount g /\ edge g u v = true.
Proof.
  induction k as [|k IH]; intros i Hi Hk v; cbn [children_from].
  { split; [by intros ?%elem_of_nil|lia]. }
  destruct (edge g u i) eqn:Ee; rewrite ?elem_of_cons, IH by lia;
    (destruct (Z.eq_dec v i) as [->|]; [rewrite Ee|]; intuition lia || congruence || idtac).
Qed.

Lemma children_length g u : forall k i, (length (children_from k g u i) <= k)%nat.
Proof. induction k as [|k IH]; intros i; cbn; [lia|]. specialize (IH (i + 1)). destruct (edge g u i); cbn; lia. Qed.

(** ** The search *)

Section Search.
Context (g : Graph) (Hg : graph_ok g).
Local Abbreviation n := (vertCount g).

(** A path of one or more edges. *)
Inductive path : Z -> Z -> Prop :=
| path_one u v : edge g u v = true -> path u v
| path_step u v w : path u v -> edge g v w = true -> path u w.

Definition cyclic : Prop := exists v, path v v.

(** Every edge from a vertex of the list leads to a later one. *)
Fixpoint ordered (l : list Z) : Prop :=
  match l with
  | [] => True
  | v :: l => (forall w, edge g v w = true -> w ∈ l) /\ ordered l
  end.

(** The vertices in progress, the innermost first. *)
Fixpoint chain (G : list Z) : Prop :=
  match G with
  | x :: (y :: _) as G => edge g y x = true /\ chain G
  | _ => True
  end.

Lemma chain_cons v G : chain G -> (match G with [] => True | x :: _ => edge g x v = true end) -> chain (v :: G).
Proof. destruct G; cbn; auto. Qed.

(** A vertex in progress reaches the innermost one. *)
Lemma chain_path x G u : chain (x :: G) -> u ∈ x :: G -> u = x \/ path u x.
Proof.
  revert x. induction G as [|y G IH]; intros x Hc Hu.
  - apply list_elem_of_singleton in Hu. by left.
  - destruct Hc as [He Hc]. apply elem_of_cons in Hu as [->|Hu]; [by left|right].
    destruct (IH y Hc Hu) as [->|Hp]; [by constructor|by econstructor].
Qed.

(** [G]: the vertices in progress; [F]: the finished ones, in the order in which
    they stand at the end of the result. *)
Record inv (G F : list Z) (data : TopSortData) : Prop := {
  i_col : zlen (color data) = n;
  i_res : zlen (sortedResult data) = n;
  i_nodup : NoDup (G ++ F);
  i_vert : Forall (vertex g) (G ++ F);
  i_color v : vertex g v -> znth (color data) v = if decide (v ∈ G) then GRAY else if decide (v ∈ F) then BLACK else WHITE;
  i_count : count data = n - 1 - zlen F;
  i_done : drop (Z.to_nat (count data + 1)) (sortedResult data) = F;
  i_ordered : ordered F;
  i_chain : chain G
}.

Lemma inv_length G F data : inv G F data -> zlen G + zlen F <= n.
Proof.
  intros Hi. pose proof (g_pos g Hg). assert (Hs : G ++ F ⊆ seqZ 0 n).
  { intros x Hx. pose proof (i_vert _ _ _ Hi) as Hv. rewrite Forall_forall in Hv. specialize (Hv x Hx).
    unfold vertex in Hv. apply elem_of_seqZ. lia. }
  pose proof (submseteq_length _ _ (NoDup_submseteq _ _ (i_nodup _ _ _ Hi) Hs)) as Hl.
  rewrite length_seqZ, length_app in Hl. unfold zlen. lia.
Qed.

(** What a call for [u] promises. *)
Definition visited (G F : list Z) (u : Z) (r : bool * TopSortData) : Prop :=
  if r.1 then exists F', inv G (F' ++ F) r.2 /\ u ∈ F' ++ F else cyclic.

Lemma inv_enter G F data u :
  inv G F data -> vertex g u -> (u ∉ G) -> (u ∉ F) ->
  (match G with [] => True | x :: _ => edge g x u = true end) ->
  inv (u :: G) F (mkData (sortedResult data) (zset (color data) u GRAY) (count data)).
Proof.
  intros [Hc Hr Hnd Hv Hcol Hcnt Hd Ho Hch] Hu HuG HuF He. pose proof Hu as Hu'. unfold vertex in Hu'.
  split; cbn [color sortedResult count]; rewrite ?zlen_zset; auto.
  - cbn [app]. constructor; [|done]. rewrite elem_of_app. tauto.
  - by constructor.
  - intros v Hvv. pose proof Hvv as Hvv'. unfold vertex in Hvv'. rewrite znth_zset by lia.
    destruct (Z.eqb_spec u v) as [->|]; [by rewrite decide_True by (by left)|]. rewrite Hcol by done.
    destruct (decide (v ∈ G)); [by rewrite decide_True by (by right)|].
    rewrite (decide_False (P := v ∈ u :: G)); [done|]. intros [?|?]%elem_of_cons; done.
  - by apply chain_cons.
Qed.

Lemma inv_finish G F data u :
  inv (u :: G) F data -> (forall w, edge g u w = true -> w ∈ F) ->
  arr_set (sortedResult data) (count data) u = Ok (zset (sortedResult data) (count data) u) /\
  inv G (u :: F) (mkData (zset (sortedResult data) (count data) u) (zset (color data) u BLACK) (count data - 1)).
Proof.
  intros Hi He. pose proof (inv_length _ _ _ Hi) as Hlen. rewrite zlen_cons in Hlen.
  pose proof (zlen_nonneg G). pose proof (zlen_nonneg F).
  destruct Hi as [Hc Hr Hnd Hv Hcol Hcnt Hd Ho Hch].
  assert (Hu : vertex g u) by (by apply Forall_cons in Hv as [? _]). pose proof Hu as Hu'. unfold vertex in Hu'.
  split; [apply arr_set_ok; lia|].
  cbn [app] in Hnd. apply NoDup_cons in Hnd as [Hnin Hnd]. rewrite elem_of_app in Hnin.
  apply Forall_cons in Hv as [_ Hv].
  assert (Hp : u :: G ++ F ≡ₚ G ++ u :: F) by apply Permutation_middle.
  split; cbn [color sortedResult count]; rewrite ?zlen_zset; auto.
  - rewrite <- Hp. constructor; [by rewrite elem_of_app|done].
  - rewrite <- Hp. by constructor.
  - intros v Hvv. pose proof Hvv as Hvv'. unfold vertex in Hvv'. rewrite znth_zset by lia.
    destruct (Z.eqb_spec u v) as [->|].
    + rewrite decide_False by tauto. by rewrite decide_True by (by left).
    + rewrite Hcol by done. destruct (decide (v ∈ G)) as [HG|HG]; [by rewrite decide_True by (by right)|].
      rewrite decide_False by (intros [?|?]%elem_of_cons; done).
      destruct (decide (v ∈ F)); [by rewrite decide_True by (by right)|].
      by rewrite decide_False by (intros [?|?]%elem_of_cons; done).
  - rewrite zlen_cons. lia.
  - replace (count data - 1 + 1) with (count data) by lia. unfold zset. rewrite drop_insert_ge, Nat.sub_diag by lia.
    replace (Z.to_nat (count data + 1)) with (S (Z.to_nat (count data))) in Hd by lia.
    destruct (lookup_lt_is_Some_2 (sortedResult data) (Z.to_nat (count data))) as (x & Hx); [unfold zlen in *; lia|].
    rewrite (drop_S _ _ _ Hx), Hd. done.
  - done.
  - destruct G; [done|]. by destruct Hch.
Qed.

(** The loop over the children, when the calls keep their promise. *)
Lemma children_spec visit G F u :
  (forall F1 data v, inv (u :: G) (F1 ++ F) data -> edge g u v = true ->
    exists r, visit v data = Ok r /\ visited (u :: G) (F1 ++ F) v r) ->
  forall rest k it F1 data, iterates g it rest -> (length rest < k)%nat ->
    Forall (fun v => edge g u v = true) rest -> inv (u :: G) (F1 ++ F) data ->
    exists r, children visit k g it data = Ok r /\
      if r.1 then exists F', inv (u :: G) (F' ++ F) r.2 /\ F1 ++ F ⊆ F' ++ F /\ rest ⊆ F' ++ F else cyclic.
Proof.
  intros Hvisit. induction rest as [|v rest IHr]; intros [|k] it F1 data Hit Hk Hrest Hi; try (cbn in Hk; lia);
    cbn [children]; pose proof (NextEdge_spec g it _ Hg Hit) as Hnext; cbn in Hnext.
  - destruct Hnext as (it' & ->). eexists. split; [done|]. cbn. exists F1. split_and!; [done|done|apply list_subseteq_nil].
  - destruct Hnext as (it' & -> & Hv0 & Hit'). rewrite Z.geb_leb. apply Z.leb_le in Hv0 as ->.
    apply Forall_cons in Hrest as [Hev Hrest].
    destruct (Hvisit F1 data v Hi Hev) as ([b data3] & -> & Hvis).
    destruct b; [|eexists; split; [done|exact Hvis]]. destruct Hvis as (F2 & Hi3 & HvF). cbn [snd] in Hi3.
    rewrite app_assoc in Hi3, HvF.
    destruct (IHr k it' (F2 ++ F1) data3 Hit') as (r & -> & Hr); [cbn in Hk; lia|done|done|].
    exists r. split; [done|]. destruct r.1; [|done]. destruct Hr as (F' & Hi' & Hsub & Hrs). exists F'.
    split; [done|]. split; [etrans; [|exact Hsub]; intros x; rewrite !elem_of_app; tauto|].
    intros x [->|Hx]%elem_of_cons; [by apply Hsub|by apply Hrs].
Qed.

Lemma TopSortImpl_spec (fuel : nat) : forall G F data u,
  inv G F data -> vertex g u -> (match G with [] => True | x :: _ => edge g x u = true end) ->
  n - zlen G < Z.of_nat fuel ->
  exists r, TopSortImpl fuel g u data = Ok r /\ visited G F u r.
Proof.
  induction fuel as [|fuel IH]; intros G F data u Hi Hu He Hf; pose proof (inv_length _ _ _ Hi) as Hlen;
    pose proof (zlen_nonneg F); pose proof (g_pos g Hg); [lia|].
  cbn [TopSortImpl]. pose proof Hu as Hu'. unfold vertex in Hu'. rewrite arr_get_ok by (rewrite (i_col _ _ _ Hi); lia).
  rewrite (i_color _ _ _ Hi u Hu). destruct (decide (u ∈ G)) as [HG|HG].
  { cbn [Z.eqb GRAY]. eexists. split; [done|]. cbn. destruct G as [|x G]; [by apply elem_of_nil in HG|].
    destruct (chain_path x G u (i_chain _ _ _ Hi) HG) as [->|Hp]; [exists x; by constructor|].
    exists u. by econstructor. }
  destruct (decide (u ∈ F)) as [HF|HF].
  { change (BLACK =? GRAY) with false. change (BLACK =? BLACK) with true.
    eexists. split; [done|]. exists []. by split. }
  change (WHITE =? GRAY) with false. change (WHITE =? BLACK) with false.
  rewrite arr_set_ok by (rewrite (i_col _ _ _ Hi); lia).
  assert (Hi1 := inv_enter G F data u Hi Hu HG HF He).
  set (kids := children_from (Z.to_nat n) g u 0).
  assert (Hkids : forall v, v ∈ kids <-> edge g u v = true).
  { intros v. unfold kids. rewrite children_from_spec by lia. split; [tauto|]. intros Hev.
    destruct (edge_vertex g u v Hev) as [_ Hvv]. unfold vertex in Hvv. auto with lia. }
  destruct (children_spec (TopSortImpl fuel g) G F u) with (rest := kids) (k := S (Z.to_nat (GetVertexCount g)))
    (it := ConstructEdgeIterator u) (F1 := @nil Z) (data := mkData (sortedResult data) (zset (color data) u GRAY) (count data))
    as ([b data2] & -> & Hr).
  - intros F1 data1 v Hi2 Hev. destruct (edge_vertex g u v Hev) as [_ Hvv].
    apply IH; [done..|]. rewrite zlen_cons. lia.
  - split; cbn; [lia|]. split; [done|]. unfold kids. f_equal. lia.
  - pose proof (children_length g u (Z.to_nat n) 0). unfold GetVertexCount, kids. lia.
  - apply Forall_forall. intros v Hv. by apply Hkids.
  - done.
  - destruct b; [|by eexists]. destruct Hr as (F' & Hi2 & _ & Hsub). cbn [snd] in Hi2.
    destruct (inv_finish G (F' ++ F) data2 u Hi2) as [-> Hi3]; [intros w Hw; apply Hsub; by apply Hkids|].
    rewrite arr_set_ok by (rewrite (i_col _ _ _ Hi2); lia). eexists. split; [done|].
    exists (u :: F'). split; [done|by left].
Qed.

Lemma sort_loop_spec : forall k u data F, inv [] F data -> 0 <= u -> u + Z.of_nat k = n ->
  (forall v, 0 <= v < u -> v ∈ F) ->
  exists r, sort_loop k g u data = Ok r /\
    if r.1 then exists F', inv [] F' r.2 /\ forall v, vertex g v -> v ∈ F' else cyclic.
Proof.
  induction k as [|k IH]; intros u data F Hi Hu Hk Hdone; cbn [sort_loop].
  { eexists. split; [done|]. exists F. split; [done|]. intros v Hv. unfold vertex in Hv. apply Hdone. lia. }
  assert (Huv : vertex g u) by (unfold vertex; lia). rewrite arr_get_ok by (rewrite (i_col _ _ _ Hi); lia).
  rewrite (i_color _ _ _ Hi u Huv). rewrite (decide_False (P := u ∈ [])) by apply not_elem_of_nil.
  assert (Hnext : forall F', F ⊆ F' -> u ∈ F' -> forall v, 0 <= v < u + 1 -> v ∈ F').
  { intros F' HF' Hu' v Hv. destruct (Z.eq_dec v u) as [->|]; [done|]. apply HF', Hdone. lia. }
  destruct (decide (u ∈ F)) as [HF|HF].
  - change (BLACK =? WHITE) with false. apply (IH _ _ F); [done|lia|lia|by apply Hnext].
  - change (WHITE =? WHITE) with true. cbv iota.
    destruct (TopSortImpl_spec (S (Z.to_nat (GetVertexCount g))) [] F data u Hi Huv I) as ([b data'] & -> & Hr);
      [unfold GetVertexCount; change (zlen (@nil Z)) with 0; lia|].
    destruct b; [|by eexists]. destruct Hr as (F' & Hi' & HuF). apply (IH _ _ (F' ++ F)); [done|lia|lia|].
    apply Hnext; [|done]. intros x Hx. apply elem_of_app. by right.
Qed.

(** All vertices, each once, every edge leading to a later one. *)
Definition topological (l : list Z) : Prop := l ≡ₚ seqZ 0 n /\ ordered l.

Lemma TopSort_ok (result : list Z) : zlen result = n ->
  exists b l, TopSort g result = Ok (b, l) /\ if b then topological l else cyclic.
Proof.
  intros Hres. pose proof (g_pos g Hg). unfold TopSort, GetVertexCount.
  destruct (sort_loop_spec (Z.to_nat n) 0 (mkData result (replicate (Z.to_nat n) 0) (n - 1)) [])
    as ([b data] & -> & Hr); [|lia|lia|lia|].
  - split; cbn [color sortedResult count]; auto.
    + unfold zlen. rewrite length_replicate. lia.
    + constructor.
    + intros v Hv. unfold vertex in Hv. rewrite !decide_False by apply not_elem_of_nil.
      apply lookup_total_replicate_2. lia.
    + change (zlen (@nil Z)) with 0. lia.
    + apply drop_ge. unfold zlen in Hres. lia.
    + done.
    + done.
  - do 2 eexists. split; [done|]. destruct b; [|done]. destruct Hr as (F & Hi & Hall). cbn [snd] in Hi |- *.
    assert (HF : F ≡ₚ seqZ 0 n).
    { apply NoDup_Permutation; [apply (i_nodup _ _ _ Hi)|apply NoDup_seqZ|]. intros v. rewrite elem_of_seqZ.
      pose proof (i_vert _ _ _ Hi) as Hv. rewrite Forall_forall in Hv. split.
      - intros Hin. specialize (Hv v Hin). unfold vertex in Hv. lia.
      - intros Hr'. apply Hall. unfold vertex. lia. }
    assert (HlF : zlen F = n) by (unfold zlen; rewrite HF, length_seqZ; lia).
    pose proof (i_done _ _ _ Hi) as Hd. rewrite (i_count _ _ _ Hi), HlF in Hd.
    replace (Z.to_nat (n - 1 - n + 1)) with 0%nat in Hd by lia. rewrite drop_0 in Hd. rewrite Hd.
    split; [done|apply (i_ordered _ _ _ Hi)].
Qed.

(** The two outcomes exclude each other. *)
Lemma topological_acyclic l : topological l -> ~ cyclic.
Proof.
  intros [Hp Ho] (v & Hv).
  assert (Hnd : NoDup l) by (rewrite Hp; apply NoDup_seqZ).
  assert (Hlater : forall a b, path a b -> forall pre post, l = pre ++ a :: post -> b ∈ post).
  { assert (Hone : forall a b, edge g a b = true -> forall pre post, ordered (pre ++ a :: post) -> b ∈ post).
    { intros a b He. induction pre as [|x pre IH]; intros post Hor; [by apply Hor|]. apply IH. by destruct Hor. }
    induction 1 as [a b He|a b c _ IH He]; intros pre post ->; [by apply (Hone a b He pre)|].
    specialize (IH pre post eq_refl). apply list_elem_of_split in IH as (p1 & p2 & ->).
    apply elem_of_app. right. right. apply (Hone b c He (pre ++ a :: p1)). by rewrite <- app_assoc. }
  assert (Hin : v ∈ l).
  { assert (Hvv : vertex g v) by (inversion Hv; subst; [by destruct (edge_vertex g v v)|by destruct (edge_vertex g v0 v)]).
    rewrite Hp. apply elem_of_seqZ. unfold vertex in Hvv. lia. }
  apply list_elem_of_split in Hin as (pre & post & ->). pose proof (Hlater v v Hv pre post eq_refl) as Hin.
  apply NoDup_app in Hnd as (_ & _ & Hnd). by apply NoDup_cons in Hnd as [? _].
Qed.
End Search.

(** ** The program *)

Definition valid_pair (n : Z) (e : Z * Z) : Prop := 1 <= e.1 <= n /\ 1 <= e.2 <= n.

Definition pair_text (es : list (Z * Z)) : list Z := flat_map (fun '(u, v) => [u; v]) es.

Lemma topsort_read_edges (n : Z) (es : list (Z * Z)) (rest : list Z) :
  Forall (valid_pair n) es -> forall g, graph_ok g -> vertCount g = n ->
  exists g', read_edges (length es) n g (pair_text es ++ rest) = Ok (inl g') /\ graph_ok g' /\ vertCount g' = n /\
    forall a b, edge g' a b = true <-> edge g a b = true \/ (a + 1, b + 1) ∈ es.
Proof.
  intros Hes. induction Hes as [|[u v] es [Hu Hv] _ IH]; intros g Hg Hvc.
  { exists g. split_and!; auto. intros a b. split; [by left|]. by intros [?|?%elem_of_nil]. }
  cbn [length pair_text flat_map app read_edges]. fold (pair_text es). cbn in Hu, Hv.
  unfold ValidateVertexIndex. zcase; try lia.
  destruct (AddEdge_spec g (u - 1) (v - 1) Hg) as (g1 & -> & Hg1 & Hvc1 & He); [unfold vertex; lia..|].
  destruct (IH g1 Hg1) as (g' & -> & Hg' & Hvc' & He'); [congruence|]. exists g'. split_and!; auto.
  intros a b. rewrite He', He, elem_of_cons, orb_true_iff, andb_true_iff, !Z.eqb_eq.
  split; [intros [[[<- <-]|?]|?]|intros [?|[[= <- <-]|?]]]; auto.
  - right. left. f_equal; lia.
  - left. left. split; lia.
Qed.

Lemma topsort_program_ok (n : Z) (es : list (Z * Z)) (rest garbage : list Z) :
  1 <= n <= 2000 -> zlen es <= n * (n - 1) / 2 -> Forall (valid_pair n) es -> zlen garbage = n ->
  exists g, vertCount g = n /\ (forall a b, edge g a b = true <-> (a + 1, b + 1) ∈ es) /\
   ((exists l, main garbage (n :: zlen es :: pair_text es ++ rest) = Ok (inl (map (fun v => v + 1) l)) /\ topological g l) \/
    (main garbage (n :: zlen es :: pair_text es ++ rest) = Ok (inr Impossible) /\ cyclic g)).
Proof.
  intros Hn Hm Hes Hgar. cbn [main]. pose proof (zlen_nonneg es).
  unfold ValidateVerticesNumber, ValidateEdgesNumber. rewrite s32_ok by nia. rewrite Z.quot_div_nonneg by nia.
  zcase; try lia. destruct (CreateGraph_ok n) as (g0 & -> & Hg0 & Hv0 & He0); [lia|].
  replace (Z.to_nat (zlen es)) with (length es) by (unfold zlen; lia).
  destruct (topsort_read_edges n es rest Hes g0 Hg0 Hv0) as (g & -> & Hg & Hvg & Heg).
  exists g. split; [done|]. split; [intros a b; rewrite Heg, He0; intuition done|].
  destruct (TopSort_ok g Hg garbage) as (b & l & -> & Hr); [lia|]. destruct b; [left|by right].
  exists l. split; [|done]. destruct Hr as [Hp _]. rewrite take_ge; [done|]. rewrite Hp, length_seqZ. lia.
Qed.

(** C13.  [TopSort], on any graph of fewer than 2^30 vertices, returns within the
    bound on the depth of its recursion and without leaving an array.  When it
    succeeds the array holds every vertex once and every edge leads to a later
    vertex; when it fails the graph has a cycle; the two exclude each other. *)
Theorem topsort_correct (g : Graph) (result : list Z) :
  graph_ok g -> zlen result = vertCount g ->
  exists b l, TopSort g result = Ok (b, l) /\
    if b then topological g l /\ ~ cyclic g else cyclic g /\ forall l', ~ topological g l'.
Proof.
  intros Hg Hr. destruct (TopSort_ok g Hg result Hr) as (b & l & -> & Hb). exists b, l. split; [done|].
  destruct b; (split; [done|]); [by eapply topological_acyclic|]. intros l' Hl'. by apply (topological_acyclic g l').
Qed.

(** The program, given 1 to 2000 vertices and at most n(n-1)/2 valid edges,
    prints the vertices in a topological order of the graph with exactly these edges,
    or [impossible to sort] when it has a cycle. *)
Theorem topsort_program (n : Z) (es : list (Z * Z)) (rest garbage : list Z) :
  1 <= n <= 2000 -> zlen es <= n * (n - 1) / 2 -> Forall (valid_pair n) es -> zlen garbage = n ->
  exists g, vertCount g = n /\ (forall a b, edge g a b = true <-> (a + 1, b + 1) ∈ es) /\
   ((exists l, main garbage (n :: zlen es :: pair_text es ++ rest) = Ok (inl (map (fun v => v + 1) l)) /\ topological g l) \/
    (main garbage (n :: zlen es :: pair_text es ++ rest) = Ok (inr Impossible) /\ cyclic g)).
Proof. apply topsort_program_ok. Qed.

Definition demo_dag : Graph := mkGraph 3 [[6]; [4]; [0]].

Lemma demo_dag_ok : graph_ok demo_dag.
Proof.
  assert (H3 : forall u, 0 <= u < 3 -> u = 0 \/ u = 1 \/ u = 2) by lia.
  assert (H1 : forall i, 0 <= i < 1 -> i = 0) by lia.
  split; cbn [vertCount edges demo_dag]; [lia|done| |]; change ((3 + 31) / 32) with 1.
  - intros u [-> | [-> | ->]]%H3; done.
  - intros u i [-> | [-> | ->]]%H3 ->%H1; by vm_compute.
Qed.

Lemma topsort_correct_witness :
  exists b l, TopSort demo_dag [0; 0; 0] = Ok (b, l) /\
    if b then topological demo_dag l /\ ~ cyclic demo_dag else cyclic demo_dag /\ forall l', ~ topological demo_dag l'.
Proof. apply (topsort_correct demo_dag [0; 0; 0]); [exact demo_dag_ok|done]. Defined.

Definition demo_pairs : list (Z * Z) := [(4, 2); (2, 1); (4, 3); (3, 1)].

Lemma topsort_program_witness :
  exists g, vertCount g = 4 /\ (forall a b, edge g a b = true <-> (a + 1, b + 1) ∈ demo_pairs) /\
   ((exists l, main (replicate 4 0) (4 :: zlen demo_pairs :: pair_text demo_pairs ++ []) =
       Ok (inl (map (fun v => v + 1) l)) /\ topological g l) \/
    (main (replicate 4 0) (4 :: zlen demo_pairs :: pair_text demo_pairs ++ []) = Ok (inr Impossible) /\ cyclic g)).
Proof.
  apply (topsort_program 4 demo_pairs [] (replicate 4 0)); [lia|by vm_compute| |done].
  unfold demo_pairs. repeat (constructor; [unfold valid_pair; cbn; lia|]). constructor.
Defined.
