(* ===== verification/TextFile.v ===== *)
(** * Text files and character buffers

    What the substring searches use of the C library: [strlen], [fread] on a regular
    file (the list of its characters), block writes into a buffer, and the
    conversion [%16[^\n]] of [fscanf]. *)
From S2P Require Import Prelude.

(** [strlen]: the characters before the first 0. *)
Fixpoint strlen (s : list Z) : Z :=
  match s with
  | [] => 0
  | c :: s => if c =? 0 then 0 else 1 + strlen s
  end.

(** [fread]: what is read and what is left. *)
Definition fread (n : Z) (stream : list Z) : list Z * list Z :=
  (take (Z.to_nat n) stream, drop (Z.to_nat n) stream).

(** Writing characters into a buffer from an index on. *)
Definition write_at (buffer : list Z) (i : Z) (cs : list Z) : list Z :=
  take (Z.to_nat i) buffer ++ cs ++ drop (Z.to_nat i + length cs) buffer.

(** [strcpy] inside a buffer, from index [i] to its start: the characters up to a 0,
    and the 0.  Without a 0 in the buffer, or when source and destination overlap, it
    is undefined. *)
Definition strcpy_down (buffer : list Z) (i : Z) : res (list Z) :=
  let s := drop (Z.to_nat i) buffer in
  let n := strlen s in
  if (0 <=? i) && (n <? zlen s) && (n + 1 <=? i) then Ok (write_at buffer 0 (take (Z.to_nat (n + 1)) s))
  else Err Undefined.

(** [%16[^\n]]: up to [n] characters before the end of the line. *)
Fixpoint scan_line (n : nat) (input : list Z) : list Z * list Z :=
  match n, input with
  | S n, c :: input' =>
      if c =? 10 then ([], input) else let '(s, rest) := scan_line n input' in (c :: s, rest)
  | _, _ => ([], input)
  end.

(** ** Lemmas *)

Lemma strlen_zlen (s : list Z) : Forall (fun c => c <> 0) s -> strlen s = zlen s.
Proof.
  intros Hs. induction Hs as [|c s Hc _ IH]; [done|]. cbn [strlen]. destruct (Z.eqb_spec c 0); [done|].
  rewrite IH, zlen_cons. lia.
Qed.

Lemma znth_write_at buf i cs j : 0 <= i -> i + zlen cs <= zlen buf -> 0 <= j ->
  znth (write_at buf i cs) j = if (i <=? j) && (j <? i + zlen cs) then znth cs (j - i) else znth buf j.
Proof.
  intros Hi Hl Hj. unfold write_at, znth, zlen in *. rewrite !list_lookup_total_alt. f_equal.
  destruct (Z.leb_spec i j) as [Hij|]; cbn [andb].
  - rewrite lookup_app_r by (rewrite length_take; lia). rewrite length_take.
    replace (Nat.min (Z.to_nat i) (length buf)) with (Z.to_nat i) by lia.
    destruct (Z.ltb_spec j (i + Z.of_nat (length cs))).
    + rewrite lookup_app_l by lia. do 2 f_equal. lia.
    + rewrite lookup_app_r by lia. rewrite lookup_drop. do 2 f_equal. lia.
  - rewrite lookup_app_l by (rewrite length_take; lia). by rewrite lookup_take_lt by lia.
Qed.

Lemma zlen_write_at buf i cs : 0 <= i -> i + zlen cs <= zlen buf -> zlen (write_at buf i cs) = zlen buf.
Proof. intros. unfold write_at, zlen in *. rewrite !length_app, length_take, length_drop. lia. Qed.

Lemma znth_ztake (l : list Z) n j : 0 <= j < n -> znth (take (Z.to_nat n) l) j = znth l j.
Proof. intros. unfold znth. rewrite !list_lookup_total_alt. by rewrite lookup_take_lt by lia. Qed.

Lemma znth_zdrop (l : list Z) n j : 0 <= n -> 0 <= j -> znth (drop (Z.to_nat n) l) j = znth l (n + j).
Proof. intros. unfold znth. rewrite !list_lookup_total_alt, lookup_drop. do 2 f_equal. lia. Qed.

Lemma zlen_ztake (l : list Z) n : 0 <= n -> zlen (take (Z.to_nat n) l) = Z.min n (zlen l).
Proof. intros. unfold zlen. rewrite length_take. lia. Qed.

Lemma zlen_zdrop (l : list Z) n : 0 <= n -> zlen (drop (Z.to_nat n) l) = Z.max 0 (zlen l - n).
Proof. intros. unfold zlen. rewrite length_drop. lia. Qed.

(** A string of characters other than 0 that a 0 follows. *)
Lemma strlen_until (s : list Z) (n : Z) :
  0 <= n < zlen s -> (forall j, 0 <= j < n -> znth s j <> 0) -> znth s n = 0 -> strlen s = n.
Proof.
  revert n. induction s as [|c s IH]; intros n Hn Hnz Hz; [change (zlen (@nil Z)) with 0 in Hn; lia|].
  rewrite zlen_cons in Hn. cbn [strlen]. destruct (Z.eq_dec n 0) as [->|Hne].
  - change (znth (c :: s) 0) with c in Hz. by rewrite Hz.
  - destruct (Z.eqb_spec c 0) as [->|_]; [by destruct (Hnz 0 ltac:(lia))|].
    rewrite (IH (n - 1)); [lia|lia| |].
    + intros j Hj. specialize (Hnz (Z.succ j) ltac:(lia)). by rewrite znth_cons_succ in Hnz by lia.
    + replace n with (Z.succ (n - 1)) in Hz by lia. by rewrite znth_cons_succ in Hz by lia.
Qed.

Lemma strcpy_down_ok (buffer : list Z) (i n : Z) :
  0 <= n -> n + 1 <= i -> i + n < zlen buffer -> (forall j, 0 <= j < n -> znth buffer (i + j) <> 0) ->
  znth buffer (i + n) = 0 ->
  exists b, strcpy_down buffer i = Ok b /\ zlen b = zlen buffer /\
    (forall j, 0 <= j <= n -> znth b j = znth buffer (i + j)) /\ (forall j, n < j -> znth b j = znth buffer j).
Proof.
  intros Hn Hi Hl Hnz Hz. unfold strcpy_down.
  assert (Hs : strlen (drop (Z.to_nat i) buffer) = n).
  { apply strlen_until; [rewrite zlen_zdrop by lia; lia| |by rewrite znth_zdrop by lia].
    intros j Hj. rewrite znth_zdrop by lia. by apply Hnz. }
  rewrite Hs, zlen_zdrop by lia. zcase; try lia. eexists. split; [done|].
  assert (Hlen : zlen (take (Z.to_nat (n + 1)) (drop (Z.to_nat i) buffer)) = n + 1)
    by (rewrite zlen_ztake, zlen_zdrop by lia; lia).
  split; [rewrite zlen_write_at by lia; done|].
  split; intros j Hj; rewrite znth_write_at by lia.
  - zcase; try lia. rewrite znth_ztake, znth_zdrop by lia. f_equal. lia.
  - zcase; try lia; done.
Qed.

Lemma scan_line_spec (P rest : list Z) (n : nat) :
  Forall (fun c => c <> 10) P -> (length P <= n)%nat -> scan_line n (P ++ 10 :: rest) = (P, 10 :: rest).
Proof.
  intros HP. revert n. induction HP as [|c P Hc _ IH]; intros [|n] Hn; cbn [length] in Hn; try lia; [done|done|].
  cbn [app scan_line]. destruct (Z.eqb_spec c 10); [done|]. by rewrite IH by lia.
Qed.

