(* ===== verification/KMP.v ===== *)
(** * C-Labs/Find_substring_KMP/src: find_substring.c, main.c

    The Knuth-Morris-Pratt search over a file that is read through a buffer of 1024
    characters.  Characters are numbers, a file is the list of its characters;
    [fread] on a regular file returns as many characters as are left.  Allocation is
    taken to succeed. *)
From S2P Require Import Prelude TextFile.

Definition BUFFER_SIZE : Z := 1024.
Definition SUBSTRING_MAX_SIZE : Z := 16.

Record SearchState := mkState { substring : list Z; prefix : list Z; substrLen : Z; matchCount : Z }.

(** [inputStream] is what is left of the file. *)
Record SearchWindow := mkWindow {
  inputStream : list Z;
  textBuffer : list Z;
  textLen : Z;
  curIndex : Z;
  globalIndex : Z;
  empty : bool
}.

(** [while (k > 0 && substring[i] != substring[k]) k = prefix[k - 1]] *)
Fixpoint fall_back (fuel : nat) (prefix substring : list Z) (i k : Z) : res Z :=
  match fuel with
  | O => Err OutOfFuel
  | S fuel =>
      if k >? 0 then
        let* a := arr_get substring i in
        let* b := arr_get substring k in
        if a =? b then Ok k
        else
          let* k := arr_get prefix (k - 1) in
          fall_back fuel prefix substring i k
      else Ok k
  end.

(** The loop of [initPrefixTable], [n] passes from [i] on. *)
Fixpoint prefix_loop (n : nat) (prefix substring : list Z) (i : Z) : res (list Z) :=
  match n with
  | O => Ok prefix
  | S n =>
      let* k := arr_get prefix (i - 1) in
      let* k := fall_back (S (Z.to_nat k)) prefix substring i k in
      let* a := arr_get substring i in
      let* b := arr_get substring k in
      let k := if a =? b then k + 1 else k in
      let* prefix := arr_set prefix i k in
      prefix_loop n prefix substring (i + 1)
  end.

Definition initPrefixTable (prefix substring : list Z) (substrLen : Z) : res (list Z) :=
  let* prefix := arr_set prefix 0 0 in
  prefix_loop (Z.to_nat (substrLen - 1)) prefix substring 1.

(** The fresh table is filled with arbitrary numbers [garbage]. *)
Definition initSearchState (garbage : list Z) (s : list Z) : res SearchState :=
  let len := strlen s in
  let sub := take (Z.to_nat len) s in
  let* p := initPrefixTable garbage sub len in
  Ok (mkState sub p len 0).

(** [buffer] is what the fresh buffer of 1025 characters contains. *)
Definition initSearchWindow (buffer input : list Z) (substrLen : Z) : SearchWindow :=
  let '(cs, rest) := fread BUFFER_SIZE input in
  mkWindow rest (write_at buffer 0 cs) (zlen cs) 0 0 (zlen cs <? substrLen).

(** The loop of [isMatch] from [pos] on: the count of matching characters. *)
Fixpoint match_loop (n : nat) (window : SearchWindow) (state : SearchState) (pos : Z) : res (bool * Z) :=
  match n with
  | O => Ok (true, substrLen state)
  | S n =>
      let* a := arr_get (textBuffer window) (curIndex window + pos) in
      let* b := arr_get (substring state) pos in
      if a =? b then match_loop n window state (pos + 1) else Ok (false, pos)
  end.

Definition set_matchCount (state : SearchState) (c : Z) : SearchState :=
  mkState (substring state) (prefix state) (substrLen state) c.

Definition isMatch (window : SearchWindow) (state : SearchState) : res (bool * SearchState) :=
  let* '(b, c) := match_loop (Z.to_nat (substrLen state - matchCount state)) window state (matchCount state) in
  Ok (b, set_matchCount state c).

Definition calculateShift (state : SearchState) : res (Z * SearchState) :=
  if matchCount state =? 0 then Ok (1, state)
  else
    let* p := arr_get (prefix state) (matchCount state - 1) in
    Ok (matchCount state - p, set_matchCount state p).

Definition moveForward (window : SearchWindow) (state : SearchState) : res (SearchWindow * SearchState) :=
  let* '(shift, state) := calculateShift state in
  let cur := curIndex window + shift in
  let glob := globalIndex window + shift in
  let window :=
    if cur + substrLen state >? BUFFER_SIZE then
      let remained := BUFFER_SIZE - cur in
      let buffer := write_at (textBuffer window) 0
                      (take (Z.to_nat remained) (drop (Z.to_nat cur) (textBuffer window))) in
      let '(cs, rest) := fread (BUFFER_SIZE - remained) (inputStream window) in
      mkWindow rest (write_at buffer remained cs) (remained + zlen cs) 0 glob (empty window)
    else mkWindow (inputStream window) (textBuffer window) (textLen window) cur glob (empty window) in
  let e := (curIndex window + substrLen state >? textLen window) || empty window in
  Ok (mkWindow (inputStream window) (textBuffer window) (textLen window) (curIndex window)
        (globalIndex window) e, state).

(** The main loop: the pairs it prints. *)
Fixpoint search_loop (fuel : nat) (window : SearchWindow) (state : SearchState) : res (list (Z * Z)) :=
  if empty window then Ok []
  else
    match fuel with
    | O => Err OutOfFuel
    | S fuel =>
        let* '(_, state) := isMatch window state in
        let printed := if matchCount state =? 0 then [] else [(globalIndex window + 1, matchCount state)] in
        let* '(window, state) := moveForward window state in
        let* rest := search_loop fuel window state in
        Ok (printed ++ rest)
    end.

(** The prefix table and the pairs printed. *)
Definition findSubstring (garbage buffer input s : list Z) : res (list Z * list (Z * Z)) :=
  let* state := initSearchState garbage s in
  let window := initSearchWindow buffer input (strlen s) in
  let* found := search_loop (S (length input)) window state in
  Ok (prefix state, found).

(** ** main.c *)

(** The [s] that follows the conversion in the format matches an [s] of the input;
    [fgetc] then skips one character. *)
Definition main (garbage buffer input : list Z) : res (option (list Z * list (Z * Z))) :=
  let '(s, rest) := scan_line (Z.to_nat SUBSTRING_MAX_SIZE) input in
  match s with
  | [] => Ok None
  | _ =>
      let rest := match rest with c :: rest' => if c =? 115 then rest' else rest | [] => [] end in
      let* out := findSubstring garbage buffer (drop 1 rest) s in
      Ok (Some out)
  end.

Example kmp_run :
  main (replicate 7 0) (replicate 1025 0)
    [101;120;97;109;112;108;101;10;116;104;105;115;32;105;115;32;115;105;109;112;108;101;32;101;120;97;109;112;108;101] =
  Ok (Some ([0; 0; 0; 0; 0; 0; 1], [(14, 1); (16, 7)])).
Proof. vm_compute. reflexivity. Qed.

(** ** Borders *)

Section Borders.
Context (P : list Z).
Local Abbreviation m := (zlen P).

(** The first [k] characters are also the last [k] of the first [i]. *)
Definition border (k i : Z) : Prop :=
  0 <= k < i /\ forall j, 0 <= j < k -> znth P j = znth P (i - k + j).

Definition longest (k i : Z) : Prop := border k i /\ forall k', border k' i -> k' <= k.

Lemma border_0 i : 0 < i -> border 0 i.
Proof. intros. split; [lia|]. intros j Hj. lia. Qed.

Lemma border_trans a b i : border a b -> border b i -> border a i.
Proof.
  intros [Ha1 Ha2] [Hb1 Hb2]. split; [lia|]. intros j Hj. rewrite Ha2, Hb2 by lia. f_equal. lia.
Qed.

Lemma border_shrink a b i : border a i -> border b i -> a < b -> border a b.
Proof.
  intros [Ha1 Ha2] [Hb1 Hb2] Hab. split; [lia|]. intros j Hj. rewrite Ha2, (Hb2 (b - a + j)) by lia. f_equal. lia.
Qed.

Lemma border_snoc k i : 0 <= k -> border (k + 1) (i + 1) <-> border k i /\ znth P k = znth P i.
Proof.
  intros Hk. split.
  - intros [H1 H2]. split; [split; [lia|]|].
    + intros j Hj. rewrite H2 by lia. f_equal. lia.
    + rewrite H2 by lia. f_equal. lia.
  - intros [[H1 H2] He]. split; [lia|]. intros j Hj. destruct (Z.eq_dec j k) as [->|].
    + rewrite He. f_equal. lia.
    + rewrite H2 by lia. f_equal. lia.
Qed.

(** The entries before [i] are the lengths of the longest borders. *)
Definition table_ok (t : list Z) (i : Z) : Prop := forall j, 0 < j <= i -> longest (znth t (j - 1)) j.

Lemma fall_back_spec t i : 0 < i < m -> zlen t = m -> table_ok t i ->
  forall fuel k, border k i -> (forall k', border k' i -> znth P k' = znth P i -> k' <= k) ->
  k < Z.of_nat fuel ->
  exists k1, fall_back fuel t P i k = Ok k1 /\ border k1 i /\
    (forall k', border k' i -> znth P k' = znth P i -> k' <= k1) /\ (k1 = 0 \/ znth P k1 = znth P i).
Proof.
  intros Hi Hl Ht. induction fuel as [|fuel IH]; intros k Hb Hmax Hf; pose proof Hb as [Hk _]; [lia|].
  cbn [fall_back]. rewrite Z.gtb_ltb. destruct (Z.ltb_spec 0 k) as [Hpos|].
  - rewrite !arr_get_ok by lia. destruct (Z.eqb_spec (znth P i) (znth P k)) as [E|Hne].
    + exists k. split_and!; auto.
    + destruct (Ht k ltac:(lia)) as [Hb1 Hlong]. apply IH.
      * by eapply border_trans.
      * intros k' Hk' He. specialize (Hmax k' Hk' He). apply Hlong. apply (border_shrink k' k i); [done..|].
        destruct (Z.eq_dec k' k) as [->|]; [congruence|lia].
      * destruct Hb1 as [? _]. lia.
  - exists k. split_and!; auto. left. lia.
Qed.

Lemma prefix_loop_spec : forall n t i, 0 < i -> i + Z.of_nat n = m -> zlen t = m -> table_ok t i ->
  exists t', prefix_loop n t P i = Ok t' /\ zlen t' = m /\ table_ok t' m.
Proof.
  induction n as [|n IH]; intros t i Hi Hn Hl Ht; cbn [prefix_loop].
  { exists t. replace m with i by lia. split_and!; [done|lia|done]. }
  rewrite arr_get_ok by lia. destruct (Ht i ltac:(lia)) as [Hb Hlong]. pose proof Hb as [Hk _].
  destruct (fall_back_spec t i ltac:(lia) Hl Ht (S (Z.to_nat (znth t (i - 1)))) (znth t (i - 1)) Hb)
    as (k & -> & Hbk & Hmax & Hstop); [by intros; apply Hlong|lia|].
  pose proof Hbk as [Hki _]. rewrite !arr_get_ok by lia. rewrite arr_set_ok by lia.
  set (v := if znth P i =? znth P k then k + 1 else k).
  assert (Hv : longest v (i + 1)).
  { unfold v. destruct (Z.eqb_spec (znth P i) (znth P k)) as [E|Hne]; split.
    - apply border_snoc; [lia|]. by split.
    - intros k' Hk'. destruct (Z.eq_dec k' 0) as [->|]; [lia|]. pose proof Hk' as [? _].
      replace k' with (k' - 1 + 1) in Hk' by lia. apply border_snoc in Hk' as [Hb' He']; [|lia].
      specialize (Hmax _ Hb' He'). lia.
    - destruct Hstop as [->|]; [apply border_0; lia|congruence].
    - intros k' Hk'. destruct (Z.eq_dec k' 0) as [->|]; [lia|]. pose proof Hk' as [? _].
      replace k' with (k' - 1 + 1) in Hk' by lia. apply border_snoc in Hk' as [Hb' He']; [|lia].
      specialize (Hmax _ Hb' He'). destruct Hstop as [->|]; [|congruence].
      replace (k' - 1) with 0 in He' by lia. congruence. }
  apply IH; [lia|lia|by rewrite zlen_zset|]. intros j Hj. rewrite znth_zset by lia.
  destruct (Z.eqb_spec i (j - 1)) as [->|]; [by replace (j - 1 + 1) with j in Hv by lia|apply Ht; lia].
Qed.

Lemma initPrefixTable_spec t : 0 < m -> zlen t = m ->
  exists t', initPrefixTable t P m = Ok t' /\ zlen t' = m /\ table_ok t' m.
Proof.
  intros Hm Hl. unfold initPrefixTable. rewrite arr_set_ok by lia. apply prefix_loop_spec; [lia|lia|by rewrite zlen_zset|].
  intros j Hj. replace j with 1 by lia. rewrite znth_zset_eq by lia. split; [by apply border_0|].
  intros k' [Hk' _]. lia.
Qed.
End Borders.

(** ** The search *)

Section Search.
Context (P T : list Z).
Local Abbreviation m := (zlen P).
Local Abbreviation N := (zlen T).
Hypothesis Hm : 0 < m <= BUFFER_SIZE.

(** The text at [a] starts with [c] characters of the pattern. *)
Definition matches (a c : Z) : Prop := forall j, 0 <= j < c -> znth T (a + j) = znth P j.

Definition occurs (a : Z) : Prop := 0 <= a /\ a + m <= N /\ matches a m.

(** A pair of the log: the position and the number of characters that match
    there, which cannot be extended. *)
Definition entry_ok (e : Z * Z) : Prop :=
  0 < e.2 <= m /\ 1 <= e.1 /\ e.1 - 1 + m <= N /\ matches (e.1 - 1) e.2 /\
  (e.2 = m \/ znth T (e.1 - 1 + e.2) <> znth P e.2).

(** The pairs printed from position [a] on. *)
Record log_ok (a : Z) (L : list (Z * Z)) : Prop := {
  l_entries : Forall (fun e => a < e.1 /\ entry_ok e) L;
  l_sorted : StronglySorted (fun x y => x.1 < y.1) L;
  l_complete b : a <= b -> occurs b -> (b + 1, m) ∈ L
}.

(** The buffer shows the text around the current position. *)
Record window_ok (w : SearchWindow) : Prop := {
  w_buffer : zlen (textBuffer w) = BUFFER_SIZE + 1;
  w_cur : 0 <= curIndex w <= globalIndex w;
  w_len : 0 <= textLen w <= BUFFER_SIZE;
  w_text j : curIndex w <= j < textLen w -> znth (textBuffer w) j = znth T (globalIndex w - curIndex w + j);
  w_end : globalIndex w - curIndex w + textLen w <= N;
  w_rest : inputStream w = drop (Z.to_nat (globalIndex w - curIndex w + textLen w)) T;
  w_full : textLen w = BUFFER_SIZE \/ globalIndex w - curIndex w + textLen w = N;
  w_fits : curIndex w + m <= BUFFER_SIZE
}.

Lemma window_inside w : window_ok w -> globalIndex w + m <= N -> curIndex w + m <= textLen w.
Proof. intros [] H. unfold BUFFER_SIZE in *. lia. Qed.

Lemma match_loop_spec w t : window_ok w -> globalIndex w + m <= N ->
  forall n c, 0 <= c -> c + Z.of_nat n = m -> matches (globalIndex w) c ->
  exists b c', match_loop n w (mkState P t m 0) c = Ok (b, c') /\ c <= c' <= m /\ matches (globalIndex w) c' /\
    (c' = m \/ znth T (globalIndex w + c') <> znth P c').
Proof.
  intros Hw HN. pose proof (window_inside w Hw HN) as Hin. destruct Hw as [Hb Hc Hl Ht _ _ _ _].
  induction n as [|n IH]; intros c Hc0 Hn Hmat; cbn [match_loop substrLen substring].
  { assert (Hcm : c = m) by lia. rewrite Hcm in Hmat. exists true, m. split; [done|]. split; [lia|]. by split; [|left]. }
  unfold BUFFER_SIZE in *. rewrite !arr_get_ok by lia. rewrite Ht by lia.
  replace (globalIndex w - curIndex w + (curIndex w + c)) with (globalIndex w + c) by lia.
  destruct (Z.eqb_spec (znth T (globalIndex w + c)) (znth P c)) as [E|Hne].
  - destruct (IH (c + 1)) as (b & c' & -> & ? & ? & ?); [lia|lia| |by exists b, c'; split_and!; auto; lia].
    intros j Hj. destruct (Z.eq_dec j c) as [->|]; [done|]. apply Hmat. lia.
  - exists false, c. split_and!; auto; lia.
Qed.

(** ** Moving the window *)

Lemma moveForward_spec w st s st' :
  window_ok w -> empty w = false -> globalIndex w + m <= N -> calculateShift st = Ok (s, st') ->
  substrLen st' = m -> 1 <= s <= m ->
  exists w', moveForward w st = Ok (w', st') /\ globalIndex w' = globalIndex w + s /\
    empty w' = (N <? globalIndex w + s + m) /\ (empty w' = false -> window_ok w').
Proof.
  intros Hw He HN Hs Hlen Hsm. pose proof (window_inside w Hw HN) as Hin.
  destruct Hw as [Hb Hc Hl Ht Hend Hrest Hfull Hfits]. unfold moveForward. rewrite Hs, Hlen, He.
  set (cur := curIndex w + s). set (off := globalIndex w - curIndex w) in *.
  rewrite Z.gtb_ltb. destruct (Z.ltb_spec BUFFER_SIZE (cur + m)) as [Hrefill|Hroom].
  - unfold fread. set (rem := BUFFER_SIZE - cur) in *. set (got := take (Z.to_nat (BUFFER_SIZE - rem)) (inputStream w)).
    unfold BUFFER_SIZE in *. assert (Hrem : 0 <= rem < m) by lia.
    assert (Hgot : zlen got = Z.min cur (N - (off + textLen w))).
    { unfold got. rewrite zlen_ztake by lia. rewrite Hrest, zlen_zdrop by lia. lia. }
    set (kept := take (Z.to_nat rem) (drop (Z.to_nat cur) (textBuffer w))).
    assert (Hkept : zlen kept = rem) by (unfold kept; rewrite zlen_ztake, zlen_zdrop by lia; lia).
    eexists. split; [done|]. cbn [globalIndex empty textLen curIndex]. split; [done|].
    rewrite Z.gtb_ltb, orb_false_r. assert (Hempty : (rem + zlen got <? 0 + m) = (N <? globalIndex w + s + m)).
    { destruct (Z.ltb_spec (rem + zlen got) (0 + m)), (Z.ltb_spec N (globalIndex w + s + m)); lia. }
    rewrite Hempty. split; [done|]. intros Hne. apply Z.ltb_ge in Hne.
    assert (Hfl : textLen w = 1024) by lia.
    split; cbn [textBuffer curIndex globalIndex textLen inputStream]; unfold BUFFER_SIZE; try lia.
    + rewrite !zlen_write_at by (rewrite ?zlen_write_at by lia; lia). done.
    + intros j Hj. rewrite znth_write_at by (rewrite ?zlen_write_at by lia; lia).
      destruct ((rem <=? j) && (j <? rem + zlen got)) eqn:Ej.
      * unfold got. rewrite znth_ztake by lia. rewrite Hrest, znth_zdrop by lia. f_equal. lia.
      * rewrite znth_write_at by lia. destruct ((0 <=? j) && (j <? 0 + zlen kept)) eqn:Ek; [|lia].
        unfold kept. rewrite znth_ztake, znth_zdrop by lia. rewrite Ht by lia. f_equal. lia.
    + rewrite Hrest, drop_drop. replace (1024 - rem) with cur by lia.
      destruct (Z.le_gt_cases cur (N - (off + textLen w))).
      * f_equal. lia.
      * rewrite !drop_ge by (unfold zlen in *; lia). done.
  - eexists. split; [done|]. cbn [globalIndex empty textLen curIndex]. split; [done|].
    rewrite Z.gtb_ltb, orb_false_r. unfold BUFFER_SIZE in *.
    assert (Hempty : (textLen w <? cur + m) = (N <? globalIndex w + s + m)).
    { destruct (Z.ltb_spec (textLen w) (cur + m)), (Z.ltb_spec N (globalIndex w + s + m)); lia. }
    rewrite Hempty. split; [done|]. intros Hne. apply Z.ltb_ge in Hne.
    split; cbn [textBuffer curIndex globalIndex textLen inputStream]; unfold BUFFER_SIZE;
      replace (globalIndex w + s - cur) with off by lia; auto; try lia. intros j Hj. apply Ht. lia.
Qed.

(** No occurrence is skipped by a shift. *)
Lemma shift_skips a c k b :
  longest P k c -> matches a c -> c <= m -> occurs b -> a < b -> a + (c - k) <= b.
Proof.
  intros [[Hk _] Hlong] Hc Hcm (_ & _ & Hb) Hab. apply Z.nlt_ge. intros Hlt.
  assert (Hbord : border P (c - (b - a)) c).
  { split; [lia|]. intros j Hj. rewrite <- (Hb j) by lia. rewrite <- Hc by lia. f_equal. lia. }
  specialize (Hlong _ Hbord). lia.
Qed.

Lemma search_loop_spec t : zlen t = m -> table_ok P t m ->
  forall fuel w c, (empty w = false -> window_ok w) -> empty w = (N <? globalIndex w + m) -> 0 <= c < m ->
  0 <= globalIndex w -> matches (globalIndex w) c -> N - globalIndex w < Z.of_nat fuel ->
  exists L, search_loop fuel w (mkState P t m c) = Ok L /\ log_ok (globalIndex w) L.
Proof.
  intros Hl Ht. induction fuel as [|fuel IH]; intros w c Hw He Hc Hg Hmat Hf; cbn [search_loop];
    (destruct (empty w) eqn:Ee; symmetry in He; [exists []; split; [done|]; apply Z.ltb_lt in He;
      split; [constructor|constructor|intros b Hb (_ & Hb2 & _); lia]|apply Z.ltb_ge in He]); [lia|].
  specialize (Hw eq_refl).
  unfold isMatch. cbn [substrLen matchCount].
  assert (Hml : forall n p, match_loop n w (mkState P t m c) p = match_loop n w (mkState P t m 0) p)
    by (induction n; intros; cbn [match_loop]; [done|cbn [substring]; repeat case_match; auto]).
  rewrite Hml. destruct (match_loop_spec w t Hw He (Z.to_nat (m - c)) c) as (b & c1 & -> & Hc1 & Hm1 & Hstop); [lia|lia|done|].
  unfold set_matchCount. cbn [substring prefix substrLen matchCount].
  set (a := globalIndex w) in *.
  assert (Hshift : exists s c2, calculateShift (mkState P t m c1) = Ok (s, mkState P t m c2) /\ 1 <= s <= m /\ 0 <= c2 < m /\
    matches (a + s) c2 /\ forall b, occurs b -> a < b -> a + s <= b).
  { unfold calculateShift. cbn [matchCount prefix]. destruct (Z.eqb_spec c1 0) as [->|Hne].
    - exists 1, 0. split_and!; [done|lia|lia|lia|lia|intros j Hj; lia|intros; lia].
    - rewrite arr_get_ok by lia. pose proof (Ht c1 ltac:(lia)) as Hlong. pose proof Hlong as [[Hk Hbd] _].
      do 2 eexists. split; [done|]. split_and!; [lia|lia|lia|lia| |].
      + intros j Hj. rewrite <- Z.add_assoc, Hm1 by lia. symmetry. exact (Hbd j Hj).
      + intros b' Hb' Hab. by apply (shift_skips a c1 (znth t (c1 - 1)) b'); try lia. }
  destruct Hshift as (s & c2 & Es & Hs & Hc2 & Hm2 & Hskip).
  destruct (moveForward_spec w _ s _ Hw Ee He Es eq_refl Hs) as (w' & -> & Hg' & He' & Hw').
  destruct (IH w' c2 Hw') as (L & -> & [Hent Hsort Hcomp]);
    [by rewrite Hg'|done|lia|by rewrite Hg'|rewrite Hg'; unfold a in *; lia|].
  rewrite Hg' in *. fold a in Hent, Hcomp. eexists. split; [done|].
  assert (Hent' : Forall (fun e => a < e.1 /\ entry_ok e) L).
  { eapply Forall_impl; [exact Hent|]. cbn. intros e [? ?]. split; [lia|done]. }
  assert (Hcomp' : forall b', a < b' -> occurs b' -> (b' + 1, m) ∈ L).
  { intros b' Hab Hb'. apply Hcomp; [|done]. by apply Hskip. }
  destruct (Z.eqb_spec c1 0) as [->|Hne]; cbn [app].
  - split; auto. intros b' Hab Hb'. apply Hcomp'; [|done]. destruct (Z.eq_dec a b') as [<-|]; [|lia].
    destruct Hstop as [|Hmis]; [lia|]. destruct Hb' as (_ & _ & Hb'). rewrite Hb' in Hmis by lia. done.
  - split.
    + constructor; [|done]. cbn. split; [lia|]. unfold entry_ok. cbn. replace (a + 1 - 1) with a by lia. split_and!; auto; lia.
    + constructor; [done|]. eapply Forall_impl; [exact Hent|]. cbn. intros e [? _]. lia.
    + intros b' Hab Hb'. apply elem_of_cons. destruct (Z.eq_dec a b') as [<-|]; [left|right; apply Hcomp'; [lia|done]].
      destruct Hstop as [->|Hmis]; [done|]. destruct (Z.eq_dec c1 m) as [->|]; [done|].
      destruct Hb' as (_ & _ & Hb'). rewrite Hb' in Hmis by lia. done.
Qed.

Lemma findSubstring_ok (garbage buffer : list Z) :
  Forall (fun c => c <> 0) P -> zlen garbage = m -> zlen buffer = BUFFER_SIZE + 1 ->
  exists t L, findSubstring garbage buffer T P = Ok (t, L) /\ zlen t = m /\ table_ok P t m /\ log_ok 0 L.
Proof.
  intros HP Hg Hbuf. unfold findSubstring, initSearchState.
  pose proof (strlen_zlen P HP) as Hlen.
  rewrite Hlen. replace (take (Z.to_nat m) P) with P by (symmetry; apply take_ge; unfold zlen; lia).
  destruct (initPrefixTable_spec P garbage) as (t & -> & Ht & Htab); [lia|done|]. cbn [prefix].
  set (w := initSearchWindow buffer T m).
  assert (Hg0 : globalIndex w = 0) by done.
  assert (He : empty w = (N <? globalIndex w + m)).
  { unfold w, initSearchWindow, fread. cbn [empty globalIndex]. rewrite zlen_ztake by (unfold BUFFER_SIZE; lia).
    unfold BUFFER_SIZE in *. destruct (Z.ltb_spec (Z.min 1024 N) m), (Z.ltb_spec N (0 + m)); lia. }
  assert (Hw : window_ok w).
  { unfold w, initSearchWindow, fread. pose proof (zlen_nonneg T).
    assert (Hz : zlen (take (Z.to_nat BUFFER_SIZE) T) = Z.min 1024 N) by (apply zlen_ztake; unfold BUFFER_SIZE; lia).
    unfold BUFFER_SIZE in *.
    split; cbn [textBuffer curIndex globalIndex textLen inputStream]; unfold BUFFER_SIZE; try lia.
    - rewrite zlen_write_at by lia. done.
    - intros j Hj. rewrite znth_write_at by lia.
      destruct ((0 <=? j) && (j <? 0 + zlen (take (Z.to_nat 1024) T))) eqn:Ej; [|lia].
      rewrite znth_ztake by lia. f_equal. lia.
    - rewrite Hz. destruct (Z.le_gt_cases 1024 N); [f_equal; lia|].
      rewrite !drop_ge by (unfold zlen in *; lia). done. }
  destruct (search_loop_spec t Ht Htab (S (length T)) w 0 (fun _ => Hw) He) as (L & -> & HL);
    [lia|lia|intros j Hj; lia|rewrite Hg0; unfold zlen; lia|].
  exists t, L. by rewrite Hg0 in HL.
Qed.
End Search.

(** C20.  [findSubstring], for a pattern of 1 to 1024 characters and any text, ends
    within a number of steps given by the text, without leaving the buffer, however
    the text lies across its refills.  The table it prints holds the length of the
    longest border of every prefix of the pattern; the pairs it prints are, with
    positions increasing, numbers of characters that match at a position and cannot
    be extended, and every occurrence of the pattern is among them. *)
Theorem kmp_finds_all (P T garbage buffer : list Z) :
  0 < zlen P <= BUFFER_SIZE -> Forall (fun c => c <> 0) P ->
  zlen garbage = zlen P -> zlen buffer = BUFFER_SIZE + 1 ->
  exists t L, findSubstring garbage buffer T P = Ok (t, L) /\ zlen t = zlen P /\ table_ok P t (zlen P) /\
    log_ok P T 0 L.
Proof. intros. by apply findSubstring_ok. Qed.

Lemma kmp_finds_all_witness :
  exists t L, findSubstring [0; 0; 0] (replicate 1025 0) [1; 2; 1; 2; 1] [1; 2; 1] = Ok (t, L) /\
    zlen t = zlen [1; 2; 1] /\ table_ok [1; 2; 1] t (zlen [1; 2; 1]) /\ log_ok [1; 2; 1] [1; 2; 1; 2; 1] 0 L.
Proof.
  apply (kmp_finds_all [1; 2; 1] [1; 2; 1; 2; 1] [0; 0; 0] (replicate 1025 0)); [done| |done|done].
  repeat (constructor; [lia|]). constructor.
Defined.

(** The program, on a file whose first line is a pattern of 1 to 16 characters,
    prints the table of the pattern and the log of the search in everything that
    follows that line. *)
Theorem kmp_program (P T garbage buffer : list Z) :
  0 < zlen P <= SUBSTRING_MAX_SIZE -> Forall (fun c => c <> 0 /\ c <> 10) P ->
  zlen garbage = zlen P -> zlen buffer = BUFFER_SIZE + 1 ->
  exists t L, main garbage buffer (P ++ 10 :: T) = Ok (Some (t, L)) /\ zlen t = zlen P /\ table_ok P t (zlen P) /\
    log_ok P T 0 L.
Proof.
  intros HP Hc Hg Hb. unfold main, SUBSTRING_MAX_SIZE in *. rewrite scan_line_spec.
  - destruct P as [|c P]; [change (zlen (@nil Z)) with 0 in HP; lia|]. change (10 =? 115) with false. cbv iota. change (drop 1 (10 :: T)) with T.
    destruct (findSubstring_ok (c :: P) T) with (garbage := garbage) (buffer := buffer) as (t & L & -> & H);
      [unfold BUFFER_SIZE; lia| |done|done|by exists t, L].
    eapply Forall_impl; [exact Hc|]. tauto.
  - eapply Forall_impl; [exact Hc|]. tauto.
  - unfold zlen in HP. lia.
Qed.

Lemma kmp_program_witness :
  exists t L, main [0; 0; 0] (replicate 1025 0) ([97; 98; 97] ++ 10 :: [97; 98; 97; 98; 97]) = Ok (Some (t, L)) /\
    zlen t = zlen [97; 98; 97] /\ table_ok [97; 98; 97] t (zlen [97; 98; 97]) /\
    log_ok [97; 98; 97] [97; 98; 97; 98; 97] 0 L.
Proof.
  apply (kmp_program [97; 98; 97] [97; 98; 97; 98; 97] [0; 0; 0] (replicate 1025 0)); [done| |done|done].
  repeat (constructor; [lia|]). constructor.
Defined.
