(* ===== verification/BTree.v ===== *)
(** * C-Labs/B_tree_insertion/src: b_tree.c, main.c

    Insertion into a B-tree of minimum degree [t].  A node carries its two arrays of
    fixed length and the number of values in use; the entries beyond are kept as the
    code leaves them.  Every node has one owner, so that changing it in place is
    replacing it in its parent.  Allocation is taken to succeed. *)
From S2P Require Import Prelude.

Inductive node := Node (values : list Z) (children : list (option node)) (size : Z).

Definition values (nd : node) : list Z := let 'Node vs _ _ := nd in vs.
Definition children (nd : node) : list (option node) := let 'Node _ cs _ := nd in cs.
Definition size (nd : node) : Z := let 'Node _ _ sz := nd in sz.

Record BTree := mkTree { root : option node; t : Z; height : Z }.

Definition btree_create (half_degree : Z) : BTree := mkTree None half_degree 0.

Definition createNode (t : Z) : node :=
  Node (replicate (Z.to_nat (2 * t - 1)) 0) (replicate (Z.to_nat (2 * t)) None) 0.

Definition isFull (t : Z) (nd : node) : bool := size nd =? t * 2 - 1.

Definition isLeaf (nd : node) : res bool :=
  let* c := arr_get (children nd) 0 in
  Ok (match c with None => true | Some _ => false end).

(** The binary search; [r - l] decreases. *)
Fixpoint search_loop (fuel : nat) (vs : list Z) (value l r : Z) : res Z :=
  if l <? r then
    match fuel with
    | O => Err OutOfFuel
    | S fuel =>
        let mid := l + (r - l) / 2 in
        let* x := arr_get vs mid in
        if value <=? x then search_loop fuel vs value l mid else search_loop fuel vs value (mid + 1) r
    end
  else Ok r.

Definition findChildIdx (nd : node) (value : Z) : res Z :=
  search_loop (Z.to_nat (size nd)) (values nd) value 0 (size nd).

(** [dest] with the tail of [src] from [src_pos] on at [dest_pos]. *)
Definition moveTail (src : node) (src_pos : Z) (dest : node) (dest_pos : Z) : res node :=
  let sz := size src - src_pos in
  let* vs := memmove (values dest) dest_pos (values src) src_pos sz in
  let* cs := memmove (children dest) dest_pos (children src) src_pos (sz + 1) in
  Ok (Node vs cs (size dest)).

Definition set_size (nd : node) (sz : Z) : node := Node (values nd) (children nd) sz.

Definition set_value (nd : node) (i x : Z) : res node :=
  let* vs := arr_set (values nd) i x in Ok (Node vs (children nd) (size nd)).

Definition set_child (nd : node) (i : Z) (c : node) : res node :=
  let* cs := arr_set (children nd) i (Some c) in Ok (Node (values nd) cs (size nd)).

(** A child pointer that is followed. *)
Definition get_child (nd : node) (i : Z) : res node :=
  let* c := arr_get (children nd) i in
  match c with Some c => Ok c | None => Err Undefined end.

Definition splitChild (t : Z) (nd : node) (childIdx : Z) : res node :=
  let* child := get_child nd childIdx in
  let* newChild := moveTail child t (createNode t) 0 in
  let child := set_size child (t - 1) in
  let newChild := set_size newChild (t - 1) in
  let* nd := set_child nd childIdx child in
  let* nd := moveTail nd childIdx nd (childIdx + 1) in
  let* median := arr_get (values child) (t - 1) in
  let* nd := set_value nd childIdx median in
  let* nd := set_child nd (childIdx + 1) newChild in
  Ok (set_size nd (size nd + 1)).

(** The new root. *)
Definition splitRoot (t : Z) (oldRoot : node) : res node :=
  let* newChild := moveTail oldRoot t (createNode t) 0 in
  let newChild := set_size newChild (t - 1) in
  let oldRoot := set_size oldRoot (t - 1) in
  let* median := arr_get (values oldRoot) (t - 1) in
  let* newRoot := set_value (createNode t) 0 median in
  let* newRoot := set_child newRoot 0 oldRoot in
  let* newRoot := set_child newRoot 1 newChild in
  Ok (set_size newRoot 1).

Definition insertValue (nd : node) (value : Z) : res node :=
  let* childIdx := findChildIdx nd value in
  let* nd := moveTail nd childIdx nd (childIdx + 1) in
  let* nd := set_value nd childIdx value in
  Ok (set_size nd (size nd + 1)).

(** The descent of [btree_insert] from [curNode], which it returns changed. *)
Fixpoint insert_from (fuel : nat) (t : Z) (curNode : node) (value : Z) : res node :=
  match fuel with
  | O => Err OutOfFuel
  | S fuel =>
      let* leaf := isLeaf curNode in
      if leaf then insertValue curNode value
      else
        let* childIdx := findChildIdx curNode value in
        let* c := arr_get (children curNode) childIdx in
        let* curNode := match c with
                        | Some _ => Ok curNode
                        | None => set_child curNode childIdx (createNode t)
                        end in
        let* child := get_child curNode childIdx in
        let* '(curNode, childIdx) :=
          if isFull t child then
            let* curNode := splitChild t curNode childIdx in
            let* x := arr_get (values curNode) childIdx in
            Ok (curNode, if value >? x then childIdx + 1 else childIdx)
          else Ok (curNode, childIdx) in
        let* child := get_child curNode childIdx in
        let* child := insert_from fuel t child value in
        set_child curNode childIdx child
  end.

Definition btree_insert (tree : BTree) (value : Z) : res BTree :=
  match root tree with
  | None =>
      let* nd := set_value (createNode (t tree)) 0 value in
      Ok (mkTree (Some (set_size nd 1)) (t tree) 1)
  | Some r =>
      let* '(r, h) :=
        if isFull (t tree) r then
          let* r := splitRoot (t tree) r in Ok (r, height tree + 1)
        else Ok (r, height tree) in
      let* r := insert_from (Z.to_nat h) (t tree) r value in
      Ok (mkTree (Some r) (t tree) h)
  end.

Definition btree_getHeight (tree : BTree) : Z := height tree.

(** ** main.c *)

Fixpoint insert_all (n : nat) (tree : BTree) (input : list Z) : res (option BTree) :=
  match n with
  | O => Ok (Some tree)
  | S n =>
      match input with
      | value :: input =>
          let* tree := btree_insert tree value in
          insert_all n tree input
      | [] => Ok None
      end
  end.

(** The height printed; [None] is [WRONG_INPUT]. *)
Definition main (input : list Z) : res (option Z) :=
  match input with
  | half_degree :: nodesCount :: input =>
      let* r := insert_all (Z.to_nat nodesCount) (btree_create half_degree) input in
      Ok (match r with Some tree => Some (btree_getHeight tree) | None => None end)
  | _ => Ok None
  end.

Example btree_run : main [2; 4; 1; 2; 3; 4] = Ok (Some 2) /\ main [2; 3; 1; 2; 3] = Ok (Some 1) /\ main [2; 0] = Ok (Some 0).
Proof. vm_compute. auto. Qed.

(** ** Arrays as concatenations *)

Section App.
Context {A : Type}.
Implicit Types (xs ys r : list A) (x y : A).

Lemma arr_get_app xs x ys : arr_get (xs ++ x :: ys) (zlen xs) = Ok x.
Proof.
  unfold arr_get. pose proof (zlen_nonneg xs) as H. apply Z.leb_le in H as ->. unfold zlen.
  by rewrite Nat2Z.id, lookup_app_r, Nat.sub_diag by lia.
Qed.

Lemma arr_set_app xs x ys y : arr_set (xs ++ x :: ys) (zlen xs) y = Ok (xs ++ y :: ys).
Proof.
  pose proof (zlen_nonneg xs). pose proof (zlen_nonneg ys).
  rewrite arr_set_ok by (rewrite zlen_app, zlen_cons; lia). unfold zset, zlen.
  rewrite Nat2Z.id. replace (length xs) with (length xs + 0)%nat by lia. by rewrite insert_app_r.
Qed.

Lemma arr_set_0 x ys y : arr_set (x :: ys) 0 y = Ok (y :: ys).
Proof. apply (arr_set_app []). Qed.

Lemma arr_set_1 x x' ys y : arr_set (x :: x' :: ys) 1 y = Ok (x :: y :: ys).
Proof. apply (arr_set_app [x]). Qed.

(** A block moved up by one inside its array leaves its first element behind. *)
Lemma memmove_up xs ys y r :
  exists z, memmove (xs ++ ys ++ y :: r) (zlen xs + 1) (xs ++ ys ++ y :: r) (zlen xs) (zlen ys) = Ok (xs ++ z :: ys ++ r) /\
    match ys with [] => True | x :: _ => z = x end.
Proof.
  pose proof (zlen_nonneg xs). pose proof (zlen_nonneg ys). pose proof (zlen_nonneg r).
  rewrite memmove_ok by (rewrite ?zlen_app, ?zlen_cons; lia).
  unfold zlen. rewrite !Nat2Z.id. rewrite drop_app_length, take_app_length.
  replace (Z.to_nat (Z.of_nat (length xs) + 1)) with (length xs + 1)%nat by lia.
  replace (Z.to_nat (Z.of_nat (length xs) + 1 + Z.of_nat (length ys))) with (length xs + (length ys + 1))%nat by lia.
  rewrite take_app_add, drop_app_add. rewrite drop_app_add. cbn [drop].
  destruct ys as [|x ys]; cbn; eexists; (split; [by rewrite <- app_assoc|done]).
Qed.
End App.

(** ** Well-formed trees *)

(** The values of the subtrees [ls] and the values [ks] between them. *)
Fixpoint weave (ls : list (list Z)) (ks : list Z) : list Z :=
  match ls, ks with
  | l :: ls, k :: ks => l ++ k :: weave ls ks
  | l :: _, [] => l
  | [], _ => []
  end.

Fixpoint before (ls : list (list Z)) (ks : list Z) : list Z :=
  match ls, ks with l :: ls, k :: ks => l ++ k :: before ls ks | _, _ => [] end.

Fixpoint after (ks : list Z) (ls : list (list Z)) : list Z :=
  match ks, ls with k :: ks, l :: ls => k :: l ++ after ks ls | _, _ => [] end.

Lemma weave_split ls1 ks1 l ks2 ls2 : length ls1 = length ks1 -> length ks2 = length ls2 ->
  weave (ls1 ++ l :: ls2) (ks1 ++ ks2) = before ls1 ks1 ++ l ++ after ks2 ls2.
Proof.
  revert ks1. induction ls1 as [|l1 ls1 IH]; intros [|k1 ks1] H1 H2; try discriminate; cbn [app weave before].
  - clear H1. revert l ls2 H2. induction ks2 as [|k ks2 IH]; intros l [|l2 ls2] H2; try discriminate; cbn [weave after].
    + by rewrite app_nil_r.
    + rewrite IH; [done|]. by injection H2.
  - rewrite IH by (by injection H1 || done). by rewrite <- app_assoc.
Qed.

Lemma before_last ls ks k l : length ls = length ks ->
  before (ls ++ [l]) (ks ++ [k]) = before ls ks ++ l ++ [k].
Proof.
  revert ks. induction ls as [|l1 ls IH]; intros [|k1 ks] H; try discriminate; cbn [app before]; [done|].
  rewrite IH by (by injection H). by rewrite <- !app_assoc.
Qed.

Abbreviation sorted := (StronglySorted Z.le).

Lemma sorted_app l1 l2 : sorted (l1 ++ l2) <-> sorted l1 /\ sorted l2 /\ forall x y, x ∈ l1 -> y ∈ l2 -> x <= y.
Proof.
  induction l1 as [|x l1 IH]; cbn [app].
  - split; [intros; split_and!; [constructor|done|by intros ? ? ?%elem_of_nil]|by intros (_ & ? & _)].
  - split.
    + intros H. inversion_clear H as [|? ? Hs Hf]. apply IH in Hs as (H1 & H2 & H3). apply Forall_app in Hf as [Hf1 Hf2].
      rewrite Forall_forall in Hf2. split_and!; [by constructor|done|]. intros a b [->|Ha]%elem_of_cons Hb; auto.
    + intros (H1 & H2 & H3). inversion_clear H1 as [|? ? Hs Hf]. constructor.
      * apply IH. split_and!; auto. intros a b Ha Hb. apply H3; [by right|done].
      * apply Forall_app. split; [done|]. apply Forall_forall. intros b Hb. apply H3; [by left|done].
Qed.

(** Inserting [v] in the middle block keeps the whole sorted. *)
Lemma sorted_replace a l b l' v :
  sorted (a ++ l ++ b) -> sorted l' -> l' ≡ₚ v :: l -> (forall x, x ∈ a -> x <= v) -> (forall y, y ∈ b -> v <= y) ->
  sorted (a ++ l' ++ b).
Proof.
  intros H Hl' Hp Ha Hb. apply sorted_app in H as (H1 & H2 & H3). apply sorted_app in H2 as (H4 & H5 & H6).
  assert (Hin : forall z, z ∈ l' -> z = v \/ z ∈ l) by (intros z Hz; rewrite Hp in Hz; by apply elem_of_cons in Hz).
  apply sorted_app. split_and!; [done| |].
  - apply sorted_app. split_and!; [done|done|]. intros x y Hx Hy. destruct (Hin x Hx) as [->|]; auto.
  - intros x y Hx Hy. apply elem_of_app in Hy as [Hy|Hy].
    + destruct (Hin y Hy) as [->|Hy']; [auto|]. apply H3; [done|]. apply elem_of_app. by left.
    + apply H3; [done|]. apply elem_of_app. by right.
Qed.

Lemma before_bound ls ks rest v : length ls = length ks -> sorted (before ls ks ++ rest) ->
  Forall (fun k => k <= v) ks -> forall x, x ∈ before ls ks -> x <= v.
Proof.
  intros Hl Hs Hk x Hx. apply sorted_app in Hs as (Hs & _ & _).
  destruct ks as [|k ks _] using rev_ind; [destruct ls; [by apply elem_of_nil in Hx|discriminate]|].
  destruct ls as [|l ls _] using rev_ind; [rewrite length_app in Hl; cbn in Hl; lia|].
  rewrite !length_app in Hl. cbn in Hl. rewrite before_last in Hs, Hx by lia. rewrite app_assoc in Hs, Hx.
  apply sorted_app in Hs as (_ & _ & Hle). apply Forall_app in Hk as [_ Hk]. apply Forall_cons in Hk as [Hk _].
  apply elem_of_app in Hx as [Hx|Hx]; [specialize (Hle x k Hx ltac:(by left)); lia|].
  apply list_elem_of_singleton in Hx. lia.
Qed.

Lemma after_bound ks ls rest v : sorted (rest ++ after ks ls) -> Forall (fun k => v <= k) ks ->
  forall x, x ∈ after ks ls -> v <= x.
Proof.
  intros Hs Hk x Hx. apply sorted_app in Hs as (_ & Hs & _).
  destruct ks as [|k ks]; [by apply elem_of_nil in Hx|]. destruct ls as [|l ls]; [by apply elem_of_nil in Hx|].
  cbn [after] in *. apply Forall_cons in Hk as [Hk _]. inversion_clear Hs as [|? ? _ Hf]. rewrite Forall_forall in Hf.
  apply elem_of_cons in Hx as [->|Hx]; [done|]. specialize (Hf x Hx). lia.
Qed.

Section Tree.
Context (t : Z) (Ht : 2 <= t).

(** The node holds the values [ks] and the child pointers [cs]. *)
Definition rep (nd : node) (ks : list Z) (cs : list (option node)) : Prop :=
  exists vr cr, nd = Node (ks ++ vr) (cs ++ cr) (zlen ks) /\
    zlen ks + zlen vr = 2 * t - 1 /\ zlen cs + zlen cr = 2 * t /\ zlen cs = zlen ks + 1.

(** A subtree of height [h] with the values [l], in order. *)
Fixpoint wf (h : nat) (nd : node) (l : list Z) : Prop :=
  match h with
  | O => False
  | S O => exists cs, rep nd l cs /\ Forall (eq None) cs
  | S h' => exists ks kids ls, rep nd ks (map Some kids) /\
      Forall2 (fun kid l => wf h' kid l /\ t - 1 <= size kid) kids ls /\ l = weave ls ks
  end.

Lemma wf_leaf nd l : wf 1 nd l <-> exists cs, rep nd l cs /\ Forall (eq None) cs.
Proof. done. Qed.

Lemma wf_inner h nd l : wf (S (S h)) nd l <-> exists ks kids ls, rep nd ks (map Some kids) /\
  Forall2 (fun kid l => wf (S h) kid l /\ t - 1 <= size kid) kids ls /\ l = weave ls ks.
Proof. done. Qed.

Lemma node_rep_size nd ks cs : rep nd ks cs -> size nd = zlen ks /\ zlen ks <= 2 * t - 1 /\ zlen cs = zlen ks + 1.
Proof. intros (vr & cr & -> & H1 & H2 & H3). pose proof (zlen_nonneg vr). cbn. lia. Qed.

Lemma wf_size h nd l : wf h nd l -> size nd <= 2 * t - 1.
Proof.
  destruct h as [|[|h]]; [done|intros (cs & Hrep & _)|intros (ks & kids & ls & Hrep & _)];
    destruct (node_rep_size _ _ _ Hrep) as (? & ? & _); lia.
Qed.

Lemma rep_child nd ks cs1 c cs2 : rep nd ks (cs1 ++ c :: cs2) -> arr_get (children nd) (zlen cs1) = Ok c.
Proof. intros (vr & cr & -> & _). cbn [children]. rewrite <- app_assoc. cbn [app]. apply arr_get_app. Qed.

Lemma rep_value nd ks1 k ks2 cs : rep nd (ks1 ++ k :: ks2) cs -> arr_get (values nd) (zlen ks1) = Ok k.
Proof. intros (vr & cr & -> & _). cbn [values]. rewrite <- app_assoc. cbn [app]. apply arr_get_app. Qed.

Lemma rep_set_child nd ks cs1 c cs2 c' : rep nd ks (cs1 ++ c :: cs2) ->
  exists nd', set_child nd (zlen cs1) c' = Ok nd' /\ rep nd' ks (cs1 ++ Some c' :: cs2) /\ size nd' = size nd.
Proof.
  intros (vr & cr & -> & H1 & H2 & H3). unfold set_child. cbn [children values size]. rewrite <- app_assoc. cbn [app].
  rewrite arr_set_app. eexists. split; [done|]. split; [|done]. exists vr, cr. rewrite <- app_assoc. split; [done|].
  rewrite !zlen_app, !zlen_cons in *. split_and!; lia.
Qed.

(** ** The position of a value *)

Lemma binary_search_spec ks vr v : sorted ks -> forall fuel l r,
  0 <= l <= r -> r <= zlen ks -> r - l <= Z.of_nat fuel ->
  (forall i, 0 <= i < l -> znth ks i < v) -> (forall i, r <= i < zlen ks -> v <= znth ks i) ->
  exists p, search_loop fuel (ks ++ vr) v l r = Ok p /\ l <= p <= r /\
    (forall i, 0 <= i < p -> znth ks i < v) /\ (forall i, p <= i < zlen ks -> v <= znth ks i).
Proof.
  intros Hs.
  assert (Hmono : forall i j, 0 <= i <= j -> j < zlen ks -> znth ks i <= znth ks j).
  { intros i j Hij Hj. destruct (Z.eq_dec i j) as [->|]; [lia|].
    rewrite <- (take_drop (Z.to_nat j) ks) in Hs. apply sorted_app in Hs as (_ & _ & Hle). unfold zlen in Hj. apply Hle.
    - apply (list_elem_of_lookup_2 _ (Z.to_nat i)). rewrite lookup_take_lt by lia.
      apply list_lookup_lookup_total_lt. lia.
    - apply (list_elem_of_lookup_2 _ 0%nat). rewrite lookup_drop, Nat.add_0_r. apply list_lookup_lookup_total_lt. lia. }
  induction fuel as [|fuel IH]; intros l r Hl Hr Hf Hlo Hhi; cbn [search_loop];
    (destruct (Z.ltb_spec l r) as [Hlt|]; [|exists r; split_and!; auto; [lia..|]; intros; apply Hlo; lia]); [lia|].
  set (mid := l + (r - l) / 2). assert (Hmid : l <= mid < r) by (unfold mid; Z.to_euclidean_division_equations; lia).
  rewrite arr_get_ok by (rewrite zlen_app; pose proof (zlen_nonneg vr); lia).
  assert (Hz : znth (ks ++ vr) mid = znth ks mid).
  { unfold znth. rewrite !list_lookup_total_alt, lookup_app_l by (unfold zlen in *; lia). done. }
  rewrite Hz. destruct (Z.leb_spec v (znth ks mid)).
  - destruct (IH l mid) as (p & -> & ? & ? & ?); [lia|lia|lia|done| |exists p; split_and!; auto; lia].
    intros i Hi. specialize (Hmono mid i ltac:(lia) ltac:(lia)). lia.
  - destruct (IH (mid + 1) r) as (p & -> & ? & ? & ?); [lia|lia|lia| |done|exists p; split_and!; auto; lia].
    intros i Hi. specialize (Hmono i mid ltac:(lia) ltac:(lia)). lia.
Qed.

Lemma findChildIdx_spec nd ks cs v : rep nd ks cs -> sorted ks ->
  exists ks1 ks2, ks = ks1 ++ ks2 /\ findChildIdx nd v = Ok (zlen ks1) /\
    Forall (fun k => k <= v) ks1 /\ Forall (fun k => v <= k) ks2.
Proof.
  intros (vr & cr & -> & H1 & H2 & H3) Hs. unfold findChildIdx. cbn [size values]. pose proof (zlen_nonneg ks).
  destruct (binary_search_spec ks vr v Hs (Z.to_nat (zlen ks)) 0 (zlen ks)) as (p & -> & Hp & Hlo & Hhi); [lia..|].
  exists (take (Z.to_nat p) ks), (drop (Z.to_nat p) ks). rewrite take_drop.
  assert (Hlp : zlen (take (Z.to_nat p) ks) = p) by (unfold zlen in *; rewrite length_take; lia).
  split; [done|]. split; [by rewrite Hlp|]. split; apply Forall_lookup; intros i x Hx.
  - pose proof (lookup_lt_Some _ _ _ Hx) as Hi. rewrite length_take in Hi. rewrite lookup_take_lt in Hx by lia.
    specialize (Hlo (Z.of_nat i) ltac:(lia)). unfold znth in Hlo. rewrite Nat2Z.id in Hlo.
    rewrite (list_lookup_total_correct _ _ _ Hx) in Hlo. lia.
  - rewrite lookup_drop in Hx. pose proof (lookup_lt_Some _ _ _ Hx).
    specialize (Hhi (Z.of_nat (Z.to_nat p + i)) ltac:(unfold zlen in *; lia)). unfold znth in Hhi. rewrite Nat2Z.id in Hhi.
    by rewrite (list_lookup_total_correct _ _ _ Hx) in Hhi.
Qed.

(** ** Moving the tail of a node *)

Lemma moveTail_up nd ks1 ks2 cs1 c cs2 :
  rep nd (ks1 ++ ks2) (cs1 ++ c :: cs2) -> zlen cs1 = zlen ks1 -> zlen (ks1 ++ ks2) < 2 * t - 1 ->
  exists z vr cr, moveTail nd (zlen ks1) nd (zlen ks1 + 1) =
    Ok (Node (ks1 ++ z :: ks2 ++ vr) (cs1 ++ c :: c :: cs2 ++ cr) (zlen (ks1 ++ ks2))) /\
    zlen (ks1 ++ ks2) + 1 + zlen vr = 2 * t - 1 /\ zlen (cs1 ++ c :: cs2) + 1 + zlen cr = 2 * t.
Proof.
  intros (vr & cr & -> & H1 & H2 & H3) Hl Hlt. unfold moveTail. cbn [size values children].
  rewrite !zlen_app, !zlen_cons in *. pose proof (zlen_nonneg ks1). pose proof (zlen_nonneg ks2).
  destruct vr as [|y vr]; [change (zlen (@nil Z)) with 0 in H1; lia|].
  destruct cr as [|y' cr]; [change (zlen (@nil (option node))) with 0 in H2; lia|].
  rewrite zlen_cons in H1. rewrite zlen_cons in H2. rewrite <- !app_assoc. replace (zlen ks1 + zlen ks2 - zlen ks1) with (zlen ks2) by lia.
  destruct (memmove_up ks1 ks2 y vr) as (z & -> & _). cbn [app].
  destruct (memmove_up cs1 (c :: cs2) y' cr) as (z' & Hm & Ez'). cbn [app] in Hm. rewrite zlen_cons, Hl in Hm.
  replace (zlen ks2 + 1) with (zlen cs2 + 1) by lia. rewrite Hm, Ez'. exists z, vr, cr. split; [done|]. lia.
Qed.

(** Inserting a value and the pointer after it. *)
Lemma insert_entry nd ks1 ks2 cs1 c cs2 v :
  rep nd (ks1 ++ ks2) (cs1 ++ c :: cs2) -> zlen cs1 = zlen ks1 -> zlen (ks1 ++ ks2) < 2 * t - 1 ->
  exists nd1 nd2, moveTail nd (zlen ks1) nd (zlen ks1 + 1) = Ok nd1 /\ set_value nd1 (zlen ks1) v = Ok nd2 /\
    rep (set_size nd2 (size nd2 + 1)) (ks1 ++ v :: ks2) (cs1 ++ c :: c :: cs2) /\
    forall c', exists nd3, set_child nd2 (zlen ks1 + 1) c' = Ok nd3 /\
      rep (set_size nd3 (size nd3 + 1)) (ks1 ++ v :: ks2) (cs1 ++ c :: Some c' :: cs2).
Proof.
  intros Hrep Hl Hlt. pose proof (node_rep_size _ _ _ Hrep) as (_ & _ & Hlen).
  destruct (moveTail_up nd ks1 ks2 cs1 c cs2 Hrep Hl Hlt) as (z & vr & cr & -> & H1 & H2).
  do 2 eexists. split; [done|]. unfold set_value. cbn [values children size]. rewrite arr_set_app. split; [done|].
  assert (Hz : zlen (ks1 ++ v :: ks2) = zlen (ks1 ++ ks2) + 1) by (rewrite !zlen_app, zlen_cons; lia).
  assert (Hs : forall c', rep (Node (ks1 ++ v :: ks2 ++ vr) (cs1 ++ c :: c' :: cs2 ++ cr) (zlen (ks1 ++ ks2) + 1))
    (ks1 ++ v :: ks2) (cs1 ++ c :: c' :: cs2)).
  { intros c'. exists vr, cr. rewrite <- !app_assoc, Hz. split; [done|]. rewrite !zlen_app, !zlen_cons in *. lia. }
  unfold set_size. cbn [values children size]. split; [apply Hs|]. intros c'. unfold set_child. cbn [values children size].
  replace (zlen ks1 + 1) with (zlen (cs1 ++ [c])) by (rewrite zlen_app; change (zlen [c]) with 1; lia).
  replace (cs1 ++ c :: c :: cs2 ++ cr) with ((cs1 ++ [c]) ++ c :: cs2 ++ cr) by (by rewrite <- app_assoc).
  rewrite arr_set_app. eexists. split; [done|]. cbn [values children size]. rewrite <- app_assoc. apply Hs.
Qed.

(** ** Splitting *)

(** A full child gives its upper half to a new node. *)
Lemma moveTail_half nd a k b ca cb :
  rep nd (a ++ k :: b) (ca ++ cb) -> zlen a = t - 1 -> zlen b = t - 1 -> zlen ca = t -> zlen cb = t ->
  exists nc, moveTail nd t (createNode t) 0 = Ok nc /\ rep (set_size nc (t - 1)) b cb /\
    rep (set_size nd (t - 1)) a ca /\ arr_get (values nd) (t - 1) = Ok k.
Proof.
  intros Hrep Ha Hb Hca Hcb. pose proof (rep_value _ _ _ _ _ Hrep) as Hv. rewrite Ha in Hv.
  destruct Hrep as (vr & cr & -> & H1 & H2 & H3). rewrite !zlen_app, zlen_cons in *.
  destruct vr; [|rewrite zlen_cons in H1; pose proof (zlen_nonneg vr); lia].
  destruct cr; [|rewrite zlen_cons in H2; pose proof (zlen_nonneg cr); lia]. rewrite !app_nil_r in *.
  unfold moveTail, createNode. cbn [size values children].
  replace (zlen a + (zlen b + 1) - t) with (t - 1) by lia. replace (t - 1 + 1) with t by lia.
  rewrite !memmove_ok; try (unfold zlen in *; rewrite ?length_replicate, ?length_app; cbn [length]; lia).
  assert (Hd1 : take (Z.to_nat (t - 1)) (drop (Z.to_nat t) (a ++ k :: b)) = b).
  { replace (Z.to_nat t) with (length a + 1)%nat by (unfold zlen in *; lia). rewrite drop_app_add. cbn.
    apply take_ge. unfold zlen in *. lia. }
  assert (Hd2 : take (Z.to_nat t) (drop (Z.to_nat t) (ca ++ cb)) = cb).
  { replace (Z.to_nat t) with (length ca) at 2 by (unfold zlen in *; lia). rewrite drop_app_length.
    apply take_ge. unfold zlen in *. lia. }
  rewrite Hd1, Hd2. eexists. split; [done|]. unfold set_size. cbn [values children take]. rewrite !drop_replicate.
  split; [|split; [|done]].
  - eexists _, _. change (Z.to_nat 0) with 0%nat. cbn [take app]. rewrite Hb. split; [done|].
    unfold zlen in *. rewrite !length_replicate. lia.
  - exists (k :: b), cb. rewrite Ha. split; [done|]. rewrite zlen_cons. lia.
Qed.

Lemma splitChild_spec nd ks1 ks2 cs1 cs2 child a k b ca cb :
  rep nd (ks1 ++ ks2) (cs1 ++ Some child :: cs2) -> zlen cs1 = zlen ks1 -> zlen (ks1 ++ ks2) < 2 * t - 1 ->
  rep child (a ++ k :: b) (ca ++ cb) -> zlen a = t - 1 -> zlen b = t - 1 -> zlen ca = t -> zlen cb = t ->
  exists nd' c1 c2, splitChild t nd (zlen ks1) = Ok nd' /\
    rep nd' (ks1 ++ k :: ks2) (cs1 ++ Some c1 :: Some c2 :: cs2) /\ rep c1 a ca /\ rep c2 b cb.
Proof.
  intros Hrep Hl Hlt Hch Ha Hb Hca Hcb. unfold splitChild, get_child.
  pose proof (rep_child _ _ _ _ _ Hrep) as Hgc. rewrite Hl in Hgc. rewrite Hgc.
  destruct (moveTail_half child a k b ca cb Hch Ha Hb Hca Hcb) as (nc & -> & Hnc & Hc1 & Hmed).
  destruct (rep_set_child nd _ cs1 _ cs2 (set_size child (t - 1)) Hrep) as (nd1 & Hs & Hrep1 & _). rewrite Hl in Hs. rewrite Hs.
  destruct (insert_entry nd1 ks1 ks2 cs1 _ cs2 k Hrep1 Hl Hlt) as (nd2 & nd3 & -> & Hsv & _ & Hsc).
  cbn [values set_size] in *. rewrite Hmed, Hsv. destruct (Hsc (set_size nc (t - 1))) as (nd4 & -> & Hrep4).
  do 3 eexists. split; [done|]. by split_and!.
Qed.

Lemma splitRoot_spec r a k b ca cb :
  rep r (a ++ k :: b) (ca ++ cb) -> zlen a = t - 1 -> zlen b = t - 1 -> zlen ca = t -> zlen cb = t ->
  exists r' c1 c2, splitRoot t r = Ok r' /\ rep r' [k] [Some c1; Some c2] /\ rep c1 a ca /\ rep c2 b cb.
Proof.
  intros Hr Ha Hb Hca Hcb. unfold splitRoot.
  destruct (moveTail_half r a k b ca cb Hr Ha Hb Hca Hcb) as (nc & -> & Hnc & Hc1 & Hmed).
  cbn [values set_size] in *. rewrite Hmed. unfold set_value, createNode, set_child. cbn [values children size].
  replace (Z.to_nat (2 * t - 1)) with (S (Z.to_nat (2 * t - 2))) by lia.
  replace (Z.to_nat (2 * t)) with (S (S (Z.to_nat (2 * t - 2)))) by lia. cbn [replicate].
  rewrite arr_set_0. cbn [children values size]. rewrite arr_set_0. cbn [children values size]. rewrite arr_set_1.
  do 3 eexists. split; [done|]. split; [|split; [exact Hc1|exact Hnc]].
  exists (replicate (Z.to_nat (2 * t - 2)) 0), (replicate (Z.to_nat (2 * t - 2)) None). split; [done|].
  unfold zlen. rewrite !length_replicate. cbn [length]. lia.
Qed.

(** The two halves of a full subtree. *)
Lemma halve (ks : list Z) : zlen ks = 2 * t - 1 -> exists a k b, ks = a ++ k :: b /\ zlen a = t - 1 /\ zlen b = t - 1.
Proof.
  intros Hl. destruct (lookup_lt_is_Some_2 ks (Z.to_nat (t - 1))) as (k & Hk); [unfold zlen in Hl; lia|].
  exists (take (Z.to_nat (t - 1)) ks), k, (drop (S (Z.to_nat (t - 1))) ks).
  rewrite (take_drop_middle _ _ _ Hk). split; [done|]. unfold zlen in *. rewrite length_take, length_drop. lia.
Qed.

Lemma wf_halves h nd l : wf h nd l -> size nd = 2 * t - 1 ->
  exists a k b ca cb l1 l2, rep nd (a ++ k :: b) (ca ++ cb) /\ zlen a = t - 1 /\ zlen b = t - 1 /\
    zlen ca = t /\ zlen cb = t /\ l = l1 ++ k :: l2 /\
    (forall c1, rep c1 a ca -> wf h c1 l1) /\ (forall c2, rep c2 b cb -> wf h c2 l2).
Proof.
  intros Hwf Hsz. destruct h as [|[|h]]; [done| |].
  - destruct Hwf as (cs & Hrep & Hcs). destruct (node_rep_size _ _ _ Hrep) as (Hs & _ & Hlc).
    destruct (halve l) as (a & k & b & -> & Ha & Hb); [lia|].
    exists a, k, b, (take (Z.to_nat t) cs), (drop (Z.to_nat t) cs), a, b. rewrite take_drop.
    split; [done|]. do 2 (split; [done|]).
    split; [unfold zlen in *; rewrite length_take; lia|]. split; [unfold zlen in *; rewrite length_drop; lia|].
    split; [done|]. split; intros c Hc; eexists; (split; [exact Hc|]); [by apply Forall_take|by apply Forall_drop].
  - apply wf_inner in Hwf as (ks & kids & ls & Hrep & Hf & ->). destruct (node_rep_size _ _ _ Hrep) as (Hs & _ & Hlc).
    assert (Hlk : zlen kids = zlen ks + 1) by (unfold zlen in *; rewrite length_map in Hlc; lia).
    destruct (halve ks) as (a & k & b & -> & Ha & Hb); [lia|].
    rewrite <- (take_drop (Z.to_nat t) kids) in Hrep, Hf.
    set (ka := take (Z.to_nat t) kids) in *. set (kb := drop (Z.to_nat t) kids) in *.
    rewrite zlen_app, zlen_cons in Hlk.
    assert (Hka : zlen ka = t) by (unfold ka, zlen in *; rewrite length_take; lia).
    assert (Hkb : zlen kb = t) by (unfold kb, zlen in *; rewrite length_drop; lia).
    apply Forall2_app_inv_l in Hf as (la & lb & Hfa & Hfb & ->). rewrite map_app in Hrep.
    pose proof (Forall2_length _ _ _ Hfa) as Hla. pose proof (Forall2_length _ _ _ Hfb) as Hlb.
    exists a, k, b, (map Some ka), (map Some kb), (weave la a), (weave lb b). split; [done|].
    do 2 (split; [done|]). do 2 (split; [unfold zlen in *; rewrite length_map; lia|]). split.
    + destruct la as [|x la _] using rev_ind; [unfold zlen in *; cbn in Hla; lia|].
      rewrite length_app in Hla. cbn in Hla. rewrite <- app_assoc. cbn [app].
      rewrite weave_split by (unfold zlen in *; cbn [length]; lia).
      rewrite <- (app_nil_r a) at 2. rewrite (weave_split la a x [] []) by (unfold zlen in *; cbn [length]; lia).
      destruct lb as [|y lb]; [unfold zlen in *; cbn in Hlb; lia|]. cbn [after]. rewrite <- !app_assoc.
      pose proof (weave_split [] [] y b lb) as Hw. cbn [app before] in Hw.
      rewrite Hw by (unfold zlen in *; cbn in *; lia). done.
    + split; intros c Hc; apply wf_inner; do 3 eexists; (split; [exact Hc|]); by split.
Qed.

(** ** Insertion *)

(** What the insertion of [v] below a node promises. *)
Definition inserted (h : nat) (v : Z) (nd : node) (l : list Z) (r : res node) : Prop :=
  exists nd' l', r = Ok nd' /\ wf h nd' l' /\ sorted l' /\ l' ≡ₚ v :: l /\ size nd <= size nd'.

Lemma insertValue_spec nd l v : wf 1 nd l -> sorted l -> zlen l < 2 * t - 1 -> inserted 1 v nd l (insertValue nd v).
Proof.
  intros (cs & Hrep & Hcs) Hs Hlt. destruct (node_rep_size _ _ _ Hrep) as (Hsz & _ & Hlc).
  destruct (findChildIdx_spec nd l cs v Hrep Hs) as (ks1 & ks2 & -> & Hf & Hlo & Hhi). unfold insertValue. rewrite Hf.
  assert (Hsplit : exists cs1 c cs2, cs = cs1 ++ c :: cs2 /\ zlen cs1 = zlen ks1).
  { rewrite zlen_app in Hlc. pose proof (zlen_nonneg ks2).
    destruct (lookup_lt_is_Some_2 cs (length ks1)) as (c & Hc); [unfold zlen in *; lia|].
    exists (take (length ks1) cs), c, (drop (S (length ks1)) cs). rewrite (take_drop_middle _ _ _ Hc).
    split; [done|]. unfold zlen in *. rewrite length_take. lia. }
  destruct Hsplit as (cs1 & c & cs2 & -> & Hl1).
  destruct (insert_entry nd ks1 ks2 cs1 c cs2 v Hrep Hl1 Hlt) as (nd1 & nd2 & -> & -> & Hrep2 & _).
  destruct (node_rep_size _ _ _ Hrep2) as (Hsz2 & _ & _).
  exists (set_size nd2 (size nd2 + 1)), (ks1 ++ v :: ks2). split; [done|]. split_and!.
  - exists (cs1 ++ c :: c :: cs2). split; [done|]. apply Forall_app in Hcs as [H1 H2]. apply Forall_cons in H2 as [H2 H3].
    apply Forall_app. split; [done|]. subst c. constructor; [done|]. by constructor.
  - apply sorted_app in Hs as (S1 & S2 & S3). rewrite Forall_forall in Hlo, Hhi. apply sorted_app. split_and!; [done| |].
    + constructor; [done|]. by apply Forall_forall.
    + intros x y Hx [->|Hy]%elem_of_cons; auto.
  - by rewrite <- Permutation_middle.
  - rewrite Hsz, Hsz2, !zlen_app, zlen_cons. lia.
Qed.

(** Descending into a child between the right values. *)
Lemma descend h nd ks1 ks2 kids1 kid kids2 ls1 l ls2 v r :
  rep nd (ks1 ++ ks2) (map Some (kids1 ++ kid :: kids2)) -> zlen kids1 = zlen ks1 ->
  Forall2 (fun kid l => wf (S h) kid l /\ t - 1 <= size kid) kids1 ls1 ->
  Forall2 (fun kid l => wf (S h) kid l /\ t - 1 <= size kid) kids2 ls2 -> t - 1 <= size kid ->
  Forall (fun k => k <= v) ks1 -> Forall (fun k => v <= k) ks2 ->
  sorted (weave (ls1 ++ l :: ls2) (ks1 ++ ks2)) ->
  (sorted l -> inserted (S h) v kid l r) ->
  inserted (S (S h)) v nd (weave (ls1 ++ l :: ls2) (ks1 ++ ks2))
    (let* child := r in set_child nd (zlen ks1) child).
Proof.
  intros Hrep Hl Hf1 Hf2 Hk Hlo Hhi Hs Hins. destruct (node_rep_size _ _ _ Hrep) as (_ & _ & Hlc).
  pose proof (Forall2_length _ _ _ Hf1) as L1. pose proof (Forall2_length _ _ _ Hf2) as L2.
  assert (Lk : length ks2 = length ls2).
  { unfold zlen in *. rewrite length_map, !length_app in Hlc. cbn [length] in Hlc. lia. }
  assert (Lk1 : length ls1 = length ks1) by (unfold zlen in *; lia).
  rewrite !weave_split in * by done.
  assert (Hsl : sorted l) by (apply sorted_app in Hs as (_ & Hs & _); by apply sorted_app in Hs as (? & _)).
  destruct (Hins Hsl) as (kid' & l' & -> & Hwf & Hs' & Hp & Hsz).
  rewrite map_app in Hrep. cbn [map] in Hrep.
  destruct (rep_set_child nd _ (map Some kids1) _ (map Some kids2) kid' Hrep) as (nd' & Hset & Hrep' & Hsn).
  replace (zlen (map Some kids1)) with (zlen ks1) in Hset by (unfold zlen in *; rewrite length_map; lia).
  exists nd', (before ls1 ks1 ++ l' ++ after ks2 ls2). split; [done|]. split_and!.
  - apply wf_inner. exists (ks1 ++ ks2), (kids1 ++ kid' :: kids2), (ls1 ++ l' :: ls2).
    rewrite map_app, weave_split by done. split; [done|]. split; [|done].
    apply Forall2_app; [done|]. constructor; [split; [done|lia]|done].
  - apply (sorted_replace _ l _ _ v); auto.
    + eapply before_bound; [done|exact Hs|done].
    + rewrite app_assoc in Hs. eapply after_bound; [exact Hs|done].
  - rewrite Hp. cbn [app]. symmetry. apply Permutation_middle.
  - rewrite Hsn. lia.
Qed.

Lemma split_kids (ks1 ks2 : list Z) (kids : list node) : zlen kids = zlen (ks1 ++ ks2) + 1 ->
  exists kids1 kid kids2, kids = kids1 ++ kid :: kids2 /\ zlen kids1 = zlen ks1.
Proof.
  intros Hl. rewrite zlen_app in Hl. pose proof (zlen_nonneg ks2).
  destruct (lookup_lt_is_Some_2 kids (length ks1)) as (c & Hc); [unfold zlen in *; lia|].
  exists (take (length ks1) kids), c, (drop (S (length ks1)) kids). rewrite (take_drop_middle _ _ _ Hc).
  split; [done|]. unfold zlen in *. rewrite length_take. lia.
Qed.

Lemma weave_keys ls ks : length ls = S (length ks) -> sorted (weave ls ks) -> sorted ks.
Proof.
  revert ls. induction ks as [|k ks IH]; intros [|l [|l2 ls]] Hl; cbn [length] in Hl; try lia; [constructor|].
  intros Hs. cbn [weave] in Hs. apply sorted_app in Hs as (_ & Hs & _). inversion_clear Hs as [|? ? Hs' Hf].
  pose proof (IH (l2 :: ls) ltac:(cbn; lia) Hs') as Hks. constructor; [done|].
  rewrite Forall_forall in Hf. apply Forall_forall. intros x Hx. apply Hf.
  clear - Hx Hl. assert (Hl' : length (l2 :: ls) = S (length ks)) by (cbn; lia). clear Hl. revert l2 ls Hl'.
  induction ks as [|y ks IH]; intros l2 ls Hl; [by apply elem_of_nil in Hx|].
  cbn [weave]. apply elem_of_app. right. apply elem_of_cons in Hx as [->|Hx]; [by left|right].
  destruct ls as [|l3 ls]; [cbn in Hl; lia|]. apply IH; [done|]. cbn in *. lia.
Qed.

Lemma inserted_larger h v nd nd' l r : size nd <= size nd' -> inserted h v nd' l r -> inserted h v nd l r.
Proof. intros Hle (nd1 & l1 & ? & ? & ? & ? & ?). exists nd1, l1. split_and!; auto. lia. Qed.

(** A full child is split before the descent. *)
Lemma descend_full h nd ks1 ks2 kids1 kid kids2 ls1 l ls2 v go :
  rep nd (ks1 ++ ks2) (map Some (kids1 ++ kid :: kids2)) -> zlen kids1 = zlen ks1 -> size nd < 2 * t - 1 ->
  Forall2 (fun kid l => wf (S h) kid l /\ t - 1 <= size kid) kids1 ls1 ->
  Forall2 (fun kid l => wf (S h) kid l /\ t - 1 <= size kid) kids2 ls2 ->
  wf (S h) kid l -> size kid = 2 * t - 1 ->
  Forall (fun k => k <= v) ks1 -> Forall (fun k => v <= k) ks2 ->
  sorted (weave (ls1 ++ l :: ls2) (ks1 ++ ks2)) ->
  (forall c l, wf (S h) c l -> sorted l -> size c < 2 * t - 1 -> inserted (S h) v c l (go c)) ->
  inserted (S (S h)) v nd (weave (ls1 ++ l :: ls2) (ks1 ++ ks2))
    (let* '(curNode, childIdx) :=
       let* curNode := splitChild t nd (zlen ks1) in
       let* x := arr_get (values curNode) (zlen ks1) in
       Ok (curNode, if v >? x then zlen ks1 + 1 else zlen ks1) in
     let* child := get_child curNode childIdx in
     let* child := go child in
     set_child curNode childIdx child).
Proof.
  intros Hrep Hl Hnf Hf1 Hf2 Hwf Hfull Hlo Hhi Hs Hgo. destruct (node_rep_size _ _ _ Hrep) as (Hsz & _ & Hlc).
  destruct (wf_halves _ _ _ Hwf Hfull) as (a & k & b & ca & cb & l1 & l2 & Hk & Ha & Hb & Hca & Hcb & -> & Hw1 & Hw2).
  pose proof (Forall2_length _ _ _ Hf1) as L1. pose proof (Forall2_length _ _ _ Hf2) as L2.
  assert (Lk1 : length ls1 = length ks1) by (unfold zlen in *; lia).
  assert (Lk2 : length ks2 = length ls2).
  { unfold zlen in *. rewrite length_map, !length_app in Hlc. cbn [length] in Hlc. lia. }
  rewrite map_app in Hrep. cbn [map] in Hrep.
  assert (Hlm : zlen (map Some kids1) = zlen ks1) by (unfold zlen in *; rewrite length_map; lia).
  destruct (splitChild_spec nd ks1 ks2 (map Some kids1) (map Some kids2) kid a k b ca cb Hrep Hlm ltac:(lia) Hk Ha Hb Hca Hcb)
    as (nd' & c1 & c2 & -> & Hrep' & Hc1 & Hc2).
  rewrite (rep_value _ _ _ _ _ Hrep'). destruct (node_rep_size _ _ _ Hrep') as (Hsz' & _ & _).
  destruct (node_rep_size _ _ _ Hc1) as (Hs1 & _ & _). destruct (node_rep_size _ _ _ Hc2) as (Hs2 & _ & _).
  apply (inserted_larger _ _ _ nd'); [rewrite Hsz, Hsz', !zlen_app, zlen_cons; lia|].
  specialize (Hw1 c1 Hc1). specialize (Hw2 c2 Hc2). rewrite Z.gtb_ltb. destruct (Z.ltb_spec k v) as [Hkv|Hvk].
  - replace (weave (ls1 ++ (l1 ++ k :: l2) :: ls2) (ks1 ++ ks2)) with (weave ((ls1 ++ [l1]) ++ l2 :: ls2) ((ks1 ++ [k]) ++ ks2)) in *
      by (rewrite !weave_split by (rewrite ?length_app; cbn; lia); rewrite before_last by done; by rewrite <- !app_assoc).
    replace (zlen ks1 + 1) with (zlen (ks1 ++ [k])) by (by rewrite zlen_app).
    assert (Hg : get_child nd' (zlen (ks1 ++ [k])) = Ok c2).
    { unfold get_child. replace (zlen (ks1 ++ [k])) with (zlen (map Some kids1 ++ [Some c1])) by (rewrite !zlen_app, Hlm; done).
      rewrite (rep_child nd' (ks1 ++ k :: ks2) _ (Some c2) (map Some kids2)); [done|]. by rewrite <- app_assoc. }
    rewrite Hg. apply (descend h nd' (ks1 ++ [k]) ks2 (kids1 ++ [c1]) c2 kids2); auto.
    + rewrite !map_app. cbn [map]. rewrite <- !app_assoc. exact Hrep'.
    + rewrite !zlen_app, Hl. done.
    + apply Forall2_app; [done|]. repeat constructor; [done|lia].
    + lia.
    + apply Forall_app. split; [done|]. constructor; [lia|constructor].
    + intros Hsl. apply Hgo; [done|done|lia].
  - replace (weave (ls1 ++ (l1 ++ k :: l2) :: ls2) (ks1 ++ ks2)) with (weave (ls1 ++ l1 :: l2 :: ls2) (ks1 ++ k :: ks2)) in *
      by (rewrite !weave_split by (cbn; lia); cbn [after]; by rewrite <- !app_assoc).
    assert (Hg : get_child nd' (zlen ks1) = Ok c1).
    { unfold get_child. rewrite <- Hlm. by rewrite (rep_child _ _ _ _ _ Hrep'). }
    rewrite Hg. apply (descend h nd' ks1 (k :: ks2) kids1 c1 (c2 :: kids2)); auto.
    + rewrite !map_app. cbn [map]. exact Hrep'.
    + constructor; [split; [done|lia]|done].
    + lia.
    + intros Hsl. apply Hgo; [done|done|lia].
Qed.

Lemma insert_from_spec v : forall h fuel nd l, (h <= fuel)%nat -> wf h nd l -> sorted l -> size nd < 2 * t - 1 ->
  inserted h v nd l (insert_from fuel t nd v).
Proof.
  induction h as [|[|h] IH]; intros [|fuel] nd l Hfu Hwf Hs Hnf; try lia; try done; cbn [insert_from]; unfold isLeaf.
  - pose proof Hwf as (cs & Hrep & Hcs). destruct (node_rep_size _ _ _ Hrep) as (Hsz & _ & Hlc). pose proof (zlen_nonneg l).
    destruct cs as [|c cs]; [change (zlen (@nil (option node))) with 0 in Hlc; lia|].
    pose proof (rep_child nd l [] c cs Hrep) as Hc. change (zlen (@nil (option node))) with 0 in Hc. rewrite Hc.
    apply Forall_cons in Hcs as [<- _]. apply insertValue_spec; [done|done|lia].
  - apply wf_inner in Hwf as (ks & kids & ls & Hrep & Hf & ->). destruct (node_rep_size _ _ _ Hrep) as (Hsz & _ & Hlc).
    pose proof (Forall2_length _ _ _ Hf) as Hll.
    assert (Hlk : zlen kids = zlen ks + 1) by (unfold zlen in *; rewrite length_map in Hlc; lia).
    pose proof (zlen_nonneg ks). destruct kids as [|kid0 kids0] eqn:Ek; [change (zlen (@nil node)) with 0 in Hlk; lia|].
    pose proof (rep_child nd ks [] (Some kid0) (map Some kids0) Hrep) as Hc0. change (zlen (@nil (option node))) with 0 in Hc0.
    rewrite Hc0. rewrite <- Ek in *. clear Ek Hc0 kid0 kids0.
    destruct (findChildIdx_spec nd ks _ v Hrep) as (ks1 & ks2 & -> & -> & Hlo & Hhi);
      [apply (weave_keys ls); [unfold zlen in *; lia|done]|].
    destruct (split_kids ks1 ks2 kids Hlk) as (kids1 & kid & kids2 & -> & Hl1).
    apply Forall2_app_inv_l in Hf as (ls1 & ls2' & Hf1 & Hf2 & ->).
    apply Forall2_cons_inv_l in Hf2 as (l & ls2 & [Hwk Hks] & Hf2 & ->).
    assert (Hc : arr_get (children nd) (zlen ks1) = Ok (Some kid)).
    { rewrite map_app in Hrep. cbn [map] in Hrep. pose proof (rep_child _ _ _ _ _ Hrep) as Hc.
      by replace (zlen (map Some kids1)) with (zlen ks1) in Hc by (unfold zlen in *; rewrite length_map; lia). }
    rewrite Hc. unfold get_child at 1. rewrite Hc.
    assert (Hgo : forall c l, wf (S h) c l -> sorted l -> size c < 2 * t - 1 -> inserted (S h) v c l (insert_from fuel t c v)).
    { intros c l' Hw Hsl Hsc. apply IH; [lia|done..]. }
    unfold isFull. destruct (Z.eqb_spec (size kid) (t * 2 - 1)) as [Efull|Hnfull].
    + apply (descend_full h nd ks1 ks2 kids1 kid kids2); auto. lia.
    + unfold get_child. rewrite Hc. apply (descend h nd ks1 ks2 kids1 kid kids2); auto.
      intros Hsl. apply Hgo; [done|done|]. pose proof (wf_size _ _ _ Hwk). lia.
Qed.

(** ** The tree *)

(** The tree is a B-tree of minimum degree [t] with the values [l], in order: every
    node but the root has between t-1 and 2t-1 values, all leaves are at the same
    depth, which the tree stores. *)
Record tree_ok (tr : BTree) (l : list Z) : Prop := {
  tr_t : BTree.t tr = t;
  tr_sorted : sorted l;
  tr_root : match root tr with
            | None => l = [] /\ height tr = 0
            | Some r => 0 < height tr /\ wf (Z.to_nat (height tr)) r l /\ 1 <= size r
            end
}.

Lemma btree_insert_ok tr l v : tree_ok tr l ->
  exists tr' l', btree_insert tr v = Ok tr' /\ tree_ok tr' l' /\ l' ≡ₚ v :: l.
Proof.
  intros [Et Hs Hroot]. unfold btree_insert. rewrite Et. destruct (root tr) as [r|].
  - destruct Hroot as (Hh & Hwf & Hsz).
    assert (Hgo : forall r h, 0 < h -> wf (Z.to_nat h) r l -> 1 <= size r -> size r < 2 * t - 1 ->
      exists tr' l', (let* r := insert_from (Z.to_nat h) t r v in Ok (mkTree (Some r) t h)) = Ok tr' /\
        tree_ok tr' l' /\ l' ≡ₚ v :: l).
    { intros r1 h Hh1 Hw1 Hr1 Hnf.
      destruct (insert_from_spec v (Z.to_nat h) (Z.to_nat h) r1 l) as (nd & l' & -> & Hw & Hs' & Hp & Hle); [done..|].
      do 2 eexists. split; [done|]. split; [|done]. split; [done|done|]. cbn. split_and!; [done|done|lia]. }
    unfold isFull. destruct (Z.eqb_spec (size r) (t * 2 - 1)) as [Ef|Hnf].
    + destruct (wf_halves _ _ _ Hwf ltac:(lia)) as (a & k & b & ca & cb & l1 & l2 & Hk & Ha & Hb & Hca & Hcb & El & Hw1 & Hw2).
      destruct (splitRoot_spec r a k b ca cb Hk Ha Hb Hca Hcb) as (r' & c1 & c2 & -> & Hr' & Hc1 & Hc2).
      destruct (node_rep_size _ _ _ Hr') as (Hs' & _ & _). change (zlen [k]) with 1 in Hs'.
      destruct (node_rep_size _ _ _ Hc1) as (Hs1 & _ & _). destruct (node_rep_size _ _ _ Hc2) as (Hs2 & _ & _).
      apply Hgo; [lia| |lia|lia]. replace (Z.to_nat (height tr + 1)) with (S (Z.to_nat (height tr))) by lia.
      destruct (Z.to_nat (height tr)) as [|h]; [by destruct Hwf|]. apply wf_inner.
      exists [k], [c1; c2], [l1; l2]. split; [done|]. split; [|done].
      repeat constructor; [by apply Hw1|lia|by apply Hw2|lia].
    + apply Hgo; auto. pose proof (wf_size _ _ _ Hwf). lia.
  - destruct Hroot as [-> Hh]. unfold set_value, createNode. cbn [values children size].
    replace (Z.to_nat (2 * t - 1)) with (S (Z.to_nat (2 * t - 2))) by lia.
    replace (Z.to_nat (2 * t)) with (S (S (Z.to_nat (2 * t - 2)))) by lia. cbn [replicate]. rewrite arr_set_0.
    do 2 eexists. split; [done|]. split; [|done]. split; cbn [BTree.t root height]; [done|repeat constructor|].
    split; [lia|]. split; [|done]. exists [None; None]. split; [|by repeat constructor].
    exists (replicate (Z.to_nat (2 * t - 2)) 0), (replicate (Z.to_nat (2 * t - 2)) None). split; [done|].
    unfold zlen. rewrite !length_replicate. cbn [length]. lia.
Qed.

(** A tree of height h has at least 2 t^(h-1) - 1 values. *)
Lemma weave_length (m : Z) ls ks : length ls = S (length ks) -> Forall (fun l => m - 1 <= zlen l) ls ->
  (zlen ks + 1) * m - 1 <= zlen (weave ls ks).
Proof.
  revert ls. induction ks as [|k ks IH]; intros [|l ls] Hl Hf; cbn [length] in Hl; try lia;
    apply Forall_cons in Hf as [Hf Hfs]; cbn [weave].
  - change (zlen (@nil Z)) with 0. lia.
  - specialize (IH ls ltac:(lia) Hfs). rewrite zlen_app, !zlen_cons. lia.
Qed.

Lemma wf_values h nd l : wf (S h) nd l -> (size nd + 1) * t ^ Z.of_nat h - 1 <= zlen l.
Proof.
  revert nd l. induction h as [|h IH]; intros nd l Hwf.
  - destruct Hwf as (cs & Hrep & _). destruct (node_rep_size _ _ _ Hrep) as (-> & _). cbn. lia.
  - apply wf_inner in Hwf as (ks & kids & ls & Hrep & Hf & ->). destruct (node_rep_size _ _ _ Hrep) as (-> & _ & Hlc).
    pose proof (Forall2_length _ _ _ Hf) as Hll. apply weave_length.
    + unfold zlen in *. rewrite length_map in Hlc. lia.
    + clear - Hf IH Ht. induction Hf as [|kid l kids ls [Hw Hsz] _ IHf]; constructor; [|done].
      specialize (IH kid l Hw). rewrite Nat2Z.inj_succ, Z.pow_succ_r by lia.
      assert (0 < t ^ Z.of_nat h) by (apply Z.pow_pos_nonneg; lia). nia.
Qed.

Lemma tree_height tr l : tree_ok tr l -> l <> [] -> 1 <= height tr /\ 2 * t ^ (height tr - 1) - 1 <= zlen l.
Proof.
  intros [_ _ Hroot] Hne. destruct (root tr) as [r|]; [|by destruct Hroot as [-> _]].
  destruct Hroot as (Hh & Hwf & Hsz). split; [lia|].
  replace (Z.to_nat (height tr)) with (S (Z.to_nat (height tr - 1))) in Hwf by lia.
  apply wf_values in Hwf. rewrite Z2Nat.id in Hwf by lia.
  assert (0 < t ^ (height tr - 1)) by (apply Z.pow_pos_nonneg; lia). nia.
Qed.

Lemma insert_all_ok vals rest : forall tr l, tree_ok tr l ->
  exists tr' l', insert_all (length vals) tr (vals ++ rest) = Ok (Some tr') /\ tree_ok tr' l' /\ l' ≡ₚ vals ++ l.
Proof.
  induction vals as [|v vals IH]; intros tr l Htr; cbn [length app insert_all]; [by exists tr, l|].
  destruct (btree_insert_ok tr l v Htr) as (tr1 & l1 & -> & Htr1 & Hp1).
  destruct (IH tr1 l1 Htr1) as (tr' & l' & -> & Htr' & Hp'). exists tr', l'. split_and!; auto.
  rewrite Hp', Hp1. symmetry. apply Permutation_middle.
Qed.
End Tree.

(** C4.  [btree_insert] on a B-tree of any minimum degree at least 2 succeeds within
    its height, without leaving the arrays of a node, and gives a B-tree again: in
    order, its values are the old ones and the new one, sorted; every node but the
    root has between t-1 and 2t-1 values; all leaves are at the depth it stores. *)
Theorem btree_insert_correct (t : Z) (tr : BTree) (l : list Z) (v : Z) :
  2 <= t -> tree_ok t tr l ->
  exists tr' l', btree_insert tr v = Ok tr' /\ tree_ok t tr' l' /\ l' ≡ₚ v :: l.
Proof. intros Ht. by apply btree_insert_ok. Qed.

(** The program prints the height of a B-tree of the values given, 0 for none;
    the height h satisfies 2 t^(h-1) <= n + 1. *)
Theorem btree_program (t : Z) (vals rest : list Z) :
  2 <= t ->
  exists tr l, main (t :: zlen vals :: vals ++ rest) = Ok (Some (height tr)) /\ tree_ok t tr l /\ l ≡ₚ vals /\
    if decide (vals = []) then height tr = 0 else 1 <= height tr /\ 2 * t ^ (height tr - 1) <= zlen vals + 1.
Proof.
  intros Ht. cbn [main]. replace (Z.to_nat (zlen vals)) with (length vals) by (unfold zlen; lia).
  destruct (insert_all_ok t Ht vals rest (btree_create t) []) as (tr & l & -> & Htr & Hp); [by split; [|constructor|]|].
  rewrite app_nil_r in Hp. exists tr, l. do 3 (split; [done|]). destruct (decide (vals = [])) as [->|Hne].
  - apply Permutation_nil_r in Hp as ->. destruct Htr as [_ _ Hroot]. destruct (root tr) as [r|]; [|by destruct Hroot].
    destruct Hroot as (Hh & Hwf & Hsz). replace (Z.to_nat (height tr)) with (S (Z.to_nat (height tr - 1))) in Hwf by lia.
    apply (wf_values t Ht) in Hwf. change (zlen (@nil Z)) with 0 in Hwf.
    assert (0 < t ^ Z.of_nat (Z.to_nat (height tr - 1))) by (apply Z.pow_pos_nonneg; lia). nia.
  - assert (Hl : zlen l = zlen vals) by (unfold zlen; by rewrite Hp). rewrite <- Hl.
    destruct (tree_height t Ht tr l Htr); [|lia]. intros ->. by apply Permutation_nil_l in Hp.
Qed.

Definition demo_leaf : BTree := mkTree (Some (Node [5; 9; 0] [None; None; None; None] 2)) 2 1.

Lemma demo_leaf_ok : tree_ok 2 demo_leaf [5; 9].
Proof.
  split; [done|repeat (constructor; try lia)|]. cbn. split; [lia|]. split; [|lia]. exists [None; None; None].
  split; [|by repeat constructor]. by exists [0], [None].
Qed.

Lemma btree_insert_correct_witness :
  exists tr' l', btree_insert demo_leaf 7 = Ok tr' /\ tree_ok 2 tr' l' /\ l' ≡ₚ [7; 5; 9].
Proof. apply (btree_insert_correct 2 demo_leaf [5; 9] 7); [lia|exact demo_leaf_ok]. Defined.

Lemma btree_program_witness :
  exists tr l, main (2 :: zlen [4; 1; 3; 2] :: [4; 1; 3; 2] ++ []) = Ok (Some (height tr)) /\ tree_ok 2 tr l /\
    l ≡ₚ [4; 1; 3; 2] /\
    if decide ([4; 1; 3; 2] = []) then height tr = 0
    else 1 <= height tr /\ 2 * 2 ^ (height tr - 1) <= zlen [4; 1; 3; 2] + 1.
Proof. apply (btree_program 2 [4; 1; 3; 2] []). lia. Defined.
