(* ===== verification/RabinKarp.v ===== *)
(** * C-Labs/Find_substring_Rabin-Karp/src/main.c

    The Rabin-Karp search with a rolling hash over a buffer of 1024 characters.
    Characters are bytes 0 .. 255; the powers computed by [pow] and the sums of
    [hash] are below 2^53, so the arithmetic in [double] is exact and is written with
    integers.  Allocation is taken to succeed. *)
From S2P Require Import Prelude TextFile.

Definition SUBSTRING_MAX_SIZE : Z := 16.
Definition BUFFER_SIZE : Z := 1024.

(** The loop of [hash], [n] passes from [i] on. *)
Fixpoint hash_loop (n : nat) (str : list Z) (i sum : Z) : res Z :=
  match n with
  | O => Ok sum
  | S n =>
      let* c := arr_get str i in
      let* sum := s32 (sum + c mod 3 * 3 ^ i) in
      hash_loop n str (i + 1) sum
  end.

Definition hash (str : list Z) (sz : Z) : res Z := hash_loop (Z.to_nat sz) str 0 0.

Record SearchState := mkState { substring : list Z; substrLen : Z; st_hash : Z; hashMultiplyer : Z }.

(** [inputStream] is what is left of the file. *)
Record SearchWindow := mkWindow {
  inputStream : list Z;
  textBuffer : list Z;
  textLen : Z;
  curIndex : Z;
  globalIndex : Z;
  empty : bool;
  curHash : Z
}.

Definition initSearchState (s : list Z) : res SearchState :=
  let len := strlen s in
  let* h := hash s len in
  let* mult := s32 (3 ^ (len - 1)) in
  Ok (mkState (take (Z.to_nat len) s) len h mult).

(** [buffer] is what the fresh buffer of 1025 characters contains. *)
Definition initSearchWindow (buffer stream : list Z) (state : SearchState) : res SearchWindow :=
  let '(cs, rest) := fread BUFFER_SIZE stream in
  let buffer := write_at buffer 0 cs in
  let* h := hash buffer (substrLen state) in
  Ok (mkWindow rest buffer (zlen cs) 0 0 (negb (zlen cs >? 0)) h).

(** The loop of [isMatch]: the result and the indices it prints. *)
Fixpoint match_loop (n : nat) (window : SearchWindow) (state : SearchState) (i : Z) : res (bool * list Z) :=
  match n with
  | O => Ok (true, [])
  | S n =>
      let* a := arr_get (substring state) i in
      let* b := arr_get (textBuffer window) (curIndex window + i) in
      if a =? b then
        let* '(r, out) := match_loop n window state (i + 1) in
        Ok (r, globalIndex window + i + 1 :: out)
      else Ok (false, [globalIndex window + i + 1])
  end.

Definition isMatch (window : SearchWindow) (state : SearchState) : res (bool * list Z) :=
  if curHash window =? st_hash state then match_loop (Z.to_nat (substrLen state)) window state 0
  else Ok (false, []).

Definition updateHash (window : SearchWindow) (state : SearchState) : res SearchWindow :=
  let* old := arr_get (textBuffer window) (curIndex window - 1) in
  let* h := s32 (curHash window - old mod 3) in
  let h := Z.quot h 3 in
  let nextCharIdx := curIndex window + substrLen state - 1 in
  let* next := arr_get (textBuffer window) nextCharIdx in
  let* d := s32 (next mod 3 * hashMultiplyer state) in
  let* h := s32 (h + d) in
  Ok (mkWindow (inputStream window) (textBuffer window) (textLen window) (curIndex window)
        (globalIndex window) (empty window) h).

Definition moveForward (window : SearchWindow) (state : SearchState) : res SearchWindow :=
  let cur := curIndex window + 1 in
  let glob := globalIndex window + 1 in
  let* window :=
    if cur + substrLen state >? BUFFER_SIZE then
      let* buffer := strcpy_down (textBuffer window) (cur - 1) in
      let remained := BUFFER_SIZE - cur + 1 in
      let '(cs, rest) := fread (BUFFER_SIZE - remained) (inputStream window) in
      Ok (mkWindow rest (write_at buffer remained cs) (remained + zlen cs) 1 glob (empty window) (curHash window))
    else Ok (mkWindow (inputStream window) (textBuffer window) (textLen window) cur glob (empty window) (curHash window)) in
  let e := (curIndex window + substrLen state >? textLen window) || empty window in
  updateHash (mkWindow (inputStream window) (textBuffer window) (textLen window) (curIndex window)
                (globalIndex window) e (curHash window)) state.

Fixpoint search_loop (fuel : nat) (window : SearchWindow) (state : SearchState) : res (list Z) :=
  if empty window then Ok []
  else
    match fuel with
    | O => Err OutOfFuel
    | S fuel =>
        let* '(_, printed) := isMatch window state in
        let* window := moveForward window state in
        let* rest := search_loop fuel window state in
        Ok (printed ++ rest)
    end.

(** The numbers printed: the hash of the pattern and the compared positions. *)
Definition findSubstring (buffer stream s : list Z) : res (Z * list Z) :=
  let* state := initSearchState s in
  let* window := initSearchWindow buffer stream state in
  let* out := search_loop (S (length stream)) window state in
  Ok (st_hash state, out).

(** [None] is [exitWithError]. *)
Definition main (buffer input : list Z) : res (option (Z * list Z)) :=
  let '(s, rest) := scan_line (Z.to_nat SUBSTRING_MAX_SIZE) input in
  match s with
  | [] => Ok None
  | _ =>
      let rest := match rest with c :: rest' => if c =? 115 then rest' else rest | [] => [] end in
      let* out := findSubstring buffer (drop 1 rest) s in
      Ok (Some out)
  end.

Example rabin_karp_run :
  main (replicate 1025 0)
    [101;120;97;109;112;108;101;10;116;104;105;115;32;105;115;32;115;105;109;112;108;101;32;101;120;97;109;112;108;101] =
  Ok (Some (1577, [16; 17; 18; 19; 20; 21; 22])).
Proof. vm_compute. reflexivity. Qed.

(** ** The hash *)

(** [hash] of the readme: the sum of (c mod 3) 3^i. *)
Fixpoint poly (cs : list Z) : Z :=
  match cs with
  | [] => 0
  | c :: cs => c mod 3 + 3 * poly cs
  end.

Lemma poly_bound cs : 0 <= poly cs < 3 ^ zlen cs.
Proof.
  induction cs as [|c cs IH]; [done|]. cbn [poly]. rewrite zlen_cons, Z.pow_add_r by (pose proof (zlen_nonneg cs); lia).
  pose proof (Z.mod_pos_bound c 3 ltac:(lia)). lia.
Qed.

Lemma poly_snoc cs c : poly (cs ++ [c]) = poly cs + 3 ^ zlen cs * (c mod 3).
Proof.
  induction cs as [|d cs IH]; cbn [app poly]; [change (zlen (@nil Z)) with 0; lia|].
  rewrite IH, zlen_cons, Z.pow_add_r by (pose proof (zlen_nonneg cs); lia). lia.
Qed.

(** The [m] characters of [l] from [a] on. *)
Definition slice (l : list Z) (a m : Z) : list Z := take (Z.to_nat m) (drop (Z.to_nat a) l).

Lemma zlen_slice l a m : 0 <= a -> 0 <= m -> a + m <= zlen l -> zlen (slice l a m) = m.
Proof. intros. unfold slice. rewrite zlen_ztake, zlen_zdrop by lia. lia. Qed.

Lemma znth_slice l a m j : 0 <= a -> 0 <= j < m -> znth (slice l a m) j = znth l (a + j).
Proof. intros. unfold slice. by rewrite znth_ztake, znth_zdrop by lia. Qed.

Lemma slice_snoc l a m : 0 <= a -> 0 <= m -> a + m < zlen l -> slice l a (m + 1) = slice l a m ++ [znth l (a + m)].
Proof.
  intros. unfold slice. replace (Z.to_nat (m + 1)) with (S (Z.to_nat m)) by lia. apply take_S_r.
  rewrite lookup_drop. replace (Z.to_nat a + Z.to_nat m)%nat with (Z.to_nat (a + m)) by lia.
  apply list_lookup_lookup_total_lt. unfold zlen in *. lia.
Qed.

Lemma slice_cons l a m : 0 <= a -> 0 <= m -> a < zlen l -> slice l a (m + 1) = znth l a :: slice l (a + 1) m.
Proof.
  intros. unfold slice. replace (Z.to_nat (m + 1)) with (S (Z.to_nat m)) by lia.
  erewrite drop_S by (apply list_lookup_lookup_total_lt; unfold zlen in *; lia). cbn [take].
  by replace (Z.to_nat (a + 1)) with (S (Z.to_nat a)) by lia.
Qed.

(** The slices of two lists that agree there. *)
Lemma slice_ext l l' a a' m : 0 <= a -> 0 <= a' -> 0 <= m -> a + m <= zlen l -> a' + m <= zlen l' ->
  (forall j, 0 <= j < m -> znth l (a + j) = znth l' (a' + j)) -> slice l a m = slice l' a' m.
Proof.
  intros. apply zlist_eq; [by rewrite !zlen_slice by lia|]. intros j Hj. rewrite zlen_slice in Hj by lia.
  rewrite !znth_slice by lia. auto.
Qed.

Lemma hash_loop_spec (str : list Z) (m : Z) : m <= 16 -> m <= zlen str ->
  forall n i, 0 <= i -> i + Z.of_nat n = m ->
  hash_loop n str i (poly (slice str 0 i)) = Ok (poly (slice str 0 m)).
Proof.
  intros Hm Hl. induction n as [|n IH]; intros i Hi Hn; cbn [hash_loop]; [by replace m with i by lia|].
  rewrite arr_get_ok by lia.
  assert (Hs : poly (slice str 0 i) + znth str i mod 3 * 3 ^ i = poly (slice str 0 (i + 1))).
  { rewrite slice_snoc, poly_snoc, zlen_slice by lia. rewrite Z.add_0_l. lia. }
  rewrite Hs. pose proof (poly_bound (slice str 0 (i + 1))) as Hb. rewrite zlen_slice in Hb by lia.
  assert (3 ^ (i + 1) <= 3 ^ 16) by (apply Z.pow_le_mono_r; lia).
  rewrite s32_ok by lia. apply IH; lia.
Qed.

Lemma hash_spec (str : list Z) (m : Z) : 0 <= m <= 16 -> m <= zlen str -> hash str m = Ok (poly (slice str 0 m)).
Proof. intros. unfold hash. apply (hash_loop_spec str m); lia. Qed.

(** The hash of the next window from that of the last one. *)
Lemma poly_roll (l : list Z) (a m : Z) : 0 <= a -> 0 < m -> a + m < zlen l ->
  poly (slice l (a + 1) m) =
    Z.quot (poly (slice l a m) - znth l a mod 3) 3 + znth l (a + m) mod 3 * 3 ^ (m - 1).
Proof.
  intros Ha Hm Hl. replace m with (m - 1 + 1) at 1 2 by lia.
  rewrite slice_snoc, slice_cons, poly_snoc, zlen_slice by lia. cbn [poly].
  replace (znth l a mod 3 + 3 * poly (slice l (a + 1) (m - 1)) - znth l a mod 3) with (3 * poly (slice l (a + 1) (m - 1))) by lia.
  pose proof (poly_bound (slice l (a + 1) (m - 1))).
  rewrite (Z.mul_comm 3 (poly _)), Z.quot_mul by lia. replace (a + 1 + (m - 1)) with (a + m) by lia. lia.
Qed.

(** ** The reference: compare at every position where the hashes agree *)

Fixpoint compared (pos : Z) (P txt : list Z) : list Z :=
  match P, txt with
  | p :: P, c :: txt => pos :: if p =? c then compared (pos + 1) P txt else []
  | _, _ => []
  end.

Definition compared_from (P T : list Z) (a : Z) : list Z :=
  flat_map (fun b => if poly (slice T b (zlen P)) =? poly P then compared (b + 1) P (drop (Z.to_nat b) T) else [])
    (seqZ a (zlen T - zlen P + 1 - a)).

Section Search.
Context (P T : list Z).
(** The last character of the buffer, which is as [malloc] gave it. *)
Context (last : Z).
Local Abbreviation m := (zlen P).
Local Abbreviation N := (zlen T).
Hypothesis Hm : 0 < m <= SUBSTRING_MAX_SIZE.
Hypothesis HT : BUFFER_SIZE <= N -> Forall (fun c => c <> 0) T.
Local Abbreviation state := (mkState P m (poly P) (3 ^ (m - 1))).

(** The buffer shows the text around the current position, and ends with [last]. *)
Record window_ok (w : SearchWindow) : Prop := {
  w_buffer : zlen (textBuffer w) = BUFFER_SIZE + 1;
  w_last : znth (textBuffer w) BUFFER_SIZE = last;
  w_cur : 0 <= curIndex w <= globalIndex w;
  w_len : 0 <= textLen w <= BUFFER_SIZE;
  w_text j : curIndex w <= j < textLen w -> znth (textBuffer w) j = znth T (globalIndex w - curIndex w + j);
  w_end : globalIndex w - curIndex w + textLen w <= N;
  w_rest : inputStream w = drop (Z.to_nat (globalIndex w - curIndex w + textLen w)) T;
  w_full : textLen w = BUFFER_SIZE \/ globalIndex w - curIndex w + textLen w = N;
  w_fits : curIndex w + m <= BUFFER_SIZE
}.

Lemma text_nonzero j : BUFFER_SIZE <= N -> 0 <= j < N -> znth T j <> 0.
Proof.
  intros HN Hj. apply (Forall_lookup_1 _ _ (Z.to_nat j) _ (HT HN)), list_lookup_lookup_total_lt. unfold zlen in Hj. lia.
Qed.

Lemma match_loop_ok w : window_ok w -> globalIndex w + m <= N ->
  forall n i, 0 <= i -> i + Z.of_nat n = m ->
  exists b, match_loop n w state i =
    Ok (b, compared (globalIndex w + i + 1) (drop (Z.to_nat i) P) (drop (Z.to_nat (globalIndex w + i)) T)).
Proof.
  intros [Hb Hz0 Hc Hl Htx Hend Hrest Hfull Hfits] HN. unfold BUFFER_SIZE, SUBSTRING_MAX_SIZE in *.
  induction n as [|n IH]; intros i Hi Hn; cbn [match_loop substring].
  { exists true. rewrite drop_ge by (unfold zlen in *; lia). done. }
  rewrite !arr_get_ok by lia. rewrite Htx by lia.
  replace (globalIndex w - curIndex w + (curIndex w + i)) with (globalIndex w + i) by lia.
  destruct (IH (i + 1) ltac:(lia) ltac:(lia)) as (b & Hrec).
  assert (HdP : drop (Z.to_nat i) P = znth P i :: drop (Z.to_nat (i + 1)) P).
  { replace (Z.to_nat (i + 1)) with (S (Z.to_nat i)) by lia. apply drop_S, list_lookup_lookup_total_lt. unfold zlen in *. lia. }
  assert (HdT : drop (Z.to_nat (globalIndex w + i)) T = znth T (globalIndex w + i) :: drop (Z.to_nat (globalIndex w + (i + 1))) T).
  { replace (Z.to_nat (globalIndex w + (i + 1))) with (S (Z.to_nat (globalIndex w + i))) by lia.
    apply drop_S, list_lookup_lookup_total_lt. unfold zlen in *. lia. }
  rewrite HdP, HdT. cbn [compared]. destruct (znth P i =? znth T (globalIndex w + i)); [|by eexists].
  rewrite Hrec. exists b. replace (globalIndex w + (i + 1) + 1) with (globalIndex w + i + 1 + 1) by lia. done.
Qed.

Lemma isMatch_spec w : window_ok w -> globalIndex w + m <= N -> curHash w = poly (slice T (globalIndex w) m) ->
  exists b, isMatch w state =
    Ok (b, if poly (slice T (globalIndex w) m) =? poly P
           then compared (globalIndex w + 1) P (drop (Z.to_nat (globalIndex w)) T) else []).
Proof.
  intros Hw HN Hh. unfold isMatch. cbn [st_hash substrLen]. rewrite Hh.
  destruct (poly (slice T (globalIndex w) m) =? poly P); [|by eexists].
  destruct (match_loop_ok w Hw HN (Z.to_nat m) 0) as (b & ->); [lia|lia|]. exists b.
  change (Z.to_nat 0) with 0%nat. by rewrite drop_0, !Z.add_0_r.
Qed.

(** ** Moving the window *)

(** [updateHash] once the window was moved: [a] is the old position. *)
Lemma updateHash_spec w a :
  zlen (textBuffer w) = BUFFER_SIZE + 1 -> 1 <= curIndex w -> curIndex w + m <= BUFFER_SIZE -> 0 <= a -> a + m <= N ->
  znth (textBuffer w) (curIndex w - 1) = znth T a -> curHash w = poly (slice T a m) ->
  (a + m < N -> znth (textBuffer w) (curIndex w + m - 1) = znth T (a + m)) ->
  exists h, updateHash w state =
    Ok (mkWindow (inputStream w) (textBuffer w) (textLen w) (curIndex w) (globalIndex w) (empty w) h) /\
    (a + m < N -> h = poly (slice T (a + 1) m)).
Proof.
  intros Hb Hc Hf Ha HaN Hold Hh Hnext. unfold updateHash, BUFFER_SIZE, SUBSTRING_MAX_SIZE in *. cbn [substrLen hashMultiplyer].
  rewrite !arr_get_ok by lia. rewrite Hold, Hh. set (c := znth (textBuffer w) (curIndex w + m - 1)) in *.
  pose proof (poly_bound (slice T a m)) as Hp. rewrite zlen_slice in Hp by lia.
  assert (Hpow : 3 ^ m = 3 * 3 ^ (m - 1)) by (rewrite <- Z.pow_succ_r by lia; f_equal; lia).
  assert (H16 : 3 ^ m <= 3 ^ 16) by (apply Z.pow_le_mono_r; lia).
  assert (Hlow : 0 <= poly (slice T a m) - znth T a mod 3).
  { replace m with (m - 1 + 1) by lia. rewrite slice_cons by lia. cbn [poly]. pose proof (poly_bound (slice T (a + 1) (m - 1))). lia. }
  pose proof (Z.mod_pos_bound (znth T a) 3 ltac:(lia)). pose proof (Z.mod_pos_bound c 3 ltac:(lia)) as Hc3.
  rewrite s32_ok by lia. set (q := Z.quot (poly (slice T a m) - znth T a mod 3) 3).
  assert (Hq : 0 <= q < 3 ^ (m - 1)).
  { unfold q. rewrite Z.quot_div_nonneg by lia. split; [apply Z.div_pos; lia|apply Z.div_lt_upper_bound; lia]. }
  rewrite !s32_ok by nia. eexists. split; [done|]. intros Hlt. rewrite Hnext by done. unfold q. rewrite poly_roll by lia. done.
Qed.

Lemma moveForward_ok w : window_ok w -> empty w = false -> globalIndex w + m <= N ->
  curHash w = poly (slice T (globalIndex w) m) -> last = 0 \/ N < BUFFER_SIZE \/ curIndex w + 1 + m <= BUFFER_SIZE ->
  exists w', moveForward w state = Ok w' /\ globalIndex w' = globalIndex w + 1 /\
    (curIndex w + 1 + m <= BUFFER_SIZE -> curIndex w' = curIndex w + 1) /\
    empty w' = (N <? globalIndex w + 1 + m) /\
    (empty w' = false -> window_ok w' /\ curHash w' = poly (slice T (globalIndex w + 1) m)).
Proof.
  intros [Hb Hz0 Hc Hl Htx Hend Hrest Hfull Hfits] He HN Hh Hlast. unfold moveForward, BUFFER_SIZE, SUBSTRING_MAX_SIZE in *.
  cbn [substrLen]. rewrite He. set (off := globalIndex w - curIndex w) in *. set (cur := curIndex w) in *.
  rewrite Z.gtb_ltb. destruct (Z.ltb_spec 1024 (cur + 1 + m)) as [Hrefill|Hroom].
  - assert (Hlen : textLen w = 1024) by lia. replace (cur + 1 - 1) with cur by lia.
    destruct (strcpy_down_ok (textBuffer w) cur m) as (buf & -> & Hbl & Hlow & Hhigh); [lia|lia|lia| |replace (cur + m) with 1024 by lia; lia|].
    { intros j Hj. rewrite Htx by lia. apply text_nonzero; unfold BUFFER_SIZE; lia. }
    replace (1024 - (cur + 1) + 1) with m by lia. unfold fread.
    set (got := take (Z.to_nat (1024 - m)) (inputStream w)).
    assert (Hgot : zlen got = Z.min (1024 - m) (N - (off + 1024))).
    { unfold got. rewrite zlen_ztake by lia. rewrite Hrest, zlen_zdrop by lia. lia. }
    set (buf' := write_at buf m got).
    assert (Hbuf' : forall j, 0 <= j -> znth buf' j = if (m <=? j) && (j <? m + zlen got) then znth got (j - m) else znth buf j)
      by (intros; apply znth_write_at; lia).
    assert (Hl' : zlen buf' = 1025) by (unfold buf'; rewrite zlen_write_at by lia; lia).
    assert (Htx' : forall j, 0 <= j < m + zlen got -> znth buf' j = znth T (globalIndex w + j)).
    { intros j Hj. rewrite Hbuf' by lia. zcase; try lia.
      - unfold got. rewrite znth_ztake by lia. rewrite Hrest, znth_zdrop by lia. f_equal. lia.
      - rewrite Hlow by lia. rewrite Htx by lia. f_equal. lia. }
    cbn [curIndex textLen inputStream textBuffer globalIndex empty curHash].
    match goal with |- context [updateHash ?w1 _] => destruct (updateHash_spec w1 (globalIndex w)) as (h & Hu & Hroll) end; cbn [textBuffer curIndex globalIndex curHash textLen];
      unfold BUFFER_SIZE; try lia.
    { rewrite Htx' by lia. f_equal. lia. }
    { intros Hlt. rewrite Htx' by lia. f_equal. lia. }
    cbn [curIndex textLen inputStream textBuffer globalIndex empty curHash] in *. rewrite Hu.
    eexists. split; [done|]. cbn [globalIndex curIndex empty curHash]. split; [done|]. split; [lia|]. rewrite Z.gtb_ltb, orb_false_r.
    assert (Hemp : (m + zlen got <? 1 + m) = (N <? globalIndex w + 1 + m)) by (zcase; lia).
    rewrite Hemp. split; [done|]. intros Hne. apply Z.ltb_ge in Hne. split; [|apply Hroll; lia].
    split; cbn [textBuffer curIndex globalIndex textLen inputStream]; unfold BUFFER_SIZE; try lia.
    + rewrite Hbuf' by lia. zcase; try lia; by rewrite Hhigh by lia.
    + intros j Hj. rewrite Htx' by lia. f_equal. lia.
    + rewrite Hrest, drop_drop. destruct (Z.le_gt_cases (1024 - m) (N - (off + 1024))); [f_equal; lia|].
      rewrite !drop_ge by (unfold zlen in *; lia). done.
  - cbn [curIndex textLen inputStream textBuffer globalIndex empty curHash].
    match goal with |- context [updateHash ?w1 _] => destruct (updateHash_spec w1 (globalIndex w)) as (h & Hu & Hroll) end; cbn [textBuffer curIndex globalIndex curHash textLen];
      unfold BUFFER_SIZE; try lia; try done.
    { rewrite Htx by lia. f_equal. lia. }
    { intros Hlt. rewrite Htx by lia. f_equal. lia. }
    cbn [curIndex textLen inputStream textBuffer globalIndex empty curHash] in *. rewrite Hu.
    eexists. split; [done|]. cbn [globalIndex curIndex empty curHash]. split; [done|]. split; [lia|]. rewrite Z.gtb_ltb, orb_false_r.
    assert (Hemp : (textLen w <? cur + 1 + m) = (N <? globalIndex w + 1 + m)) by (zcase; lia).
    rewrite Hemp. split; [done|]. intros Hne. apply Z.ltb_ge in Hne. split; [|apply Hroll; lia].
    split; cbn [textBuffer curIndex globalIndex textLen inputStream]; unfold BUFFER_SIZE;
      replace (globalIndex w + 1 - (cur + 1)) with off by lia; auto; try lia. intros j Hj. apply Htx. lia.
Qed.

Lemma search_loop_ok (fuel : nat) : forall w,
  0 <= globalIndex w -> empty w = (N <? globalIndex w + m) ->
  (empty w = false -> window_ok w /\ curHash w = poly (slice T (globalIndex w) m)) ->
  N - globalIndex w < Z.of_nat fuel -> last = 0 \/ N < BUFFER_SIZE ->
  search_loop fuel w state = Ok (compared_from P T (globalIndex w)).
Proof.
  induction fuel as [|fuel IH]; intros w Hg He Hw Hf Hlast; cbn [search_loop]; destruct (empty w) eqn:Ee; symmetry in He.
  1, 3: apply Z.ltb_lt in He; unfold compared_from; rewrite seqZ_nil by lia; done.
  1: apply Z.ltb_ge in He; lia.
  apply Z.ltb_ge in He.
  destruct (Hw eq_refl) as [Hok Hh]. destruct (isMatch_spec w Hok He Hh) as (b & ->).
  destruct (moveForward_ok w Hok Ee He Hh ltac:(tauto)) as (w' & -> & Hg' & _ & He' & Hw').
  rewrite IH; [|lia|by rewrite Hg'|by rewrite Hg'|lia|done]. unfold compared_from. rewrite Hg'.
  rewrite (seqZ_cons (globalIndex w)) by lia. cbn [flat_map].
  replace (Z.pred (N - m + 1 - globalIndex w)) with (N - m + 1 - (globalIndex w + 1)) by lia. done.
Qed.

(** At the first refill [strcpy] finds no 0 in the buffer. *)
Lemma overrun w : window_ok w -> last <> 0 -> BUFFER_SIZE <= N -> empty w = false -> globalIndex w + m <= N -> BUFFER_SIZE < curIndex w + 1 + m -> moveForward w state = Err Undefined.
Proof.
  intros [Hb Hz0 Hc Hl Htx Hend Hrest Hfull Hfits] Hlast HN He HgN Hr. unfold moveForward, BUFFER_SIZE, SUBSTRING_MAX_SIZE in *. cbn [substrLen].
  rewrite Z.gtb_ltb. destruct (Z.ltb_spec 1024 (curIndex w + 1 + m)); [|lia]. replace (curIndex w + 1 - 1) with (curIndex w) by lia.
  unfold strcpy_down. rewrite strlen_zlen; [destruct (Z.ltb_spec (zlen (drop (Z.to_nat (curIndex w)) (textBuffer w))) (zlen (drop (Z.to_nat (curIndex w)) (textBuffer w)))); [lia|]; by rewrite andb_false_r|].
  apply Forall_lookup. intros j c Hj. pose proof (lookup_lt_Some _ _ _ Hj) as Hjl. rewrite length_drop in Hjl. unfold zlen in Hb.
  assert (Ec : c = znth (textBuffer w) (curIndex w + Z.of_nat j)).
  { rewrite lookup_drop in Hj. unfold znth. replace (Z.to_nat (curIndex w + Z.of_nat j)) with (Z.to_nat (curIndex w) + j)%nat by lia. symmetry. by apply list_lookup_total_correct. }
  rewrite Ec. destruct (Z.eq_dec (curIndex w + Z.of_nat j) 1024) as [->|]; [by rewrite Hz0|]. rewrite Htx by lia. apply text_nonzero; unfold BUFFER_SIZE; lia.
Qed.

Lemma search_overruns (fuel : nat) : forall w, window_ok w -> last <> 0 -> BUFFER_SIZE <= N -> empty w = false -> globalIndex w = curIndex w ->
  curHash w = poly (slice T (globalIndex w) m) -> BUFFER_SIZE - curIndex w < Z.of_nat fuel -> search_loop fuel w state = Err Undefined.
Proof.
  induction fuel as [|fuel IH]; intros w Hok Hlast HN He Hg Hh Hf; [destruct Hok; unfold SUBSTRING_MAX_SIZE in *; lia|]. pose proof (w_fits _ Hok) as Hfit.
  cbn [search_loop]. rewrite He. destruct (isMatch_spec w Hok ltac:(lia) Hh) as (b & ->).
  destruct (Z.le_gt_cases (curIndex w + 1 + m) BUFFER_SIZE) as [Hroom|Hr]; [|by rewrite overrun by (done || lia)].
  destruct (moveForward_ok w Hok He ltac:(lia) Hh ltac:(tauto)) as (w' & -> & Hg' & Hc' & He' & Hw').
  assert (He2 : empty w' = false) by (rewrite He'; apply Z.ltb_ge; lia). destruct (Hw' He2) as [Hok' Hh'].
  rewrite IH; [done|done|done|done|done|rewrite Hg', Hc'; lia|by rewrite Hg'|rewrite Hc'; lia].
Qed.

Lemma rk_findSubstring_ok (buffer : list Z) :
  Forall (fun c => c <> 0) P -> zlen buffer = BUFFER_SIZE + 1 -> znth buffer BUFFER_SIZE = last -> m <= N \/ N = 0 ->
  findSubstring buffer T P = if bool_decide (last = 0 \/ N < BUFFER_SIZE) then Ok (poly P, compared_from P T 0) else Err Undefined.
Proof.
  intros HP Hbuf Hz HN. unfold findSubstring, initSearchState, SUBSTRING_MAX_SIZE in *. rewrite (strlen_zlen P HP).
  assert (HsP : slice P 0 m = P) by (unfold slice; change (Z.to_nat 0) with 0%nat; rewrite drop_0; apply take_ge; unfold zlen; lia).
  rewrite hash_spec by lia. rewrite HsP.
  assert (H15 : 0 < 3 ^ (m - 1) <= 3 ^ 15) by (split; [apply Z.pow_pos_nonneg; lia|apply Z.pow_le_mono_r; lia]).
  rewrite s32_ok by lia. replace (take (Z.to_nat m) P) with P by (symmetry; apply take_ge; unfold zlen; lia).
  unfold initSearchWindow, fread. cbn [substrLen st_hash]. unfold BUFFER_SIZE in *.
  assert (Hg : zlen (take (Z.to_nat 1024) T) = Z.min 1024 N) by (by rewrite zlen_ztake by lia).
  pose proof (zlen_nonneg T). set (buf := write_at buffer 0 (take (Z.to_nat 1024) T)).
  assert (Hl : zlen buf = 1025) by (unfold buf; rewrite zlen_write_at by lia; lia).
  assert (Htx : forall j, 0 <= j < Z.min 1024 N -> znth buf j = znth T j).
  { intros j Hj. unfold buf. rewrite znth_write_at by lia. zcase; try lia. rewrite znth_ztake by lia. f_equal. lia. }
  rewrite hash_spec by lia. set (w := mkWindow _ _ _ _ _ _ _).
  assert (Hemp : empty w = (N <? globalIndex w + m)).
  { unfold w. cbn [empty globalIndex]. rewrite Hg, Z.gtb_ltb. destruct (Z.ltb_spec 0 (Z.min 1024 N)), (Z.ltb_spec N (0 + m)); cbn; lia || done. }
  assert (Hok : empty w = false -> window_ok w /\ curHash w = poly (slice T (globalIndex w) m)).
  { intros Hne. unfold w in *. cbn [empty globalIndex curHash] in *. rewrite Hg, Z.gtb_ltb in Hne.
    destruct (Z.ltb_spec 0 (Z.min 1024 N)); [|done]. assert (HmN : m <= N) by lia. split.
    + split; cbn [textBuffer curIndex globalIndex textLen inputStream]; unfold BUFFER_SIZE; rewrite ?Hg; try lia.
      * unfold buf. rewrite znth_write_at by lia. zcase; try lia; done.
      * intros j Hj. by rewrite Htx by lia.
      * destruct (Z.le_gt_cases 1024 N); [f_equal; lia|]. rewrite !drop_ge by (unfold zlen in *; lia). done.
    + f_equal. apply slice_ext; try lia. intros j Hj. by rewrite !Z.add_0_l, Htx by lia. }
  case_bool_decide as Hlast.
  - by rewrite (search_loop_ok (S (length T)) w); [|..|cbn; unfold zlen; lia|].
  - assert (Hne : empty w = false) by (rewrite Hemp; apply Z.ltb_ge; cbn; lia). destruct (Hok Hne) as [Hw Hh].
    rewrite (search_overruns (S (length T)) w); [done|done|tauto|unfold BUFFER_SIZE; lia|done|done|done|cbn; unfold BUFFER_SIZE, zlen in *; lia].
Qed.
End Search.

(** C32.  Rabin-Karp is equivalent to the direct definition.  For a pattern of 1 to 16
    characters other than 0 and a text that is empty or no shorter than the pattern, the
    search prints the hash of the pattern and, for every position where the hash of the
    text agrees with it, the positions compared up to the first difference: the rolling
    hash is the hash of the window at every step.  A text of 1023 characters or fewer may
    be any, and so may the contents of the fresh buffer.  For a longer one, without 0
    characters, the buffer is refilled, and everything depends on the last character of
    the buffer, which is as [malloc] gave it: if it is 0, the search goes on correctly
    across the refills; if not, [strcpy] runs out of the buffer. *)
Theorem rabin_karp_equivalent (P T buffer : list Z) :
  0 < zlen P <= SUBSTRING_MAX_SIZE -> Forall (fun c => c <> 0) P -> zlen P <= zlen T \/ zlen T = 0 -> zlen buffer = BUFFER_SIZE + 1 ->
  (zlen T < BUFFER_SIZE -> findSubstring buffer T P = Ok (poly P, compared_from P T 0)) /\
  (BUFFER_SIZE <= zlen T -> Forall (fun c => c <> 0) T ->
     findSubstring buffer T P = if znth buffer BUFFER_SIZE =? 0 then Ok (poly P, compared_from P T 0) else Err Undefined).
Proof.
  intros HP1 HP2 HT Hb. split.
  - intros Hs. rewrite (rk_findSubstring_ok P T (znth buffer BUFFER_SIZE) HP1) by (done || lia). by rewrite bool_decide_true by auto.
  - intros Hs Hnz. rewrite (rk_findSubstring_ok P T (znth buffer BUFFER_SIZE) HP1) by done.
    destruct (Z.eqb_spec (znth buffer BUFFER_SIZE) 0); [by rewrite bool_decide_true by auto|rewrite bool_decide_false; [done|lia]].
Qed.

(** A short text, and one that is as long as the buffer, with either last character. *)
Lemma rabin_karp_equivalent_witness :
  findSubstring (replicate 1025 7) [97; 98; 0; 97; 98; 97] [97; 98; 97] =
    Ok (poly [97; 98; 97], compared_from [97; 98; 97] [97; 98; 0; 97; 98; 97] 0) /\
  findSubstring (replicate 1025 0) (replicate 2000 97) [97; 97] = Ok (poly [97; 97], compared_from [97; 97] (replicate 2000 97) 0) /\
  findSubstring (replicate 1025 7) (replicate 1024 97) [97; 97] = Err Undefined.
Proof.
  split; [|split].
  - apply (proj1 (rabin_karp_equivalent [97; 98; 97] [97; 98; 0; 97; 98; 97] (replicate 1025 7) ltac:(done) ltac:(repeat (constructor; [lia|]); constructor) ltac:(left; done) eq_refl)). reflexivity.
  - apply (proj2 (rabin_karp_equivalent [97; 97] (replicate 2000 97) (replicate 1025 0) ltac:(done) ltac:(repeat (constructor; [lia|]); constructor) ltac:(left; done) eq_refl));
      [vm_compute; discriminate|]. apply Forall_replicate. lia.
  - apply (proj2 (rabin_karp_equivalent [97; 97] (replicate 1024 97) (replicate 1025 7) ltac:(done) ltac:(repeat (constructor; [lia|]); constructor) ltac:(left; done) eq_refl));
      [vm_compute; discriminate|]. apply Forall_replicate. lia.
Defined.
