(* ===== verification/BoyerMoore.v ===== *)
(** * C-Labs/Find_substring_Boyer-Moore/src/main.c

    The Boyer-Moore search with the bad-character table, over a buffer of 64
    characters.  Characters are bytes 0 .. 255.  Allocation is taken to succeed. *)
From S2P Require Import Prelude TextFile.

Definition SUBSTRING_MAX_SIZE : Z := 16.
Definition BUFFER_SIZE : Z := 64.
Definition UCHAR_MAX : Z := 255.

Record SearchState := mkState { substring : list Z; substrLen : Z; shiftTable : list Z }.

(** [inputStream] is what is left of the file. *)
Record SearchWindow := mkWindow {
  inputStream : list Z;
  textBuffer : list Z;
  textLen : Z;
  curIndex : Z;
  globalIndex : Z;
  empty : bool
}.

(** The second loop of [initShiftTable], for [pos] = n-1 down to 0. *)
Fixpoint shift_loop (n : nat) (table substring : list Z) (substrLen : Z) : res (list Z) :=
  match n with
  | O => Ok table
  | S pos =>
      let* c := arr_get substring (Z.of_nat pos) in
      let* s := arr_get table c in
      let* table := if s =? substrLen then arr_set table c (substrLen - Z.of_nat pos - 1) else Ok table in
      shift_loop pos table substring substrLen
  end.

Definition initShiftTable (substring : list Z) (substrLen : Z) : res (list Z) :=
  shift_loop (Z.to_nat (substrLen - 1)) (replicate (Z.to_nat (UCHAR_MAX + 1)) substrLen) substring substrLen.

Definition initSearchState (s : list Z) : res SearchState :=
  let len := strlen s in
  let sub := take (Z.to_nat len) s in
  let* table := initShiftTable sub len in
  Ok (mkState sub len table).

(** [buffer] is what the fresh buffer of 65 characters contains. *)
Definition initSearchWindow (buffer stream : list Z) : SearchWindow :=
  let '(cs, rest) := fread BUFFER_SIZE stream in
  mkWindow rest (write_at buffer 0 cs) (zlen cs) 0 0 (negb (zlen cs >? 0)).

(** The loop of [isMatch] for [pos] = n-1 down to 0: the result and the indices it
    prints. *)
Fixpoint match_loop (n : nat) (window : SearchWindow) (state : SearchState) : res (bool * list Z) :=
  match n with
  | O => Ok (true, [])
  | S pos =>
      let* a := arr_get (textBuffer window) (curIndex window + Z.of_nat pos) in
      let* b := arr_get (substring state) (Z.of_nat pos) in
      if a =? b then
        let* '(r, out) := match_loop pos window state in
        Ok (r, globalIndex window + Z.of_nat pos + 1 :: out)
      else Ok (false, [globalIndex window + Z.of_nat pos + 1])
  end.

Definition isMatch (window : SearchWindow) (state : SearchState) : res (bool * list Z) :=
  match_loop (Z.to_nat (substrLen state)) window state.

Definition calculateShift (window : SearchWindow) (state : SearchState) : res Z :=
  let* textBack := arr_get (textBuffer window) (curIndex window + substrLen state - 1) in
  arr_get (shiftTable state) textBack.

Definition moveForward (window : SearchWindow) (state : SearchState) : res SearchWindow :=
  let* shift := calculateShift window state in
  let cur := curIndex window + shift in
  let glob := globalIndex window + shift in
  let* window :=
    if cur + substrLen state >? BUFFER_SIZE then
      let* buffer := strcpy_down (textBuffer window) cur in
      let remained := BUFFER_SIZE - cur in
      let '(cs, rest) := fread (BUFFER_SIZE - remained) (inputStream window) in
      Ok (mkWindow rest (write_at buffer remained cs) (remained + zlen cs) 0 glob (empty window))
    else Ok (mkWindow (inputStream window) (textBuffer window) (textLen window) cur glob (empty window)) in
  let e := (curIndex window + substrLen state >? textLen window) || empty window in
  Ok (mkWindow (inputStream window) (textBuffer window) (textLen window) (curIndex window) (globalIndex window) e).

Fixpoint search_loop (fuel : nat) (window : SearchWindow) (state : SearchState) : res (list Z) :=
  if empty window then Ok []
  else
    match fuel with
    | O => Err OutOfFuel
    | S fuel =>
        let* '(_, printed) := isMatch window state in
        let* window := moveForward window state in
        let* rest := search_loop fuel window state in
        Ok (printed ++ rest)
    end.

(** The positions printed. *)
Definition findSubstring (buffer stream s : list Z) : res (list Z) :=
  let* state := initSearchState s in
  search_loop (S (length stream)) (initSearchWindow buffer stream) state.

(** [None] is [exitWithError]. *)
Definition main (buffer input : list Z) : res (option (list Z)) :=
  let '(s, rest) := scan_line (Z.to_nat SUBSTRING_MAX_SIZE) input in
  match s with
  | [] => Ok None
  | _ =>
      let rest := match rest with c :: rest' => if c =? 115 then rest' else rest | [] => [] end in
      let* out := findSubstring buffer (drop 1 rest) s in
      Ok (Some out)
  end.

Example boyer_moore_run :
  main (replicate 65 0)
    [101;120;97;109;112;108;101;10;116;104;105;115;32;105;115;32;115;105;109;112;108;101;32;101;120;97;109;112;108;101] =
  Ok (Some [7; 14; 13; 12; 11; 10; 20; 22; 21; 20; 19; 18; 17; 16]).
Proof. vm_compute. reflexivity. Qed.

(** ** The shift table *)

(** [s] is a shift for the character [c]: no position but the last of the last [s]
    of the pattern holds [c], and the one before them does, if there is one. *)
Definition shift_ok (P : list Z) (c s : Z) : Prop :=
  1 <= s <= zlen P /\ (forall d, 0 < d < s -> znth P (zlen P - 1 - d) <> c) /\
  (s < zlen P -> znth P (zlen P - 1 - s) = c).

(** After the positions from [n] on: the entry is a shift, or still the length and
    [c] was not seen. *)
Definition table_from (P table : list Z) (n : Z) : Prop :=
  forall c, 0 <= c <= UCHAR_MAX ->
    shift_ok P c (znth table c) /\ znth table c < zlen P \/
    znth table c = zlen P /\ forall j, n <= j < zlen P - 1 -> znth P j <> c.

Lemma shift_loop_spec P : 0 < zlen P -> Forall (fun c => 0 <= c <= UCHAR_MAX) P ->
  forall n table, Z.of_nat n < zlen P -> zlen table = UCHAR_MAX + 1 -> table_from P table (Z.of_nat n) ->
  exists table', shift_loop n table P (zlen P) = Ok table' /\ zlen table' = UCHAR_MAX + 1 /\
    forall c, 0 <= c <= UCHAR_MAX -> shift_ok P c (znth table' c).
Proof.
  intros HP Hr. induction n as [|n IH]; intros table Hn Hl Ht; cbn [shift_loop].
  { exists table. split; [done|]. split; [done|]. intros c Hc. destruct (Ht c Hc) as [[? _]|[-> Hno]]; [done|].
    split; [lia|]. split; [|lia]. intros d Hd. apply Hno. lia. }
  set (c0 := znth P (Z.of_nat n)).
  assert (Hc0 : 0 <= c0 <= UCHAR_MAX).
  { apply (Forall_lookup_1 _ _ n _ Hr). unfold c0, znth. rewrite Nat2Z.id. apply list_lookup_lookup_total_lt.
    unfold zlen in Hn. lia. }
  rewrite arr_get_ok by lia. fold c0. rewrite arr_get_ok by lia.
  destruct (Z.eqb_spec (znth table c0) (zlen P)) as [E|Hne].
  - rewrite arr_set_ok by lia. apply IH; [lia|by rewrite zlen_zset|]. intros c Hc. rewrite znth_zset by lia.
    destruct (Z.eqb_spec c0 c) as [<-|Hcc].
    + left. destruct (Ht c0 Hc) as [[_ ?]|[_ Hno]]; [lia|]. split; [|lia]. split; [lia|]. split.
      * intros d Hd. apply Hno. lia.
      * intros _. unfold c0. f_equal. lia.
    + destruct (Ht c Hc) as [?|[Ec Hno]]; [by left|]. right. split; [done|]. intros j Hj.
      destruct (Z.eq_dec j (Z.of_nat n)) as [->|]; [done|]. apply Hno. lia.
  - apply IH; [lia|done|]. intros c Hc. destruct (Ht c Hc) as [?|[Ec Hno]]; [by left|]. right. split; [done|].
    intros j Hj. destruct (Z.eq_dec j (Z.of_nat n)) as [->|]; [|apply Hno; lia]. intros Ecc. apply Hne. unfold c0. by rewrite Ecc.
Qed.

Lemma initShiftTable_spec P : 0 < zlen P -> Forall (fun c => 0 <= c <= UCHAR_MAX) P ->
  exists table, initShiftTable P (zlen P) = Ok table /\ zlen table = UCHAR_MAX + 1 /\
    forall c, 0 <= c <= UCHAR_MAX -> shift_ok P c (znth table c).
Proof.
  intros HP Hr. unfold initShiftTable. apply shift_loop_spec; [done|done|lia| |].
  - unfold zlen at 1. rewrite length_replicate. unfold UCHAR_MAX. lia.
  - intros c Hc. right. split; [apply lookup_total_replicate_2; unfold UCHAR_MAX in *; lia|]. intros j Hj. lia.
Qed.

(** ** The search *)

Section Search.
Context (P T : list Z).
Local Abbreviation m := (zlen P).
Local Abbreviation N := (zlen T).
Hypothesis Hm : 0 < m <= SUBSTRING_MAX_SIZE.
Hypothesis HT : Forall (fun c => 0 < c <= UCHAR_MAX) T.

Definition occurs_at (a : Z) : Prop :=
  0 <= a /\ a + m <= N /\ forall j, 0 <= j < m -> znth T (a + j) = znth P j.

(** The positions compared at [a], from the last character of the pattern back to
    the first that differs. *)
Fixpoint compared_back (n : nat) (a : Z) : list Z :=
  match n with
  | O => []
  | S j =>
      a + Z.of_nat j + 1 :: if znth T (a + Z.of_nat j) =? znth P (Z.of_nat j) then compared_back j a else []
  end.

(** The positions where the pattern is tried: increasing, within the text, with
    every occurrence from [a] on among them. *)
Record tries (a : Z) (A : list Z) : Prop := {
  t_range : Forall (fun b => a <= b /\ b + m <= N) A;
  t_sorted : StronglySorted Z.lt A;
  t_complete b : a <= b -> occurs_at b -> b ∈ A
}.

Record window_ok (w : SearchWindow) : Prop := {
  w_buffer : zlen (textBuffer w) = BUFFER_SIZE + 1;
  w_zero : znth (textBuffer w) BUFFER_SIZE = 0;
  w_cur : 0 <= curIndex w <= globalIndex w;
  w_len : 0 <= textLen w <= BUFFER_SIZE;
  w_text j : curIndex w <= j < textLen w -> znth (textBuffer w) j = znth T (globalIndex w - curIndex w + j);
  w_end : globalIndex w - curIndex w + textLen w <= N;
  w_rest : inputStream w = drop (Z.to_nat (globalIndex w - curIndex w + textLen w)) T;
  w_full : textLen w = BUFFER_SIZE \/ globalIndex w - curIndex w + textLen w = N;
  w_fits : curIndex w + m <= BUFFER_SIZE
}.

Lemma text_char j : 0 <= j < N -> 0 < znth T j <= UCHAR_MAX.
Proof.
  intros Hj. apply (Forall_lookup_1 _ _ (Z.to_nat j) _ HT), list_lookup_lookup_total_lt. unfold zlen in Hj. lia.
Qed.

Lemma bm_match_loop w table : window_ok w -> globalIndex w + m <= N -> forall n, Z.of_nat n <= m ->
  exists b, match_loop n w (mkState P m table) = Ok (b, compared_back n (globalIndex w)).
Proof.
  intros [Hb Hz0 Hc Hl Htx Hend Hrest Hfull Hfits] HN. unfold BUFFER_SIZE in *.
  induction n as [|n IH]; intros Hn; cbn [match_loop compared_back substring]; [by eexists|].
  rewrite !arr_get_ok by lia. rewrite Htx by lia.
  replace (globalIndex w - curIndex w + (curIndex w + Z.of_nat n)) with (globalIndex w + Z.of_nat n) by lia.
  destruct (_ =? _); [|by eexists]. destruct IH as (b & ->); [lia|]. by eexists.
Qed.


Lemma strlen_le (s : list Z) (n : Z) : 0 <= n < zlen s -> znth s n = 0 -> strlen s <= n.
Proof.
  revert n. induction s as [|c s IH]; intros n Hn Hz; cbn [strlen]; [lia|]. rewrite zlen_cons in Hn.
  destruct (Z.eqb_spec c 0); [lia|]. destruct (Z.eq_dec n 0) as [->|]; [by destruct n0|].
  replace n with (Z.succ (n - 1)) in Hz by lia. rewrite znth_cons_succ in Hz by lia. specialize (IH (n - 1)). lia.
Qed.

(** [strcpy] of the rest of the buffer stops at the 0 at its end, at the latest. *)
Lemma strcpy_rest (buf : list Z) (i : Z) :
  zlen buf = BUFFER_SIZE + 1 -> znth buf BUFFER_SIZE = 0 -> BUFFER_SIZE / 2 < i <= BUFFER_SIZE ->
  exists b, strcpy_down buf i = Ok b.
Proof.
  intros Hl Hz Hi. unfold BUFFER_SIZE in *. change (64 / 2) with 32 in Hi. unfold strcpy_down.
  assert (strlen (drop (Z.to_nat i) buf) <= 64 - i).
  { apply strlen_le; [rewrite zlen_zdrop; lia|]. rewrite znth_zdrop by lia. by replace (i + (64 - i)) with 64 by lia. }
  rewrite zlen_zdrop by lia. zcase; try lia. by eexists.
Qed.

(** No occurrence starts inside the shift the table gives for the last character. *)
Lemma bad_char_skips a s : 0 <= a -> a + m <= N -> shift_ok P (znth T (a + m - 1)) s ->
  forall b, a < b < a + s -> ~ occurs_at b.
Proof.
  intros Ha HN (Hs & Hno & _) b Hb (_ & _ & Hocc). apply (Hno (b - a)); [lia|].
  rewrite <- (Hocc (m - 1 - (b - a))) by lia. f_equal. lia.
Qed.

Lemma bm_moveForward w table : Forall (fun c => 0 <= c <= UCHAR_MAX) P -> window_ok w -> empty w = false ->
  globalIndex w + m <= N -> zlen table = UCHAR_MAX + 1 -> (forall c, 0 <= c <= UCHAR_MAX -> shift_ok P c (znth table c)) ->
  exists s w', moveForward w (mkState P m table) = Ok w' /\ shift_ok P (znth T (globalIndex w + m - 1)) s /\
    globalIndex w' = globalIndex w + s /\ empty w' = (N <? globalIndex w' + m) /\ (empty w' = false -> window_ok w').
Proof.
  intros HP [Hb Hz0 Hc Hl Htx Hend Hrest Hfull Hfits] He HN Htl Htab.
  set (off := globalIndex w - curIndex w) in *. unfold BUFFER_SIZE, SUBSTRING_MAX_SIZE in *.
  unfold moveForward, calculateShift. cbn [substrLen shiftTable]. rewrite arr_get_ok by lia.
  rewrite Htx by lia. replace (off + (curIndex w + m - 1)) with (globalIndex w + m - 1) by lia.
  set (c := znth T (globalIndex w + m - 1)). assert (Hcr : 0 <= c <= UCHAR_MAX).
  { unfold c. pose proof (text_char (globalIndex w + m - 1)). lia. }
  rewrite arr_get_ok by lia. set (s := znth table c). assert (Hs : shift_ok P c s) by (by apply Htab).
  exists s. set (cur := curIndex w + s). pose proof (proj1 Hs) as Hs1. unfold BUFFER_SIZE. rewrite !Z.gtb_ltb.
  destruct (Z.ltb_spec 64 (cur + m)) as [Hre|Hno].
  - destruct (Z.eq_dec (textLen w) 64) as [Hl64|Hshort].
    + destruct (strcpy_down_ok (textBuffer w) cur (64 - cur)) as (b & -> & Hbl & Hlow & Hhigh); [lia|lia|lia| | |].
      { intros j Hj. rewrite Htx by lia. pose proof (text_char (off + (cur + j))). lia. }
      { by replace (cur + (64 - cur)) with 64 by lia. }
      unfold fread. replace (64 - (64 - cur)) with cur by lia.
      set (got := take (Z.to_nat cur) (inputStream w)).
      assert (Hgot : zlen got = Z.min cur (N - (off + 64))).
      { unfold got. rewrite Hrest, Hl64, zlen_ztake, zlen_zdrop by lia. lia. }
      assert (Hbuf' : forall j, 0 <= j -> znth (write_at b (64 - cur) got) j =
        if (64 - cur <=? j) && (j <? 64 - cur + zlen got) then znth got (j - (64 - cur)) else znth b j)
        by (intros j Hj; apply znth_write_at; lia).
      eexists. split; [done|]. cbn [globalIndex empty]. split; [done|]. split; [done|].
      rewrite He, orb_false_r. cbn [curIndex textLen globalIndex]. split; [rewrite Z.gtb_ltb; zcase; lia|].
      rewrite Z.gtb_ltb. intros Hne. apply Z.ltb_ge in Hne.
      split; cbn [textBuffer curIndex globalIndex textLen inputStream]; unfold BUFFER_SIZE; try lia.
      * rewrite zlen_write_at by lia. lia.
      * rewrite Hbuf' by lia. destruct (Z.leb_spec (64 - cur) 64); cbn [andb]; [|lia]. destruct (Z.ltb_spec 64 (64 - cur + zlen got)); [lia|].
        by rewrite Hhigh by lia.
      * intros j Hj. rewrite Hbuf' by lia. destruct (Z.leb_spec (64 - cur) j); cbn [andb].
        -- destruct (Z.ltb_spec j (64 - cur + zlen got)); [|lia]. unfold got. rewrite Hrest, znth_ztake, znth_zdrop by lia. f_equal. lia.
        -- rewrite Hlow, Htx by lia. f_equal. lia.
      * rewrite Hrest, drop_drop. destruct (Z.le_gt_cases cur (N - (off + 64))); [f_equal; lia|].
        rewrite !drop_ge by (unfold zlen in *; lia). done.
    + assert (Hnil : inputStream w = []) by (rewrite Hrest; apply drop_ge; unfold zlen in *; lia).
      destruct (strcpy_rest (textBuffer w) cur) as (b & ->); [done|done|change (BUFFER_SIZE / 2) with 32; unfold BUFFER_SIZE; lia|].
      rewrite Hnil. unfold fread. rewrite take_nil, drop_nil.
      eexists. split; [done|]. split; [done|]. cbn [globalIndex empty curIndex textLen]. change (zlen (@nil Z)) with 0.
      rewrite He, orb_false_r, Z.gtb_ltb. split; [done|]. split; [zcase; lia|]. intros Hne. apply Z.ltb_ge in Hne. lia.
  - eexists. split; [done|]. split; [done|]. cbn [globalIndex empty curIndex textLen]. rewrite He, orb_false_r, Z.gtb_ltb.
    split; [done|]. split; [zcase; lia|]. intros Hne. apply Z.ltb_ge in Hne.
    split; cbn [textBuffer curIndex globalIndex textLen inputStream]; unfold BUFFER_SIZE;
      replace (globalIndex w + s - cur) with off by lia; auto; try lia. intros j Hj. apply Htx. lia.
Qed.

Lemma bm_search_loop table : Forall (fun c => 0 <= c <= UCHAR_MAX) P ->
  zlen table = UCHAR_MAX + 1 -> (forall c, 0 <= c <= UCHAR_MAX -> shift_ok P c (znth table c)) ->
  forall (fuel : nat) w, 0 <= globalIndex w -> empty w = (N <? globalIndex w + m) -> (empty w = false -> window_ok w) ->
    N - globalIndex w < Z.of_nat fuel ->
    exists A, search_loop fuel w (mkState P m table) = Ok (flat_map (compared_back (Z.to_nat m)) A) /\ tries (globalIndex w) A.
Proof.
  intros HP Htl Htab. induction fuel as [|fuel IH]; intros w Hg He Hw Hf; cbn [search_loop]; destruct (empty w) eqn:Ee; symmetry in He.
  1, 3: apply Z.ltb_lt in He; exists []; split; [done|]; split; [constructor|constructor|intros b Hb (_ & ? & _); lia].
  1: apply Z.ltb_ge in He; lia.
  apply Z.ltb_ge in He. specialize (Hw eq_refl). unfold isMatch. cbn [substrLen].
  destruct (bm_match_loop w table Hw He (Z.to_nat m)) as (r & ->); [lia|].
  destruct (bm_moveForward w table) as (s & w' & -> & Hs & Hg' & He' & Hw'); [done..|]. pose proof (proj1 Hs) as Hs1.
  destruct (IH w') as (A & -> & [Hr Hso Hco]); [lia|done|done|lia|].
  exists (globalIndex w :: A). split; [done|]. rewrite Hg' in *. split.
  - constructor; [lia|]. eapply Forall_impl; [exact Hr|]. cbn. lia.
  - constructor; [done|]. eapply Forall_impl; [exact Hr|]. cbn. lia.
  - intros b Hb Hocc. destruct (Z.eq_dec b (globalIndex w)) as [->|]; [by left|]. right.
    apply Hco; [|done]. destruct (Z.le_gt_cases (globalIndex w + s) b); [done|].
    destruct (bad_char_skips (globalIndex w) s Hg He Hs b); [lia|done].
Qed.

Lemma bm_findSubstring_ok (buffer : list Z) : Forall (fun c => 0 < c <= UCHAR_MAX) P ->
  zlen buffer = BUFFER_SIZE + 1 -> znth buffer BUFFER_SIZE = 0 -> m <= N \/ N = 0 ->
  exists A, findSubstring buffer T P = Ok (flat_map (compared_back (Z.to_nat m)) A) /\ tries 0 A.
Proof.
  intros HP Hb Hz HN. unfold findSubstring, initSearchState. unfold SUBSTRING_MAX_SIZE in *. rewrite strlen_zlen by (eapply Forall_impl; [done|]; cbn; lia).
  replace (take (Z.to_nat m) P) with P by (symmetry; apply take_ge; unfold zlen; lia).
  assert (HP0 : Forall (fun c => 0 <= c <= UCHAR_MAX) P) by (eapply Forall_impl; [done|]; cbn; lia).
  destruct (initShiftTable_spec P) as (table & -> & Htl & Htab); [lia|done|].
  unfold initSearchWindow, fread. unfold BUFFER_SIZE in *. set (w := mkWindow _ _ _ _ _ _).
  assert (Hg : zlen (take (Z.to_nat 64) T) = Z.min 64 N) by (by rewrite zlen_ztake by lia). pose proof (zlen_nonneg T).
  apply (bm_search_loop table HP0 Htl Htab _ w); unfold w; cbn [globalIndex empty]; rewrite ?Hg, ?Z.gtb_ltb; [lia| | |unfold zlen; lia].
  - destruct (Z.ltb_spec 0 (Z.min 64 N)), (Z.ltb_spec N (0 + m)); cbn; lia || done.
  - intros Hne. destruct (Z.ltb_spec 0 (Z.min 64 N)); [|done].
    split; cbn [textBuffer curIndex globalIndex textLen inputStream]; unfold BUFFER_SIZE; rewrite ?Hg; try lia.
    + rewrite zlen_write_at by lia. lia.
    + rewrite znth_write_at by lia. zcase; try lia; done.
    + intros j Hj. rewrite znth_write_at by lia. zcase; try lia. rewrite znth_ztake by lia. f_equal. lia.
    + destruct (Z.le_gt_cases 64 N); [f_equal; lia|]. rewrite !drop_ge by (unfold zlen in *; lia). done.
Qed.
End Search.

(** Boyer-Moore misses no occurrence: for a pattern of 1 to 16 characters and a
    text that is empty or no shorter, without 0 characters, the search ends and prints,
    for an increasing list of positions of the text that includes every occurrence of
    the pattern, the positions compared there from the last character back to the
    first difference (the 65th character of the buffer, which the code leaves as
    [malloc] gave it, has to be 0). *)
Theorem boyer_moore_finds_all (P T buffer : list Z) :
  0 < zlen P <= SUBSTRING_MAX_SIZE -> Forall (fun c => 0 < c <= UCHAR_MAX) P -> Forall (fun c => 0 < c <= UCHAR_MAX) T ->
  zlen buffer = BUFFER_SIZE + 1 -> znth buffer BUFFER_SIZE = 0 -> zlen P <= zlen T \/ zlen T = 0 ->
  exists A, findSubstring buffer T P = Ok (flat_map (compared_back P T (Z.to_nat (zlen P))) A) /\ tries P T 0 A.
Proof. intros. by apply bm_findSubstring_ok. Qed.

Lemma boyer_moore_finds_all_witness :
  exists A, findSubstring (replicate 65 0) [97; 98; 97; 98; 97] [97; 98; 97] =
    Ok (flat_map (compared_back [97; 98; 97] [97; 98; 97; 98; 97] 3) A) /\ tries [97; 98; 97] [97; 98; 97; 98; 97] 0 A.
Proof.
  apply (boyer_moore_finds_all [97; 98; 97] [97; 98; 97; 98; 97] (replicate 65 0));
    [done|repeat (constructor; [done|]); constructor..|done|done|left; done].
Defined.
