(* ===== verification/Threads.v ===== *)
(** * Threads that interleave

    A configuration is what the threads share and the list of the threads' own
    states; a step is one access to the shared state by one thread.  Executions are
    the reflexive and transitive closure of the steps.  The other half of the file
    counts threads: sums over the list, and how they change when one thread moves. *)
From stdpp Require Export relations.
From S2P Require Import Prelude.

Section Threads.
Context {Config Action : Type} (exec : Config -> nat * Action -> option Config).

(** Thread [fst a] takes the step [a]. *)
Definition step (c c' : Config) : Prop := exists a, exec c a = Some c'.

(** A schedule: who moves, and how. *)
Fixpoint run (sched : list (nat * Action)) (c : Config) : option Config :=
  match sched with
  | [] => Some c
  | a :: sched => match exec c a with Some c' => run sched c' | None => None end
  end.

Lemma run_steps sched : forall c c', run sched c = Some c' -> rtc step c c'.
Proof.
  induction sched as [|a sched IH]; cbn [run]; intros c c' H; [by injection H as ->|].
  destruct (exec c a) as [c1|] eqn:E; [|done]. apply rtc_l with c1; [by exists a|]. by apply IH.
Qed.

(** What every step keeps, every execution keeps. *)
Lemma steps_keep (I : Config -> Prop) : (forall c c', I c -> step c c' -> I c') ->
  forall c c', I c -> rtc step c c' -> I c'.
Proof. intros Hstep c c' Hc Hr. induction Hr; eauto. Qed.

(** A configuration from which a measure can be brought down as long as the threads
    are not done is one from which they can be brought to the end. *)
Lemma steps_finish (I done : Config -> Prop) (measure : Config -> Z) :
  (forall c, Decision (done c)) -> (forall c, I c -> 0 <= measure c) -> (forall c c', I c -> step c c' -> I c') ->
  (forall c, I c -> ~ done c -> exists c', step c c' /\ measure c' < measure c) ->
  forall c, I c -> exists c', rtc step c c' /\ done c' /\ I c'.
Proof.
  intros Hdec Hpos Hkeep Hprog c. remember (Z.to_nat (measure c)) as n eqn:En. revert c En.
  induction n as [n IH] using lt_wf_ind. intros c -> Hc. destruct (Hdec c) as [Hd|Hnd]; [by exists c|].
  destruct (Hprog c Hc Hnd) as (c1 & Hs & Hlt). pose proof (Hkeep c c1 Hc Hs) as Hc1. pose proof (Hpos c1 Hc1).
  destruct (IH (Z.to_nat (measure c1)) ltac:(lia) c1 eq_refl Hc1) as (c' & Hr & Hd & Hc'). exists c'.
  split; [|done]. by apply rtc_l with c1.
Qed.
End Threads.

Section Sums.
Context {L : Type}.
Implicit Types (l : list L) (f : L -> Z) (p : L -> bool).

Fixpoint sum_of f l : Z :=
  match l with
  | [] => 0
  | t :: l => f t + sum_of f l
  end.

Definition count_of p l : Z := sum_of (fun t => Z.b2z (p t)) l.

Lemma sum_of_app f l l' : sum_of f (l ++ l') = sum_of f l + sum_of f l'.
Proof. induction l as [|t l IH]; cbn [app sum_of]; [lia|]. lia. Qed.

Lemma sum_of_insert f l i t t' : l !! i = Some t -> sum_of f (<[i := t']> l) = sum_of f l - f t + f t'.
Proof.
  intros Hi. rewrite <- (take_drop_middle l i t Hi) at 2.
  rewrite insert_take_drop by (by eapply lookup_lt_Some). rewrite !sum_of_app. cbn [sum_of]. lia.
Qed.

Lemma count_of_insert p l i t t' :
  l !! i = Some t -> count_of p (<[i := t']> l) = count_of p l - Z.b2z (p t) + Z.b2z (p t').
Proof. apply (sum_of_insert (fun t => Z.b2z (p t))). Qed.

Lemma sum_of_nonneg f l : (forall t, t ∈ l -> 0 <= f t) -> 0 <= sum_of f l.
Proof.
  induction l as [|t l IH]; intros Hf; cbn [sum_of]; [lia|].
  assert (0 <= f t) by (apply Hf; by left). assert (0 <= sum_of f l) by (apply IH; intros; apply Hf; by right). lia.
Qed.

Lemma count_of_nonneg p l : 0 <= count_of p l.
Proof. apply sum_of_nonneg. intros t _. destruct (p t); cbn; lia. Qed.

Lemma sum_of_const f l (k : Z) : (forall t, t ∈ l -> f t = k) -> sum_of f l = k * zlen l.
Proof.
  induction l as [|t l IH]; intros Hf; cbn [sum_of]; [change (zlen (@nil L)) with 0; lia|].
  rewrite (Hf t) by (by left). rewrite IH by (intros; apply Hf; by right). rewrite zlen_cons. lia.
Qed.

Lemma count_of_pos p l i t : l !! i = Some t -> p t = true -> 0 < count_of p l.
Proof.
  intros Hi Hp. rewrite <- (take_drop_middle l i t Hi). unfold count_of. rewrite sum_of_app. cbn [sum_of].
  rewrite Hp. cbn [Z.b2z].
  pose proof (count_of_nonneg p (take i l)). pose proof (count_of_nonneg p (drop (S i) l)). unfold count_of in *. lia.
Qed.

Lemma count_of_ex p l : 0 < count_of p l -> exists i t, l !! i = Some t /\ p t = true.
Proof.
  induction l as [|t l IH]; unfold count_of; cbn [sum_of]; [lia|]. fold (sum_of (fun t => Z.b2z (p t)) l).
  destruct (p t) eqn:Ep; [intros _; by exists 0%nat, t|]. cbn [Z.b2z]. intros H.
  destruct IH as (i & u & Hi & Hu); [unfold count_of; lia|]. by exists (S i), u.
Qed.

(** Two threads out of at most one are the same. *)
Lemma count_of_unique p l i j t u :
  count_of p l <= 1 -> l !! i = Some t -> p t = true -> l !! j = Some u -> p u = true -> i = j.
Proof.
  intros Hc Hi Ht Hj Hu. destruct (decide (i = j)) as [|Hne]; [done|exfalso].
  rewrite <- (take_drop_middle l i t Hi) in Hc, Hj. unfold count_of in Hc. rewrite sum_of_app in Hc. cbn [sum_of] in Hc.
  rewrite Ht in Hc. cbn [Z.b2z] in Hc.
  pose proof (count_of_nonneg p (take i l)) as H1. pose proof (count_of_nonneg p (drop (S i) l)) as H2. unfold count_of in H1, H2.
  assert (Hlt : (i < length l)%nat) by (by eapply lookup_lt_Some).
  destruct (Nat.lt_ge_cases j i).
  - rewrite lookup_app_l in Hj by (rewrite length_take; lia). pose proof (count_of_pos p _ _ _ Hj Hu). unfold count_of in *. lia.
  - rewrite lookup_app_r in Hj by (rewrite length_take; lia). rewrite length_take in Hj.
    replace (j - i `min` length l)%nat with (S (j - i - 1)) in Hj by lia. cbn in Hj.
    pose proof (count_of_pos p _ _ _ Hj Hu). unfold count_of in *. lia.
Qed.
End Sums.
