(* ===== verification/MyLock.v ===== *)
(** * OS-Labs/10.2-mylock: a futex mutex, a spin lock, and threads that count with them

    [mymutex.c] and [myspinlock.c] as the steps of a thread inside [lock] and
    [unlock]; [tst-locks.c]: its adders, in any number and interleaved at every access
    to the lock word and to [g_sum] ([g_sum += 1] is a load and a store).  The kernel's
    part of the futex is: [FUTEX_WAIT] puts the thread to sleep if the word still is
    [LOCKED] and returns [EAGAIN] otherwise, [FUTEX_WAKE] of 1 wakes one sleeping
    thread, whichever, if there is one; a sleeping thread may also wake for no reason,
    and the weak compare-and-exchange may fail for none.  No signal is delivered, so
    the calls of [abort] are not reached.

    The adders are verified against an interface of locks, the class [LockLaws], which
    both locks implement.  The unsynchronised adder is a data race in C; it is modelled
    as what its loads and stores do. *)
From S2P Require Import Threads Prelude.

(** ** The locks *)

Definition LOCKED : Z := 1.
Definition UNLOCKED : Z := 0.

(** Where a thread is inside [lock]: about to compare and exchange, about to call
    [FUTEX_WAIT], asleep in it. *)
Inductive lock_pc := TryCas | CallWait | Asleep.

(** Inside [unlock]: about to store, about to call [FUTEX_WAKE]. *)
Inductive unlock_pc := StoreUnlocked | CallWake.

(** Whether the exchange succeeds, and the word after; [glitch] is a failure without
    a reason. *)
Definition compare_exchange_weak (glitch : bool) (word : Z) : bool * Z :=
  if negb glitch && (word =? UNLOCKED) then (true, LOCKED) else (false, word).

Definition mymutex_init : Z := UNLOCKED.

(** A step inside [mymutex_lock]: the word after it and where the thread is then,
    [None] when the call returns; a sleeping thread has no step of its own. *)
Definition mymutex_lock (glitch : bool) (p : lock_pc) (word : Z) : option (Z * option lock_pc) :=
  match p with
  | TryCas => let '(ok, word') := compare_exchange_weak glitch word in Some (word', if ok then None else Some CallWait)
  | CallWait => if word =? LOCKED then Some (word, Some Asleep) else Some (word, Some TryCas)
  | Asleep => if glitch then Some (word, Some TryCas) else None
  end.

(** A step inside [mymutex_unlock]: the word, where the thread is then, and whether
    the step wakes a thread. *)
Definition mymutex_unlock (p : unlock_pc) (word : Z) : Z * option unlock_pc * bool :=
  match p with
  | StoreUnlocked => (UNLOCKED, Some CallWake, false)
  | CallWake => (word, None, true)
  end.

Definition myspinlock_init : Z := UNLOCKED.

Definition myspinlock_lock (glitch : bool) (p : lock_pc) (word : Z) : option (Z * option lock_pc) :=
  match p with
  | TryCas => let '(ok, word') := compare_exchange_weak glitch word in Some (word', if ok then None else Some TryCas)
  | _ => None
  end.

Definition myspinlock_unlock (p : unlock_pc) (word : Z) : Z * option unlock_pc * bool := (UNLOCKED, None, false).

(** ** The interface of a lock *)

Record Lock := mkLock {
  lock_init : Z;
  lock_step : bool -> lock_pc -> Z -> option (Z * option lock_pc);
  unlock_step : unlock_pc -> Z -> Z * option unlock_pc * bool
}.

Definition mymutex : Lock := mkLock mymutex_init mymutex_lock mymutex_unlock.
Definition myspinlock : Lock := mkLock myspinlock_init myspinlock_lock myspinlock_unlock.

(** What the client of a lock relies on: [lock] returns by taking the free word and
    leaves it alone otherwise, a thread sleeps only on a taken word, [unlock] frees the
    word and then, if threads can sleep, wakes one. *)
Class LockLaws (lk : Lock) := {
  sleeps : bool;
  law_init : lock_init lk = UNLOCKED;
  law_acquire g p w w' : lock_step lk g p w = Some (w', None) -> w = UNLOCKED /\ w' = LOCKED;
  law_wait g p w w' p' : lock_step lk g p w = Some (w', Some p') ->
    w' = w /\ (p' = TryCas \/ sleeps = true /\ (p' = CallWait \/ p' = Asleep /\ w = LOCKED));
  law_free_cas : lock_step lk false TryCas UNLOCKED = Some (LOCKED, None);
  law_free_wait : sleeps = true -> lock_step lk false CallWait UNLOCKED = Some (UNLOCKED, Some TryCas);
  law_release w : unlock_step lk StoreUnlocked w = (UNLOCKED, if sleeps then Some CallWake else None, false);
  law_wake w : sleeps = true -> unlock_step lk CallWake w = (w, None, true)
}.

#[global] Instance mymutex_laws : LockLaws mymutex.
Proof.
  refine {| sleeps := true |}; cbn; try done.
  - intros [] [] w w'; cbn; unfold compare_exchange_weak; cbn; repeat case_match; intros; simplify_eq; split; lia.
  - intros [] [] w w' p'; cbn; unfold compare_exchange_weak; cbn; repeat case_match; intros; simplify_eq; split; auto;
      right; (split; [done|]); (by left) || (right; split; [done|lia]).
Defined.

#[global] Instance myspinlock_laws : LockLaws myspinlock.
Proof.
  refine {| sleeps := false |}; cbn; try done.
  - intros [] [] w w'; cbn; unfold compare_exchange_weak; cbn; repeat case_match; intros; simplify_eq; split; lia.
  - intros [] [] w w' p'; cbn; unfold compare_exchange_weak; cbn; repeat case_match; intros; simplify_eq; auto.
Defined.

(** ** The adders *)

Definition NUM_THREADS : Z := 4.
Definition TARGET_SUM : Z := 10000000.

(** Where an adder is: at the test of the loop, inside [lock], about to read [g_sum],
    about to write the successor of what it read, inside [unlock], returned. *)
Inductive pc := AtTest | InLock (p : lock_pc) | AtLoad | AtStore (v : Z) | InUnlock (p : unlock_pc) | Returned.

Record thread := mkThread { t_pc : pc; t_i : Z }.

Record shared := mkShared { word : Z; g_sum : Z }.

(** A step of an adder with [count] rounds: the shared state, its own, and whether a
    thread is woken. *)
Definition adder := Z -> bool -> shared -> thread -> option (shared * thread * bool).

Definition adder_no_locking : adder := fun count glitch s t =>
  match t_pc t with
  | AtTest => Some (s, mkThread (if t_i t <? count then AtLoad else Returned) (t_i t), false)
  | AtLoad => Some (s, mkThread (AtStore (g_sum s)) (t_i t), false)
  | AtStore v => Some (mkShared (word s) (u64 (v + 1)), mkThread AtTest (u64 (t_i t + 1)), false)
  | _ => None
  end.

Definition adder_locked (lk : Lock) : adder := fun count glitch s t =>
  match t_pc t with
  | AtTest => Some (s, mkThread (if t_i t <? count then InLock TryCas else Returned) (t_i t), false)
  | InLock p =>
      match lock_step lk glitch p (word s) with
      | Some (w, Some p') => Some (mkShared w (g_sum s), mkThread (InLock p') (t_i t), false)
      | Some (w, None) => Some (mkShared w (g_sum s), mkThread AtLoad (t_i t), false)
      | None => None
      end
  | AtLoad => Some (s, mkThread (AtStore (g_sum s)) (t_i t), false)
  | AtStore v => Some (mkShared (word s) (u64 (v + 1)), mkThread (InUnlock StoreUnlocked) (t_i t), false)
  | InUnlock p =>
      match unlock_step lk p (word s) with
      | (w, Some p', wakes) => Some (mkShared w (g_sum s), mkThread (InUnlock p') (t_i t), wakes)
      | (w, None, wakes) => Some (mkShared w (g_sum s), mkThread AtTest (u64 (t_i t + 1)), wakes)
      end
  | Returned => None
  end.

Definition adder_mymutex : adder := adder_locked mymutex.
Definition adder_myspinlock : adder := adder_locked myspinlock.

(** ** The program *)

Record config := mkConfig { sh : shared; threads : list thread }.

(** [glitch]: an exchange fails or a sleeper wakes for no reason; [chosen]: whom
    [FUTEX_WAKE] wakes. *)
Record action := mkAction { glitch : bool; chosen : nat }.

Definition asleep (t : thread) : bool := match t_pc t with InLock Asleep => true | _ => false end.

Definition futex_wake (j : nat) (ts : list thread) : option (list thread) :=
  if existsb asleep ts then
    match ts !! j with
    | Some t => if asleep t then Some (<[j := mkThread (InLock TryCas) (t_i t)]> ts) else None
    | None => None
    end
  else Some ts.

Definition exec (routine : adder) (count : Z) (c : config) (a : nat * action) : option config :=
  match threads c !! a.1 with
  | None => None
  | Some t =>
      match routine count (glitch a.2) (sh c) t with
      | None => None
      | Some (s, t', wakes) =>
          let ts := <[a.1 := t']> (threads c) in
          if wakes then match futex_wake (chosen a.2) ts with Some ts => Some (mkConfig s ts) | None => None end
          else Some (mkConfig s ts)
      end
  end.

Definition start (w n : Z) : config := mkConfig (mkShared w 0) (replicate (Z.to_nat n) (mkThread AtTest 0)).

Definition returned (t : thread) : bool := match t_pc t with Returned => true | _ => false end.

(** All threads are joined. *)
Definition finished (c : config) : Prop := Forall (fun t => returned t = true) (threads c).

#[global] Instance finished_dec c : Decision (finished c).
Proof. unfold finished. apply _. Defined.

(** [run_adders] can print [sum]. *)
Definition run_adders (routine : adder) (w : Z) (sum : Z) : Prop :=
  exists c, rtc (step (exec routine (TARGET_SUM / NUM_THREADS))) (start w NUM_THREADS) c /\ finished c /\ g_sum (sh c) = sum.

(** ** The invariant of the adders that lock *)

Definition holds (t : thread) : bool :=
  match t_pc t with AtLoad | AtStore _ | InUnlock StoreUnlocked => true | _ => false end.

(** Awake and on its way to the lock, or about to wake someone. *)
Definition contends (t : thread) : bool :=
  match t_pc t with InLock TryCas | InLock CallWait | InUnlock CallWake => true | _ => false end.

(** The increments a thread has made. *)
Definition rounds (t : thread) : Z := t_i t + match t_pc t with InUnlock _ => 1 | _ => 0 end.

Section Adders.
Context (lk : Lock) `{!LockLaws lk} (n count : Z).
Hypothesis Hn : 0 <= n.
Hypothesis Hcount : 0 <= count.
Hypothesis Hsmall : n * count < 2 ^ 64.

Definition fits (g : Z) (t : thread) : Prop :=
  0 <= t_i t /\
  match t_pc t with
  | AtTest => t_i t <= count
  | InLock p => t_i t < count /\ (p <> TryCas -> sleeps = true)
  | AtLoad => t_i t < count
  | AtStore v => t_i t < count /\ v = g
  | InUnlock p => t_i t < count /\ (p = CallWake -> sleeps = true)
  | Returned => t_i t = count
  end.

Record locked_inv (c : config) : Prop := {
  inv_threads : zlen (threads c) = n;
  inv_fits t : t ∈ threads c -> fits (g_sum (sh c)) t;
  inv_word : word (sh c) = count_of holds (threads c);
  inv_bit : word (sh c) <= 1;
  inv_sum : g_sum (sh c) = sum_of rounds (threads c)
}.

(** No wake-up is lost: who sleeps does so because the lock is taken, or someone
    awake is still to try it. *)
Definition wake_inv (c : config) : Prop :=
  0 < count_of asleep (threads c) -> word (sh c) = LOCKED \/ 0 < count_of contends (threads c).

Lemma rounds_range g t : fits g t -> 0 <= rounds t <= count.
Proof. unfold fits, rounds. destruct (t_pc t); lia. Qed.

Lemma sum_of_le {L} (f : L -> Z) (l : list L) (k : Z) : (forall t, t ∈ l -> f t <= k) -> sum_of f l <= k * zlen l.
Proof.
  induction l as [|t l IH]; intros Hf; cbn [sum_of]; [change (zlen (@nil L)) with 0; lia|]. rewrite zlen_cons.
  assert (f t <= k) by (apply Hf; by left). assert (sum_of f l <= k * zlen l) by (apply IH; intros; apply Hf; by right). lia.
Qed.

Lemma adders_small c : locked_inv c -> 0 <= g_sum (sh c) <= n * count.
Proof.
  intros [Hl Hf _ _ Hs]. rewrite Hs. split.
  - apply sum_of_nonneg. intros t Ht. by destruct (rounds_range _ _ (Hf t Ht)).
  - rewrite <- Hl, Z.mul_comm. apply sum_of_le. intros t Ht. by destruct (rounds_range _ _ (Hf t Ht)).
Qed.

(** What a move of thread [i] has to keep. *)
Lemma inv_move s ts i t s' t' :
  locked_inv (mkConfig s ts) -> ts !! i = Some t -> fits (g_sum s') t' ->
  word s' = word s - Z.b2z (holds t) + Z.b2z (holds t') -> word s' <= 1 ->
  g_sum s' = g_sum s - rounds t + rounds t' -> g_sum s' = g_sum s \/ holds t = true ->
  locked_inv (mkConfig s' (<[i := t']> ts)).
Proof.
  intros [Hl Hf Hw Hb Hs] Hi Ht' Hw' Hb' Hg Hor. cbn [sh threads] in *. split; cbn [sh threads].
  - unfold zlen. by rewrite length_insert.
  - intros u Hu. apply list_elem_of_lookup in Hu as (j & Hj).
    destruct (decide (j = i)) as [->|Hne]; [rewrite list_lookup_insert_eq in Hj by (by eapply lookup_lt_Some); by simplify_eq|].
    rewrite list_lookup_insert_ne in Hj by done. pose proof (Hf u ltac:(by eapply list_elem_of_lookup_2)) as Hfu.
    destruct Hor as [->|Ht]; [done|]. destruct (holds u) eqn:Hu.
    + destruct Hne. apply (count_of_unique holds ts j i u t); congruence || lia.
    + unfold fits, holds in *. by destruct (t_pc u).
  - rewrite (count_of_insert holds ts i t t' Hi). lia.
  - done.
  - rewrite (sum_of_insert rounds ts i t t' Hi). lia.
Qed.

Lemma wake_move s ts i t s' t' : wake_inv (mkConfig s ts) -> ts !! i = Some t ->
  (asleep t' = true -> word s' = LOCKED) ->
  (0 < count_of asleep ts -> word s = LOCKED \/ 0 < count_of contends ts ->
     word s' = LOCKED \/ contends t' = true \/ word s' = word s /\ contends t = false) ->
  wake_inv (mkConfig s' (<[i := t']> ts)).
Proof.
  unfold wake_inv. cbn [sh threads]. intros Hinv Hi Hsl Hkeep.
  rewrite (count_of_insert asleep ts i t t' Hi), (count_of_insert contends ts i t t' Hi). intros Hpos.
  destruct (asleep t') eqn:Ea; [left; auto|]. assert (Hs : 0 < count_of asleep ts) by (destruct (asleep t); cbn in Hpos; lia).
  pose proof (count_of_nonneg contends (<[i := t']> ts)) as Hn0. rewrite (count_of_insert contends ts i t t' Hi) in Hn0.
  destruct (Hkeep Hs (Hinv Hs)) as [?|[Hc|[-> Hc]]]; [by left| |].
  - right. rewrite Hc in *. cbn [Z.b2z] in *.
    assert (Z.b2z (contends t) <= count_of contends ts); [|destruct (contends t); cbn in *; lia].
    destruct (contends t) eqn:Ec; cbn; [pose proof (count_of_pos contends ts i t Hi Ec); lia|apply count_of_nonneg].
  - destruct (Hinv Hs) as [?|Hp]; [by left|right]. rewrite Hc. cbn. destruct (contends t'); cbn; lia.
Qed.

Lemma futex_wake_keeps s ts j ts' : locked_inv (mkConfig s ts) -> futex_wake j ts = Some ts' ->
  locked_inv (mkConfig s ts') /\ wake_inv (mkConfig s ts').
Proof.
  intros Hinv. unfold futex_wake. destruct (existsb asleep ts) eqn:Ex.
  - destruct (ts !! j) as [t|] eqn:Ej; [|done]. destruct (asleep t) eqn:Ea; [|done]. intros [= <-].
    pose proof (inv_fits _ Hinv t ltac:(by eapply list_elem_of_lookup_2)) as Hf.
    assert (Hp : t_pc t = InLock Asleep) by (unfold asleep in Ea; by destruct (t_pc t) as [|[]| | | |]).
    split.
    + apply (inv_move s ts j t); [done|done| | | | |by left].
      * unfold fits in *. rewrite Hp in Hf. cbn. split; [tauto|]. split; [tauto|done].
      * unfold holds. rewrite Hp. cbn. lia.
      * apply (inv_bit _ Hinv).
      * unfold rounds. rewrite Hp. cbn. lia.
    + intros _. right. apply (count_of_pos _ _ j (mkThread (InLock TryCas) (t_i t))); [|done].
      apply list_lookup_insert_eq. by eapply lookup_lt_Some.
  - intros [= <-]. split; [done|]. intros Hpos. cbn in Hpos. destruct (count_of_ex asleep ts Hpos) as (i & t & Hi & Ht).
    assert (Hex : existsb asleep ts = true); [|congruence]. apply existsb_exists. exists t. split; [|done].
    by apply list_elem_of_In, (list_elem_of_lookup_2 _ i).
Qed.

Ltac bits := unfold fits, holds, contends, asleep, rounds in *; cbn [t_pc t_i Z.b2z sh threads word g_sum] in *.
Ltac fit := bits; intuition (lia || congruence).

Lemma locked_step c c' : locked_inv c -> wake_inv c -> step (exec (adder_locked lk) count) c c' ->
  locked_inv c' /\ wake_inv c'.
Proof.
  destruct c as [s ts]. intros Hinv Hwk ([i a] & He). unfold exec in He. cbn [fst snd sh threads] in He.
  destruct (ts !! i) as [[p k]|] eqn:Hi; [|done].
  pose proof (inv_fits _ Hinv _ ltac:(by eapply list_elem_of_lookup_2)) as Hf. pose proof (adders_small _ Hinv) as Hg.
  pose proof (inv_bit _ Hinv) as Hb. pose proof (inv_word _ Hinv) as Hw. cbn [sh threads] in *.
  assert (Hc64 : k < count -> count < 2 ^ 64).
  { pose proof (inv_threads _ Hinv) as Hl. cbn in Hl. apply lookup_lt_Some in Hi. unfold zlen in Hl. nia. }
  assert (Hu : k < count -> 0 <= k -> u64 (k + 1) = k + 1) by (intros; apply u64_small; lia).
  unfold adder_locked in He. cbn [t_pc t_i] in He. destruct p as [|p| |v|p|]; [| | | | |done].
  - destruct (Z.ltb_spec k count); simplify_eq;
      (split; [eapply inv_move; [done|done|fit|bits; lia|done|bits; lia|by left]|
               eapply wake_move; [done|done|done|bits; auto]]).
  - destruct (lock_step lk (glitch a) p (word s)) as [[w [p'|]]|] eqn:El; simplify_eq.
    + apply law_wait in El as [-> Hp']. split.
      * eapply inv_move; [done|done|fit|bits; lia|done|bits; lia|by left].
      * eapply wake_move; [done|done| |]; bits; intuition (subst; auto; try congruence); destruct p; auto.
    + apply law_acquire in El as [E ->]. split.
      * eapply inv_move; [done|done|fit|bits; rewrite E; done|done|bits; lia|by left].
      * eapply wake_move; [done|done|done|auto].
  - simplify_eq. split; [eapply inv_move; [done|done|fit|bits; lia|done|bits; lia|by left]|].
    eapply wake_move; [done|done|done|bits; auto].
  - simplify_eq. destruct Hf as [Hk [Hk' ->]]. cbn in Hk, Hk'.
    assert (Hlt : g_sum s < n * count).
    { pose proof (inv_threads _ Hinv) as Hl. pose proof (inv_sum _ Hinv) as Hs. cbn in Hl, Hs.
      assert (sum_of rounds (<[i := mkThread Returned count]> ts) <= count * zlen (<[i := mkThread Returned count]> ts)).
      { apply sum_of_le. intros u Hu'. apply list_elem_of_lookup in Hu' as (j & Hj). destruct (decide (j = i)) as [->|Hne].
        - rewrite list_lookup_insert_eq in Hj by (by eapply lookup_lt_Some). simplify_eq. unfold rounds. cbn. lia.
        - rewrite list_lookup_insert_ne in Hj by done. eapply rounds_range, (inv_fits _ Hinv), list_elem_of_lookup_2, Hj. }
      rewrite (sum_of_insert rounds ts i _ _ Hi) in H. unfold zlen in *. rewrite length_insert in H.
      unfold rounds in H at 2 3. cbn in H. lia. }
    rewrite u64_small by lia.
    split; [eapply inv_move; [done|done|fit|bits; lia|done|bits; lia|by right]|].
    eapply wake_move; [done|done|done|bits; auto].
  - destruct p.
    + rewrite law_release in He. assert (Hpos : 0 < count_of holds ts) by (by eapply count_of_pos).
      destruct sleeps eqn:Es; simplify_eq.
      * split; [eapply inv_move; [done|done|fit|bits; unfold UNLOCKED; lia|bits; unfold UNLOCKED; lia|bits; lia|by left]|].
        eapply wake_move; [done|done|done|bits; auto].
      * split; [eapply inv_move; [done|done|bits; rewrite Hu; fit|bits; unfold UNLOCKED; lia|bits; unfold UNLOCKED; lia|bits; rewrite Hu; lia|by left]|].
        intros Hs. apply count_of_ex in Hs as (j & u & Hj & Hau). exfalso. destruct (decide (j = i)) as [->|Hne].
        -- cbn in Hj. rewrite list_lookup_insert_eq in Hj by (by eapply lookup_lt_Some). by simplify_eq.
        -- cbn in Hj. rewrite list_lookup_insert_ne in Hj by done.
           pose proof (inv_fits _ Hinv u ltac:(by eapply list_elem_of_lookup_2)) as Hfu. unfold fits, asleep in *.
           destruct (t_pc u) as [|[]| | | |]; try done. destruct Hfu as (_ & _ & Hx). rewrite Es in Hx. by specialize (Hx ltac:(done)).
    + destruct Hf as (Hk & Hk' & Hsl). specialize (Hsl eq_refl). cbn in Hk, Hk'. rewrite law_wake in He by done.
      destruct (futex_wake _ _) as [ts'|] eqn:Ew; [|done]. simplify_eq. cbn [word g_sum] in *.
      eapply futex_wake_keeps; [|done]. destruct s. cbn in *.
      eapply inv_move; [done|done|bits; rewrite Hu; fit|bits; lia|done|bits; rewrite Hu; lia|by left].
Qed.

(** ** The adders can always finish *)

(** The steps a thread still needs, at most, when no step of it fails. *)
Definition weight (t : thread) : Z :=
  10 * (count - t_i t) +
  match t_pc t with
  | AtTest => 1
  | InLock Asleep => -2
  | InLock CallWait => -3
  | InLock TryCas => -4
  | AtLoad => -5
  | AtStore _ => -6
  | InUnlock StoreUnlocked => -7
  | InUnlock CallWake => -8
  | Returned => 0
  end.

Lemma thread_weight_nonneg g t : fits g t -> 0 <= weight t.
Proof. unfold fits, weight. destruct (t_pc t) as [|[]| | |[]|]; lia. Qed.

Lemma move_down s s' ts i t t' : ts !! i = Some t -> weight t' < weight t ->
  adder_locked lk count false s t = Some (s', t', false) ->
  exists c', step (exec (adder_locked lk) count) (mkConfig s ts) c' /\ sum_of weight (threads c') < sum_of weight ts.
Proof.
  intros Hi Hw He. exists (mkConfig s' (<[i := t']> ts)). split.
  - exists (i, mkAction false 0). unfold exec. cbn [fst snd threads sh glitch]. by rewrite Hi, He.
  - cbn [threads]. rewrite (sum_of_insert weight ts i t t' Hi). lia.
Qed.

Lemma wake_down s ts i k : locked_inv (mkConfig s ts) -> ts !! i = Some (mkThread (InUnlock CallWake) k) ->
  exists c', step (exec (adder_locked lk) count) (mkConfig s ts) c' /\ sum_of weight (threads c') < sum_of weight ts.
Proof.
  intros Hinv Hi. pose proof (inv_fits _ Hinv _ ltac:(by eapply list_elem_of_lookup_2)) as (Hk & Hk' & Hsl). cbn in Hk, Hk'.
  assert (Hc64 : count < 2 ^ 64).
  { pose proof (inv_threads _ Hinv) as Hl. cbn in Hl. apply lookup_lt_Some in Hi. unfold zlen in Hl. nia. }
  set (ts1 := <[i := mkThread AtTest (k + 1)]> ts).
  assert (Hts1 : sum_of weight ts1 < sum_of weight ts) by (unfold ts1; rewrite (sum_of_insert weight ts i _ _ Hi); unfold weight; cbn; lia).
  assert (Hex : exists j ts2, futex_wake j ts1 = Some ts2 /\ sum_of weight ts2 <= sum_of weight ts1).
  { unfold futex_wake. destruct (existsb asleep ts1) eqn:Ex; [|by exists 0%nat, ts1].
    apply existsb_exists in Ex as (t & Ht & Ha). apply list_elem_of_In, list_elem_of_lookup in Ht as (j & Hj).
    eexists j, _. rewrite Hj, Ha. split; [done|]. rewrite (sum_of_insert weight ts1 j _ _ Hj).
    unfold weight, asleep in *. destruct (t_pc t) as [|[]| | | |]; try done. cbn. lia. }
  destruct Hex as (j & ts2 & Hw & Hle). exists (mkConfig (mkShared (word s) (g_sum s)) ts2). split; [|cbn; lia].
  exists (i, mkAction false j). unfold exec, adder_locked. cbn [fst snd threads sh]. rewrite Hi. cbn [t_pc t_i].
  rewrite law_wake by auto. rewrite u64_small by lia. cbn [chosen]. fold ts1. by rewrite Hw.
Qed.

Lemma locked_progress c : locked_inv c -> wake_inv c -> ~ finished c ->
  exists c', step (exec (adder_locked lk) count) c c' /\ sum_of weight (threads c') < sum_of weight (threads c).
Proof.
  destruct c as [s ts]. intros Hinv Hwk Hnf. cbn [threads].
  pose proof (inv_bit _ Hinv) as Hb. pose proof (inv_word _ Hinv) as Hw. pose proof (count_of_nonneg holds ts). cbn [sh threads] in *.
  destruct (Z.eq_dec (word s) 0) as [Hfree|Htaken].
  - destruct (Z_lt_le_dec 0 (count_of contends ts)) as [Hc|Hnc].
    + apply count_of_ex in Hc as (i & [p k] & Hi & Hp).
      pose proof (inv_fits _ Hinv _ ltac:(by eapply list_elem_of_lookup_2)) as Hf.
      destruct p as [|[]| | |[]|]; try done; [| |by eapply wake_down].
      * eapply (move_down s _ ts i _ (mkThread AtLoad k)); [done|unfold weight; cbn; lia|]. unfold adder_locked. cbn [t_pc t_i].
        rewrite Hfree. change 0 with UNLOCKED. by rewrite law_free_cas.
      * eapply (move_down s _ ts i _ (mkThread (InLock TryCas) k)); [done|unfold weight; cbn; lia|]. unfold adder_locked. cbn [t_pc t_i].
        rewrite Hfree. change 0 with UNLOCKED. rewrite law_free_wait; [done|]. by apply Hf.
    + assert (Hna : count_of asleep ts <= 0).
      { destruct (Z_lt_le_dec 0 (count_of asleep ts)) as [Ha|]; [|done]. destruct (Hwk Ha) as [E|?]; cbn [sh threads] in *; [|lia].
        rewrite Hfree in E. discriminate E. }
      apply not_Forall_Exists in Hnf; [|apply _]. apply Exists_exists in Hnf as ([p k] & Ht & Hr). cbn in Ht.
      apply list_elem_of_lookup in Ht as (i & Hi).
      assert (Hno : forall q : thread -> bool, count_of q ts <= 0 -> q (mkThread p k) = false).
      { intros q Hq. destruct (q (mkThread p k)) eqn:Eq; [|done]. pose proof (count_of_pos q ts i _ Hi Eq). lia. }
      pose proof (Hno holds ltac:(lia)) as Hh. pose proof (Hno contends Hnc) as Hc. pose proof (Hno asleep Hna) as Ha.
      destruct p as [|[]| | |[]|]; try done; [|by destruct Hr].
      pose proof (inv_fits _ Hinv _ ltac:(by eapply list_elem_of_lookup_2)) as [_ Hk]. cbn in Hk.
      eapply (move_down s s ts i _ (mkThread (if k <? count then InLock TryCas else Returned) k)); [done| |done].
      unfold weight. cbn [t_pc t_i]. destruct (k <? count); lia.
  - assert (Hpos : 0 < count_of holds ts) by lia. apply count_of_ex in Hpos as (i & [p k] & Hi & Hp).
    destruct p as [|[]| |v|[]|]; try done.
    + eapply (move_down s _ ts i _ (mkThread (AtStore (g_sum s)) k)); [done|unfold weight; cbn; lia|done].
    + eapply (move_down s _ ts i _ (mkThread (InUnlock StoreUnlocked) k)); [done|unfold weight; cbn; lia|done].
    + pose proof (inv_fits _ Hinv _ ltac:(by eapply list_elem_of_lookup_2)) as (Hk & Hk' & _). cbn in Hk, Hk'.
      assert (Hc64 : count < 2 ^ 64).
      { pose proof (inv_threads _ Hinv) as Hl. cbn in Hl. apply lookup_lt_Some in Hi. unfold zlen in Hl. nia. }
      destruct sleeps eqn:Es.
      * eapply (move_down s _ ts i _ (mkThread (InUnlock CallWake) k)); [done|unfold weight; cbn; lia|].
        unfold adder_locked. cbn [t_pc t_i]. by rewrite law_release, Es.
      * eapply (move_down s _ ts i _ (mkThread AtTest (k + 1))); [done|unfold weight; cbn; lia|].
        unfold adder_locked. cbn [t_pc t_i]. rewrite law_release, Es. by rewrite u64_small by lia.
Qed.

Definition adders_inv (c : config) : Prop := locked_inv c /\ wake_inv c.

Lemma adders_start : adders_inv (start (lock_init lk) n).
Proof.
  unfold start. rewrite law_init. assert (Hf : forall t, t ∈ replicate (Z.to_nat n) (mkThread AtTest 0) -> t = mkThread AtTest 0)
    by (intros t Ht; by apply elem_of_replicate in Ht as [-> _]).
  split.
  - split; cbn [sh threads word g_sum].
    + unfold zlen. rewrite length_replicate. lia.
    + intros t Ht. apply Hf in Ht as ->. split; [done|]. cbn. lia.
    + unfold count_of. rewrite (sum_of_const _ _ 0); [done|]. by intros t ->%Hf.
    + done.
    + rewrite (sum_of_const _ _ 0); [done|]. by intros t ->%Hf.
  - intros Hpos. apply count_of_ex in Hpos as (i & t & Hi & Ht). cbn in Hi. apply list_elem_of_lookup_2, Hf in Hi as ->. done.
Qed.

Lemma adders_reach c : rtc (step (exec (adder_locked lk) count)) (start (lock_init lk) n) c -> adders_inv c.
Proof.
  intros Hr. apply (steps_keep _ adders_inv) in Hr; [done| |apply adders_start].
  intros c1 c2 [Hi Hw] Hs. by apply (locked_step c1 c2).
Qed.

Lemma finished_sum c : adders_inv c -> finished c -> g_sum (sh c) = n * count.
Proof.
  intros [Hinv _] Hfin. rewrite (inv_sum _ Hinv), (sum_of_const _ _ count), (inv_threads _ Hinv); [lia|].
  intros t Ht. pose proof (inv_fits _ Hinv t Ht) as [_ Hf]. unfold finished in Hfin. rewrite Forall_forall in Hfin. specialize (Hfin t Ht).
  unfold returned, rounds in *. destruct (t_pc t); done || lia.
Qed.

Lemma adders_finish c : adders_inv c -> exists c', rtc (step (exec (adder_locked lk) count)) c c' /\ finished c' /\ adders_inv c'.
Proof.
  apply (steps_finish _ adders_inv finished (fun c => sum_of weight (threads c))).
  - apply _.
  - intros c0 [Hi _]. apply sum_of_nonneg. intros t Ht. eapply thread_weight_nonneg, (inv_fits _ Hi), Ht.
  - intros c1 c2 [Hi Hw] Hs. by apply (locked_step c1 c2).
  - intros c0 [Hi Hw] Hnf. by apply locked_progress.
Qed.
End Adders.

(** ** Without a lock *)

Section Unlocked.
Context (count : Z).
Hypothesis Hc : 0 <= count < 2 ^ 64.

Local Abbreviation exec0 := (exec adder_no_locking count).

(** Thread [i] alone runs from the test of round [k] to its end. *)
Lemma runs_alone (n : nat) : forall s ts i k, ts !! i = Some (mkThread AtTest k) -> 0 <= k -> k + Z.of_nat n = count ->
  0 <= g_sum s -> g_sum s + Z.of_nat n < 2 ^ 64 ->
  rtc (step exec0) (mkConfig s ts) (mkConfig (mkShared (word s) (g_sum s + Z.of_nat n)) (<[i := mkThread Returned count]> ts)).
Proof.
  induction n as [|n IH]; intros [w g] ts i k Hi Hk Hn Hg Hs; cbn [word g_sum] in *.
  - assert (k = count) as -> by lia. apply rtc_once. exists (i, mkAction false 0). unfold exec. cbn [fst snd threads sh]. rewrite Hi.
    cbn. destruct (Z.ltb_spec count count); [lia|]. by rewrite Z.add_0_r.
  - etrans.
    + apply (run_steps _ [(i, mkAction false 0); (i, mkAction false 0); (i, mkAction false 0)]).
      cbn [run]. unfold exec. cbn [fst snd threads sh]. rewrite Hi. cbn [adder_no_locking t_pc t_i].
      destruct (Z.ltb_spec k count); [|lia]. cbn [fst snd threads sh].
      assert (Hl : (i < length ts)%nat) by (by eapply lookup_lt_Some).
      rewrite list_lookup_insert_eq by done. cbn [adder_no_locking t_pc t_i fst snd threads sh g_sum].
      rewrite list_lookup_insert_eq by (by rewrite length_insert). cbn [adder_no_locking t_pc t_i fst snd threads sh g_sum].
      rewrite list_insert_insert_eq, list_insert_insert_eq. rewrite !u64_small by lia. reflexivity.
    + match goal with |- rtc _ (mkConfig ?s1 ?ts1) _ => pose proof (IH s1 ts1 i (k + 1)) as Hr end. cbn [word g_sum] in Hr.
      rewrite list_insert_insert_eq in Hr. replace (g + 1 + Z.of_nat n) with (g + Z.of_nat (S n)) in Hr by lia.
      apply Hr; [|lia..]. apply list_lookup_insert_eq. by eapply lookup_lt_Some.
Qed.

(** The first thread reads 0, the others run, and its write undoes all of theirs. *)
Lemma loses_updates (w : Z) : 0 < count -> 4 * count < 2 ^ 64 ->
  exists c, rtc (step exec0) (start w 4) c /\ finished c /\ g_sum (sh c) = count.
Proof.
  intros Hpos Hs. set (T0 := mkThread AtTest 0). set (R := mkThread Returned count).
  exists (mkConfig (mkShared w count) [R; R; R; R]). split; [|by repeat constructor].
  change (start w 4) with (mkConfig (mkShared w 0) [T0; T0; T0; T0]).
  assert (Hn : Z.of_nat (Z.to_nat count) = count) by lia.
  assert (Hrest : forall g i ts, ts !! i = Some T0 -> 0 <= g -> g + count < 2 ^ 64 ->
    rtc (step exec0) (mkConfig (mkShared w g) ts) (mkConfig (mkShared w (g + count)) (<[i := R]> ts))).
  { intros g i ts Hi Hg Hgs. pose proof (runs_alone (Z.to_nat count) (mkShared w g) ts i 0 Hi) as Hr. rewrite Hn in Hr.
    apply Hr; cbn; lia. }
  etrans; [apply (run_steps _ [(0%nat, mkAction false 0); (0%nat, mkAction false 0)]); cbn [run];
    unfold exec, adder_no_locking; cbn; destruct (Z.ltb_spec 0 count); [|lia]; cbn; reflexivity|].
  etrans; [apply (Hrest 0 1%nat); done || lia|]. etrans; [apply (Hrest _ 2%nat); done || lia|].
  etrans; [apply (Hrest _ 3%nat); done || lia|]. cbn.
  etrans; [apply (run_steps _ [(0%nat, mkAction false 0)]); cbn [run]; unfold exec, adder_no_locking; cbn; reflexivity|].
  pose proof (runs_alone (Z.to_nat (count - 1)) (mkShared w 1) [mkThread AtTest 1; R; R; R] 0%nat 1 eq_refl) as Hr.
  cbn [word g_sum] in Hr. replace (1 + Z.of_nat (Z.to_nat (count - 1))) with count in Hr by lia. apply Hr; lia.
Qed.
End Unlocked.

Lemma lock_cases lk : lk = mymutex \/ lk = myspinlock -> LockLaws lk.
Proof. intros H. assert (Hlk : {lk = mymutex} + {lk = myspinlock}) by (destruct (lock_step lk false CallWait 0) eqn:E; [left|right]; destruct H as [-> | ->]; done).
  destruct Hlk as [-> | ->]; apply _. Defined.

(** C19.  Mutual exclusion, for any number of threads and any interleaving: with either
    lock, at most one thread is between [lock] and the store of [unlock] at any time,
    and when all the threads have returned, [g_sum] is the number of all the rounds. *)
Theorem adders_exclusive (lk : Lock) (n count : Z) (c : config) :
  lk = mymutex \/ lk = myspinlock -> 0 <= n -> 0 <= count -> n * count < 2 ^ 64 ->
  rtc (step (exec (adder_locked lk) count)) (start (lock_init lk) n) c ->
  (forall i j t u, threads c !! i = Some t -> threads c !! j = Some u -> holds t = true -> holds u = true -> i = j) /\
  (finished c -> g_sum (sh c) = n * count).
Proof.
  intros Hlk Hn Hc Hs Hr. pose proof (lock_cases lk Hlk). pose proof (adders_reach lk n count Hn Hc Hs c Hr) as Hinv. split.
  - intros i j t u Hi Hj Ht Hu. destruct Hinv as [Hinv _]. apply (count_of_unique holds (threads c) i j t u); try done.
    erewrite <- inv_word by exact Hinv. by eapply inv_bit.
  - intros; eapply finished_sum; done.
Qed.

(** Two threads of two rounds: the second waits in the futex while the first counts. *)
Lemma adders_exclusive_witness :
  let c := mkConfig (mkShared 1 1) [mkThread (InUnlock StoreUnlocked) 0; mkThread (InLock Asleep) 0] in
  (forall i j t u, threads c !! i = Some t -> threads c !! j = Some u -> holds t = true -> holds u = true -> i = j) /\
  (finished c -> g_sum (sh c) = 2 * 2).
Proof.
  apply (adders_exclusive mymutex 2 2); [by left|lia|lia|lia|].
  apply (run_steps _ ((fun i => (i, mkAction false 0)) <$> [0; 0; 1; 1; 1; 0; 0]%nat)). vm_compute. reflexivity.
Defined.

(** The threads can always finish: from every state the adders can reach with
    either lock (failed exchanges, spurious wake-ups and all), there is a continuation
    in which every thread returns; so no thread is left asleep with nobody to wake it. *)
Theorem adders_complete (lk : Lock) (n count : Z) (c : config) :
  lk = mymutex \/ lk = myspinlock -> 0 <= n -> 0 <= count -> n * count < 2 ^ 64 ->
  rtc (step (exec (adder_locked lk) count)) (start (lock_init lk) n) c ->
  exists c', rtc (step (exec (adder_locked lk) count)) c c' /\ finished c' /\ g_sum (sh c') = n * count.
Proof.
  intros Hlk Hn Hc Hs Hr. pose proof (lock_cases lk Hlk). pose proof (adders_reach lk n count Hn Hc Hs c Hr) as Hinv.
  destruct (adders_finish lk n count Hn Hc Hs c Hinv) as (c' & Hr' & Hf & Hinv'). exists c'. split; [done|]. split; [done|].
  by eapply finished_sum.
Qed.

Lemma adders_complete_witness :
  exists c', rtc (step (exec (adder_locked mymutex) 2))
    (mkConfig (mkShared 1 1) [mkThread (InUnlock StoreUnlocked) 0; mkThread (InLock Asleep) 0]) c' /\
    finished c' /\ g_sum (sh c') = 2 * 2.
Proof.
  apply (adders_complete mymutex 2 2); [by left|lia|lia|lia|].
  apply (run_steps _ ((fun i => (i, mkAction false 0)) <$> [0; 0; 1; 1; 1; 0; 0]%nat)). vm_compute. reflexivity.
Defined.

(** What [tst-locks] prints: with the mutex and with the spin lock 10000000 and
    nothing else; without a lock it can print less (2500000, when one thread's write
    undoes those of the three others). *)
Theorem tst_locks_prints (w : Z) :
  (forall sum, run_adders adder_mymutex mymutex_init sum <-> sum = TARGET_SUM) /\
  (forall sum, run_adders adder_myspinlock myspinlock_init sum <-> sum = TARGET_SUM) /\
  run_adders adder_no_locking w 2500000.
Proof.
  assert (Hlk : forall lk, LockLaws lk -> forall sum, run_adders (adder_locked lk) (lock_init lk) sum <-> sum = TARGET_SUM).
  { intros lk Hl sum. unfold run_adders. change (TARGET_SUM / NUM_THREADS) with 2500000. change NUM_THREADS with 4.
    change TARGET_SUM with (4 * 2500000). split.
    - intros (c & Hr & Hf & <-). eapply finished_sum; [|done]. by apply adders_reach.
    - intros ->. destruct (adders_finish lk 4 2500000) with (c := start (lock_init lk) 4) as (c & Hr & Hf & Hinv); [lia|lia|lia|by apply adders_start|].
      exists c. split; [done|]. split; [done|]. by eapply finished_sum. }
  split_and!; [apply (Hlk mymutex _)|apply (Hlk myspinlock _)|].
  apply (loses_updates 2500000); lia.
Qed.
