(* ===== verification/SyncQueue.v ===== *)
(** * OS-Labs/10-sync: a bounded queue between a writer and a reader thread

    The queue of [queue.c] (no synchronisation), [queue-spinlock.c], [queue-mutex.c],
    [queue-condvar.c] and [queue-semaphore.c] under the two threads of
    [queue-threads.c].  The nodes live in a heap of cells; reading or freeing a cell
    that is not allocated is a crash, so is a failed assertion and an overflow of a
    counter.  [queue_add] and [queue_get] of each file are lists of the statements of
    the source, a statement is one step of its thread, and the two threads interleave
    in any way.  [count++] and [count--] are a load and a store; what a thread does to a
    node nobody else can reach yet (the allocation and the two assignments) is one step.

    The locks, semaphores and condition variables are those of POSIX: a semaphore or a
    lock that is not available blocks, [pthread_cond_wait] gives up the lock and sleeps
    until it is signalled, or for no reason until any time, and takes the lock again.
    Allocation succeeds, at any address that is free.

    The versions are verified together: a check of the order of a function's
    statements (who holds the lock, which part of the operation is done), and the
    theorem that any two functions that pass it keep the queue right. *)
From stdpp Require Import gmap.
From S2P Require Import Threads Prelude.

Abbreviation loc := nat.

(** ** Data *)

Record qnode_t := mkNode { n_val : Z; n_next : option loc }.

(** The conditions threads wait for, [non_full_cond] and [non_empty_cond]. *)
Inductive cond := Full | Empty.
Inductive sem := full_sem | empty_sem.
Inductive stat := add_attempts | get_attempts | add_count | get_count.

#[global] Instance cond_eq_dec : EqDecision cond.
Proof. solve_decision. Defined.
#[global] Instance sem_eq_dec : EqDecision sem.
Proof. solve_decision. Defined.
#[global] Instance stat_eq_dec : EqDecision stat.
Proof. solve_decision. Defined.

Inductive role := Writer | Reader.

#[global] Instance role_eq_dec : EqDecision role.
Proof. solve_decision. Defined.

Record queue_t := mkQueue {
  heap : gmap loc qnode_t;
  first : option loc;
  last : option loc;
  count : Z;
  max_count : Z;
  stats : stat -> Z;
  lock : option role;
  sems : sem -> Z
}.

(** ** Statements *)

Inductive stmt :=
| Stat (s : stat)             (* q->add_attempts++ and the like *)
| AssertAtMost                (* assert(q->count <= q->max_count) *)
| AssertNonneg                (* assert(q->count >= 0) *)
| Lock | Unlock
| SemWait (s : sem) | SemPost (s : sem)
| ReturnIf (c : cond)         (* if (q->count == ...) { unlock; return 0; } *)
| ReturnIfNoLock (c : cond)   (* if (q->count == ...) return 0; *)
| WaitWhile (c : cond)        (* while (q->count == ...) pthread_cond_wait(...) *)
| Asleep (c : cond)           (* inside pthread_cond_wait *)
| Signal (c : cond)
| New                         (* new = malloc(); new->val = val; new->next = NULL *)
| TestFirst                   (* if (!q->first) ... else ... *)
| LastNew | FirstNew          (* q->first = q->last = new *)
| NextNew                     (* q->last->next = new *)
| LastNext                    (* q->last = q->last->next *)
| LoadCount | StoreCount (d : Z)
| TmpFirst                    (* tmp = q->first *)
| ReadVal                     (* *val = tmp->val *)
| FirstNext                   (* q->first = q->first->next *)
| FreeTmp
| Return (ok : bool).

Module QueueNoSync.
Definition queue_add : list stmt :=
  [Stat add_attempts; AssertAtMost; ReturnIfNoLock Full; New; TestFirst; LoadCount; StoreCount 1; Stat add_count; Return true].
Definition queue_get : list stmt :=
  [Stat get_attempts; AssertNonneg; ReturnIfNoLock Empty; TmpFirst; ReadVal; FirstNext; FreeTmp; LoadCount; StoreCount (-1);
   Stat get_count; Return true].
End QueueNoSync.

Module QueueSpinlock.
Definition queue_add : list stmt :=
  [Stat add_attempts; Lock; AssertAtMost; ReturnIf Full; New; TestFirst; LoadCount; StoreCount 1; Unlock; Stat add_count; Return true].
Definition queue_get : list stmt :=
  [Stat get_attempts; Lock; AssertNonneg; ReturnIf Empty; TmpFirst; ReadVal; FirstNext; FreeTmp; LoadCount; StoreCount (-1);
   Unlock; Stat get_count; Return true].
End QueueSpinlock.

Module QueueMutex.
Definition queue_add : list stmt :=
  [Stat add_attempts; Lock; AssertAtMost; ReturnIf Full; New; TestFirst; LoadCount; StoreCount 1; Unlock; Stat add_count; Return true].
Definition queue_get : list stmt :=
  [Stat get_attempts; Lock; AssertNonneg; ReturnIf Empty; TmpFirst; ReadVal; FirstNext; FreeTmp; LoadCount; StoreCount (-1);
   Unlock; Stat get_count; Return true].
End QueueMutex.

Module QueueCondvar.
Definition queue_add : list stmt :=
  [Stat add_attempts; Lock; AssertAtMost; WaitWhile Full; New; TestFirst; LoadCount; StoreCount 1; Signal Empty; Unlock;
   Stat add_count; Return true].
Definition queue_get : list stmt :=
  [Stat get_attempts; Lock; AssertNonneg; WaitWhile Empty; TmpFirst; ReadVal; FirstNext; FreeTmp; LoadCount; StoreCount (-1);
   Signal Full; Unlock; Stat get_count; Return true].
End QueueCondvar.

Module QueueSemaphore.
Definition queue_add : list stmt :=
  [Stat add_attempts; AssertAtMost; SemWait empty_sem; Lock; New; TestFirst; LoadCount; StoreCount 1; SemPost full_sem; Unlock;
   Stat add_count; Return true].
Definition queue_get : list stmt :=
  [Stat get_attempts; AssertNonneg; SemWait full_sem; Lock; TmpFirst; ReadVal; FirstNext; FreeTmp; LoadCount; StoreCount (-1);
   SemPost empty_sem; Unlock; Stat get_count; Return true].
End QueueSemaphore.

(** ** Threads *)

(** [num] is the writer's [i] and the reader's [expected]; [reg] what [count] was when
    it was read; [printed] the messages of the reader: the value and what it expected. *)
Record locals := mkLocals {
  todo : list stmt;
  num : Z;
  new : loc;
  tmp : option loc;
  val : Z;
  reg : Z;
  printed : list (Z * Z)
}.

Inductive crash := BadPointer | AssertFails | Overflows.

(** [wakes]: the condition the step signals. *)
Inductive outcome := Blocked | Crash (c : crash) | Go (q : queue_t) (me : locals) (wakes : option cond).

Definition set_todo (k : list stmt) (me : locals) : locals :=
  mkLocals k (num me) (new me) (tmp me) (val me) (reg me) (printed me).
Definition set_heap (h : gmap loc qnode_t) (q : queue_t) : queue_t :=
  mkQueue h (first q) (last q) (count q) (max_count q) (stats q) (lock q) (sems q).
Definition set_first (p : option loc) (q : queue_t) : queue_t :=
  mkQueue (heap q) p (last q) (count q) (max_count q) (stats q) (lock q) (sems q).
Definition set_last (p : option loc) (q : queue_t) : queue_t :=
  mkQueue (heap q) (first q) p (count q) (max_count q) (stats q) (lock q) (sems q).
Definition set_count (n : Z) (q : queue_t) : queue_t :=
  mkQueue (heap q) (first q) (last q) n (max_count q) (stats q) (lock q) (sems q).
Definition set_stat (s : stat) (n : Z) (q : queue_t) : queue_t :=
  mkQueue (heap q) (first q) (last q) (count q) (max_count q)
    (fun s' => if decide (s' = s) then n else stats q s') (lock q) (sems q).
Definition set_lock (l : option role) (q : queue_t) : queue_t :=
  mkQueue (heap q) (first q) (last q) (count q) (max_count q) (stats q) l (sems q).
Definition set_sem (s : sem) (n : Z) (q : queue_t) : queue_t :=
  mkQueue (heap q) (first q) (last q) (count q) (max_count q) (stats q) (lock q)
    (fun s' => if decide (s' = s) then n else sems q s').

(** [q->count == q->max_count], [q->count == 0]. *)
Definition test (c : cond) (q : queue_t) : bool :=
  match c with Full => count q =? max_count q | Empty => count q =? 0 end.

Definition deref (q : queue_t) (p : option loc) : option (loc * qnode_t) :=
  match p with
  | Some a => match heap q !! a with Some n => Some (a, n) | None => None end
  | None => None
  end.

(** The loops of [writer] and [reader]: what they do when the queue function has
    returned, and the next call. *)
Definition loop (who : role) (prog : list stmt) (ok : bool) (me : locals) : option locals :=
  match who with
  | Writer =>
      if ok then
        match s32 (num me + 1) with
        | Ok i => Some (mkLocals prog i (new me) (tmp me) (val me) (reg me) (printed me))
        | Err _ => None
        end
      else Some (set_todo prog me)
  | Reader =>
      if ok then
        match s32 (val me + 1) with
        | Ok e =>
            Some (mkLocals prog e (new me) (tmp me) (-1) (reg me)
              (if num me =? val me then printed me else printed me ++ [(val me, num me)]))
        | Err _ => None
        end
      else Some (mkLocals prog (num me) (new me) (tmp me) (-1) (reg me) (printed me))
  end.

(** One statement [s] of thread [who], with [k] after it; [prog] is the function it
    calls in its loop, [addr] where an allocation goes. *)
Definition step_stmt (who : role) (prog : list stmt) (addr : loc) (spurious : bool)
    (s : stmt) (k : list stmt) (q : queue_t) (me : locals) : outcome :=
  let next := set_todo k me in
  match s with
  | Stat st => match s64 (stats q st + 1) with Ok n => Go (set_stat st n q) next None | Err _ => Crash Overflows end
  | AssertAtMost => if count q <=? max_count q then Go q next None else Crash AssertFails
  | AssertNonneg => if 0 <=? count q then Go q next None else Crash AssertFails
  | Lock => match lock q with None => Go (set_lock (Some who) q) next None | Some _ => Blocked end
  | Unlock => Go (set_lock None q) next None
  | SemWait sm => if 0 <? sems q sm then Go (set_sem sm (sems q sm - 1) q) next None else Blocked
  | SemPost sm => Go (set_sem sm (sems q sm + 1) q) next None
  | ReturnIf c => Go q (set_todo (if test c q then [Unlock; Return false] else k) me) None
  | ReturnIfNoLock c => Go q (set_todo (if test c q then [Return false] else k) me) None
  | WaitWhile c =>
      if test c q then Go (set_lock None q) (set_todo (Asleep c :: Lock :: WaitWhile c :: k) me) None
      else Go q next None
  | Asleep c => if spurious then Go q next None else Blocked
  | Signal c => Go q next (Some c)
  | New =>
      match heap q !! addr with
      | None =>
          Go (set_heap (<[addr := mkNode (num me) None]> (heap q)) q)
            (mkLocals k (num me) addr (tmp me) (val me) (reg me) (printed me)) None
      | Some _ => Blocked
      end
  | TestFirst => Go q (set_todo (match first q with None => LastNew :: FirstNew :: k | Some _ => NextNew :: LastNext :: k end) me) None
  | LastNew => Go (set_last (Some (new me)) q) next None
  | FirstNew => Go (set_first (Some (new me)) q) next None
  | NextNew =>
      match deref q (last q) with
      | Some (a, n) => Go (set_heap (<[a := mkNode (n_val n) (Some (new me))]> (heap q)) q) next None
      | None => Crash BadPointer
      end
  | LastNext => match deref q (last q) with Some (_, n) => Go (set_last (n_next n) q) next None | None => Crash BadPointer end
  | LoadCount => Go q (mkLocals k (num me) (new me) (tmp me) (val me) (count q) (printed me)) None
  | StoreCount d => match s32 (reg me + d) with Ok n => Go (set_count n q) next None | Err _ => Crash Overflows end
  | TmpFirst => Go q (mkLocals k (num me) (new me) (first q) (val me) (reg me) (printed me)) None
  | ReadVal =>
      match deref q (tmp me) with
      | Some (_, n) => Go q (mkLocals k (num me) (new me) (tmp me) (n_val n) (reg me) (printed me)) None
      | None => Crash BadPointer
      end
  | FirstNext => match deref q (first q) with Some (_, n) => Go (set_first (n_next n) q) next None | None => Crash BadPointer end
  | FreeTmp => match deref q (tmp me) with Some (a, _) => Go (set_heap (delete a (heap q)) q) next None | None => Crash BadPointer end
  | Return ok => match loop who prog ok me with Some me' => Go q me' None | None => Crash Overflows end
  end.

(** ** The program *)

Record program := mkProgram { queue_add : list stmt; queue_get : list stmt }.

Record config := mkConfig { queue : queue_t; writer : locals; reader : locals; crashed : option crash }.

Record action := mkAction { addr : loc; spurious : bool }.

(** [pthread_cond_signal] wakes the other thread if it waits for the condition. *)
Definition wake (wakes : option cond) (other : locals) : locals :=
  match wakes, todo other with
  | Some c, Asleep c' :: k => if decide (c = c') then set_todo k other else other
  | _, _ => other
  end.

(** Thread 0 is the writer, thread 1 the reader. *)
Definition exec (p : program) (c : config) (a : nat * action) : option config :=
  match crashed c with
  | Some _ => None
  | None =>
      match a.1 with
      | 0%nat =>
          match todo (writer c) with
          | s :: k =>
              match step_stmt Writer (queue_add p) (addr a.2) (spurious a.2) s k (queue c) (writer c) with
              | Blocked => None
              | Crash e => Some (mkConfig (queue c) (writer c) (reader c) (Some e))
              | Go q me wakes => Some (mkConfig q me (wake wakes (reader c)) None)
              end
          | [] => None
          end
      | 1%nat =>
          match todo (reader c) with
          | s :: k =>
              match step_stmt Reader (queue_get p) (addr a.2) (spurious a.2) s k (queue c) (reader c) with
              | Blocked => None
              | Crash e => Some (mkConfig (queue c) (writer c) (reader c) (Some e))
              | Go q me wakes => Some (mkConfig q (wake wakes (writer c)) me None)
              end
          | [] => None
          end
      | _ => None
      end
  end.

(** [queue_init]; a semaphore of the versions without is not used. *)
Definition queue_init (max_count : Z) : queue_t :=
  mkQueue ∅ None None 0 max_count (fun _ => 0) None (fun s => match s with full_sem => 0 | empty_sem => max_count end).

Definition QUEUE_SIZE : Z := 1000000.

(** The loop of [queue_destroy]: the heap after the nodes from [n] on are freed. *)
Fixpoint destroy_loop (fuel : nat) (h : gmap loc qnode_t) (n : option loc) : res (gmap loc qnode_t) :=
  match n with
  | None => Ok h
  | Some a =>
      match fuel with
      | O => Err OutOfFuel
      | S fuel =>
          match h !! a with
          | Some nd => destroy_loop fuel (delete a h) (n_next nd)
          | None => Err Undefined
          end
      end
  end.

(** The monitor thread is cancelled, the nodes are freed. *)
Definition queue_destroy (q : queue_t) : res (gmap loc qnode_t) := destroy_loop (S (size (heap q))) (heap q) (first q).

(** The writer starts at 0, the reader expects 0. *)
Definition start (p : program) (max_count : Z) : config :=
  mkConfig (queue_init max_count) (mkLocals (queue_add p) 0 0 None 0 0 []) (mkLocals (queue_get p) 0 0 None (-1) 0 []) None.

Definition no_sync : program := mkProgram QueueNoSync.queue_add QueueNoSync.queue_get.
Definition spinlock : program := mkProgram QueueSpinlock.queue_add QueueSpinlock.queue_get.
Definition mutex : program := mkProgram QueueMutex.queue_add QueueMutex.queue_get.
Definition condvar : program := mkProgram QueueCondvar.queue_add QueueCondvar.queue_get.
Definition semaphore : program := mkProgram QueueSemaphore.queue_add QueueSemaphore.queue_get.

(** Schedules: who moves; allocations go to the addresses given. *)
Definition turn (i : nat) (a : loc) : nat * action := (i, mkAction a false).
Definition turns (i n : nat) : list (nat * action) := replicate n (turn i 0).

(** The writer adds 0 and the reader gets it. *)
Example mutex_run :
  match run (exec mutex) (turns 0 13 ++ turns 1 13) (start mutex 2) with
  | Some c => (num (writer c), num (reader c), count (queue c), printed (reader c)) = (1, 1, 0, [])
  | None => False
  end.
Proof. vm_compute. reflexivity. Qed.

(** ** The check of a queue function

    [held]: the thread has the lock; [token]: it has taken a semaphore and not yet
    posted the other; [signaled]: it has signalled what it did.  The stage says how far
    the operation is. *)

Inductive sync := Try | Cond | Sem.

Inductive stage :=
| Start | Room
| Fresh | EmptyA | EmptyB | Tail | Half   (* queue_add *)
| Tmp | Val | Unlinked                    (* queue_get *)
| Moved | Loaded | Counted.

#[global] Instance stage_eq_dec : EqDecision stage.
Proof. solve_decision. Defined.

Record astate := mkA { held : bool; token : bool; signaled : bool; stg : stage }.

Definition own_cond (who : role) : cond := match who with Writer => Full | Reader => Empty end.
Definition other_cond (who : role) : cond := match who with Writer => Empty | Reader => Full end.
Definition own_sem (who : role) : sem := match who with Writer => empty_sem | Reader => full_sem end.
Definition other_sem (who : role) : sem := match who with Writer => full_sem | Reader => empty_sem end.

(** What a statement requires and what holds after it. *)
Definition next (who : role) (sy : sync) (σ : astate) (s : stmt) : option astate :=
  let to st := Some (mkA true (token σ) false st) in
  let link st := if match sy with Sem => token σ | _ => true end then to st else None in
  match s, who, stg σ with
  | Stat _, _, _ | AssertAtMost, _, _ | AssertNonneg, _, _ => Some σ
  | Lock, _, Start => if held σ then None else Some (mkA true (token σ) false (if token σ then Room else Start))
  | Unlock, _, Start => if held σ && negb (token σ) then Some (mkA false false false Start) else None
  | Unlock, _, Counted =>
      if held σ && match sy with Cond => signaled σ | _ => true end then Some (mkA false (token σ) false Counted) else None
  | SemWait s, _, Start =>
      if decide (s = own_sem who) then
        match sy with Sem => if held σ || token σ then None else Some (mkA false true false Start) | _ => None end
      else None
  | SemPost s, _, Counted =>
      if decide (s = other_sem who) then if token σ then Some (mkA (held σ) false (signaled σ) Counted) else None else None
  | ReturnIf c, _, Start =>
      if decide (c = own_cond who) then match sy with Try => if held σ && negb (token σ) then to Room else None | _ => None end else None
  | WaitWhile c, _, Start =>
      if decide (c = own_cond who) then match sy with Cond => if held σ && negb (token σ) then to Room else None | _ => None end else None
  | Asleep c, _, Start =>
      if decide (c = own_cond who) then match sy with Cond => if held σ || token σ then None else Some σ | _ => None end else None
  | Signal c, _, Counted =>
      if decide (c = other_cond who) then match sy with Cond => if held σ then Some (mkA true (token σ) true Counted) else None | _ => None end else None
  | New, Writer, Room => to Fresh
  | TestFirst, Writer, Fresh => link Moved
  | LastNew, Writer, EmptyA => to EmptyB
  | FirstNew, Writer, EmptyB => link Moved
  | NextNew, Writer, Tail => link Half
  | LastNext, Writer, Half => to Moved
  | TmpFirst, Reader, Room => to Tmp
  | ReadVal, Reader, Tmp => to Val
  | FirstNext, Reader, Val => link Unlinked
  | FreeTmp, Reader, Unlinked => to Moved
  | LoadCount, _, Moved => to Loaded
  | StoreCount d, _, Loaded => if decide (d = match who with Writer => 1 | Reader => -1 end) then to Counted else None
  | _, _, _ => None
  end.

Fixpoint check (who : role) (sy : sync) (σ : astate) (l : list stmt) : bool :=
  match l with
  | [] => false
  | [Return ok] => negb (held σ) && negb (token σ) && bool_decide (stg σ = if ok then Counted else Start)
  | s :: k => match next who sy σ s with Some σ' => check who sy σ' k | None => false end
  end.

(** Sleeping is not a statement of the source. *)
Definition plain (l : list stmt) : bool := forallb (fun s => match s with Asleep _ => false | _ => true end) l.

Definition begin : astate := mkA false false false Start.

(** A pair of functions that passes. *)
Definition checks (sy : sync) (p : program) : bool :=
  check Writer sy begin (queue_add p) && check Reader sy begin (queue_get p) && plain (queue_add p) && plain (queue_get p).

(** The four synchronised versions pass, the one without does not. *)
Example versions_check :
  checks Try spinlock = true /\ checks Try mutex = true /\ checks Cond condvar = true /\ checks Sem semaphore = true /\
  checks Try no_sync = false /\ checks Cond no_sync = false /\ checks Sem no_sync = false.
Proof. vm_compute. done. Qed.

(** ** The invariant *)

(** The operation's effect on the chain of nodes is done; it is done but not yet in
    [count]; the operation is under way. *)
Definition moved (st : stage) : bool :=
  match st with Half | Unlinked | Moved | Loaded | Counted => true | _ => false end.
Definition counting (st : stage) : bool :=
  match st with Half | Unlinked | Moved | Loaded => true | _ => false end.
Definition mid (st : stage) : bool := match st with Start | Counted => false | _ => true end.

(** The nodes at the addresses [ads] hold [n], [n + 1], ... and are linked in this
    order from [f] on. *)
Record chain (h : gmap loc qnode_t) (f : option loc) (n : Z) (ads : list loc) : Prop := {
  ch_nodup : NoDup ads;
  ch_first : f = ads !! 0%nat;
  ch_node j a : ads !! j = Some a -> h !! a = Some (mkNode (n + Z.of_nat j) (ads !! S j))
}.

Lemma chain_fresh h f n ads a x : chain h f n ads -> h !! a = None -> chain (<[a := x]> h) f n ads /\ a ∉ ads.
Proof.
  intros [Hnd Hf Hno] Ha. assert (Hni : a ∉ ads).
  { intros Hin. apply list_elem_of_lookup in Hin as (j & Hj). rewrite (Hno _ _ Hj) in Ha. done. }
  split; [|done]. split; [done|done|]. intros j b Hj. rewrite lookup_insert_ne; [by apply Hno|].
  intros <-. apply Hni. by eapply list_elem_of_lookup_2.
Qed.

(** The new node becomes the first of an empty queue. *)
Lemma chain_single h n a : h !! a = Some (mkNode n None) -> chain h (Some a) n [a].
Proof.
  intros Ha. split; [apply NoDup_singleton|done|]. intros [|j] b Hj; [|done]. cbn in Hj. simplify_eq. rewrite Ha. cbn. do 2 f_equal. lia.
Qed.

(** The last node gets the new one as its successor. *)
Lemma chain_append h f n ads l a v : chain h f n ads -> list.last ads = Some l -> h !! l = Some (mkNode v None) ->
  h !! a = Some (mkNode (n + zlen ads) None) -> a ∉ ads -> chain (<[l := mkNode v (Some a)]> h) f n (ads ++ [a]).
Proof.
  intros [Hnd Hf Hno] Hl Hhl Ha Hni. pose proof (proj1 (last_Some ads l) Hl) as (ads0 & ->).
  assert (Hal : a <> l) by (intros ->; apply Hni, elem_of_app; right; by left).
  split.
  - apply NoDup_app. split; [done|]. split; [|apply NoDup_singleton]. intros x Hx Hxa. apply list_elem_of_singleton in Hxa. congruence.
  - rewrite Hf, (lookup_app_l (ads0 ++ [l]) [a]) by (rewrite length_app; cbn; lia). done.
  - intros j b Hj. apply lookup_app_Some in Hj as [Hj|[Hlen Hj]].
    + assert (Hjl : (j < length (ads0 ++ [l]))%nat) by (by eapply lookup_lt_Some). rewrite length_app in Hjl. cbn in Hjl.
      destruct (decide (b = l)) as [->|Hne].
      * assert (j = length ads0) as ->.
        { eapply NoDup_lookup; [exact Hnd|exact Hj|]. rewrite lookup_app_r by lia. by rewrite Nat.sub_diag. }
        rewrite lookup_insert_eq. pose proof (Hno _ _ Hj) as E. rewrite Hhl in E. injection E as -> _.
        rewrite lookup_app_r by (rewrite length_app; cbn; lia). rewrite length_app. cbn. by replace (S (length ads0) - (length ads0 + 1))%nat with 0%nat by lia.
      * rewrite lookup_insert_ne by done. rewrite (Hno _ _ Hj). do 2 f_equal.
        assert (j <> length ads0). { intros ->. rewrite lookup_app_r, Nat.sub_diag in Hj by lia. cbn in Hj. congruence. }
        rewrite (lookup_app_l (ads0 ++ [l]) [a]) by (rewrite length_app; cbn; lia). done.
    + destruct (j - length (ads0 ++ [l]))%nat as [|x] eqn:Ex; [|done]. cbn in Hj. simplify_eq.
      rewrite lookup_insert_ne by done. rewrite Ha. unfold zlen. replace j with (length (ads0 ++ [l])) by lia.
      rewrite lookup_ge_None_2; [done|]. rewrite !length_app. cbn. lia.
Qed.

Lemma chain_last h f n ads l : chain h f n ads -> list.last ads = Some l -> exists v, h !! l = Some (mkNode v None).
Proof.
  intros [_ _ Hno] Hl. pose proof (proj1 (last_Some ads l) Hl) as (ads0 & ->). exists (n + Z.of_nat (length ads0)).
  rewrite (Hno (length ads0) l); [|by rewrite lookup_app_r, Nat.sub_diag by lia]. do 2 f_equal.
  apply lookup_ge_None_2. rewrite length_app. cbn. lia.
Qed.

(** The first node is unlinked. *)
Lemma chain_tail h f n a ads : chain h f n (a :: ads) -> chain h (ads !! 0%nat) (n + 1) ads /\ (a ∉ ads) /\
  h !! a = Some (mkNode n (ads !! 0%nat)).
Proof.
  intros [Hnd Hf Hno]. apply NoDup_cons in Hnd as [Hni Hnd]. split_and!; [split; [done|done|]|done|].
  - intros j b Hj. rewrite (Hno (S j) b Hj). do 2 f_equal. lia.
  - rewrite (Hno 0%nat a eq_refl). do 2 f_equal. lia.
Qed.

Lemma chain_delete h f n ads a : chain h f n ads -> a ∉ ads -> chain (delete a h) f n ads.
Proof.
  intros [Hnd Hf Hno] Hni. split; [done|done|]. intros j b Hj. rewrite lookup_delete_ne; [by apply Hno|].
  intros <-. apply Hni. by eapply list_elem_of_lookup_2.
Qed.

(** [queue_destroy] frees every node of the queue, each once. *)
Lemma destroy_chain ads : forall fuel h f n, chain h f n ads -> (length ads <= fuel)%nat ->
  exists h', destroy_loop fuel h f = Ok h' /\ forall a, h' !! a = if bool_decide (a ∈ ads) then None else h !! a.
Proof.
  induction ads as [|a ads IH]; intros fuel h f n Hch Hf.
  - rewrite (ch_first _ _ _ _ Hch). exists h. by destruct fuel.
  - destruct (chain_tail _ _ _ _ _ Hch) as (Hch' & Hni & Ha). rewrite (ch_first _ _ _ _ Hch). cbn [lookup list_lookup] in *.
    destruct fuel as [|fuel]; [cbn in Hf; lia|]. cbn [destroy_loop]. rewrite Ha. cbn [n_next].
    destruct (IH fuel (delete a h) _ _ (chain_delete _ _ _ _ a Hch' Hni)) as (h' & -> & Hh'); [cbn in Hf; lia|].
    exists h'. split; [done|]. intros b. rewrite Hh'. destruct (decide (b = a)) as [->|Hne].
    + rewrite bool_decide_false by done. rewrite bool_decide_true by (by left). apply lookup_delete_eq.
    + rewrite lookup_delete_ne by done. rewrite (bool_decide_ext (b ∈ a :: ads) (b ∈ ads)); [done|]. rewrite elem_of_cons. tauto.
Qed.

Lemma queue_destroy_frees q n ads : chain (heap q) (first q) n ads ->
  exists h, queue_destroy q = Ok h /\ forall a, h !! a = if bool_decide (a ∈ ads) then None else heap q !! a.
Proof.
  intros Hch. apply (destroy_chain ads _ _ _ n Hch).
  assert (Hsub : list_to_set ads ⊆@{gset loc} dom (heap q)).
  { intros a Ha. apply elem_of_list_to_set, list_elem_of_lookup in Ha as (j & Hj). apply elem_of_dom. rewrite (ch_node _ _ _ _ Hch j a Hj). by eexists. }
  apply subseteq_size in Hsub. rewrite size_list_to_set in Hsub by apply Hch. rewrite size_dom in Hsub. lia.
Qed.

Definition sleeping (l : list stmt) : bool := match l with Asleep _ :: _ => true | _ => false end.
Definition asleep (me : locals) : bool := sleeping (todo me).

(** What a stage says of the writer, and of the reader. *)
Definition writer_at (st : stage) (max : Z) (q : queue_t) (me : locals) (ads : list loc) : Prop :=
  let fresh := zlen ads < max /\ heap q !! new me = Some (mkNode (num me) None) /\ new me ∉ ads in
  match st with
  | Start | Counted => True
  | Room => zlen ads < max
  | Fresh => fresh
  | EmptyA => fresh /\ ads = []
  | EmptyB => fresh /\ ads = [] /\ last q = Some (new me)
  | Tail => fresh /\ ads <> []
  | Half => 0 < zlen ads /\ list.last ads = Some (new me) /\ exists a v, last q = Some a /\ heap q !! a = Some (mkNode v (Some (new me)))
  | Moved => 0 < zlen ads
  | Loaded => 0 < zlen ads /\ reg me = count q
  | Tmp | Val | Unlinked => False
  end.

Definition reader_at (st : stage) (max : Z) (q : queue_t) (me : locals) (ads : list loc) : Prop :=
  match st with
  | Start => True
  | Room => ads <> []
  | Tmp => ads <> [] /\ tmp me = ads !! 0%nat
  | Val => ads <> [] /\ tmp me = ads !! 0%nat /\ val me = num me
  | Unlinked => zlen ads < max /\ val me = num me /\ exists a, tmp me = Some a /\ is_Some (heap q !! a) /\ a ∉ ads
  | Moved => zlen ads < max /\ val me = num me
  | Loaded => zlen ads < max /\ val me = num me /\ reg me = count q
  | Counted => val me = num me
  | Fresh | EmptyA | EmptyB | Tail | Half => False
  end.

Section Safety.
Context (sy : sync) (max : Z) (p : program).
Hypothesis Hmax : 0 <= max <= INT_MAX.
Hypothesis Hchecks : checks sy p = true.

Record ok (c : config) (σw σr : astate) (ads : list loc) : Prop := {
  k_crash : crashed c = None;
  k_max : max_count (queue c) = max;
  k_wtodo : check Writer sy σw (todo (writer c)) = true;
  k_rtodo : check Reader sy σr (todo (reader c)) = true;
  k_wplain : plain (tail (todo (writer c))) = true;
  k_rplain : plain (tail (todo (reader c))) = true;
  k_lock : lock (queue c) = if held σw then Some Writer else if held σr then Some Reader else None;
  k_excl : held σw = true -> held σr = true -> False;
  k_wmid : mid (stg σw) = true -> held σw = true;
  k_rmid : mid (stg σr) = true -> held σr = true;
  k_chain : chain (heap (queue c)) (first (queue c)) (num (reader c) + Z.b2z (moved (stg σr))) ads;
  k_items : num (writer c) + Z.b2z (moved (stg σw)) = num (reader c) + Z.b2z (moved (stg σr)) + zlen ads;
  k_last : stg σw <> Half -> ads <> [] -> last (queue c) = list.last ads;
  k_count : count (queue c) = zlen ads - Z.b2z (counting (stg σw)) + Z.b2z (counting (stg σr));
  k_bound : zlen ads <= max;
  k_writer : writer_at (stg σw) max (queue c) (writer c) ads;
  k_reader : reader_at (stg σr) max (queue c) (reader c) ads;
  k_printed : printed (reader c) = [];
  k_tokens : sy <> Sem -> token σw = false /\ token σr = false;
  k_empty : sy = Sem -> 0 <= sems (queue c) empty_sem /\
    sems (queue c) empty_sem + Z.b2z (token σw && negb (moved (stg σw))) + zlen ads + Z.b2z (token σr && moved (stg σr)) = max;
  k_full : sy = Sem -> 0 <= sems (queue c) full_sem /\
    sems (queue c) full_sem + Z.b2z (token σr && negb (moved (stg σr))) + Z.b2z (token σw && moved (stg σw)) = zlen ads;
  k_wsleep : asleep (writer c) = true -> zlen ads = max \/ (held σr && moved (stg σr) && negb (signaled σr)) = true;
  k_rsleep : asleep (reader c) = true -> zlen ads = 0 \/ (held σw && moved (stg σw) && negb (signaled σw)) = true
}.

(** ** Moves of the writer *)

Lemma check_next who σ s k : check who sy σ (s :: k) = true ->
  (exists o, s = Return o /\ k = [] /\ held σ = false /\ token σ = false /\ stg σ = if o then Counted else Start) \/
  exists σ', next who sy σ s = Some σ' /\ check who sy σ' k = true.
Proof.
  intros H. destruct s; try (right; cbn [check] in H; destruct (next who sy σ _) as [σ'|]; [by exists σ'|done]).
  left. exists ok0. destruct k; [|by cbn in H; destruct who, (stg σ)]. cbn [check] in H.
  rewrite !andb_true_iff, !negb_true_iff, bool_decide_eq_true in H. tauto.
Qed.

Ltac fields :=
  unfold asleep, set_todo, set_heap, set_first, set_last, set_count, set_stat, set_lock, set_sem in *;
  cbn [crashed queue writer reader todo num new tmp val reg printed heap first last count max_count stats lock sems
       held token signaled stg moved counting mid wake negb andb Z.b2z tail] in *.

Lemma plain_tail l : plain l = true -> plain (tail l) = true /\ sleeping l = false.
Proof. by destruct l as [|[]]. Qed.


Lemma ok_count c σw σr ads : ok c σw σr ads -> 0 <= count (queue c) <= max.
Proof.
  intros []. rewrite k_count0. pose proof (zlen_nonneg ads). destruct (counting (stg σw)) eqn:Ew, (counting (stg σr)) eqn:Er; cbn [Z.b2z]; try lia.
  - assert (0 < zlen ads) by (destruct (stg σw); try done; cbn in k_writer0; tauto). lia.
  - assert (zlen ads < max) by (destruct (stg σr); try done; cbn in k_reader0; tauto). lia.
Qed.

(** A thread without the lock is not in the middle of its operation. *)
Lemma not_counting st : (mid st = true -> false = true) -> counting st = false.
Proof. destruct st; cbn; auto; intros H; by discriminate H. Qed.

(** What it has done does not depend on the queue. *)
Lemma writer_idle st q q' me ads ads' : (mid st = true -> false = true) -> writer_at st max q me ads -> writer_at st max q' me ads'.
Proof. destruct st; cbn; auto; intros H; by discriminate H. Qed.

Lemma reader_idle st q q' me ads ads' : (mid st = true -> false = true) -> reader_at st max q me ads -> reader_at st max q' me ads'.
Proof. destruct st; cbn; auto; intros H; by discriminate H. Qed.

(** The parts of a case that hold by computation or from the hypotheses. *)
Ltac easy_case :=
  fields; repeat case_decide;
  try solve [done | lia | tauto | intuition (congruence || lia) | by eapply reader_idle | by eapply writer_idle |
             cbn [writer_at reader_at]; fields; intuition (congruence || lia)].

(** Who sleeps waits for its own condition, before its operation, without the lock. *)
Lemma asleep_cond who σ me : check who sy σ (todo me) = true -> asleep me = true ->
  sy = Cond /\ stg σ = Start /\ held σ = false /\ token σ = false /\ exists k, todo me = Asleep (own_cond who) :: k.
Proof.
  unfold asleep, sleeping. destruct (todo me) as [|[] k] eqn:E; try done. intros Hc _. apply check_next in Hc as [(o & ? & _)|(σ' & Hn & _)]; [done|].
  cbn [next] in Hn. destruct σ as [[] [] sg st], who, st; cbn in Hn; try discriminate Hn; destruct (decide _); subst; try discriminate Hn; destruct sy; try discriminate Hn; eauto 10.
Qed.

(** A signal wakes who waits for it, and changes nothing else. *)
Lemma wake_signal who σ me : check who sy σ (todo me) = true -> plain (tail (todo me)) = true ->
  exists k, wake (Some (own_cond who)) me = set_todo k me /\ check who sy σ k = true /\ plain (tail k) = true /\
    asleep (set_todo k me) = false.
Proof.
  intros Hc Hp. destruct (asleep me) eqn:Ea.
  - destruct (asleep_cond who σ me Hc Ea) as (Esy & Hst & Hh & Ht & k & Ek). exists k. unfold wake. rewrite Ek in *. rewrite decide_True by done.
    apply check_next in Hc as [(o & ? & _)|(σ' & Hn & Hk)]; [done|]. destruct σ as [h t sg st]. cbn in *. subst h t st.
    destruct (plain_tail k Hp) as [Hpl Hna]. rewrite decide_True, Esy in Hn by done. injection Hn as <-. by repeat split.
  - exists (todo me). assert (E : set_todo (todo me) me = me) by (by destruct me). rewrite E. split; [|done]. unfold wake, asleep, sleeping in *. by destruct (todo me) as [|[]].
Qed.

(** What a step of the writer leads to. *)
Definition writer_fine (σr : astate) (r : locals) (o : outcome) : Prop :=
  match o with
  | Blocked => True
  | Crash e => e = Overflows
  | Go q me wakes => exists σw' ads', ok (mkConfig q me (wake wakes r) None) σw' σr ads'
  end.

Ltac intro_writer :=
  intros [] Etodo Hn Hk;
  match goal with c : config |- _ => destruct c as [q [td i nw tp vl rg pr] r cr] end;
  match goal with H : next Writer _ ?σw _ = _ |- _ => destruct σw as [h t sg st] end;
  match goal with σr : astate, H : check Reader _ ?σr _ = true |- _ => destruct σr as [h' t' sg' st'] end;
  fields; match type of Etodo with ?td = _ => subst td end; fields;
  match goal with H : plain ?k = true, _ : check Writer _ _ ?k = true |- _ =>
    destruct (plain_tail k H) as [Hpl Hna]
  end; fields; cbn [step_stmt next stg] in *.

Ltac case_writer σ ads := unfold writer_fine; exists σ, ads; split; easy_case.

Lemma writer_asserts c σw σr ads s k a sp σ' : ok c σw σr ads -> todo (writer c) = s :: k ->
  next Writer sy σw s = Some σ' -> check Writer sy σ' k = true ->
  match s with Stat _ | AssertAtMost | AssertNonneg => True | _ => False end ->
  writer_fine σr (reader c) (step_stmt Writer (queue_add p) a sp s k (queue c) (writer c)).
Proof.
  intros Hok. pose proof (ok_count _ _ _ _ Hok). revert Hok. intro_writer. destruct s; try done; intros _; cbn [step_stmt next] in *; fields; injection Hn as <-.
  - destruct (s64 _); [|done]. case_writer (mkA h t sg st) ads.
  - destruct (Z.leb_spec (count q) (max_count q)); [case_writer (mkA h t sg st) ads|lia].
  - destruct (Z.leb_spec 0 (count q)); [case_writer (mkA h t sg st) ads|lia].
Qed.

Lemma writer_sync c σw σr ads s k a sp σ' : ok c σw σr ads -> todo (writer c) = s :: k ->
  next Writer sy σw s = Some σ' -> check Writer sy σ' k = true ->
  match s with Lock | Unlock | SemWait _ | SemPost _ | ReturnIf _ | WaitWhile _ | Asleep _ | Signal _ => True | _ => False end ->
  writer_fine σr (reader c) (step_stmt Writer (queue_add p) a sp s k (queue c) (writer c)).
Proof.
  intro_writer. destruct s; try done; intros _; cbn [step_stmt next own_cond own_sem other_cond other_sem] in *; fields;
    unfold writer_at in k_writer0; fields.
  - destruct st, h; try discriminate Hn. injection Hn as <-. destruct (lock q) eqn:El; [exact I|]. destruct h'; [discriminate k_lock0|].
    destruct t.
    + assert (Esy : sy = Sem) by (destruct sy; try done; by destruct (k_tokens0 ltac:(done))).
      destruct (k_empty0 Esy). case_writer (mkA true true false Room) ads. unfold writer_at. destruct t', (moved st'); cbn in *; lia.
    + case_writer (mkA true false false Start) ads.
  - destruct st, h; cbn in Hn; try discriminate Hn.
    + destruct t; try discriminate Hn; injection Hn as <-. destruct h'; [by destruct k_excl0|]. case_writer (mkA false false false Start) ads.
    + destruct h'; [by destruct k_excl0|]. assert (Hs : sy = Cond -> sg = true) by (intros ->; by destruct sg).
      assert (Hc : check Writer sy (mkA false t false Counted) k = true) by (destruct sy, sg; by simplify_eq).
      assert (Hrs : asleep r = true -> zlen ads = 0).
      { intros Hr. destruct (asleep_cond Reader _ _ k_rtodo0 Hr) as [E _]. rewrite (Hs E) in k_rsleep0. destruct (k_rsleep0 Hr); done. }
      case_writer (mkA false t false Counted) ads.
  - destruct st; try discriminate Hn. destruct (decide _) as [->|]; [|discriminate Hn]. assert (Esy : sy = Sem) by (by destruct sy). rewrite Esy in Hn.
    destruct h, t; try discriminate Hn. injection Hn as <-. destruct (Z.ltb_spec 0 (sems q empty_sem)); [|exact I].
    case_writer (mkA false true false Start) ads.
  - destruct st; try discriminate Hn. destruct (decide _) as [->|]; [|discriminate Hn]. 
    destruct t; try discriminate Hn. injection Hn as <-. case_writer (mkA h false sg Counted) ads.
  - destruct st; try discriminate Hn. destruct (decide _) as [->|]; [|discriminate Hn]. assert (Esy : sy = Try) by (by destruct sy). rewrite Esy in Hn.
    destruct h, t; try discriminate Hn. injection Hn as <-. destruct h'; [by destruct k_excl0|].
    assert (Hz : count q = zlen ads) by (rewrite k_count0, (not_counting st' k_rmid0); cbn; lia). unfold test. destruct (Z.eqb_spec (count q) (max_count q)).
    + case_writer (mkA true false false Start) ads.
    + case_writer (mkA true false false Room) ads.
  - destruct st; try discriminate Hn. destruct (decide _) as [->|]; [|discriminate Hn]. assert (Esy : sy = Cond) by (by destruct sy). rewrite Esy in Hn.
    destruct h, t; try discriminate Hn. injection Hn as <-. destruct h'; [by destruct k_excl0|].
    assert (Hz : count q = zlen ads) by (rewrite k_count0, (not_counting st' k_rmid0); cbn; lia). unfold test. destruct (Z.eqb_spec (count q) (max_count q)).
    + case_writer (mkA false false false Start) ads.
      cbn. rewrite Esy. cbn. by rewrite <- Esy.
    + case_writer (mkA true false false Room) ads.
  - destruct st; try discriminate Hn. destruct (decide _) as [->|]; [|discriminate Hn]. assert (Esy : sy = Cond) by (by destruct sy). rewrite Esy in Hn.
    destruct h, t; try discriminate Hn. injection Hn as <-. destruct sp; [|exact I].
    case_writer (mkA false false sg Start) ads.
  - destruct st; try discriminate Hn. destruct (decide _) as [->|]; [|discriminate Hn]. assert (Esy : sy = Cond) by (by destruct sy). rewrite Esy in Hn.
    destruct h; try discriminate Hn. injection Hn as <-.
    destruct (wake_signal Reader _ _ k_rtodo0 k_rplain0) as (k2 & Hwk & Hc2 & Hp2 & Hn2). cbn [own_cond] in Hwk.
    unfold writer_fine. rewrite Hwk. exists (mkA true t true Counted), ads. split; easy_case.
Qed.

(** The place a semaphore stands for becomes an item, or an item a place. *)
Ltac move_token :=
  match goal with Hlink : sy = Sem -> ?t = true, He : sy = Sem -> 0 <= sems _ empty_sem /\ _, Hf : sy = Sem -> 0 <= sems _ full_sem /\ _ |- sy = Sem -> _ =>
    let E := fresh in intros E; specialize (He E); specialize (Hf E); specialize (Hlink E); subst t; fields; lia
  end.

Lemma writer_data c σw σr ads s k a sp σ' : ok c σw σr ads -> todo (writer c) = s :: k ->
  next Writer sy σw s = Some σ' -> check Writer sy σ' k = true ->
  match s with New | TestFirst | LastNew | FirstNew | NextNew | LastNext | LoadCount | StoreCount _ => True | _ => False end ->
  writer_fine σr (reader c) (step_stmt Writer (queue_add p) a sp s k (queue c) (writer c)).
Proof.
  intros Hok. pose proof (ok_count _ _ _ _ Hok). revert Hok. intro_writer. destruct s; try done; intros _; cbn [step_stmt next] in *;
    destruct st; try discriminate Hn; fields; pose proof (k_wmid0 eq_refl) as ->; (destruct h'; [by destruct k_excl0|]).
  - injection Hn as <-. destruct (heap q !! a) eqn:Ea; [exact I|].
    destruct (chain_fresh _ _ _ _ a (mkNode i None) k_chain0 Ea) as [Hch Hni]. cbn in k_writer0.
    case_writer (mkA true t false Fresh) ads.
    cbn. by rewrite lookup_insert_eq.
  - assert (Hlink : sy = Sem -> t = true) by (intros ->; by destruct t).
    assert (Hk' : check Writer sy (mkA true t false Moved) k = true) by (destruct sy, t; by simplify_eq).
    cbn in k_writer0. destruct (first q) as [f|] eqn:Ef.
    + case_writer (mkA true t false Tail) ads.
      * cbn. destruct sy, t; try done; by discriminate (Hlink eq_refl).
      * cbn. split; [done|]. intros ->. by destruct k_chain0.
    + case_writer (mkA true t false EmptyA) ads. cbn. split; [done|]. pose proof (ch_first _ _ _ _ k_chain0). by destruct ads.
  - injection Hn as <-. cbn in k_writer0. case_writer (mkA true t false EmptyB) ads.
  - assert (Hlink : sy = Sem -> t = true) by (intros ->; by destruct t).
    assert (Hk' : check Writer sy (mkA true t false Moved) k = true) by (destruct sy, t; by simplify_eq).
    cbn in k_writer0. destruct k_writer0 as ((Hlt & Hnew & Hni) & -> & Hl). change (zlen (@nil loc)) with 0 in *.
    assert (Hch : chain (heap q) (Some nw) (num r + Z.b2z (moved st')) [nw]) by (apply chain_single; rewrite Hnew; do 2 f_equal; lia).
    case_writer (mkA true t false Moved) [nw]; change (zlen [nw]) with 1 in *; easy_case.
    all: move_token.
  - assert (Hlink : sy = Sem -> t = true) by (intros ->; by destruct t).
    assert (Hk' : check Writer sy (mkA true t false Half) k = true) by (destruct sy, t; by simplify_eq).
    cbn in k_writer0. destruct k_writer0 as ((Hlt & Hnew & Hni) & Hne).
    destruct (list.last ads) as [l|] eqn:El; [|by apply last_None in El].
    pose proof (k_last0 ltac:(done) Hne) as Hql. rewrite Hql. unfold deref.
    destruct (chain_last _ _ _ _ _ k_chain0 El) as (v & Hhl). rewrite Hhl. cbn [n_val n_next].
    assert (Hch : chain (<[l := mkNode v (Some nw)]> (heap q)) (first q) (num r + Z.b2z (moved st')) (ads ++ [nw])).
    { apply chain_append; try done. rewrite Hnew. do 2 f_equal. lia. }
    pose proof (zlen_nonneg ads). assert (Hz : zlen (ads ++ [nw]) = zlen ads + 1) by (by rewrite zlen_app).
    case_writer (mkA true t false Half) (ads ++ [nw]); rewrite ?Hz; easy_case.
    + cbn. rewrite Hz, last_snoc. split; [lia|]. split; [done|]. exists l, v. by rewrite lookup_insert_eq.
    + move_token.
    + move_token.
  - injection Hn as <-. cbn in k_writer0. destruct k_writer0 as (Hpos & Hl & b & v & Hql & Hhb). rewrite Hql. unfold deref. rewrite Hhb.
    cbn [n_next]. case_writer (mkA true t false Moved) ads.
  - injection Hn as <-. cbn in k_writer0. case_writer (mkA true t false Loaded) ads.
  - destruct (decide _) as [->|]; [|discriminate Hn]. injection Hn as <-. cbn in k_writer0. destruct k_writer0 as [Hpos ->].
    rewrite (not_counting st' k_rmid0) in k_count0. cbn in k_count0. unfold INT_MAX in Hmax. rewrite s32_ok by lia.
    case_writer (mkA true t false Counted) ads. rewrite (not_counting st' k_rmid0). cbn. lia.
Qed.

Lemma programs_check : check Writer sy begin (queue_add p) = true /\ check Reader sy begin (queue_get p) = true /\
  plain (queue_add p) = true /\ plain (queue_get p) = true.
Proof. unfold checks in Hchecks. rewrite !andb_true_iff in Hchecks. tauto. Qed.

Lemma writer_returns c σw σr ads o a sp : ok c σw σr ads -> todo (writer c) = [Return o] ->
  held σw = false -> token σw = false -> stg σw = (if o then Counted else Start) ->
  writer_fine σr (reader c) (step_stmt Writer (queue_add p) a sp (Return o) [] (queue c) (writer c)).
Proof.
  intros [] Etodo Hh Ht Hst. destruct c as [q [td i nw tp vl rg pr] r cr]. destruct σw as [h t sg st]. fields. subst td h t st.
  destruct programs_check as (Hc & _ & Hp & _). destruct (plain_tail _ Hp) as [Hpl Hna]. unfold begin in Hc. cbn [step_stmt loop].
  destruct o; fields; [destruct (s32 (i + 1)) as [i'|] eqn:E; [apply s32_inv in E as [-> _]|done]|];
    case_writer (mkA false false false Start) ads.
Qed.

Lemma writer_moves c σw σr ads s k a sp : ok c σw σr ads -> todo (writer c) = s :: k ->
  writer_fine σr (reader c) (step_stmt Writer (queue_add p) a sp s k (queue c) (writer c)).
Proof.
  intros Hok Ek. pose proof (k_wtodo _ _ _ _ Hok) as Hc. rewrite Ek in Hc.
  apply check_next in Hc as [(o & -> & -> & ? & ? & ?)|(σ' & Hn & Hk)]; [by eapply writer_returns|].
  destruct s; first [by destruct σw as [? ? ? []] | by eapply writer_asserts | by eapply writer_sync | by eapply writer_data].
Qed.

(** ** Moves of the reader *)

Definition reader_fine (σw : astate) (w : locals) (o : outcome) : Prop :=
  match o with
  | Blocked => True
  | Crash e => e = Overflows
  | Go q me wakes => exists σr' ads', ok (mkConfig q (wake wakes w) me None) σw σr' ads'
  end.

Ltac intro_reader :=
  intros [] Etodo Hn Hk;
  match goal with c : config |- _ => destruct c as [q w [td i nw tp vl rg pr] cr] end;
  match goal with H : next Reader _ ?σr _ = _ |- _ => destruct σr as [h t sg st] end;
  match goal with σw : astate, H : check Writer _ ?σw _ = true |- _ => destruct σw as [h' t' sg' st'] end;
  fields; match type of Etodo with ?td = _ => subst td end; fields;
  match goal with H : plain ?k = true, _ : check Reader _ _ ?k = true |- _ => destruct (plain_tail k H) as [Hpl Hna] end;
  fields; cbn [step_stmt next stg] in *.

Ltac case_reader σ ads := match goal with |- context [reader_fine ?σw] => unfold reader_fine; exists σ, ads; split; easy_case end.

Lemma reader_asserts c σw σr ads s k a sp σ' : ok c σw σr ads -> todo (reader c) = s :: k ->
  next Reader sy σr s = Some σ' -> check Reader sy σ' k = true ->
  match s with Stat _ | AssertAtMost | AssertNonneg => True | _ => False end ->
  reader_fine σw (writer c) (step_stmt Reader (queue_get p) a sp s k (queue c) (reader c)).
Proof.
  intros Hok. pose proof (ok_count _ _ _ _ Hok). revert Hok. intro_reader. destruct s; try done; intros _; cbn [step_stmt next] in *; fields; injection Hn as <-.
  - destruct (s64 _); [|done]. case_reader (mkA h t sg st) ads.
  - destruct (Z.leb_spec (count q) (max_count q)); [case_reader (mkA h t sg st) ads|lia].
  - destruct (Z.leb_spec 0 (count q)); [case_reader (mkA h t sg st) ads|lia].
Qed.

Lemma reader_sync c σw σr ads s k a sp σ' : ok c σw σr ads -> todo (reader c) = s :: k ->
  next Reader sy σr s = Some σ' -> check Reader sy σ' k = true ->
  match s with Lock | Unlock | SemWait _ | SemPost _ | ReturnIf _ | WaitWhile _ | Asleep _ | Signal _ => True | _ => False end ->
  reader_fine σw (writer c) (step_stmt Reader (queue_get p) a sp s k (queue c) (reader c)).
Proof.
  intro_reader. destruct s; try done; intros _; cbn [step_stmt next own_cond own_sem other_cond other_sem] in *; fields;
    unfold reader_at in k_reader0; fields.
  - destruct st, h; try discriminate Hn. injection Hn as <-. destruct (lock q) eqn:El; [exact I|]. destruct h'; [discriminate k_lock0|].
    destruct t.
    + assert (Esy : sy = Sem) by (destruct sy; try done; by destruct (k_tokens0 ltac:(done))).
      destruct (k_full0 Esy). case_reader (mkA true true false Room) ads. cbn. intros ->. change (zlen (@nil loc)) with 0 in *.
      destruct t', (moved st'); cbn in *; lia.
    + case_reader (mkA true false false Start) ads.
  - destruct st, h; cbn in Hn; try discriminate Hn; (destruct h'; [by destruct k_excl0|]).
    + destruct t; try discriminate Hn; injection Hn as <-. case_reader (mkA false false false Start) ads.
    + assert (Hs : sy = Cond -> sg = true) by (intros ->; by destruct sg).
      assert (Hc : check Reader sy (mkA false t false Counted) k = true) by (destruct sy, sg; by simplify_eq).
      assert (Hrs : asleep w = true -> zlen ads = max).
      { intros Hr. destruct (asleep_cond Writer _ _ k_wtodo0 Hr) as [E _]. rewrite (Hs E) in k_wsleep0. destruct (k_wsleep0 Hr); done. }
      case_reader (mkA false t false Counted) ads.
  - destruct st; try discriminate Hn. destruct (decide _) as [->|]; [|discriminate Hn]. assert (Esy : sy = Sem) by (by destruct sy). rewrite Esy in Hn.
    destruct h, t; try discriminate Hn. injection Hn as <-. destruct (Z.ltb_spec 0 (sems q full_sem)); [|exact I].
    case_reader (mkA false true false Start) ads.
  - destruct st; try discriminate Hn. destruct (decide _) as [->|]; [|discriminate Hn].
    destruct t; try discriminate Hn. injection Hn as <-. case_reader (mkA h false sg Counted) ads.
  - destruct st; try discriminate Hn. destruct (decide _) as [->|]; [|discriminate Hn]. assert (Esy : sy = Try) by (by destruct sy). rewrite Esy in Hn.
    destruct h, t; try discriminate Hn. injection Hn as <-. destruct h'; [by destruct k_excl0|].
    assert (Hz : count q = zlen ads) by (rewrite k_count0, (not_counting st' k_wmid0); cbn; lia). unfold test. destruct (Z.eqb_spec (count q) 0).
    + case_reader (mkA true false false Start) ads.
    + case_reader (mkA true false false Room) ads. cbn. by intros ->.
  - destruct st; try discriminate Hn. destruct (decide _) as [->|]; [|discriminate Hn]. assert (Esy : sy = Cond) by (by destruct sy). rewrite Esy in Hn.
    destruct h, t; try discriminate Hn. injection Hn as <-. destruct h'; [by destruct k_excl0|].
    assert (Hz : count q = zlen ads) by (rewrite k_count0, (not_counting st' k_wmid0); cbn; lia). unfold test. destruct (Z.eqb_spec (count q) 0).
    + case_reader (mkA false false false Start) ads. cbn. rewrite Esy. cbn. by rewrite <- Esy.
    + case_reader (mkA true false false Room) ads. cbn. by intros ->.
  - destruct st; try discriminate Hn. destruct (decide _) as [->|]; [|discriminate Hn]. assert (Esy : sy = Cond) by (by destruct sy). rewrite Esy in Hn.
    destruct h, t; try discriminate Hn. injection Hn as <-. destruct sp; [|exact I].
    case_reader (mkA false false sg Start) ads.
  - destruct st; try discriminate Hn. destruct (decide _) as [->|]; [|discriminate Hn]. assert (Esy : sy = Cond) by (by destruct sy). rewrite Esy in Hn.
    destruct h; try discriminate Hn. injection Hn as <-.
    destruct (wake_signal Writer _ _ k_wtodo0 k_wplain0) as (k2 & Hwk & Hc2 & Hp2 & Hn2). cbn [own_cond] in Hwk.
    unfold reader_fine. rewrite Hwk. exists (mkA true t true Counted), ads. split; easy_case.
Qed.

Lemma reader_data c σw σr ads s k a sp σ' : ok c σw σr ads -> todo (reader c) = s :: k ->
  next Reader sy σr s = Some σ' -> check Reader sy σ' k = true ->
  match s with TmpFirst | ReadVal | FirstNext | FreeTmp | LoadCount | StoreCount _ => True | _ => False end ->
  reader_fine σw (writer c) (step_stmt Reader (queue_get p) a sp s k (queue c) (reader c)).
Proof.
  intros Hok. pose proof (ok_count _ _ _ _ Hok). revert Hok. intro_reader. destruct s; try done; intros _; cbn [step_stmt next] in *;
    destruct st; try discriminate Hn; fields; pose proof (k_rmid0 eq_refl) as ->; (destruct h'; [by destruct k_excl0|]).
  - injection Hn as <-. cbn in k_reader0. case_reader (mkA true t false Loaded) ads.
  - destruct (decide _) as [->|]; [|discriminate Hn]. injection Hn as <-. cbn in k_reader0. destruct k_reader0 as (Hlt & Hv & ->).
    rewrite (not_counting st' k_wmid0) in k_count0. cbn in k_count0. unfold INT_MAX in Hmax. rewrite s32_ok by lia.
    case_reader (mkA true t false Counted) ads. rewrite (not_counting st' k_wmid0). cbn. lia.
  - injection Hn as <-. cbn in k_reader0. case_reader (mkA true t false Tmp) ads. cbn. split; [done|]. by destruct k_chain0.
  - injection Hn as <-. cbn in k_reader0. destruct k_reader0 as [Hne ->]. destruct ads as [|b ads]; [done|].
    destruct (chain_tail _ _ _ _ _ k_chain0) as (_ & _ & Hb). unfold deref. cbn [lookup list_lookup]. rewrite Hb. cbn [n_val].
    case_reader (mkA true t false Val) (b :: ads). 
  - assert (Hlink : sy = Sem -> t = true) by (intros ->; by destruct t).
    assert (Hk' : check Reader sy (mkA true t false Unlinked) k = true) by (destruct sy, t; by simplify_eq).
    cbn in k_reader0. destruct k_reader0 as (Hne & Htmp & Hv). destruct ads as [|b ads]; [done|].
    destruct (chain_tail _ _ _ _ _ k_chain0) as (Hch & Hni & Hb). rewrite (ch_first _ _ _ _ k_chain0). unfold deref. cbn [lookup list_lookup]. rewrite Hb. cbn [n_next].
    pose proof (zlen_nonneg ads). rewrite zlen_cons in *. case_reader (mkA true t false Unlinked) ads.
    + by rewrite Z.add_0_r in Hch.
    + intros Hst Hne'. rewrite (k_last0 Hst Hne). by destruct ads.
    + cbn. split; [lia|]. split; [done|]. exists b. rewrite Hb. by split_and!.
    + move_token.
    + move_token.
  - injection Hn as <-. cbn in k_reader0. destruct k_reader0 as (Hlt & Hv & b & -> & [x Hx] & Hni). unfold deref. rewrite Hx.
    pose proof (chain_delete _ _ _ _ b k_chain0 Hni). case_reader (mkA true t false Moved) ads.
Qed.

Lemma reader_returns c σw σr ads o a sp : ok c σw σr ads -> todo (reader c) = [Return o] ->
  held σr = false -> token σr = false -> stg σr = (if o then Counted else Start) ->
  reader_fine σw (writer c) (step_stmt Reader (queue_get p) a sp (Return o) [] (queue c) (reader c)).
Proof.
  intros [] Etodo Hh Ht Hst. destruct c as [q w [td i nw tp vl rg pr] cr]. destruct σr as [h t sg st]. fields. subst td h t st.
  destruct programs_check as (_ & Hc & _ & Hp). destruct (plain_tail _ Hp) as [Hpl Hna]. unfold begin in Hc. cbn [step_stmt loop].
  destruct o; fields.
  - cbn in k_reader0. subst vl. rewrite Z.eqb_refl. destruct (s32 (i + 1)) as [i'|] eqn:E; [apply s32_inv in E as [-> _]|done].
    case_reader (mkA false false false Start) ads. by rewrite Z.add_0_r.
  - case_reader (mkA false false false Start) ads.
Qed.

Lemma reader_moves c σw σr ads s k a sp : ok c σw σr ads -> todo (reader c) = s :: k ->
  reader_fine σw (writer c) (step_stmt Reader (queue_get p) a sp s k (queue c) (reader c)).
Proof.
  intros Hok Ek. pose proof (k_rtodo _ _ _ _ Hok) as Hc. rewrite Ek in Hc.
  apply check_next in Hc as [(o & -> & -> & ? & ? & ?)|(σ' & Hn & Hk)]; [by eapply reader_returns|].
  destruct s; first [by destruct σr as [? ? ? []] | by eapply reader_asserts | by eapply reader_sync | by eapply reader_data].
Qed.

(** ** The whole program *)

(** The invariant holds; a counter may have overflowed, and the program stopped. *)
Definition fine (c : config) : Prop :=
  (exists σw σr ads, ok (mkConfig (queue c) (writer c) (reader c) None) σw σr ads) /\
  (crashed c = None \/ crashed c = Some Overflows).

Lemma fine_start : fine (start p max).
Proof.
  split; [|by left]. exists begin, begin, []. destruct programs_check as (Hw & Hr & Hpw & Hpr).
  destruct (plain_tail _ Hpw) as [? ?], (plain_tail _ Hpr) as [? ?]. change (zlen (@nil loc)) with 0.
  split; cbn; try done; try lia.
  1: by constructor; [apply NoDup_nil_2|..].
  all: change (zlen (@nil loc)) with 0; unfold asleep; cbn [todo]; try lia; congruence.
Qed.

Lemma fine_step c c' : fine c -> step (exec p) c c' -> fine c'.
Proof.
  intros [(σw & σr & ads & Hok) Hcr] ([i a] & He); unfold exec in He. destruct (crashed c); [done|]. clear Hcr.
  cbn [fst snd] in He. destruct i as [|[|i]]; [| |done].
  - destruct (todo (writer c)) as [|s k] eqn:Ek; [done|]. pose proof (writer_moves _ σw σr ads s k (addr a) (spurious a) Hok Ek) as Hf. cbn in Hf.
    destruct (step_stmt _ _ _ _ _ _ _ _) as [|e|q me wk]; [done|..]; injection He as <-; cbn in Hf; [split; [by exists σw, σr, ads|right; by subst]|].
    split; [|by left]. destruct Hf as (σw' & ads' & Hf). by exists σw', σr, ads'.
  - destruct (todo (reader c)) as [|s k] eqn:Ek; [done|]. pose proof (reader_moves _ σw σr ads s k (addr a) (spurious a) Hok Ek) as Hf. cbn in Hf.
    destruct (step_stmt _ _ _ _ _ _ _ _) as [|e|q me wk]; [done|..]; injection He as <-; cbn in Hf; [split; [by exists σw, σr, ads|right; by subst]|].
    split; [|by left]. destruct Hf as (σr' & ads' & Hf). by exists σw, σr', ads'.
Qed.

Lemma fine_reach c : rtc (step (exec p)) (start p max) c -> fine c.
Proof. intros Hr. apply (steps_keep _ fine) in Hr; [done|exact fine_step|exact fine_start]. Qed.

(** ** No deadlock *)

(** What a thread can be held up by. *)
Definition waits (who : role) (q : queue_t) (s : stmt) : Prop :=
  match s with
  | Lock => lock q <> None
  | SemWait sm => sems q sm <= 0
  | Asleep _ => True
  | _ => False
  end.

Lemma goes_on who prog s k q me : (waits who q s -> False) ->
  step_stmt who prog (fresh (dom (heap q))) false s k q me <> Blocked.
Proof.
  intros Hw. destruct s; cbn [step_stmt]; cbn in Hw; try done; try by repeat case_match.
  - destruct (lock q); [by destruct Hw|done].
  - destruct (Z.ltb_spec 0 (sems q s)); [done|]. exfalso. apply Hw. lia.
  - assert (Hf : heap q !! fresh (dom (heap q)) = None) by (apply not_elem_of_dom, is_fresh). by rewrite Hf.
Qed.

(** A thread that waits does not have the lock; for a semaphore or asleep, it has not
    begun. *)
Lemma waiting who σ q s k : check who sy σ (s :: k) = true -> waits who q s ->
  held σ = false /\ (lock q = None -> stg σ = Start /\ token σ = false /\
    (sy = Sem /\ sems q (own_sem who) <= 0 \/ sy = Cond /\ sleeping (s :: k) = true)).
Proof.
  intros Hc Hw. apply check_next in Hc as [(o & -> & _)|(σ' & Hn & _)]; [done|]. destruct σ as [h t sg st].
  destruct s; try done; cbn in Hn, Hw; destruct st; try discriminate Hn.
  - destruct h; [done|]. split; [done|]. intros E. by destruct Hw.
  - destruct (decide _) as [->|]; [|done]. destruct sy; try discriminate Hn. destruct h, t; try discriminate Hn. split; [done|].
    intros _. split; [done|]. split; [done|]. by left.
  - destruct (decide _) as [->|]; [|done]. destruct sy; try discriminate Hn. destruct h, t; try discriminate Hn. split; [done|].
    intros _. split; [done|]. split; [done|]. by right.
Qed.

Lemma never_stuck c : 0 < max -> fine c -> crashed c = None ->
  exists i a c', spurious a = false /\ exec p c (i, a) = Some c'.
Proof.
  intros Hpos [(σw & σr & ads & Hok) _] Hcr. pose proof (k_wtodo _ _ _ _ Hok) as Hw. pose proof (k_rtodo _ _ _ _ Hok) as Hr. cbn [queue writer reader] in *.
  destruct (todo (writer c)) as [|sw kw] eqn:Ew; [done|]. destruct (todo (reader c)) as [|sr kr] eqn:Er; [done|].
  assert (Hgo : (waits Writer (queue c) sw -> False) \/ (waits Reader (queue c) sr -> False) ->
    exists i a c', spurious a = false /\ exec p c (i, a) = Some c').
  { intros [Hg|Hg]; [exists 0%nat|exists 1%nat]; exists (mkAction (fresh (dom (heap (queue c)))) false); unfold exec; cbn [fst snd addr spurious];
      rewrite Hcr, ?Ew, ?Er.
    - pose proof (goes_on Writer (queue_add p) sw kw (queue c) (writer c) Hg). destruct (step_stmt _ _ _ _ _ _ _ _); eauto; done.
    - pose proof (goes_on Reader (queue_get p) sr kr (queue c) (reader c) Hg). destruct (step_stmt _ _ _ _ _ _ _ _); eauto; done. }
  apply Hgo. clear Hgo.
  assert (Hdec : forall who q s, waits who q s \/ (waits who q s -> False)).
  { intros who q s. destruct s; cbn; auto; [destruct (lock q); auto; right; auto|lia]. }
  destruct (Hdec Writer (queue c) sw) as [Hww|]; [|by left]. destruct (Hdec Reader (queue c) sr) as [Hwr|]; [|by right]. exfalso.
  destruct (waiting _ _ _ _ _ Hw Hww) as [Hhw Hfw], (waiting _ _ _ _ _ Hr Hwr) as [Hhr Hfr].
  assert (Hl : lock (queue c) = None) by (pose proof (k_lock _ _ _ _ Hok) as E; by rewrite Hhw, Hhr in E).
  destruct (Hfw Hl) as (Hsw & Htw & [[E Hsem]|[E Hsl]]), (Hfr Hl) as (Hsr & Htr & [[E' Hsem']|[E' Hsl']]); try congruence.
  - destruct (k_empty _ _ _ _ Hok E) as [? He], (k_full _ _ _ _ Hok E) as [? Hf]. cbn [own_sem queue] in *. rewrite Htw, Htr, Hsw, Hsr in *. cbn in He, Hf. lia.
  - pose proof (k_wsleep _ _ _ _ Hok) as Hzw. pose proof (k_rsleep _ _ _ _ Hok) as Hzr. unfold asleep in *. cbn [writer reader] in *. rewrite Ew, Hhr in Hzw. rewrite Er, Hhw in Hzr.
    destruct (Hzw Hsl), (Hzr Hsl'); done || lia.
Qed.
End Safety.

(** The versions of the queue that synchronise. *)
Definition synchronised (p : program) : Prop := p = spinlock \/ p = mutex \/ p = condvar \/ p = semaphore.

Lemma synchronised_checks p : synchronised p -> exists sy, checks sy p = true.
Proof. intros [->|[->|[->| ->]]]; [exists Try|exists Try|exists Cond|exists Sem]; reflexivity. Qed.

(** C1.  Every synchronised version of the queue is safe, however the threads
    interleave: no freed or null node is used, no assertion fails (only a counter can
    overflow, after 2^31 values), the reader never prints that it got another value
    than the expected one, [count] stays between 0 and [max_count], and whenever
    nobody holds the lock the nodes hold the consecutive numbers that were added and
    not yet taken, and [count] is how many there are. *)
Theorem queue_safe (p : program) (max : Z) (c : config) :
  synchronised p -> 0 <= max <= INT_MAX -> rtc (step (exec p)) (start p max) c ->
  (crashed c = None \/ crashed c = Some Overflows) /\ printed (reader c) = [] /\ 0 <= count (queue c) <= max /\
  (lock (queue c) = None ->
     exists n ads, chain (heap (queue c)) (first (queue c)) n ads /\ count (queue c) = zlen ads /\
       num (reader c) <= n <= num (reader c) + 1 /\ num (writer c) <= n + zlen ads <= num (writer c) + 1).
Proof.
  intros Hp Hmax Hr. destruct (synchronised_checks p Hp) as (sy & Hsy).
  destruct (fine_reach sy max p Hmax Hsy c Hr) as [(σw & σr & ads & Hok) Hcr].
  split; [done|]. split; [by destruct Hok|]. split; [by eapply ok_count in Hok|]. destruct Hok; cbn [queue writer reader crashed] in *. intros Hl. rewrite Hl in k_lock0.
  destruct (held σw); [done|]. destruct (held σr); [done|].
  exists (num (reader c) + Z.b2z (moved (stg σr))), ads. split; [done|]. split; [by rewrite k_count0, (not_counting _ k_wmid0), (not_counting _ k_rmid0); cbn; lia|].
  destruct (moved (stg σw)), (moved (stg σr)); cbn in *; lia.
Qed.

(** The condition variable version with one place: the writer has added 0 and waits for
    room, the reader gets 0. *)
Definition condvar_sample : list (nat * action) := turns 0 18 ++ turns 1 13.

Lemma queue_safe_witness :
  match run (exec condvar) condvar_sample (start condvar 1) with
  | Some c => asleep (writer c) = false /\ printed (reader c) = [] /\ 0 <= count (queue c) <= 1
  | None => False
  end.
Proof.
  destruct (run (exec condvar) condvar_sample (start condvar 1)) as [c|] eqn:E; [|vm_compute in E; discriminate E].
  pose proof (queue_safe condvar 1 c) as H. split.
  - vm_compute in E. injection E as <-. reflexivity.
  - destruct H as (_ & Hp & Hc & _); [right; right; left; reflexivity|vm_compute; split; discriminate|by apply (run_steps _ condvar_sample)|].
    by split.
Defined.

(** C27.  No deadlock: in every state that a synchronised version with room for at
    least one value can reach (unless a counter has overflowed), one of the two
    threads can go on, without a spurious wake-up. *)
Theorem queue_never_stuck (p : program) (max : Z) (c : config) :
  synchronised p -> 0 < max <= INT_MAX -> rtc (step (exec p)) (start p max) c -> crashed c = None ->
  exists i a c', spurious a = false /\ exec p c (i, a) = Some c'.
Proof.
  intros Hp Hmax Hr Hcr. destruct (synchronised_checks p Hp) as (sy & Hsy).
  eapply (never_stuck sy max p); try done; [lia|lia|]. eapply (fine_reach sy max p); try done; lia.
Qed.

Lemma queue_never_stuck_witness : exists i a c', spurious a = false /\ exec semaphore (start semaphore 1) (i, a) = Some c'.
Proof.
  apply (queue_never_stuck semaphore 1); [right; right; right; reflexivity|vm_compute; split; [reflexivity|discriminate]|apply rtc_refl|reflexivity].
Defined.

Definition race : list (nat * action) := turns 0 14 ++ [turn 0 1; turn 0 1] ++ turns 1 7 ++ [turn 0 1].

(** Without synchronisation the queue is not safe: the writer has tested that the
    queue is not empty, the reader takes and frees the only node, and the writer writes
    into the freed node. *)
Theorem no_sync_races :
  exists c, rtc (step (exec no_sync)) (start no_sync QUEUE_SIZE) c /\ crashed c = Some BadPointer.
Proof.
  destruct (run (exec no_sync) race (start no_sync QUEUE_SIZE)) as [c|] eqn:E; [|vm_compute in E; discriminate E].
  exists c. split; [by apply (run_steps _ race)|]. vm_compute in E. injection E as <-. reflexivity.
Qed.
