(* ===== verification/ProxyHash.v ===== *)
(** * OS-Labs/11-http-proxy/common: dynamic array, MurmurHash 1 and hash map

    [dynarray.h], [murmurhash.c], [hashmap.c] and the key functions of [cache.c]
    ([buffer_hash], [buffer_cmp]).  The cells of a dynamic array are options: a cell
    that was never written cannot be read.  Every call of [realloc] takes its answer
    from a list, as in the prelude.  Sizes are below 2^59, so that [size_t] arithmetic
    does not wrap. *)
From stdpp Require Import gmap.
From S2P Require Import Prelude.

Definition OK : Z := 0.
Definition ERROR : Z := -1.
Definition ENOENT : Z := 2.
Definition ENOMEM : Z := 12.
Definition EEXIST : Z := 17.

(** ** Dynamic array *)

Definition DYNARRAY_START_CAPACITY : Z := 10.

Record dynarray_t (A : Type) := mkDyn { dsize : Z; capacity : Z; data : list (option A) }.
Arguments mkDyn {A} dsize capacity data.
Arguments dsize {A} d.
Arguments capacity {A} d.
Arguments data {A} d.

Section Dynarray.
Context {A : Type}.
Implicit Types (ar : dynarray_t A) (l : list A) (mem : list bool).

Definition dynarray_grow (n : Z) : Z := if n =? 0 then DYNARRAY_START_CAPACITY else (n * 15 + 9) / 10.

(** [realloc] keeps the cells that fit; new cells are not initialised. *)
Definition realloc (cells : list (option A)) (n : Z) : list (option A) :=
  take (Z.to_nat n) cells ++ replicate (Z.to_nat n - length cells) None.

Definition dynarray_reserve (mem : list bool) ar (cap : Z) : Z * dynarray_t A * list bool :=
  if cap <=? capacity ar then (OK, ar, mem)
  else
    let '(ok, mem) := malloc mem in
    if ok then (OK, mkDyn (dsize ar) cap (realloc (data ar) cap), mem) else (ENOMEM, ar, mem).

Definition dynarray_create : dynarray_t A := mkDyn 0 0 [].

Definition dynarray_destroy ar : dynarray_t A := mkDyn 0 0 [].

Definition dynarray_size ar : Z := dsize ar.

(** Room for one more element. *)
Definition dynarray_ensure (mem : list bool) ar : Z * dynarray_t A * list bool :=
  if dsize ar + 1 >? capacity ar then dynarray_reserve mem ar (dynarray_grow (capacity ar)) else (OK, ar, mem).

Definition dynarray_push_back (mem : list bool) ar (obj : A) : res (Z * dynarray_t A * list bool) :=
  let '(err, ar, mem) := dynarray_ensure mem ar in
  if err =? OK then
    let* d := arr_set (data ar) (dsize ar) (Some obj) in
    Ok (OK, mkDyn (dsize ar + 1) (capacity ar) d, mem)
  else Ok (err, ar, mem).

(** The index of the new cell, whose content is whatever the memory holds. *)
Definition dynarray_emplace_back (mem : list bool) ar : res (option Z * dynarray_t A * list bool) :=
  let '(err, ar, mem) := dynarray_ensure mem ar in
  if err =? OK then Ok (Some (dsize ar), mkDyn (dsize ar + 1) (capacity ar) (data ar), mem)
  else Ok (None, ar, mem).

(** Reading through the pointer to the element. *)
Definition dynarray_at ar (idx : Z) : res A :=
  check! assert (idx <? dsize ar) in
  let* c := arr_get (data ar) idx in
  match c with Some x => Ok x | None => Err Undefined end.

(** Writing through it. *)
Definition dynarray_put ar (idx : Z) (x : A) : res (dynarray_t A) :=
  let* d := arr_set (data ar) idx (Some x) in
  Ok (mkDyn (dsize ar) (capacity ar) d).

Definition dynarray_insert (mem : list bool) ar (idx : Z) (obj : A) : res (Z * dynarray_t A * list bool) :=
  check! assert (idx <=? dsize ar) in
  let '(err, ar, mem) := dynarray_ensure mem ar in
  if err =? OK then
    let* d := memmove (data ar) (idx + 1) (data ar) idx (dsize ar - idx) in
    let* d := arr_set d (dsize ar) (Some obj) in
    Ok (OK, mkDyn (dsize ar + 1) (capacity ar) d, mem)
  else Ok (err, ar, mem).

Definition dynarray_remove ar (idx : Z) : res (dynarray_t A) :=
  check! assert (idx <? dsize ar) in
  let* d := memmove (data ar) idx (data ar) (idx + 1) (dsize ar - idx - 1) in
  Ok (mkDyn (dsize ar - 1) (capacity ar) d).

Definition dynarray_reset ar : dynarray_t A := mkDyn 0 (capacity ar) (data ar).

(** *** The array holds a list *)

Record dyn_ok ar l : Prop := {
  d_size : dsize ar = zlen l;
  d_data : exists rest, data ar = (Some <$> l) ++ rest;
  d_cap : capacity ar = zlen (data ar)
}.

Lemma dyn_room ar l : dyn_ok ar l -> zlen l <= capacity ar.
Proof. intros [Hs (rest & Hd) Hc]. rewrite Hc, Hd. unfold zlen. rewrite length_app, length_fmap. lia. Qed.

Lemma grow_larger n : 0 <= n -> n < dynarray_grow n.
Proof. intros. unfold dynarray_grow, DYNARRAY_START_CAPACITY. destruct (Z.eqb_spec n 0); [lia|]. apply Z.lt_le_trans with (n + 1); [lia|]. apply Z.div_le_lower_bound; lia. Qed.

Lemma realloc_app (l : list A) rest n : zlen l <= n -> exists rest', realloc ((Some <$> l) ++ rest) n = (Some <$> l) ++ rest' /\
  zlen ((Some <$> l) ++ rest') = n.
Proof.
  intros Hn. unfold realloc. exists (take (Z.to_nat n - length l) rest ++ replicate (Z.to_nat n - (length l + length rest)) None).
  rewrite app_assoc, length_app, length_fmap. split.
  - f_equal. rewrite take_app_ge by (rewrite length_fmap; unfold zlen in Hn; lia). by rewrite length_fmap.
  - unfold zlen in *. rewrite !length_app, length_fmap, length_take, length_replicate. lia.
Qed.

Lemma reserve_spec mem ar l cap : dyn_ok ar l ->
  exists ar' mem', (dynarray_reserve mem ar cap = (OK, ar', mem') /\ dyn_ok ar' l /\ cap <= capacity ar' \/
    dynarray_reserve mem ar cap = (ENOMEM, ar', mem') /\ ar' = ar /\ mem <> []) /\ (mem = [] -> mem' = []).
Proof.
  intros Hok. pose proof (dyn_room _ _ Hok) as Hroom. destruct Hok as [Hs (rest & Hd) Hc]. unfold dynarray_reserve.
  destruct (Z.leb_spec cap (capacity ar)); [exists ar, mem; split; [left|done]; split; [done|]; split; [split; eauto|done]|].
  destruct mem as [|[] mem]; cbn [malloc]; [| |by eexists _, _; split; [right|]; [split; [done|]|]].
  all: eexists _, _; split; [left; split; [done|]|done]; destruct (realloc_app l rest cap) as (rest' & Er & Hl); [lia|].
  all: cbn [capacity]; split; [split; cbn [dsize data capacity]; [done| |]|lia]; rewrite Hd, Er; eauto.
Qed.

Lemma ensure_spec mem ar l : dyn_ok ar l ->
  exists ar' mem', (dynarray_ensure mem ar = (OK, ar', mem') /\ dyn_ok ar' l /\ zlen l + 1 <= capacity ar' \/
    dynarray_ensure mem ar = (ENOMEM, ar', mem') /\ ar' = ar /\ mem <> []) /\ (mem = [] -> mem' = []).
Proof.
  intros Hok. pose proof (dyn_room _ _ Hok) as Hroom. pose proof (d_size _ _ Hok) as Hs. unfold dynarray_ensure. rewrite Z.gtb_ltb.
  destruct (Z.ltb_spec (capacity ar) (dsize ar + 1)); [|exists ar, mem; split; [left|done]; split; [done|]; split; [done|lia]].
  pose proof (zlen_nonneg l). pose proof (grow_larger (capacity ar)).
  destruct (reserve_spec mem ar l (dynarray_grow (capacity ar)) Hok) as (ar' & mem' & [(E & Hok' & Hc)|(E & -> & Hm)] & Hmem); rewrite E.
  - exists ar', mem'. split; [left|done]. split; [done|]. split; [done|lia].
  - exists ar, mem'. split; [right|done]. done.
Qed.

Lemma dyn_set ar l (x : A) : dyn_ok ar l -> zlen l + 1 <= capacity ar ->
  exists d, arr_set (data ar) (dsize ar) (Some x) = Ok d /\ dyn_ok (mkDyn (dsize ar + 1) (capacity ar) d) (l ++ [x]).
Proof.
  intros [Hs (rest & Hd) Hc] Hr. pose proof (zlen_nonneg l). rewrite arr_set_ok by lia. eexists. split; [done|]. split; cbn [dsize data capacity].
  - rewrite zlen_app. change (zlen [x]) with 1. lia.
  - rewrite Hd, Hs. unfold zset, zlen. rewrite Nat2Z.id. destruct rest as [|c rest].
    + rewrite Hc, Hd in Hr. unfold zlen in Hr. rewrite length_app, length_fmap in Hr. cbn in Hr. lia.
    + exists rest. rewrite insert_app_r_alt by (rewrite length_fmap; lia). rewrite length_fmap, Nat.sub_diag, fmap_app, <- app_assoc. done.
  - by rewrite zlen_zset.
Qed.

Lemma push_back_spec mem ar l (x : A) : dyn_ok ar l ->
  exists err ar' mem', dynarray_push_back mem ar x = Ok (err, ar', mem') /\ (mem = [] -> mem' = []) /\
    (err = OK /\ dyn_ok ar' (l ++ [x]) \/ err = ENOMEM /\ dyn_ok ar' l /\ mem <> []).
Proof.
  intros Hok. unfold dynarray_push_back.
  destruct (ensure_spec mem ar l Hok) as (ar' & mem' & [(-> & Hok' & Hc)|(-> & -> & Hm)] & Hmem).
  - rewrite Z.eqb_refl. destruct (dyn_set ar' l x Hok' Hc) as (d & -> & Hd). eexists _, _, _. split; [done|]. split; [done|]. by left.
  - eexists _, _, _. split; [done|]. split; [done|]. by right.
Qed.

Lemma at_spec ar l idx (x : A) : dyn_ok ar l -> l !! Z.to_nat idx = Some x -> 0 <= idx -> dynarray_at ar idx = Ok x.
Proof.
  intros [Hs (rest & Hd) Hc] Hx Hi. unfold dynarray_at. pose proof (lookup_lt_Some _ _ _ Hx).
  destruct (Z.ltb_spec idx (dsize ar)); [|unfold zlen in *; lia]. cbn. unfold arr_get. destruct (Z.leb_spec 0 idx); [|lia].
  rewrite Hd, lookup_app_l by (rewrite length_fmap; lia). by rewrite list_lookup_fmap, Hx.
Qed.

Lemma put_spec ar l idx (x : A) : dyn_ok ar l -> 0 <= idx < zlen l ->
  exists ar', dynarray_put ar idx x = Ok ar' /\ dyn_ok ar' (<[Z.to_nat idx := x]> l).
Proof.
  intros Hok Hi. pose proof (dyn_room _ _ Hok). destruct Hok as [Hs (rest & Hd) Hc]. unfold dynarray_put. rewrite arr_set_ok by lia.
  eexists. split; [done|]. split; cbn [dsize data capacity].
  - unfold zlen in *. by rewrite length_insert.
  - exists rest. rewrite Hd. unfold zset. rewrite insert_app_l by (rewrite length_fmap; unfold zlen in Hi; lia). by rewrite list_fmap_insert.
  - by rewrite zlen_zset.
Qed.

(** [dynarray_remove] takes out the element at the index. *)
Lemma remove_spec ar l1 (x : A) l2 : dyn_ok ar (l1 ++ x :: l2) ->
  exists ar', dynarray_remove ar (zlen l1) = Ok ar' /\ dyn_ok ar' (l1 ++ l2).
Proof.
  intros Hok. pose proof (dyn_room _ _ Hok) as Hroom. destruct Hok as [Hs (rest & Hd) Hc]. unfold dynarray_remove.
  rewrite zlen_app, zlen_cons in *. pose proof (zlen_nonneg l1). pose proof (zlen_nonneg l2).
  destruct (Z.ltb_spec (zlen l1) (dsize ar)); [|lia]. cbn. rewrite memmove_ok by lia. eexists. split; [done|].
  split; cbn [dsize data capacity].
  - rewrite zlen_app. lia.
  - rewrite Hd, fmap_app, fmap_cons, <- app_assoc. unfold zlen.
    rewrite take_app_length' by (rewrite length_fmap; lia).
    replace (Z.to_nat (Z.of_nat (length l1) + 1)) with (S (length l1)) by lia.
    rewrite (drop_app_ge _ _ (S (length l1))) by (rewrite length_fmap; lia). rewrite length_fmap. replace (S (length l1) - length l1)%nat with 1%nat by lia.
    exists (drop (Z.to_nat (zlen l1 + (dsize ar - zlen l1 - 1))) ((Some <$> l1) ++ (Some x :: (Some <$> l2)) ++ rest)).
    rewrite fmap_app, <- app_assoc. f_equal. change (drop 1 ((Some x :: (Some <$> l2)) ++ rest)) with ((Some <$> l2) ++ rest).
    rewrite take_app_length' by (rewrite length_fmap; unfold zlen in *; lia). done.
  - rewrite Hc. unfold zlen at 1 2. f_equal. symmetry. apply memmove_length; lia.
Qed.
End Dynarray.

(** [dynarray_insert] shifts the tail but then writes the new element behind it, so an
    insertion at 0 into 1, 2 gives 1, 1, 9. *)
Example insert_misplaces :
  dynarray_insert [] (mkDyn 2 3 [Some 1; Some 2; None]) 0 9 = Ok (OK, mkDyn 3 3 [Some 1; Some 1; Some 9], []).
Proof. reflexivity. Qed.

(** ** MurmurHash 1 *)

Definition seed : Z := 0xdeadbeef.
Definition murmur_m : Z := 0xc6a4a793.

(** The loop over whole words, read in little-endian order: the hash and the bytes left. *)
Fixpoint murmur_words (h : Z) (bytes : list Z) : Z * list Z :=
  match bytes with
  | b0 :: b1 :: b2 :: b3 :: rest =>
      let k := Z.lor b0 (Z.lor (Z.shiftl b1 8) (Z.lor (Z.shiftl b2 16) (Z.shiftl b3 24))) in
      let h := u32 (h + k) in
      let h := u32 (h * murmur_m) in
      murmur_words (Z.lxor h (Z.shiftr h 16)) rest
  | _ => (h, bytes)
  end.

(** The [switch] over the bytes left, which falls through. *)
Definition murmur_tail (h : Z) (bytes : list Z) : Z :=
  let byte1 h b := let h := u32 (h + b) in let h := u32 (h * murmur_m) in Z.lxor h (Z.shiftr h 16) in
  match bytes with
  | [b0; b1; b2] => byte1 (u32 (u32 (h + Z.shiftl b2 16) + Z.shiftl b1 8)) b0
  | [b0; b1] => byte1 (u32 (h + Z.shiftl b1 8)) b0
  | [b0] => byte1 h b0
  | _ => h
  end.

Definition murmurhash1 (bytes : list Z) : Z :=
  let h := Z.lxor seed (u32 (zlen bytes * murmur_m)) in
  let '(h, rest) := murmur_words h bytes in
  let h := murmur_tail h rest in
  let h := u32 (h * murmur_m) in
  let h := Z.lxor h (Z.shiftr h 10) in
  let h := u32 (h * murmur_m) in
  Z.lxor h (Z.shiftr h 17).

(** ** Hash map *)

Record hashmap_entry_t (K V : Type) := mkEntry { e_hash : Z; e_key : K; e_value : V }.
Arguments mkEntry {K V} e_hash e_key e_value.
Arguments e_hash {K V} h.
Arguments e_key {K V} h.
Arguments e_value {K V} h.

Record hashmap_t (K V : Type) := mkHash {
  buckets : dynarray_t (dynarray_t (hashmap_entry_t K V));
  hm_size : Z;
  hashfunc : K -> Z;
  key_cmp : K -> K -> Z
}.
Arguments mkHash {K V} buckets hm_size hashfunc key_cmp.
Arguments buckets {K V} h.
Arguments hm_size {K V} h.
Arguments hashfunc {K V} h.
Arguments key_cmp {K V} h.

Section Hashmap.
Context {K V : Type}.
Local Abbreviation entry := (hashmap_entry_t K V).
Local Abbreviation bucket := (dynarray_t entry).
Implicit Types (hm : hashmap_t K V) (mem : list bool).

Definition hashmap_locate_bucket hm (hash : Z) : Z := hash mod dynarray_size (buckets hm).

(** The loop of [hashmap_create] that makes the buckets. *)
Fixpoint create_loop (n : nat) (mem : list bool) (bs : dynarray_t bucket) : res (dynarray_t bucket * list bool) :=
  match n with
  | O => Ok (bs, mem)
  | S n =>
      let* '(i, bs, mem) := dynarray_emplace_back mem bs in
      match i with
      | Some i => let* bs := dynarray_put bs i dynarray_create in create_loop n mem bs
      | None => Err Undefined
      end
  end.

Definition hashmap_create (mem : list bool) (hf : K -> Z) (cmp : K -> K -> Z) (nr_buckets : Z) : res (Z * hashmap_t K V * list bool) :=
  let '(err, bs, mem) := dynarray_reserve mem (@dynarray_create bucket) nr_buckets in
  if negb (err =? OK) then Ok (err, mkHash (dynarray_destroy bs) 0 hf cmp, mem)
  else
    let* '(bs, mem) := create_loop (Z.to_nat nr_buckets) mem bs in
    Ok (OK, mkHash bs 0 hf cmp, mem).

(** The loop over the entries of a bucket: the index and the entry of the key. *)
Fixpoint find_loop (n : nat) (i : Z) hm (b : bucket) (hash : Z) (key : K) : res (option (Z * entry)) :=
  match n with
  | O => Ok None
  | S n =>
      let* e := dynarray_at b i in
      if (e_hash e =? hash) && (key_cmp hm (e_key e) key =? 0) then Ok (Some (i, e)) else find_loop n (i + 1) hm b hash key
  end.

Definition bucket_find hm (b : bucket) (hash : Z) (key : K) : res (option (Z * entry)) :=
  find_loop (Z.to_nat (dynarray_size b)) 0 hm b hash key.

Definition with_bucket hm (i : Z) (b : bucket) : res (hashmap_t K V) :=
  let* bs := dynarray_put (buckets hm) i b in
  Ok (mkHash bs (hm_size hm) (hashfunc hm) (key_cmp hm)).

(** The error and [old_value]. *)
Definition hashmap_insert (mem : list bool) hm (key : K) (value : V) : res (Z * option V * hashmap_t K V * list bool) :=
  let hash := hashfunc hm key in
  let i := hashmap_locate_bucket hm hash in
  let* b := dynarray_at (buckets hm) i in
  let* found := bucket_find hm b hash key in
  match found with
  | Some (_, e) => Ok (EEXIST, Some (e_value e), hm, mem)
  | None =>
      let* '(err, b, mem) := dynarray_push_back mem b (mkEntry hash key value) in
      let* hm := with_bucket hm i b in
      Ok (err, None, hm, mem)
  end.

Definition hashmap_find hm (key : K) : res (Z * option entry) :=
  let hash := hashfunc hm key in
  let* b := dynarray_at (buckets hm) (hashmap_locate_bucket hm hash) in
  let* found := bucket_find hm b hash key in
  match found with
  | Some (_, e) => Ok (OK, Some e)
  | None => Ok (ENOENT, None)
  end.

Definition hashmap_remove hm (key : K) : res (Z * option entry * hashmap_t K V) :=
  let hash := hashfunc hm key in
  let i := hashmap_locate_bucket hm hash in
  let* b := dynarray_at (buckets hm) i in
  let* found := bucket_find hm b hash key in
  match found with
  | Some (j, e) =>
      let* b := dynarray_remove b j in
      let* hm := with_bucket hm i b in
      Ok (OK, Some e, hm)
  | None => Ok (ENOENT, None, hm)
  end.

Definition hashmap_size hm : Z := hm_size hm.
End Hashmap.

(** The key functions of the cache: a key is the text of a request. *)
Definition buffer_hash (key : list Z) : Z := murmurhash1 key.

Fixpoint memcmp (a b : list Z) : Z :=
  match a, b with
  | x :: a, y :: b => if x =? y then memcmp a b else x - y
  | _, _ => 0
  end.

Definition buffer_cmp (lhs rhs : list Z) : Z := if negb (zlen lhs =? zlen rhs) then -1 else memcmp lhs rhs.

Example hashmap_run :
  match hashmap_create [] buffer_hash buffer_cmp 128 with
  | Ok (err, hm, _) =>
      match hashmap_insert [] hm [71; 69; 84; 32; 47] 1 with
      | Ok (err1, old1, hm, _) =>
          match hashmap_insert [] hm [71; 69; 84; 32; 47] 2, hashmap_remove hm [71; 69; 84; 32; 47] with
          | Ok (err2, old2, _, _), Ok (err3, _, hm) => (err, err1, err2, err3, old1, old2) = (OK, OK, EEXIST, OK, None, Some 1)
          | _, _ => False
          end
      | _ => False
      end
  | _ => False
  end.
Proof. vm_compute. reflexivity. Qed.

(** ** The hash map is a finite map *)

(** What the map relies on in its key functions. *)
Class KeyFunctions {K : Type} (hf : K -> Z) (cmp : K -> K -> Z) : Prop := {
  hash_nonneg k : 0 <= hf k;
  cmp_eq a b : cmp a b = 0 <-> a = b
}.

Lemma memcmp_eq a : forall b, length a = length b -> memcmp a b = 0 <-> a = b.
Proof.
  induction a as [|x a IH]; intros [|y b] Hl; try done. cbn [memcmp]. injection Hl as Hl.
  destruct (Z.eqb_spec x y) as [->|Hne]; [rewrite IH by done; split; congruence|]. split; [lia|congruence].
Qed.

Lemma lxor_nonneg a b : 0 <= a -> 0 <= b -> 0 <= Z.lxor a b.
Proof. intros. apply Z.lxor_nonneg. lia. Qed.

#[export] Instance buffer_key_functions : KeyFunctions buffer_hash buffer_cmp.
Proof.
  split.
  - intros k. unfold buffer_hash, murmurhash1. destruct (murmur_words _ _) as [h rest].
    apply lxor_nonneg; [|apply Z.shiftr_nonneg]; apply Z.mod_pos_bound; lia.
  - intros a b. unfold buffer_cmp. destruct (Z.eqb_spec (zlen a) (zlen b)); cbn [negb]; [apply memcmp_eq; unfold zlen in *; lia|].
    split; [done|]. by intros ->.
Qed.

Section HashmapSpec.
Context {K V : Type} `{Countable K} (hf : K -> Z) (cmp : K -> K -> Z) `{!KeyFunctions hf cmp}.
Local Abbreviation entry := (hashmap_entry_t K V).
Implicit Types (hm : hashmap_t K V) (m : gmap K V) (E : list (list entry)) (es : list entry).

Record entries_ok (nb : Z) (i : nat) es : Prop := {
  en_hash e : e ∈ es -> e_hash e = hf (e_key e) /\ Z.to_nat (hf (e_key e) mod nb) = i;
  en_nodup : NoDup (e_key <$> es)
}.

Record hm_ok hm m : Prop := {
  h_hash : hashfunc hm = hf;
  h_cmp : key_cmp hm = cmp;
  h_buckets : exists bs E, dyn_ok (buckets hm) bs /\ 0 < zlen bs /\ Forall2 dyn_ok bs E /\
    (forall i es, E !! i = Some es -> entries_ok (zlen bs) i es) /\
    (forall k v, m !! k = Some v <->
      exists es e, E !! Z.to_nat (hf k mod zlen bs) = Some es /\ e ∈ es /\ e_key e = k /\ e_value e = v)
}.

Lemma find_loop_spec hm b es k : key_cmp hm = cmp -> dyn_ok b es -> (forall e, e ∈ es -> e_hash e = hf (e_key e)) ->
  forall n i, Z.of_nat n + i = zlen es -> 0 <= i ->
  (exists l1 e l2, es = l1 ++ e :: l2 /\ i <= zlen l1 /\ e_key e = k /\ find_loop n i hm b (hf k) k = Ok (Some (zlen l1, e))) \/
  (find_loop n i hm b (hf k) k = Ok None /\ forall e, e ∈ drop (Z.to_nat i) es -> e_key e <> k).
Proof.
  intros Hcmp Hok Hh. induction n as [|n IH]; intros i Hn Hi; cbn [find_loop].
  { right. split; [done|]. rewrite drop_ge by (unfold zlen in Hn; lia). intros e He. by apply elem_of_nil in He. }
  destruct (es !! Z.to_nat i) as [e|] eqn:Ee; [|apply lookup_ge_None in Ee; unfold zlen in Hn; lia].
  rewrite (at_spec _ _ _ _ Hok Ee Hi). pose proof (Hh e ltac:(by eapply list_elem_of_lookup_2)) as Hhe.
  destruct (decide (e_key e = k)) as [<-|Hne].
  - left. exists (take (Z.to_nat i) es), e, (drop (S (Z.to_nat i)) es). pose proof (lookup_lt_Some _ _ _ Ee).
    assert (Hz : zlen (take (Z.to_nat i) es) = i) by (unfold zlen; rewrite length_take; lia). rewrite take_drop_middle, Hz by done.
    rewrite Hhe, Z.eqb_refl, Hcmp. cbn [andb]. rewrite (proj2 (cmp_eq (e_key e) (e_key e)) eq_refl). repeat split; lia || done.
  - assert (Hb : (e_hash e =? hf k) && (key_cmp hm (e_key e) k =? 0) = false).
    { rewrite andb_false_iff. right. apply Z.eqb_neq. rewrite Hcmp. by intros Ec%cmp_eq. }
    rewrite Hb. destruct (IH (i + 1)) as [(l1 & e' & l2 & E1 & Hl & Hk & Hf)|[Hf Hno]]; [lia|lia| |].
    + left. exists l1, e', l2. repeat split; done || lia.
    + right. split; [done|]. intros e' He'. rewrite (drop_S _ _ _ Ee) in He'. apply elem_of_cons in He' as [->|He']; [done|].
      apply Hno. by replace (Z.to_nat (i + 1)) with (S (Z.to_nat i)) by lia.
Qed.

(** The bucket of a key, and what the search finds in it. *)
Lemma bucket_spec hm m k : hm_ok hm m ->
  exists bs E b es, let i := hf k mod zlen bs in
    dyn_ok (buckets hm) bs /\ 0 < zlen bs /\ Forall2 dyn_ok bs E /\
    (forall i es, E !! i = Some es -> entries_ok (zlen bs) i es) /\
    (forall k' v, m !! k' = Some v <->
      exists es e, E !! Z.to_nat (hf k' mod zlen bs) = Some es /\ e ∈ es /\ e_key e = k' /\ e_value e = v) /\
    hashmap_locate_bucket hm (hf k) = i /\ 0 <= i < zlen bs /\ bs !! Z.to_nat i = Some b /\ E !! Z.to_nat i = Some es /\
    dyn_ok b es /\ dynarray_at (buckets hm) i = Ok b /\
    ((exists l1 e l2, es = l1 ++ e :: l2 /\ e_key e = k /\ bucket_find hm b (hf k) k = Ok (Some (zlen l1, e)) /\ m !! k = Some (e_value e)) \/
     bucket_find hm b (hf k) k = Ok None /\ m !! k = None).
Proof.
  intros [Hhf Hcmp (bs & E & Hd & Hpos & HF & Hen & Hm)]. pose proof (Z.mod_pos_bound (hf k) (zlen bs) Hpos) as Hi.
  destruct (lookup_lt_is_Some_2 bs (Z.to_nat (hf k mod zlen bs))) as [b Hb]; [unfold zlen in *; lia|].
  destruct (Forall2_lookup_l _ _ _ _ _ HF Hb) as (es & Hes & Hbe). exists bs, E, b, es. cbn zeta.
  do 5 (split; [done|]). split; [unfold hashmap_locate_bucket, dynarray_size; by rewrite (d_size _ _ Hd)|]. do 4 (split; [done|]).
  split; [apply (at_spec _ _ _ _ Hd Hb); lia|]. unfold bucket_find, dynarray_size. rewrite (d_size _ _ Hbe).
  destruct (find_loop_spec hm b es k Hcmp Hbe) with (n := Z.to_nat (zlen es)) (i := 0) as [(l1 & e & l2 & E1 & _ & Hk & Hf)|[Hf Hno]].
  - intros e He. by apply (en_hash _ _ _ (Hen _ _ Hes)).
  - pose proof (zlen_nonneg es). lia.
  - lia.
  - left. exists l1, e, l2. repeat split; try done. apply Hm. exists es, e. repeat split; try done. rewrite E1. apply elem_of_app. right. by left.
  - right. split; [done|]. destruct (m !! k) as [v|] eqn:Em; [|done]. apply Hm in Em as (es' & e & Hes' & He & Hk & _).
    rewrite Hes in Hes'. injection Hes' as <-. by destruct (Hno e He).
Qed.

(** Replacing the bucket of a key. *)
Lemma with_bucket_spec hm bs E (i : Z) b' es' m m' : hashfunc hm = hf -> key_cmp hm = cmp ->
  dyn_ok (buckets hm) bs -> 0 < zlen bs -> Forall2 dyn_ok bs E ->
  (forall i es, E !! i = Some es -> entries_ok (zlen bs) i es) ->
  (forall k v, m !! k = Some v <->
     exists es e, E !! Z.to_nat (hf k mod zlen bs) = Some es /\ e ∈ es /\ e_key e = k /\ e_value e = v) ->
  0 <= i < zlen bs -> dyn_ok b' es' -> entries_ok (zlen bs) (Z.to_nat i) es' ->
  (forall k v, m' !! k = Some v <->
     if decide (hf k mod zlen bs = i) then exists e, e ∈ es' /\ e_key e = k /\ e_value e = v else m !! k = Some v) ->
  exists hm', with_bucket hm i b' = Ok hm' /\ hm_ok hm' m'.
Proof.
  intros Hhf Hcmp Hd Hpos HF Hen Hm Hi Hb' Hes' Hm'. unfold with_bucket. destruct (put_spec _ _ i b' Hd Hi) as (bs' & -> & Hd').
  eexists. split; [done|]. split; cbn [hashfunc key_cmp buckets]; [done|done|].
  exists (<[Z.to_nat i := b']> bs), (<[Z.to_nat i := es']> E).
  assert (Hl : zlen (<[Z.to_nat i := b']> bs) = zlen bs) by (unfold zlen; by rewrite length_insert). rewrite Hl.
  pose proof (Forall2_length _ _ _ HF) as HlE. split; [done|]. split; [done|]. split; [by apply Forall2_insert|]. split.
  - intros j es Hj. destruct (decide (j = Z.to_nat i)) as [->|Hne].
    + rewrite list_lookup_insert_eq in Hj by (unfold zlen in Hi; lia). by simplify_eq.
    + rewrite list_lookup_insert_ne in Hj by done. by apply Hen.
  - intros k v. rewrite Hm'. destruct (decide _) as [Ei|Hne].
    + rewrite Ei, list_lookup_insert_eq by (unfold zlen in Hi; lia). split; [intros (e & ?); by exists es', e|].
      intros (es & e & [= <-] & ?). by exists e.
    + rewrite list_lookup_insert_ne; [apply Hm|]. pose proof (Z.mod_pos_bound (hf k) (zlen bs) Hpos). lia.
Qed.

(** A call of the map answers as the finite map [m] would and leaves [m']; an insertion
    may fail for lack of memory, and then changes nothing. *)
Lemma insert_spec mem hm m k v : hm_ok hm m ->
  exists err old hm' mem', hashmap_insert mem hm k v = Ok (err, old, hm', mem') /\ (mem = [] -> mem' = []) /\
    match m !! k with
    | Some v0 => err = EEXIST /\ old = Some v0 /\ hm_ok hm' m
    | None => old = None /\ (err = OK /\ hm_ok hm' (<[k := v]> m) \/ err = ENOMEM /\ hm_ok hm' m /\ mem <> [])
    end.
Proof.
  intros Hok. pose proof (h_hash _ _ Hok) as Hhf. pose proof (h_cmp _ _ Hok) as Hcmp.
  destruct (bucket_spec hm m k Hok) as (bs & E & b & es & Hd & Hpos & HF & Hen & Hm & Hloc & Hi & Hb & Hes & Hbe & Hat & Hfind).
  unfold hashmap_insert. rewrite Hhf, Hloc, Hat. destruct Hfind as [(l1 & e & l2 & Ees & Hk & -> & ->)|[-> Hnone]].
  { eexists _, _, _, _. split; [done|]. done. }
  rewrite Hnone. destruct (push_back_spec mem b es (mkEntry (hf k) k v) Hbe) as (err & b' & mem' & -> & Hmem & Hcase).
  pose proof (Hen _ _ Hes) as [Hh Hnd]. set (i := hf k mod zlen bs) in *.
  assert (Hother : forall k' v', hf k' mod zlen bs = i -> m !! k' = Some v' <-> exists e, e ∈ es /\ e_key e = k' /\ e_value e = v').
  { intros k' v' Ei. rewrite Hm, Ei, Hes. split; [intros (? & e & [= <-] & ?); by exists e|]. intros (e & ?). by exists es, e. }
  destruct Hcase as [[-> Hb']|(-> & Hb' & Hne)].
  - destruct (with_bucket_spec hm bs E i b' _ m (<[k := v]> m) Hhf Hcmp Hd Hpos HF Hen Hm Hi Hb') as (hm' & -> & Hok').
    + split.
      * intros e [He|He%list_elem_of_singleton]%elem_of_app; [by apply Hh|]. by subst e.
      * rewrite fmap_app. apply NoDup_app. split; [done|]. split; [|apply NoDup_singleton]. intros x Hx Hx'%list_elem_of_singleton. cbn in Hx'. subst x.
        apply list_elem_of_fmap in Hx as (e & Hke & He). assert (Hs : m !! k = Some (e_value e)) by (apply Hother; [done|]; by exists e). congruence.
    + intros k' v'. destruct (decide _) as [Ei|Hni]; [|rewrite lookup_insert_ne; [done|]; by intros <-].
      destruct (decide (k = k')) as [<-|Hkk].
      * rewrite lookup_insert_eq. split.
        -- intros [= ->]. exists (mkEntry (hf k) k v'). split; [|done]. apply elem_of_app. right. by left.
        -- intros (e & [He|He%list_elem_of_singleton]%elem_of_app & Hk & Hv); [|by subst].
           assert (Hs : m !! k = Some v') by (apply Hother; [done|]; by exists e). congruence.
      * rewrite lookup_insert_ne by done. rewrite Hother by done. split.
        -- intros (e & He & ?). exists e. split; [apply elem_of_app; by left|done].
        -- intros (e & [He|He%list_elem_of_singleton]%elem_of_app & Hk & Hv); [by exists e|]. subst e. done.
    + eexists _, _, _, _. split; [done|]. split; [done|]. split; [done|]. by left.
  - destruct (with_bucket_spec hm bs E i b' es m m Hhf Hcmp Hd Hpos HF Hen Hm Hi Hb') as (hm' & -> & Hok'); [by split| |].
    + intros k' v'. destruct (decide _) as [Ei|]; [by apply Hother|done].
    + eexists _, _, _, _. split; [done|]. split; [done|]. split; [done|]. by right.
Qed.

Lemma hm_find_spec hm m k : hm_ok hm m ->
  match m !! k with
  | Some v => exists e, hashmap_find hm k = Ok (OK, Some e) /\ e_key e = k /\ e_value e = v
  | None => hashmap_find hm k = Ok (ENOENT, None)
  end.
Proof.
  intros Hok. pose proof (h_hash _ _ Hok) as Hhf.
  destruct (bucket_spec hm m k Hok) as (bs & E & b & es & Hd & Hpos & HF & Hen & Hm & Hloc & Hi & Hb & Hes & Hbe & Hat & Hfind).
  unfold hashmap_find. rewrite Hhf, Hloc, Hat. destruct Hfind as [(l1 & e & l2 & Ees & Hk & -> & ->)|[-> ->]]; [by exists e|done].
Qed.

Lemma hm_remove_spec hm m k : hm_ok hm m ->
  match m !! k with
  | Some v => exists e hm', hashmap_remove hm k = Ok (OK, Some e, hm') /\ e_key e = k /\ e_value e = v /\ hm_ok hm' (delete k m)
  | None => hashmap_remove hm k = Ok (ENOENT, None, hm)
  end.
Proof.
  intros Hok. pose proof (h_hash _ _ Hok) as Hhf. pose proof (h_cmp _ _ Hok) as Hcmp.
  destruct (bucket_spec hm m k Hok) as (bs & E & b & es & Hd & Hpos & HF & Hen & Hm & Hloc & Hi & Hb & Hes & Hbe & Hat & Hfind).
  unfold hashmap_remove. rewrite Hhf, Hloc, Hat. destruct Hfind as [(l1 & e & l2 & Ees & Hk & -> & ->)|[-> ->]]; [|done].
  pose proof (Hen _ _ Hes) as [Hh Hnd]. rewrite Ees in Hbe. destruct (remove_spec b l1 e l2 Hbe) as (b' & -> & Hb').
  set (i := hf k mod zlen bs) in *. rewrite Ees in Hnd, Hh. rewrite fmap_app, fmap_cons in Hnd.
  assert (Hnk : forall e', e' ∈ l1 ++ l2 -> e_key e' <> k).
  { intros e' He' Ek. apply NoDup_app in Hnd as (Hnd1 & Hd12 & Hnd2). apply NoDup_cons in Hnd2 as [Hni Hnd2].
    apply elem_of_app in He' as [He'|He'].
    - destruct (Hd12 (e_key e')); [by apply list_elem_of_fmap_2|]. rewrite Ek, <- Hk. by left.
    - apply Hni. rewrite Hk, <- Ek. by apply list_elem_of_fmap_2. }
  destruct (with_bucket_spec hm bs E i b' (l1 ++ l2) m (delete k m) Hhf Hcmp Hd Hpos HF Hen Hm Hi Hb') as (hm' & -> & Hok').
  - split.
    + intros e' He'. apply Hh. apply elem_of_app in He' as [He'|He']; apply elem_of_app; [by left|]. right. by right.
    + rewrite fmap_app. apply NoDup_app in Hnd as (Hnd1 & Hd12 & Hnd2). apply NoDup_cons in Hnd2 as [Hni Hnd2].
      apply NoDup_app. split; [done|]. split; [|done]. intros x Hx Hx'. apply (Hd12 x Hx). by right.
  - intros k' v'. destruct (decide _) as [Ei|Hni].
    + destruct (decide (k = k')) as [<-|Hkk].
      * rewrite lookup_delete_eq. split; [done|]. intros (e' & He' & Ek & _). by destruct (Hnk e' He').
      * rewrite lookup_delete_ne, Hm, Ei, Hes by done. split.
        -- intros (? & e' & [= <-] & He' & Hk' & Hv'). exists e'. split; [|done]. rewrite Ees in He'. apply elem_of_app in He' as [He'|He']; apply elem_of_app; [by left|].
           right. apply elem_of_cons in He' as [->|He']; [congruence|done].
        -- intros (e' & He' & ?). exists es, e'. split; [done|]. split; [|done]. rewrite Ees. apply elem_of_app in He' as [He'|He']; apply elem_of_app; [by left|].
           right. by right.
    + rewrite lookup_delete_ne; [done|]. by intros <-.
  - by exists e, hm'.
Qed.
End HashmapSpec.

(** ** Any sequence of calls *)

Inductive map_call (K V : Type) := Insert (k : K) (v : V) | Find (k : K) | Remove (k : K).
Arguments Insert {K V} k v.
Arguments Find {K V} k.
Arguments Remove {K V} k.

Section Calls.
Context {K V : Type} `{Countable K}.
Implicit Types (m : gmap K V) (cs : list (map_call K V)) (mem : list bool).

(** What the calls answer: the error and the value. *)
Fixpoint hashmap_calls mem (hm : hashmap_t K V) cs : res (list (Z * option V)) :=
  match cs with
  | [] => Ok []
  | Insert k v :: cs =>
      let* '(err, old, hm, mem) := hashmap_insert mem hm k v in
      let* rs := hashmap_calls mem hm cs in Ok ((err, old) :: rs)
  | Find k :: cs =>
      let* '(err, e) := hashmap_find hm k in
      let* rs := hashmap_calls mem hm cs in Ok ((err, e_value <$> e) :: rs)
  | Remove k :: cs =>
      let* '(err, e, hm) := hashmap_remove hm k in
      let* rs := hashmap_calls mem hm cs in Ok ((err, e_value <$> e) :: rs)
  end.

(** The abstract map: [fails] allows an insertion to fail for lack of memory. *)
Inductive map_calls (fails : Prop) : gmap K V -> list (map_call K V) -> list (Z * option V) -> Prop :=
| calls_nil m : map_calls fails m [] []
| calls_insert_old m k v v0 cs rs : m !! k = Some v0 -> map_calls fails m cs rs ->
    map_calls fails m (Insert k v :: cs) ((EEXIST, Some v0) :: rs)
| calls_insert_new m k v cs rs : m !! k = None -> map_calls fails (<[k := v]> m) cs rs ->
    map_calls fails m (Insert k v :: cs) ((OK, None) :: rs)
| calls_insert_fail m k v cs rs : fails -> m !! k = None -> map_calls fails m cs rs ->
    map_calls fails m (Insert k v :: cs) ((ENOMEM, None) :: rs)
| calls_find m k cs rs : map_calls fails m cs rs ->
    map_calls fails m (Find k :: cs) ((if m !! k is Some _ then OK else ENOENT, m !! k) :: rs)
| calls_remove m k cs rs : map_calls fails (delete k m) cs rs ->
    map_calls fails m (Remove k :: cs) ((if m !! k is Some _ then OK else ENOENT, m !! k) :: rs).

Context (hf : K -> Z) (cmp : K -> K -> Z) `{!KeyFunctions hf cmp}.

Lemma calls_refine (fails : Prop) cs : forall mem hm m, (mem <> [] -> fails) -> hm_ok hf cmp hm m ->
  exists rs, hashmap_calls mem hm cs = Ok rs /\ map_calls fails m cs rs.
Proof.
  induction cs as [|[k v|k|k] cs IH]; intros mem hm m Hmem Hok; cbn [hashmap_calls]; [by exists []; split; [|constructor]|..].
  - destruct (insert_spec hf cmp mem hm m k v Hok) as (err & old & hm' & mem' & -> & Hm' & Hcase).
    assert (Hf' : mem' <> [] -> fails) by (intros Hne; apply Hmem; by intros ->%Hm'). destruct (m !! k) as [v0|] eqn:Em.
    + destruct Hcase as (-> & -> & Hok'). destruct (IH mem' hm' m Hf' Hok') as (rs & -> & Hrs). eexists. split; [done|]. by constructor.
    + destruct Hcase as (-> & [[-> Hok']|(-> & Hok' & Hne)]).
      * destruct (IH mem' hm' _ Hf' Hok') as (rs & -> & Hrs). eexists. split; [done|]. by apply calls_insert_new.
      * destruct (IH mem' hm' _ Hf' Hok') as (rs & -> & Hrs). eexists. split; [done|]. apply calls_insert_fail; auto.
  - pose proof (hm_find_spec hf cmp hm m k Hok) as Hf. destruct (IH mem hm m Hmem Hok) as (rs & Hrun & Hrs).
    pose proof (calls_find fails m k cs rs Hrs) as Hc. destruct (m !! k) as [v|].
    + destruct Hf as (e & -> & _ & <-). rewrite Hrun. by eexists.
    + rewrite Hf, Hrun. by eexists.
  - pose proof (hm_remove_spec hf cmp hm m k Hok) as Hr. destruct (m !! k) as [v|] eqn:Em.
    + destruct Hr as (e & hm' & -> & _ & <- & Hok'). destruct (IH mem hm' _ Hmem Hok') as (rs & -> & Hrs). eexists. split; [done|].
      pose proof (calls_remove fails m k cs rs Hrs) as Hc. by rewrite Em in Hc.
    + rewrite Hr. destruct (IH mem hm m Hmem Hok) as (rs & -> & Hrs). eexists. split; [done|].
      pose proof (calls_remove fails m k cs rs) as Hc. rewrite Em in Hc. apply Hc. by rewrite delete_id.
Qed.

(** *** A new map is empty *)

Local Abbreviation bucket := (dynarray_t (hashmap_entry_t K V)).

Lemma create_loop_spec n : forall mem (bs : dynarray_t bucket) l, dyn_ok bs l -> zlen l + Z.of_nat n <= capacity bs ->
  exists bs', create_loop n mem bs = Ok (bs', mem) /\ dyn_ok bs' (l ++ replicate n dynarray_create).
Proof.
  induction n as [|n IH]; intros mem bs l Hok Hc; cbn [create_loop replicate]; [exists bs; by rewrite app_nil_r|].
  unfold dynarray_emplace_back, dynarray_ensure. pose proof (d_size _ _ Hok) as Hs. rewrite Z.gtb_ltb.
  destruct (Z.ltb_spec (capacity bs) (dsize bs + 1)); [lia|]. rewrite Z.eqb_refl.
  destruct (dyn_set bs l (@dynarray_create (hashmap_entry_t K V)) Hok) as (d & Hset & Hd); [lia|].
  unfold dynarray_put. cbn [data dsize capacity]. rewrite Hset.
  destruct (IH mem _ _ Hd) as (bs' & -> & Hbs'); [cbn [capacity]; rewrite zlen_app; change (zlen [_]) with 1; lia|].
  exists bs'. split; [done|]. by rewrite <- app_assoc in Hbs'.
Qed.

Lemma create_spec mem nr : 0 < nr ->
  exists err (hm : hashmap_t K V) mem', hashmap_create mem hf cmp nr = Ok (err, hm, mem') /\ (mem = [] -> mem' = []) /\
    (err = OK /\ hm_ok hf cmp hm ∅ \/ err = ENOMEM /\ mem <> []).
Proof.
  intros Hnr. unfold hashmap_create. assert (H0 : dyn_ok (@dynarray_create bucket) []) by (split; [done|by exists []|done]).
  destruct (reserve_spec mem _ [] nr H0) as (bs & mem' & [(-> & Hok & Hc)|(-> & -> & Hm)] & Hmem); [|by eexists _, _, _; split; [done|]; split; [|right]].
  cbn [negb Z.eqb OK]. change (negb (OK =? OK)) with false. cbn match.
  destruct (create_loop_spec (Z.to_nat nr) mem' bs [] Hok) as (bs' & -> & Hbs'); [change (zlen (@nil bucket)) with 0; lia|].
  eexists _, _, _. split; [done|]. split; [done|]. left. split; [done|]. split; [done|done|]. cbn [buckets app] in *.
  exists (replicate (Z.to_nat nr) dynarray_create), (replicate (Z.to_nat nr) []). split; [done|]. unfold zlen. rewrite length_replicate.
  split; [lia|]. split; [apply Forall2_replicate; split; [done|by exists []|done]|]. split.
  - intros i es Hi. apply lookup_replicate in Hi as [-> _]. split; [intros e He; by apply elem_of_nil in He|apply NoDup_nil_2].
  - intros k v. rewrite lookup_empty. split; [done|]. intros (es & e & Hes & He & _). apply lookup_replicate in Hes as [-> _]. by apply elem_of_nil in He.
Qed.
End Calls.

(** The proxy's hash map implements a finite map: for every sequence of insertions,
    searches and removals with byte strings as keys, hashed by MurmurHash into any
    number of buckets, the calls end and answer what a finite map answers; only an
    insertion of a new key can fail, and only when an allocation does, and then it
    changes nothing. *)
Theorem proxy_hashmap_refines_map (V : Type) (nr : Z) (mem : list bool) (cs : list (map_call (list Z) V)) :
  0 < nr ->
  exists err (hm : hashmap_t (list Z) V) mem', hashmap_create mem buffer_hash buffer_cmp nr = Ok (err, hm, mem') /\
    (err = OK \/ err = ENOMEM /\ mem <> []) /\
    (err = OK -> exists rs, hashmap_calls mem' hm cs = Ok rs /\ map_calls (mem <> []) ∅ cs rs).
Proof.
  intros Hnr. destruct (create_spec (V := V) buffer_hash buffer_cmp mem nr Hnr) as (err & hm & mem' & E & Hm & Hcase).
  exists err, hm, mem'. split; [done|]. split; [tauto|]. intros ->. destruct Hcase as [[_ Hok]|[? _]]; [|done].
  apply (calls_refine buffer_hash buffer_cmp); [|done]. intros Hne ->. by apply Hne, Hm.
Qed.

Lemma proxy_hashmap_refines_map_witness :
  exists err (hm : hashmap_t (list Z) Z) mem', hashmap_create [true; false] buffer_hash buffer_cmp 2 = Ok (err, hm, mem') /\
    (err = OK \/ err = ENOMEM /\ [true; false] <> []) /\
    (err = OK -> exists rs, hashmap_calls mem' hm [Insert [1] 5; Insert [1] 6; Find [1]] = Ok rs /\
                            map_calls ([true; false] <> []) ∅ [Insert [1] 5; Insert [1] 6; Find [1]] rs).
Proof. apply (proxy_hashmap_refines_map Z 2 [true; false] [Insert [1] 5; Insert [1] 6; Find [1]]). lia. Defined.
