(* ===== verification/ListRing.v ===== *)
(** * OS-Labs/11-http-proxy/common/list.h: the intrusive ring

    A node has the addresses of its predecessor and its successor; the list itself is a
    node, its first element is its successor, its last its predecessor.  The nodes are
    cells of a heap.  The operations keep a heap that holds a list and do to it what
    their names say. *)
From stdpp Require Import gmap.
From S2P Require Import Prelude.

Abbreviation loc := nat.

(** [prev] and [next]. *)
Abbreviation links := (gmap loc (loc * loc)).

Definition get (h : links) (a : loc) : res (loc * loc) := match h !! a with Some x => Ok x | None => Err Undefined end.
Definition set_prev (h : links) (a p : loc) : res links := let* '(_, n) := get h a in Ok (<[a := (p, n)]> h).
Definition set_next (h : links) (a n : loc) : res links := let* '(p, _) := get h a in Ok (<[a := (p, n)]> h).

Definition list_init (h : links) (list : loc) : links := <[list := (list, list)]> h.

Definition list_unlink (h : links) (node : loc) : res links :=
  let* '(p, n) := get h node in
  let* h := set_prev h n p in
  let* '(p, n) := get h node in
  set_next h p n.

Definition list_push_back (h : links) (list node : loc) : res links :=
  let* '(lp, _) := get h list in
  let h := <[node := (lp, list)]> h in
  let* '(p, _) := get h node in
  let* h := set_next h p node in
  let* '(_, n) := get h node in
  set_prev h n node.

Definition list_back (h : links) (list : loc) : res loc := let* '(p, _) := get h list in Ok p.
Definition list_front (h : links) (list : loc) : res loc := let* '(_, n) := get h list in Ok n.

Definition list_pop_back (h : links) (list : loc) : res (loc * links) :=
  let* node := list_back h list in
  let* h := list_unlink h node in
  Ok (node, h).

Definition list_push_front (h : links) (list node : loc) : res links :=
  let* '(_, ln) := get h list in
  let h := <[node := (list, ln)]> h in
  let* '(p, _) := get h node in
  let* h := set_next h p node in
  let* '(_, n) := get h node in
  set_prev h n node.

Definition list_pop_front (h : links) (list : loc) : res (loc * links) :=
  let* node := list_front h list in
  let* h := list_unlink h node in
  Ok (node, h).

Definition list_empty (h : links) (list : loc) : res bool :=
  let* '(p, n) := get h list in Ok ((n =? list)%nat && (p =? list)%nat).

(** ** Chains *)

Definition nxt (h : links) (a : loc) : option loc := snd <$> h !! a.
Definition prv (h : links) (a : loc) : option loc := fst <$> h !! a.

Fixpoint linked (h : links) (l : list loc) : Prop :=
  match l with
  | a :: ((b :: _) as l') => nxt h a = Some b /\ prv h b = Some a /\ linked h l'
  | _ => True
  end.

(** The heap holds the list [xs] with the head [hd]. *)
Record ring (h : links) (hd : loc) (xs : list loc) : Prop := {
  r_nodup : NoDup (hd :: xs);
  r_linked : linked h (hd :: xs ++ [hd])
}.

Lemma linked_app h l1 a l2 : linked h (l1 ++ a :: l2) <-> linked h (l1 ++ [a]) /\ linked h (a :: l2).
Proof.
  induction l1 as [|x [|y l1] IH]; cbn [app linked] in *; [tauto|tauto|].
  rewrite IH. tauto.
Qed.

(** The chain depends on the successors of all but the last and the predecessors of all
    but the first. *)
Lemma linked_ext h h' l : (forall a, a ∈ removelast l -> nxt h' a = nxt h a) -> (forall a, a ∈ tail l -> prv h' a = prv h a) ->
  linked h l -> linked h' l.
Proof.
  induction l as [|a [|b l] IH]; intros Hn Hp Hl; [done|done|]. destruct Hl as (H1 & H2 & Hl).
  cbn [linked]. split; [rewrite Hn; [done|]; by left|]. split; [rewrite Hp; [done|]; by left|].
  apply IH; [intros x Hx; apply Hn; by right| |done]. intros x Hx. apply Hp. by right.
Qed.

Lemma nxt_insert h a p n b : nxt (<[a := (p, n)]> h) b = if decide (a = b) then Some n else nxt h b.
Proof. unfold nxt. destruct (decide (a = b)) as [<-|]; [by rewrite lookup_insert_eq|by rewrite lookup_insert_ne]. Qed.

Lemma prv_insert h a p n b : prv (<[a := (p, n)]> h) b = if decide (a = b) then Some p else prv h b.
Proof. unfold prv. destruct (decide (a = b)) as [<-|]; [by rewrite lookup_insert_eq|by rewrite lookup_insert_ne]. Qed.

Lemma link_get_ok h a p n : prv h a = Some p -> nxt h a = Some n -> get h a = Ok (p, n).
Proof. unfold prv, nxt, get. destruct (h !! a) as [[p' n']|]; cbn; congruence. Qed.

Lemma set_prev_ok h a p n : nxt h a = Some n -> set_prev h a p = Ok (<[a := (p, n)]> h).
Proof. unfold set_prev, get, nxt. destruct (h !! a) as [[p' n']|]; cbn; congruence. Qed.

Lemma set_next_ok h a p n : prv h a = Some p -> set_next h a n = Ok (<[a := (p, n)]> h).
Proof. unfold set_next, get, prv. destruct (h !! a) as [[p' n']|]; cbn; congruence. Qed.

Lemma removelast_snoc (l : list loc) a : removelast (l ++ [a]) = l.
Proof. apply removelast_last. Qed.

Lemma linked_nxt h l a : linked h l -> a ∈ removelast l -> is_Some (nxt h a).
Proof.
  induction l as [|x [|y l] IH]; intros Hl Ha; [by apply elem_of_nil in Ha..|]. destruct Hl as (H1 & _ & Hl).
  apply elem_of_cons in Ha as [->|Ha]; [by eexists|auto].
Qed.

Lemma linked_prv h l a : linked h l -> a ∈ tail l -> is_Some (prv h a).
Proof.
  induction l as [|x [|y l] IH]; intros Hl Ha; [by apply elem_of_nil in Ha..|]. destruct Hl as (_ & H2 & Hl).
  apply elem_of_cons in Ha as [->|Ha]; [by eexists|auto].
Qed.

(** Every node of the ring has its two neighbours. *)
Lemma ring_cell h hd xs a : ring h hd xs -> a ∈ hd :: xs -> is_Some (prv h a) /\ is_Some (nxt h a).
Proof.
  intros [Hnd Hl] Ha. split.
  - apply (linked_prv _ _ _ Hl). cbn [tail]. apply elem_of_cons in Ha as [->|Ha]; apply elem_of_app; [right; by left|by left].
  - apply (linked_nxt _ _ _ Hl). by rewrite app_comm_cons, removelast_snoc.
Qed.

(** The neighbours of a position: [L] ends in [p], [R] starts with [n]. *)
Lemma ring_cut (hd : loc) (l1 l2 : list loc) : exists (L : list loc) (p n : loc) (R : list loc), hd :: l1 = L ++ [p] /\ l2 ++ [hd] = n :: R /\ removelast (n :: R) = l2.
Proof.
  destruct (exists_last (l := hd :: l1)) as (L & p & HL); [done|]. exists L, p. rewrite HL.
  destruct (l2 ++ [hd]) as [|n R] eqn:E; [by destruct l2|]. exists n, R. split; [done|]. split; [done|]. by rewrite <- E, removelast_snoc.
Qed.

Section Cut.
Context (h : links) (hd p n : loc) (l1 l2 L R : list loc).
Hypothesis Hnd : NoDup (hd :: l1 ++ l2).
Hypothesis HL : hd :: l1 = L ++ [p].
Hypothesis HR : l2 ++ [hd] = n :: R.
Hypothesis Hrm : removelast (n :: R) = l2.

Lemma cut_elems : (p ∈ hd :: l1) /\ (p ∉ l2) /\ (n ∉ l1) /\ (p ∉ L) /\ (n ∉ R) /\ (n = hd \/ n ∈ l2).
Proof.
  assert (Hp : p ∈ hd :: l1) by (rewrite HL; apply elem_of_app; right; by left).
  assert (Hn : n ∈ l2 ++ [hd]) by (rewrite HR; by left). rewrite app_comm_cons in Hnd. apply NoDup_app in Hnd as (Hnd1 & Hd & Hnd2).
  split; [done|]. split; [by apply Hd|]. split.
  { intros Hn1. apply elem_of_app in Hn as [Hn|Hn%list_elem_of_singleton].
    - by apply (Hd n); [right|].
    - subst n. apply NoDup_cons in Hnd1 as [? _]. done. }
  split.
  { rewrite HL in Hnd1. apply NoDup_app in Hnd1 as (_ & Hd1 & _). intros HpL. apply (Hd1 p HpL). by left. }
  split.
  { assert (HndR : NoDup (n :: R)).
    { rewrite <- HR. apply NoDup_app. split; [done|]. split; [|apply NoDup_singleton]. intros x Hx Hx'%list_elem_of_singleton. subst x. apply (Hd hd); [by left|done]. }
    by apply NoDup_cons in HndR as [? _]. }
  apply elem_of_app in Hn as [?|Hn%list_elem_of_singleton]; auto.
Qed.

(** Changing the successor of [p] and the predecessor of [n] (and cells outside) leaves
    both parts chained. *)
Lemma cut_frame h' : linked h (L ++ [p]) -> linked h (n :: R) ->
  (forall x, x ∈ hd :: l1 ++ l2 -> x <> p -> nxt h' x = nxt h x) -> (forall x, x ∈ hd :: l1 ++ l2 -> x <> n -> prv h' x = prv h x) ->
  linked h' (L ++ [p]) /\ linked h' (n :: R).
Proof.
  intros Hl1 Hl2 Hn Hp. destruct cut_elems as (E1 & E2 & E3 & E4 & E5 & _). split.
  - apply (linked_ext h); [| |done].
    + rewrite removelast_snoc. intros x Hx. apply Hn; [|by intros ->]. rewrite app_comm_cons, HL. apply elem_of_app. left. apply elem_of_app. by left.
    + rewrite <- HL. cbn [tail]. intros x Hx. apply Hp; [|by intros ->]. right. apply elem_of_app. by left.
  - apply (linked_ext h); [| |done].
    + rewrite Hrm. intros x Hx. apply Hn; [|by intros ->]. right. apply elem_of_app. by right.
    + cbn [tail]. intros x Hx. apply Hp; [|by intros ->]. assert (Hx' : x ∈ l2 ++ [hd]) by (rewrite HR; by right).
      apply elem_of_app in Hx' as [Hx'|Hx'%list_elem_of_singleton]; [right; apply elem_of_app; by right|subst x; by left].
Qed.
End Cut.

(** [list_unlink] takes the node out; its own links stay as they are. *)
Lemma unlink_spec h hd l1 a l2 : ring h hd (l1 ++ a :: l2) ->
  exists h', list_unlink h a = Ok h' /\ ring h' hd (l1 ++ l2) /\ forall x, x ∉ hd :: l1 ++ l2 -> h' !! x = h !! x.
Proof.
  intros Hr. pose proof (ring_cell _ _ _ a Hr) as Hca. destruct Hr as [Hnd Hl]. destruct (ring_cut hd l1 l2) as (L & p & n & R & HL & HR & Hrm).
  assert (Hnd' : NoDup (hd :: l1 ++ l2)) by (rewrite app_comm_cons in *; apply NoDup_app in Hnd as (H1 & H2 & H3); apply NoDup_cons in H3 as [H3 H4];
    apply NoDup_app; split; [done|]; split; [|done]; intros x Hx Hx'; apply (H2 x Hx); by right).
  assert (Hna : a ∉ hd :: l1 ++ l2).
  { rewrite app_comm_cons in *. apply NoDup_app in Hnd as (H1 & H2 & H3). apply NoDup_cons in H3 as [H3 H4]. intros [Ha|Ha]%elem_of_app; [|done].
    apply (H2 a Ha). by left. }
  destruct (cut_elems hd p n l1 l2 L R Hnd' HL HR Hrm) as (E1 & E2 & E3 & E4 & E5 & E6).
  replace (hd :: (l1 ++ a :: l2) ++ [hd]) with (L ++ p :: a :: n :: R) in Hl.
  2: { rewrite <- HR, <- app_assoc, (app_comm_cons l1), HL, <- app_assoc. done. }
  apply linked_app in Hl as [Hl1 (Hpn & Hpa & Han & Hnp & Hl2)].
  assert (Hap : a <> p) by (intros ->; apply Hna; rewrite app_comm_cons; apply elem_of_app; by left).
  assert (Hann : a <> n). { intros ->. apply Hna. destruct E6 as [->|?]; [by left|right; apply elem_of_app; by right]. }
  assert (Hcn : is_Some (nxt h n)).
  { destruct R as [|r R]; [|by destruct Hl2 as (-> & _)]. destruct l2; [|by destruct l2]. cbn in HR. injection HR as <-.
    apply (linked_nxt h (L ++ [p] ++ [a])); [|].
    - cbn. apply linked_app. cbn. done.
    - rewrite app_assoc, removelast_snoc, <- HL. by left. }
  destruct Hcn as [nn Hnn]. unfold list_unlink. rewrite (link_get_ok h a p n Hpa Han), (set_prev_ok h n p nn Hnn).
  set (h1 := <[n := (p, nn)]> h).
  rewrite (link_get_ok h1 a p n); [|unfold h1; by rewrite prv_insert, decide_False by done|unfold h1; by rewrite nxt_insert, decide_False by done].
  assert (Hcp : is_Some (prv h1 p)).
  { unfold h1. rewrite prv_insert. case_decide; [by eexists|].
    destruct (exists_last (l := hd :: l1)) as (L' & p' & HL'); [done|]. destruct L as [|x L].
    - cbn in HL. injection HL as -> ->. assert (Hd : p ∈ tail (n :: R)).
      { assert (Hin : p ∈ n :: R) by (rewrite <- HR; apply elem_of_app; right; by left). apply elem_of_cons in Hin as [->|?]; [done|done]. }
      by apply (linked_prv h (n :: R)).
    - apply (linked_prv h ((x :: L) ++ [p])); [done|]. cbn. apply elem_of_app. right. by left. }
  destruct Hcp as [pp Hpp]. rewrite (set_next_ok h1 p pp n Hpp). eexists. split; [done|].
  split.
  - split; [done|].
    destruct (cut_frame h hd p n l1 l2 L R Hnd' HL HR Hrm (<[p := (pp, n)]> h1) Hl1 Hl2) as [F1 F2].
    + intros x _ Hx. rewrite nxt_insert, decide_False by done. unfold h1. rewrite nxt_insert. case_decide; [by subst|done].
    + intros x _ Hx. rewrite prv_insert. case_decide as Hpx; [subst; by rewrite <- Hpp; unfold h1; rewrite prv_insert, decide_False by done|].
      unfold h1. by rewrite prv_insert, decide_False by done.
    + replace (hd :: (l1 ++ l2) ++ [hd]) with (L ++ p :: n :: R) by (rewrite <- HR, <- app_assoc, (app_comm_cons l1), HL, <- app_assoc; done).
      apply linked_app. split; [done|]. split; [by rewrite nxt_insert, decide_True by done|]. split; [|done].
      rewrite prv_insert. case_decide as Hpn'; [|unfold h1; by rewrite prv_insert, decide_True by done].
      subst n. rewrite <- Hpp. unfold h1. by rewrite prv_insert, decide_True by done.
  - intros x Hx. unfold h1. rewrite !lookup_insert_ne; [done| |].
    + intros <-. apply Hx. destruct E6 as [->|?]; [by left|right; apply elem_of_app; by right].
    + intros <-. apply Hx. rewrite app_comm_cons. apply elem_of_app. by left.
Qed.

(** [list_push_front] puts a node that is not in the list before the first. *)
Lemma push_front_spec h hd a xs : ring h hd xs -> a ∉ hd :: xs ->
  exists h', list_push_front h hd a = Ok h' /\ ring h' hd (a :: xs) /\ forall x, x ∉ hd :: a :: xs -> h' !! x = h !! x.
Proof.
  intros Hr Ha. destruct (ring_cell _ _ _ hd Hr ltac:(by left)) as [[lp Hlp] _].
  destruct (ring_cut hd [] xs) as (L & p & n & R & HL & HR & Hrm). destruct L as [|? []]; [|done..]. cbn in HL. injection HL as <-.
  pose proof (r_nodup _ _ _ Hr) as Hnd. pose proof (r_linked _ _ _ Hr) as Hl.
  destruct (cut_elems hd hd n [] xs [] R Hnd eq_refl HR Hrm) as (E1 & E2 & E3 & E4 & E5 & E6).
  cbn in Hl. rewrite HR in Hl. destruct Hl as (Hhn & Hnh & Hl2).
  assert (Hah : a <> hd) by (intros ->; apply Ha; by left).
  assert (Hn : n ∈ hd :: xs) by (destruct E6 as [->|?]; [by left|by right]). assert (Han : a <> n) by (by intros ->).
  destruct (ring_cell _ _ _ n Hr Hn) as [_ [nn Hnn]].
  unfold list_push_front. rewrite (link_get_ok h hd lp n Hlp Hhn). set (h0 := <[a := (hd, n)]> h).
  rewrite (link_get_ok h0 a hd n) by (unfold h0; rewrite ?prv_insert, ?nxt_insert, decide_True; done).
  rewrite (set_next_ok h0 hd lp a) by (unfold h0; rewrite prv_insert, decide_False; done). set (h1 := <[hd := (lp, a)]> h0).
  rewrite (link_get_ok h1 a hd n).
  2: { unfold h1, h0. rewrite prv_insert, decide_False, prv_insert, decide_True; done. }
  2: { unfold h1, h0. rewrite nxt_insert, decide_False, nxt_insert, decide_True; done. }
  assert (Hn1 : is_Some (nxt h1 n)).
  { unfold h1, h0. rewrite nxt_insert. case_decide; [by eexists|]. rewrite nxt_insert, decide_False by done. by eexists. }
  destruct Hn1 as [nn1 Hn1]. rewrite (set_prev_ok h1 n a nn1 Hn1). eexists. split; [done|]. split.
  - split.
    { apply NoDup_cons in Hnd as [H1 H2]. apply NoDup_cons. split; [intros [->|?]%elem_of_cons; done|]. apply NoDup_cons. split; [|done].
      intros Hin. apply Ha. by right. }
    destruct (cut_frame h hd hd n [] xs [] R Hnd eq_refl HR Hrm (<[n := (a, nn1)]> h1) I Hl2) as [_ F2].
    + intros x Hx Hne. rewrite nxt_insert. case_decide as E; [subst x; rewrite <- Hn1; unfold h1, h0; rewrite nxt_insert, decide_False by done;
        by rewrite nxt_insert, decide_False by done|].
      unfold h1, h0. rewrite nxt_insert, decide_False by done. rewrite nxt_insert, decide_False; [done|]. by intros <-.
    + intros x Hx Hne. rewrite prv_insert, decide_False by done. unfold h1, h0. rewrite prv_insert. case_decide as E; [by subst x|].
      rewrite prv_insert, decide_False; [done|]. by intros <-.
    + cbn. rewrite HR. split_and!; [| | |by rewrite prv_insert, decide_True by done|exact F2].
      * rewrite nxt_insert. case_decide as E; [subst n; rewrite <- Hn1|]; unfold h1; by rewrite nxt_insert, decide_True by done.
      * rewrite prv_insert, decide_False by done. unfold h1, h0. rewrite prv_insert, decide_False by done. by rewrite prv_insert, decide_True by done.
      * rewrite nxt_insert, decide_False by done. unfold h1, h0. rewrite nxt_insert, decide_False by done. by rewrite nxt_insert, decide_True by done.
  - intros x Hx. unfold h1, h0. rewrite !lookup_insert_ne; [done|..]; intros <-; apply Hx.
    + right. by left.
    + by left.
    + apply elem_of_cons in Hn as [->|?]; [by left|right; by right].
Qed.

(** The last element, and whether there is one. *)
Lemma list_back_spec h hd xs a : ring h hd (xs ++ [a]) -> list_back h hd = Ok a.
Proof.
  intros Hr. destruct (ring_cell _ _ _ hd Hr ltac:(by left)) as [_ [n Hn]]. destruct Hr as [_ Hl].
  replace (hd :: (xs ++ [a]) ++ [hd]) with ((hd :: xs) ++ a :: [hd]) in Hl by (cbn; by rewrite <- app_assoc).
  apply linked_app in Hl as [_ (_ & Hp & _)]. unfold list_back. by rewrite (link_get_ok h hd a n Hp Hn).
Qed.

Lemma list_empty_spec h hd xs : ring h hd xs -> list_empty h hd = Ok (bool_decide (xs = [])).
Proof.
  intros Hr. pose proof (r_nodup _ _ _ Hr) as Hnd. pose proof (r_linked _ _ _ Hr) as Hl.
  destruct (ring_cell _ _ _ hd Hr ltac:(by left)) as [[p Hp] [n Hn]]. unfold list_empty. rewrite (link_get_ok h hd p n Hp Hn).
  f_equal. destruct xs as [|x xs]; cbn in Hl.
  - destruct Hl as (H1 & H2 & _). rewrite Hn in H1. rewrite Hp in H2. simplify_eq. by rewrite !Nat.eqb_refl.
  - rewrite bool_decide_false by done. destruct Hl as (H1 & _). rewrite Hn in H1. simplify_eq. apply NoDup_cons in Hnd as [Hni _].
    destruct (Nat.eqb_spec x hd); [|done]. subst. destruct Hni. by left.
Qed.

Lemma list_init_spec h hd : ring (list_init h hd) hd [].
Proof.
  split; [apply NoDup_singleton|]. cbn. unfold list_init. rewrite nxt_insert, prv_insert, !decide_True by done. done.
Qed.

(** [list_push_back] puts it behind the last. *)
Lemma push_back_ring h hd a xs : ring h hd xs -> a ∉ hd :: xs ->
  exists h', list_push_back h hd a = Ok h' /\ ring h' hd (xs ++ [a]) /\ forall x, x ∉ hd :: xs ++ [a] -> h' !! x = h !! x.
Proof.
  intros Hr Ha. destruct (ring_cell _ _ _ hd Hr ltac:(by left)) as [_ [ln Hln]].
  destruct (ring_cut hd xs []) as (L & p & n & R & HL & HR & Hrm). cbn in HR. injection HR as <- <-.
  pose proof (r_nodup _ _ _ Hr) as Hnd. pose proof (r_linked _ _ _ Hr) as Hl.
  assert (Hnd' : NoDup (hd :: xs ++ [])) by (by rewrite app_nil_r).
  destruct (cut_elems hd p hd xs [] L [] Hnd' HL eq_refl Hrm) as (E1 & _ & E3 & E4 & _ & _).
  replace (hd :: xs ++ [hd]) with (L ++ p :: [hd]) in Hl by (rewrite app_comm_cons, HL, <- app_assoc; done).
  apply linked_app in Hl as [Hl1 (Hph & Hhp & _)].
  assert (Hah : a <> hd) by (intros ->; apply Ha; by left). assert (Hap : a <> p) by (by intros ->).
  destruct (ring_cell _ _ _ p Hr E1) as [[pp Hpp] _].
  unfold list_push_back. rewrite (link_get_ok h hd p ln Hhp Hln). set (h0 := <[a := (p, hd)]> h).
  rewrite (link_get_ok h0 a p hd) by (unfold h0; rewrite ?prv_insert, ?nxt_insert, decide_True; done).
  rewrite (set_next_ok h0 p pp a) by (unfold h0; rewrite prv_insert, decide_False; done). set (h1 := <[p := (pp, a)]> h0).
  rewrite (link_get_ok h1 a p hd).
  2: { unfold h1, h0. rewrite prv_insert, decide_False, prv_insert, decide_True; done. }
  2: { unfold h1, h0. rewrite nxt_insert, decide_False, nxt_insert, decide_True; done. }
  assert (Hn1 : is_Some (nxt h1 hd)).
  { unfold h1, h0. rewrite nxt_insert. case_decide; [by eexists|]. rewrite nxt_insert, decide_False by done. by eexists. }
  destruct Hn1 as [nn1 Hn1]. rewrite (set_prev_ok h1 hd a nn1 Hn1). eexists. split; [done|]. split.
  - split.
    { rewrite app_comm_cons. apply NoDup_app. split; [done|]. split; [|apply NoDup_singleton]. intros x Hx Hx'%list_elem_of_singleton. by subst x. }
    destruct (cut_frame h hd p hd xs [] L [] Hnd' HL eq_refl Hrm (<[hd := (a, nn1)]> h1) Hl1 I) as [F1 _].
    + rewrite app_nil_r. intros x Hx Hne. rewrite nxt_insert. case_decide as E; [subst x; rewrite <- Hn1; unfold h1, h0; rewrite nxt_insert, decide_False by done;
        by rewrite nxt_insert, decide_False by done|].
      unfold h1, h0. rewrite nxt_insert, decide_False by done. rewrite nxt_insert, decide_False; [done|]. by intros <-.
    + rewrite app_nil_r. intros x Hx Hne. rewrite prv_insert, decide_False by done. unfold h1, h0. rewrite prv_insert. case_decide as E; [by subst x|].
      rewrite prv_insert, decide_False; [done|]. by intros <-.
    + replace (hd :: (xs ++ [a]) ++ [hd]) with (L ++ p :: a :: [hd]) by (rewrite <- app_assoc, app_comm_cons, HL, <- app_assoc; done).
      apply linked_app. split; [exact F1|]. cbn. split_and!; [| | |by rewrite prv_insert, decide_True by done|done].
      * rewrite nxt_insert. case_decide as E; [subst p; rewrite <- Hn1|]; unfold h1; by rewrite nxt_insert, decide_True by done.
      * rewrite prv_insert, decide_False by done. unfold h1, h0. rewrite prv_insert, decide_False by done. by rewrite prv_insert, decide_True by done.
      * rewrite nxt_insert, decide_False by done. unfold h1, h0. rewrite nxt_insert, decide_False by done. by rewrite nxt_insert, decide_True by done.
  - intros x Hx. unfold h1, h0. rewrite !lookup_insert_ne; [done|..]; intros <-; apply Hx.
    + right. apply elem_of_app. right. by left.
    + rewrite app_comm_cons. apply elem_of_app. by left.
    + by left.
Qed.

(** The pops return the element at their end and take it out. *)
Lemma pop_back_spec h hd xs a : ring h hd (xs ++ [a]) ->
  exists h', list_pop_back h hd = Ok (a, h') /\ ring h' hd xs.
Proof.
  intros Hr. unfold list_pop_back. rewrite (list_back_spec _ _ _ _ Hr).
  destruct (unlink_spec h hd xs a [] Hr) as (h' & -> & Hr' & _). exists h'. split; [done|]. by rewrite app_nil_r in Hr'.
Qed.

Lemma pop_front_spec h hd xs a : ring h hd (a :: xs) -> exists h', list_pop_front h hd = Ok (a, h') /\ ring h' hd xs.
Proof.
  intros Hr. destruct (ring_cell _ _ _ hd Hr ltac:(by left)) as [[p Hp] _]. pose proof (r_linked _ _ _ Hr) as (Hn & _).
  unfold list_pop_front, list_front. rewrite (link_get_ok h hd p a Hp Hn). destruct (unlink_spec h hd [] a xs Hr) as (h' & -> & Hr' & _). by exists h'.
Qed.
