(* ===== verification/ProxyBuffer.v ===== *)
(** * OS-Labs/11-http-proxy/common/buffer.h: buffers that grow

    The buffers in which responses are received and in which the cache keeps them.
    [buffer_ensure] computes in [int], so a length of 2^31 bytes or more is not what it
    was; the answers of [realloc] come from a list, and a size of 0 or less, which it
    takes for one of nearly 2^64 bytes or as a call of [free], gives no memory. *)
From S2P Require Import Prelude ProxyHash.

(** ** Operations *)

(** The bytes used and the size allocated. *)
Record buffer_t := mkBuf { used : list Z; bsize : Z }.

Definition buffer_init : buffer_t := mkBuf [] 0.

Definition buffer_used (b : buffer_t) : Z := zlen (used b).
Definition buffer_unused (b : buffer_t) : Z := bsize b - zlen (used b).
Definition buffer_reset (b : buffer_t) : buffer_t := mkBuf [] (bsize b).

(** The error, the buffer and the memory answers left; [size] is an [int]. *)
Definition buffer_ensure (mem : list bool) (b : buffer_t) (size : Z) : res (Z * buffer_t * list bool) :=
  let size := to_s32 size in
  if buffer_unused b >=? size then Ok (OK, b, mem)
  else
    let sz := to_s32 (u64 (bsize b * 2)) in
    let actual := to_s32 (u64 (buffer_used b + size)) in
    let sz := if actual >? sz then actual else sz in
    if sz <=? 0 then Ok (ENOMEM, b, mem)
    else
      let '(ok, mem) := malloc mem in
      if ok then
        check! assert (sz - buffer_used b >=? size) in
        Ok (OK, mkBuf (used b) sz, mem)
      else Ok (ENOMEM, b, mem).

(** Bytes stored at [pos], by [memcpy] or [recv], and counted in with [buffer_advance];
    they must lie in the buffer. *)
Definition buffer_write (b : buffer_t) (p : list Z) : res buffer_t :=
  if zlen p <=? buffer_unused b then Ok (mkBuf (used b ++ p) (bsize b)) else Err Undefined.

(** What every caller does with [ENOMEM]. *)
Definition out_of_memory : fault := Exited 134 "out of memory".

Definition ensure_or_abort (mem : list bool) (b : buffer_t) (size : Z) : res (buffer_t * list bool) :=
  let* '(err, b, mem) := buffer_ensure mem b size in
  if err =? ENOMEM then Err out_of_memory else Ok (b, mem).

(** ** Properties *)

Definition valid (b : buffer_t) : Prop := zlen (used b) <= bsize b.

Lemma valid_init : valid buffer_init.
Proof. done. Qed.

Lemma valid_reset b : valid b -> valid (buffer_reset b).
Proof. unfold valid. cbn. pose proof (zlen_nonneg (used b)). rewrite zlen_nil. lia. Qed.

(** Below a gigabyte, either there is no memory or there is room for [size] bytes more. *)
Lemma ensure_cases mem b size : 0 <= size -> valid b -> zlen (used b) + size < 2 ^ 30 ->
  (exists b' mem', ensure_or_abort mem b size = Ok (b', mem') /\ (mem = [] -> mem' = []) /\ used b' = used b /\ valid b' /\ size <= buffer_unused b') \/
  (mem <> [] /\ ensure_or_abort mem b size = Err out_of_memory).
Proof.
  intros Hs Hv Hb. unfold ensure_or_abort, buffer_ensure, valid, buffer_unused in *. pose proof (zlen_nonneg (used b)).
  assert (Hsm : to_s32 size = size) by (apply to_signed_small; change (2 ^ (32 - 1)) with (2 ^ 31); lia). rewrite Hsm, Z.geb_leb.
  destruct (Z.leb_spec size (bsize b - zlen (used b))); [left; by exists b, mem|].
  unfold buffer_used. rewrite !u64_small by lia. unfold to_s32. rewrite !to_signed_small by (change (2 ^ (32 - 1)) with (2 ^ 31); lia). rewrite Z.gtb_ltb.
  set (sz := if bsize b * 2 <? zlen (used b) + size then zlen (used b) + size else bsize b * 2).
  assert (Hsz : zlen (used b) + size <= sz) by (subst sz; destruct (Z.ltb_spec (bsize b * 2) (zlen (used b) + size)); lia).
  destruct (Z.leb_spec sz 0); [lia|]. destruct mem as [|[] mem]; cbn [malloc]; [left|left|by right].
  all: rewrite Z.geb_leb; destruct (Z.leb_spec size (sz - zlen (used b))); [|lia]; eexists _, _; split; [reflexivity|]; cbn; split; [done|]; split; [done|lia].
Qed.

Lemma ensure_ok b size : 0 <= size -> valid b -> zlen (used b) + size < 2 ^ 30 ->
  exists b', ensure_or_abort [] b size = Ok (b', []) /\ used b' = used b /\ valid b' /\ size <= buffer_unused b'.
Proof.
  intros Hs Hv Hb. destruct (ensure_cases [] b size Hs Hv Hb) as [(b' & mem' & He & Hm & H)|[[] _]]; [|done]. rewrite (Hm eq_refl) in He. by exists b'.
Qed.

Lemma write_ok b p : valid b -> zlen p <= buffer_unused b -> buffer_write b p = Ok (mkBuf (used b ++ p) (bsize b)) /\ valid (mkBuf (used b ++ p) (bsize b)).
Proof.
  intros Hv Hp. unfold buffer_write, valid, buffer_unused in *. destruct (Z.leb_spec (zlen p) (bsize b - zlen (used b))); [|lia]. split; [done|]. cbn. rewrite zlen_app. lia.
Qed.

(** What is written goes at the end of what was there. *)
Lemma write_used b p b' : buffer_write b p = Ok b' -> used b' = used b ++ p.
Proof. unfold buffer_write. destruct (_ <=? _); [by intros [= <-]|done]. Qed.

Lemma ensure_used mem b size b' mem' : ensure_or_abort mem b size = Ok (b', mem') -> used b' = used b.
Proof.
  unfold ensure_or_abort, buffer_ensure. destruct (_ >=? _); [by intros [= <- <-]|]. cbn zeta. destruct (_ <=? 0); [done|].
  destruct (malloc mem) as [[] m]; [|done]. destruct (assert _); [|done]. by intros [= <- <-].
Qed.
