(* ===== verification/ProxyCache.v ===== *)
(** * OS-Labs/11-http-proxy/cache.c: the cache of responses

    The cache maps the text of a request to an entry, keeps the entries in a ring in the
    order of their last use, and counts the references to each: one of the map and one of
    every client that was given the entry.  It is built on the hash map, the ring and the
    buffer as they are verified.  Each call is modelled as a whole, between taking the cache's
    lock and giving it back; taking it twice, which blocks the thread for ever, is an
    error of the model, as is the use of a null or freed pointer.  The signals to
    waiting clients are not modelled. *)
From stdpp Require Import gmap.
From S2P Require Import Prelude ListRing ProxyHash ProxyBuffer.

(** ** Data *)

Record cache_entry_t := mkCE { ce_data : buffer_t; ce_key : option (list Z); is_finished : bool; ref_count : Z }.

(** [entries] are the entries that are allocated; the ring's head, [&cache->lru], has
    address 0, the link of an entry the address of the entry. *)
Record cache_t := mkCache {
  cmap : hashmap_t (list Z) loc;
  lru : links;
  locked : bool;
  total_size_max : Z;
  total_size : Z;
  entries : gmap loc cache_entry_t
}.

Definition LRU : loc := 0%nat.

Definition set_locked (b : bool) (c : cache_t) : cache_t :=
  mkCache (cmap c) (lru c) b (total_size_max c) (total_size c) (entries c).
Definition set_entries (es : gmap loc cache_entry_t) (c : cache_t) : cache_t :=
  mkCache (cmap c) (lru c) (locked c) (total_size_max c) (total_size c) es.
Definition set_total (n : Z) (c : cache_t) : cache_t :=
  mkCache (cmap c) (lru c) (locked c) (total_size_max c) n (entries c).
Definition set_lru (h : links) (c : cache_t) : cache_t :=
  mkCache (cmap c) h (locked c) (total_size_max c) (total_size c) (entries c).
Definition set_map (m : hashmap_t (list Z) loc) (c : cache_t) : cache_t :=
  mkCache m (lru c) (locked c) (total_size_max c) (total_size c) (entries c).

(** ** Operations *)

(** [pthread_mutex_lock] on the cache's lock, by a thread that may have it already. *)
Definition lock (c : cache_t) : res cache_t := if locked c then Err Undefined else Ok (set_locked true c).
Definition unlock (c : cache_t) : cache_t := set_locked false c.

Definition entry_at (c : cache_t) (a : loc) : res cache_entry_t :=
  match entries c !! a with Some e => Ok e | None => Err Undefined end.

(** [calloc] gives the address [a]. *)
Definition cache_entry_create (c : cache_t) (a : loc) : cache_t :=
  set_entries (<[a := mkCE buffer_init None false 0]> (entries c)) c.

(** [buffer_free] reads through the entry's key. *)
Definition cache_entry_destroy (c : cache_t) (a : loc) : res cache_t :=
  let* e := entry_at c a in
  match ce_key e with
  | Some _ => Ok (set_entries (delete a (entries c)) c)
  | None => Err Undefined
  end.

Definition cache_entry_size (e : cache_entry_t) : res Z :=
  match ce_key e with Some k => Ok (buffer_used (ce_data e) + zlen k) | None => Err Undefined end.

Definition set_refs (c : cache_t) (a : loc) (f : Z -> Z) : res cache_t :=
  let* e := entry_at c a in
  Ok (set_entries (<[a := mkCE (ce_data e) (ce_key e) (is_finished e) (f (ref_count e))]> (entries c)) c).

Definition cache_create (mem : list bool) (max_size_bytes : Z) : res (cache_t * list bool) :=
  let* '(_, m, mem) := hashmap_create mem buffer_hash buffer_cmp 128 in
  Ok (mkCache m (list_init ∅ LRU) false max_size_bytes 0 ∅, mem).

(** Drops a reference; the entry is destroyed with the last. *)
Definition drop_ref (c : cache_t) (a : loc) : res cache_t :=
  let* c := set_refs c a (fun n => u64 (n - 1)) in
  let* e := entry_at c a in
  if ref_count e =? 0 then cache_entry_destroy c a else Ok c.

Definition cache_remove_entry (c : cache_t) (key : list Z) : res (Z * cache_t) :=
  let* c := lock c in
  let* '(err, found, m) := hashmap_remove (cmap c) key in
  match found with
  | None => Ok (err, unlock c)
  | Some hm_entry =>
      let c := set_map m c in
      let a := e_value hm_entry in
      let* h := list_unlink (lru c) a in
      let c := set_lru h c in
      let* e := entry_at c a in
      let* sz := cache_entry_size e in
      let c := set_total (u64 (total_size c - sz)) c in
      let* c := drop_ref c a in
      Ok (OK, unlock c)
  end.

(** The loop of [cache_free_memory], which the caller runs with the lock. *)
Fixpoint free_loop (fuel : nat) (c : cache_t) (size freed : Z) : res (Z * cache_t) :=
  if freed <? size then
    match fuel with
    | O => Err OutOfFuel
    | S fuel =>
        let* empty := list_empty (lru c) LRU in
        if empty then Ok (ERROR, c)
        else
          let* a := list_back (lru c) LRU in
          let* e := entry_at c a in
          let* entry_size := cache_entry_size e in
          match ce_key e with
          | Some k => let* '(_, c) := cache_remove_entry c k in free_loop fuel c size (u64 (freed + entry_size))
          | None => Err Undefined
          end
    end
  else Ok (OK, c).

(** A round removes an entry, so there are no more rounds than entries. *)
Definition cache_free_memory (c : cache_t) (size : Z) : res (Z * cache_t) :=
  free_loop (S (base.size (entries c))) c size 0.

Definition cache_ensure_memory (c : cache_t) (size : Z) : res (Z * cache_t) :=
  let* c := lock c in
  if u64 (total_size c + size) >? total_size_max c then
    let* '(err, c) := cache_free_memory c (u64 (total_size c + size - total_size_max c)) in
    Ok (err, unlock c)
  else Ok (OK, unlock c).

(** The entry and the error; [None] is the null pointer. *)
Definition cache_add_entry (mem : list bool) (c : cache_t) (a : loc) (key : list Z) : res (option loc * Z * cache_t * list bool) :=
  let '(ok, mem) := malloc mem in
  if negb ok then Ok (None, ENOMEM, c, mem)
  else
    let c := cache_entry_create c a in
    let* c := set_refs c a (fun _ => 2) in
    let* c := lock c in
    let* '(err, old, m, mem) := hashmap_insert mem (cmap c) key a in
    let c := set_map m c in
    if err =? EEXIST then
      match old with
      | Some old_entry =>
          let* c := set_refs c old_entry (fun n => u64 (n + 1)) in
          let* c := cache_entry_destroy (unlock c) a in
          Ok (Some old_entry, err, c, mem)
      | None => Err Undefined
      end
    else if negb (err =? OK) then
      let* c := cache_entry_destroy (unlock c) a in
      Ok (None, err, c, mem)
    else
      let* h := list_push_front (lru c) LRU a in
      let c := set_lru h c in
      let* e := entry_at c a in
      let c := set_entries (<[a := mkCE (ce_data e) (Some key) (is_finished e) (ref_count e)]> (entries c)) c in
      Ok (Some a, OK, unlock c, mem).

Definition cache_get_entry (c : cache_t) (key : list Z) : res (option loc * cache_t) :=
  let* c := lock c in
  let* '(err, found) := hashmap_find (cmap c) key in
  match found with
  | None => Ok (None, unlock c)
  | Some hm_entry =>
      let a := e_value hm_entry in
      let* c := set_refs c a (fun n => u64 (n + 1)) in
      let* h := list_unlink (lru c) a in
      let* h := list_push_front h LRU a in
      Ok (Some a, unlock (set_lru h c))
  end.

Definition cache_entry_put (c : cache_t) (a : loc) : res cache_t := drop_ref c a.

(** When there is no memory for the entry's buffer, the program is aborted. *)
Definition cache_entry_append_data (mem : list bool) (c : cache_t) (a : loc) (p : list Z) : res (cache_t * list bool) :=
  let* '(_, c) := cache_ensure_memory c (zlen p) in
  let* e := entry_at c a in
  let* '(b, mem) := ensure_or_abort mem (ce_data e) (zlen p) in
  let* b := buffer_write b p in
  let c := set_entries (<[a := mkCE b (ce_key e) (is_finished e) (ref_count e)]> (entries c)) c in
  Ok (set_total (u64 (total_size c + zlen p)) c, mem).

Definition cache_entry_finished (c : cache_t) (a : loc) : res cache_t :=
  let* e := entry_at c a in
  let c := set_entries (<[a := mkCE (ce_data e) (ce_key e) true (ref_count e)]> (entries c)) c in
  drop_ref c a.

(** The data a reader gets. *)
Definition cache_entry_get_data (c : cache_t) (a : loc) : res (list Z) := let* e := entry_at c a in Ok (used (ce_data e)).

(** ** What the cache promises *)



Inductive call :=
| Add (a : loc) (key : list Z)
| Get (key : list Z)
| Append (a : loc) (p : list Z)
| Finish (a : loc)
| Put (a : loc)
| Remove (key : list Z).

Inductive answer := Entry (e : option loc) | Status (err : Z) | Done.






(** The program's calls. *)
Definition cache_call (mem : list bool) (c : cache_t) (x : call) : res (answer * cache_t * list bool) :=
  match x with
  | Add a k => let* '(r, _, c, mem) := cache_add_entry mem c a k in Ok (Entry r, c, mem)
  | Get k => let* '(r, c) := cache_get_entry c k in Ok (Entry r, c, mem)
  | Append a p => let* '(c, mem) := cache_entry_append_data mem c a p in Ok (Done, c, mem)
  | Finish a => let* c := cache_entry_finished c a in Ok (Done, c, mem)
  | Put a => let* c := cache_entry_put c a in Ok (Done, c, mem)
  | Remove k => let* '(err, c) := cache_remove_entry c k in Ok (Status err, c, mem)
  end.

(** ** The refinement *)



















(** ** Sequences of calls *)

Fixpoint cache_calls (mem : list bool) (c : cache_t) (xs : list call) : res (list answer * cache_t * list bool) :=
  match xs with
  | [] => Ok ([], c, mem)
  | x :: xs =>
      let* '(r, c, mem) := cache_call mem c x in
      let* '(rs, c, mem) := cache_calls mem c xs in
      Ok (r :: rs, c, mem)
  end.




Definition new_cache (max : Z) : res cache_t := let* '(c, _) := cache_create [] max in Ok c.





(** The calls on a new cache of 1000 bytes, and the size it then believes to have. *)
Definition cache_outcome (xs : list call) : res Z :=
  let* c := new_cache 1000 in
  let* '(_, c, _) := cache_calls [] c xs in
  Ok (total_size c).

(** Three faults of the cache.  Removing an entry subtracts the length of its
    request, which was never added, so the total of an empty cache wraps around to
    nearly 2^64; the next append that is shorter than the removed request then finds no
    room, and frees memory by calling [cache_remove_entry], which waits for the lock the
    thread already has; and adding a request that is cached reads the null key of the
    entry it throws away. *)
Theorem cache_faults :
  cache_outcome [Add 1 [71; 69; 84]; Append 1 [1; 2]; Finish 1; Remove [71; 69; 84]] = Ok (2 ^ 64 - 3) /\
  cache_outcome [Add 1 [71; 69; 84]; Append 1 [1; 2]; Finish 1; Remove [71; 69; 84]; Add 2 [80]; Append 2 [1; 2]] = Err Undefined /\
  cache_outcome [Add 1 [71; 69; 84]; Add 2 [71; 69; 84]] = Err Undefined.
Proof. vm_compute. done. Qed.
