(* ===== verification/ProxyHttp.v ===== *)
(** * OS-Labs/11-http-proxy/http.c and utils.c: chunked bodies and headers

    Texts are lists of bytes.  The request and response parser is third-party code; this
    file has what the proxy does with its results: looking up headers, reading numbers
    ([strtoull_n]) and splitting a body into chunks ([http_parse_chunks]).

    The theorems are about chunked bodies: a body that was encoded as chunks is split
    into the same chunks, and what is incomplete is left for the next call. *)
From S2P Require Import Prelude.

(** ** Numbers *)

Definition is_space (c : Z) : bool := (c =? 32) || ((9 <=? c) && (c <=? 13)).

Definition digit_value (c : Z) : option Z :=
  if (48 <=? c) && (c <=? 57) then Some (c - 48)
  else if (65 <=? c) && (c <=? 90) then Some (c - 55)
  else if (97 <=? c) && (c <=? 122) then Some (c - 87)
  else None.

Fixpoint skip_spaces (s : list Z) : list Z :=
  match s with c :: s' => if is_space c then skip_spaces s' else s | [] => [] end.

(** The digits of a base, with the result held at its greatest value. *)
Fixpoint read_digits (base acc : Z) (s : list Z) : Z :=
  match s with
  | c :: s =>
      match digit_value c with
      | Some d => if d <? base then read_digits base (Z.min UINT64_MAX (acc * base + d)) s else acc
      | None => acc
      end
  | [] => acc
  end.

(** [0x] in front of a hexadecimal digit. *)
Definition skip_prefix (base : Z) (s : list Z) : list Z :=
  match s with
  | z :: x :: c :: _ =>
      if (base =? 16) && (z =? 48) && ((x =? 120) || (x =? 88)) && match digit_value c with Some d => d <? 16 | None => false end
      then drop 2 s else s
  | _ => s
  end.

(** [strtoull] on a string without its final 0. *)
Definition strtoull (s : list Z) (base : Z) : Z :=
  match skip_spaces s with
  | [] => 0
  | c :: s =>
      if c =? 45 then u64 (- read_digits base 0 (skip_prefix base s))
      else if c =? 43 then read_digits base 0 (skip_prefix base s)
      else read_digits base 0 (skip_prefix base (c :: s))
  end.

(** The first [n] characters, copied into an array of 64; what follows a 0 is not read. *)
Fixpoint c_string (s : list Z) : list Z := match s with c :: s => if c =? 0 then [] else c :: c_string s | [] => [] end.

Definition strtoull_n (str : list Z) (n base : Z) : res Z :=
  if n =? 0 then Ok 0
  else
    check! assert (n <? 64) in
    Ok (strtoull (c_string (take (Z.to_nat n) str)) base).

(** ** Chunks *)

(** [memmem] for the end of a line: its index. *)
Fixpoint find_crlf (s : list Z) : option Z :=
  match s with
  | [] => None
  | c :: s' =>
      if (c =? 13) && match s' with d :: _ => d =? 10 | [] => false end then Some 0
      else match find_crlf s' with Some i => Some (i + 1) | None => None end
  end.

Record http_chunk_t := mkChunk { chunk_len : Z; chunk_data : Z }.

(** The loop of [http_parse_chunks]; [buf] is the text from the position reached on,
    which is [consumed] bytes from the start; a chunk's data is the index where it starts.
    An end that lies 2^62 bytes behind is taken for a pointer overflow. *)
Fixpoint chunks_loop (n : nat) (buf : list Z) (consumed : Z) : res (Z * list http_chunk_t) :=
  match n with
  | O => Ok (consumed, [])
  | S n =>
      match find_crlf buf with
      | None => Ok (consumed, [])
      | Some i =>
          let* len := strtoull_n buf i 16 in
          if len >=? 2 ^ 62 then Err Undefined
          else if i + 2 + len + 2 >? zlen buf then Ok (consumed, [])
          else
            let used := i + 2 + len + 2 in
            let* '(total, cs) := chunks_loop n (drop (Z.to_nat used) buf) (consumed + used) in
            Ok (total, mkChunk len (consumed + i + 2) :: cs)
      end
  end.

(** The number of bytes consumed, which is counted in [size_t] and returned as an [int],
    and the chunks. *)
Definition http_parse_chunks (max_chunks : nat) (buf : list Z) : res (Z * list http_chunk_t) :=
  let* '(bytes_consumed, chunks) := chunks_loop max_chunks buf 0 in
  Ok (to_s32 (u64 bytes_consumed), chunks).

(** ** Headers *)

Record phr_header := mkHeader { h_name : list Z; h_value : list Z }.

(** [strncmp(a, b, n)] is 0, for a [b] that ends in 0. *)
Fixpoint strncmp_eq (n : nat) (a b : list Z) : bool :=
  match n with
  | O => true
  | S n =>
      match a, b with
      | x :: a, y :: b => if x =? y then if x =? 0 then true else strncmp_eq n a b else false
      | x :: _, [] => x =? 0
      | [], _ => true
      end
  end.

(** Only as many characters are compared as the header's name has. *)
Fixpoint http_find_header (headers : list phr_header) (name : list Z) : option phr_header :=
  match headers with
  | [] => None
  | h :: headers => if strncmp_eq (length (h_name h)) (h_name h) name then Some h else http_find_header headers name
  end.

Definition Content_Length : list Z := [67; 111; 110; 116; 101; 110; 116; 45; 76; 101; 110; 103; 116; 104].
Definition Transfer_Encoding : list Z := [84; 114; 97; 110; 115; 102; 101; 114; 45; 69; 110; 99; 111; 100; 105; 110; 103].
Definition chunked : list Z := [99; 104; 117; 110; 107; 101; 100; 0].

(** [memcmp(value, literal, len)]: more characters than the literal has are not there to
    be read. *)
Definition memcmp_is (value literal : list Z) : res bool :=
  let n := length value in
  if bool_decide (value = take n literal) then Ok true
  else if (n <=? length literal)%nat then Ok false else Err Undefined.

Definition http_response_is_chunked (headers : list phr_header) : res bool :=
  match http_find_header headers Transfer_Encoding with
  | None => Ok false
  | Some h => memcmp_is (h_value h) chunked
  end.

(** [None]: there is no such header. *)
Definition http_get_content_length (headers : list phr_header) : res (option Z) :=
  match http_find_header headers Content_Length with
  | None => Ok None
  | Some h => let* n := strtoull_n (h_value h) (zlen (h_value h)) 10 in Ok (Some n)
  end.

(** "5" CRLF "hello" CRLF "0" CRLF CRLF. *)
Example parse_hello :
  http_parse_chunks 32 [53; 13; 10; 104; 101; 108; 108; 111; 13; 10; 48; 13; 10; 13; 10] = Ok (15, [mkChunk 5 3; mkChunk 0 13]).
Proof. vm_compute. reflexivity. Qed.

(** A header named "Con" is taken for the content length. *)
Example prefix_header :
  http_get_content_length [mkHeader [67; 111; 110] [52; 50]] = Ok (Some 42).
Proof. vm_compute. reflexivity. Qed.

(** ** Encoding *)

Definition hex_digit (d : Z) : Z := if d <? 10 then 48 + d else 87 + d.

(** A number below 16^(k+1) in hexadecimal. *)
Fixpoint hex_digits (k : nat) (n : Z) : list Z :=
  match k with
  | S k => if n <? 16 then [hex_digit n] else hex_digits k (n / 16) ++ [hex_digit (n mod 16)]
  | O => [hex_digit n]
  end.

Definition hex (n : Z) : list Z := hex_digits 15 n.

Definition crlf : list Z := [13; 10].

(** A chunk with its length in front. *)
Definition encode_chunk (d : list Z) : list Z := hex (zlen d) ++ crlf ++ d ++ crlf.

Definition is_hex (c : Z) : Prop := 48 <= c <= 57 \/ 97 <= c <= 102.

Lemma hex_digit_ok d : 0 <= d < 16 -> is_hex (hex_digit d) /\ digit_value (hex_digit d) = Some d.
Proof.
  intros Hd. unfold hex_digit, is_hex, digit_value. destruct (Z.ltb_spec d 10).
  - zcase; try lia; split; (lia || f_equal; lia).
  - zcase; try lia; split; (lia || f_equal; lia).
Qed.

Lemma hex_digits_ok k : forall n, 0 <= n < 16 ^ (Z.of_nat k + 1) -> Forall is_hex (hex_digits k n) /\ (length (hex_digits k n) <= k + 1)%nat.
Proof.
  induction k as [|k IH]; intros n Hn; cbn [hex_digits].
  { split; [|done]. constructor; [|constructor]. apply hex_digit_ok. lia. }
  destruct (Z.ltb_spec n 16). { split; [|cbn; lia]. constructor; [|constructor]. apply hex_digit_ok. lia. }
  destruct (IH (n / 16)) as [H1 H2].
  { split; [apply Z.div_pos; lia|]. apply Z.div_lt_upper_bound; [lia|]. rewrite <- Z.pow_succ_r by lia. replace (Z.succ (Z.of_nat k + 1)) with (Z.of_nat (S k) + 1) by lia. lia. }
  split; [|rewrite length_app; cbn [length crlf]; lia]. apply Forall_app. split; [done|]. constructor; [|constructor]. apply hex_digit_ok, Z.mod_pos_bound. lia.
Qed.

Lemma read_digits_snoc l d acc : Forall is_hex l -> 0 <= d < 16 -> 0 <= acc ->
  read_digits 16 acc (l ++ [hex_digit d]) = Z.min UINT64_MAX (read_digits 16 acc l * 16 + d).
Proof.
  intros Hl Hd. revert acc. induction Hl as [|c l Hc Hl IH]; intros acc Ha; cbn [app read_digits].
  - rewrite (proj2 (hex_digit_ok d Hd)). destruct (Z.ltb_spec d 16); [done|lia].
  - assert (Hv : exists v, digit_value c = Some v /\ 0 <= v < 16).
    { unfold digit_value, is_hex in *. zcase; try lia; eexists; (split; [reflexivity|lia]). }
    destruct Hv as (v & -> & Hv). destruct (Z.ltb_spec v 16); [|lia]. apply IH. unfold UINT64_MAX. lia.
Qed.

Lemma read_hex k : forall n, 0 <= n < 16 ^ (Z.of_nat k + 1) -> n <= UINT64_MAX -> read_digits 16 0 (hex_digits k n) = n.
Proof.
  induction k as [|k IH]; intros n Hn Hm; cbn [hex_digits].
  { cbn [read_digits]. change (16 ^ (Z.of_nat 0 + 1)) with 16 in Hn. rewrite (proj2 (hex_digit_ok n Hn)). destruct (Z.ltb_spec n 16); lia. }
  destruct (Z.ltb_spec n 16).
  { cbn [read_digits]. rewrite (proj2 (hex_digit_ok n ltac:(lia))). destruct (Z.ltb_spec n 16); lia. }
  assert (Hq : 0 <= n / 16 < 16 ^ (Z.of_nat k + 1)).
  { split; [apply Z.div_pos; lia|]. apply Z.div_lt_upper_bound; [lia|]. rewrite <- Z.pow_succ_r by lia. replace (Z.succ (Z.of_nat k + 1)) with (Z.of_nat (S k) + 1) by lia. lia. }
  pose proof (Z.mod_pos_bound n 16 ltac:(lia)). pose proof (Z.div_mod n 16 ltac:(lia)).
  rewrite read_digits_snoc; [|by apply hex_digits_ok|lia|lia]. rewrite IH; [lia|done|lia].
Qed.

Lemma hex_ok n : 0 <= n < 2 ^ 62 -> Forall is_hex (hex n) /\ (0 < length (hex n) <= 16)%nat /\ strtoull (hex n) 16 = n.
Proof.
  intros Hn. destruct (hex_digits_ok 15 n) as [H1 H2]; [change (Z.of_nat 15 + 1) with 16; lia|].
  split; [done|]. assert (Hr : read_digits 16 0 (hex n) = n) by (apply read_hex; [change (Z.of_nat 15 + 1) with 16; lia|unfold UINT64_MAX; lia]).
  assert (Hlen : (0 < length (hex n))%nat) by (unfold hex; cbn [hex_digits]; destruct (n <? 16); [cbn; lia|rewrite length_app; cbn [length crlf]; lia]).
  split; [unfold hex in *; lia|]. unfold strtoull. fold (hex n) in H1. destruct (hex n) as [|c s] eqn:E; [cbn in Hlen; lia|].
  apply Forall_cons in H1 as [Hc Hs]. unfold is_hex in Hc. cbn [skip_spaces]. assert (Hsp : is_space c = false) by (unfold is_space; zcase; lia || done). rewrite Hsp.
  assert (Hpre : skip_prefix 16 (c :: s) = c :: s).
  { unfold skip_prefix. destruct s as [|x [|y s]]; try done. apply Forall_cons in Hs as [Hx _]. unfold is_hex in Hx.
    destruct (Z.eqb_spec x 120); [lia|]. destruct (Z.eqb_spec x 88); [lia|]. cbn [orb]. by rewrite andb_false_r. }
  destruct (Z.eqb_spec c 45); [lia|]. destruct (Z.eqb_spec c 43); [lia|]. by rewrite Hpre.
Qed.

(** ** Splitting what was encoded *)

Lemma find_crlf_hex l s : Forall is_hex l -> find_crlf (l ++ 13 :: 10 :: s) = Some (zlen l).
Proof.
  induction 1 as [|c l Hc _ IH]; [done|]. cbn [app find_crlf]. unfold is_hex in Hc. destruct (Z.eqb_spec c 13); [lia|]. cbn [andb]. by rewrite IH, zlen_cons.
Qed.

Lemma c_string_hex l : Forall is_hex l -> c_string l = l.
Proof. induction 1 as [|c l Hc _ IH]; [done|]. cbn [c_string]. unfold is_hex in Hc. destruct (Z.eqb_spec c 0); [lia|]. by rewrite IH. Qed.

(** The length in front of a chunk. *)
Lemma size_line (d s : list Z) : zlen d < 2 ^ 62 ->
  find_crlf (hex (zlen d) ++ crlf ++ s) = Some (zlen (hex (zlen d))) /\
  strtoull_n (hex (zlen d) ++ crlf ++ s) (zlen (hex (zlen d))) 16 = Ok (zlen d).
Proof.
  intros Hd. pose proof (zlen_nonneg d). destruct (hex_ok (zlen d)) as (Hh & Hl & Hs); [lia|]. split; [by apply find_crlf_hex|].
  unfold strtoull_n. assert (Hz : 0 < zlen (hex (zlen d)) <= 16) by (unfold zlen at 1 3; lia). destruct (Z.eqb_spec (zlen (hex (zlen d))) 0); [lia|].
  destruct (Z.ltb_spec (zlen (hex (zlen d))) 64); [|lia]. cbn [assert].
  replace (Z.to_nat (zlen (hex (zlen d)))) with (length (hex (zlen d))) by (unfold zlen at 2; lia).
  rewrite take_app_length, c_string_hex by done. by rewrite Hs.
Qed.

(** The text from a position on that holds no complete chunk. *)
Definition incomplete (s : list Z) : Prop := forall n consumed, chunks_loop n s consumed = Ok (consumed, []).

Lemma chunk_step n d s consumed : zlen d < 2 ^ 62 ->
  chunks_loop (S n) (encode_chunk d ++ s) consumed =
    let* '(total, cs) := chunks_loop n s (consumed + zlen (encode_chunk d)) in
    Ok (total, mkChunk (zlen d) (consumed + zlen (hex (zlen d)) + 2) :: cs).
Proof.
  intros Hd. unfold encode_chunk. rewrite <- !app_assoc. cbn [chunks_loop]. destruct (size_line d (d ++ crlf ++ s) Hd) as [-> ->].
  rewrite Z.geb_leb. destruct (Z.leb_spec (2 ^ 62) (zlen d)); [lia|]. rewrite Z.gtb_ltb.
  assert (Hz : zlen (hex (zlen d) ++ crlf ++ d ++ crlf) = zlen (hex (zlen d)) + 2 + zlen d + 2) by (rewrite !zlen_app; change (zlen crlf) with 2; lia).
  pose proof (zlen_nonneg s). pose proof (zlen_nonneg d). pose proof (zlen_nonneg (hex (zlen d))).
  destruct (Z.ltb_spec (zlen (hex (zlen d) ++ crlf ++ d ++ crlf ++ s)) (zlen (hex (zlen d)) + 2 + zlen d + 2)) as [Hlt|_].
  { rewrite !zlen_app in Hlt. change (zlen crlf) with 2 in Hlt. lia. }
  rewrite Hz. replace (drop _ (hex (zlen d) ++ crlf ++ d ++ crlf ++ s)) with s; [done|].
  replace (hex (zlen d) ++ crlf ++ d ++ crlf ++ s) with ((hex (zlen d) ++ crlf ++ d ++ crlf) ++ s) by (by rewrite <- !app_assoc).
  rewrite drop_app_length'; [done|]. rewrite <- Hz. unfold zlen. lia.
Qed.

(** A chunk of which the end is missing. *)
Lemma prefix_incomplete d p q : zlen d < 2 ^ 62 -> encode_chunk d = p ++ q -> q <> [] -> incomplete p.
Proof.
  intros Hd E Hq n consumed. destruct n as [|n]; [done|]. cbn [chunks_loop].
  pose proof (zlen_nonneg d). destruct (hex_ok (zlen d)) as (Hh & Hl & _); [lia|]. unfold encode_chunk in E.
  destruct (Nat.le_gt_cases (length (hex (zlen d)) + 2) (length p)) as [Hle|Hlt].
  - assert (Hp : p = hex (zlen d) ++ crlf ++ drop (length (hex (zlen d)) + 2) p).
    { rewrite app_assoc. rewrite <- (take_drop (length (hex (zlen d)) + 2) p) at 1. f_equal.
      rewrite <- (take_app_le p q) by lia. rewrite <- E, app_assoc. rewrite take_app_length' by (rewrite length_app; cbn [length crlf]; lia). done. }
    rewrite Hp. set (s := drop _ p) in *. destruct (size_line d s Hd) as [-> ->]. rewrite <- Hp, Z.geb_leb, Z.gtb_ltb.
    destruct (Z.leb_spec (2 ^ 62) (zlen d)); [lia|].
    assert (Hz : zlen (hex (zlen d)) + 2 + zlen d + 2 = zlen p + zlen q).
    { rewrite <- zlen_app, <- E, !zlen_app. change (zlen crlf) with 2. lia. }
    assert (0 < zlen q) by (destruct q; [done|]; rewrite zlen_cons; pose proof (zlen_nonneg q); lia).
    destruct (Z.ltb_spec (zlen p) (zlen (hex (zlen d)) + 2 + zlen d + 2)); [done|lia].
  - assert (Hpre : p = take (length p) (hex (zlen d) ++ [13])).
    { rewrite <- (take_app_length p q) at 1. rewrite <- E. change (crlf ++ d ++ crlf) with ([13] ++ 10 :: d ++ crlf). rewrite app_assoc.
      rewrite take_app_le by (rewrite length_app; cbn [length crlf]; lia). done. }
    assert (Hno : find_crlf p = None); [|by rewrite Hno]. rewrite Hpre. clear -Hh. generalize (length p) as m.
    induction Hh as [|c l Hc _ IH]; intros [|m]; try done; [by destruct m|]. cbn [app take find_crlf]. unfold is_hex in Hc.
    destruct (Z.eqb_spec c 13); [lia|]. cbn [andb]. by rewrite IH.
Qed.

(** The data of a chunk in the text. *)
Definition chunk_bytes (buf : list Z) (c : http_chunk_t) : list Z := take (Z.to_nat (chunk_len c)) (drop (Z.to_nat (chunk_data c)) buf).

Lemma chunks_ok (ds : list (list Z)) : forall n pre s, Forall (fun d => zlen d < 2 ^ 62) ds -> (length ds <= n)%nat -> incomplete s ->
  exists cs, chunks_loop n (concat (encode_chunk <$> ds) ++ s) (zlen pre) = Ok (zlen (pre ++ concat (encode_chunk <$> ds)), cs) /\
    chunk_bytes (pre ++ concat (encode_chunk <$> ds) ++ s) <$> cs = ds /\ chunk_len <$> cs = zlen <$> ds.
Proof.
  induction ds as [|d ds IH]; intros n pre s Hd Hn Hs; cbn [fmap list_fmap concat app].
  { exists []. by rewrite Hs, app_nil_r. }
  apply Forall_cons in Hd as [Hd Hds]. destruct n as [|n]; [cbn in Hn; lia|]. rewrite <- app_assoc, chunk_step by done.
  destruct (IH n (pre ++ encode_chunk d) s Hds ltac:(cbn in Hn; lia) Hs) as (cs & Hcs & Hb & Hlen). rewrite zlen_app in Hcs. rewrite Hcs.
  eexists. split; [by rewrite <- app_assoc|]. rewrite fmap_cons, fmap_cons, <- app_assoc in *. split; [|by rewrite Hlen]. f_equal; [|done].
  unfold chunk_bytes. cbn [chunk_len chunk_data]. unfold encode_chunk. rewrite <- !app_assoc.
  replace (pre ++ hex (zlen d) ++ crlf ++ d ++ crlf ++ concat (encode_chunk <$> ds) ++ s)
    with ((pre ++ hex (zlen d) ++ crlf) ++ d ++ crlf ++ concat (encode_chunk <$> ds) ++ s) by (by rewrite <- !app_assoc).
  rewrite drop_app_length' by (rewrite !length_app; unfold zlen; cbn [length crlf]; lia). rewrite take_app_length' by (unfold zlen; lia). done.
Qed.

(** The whole function on such a text. *)
Lemma parse_chunks_ok (ds : list (list Z)) (n : nat) (s : list Z) : Forall (fun d => zlen d < 2 ^ 62) ds -> (length ds <= n)%nat -> incomplete s ->
  exists ret cs, http_parse_chunks n (concat (encode_chunk <$> ds) ++ s) = Ok (ret, cs) /\
    ret = to_s32 (u64 (zlen (concat (encode_chunk <$> ds)))) /\
    chunk_bytes (concat (encode_chunk <$> ds) ++ s) <$> cs = ds /\ chunk_len <$> cs = zlen <$> ds.
Proof.
  intros Hd Hn Hs. destruct (chunks_ok ds n [] s Hd Hn Hs) as (cs & Hcs & Hb & Hl). unfold http_parse_chunks. change (zlen (@nil Z)) with 0 in Hcs. rewrite Hcs.
  eexists _, cs. by split.
Qed.

Lemma count_small n : 0 <= n < 2 ^ 31 -> to_s32 (u64 n) = n.
Proof. intros Hn. rewrite u64_small by lia. by apply to_signed_small; [|change (2 ^ (32 - 1)) with (2 ^ 31); lia]. Qed.

(** C31.  Chunked bodies are read back: from chunks that were encoded one after the other
    (up to the number asked for), followed by an incomplete one or nothing,
    [http_parse_chunks] finds exactly the chunks that are complete, with their data; a
    chunk whose end has not arrived is left for the next call.  What it returns is the
    number of bytes they take, cut to an [int]: the number itself when it is below
    2^31. *)
Theorem chunks_roundtrip (ds : list (list Z)) (max_chunks : nat) (d p q : list Z) :
  Forall (fun d => zlen d < 2 ^ 62) ds -> (length ds <= max_chunks)%nat -> zlen d < 2 ^ 62 -> encode_chunk d = p ++ q -> q <> [] ->
  exists ret cs, http_parse_chunks max_chunks (concat (encode_chunk <$> ds) ++ p) = Ok (ret, cs) /\
    ret = to_s32 (u64 (zlen (concat (encode_chunk <$> ds)))) /\
    (zlen (concat (encode_chunk <$> ds)) < 2 ^ 31 -> ret = zlen (concat (encode_chunk <$> ds))) /\
    chunk_bytes (concat (encode_chunk <$> ds) ++ p) <$> cs = ds /\ chunk_len <$> cs = zlen <$> ds.
Proof.
  intros Hds Hn Hd E Hq. destruct (parse_chunks_ok ds max_chunks p Hds Hn (prefix_incomplete d p q Hd E Hq)) as (ret & cs & H1 & H2 & H3).
  exists ret, cs. split; [exact H1|]. split; [exact H2|]. split; [|exact H3]. intros Hl. rewrite H2. apply count_small. split; [apply zlen_nonneg|exact Hl].
Qed.

Lemma chunks_roundtrip_witness :
  exists ret cs, http_parse_chunks 32 (concat (encode_chunk <$> [[104; 105]; []]) ++ [49; 13]) = Ok (ret, cs) /\ ret = 12 /\
    chunk_bytes (concat (encode_chunk <$> [[104; 105]; []]) ++ [49; 13]) <$> cs = [[104; 105]; []] /\ chunk_len <$> cs = zlen <$> [[104; 105]; []].
Proof.
  destruct (chunks_roundtrip [[104; 105]; []] 32 [7] [49; 13] [10; 7; 13; 10]) as (ret & cs & H1 & _ & H2 & H3);
    [repeat (constructor; [reflexivity|]); constructor|cbn; lia|reflexivity|reflexivity|discriminate|].
  exists ret, cs. split; [exact H1|]. split; [apply H2; reflexivity|exact H3].
Defined.
