(* ===== verification/ProxyForward.v ===== *)
(** * OS-Labs/11-http-proxy/proxy.c: forwarding a response to the client and the cache

    The three loops that pass on a response: until the length announced is reached
    ([proxy_forward_fixed_len]), until the last chunk ([proxy_forward_chunked]), until
    the host closes ([proxy_forward_till_sock_close]); the reading of the header in front
    of them and the choice between them ([proxy_send_response_from_host]).  Of the cache
    there is one entry, with its buffer and the number of times it was finished, and the
    two counts that [cache_ensure_memory] compares.

    The network and the memory are arguments.  What the host sends is a list of segments,
    of which one call of [recv] returns a part of the first; when there are none left, the
    host has closed the socket or the call fails.  A list of answers says how much each
    call of [send] takes, 0 for a closed connection and -1 for an error; when it is used
    up, a call takes everything.  Another list holds the answers of [realloc]. *)
From S2P Require Import Prelude ProxyHash ProxyBuffer ProxyHttp.

(** ** The outside *)

(** The entry's buffer and its calls of [cache_entry_finished]; [total_size] and
    [total_size_max] of its cache. *)
Record cache_entry := mkEntry { c_data : buffer_t; c_finished : Z; c_total_size : Z; c_size_max : Z }.

Record world := mkWorld {
  host : list (list Z);
  recv_fails : bool;
  sends : list Z;
  memory : list bool;
  client : list Z;
  entry : option cache_entry
}.

Definition set_memory (m : list bool) (w : world) : world := mkWorld (host w) (recv_fails w) (sends w) m (client w) (entry w).
Definition set_entry (e : option cache_entry) (w : world) : world := mkWorld (host w) (recv_fails w) (sends w) (memory w) (client w) e.

(** The bytes received, or the error: 0 when the host has closed, -1 when the call fails. *)
Definition proxy_recv (w : world) (len : Z) : (list Z + Z) * world :=
  match host w with
  | [] => (inr (if recv_fails w then -1 else 0), w)
  | seg :: segs =>
      let got := take (Z.to_nat len) seg in
      let rest := drop (Z.to_nat len) seg in
      match got with
      | [] => (inr 0, w)
      | _ => (inl got, mkWorld (match rest with [] => segs | _ => rest :: segs end) (recv_fails w) (sends w) (memory w) (client w) (entry w))
      end
  end.

(** What a call of [send] with [size] bytes returns, by the answer [n]. *)
Definition client_send (n size : Z) : Z := if n <? 0 then -1 else Z.min n size.

(** The loop of [client_send_all] over [size] bytes: what it returns, how many bytes were
    sent, and the answers left. *)
Fixpoint client_send_all (answers : list Z) (size sent_size : Z) : Z * Z * list Z :=
  if sent_size <? size then
    match answers with
    | [] => (size, size, [])
    | n :: answers =>
        let ret := client_send n (size - sent_size) in
        if (ret =? -1) || (ret =? 0) then (ret, sent_size, answers) else client_send_all answers size (sent_size + ret)
    end
  else (size, sent_size, answers).

Definition proxy_send_all (w : world) (p : list Z) : Z * world :=
  let '(ret, sent_size, answers) := client_send_all (sends w) (zlen p) 0 in
  (ret, mkWorld (host w) (recv_fails w) answers (memory w) (client w ++ take (Z.to_nat sent_size) p) (entry w)).

Definition proxy_send_buffer (w : world) (b : buffer_t) : Z * world :=
  let '(sret, w) := proxy_send_all w (used b) in
  if sret =? 0 then (ERROR, w) else if sret <? 0 then (ERROR, w) else (OK, w).

(** [cache_entry_append_data], when there is an entry.  The entry is in its cache, so when
    the cache is full, [cache_free_memory] waits for the lock the thread has. *)
Definition append_data (w : world) (p : list Z) : res world :=
  match entry w with
  | None => Ok w
  | Some e =>
      if u64 (c_total_size e + zlen p) >? c_size_max e then Err Undefined
      else
        let* '(b, m) := ensure_or_abort (memory w) (c_data e) (zlen p) in
        let* b := buffer_write b p in
        Ok (set_entry (Some (mkEntry b (c_finished e) (u64 (c_total_size e + zlen p)) (c_size_max e))) (set_memory m w))
  end.

Definition finished (w : world) : world :=
  set_entry (match entry w with Some e => Some (mkEntry (c_data e) (c_finished e + 1) (c_total_size e) (c_size_max e)) | None => None end) w.

(** ** Forwarding *)

Definition FORWARD_BUFFER_SIZE : Z := 64 * 1024.

(** The way out of the three functions, with and without an error. *)
Definition done_with (w : world) (err : Z) : res (Z * world) := Ok (err, finished w).

Fixpoint fixed_loop (fuel : nat) (w : world) (total_size len : Z) : res (Z * world) :=
  if total_size <? len then
    match fuel with
    | O => Err OutOfFuel
    | S fuel =>
        match proxy_recv w FORWARD_BUFFER_SIZE with
        | (inr _, w) => done_with w ERROR
        | (inl p, w) =>
            let '(sret, w) := proxy_send_all w p in
            if sret =? zlen p then
              let* w := append_data w p in
              fixed_loop fuel w (u64 (total_size + zlen p)) len
            else done_with w ERROR
        end
    end
  else done_with w OK.

(** The bytes the host has still to send. *)
Definition pending (w : world) : nat := length (concat (host w)).

Definition proxy_forward_fixed_len (w : world) (buf : buffer_t) (len : Z) : res (Z * world) :=
  let '(err, w) := proxy_send_buffer w buf in
  if negb (err =? OK) then done_with w ERROR
  else
    let* w := append_data w (used buf) in
    let* '(_, m) := ensure_or_abort (memory w) (buffer_reset buf) FORWARD_BUFFER_SIZE in
    fixed_loop (S (pending w)) (set_memory m w) 0 len.

Fixpoint close_loop (fuel : nat) (w : world) : res (Z * world) :=
  match fuel with
  | O => Err OutOfFuel
  | S fuel =>
      match proxy_recv w FORWARD_BUFFER_SIZE with
      | (inr r, w) => done_with w (if r =? 0 then OK else ERROR)
      | (inl p, w) =>
          let '(sret, w) := proxy_send_all w p in
          if sret =? zlen p then
            let* w := append_data w p in
            close_loop fuel w
          else done_with w ERROR
      end
  end.

Definition proxy_forward_till_sock_close (w : world) (buf : buffer_t) : res (Z * world) :=
  let '(err, w) := proxy_send_buffer w buf in
  if negb (err =? OK) then done_with w ERROR
  else
    let* w := append_data w (used buf) in
    let* '(_, m) := ensure_or_abort (memory w) (buffer_reset buf) FORWARD_BUFFER_SIZE in
    close_loop (S (pending w)) (set_memory m w).

Definition last_is_empty (cs : list http_chunk_t) : bool :=
  match list.last cs with Some c => chunk_len c =? 0 | None => false end.

(** [n_parsed] is the part of the buffer already parsed; behind its end nothing may be
    read. *)
Fixpoint chunked_loop (fuel : nat) (w : world) (buf : buffer_t) (n_parsed : Z) : res (Z * world) :=
  match fuel with
  | O => Err OutOfFuel
  | S fuel =>
      if n_parsed >? buffer_used buf then Err Undefined
      else
        let* '(pret, chunks) := http_parse_chunks 32 (drop (Z.to_nat n_parsed) (used buf)) in
        if pret =? -1 then done_with w ERROR
        else
          let n_parsed := u64 (n_parsed + pret) in
          if last_is_empty chunks then done_with w OK
          else
            let* '(buf, m) := ensure_or_abort (memory w) buf 16384 in
            match proxy_recv (set_memory m w) (buffer_unused buf) with
            | (inr _, w) => done_with w ERROR
            | (inl p, w) =>
                let* buf := buffer_write buf p in
                let '(sret, w) := proxy_send_all w p in
                if sret =? zlen p then
                  let* w := append_data w p in
                  chunked_loop fuel w buf n_parsed
                else done_with w ERROR
            end
  end.

Definition proxy_forward_chunked (w : world) (buf : buffer_t) (header_len : Z) : res (Z * world) :=
  let '(err, w) := proxy_send_buffer w buf in
  if negb (err =? OK) then done_with w ERROR
  else
    let* w := append_data w (used buf) in
    chunked_loop (S (pending w)) w buf header_len.

(** ** A response from the host

    The parser of response headers is third-party code: from the text received and its
    length before the last call it returns the length of the header, -1 for an error or
    -2 for an incomplete one, and the headers. *)
Section Response.
Context (phr_parse_response : list Z -> Z -> Z * list phr_header).

Definition http_parse_response (buf : list Z) (last_len : Z) : Z * list phr_header := phr_parse_response buf last_len.

(** The header's length and the headers, or the error. *)
Fixpoint response_header_loop (fuel : nat) (w : world) (buf : buffer_t) : res ((buffer_t * Z * list phr_header + Z) * world) :=
  match fuel with
  | O => Err OutOfFuel
  | S fuel =>
      let* '(buf, m) := ensure_or_abort (memory w) buf 256 in
      match proxy_recv (set_memory m w) (buffer_unused buf) with
      | (inr _, w) => Ok (inr ERROR, w)
      | (inl p, w) =>
          let last_len := buffer_used buf in
          let* buf := buffer_write buf p in
          let '(pret, headers) := http_parse_response (used buf) last_len in
          if pret >? 0 then Ok (inl (buf, pret, headers), w)
          else if pret =? -1 then Ok (inr ERROR, w)
          else
            check! assert (pret =? -2) in
            response_header_loop fuel w buf
      end
  end.

Definition proxy_recv_response_header (w : world) (buf : buffer_t) : res ((buffer_t * Z * list phr_header + Z) * world) :=
  response_header_loop (S (pending w)) w buf.

Definition proxy_send_response_from_host (w : world) : res (Z * world) :=
  let* '(header, w) := proxy_recv_response_header w buffer_init in
  match header with
  | inr _ => Ok (ERROR, w)
  | inl (buf, header_len, headers) =>
      let* is_chunked := http_response_is_chunked headers in
      if is_chunked then proxy_forward_chunked w buf header_len
      else
        let* content_length := http_get_content_length headers in
        match content_length with
        | Some n => proxy_forward_fixed_len w buf (u64 (n - (buffer_used buf - header_len)))
        | None => proxy_forward_till_sock_close w buf
        end
  end.

End Response.

(** ** What is passed on *)

(** An entry that got [X] and was finished [n] times more. *)
Definition entry_got (e e' : option cache_entry) (X : list Z) (n : Z) : Prop :=
  match e, e' with
  | Some e, Some e' => used (c_data e') = used (c_data e) ++ X /\ c_finished e' = c_finished e + n
  | None, None => True
  | _, _ => False
  end.

(** The client has got [X] and then [Y], the cache entry [X] alone. *)
Definition relayed (w w' : world) (X Y : list Z) (n : Z) : Prop :=
  client w' = client w ++ X ++ Y /\ entry_got (entry w) (entry w') X n.

(** Both have got the same. *)
Definition passed (w w' : world) (X : list Z) (n : Z) : Prop := relayed w w' X [] n.

Lemma got_refl e : entry_got e e [] 0.
Proof. destruct e; cbn; [|done]. by rewrite app_nil_r, Z.add_0_r. Qed.

Lemma got_trans e e1 e2 X Y n m : entry_got e e1 X n -> entry_got e1 e2 Y m -> entry_got e e2 (X ++ Y) (n + m).
Proof. destruct e, e1, e2; cbn; try done. intros [H1 H2] [H3 H4]. rewrite H3, H1, H4, H2, app_assoc. by split; [|lia]. Qed.

Lemma got_finished w : entry_got (entry w) (entry (finished w)) [] 1.
Proof. cbn. destruct (entry w); cbn; [|done]. by rewrite app_nil_r. Qed.

Lemma passed_refl w w' : client w' = client w -> entry w' = entry w -> passed w w' [] 0.
Proof. intros Hc He. split; [by rewrite Hc, !app_nil_r|]. rewrite He. apply got_refl. Qed.

Lemma relayed_trans w w1 w2 X Y Y' n m : passed w w1 X n -> relayed w1 w2 Y Y' m -> relayed w w2 (X ++ Y) Y' (n + m).
Proof. intros [H1 H2] [H3 H4]. split; [by rewrite H3, H1, app_nil_r, <- !app_assoc|]. exact (got_trans _ _ _ _ _ _ _ H2 H4). Qed.

Lemma passed_trans w w1 w2 X Y n m : passed w w1 X n -> passed w1 w2 Y m -> passed w w2 (X ++ Y) (n + m).
Proof. apply relayed_trans. Qed.

Lemma passed_finished w : passed w (finished w) [] 1.
Proof. split; [by rewrite !app_nil_r|apply got_finished]. Qed.

Lemma recv_cases w len r w' : proxy_recv w len = (r, w') ->
  passed w w' [] 0 /\ memory w' = memory w /\ sends w' = sends w /\ recv_fails w' = recv_fails w /\
  match r with inl p => p <> [] /\ concat (host w) = p ++ concat (host w') /\ zlen p <= Z.max 0 len | inr _ => w' = w end.
Proof.
  unfold proxy_recv. destruct (host w) as [|seg segs] eqn:Eh; [intros [= <- <-]; split_and!; try done; by apply passed_refl|].
  destruct (take (Z.to_nat len) seg) as [|x p] eqn:Et; intros [= <- <-]; split_and!; try done; try by apply passed_refl.
  - cbn [host concat]. rewrite <- (take_drop (Z.to_nat len) seg) at 1. rewrite Et, <- app_assoc. f_equal. by destruct (drop (Z.to_nat len) seg).
  - rewrite <- Et. unfold zlen. rewrite length_take. lia.
Qed.

(** Either everything was sent, or the call failed behind a part of it. *)
Lemma send_all_cases answers size : forall sent ret n rest, 0 <= sent <= size -> client_send_all answers size sent = (ret, n, rest) ->
  (ret = size /\ n = size) \/ (ret <= 0 /\ sent <= n < size).
Proof.
  induction answers as [|a answers IH]; intros sent ret n rest Hs; cbn [client_send_all]; destruct (Z.ltb_spec sent size).
  1, 2, 4: intros [= <- <- <-]; left; lia.
  unfold client_send. destruct (Z.ltb_spec a 0); [intros [= <- <- <-]; right; lia|].
  destruct (Z.eqb_spec (Z.min a (size - sent)) (-1)); [lia|]. destruct (Z.eqb_spec (Z.min a (size - sent)) 0); [intros [= <- <- <-]; right; lia|].
  intros [H1|H1]%IH; [by left| |lia]. right. lia.
Qed.

Lemma send_cases w p s w' : proxy_send_all w p = (s, w') ->
  host w' = host w /\ memory w' = memory w /\ recv_fails w' = recv_fails w /\ entry w' = entry w /\
  ((s = zlen p /\ client w' = client w ++ p) \/ (s <= 0 /\ p <> [] /\ exists Y, Y `prefix_of` p /\ client w' = client w ++ Y)).
Proof.
  unfold proxy_send_all. destruct (client_send_all (sends w) (zlen p) 0) as [[ret n] rest] eqn:E. intros [= <- <-]. split_and!; try done.
  pose proof (zlen_nonneg p). apply send_all_cases in E as [[-> ->]|[Hr Hn]]; [left|right|lia].
  - split; [done|]. cbn. unfold zlen. by rewrite Nat2Z.id, firstn_all.
  - split; [done|]. split; [intros ->; change (zlen (@nil Z)) with 0 in *; lia|]. exists (take (Z.to_nat n) p). split; [|done].
    exists (drop (Z.to_nat n) p). by rewrite take_drop.
Qed.

Lemma append_got w p w' : append_data w p = Ok w' -> host w' = host w /\ client w' = client w /\ recv_fails w' = recv_fails w /\ sends w' = sends w /\
  entry_got (entry w) (entry w') p 0.
Proof.
  unfold append_data. destruct (entry w) as [e|] eqn:Ee; [|intros [= <-]; by rewrite Ee]. destruct (_ >? _); [done|].
  destruct (ensure_or_abort _ _ _) as [[b m]|] eqn:Eb; [|done]. destruct (buffer_write b p) as [b'|] eqn:Ew; [|done]. intros [= <-]. split_and!; try done.
  apply ensure_used in Eb. apply write_used in Ew. cbn. rewrite Ew, Eb. by split; [|lia].
Qed.

(** Sent to the client and then stored in the entry. *)
Lemma sent_stored w p w1 w2 : proxy_send_all w p = (zlen p, w1) -> append_data w1 p = Ok w2 -> passed w w2 p 0 /\ host w2 = host w.
Proof.
  intros (Hh & _ & _ & He & Hc)%send_cases (Hh2 & Hc2 & _ & _ & Hg)%append_got. rewrite Hh2. split; [|done].
  assert (client w1 = client w ++ p) as Hp by (destruct Hc as [[_ ?]|(Hs & Hne & _)]; [done|]; destruct p; [done|]; rewrite zlen_cons in Hs; pose proof (zlen_nonneg p); lia).
  split; [by rewrite Hc2, Hp, app_nil_r|]. by rewrite He in Hg.
Qed.

(** Whatever happens to a response of which [pre] was received and not passed on: when the
    function returns, the client has got what the entry has and at most, after an error,
    a part of the next piece; all of it from the host, in order; the entry is finished
    once. *)
Definition relays (pre : list Z) (w : world) (f : res (Z * world)) : Prop := forall r w', f = Ok (r, w') ->
  exists X Y, relayed w w' X Y 1 /\ (r = OK -> Y = []) /\ X ++ Y `prefix_of` pre ++ concat (host w).

Lemma relays_done pre w err : relays pre w (done_with w err).
Proof. intros r w' [= <- <-]. exists [], []. split; [apply passed_finished|]. split; [done|]. apply prefix_nil. Qed.

Lemma relays_after pre pre' w w1 X f : passed w w1 X 0 -> pre ++ concat (host w) = X ++ pre' ++ concat (host w1) -> relays pre' w1 f -> relays pre w f.
Proof.
  intros H Hc Hf r w' E. destruct (Hf r w' E) as (X' & Y & HX & HY & Hp). exists (X ++ X'), Y. split; [by apply (relayed_trans w w1 w' X X' Y 0 1)|].
  split; [done|]. rewrite Hc, <- app_assoc. by apply prefix_app.
Qed.

(** The connection to the client breaks. *)
Lemma relays_broken pre w w1 p Y : client w1 = client w ++ Y -> entry w1 = entry w -> Y `prefix_of` p -> p `prefix_of` pre ++ concat (host w) ->
  relays pre w (done_with w1 ERROR).
Proof.
  intros Hc He Hy Hp r w' [= <- <-]. exists [], Y. split; [|split; [done|by transitivity p]]. split; [done|]. rewrite <- He. apply got_finished.
Qed.

(** Sending on what has been received and storing it. *)
Lemma relays_send pre w p (k : world -> res (Z * world)) : p <> [] -> (forall w', relays pre w' (k w')) ->
  relays (p ++ pre) w (let '(sret, w) := proxy_send_all w p in
    if sret =? zlen p then let* w := append_data w p in k w else done_with w ERROR).
Proof.
  intros Hne Hk. destruct (proxy_send_all w p) as [s w1] eqn:Es. pose proof (send_cases _ _ _ _ Es) as (Hh & _ & _ & He & Hc). destruct (Z.eqb_spec s (zlen p)) as [Hs|Hs].
  - subst s. destruct (append_data w1 p) as [w2|] eqn:Ea; [|done]. destruct (sent_stored _ _ _ _ Es Ea) as [Hp Hh2].
    apply (relays_after (p ++ pre) pre w w2 p); [done|by rewrite Hh2, <- app_assoc|]. apply Hk.
  - destruct Hc as [[? _]|(_ & _ & Y & HY & Hc)]; [done|]. apply (relays_broken _ w w1 p Y); try done. rewrite <- app_assoc. by apply prefix_app_r.
Qed.

(** Receiving and sending on, as the three loops do it. *)
Lemma relays_step w len (k : list Z -> world -> res (Z * world)) (e : Z -> Z) :
  (forall p w', relays [] w' (k p w')) ->
  relays [] w (match proxy_recv w len with
            | (inr r, w) => done_with w (e r)
            | (inl p, w) => let '(sret, w) := proxy_send_all w p in if sret =? zlen p then let* w := append_data w p in k p w else done_with w ERROR
            end).
Proof.
  intros Hk. destruct (proxy_recv w len) as [[p|r] w1] eqn:E; apply recv_cases in E as (Hp & _ & _ & _ & Hr); [|subst w1; apply relays_done].
  destruct Hr as (Hne & Hc & _). apply (relays_after [] (p ++ []) w w1 []); [done|by rewrite app_nil_r|]. by apply relays_send.
Qed.

Lemma relays_memory pre w m f : relays pre (set_memory m w) f -> relays pre w f.
Proof. intros Hf r w' E. destruct (Hf r w' E) as (X & Y & HX & H). by exists X, Y. Qed.

Lemma fixed_relays fuel : forall w total len, relays [] w (fixed_loop fuel w total len).
Proof.
  induction fuel as [|fuel IH]; intros w total len; cbn [fixed_loop]; destruct (total <? len); try apply relays_done; [done|].
  apply (relays_step w FORWARD_BUFFER_SIZE (fun p w => fixed_loop fuel w (u64 (total + zlen p)) len) (fun _ => ERROR)). auto.
Qed.

Lemma close_relays fuel : forall w, relays [] w (close_loop fuel w).
Proof.
  induction fuel as [|fuel IH]; intros w; cbn [close_loop]; [done|].
  apply (relays_step w FORWARD_BUFFER_SIZE (fun p w => close_loop fuel w) (fun r => if r =? 0 then OK else ERROR)). auto.
Qed.

Lemma chunked_relays fuel : forall w buf n, relays [] w (chunked_loop fuel w buf n).
Proof.
  induction fuel as [|fuel IH]; intros w buf n; cbn [chunked_loop]; [done|]. destruct (n >? buffer_used buf); [done|].
  destruct (http_parse_chunks 32 (drop (Z.to_nat n) (used buf))) as [[pret cs]|]; [|done]. destruct (pret =? -1); [apply relays_done|].
  destruct (last_is_empty cs); [apply relays_done|]. destruct (ensure_or_abort (memory w) buf 16384) as [[b m]|]; [|done]. apply (relays_memory [] w m).
  destruct (proxy_recv (set_memory m w) (buffer_unused b)) as [[p|r] w1] eqn:E; apply recv_cases in E as (Hp & _ & _ & _ & Hr); [|subst w1; apply relays_done].
  destruct (buffer_write b p) as [b'|]; [|done]. destruct Hr as (Hne & Hc & _).
  apply (relays_after [] (p ++ []) _ w1 []); [done|by rewrite app_nil_r|]. by apply relays_send.
Qed.

(** The start of the three functions. *)
Lemma relays_buffer w buf (k : world -> res (Z * world)) : (forall w', relays [] w' (k w')) ->
  relays (used buf) w (let '(err, w) := proxy_send_buffer w buf in if negb (err =? OK) then done_with w ERROR else let* w := append_data w (used buf) in k w).
Proof.
  intros Hk. unfold proxy_send_buffer. destruct (proxy_send_all w (used buf)) as [s w1] eqn:Es. pose proof (send_cases _ _ _ _ Es) as (Hh & _ & _ & He & Hc).
  assert (Hpre : used buf `prefix_of` used buf ++ concat (host w)) by (by apply prefix_app_r).
  assert (Hbad : s <= 0 -> relays (used buf) w (done_with w1 ERROR)).
  { intros Hs. destruct Hc as [[-> Hc]|(_ & _ & Y & HY & Hc)]; [|by apply (relays_broken _ w w1 (used buf) Y)]. apply (relays_broken _ w w1 (used buf) (used buf)); try done. }
  destruct (Z.eqb_spec s 0) as [H0|H0]; [apply Hbad; lia|]. destruct (Z.ltb_spec s 0); [apply Hbad; lia|]. cbn.
  destruct Hc as [[-> Hc]|[? _]]; [|lia]. destruct (append_data w1 (used buf)) as [w2|] eqn:Ea; [|done]. destruct (sent_stored _ _ _ _ Es Ea) as [Hp Hh2].
  apply (relays_after _ [] w w2 (used buf)); [done|by rewrite Hh2|]. apply Hk.
Qed.

(** ** A connection that works *)

(** No call of [recv] returns nothing before the end, the client takes everything, in
    parts of any size, and there is memory. *)
Definition flow (w : world) : Prop := Forall (fun seg => seg <> []) (host w) /\ Forall (fun n => 0 < n) (sends w) /\ memory w = [].

(** The cache has room for [n] bytes more, which keep the entry below a gigabyte. *)
Definition fits (w : world) (n : Z) : Prop :=
  match entry w with
  | None => True
  | Some e => valid (c_data e) /\ buffer_used (c_data e) + n < 2 ^ 30 /\ 0 <= c_total_size e /\ c_total_size e + n <= c_size_max e < 2 ^ 64
  end.

Lemma recv_flow w len : flow w -> 0 < len -> concat (host w) <> [] ->
  exists p w', proxy_recv w len = (inl p, w') /\ p <> [] /\ zlen p <= len /\ concat (host w) = p ++ concat (host w') /\ flow w' /\ recv_fails w' = recv_fails w /\
    passed w w' [] 0 /\ entry w' = entry w.
Proof.
  intros (Hf & Hs & Hm) Hl Hc. pose proof (recv_cases w len) as Hp. unfold proxy_recv in *. destruct (host w) as [|seg segs] eqn:Eh; [done|].
  apply Forall_cons in Hf as [Hseg Hf]. destruct (take (Z.to_nat len) seg) as [|x p] eqn:Et.
  { destruct seg as [|y seg]; [done|]. destruct (Z.to_nat len) eqn:En; [lia|done]. }
  destruct (Hp _ _ eq_refl) as (Hpass & _ & _ & _ & _ & Hcat & Hlen). eexists (x :: p), _. split; [reflexivity|]. split; [done|]. split; [lia|]. split; [exact Hcat|].
  split; [|done]. split; [|done]. cbn. destruct (drop (Z.to_nat len) seg) eqn:Ed; [done|]. by constructor.
Qed.

Lemma recv_end w len : concat (host w) = [] -> flow w -> proxy_recv w len = (inr (if recv_fails w then -1 else 0), w).
Proof. intros Hc [Hf _]. unfold proxy_recv. destruct (host w) as [|seg segs]; [done|]. apply Forall_cons in Hf as [Hseg _]. by destruct seg. Qed.

Lemma send_all_flow answers size : forall sent, Forall (fun n => 0 < n) answers -> 0 <= sent <= size ->
  exists rest, client_send_all answers size sent = (size, size, rest) /\ Forall (fun n => 0 < n) rest.
Proof.
  induction answers as [|a answers IH]; intros sent Ha Hs; cbn [client_send_all]; destruct (Z.ltb_spec sent size).
  1, 2, 4: assert (sent = size \/ sent < size) as [-> | ?] by lia; [|try lia]; by eexists.
  apply Forall_cons in Ha as [Ha1 Ha]. unfold client_send. destruct (Z.ltb_spec a 0); [lia|]. destruct (Z.eqb_spec (Z.min a (size - sent)) (-1)); [lia|].
  destruct (Z.eqb_spec (Z.min a (size - sent)) 0); [lia|]. apply IH; [done|lia].
Qed.

(** Sending on and storing. *)
Lemma send_flow w p n : flow w -> fits w n -> zlen p <= n ->
  exists w1 w2, proxy_send_all w p = (zlen p, w1) /\ append_data w1 p = Ok w2 /\ host w2 = host w /\ recv_fails w2 = recv_fails w /\
    flow w2 /\ fits w2 (n - zlen p) /\ passed w w2 p 0.
Proof.
  intros (Hf & Hs & Hm) Hfit Hn. pose proof (zlen_nonneg p). destruct (send_all_flow (sends w) (zlen p) 0 Hs ltac:(lia)) as (rest & E & Hrest).
  destruct (proxy_send_all w p) as [s w1] eqn:Es. pose proof Es as Es'. unfold proxy_send_all in Es'. rewrite E in Es'. injection Es' as <- <-.
  eexists _. assert (Ha : exists w2, append_data (mkWorld (host w) (recv_fails w) rest (memory w) (client w ++ take (Z.to_nat (zlen p)) p) (entry w)) p = Ok w2 /\
    sends w2 = rest /\ memory w2 = [] /\ fits w2 (n - zlen p)).
  { unfold append_data, fits in *. cbn. destruct (entry w) as [e|] eqn:Ee; [|by eexists].
    destruct Hfit as (Hv & Hd & Ht & Hmax). rewrite u64_small, Z.gtb_ltb by lia. destruct (Z.ltb_spec (c_size_max e) (c_total_size e + zlen p)); [lia|].
    rewrite Hm. destruct (ensure_ok (c_data e) (zlen p)) as (b & -> & Hu & Hvb & Hroom); [lia|done|unfold buffer_used in Hd; lia|].
    destruct (write_ok b p Hvb Hroom) as [-> Hv']. eexists. split; [done|]. cbn. split; [done|]. split; [done|]. split; [done|].
    unfold buffer_used in *. cbn [used]. rewrite Hu, zlen_app. lia. }
  destruct Ha as (w2 & Ha & Hs2 & Hm2 & Hfit2). exists w2. pose proof (append_got _ _ _ Ha) as (Hh & _ & Hrf & _). destruct (sent_stored _ _ _ _ Es Ha) as [Hp _].
  split_and!; try done. split_and!; [by rewrite Hh|by rewrite Hs2|done].
Qed.

(** One round of a loop on such a connection. *)
Lemma flow_step w len n : flow w -> fits w n -> zlen (concat (host w)) <= n -> 0 < len -> concat (host w) <> [] ->
  exists p w1 w2 w3, proxy_recv w len = (inl p, w1) /\ proxy_send_all w1 p = (zlen p, w2) /\ append_data w2 p = Ok w3 /\ p <> [] /\ zlen p <= len /\
    concat (host w) = p ++ concat (host w3) /\ flow w3 /\ fits w3 (n - zlen p) /\ recv_fails w3 = recv_fails w /\ passed w w3 p 0 /\ (pending w3 < pending w)%nat.
Proof.
  intros Hf Hfit Hn Hl Hc. destruct (recv_flow w len Hf Hl Hc) as (p & w1 & Hr & Hp & Hpl & Hcat & Hf1 & Hrf & Hp1 & He1).
  assert (Hfit1 : fits w1 n) by (unfold fits; by rewrite He1). pose proof (zlen_nonneg (concat (host w1))).
  destruct (send_flow w1 p n Hf1 Hfit1) as (w2 & w3 & Hs & Ha & Hh & Hrf2 & Hf2 & Hfit2 & Hp2); [rewrite Hcat, zlen_app in Hn; lia|]. exists p, w1, w2, w3.
  unfold pending. rewrite Hh. split_and!; try done; [congruence|exact (passed_trans _ _ _ _ _ _ _ Hp1 Hp2)|]. rewrite Hcat, length_app. destruct p; [done|cbn; lia].
Qed.

Lemma fixed_flow fuel : forall w total len n, flow w -> fits w n -> zlen (concat (host w)) <= n -> (pending w < fuel)%nat -> len - total <= zlen (concat (host w)) ->
  0 <= total -> total + zlen (concat (host w)) < 2 ^ 64 ->
  exists w' Y, fixed_loop fuel w total len = Ok (OK, w') /\ passed w w' Y 1 /\ concat (host w) = Y ++ concat (host w') /\ len <= total + zlen Y.
Proof.
  induction fuel as [|fuel IH]; intros w total len n Hf Hfit Hn Hfuel Hlen Ht Hmax; [lia|]. cbn [fixed_loop]. destruct (Z.ltb_spec total len) as [Hlt|Hge].
  - assert (Hc : concat (host w) <> []) by (intros E; rewrite E in Hlen; rewrite zlen_nil in Hlen; lia).
    destruct (flow_step w FORWARD_BUFFER_SIZE n Hf Hfit Hn eq_refl Hc) as (p & w1 & w2 & w3 & -> & -> & -> & Hp & _ & Hcat & Hf2 & Hfit2 & _ & Hpass & Hpend). rewrite Z.eqb_refl.
    rewrite Hcat, zlen_app in Hlen, Hmax, Hn. pose proof (zlen_nonneg p). pose proof (zlen_nonneg (concat (host w3))). rewrite u64_small by lia.
    destruct (IH w3 (total + zlen p) len _ Hf2 Hfit2) as (w' & Y & -> & HY & Hcat2 & Hl); try lia.
    exists w', (p ++ Y). split; [done|]. split; [exact (passed_trans _ _ _ _ _ _ _ Hpass HY)|]. rewrite Hcat, Hcat2, zlen_app. split; [by rewrite app_assoc|lia].
  - exists (finished w), []. split; [done|]. split; [apply passed_finished|]. split; [done|]. rewrite zlen_nil. lia.
Qed.

Lemma close_flow fuel : forall w n, flow w -> fits w n -> zlen (concat (host w)) <= n -> (pending w < fuel)%nat -> recv_fails w = false ->
  exists w', close_loop fuel w = Ok (OK, w') /\ passed w w' (concat (host w)) 1.
Proof.
  induction fuel as [|fuel IH]; intros w n Hf Hfit Hn Hfuel Hr; [lia|]. cbn [close_loop]. destruct (decide (concat (host w) = [])) as [Hc|Hc].
  - rewrite recv_end, Hr, Hc by done. exists (finished w). split; [done|apply passed_finished].
  - destruct (flow_step w FORWARD_BUFFER_SIZE n Hf Hfit Hn eq_refl Hc) as (p & w1 & w2 & w3 & -> & -> & -> & Hp & _ & Hcat & Hf2 & Hfit2 & Hrf & Hpass & Hpend). rewrite Z.eqb_refl.
    destruct (IH w3 _ Hf2 Hfit2) as (w' & -> & HY); [rewrite Hcat, zlen_app in Hn; lia|lia|congruence|]. exists w'. split; [done|]. rewrite Hcat. exact (passed_trans _ _ _ _ _ _ _ Hpass HY).
Qed.

(** Chunks of which the front has arrived. *)
Lemma chunks_split es : forall P Q, concat (encode_chunk <$> es) = P ++ Q ->
  (P = concat (encode_chunk <$> es) /\ Q = []) \/
  exists es1 d es2 p q, es = es1 ++ d :: es2 /\ P = concat (encode_chunk <$> es1) ++ p /\ encode_chunk d = p ++ q /\ q <> [] /\ Q = q ++ concat (encode_chunk <$> es2).
Proof.
  induction es as [|d es IH]; intros P Q E; cbn [fmap list_fmap concat] in *.
  { symmetry in E. apply app_nil in E as [-> ->]. by left. }
  apply app_eq_app in E as (l & [[E1 E2]|[E1 E2]]).
  - destruct l as [|x l].
    + cbn [app] in E2. rewrite app_nil_r in E1. destruct es as [|d2 es].
      { left. cbn in *. rewrite E2, app_nil_r. by split. }
      right. exists [d], d2, es, [], (encode_chunk d2). cbn [fmap list_fmap concat] in *. rewrite !app_nil_r. split; [done|]. split; [done|]. split; [done|]. split; [|done].
      unfold encode_chunk. intros E. apply (f_equal zlen) in E. rewrite !zlen_app in E. change (zlen crlf) with 2 in E. pose proof (zlen_nonneg (hex (zlen d2))). pose proof (zlen_nonneg d2). change (zlen (@nil Z)) with 0 in E. lia.
    + right. exists [], d, es, P, (x :: l). by rewrite E2.
  - destruct (IH l Q E2) as [[-> ->]|(es1 & d2 & es2 & p & q & -> & -> & E3 & Hq & ->)]; [left; by rewrite E1|].
    right. exists (d :: es1), d2, es2, p, q. cbn [fmap list_fmap concat app]. rewrite E1, app_assoc. by split.
Qed.

Lemma encode_size d es : d ∈ es -> zlen d <= zlen (concat (encode_chunk <$> es)).
Proof.
  induction es as [|e es IH]; [by intros ?%not_elem_of_nil|]. rewrite fmap_cons. cbn [concat]. rewrite zlen_app. unfold encode_chunk at 1. rewrite !zlen_app.
  pose proof (zlen_nonneg (hex (zlen e))). pose proof (zlen_nonneg (concat (encode_chunk <$> es))). change (zlen crlf) with 2.
  intros [->|Hd]%elem_of_cons; [lia|]. specialize (IH Hd). pose proof (zlen_nonneg e). lia.
Qed.

Lemma last_is_empty_eq cs : last_is_empty cs = match list.last (chunk_len <$> cs) with Some n => n =? 0 | None => false end.
Proof. unfold last_is_empty. rewrite fmap_last. by destruct (list.last cs). Qed.

(** Parsing what has arrived of the chunks [es]. *)
Lemma parse_arrived es P Q : concat (encode_chunk <$> es) = P ++ Q -> zlen (concat (encode_chunk <$> es)) < 2 ^ 30 -> (length es <= 32)%nat ->
  exists cs es1 es2 p, http_parse_chunks 32 P = Ok (zlen (concat (encode_chunk <$> es1)), cs) /\ chunk_len <$> cs = zlen <$> es1 /\
    es = es1 ++ es2 /\ P = concat (encode_chunk <$> es1) ++ p /\ p ++ Q = concat (encode_chunk <$> es2) /\ (es2 = [] \/ Q <> []).
Proof.
  intros E Hz Hn. assert (Hsmall : Forall (fun d => zlen d < 2 ^ 62) es).
  { apply Forall_forall. intros d Hd%encode_size. lia. }
  destruct (chunks_split es P Q E) as [[-> ->]|(es1 & d & es2 & p & q & -> & -> & Ed & Hq & ->)].
  - destruct (parse_chunks_ok es 32 [] Hsmall Hn) as (ret & cs & Hcs & -> & _ & Hl); [by intros [|?] ?|].
    exists cs, es, [], []. rewrite app_nil_r in Hcs. rewrite count_small in Hcs by (split; [apply zlen_nonneg|lia]). rewrite !app_nil_r. repeat split; auto.
  - rewrite length_app in Hn. apply Forall_app in Hsmall as [Hs1 Hs2]. apply Forall_cons in Hs2 as [Hsd _].
    destruct (parse_chunks_ok es1 32 p Hs1 ltac:(lia) (prefix_incomplete d p q Hsd Ed Hq)) as (ret & cs & Hcs & -> & _ & Hl).
    rewrite count_small in Hcs by (split; [apply zlen_nonneg|]; rewrite fmap_app, concat_app, zlen_app in Hz; pose proof (zlen_nonneg (concat (encode_chunk <$> d :: es2))); lia).
    exists cs, es1, (d :: es2), p. rewrite fmap_cons. cbn [concat]. rewrite Ed, <- app_assoc. repeat split; auto. right. destruct q; [done|discriminate].
Qed.

(** The chunks of a body, of which only the last one is empty. *)
Definition body_of (es : list (list Z)) : Prop := exists ds, es = ds ++ [[]] /\ Forall (fun d => d <> []) ds.

Lemma body_split es1 es2 : body_of (es1 ++ es2) -> (es2 = [] /\ list.last es1 = Some []) \/ (body_of es2 /\ Forall (fun d => d <> []) es1).
Proof.
  intros (ds & E & Hd). destruct es2 as [|e es2 _] using rev_ind; [left|right].
  - rewrite app_nil_r in E. split; [done|]. by rewrite E, last_snoc.
  - rewrite app_assoc in E. apply app_inj_2 in E as [<- [= ->]]; [|done]. apply Forall_app in Hd as [H1 H2]. split; [|done]. by exists es2.
Qed.

Lemma set_memory_id w : memory w = [] -> set_memory [] w = w.
Proof. destruct w. cbn. by intros ->. Qed.

Lemma chunked_flow fuel : forall w buf n es m, flow w -> fits w m -> zlen (concat (host w)) <= m -> valid buf -> (pending w < fuel)%nat -> 0 <= n -> body_of es -> (length es <= 32)%nat ->
  drop (Z.to_nat n) (used buf) ++ concat (host w) = concat (encode_chunk <$> es) -> zlen (used buf) + zlen (concat (host w)) + 16384 < 2 ^ 30 ->
  n <= zlen (used buf) ->
  exists w', chunked_loop fuel w buf n = Ok (OK, w') /\ passed w w' (concat (host w)) 1.
Proof.
  induction fuel as [|fuel IH]; intros w buf n es m Hf Hfit Hm Hv Hfuel Hn Hb Hlen E Hsize Hle; [lia|]. cbn [chunked_loop]. unfold buffer_used at 1.
  rewrite Z.gtb_ltb. destruct (Z.ltb_spec (zlen (used buf)) n); [lia|]. pose proof (zlen_nonneg (concat (host w))).
  assert (Hz : zlen (concat (encode_chunk <$> es)) < 2 ^ 30).
  { rewrite <- E, zlen_app, zlen_drop by (unfold zlen in *; lia). lia. }
  destruct (parse_arrived es _ _ (eq_sym E) Hz Hlen) as (cs & es1 & es2 & p & -> & Hcs & -> & Hp & HQ & Hmore).
  set (k := zlen (concat (encode_chunk <$> es1))) in *. assert (Hk : 0 <= k) by apply zlen_nonneg. destruct (Z.eqb_spec k (-1)); [lia|].
  rewrite last_is_empty_eq, Hcs, fmap_last. destruct (body_split es1 es2 Hb) as [[-> ->]|[Hb2 Hne]].
  { cbn. exists (finished w). split; [done|]. apply app_nil in HQ as [_ ->]. apply passed_finished. }
  assert (Hno : match zlen <$> list.last es1 with Some n => n =? 0 | None => false end = false).
  { destruct (list.last es1) as [d|] eqn:El; [|done]. apply last_Some_elem_of in El. eapply Forall_forall in Hne; [|exact El]. cbn.
    destruct d; [done|]. rewrite zlen_cons. pose proof (zlen_nonneg d). apply Z.eqb_neq. lia. }
  rewrite Hno. destruct Hmore as [->|HQne]; [by destruct Hb2 as ([] & ? & _)|].
  rewrite (proj2 (proj2 Hf)). destruct (ensure_ok buf 16384 ltac:(lia) Hv ltac:(lia)) as (b & -> & Hu & Hvb & Hsz). rewrite set_memory_id by apply Hf.
  destruct (flow_step w (buffer_unused b) m Hf Hfit Hm ltac:(lia) HQne) as (r & w1 & w2 & w3 & -> & Hs & Ha & Hr & Hrl & Hcat & Hf2 & Hfit2 & _ & Hpass & Hpend).
  destruct (write_ok b r Hvb Hrl) as [-> Hv']. rewrite Hs, Z.eqb_refl, Ha.
  assert (Hnm : n + k <= zlen (used buf)).
  { apply (f_equal zlen) in Hp. rewrite zlen_app, zlen_drop in Hp by (unfold zlen in *; lia). pose proof (zlen_nonneg p). lia. }
  assert (Hdrop : drop (Z.to_nat (n + k)) (used buf) = p).
  { rewrite Z2Nat.inj_add, <- drop_drop, Hp by lia. apply drop_app_length'. unfold k, zlen. lia. }
  rewrite u64_small by lia. rewrite Hcat, zlen_app in Hsize, Hm. pose proof (zlen_nonneg r).
  destruct (IH w3 (mkBuf (used b ++ r) (bsize b)) (n + k) es2 (m - zlen r) Hf2 Hfit2) as (w' & -> & HY); try done; try lia.
  { rewrite length_app in Hlen. lia. }
  { cbn [used]. rewrite drop_app_le, Hu, Hdrop by (rewrite Hu; unfold zlen in *; lia). by rewrite <- app_assoc, <- Hcat. }
  { cbn [used]. rewrite Hu, zlen_app. lia. }
  { cbn [used]. rewrite Hu, zlen_app. lia. }
  exists w'. split; [done|]. rewrite Hcat. exact (passed_trans _ _ _ _ _ _ _ Hpass HY).
Qed.

(** ** Whole responses *)

Section Relay.
Context (phr_parse_response : list Z -> Z -> Z * list phr_header).

(** What the parser is documented to do with a text that starts with the complete header
    [hdr], and with the front of that header; [last_len] bytes were known not to be
    enough. *)
Definition parses (hdr : list Z) (headers : list phr_header) : Prop :=
  hdr <> [] /\ forall P last_len, 0 <= last_len < zlen hdr ->
    (hdr `prefix_of` P -> phr_parse_response P last_len = (zlen hdr, headers)) /\
    (P `prefix_of` hdr -> P <> hdr -> (phr_parse_response P last_len).1 = -2).

(** How the end of a body is known. *)
Definition framed (headers : list phr_header) (body : list Z) (w : world) : Prop :=
  (http_response_is_chunked headers = Ok true /\ exists es, body_of es /\ (length es <= 32)%nat /\ body = concat (encode_chunk <$> es)) \/
  (http_response_is_chunked headers = Ok false /\ http_get_content_length headers = Ok (Some (zlen body))) \/
  (http_response_is_chunked headers = Ok false /\ http_get_content_length headers = Ok None /\ recv_fails w = false).

Lemma header_flow fuel : forall w buf hdr hs rest, parses hdr hs -> flow w -> valid buf -> (pending w < fuel)%nat ->
  used buf ++ concat (host w) = hdr ++ rest -> zlen (used buf) < zlen hdr -> zlen (hdr ++ rest) + 256 < 2 ^ 30 ->
  exists b w' X, response_header_loop phr_parse_response fuel w buf = Ok (inl (b, zlen hdr, hs), w') /\ valid b /\ flow w' /\ recv_fails w' = recv_fails w /\
    passed w w' [] 0 /\ entry w' = entry w /\ used b = hdr ++ X /\ X ++ concat (host w') = rest.
Proof.
  induction fuel as [|fuel IH]; intros w buf hdr hs rest Hp Hf Hv Hfuel E Hlt Hsize; [lia|]. cbn [response_header_loop].
  assert (Hc : zlen (used buf) + zlen (concat (host w)) = zlen (hdr ++ rest)) by (by rewrite <- E, zlen_app). pose proof (zlen_nonneg (concat (host w))).
  assert (Hne : concat (host w) <> []). { intros E0. rewrite E0, zlen_nil, zlen_app in Hc. pose proof (zlen_nonneg rest). lia. }
  rewrite (proj2 (proj2 Hf)). destruct (ensure_ok buf 256 ltac:(lia) Hv ltac:(lia)) as (b & -> & Hu & Hvb & Hsz). rewrite set_memory_id by apply Hf.
  destruct (recv_flow w (buffer_unused b) Hf ltac:(lia) Hne) as (r & w1 & -> & Hr & Hrl & Hcat & Hf1 & Hrf & Hp1 & He1). unfold http_parse_response.
  destruct (write_ok b r Hvb Hrl) as [-> Hvb']. set (b1 := mkBuf (used b ++ r) (bsize b)) in *.
  assert (Ecat : used b1 ++ concat (host w1) = hdr ++ rest) by (cbn [used b1]; by rewrite Hu, <- app_assoc, <- Hcat).
  destruct (proj2 Hp (used b1) (buffer_used b)) as [Hfull Hpart]. { unfold buffer_used. rewrite Hu. split; [apply zlen_nonneg|done]. }
  assert (Hpos : 0 < zlen hdr) by (pose proof (zlen_nonneg (used buf)); lia).
  destruct (Z.le_gt_cases (zlen hdr) (zlen (used b1))) as [Hge|Hlt2].
  - assert (HX : exists X, used b1 = hdr ++ X /\ X ++ concat (host w1) = rest).
    { exists (drop (length hdr) (used b1)). assert (Hl : (length hdr <= length (used b1))%nat) by (unfold zlen in Hge; lia).
      apply (f_equal (drop (length hdr))) in Ecat as Hd. rewrite drop_app_length, drop_app_le in Hd by done. split; [|done].
      apply (f_equal (take (length hdr))) in Ecat as Ht. rewrite take_app_length, take_app_le in Ht by done. rewrite <- Ht at 1. by rewrite take_drop. }
    destruct HX as (X & HX & Hrest). rewrite (Hfull ltac:(by exists X)). rewrite Z.gtb_ltb. destruct (Z.ltb_spec 0 (zlen hdr)); [|lia].
    by exists b1, w1, X.
  - apply app_eq_app in Ecat as Hs. destruct Hs as (X & [[E1 E2]|[E1 E2]]).
    { rewrite E1, zlen_app in Hlt2. pose proof (zlen_nonneg X). lia. }
    specialize (Hpart ltac:(by exists X) ltac:(intros Heq; rewrite Heq in Hlt2; lia)). destruct (phr_parse_response _ _) as [pret hs']. cbn in Hpart. subst pret. cbn.
    destruct (IH w1 b1 hdr hs rest Hp Hf1 Hvb') as (b' & w' & X' & -> & H1 & H2 & H3 & H4 & H5 & H6 & H7); try done.
    { unfold pending in *. rewrite Hcat, length_app in Hfuel. destruct r; [done|]. cbn in Hfuel. lia. }
    exists b', w', X'. split_and!; try done; try congruence. apply (passed_trans _ _ _ _ _ _ _ Hp1 H4).
Qed.

Lemma send_buffer_flow w buf n : flow w -> fits w n -> zlen (used buf) <= n -> used buf <> [] ->
  exists w1 w2, proxy_send_buffer w buf = (OK, w1) /\ append_data w1 (used buf) = Ok w2 /\ flow w2 /\ fits w2 (n - zlen (used buf)) /\ host w2 = host w /\
    recv_fails w2 = recv_fails w /\ passed w w2 (used buf) 0.
Proof.
  intros Hf Hfit Hn Hu. unfold proxy_send_buffer. destruct (send_flow w (used buf) n Hf Hfit Hn) as (w1 & w2 & -> & Ha & Hh & Hrf & Hf2 & Hfit2 & Hp).
  assert (0 < zlen (used buf)) by (destruct (used buf) as [|x l]; [done|]; rewrite zlen_cons; pose proof (zlen_nonneg l); lia).
  destruct (Z.eqb_spec (zlen (used buf)) 0); [lia|]. destruct (Z.ltb_spec (zlen (used buf)) 0); [lia|]. by exists w1, w2.
Qed.

Lemma reset_ok buf : valid buf -> exists b, ensure_or_abort [] (buffer_reset buf) FORWARD_BUFFER_SIZE = Ok (b, []).
Proof. intros Hv. destruct (ensure_ok (buffer_reset buf) FORWARD_BUFFER_SIZE) as (b & -> & _); [done|by apply valid_reset|done|by exists b]. Qed.

Lemma passed_app w w1 w2 X Y : passed w w1 X 0 -> passed w1 w2 Y 1 -> passed w w2 (X ++ Y) 1.
Proof. apply passed_trans. Qed.

(** The three ways to pass on a body of which the front [X] came with the header. *)
Lemma body_flow w buf hdr hs X body : flow w -> fits w (zlen (hdr ++ body)) -> valid buf -> used buf = hdr ++ X -> hdr <> [] -> X ++ concat (host w) = body ->
  zlen (hdr ++ body) + 16384 < 2 ^ 30 -> framed hs body w ->
  exists w', (let* is_chunked := http_response_is_chunked hs in
      if is_chunked then proxy_forward_chunked w buf (zlen hdr)
      else
        let* content_length := http_get_content_length hs in
        match content_length with
        | Some n => proxy_forward_fixed_len w buf (u64 (n - (buffer_used buf - zlen hdr)))
        | None => proxy_forward_till_sock_close w buf
        end) = Ok (OK, w') /\ passed w w' (hdr ++ body) 1.
Proof.
  intros Hf Hfit Hv Hu Hne Hbody Hsize Hframed.
  assert (Hz : zlen (used buf) = zlen hdr + zlen X) by (by rewrite Hu, zlen_app). assert (Hz2 : zlen X + zlen (concat (host w)) = zlen body) by (by rewrite <- Hbody, zlen_app).
  pose proof (zlen_app hdr body) as Hz3. rewrite Hz3 in Hsize, Hfit. pose proof (zlen_nonneg hdr). pose proof (zlen_nonneg X). pose proof (zlen_nonneg (concat (host w))).
  destruct (send_buffer_flow w buf _ Hf Hfit) as (w2 & w3 & Hs & Ha & Hf2 & Hfit2 & Hh & Hrf & Hp); [lia|rewrite Hu; by destruct hdr|].
  rewrite <- Hbody, app_assoc, <- Hu. destruct (reset_ok buf Hv) as (br & Hres). assert (Hm3 : memory w3 = []) by apply Hf2.
  destruct Hframed as [(-> & es & Hes & Hlen & Ebody)|[(-> & ->)|(-> & -> & Hcl)]].
  - unfold proxy_forward_chunked. rewrite Hs. cbn [negb Z.eqb OK]. rewrite Ha.
    destruct (chunked_flow (S (pending w3)) w3 buf (zlen hdr) es _ Hf2 Hfit2 ltac:(rewrite Hh; lia) Hv ltac:(lia) ltac:(lia) Hes Hlen) as (w' & -> & HY); [|rewrite Hh; lia|lia|].
    { rewrite Hu, drop_app_length' by (unfold zlen; lia). by rewrite Hh, Hbody. }
    exists w'. split; [done|]. rewrite <- Hh. by apply (passed_app w w3).
  - unfold proxy_forward_fixed_len. rewrite Hs. cbn [negb Z.eqb OK]. rewrite Ha, Hm3, Hres, set_memory_id by done. unfold buffer_used. rewrite u64_small by lia.
    destruct (fixed_flow (S (pending w3)) w3 0 (zlen body - (zlen (used buf) - zlen hdr)) _ Hf2 Hfit2) as (w' & Y & -> & HY & Hcat & Hl); try rewrite Hh; try lia.
    exists w'. split; [done|]. rewrite Hh in Hcat. assert (concat (host w') = []) as Hend.
    { apply (f_equal zlen) in Hcat. rewrite zlen_app in Hcat. destruct (concat (host w')) as [|x l]; [done|]. rewrite zlen_cons in Hcat. pose proof (zlen_nonneg l). lia. }
    rewrite Hcat, Hend, app_nil_r. by apply (passed_app w w3).
  - unfold proxy_forward_till_sock_close. rewrite Hs. cbn [negb Z.eqb OK]. rewrite Ha, Hm3, Hres, set_memory_id by done.
    destruct (close_flow (S (pending w3)) w3 _ Hf2 Hfit2) as (w' & -> & HY); [rewrite Hh; lia|lia|congruence|]. exists w'. split; [done|]. rewrite <- Hh. by apply (passed_app w w3).
Qed.

(** Reading the header passes nothing on; what it has read is in the buffer. *)
Lemma header_reads fuel : forall w buf h w', response_header_loop phr_parse_response fuel w buf = Ok (h, w') ->
  passed w w' [] 0 /\ match h with inl (b, _, _) => used b ++ concat (host w') = used buf ++ concat (host w) | inr _ => True end.
Proof.
  induction fuel as [|fuel IH]; intros w buf h w'; cbn [response_header_loop]; [done|]. destruct (ensure_or_abort _ buf 256) as [[b m]|] eqn:Eb; [|done]. apply ensure_used in Eb.
  destruct (proxy_recv (set_memory m w) (buffer_unused b)) as [[p|e] w1] eqn:Er; apply recv_cases in Er as (Hp & _ & _ & _ & Hr); [|by intros [= <- <-]].
  destruct Hr as (_ & Hc & _). cbn [host set_memory] in Hc. destruct (buffer_write b p) as [b'|] eqn:Ew; [|done]. apply write_used in Ew.
  assert (Hb : used b' ++ concat (host w1) = used buf ++ concat (host w)) by (by rewrite Ew, Eb, Hc, <- app_assoc).
  destruct (http_parse_response _ _ _) as [pret hs]. destruct (pret >? 0); [by intros [= <- <-]|]. destruct (pret =? -1); [by intros [= <- <-]|].
  destruct (pret =? -2); [|done]. cbn. intros [H1 H2]%IH. split; [exact (passed_trans _ _ _ _ _ _ _ Hp H1)|]. destruct h as [[[b2 ?] ?]|]; [|done]. congruence.
Qed.

Lemma from_host_agrees w r w' : proxy_send_response_from_host phr_parse_response w = Ok (r, w') ->
  exists X Y n, relayed w w' X Y n /\ (r = OK -> Y = [] /\ n = 1) /\ X ++ Y `prefix_of` concat (host w).
Proof.
  unfold proxy_send_response_from_host, proxy_recv_response_header. destruct (response_header_loop _ _ w _) as [[h w1]|] eqn:E; [|done]. apply header_reads in E as [E Hb].
  destruct h as [[[buf hl] hs]|e]; [|intros [= <- <-]; exists [], [], 0; split; [done|]; by split; [|apply prefix_nil]]. intros Er. cbn [used buffer_init app] in Hb.
  assert (Hr : relays (used buf) w1 (Ok (r, w'))).
  { rewrite <- Er. destruct (http_response_is_chunked hs) as [[]|]; [| |done].
    - apply (relays_buffer w1 buf (fun w => chunked_loop (S (pending w)) w buf hl)). intros. apply chunked_relays.
    - destruct (http_get_content_length hs) as [[n|]|]; [| |done].
      + apply (relays_buffer w1 buf (fun w => let* '(_, m) := ensure_or_abort (memory w) (buffer_reset buf) FORWARD_BUFFER_SIZE in fixed_loop (S (pending w)) (set_memory m w) 0 _)).
        intros w2. destruct (ensure_or_abort _ _ _) as [[b m]|]; [|done]. apply relays_memory with m, fixed_relays.
      + apply (relays_buffer w1 buf (fun w => let* '(_, m) := ensure_or_abort (memory w) (buffer_reset buf) FORWARD_BUFFER_SIZE in close_loop (S (pending w)) (set_memory m w))).
        intros w2. destruct (ensure_or_abort _ _ _) as [[b m]|]; [|done]. apply relays_memory with m, close_relays. }
  destruct (Hr r w' eq_refl) as (X & Y & HX & HY & Hpre). exists X, Y, 1. split; [exact (relayed_trans _ _ _ _ _ _ _ _ E HX)|]. split; [by intros ?; split; [apply HY|]|]. by rewrite <- Hb.
Qed.

End Relay.

(** C3.  A response goes to the client and to the cache alike.  Whatever the network and the
    memory do, when [proxy_send_response_from_host] returns, the client has got some front
    of what the host sent, and the cache entry the same bytes but, after an error, for a
    last part that was sent to the client when its connection broke; on success they have
    got exactly the same, and the entry was finished once.  And it does succeed:
    when the host sends a complete response in any segments -- a header, and a body that
    is chunked (in up to 32 chunks), or as long as its Content-Length, or ended by the
    host's closing -- of less than a gigabyte, the client takes it in parts of any size,
    and there is room for it in the cache and in memory, the function returns [OK] and
    both have got the whole response, unchanged. *)
Theorem response_relayed (phr_parse_response : list Z -> Z -> Z * list phr_header) (w : world) :
  (forall r w', proxy_send_response_from_host phr_parse_response w = Ok (r, w') ->
     exists X Y n, relayed w w' X Y n /\ (r = OK -> Y = [] /\ n = 1) /\ X ++ Y `prefix_of` concat (host w)) /\
  (forall hdr headers body, parses phr_parse_response hdr headers -> flow w -> concat (host w) = hdr ++ body ->
     zlen (hdr ++ body) + 16384 < 2 ^ 30 -> fits w (zlen (hdr ++ body)) -> framed headers body w ->
     exists w', proxy_send_response_from_host phr_parse_response w = Ok (OK, w') /\ passed w w' (hdr ++ body) 1).
Proof.
  split; [apply from_host_agrees|]. intros hdr hs body Hp Hf E Hsize Hfit Hframed. unfold proxy_send_response_from_host, proxy_recv_response_header.
  assert (Hpos : zlen (@nil Z) < zlen hdr). { destruct Hp as [Hne _]. destruct hdr as [|x l]; [done|]. rewrite zlen_cons, zlen_nil. pose proof (zlen_nonneg l). lia. }
  destruct (header_flow phr_parse_response (S (pending w)) w buffer_init hdr hs body Hp Hf) as (b & w1 & X & -> & Hv & Hf1 & Hrf & Hp1 & He & Hu & HX); try done; try lia.
  destruct (body_flow w1 b hdr hs X body Hf1 ltac:(unfold fits; by rewrite He) Hv Hu (proj1 Hp) HX Hsize) as (w' & -> & HY). { unfold framed in *. by rewrite Hrf. }
  exists w'. split; [done|]. exact (passed_trans _ _ _ _ _ _ _ Hp1 HY).
Qed.

(** A parser that knows one header. *)
Definition one_header (hdr : list Z) (headers : list phr_header) (P : list Z) (last_len : Z) : Z * list phr_header :=
  if decide (hdr `prefix_of` P) then (zlen hdr, headers) else if decide (P `prefix_of` hdr) then (-2, []) else (-1, []).

Lemma one_header_parses hdr headers : hdr <> [] -> parses (one_header hdr headers) hdr headers.
Proof.
  intros Hne. split; [done|]. intros P last_len _. unfold one_header. split; intros H; [by destruct (decide _)|]. intros Hn.
  destruct (decide (hdr `prefix_of` P)) as [H2|_]; [|by destruct (decide (P `prefix_of` hdr))].
  destruct Hn. destruct H as [k ->], H2 as [k2 E]. rewrite <- app_assoc in E. symmetry in E. rewrite <- (app_nil_r P) in E at 2. apply app_inj_1 in E as [_ E]; [|done].
  apply app_nil in E as [-> _]. by rewrite app_nil_r.
Qed.

(** "H" CRLF CRLF, for a response that is chunked. *)
Definition sample_header : list Z := [72; 13; 10; 13; 10].
Definition chunked_headers : list phr_header := [mkHeader Transfer_Encoding [99; 104; 117; 110; 107; 101; 100]].

(** "hi" in one chunk, in segments that break the header and the chunk. *)
Definition sample_world : world :=
  mkWorld [[72; 13; 10]; [13; 10; 50]; [13; 10; 104]; [105; 13; 10; 48; 13; 10; 13]; [10]] false [2; 1; 5; 1] [] [] (Some (mkEntry buffer_init 0 0 1000)).

Lemma response_relayed_witness :
  exists w', proxy_send_response_from_host (one_header sample_header chunked_headers) sample_world = Ok (OK, w') /\
    passed sample_world w' (sample_header ++ concat (encode_chunk <$> [[104; 105]; []])) 1.
Proof.
  apply (proj2 (response_relayed (one_header sample_header chunked_headers) sample_world) sample_header chunked_headers (concat (encode_chunk <$> [[104; 105]; []]))).
  - apply one_header_parses. discriminate.
  - split; [repeat (constructor; [discriminate|]); constructor|]. split; [repeat (constructor; [reflexivity|]); constructor|reflexivity].
  - reflexivity.
  - reflexivity.
  - unfold fits. cbn. unfold valid. cbn. repeat split; discriminate.
  - left. split; [reflexivity|]. exists [[104; 105]; []]. split; [|split; [cbn; lia|reflexivity]].
    exists [[104; 105]]. split; [reflexivity|]. repeat constructor. discriminate.
Defined.

(** The chunks are parsed 32 at a time, and more are asked for although the rest is
    there: a complete body of 34 chunks that arrives with its header is passed on, and
    then taken for incomplete. *)
Theorem chunked_asks_for_more :
  let body := concat (encode_chunk <$> (replicate 33 [120] ++ [[]])) in
  exists w', proxy_send_response_from_host (one_header sample_header chunked_headers) (mkWorld [sample_header ++ body] false [] [] [] None) = Ok (ERROR, w') /\
    client w' = sample_header ++ body.
Proof. vm_compute. eexists. split; reflexivity. Qed.
