(* ===== verification/SwapList.v ===== *)
(** * OS-Labs/10.1-linkedlist: threads that swap the nodes of a list under other threads

    A singly linked list in which every node has a lock, [storage.c], and the threads of
    [main.c]: counters that walk along the list and compare neighbours, and swappers that
    walk along it and exchange neighbours, each moving its locks hand over hand.  The
    locks are those of [mutex.c], [spinlock.c] (the same for readers and writers) or
    [rwlock.c].

    The storage is treated as a node at address 0 in front of the list, whose [next] is
    [storage->first]: it has a lock as nodes have.  A step is one access to a lock or to
    a pointer; the strings never change and are given by their lengths.  Using an address
    that is not allocated, comparing with no node, and unlocking a lock that nobody holds
    are a crash.  The outcome of [need_to_swap] is arbitrary: the generator's state is
    shared by the swappers without a lock.  Cancellation, with which [main] ends the
    process, is not modelled. *)
From stdpp Require Import gmap.
From S2P Require Import Threads Prelude.

#[local] Set Warnings "-clear-no-such-hyp".

Definition place := nat.
Definition STORAGE : place := 0%nat.

(** ** Locks *)

(** A lock's state: 0 for free, -1 when held for writing, else the number of readers. *)
Record LockOps := mkLock { read_lock : Z -> option Z; write_lock : Z -> option Z }.

Definition acquire (st : Z) : option Z := if st =? 0 then Some (-1) else None.
Definition acquire_shared (st : Z) : option Z := if st <? 0 then None else Some (st + 1).

Definition mutex : LockOps := mkLock acquire acquire.
Definition spinlock : LockOps := mkLock acquire acquire.
Definition rwlock : LockOps := mkLock acquire_shared acquire.

(** [None]: nobody holds the lock. *)
Definition unlock (st : Z) : option Z := if st =? 0 then None else if st <? 0 then Some 0 else Some (st - 1).

(** ** The threads *)

Inductive role := Counter (cmp : Z -> Z -> bool) | Swapper.

(** [nodes_asc], [nodes_desc], [nodes_eq] on the lengths. *)
Definition nodes_asc (lhs rhs : Z) : bool := lhs <? rhs.
Definition nodes_desc (lhs rhs : Z) : bool := lhs >? rhs.
Definition nodes_eq (lhs rhs : Z) : bool := lhs =? rhs.

(** Where a thread is; the arguments are its variables [cur], [next] and [next_next]. *)
Inductive pc :=
| Start
| AtNext (cur : place)
| Compare (cur next : place)
| LockNext (cur next : place)
| Release (cur next : place)
| AtNextNext (cur next : place)
| LockNextNext (cur next next_next : place)
| Decide (cur next next_next : place)
| Write1 (cur next next_next : place)
| Write2 (cur next next_next : place)
| Write3 (cur next next_next : place)
| UnlockNextNext (cur next next_next : place)
| GiveUp2 (cur next : place)
| GiveUp (cur : place).

(** [t_count]: the pairs counted or the swaps made; [t_iters]: the walks of a counter. *)
Record thread := mkThread { t_role : role; t_pc : pc; t_count : Z; t_iters : Z }.

Definition goto (t : thread) (p : pc) : thread := mkThread (t_role t) p (t_count t) (t_iters t).
Definition counted (t : thread) : thread := mkThread (t_role t) (t_pc t) (u64 (t_count t + 1)) (t_iters t).

Record shared := mkShared { next_of : gmap place (option place); lock_of : gmap place Z }.

Inductive outcome := Blocked | Crash | Moved (s : shared) (t : thread).

Definition set_lock (s : shared) (p : place) (st : Z) : shared := mkShared (next_of s) (<[p := st]> (lock_of s)).
Definition set_next (s : shared) (p : place) (q : option place) : shared := mkShared (<[p := q]> (next_of s)) (lock_of s).

Definition do_lock (f : Z -> option Z) (s : shared) (p : place) (t : thread) : outcome :=
  match lock_of s !! p with
  | None => Crash
  | Some st => match f st with None => Blocked | Some st' => Moved (set_lock s p st') t end
  end.

Definition do_unlock (s : shared) (p : place) (t : thread) : outcome :=
  match lock_of s !! p with
  | None => Crash
  | Some st => match unlock st with None => Crash | Some st' => Moved (set_lock s p st') t end
  end.

Definition load (s : shared) (p : place) (k : option place -> outcome) : outcome :=
  match next_of s !! p with None => Crash | Some q => k q end.

Definition store (s : shared) (p : place) (q : option place) (t : thread) : outcome :=
  match next_of s !! p with None => Crash | Some _ => Moved (set_next s p q) t end.

Section Threads.
Context (lk : LockOps) (len : place -> Z).

(** One step of [counter]. *)
Definition counter (cmp : Z -> Z -> bool) (s : shared) (t : thread) : outcome :=
  match t_pc t with
  | Start => do_lock (read_lock lk) s STORAGE (goto t (AtNext STORAGE))
  | AtNext cur =>
      load s cur (fun q =>
        match q with
        | None => Moved s (goto t (GiveUp cur))
        | Some next => Moved s (goto t (if bool_decide (cur = STORAGE) then LockNext cur next else Compare cur next))
        end)
  | Compare cur next =>
      load s cur (fun q =>
        match q with
        | None => Crash
        | Some q =>
            let t := goto t (LockNext cur next) in
            Moved s (if cmp (len cur) (len q) then counted t else t)
        end)
  | LockNext cur next => do_lock (read_lock lk) s next (goto t (Release cur next))
  | Release cur next => do_unlock s cur (goto t (AtNext next))
  | GiveUp cur =>
      do_unlock s cur
        (mkThread (t_role t) Start (t_count t) (if bool_decide (cur = STORAGE) then t_iters t else u64 (t_iters t + 1)))
  | _ => Crash
  end.

(** One step of [swapper]; [swap] is the answer of [need_to_swap]. *)
Definition swapper (swap : bool) (s : shared) (t : thread) : outcome :=
  match t_pc t with
  | Start => do_lock (write_lock lk) s STORAGE (goto t (AtNext STORAGE))
  | AtNext cur =>
      load s cur (fun q => Moved s (goto t (match q with None => GiveUp cur | Some next => LockNext cur next end)))
  | LockNext cur next => do_lock (write_lock lk) s next (goto t (AtNextNext cur next))
  | AtNextNext cur next =>
      load s next (fun q => Moved s (goto t (match q with None => GiveUp2 cur next | Some nn => LockNextNext cur next nn end)))
  | LockNextNext cur next nn => do_lock (write_lock lk) s nn (goto t (Decide cur next nn))
  | Decide cur next nn => Moved s (goto t (if swap then Write1 cur next nn else UnlockNextNext cur next nn))
  | Write1 cur next nn => store s cur (Some nn) (goto t (Write2 cur next nn))
  | Write2 cur next nn => load s nn (fun q => store s next q (goto t (Write3 cur next nn)))
  | Write3 cur next nn => store s nn (Some next) (counted (goto t (UnlockNextNext cur next nn)))
  | UnlockNextNext cur next nn => do_unlock s nn (goto t (Release cur next))
  | Release cur next => do_unlock s cur (goto t (AtNext next))
  | GiveUp2 cur next => do_unlock s next (goto t (GiveUp cur))
  | GiveUp cur => do_unlock s cur (goto t Start)
  | _ => Crash
  end.

Definition thread_step (swap : bool) (s : shared) (t : thread) : outcome :=
  match t_role t with Counter cmp => counter cmp s t | Swapper => swapper swap s t end.

(** ** The program *)

Record config := mkConfig { sh : shared; threads : list thread; crashed : bool }.

(** Thread [a.1] moves. *)
Definition exec (c : config) (a : nat * bool) : option config :=
  if crashed c then None
  else
    match threads c !! a.1 with
    | None => None
    | Some t =>
        match thread_step a.2 (sh c) t with
        | Blocked => None
        | Crash => Some (mkConfig (sh c) (threads c) true)
        | Moved s t' => Some (mkConfig s (<[a.1 := t']> (threads c)) false)
        end
    end.
End Threads.

(** The [i]-th node allocated has the address [i + 1]. *)
Fixpoint generate_storage (size : nat) : shared :=
  match size with
  | O => mkShared {[STORAGE := None]} {[STORAGE := 0]}
  | S i =>
      let s := generate_storage i in
      let first := default None (next_of s !! STORAGE) in
      let s := set_lock (set_next s size first) size 0 in
      set_next s STORAGE (Some size)
  end.

Definition begin (r : role) : thread := mkThread r Start 0 0.

(** The three counters and the three swappers of [main], in the order they are created. *)
Definition main_threads : list thread :=
  begin <$> [Counter nodes_eq; Counter nodes_asc; Counter nodes_desc; Swapper; Swapper; Swapper].

Definition start (size : nat) (ts : list thread) : config := mkConfig (generate_storage size) ts false.

(** The nodes from [p] on. *)
Fixpoint walk (fuel : nat) (next : gmap place (option place)) (p : place) : option (list place) :=
  match fuel with
  | O => None
  | S fuel =>
      match next !! p with
      | None => None
      | Some None => Some []
      | Some (Some q) => match walk fuel next q with Some l => Some (q :: l) | None => None end
      end
  end.

Example walk_start : walk 10 (next_of (generate_storage 4)) STORAGE = Some [4; 3; 2; 1]%nat.
Proof. vm_compute. reflexivity. Qed.

(** A swapper alone exchanges the nodes 4 and 3, and goes on with 4. *)
Example swap_once :
  (fun c => (walk 10 (next_of (sh c)) STORAGE, t_pc <$> threads c)) <$>
    run (exec rwlock (fun _ => 0)) (replicate 11 (0%nat, true)) (start 4 [begin Swapper])
  = Some (Some [3; 4; 2; 1]%nat, [AtNext 4%nat]).
Proof. vm_compute. reflexivity. Qed.

(** ** Successors in a list *)

Fixpoint next_in (l : list place) (a : place) : option place :=
  match l with
  | [] => None
  | x :: l => if bool_decide (x = a) then head l else next_in l a
  end.

Lemma next_in_split l a b : next_in l a = Some b -> exists A B, l = A ++ a :: b :: B.
Proof.
  induction l as [|x l IH]; cbn [next_in]; [done|]. destruct (bool_decide_reflect (x = a)) as [->|Hx].
  - destruct l as [|y l]; [done|]. intros [= ->]. by exists [], l.
  - intros (A & B & ->)%IH. by exists (x :: A), B.
Qed.

Lemma next_in_at A a B : a ∉ A -> next_in (A ++ a :: B) a = head B.
Proof.
  induction A as [|x A IH]; cbn [app next_in]; [by rewrite bool_decide_eq_true_2|]. rewrite not_elem_of_cons. intros [Hx HA].
  rewrite bool_decide_eq_false_2 by done. auto.
Qed.

Lemma next_in_app A B a : a ∉ A -> next_in (A ++ B) a = next_in B a.
Proof. induction A as [|x A IH]; [done|]. rewrite not_elem_of_cons. intros [Hx HA]. cbn. rewrite bool_decide_eq_false_2 by done. auto. Qed.

(** Changing what comes behind [c] changes the successors only from there on. *)
Lemma next_in_prefix A c B B' a : a ∈ A -> next_in (A ++ c :: B) a = next_in (A ++ c :: B') a.
Proof.
  induction A as [|x A IH]; [by intros ?%not_elem_of_nil|]. intros Ha. cbn [app next_in]. destruct (bool_decide_reflect (x = a)) as [->|Hx]; [by destruct A|].
  apply IH. apply elem_of_cons in Ha as [->|Ha]; [done|done].
Qed.

(** Exchanging two neighbours. *)
Lemma next_in_swap A cur next nn B : NoDup (A ++ cur :: next :: nn :: B) ->
  let W := A ++ cur :: next :: nn :: B in let W' := A ++ cur :: nn :: next :: B in
  next_in W' cur = Some nn /\ next_in W' nn = Some next /\ next_in W' next = next_in W nn /\
  forall a, a <> cur -> a <> next -> a <> nn -> next_in W' a = next_in W a.
Proof.
  intros Hnd. cbn zeta. apply NoDup_app in Hnd as (_ & Hd & Hnd). assert (Hout : forall x, x ∈ cur :: next :: nn :: B -> x ∉ A) by (intros x Hx HA; exact (Hd x HA Hx)).
  rewrite !NoDup_cons, !not_elem_of_cons in Hnd. destruct Hnd as ((Hcn & Hcnn & _) & (Hnn & _) & _). rewrite !next_in_app by (apply Hout; set_solver). cbn.
  do 3 (split; [repeat case_bool_decide; congruence|]).
  intros a H1 H2 H3. destruct (decide (a ∈ A)) as [HA|HA]; [by apply next_in_prefix|]. rewrite !next_in_app by done. cbn. repeat case_bool_decide; congruence.
Qed.

(** ** The invariant *)

(** The places whose locks a thread holds. *)
Definition holds (p : pc) : list place :=
  match p with
  | Start => []
  | AtNext cur | Compare cur _ | LockNext cur _ | GiveUp cur => [cur]
  | Release cur next | AtNextNext cur next | LockNextNext cur next _ | GiveUp2 cur next => [cur; next]
  | Decide cur next nn | Write1 cur next nn | Write2 cur next nn | Write3 cur next nn | UnlockNextNext cur next nn => [cur; next; nn]
  end.

(** What a thread knows of the order: the successors of places it holds. *)
Definition claims (p : pc) : list (place * option place) :=
  match p with
  | Compare cur next | LockNext cur next | AtNextNext cur next => [(cur, Some next)]
  | LockNextNext cur next nn | Decide cur next nn | Write1 cur next nn | Write2 cur next nn | Write3 cur next nn => [(cur, Some next); (next, Some nn)]
  | _ => []
  end.

(** In the middle of a swap: what the pointers hold that differ from the order [W]. *)
Definition halfway (W : list place) (p : pc) : list (place * option place) :=
  match p with
  | Write2 cur _ nn => [(cur, Some nn)]
  | Write3 cur next nn => [(cur, Some nn); (next, next_in W nn)]
  | _ => []
  end.

Definition dirty (p : pc) : list place := match p with Write2 cur _ _ => [cur] | Write3 cur next _ => [cur; next] | _ => [] end.

(** The states of each routine. *)
Definition fits (t : thread) : Prop :=
  match t_role t, t_pc t with
  | Counter _, (Start | AtNext _ | Compare _ _ | LockNext _ _ | Release _ _ | GiveUp _) => True
  | Counter _, _ => False
  | Swapper, Compare _ _ => False
  | Swapper, _ => True
  end.

(** The state of a lock with [e] holders for writing and [r] for reading. *)
Definition lock_is (st e r : Z) : Prop := e = 0 /\ st = r \/ e = 1 /\ r = 0 /\ st = -1.

Section Invariant.
Context (shares : bool) (nodes : list place) (len : place -> Z).

(** The locks of this run: with [shares], readers do not exclude each other. *)
Definition lk : LockOps := mkLock (if shares then acquire_shared else acquire) acquire.

Definition excl (t : thread) : bool := match t_role t with Swapper => true | Counter _ => negb shares end.

Definition writes (p : place) (t : thread) : bool := excl t && bool_decide (p ∈ holds (t_pc t)).
Definition reads (p : place) (t : thread) : bool := negb (excl t) && bool_decide (p ∈ holds (t_pc t)).

(** [W] is the storage followed by the nodes in their present order. *)
Record inv (W : list place) (s : shared) (ts : list thread) : Prop := {
  i_order : exists O, W = STORAGE :: O /\ O ≡ₚ nodes;
  i_nodup : NoDup W;
  i_fits t : t ∈ ts -> fits t /\ NoDup (holds (t_pc t)) /\ forall p, p ∈ holds (t_pc t) -> p ∈ W;
  i_claims t a b : t ∈ ts -> (a, b) ∈ claims (t_pc t) -> next_in W a = b;
  i_halfway t a b : t ∈ ts -> (a, b) ∈ halfway W (t_pc t) -> next_of s !! a = Some b;
  i_clean a : a ∈ W -> (forall t, t ∈ ts -> a ∉ dirty (t_pc t)) -> next_of s !! a = Some (next_in W a);
  i_locks p : p ∈ W -> exists st, lock_of s !! p = Some st /\ lock_is st (count_of (writes p) ts) (count_of (reads p) ts)
}.

Lemma claims_held p a b : (a, b) ∈ claims p -> a ∈ holds p.
Proof. destruct p; cbn; set_solver. Qed.

Lemma halfway_held W p a b : (a, b) ∈ halfway W p -> a ∈ dirty p.
Proof. destruct p; cbn; set_solver. Qed.

Lemma dirty_held p a : a ∈ dirty p -> a ∈ holds p.
Proof. destruct p; cbn; set_solver. Qed.

Lemma dirty_excl t a : fits t -> a ∈ dirty (t_pc t) -> excl t = true.
Proof. destruct t as [[cmp|] [] ? ?]; cbn; (done || set_solver). Qed.

(** A place held for writing is held by nobody else. *)
Lemma held_alone W s ts i j t u p : inv W s ts -> ts !! i = Some t -> ts !! j = Some u -> i <> j ->
  excl t = true -> p ∈ holds (t_pc t) -> p ∈ holds (t_pc u) -> False.
Proof.
  intros Hinv Hi Hj Hne He Ht Hu. assert (HW : p ∈ W) by (apply (i_fits _ _ _ Hinv t); [by eapply list_elem_of_lookup_2|done]).
  destruct (i_locks _ _ _ Hinv p HW) as (st & _ & Hl). assert (Hw : writes p t = true) by (unfold writes; by rewrite He, bool_decide_eq_true_2).
  pose proof (count_of_pos _ _ _ _ Hi Hw) as Hpos. destruct (excl u) eqn:Eu.
  - assert (Hwu : writes p u = true) by (unfold writes; by rewrite Eu, bool_decide_eq_true_2). apply Hne. apply (count_of_unique (writes p) ts i j t u); (done || unfold lock_is in Hl; lia).
  - assert (Hru : reads p u = true) by (unfold reads; by rewrite Eu, bool_decide_eq_true_2). pose proof (count_of_pos _ _ _ _ Hj Hru). unfold lock_is in Hl. lia.
Qed.

(** What a move of thread [i] from [t] to [t'] has to keep. *)
Record kept (W W' : list place) (s s' : shared) (ts : list thread) (t t' : thread) : Prop := {
  k_order : exists O, W' = STORAGE :: O /\ O ≡ₚ nodes;
  k_nodup : NoDup W';
  k_fits : fits t' /\ NoDup (holds (t_pc t')) /\ forall p, p ∈ holds (t_pc t') -> p ∈ W';
  k_claims a b : (a, b) ∈ claims (t_pc t') -> next_in W' a = b;
  k_halfway a b : (a, b) ∈ halfway W' (t_pc t') -> next_of s' !! a = Some b;
  k_others a : (a ∈ holds (t_pc t) -> excl t = false) -> next_in W' a = next_in W a /\ next_of s' !! a = next_of s !! a;
  k_clean a : a ∈ W' -> a ∈ holds (t_pc t) -> excl t = true -> a ∉ dirty (t_pc t') -> next_of s' !! a = Some (next_in W' a);
  k_locks p st : p ∈ W' -> lock_of s !! p = Some st -> lock_is st (count_of (writes p) ts) (count_of (reads p) ts) ->
    exists st', lock_of s' !! p = Some st' /\
      lock_is st' (count_of (writes p) ts - Z.b2z (writes p t) + Z.b2z (writes p t')) (count_of (reads p) ts - Z.b2z (reads p t) + Z.b2z (reads p t'))
}.

Lemma order_move W W' s s' ts i t t' : inv W s ts -> ts !! i = Some t -> kept W W' s s' ts t t' -> inv W' s' (<[i := t']> ts).
Proof.
  intros Hinv Hi Hk. assert (Hin : t ∈ ts) by (by eapply list_elem_of_lookup_2).
  assert (Hsame : forall p, p ∈ W' -> p ∈ W).
  { intros p. destruct (i_order _ _ _ Hinv) as (O & -> & HO), (k_order _ _ _ _ _ _ _ Hk) as (O' & -> & HO'). rewrite !elem_of_cons, HO, HO'. done. }
  assert (Hsame' : forall p, p ∈ W -> p ∈ W').
  { intros p. destruct (i_order _ _ _ Hinv) as (O & -> & HO), (k_order _ _ _ _ _ _ _ Hk) as (O' & -> & HO'). rewrite !elem_of_cons, HO, HO'. done. }
  assert (Hcase : forall u, u ∈ <[i := t']> ts -> u = t' \/ exists j, j <> i /\ ts !! j = Some u).
  { intros u Hu. apply list_elem_of_lookup in Hu as (j & Hj). destruct (decide (j = i)) as [->|Hne].
    - rewrite list_lookup_insert_eq in Hj by (by eapply lookup_lt_Some). left. congruence.
    - rewrite list_lookup_insert_ne in Hj by done. right. by exists j. }
  assert (Hfree : forall u j a, j <> i -> ts !! j = Some u -> a ∈ holds (t_pc u) -> next_in W' a = next_in W a /\ next_of s' !! a = next_of s !! a).
  { intros u j a Hne Hj Ha. apply (k_others _ _ _ _ _ _ _ Hk). intros Hta. destruct (excl t) eqn:E; [|done]. exfalso. by eapply (held_alone W s ts i j t u a). }
  split.
  - apply (k_order _ _ _ _ _ _ _ Hk).
  - apply (k_nodup _ _ _ _ _ _ _ Hk).
  - intros u [->|(j & Hne & Hj)]%Hcase; [apply (k_fits _ _ _ _ _ _ _ Hk)|]. destruct (i_fits _ _ _ Hinv u) as (H1 & H2 & H3); [by eapply list_elem_of_lookup_2|]. auto.
  - intros u a b [->|(j & Hne & Hj)]%Hcase Hc; [by apply (k_claims _ _ _ _ _ _ _ Hk)|]. destruct (Hfree u j a Hne Hj (claims_held _ _ _ Hc)) as [-> _].
    apply (i_claims _ _ _ Hinv u); [by eapply list_elem_of_lookup_2|done].
  - intros u a b [->|(j & Hne & Hj)]%Hcase Hc; [by apply (k_halfway _ _ _ _ _ _ _ Hk)|].
    destruct (Hfree u j a Hne Hj (dirty_held _ _ (halfway_held _ _ _ _ Hc))) as [_ ->]. apply (i_halfway _ _ _ Hinv u); [by eapply list_elem_of_lookup_2|].
    destruct (t_pc u) eqn:Eu; cbn in Hc |- *; try done. destruct (Hfree u j next_next Hne Hj) as [<- _]; [rewrite Eu; cbn; set_solver|done].
  - intros a HW Hd. assert (Hd' : a ∉ dirty (t_pc t')). { apply Hd. apply (list_elem_of_lookup_2 _ i). apply list_lookup_insert_eq. by eapply lookup_lt_Some. }
    destruct (decide (a ∈ holds (t_pc t) /\ excl t = true)) as [[Ha He]|Hno]; [by apply (k_clean _ _ _ _ _ _ _ Hk)|].
    destruct (k_others _ _ _ _ _ _ _ Hk a) as [-> ->]. { intros Ha. destruct (excl t); [|done]. by destruct Hno. }
    apply (i_clean _ _ _ Hinv); [auto|]. intros u Hu Hdu. apply list_elem_of_lookup in Hu as (j & Hj). destruct (decide (j = i)) as [->|Hne].
    + simplify_eq. apply Hno. destruct (i_fits _ _ _ Hinv t Hin) as [Hf _]. split; [by apply dirty_held|by eapply dirty_excl].
    + apply (Hd u); [|done]. apply (list_elem_of_lookup_2 _ j). by rewrite list_lookup_insert_ne.
  - intros p HW. destruct (i_locks _ _ _ Hinv p (Hsame p HW)) as (st & Hst & Hl). destruct (k_locks _ _ _ _ _ _ _ Hk p st HW Hst Hl) as (st' & Hst' & Hl').
    exists st'. split; [done|]. by rewrite (count_of_insert (writes p) ts i t t' Hi), (count_of_insert (reads p) ts i t t' Hi).
Qed.

(** A pointer of a place that is held and not being swapped is as the order says. *)
Lemma clean_held W s ts i t a : inv W s ts -> ts !! i = Some t -> a ∈ holds (t_pc t) -> a ∉ dirty (t_pc t) -> next_of s !! a = Some (next_in W a).
Proof.
  intros Hinv Hi Ha Hd. assert (Hin : t ∈ ts) by (by eapply list_elem_of_lookup_2). apply (i_clean _ _ _ Hinv); [by apply (i_fits _ _ _ Hinv t Hin)|].
  intros u Hu Hdu. destruct (i_fits _ _ _ Hinv u Hu) as [Hf _]. apply list_elem_of_lookup in Hu as (j & Hj). destruct (decide (j = i)) as [->|Hne]; [by simplify_eq|].
  apply (held_alone W s ts j i u t a); [done..|by eapply dirty_excl|by apply dirty_held|done].
Qed.

(** The holders of [p] after thread [t] has become [t']. *)
Lemma same_role t t' : t_role t' = t_role t -> excl t' = excl t.
Proof. unfold excl. by intros ->. Qed.

Lemma locks_same p t t' : t_role t' = t_role t -> (p ∈ holds (t_pc t') <-> p ∈ holds (t_pc t)) -> writes p t' = writes p t /\ reads p t' = reads p t.
Proof. intros Hr Hp. unfold writes, reads. rewrite (same_role _ _ Hr). by rewrite (bool_decide_ext _ _ Hp). Qed.

Lemma local_kept W s ts i t t' : inv W s ts -> ts !! i = Some t -> t_role t' = t_role t -> fits t' -> holds (t_pc t') = holds (t_pc t) ->
  dirty (t_pc t) = [] -> dirty (t_pc t') = [] -> (forall a b, (a, b) ∈ claims (t_pc t') -> next_in W a = b) -> kept W W s s ts t t'.
Proof.
  intros Hinv Hi Hr Hf Hh Hd Hd' Hc. assert (Hin : t ∈ ts) by (by eapply list_elem_of_lookup_2). destruct (i_fits _ _ _ Hinv t Hin) as (_ & Hnd & HW). split.
  - apply (i_order _ _ _ Hinv).
  - apply (i_nodup _ _ _ Hinv).
  - by rewrite Hh.
  - done.
  - intros a b Ha%halfway_held. rewrite Hd' in Ha. by apply not_elem_of_nil in Ha.
  - done.
  - intros a _ Ha _ _. eapply clean_held; [done|done|done|]. rewrite Hd. apply not_elem_of_nil.
  - intros p st _ Hst Hl. exists st. split; [done|]. destruct (locks_same p t t' Hr) as [-> ->]; [by rewrite Hh|]. unfold lock_is in *. lia.
Qed.

(** A lock changes hands; the pointers and the order stay. *)
Lemma lock_kept W s ts i t t' p st st' : inv W s ts -> ts !! i = Some t -> t_role t' = t_role t -> fits t' ->
  NoDup (holds (t_pc t')) -> p ∈ W -> (forall q, q <> p -> q ∈ holds (t_pc t') <-> q ∈ holds (t_pc t)) ->
  dirty (t_pc t) = [] -> dirty (t_pc t') = [] -> (forall a b, (a, b) ∈ claims (t_pc t') -> next_in W a = b) -> lock_of s !! p = Some st ->
  (lock_is st (count_of (writes p) ts) (count_of (reads p) ts) ->
   lock_is st' (count_of (writes p) ts - Z.b2z (writes p t) + Z.b2z (writes p t')) (count_of (reads p) ts - Z.b2z (reads p t) + Z.b2z (reads p t'))) ->
  kept W W s (set_lock s p st') ts t t'.
Proof.
  intros Hinv Hi Hr Hf Hnd HpW Hq Hd Hd' Hc Hst Hlk. assert (Hin : t ∈ ts) by (by eapply list_elem_of_lookup_2). destruct (i_fits _ _ _ Hinv t Hin) as (_ & _ & HW). split.
  - apply (i_order _ _ _ Hinv).
  - apply (i_nodup _ _ _ Hinv).
  - split; [done|]. split; [done|]. intros q Hqt. destruct (decide (q = p)) as [->|Hne]; [done|]. by apply HW, Hq.
  - done.
  - intros a b Ha%halfway_held. rewrite Hd' in Ha. by apply not_elem_of_nil in Ha.
  - done.
  - intros a _ Ha _ _. cbn. eapply clean_held; [done|done|done|]. rewrite Hd. apply not_elem_of_nil.
  - intros q st0 _ Hst0 Hl. cbn. destruct (decide (q = p)) as [->|Hne].
    + rewrite lookup_insert_eq. exists st'. split; [done|]. apply Hlk. by simplify_eq.
    + rewrite lookup_insert_ne by done. exists st0. split; [done|]. destruct (locks_same q t t' Hr) as [-> ->]; [by apply Hq|]. unfold lock_is in *. lia.
Qed.

Lemma holders p t : p ∈ holds (t_pc t) -> writes p t = excl t /\ reads p t = negb (excl t).
Proof. intros H. unfold writes, reads. rewrite bool_decide_eq_true_2 by done. by rewrite !andb_true_r. Qed.

Lemma non_holders p t : p ∉ holds (t_pc t) -> writes p t = false /\ reads p t = false.
Proof. intros H. unfold writes, reads. rewrite bool_decide_eq_false_2 by done. by rewrite !andb_false_r. Qed.

(** Taking a lock. *)
Definition lock_fun (t : thread) : Z -> option Z := if excl t then acquire else acquire_shared.

Lemma counter_lock cmp t : t_role t = Counter cmp -> read_lock lk = lock_fun t.
Proof. unfold lock_fun, excl, lk. intros ->. by destruct shares. Qed.

Lemma swapper_lock t : t_role t = Swapper -> write_lock lk = lock_fun t.
Proof. unfold lock_fun, excl. by intros ->. Qed.

Definition kept_step (W : list place) (s : shared) (ts : list thread) (t : thread) (o : outcome) : Prop :=
  match o with Blocked => True | Crash => False | Moved s' t' => exists W', kept W W' s s' ts t t' end.

Lemma take_kept W s ts i t t' p : inv W s ts -> ts !! i = Some t -> t_role t' = t_role t -> fits t' -> p ∈ W -> NoDup (holds (t_pc t')) ->
  p ∈ holds (t_pc t') -> p ∉ holds (t_pc t) -> (forall q, q <> p -> q ∈ holds (t_pc t') <-> q ∈ holds (t_pc t)) ->
  dirty (t_pc t) = [] -> dirty (t_pc t') = [] -> (forall a b, (a, b) ∈ claims (t_pc t') -> next_in W a = b) ->
  kept_step W s ts t (do_lock (lock_fun t) s p t').
Proof.
  intros Hinv Hi Hr Hf HpW Hnd Hp' Hp Hq Hd Hd' Hc. unfold do_lock. destruct (i_locks _ _ _ Hinv p HpW) as (st & Hst & _). rewrite Hst.
  destruct (lock_fun t st) as [st'|] eqn:El; [|done]. exists W. eapply lock_kept; try done. intros Hl.
  destruct (non_holders p t Hp) as [-> ->], (holders p t' Hp') as [-> ->]. rewrite (same_role t t' Hr). unfold lock_fun, acquire, acquire_shared, lock_is in *.
  pose proof (count_of_nonneg (reads p) ts). destruct (excl t); cbn; [destruct (Z.eqb_spec st 0)|destruct (Z.ltb_spec st 0)]; simplify_eq; lia.
Qed.

Lemma drop_kept W s ts i t t' p : inv W s ts -> ts !! i = Some t -> t_role t' = t_role t -> fits t' -> NoDup (holds (t_pc t')) ->
  p ∈ holds (t_pc t) -> p ∉ holds (t_pc t') -> (forall q, q <> p -> q ∈ holds (t_pc t') <-> q ∈ holds (t_pc t)) ->
  dirty (t_pc t) = [] -> dirty (t_pc t') = [] -> (forall a b, (a, b) ∈ claims (t_pc t') -> next_in W a = b) ->
  kept_step W s ts t (do_unlock s p t').
Proof.
  intros Hinv Hi Hr Hf Hnd Hp Hp' Hq Hd Hd' Hc. assert (Hin : t ∈ ts) by (by eapply list_elem_of_lookup_2). assert (HpW : p ∈ W) by (by apply (i_fits _ _ _ Hinv t Hin)).
  unfold do_unlock. destruct (i_locks _ _ _ Hinv p HpW) as (st & Hst & Hl). rewrite Hst. destruct (holders p t Hp) as [Hw Hrd].
  assert (Hpos : 0 < count_of (if excl t then writes p else reads p) ts).
  { apply (count_of_pos _ _ i t Hi). destruct (excl t); [by rewrite Hw|by rewrite Hrd]. }
  unfold unlock. pose proof (count_of_nonneg (writes p) ts). pose proof (count_of_nonneg (reads p) ts). destruct (non_holders p t' Hp') as [Hw' Hrd'].
  destruct (Z.eqb_spec st 0) as [->|Hst0]; [destruct (excl t); unfold lock_is in Hl; lia|].
  destruct (Z.ltb_spec st 0); exists W; (eapply lock_kept; try done); intros _; rewrite Hw, Hrd, Hw', Hrd'; destruct (excl t); cbn; unfold lock_is in *; lia.
Qed.

Lemma two_places W a b : NoDup W -> next_in W a = Some b -> a <> b /\ a ∈ W /\ b ∈ W.
Proof.
  intros Hnd (A & B & ->)%next_in_split. apply NoDup_app in Hnd as (_ & _ & [Hab _]%NoDup_cons). apply not_elem_of_cons in Hab as [Hab _].
  split; [done|]. split; apply elem_of_app; right; [left|right; left].
Qed.

Lemma three_places W a b c : NoDup W -> next_in W a = Some b -> next_in W b = Some c -> exists A B, W = A ++ a :: b :: c :: B.
Proof.
  intros Hnd (A & B & ->)%next_in_split Hc. exists A. replace (A ++ a :: b :: B) with ((A ++ [a]) ++ b :: B) in Hc by (by rewrite <- app_assoc).
  rewrite next_in_at in Hc; [destruct B as [|x B]; [done|]; injection Hc as ->; by exists B|].
  replace (A ++ a :: b :: B) with ((A ++ [a]) ++ b :: B) in Hnd by (by rewrite <- app_assoc). apply NoDup_app in Hnd as (_ & Hd & _). intros Hb. apply (Hd b Hb). left.
Qed.

Lemma three_distinct W a b c : NoDup W -> next_in W a = Some b -> next_in W b = Some c -> a <> b /\ a <> c /\ b <> c /\ c ∈ W.
Proof.
  intros Hnd Hb Hc. destruct (two_places W a b Hnd Hb) as (H1 & _ & _), (two_places W b c Hnd Hc) as (H2 & _ & H3). destruct (three_places W a b c Hnd Hb Hc) as (A & B & ->).
  apply NoDup_app in Hnd as (_ & _ & [Hab _]%NoDup_cons). rewrite !not_elem_of_cons in Hab. tauto.
Qed.

Ltac no_elems := intros ? ? H%not_elem_of_nil; destruct H.
Ltac distinct := repeat (apply NoDup_cons; split; [set_solver|]); apply NoDup_nil_2.

(** Taking the lock of the storage, of the successor of a place held, of the one after it. *)
Lemma take_storage W s ts i t : inv W s ts -> ts !! i = Some t -> t_pc t = Start -> kept_step W s ts t (do_lock (lock_fun t) s STORAGE (goto t (AtNext STORAGE))).
Proof.
  intros Hinv Hi Hpc. destruct (i_order _ _ _ Hinv) as (O & HW & _).
  eapply take_kept; rewrite ?Hpc; try done; cbn; [by unfold fits; cbn; destruct (t_role t)|rewrite HW; left|distinct|left|apply not_elem_of_nil|set_solver|no_elems].
Qed.

Lemma take_next W s ts i t p cur next : inv W s ts -> ts !! i = Some t -> t_pc t = LockNext cur next -> fits (goto t p) -> holds p = [cur; next] -> dirty p = [] ->
  (forall a b, (a, b) ∈ claims p -> (a, b) = (cur, Some next)) -> kept_step W s ts t (do_lock (lock_fun t) s next (goto t p)).
Proof.
  intros Hinv Hi Hpc Hf Hh Hd Hc. assert (Hin : t ∈ ts) by (by eapply list_elem_of_lookup_2).
  assert (Hn : next_in W cur = Some next) by (apply (i_claims _ _ _ Hinv t); [done|rewrite Hpc; left]). destruct (two_places W cur next (i_nodup _ _ _ Hinv) Hn) as (Hne & _ & HW).
  eapply take_kept; rewrite ?Hpc; try done; cbn; rewrite ?Hh; [distinct|set_solver|set_solver|set_solver|]. intros a b Hab. apply Hc in Hab. by simplify_eq.
Qed.

Lemma take_next_next W s ts i t cur next nn : inv W s ts -> ts !! i = Some t -> t_role t = Swapper -> t_pc t = LockNextNext cur next nn ->
  kept_step W s ts t (do_lock (lock_fun t) s nn (goto t (Decide cur next nn))).
Proof.
  intros Hinv Hi Hr Hpc. assert (Hin : t ∈ ts) by (by eapply list_elem_of_lookup_2).
  assert (Hcl : forall a b, (a, b) ∈ claims (LockNextNext cur next nn) -> next_in W a = b) by (intros a b Hab; apply (i_claims _ _ _ Hinv t); [done|by rewrite Hpc]).
  destruct (three_distinct W cur next nn (i_nodup _ _ _ Hinv)) as (H1 & H2 & H3 & HW); [apply Hcl; cbn; set_solver..|].
  eapply take_kept; rewrite ?Hpc; try done; cbn; [by unfold fits; cbn; rewrite Hr|distinct|set_solver|set_solver|set_solver].
Qed.

(** Letting a place go. *)
Lemma drop_place W s ts i t t' p : inv W s ts -> ts !! i = Some t -> t_role t' = t_role t -> fits t' -> p ∈ holds (t_pc t) ->
  (forall q, q ∈ holds (t_pc t') <-> q <> p /\ q ∈ holds (t_pc t)) -> NoDup (holds (t_pc t')) -> dirty (t_pc t) = [] -> dirty (t_pc t') = [] -> claims (t_pc t') = [] ->
  kept_step W s ts t (do_unlock s p t').
Proof. intros Hinv Hi Hr Hf Hp Hq Hnd Hd Hd' Hc. eapply drop_kept; try done; [rewrite Hq; tauto|intros q Hne; rewrite Hq; tauto|rewrite Hc; no_elems]. Qed.

(** The three assignments of a swap. *)
Lemma store_kept W s ts i t t' p q : inv W s ts -> ts !! i = Some t -> t_role t = Swapper -> t_role t' = t_role t -> fits t' ->
  holds (t_pc t') = holds (t_pc t) -> claims (t_pc t') = claims (t_pc t) -> p ∈ holds (t_pc t) ->
  (forall a b, (a, b) ∈ halfway W (t_pc t') -> <[p := q]> (next_of s) !! a = Some b) -> p ∈ dirty (t_pc t') -> (forall a, a ∈ dirty (t_pc t) -> a ∈ dirty (t_pc t')) ->
  kept W W s (set_next s p q) ts t t'.
Proof.
  intros Hinv Hi Hsw Hr Hf Hh Hc Hp Hhalf Hpd Hdd. assert (Hin : t ∈ ts) by (by eapply list_elem_of_lookup_2). destruct (i_fits _ _ _ Hinv t Hin) as (_ & Hnd & HW).
  assert (He : excl t = true) by (unfold excl; by rewrite Hsw). split.
  - apply (i_order _ _ _ Hinv).
  - apply (i_nodup _ _ _ Hinv).
  - by rewrite Hh.
  - intros a b. rewrite Hc. by apply (i_claims _ _ _ Hinv t).
  - done.
  - intros a Ha. split; [done|]. cbn. apply lookup_insert_ne. intros ->. by specialize (Ha Hp); congruence.
  - intros a _ Ha _ Hd. cbn. rewrite lookup_insert_ne by (intros ->; done). eapply clean_held; [done|done|done|]. auto.
  - intros x st _ Hst Hl. exists st. split; [done|]. destruct (locks_same x t t' Hr) as [-> ->]; [by rewrite Hh|]. unfold lock_is in *. lia.
Qed.

Lemma swap_kept W s ts i t cur next nn : inv W s ts -> ts !! i = Some t -> t_role t = Swapper -> t_pc t = Write3 cur next nn ->
  exists W', kept W W' s (set_next s nn (Some next)) ts t (counted (goto t (UnlockNextNext cur next nn))).
Proof.
  intros Hinv Hi Hsw Hpc. assert (Hin : t ∈ ts) by (by eapply list_elem_of_lookup_2). assert (He : excl t = true) by (unfold excl; by rewrite Hsw).
  assert (Hcl : forall a b, (a, b) ∈ claims (Write3 cur next nn) -> next_in W a = b) by (intros a b Hab; apply (i_claims _ _ _ Hinv t); [done|by rewrite Hpc]).
  assert (Hn : next_in W cur = Some next) by (apply Hcl; cbn; set_solver). assert (Hnn : next_in W next = Some nn) by (apply Hcl; cbn; set_solver).
  destruct (three_distinct W cur next nn (i_nodup _ _ _ Hinv) Hn Hnn) as (H1 & H2 & H3 & _). destruct (three_places W cur next nn (i_nodup _ _ _ Hinv) Hn Hnn) as (A & B & EW).
  assert (Hha : forall a b, (a, b) ∈ halfway W (Write3 cur next nn) -> next_of s !! a = Some b) by (intros a b Hab; apply (i_halfway _ _ _ Hinv t); [done|by rewrite Hpc]).
  set (W' := A ++ cur :: nn :: next :: B). assert (HP : W' ≡ₚ W) by (rewrite EW; unfold W'; do 2 f_equiv; apply Permutation_swap).
  pose proof (i_nodup _ _ _ Hinv) as Hnd. rewrite EW in Hnd. destruct (next_in_swap A cur next nn B Hnd) as (N1 & N2 & N3 & N4). rewrite <- EW in N3, N4, Hnd. fold W' in N1, N2, N3, N4.
  exists W'. split; cbn [t_pc t_role counted goto].
  - destruct (i_order _ _ _ Hinv) as (O & EO & HO). destruct A as [|x A].
    + exists (nn :: next :: B). rewrite EW in EO. cbn in EO. injection EO as E1 E2. split; [by rewrite <- E1|]. rewrite <- HO, <- E2. apply Permutation_swap.
    + exists (A ++ cur :: nn :: next :: B). rewrite EW in EO. cbn in EO. injection EO as E1 E2. split; [by rewrite <- E1|]. rewrite <- HO, <- E2. do 2 f_equiv. apply Permutation_swap.
  - by rewrite HP.
  - split; [by unfold fits; cbn; rewrite Hsw|]. cbn. split; [distinct|]. intros p Hp. rewrite HP. apply (i_fits _ _ _ Hinv t Hin). by rewrite Hpc.
  - no_elems.
  - no_elems.
  - intros a Ha. rewrite Hpc, He in Ha. cbn [holds] in Ha. assert (Hna : a ∉ [cur; next; nn]) by (intros Hx; by specialize (Ha Hx)). rewrite !not_elem_of_cons in Hna.
    split; [apply N4; tauto|]. cbn. apply lookup_insert_ne. intros ->. tauto.
  - intros a _ Ha _ _. rewrite Hpc in Ha. cbn in Ha |- *. apply elem_of_cons in Ha as [->|[->|[->|[]%not_elem_of_nil]%elem_of_cons]%elem_of_cons].
    + rewrite lookup_insert_ne, N1 by done. apply Hha. cbn. set_solver.
    + rewrite lookup_insert_ne, N3 by done. apply Hha. cbn. set_solver.
    + by rewrite lookup_insert_eq, N2.
  - intros p st _ Hst Hl. exists st. split; [done|]. destruct (locks_same p t (counted (goto t (UnlockNextNext cur next nn))) eq_refl) as [-> ->]; [by rewrite Hpc|]. unfold lock_is in *. lia.
Qed.

(** ** Every step keeps the invariant *)

Ltac held Hpc := rewrite ?Hpc; cbn; set_solver.

Lemma load_kept W s ts i t p k : inv W s ts -> ts !! i = Some t -> p ∈ holds (t_pc t) -> p ∉ dirty (t_pc t) ->
  kept_step W s ts t (k (next_in W p)) -> kept_step W s ts t (load s p k).
Proof. intros Hinv Hi Hp Hd Hk. unfold load. by rewrite (clean_held W s ts i t p Hinv Hi Hp Hd). Qed.

Lemma store_step W s ts i t t' p q : inv W s ts -> ts !! i = Some t -> p ∈ holds (t_pc t) -> p ∉ dirty (t_pc t) ->
  (exists W', kept W W' s (set_next s p q) ts t t') -> kept_step W s ts t (store s p q t').
Proof. intros Hinv Hi Hp Hd Hk. unfold store. by rewrite (clean_held W s ts i t p Hinv Hi Hp Hd). Qed.

Lemma counter_kept W s ts i t cmp : inv W s ts -> ts !! i = Some t -> t_role t = Counter cmp -> kept_step W s ts t (counter lk len cmp s t).
Proof.
  intros Hinv Hi Hr. assert (Hin : t ∈ ts) by (by eapply list_elem_of_lookup_2). destruct (i_fits _ _ _ Hinv t Hin) as (Hf & Hnd & HW).
  unfold counter. rewrite (counter_lock cmp t Hr). unfold fits in Hf. rewrite Hr in Hf.
  assert (Hfit : forall p, match p with Start | AtNext _ | Compare _ _ | LockNext _ _ | Release _ _ | GiveUp _ => True | _ => False end -> fits (goto t p)) by (intros p Hp; unfold fits; cbn; rewrite Hr; by destruct p).
  destruct (t_pc t) as [|cur|cur next|cur next|cur next| | | | | | | | |cur] eqn:Hpc; try done.
  - by apply (take_storage W s ts i t).
  - apply (load_kept W s ts i t); [done|done|held Hpc|held Hpc|]. destruct (next_in W cur) as [next|] eqn:En; exists W.
    + case_bool_decide; (eapply local_kept; rewrite ?Hpc; try done; [by apply Hfit|]); cbn; intros a b Hab%list_elem_of_singleton; by simplify_eq.
    + eapply local_kept; rewrite ?Hpc; try done; [by apply Hfit|]. no_elems.
  - apply (load_kept W s ts i t); [done|done|held Hpc|held Hpc|]. assert (Hn : next_in W cur = Some next) by (apply (i_claims _ _ _ Hinv t); [done|rewrite Hpc; left]).
    rewrite Hn. exists W. destruct (cmp (len cur) (len next)); (eapply local_kept; rewrite ?Hpc; try done; [by apply (Hfit (LockNext cur next))|]); cbn; intros a b Hab%list_elem_of_singleton; by simplify_eq.
  - apply (take_next W s ts i t _ cur next); try done; [by apply Hfit|no_elems].
  - cbn in Hnd. rewrite !NoDup_cons in Hnd. destruct Hnd as [Hne _]. eapply drop_place; rewrite ?Hpc; try done; [by apply Hfit|held Hpc|intros q; cbn; set_solver|cbn; distinct].
  - eapply drop_place; rewrite ?Hpc; try done; [unfold fits; cbn; by rewrite Hr|held Hpc|intros q; cbn; set_solver|cbn; distinct].
Qed.

Lemma swapper_kept W s ts i t swap : inv W s ts -> ts !! i = Some t -> t_role t = Swapper -> kept_step W s ts t (swapper lk swap s t).
Proof.
  intros Hinv Hi Hr. assert (Hin : t ∈ ts) by (by eapply list_elem_of_lookup_2). destruct (i_fits _ _ _ Hinv t Hin) as (Hf & Hnd & HW).
  unfold swapper. rewrite (swapper_lock t Hr). unfold fits in Hf. rewrite Hr in Hf.
  assert (Hfit : forall p, match p with Compare _ _ => False | _ => True end -> fits (goto t p)) by (intros p Hp; unfold fits; cbn; rewrite Hr; by destruct p).
  assert (Hcl : forall a b, (a, b) ∈ claims (t_pc t) -> next_in W a = b) by (intros a b Hab; by apply (i_claims _ _ _ Hinv t)).
  destruct (t_pc t) as [|cur|cur next|cur next|cur next|cur next|cur next nn|cur next nn|cur next nn|cur next nn|cur next nn|cur next nn|cur next|cur] eqn:Hpc; try done.
  - by apply (take_storage W s ts i t).
  - apply (load_kept W s ts i t); [done|done|held Hpc|held Hpc|]. exists W. destruct (next_in W cur) as [next|] eqn:En; (eapply local_kept; rewrite ?Hpc; try done; try (by apply Hfit)).
    cbn. intros a b Hab%list_elem_of_singleton. by simplify_eq.
  - apply (take_next W s ts i t _ cur next); try done; [by apply Hfit|]. cbn. intros a b Hab%list_elem_of_singleton. by simplify_eq.
  - cbn in Hnd. rewrite !NoDup_cons in Hnd. destruct Hnd as [Hne _]. eapply drop_place; rewrite ?Hpc; try done; [by apply Hfit|held Hpc|intros q; cbn; set_solver|cbn; distinct].
  - apply (load_kept W s ts i t); [done|done|held Hpc|held Hpc|]. exists W. assert (Hn : next_in W cur = Some next) by (apply Hcl; left).
    destruct (next_in W next) as [nn|] eqn:En; (eapply local_kept; rewrite ?Hpc; try done; try (by apply Hfit)); cbn; [|no_elems].
    intros a b [Hab|Hab%list_elem_of_singleton]%elem_of_cons; by simplify_eq.
  - by apply (take_next_next W s ts i t cur next nn).
  - exists W. destruct swap; (eapply local_kept; rewrite ?Hpc; try done; try (by apply Hfit); no_elems).
  - apply (store_step W s ts i t); [done|done|held Hpc|held Hpc|]. exists W. eapply store_kept; rewrite ?Hpc; try done; [by apply Hfit|cbn; set_solver| |cbn; set_solver|cbn; set_solver].
    cbn. intros a b Hab%list_elem_of_singleton. simplify_eq. by rewrite lookup_insert_eq.
  - destruct (three_distinct W cur next nn (i_nodup _ _ _ Hinv)) as (H1 & H2 & H3 & _); [apply Hcl; cbn; set_solver..|].
    apply (load_kept W s ts i t); [done|done|held Hpc|held Hpc|]. apply (store_step W s ts i t); [done|done|held Hpc|held Hpc|].
    exists W. eapply store_kept; rewrite ?Hpc; try done; [by apply Hfit|cbn; set_solver| |cbn; set_solver|cbn; set_solver].
    cbn. intros a b [Hab|Hab%list_elem_of_singleton]%elem_of_cons; simplify_eq; [|by rewrite lookup_insert_eq]. rewrite lookup_insert_ne by done.
    apply (i_halfway _ _ _ Hinv t); [done|]. rewrite Hpc. left.
  - destruct (three_distinct W cur next nn (i_nodup _ _ _ Hinv)) as (H1 & H2 & H3 & _); [apply Hcl; cbn; set_solver..|].
    apply (store_step W s ts i t); [done|done|held Hpc|held Hpc|]. by apply (swap_kept W s ts i).
  - cbn in Hnd. rewrite !NoDup_cons in Hnd. destruct Hnd as (Hn1 & Hn2 & _). eapply drop_place; rewrite ?Hpc; try done; [by apply Hfit|held Hpc|intros q; cbn; set_solver|cbn; distinct].
  - cbn in Hnd. rewrite !NoDup_cons in Hnd. destruct Hnd as [Hne _]. eapply drop_place; rewrite ?Hpc; try done; [by apply Hfit|held Hpc|intros q; cbn; set_solver|cbn; distinct].
  - eapply drop_place; rewrite ?Hpc; try done; [by apply Hfit|held Hpc|intros q; cbn; set_solver|cbn; distinct].
Qed.

Lemma step_kept c c' W : inv W (sh c) (threads c) -> crashed c = false -> step (exec lk len) c c' ->
  exists W', inv W' (sh c') (threads c') /\ crashed c' = false.
Proof.
  intros Hinv Hcr ([i swap] & He). unfold exec in He. rewrite Hcr in He. cbn [fst snd] in He. destruct (threads c !! i) as [t|] eqn:Hi; [|done].
  assert (Hk : kept_step W (sh c) (threads c) t (thread_step lk len swap (sh c) t)).
  { unfold thread_step. destruct (t_role t) eqn:Er; [by eapply counter_kept|by eapply swapper_kept]. }
  destruct (thread_step lk len swap (sh c) t) as [| |s' t']; [done|done|]. injection He as <-. destruct Hk as (W' & Hk). exists W'. split; [|done]. by eapply order_move.
Qed.

(** ** Walking along the list *)

Lemma walk_ok next W : NoDup W -> (forall a, a ∈ W -> next !! a = Some (next_in W a)) ->
  forall l pre a fuel, W = pre ++ a :: l -> (length l < fuel)%nat -> walk fuel next a = Some l.
Proof.
  intros Hnd Hnext. induction l as [|b l IH]; intros pre a fuel -> Hf; (destruct fuel as [|fuel]; [lia|]); cbn [walk];
    (rewrite Hnext by (apply elem_of_app; right; left)); (rewrite next_in_at; [cbn [head]|]);
    try (apply NoDup_app in Hnd as (_ & Hd & _); intros Ha; apply (Hd a Ha); left); [done|].
  rewrite (IH (pre ++ [a]) b); [done|by rewrite <- app_assoc|cbn in Hf; lia].
Qed.

Lemma walk_order W s ts : inv W s ts -> (forall t, t ∈ ts -> dirty (t_pc t) = []) ->
  exists O, walk (S (length nodes)) (next_of s) STORAGE = Some O /\ O ≡ₚ nodes.
Proof.
  intros Hinv Hd. destruct (i_order _ _ _ Hinv) as (O & -> & HO). exists O. split; [|done].
  apply (walk_ok (next_of s) (STORAGE :: O) (i_nodup _ _ _ Hinv)) with []; [|done|rewrite HO; lia].
  intros a Ha. apply (i_clean _ _ _ Hinv); [done|]. intros t Ht. rewrite (Hd t Ht). apply not_elem_of_nil.
Qed.

(** ** Somebody can always move *)

(** The lock a thread is about to take. *)
Definition wants (p : pc) : option place := match p with Start => Some STORAGE | LockNext _ next => Some next | LockNextNext _ _ nn => Some nn | _ => None end.

(** A thread that cannot move waits for a lock that somebody holds. *)
Lemma blocked_waits W s ts i t swap : inv W s ts -> ts !! i = Some t -> thread_step lk len swap s t = Blocked ->
  exists p, wants (t_pc t) = Some p /\ p ∈ W /\ exists j u, ts !! j = Some u /\ p ∈ holds (t_pc u).
Proof.
  intros Hinv Hi Hb. assert (Hin : t ∈ ts) by (by eapply list_elem_of_lookup_2). destruct (i_order _ _ _ Hinv) as (O & EO & _).
  assert (Hw : exists p t', wants (t_pc t) = Some p /\ p ∈ W /\ do_lock (lock_fun t) s p t' = Blocked).
  { assert (Hn : forall cur next, t_pc t = LockNext cur next -> next ∈ W).
    { intros cur next E. apply (two_places W cur next (i_nodup _ _ _ Hinv)). apply (i_claims _ _ _ Hinv t); [done|rewrite E; left]. }
    assert (Hn3 : forall cur next nn, t_pc t = LockNextNext cur next nn -> nn ∈ W).
    { intros cur next nn E. apply (two_places W next nn (i_nodup _ _ _ Hinv)). apply (i_claims _ _ _ Hinv t); [done|rewrite E; right; left]. }
    unfold thread_step in Hb. destruct (t_role t) as [cmp|] eqn:Er; [unfold counter in Hb; rewrite (counter_lock cmp t Er) in Hb|unfold swapper in Hb; rewrite (swapper_lock t Er) in Hb];
      destruct (t_pc t) eqn:Hpc; unfold do_unlock, load, store in Hb; repeat case_match; try done; cbn [wants];
      (do 2 eexists; split; [done|]; split; [|exact Hb]); first [by eapply Hn|by eapply Hn3|rewrite EO; left]. }
  destruct Hw as (p & t' & Hwt & HpW & Hl). exists p. split; [done|]. split; [done|]. destruct (i_locks _ _ _ Hinv p HpW) as (st & Hst & Hls). unfold do_lock in Hl. rewrite Hst in Hl.
  assert (Hst0 : st <> 0). { intros ->. unfold lock_fun, acquire, acquire_shared in Hl. by destruct (excl t). }
  pose proof (count_of_nonneg (reads p) ts). pose proof (count_of_nonneg (writes p) ts). unfold lock_is in Hls.
  assert (Hor : 0 < count_of (writes p) ts \/ 0 < count_of (reads p) ts) by lia.
  destruct Hor as [(j & u & Hj & Hu)%count_of_ex|(j & u & Hj & Hu)%count_of_ex]; exists j, u; (split; [done|]); unfold writes, reads in Hu; apply andb_true_iff in Hu as [_ Hu]; by apply bool_decide_eq_true in Hu.
Qed.

(** It waits for a place further on than the ones it holds. *)
Lemma waits_ahead W s ts u p q k : inv W s ts -> u ∈ ts -> p ∈ holds (t_pc u) -> wants (t_pc u) = Some q -> W !! k = Some p -> exists k', (k < k')%nat /\ W !! k' = Some q.
Proof.
  intros Hinv Hu Hp Hq Hk. assert (Hstep : forall a b j, next_in W a = Some b -> W !! j = Some a -> W !! (S j) = Some b).
  { intros a b j Hab Hj. pose proof (i_nodup _ _ _ Hinv) as Hnd. destruct (next_in_split W a b Hab) as (A & B & E).
    assert (Ha : W !! length A = Some a) by (rewrite E; by rewrite list_lookup_middle). assert (j = length A) as -> by (by eapply NoDup_lookup).
    rewrite E. replace (A ++ a :: b :: B) with ((A ++ [a]) ++ b :: B) by (by rewrite <- app_assoc). rewrite list_lookup_middle; [done|]. rewrite length_app. cbn. lia. }
  assert (Hcl : forall a b, (a, b) ∈ claims (t_pc u) -> next_in W a = b) by (intros a b; by apply (i_claims _ _ _ Hinv u)).
  destruct (t_pc u) as [| | |cur next| | |cur next nn| | | | | | |]; try done; cbn in Hp, Hq; injection Hq as <-.
  - by apply not_elem_of_nil in Hp.
  - apply list_elem_of_singleton in Hp as ->. exists (S k). split; [lia|]. eapply Hstep; [apply Hcl; left|done].
  - apply elem_of_cons in Hp as [->|Hp%list_elem_of_singleton].
    + exists (S (S k)). split; [lia|]. eapply Hstep; [apply Hcl; right; left|]. eapply Hstep; [apply Hcl; left|done].
    + subst p. exists (S k). split; [lia|]. eapply Hstep; [apply Hcl; right; left|done].
Qed.

Definition blocked (o : outcome) : bool := match o with Blocked => true | _ => false end.

Lemma somebody_moves W s ts : inv W s ts -> ts <> [] -> exists i t, ts !! i = Some t /\ thread_step lk len false s t <> Blocked.
Proof.
  intros Hinv Hne. destruct (decide (Exists (fun t => blocked (thread_step lk len false s t) = false) ts)) as [Hex|Hno].
  { apply Exists_exists in Hex as (t & Ht & Hb). apply list_elem_of_lookup in Ht as (i & Hi). exists i, t. split; [done|]. intros E. by rewrite E in Hb. }
  exfalso. assert (Hall : forall i t, ts !! i = Some t -> thread_step lk len false s t = Blocked).
  { intros i t Hi. destruct (thread_step lk len false s t) eqn:E; [done|..]; exfalso; apply Hno, Exists_exists; exists t; rewrite E; (split; [by eapply list_elem_of_lookup_2|done]). }
  assert (Hdown : forall d k t p i, (length W - k < d)%nat -> ts !! i = Some t -> wants (t_pc t) = Some p -> W !! k = Some p -> False).
  { induction d as [|d IH]; intros k t p i Hd Hi Hp Hk; [lia|]. destruct (blocked_waits W s ts i t false Hinv Hi (Hall i t Hi)) as (p' & Hp' & _ & j & u & Hj & Hu). simplify_eq.
    destruct (blocked_waits W s ts j u false Hinv Hj (Hall j u Hj)) as (q & Hq & _ & _).
    destruct (waits_ahead W s ts u p q k Hinv ltac:(by eapply list_elem_of_lookup_2) Hu Hq Hk) as (k' & Hlt & Hk').
    apply (IH k' u q j); [|done|done|done]. apply lookup_lt_Some in Hk'. lia. }
  destruct ts as [|t ts']; [done|]. destruct (blocked_waits W s (t :: ts') 0 t false Hinv eq_refl (Hall 0%nat t eq_refl)) as (p & Hp & HpW & _).
  apply list_elem_of_lookup in HpW as (k & Hk). by apply (Hdown (S (length W)) k t p 0%nat ltac:(lia)).
Qed.

End Invariant.

(** ** The start *)

Fixpoint down (n : nat) : list place := match n with O => [] | S k => S k :: down k end.

Lemma down_range n a : a ∈ down n -> (1 <= a <= n)%nat.
Proof. induction n as [|n IH]; cbn; [by intros ?%not_elem_of_nil|]. intros [->|Ha%IH]%elem_of_cons; lia. Qed.

Lemma down_nodup n : NoDup (STORAGE :: down n).
Proof.
  apply NoDup_cons. split; [intros H%down_range; unfold STORAGE in H; lia|]. induction n as [|n IH]; [apply NoDup_nil_2|]. cbn. apply NoDup_cons. split; [intros H%down_range; lia|done].
Qed.

Lemma generated n a : a ∈ STORAGE :: down n ->
  next_of (generate_storage n) !! a = Some (next_in (STORAGE :: down n) a) /\ lock_of (generate_storage n) !! a = Some 0.
Proof.
  revert a. induction n as [|n IH]; intros a Ha.
  { apply list_elem_of_singleton in Ha as ->. done. }
  cbn [generate_storage]. destruct (IH STORAGE ltac:(left)) as [-> _]. cbn [default set_lock set_next next_of lock_of down].
  assert (Hn : a ∈ STORAGE :: down n -> a <> S n). { intros [->|H%down_range]%elem_of_cons; unfold STORAGE; lia. }
  destruct (decide (a = STORAGE)) as [->|H0].
  { rewrite lookup_insert_eq, lookup_insert_ne by done. split; [done|]. apply (IH STORAGE). left. }
  rewrite lookup_insert_ne by done. cbn [next_in]. rewrite (bool_decide_eq_false_2 (STORAGE = a)) by done. destruct (decide (a = S n)) as [->|H1].
  - rewrite !lookup_insert_eq. rewrite bool_decide_eq_true_2 by done. split; [|done]. cbn. by rewrite bool_decide_eq_true_2.
  - rewrite !lookup_insert_ne by done. rewrite bool_decide_eq_false_2 by done. apply elem_of_cons in Ha as [?|[?|Ha]%elem_of_cons]; [done|done|].
    destruct (IH a ltac:(by right)) as [-> ->]. cbn [next_in]. by rewrite bool_decide_eq_false_2.
Qed.

Lemma count_of_none {L} (f : L -> bool) l : (forall t, t ∈ l -> f t = false) -> count_of f l = 0.
Proof. intros H. unfold count_of. rewrite (sum_of_const _ l 0); [lia|]. intros t Ht. by rewrite H. Qed.

Lemma inv_start shares n roles : inv shares (down n) (STORAGE :: down n) (generate_storage n) (begin <$> roles).
Proof.
  assert (Hpc : forall t, t ∈ begin <$> roles -> t_pc t = Start /\ fits t). { intros t (r & -> & _)%list_elem_of_fmap. split; [done|]. by destruct r. }
  split.
  - by exists (down n).
  - apply down_nodup.
  - intros t Ht. destruct (Hpc t Ht) as [-> Hf]. split; [done|]. cbn. split; [apply NoDup_nil_2|]. by intros p ?%not_elem_of_nil.
  - intros t a b Ht. destruct (Hpc t Ht) as [-> _]. by intros ?%not_elem_of_nil.
  - intros t a b Ht. destruct (Hpc t Ht) as [-> _]. by intros ?%not_elem_of_nil.
  - intros a Ha _. by apply generated.
  - intros p Hp. exists 0. split; [by apply generated|]. left. rewrite !count_of_none; [done|..]; intros t Ht; apply non_holders; destruct (Hpc t Ht) as [-> _]; apply not_elem_of_nil.
Qed.

(** ** The theorems *)

Definition lock_kind (l : LockOps) : Prop := l = mutex \/ l = spinlock \/ l = rwlock.

Lemma lock_shares l : lock_kind l -> exists shares, l = lk shares.
Proof. intros [->|[->| ->]]; [by exists false|by exists false|by exists true]. Qed.

Lemma reach_inv shares len n roles c : rtc (step (exec (lk shares) len)) (start n (begin <$> roles)) c ->
  exists W, inv shares (down n) W (sh c) (threads c) /\ crashed c = false.
Proof.
  intros Hr. apply (steps_keep (exec (lk shares) len) (fun c => exists W, inv shares (down n) W (sh c) (threads c) /\ crashed c = false)) with (start n (begin <$> roles)); [|
    exists (STORAGE :: down n); split; [apply inv_start|done]|done].
  intros c1 c2 (W & Hi & Hc) Hs. by eapply step_kept.
Qed.

(** A thread between the first and the last assignment of a swap. *)
Definition swapping (t : thread) : bool := match t_pc t with Write2 _ _ _ | Write3 _ _ _ => true | _ => false end.

Lemma not_swapping t : swapping t = false -> dirty (t_pc t) = [].
Proof. unfold swapping. by destruct (t_pc t). Qed.

(** C15.  Swapping under other threads is safe: with any of the three kinds of locks, any
    number of counters and swappers and any interleaving of their steps, no thread uses
    a pointer that is not to a node, compares a node with nothing or unlocks what is
    not locked; a node a swapper holds is held by no other thread; and whenever no
    thread is between the assignments of a swap, the list from [storage->first] on is
    made of exactly the nodes it was generated with, in some order: none is lost,
    doubled, or in a cycle. *)
Theorem swap_list_safe (l : LockOps) (len : place -> Z) (n : nat) (roles : list role) (c : config) :
  lock_kind l -> rtc (step (exec l len)) (start n (begin <$> roles)) c ->
  crashed c = false /\
  (forall i j t u p, threads c !! i = Some t -> threads c !! j = Some u -> t_role t = Swapper -> p ∈ holds (t_pc t) -> p ∈ holds (t_pc u) -> i = j) /\
  ((forall t, t ∈ threads c -> swapping t = false) -> exists O, walk (S n) (next_of (sh c)) STORAGE = Some O /\ O ≡ₚ down n).
Proof.
  intros (shares & ->)%lock_shares Hr. destruct (reach_inv shares len n roles c Hr) as (W & Hinv & Hc). split; [done|]. split.
  - intros i j t u p Hi Hj Ht Hp Hq. destruct (decide (i = j)) as [|Hne]; [done|]. exfalso. eapply (held_alone shares (down n) W (sh c) (threads c) i j t u p); try done. unfold excl. by rewrite Ht.
  - intros Hsw. assert (Hlen : length (down n) = n) by (clear; induction n as [|n IH]; cbn; congruence). pose proof (walk_order shares (down n) W (sh c) (threads c) Hinv) as Hw. rewrite Hlen in Hw. apply Hw.
    intros t Ht. by apply not_swapping, Hsw.
Qed.

Definition swap_sample : list (nat * bool) := replicate 11 (3%nat, true) ++ replicate 6 (0%nat, false).

Lemma swap_list_safe_witness : exists c, run (exec rwlock (fun _ => 0)) swap_sample (start 4 main_threads) = Some c /\ crashed c = false /\
  exists O, walk 5 (next_of (sh c)) STORAGE = Some O /\ O ≡ₚ down 4.
Proof.
  destruct (run (exec rwlock (fun _ => 0)) swap_sample (start 4 main_threads)) as [c|] eqn:E; [|by vm_compute in E].
  exists c. split; [done|].
  pose proof (swap_list_safe rwlock (fun _ => 0) 4 [Counter nodes_eq; Counter nodes_asc; Counter nodes_desc; Swapper; Swapper; Swapper] c (or_intror (or_intror eq_refl)) (run_steps _ _ _ _ E)) as (H1 & _ & H3).
  split; [exact H1|]. apply H3. vm_compute in E. injection E as <-. cbn [threads].
  intros t Ht. repeat (apply elem_of_cons in Ht as [->|Ht]; [reflexivity|]). by apply not_elem_of_nil in Ht.
Defined.

(** C28.  No deadlock: in every reachable state of any counters and swappers some thread can
    take a step -- the one that waits for the place furthest along the list waits for
    nobody --, whichever kind of lock is used. *)
Theorem swap_list_never_stuck (l : LockOps) (len : place -> Z) (n : nat) (roles : list role) (c : config) :
  lock_kind l -> roles <> [] -> rtc (step (exec l len)) (start n (begin <$> roles)) c -> exists c', step (exec l len) c c' /\ crashed c' = false.
Proof.
  intros (shares & ->)%lock_shares Hne Hr. destruct (reach_inv shares len n roles c Hr) as (W & Hinv & Hc).
  assert (Hts : threads c <> []).
  { assert (Hl : length (threads c) = length roles); [|intros E; rewrite E in Hl; by destruct roles].
    apply (steps_keep (exec (lk shares) len) (fun c => length (threads c) = length roles)) with (start n (begin <$> roles)); [|cbn; by rewrite length_fmap|done].
    intros c1 c2 Hl ([i swap] & He). unfold exec in He. cbn in He. destruct (crashed c1); [done|]. destruct (threads c1 !! i); [|done]. destruct (thread_step _ _ _ _ _); simplify_eq; cbn; by rewrite ?length_insert. }
  destruct (somebody_moves shares (down n) len W (sh c) (threads c) Hinv Hts) as (i & t & Hi & Hb).
  assert (Hs : exists c', exec (lk shares) len c (i, false) = Some c'). { unfold exec. rewrite Hc. cbn. rewrite Hi. destruct (thread_step _ _ _ _ _); [done|eauto|eauto]. }
  destruct Hs as (c' & Hs). exists c'. split; [by exists (i, false)|]. by destruct (step_kept shares (down n) len c c' W Hinv Hc ltac:(by exists (i, false))) as (W' & _ & H).
Qed.

Lemma swap_list_never_stuck_witness : exists c', step (exec mutex (fun _ => 0)) (start 2 main_threads) c' /\ crashed c' = false.
Proof.
  apply (swap_list_never_stuck mutex (fun _ => 0) 2 [Counter nodes_eq; Counter nodes_asc; Counter nodes_desc; Swapper; Swapper; Swapper]);
    [left; reflexivity|discriminate|constructor].
Defined.
