(* ===== verification/Cipher.v ===== *)
(** * C-Homework/SubstitutionCipher/src

    A cipher that replaces each letter by the letter of a key, and its breaking by letter
    and trigram frequencies: [substitution_cipher.c], [monogram_analysis.c],
    [trigram_analysis.c] and [main.c].  Characters are numbers, a file is the list of its
    bytes, a key the characters of a C string without its final 0.  The functions of
    [ctype.h] are those of the C locale, and are undefined on a negative [char], which is
    what a byte above 127 becomes.  Allocation is taken to succeed. *)
From stdpp Require Import gmap.
From S2P Require Import Prelude.
#[local] Set Warnings "-clear-no-such-hyp".

Definition chars (s : string) : list Z := map (fun c => Z.of_nat (Ascii.nat_of_ascii c)) (String.list_ascii_of_string s).

(** ** Characters *)

Definition ALPHABET_SIZE : Z := 26.
Definition ch_a : Z := 97.
Definition ch_A : Z := 65.

Definition islower (c : Z) : bool := (97 <=? c) && (c <=? 122).
Definition isupper (c : Z) : bool := (65 <=? c) && (c <=? 90).
Definition isalpha (c : Z) : bool := isupper c || islower c.
Definition tolower (c : Z) : Z := if isupper c then c + 32 else c.
Definition toupper (c : Z) : Z := if islower c then c - 32 else c.

(** The argument of these functions is a [char] promoted to [int]. *)
Definition ctype (c : Z) : res unit := if c <? 0 then Err Undefined else Ok tt.

(** ** substitution_cipher.c *)

Inductive exitCode_t := SUCCESS | ALLOCATION_ERROR | IO_ERROR | INVALID_ARGUMENTS.

(** The inner loop of [validateKey]: a second occurrence behind. *)
Definition duplicate (c : Z) (rest : list Z) : bool := existsb (Z.eqb c) rest.

Fixpoint validate_letters (p : list Z) : res bool :=
  match p with
  | [] => Ok true
  | c :: rest =>
      check! ctype c in
      if negb (isalpha c) || negb (islower c) then Ok false
      else if duplicate c rest then Ok false
      else validate_letters rest
  end.

Definition validateKey (key : list Z) : res bool := if negb (zlen key =? ALPHABET_SIZE) then Ok false else validate_letters key.

Definition getReplacement (key : list Z) (c : Z) : res Z :=
  check! ctype c in
  if negb (isalpha c) then Ok c
  else if isupper c then let* k := arr_get key (c - ch_A) in check! ctype k in Ok (toupper k)
  else arr_get key (c - ch_a).

Fixpoint replaceLetters (input key : list Z) : res (list Z) :=
  match input with
  | [] => Ok []
  | c :: input =>
      let* r := getReplacement key (to_s8 c) in
      let* output := replaceLetters input key in
      Ok (u8 r :: output)
  end.

(** The exit code and what is written. *)
Definition encode (input key : list Z) : res (exitCode_t * list Z) :=
  let* valid := validateKey key in
  if negb valid then Ok (INVALID_ARGUMENTS, [])
  else let* output := replaceLetters input key in Ok (SUCCESS, output).

Fixpoint decode_key_loop (n : nat) (i : Z) (key decodeKey : list Z) : res (list Z) :=
  match n with
  | O => Ok decodeKey
  | S n =>
      let* k := arr_get key i in
      let* decodeKey := arr_set decodeKey (k - ch_a) (ch_a + i) in
      decode_key_loop n (i + 1) key decodeKey
  end.

Definition makeDecodeKey (key decodeKey : list Z) : res (list Z) := decode_key_loop 26 0 key decodeKey.

Definition decode (input key : list Z) : res (exitCode_t * list Z) :=
  let* valid := validateKey key in
  if negb valid then Ok (INVALID_ARGUMENTS, [])
  else
    let* decodeKey := makeDecodeKey key (replicate 27 0) in
    let* output := replaceLetters input decodeKey in
    Ok (SUCCESS, output).

(** ** monogram_analysis.c *)

Definition englishFrequencyList : list Z := chars "etaoinshrdlcumwfgypbvkjxqz".
Definition alphabet : list Z := chars "abcdefghijklmnopqrstuvwxyz".

Fixpoint fillFrequencyTable (input frequencyTable : list Z) : res (list Z) :=
  match input with
  | [] => Ok frequencyTable
  | c :: input =>
      if isalpha c then
        let* f := arr_get frequencyTable (tolower c - ch_a) in
        let* frequencyTable := arr_set frequencyTable (tolower c - ch_a) (u64 (f + 1)) in
        fillFrequencyTable input frequencyTable
      else fillFrequencyTable input frequencyTable
  end.

Definition letterCmp (frequencyTable : list Z) (a b : Z) : Z :=
  let freq_a := znth frequencyTable (a - ch_a) in
  let freq_b := znth frequencyTable (b - ch_a) in
  if freq_a <? freq_b then 1 else if freq_a >? freq_b then -1 else 0.

Fixpoint hack_key_loop (n : nat) (i : Z) (fileFrequencyList hackedKey : list Z) : res (list Z) :=
  match n with
  | O => Ok hackedKey
  | S n =>
      let* e := arr_get englishFrequencyList i in
      let* f := arr_get fileFrequencyList i in
      let* hackedKey := arr_set hackedKey (e - ch_a) f in
      hack_key_loop n (i + 1) fileFrequencyList hackedKey
  end.

Section Hack.
Context {Q : Qsort Z}.

(** [hackedKey] is the array the caller passes, with what it holds. *)
Definition monogramFrequencyAnalysis (input hackedKey : list Z) : res (list Z) :=
  let* frequencyTable := fillFrequencyTable input (replicate 26 0) in
  let fileFrequencyList := qsort (letterCmp frequencyTable) alphabet in
  let* hackedKey := hack_key_loop 26 0 fileFrequencyList hackedKey in
  arr_set hackedKey ALPHABET_SIZE 0.

(** ** trigram_analysis.c *)

Definition englishFrequentTrigrams : list (list Z) := [chars "the"; chars "and"; chars "ing"].

Definition trigram : Type := Z * Z * Z.

(** The table of counters, of which those that are not 0 are kept. *)
Definition counters : Type := gmap trigram Z.
Definition count_at (t : counters) (g : trigram) : Z := default 0 (t !! g).

(** The letters of a text, in lower case. *)
Definition letters (input : list Z) : list Z := tolower <$> base.filter (fun c => isalpha c = true) input.

(** The loop of [fillTrigramFrequencies] over the letters that [getAlpha] returns. *)
Fixpoint trigram_loop (a b : Z) (rest : list Z) (t : counters) : counters :=
  match rest with
  | [] => t
  | c :: rest => trigram_loop b c rest (<[(a - ch_a, b - ch_a, c - ch_a) := u64 (count_at t (a - ch_a, b - ch_a, c - ch_a) + 1)]> t)
  end.

(** The counters, and whether the file is set back to its start: it is not when there are
    fewer than two letters. *)
Definition fillTrigramFrequencies (input : list Z) : counters * bool :=
  match letters input with
  | a :: b :: rest => (trigram_loop a b rest ∅, true)
  | _ => (∅, false)
  end.

(** The loop over [pos], with the two [memmove]s; an entry that was not written yet holds
    no trigram. *)
Fixpoint place (freq : Z) (g : trigram) (best : list (Z * option trigram)) : list (Z * option trigram) :=
  match best with
  | [] => []
  | (m, x) :: rest => if freq >? m then (freq, Some g) :: removelast best else (m, x) :: place freq g rest
  end.

Definition all_trigrams : list trigram :=
  flat_map (fun i => flat_map (fun j => map (fun k => (i, j, k)) (seqZ 0 26)) (seqZ 0 26)) (seqZ 0 26).

Definition getMostFrequentTrigrams (t : counters) : list (option trigram) :=
  (foldl (fun best g => place (count_at t g) g best) (replicate 3 (0, None)) all_trigrams).*2.

(** The inner loop: the letter [b] becomes [tmp]. *)
Definition replace_letter (b tmp : Z) (key : list Z) : list Z := (fun x => if x =? b then tmp else x) <$> key.

Definition replace_one (key : list Z) (a b : Z) : res (list Z) :=
  let* tmp := arr_get key (a - ch_a) in
  let key := replace_letter b tmp (take 26 key) ++ drop 26 key in
  arr_set key (a - ch_a) b.

Definition replaceTrigramInKey (key : list Z) (trigram_a : list Z) (trigram_b : option trigram) : res (list Z) :=
  match trigram_b with
  | None => Err Undefined
  | Some (x, y, z) =>
      let* a0 := arr_get trigram_a 0 in
      let* key := replace_one key a0 (ch_a + x) in
      let* a1 := arr_get trigram_a 1 in
      let* key := replace_one key a1 (ch_a + y) in
      let* a2 := arr_get trigram_a 2 in
      replace_one key a2 (ch_a + z)
  end.

(** The key, and whether the file is set back. *)
Definition trigramFrequencyAnalysis (input hackedKey : list Z) : res (list Z * bool) :=
  let '(t, rewound) := fillTrigramFrequencies input in
  let mostFrequent := getMostFrequentTrigrams t in
  let* m2 := arr_get mostFrequent 2 in
  let* key := replaceTrigramInKey hackedKey (znth englishFrequentTrigrams 2) m2 in
  let* m1 := arr_get mostFrequent 1 in
  let* key := replaceTrigramInKey key (znth englishFrequentTrigrams 1) m1 in
  let* m0 := arr_get mostFrequent 0 in
  let* key := replaceTrigramInKey key (znth englishFrequentTrigrams 0) m0 in
  Ok (key, rewound).

Definition hack (input hackedKey : list Z) : res (list Z * bool) :=
  let* key := monogramFrequencyAnalysis input hackedKey in
  trigramFrequencyAnalysis input key.

(** ** main.c *)

Inductive Mode_t := ENCODE | DECODE | HACK | UNKNOWN.

Definition getMode (mode_string : list Z) : Mode_t :=
  if bool_decide (mode_string = chars "encode") then ENCODE
  else if bool_decide (mode_string = chars "decode") then DECODE
  else if bool_decide (mode_string = chars "hack") then HACK
  else UNKNOWN.

(** [tolower] of each [char]. *)
Fixpoint makeLower (str : list Z) : res (list Z) :=
  match str with
  | [] => Ok []
  | c :: str => check! ctype c in let* rest := makeLower str in Ok (tolower c :: rest)
  end.

(** The mode, the key, and whether the name of the output file is there. *)
Definition parseCmdArguments (argv : list (list Z)) : res (exitCode_t + Mode_t * list Z * bool) :=
  match argv with
  | [_; mode; arg3] =>
      match getMode mode with
      | ENCODE => let* key := makeLower arg3 in Ok (inr (ENCODE, key, false))
      | DECODE => let* key := makeLower arg3 in Ok (inr (DECODE, key, false))
      | HACK => Ok (inr (HACK, [], true))
      | UNKNOWN => Ok (inl INVALID_ARGUMENTS)
      end
  | [_; mode; arg3; _] =>
      match getMode mode with
      | ENCODE => let* key := makeLower arg3 in Ok (inr (ENCODE, key, true))
      | DECODE => let* key := makeLower arg3 in Ok (inr (DECODE, key, true))
      | HACK => Ok (inr (HACK, [], true))
      | UNKNOWN => Ok (inl INVALID_ARGUMENTS)
      end
  | _ => Ok (inl INVALID_ARGUMENTS)
  end.

(** What a reader of a C string sees of an array. *)
Fixpoint c_string (a : list Z) : list Z :=
  match a with
  | [] => []
  | c :: a => if c =? 0 then [] else c :: c_string a
  end.

(** [argv] is the arguments without the program's name, [input] the input file when it
    can be opened, [can_create] whether the output file can, [garbage] what the array of
    the key holds at first.  The result is the exit code described on [stderr] and the
    output file. *)
Definition main (garbage : list Z) (argv : list (list Z)) (input : option (list Z)) (can_create : bool) : res (exitCode_t * list Z) :=
  let* args := parseCmdArguments argv in
  match args with
  | inl code => Ok (code, [])
  | inr (mode, key, named) =>
      if negb named then Err Undefined
      else
        match input, can_create with
        | Some text, true =>
            match mode with
            | ENCODE => let* '(_, out) := encode text key in Ok (SUCCESS, out)
            | DECODE => let* '(_, out) := decode text key in Ok (SUCCESS, out)
            | HACK =>
                let* '(key, rewound) := hack text (take 26 garbage) in
                let* '(_, out) := decode (if rewound then text else []) (c_string key) in
                Ok (SUCCESS, c_string key ++ [10] ++ out)
            | UNKNOWN => Ok (INVALID_ARGUMENTS, [])
            end
        | _, _ => Ok (IO_ERROR, [])
        end
  end.

End Hack.

Example encode_run : encode (chars "Hello, World!") (chars "qwertyuiopasdfghjklzxcvbnm") = Ok (SUCCESS, chars "Itssg, Vgksr!").
Proof. vm_compute. reflexivity. Qed.

(** ** Keys *)

(** What [validateKey] asks for. *)
Definition lower (c : Z) : Prop := 97 <= c <= 122.
Definition key_ok (key : list Z) : Prop := zlen key = 26 /\ Forall lower key /\ NoDup key.

Lemma islower_spec c : islower c = true <-> lower c.
Proof. unfold islower, lower. rewrite andb_true_iff, !Z.leb_le. done. Qed.

Lemma isupper_spec c : isupper c = true <-> 65 <= c <= 90.
Proof. unfold isupper. rewrite andb_true_iff, !Z.leb_le. done. Qed.

Lemma isupper_lower c : lower c -> isupper c = false.
Proof. unfold lower. intros H. apply not_true_is_false. rewrite isupper_spec. lia. Qed.

Lemma islower_upper c : 65 <= c <= 90 -> islower c = false.
Proof. intros H. apply not_true_is_false. rewrite islower_spec. unfold lower. lia. Qed.

Lemma ctype_ok c : 0 <= c -> ctype c = Ok tt.
Proof. unfold ctype. intros H. by destruct (Z.ltb_spec c 0); [lia|]. Qed.

Lemma ctype_inv c u : ctype c = Ok u -> 0 <= c.
Proof. unfold ctype. by destruct (Z.ltb_spec c 0). Qed.

Lemma duplicate_spec c rest : duplicate c rest = true <-> c ∈ rest.
Proof.
  unfold duplicate. rewrite existsb_exists. setoid_rewrite Z.eqb_eq.
  setoid_rewrite <- list_elem_of_In. naive_solver.
Qed.

Lemma validate_letters_spec p : validate_letters p = Ok true <-> Forall lower p /\ NoDup p.
Proof.
  induction p as [|c p IH]; cbn [validate_letters].
  - split; [|done]. intros _. split; constructor.
  - rewrite Forall_cons, NoDup_cons. split.
    + destruct (ctype c) as [[]|] eqn:Ec; [|done]. cbn.
      destruct (isalpha c), (islower c) eqn:El; cbn; try done.
      destruct (duplicate c p) eqn:Ed; [done|]. apply islower_spec in El.
      rewrite IH. intros [??]. split; [done|]. split; [|done].
      rewrite <- duplicate_spec. by rewrite Ed.
    + intros [[Hc Hp] [Hd Hn]]. rewrite ctype_ok by (unfold lower in Hc; lia). cbn.
      apply islower_spec in Hc. unfold isalpha. rewrite Hc, orb_true_r. cbn.
      destruct (duplicate c p) eqn:Ed; [|by apply IH].
      by apply duplicate_spec in Ed.
Qed.

Lemma validateKey_spec key : validateKey key = Ok true <-> key_ok key.
Proof.
  unfold validateKey, key_ok, ALPHABET_SIZE.
  destruct (Z.eqb_spec (zlen key) 26); cbn.
  - rewrite validate_letters_spec. naive_solver.
  - split; [done|]. by intros [? _].
Qed.

Lemma key_lower key i : key_ok key -> 0 <= i < 26 -> lower (znth key i).
Proof.
  intros (Hl & Hf & _) Hi. rewrite Forall_forall in Hf. apply Hf, znth_elem. lia.
Qed.

Lemma znth_inj (a : list Z) i j :
  NoDup a -> 0 <= i < zlen a -> 0 <= j < zlen a -> znth a i = znth a j -> i = j.
Proof.
  unfold znth, zlen. intros Hn Hi Hj He.
  assert (Z.to_nat i = Z.to_nat j) as H; [|lia].
  apply (NoDup_lookup a _ _ (a !!! Z.to_nat i)); [done| |rewrite He];
    apply list_lookup_lookup_total_lt; lia.
Qed.

(** ** Encoding and decoding *)

(** The array [dst] holds [f j] in the cell of the [j]th letter of [key], for [j < n]: what
    the loops of [makeDecodeKey] and [monogramFrequencyAnalysis] build. *)
Definition assigned (key : list Z) (f : Z -> Z) (n : Z) (dst : list Z) : Prop :=
  forall j, 0 <= j < n -> znth dst (znth key j - 97) = f j.

Lemma assigned_step key f i dst :
  key_ok key -> 0 <= i < 26 -> 26 <= zlen dst -> assigned key f i dst ->
  arr_set dst (znth key i - 97) (f i) = Ok (zset dst (znth key i - 97) (f i)) /\
  assigned key f (i + 1) (zset dst (znth key i - 97) (f i)).
Proof.
  intros Hk Hi Hd Hu. pose proof (key_lower key i Hk Hi) as Hc. unfold lower in Hc.
  rewrite arr_set_ok by lia. split; [done|]. intros j Hj.
  pose proof (key_lower key j Hk ltac:(lia)) as Hc'. unfold lower in Hc'.
  rewrite znth_zset by lia. destruct (Z.eqb_spec (znth key i - 97) (znth key j - 97)) as [E|E].
  - assert (i = j) as ->; [|done]. destruct Hk as (Hl & _ & Hn). apply (znth_inj key); [done|lia..].
  - apply Hu. destruct (decide (j = i)) as [->|]; [done|lia].
Qed.

(** [dk] undoes [key]. *)
Definition undoes (key dk : list Z) : Prop := zlen dk = 27 /\ assigned key (fun j => 97 + j) 26 dk.

Lemma decode_key_loop_spec key : key_ok key -> forall n i dk,
  i + Z.of_nat n = 26 -> 0 <= i -> zlen dk = 27 -> assigned key (fun j => 97 + j) i dk ->
  exists dk', decode_key_loop n i key dk = Ok dk' /\ undoes key dk'.
Proof.
  intros Hk. induction n as [|n IH]; intros i dk Hi H0 Hz Hu; cbn [decode_key_loop].
  - exists dk. split; [done|]. split; [done|]. intros j Hj. apply Hu. lia.
  - rewrite arr_get_ok by (destruct Hk; lia). cbn iota. unfold ch_a.
    destruct (assigned_step key _ i dk Hk ltac:(lia) ltac:(lia) Hu) as [-> Hu']. cbn iota.
    apply IH; [lia|lia|by rewrite zlen_zset|done].
Qed.

Lemma makeDecodeKey_spec key :
  key_ok key -> exists dk, makeDecodeKey key (replicate 27 0) = Ok dk /\ undoes key dk.
Proof.
  intros Hk. apply decode_key_loop_spec; [done|lia|lia|done|]. intros j Hj. lia.
Qed.

(** The replacement of a character under a function on the lower case letters. *)
Definition substitute (f : Z -> Z) (c : Z) : Z :=
  if islower c then f c else if isupper c then f (c + 32) - 32 else c.

Lemma getReplacement_spec key c :
  26 <= zlen key -> (forall i, 0 <= i < 26 -> lower (znth key i)) -> 0 <= c ->
  getReplacement key c = Ok (substitute (fun x => znth key (x - 97)) c).
Proof.
  intros Hl Hk Hc. unfold getReplacement, substitute, isalpha, ch_A, ch_a.
  rewrite ctype_ok by done. cbn iota.
  destruct (isupper c) eqn:Eu.
  - apply isupper_spec in Eu. rewrite islower_upper by done. cbn [orb negb].
    rewrite arr_get_ok by lia. cbn iota. pose proof (Hk (c - 65) ltac:(lia)) as Hi.
    rewrite ctype_ok by (unfold lower in Hi; lia). cbn iota.
    replace (c + 32 - 97) with (c - 65) by lia. unfold toupper.
    apply islower_spec in Hi. by rewrite Hi.
  - cbn [orb negb]. destruct (islower c) eqn:El; cbn [negb]; [|done].
    apply islower_spec in El. unfold lower in El. by rewrite arr_get_ok by lia.
Qed.

Lemma substitute_class f c :
  (forall x, lower x -> lower (f x)) ->
  isupper (substitute f c) = isupper c /\ islower (substitute f c) = islower c.
Proof.
  intros Hf. unfold substitute. destruct (islower c) eqn:El.
  - apply islower_spec in El. rewrite (isupper_lower c) by done.
    rewrite isupper_lower by auto. split; [done|]. by apply islower_spec, Hf.
  - destruct (isupper c) eqn:Eu; [|by rewrite El, Eu].
    apply isupper_spec in Eu. pose proof (Hf (c + 32) ltac:(unfold lower; lia)) as Hr.
    unfold lower in Hr. rewrite islower_upper by lia. split; [|done].
    apply isupper_spec. lia.
Qed.

Lemma substitute_range f c :
  (forall x, lower x -> lower (f x)) -> 0 <= c < 128 -> 0 <= substitute f c < 128.
Proof.
  intros Hf Hc. unfold substitute. destruct (islower c) eqn:El.
  - apply islower_spec, Hf in El. unfold lower in El. lia.
  - destruct (isupper c) eqn:Eu; [|done]. apply isupper_spec in Eu.
    pose proof (Hf (c + 32) ltac:(unfold lower; lia)) as Hr. unfold lower in Hr. lia.
Qed.

Lemma substitute_undo f g c :
  (forall x, lower x -> lower (f x)) -> (forall x, lower x -> g (f x) = x) ->
  substitute g (substitute f c) = c.
Proof.
  intros Hf Hg. destruct (substitute_class f c Hf) as [Hu Hl].
  unfold substitute at 1. rewrite Hl, Hu. unfold substitute.
  destruct (islower c) eqn:El; [by apply islower_spec, Hg in El|].
  destruct (isupper c) eqn:Eu; [|done]. apply isupper_spec in Eu.
  replace (f (c + 32) - 32 + 32) with (f (c + 32)) by lia.
  rewrite Hg by (unfold lower; lia). lia.
Qed.

Lemma replaceLetters_spec key text :
  26 <= zlen key -> (forall i, 0 <= i < 26 -> lower (znth key i)) ->
  Forall (fun c => 0 <= c < 128) text ->
  replaceLetters text key = Ok (substitute (fun x => znth key (x - 97)) <$> text).
Proof.
  intros Hl Hk. induction 1 as [|c text Hc Ht IH]; [done|]. cbn [replaceLetters fmap list_fmap].
  unfold to_s8. rewrite to_signed_small by lia. rewrite getReplacement_spec by (done || lia).
  cbn iota. rewrite IH. cbn iota. do 2 f_equal.
  apply u8_small. cut (0 <= substitute (fun x => znth key (x - 97)) c < 128); [lia|].
  apply substitute_range; [|done]. intros x Hx. apply Hk. unfold lower in Hx. lia.
Qed.

Lemma key_ok_perm key : key_ok key <-> key ≡ₚ seqZ 97 26.
Proof.
  assert (Hs : forall x, x ∈ seqZ 97 26 <-> lower x)
    by (intros x; rewrite elem_of_seqZ; unfold lower; lia).
  split.
  - intros (Hl & Hf & Hn). apply submseteq_length_Permutation.
    + apply NoDup_submseteq; [done|]. intros x Hx. apply Hs. by eapply Forall_forall.
    + rewrite length_seqZ. unfold zlen in Hl. lia.
  - intros Hp. split; [|split].
    + unfold zlen. by rewrite Hp, length_seqZ.
    + rewrite Hp. apply Forall_forall. intros x Hx. by apply Hs.
    + rewrite Hp. apply NoDup_seqZ.
Qed.

Lemma key_onto key x : key_ok key -> lower x -> exists j, 0 <= j < 26 /\ znth key j = x.
Proof.
  intros Hk Hx. assert (x ∈ key) as He.
  { apply key_ok_perm in Hk. rewrite Hk, elem_of_seqZ. unfold lower in Hx. lia. }
  apply elem_znth in He as (j & Hj & <-). destruct Hk as (Hl & _). exists j. by rewrite <- Hl.
Qed.

Lemma undoes_lower key dk i : key_ok key -> undoes key dk -> 0 <= i < 26 -> lower (znth dk i).
Proof.
  intros Hk [_ Hu] Hi. destruct (key_onto key (97 + i) Hk) as (j & Hj & He); [unfold lower; lia|].
  specialize (Hu j Hj). rewrite He in Hu. replace (97 + i - 97) with i in Hu by lia.
  rewrite Hu. unfold lower. lia.
Qed.

Lemma encode_spec key text :
  key_ok key -> Forall (fun c => 0 <= c < 128) text ->
  encode text key = Ok (SUCCESS, substitute (fun x => znth key (x - 97)) <$> text).
Proof.
  intros Hk Ht. unfold encode. rewrite (proj2 (validateKey_spec key)) by done. cbn.
  rewrite replaceLetters_spec; [done|destruct Hk; lia|intros; by apply key_lower|done].
Qed.

Lemma decode_spec key text :
  key_ok key -> Forall (fun c => 0 <= c < 128) text ->
  exists dk, decode text key = Ok (SUCCESS, substitute (fun x => znth dk (x - 97)) <$> text) /\
    undoes key dk.
Proof.
  intros Hk Ht. unfold decode. rewrite (proj2 (validateKey_spec key)) by done. cbn [negb].
  destruct (makeDecodeKey_spec key Hk) as (dk & -> & Hu). exists dk. split; [|done].
  rewrite replaceLetters_spec; [done|destruct Hu; lia|intros; by eapply undoes_lower|done].
Qed.

Lemma decode_encode key text :
  key_ok key -> Forall (fun c => 0 <= c < 128) text ->
  decode (substitute (fun x => znth key (x - 97)) <$> text) key = Ok (SUCCESS, text).
Proof.
  intros Hk Ht. assert (Hf : forall x, lower x -> lower (znth key (x - 97)))
    by (intros x Hx; apply key_lower; [done|unfold lower in Hx; lia]).
  destruct (decode_spec key (substitute (fun x => znth key (x - 97)) <$> text) Hk)
    as (dk & -> & _ & Hu).
  { apply Forall_fmap. eapply Forall_impl; [done|]. intros c Hc. by apply substitute_range. }
  do 2 f_equal. rewrite <- list_fmap_compose. rewrite <- (list_fmap_id text) at 2.
  apply list_fmap_ext. intros _ c _. cbn. apply substitute_undo; [done|].
  intros x Hx. unfold lower in Hx. rewrite Hu by lia. lia.
Qed.

(** With a key that [validateKey] accepts, encoding an ASCII text succeeds, keeps the
    case of every letter and every other character as they are, and decoding what was
    written gives the text back. *)
Theorem cipher_roundtrip (key text : list Z) :
  validateKey key = Ok true -> Forall (fun c => 0 <= c < 128) text ->
  exists out, encode text key = Ok (SUCCESS, out) /\ decode out key = Ok (SUCCESS, text) /\
    Forall2 (fun c r => isupper r = isupper c /\ islower r = islower c /\ (isalpha c = false -> r = c)) text out.
Proof.
  intros Hk%validateKey_spec Ht. eexists. split; [by apply encode_spec|].
  split; [by apply decode_encode|]. apply Forall2_fmap_r, Forall_Forall2_diag, Forall_true. intros c.
  destruct (substitute_class (fun x => znth key (x - 97)) c) as [Hu Hl].
  { intros x Hx. apply key_lower; [done|unfold lower in Hx; lia]. }
  split; [done|]. split; [done|]. unfold isalpha, substitute. by destruct (isupper c), (islower c).
Qed.

Lemma cipher_roundtrip_witness :
  exists out, encode (chars "Hello, World!") (chars "qwertyuiopasdfghjklzxcvbnm") = Ok (SUCCESS, out) /\
    decode out (chars "qwertyuiopasdfghjklzxcvbnm") = Ok (SUCCESS, chars "Hello, World!").
Proof.
  destruct (cipher_roundtrip (chars "qwertyuiopasdfghjklzxcvbnm") (chars "Hello, World!"))
    as (out & He & Hd & _); [by vm_compute| |by exists out].
  repeat constructor; by vm_compute.
Defined.

(** ** The broken key *)

Lemma alphabet_ok : key_ok alphabet.
Proof. apply validateKey_spec. by vm_compute. Qed.

Lemma english_ok : key_ok englishFrequencyList.
Proof. apply validateKey_spec. by vm_compute. Qed.

Lemma key_ok_Permutation k k' : k' ≡ₚ k -> key_ok k -> key_ok k'.
Proof. intros Hp Hk%key_ok_perm. apply key_ok_perm. by rewrite Hp. Qed.

Lemma tolower_letter c : isalpha c = true -> lower (tolower c).
Proof.
  unfold isalpha, tolower, lower. destruct (isupper c) eqn:E; cbn.
  - intros _. apply isupper_spec in E. lia.
  - apply islower_spec.
Qed.

Lemma fillFrequencyTable_ok text ft :
  zlen ft = 26 -> exists ft', fillFrequencyTable text ft = Ok ft'.
Proof.
  revert ft. induction text as [|c text IH]; intros ft Hl; cbn [fillFrequencyTable]; [by eexists|].
  destruct (isalpha c) eqn:E; [|by apply IH].
  apply tolower_letter in E. unfold lower, ch_a in *.
  rewrite arr_get_ok by lia. cbn iota. rewrite arr_set_ok by lia. cbn iota.
  apply IH. by rewrite zlen_zset.
Qed.

Lemma hack_key_loop_spec ff : key_ok ff -> forall n i key,
  i + Z.of_nat n = 26 -> 0 <= i -> 26 <= zlen key -> assigned englishFrequencyList (znth ff) i key ->
  exists key', hack_key_loop n i ff key = Ok key' /\ zlen key' = zlen key /\
    assigned englishFrequencyList (znth ff) 26 key'.
Proof.
  intros Hf. induction n as [|n IH]; intros i key Hi H0 Hz Hu; cbn [hack_key_loop].
  - exists key. split; [done|]. split; [done|]. intros j Hj. apply Hu. lia.
  - rewrite (arr_get_ok englishFrequencyList) by (destruct english_ok; lia). cbn iota.
    rewrite arr_get_ok by (destruct Hf; lia). cbn iota. unfold ch_a.
    destruct (assigned_step _ _ i key english_ok ltac:(lia) ltac:(lia) Hu) as [-> Hu']. cbn iota.
    destruct (IH (i + 1) (zset key (znth englishFrequencyList i - 97) (znth ff i)))
      as (key' & -> & Hl & Ha); [lia|lia|by rewrite zlen_zset|done|].
    exists key'. by rewrite Hl, zlen_zset.
Qed.

(** An array filled through one key from another holds a key. *)
Lemma assigned_key_ok e ff k :
  key_ok e -> key_ok ff -> zlen k = 26 -> assigned e (znth ff) 26 k -> key_ok k.
Proof.
  intros He Hf Hl Ha.
  assert (H : forall p, 0 <= p < 26 -> exists i, 0 <= i < 26 /\ znth e i = 97 + p /\ znth k p = znth ff i).
  { intros p Hp. destruct (key_onto e (97 + p) He) as (i & Hi & Ei); [unfold lower; lia|].
    exists i. specialize (Ha i Hi). rewrite Ei in Ha.
    by replace (97 + p - 97) with p in Ha by lia. }
  split; [done|]. split.
  - apply Forall_forall. intros x (p & Hp & <-)%elem_znth.
    destruct (H p ltac:(lia)) as (i & Hi & _ & ->). by apply key_lower.
  - apply NoDup_alt. intros p q x Ep Eq.
    pose proof (lookup_lt_Some _ _ _ Ep). pose proof (lookup_lt_Some _ _ _ Eq). unfold zlen in Hl.
    destruct (H (Z.of_nat p) ltac:(lia)) as (i & Hi & Ei & Ki).
    destruct (H (Z.of_nat q) ltac:(lia)) as (j & Hj & Ej & Kj).
    unfold znth in Ki, Kj. rewrite Nat2Z.id in Ki, Kj.
    rewrite (list_lookup_total_correct _ _ _ Ep) in Ki. rewrite (list_lookup_total_correct _ _ _ Eq) in Kj.
    assert (i = j) as ->; [|lia].
    destruct Hf as (Hfl & _ & Hn). apply (znth_inj ff); [done|lia|lia|]. unfold znth. congruence.
Qed.

Lemma monogram_spec `{Q : Qsort Z} text garbage :
  27 <= zlen garbage ->
  exists k r, monogramFrequencyAnalysis text garbage = Ok (k ++ 0 :: r) /\ key_ok k.
Proof.
  intros Hg. unfold monogramFrequencyAnalysis, ALPHABET_SIZE.
  destruct (fillFrequencyTable_ok text (replicate 26 0)) as (ft & ->); [done|]. cbn iota.
  assert (Hf : key_ok (qsort (letterCmp ft) alphabet))
    by (eapply key_ok_Permutation; [apply qsort_perm|apply alphabet_ok]).
  destruct (hack_key_loop_spec _ Hf 26 0 garbage) as (key & -> & Hl & Ha); [lia|lia|lia| |].
  { intros j Hj. lia. }
  rewrite arr_set_ok by lia. exists (take 26 key), (drop 27 key). split.
  - f_equal. unfold zset. rewrite insert_take_drop; [done|]. unfold zlen in *. lia.
  - eapply assigned_key_ok; [apply english_ok|apply Hf| |].
    + apply (zlen_take 26). lia.
    + intros j Hj. pose proof (key_lower _ j english_ok Hj) as Hc. unfold lower in Hc.
      rewrite znth_take by lia. by apply Ha.
Qed.

Lemma zlen_replace_letter b t k : zlen (replace_letter b t k) = zlen k.
Proof. unfold replace_letter, zlen. by rewrite length_fmap. Qed.

Lemma znth_replace_letter b t k i :
  0 <= i < zlen k -> znth (replace_letter b t k) i = if znth k i =? b then t else znth k i.
Proof. unfold zlen, replace_letter, znth. intros Hi. apply (list_lookup_total_fmap (fun x => if x =? b then t else x) k). lia. Qed.

(** One letter of a trigram: the letters at two places of the key are exchanged. *)
Lemma replace_letter_swaps k b p j :
  key_ok k -> 0 <= p < 26 -> 0 <= j < 26 -> znth k j = b ->
  zset (replace_letter b (znth k p) k) p b = zswap k p j.
Proof.
  intros Hk Hp Hj Ej. destruct Hk as (Hl & _ & Hn). apply zlist_eq.
  - by rewrite zlen_zset, zlen_replace_letter, zlen_zswap.
  - rewrite zlen_zset, zlen_replace_letter. intros i Hi.
    rewrite znth_zset by (rewrite ?zlen_replace_letter; lia).
    rewrite znth_zswap, znth_replace_letter by lia.
    destruct (Z.eqb_spec p i) as [->|Np].
    + destruct (Z.eqb_spec j i) as [->|]; congruence.
    + destruct (Z.eqb_spec (znth k i) b) as [E|E], (Z.eqb_spec j i) as [->|Nj]; try done.
      destruct Nj. apply (znth_inj k); [done|lia|lia|congruence].
Qed.

Lemma replace_one_spec k r a b :
  key_ok k -> lower a -> lower b ->
  exists k', replace_one (k ++ r) a b = Ok (k' ++ r) /\ key_ok k' /\ znth k' (a - 97) = b /\
    forall i, 0 <= i < 26 -> i <> a - 97 -> znth k i <> b -> znth k' i = znth k i.
Proof.
  intros Hk Ha Hb. unfold lower in Ha. assert (Hl := proj1 Hk).
  destruct (key_onto k b Hk Hb) as (j & Hj & Ej).
  exists (zswap k (a - 97) j). split; [|split; [|split]].
  - unfold replace_one, ch_a. rewrite arr_get_ok, znth_app_l by (rewrite ?zlen_app; unfold zlen in *; lia).
    rewrite take_app_length', drop_app_length' by (unfold zlen in Hl; lia).
    rewrite arr_set_ok by (rewrite zlen_app, zlen_replace_letter; pose proof (zlen_nonneg r); lia).
    unfold zset. rewrite insert_app_l by (pose proof (zlen_replace_letter b (znth k (a - 97)) k); unfold zlen in *; lia).
    fold (zset (replace_letter b (znth k (a - 97)) k) (a - 97) b).
    by rewrite (replace_letter_swaps k b (a - 97) j) by (done || lia).
  - eapply key_ok_Permutation; [|done]. apply zswap_perm; lia.
  - rewrite znth_zswap by lia. rewrite Z.eqb_refl.
    destruct (Z.eqb_spec j (a - 97)) as [<-|]; done.
  - intros i Hi Ni Nb. rewrite znth_zswap by lia.
    destruct (Z.eqb_spec j i) as [->|]; [done|]. destruct (Z.eqb_spec (a - 97) i); [lia|done].
Qed.

(** A trigram of letters, as places in the alphabet. *)
Definition letter_trigram (g : trigram) : Prop :=
  let '(x, y, z) := g in 0 <= x < 26 /\ 0 <= y < 26 /\ 0 <= z < 26.

Lemma replaceTrigramInKey_spec k r a0 a1 a2 x y z :
  key_ok k -> Forall lower [a0; a1; a2] -> letter_trigram (x, y, z) ->
  exists k', replaceTrigramInKey (k ++ r) [a0; a1; a2] (Some (x, y, z)) = Ok (k' ++ r) /\ key_ok k' /\
    (NoDup [a0; a1; a2] -> NoDup [x; y; z] ->
     znth k' (a0 - 97) = 97 + x /\ znth k' (a1 - 97) = 97 + y /\ znth k' (a2 - 97) = 97 + z).
Proof.
  rewrite !Forall_cons. intros Hk (H0 & H1 & H2 & _) (Hx & Hy & Hz).
  destruct (replace_one_spec k r a0 (97 + x)) as (k1 & E1 & Hk1 & V1 & _); [done|done|unfold lower; lia|].
  destruct (replace_one_spec k1 r a1 (97 + y)) as (k2 & E2 & Hk2 & V2 & F2); [done|done|unfold lower; lia|].
  destruct (replace_one_spec k2 r a2 (97 + z)) as (k3 & E3 & Hk3 & V3 & F3); [done|done|unfold lower; lia|].
  exists k3. split; [|split; [done|]].
  - unfold replaceTrigramInKey, ch_a. change (arr_get [a0; a1; a2] 0) with (Ok a0).
    change (arr_get [a0; a1; a2] 1) with (Ok a1). change (arr_get [a0; a1; a2] 2) with (Ok a2).
    cbn iota. rewrite E1. cbn iota. by rewrite E2.
  - intros Na Nx. rewrite !NoDup_cons in Na, Nx. unfold lower in *.
    assert (a0 <> a1 /\ a0 <> a2 /\ a1 <> a2) by set_solver.
    assert (x <> y /\ x <> z /\ y <> z) by set_solver. clear Na Nx.
    assert (znth k2 (a0 - 97) = 97 + x) as V1' by (rewrite F2; lia).
    split; [rewrite F3; lia|]. split; [rewrite F3; lia|done].
Qed.

(** ** The most frequent trigrams *)

(** The trigrams of a text: every three letters in a row. *)
Fixpoint windows (l : list Z) : list trigram :=
  match l with
  | a :: (b :: c :: _) as rest => (a - 97, b - 97, c - 97) :: windows rest
  | _ => []
  end.

Definition occurrences (g : trigram) (l : list trigram) : Z := zlen (base.filter (eq g) l).

Lemma windows_cons a b c rest : windows (a :: b :: c :: rest) = (a - 97, b - 97, c - 97) :: windows (b :: c :: rest).
Proof. done. Qed.

Lemma occurrences_cons g h l : occurrences g (h :: l) = (if decide (g = h) then 1 else 0) + occurrences g l.
Proof.
  unfold occurrences. rewrite filter_cons. case_decide; [rewrite zlen_cons|]; lia.
Qed.

Lemma occurrences_elem g l : 0 < occurrences g l <-> g ∈ l.
Proof.
  induction l as [|h l IH].
  - split; [by vm_compute|set_solver].
  - rewrite occurrences_cons, elem_of_cons, <- IH. pose proof (zlen_nonneg (base.filter (eq g) l)).
    unfold occurrences in *. case_decide; naive_solver lia.
Qed.

Lemma count_at_insert t g h v : count_at (<[h := v]> t) g = if decide (g = h) then v else count_at t g.
Proof.
  unfold count_at, counters in *. case_decide as E; [subst; by rewrite lookup_insert_eq|].
  by rewrite lookup_insert_ne.
Qed.

Lemma trigram_loop_count rest : forall a b t g,
  count_at t g = u64 (count_at t g) ->
  count_at (trigram_loop a b rest t) g = u64 (count_at t g + occurrences g (windows (a :: b :: rest))).
Proof.
  induction rest as [|c rest IH]; intros a b t g Ht; cbn [trigram_loop].
  - unfold occurrences. cbn. rewrite zlen_nil, Z.add_0_r. done.
  - rewrite windows_cons, occurrences_cons. unfold ch_a.
    rewrite IH; rewrite count_at_insert.
    + case_decide as E; [subst|by rewrite Z.add_0_l].
      unfold u64. rewrite Zplus_mod_idemp_l. f_equal. lia.
    + case_decide; [subst|done]. unfold u64. by rewrite Zmod_mod.
Qed.

Lemma occurrences_bound g l : 0 <= occurrences g (windows l) <= zlen l.
Proof.
  split; [apply zlen_nonneg|]. induction l as [|a l IH]; [by vm_compute|].
  rewrite zlen_cons. destruct l as [|b [|c l]]; [done..|].
  rewrite windows_cons, occurrences_cons. case_decide; lia.
Qed.

Lemma zlen_letters text : zlen (letters text) <= zlen text.
Proof. unfold letters, zlen. rewrite length_fmap. pose proof (length_filter (fun c => isalpha c = true) text). lia. Qed.

(** The counters of a text of fewer than [2 ^ 64] bytes are the numbers of occurrences. *)
Lemma fillTrigramFrequencies_spec text g :
  zlen text < 2 ^ 64 -> count_at (fillTrigramFrequencies text).1 g = occurrences g (windows (letters text)).
Proof.
  intros Hl. unfold fillTrigramFrequencies. pose proof (zlen_letters text) as Hz.
  destruct (letters text) as [|a [|b rest]]; [done..|]. cbn [fst].
  rewrite trigram_loop_count by done. change (count_at ∅ g) with 0. rewrite Z.add_0_l.
  apply u64_small. pose proof (occurrences_bound g (a :: b :: rest)). lia.
Qed.

Lemma windows_letters l g : Forall lower l -> g ∈ windows l -> letter_trigram g.
Proof.
  induction l as [|a l IH]; [set_solver|]. intros Hf.
  destruct l as [|b [|c l]]; [set_solver..|]. rewrite windows_cons, elem_of_cons.
  apply Forall_cons in Hf as [Ha Hf]. intros [->|Hg]; [|by apply IH].
  rewrite !Forall_cons in Hf. unfold lower in *. unfold letter_trigram. lia.
Qed.

Lemma letters_lower text : Forall lower (letters text).
Proof.
  unfold letters. apply Forall_fmap, Forall_forall. intros c [Hc _]%list_elem_of_filter.
  by apply tolower_letter.
Qed.

Lemma elem_all_trigrams g : g ∈ all_trigrams <-> letter_trigram g.
Proof.
  assert (Hs : forall i, In i (seqZ 0 26) <-> 0 <= i < 26)
    by (intros i; rewrite <- list_elem_of_In, elem_of_seqZ; lia).
  destruct g as [[x y] z]. unfold all_trigrams, letter_trigram. rewrite list_elem_of_In. split.
  - intros (i & Hi & (j & Hj & (k & [= -> -> ->] & Hk)%in_map_iff)%in_flat_map)%in_flat_map.
    apply Hs in Hi, Hj, Hk. done.
  - intros (Hx & Hy & Hz). apply in_flat_map. exists x. split; [by apply Hs|].
    apply in_flat_map. exists y. split; [by apply Hs|]. apply in_map_iff. exists z. by rewrite Hs.
Qed.

(** The loop keeps the first three of the trigrams that occur, ranked by their counters;
    what follows them is not written. *)
Section Ranking.
Context (t : counters).

Fixpoint rank (g : trigram) (l : list trigram) : list trigram :=
  match l with
  | [] => [g]
  | h :: l' => if count_at t g >? count_at t h then g :: l else h :: rank g l'
  end.

Fixpoint best_of (n : nat) (l : list trigram) : list (Z * option trigram) :=
  match n, l with
  | O, _ => []
  | S n, [] => (0, None) :: best_of n []
  | S n, g :: l => (count_at t g, Some g) :: best_of n l
  end.

Definition occurring (g : trigram) : Prop := 0 < count_at t g.

Lemma removelast_best_of n : forall l, removelast (best_of (S n) l) = best_of n l.
Proof.
  induction n as [|n IH]; intros l; [by destruct l|].
  assert (Hc : forall x, removelast (x :: best_of (S n) (tail l)) = x :: removelast (best_of (S n) (tail l)))
    by (intros x; by destruct (tail l)).
  destruct l as [|g l]; [cbn [best_of tail] in *|change (best_of (S (S n)) (g :: l)) with ((count_at t g, Some g) :: best_of (S n) l)].
  - rewrite Hc. f_equal. apply (IH []).
  - cbn [tail] in Hc. rewrite Hc, IH. done.
Qed.

Lemma place_rank g n : forall l, occurring g -> Forall occurring l ->
  place (count_at t g) g (best_of n l) = best_of n (rank g l).
Proof.
  unfold occurring. induction n as [|n IH]; intros l Hg Hl; [done|]. destruct l as [|h l]; cbn [best_of place rank].
  - rewrite Z.gtb_ltb. destruct (Z.ltb_spec 0 (count_at t g)); [|lia].
    f_equal. apply (removelast_best_of n []).
  - apply Forall_cons in Hl as [Hh Hl]. destruct (count_at t g >? count_at t h) eqn:E.
    + f_equal. apply (removelast_best_of n (h :: l)).
    + f_equal. by apply IH.
Qed.

Lemma place_absent g n l : count_at t g = 0 -> Forall occurring l -> place (count_at t g) g (best_of n l) = best_of n l.
Proof.
  unfold occurring. intros Hg. rewrite Hg. revert l. induction n as [|n IH]; intros l Hl; [done|].
  destruct l as [|h l]; cbn [best_of place].
  - f_equal. by apply IH.
  - apply Forall_cons in Hl as [Hh Hl]. rewrite Z.gtb_ltb. destruct (Z.ltb_spec (count_at t h) 0); [lia|].
    f_equal. by apply IH.
Qed.

Lemma rank_perm g l : rank g l ≡ₚ g :: l.
Proof. induction l as [|h l IH]; cbn; [done|]. destruct (_ >? _); [done|]. rewrite IH. apply perm_swap. Qed.

Lemma rank_sorted g l :
  StronglySorted (fun a b => count_at t b <= count_at t a) l ->
  StronglySorted (fun a b => count_at t b <= count_at t a) (rank g l).
Proof.
  induction 1 as [|h l Hs IH Hf]; cbn [rank]; [repeat constructor|].
  rewrite Z.gtb_ltb. destruct (Z.ltb_spec (count_at t h) (count_at t g)).
  - constructor; [by constructor|]. constructor; [lia|]. eapply Forall_impl; [done|]. cbn. lia.
  - constructor; [done|]. rewrite rank_perm. by constructor.
Qed.

(** The three cells hold the head of a descending list of all trigrams that occur. *)
Lemma getMostFrequentTrigrams_spec :
  (forall g, 0 <= count_at t g) ->
  exists l, getMostFrequentTrigrams t = (best_of 3 l).*2 /\ (forall g, g ∈ l <-> g ∈ all_trigrams /\ occurring g) /\
    StronglySorted (fun a b => count_at t b <= count_at t a) l.
Proof.
  intros Hn. unfold getMostFrequentTrigrams.
  cut (forall gs l, Forall occurring l -> StronglySorted (fun a b => count_at t b <= count_at t a) l ->
    exists l', foldl (fun best g => place (count_at t g) g best) (best_of 3 l) gs = best_of 3 l' /\
      (forall g, g ∈ l' <-> g ∈ l \/ g ∈ gs /\ occurring g) /\
      StronglySorted (fun a b => count_at t b <= count_at t a) l').
  { intros H. destruct (H all_trigrams []) as (l & E & He & Hs); [constructor|constructor|].
    exists l. split; [exact (f_equal (fmap snd) E)|]. split; [|done]. intros g. rewrite He, elem_of_nil. tauto. }
  induction gs as [|g gs IH]; intros l Hl Hs; cbn [foldl].
  - exists l. split; [done|]. split; [set_solver|done].
  - destruct (decide (count_at t g = 0)) as [E|E].
    + rewrite place_absent by done. destruct (IH l Hl Hs) as (l' & -> & He & Hs').
      exists l'. split; [done|]. split; [|done]. intros h. rewrite He, elem_of_cons.
      unfold occurring. naive_solver lia.
    + assert (Hg : occurring g) by (unfold occurring; specialize (Hn g); lia).
      rewrite place_rank by done.
      destruct (IH (rank g l)) as (l' & -> & He & Hs'); [rewrite rank_perm; by constructor|by apply rank_sorted|].
      exists l'. split; [done|]. split; [|done]. intros h. rewrite He, rank_perm, !elem_of_cons. naive_solver.
Qed.
End Ranking.

Section Broken.
Context {Q : Qsort Z} (text garbage : list Z).

(** A text in which at least three different trigrams occur. *)
Definition enough_trigrams : Prop :=
  zlen text < 2 ^ 64 /\ (3 <= length (remove_dups (windows (letters text))))%nat.

Lemma mostFrequent_spec :
  enough_trigrams -> exists g0 g1 g2,
    getMostFrequentTrigrams (fillTrigramFrequencies text).1 = [Some g0; Some g1; Some g2] /\
    Forall (fun g => g ∈ windows (letters text)) [g0; g1; g2] /\
    forall g, occurrences g (windows (letters text)) <= occurrences g0 (windows (letters text)).
Proof.
  intros [Hz Hd]. set (ws := windows (letters text)) in *.
  assert (Hc : forall g, count_at (fillTrigramFrequencies text).1 g = occurrences g ws)
    by (intros g; by apply fillTrigramFrequencies_spec).
  destruct (getMostFrequentTrigrams_spec (fillTrigramFrequencies text).1) as (l & E & He & Hs).
  { intros g. rewrite Hc. apply zlen_nonneg. }
  assert (Hw : forall g, g ∈ l <-> g ∈ ws).
  { intros g. rewrite He. unfold occurring. rewrite Hc, occurrences_elem, elem_all_trigrams.
    split; [tauto|]. intros Hg. split; [|done]. by apply (windows_letters (letters text)); [apply letters_lower|]. }
  assert (Hl : (3 <= length l)%nat).
  { etransitivity; [apply Hd|]. apply submseteq_length, NoDup_submseteq; [apply NoDup_remove_dups|].
    intros g. by rewrite elem_of_remove_dups, Hw. }
  destruct l as [|g0 [|g1 [|g2 l]]]; cbn in Hl; try lia. exists g0, g1, g2. split; [exact E|]. split.
  - apply Forall_forall. intros g Hg. apply Hw.
    change (g0 :: g1 :: g2 :: l) with ([g0; g1; g2] ++ l). apply elem_of_app. by left.
  - intros g. destruct (decide (g ∈ ws)) as [Hg|Hg].
    + apply Hw, elem_of_cons in Hg as [->|Hg]; [done|]. apply StronglySorted_inv in Hs as [_ Hf].
      rewrite Forall_forall in Hf. specialize (Hf g Hg). by rewrite !Hc in Hf.
    + rewrite <- occurrences_elem in Hg. pose proof (zlen_nonneg (base.filter (eq g0) ws)).
      unfold occurrences in *. lia.
Qed.

Lemma replace_known k r (ga : list Z) g :
  key_ok k -> (exists a0 a1 a2, ga = [a0; a1; a2] /\ Forall lower ga) -> g ∈ windows (letters text) ->
  exists k', replaceTrigramInKey (k ++ r) ga (Some g) = Ok (k' ++ r) /\ key_ok k'.
Proof.
  intros Hk (a0 & a1 & a2 & -> & Ha) Hg. apply windows_letters in Hg; [|apply letters_lower].
  destruct g as [[x y] z]. destruct (replaceTrigramInKey_spec k r a0 a1 a2 x y z) as (k' & E & Hk' & _); eauto.
Qed.

Lemma c_string_key k r : key_ok k -> c_string (k ++ 0 :: r) = k.
Proof.
  intros (_ & Hf & _). induction Hf as [|c k Hc Hk IH]; [done|]. cbn. unfold lower in Hc.
  destruct (Z.eqb_spec c 0); [lia|]. by rewrite IH.
Qed.

Lemma rewound_spec : enough_trigrams -> (fillTrigramFrequencies text).2 = true.
Proof.
  unfold enough_trigrams, fillTrigramFrequencies. intros [_ H].
  destruct (letters text) as [|a [|b l]]; [cbn in H; lia..|done].
Qed.

Lemma hack_spec :
  27 <= zlen garbage -> enough_trigrams ->
  exists k r x y z, hack text garbage = Ok (k ++ 0 :: r, true) /\ key_ok k /\
    (x, y, z) ∈ windows (letters text) /\
    (forall g, occurrences g (windows (letters text)) <= occurrences (x, y, z) (windows (letters text))) /\
    (NoDup [x; y; z] -> znth k 19 = 97 + x /\ znth k 7 = 97 + y /\ znth k 4 = 97 + z).
Proof.
  intros Hg Ht. destruct (mostFrequent_spec Ht) as (g0 & g1 & g2 & Hm & Hw & Hmax).
  rewrite !Forall_cons in Hw. destruct Hw as (H0 & H1 & H2 & _).
  destruct (monogram_spec text garbage Hg) as (k & r & Em & Hk).
  unfold hack. rewrite Em. cbn iota. unfold trigramFrequencyAnalysis.
  destruct (fillTrigramFrequencies text) as [t rw] eqn:Ef. cbn [fst] in Hm.
  pose proof (rewound_spec Ht) as Hr. rewrite Ef in Hr. cbn in Hr. subst rw. rewrite Hm.
  change (arr_get [Some g0; Some g1; Some g2] 2) with (Ok (Some g2)).
  change (arr_get [Some g0; Some g1; Some g2] 1) with (Ok (Some g1)).
  change (arr_get [Some g0; Some g1; Some g2] 0) with (Ok (Some g0)). cbn iota.
  destruct (replace_known k (0 :: r) (znth englishFrequentTrigrams 2) g2) as (k1 & -> & Hk1);
    [done|by repeat econstructor|done|]. cbn iota.
  destruct (replace_known k1 (0 :: r) (znth englishFrequentTrigrams 1) g1) as (k2 & -> & Hk2);
    [done|by repeat econstructor|done|]. cbn iota.
  destruct g0 as [[x y] z].
  destruct (replaceTrigramInKey_spec k2 (0 :: r) 116 104 101 x y z) as (k3 & E3 & Hk3 & V);
    [done|by repeat constructor|by apply (windows_letters (letters text)); [apply letters_lower|]|].
  assert (Hthe : znth englishFrequentTrigrams 0 = [116; 104; 101]) by done. rewrite Hthe.
  exists k3, r, x, y, z. split; [unfold trigram in *; by rewrite E3|]. split; [done|]. split; [done|]. split; [done|].
  apply V. apply (bool_decide_unpack _). by vm_compute.
Qed.
End Broken.

(** Breaking a text with at least three different trigrams, into an array with room
    for the final 0, gives a key that [validateKey] accepts, with any [qsort]: the file
    is set back to its start, so that it can be decoded with the key.  When the letters
    of the most frequent trigram of the text differ, the key encodes [the] as it. *)
Theorem hack_finds_key (Q : Qsort Z) (text garbage : list Z) :
  27 <= zlen garbage -> enough_trigrams text ->
  exists k r, hack text garbage = Ok (k ++ 0 :: r, true) /\ c_string (k ++ 0 :: r) = k /\
    validateKey k = Ok true /\
    exists x y z, (x, y, z) ∈ windows (letters text) /\
      (forall g, occurrences g (windows (letters text)) <= occurrences (x, y, z) (windows (letters text))) /\
      (NoDup [x; y; z] -> encode (chars "the") k = Ok (SUCCESS, [97 + x; 97 + y; 97 + z])).
Proof.
  intros Hg Ht. destruct (hack_spec text garbage Hg Ht) as (k & r & x & y & z & E & Hk & Hw & Hm & V).
  exists k, r. split; [done|]. split; [by apply c_string_key|]. split; [by apply validateKey_spec|].
  exists x, y, z. split; [done|]. split; [done|]. intros Hn. apply V in Hn as (V1 & V2 & V3).
  rewrite encode_spec; [|done|by repeat constructor]. do 2 f_equal.
  change (chars "the") with [116; 104; 101]. cbn [fmap list_fmap].
  by rewrite <- V1, <- V2, <- V3.
Qed.

Lemma hack_finds_key_witness :
  exists k r, @hack (InsertionQsort Z) (chars "Abcab") (replicate 27 7) = Ok (k ++ 0 :: r, true) /\
    validateKey k = Ok true.
Proof.
  destruct (hack_finds_key (InsertionQsort Z) (chars "Abcab") (replicate 27 7))
    as (k & r & E & _ & Hk & _); [by vm_compute|split; by vm_compute|].
  exists k, r. exact (conj E Hk).
Defined.

Lemma hack_short_array `{Q : Qsort Z} text a : zlen a = 26 -> hack text a = Err Undefined.
Proof.
  intros Hl. unfold hack, monogramFrequencyAnalysis, ALPHABET_SIZE.
  destruct (fillFrequencyTable_ok text (replicate 26 0)) as (ft & ->); [done|]. cbn iota.
  assert (Hf : key_ok (qsort (letterCmp ft) alphabet))
    by (eapply key_ok_Permutation; [apply qsort_perm|apply alphabet_ok]).
  destruct (hack_key_loop_spec _ Hf 26 0 a) as (key & -> & Hz & _); [lia|lia|lia| |].
  { intros j Hj. lia. }
  cbn iota. unfold arr_set. by rewrite Hz, Hl.
Qed.

Lemma makeLower_ok key :
  Forall (fun c => 0 <= c) key -> exists low, makeLower key = Ok low /\ Forall (fun c => 0 <= c) low.
Proof.
  induction 1 as [|c key Hc Hk (low & El & Hl)]; [by exists []|]. exists (tolower c :: low). cbn [makeLower].
  rewrite ctype_ok by done. cbn iota. rewrite El. split; [done|]. constructor; [|done].
  unfold tolower. destruct (isupper c); lia.
Qed.

Lemma validate_letters_total p : Forall (fun c => 0 <= c) p -> exists b, validate_letters p = Ok b.
Proof.
  induction 1 as [|c p Hc Hp IH]; [by eexists|]. cbn [validate_letters]. rewrite ctype_ok by done. cbn iota.
  destruct (_ || _); [by eexists|]. by destruct (duplicate c p); [eexists|].
Qed.

Lemma encode_rejects key text :
  Forall (fun c => 0 <= c) key -> ~ key_ok key -> encode text key = Ok (INVALID_ARGUMENTS, []).
Proof.
  intros Hf Hk. rewrite <- validateKey_spec in Hk. unfold encode, validateKey in *.
  destruct (negb (zlen key =? ALPHABET_SIZE)); [done|].
  destruct (validate_letters_total key Hf) as [b E]. rewrite E in *. by destruct b.
Qed.

(** C40.  Which runs of the program are defined: breaking never is, since the final 0 of
    the key is written behind an array of 26 characters; encoding with a key of letters
    and all names is, for an ASCII text, and writes the encoded text when the key in
    lower case is a permutation of the alphabet and an empty file otherwise. *)
Theorem cipher_program (Q : Qsort Z) (garbage text inp key out : list Z) :
  26 <= zlen garbage -> Forall (fun c => 0 <= c < 128) text -> Forall (fun c => 0 <= c) key ->
  main garbage [inp; chars "hack"; out] (Some text) true = Err Undefined /\
  (exists low, makeLower key = Ok low /\
   (key_ok low -> exists enc,
      encode text low = Ok (SUCCESS, enc) /\
      main garbage [inp; chars "encode"; key; out] (Some text) true = Ok (SUCCESS, enc) /\
      main garbage [inp; chars "decode"; key; out] (Some enc) true = Ok (SUCCESS, text)) /\
   (~ key_ok low -> main garbage [inp; chars "encode"; key; out] (Some text) true = Ok (SUCCESS, []))).
Proof.
  intros Hg Ht Hk. split.
  - unfold main, parseCmdArguments. change (getMode (chars "hack")) with HACK. cbn [negb].
    by rewrite hack_short_array by (by apply (zlen_take 26)).
  - destruct (makeLower_ok key Hk) as (low & El & Hlow). exists low. split; [done|].
    unfold main, parseCmdArguments. change (getMode (chars "encode")) with ENCODE.
    change (getMode (chars "decode")) with DECODE. rewrite El. cbn [negb]. split.
    + intros Hl. eexists. split; [by apply encode_spec|]. by rewrite encode_spec, decode_encode.
    + intros Hl. by rewrite encode_rejects.
Qed.

Lemma cipher_program_witness :
  let garbage := replicate 26 7 in
  @main (InsertionQsort Z) garbage [chars "in"; chars "hack"; chars "out"] (Some (chars "the then there")) true = Err Undefined /\
  @main (InsertionQsort Z) garbage [chars "in"; chars "encode"; chars "ab"; chars "out"] (Some (chars "the then there")) true = Ok (SUCCESS, []).
Proof.
  intros garbage.
  destruct (cipher_program (InsertionQsort Z) garbage (chars "the then there") (chars "in") (chars "ab") (chars "out"))
    as (Hh & low & El & _ & Hr); [by vm_compute|repeat constructor; by vm_compute|repeat constructor; by vm_compute|].
  split; [done|]. apply Hr. vm_compute in El. injection El as <-. by intros [? _].
Defined.
