(* ===== verification/Sockets.v ===== *)
(** * Stream sockets

    What the network programs (Networks/2-tcp_file_transfer, Networks/5-socks_proxy) use of
    [recv] and [send].  The other side and the network are data of the socket: what arrives
    is a list of segments and errors, and one call of [recv] takes a part of the first
    segment or the first error; behind the end of the list the other side has closed the
    connection and [recv] returns 0.  A call of [send] passes on at least one byte; how
    many, or the error it fails with, comes from a second list, and behind its end
    everything is sent at once. *)
From S2P Require Import Prelude.

Inductive errno := EINTR | EAGAIN | EOTHER.

#[export] Instance errno_eq_dec : EqDecision errno.
Proof. solve_decision. Defined.

Record sock := mkSock {
  incoming : list (list Z + errno);
  sends : list (Z + errno);
  outgoing : list Z
}.

Definition recv (s : sock) (n : Z) : (list Z + errno) * sock :=
  match incoming s with
  | [] => (inl [], s)
  | inr e :: rest => (inr e, mkSock rest (sends s) (outgoing s))
  | inl seg :: rest =>
      (inl (take (Z.to_nat n) seg),
       mkSock (match drop (Z.to_nat n) seg with [] => rest | others => inl others :: rest end) (sends s) (outgoing s))
  end.

Definition send (s : sock) (p : list Z) : (Z + errno) * sock :=
  match sends s with
  | [] => (inl (zlen p), mkSock (incoming s) [] (outgoing s ++ p))
  | inr e :: rest => (inr e, mkSock (incoming s) rest (outgoing s))
  | inl n :: rest =>
      let n := Z.max 1 (Z.min n (zlen p)) in
      (inl n, mkSock (incoming s) rest (outgoing s ++ take (Z.to_nat n) p))
  end.

(** ** What is still to come *)

Definition event_bytes (e : list Z + errno) : list Z := match e with inl p => p | inr _ => [] end.

(** All bytes that arrive, and a bound on the calls that take something. *)
Definition arriving (s : sock) : list Z := concat (event_bytes <$> incoming s).
Definition budget (s : sock) : nat := sum_list_with (fun e => S (length (event_bytes e))) (incoming s).

(** A segment is not empty: an empty one would be the end of the stream. *)
Definition bytes (p : list Z) : Prop := Forall (fun b => 0 <= b < 256) p.
Definition segment_ok (p : list Z) : Prop := p <> [] /\ bytes p.
Definition event_ok (e : list Z + errno) : Prop := match e with inl p => segment_ok p | inr _ => True end.
Definition is_segment (e : list Z + errno) : Prop := match e with inl p => segment_ok p | inr _ => False end.

Definition sock_ok (s : sock) : Prop := Forall event_ok (incoming s).

(** Nothing but data arrives. *)
Definition undisturbed (s : sock) : Prop := Forall is_segment (incoming s).

(** No call of [send] fails. *)
Definition sending (s : sock) : Prop := Forall (fun r => exists n, r = inl n) (sends s).

Lemma undisturbed_ok s : undisturbed s -> sock_ok s.
Proof. unfold undisturbed, sock_ok. intros H. eapply Forall_impl; [exact H|]. by intros [p|e]. Qed.

(** Receiving leaves the sending side alone, takes the bytes off the stream, and uses up
    the budget unless the stream has ended. *)
Record received (s s' : sock) (p : list Z) : Prop := {
  rc_sends : sends s' = sends s;
  rc_outgoing : outgoing s' = outgoing s;
  rc_arriving : arriving s = p ++ arriving s';
  rc_budget : (budget s' + length p <= budget s)%nat;
  rc_ok : sock_ok s -> sock_ok s';
  rc_undisturbed : undisturbed s -> undisturbed s'
}.

Lemma received_refl s : received s s [].
Proof. split; [done|done|done|cbn; lia|done|done]. Qed.

Lemma received_trans s1 s2 s3 p q : received s1 s2 p -> received s2 s3 q -> received s1 s3 (p ++ q).
Proof.
  intros [A1 A2 A3 A4 A5 A6] [B1 B2 B3 B4 B5 B6]. split; [congruence|congruence| |rewrite length_app; lia|auto|auto].
  by rewrite A3, B3, app_assoc.
Qed.

Lemma arriving_bytes s : sock_ok s -> bytes (arriving s).
Proof.
  unfold sock_ok, arriving, bytes. intros H. apply Forall_concat, Forall_fmap.
  eapply Forall_impl; [exact H|]. intros [p|e]; [by intros [_ Hp]|constructor].
Qed.

Lemma received_sending s s' p : received s s' p -> sending s -> sending s'.
Proof. intros [H _ _ _ _ _]. unfold sending. by rewrite H. Qed.

Lemma segment_ok_drop n p x q : drop n p = x :: q -> segment_ok p -> segment_ok (x :: q).
Proof. intros E [_ Hp]. split; [done|]. rewrite <- E. by apply Forall_drop. Qed.

Lemma recv_spec s n r s' :
  0 < n -> recv s n = (r, s') ->
  received s s' (event_bytes r) /\ zlen (event_bytes r) <= n /\
  (incoming s = [] /\ r = inl [] /\ s' = s \/ (budget s' < budget s)%nat).
Proof.
  destruct s as [inc snd out]. unfold recv. cbn. intros Hn.
  destruct inc as [|[seg|e] rest].
  - intros [= <- <-]. split; [apply received_refl|]. split; [unfold zlen; cbn; lia|by left].
  - intros [= <- <-]. cbn. pose proof (length_drop seg (Z.to_nat n)) as Hd. split; [|split].
    + split; unfold arriving, sock_ok, undisturbed; cbn; [done|done| | | |].
      * rewrite <- (take_drop (Z.to_nat n) seg) at 1. rewrite <- app_assoc. f_equal.
        by destruct (drop (Z.to_nat n) seg).
      * rewrite length_take. unfold budget. destruct (drop (Z.to_nat n) seg) as [|x d]; cbn in *; lia.
      * intros [Hs H]%Forall_cons. destruct (drop (Z.to_nat n) seg) eqn:E; [done|].
        constructor; [by eapply segment_ok_drop|done].
      * intros [Hs H]%Forall_cons. destruct (drop (Z.to_nat n) seg) eqn:E; [done|].
        constructor; [by eapply segment_ok_drop|done].
    + unfold zlen. rewrite length_take. lia.
    + right. unfold budget. destruct (drop (Z.to_nat n) seg) as [|x d]; cbn in *; lia.
  - intros [= <- <-]. cbn. split; [|split; [unfold zlen; cbn; lia|right; unfold budget; cbn; lia]].
    split; unfold arriving, sock_ok, undisturbed, budget; cbn; [done..|lia| |]; by intros [_ H]%Forall_cons.
Qed.

(** On a stream that is not disturbed [recv] gets something as long as there is something. *)
Lemma recv_undisturbed s n :
  0 < n -> undisturbed s -> arriving s <> [] ->
  exists p s', recv s n = (inl p, s') /\ p <> [].
Proof.
  destruct s as [inc snd out]. unfold recv, undisturbed, arriving. cbn. intros Hn Hu Ha.
  destruct inc as [|[seg|e] rest]; [done| |by apply Forall_cons in Hu as [[] _]].
  apply Forall_cons in Hu as [[Hs _] _]. do 2 eexists. split; [done|].
  destruct seg; [done|]. destruct (Z.to_nat n) eqn:E; [lia|done].
Qed.

Lemma recv_closed s n : incoming s = [] -> recv s n = (inl [], s).
Proof. unfold recv. by intros ->. Qed.

(** ** Sending *)

Record sent (s s' : sock) (p : list Z) : Prop := {
  se_incoming : incoming s' = incoming s;
  se_outgoing : outgoing s' = outgoing s ++ p;
  se_sending : sending s -> sending s'
}.

Lemma sent_refl s : sent s s [].
Proof. split; [done|by rewrite app_nil_r|done]. Qed.

Lemma sent_trans s1 s2 s3 p q : sent s1 s2 p -> sent s2 s3 q -> sent s1 s3 (p ++ q).
Proof.
  intros [A1 A2 A3] [B1 B2 B3]. split; [congruence| |auto]. by rewrite B2, A2, app_assoc.
Qed.

Lemma send_spec s p r s' :
  p <> [] -> send s p = (r, s') ->
  match r with
  | inl n => 1 <= n <= zlen p /\ sent s s' (take (Z.to_nat n) p)
  | inr _ => sent s s' [] /\ ~ sending s
  end.
Proof.
  intros Hp. assert (1 <= zlen p) by (destruct p; [done|]; rewrite zlen_cons; pose proof (zlen_nonneg p); lia).
  destruct s as [inc snd out]. unfold send, sending. cbn. destruct snd as [|[n|e] rest].
  - intros [= <- <-]. split; [lia|]. rewrite take_ge by (unfold zlen; lia). by split.
  - intros [= <- <-]. split; [lia|]. split; [done..|]. by intros [_ H']%Forall_cons.
  - intros [= <- <-]. split.
    + split; [done|cbn; by rewrite app_nil_r|]. by intros [[? ?] _]%Forall_cons.
    + by intros [[? ?] _]%Forall_cons.
Qed.
