(* ===== verification/FileTransfer.v ===== *)
(** * Networks/2-tcp_file_transfer

    The client [send_file.c] that sends a file, the server's thread for one client
    ([client_thread.c]), the list of its clients, the loop that accepts them
    ([receiver_server.c]) and the transmission of buffers ([common.c]).  Sockets are those
    of [Sockets]; the machine is little-endian with 8 byte words; the clock of the server
    is a function from the number of the reading to the time; a file is the list of its
    bytes, and the file system a map from path names; the stream through which a file is
    written may hold bytes back until it is closed, and the disk may refuse them.  Log messages, progress bars and the
    reported speeds are left out. *)
From stdpp Require Import gmap.
From S2P Require Import Prelude Sockets.
#[local] Set Warnings "-clear-no-such-hyp".

(** ** common.c, common.h, error.h *)

Inductive Result_t := OK | ERROR | CLIENTS_LIMIT_REACHED | TIMED_OUT | INTERRUPTED.

#[export] Instance Result_t_eq_dec : EqDecision Result_t.
Proof. solve_decision. Defined.

Definition BEGIN_FILE_TRANSFER_MAGIC : Z := 0x1fab1fab.
Definition FILE_ACCEPTED_MAGIC : Z := 0x3fbc3fbc.
Definition FILE_CHUNK_SIZE : Z := 4 * 1024.

(** The result and the bytes received so far. *)
Fixpoint receive_buffer_loop (fuel : nat) (s : sock) (buf : list Z) (size : Z) : res (Result_t * list Z * sock) :=
  if zlen buf <? size then
    match fuel with
    | O => Err OutOfFuel
    | S fuel =>
        match recv s (size - zlen buf) with
        | (inr EINTR, s) => Ok (INTERRUPTED, buf, s)
        | (inr EAGAIN, s) => Ok (TIMED_OUT, buf, s)
        | (inr EOTHER, s) => Ok (ERROR, buf, s)
        | (inl p, s) => receive_buffer_loop fuel s (buf ++ p) size
        end
    end
  else Ok (OK, buf, s).

Definition receive_buffer (fuel : nat) (s : sock) (size : Z) : res (Result_t * list Z * sock) :=
  receive_buffer_loop fuel s [] size.

(** [buf] is what is left to send; each turn of the loop sends a byte. *)
Fixpoint send_buffer_loop (fuel : nat) (s : sock) (buf : list Z) : res (Result_t * sock) :=
  if 0 <? zlen buf then
    match fuel with
    | O => Err OutOfFuel
    | S fuel =>
        match send s buf with
        | (inr EINTR, s) => Ok (INTERRUPTED, s)
        | (inr EAGAIN, s) => Ok (TIMED_OUT, s)
        | (inr EOTHER, s) => Ok (ERROR, s)
        | (inl n, s) => send_buffer_loop fuel s (drop (Z.to_nat n) buf)
        end
    end
  else Ok (OK, s).

Definition send_buffer (s : sock) (buf : list Z) : res (Result_t * sock) := send_buffer_loop (length buf) s buf.

(** The bytes of an unsigned 64-bit number, and of the two messages. *)
Definition word (z : Z) : list Z := Z_to_little_endian 8 8 z.
Definition unword (bs : list Z) : Z := little_endian_to_Z 8 bs.

Record BeginFileTransferDTO_t := mkBegin { magic : Z; filename_size : Z; file_size : Z }.

Definition begin_bytes (d : BeginFileTransferDTO_t) : list Z := word (magic d) ++ word (filename_size d) ++ word (file_size d).
Definition begin_of (bs : list Z) : BeginFileTransferDTO_t :=
  mkBegin (unword (take 8 bs)) (unword (take 8 (drop 8 bs))) (unword (take 8 (drop 16 bs))).

(** ** send_file.c *)

Definition ch_slash : Z := 47.

(** The part behind the last slash. *)
Fixpoint basename (path : list Z) : list Z :=
  match path with
  | [] => []
  | c :: rest => if existsb (Z.eqb ch_slash) path then basename rest else path
  end.

Inductive sending_result := Passed | Cancelled | Failed.

(** The inner loop: one chunk. *)
Fixpoint send_chunk_loop (fuel : nat) (s : sock) (chunk : list Z) : res (sending_result * sock) :=
  if 0 <? zlen chunk then
    match fuel with
    | O => Err OutOfFuel
    | S fuel =>
        match send s chunk with
        | (inr EINTR, s) => Ok (Cancelled, s)
        | (inr _, s) => Ok (Failed, s)
        | (inl n, s) => send_chunk_loop fuel s (drop (Z.to_nat n) chunk)
        end
    end
  else Ok (Passed, s).

(** The outer loop: [file] is what [fread] has not read yet. *)
Fixpoint send_chunks_loop (fuel : nat) (s : sock) (file : list Z) (total_sent_size size : Z) : res (sending_result * sock) :=
  if total_sent_size <? size then
    match fuel with
    | O => Err OutOfFuel
    | S fuel =>
        let chunk := take (Z.to_nat FILE_CHUNK_SIZE) file in
        let* '(r, s) := send_chunk_loop (length chunk) s chunk in
        match r with
        | Passed => send_chunks_loop fuel s (drop (Z.to_nat FILE_CHUNK_SIZE) file) (u64 (total_sent_size + zlen chunk)) size
        | _ => Ok (r, s)
        end
    end
  else Ok (Passed, s).

(** [file] is the contents when the file can be opened, [timer] whether the interval timer
    could be set up, [fuel] bounds the calls that wait for the answer. *)
Definition send_file (fuel : nat) (s : sock) (filepath : list Z) (file : option (list Z)) (timer : bool) : res (Result_t * sock) :=
  match file with
  | None => Ok (ERROR, s)
  | Some file =>
      let filename := basename filepath in
      let begin_dto := mkBegin BEGIN_FILE_TRANSFER_MAGIC (zlen filename + 1) (zlen file) in
      let* '(status, s) := send_buffer s (begin_bytes begin_dto) in
      if negb (bool_decide (status = OK)) then Ok (ERROR, s)
      else
        let* '(status, s) := send_buffer s (filename ++ [0]) in
        if negb (bool_decide (status = OK)) then Ok (ERROR, s)
        else if negb timer then Ok (ERROR, s)
        else
          let* '(r, s) := send_chunks_loop (length file) s file 0 (file_size begin_dto) in
          match r with
          | Cancelled => Ok (OK, s)
          | Failed => Ok (ERROR, s)
          | Passed =>
              let* '(status, accepted, s) := receive_buffer fuel s 8 in
              if negb (bool_decide (status = OK)) || negb (unword accepted =? FILE_ACCEPTED_MAGIC) then Ok (ERROR, s)
              else Ok (OK, s)
          end
  end.

(** ** timer.c *)

Record timespec := mkTime { tv_sec : Z; tv_nsec : Z }.

Definition msecs_elapsed (s e : timespec) : res Z :=
  let* sec := s64 (tv_sec e - tv_sec s) in
  let* nsec := s64 (tv_nsec e - tv_nsec s) in
  let* '(sec, nsec) := (if nsec <? 0 then let* sec := s64 (sec - 1) in Ok (sec, nsec + 1000 * 1000 * 1000) else Ok (sec, nsec)) in
  check! assert ((0 <=? nsec) && (nsec <? 1000 * 1000 * 1000)) in
  let* msec := s64 (sec * 1000) in
  s64 (msec + Z.quot nsec (1000 * 1000)).

(** ** client_thread.c: the list of clients *)

Definition MAX_ALLOWED_CLIENTS : Z := 16.
Definition SPD_UPDATE_MSECS : Z := 100.

(** A client is its address; [count] cells of the array are in use. *)
Record ActiveClients_t := mkClients { clist : list Z; count : Z }.

Definition clients_list_init (garbage : list Z) : ActiveClients_t := mkClients garbage 0.

Definition add_to_clients_list (clients : ActiveClients_t) (client : Z) : res ActiveClients_t :=
  let* l := arr_set (clist clients) (count clients) client in
  Ok (mkClients l (count clients + 1)).

(** The search for the client; the array bounds the turns. *)
Fixpoint find_client (fuel : nat) (l : list Z) (client pos : Z) : res Z :=
  let* x := arr_get l pos in
  if negb (x =? client) then
    match fuel with
    | O => Err Undefined
    | S fuel => find_client fuel l client (pos + 1)
    end
  else Ok pos.

Definition remove_from_clients_list (clients : ActiveClients_t) (client : Z) : res ActiveClients_t :=
  let* pos := find_client (length (clist clients)) (clist clients) client 0 in
  let* l := memmove (clist clients) pos (clist clients) (pos + 1) (u64 (count clients - pos - 1)) in
  Ok (mkClients l (u64 (count clients - 1))).

(** [fresh] is the address [malloc] returns, [created] whether the thread could be
    created. *)
Definition create_client_thread (clients : ActiveClients_t) (fresh : Z) (created : bool) : res (Result_t * ActiveClients_t) :=
  if count clients =? MAX_ALLOWED_CLIENTS then Ok (CLIENTS_LIMIT_REACHED, clients)
  else if negb created then Ok (ERROR, clients)
  else let* clients := add_to_clients_list clients fresh in Ok (OK, clients).

(** ** client_thread.c: the thread of a client *)

(** The stream of the file being written: the bytes it holds back; whether each call of
    [fwrite] empties it (every call, when the list is used up); and the answers of
    [write]: [None] when everything is stored, as when the list is used up, or the number
    of bytes stored before the call fails. *)
Record stdio := mkStdio { stream : list Z; empties : list bool; answers : list (option Z) }.

Record server := mkServer {
  ssock : sock;
  ticks : nat;
  writes : stdio;
  files : gmap (list Z) (list Z);
  clients : ActiveClients_t
}.

Definition set_sock (w : server) (s : sock) : server := mkServer s (ticks w) (writes w) (files w) (clients w).
Definition set_files (w : server) (f : gmap (list Z) (list Z)) : server := mkServer (ssock w) (ticks w) (writes w) f (clients w).
Definition set_clients (w : server) (c : ActiveClients_t) : server := mkServer (ssock w) (ticks w) (writes w) (files w) c.

Section ClientThread.
(** The time of each reading of the clock, the memory a request may have, the paths that
    can be created, and the directory. *)
Context (clock : nat -> timespec) (available : Z -> bool) (creatable : list Z -> bool) (storage_dir : list Z).

Definition get_mono_time (w : server) : timespec * server :=
  (clock (ticks w), mkServer (ssock w) (S (ticks w)) (writes w) (files w) (clients w)).

Definition receive_begin_dto (fuel : nat) (w : server) : res (Result_t * BeginFileTransferDTO_t * server) :=
  let* '(status, bs, s) := receive_buffer fuel (ssock w) 24 in
  let w := set_sock w s in
  let dto := begin_of bs in
  if negb (bool_decide (status = OK)) || negb (magic dto =? BEGIN_FILE_TRANSFER_MAGIC) then Ok (ERROR, dto, w)
  else Ok (OK, dto, w).

(** The characters in front of the final 0; without one the reading runs out of the
    buffer. *)
Fixpoint string_at (buf : list Z) : res (list Z) :=
  match buf with
  | [] => Err Undefined
  | c :: buf => if c =? 0 then Ok [] else let* rest := string_at buf in Ok (c :: rest)
  end.

Definition receive_filename (fuel : nat) (w : server) (size : Z) : res (Result_t * list Z * server) :=
  let* '(status, bs, s) := receive_buffer fuel (ssock w) size in
  let w := set_sock w s in
  if negb (bool_decide (status = OK)) then Ok (ERROR, [], w)
  else let* filename := string_at bs in Ok (OK, filename, w).

(** The loop over one chunk: [since] counts the bytes since the speed was computed, at the
    time [last]. *)
Fixpoint receive_chunk_loop (fuel : nat) (w : server) (chunk : list Z) (chunk_sz since : Z) (last : timespec) :
    res (Result_t * list Z * Z * timespec * server) :=
  if zlen chunk <? chunk_sz then
    match fuel with
    | O => Err OutOfFuel
    | S fuel =>
        let '(r, s) := recv (ssock w) (chunk_sz - zlen chunk) in
        let w := set_sock w s in
        match r with
        | inr EINTR => Ok (INTERRUPTED, chunk, since, last, w)
        | inr EOTHER => Ok (ERROR, chunk, since, last, w)
        | _ =>
            let chunk := chunk ++ event_bytes r in
            let since := u64 (since + zlen (event_bytes r)) in
            let '(now, w) := get_mono_time w in
            let* elapsed := msecs_elapsed last now in
            if elapsed >=? SPD_UPDATE_MSECS then
              if since =? 0 then Ok (INTERRUPTED, chunk, since, last, w)
              else receive_chunk_loop fuel w chunk chunk_sz 0 now
            else receive_chunk_loop fuel w chunk chunk_sz since last
        end
    end
  else Ok (OK, chunk, since, last, w).

(** The bytes that the stream holds back are stored at the end of the file [path]. *)
Definition fflush (w : server) (path : list Z) : bool * server :=
  let st := writes w in
  let stored q := <[path := default [] (files w !! path) ++ q]> (files w) in
  match answers st with
  | Some n :: rest =>
      (false, mkServer (ssock w) (ticks w) (mkStdio [] (empties st) rest) (stored (take (Z.to_nat n) (stream st))) (clients w))
  | rest => (true, mkServer (ssock w) (ticks w) (mkStdio [] (empties st) (tail rest)) (stored (stream st)) (clients w))
  end.

(** [fwrite] puts the bytes in the stream, and empties it or not. *)
Definition fwrite (w : server) (path p : list Z) : bool * server :=
  let st := writes w in
  let '(full, rest) := malloc (empties st) in
  let w := mkServer (ssock w) (ticks w) (mkStdio (stream st ++ p) rest (answers st)) (files w) (clients w) in
  if full then fflush w path else (true, w).

(** [fclose] empties the stream; the callers ignore its answer. *)
Definition fclose (w : server) (path : list Z) : server :=
  match stream (writes w) with [] => w | _ => (fflush w path).2 end.

Fixpoint receive_file_loop (fuel : nat) (w : server) (path : list Z) (rcvd_total size since : Z) (last : timespec) : res (Result_t * server) :=
  if rcvd_total <? size then
    match fuel with
    | O => Err OutOfFuel
    | S fuel' =>
        let left_sz := size - rcvd_total in
        let chunk_sz := if left_sz <? FILE_CHUNK_SIZE then left_sz else FILE_CHUNK_SIZE in
        let* '(status, chunk, since, last, w) := receive_chunk_loop fuel w [] chunk_sz since last in
        match status with
        | OK =>
            let '(ok, w) := fwrite w path chunk in
            if ok then receive_file_loop fuel' w path (rcvd_total + zlen chunk) size since last else Ok (ERROR, w)
        | _ => Ok (status, w)
        end
    end
  else Ok (OK, w).

Definition receive_file (fuel : nat) (w : server) (size : Z) (path : list Z) : res (Result_t * server) :=
  let '(rcv_begin, w) := get_mono_time w in
  receive_file_loop fuel w path 0 size 0 rcv_begin.

Definition send_accepted_dto (w : server) : res (Result_t * server) :=
  let* '(status, s) := send_buffer (ssock w) (word FILE_ACCEPTED_MAGIC) in
  let w := set_sock w s in
  if negb (bool_decide (status = OK)) then Ok (ERROR, w) else Ok (OK, w).

(** The path of the file, when it could be created. *)
Definition create_file_in_storage (w : server) (filename : list Z) : option (list Z) * server :=
  let pathname := storage_dir ++ [ch_slash] ++ filename in
  if negb (available (zlen storage_dir + zlen filename + 2)) then (None, w)
  else if creatable pathname then
    (Some pathname, mkServer (ssock w) (ticks w) (mkStdio [] (empties (writes w)) (answers (writes w))) (<[pathname := []]> (files w)) (clients w))
  else (None, w).

Definition remove_file_from_storage (w : server) (path : list Z) : server :=
  let w := fclose w path in
  set_files w (delete path (files w)).

Definition close_file (w : server) (file : option (list Z)) : server :=
  match file with Some path => fclose w path | None => w end.

(** What follows the label [finish]: [file] is None when the variable has not been
    initialised, and [close_file] then frees an indeterminate pointer; else it is the file
    that is open, or none. *)
Definition finish (w : server) (self : Z) (file : option (option (list Z))) (success : bool) : res (bool * server) :=
  match file with
  | None => Err Undefined
  | Some file =>
      let w := close_file w file in
      let* c := remove_from_clients_list (clients w) self in
      Ok (success, set_clients w c)
  end.

(** Whether the thread ends with [EXIT_SUCCESS], and the server behind it. *)
Definition client_thread_main (fuel : nat) (w : server) (self : Z) : res (bool * server) :=
  let* '(status, begin_dto, w) := receive_begin_dto fuel w in
  if negb (bool_decide (status = OK)) then finish w self None false
  else if negb (available (filename_size begin_dto)) then finish w self None false
  else
    let* '(status, filename, w) := receive_filename fuel w (filename_size begin_dto) in
    if negb (bool_decide (status = OK)) then finish w self None false
    else
      match create_file_in_storage w filename with
      | (None, w) => finish w self (Some None) false
      | (Some path, w) =>
          let* '(status, w) := receive_file fuel w (file_size begin_dto) path in
          match status with
          | INTERRUPTED => finish (remove_file_from_storage w path) self (Some None) true
          | OK =>
              let* '(status, w) := send_accepted_dto w in
              if negb (bool_decide (status = OK)) then finish w self (Some (Some path)) false else finish w self (Some (Some path)) true
          | _ => finish w self (Some (Some path)) false
          end
      end.
End ClientThread.

(** ** receiver_server.c: accepting clients *)

Inductive accepted := Client (fresh : Z) (created : bool) | Interrupted | AcceptFails.

(** [open] is whether the listening socket is still open; on a closed one [accept] fails. *)
Fixpoint run_accept_clients_loop (events : list accepted) (open : bool) (c : ActiveClients_t) : res (Result_t * ActiveClients_t) :=
  match events with
  | [] => Ok (OK, c)
  | e :: events =>
      if negb open then Ok (ERROR, c)
      else
        match e with
        | Interrupted => Ok (OK, c)
        | AcceptFails => Ok (ERROR, c)
        | Client fresh created =>
            let* '(status, c) := create_client_thread c fresh created in
            match status with
            | CLIENTS_LIMIT_REACHED => run_accept_clients_loop events false c
            | OK => run_accept_clients_loop events open c
            | _ => Ok (ERROR, c)
            end
        end
  end.

(** ** Buffers *)

Lemma receive_buffer_loop_inv fuel : forall s buf size st bs s',
  receive_buffer_loop fuel s buf size = Ok (st, bs, s') -> zlen buf <= size ->
  exists p, bs = buf ++ p /\ received s s' p /\ (st = OK -> zlen bs = size).
Proof.
  induction fuel as [|fuel IH]; intros s buf size st bs s'; cbn [receive_buffer_loop];
    destruct (Z.ltb_spec (zlen buf) size) as [Hlt|Hge]; try done.
  - intros [= <- <- <-] ?. exists []. rewrite app_nil_r. split; [done|]. split; [apply received_refl|lia].
  - destruct (recv s (size - zlen buf)) as [r s1] eqn:E.
    apply recv_spec in E as (Hr & Hl & _); [|lia]. destruct r as [p|e].
    + cbn in Hl, Hr. intros Hrun _. apply IH in Hrun as (q & -> & Hq & Hs); [|rewrite zlen_app; lia].
      exists (p ++ q). rewrite app_assoc. split; [done|]. split; [by eapply received_trans|done].
    + intros Hrun _. exists []. rewrite app_nil_r. by destruct e; injection Hrun as <- <- <-.
  - intros [= <- <- <-] ?. exists []. rewrite app_nil_r. split; [done|]. split; [apply received_refl|lia].
Qed.

Lemma receive_buffer_inv fuel s size st bs s' :
  receive_buffer fuel s size = Ok (st, bs, s') -> 0 <= size ->
  received s s' bs /\ (st = OK -> zlen bs = size).
Proof.
  intros H Hs. apply receive_buffer_loop_inv in H as (p & -> & Hr & Hl); [done|]. by rewrite zlen_nil.
Qed.

(** Enough data that is not disturbed is received. *)
Lemma receive_buffer_progress fuel : forall s buf size,
  undisturbed s -> size <= zlen buf + zlen (arriving s) -> (budget s <= fuel)%nat ->
  exists bs s', receive_buffer_loop fuel s buf size = Ok (OK, bs, s').
Proof.
  induction fuel as [|fuel IH]; intros s buf size Hu Hs Hf; cbn [receive_buffer_loop];
    destruct (Z.ltb_spec (zlen buf) size) as [Hlt|Hge]; eauto.
  - exfalso. assert (incoming s = []) as He.
    { unfold budget in Hf. destruct (incoming s); [done|]. cbn in Hf. lia. }
    unfold arriving in Hs. rewrite He in Hs. cbn in Hs. rewrite zlen_nil in Hs. lia.
  - destruct (recv_undisturbed s (size - zlen buf)) as (p & s1 & E & Hp); [lia|done| |].
    { intros E. rewrite E, zlen_nil in Hs. lia. }
    rewrite E. apply recv_spec in E as (Hr & Hl & Hb); [|lia]. cbn in *. destruct Hr as [_ _ Ha _ _ Hu'].
    apply IH; [auto| |].
    + rewrite Ha, zlen_app in Hs. rewrite zlen_app. lia.
    + destruct Hb as [(? & [= ->] & _)|]; [done|lia].
Qed.

Lemma receive_known fuel s p rest :
  undisturbed s -> arriving s = p ++ rest -> (budget s <= fuel)%nat ->
  exists s', receive_buffer fuel s (zlen p) = Ok (OK, p, s') /\ received s s' p /\ arriving s' = rest.
Proof.
  intros Hu Ha Hf. destruct (receive_buffer_progress fuel s [] (zlen p)) as (bs & s' & E); [done| |done|].
  { rewrite Ha, zlen_app, zlen_nil. pose proof (zlen_nonneg rest). lia. }
  exists s'. pose proof E as E'. apply receive_buffer_inv in E' as [Hr Hl]; [|apply zlen_nonneg].
  specialize (Hl eq_refl). pose proof (rc_arriving _ _ _ Hr) as Ha'. rewrite Ha in Ha'.
  apply app_inj_1 in Ha' as [<- <-]; [done|]. unfold zlen in Hl. lia.
Qed.

Lemma received_prefix s s' p q rest :
  received s s' p -> arriving s = q ++ rest -> zlen p = zlen q -> p = q /\ arriving s' = rest.
Proof.
  intros Hr Ha Hl. rewrite (rc_arriving _ _ _ Hr) in Ha. apply app_inj_1 in Ha; [done|].
  unfold zlen in Hl. lia.
Qed.

(** Sending a buffer ends; without errors it is sent completely. *)
Lemma send_buffer_loop_spec fuel : forall s buf,
  (length buf <= fuel)%nat ->
  exists st s' n, send_buffer_loop fuel s buf = Ok (st, s') /\ sent s s' (take n buf) /\
    (st = OK -> take n buf = buf) /\ (sending s -> st = OK).
Proof.
  induction fuel as [|fuel IH]; intros s buf Hf; cbn [send_buffer_loop];
    destruct (Z.ltb_spec 0 (zlen buf)) as [Hlt|Hge].
  - unfold zlen in Hlt. lia.
  - exists OK, s, 0%nat. assert (buf = []) as -> by (apply length_zero_iff_nil; unfold zlen in Hge; lia).
    split; [done|]. split; [apply sent_refl|done].
  - destruct (send s buf) as [r s1] eqn:E. apply send_spec in E; [|by intros ->].
    destruct r as [n|e].
    + destruct E as [Hn Hs1]. destruct (IH s1 (drop (Z.to_nat n) buf)) as (st & s' & m & -> & Hs2 & Hc & Hk).
      { rewrite length_drop. unfold zlen in *. lia. }
      exists st, s', (Z.to_nat n + m)%nat. rewrite <- take_take_drop. split; [done|]. split; [by eapply sent_trans|].
      split; [intros H; rewrite Hc by done; apply take_drop|]. intros H. apply Hk. by apply (se_sending _ _ _ Hs1).
    + destruct E as [Hs1 Hk]. destruct e; (do 2 eexists; exists 0%nat; split; [done|split; [done|done]]).
  - exists OK, s, 0%nat. assert (buf = []) as -> by (apply length_zero_iff_nil; unfold zlen in Hge; lia).
    split; [done|]. split; [apply sent_refl|done].
Qed.

Lemma send_buffer_ok s buf :
  sending s -> exists s', send_buffer s buf = Ok (OK, s') /\ sent s s' buf.
Proof.
  intros Hs. destruct (send_buffer_loop_spec (length buf) s buf) as (st & s' & n & E & Hn & Hc & Hk); [done|].
  specialize (Hk Hs) as ->. exists s'. split; [done|]. by rewrite Hc in Hn.
Qed.

(** ** The messages *)

Lemma zlen_word z : zlen (word z) = 8.
Proof. unfold zlen, word. by rewrite length_Z_to_little_endian. Qed.

Lemma length_word z : length (word z) = 8%nat.
Proof. pose proof (zlen_word z) as H. unfold zlen in H. lia. Qed.

Lemma unword_word z : 0 <= z < 2 ^ 64 -> unword (word z) = z.
Proof.
  intros Hz. unfold unword, word. rewrite little_endian_to_Z_to_little_endian by lia. apply Z.mod_small. lia.
Qed.

Lemma unword_bound bs : bytes bs -> 0 <= unword bs.
Proof. intros H. unfold unword. apply little_endian_to_Z_bound; [lia|]. exact H. Qed.

Lemma zlen_begin d : zlen (begin_bytes d) = 24.
Proof. unfold begin_bytes. by rewrite !zlen_app, !zlen_word. Qed.

Lemma begin_roundtrip d :
  0 <= magic d < 2 ^ 64 -> 0 <= filename_size d < 2 ^ 64 -> 0 <= file_size d < 2 ^ 64 ->
  begin_of (begin_bytes d) = d.
Proof.
  intros H1 H2 H3. destruct d as [m n f]. unfold begin_of, begin_bytes. cbn in *.
  rewrite take_app_length' by (by rewrite length_word). rewrite drop_app_length' by (by rewrite length_word).
  rewrite take_app_length' by (by rewrite length_word). rewrite (app_assoc (word m)), drop_app_length'.
  2: { by rewrite length_app, !length_word. }
  rewrite (take_ge (word f)) by (rewrite length_word; lia). by rewrite !unword_word.
Qed.

(** ** The clock *)

Definition time_ok (t : timespec) : Prop := 0 <= tv_sec t < 2 ^ 40 /\ 0 <= tv_nsec t < 10 ^ 9.

(** Between two times the milliseconds are counted down. *)
Lemma msecs_elapsed_spec s e :
  time_ok s -> time_ok e ->
  msecs_elapsed s e = Ok (((tv_sec e - tv_sec s) * 10 ^ 9 + (tv_nsec e - tv_nsec s)) / 10 ^ 6).
Proof.
  intros [Hs Hsn] [He Hen]. unfold msecs_elapsed.
  rewrite (s64_ok (tv_sec e - tv_sec s)) by lia. rewrite (s64_ok (tv_nsec e - tv_nsec s)) by lia.
  cut (forall sec nsec, -2 ^ 41 < sec < 2 ^ 41 -> 0 <= nsec < 10 ^ 9 ->
    (check! assert ((0 <=? nsec) && (nsec <? 1000 * 1000 * 1000)) in
     let* msec := s64 (sec * 1000) in s64 (msec + Z.quot nsec (1000 * 1000))) = Ok ((sec * 10 ^ 9 + nsec) / 10 ^ 6)).
  { intros H. destruct (Z.ltb_spec (tv_nsec e - tv_nsec s) 0).
    - rewrite s64_ok by lia. rewrite H by lia. do 2 f_equal. lia.
    - rewrite H by lia. done. }
  intros sec nsec H1 H2. destruct (Z.leb_spec 0 nsec), (Z.ltb_spec nsec (1000 * 1000 * 1000)); try lia. cbn [andb assert].
  rewrite s64_ok by lia. rewrite Z.quot_div_nonneg by lia. assert (0 <= nsec / (1000 * 1000) < 1000).
  { split; [apply Z.div_pos; lia|apply Z.div_lt_upper_bound; lia]. }
  rewrite s64_ok by lia. f_equal. replace (sec * 10 ^ 9 + nsec) with (sec * 1000 * 10 ^ 6 + nsec) by lia.
  rewrite Z.div_add_l by lia. done.
Qed.

(** ** The list of clients *)

(** The first cells of the array are the clients. *)
Definition holds (c : ActiveClients_t) (l : list Z) : Prop :=
  zlen (clist c) = 16 /\ count c = zlen l /\ zlen l <= 16 /\ take (length l) (clist c) = l.

Lemma arr_get_middle (pre rest : list Z) x : arr_get (pre ++ x :: rest) (zlen pre) = Ok x.
Proof.
  unfold arr_get, zlen. rewrite Nat2Z.id. destruct (Z.leb_spec 0 (Z.of_nat (length pre))); [|lia].
  by rewrite list_lookup_middle.
Qed.

Lemma find_client_spec a x rest : forall fuel pre,
  x ∉ a -> (length a <= fuel)%nat ->
  find_client fuel (pre ++ a ++ x :: rest) x (zlen pre) = Ok (zlen pre + zlen a).
Proof.
  induction a as [|y a IH]; intros fuel pre Hx Hf; cbn [app].
  - rewrite zlen_nil, Z.add_0_r. destruct fuel; cbn [find_client]; rewrite arr_get_middle, Z.eqb_refl; done.
  - destruct fuel as [|fuel]; [cbn in Hf; lia|]. apply not_elem_of_cons in Hx as [Hy Hx].
    cbn [find_client]. rewrite arr_get_middle. destruct (Z.eqb_spec y x); [congruence|]. cbn [negb].
    specialize (IH fuel (pre ++ [y]) Hx ltac:(cbn in Hf; lia)).
    rewrite zlen_app, zlen_cons, zlen_nil in IH. rewrite <- app_assoc in IH. cbn [app] in *.
    rewrite Z.add_0_l in IH. rewrite IH, zlen_cons. f_equal. lia.
Qed.

Lemma holds_split c l : holds c l -> exists r, clist c = l ++ r /\ zlen l + zlen r = 16.
Proof.
  intros (Hl & _ & _ & Ht). exists (drop (length l) (clist c)).
  pose proof (take_drop (length l) (clist c)) as E. rewrite Ht in E.
  split; [done|]. rewrite <- zlen_app, E. done.
Qed.

Lemma add_client_spec c l x :
  holds c l -> zlen l < 16 -> exists c', add_to_clients_list c x = Ok c' /\ holds c' (l ++ [x]).
Proof.
  intros Hh Hl. destruct (holds_split c l Hh) as (r & Er & Hr). destruct Hh as (H16 & Hc & _ & _).
  unfold add_to_clients_list. rewrite Hc. pose proof (zlen_nonneg l). rewrite arr_set_ok by lia.
  eexists. split; [done|]. destruct r as [|y r]; [rewrite zlen_nil in Hr; lia|]. split; [|split; [|split]]; cbn.
  - by rewrite zlen_zset.
  - by rewrite zlen_app, zlen_cons, zlen_nil.
  - rewrite zlen_app, zlen_cons, zlen_nil. lia.
  - rewrite Er. unfold zset, zlen. rewrite Nat2Z.id, insert_app_r_alt by lia. rewrite Nat.sub_diag. cbn.
    rewrite (app_assoc l [x] r : l ++ x :: r = (l ++ [x]) ++ r). by rewrite take_app_length.
Qed.

Lemma remove_client_spec c a x b :
  holds c (a ++ x :: b) -> x ∉ a -> exists c', remove_from_clients_list c x = Ok c' /\ holds c' (a ++ b).
Proof.
  intros Hh Hx. destruct (holds_split _ _ Hh) as (r & Er & Hr). destruct Hh as (H16 & Hc & H16' & _).
  pose proof (zlen_nonneg a). pose proof (zlen_nonneg b). pose proof (zlen_nonneg r).
  rewrite zlen_app, zlen_cons in *. unfold remove_from_clients_list.
  rewrite <- app_assoc in Er. cbn [app] in Er.
  assert (E : find_client (length (clist c)) (clist c) x 0 = Ok (zlen a)).
  { rewrite Er. apply (find_client_spec a x (b ++ r) _ []); [done|]. rewrite length_app. lia. }
  rewrite E. cbn iota. rewrite Hc, u64_small by lia. rewrite memmove_ok by lia. cbn iota.
  replace (zlen a + (zlen b + 1) - zlen a - 1) with (zlen b) by lia.
  eexists. split; [done|].
  assert (El : take (Z.to_nat (zlen a)) (clist c) ++ take (Z.to_nat (zlen b)) (drop (Z.to_nat (zlen a + 1)) (clist c)) ++
    drop (Z.to_nat (zlen a + zlen b)) (clist c) = a ++ b ++ drop (length a + length b) (clist c)).
  { rewrite Er at 1 2. unfold zlen. rewrite !Nat2Z.id. replace (Z.to_nat (Z.of_nat (length a) + 1)) with (length (a ++ [x])) by (rewrite length_app; cbn; lia).
    rewrite take_app_length. change (a ++ x :: b ++ r) with (a ++ [x] ++ b ++ r).
    rewrite (app_assoc a [x]), drop_app_length, take_app_length. do 3 f_equal. lia. }
  rewrite El. split; [|split; [|split]]; cbn.
  - rewrite !zlen_app. unfold zlen in *. rewrite length_drop. lia.
  - rewrite zlen_app, u64_small by lia. lia.
  - rewrite zlen_app. lia.
  - by rewrite app_assoc, take_app_length.
Qed.

(** ** Receiving the file *)

Section Receiving.
Context (clock : nat -> timespec).

(** Only the socket and the clock have moved. *)
Definition only_received (w w' : server) (p : list Z) : Prop :=
  received (ssock w) (ssock w') p /\ files w' = files w /\ writes w' = writes w /\ clients w' = clients w.

Lemma only_received_trans w1 w2 w3 p q : only_received w1 w2 p -> only_received w2 w3 q -> only_received w1 w3 (p ++ q).
Proof.
  intros (A1 & A2 & A3 & A4) (B1 & B2 & B3 & B4). split; [by eapply received_trans|]. repeat split; congruence.
Qed.

(** One turn of the loop that does not end it at once: the time is read and compared. *)
Definition after_recv (fuel : nat) (w : server) (chunk : list Z) (chunk_sz since : Z) (last : timespec) (p : list Z) (s : sock) :
    res (Result_t * list Z * Z * timespec * server) :=
  let w1 := mkServer s (S (ticks w)) (writes w) (files w) (clients w) in
  let since1 := u64 (since + zlen p) in
  let* elapsed := msecs_elapsed last (clock (ticks w)) in
  if elapsed >=? SPD_UPDATE_MSECS then
    if since1 =? 0 then Ok (INTERRUPTED, chunk ++ p, since1, last, w1)
    else receive_chunk_loop clock fuel w1 (chunk ++ p) chunk_sz 0 (clock (ticks w))
  else receive_chunk_loop clock fuel w1 (chunk ++ p) chunk_sz since1 last.

Lemma receive_chunk_step fuel w chunk chunk_sz since last r s :
  zlen chunk < chunk_sz -> recv (ssock w) (chunk_sz - zlen chunk) = (r, s) ->
  receive_chunk_loop clock (S fuel) w chunk chunk_sz since last =
    match r with
    | inr EINTR => Ok (INTERRUPTED, chunk, since, last, set_sock w s)
    | inr EOTHER => Ok (ERROR, chunk, since, last, set_sock w s)
    | _ => after_recv fuel w chunk chunk_sz since last (event_bytes r) s
    end.
Proof.
  intros Hlt E. cbn [receive_chunk_loop]. destruct (Z.ltb_spec (zlen chunk) chunk_sz); [|lia]. rewrite E.
  by destruct r as [p|[]].
Qed.

Lemma receive_chunk_done fuel w chunk chunk_sz since last :
  chunk_sz <= zlen chunk -> receive_chunk_loop clock fuel w chunk chunk_sz since last = Ok (OK, chunk, since, last, w).
Proof. intros H. destruct fuel; cbn [receive_chunk_loop]; destruct (Z.ltb_spec (zlen chunk) chunk_sz); done || lia. Qed.

Lemma receive_chunk_inv fuel : forall w chunk chunk_sz since last st bs since' last' w',
  receive_chunk_loop clock fuel w chunk chunk_sz since last = Ok (st, bs, since', last', w') -> zlen chunk <= chunk_sz ->
  exists p, bs = chunk ++ p /\ only_received w w' p /\ (st = OK -> zlen bs = chunk_sz).
Proof.
  induction fuel as [|fuel IH]; intros w chunk chunk_sz since last st bs since' last' w' Hrun Hle;
    (destruct (decide (chunk_sz <= zlen chunk)) as [Hge|Hlt];
      [rewrite receive_chunk_done in Hrun by done; injection Hrun as <- <- <- <- <-; exists []; rewrite app_nil_r;
       split; [done|]; split; [split; [apply received_refl|done]|lia]|]).
  - cbn in Hrun. destruct (Z.ltb_spec (zlen chunk) chunk_sz); [done|lia].
  - destruct (recv (ssock w) (chunk_sz - zlen chunk)) as [r s1] eqn:E.
    rewrite (receive_chunk_step fuel w chunk chunk_sz since last r s1 ltac:(lia) E) in Hrun.
    apply recv_spec in E as (Hr & Hl & _); [|lia].
    assert (Hstep : after_recv fuel w chunk chunk_sz since last (event_bytes r) s1 = Ok (st, bs, since', last', w') ->
      exists p, bs = chunk ++ p /\ only_received w w' p /\ (st = OK -> zlen bs = chunk_sz)).
    { clear Hrun. unfold after_recv. set (w1 := mkServer s1 _ _ _ _). assert (H1 : only_received w w1 (event_bytes r)) by (split; [exact Hr|done]).
      assert (Hrec : forall since1 last1, receive_chunk_loop clock fuel w1 (chunk ++ event_bytes r) chunk_sz since1 last1 = Ok (st, bs, since', last', w') ->
        exists p, bs = chunk ++ p /\ only_received w w' p /\ (st = OK -> zlen bs = chunk_sz)).
      { intros since1 last1 H. apply IH in H as (p & -> & Hp & Hs); [|rewrite zlen_app; lia].
        exists (event_bytes r ++ p). rewrite app_assoc. split; [done|]. split; [by eapply only_received_trans|done]. }
      destruct (msecs_elapsed last (clock (ticks w))) as [el|]; [|done].
      destruct (el >=? SPD_UPDATE_MSECS); [|apply Hrec]. destruct (_ =? 0); [|apply Hrec].
      intros [= <- <- <- <- <-]. by eexists. }
    destruct r as [p|[]]; try (by apply Hstep); injection Hrun as <- <- <- <- <-;
      exists []; rewrite app_nil_r; (split; [done|]); (split; [split; [exact Hr|done]|done]).
Qed.

Lemma receive_chunk_progress (Hclock : forall n, time_ok (clock n)) fuel : forall w chunk chunk_sz since last,
  undisturbed (ssock w) -> chunk_sz <= zlen chunk + zlen (arriving (ssock w)) -> (budget (ssock w) <= fuel)%nat ->
  zlen chunk <= chunk_sz -> time_ok last -> 0 <= since -> since + (chunk_sz - zlen chunk) < 2 ^ 64 ->
  exists bs since' last' w', receive_chunk_loop clock fuel w chunk chunk_sz since last = Ok (OK, bs, since', last', w') /\
    time_ok last' /\ 0 <= since' <= since + (chunk_sz - zlen chunk).
Proof.
  induction fuel as [|fuel IH]; intros w chunk chunk_sz since last Hu Ha Hf Hle Ht Hs Hb;
    (destruct (decide (chunk_sz <= zlen chunk)) as [Hge|Hlt];
      [rewrite receive_chunk_done by done; do 4 eexists; split; [done|]; split; [done|lia]|]).
  - exfalso. assert (incoming (ssock w) = []) as He.
    { unfold budget in Hf. destruct (incoming (ssock w)); [done|]. cbn in Hf. lia. }
    unfold arriving in Ha. rewrite He in Ha. cbn in Ha. rewrite zlen_nil in Ha. lia.
  - destruct (recv_undisturbed (ssock w) (chunk_sz - zlen chunk)) as (p & s1 & E & Hp); [lia|done| |].
    { intros E. rewrite E, zlen_nil in Ha. lia. }
    rewrite (receive_chunk_step fuel w chunk chunk_sz since last (inl p) s1 ltac:(lia) E). cbn [event_bytes].
    apply recv_spec in E as (Hr & Hl & Hbud); [|lia]. cbn [event_bytes] in *. destruct Hr as [_ _ Har _ _ Hu'].
    destruct Hbud as [(? & [= ->] & _)|Hbud]; [done|].
    assert (Hp1 : 1 <= zlen p) by (destruct p; [done|]; rewrite zlen_cons; pose proof (zlen_nonneg p); lia).
    unfold after_recv. rewrite msecs_elapsed_spec by auto. rewrite u64_small by lia.
    rewrite Har, zlen_app in Ha.
    assert (Hrec : forall since1 last1, time_ok last1 -> 0 <= since1 <= since + zlen p ->
      exists bs since' last' w', receive_chunk_loop clock fuel (mkServer s1 (S (ticks w)) (writes w) (files w) (clients w)) (chunk ++ p) chunk_sz since1 last1 = Ok (OK, bs, since', last', w') /\
        time_ok last' /\ 0 <= since' <= since + (chunk_sz - zlen chunk)).
    { intros since1 last1 Ht1 Hs1.
      destruct (IH (mkServer s1 (S (ticks w)) (writes w) (files w) (clients w)) (chunk ++ p) chunk_sz since1 last1)
        as (bs & since' & last' & w' & -> & Ht' & Hs'); cbn; rewrite ?zlen_app; try lia; [auto|done|].
      rewrite zlen_app in Hs'. do 4 eexists. split; [done|]. split; [done|lia]. }
    destruct (_ >=? SPD_UPDATE_MSECS); [|apply Hrec; [done|lia]].
    destruct (Z.eqb_spec (since + zlen p) 0); [lia|]. apply Hrec; [auto|lia].
Qed.
Definition chunk_size (left_sz : Z) : Z := if left_sz <? FILE_CHUNK_SIZE then left_sz else FILE_CHUNK_SIZE.

Lemma chunk_size_range n : 0 < n -> 0 < chunk_size n <= n /\ chunk_size n <= 4096.
Proof. unfold chunk_size, FILE_CHUNK_SIZE. intros H. destruct (Z.ltb_spec n (4 * 1024)); lia. Qed.

(** What the file holds after [fflush] and [fwrite], with what the stream still holds
    back. *)
Lemma fflush_spec w path ok w' D :
  files w !! path = Some D -> fflush w path = (ok, w') ->
  ssock w' = ssock w /\ clients w' = clients w /\ stream (writes w') = [] /\
  exists D', files w' = <[path := D']> (files w) /\ D' `prefix_of` D ++ stream (writes w) /\ (ok = true -> D' = D ++ stream (writes w)) /\
    (Forall (eq None) (answers (writes w)) -> ok = true /\ Forall (eq None) (answers (writes w'))).
Proof.
  intros Hd. unfold fflush. rewrite Hd. cbn [default]. destruct (answers (writes w)) as [|[n|] rest]; intros [= <- <-]; split_and!; try done; eexists; (split; [done|]).
  - by split.
  - split; [apply prefix_app; exists (drop (Z.to_nat n) (stream (writes w))); by rewrite take_drop|]. split; [done|]. intros [? _]%Forall_cons. done.
  - split; [done|]. split; [done|]. by intros [_ ?]%Forall_cons.
Qed.

Lemma fwrite_spec w path p ok w' D :
  files w !! path = Some D -> fwrite w path p = (ok, w') ->
  ssock w' = ssock w /\ clients w' = clients w /\
  exists D', files w' = <[path := D']> (files w) /\ D' `prefix_of` D ++ stream (writes w) ++ p /\
    (ok = true -> D' ++ stream (writes w') = D ++ stream (writes w) ++ p) /\
    (Forall (eq None) (answers (writes w)) -> ok = true /\ Forall (eq None) (answers (writes w'))).
Proof.
  intros Hd. unfold fwrite. destruct (malloc (empties (writes w))) as [[] rest].
  - intros E. apply (fflush_spec _ _ _ _ D) in E as (Hs & Hc & Hst & D' & Hf & Hp & Hok & Ha); [|done]. cbn in *. split; [done|]. split; [done|].
    exists D'. split; [done|]. split; [done|]. split; [intros H; by rewrite Hst, app_nil_r, Hok|done].
  - intros [= <- <-]. split; [done|]. split; [done|]. exists D. cbn. rewrite insert_id by done. split; [done|]. split; [by apply prefix_app_r|]. done.
Qed.

Lemma fclose_spec w path D :
  files w !! path = Some D -> ssock (fclose w path) = ssock w /\ clients (fclose w path) = clients w /\
  exists D', files (fclose w path) = <[path := D']> (files w) /\ D' `prefix_of` D ++ stream (writes w) /\
    (Forall (eq None) (answers (writes w)) -> D' = D ++ stream (writes w)).
Proof.
  intros Hd. unfold fclose. destruct (stream (writes w)) as [|x l] eqn:Es.
  - split; [done|]. split; [done|]. exists D. rewrite app_nil_r, insert_id by done. by split.
  - destruct (fflush w path) as [ok w'] eqn:E. apply (fflush_spec _ _ _ _ D) in E as (Hs & Hc & _ & D' & Hf & Hp & Hok & Ha); [|done]. rewrite Es in *. cbn [snd].
    split; [done|]. split; [done|]. exists D'. split; [done|]. split; [done|]. intros [H _]%Ha. by apply Hok.
Qed.

(** Of any run of the loop: what is in the file is a front of what was received, and with
    what the stream holds back all of it, of the size asked for, when the loop
    succeeds. *)
Lemma receive_file_inv fuel : forall w path total size since last st w' D,
  receive_file_loop clock fuel w path total size since last = Ok (st, w') -> total <= size -> files w !! path = Some D ->
  exists p D', received (ssock w) (ssock w') p /\ clients w' = clients w /\
    files w' = <[path := D']> (files w) /\ D' `prefix_of` D ++ stream (writes w) ++ p /\
    (st = OK -> D' ++ stream (writes w') = D ++ stream (writes w) ++ p /\ total + zlen p = size) /\
    (Forall (eq None) (answers (writes w)) -> Forall (eq None) (answers (writes w'))).
Proof.
  assert (Hdone : forall w path total size D, ~ total < size -> total <= size -> files w !! path = Some D ->
    exists p D', received (ssock w) (ssock w) p /\ clients w = clients w /\ files w = <[path := D']> (files w) /\ D' `prefix_of` D ++ stream (writes w) ++ p /\
      (OK = OK -> D' ++ stream (writes w) = D ++ stream (writes w) ++ p /\ total + zlen p = size) /\ (Forall (eq None) (answers (writes w)) -> Forall (eq None) (answers (writes w)))).
  { intros w path total size D Hge Hle Hd. exists [], D. rewrite !app_nil_r, insert_id, zlen_nil by done. split; [apply received_refl|]. split_and!; try done; [by apply prefix_app_r|].
    intros _. split; [done|lia]. }
  induction fuel as [|fuel IH]; intros w path total size since last st w' D; cbn [receive_file_loop];
    destruct (Z.ltb_spec total size) as [Hlt|Hge]; try done; try (intros [= <- <-] ? Hd; by apply Hdone; [lia|..]).
  fold (chunk_size (size - total)). intros Hrun _ Hd. pose proof (chunk_size_range (size - total) ltac:(lia)) as Hcs.
  destruct (receive_chunk_loop clock (S fuel) w [] (chunk_size (size - total)) since last) as [[[[[st1 chunk] since1] last1] w1]|] eqn:E; [|done].
  apply receive_chunk_inv in E as (p & -> & (Hr & Hfi & Hwr & Hcl) & Hst); [|rewrite zlen_nil; lia]. cbn [app] in *.
  destruct (decide (st1 = OK)) as [->|Hno].
  2: { exists p, D. assert (st = st1 /\ w' = w1) as [-> ->] by (clear -Hno Hrun; destruct st1; [done| | | |]; injection Hrun as <- <-; done).
       rewrite insert_id, Hwr by done. split_and!; try done. by apply prefix_app_r. }
  specialize (Hst eq_refl). destruct (fwrite w1 path p) as [ok w2] eqn:Ew.
  apply (fwrite_spec _ _ _ _ _ D) in Ew as (Hs2 & Hc2 & D2 & Hf2 & Hp2 & Hok2 & Ha2); [|by rewrite Hfi]. rewrite Hwr in *. destruct ok.
  - apply (IH _ _ _ _ _ _ _ _ D2) in Hrun as (p' & D' & Hr' & Hc' & Hf' & Hp' & Hst' & Ha'); [|lia|by rewrite Hf2, lookup_insert_eq].
    rewrite app_assoc, (Hok2 eq_refl), <- !app_assoc in Hp'. exists (p ++ p'), D'. rewrite Hs2 in Hr'. split; [by eapply received_trans|]. split; [congruence|].
    split; [by rewrite Hf', Hf2, insert_insert_eq, Hfi|]. split; [done|]. split; [|intros H; by apply Ha', Ha2].
    intros H. destruct (Hst' H) as [HD Hz]. rewrite HD, app_assoc, (Hok2 eq_refl), <- !app_assoc, zlen_app. split; [done|lia].
  - injection Hrun as <- <-. exists p, D2. rewrite Hs2, Hc2, Hf2, Hfi. split_and!; try done. intros H. by apply Ha2.
Qed.

Lemma receive_file_progress (Hclock : forall n, time_ok (clock n)) fuel : forall w path total size since last,
  undisturbed (ssock w) -> size <= total + zlen (arriving (ssock w)) -> (budget (ssock w) <= fuel)%nat ->
  time_ok last -> 0 <= since -> since + (size - total) < 2 ^ 64 -> total <= size -> Forall (eq None) (answers (writes w)) -> is_Some (files w !! path) ->
  exists w', receive_file_loop clock fuel w path total size since last = Ok (OK, w').
Proof.
  induction fuel as [|fuel IH]; intros w path total size since last Hu Ha Hf Ht Hs Hb Hle Hw [D Hd]; cbn [receive_file_loop];
    destruct (Z.ltb_spec total size) as [Hlt|Hge]; eauto.
  - exfalso. assert (incoming (ssock w) = []) as He.
    { unfold budget in Hf. destruct (incoming (ssock w)); [done|]. cbn in Hf. lia. }
    unfold arriving in Ha. rewrite He in Ha. cbn in Ha. rewrite zlen_nil in Ha. lia.
  - fold (chunk_size (size - total)). pose proof (chunk_size_range (size - total) ltac:(lia)) as Hcs.
    destruct (receive_chunk_progress Hclock (S fuel) w [] (chunk_size (size - total)) since last)
      as (bs & since1 & last1 & w1 & E & Ht1 & Hs1); rewrite ?zlen_nil; try lia; [done|done|].
    rewrite E. apply receive_chunk_inv in E as (p & -> & (Hr & Hfi & Hwr & Hcl) & Hst); [|rewrite zlen_nil; lia].
    cbn [app] in *. specialize (Hst eq_refl). destruct Hr as [_ _ Har Hbu _ Hu1].
    destruct (fwrite w1 path p) as [ok w2] eqn:Ew.
    apply (fwrite_spec _ _ _ _ _ D) in Ew as (Hs2 & _ & D2 & Hf2 & _ & _ & Ha2); [|by rewrite Hfi]. rewrite Hwr in Ha2. destruct (Ha2 Hw) as [-> Hans].
    rewrite Har, zlen_app in Ha. change (zlen []) with 0 in Hs1.
    apply IH; rewrite ?Hs2; try done; try lia; [auto|unfold zlen in Hst; lia|]. rewrite Hf2, lookup_insert_eq. by eexists.
Qed.
End Receiving.

(** ** The client *)

Lemma send_chunk_ok fuel : forall s chunk,
  sending s -> (length chunk <= fuel)%nat -> exists s', send_chunk_loop fuel s chunk = Ok (Passed, s') /\ sent s s' chunk.
Proof.
  induction fuel as [|fuel IH]; intros s chunk Hs Hf; cbn [send_chunk_loop];
    destruct (Z.ltb_spec 0 (zlen chunk)) as [Hlt|Hge].
  - unfold zlen in Hlt. lia.
  - assert (chunk = []) as -> by (apply length_zero_iff_nil; unfold zlen in Hge; lia). exists s. split; [done|apply sent_refl].
  - destruct (send s chunk) as [r s1] eqn:E. apply send_spec in E; [|by intros ->].
    destruct r as [n|e]; [|by destruct E]. destruct E as [Hn Hs1].
    destruct (IH s1 (drop (Z.to_nat n) chunk)) as (s' & -> & Hs2).
    { by apply (se_sending _ _ _ Hs1). }
    { rewrite length_drop. unfold zlen in *. lia. }
    exists s'. split; [done|]. rewrite <- (take_drop (Z.to_nat n) chunk). by eapply sent_trans.
  - assert (chunk = []) as -> by (apply length_zero_iff_nil; unfold zlen in Hge; lia). exists s. split; [done|apply sent_refl].
Qed.

Lemma send_chunks_ok fuel : forall s file total size,
  sending s -> total + zlen file = size -> 0 <= total -> size < 2 ^ 64 -> (length file <= fuel)%nat ->
  exists s', send_chunks_loop fuel s file total size = Ok (Passed, s') /\ sent s s' file.
Proof.
  induction fuel as [|fuel IH]; intros s file total size Hs Hz H0 Hb Hf; cbn [send_chunks_loop];
    destruct (Z.ltb_spec total size) as [Hlt|Hge].
  - unfold zlen in Hz. lia.
  - assert (file = []) as -> by (apply length_zero_iff_nil; unfold zlen in Hz; lia). exists s. split; [done|apply sent_refl].
  - set (k := Z.to_nat FILE_CHUNK_SIZE). assert (Hk : (1 <= k)%nat) by (by apply Nat.leb_le).
    clearbody k. destruct (send_chunk_ok (length (take k file)) s (take k file)) as (s1 & -> & Hs1); [done..|].
    assert (Hlen : zlen (take k file) + zlen (drop k file) = zlen file) by (rewrite <- zlen_app; by rewrite take_drop).
    pose proof (zlen_nonneg (take k file)). pose proof (zlen_nonneg (drop k file)).
    rewrite u64_small by lia.
    destruct (IH s1 (drop k file) (total + zlen (take k file)) size) as (s' & -> & Hs2); [|lia|lia|done| |].
    { by apply (se_sending _ _ _ Hs1). }
    { rewrite length_drop. unfold zlen in *. lia. }
    exists s'. split; [done|]. rewrite <- (take_drop k file). by eapply sent_trans.
  - assert (file = []) as -> by (apply length_zero_iff_nil; pose proof (zlen_nonneg file); unfold zlen in *; lia). exists s. split; [done|apply sent_refl].
Qed.

(** What the client sends for a file. *)
Definition request (name file : list Z) : list Z :=
  begin_bytes (mkBegin BEGIN_FILE_TRANSFER_MAGIC (zlen name + 1) (zlen file)) ++ name ++ [0] ++ file.

Lemma send_file_ok fuel s path file rest :
  sending s -> undisturbed s -> arriving s = word FILE_ACCEPTED_MAGIC ++ rest -> zlen file < 2 ^ 64 -> (budget s <= fuel)%nat ->
  exists s', send_file fuel s path (Some file) true = Ok (OK, s') /\ outgoing s' = outgoing s ++ request (basename path) file.
Proof.
  intros Hs Hu Ha Hz Hf. unfold send_file, request. set (name := basename path). set (dto := mkBegin _ _ _).
  destruct (send_buffer_ok s (begin_bytes dto) Hs) as (s1 & -> & H1). cbn [bool_decide negb]. rewrite bool_decide_true by done. cbn [negb].
  destruct (send_buffer_ok s1 (name ++ [0])) as (s2 & -> & H2); [by apply (se_sending _ _ _ H1)|].
  rewrite bool_decide_true by done. cbn [negb].
  destruct (send_chunks_ok (length file) s2 file 0 (file_size dto)) as (s3 & -> & H3);
    [apply (se_sending _ _ _ H2), (se_sending _ _ _ H1), Hs|cbn; lia|done|done|done|].
  destruct (sent_trans _ _ _ _ _ H1 (sent_trans _ _ _ _ _ H2 H3)) as [Hi Ho _].
  assert (Hu3 : undisturbed s3) by (unfold undisturbed; by rewrite Hi).
  assert (Ha3 : arriving s3 = word FILE_ACCEPTED_MAGIC ++ rest) by (unfold arriving in *; by rewrite Hi).
  assert (Hf3 : (budget s3 <= fuel)%nat) by (unfold budget in *; by rewrite Hi).
  destruct (receive_known fuel s3 _ _ Hu3 Ha3 Hf3) as (s4 & E & Hr & _). rewrite zlen_word in E. rewrite E.
  rewrite bool_decide_true, unword_word by done. exists s4. split; [done|].
  rewrite (rc_outgoing _ _ _ Hr), Ho. by rewrite <- (app_assoc name).
Qed.

Lemma basename_Forall (P : Z -> Prop) path : Forall P path -> Forall P (basename path).
Proof.
  induction 1 as [|c path Hc Hp IH]; [constructor|]. cbn [basename]. destruct (existsb _ _); [done|by constructor].
Qed.

Lemma string_at_spec name rest : Forall (fun c => c <> 0) name -> string_at (name ++ 0 :: rest) = Ok name.
Proof.
  induction 1 as [|c name Hc Hn IH]; [done|]. cbn. destruct (Z.eqb_spec c 0); [done|]. by rewrite IH.
Qed.

(** ** The thread of a client *)

Section Thread.
Context (clock : nat -> timespec) (available : Z -> bool) (creatable : list Z -> bool) (storage_dir : list Z).

Abbreviation thread := (client_thread_main clock available creatable storage_dir).
Definition path_of (name : list Z) : list Z := storage_dir ++ [ch_slash] ++ name.

Lemma receive_begin_known fuel w d rest :
  undisturbed (ssock w) -> arriving (ssock w) = begin_bytes d ++ rest -> (budget (ssock w) <= fuel)%nat ->
  magic d = BEGIN_FILE_TRANSFER_MAGIC -> 0 <= filename_size d < 2 ^ 64 -> 0 <= file_size d < 2 ^ 64 ->
  exists s, receive_begin_dto fuel w = Ok (OK, d, set_sock w s) /\ received (ssock w) s (begin_bytes d) /\ arriving s = rest.
Proof.
  intros Hu Ha Hf Hm Hn Hs. unfold receive_begin_dto.
  destruct (receive_known fuel (ssock w) _ _ Hu Ha Hf) as (s & E & Hr & Har). rewrite zlen_begin in E. rewrite E. cbn iota.
  rewrite bool_decide_true, begin_roundtrip, Hm by (done || by rewrite Hm). cbn. by exists s.
Qed.

Lemma receive_filename_known fuel w name rest :
  undisturbed (ssock w) -> arriving (ssock w) = (name ++ [0]) ++ rest -> (budget (ssock w) <= fuel)%nat ->
  Forall (fun c => c <> 0) name ->
  exists s, receive_filename fuel w (zlen name + 1) = Ok (OK, name, set_sock w s) /\ received (ssock w) s (name ++ [0]) /\ arriving s = rest.
Proof.
  intros Hu Ha Hf Hn. unfold receive_filename.
  destruct (receive_known fuel (ssock w) _ _ Hu Ha Hf) as (s & E & Hr & Har).
  rewrite zlen_app in E. change (zlen [0]) with 1 in E. rewrite E. cbn iota. rewrite bool_decide_true by done. cbn [negb].
  rewrite string_at_spec by done. by exists s.
Qed.

Lemma send_accepted_known w :
  sending (ssock w) -> exists s, send_accepted_dto w = Ok (OK, set_sock w s) /\ outgoing s = outgoing (ssock w) ++ word FILE_ACCEPTED_MAGIC.
Proof.
  intros Hs. unfold send_accepted_dto. destruct (send_buffer_ok _ (word FILE_ACCEPTED_MAGIC) Hs) as (s & -> & Ho).
  rewrite bool_decide_true by done. exists s. split; [done|]. apply Ho.
Qed.

Lemma budget_received s s' p fuel : received s s' p -> (budget s <= fuel)%nat -> (budget s' <= fuel)%nat.
Proof. intros [_ _ _ H _ _]. lia. Qed.

Lemma thread_stores fuel w self a b name file rest :
  (forall n, time_ok (clock n)) -> undisturbed (ssock w) -> sending (ssock w) -> (budget (ssock w) <= fuel)%nat ->
  arriving (ssock w) = request name file ++ rest -> Forall (fun c => c <> 0) name ->
  zlen name + 1 < 2 ^ 64 -> zlen file < 2 ^ 64 ->
  available (zlen name + 1) = true -> available (zlen storage_dir + zlen name + 2) = true -> creatable (path_of name) = true ->
  Forall (eq None) (answers (writes w)) -> holds (clients w) (a ++ self :: b) -> self ∉ a ->
  exists w', thread fuel w self = Ok (true, w') /\ files w' = <[path_of name := file]> (files w) /\
    outgoing (ssock w') = outgoing (ssock w) ++ word FILE_ACCEPTED_MAGIC /\ holds (clients w') (a ++ b).
Proof.
  intros Hclock Hu Hs Hf Ha Hn Hzn Hzf Av1 Av2 Hcr Hwr Hh Hself. unfold client_thread_main.
  pose proof (zlen_nonneg name). pose proof (zlen_nonneg file).
  unfold request in Ha. rewrite <- app_assoc in Ha.
  destruct (receive_begin_known fuel w _ _ Hu Ha Hf) as (s1 & -> & H1 & Ha1); [done|cbn; lia|cbn; lia|].
  rewrite bool_decide_true by done. cbn [negb filename_size file_size]. rewrite Av1. cbn [negb].
  rewrite <- app_assoc in Ha1.
  destruct (receive_filename_known fuel (set_sock w s1) name (file ++ rest)) as (s2 & -> & H2 & Ha2);
    [by apply (rc_undisturbed _ _ _ H1)|cbn; rewrite Ha1; by rewrite <- !app_assoc|by eapply budget_received|done|].
  rewrite bool_decide_true by done. cbn [negb]. unfold create_file_in_storage.
  fold (path_of name). rewrite Av2. cbn [negb]. rewrite Hcr. cbn iota.
  set (w2 := mkServer _ _ _ _ _). unfold receive_file. cbn [get_mono_time].
  set (w3 := mkServer _ (S _) _ _ _).
  assert (Hr3 : received (ssock w) (ssock w3) (_ ++ _)) by (eapply received_trans; [exact H1|exact H2]).
  destruct (receive_file_progress clock Hclock fuel w3 (path_of name) 0 (zlen file) 0 (clock (ticks w2))) as (w4 & E); try lia.
  { by apply (rc_undisturbed _ _ _ Hr3). }
  { cbn. rewrite Ha2, zlen_app. pose proof (zlen_nonneg rest). lia. }
  { by eapply budget_received. }
  { done. }
  { done. }
  { cbn. rewrite lookup_insert_eq. by eexists. }
  rewrite E. apply (receive_file_inv clock fuel w3 _ _ _ _ _ _ _ []) in E as (p & D & Hr4 & Hc4 & Hf4 & _ & Hst & Ha4); [|lia|cbn; by rewrite lookup_insert_eq].
  destruct (Hst eq_refl) as [HD Hzp]. cbn [app stream writes w3 w2] in HD. apply (received_prefix _ _ _ file rest) in Hr4 as Hp; [|done|lia]. destruct Hp as [-> _].
  destruct (send_accepted_known w4) as (s5 & -> & Ho5).
  { eapply received_sending; [exact Hr4|]. by eapply received_sending. }
  rewrite bool_decide_true by done. cbn [negb]. unfold finish, close_file.
  destruct (fclose_spec (set_sock w4 s5) (path_of name) D) as (Hs6 & Hc6 & D' & Hf6 & _ & HD'); [cbn; by rewrite Hf4, lookup_insert_eq|].
  destruct (remove_client_spec (clients (fclose (set_sock w4 s5) (path_of name))) a self b) as (c & -> & Hc); [rewrite Hc6; cbn; rewrite Hc4; exact Hh|done|].
  eexists. split; [done|]. cbn. split; [|split; [|done]].
  - rewrite Hf6, HD' by (by apply Ha4). cbn. rewrite HD, Hf4. cbn. by rewrite !insert_insert_eq.
  - rewrite Hs6. cbn. rewrite Ho5, (rc_outgoing _ _ _ Hr4), (rc_outgoing _ _ _ Hr3). done.
Qed.
End Thread.

(** C7.  A file goes through: whatever parts the calls of [send] and [recv] pass on, the
    client succeeds when the server's answer arrives; and the server's thread, once what
    the client sent arrives in segments of any sizes and at any speed, stores exactly the
    contents of the file under the name behind the last slash, whenever the stream is
    emptied and as long as the disk takes every write, sends that answer, and takes the
    client off the list. *)
Theorem file_delivered (clock : nat -> timespec) (available : Z -> bool) (creatable : list Z -> bool)
    (storage_dir path file : list Z) (c : sock) (w : server) (self : Z) (a b : list Z) (fuel : nat) :
  let name := basename path in
  sending c -> undisturbed c -> outgoing c = [] -> arriving c = word FILE_ACCEPTED_MAGIC ->
  Forall (fun x => x <> 0) path -> zlen name + 1 < 2 ^ 64 -> zlen file < 2 ^ 64 ->
  (forall n, time_ok (clock n)) -> (forall n, available n = true) -> creatable (path_of storage_dir name) = true ->
  Forall (eq None) (answers (writes w)) -> sending (ssock w) -> undisturbed (ssock w) -> holds (clients w) (a ++ self :: b) -> self ∉ a ->
  (budget c <= fuel)%nat -> (budget (ssock w) <= fuel)%nat ->
  exists c', send_file fuel c path (Some file) true = Ok (OK, c') /\
    (arriving (ssock w) = outgoing c' -> exists w',
       client_thread_main clock available creatable storage_dir fuel w self = Ok (true, w') /\
       files w' = <[path_of storage_dir name := file]> (files w) /\
       outgoing (ssock w') = outgoing (ssock w) ++ arriving c /\ holds (clients w') (a ++ b)).
Proof.
  intros name Hs Hu Ho Ha Hnz Hzn Hzf Hclock Hav Hcr Hwr Hsw Huw Hh Hself Hfc Hfw.
  destruct (send_file_ok fuel c path file []) as (c' & E & Hout); [done|done|by rewrite app_nil_r|done|done|].
  exists c'. split; [done|]. rewrite Hout, Ho, Ha. intros Harr.
  apply (thread_stores clock available creatable storage_dir fuel w self a b name file []); auto.
  - by rewrite app_nil_r.
  - by apply basename_Forall.
Qed.

Definition demo_path : list Z := [47; 100; 47; 120].
Definition demo_file : list Z := [1; 0; 255].
Definition demo_request : list Z := request [120] demo_file.
Definition demo_clock (n : nat) : timespec := mkTime 5 (Z.of_nat n mod 10 ^ 9).
Definition demo_server (inc : list (list Z + errno)) : server :=
  mkServer (mkSock inc [] []) 0 (mkStdio [] [false] []) ∅ (mkClients ([7; 8; 9] ++ replicate 13 0) 3).

Lemma file_delivered_witness :
  exists c' w',
    send_file 50 (mkSock [inl (take 3 (word FILE_ACCEPTED_MAGIC)); inl (drop 3 (word FILE_ACCEPTED_MAGIC))] [inl 5; inl 30; inl 1; inl 1] [])
      demo_path (Some demo_file) true = Ok (OK, c') /\
    client_thread_main demo_clock (fun _ => true) (fun _ => true) [117] 50
      (demo_server [inl (take 10 demo_request); inl (drop 10 demo_request)]) 8 = Ok (true, w') /\
    files w' = {[ [117; 47; 120] := demo_file ]}.
Proof.
  destruct (file_delivered demo_clock (fun _ => true) (fun _ => true) [117] demo_path demo_file
    (mkSock [inl (take 3 (word FILE_ACCEPTED_MAGIC)); inl (drop 3 (word FILE_ACCEPTED_MAGIC))] [inl 5; inl 30; inl 1; inl 1] [])
    (demo_server [inl (take 10 demo_request); inl (drop 10 demo_request)]) 8 [7] [9] 50) as (c' & E & H).
  - repeat (apply Forall_cons; split; [by eexists|]). apply Forall_nil_2.
  - repeat (apply Forall_cons; split; [split; [done|by repeat constructor]|]). apply Forall_nil_2.
  - reflexivity.
  - by vm_compute.
  - repeat constructor; done.
  - by vm_compute.
  - by vm_compute.
  - intros n. split; cbn; [lia|]. apply Z.mod_pos_bound. lia.
  - done.
  - done.
  - constructor.
  - constructor.
  - repeat (apply Forall_cons; split; [split; [done|by repeat constructor]|]). apply Forall_nil_2.
  - split; [by vm_compute|]. split; [by vm_compute|]. split; by vm_compute.
  - apply (bool_decide_unpack _). by vm_compute.
  - apply Nat.leb_le. by vm_compute.
  - apply Nat.leb_le. by vm_compute.
  - pose proof E as E'. vm_compute in E'. injection E' as <-.
    destruct H as (w' & Hw & Hf & _); [by vm_compute|]. do 2 eexists. split; [exact E|]. split; [exact Hw|exact Hf].
Defined.

(** ** What any run of the thread does *)

Lemma finish_inv w self file success ok w' :
  finish w self (Some file) success = Ok (ok, w') -> ok = success /\ ssock w' = ssock (close_file w file) /\ files w' = files (close_file w file).
Proof.
  unfold finish. intros H. destruct (remove_from_clients_list _ _); [|done]. by injection H as <- <-.
Qed.

Lemma receive_begin_inv fuel w st d w' :
  receive_begin_dto fuel w = Ok (st, d, w') ->
  exists bs s, w' = set_sock w s /\ received (ssock w) s bs /\ d = begin_of bs /\
    (st = OK -> zlen bs = 24 /\ magic d = BEGIN_FILE_TRANSFER_MAGIC).
Proof.
  unfold receive_begin_dto. destruct (receive_buffer fuel (ssock w) 24) as [[[st1 bs] s]|] eqn:E; [|done].
  apply receive_buffer_inv in E as [Hr Hl]; [|lia]. cbn iota zeta. intros H. exists bs, s.
  destruct (decide (st1 = OK)) as [->|].
  - rewrite bool_decide_true in H by done. cbn [negb orb] in H.
    destruct (Z.eqb_spec (magic (begin_of bs)) BEGIN_FILE_TRANSFER_MAGIC); injection H as <- <- <-; naive_solver.
  - rewrite bool_decide_false in H by done. by injection H as <- <- <-.
Qed.

Lemma receive_filename_inv fuel w size st name w' :
  receive_filename fuel w size = Ok (st, name, w') -> 0 <= size ->
  exists bs s, w' = set_sock w s /\ received (ssock w) s bs /\ (st = OK -> zlen bs = size /\ string_at bs = Ok name).
Proof.
  unfold receive_filename. destruct (receive_buffer fuel (ssock w) size) as [[[st1 bs] s]|] eqn:E; [|done].
  intros H Hs. apply receive_buffer_inv in E as [Hr Hl]; [|done]. exists bs, s.
  destruct (decide (st1 = OK)) as [->|].
  - rewrite bool_decide_true in H by done. cbn [negb] in H. destruct (string_at bs); [|done].
    injection H as <- <- <-. naive_solver.
  - rewrite bool_decide_false in H by done. by injection H as <- <- <-.
Qed.

Lemma send_accepted_inv w st w' :
  send_accepted_dto w = Ok (st, w') ->
  files w' = files w /\ writes w' = writes w /\ (st = OK -> outgoing (ssock w') <> outgoing (ssock w)).
Proof.
  unfold send_accepted_dto, send_buffer.
  destruct (send_buffer_loop_spec (length (word FILE_ACCEPTED_MAGIC)) (ssock w) (word FILE_ACCEPTED_MAGIC))
    as (st1 & s & n & -> & Hs & Hc & _); [done|]. intros H.
  destruct (decide (st1 = OK)) as [->|].
  - rewrite bool_decide_true in H by done. injection H as <- <-. split; [done|]. split; [done|]. intros _. cbn.
    rewrite (se_outgoing _ _ _ Hs), (Hc eq_refl). intros E. apply (f_equal length) in E.
    rewrite length_app, length_word in E. lia.
  - rewrite bool_decide_false in H by done. by injection H as <- <-.
Qed.

Lemma begin_of_sizes bs : bytes bs -> 0 <= filename_size (begin_of bs) /\ 0 <= file_size (begin_of bs).
Proof. intros H. split; apply unword_bound, Forall_take, Forall_drop, H. Qed.

(** A request with its parts, at the front of what arrives. *)
Record complete_request (arriving name content : list Z) : Prop := {
  cr_parts : exists hdr namebuf rest, arriving = hdr ++ namebuf ++ content ++ rest /\ zlen hdr = 24 /\
    magic (begin_of hdr) = BEGIN_FILE_TRANSFER_MAGIC /\ zlen namebuf = filename_size (begin_of hdr) /\
    zlen content = file_size (begin_of hdr) /\ string_at namebuf = Ok name
}.

Lemma received_bytes s s' p : received s s' p -> sock_ok s -> bytes p /\ sock_ok s'.
Proof.
  intros [_ _ Ha _ Hok _] Hs. split; [|auto]. pose proof (arriving_bytes s Hs) as Hb. rewrite Ha in Hb.
  by apply Forall_app in Hb as [? _].
Qed.

Section AnyRun.
Context (clock : nat -> timespec) (available : Z -> bool) (creatable : list Z -> bool) (storage_dir : list Z).

(** After the name has been received. *)
Lemma store_inv fuel w w' size name self ok :
  0 <= size ->
  match create_file_in_storage available creatable storage_dir w name with
  | (None, w) => finish w self (Some None) false
  | (Some path, w) =>
      let* '(status, w) := receive_file clock fuel w size path in
      match status with
      | INTERRUPTED => finish (remove_file_from_storage w path) self (Some None) true
      | OK =>
          let* '(status, w) := send_accepted_dto w in
          if negb (bool_decide (status = OK)) then finish w self (Some (Some path)) false else finish w self (Some (Some path)) true
      | _ => finish w self (Some (Some path)) false
      end
  end = Ok (ok, w') ->
  (outgoing (ssock w') <> outgoing (ssock w) -> exists content rest D,
     arriving (ssock w) = content ++ rest /\ zlen content = size /\ files w' !! path_of storage_dir name = Some D /\ D `prefix_of` content /\
     (Forall (eq None) (answers (writes w)) -> D = content)) /\
  (ok = true -> outgoing (ssock w') = outgoing (ssock w) -> files w' = delete (path_of storage_dir name) (files w)).
Proof.
  intros Hsz. unfold create_file_in_storage. fold (path_of storage_dir name). destruct (negb (available _)).
  { intros (-> & Hs & _)%finish_inv. rewrite Hs. done. }
  destruct (creatable (path_of storage_dir name)).
  2: { intros (-> & Hs & _)%finish_inv. rewrite Hs. done. }
  unfold receive_file. cbn [get_mono_time].
  destruct (receive_file_loop clock fuel _ (path_of storage_dir name) 0 size 0 _) as [[st w1]|] eqn:E; [|done].
  apply (receive_file_inv clock fuel _ _ _ _ _ _ _ _ []) in E as (p & D & Hr & _ & Hf & Hp & Hst & Ha); [|lia|cbn; by rewrite lookup_insert_eq].
  cbn in Hr, Hf, Hp, Hst, Ha. rewrite insert_insert_eq in Hf. rewrite <- (rc_outgoing _ _ _ Hr).
  assert (Hd : files w1 !! path_of storage_dir name = Some D) by (by rewrite Hf, lookup_insert_eq).
  destruct (fclose_spec w1 (path_of storage_dir name) D Hd) as (Hcs & _ & D1 & Hcf & _).
  destruct st; try (intros (-> & Hs & _)%finish_inv; cbn [close_file] in Hs; rewrite Hs, Hcs; done).
  - destruct (Hst eq_refl) as [HD Hz]. destruct (send_accepted_dto w1) as [[st2 w2]|] eqn:E2; [|done].
    apply send_accepted_inv in E2 as (Hf2 & Hw2 & Ho2). intros H.
    destruct (fclose_spec w2 (path_of storage_dir name) D) as (Hs3 & _ & D3 & Hf3 & Hp3 & HD3); [by rewrite Hf2|].
    assert (Hfs : files w' = files (fclose w2 (path_of storage_dir name)) /\ ssock w' = ssock w2 /\ (ok = true -> st2 = OK)).
    { destruct (decide (st2 = OK)) as [->|].
      - rewrite bool_decide_true in H by done. by apply finish_inv in H as (-> & -> & ->).
      - rewrite bool_decide_false in H by done. by apply finish_inv in H as (-> & -> & ->). }
    destruct Hfs as (Hfs & -> & Hok). split; [|by intros Hk He; destruct Ho2; [apply Hok|]]. rewrite Hw2 in *. rewrite HD in *.
    intros _. exists p, (arriving (ssock w1)), D3. split; [apply Hr|]. split; [lia|]. split; [by rewrite Hfs, Hf3, lookup_insert_eq|]. split; [done|]. intros H0. by apply HD3, Ha.
  - intros (-> & Hs & Hfs)%finish_inv. cbn in Hs, Hfs. rewrite Hs, Hcs. split; [done|]. intros _ _.
    by rewrite Hfs, Hcf, Hf, !delete_insert_eq.
Qed.
End AnyRun.

(** C25.  Whatever arrives and whatever fails: the server sends nothing, and so no
    confirmation, unless a whole request has arrived, with the announced number of bytes
    behind the name.  The file then holds a front of them: all of them when the disk
    takes every write, but maybe not when the last one fails, which happens in [fclose]
    after the confirmation and is not looked at.  A thread that ends successfully without
    a confirmation has removed the file. *)
Theorem accepted_complete (clock : nat -> timespec) (available : Z -> bool) (creatable : list Z -> bool)
    (storage_dir : list Z) (fuel : nat) (w w' : server) (self : Z) (ok : bool) :
  sock_ok (ssock w) -> client_thread_main clock available creatable storage_dir fuel w self = Ok (ok, w') ->
  (outgoing (ssock w') <> outgoing (ssock w) -> exists name content D,
     complete_request (arriving (ssock w)) name content /\ files w' !! path_of storage_dir name = Some D /\ D `prefix_of` content /\
     (Forall (eq None) (answers (writes w)) -> D = content)) /\
  (ok = true -> outgoing (ssock w') = outgoing (ssock w) -> exists name,
     files w' = delete (path_of storage_dir name) (files w)).
Proof.
  intros Hok. unfold client_thread_main.
  destruct (receive_begin_dto fuel w) as [[[st d] w1]|] eqn:E1; [|done].
  apply receive_begin_inv in E1 as (bs & s1 & -> & H1 & -> & Hst1).
  destruct (decide (st = OK)) as [->|]; [|by rewrite bool_decide_false by done].
  rewrite bool_decide_true by done. cbn [negb]. destruct (Hst1 eq_refl) as [Hz1 Hm1].
  destruct (received_bytes _ _ _ H1 Hok) as [Hb1 Hok1]. destruct (begin_of_sizes bs Hb1) as [Hsz1 Hsz2].
  destruct (negb (available _)); [done|].
  destruct (receive_filename fuel (set_sock w s1) (filename_size (begin_of bs))) as [[[st2 name] w2]|] eqn:E2; [|done].
  apply receive_filename_inv in E2 as (nb & s2 & -> & H2 & Hst2); [|done].
  destruct (decide (st2 = OK)) as [->|]; [|by rewrite bool_decide_false by done].
  rewrite bool_decide_true by done. cbn [negb]. destruct (Hst2 eq_refl) as [Hz2 Hn2]. intros Hrun.
  apply store_inv in Hrun as [Hacc Hdel]; [|done]. cbn in Hacc, Hdel, H2.
  rewrite (rc_outgoing _ _ _ H2), (rc_outgoing _ _ _ H1) in Hacc, Hdel. split.
  - intros Hne. destruct (Hacc Hne) as (content & rest & D & Ha & Hz & Hf). exists name, content, D. split; [|done].
    split. exists bs, nb, rest. rewrite (rc_arriving _ _ _ H1), (rc_arriving _ _ _ H2), Ha. done.
  - intros Hk He. exists name. by apply Hdel.
Qed.

(** The stream holds the file back until it is closed, and then the disk takes two bytes
    of it. *)
Definition torn_server : server :=
  mkServer (mkSock [inl (take 27 demo_request); inr EAGAIN; inl (drop 27 demo_request)] [] []) 0 (mkStdio [] [false] [Some 2]) ∅
    (mkClients ([7; 8; 9] ++ replicate 13 0) 3).

Lemma accepted_complete_witness :
  exists w' name content D,
    client_thread_main demo_clock (fun _ => true) (fun _ => true) [117] 50
      torn_server 8 = Ok (true, w') /\
    complete_request demo_request name content /\ files w' !! path_of [117] name = Some D /\ D `prefix_of` content /\ zlen D = 2.
Proof.
  destruct (client_thread_main demo_clock (fun _ => true) (fun _ => true) [117] 50
    torn_server 8) as [[ok w']|] eqn:E;
    [|by vm_compute in E].
  destruct (accepted_complete demo_clock (fun _ => true) (fun _ => true) [117] 50 torn_server w' 8 ok) as [H _]; [|exact E|].
  - repeat (apply Forall_cons; split; [(split; [done|by repeat constructor]) || exact I|]). apply Forall_nil_2.
  - vm_compute in E. injection E as <- <-. destruct H as (name & content & D & Hc & Hf & Hp & _); [by vm_compute|].
    eexists _, name, content, D. split; [done|]. split; [exact Hc|]. split; [exact Hf|]. split; [exact Hp|].
    assert (Hn : name = [120]).
    { destruct Hc as [(hdr & nb & rest & Ha & Hz & _ & Hnb & _ & Hs)]. clear -Ha Hz Hnb Hs.
      apply (f_equal (fun l => (take 24 l, drop 24 l))) in Ha. rewrite take_app_length', drop_app_length' in Ha by (unfold zlen in Hz; lia). injection Ha as Hh Ht.
      rewrite <- Hh in Hnb. change (zlen nb = 2) in Hnb. unfold zlen in Hnb. destruct nb as [|x [|y [|z nb]]]; try (cbn in Hnb; lia).
      vm_compute in Ht. injection Ht as <- <- _. vm_compute in Hs. by injection Hs as <-. }
    rewrite Hn in Hf. vm_compute in Hf. injection Hf as <-. reflexivity.
Defined.

(** The array of active clients is the list of the clients whose thread has been
    created and has not ended, in their order: creation appends until there are 16, and
    removal takes out a client that is in the list.  A client too many makes the server
    close its own listening socket, so that it stops with an error at the next one. *)
Theorem clients_list_refines (garbage : list Z) (c : ActiveClients_t) (l : list Z) :
  zlen garbage = 16 -> holds c l ->
  holds (clients_list_init garbage) [] /\
  (forall fresh created,
     if zlen l =? 16 then create_client_thread c fresh created = Ok (CLIENTS_LIMIT_REACHED, c)
     else if created then exists c', create_client_thread c fresh created = Ok (OK, c') /\ holds c' (l ++ [fresh])
     else create_client_thread c fresh created = Ok (ERROR, c)) /\
  (forall a x b, l = a ++ x :: b -> x ∉ a -> exists c', remove_from_clients_list c x = Ok c' /\ holds c' (a ++ b)) /\
  (zlen l = 16 -> forall fresh created e events,
     run_accept_clients_loop (Client fresh created :: e :: events) true c = Ok (ERROR, c)).
Proof.
  intros Hg Hh. assert (Hc : count c = zlen l) by apply Hh. split; [|split; [|split]].
  - split; [done|]. split; [done|]. split; [by vm_compute|done].
  - intros fresh created. unfold create_client_thread, MAX_ALLOWED_CLIENTS. rewrite Hc.
    destruct (Z.eqb_spec (zlen l) 16); [done|]. destruct created; [|done]. cbn [negb].
    destruct (add_client_spec c l fresh Hh) as (c' & -> & Hc'); [destruct Hh as (_ & _ & ? & _); lia|]. by exists c'.
  - intros a x b -> Hx. by apply remove_client_spec.
  - intros H16 fresh created e events. cbn. unfold create_client_thread, MAX_ALLOWED_CLIENTS. by rewrite Hc, H16.
Qed.

Lemma clients_list_refines_witness :
  let c := mkClients ([7; 8; 9] ++ replicate 13 0) 3 in
  (exists c', remove_from_clients_list c 8 = Ok c' /\ holds c' [7; 9]) /\
  (exists c', create_client_thread c 5 true = Ok (OK, c') /\ holds c' [7; 8; 9; 5]).
Proof.
  intros c. destruct (clients_list_refines (replicate 16 0) c [7; 8; 9]) as (_ & Hadd & Hrem & _); [done| |].
  - split; [by vm_compute|]. split; [by vm_compute|]. split; by vm_compute.
  - split; [apply (Hrem [7] 8 [9]); [done|]|exact (Hadd 5 true)]. apply (bool_decide_unpack _). by vm_compute.
Defined.

(** ** What goes wrong *)

Lemma receive_buffer_hangs fuel : forall s buf size,
  undisturbed s -> zlen buf + zlen (arriving s) < size -> receive_buffer_loop fuel s buf size = Err OutOfFuel.
Proof.
  induction fuel as [|fuel IH]; intros s buf size Hu Hz; cbn [receive_buffer_loop]; pose proof (zlen_nonneg (arriving s));
    (destruct (Z.ltb_spec (zlen buf) size); [|lia]); [done|].
  destruct (recv s (size - zlen buf)) as [r s1] eqn:E. pose proof E as E'.
  apply recv_spec in E' as ([_ _ Ha _ _ Hu1] & _ & _); [|lia]. destruct r as [p|e].
  - apply IH; [auto|]. cbn in Ha. rewrite Ha, zlen_app in Hz. rewrite zlen_app. lia.
  - exfalso. unfold recv in E. destruct s as [[|[seg|e'] rest] snd out]; cbn in E; [done|done|].
    unfold undisturbed in Hu. cbn in Hu. by apply Forall_cons in Hu as [[] _].
Qed.

Lemma send_buffer_once s buf rest :
  buf <> [] -> sends s = inl (zlen buf) :: rest ->
  send_buffer s buf = Ok (OK, mkSock (incoming s) rest (outgoing s ++ buf)).
Proof.
  intros Hb Hs. assert (H : 1 <= zlen buf) by (destruct buf; [done|]; rewrite zlen_cons; pose proof (zlen_nonneg buf); lia).
  unfold send_buffer. destruct (length buf) as [|n] eqn:El; [unfold zlen in H; lia|]. cbn [send_buffer_loop].
  destruct (Z.ltb_spec 0 (zlen buf)); [|lia]. unfold send. rewrite Hs.
  rewrite Z.min_id, Z.max_r by done. assert (Ez : Z.to_nat (zlen buf) = length buf) by (unfold zlen; lia).
  rewrite Ez, drop_all, firstn_all. by destruct n.
Qed.

(** Three ways to fail.  When the other side closes the connection before the header
    is complete the server's thread never ends: it keeps calling [recv], which returns 0.
    When the header does not start with the magic number the thread closes a file that
    was never set up, which is undefined.  And when the client's timer interrupts a call of
    [send], the client reports success although nothing of the file was sent. *)
Theorem transfer_faults (clock : nat -> timespec) (available : Z -> bool) (creatable : list Z -> bool) (storage_dir : list Z) :
  (forall w self, undisturbed (ssock w) -> zlen (arriving (ssock w)) < 24 ->
     forall fuel, client_thread_main clock available creatable storage_dir fuel w self = Err OutOfFuel) /\
  (forall w self hdr rest fuel, undisturbed (ssock w) -> arriving (ssock w) = hdr ++ rest -> zlen hdr = 24 ->
     magic (begin_of hdr) <> BEGIN_FILE_TRANSFER_MAGIC -> (budget (ssock w) <= fuel)%nat ->
     client_thread_main clock available creatable storage_dir fuel w self = Err Undefined) /\
  (forall c path file fuel, let name := basename path in
     file <> [] -> sends c = [inl 24; inl (zlen name + 1); inr EINTR] -> exists c',
     send_file fuel c path (Some file) true = Ok (OK, c') /\
     outgoing c' = outgoing c ++ begin_bytes (mkBegin BEGIN_FILE_TRANSFER_MAGIC (zlen name + 1) (zlen file)) ++ name ++ [0]).
Proof.
  split; [|split].
  - intros w self Hu Hz fuel. unfold client_thread_main, receive_begin_dto, receive_buffer.
    by rewrite receive_buffer_hangs by (rewrite ?zlen_nil; done || lia).
  - intros w self hdr rest fuel Hu Ha Hz Hm Hf. unfold client_thread_main, receive_begin_dto.
    destruct (receive_known fuel (ssock w) hdr rest) as (s & E & _); [done..|]. rewrite Hz in E. rewrite E.
    rewrite bool_decide_true by done. cbn [negb orb]. destruct (Z.eqb_spec (magic (begin_of hdr)) BEGIN_FILE_TRANSFER_MAGIC); [done|].
    cbn [negb]. by rewrite bool_decide_false by done.
  - intros c path file fuel name Hfile Hs. unfold send_file. fold name. set (dto := mkBegin _ _ _).
    rewrite (send_buffer_once c _ [inl (zlen name + 1); inr EINTR]); [|by intros E%(f_equal zlen); rewrite zlen_begin in E|by rewrite zlen_begin].
    rewrite bool_decide_true by done. cbn [negb].
    rewrite (send_buffer_once _ (name ++ [0]) [inr EINTR]); [|by destruct name|cbn; by rewrite zlen_app].
    rewrite bool_decide_true by done. cbn [negb incoming outgoing].
    destruct file as [|x file]; [done|]. cbn [length send_chunks_loop file_size dto].
    destruct (Z.ltb_spec 0 (zlen (x :: file))) as [_|H]; [|rewrite zlen_cons in H; pose proof (zlen_nonneg file); lia].
    change (take (Z.to_nat FILE_CHUNK_SIZE) (x :: file)) with (x :: take 4095 file). cbn [length send_chunk_loop].
    destruct (Z.ltb_spec 0 (zlen (x :: take 4095 file))) as [_|H]; [|rewrite zlen_cons in H; pose proof (zlen_nonneg (take 4095 file)); lia].
    cbn. eexists. split; [done|]. cbn. by rewrite <- app_assoc.
Qed.

Lemma transfer_faults_witness :
  (forall fuel, client_thread_main demo_clock (fun _ => true) (fun _ => true) [117] fuel (demo_server [inl [1; 2; 3]]) 8 = Err OutOfFuel) /\
  client_thread_main demo_clock (fun _ => true) (fun _ => true) [117] 50 (demo_server [inl (replicate 24 1)]) 8 = Err Undefined.
Proof.
  destruct (transfer_faults demo_clock (fun _ => true) (fun _ => true) [117]) as (H1 & H2 & _). split.
  - apply H1; [|by vm_compute]. apply Forall_cons. split; [split; [done|by repeat constructor]|apply Forall_nil_2].
  - apply (H2 _ 8 (replicate 24 1) []); [|done|done|by vm_compute|apply Nat.leb_le; by vm_compute].
    apply Forall_cons. split; [split; [done|by repeat constructor]|apply Forall_nil_2].
Defined.
