(* ===== verification/Socks.v ===== *)
(** * Networks/5-socks_proxy: the SOCKS server

    The coroutine that serves one client ([socks5.c]), on the transmission functions of
    [server.c].  Sockets are those of [Sockets]: a call that would block lets other
    coroutines run and is repeated, which for the coroutine itself is the same as taking
    the [EAGAIN] off the list.  [client_drop] does not return; a program is a function of
    the state that ends with a value or without one, when the client has been dropped.

    The name resolution, the hosts that accept connections and the names of their sockets
    are arguments.  Memory is a list of bytes, numbers of more than a byte are as the
    little-endian machine holds them, and allocation succeeds. *)
From S2P Require Import Prelude Sockets.
#[local] Set Warnings "-clear-no-such-hyp".

(** ** The coroutine *)

(** An address is the 4 bytes of the host and the 2 bytes of the port, in the order of the
    network. *)
Definition address : Type := list Z * list Z.

(** The client, the host when there is a connection to one, the answers of [socket], and
    the addresses that [connect] was called with. *)
Record world := mkWorld {
  client : sock;
  host : option sock;
  sockets : list bool;
  dialled : list address
}.

Definition prog (A : Type) : Type := world -> res (option A * world).

#[export] Instance prog_ret : MRet prog := fun A a w => Ok (Some a, w).

#[export] Instance prog_bind : MBind prog := fun A B f m w =>
  match m w with
  | Ok (Some a, w) => f a w
  | Ok (None, w) => Ok (None, w)
  | Err e => Err e
  end.

Definition client_drop {A : Type} : prog A := fun w => Ok (None, w).

(** ** server.c *)

Fixpoint client_recv_loop (fuel : nat) (s : sock) (n : Z) : res (Z * list Z * sock) :=
  match recv s n with
  | (inr EAGAIN, s) => match fuel with O => Err OutOfFuel | S fuel => client_recv_loop fuel s n end
  | (inr _, s) => Ok (-1, [], s)
  | (inl p, s) => Ok (zlen p, p, s)
  end.

(** The value returned and the bytes. *)
Definition client_recv (s : sock) (n : Z) : res (Z * list Z * sock) := client_recv_loop (length (incoming s)) s n.

Fixpoint client_send_loop (fuel : nat) (s : sock) (p : list Z) : res (Z * sock) :=
  match send s p with
  | (inr EAGAIN, s) => match fuel with O => Err OutOfFuel | S fuel => client_send_loop fuel s p end
  | (inr _, s) => Ok (-1, s)
  | (inl n, s) => Ok (n, s)
  end.

Definition client_send (s : sock) (p : list Z) : res (Z * sock) := client_send_loop (length (sends s)) s p.

Definition io_failed (ret : Z) : bool := (ret =? -1) || (ret =? 0).

Fixpoint recv_buf_loop (fuel : nat) (s : sock) (buf : list Z) (size : Z) : res (Z * list Z * sock) :=
  if zlen buf <? size then
    match fuel with
    | O => Err OutOfFuel
    | S fuel =>
        let* '(ret, p, s) := client_recv s (size - zlen buf) in
        if io_failed ret then Ok (ret, buf, s) else recv_buf_loop fuel s (buf ++ p) size
    end
  else Ok (size, buf, s).

(** For a size of 0 the result is 0, which the callers take for a closed socket. *)
Definition recv_buf (s : sock) (size : Z) : res (Z * list Z * sock) := recv_buf_loop (Z.to_nat size) s [] size.

Fixpoint send_buf_loop (fuel : nat) (s : sock) (buf : list Z) (size : Z) : res (Z * sock) :=
  if 0 <? zlen buf then
    match fuel with
    | O => Err OutOfFuel
    | S fuel =>
        let* '(ret, s) := client_send s buf in
        if io_failed ret then Ok (ret, s) else send_buf_loop fuel s (drop (Z.to_nat ret) buf) size
    end
  else Ok (size, s).

Definition send_buf (s : sock) (buf : list Z) : res (Z * sock) := send_buf_loop (length buf) s buf (zlen buf).

Definition NODATA : Z := -2.

Definition recv_nonblock (s : sock) (n : Z) : Z * list Z * sock :=
  match recv s n with
  | (inr EAGAIN, s) => (NODATA, [], s)
  | (inr _, s) => (-1, [], s)
  | (inl p, s) => (zlen p, p, s)
  end.

(** On the client's socket, in the state. *)
Definition set_client (w : world) (s : sock) : world := mkWorld s (host w) (sockets w) (dialled w).
Definition set_host (w : world) (s : sock) : world := mkWorld (client w) (Some s) (sockets w) (dialled w).

Definition client_recv_buf (size : Z) : prog (Z * list Z) := fun w =>
  let* '(ret, p, s) := recv_buf (client w) size in Ok (Some (ret, p), set_client w s).

Definition client_send_buf (buf : list Z) : prog Z := fun w =>
  let* '(ret, s) := send_buf (client w) buf in Ok (Some ret, set_client w s).

(** ** socks5.c *)

Definition BUFSIZE : Z := 4096.
Definition SOCKS_VERSION5 : Z := 5.
Definition NOAUTH : Z := 0.
Definition NOMETHODS : Z := 0xff.
Definition CONNECT : Z := 1.
Definition BIND : Z := 2.
Definition UDP_ASSOCIATE : Z := 3.
Definition IPV4 : Z := 1.
Definition DOMAINNAME : Z := 3.
Definition IPV6 : Z := 4.
Definition SUCCEEDED : Z := 0.
Definition SERVER_FAILURE : Z := 1.
Definition HOST_UNREACHABLE : Z := 4.
Definition CONN_REFUSED : Z := 5.
Definition COMMAND_NOT_SUPPORTED : Z := 7.
Definition ADDRESS_TYPE_NOT_SUPPORTED : Z := 8.

Definition io_error {A : Type} (ret : Z) : prog A := client_drop.

(** [if (ret == -1 || ret == 0) io_error(ret)], after sending and after receiving. *)
Definition must_send (buf : list Z) : prog unit :=
  ret ← client_send_buf buf; if io_failed ret then io_error ret else mret tt.

Definition must_recv (size : Z) : prog (list Z) :=
  r ← client_recv_buf size; let '(ret, p) := r in if io_failed ret then io_error ret else mret p.

(** [bnd_addr] is the 16 bytes of the union, [bnd_name] the string that it points to when
    the type is [DOMAINNAME]. *)
Record cmd_response := mkResponse {
  r_ver : Z; r_rep : Z; r_rsv : Z; r_atyp : Z;
  bnd_addr : list Z; bnd_name : list Z; bnd_port : list Z
}.

Definition undefined {A : Type} : prog A := fun _ => Err Undefined.

Definition send_cmd_response (response : cmd_response) : prog unit :=
  _ ← must_send [r_ver response; r_rep response; r_rsv response; r_atyp response];
  _ ← (if r_atyp response =? IPV4 then must_send (take 4 (bnd_addr response))
       else if r_atyp response =? DOMAINNAME then
         if zlen (bnd_name response) <=? 16 then must_send (take (length (bnd_name response)) (bnd_addr response)) else undefined
       else if r_atyp response =? IPV6 then must_send (take 16 (bnd_addr response))
       else client_drop);
  must_send (bnd_port response).

Definition command_error {A : Type} (err : Z) : prog A :=
  _ ← send_cmd_response (mkResponse SOCKS_VERSION5 err 0 IPV4 (replicate 16 0) [] [0; 0]);
  client_drop.

Definition negotiate_auth_method : prog unit :=
  request ← must_recv 2;
  methods ← must_recv (znth request 1);
  if negb (znth request 0 =? SOCKS_VERSION5) then client_drop
  else
    let method := foldl (fun method m => if m =? NOAUTH then NOAUTH else method) NOMETHODS methods in
    if method =? NOMETHODS then client_drop
    else must_send [SOCKS_VERSION5; method].

(** The characters in front of the first 0, which is at the end at the latest. *)
Fixpoint c_chars (buf : list Z) : list Z :=
  match buf with
  | [] => []
  | c :: buf => if c =? 0 then [] else c :: c_chars buf
  end.

Definition receive_domain_name : prog (list Z) :=
  len ← must_recv 1;
  name ← must_recv (znth len 0);
  mret (c_chars name).

(** The union of the request. *)
Inductive destination := Ipv4 (addr : list Z) | DomainName (name : list Z) | Ipv6 (addr : list Z).

Record cmd_request := mkRequest { q_ver : Z; q_cmd : Z; q_atyp : Z; dst_addr : destination; dst_port : list Z }.

Definition receive_cmd_request : prog cmd_request :=
  hdr ← must_recv 4;
  if negb (znth hdr 0 =? SOCKS_VERSION5) then client_drop
  else
    dst ← (if znth hdr 3 =? IPV4 then p ← must_recv 4; mret (Ipv4 p)
           else if znth hdr 3 =? DOMAINNAME then name ← receive_domain_name; mret (DomainName name)
           else if znth hdr 3 =? IPV6 then p ← must_recv 6; mret (Ipv6 (p ++ replicate 10 0))
           else command_error ADDRESS_TYPE_NOT_SUPPORTED);
    port ← must_recv 2;
    mret (mkRequest (znth hdr 0) (znth hdr 1) (znth hdr 3) dst port).

Section Connecting.
(** What [ares_getaddrinfo] finds for a name and a port number, the hosts that accept a
    connection, and the local address of a connection, when [getsockname] knows it. *)
Context (resolve : list Z -> Z -> option (list address)) (accepts : address -> option sock)
  (sockname : address -> option address).

Definition create_host_socket : prog unit := fun w =>
  let '(ok, answers) := malloc (sockets w) in
  let w := mkWorld (client w) (host w) answers (dialled w) in
  if ok then Ok (Some tt, w) else command_error SERVER_FAILURE w.

(** The connection, when the host accepts it. *)
Definition connect (a : address) : prog (option sock) := fun w =>
  Ok (Some (accepts a), mkWorld (client w) (host w) (sockets w) (dialled w ++ [a])).

Definition ntohs (port : list Z) : Z := znth port 0 * 256 + znth port 1.

Fixpoint connect_nodes (nodes : list address) : prog (option (address * sock)) :=
  match nodes with
  | [] => mret None
  | a :: nodes =>
      _ ← create_host_socket;
      r ← connect a;
      match r with Some s => mret (Some (a, s)) | None => connect_nodes nodes end
  end.

Definition domain_name_connect (domain port : list Z) : prog (address * sock) :=
  match resolve domain (ntohs port) with
  | None => command_error HOST_UNREACHABLE
  | Some nodes =>
      r ← connect_nodes nodes;
      match r with Some c => mret c | None => command_error CONN_REFUSED end
  end.

(** [sin_addr] is a number of 4 bytes. *)
Definition ipv4_connect (ipv4 : Z) (port : list Z) : prog (address * sock) :=
  let sa := (Z_to_little_endian 4 8 ipv4, port) in
  _ ← create_host_socket;
  r ← connect sa;
  match r with Some s => mret (sa, s) | None => command_error CONN_REFUSED end.

(** The expression [(uint32_t) *cmd->dst_addr.ipv4] is the first byte of the address, and
    the assignment to [*response.bnd_addr.ipv4] sets one byte, to the lowest. *)
Definition cmd_connect (cmd : cmd_request) : prog sock :=
  _ ← create_host_socket;
  c ← match dst_addr cmd with
      | DomainName name => domain_name_connect name (dst_port cmd)
      | Ipv4 addr => ipv4_connect (znth addr 0) (dst_port cmd)
      | Ipv6 _ => command_error ADDRESS_TYPE_NOT_SUPPORTED
      end;
  let '(a, s) := (c : address * sock) in
  match sockname a with
  | None => client_drop
  | Some (addr, port) =>
      _ ← send_cmd_response (mkResponse SOCKS_VERSION5 SUCCEEDED 0 IPV4 (znth addr 0 :: replicate 15 0) [] port);
      mret s
  end.

(** One turn of the loop that passes data on: the sockets behind it, and whether the
    client is dropped. *)
Definition relay_step (c h : sock) : res (bool * sock * sock) :=
  let '(client_read, client_buf, c) := recv_nonblock c BUFSIZE in
  if client_read =? -1 then Ok (true, c, h)
  else
    let '(host_read, host_buf, h) := recv_nonblock h BUFSIZE in
    if host_read =? -1 then Ok (true, c, h)
    else
      let* h := (if client_read >? 0 then let* '(_, h) := send_buf h client_buf in Ok h else Ok h) in
      let* c := (if host_read >? 0 then let* '(_, c) := send_buf c host_buf in Ok c else Ok c) in
      Ok ((client_read =? 0) || (host_read =? 0), c, h).

Fixpoint relay (fuel : nat) (c h : sock) : res (sock * sock) :=
  match fuel with
  | O => Err OutOfFuel
  | S fuel => let* '(over, c, h) := relay_step c h in if over then Ok (c, h) else relay fuel c h
  end.

(** The loop ends when a stream does, so the client's stream bounds its turns. *)
Definition relay_loop : prog unit := fun w =>
  match host w with
  | None => Err Undefined
  | Some h =>
      let* '(c, h) := relay (S (budget (client w))) (client w) h in
      Ok (None, mkWorld c (Some h) (sockets w) (dialled w))
  end.

Definition connected (s : sock) : prog unit := fun w => Ok (Some tt, set_host w s).

Definition socks5_main : prog unit :=
  _ ← negotiate_auth_method;
  cmd_request ← receive_cmd_request;
  s ← (if q_cmd cmd_request =? CONNECT then cmd_connect cmd_request
       else if q_cmd cmd_request =? UDP_ASSOCIATE then command_error COMMAND_NOT_SUPPORTED
       else if q_cmd cmd_request =? BIND then command_error COMMAND_NOT_SUPPORTED
       else command_error COMMAND_NOT_SUPPORTED);
  _ ← connected s;
  relay_loop.
End Connecting.

(** A client asks for host 10.1.2.3, port 80, sends 2 bytes and closes. *)
Example socks_run :
  (let* '(_, w) := socks5_main (fun _ _ => None) (fun a => Some (mkSock [inl [7; 8; 9]] [] []))
     (fun _ => Some ([192; 168; 0; 1], [31; 64]))
     (mkWorld (mkSock [inl [5; 1; 0; 5; 1]; inr EAGAIN; inl [0; 1; 10; 1; 2; 3; 0; 80; 33; 34]] [] []) None [] []) in
   Ok (outgoing (client w), outgoing <$> host w, dialled w)) =
  Ok ([5; 0; 5; 0; 0; 1; 192; 0; 0; 0; 31; 64; 7; 8; 9], Some [33; 34], [([10; 0; 0; 0], [0; 80])]).
Proof. vm_compute. reflexivity. Qed.

(** ** Streams *)

(** Nothing but data and calls that would block. *)
Definition calm_event (e : list Z + errno) : Prop :=
  match e with inl p => segment_ok p | inr EAGAIN => True | inr _ => False end.
Definition calm (s : sock) : Prop := Forall calm_event (incoming s).
Definition flowing (s : sock) : Prop := Forall (fun r => r = inr EAGAIN \/ exists n, r = inl n) (sends s).

(** A connection that works in both directions: what is still to come and what was sent. *)
Record open_at (s : sock) (inp out : list Z) : Prop := {
  oa_calm : calm s;
  oa_flowing : flowing s;
  oa_arriving : arriving s = inp;
  oa_outgoing : outgoing s = out
}.

Lemma calm_ok s : calm s -> sock_ok s.
Proof.
  unfold calm, sock_ok. intros H. eapply Forall_impl; [exact H|]. by intros [p|[]].
Qed.

(** One call of [recv] on an open connection. *)
Lemma recv_open s n inp out r s' :
  0 < n -> open_at s inp out -> recv s n = (r, s') ->
  (exists p rest, r = inl p /\ p <> [] /\ zlen p <= n /\ inp = p ++ rest /\ open_at s' rest out /\ (budget s' < budget s)%nat) \/
  (r = inl [] /\ inp = [] /\ open_at s' [] out) \/
  (r = inr EAGAIN /\ open_at s' inp out /\ (length (incoming s') < length (incoming s))%nat /\ (budget s' < budget s)%nat).
Proof.
  intros Hn [Hc Hf Ha Ho] E. pose proof E as E'. apply recv_spec in E' as ([R1 R2 R3 R4 _ _] & Hl & Hb); [|done].
  destruct s as [inc snd outg]. unfold recv, calm, flowing in *. cbn in *. destruct inc as [|[seg|e] rest].
  - injection E as <- <-. right. left. split; [done|]. split; [by rewrite <- Ha|]. by split.
  - injection E as <- <-. apply Forall_cons in Hc as [Hs Hc]. left.
    exists (take (Z.to_nat n) seg), (arriving (mkSock match drop (Z.to_nat n) seg with [] => rest | _ :: _ => inl (drop (Z.to_nat n) seg) :: rest end snd outg)).
    assert (Ht : take (Z.to_nat n) seg <> []).
    { destruct Hs as [Hs _]. destruct seg; [done|]. by destruct (Z.to_nat n) eqn:?; [lia|]. }
    split; [done|]. split; [done|]. split; [done|]. split; [by rewrite <- Ha, R3; destruct (drop (Z.to_nat n) seg)|]. split.
    + split; [|done| |done].
      * unfold calm. cbn. destruct (drop (Z.to_nat n) seg) eqn:Ed; [done|]. constructor; [by eapply segment_ok_drop|done].
      * by destruct (drop (Z.to_nat n) seg).
    + destruct Hb as [(? & ? & ?)|]; done.
  - injection E as <- <-. apply Forall_cons in Hc as [He Hc]. destruct e; try done. right. right.
    split; [done|]. split; [split; [done|done|by rewrite <- Ha|done]|]. split; [cbn; lia|]. destruct Hb as [(? & ?)|]; done.
Qed.

Lemma client_recv_loop_open fuel : forall s n inp out,
  0 < n -> open_at s inp out -> (length (incoming s) <= fuel)%nat ->
  exists p rest s', client_recv_loop fuel s n = Ok (zlen p, p, s') /\ zlen p <= n /\ inp = p ++ rest /\ open_at s' rest out /\
    (inp <> [] -> p <> []).
Proof.
  induction fuel as [|fuel IH]; intros s n inp out Hn Ho Hf; cbn [client_recv_loop];
    destruct (recv s n) as [r s1] eqn:E; pose proof (recv_open _ _ _ _ _ _ Hn Ho E) as [(p & rest & -> & Hp & Hz & -> & Ho1 & _)|[(-> & -> & Ho1)|(-> & Ho1 & Hl & _)]];
    try (by exists p, rest, s1); try (exists [], [], s1; split; [done|]; split; [unfold zlen; cbn; lia|done]).
  - lia.
  - apply IH; [done|done|lia].
Qed.

Lemma client_recv_open s n inp out :
  0 < n -> open_at s inp out ->
  exists p rest s', client_recv s n = Ok (zlen p, p, s') /\ zlen p <= n /\ inp = p ++ rest /\ open_at s' rest out /\
    (inp <> [] -> p <> []).
Proof. intros Hn Ho. by apply client_recv_loop_open. Qed.

Lemma zlen_pos {A} (p : list A) : p <> [] -> 1 <= zlen p.
Proof. destruct p; [done|]. intros _. rewrite zlen_cons. pose proof (zlen_nonneg p). lia. Qed.

Lemma recv_buf_loop_open fuel : forall s p rest buf out size,
  open_at s (p ++ rest) out -> zlen buf + zlen p = size -> (length p <= fuel)%nat ->
  exists s', recv_buf_loop fuel s buf size = Ok (size, buf ++ p, s') /\ open_at s' rest out.
Proof.
  induction fuel as [|fuel IH]; intros s p rest buf out size Ho Hz Hf; cbn [recv_buf_loop];
    destruct (Z.ltb_spec (zlen buf) size) as [Hlt|Hge].
  - unfold zlen in *. lia.
  - assert (p = []) as -> by (apply length_zero_iff_nil; lia). exists s. by rewrite app_nil_r.
  - assert (Hp : p <> []) by (intros ->; rewrite zlen_nil in Hz; lia).
    destruct (client_recv_open s (size - zlen buf) (p ++ rest) out) as (q & rest' & s1 & -> & Hq & Happ & Ho1 & Hne); [lia|done|].
    assert (Hq1 : 1 <= zlen q) by (apply zlen_pos, Hne; by destruct p). unfold io_failed.
    destruct (Z.eqb_spec (zlen q) (-1)); [lia|]. destruct (Z.eqb_spec (zlen q) 0); [lia|]. cbn [orb].
    assert (Hsplit : p = q ++ drop (length q) p).
    { rewrite <- (take_drop (length q) p) at 1. f_equal. apply (f_equal (take (length q))) in Happ.
      rewrite take_app_le, take_app_length in Happ by (unfold zlen in *; lia). done. }
    rewrite Hsplit, <- app_assoc in Happ. apply (inj (app q)) in Happ.
    rewrite <- Happ in Ho1. destruct (IH s1 (drop (length q) p) rest (buf ++ q) out size Ho1) as (s' & -> & Ho').
    + rewrite zlen_app. apply (f_equal zlen) in Hsplit. rewrite zlen_app in Hsplit. lia.
    + rewrite length_drop. unfold zlen in *. lia.
    + exists s'. split; [|done]. by rewrite <- app_assoc, <- Hsplit.
  - assert (p = []) as -> by (pose proof (zlen_nonneg p); apply length_zero_iff_nil; unfold zlen in *; lia). exists s. by rewrite app_nil_r.
Qed.

(** A call of [send] on an open connection, repeated while it would block. *)
Lemma client_send_loop_open fuel : forall s p inp out,
  p <> [] -> open_at s inp out -> (length (sends s) <= fuel)%nat ->
  exists n s', client_send_loop fuel s p = Ok (n, s') /\ 1 <= n <= zlen p /\ open_at s' inp (out ++ take (Z.to_nat n) p) /\ incoming s' = incoming s.
Proof.
  induction fuel as [|fuel IH]; intros s p inp out Hp Ho Hf; cbn [client_send_loop];
    destruct (send s p) as [r s1] eqn:E; pose proof E as E'; apply send_spec in E'; try done;
    destruct Ho as [Hc Hfl Ha Hout]; destruct s as [inc snd outg]; unfold send, flowing, calm, arriving in *; cbn in *.
  - destruct snd; [|cbn in Hf; lia]. injection E as <- <-. pose proof (zlen_pos p Hp). exists (zlen p), (mkSock inc [] (outg ++ p)).
    split; [done|]. split; [lia|]. rewrite take_ge by (unfold zlen; lia). subst. by split.
  - destruct snd as [|[n|e] rest].
    + injection E as <- <-. pose proof (zlen_pos p Hp). exists (zlen p), (mkSock inc [] (outg ++ p)).
      split; [done|]. split; [lia|]. rewrite take_ge by (unfold zlen; lia). subst. by split.
    + injection E as <- <-. apply Forall_cons in Hfl as [_ Hfl]. destruct E' as [Hn _]. do 2 eexists. split; [done|]. split; [done|]. subst. by split.
    + apply Forall_cons in Hfl as [[[= ->]|[? ?]] Hfl]; [|done]. injection E as <- <-.
      destruct (IH (mkSock inc rest outg) p inp out Hp) as (n & s' & -> & Hn & Ho' & Hi); [by split|cbn in *; lia|].
      exists n, s'. done.
Qed.

Lemma send_buf_loop_open fuel : forall s buf inp out size,
  open_at s inp out -> (length buf <= fuel)%nat ->
  exists s', send_buf_loop fuel s buf size = Ok (size, s') /\ open_at s' inp (out ++ buf) /\ incoming s' = incoming s.
Proof.
  induction fuel as [|fuel IH]; intros s buf inp out size Ho Hf; cbn [send_buf_loop];
    destruct (Z.ltb_spec 0 (zlen buf)) as [Hlt|Hge].
  - unfold zlen in Hlt. lia.
  - assert (buf = []) as -> by (apply length_zero_iff_nil; lia). exists s. by rewrite app_nil_r.
  - destruct (client_send_loop_open (length (sends s)) s buf inp out) as (n & s1 & E & Hn & Ho1 & Hi1); [by intros ->|done|done|].
    unfold client_send. rewrite E. unfold io_failed. destruct (Z.eqb_spec n (-1)); [lia|]. destruct (Z.eqb_spec n 0); [lia|]. cbn [orb].
    destruct (IH s1 (drop (Z.to_nat n) buf) inp (out ++ take (Z.to_nat n) buf) size Ho1) as (s' & -> & Ho' & Hi').
    + rewrite length_drop. unfold zlen in *. lia.
    + exists s'. split; [done|]. rewrite <- app_assoc, take_drop in Ho'. split; [done|congruence].
  - assert (buf = []) as -> by (apply length_zero_iff_nil; unfold zlen in *; lia). exists s. by rewrite app_nil_r.
Qed.

(** ** The dialogue with the client *)

(** The client's connection is open; nothing else of [w0] has changed. *)
Record talks (w0 w : world) (inp out : list Z) : Prop := {
  tk_open : open_at (client w) inp out;
  tk_host : host w = host w0;
  tk_sockets : Forall (eq true) (sockets w0) -> Forall (eq true) (sockets w);
  tk_dialled : dialled w = dialled w0
}.

Lemma talks_start w inp out : open_at (client w) inp out -> talks w w inp out.
Proof. by split. Qed.

Lemma talks_set w0 w s inp out inp' out' : talks w0 w inp out -> open_at s inp' out' -> talks w0 (set_client w s) inp' out'.
Proof. by intros [_ H1 H2 H3] Hs; split. Qed.

Lemma bind_step {A B} (m : prog A) (f : A -> prog B) w a w' : m w = Ok (Some a, w') -> (m ≫= f) w = f a w'.
Proof. intros H. unfold mbind, prog_bind. by rewrite H. Qed.

Lemma bind_drop {A B} (m : prog A) (f : A -> prog B) w w' : m w = Ok (None, w') -> (m ≫= f) w = Ok (None, w').
Proof. intros H. unfold mbind, prog_bind. by rewrite H. Qed.

Lemma io_failed_pos n : 1 <= n -> io_failed n = false.
Proof. intros H. unfold io_failed. destruct (Z.eqb_spec n (-1)); [lia|]. by destruct (Z.eqb_spec n 0); [lia|]. Qed.

Lemma must_recv_ok w0 w p rest out n :
  talks w0 w (p ++ rest) out -> p <> [] -> n = zlen p ->
  exists w', must_recv n w = Ok (Some p, w') /\ talks w0 w' rest out.
Proof.
  intros Ht Hp ->. destruct (recv_buf_loop_open (Z.to_nat (zlen p)) (client w) p rest [] out (zlen p)) as (s' & E & Ho);
    [apply Ht|by rewrite zlen_nil|unfold zlen; lia|].
  exists (set_client w s'). split; [|by eapply talks_set].
  unfold must_recv. erewrite bind_step by (unfold client_recv_buf, recv_buf; rewrite E; done).
  cbn beta iota. by rewrite io_failed_pos by (by apply zlen_pos).
Qed.

Lemma must_send_ok w0 w p inp out :
  talks w0 w inp out -> p <> [] -> exists w', must_send p w = Ok (Some tt, w') /\ talks w0 w' inp (out ++ p).
Proof.
  intros Ht Hp. destruct (send_buf_loop_open (length p) (client w) p inp out (zlen p)) as (s' & E & Ho & _); [apply Ht|done|].
  exists (set_client w s'). split; [|by eapply talks_set].
  unfold must_send. erewrite bind_step by (unfold client_send_buf, send_buf; rewrite E; done).
  cbn beta iota. by rewrite io_failed_pos by (by apply zlen_pos).
Qed.

(** A stream that ends within the bytes asked for, or a request for none. *)
Lemma must_recv_none w0 w inp out :
  talks w0 w inp out -> must_recv 0 w = Ok (None, set_client w (client w)).
Proof. done. Qed.

Lemma send_cmd_response_ok w0 w inp out rep a port :
  talks w0 w inp out -> (4 <= length a)%nat -> port <> [] ->
  exists w', send_cmd_response (mkResponse SOCKS_VERSION5 rep 0 IPV4 a [] port) w = Ok (Some tt, w') /\
    talks w0 w' inp (out ++ [5; rep; 0; 1] ++ take 4 a ++ port).
Proof.
  intros Ht Ha Hp. unfold send_cmd_response. cbn [r_ver r_rep r_rsv r_atyp bnd_addr bnd_name bnd_port].
  destruct (must_send_ok w0 w [SOCKS_VERSION5; rep; 0; IPV4] inp out Ht) as (w1 & E1 & T1); [done|].
  rewrite (bind_step _ _ _ _ _ E1). change (IPV4 =? IPV4) with true. cbn iota.
  destruct (must_send_ok w0 w1 (take 4 a) inp _ T1) as (w2 & E2 & T2); [destruct a; [cbn in Ha; lia|done]|].
  rewrite (bind_step _ _ _ _ _ E2). destruct (must_send_ok w0 w2 port inp _ T2) as (w3 & E3 & T3); [done|].
  exists w3. split; [done|]. by rewrite <- !app_assoc in T3.
Qed.

Definition refusal (err : Z) : list Z := [5; err; 0; 1; 0; 0; 0; 0; 0; 0].

Lemma command_error_ok {A} w0 w inp out err :
  talks w0 w inp out -> exists w', @command_error A err w = Ok (None, w') /\ talks w0 w' inp (out ++ refusal err).
Proof.
  intros Ht. destruct (send_cmd_response_ok w0 w inp out err (replicate 16 0) [0; 0] Ht) as (w' & E & T); [cbn; lia|done|].
  exists w'. split; [|done]. unfold command_error. by rewrite (bind_step _ _ _ _ _ E).
Qed.

(** ** The greeting *)

Definition greeting (ver : Z) (methods : list Z) : list Z := ver :: zlen methods :: methods.

Lemma choose_method ms : foldl (fun method m => if m =? NOAUTH then NOAUTH else method) NOMETHODS ms = if decide (0 ∈ ms) then 0 else 255.
Proof.
  cut (forall acc, foldl (fun method m => if m =? NOAUTH then NOAUTH else method) acc ms = if decide (0 ∈ ms) then 0 else acc).
  { intros H. apply H. }
  induction ms as [|m ms IH]; intros acc; [done|]. cbn [foldl]. rewrite IH. unfold NOAUTH.
  destruct (Z.eqb_spec m 0) as [->|Hm].
  - rewrite (decide_True (P := 0 ∈ 0 :: ms)) by (by left). by destruct (decide (0 ∈ ms)).
  - destruct (decide (0 ∈ ms)) as [H|H]; [rewrite decide_True by (by right); done|].
    rewrite decide_False; [done|]. rewrite elem_of_cons. naive_solver.
Qed.

Lemma negotiate_spec w0 w ver ms rest out :
  talks w0 w (greeting ver ms ++ rest) out -> ms <> [] ->
  exists w', negotiate_auth_method w = Ok (if decide (ver = 5 /\ 0 ∈ ms) then Some tt else None, w') /\
    talks w0 w' rest (out ++ if decide (ver = 5 /\ 0 ∈ ms) then [5; 0] else []).
Proof.
  intros Ht Hms. unfold greeting in Ht. unfold negotiate_auth_method.
  destruct (must_recv_ok w0 w [ver; zlen ms] (ms ++ rest) out 2 Ht) as (w1 & E1 & T1); [done|done|].
  rewrite (bind_step _ _ _ _ _ E1). change (znth [ver; zlen ms] 1) with (zlen ms). change (znth [ver; zlen ms] 0) with ver.
  destruct (must_recv_ok w0 w1 ms rest out _ T1 Hms eq_refl) as (w2 & E2 & T2). rewrite (bind_step _ _ _ _ _ E2).
  rewrite choose_method. unfold SOCKS_VERSION5. destruct (Z.eqb_spec ver 5) as [->|Hv]; cbn [negb].
  - destruct (decide (0 ∈ ms)) as [H0|H0].
    + rewrite !decide_True by done. change (0 =? NOMETHODS) with false. cbn iota.
      destruct (must_send_ok w0 w2 [5; 0] rest out T2) as (w3 & E3 & T3); [done|]. by exists w3.
    + rewrite !decide_False by naive_solver. exists w2. by rewrite app_nil_r.
  - rewrite !decide_False by naive_solver. exists w2. by rewrite app_nil_r.
Qed.

(** ** The request *)

Definition destination_bytes (dst : destination) : list Z :=
  match dst with
  | Ipv4 addr => IPV4 :: addr
  | DomainName name => DOMAINNAME :: zlen name :: name
  | Ipv6 addr => IPV6 :: addr
  end.

(** What a client can ask for and the server does not refuse outright. *)
Definition destination_ok (dst : destination) : Prop :=
  match dst with
  | Ipv4 addr => zlen addr = 4 /\ bytes addr
  | DomainName name => name <> [] /\ Forall (fun c => c <> 0) name
  | Ipv6 _ => False
  end.

Definition request_bytes (cmd rsv : Z) (dst : destination) (port : list Z) : list Z :=
  [SOCKS_VERSION5; cmd; rsv] ++ destination_bytes dst ++ port.

Lemma c_chars_all name : Forall (fun c => c <> 0) name -> c_chars name = name.
Proof. induction 1 as [|c name Hc Hn IH]; [done|]. cbn. destruct (Z.eqb_spec c 0); [done|]. by rewrite IH. Qed.

Lemma zlen_ne {A} (p : list A) n : zlen p = n -> 0 < n -> p <> [].
Proof. by intros <- H ->. Qed.

(** The part of [receive_cmd_request] behind its header. *)
Definition receive_destination (atyp : Z) : prog destination :=
  if atyp =? IPV4 then p ← must_recv 4; mret (Ipv4 p)
  else if atyp =? DOMAINNAME then name ← receive_domain_name; mret (DomainName name)
  else if atyp =? IPV6 then p ← must_recv 6; mret (Ipv6 (p ++ replicate 10 0))
  else command_error ADDRESS_TYPE_NOT_SUPPORTED.

Lemma receive_header w0 w cmd rsv atyp rest out :
  talks w0 w ([SOCKS_VERSION5; cmd; rsv; atyp] ++ rest) out ->
  exists w', talks w0 w' rest out /\
    receive_cmd_request w =
      (dst ← receive_destination atyp; port ← must_recv 2; mret (mkRequest SOCKS_VERSION5 cmd atyp dst port)) w'.
Proof.
  intros Ht. destruct (must_recv_ok w0 w [SOCKS_VERSION5; cmd; rsv; atyp] rest out 4 Ht) as (w1 & E1 & T1); [done|done|].
  exists w1. split; [done|]. unfold receive_cmd_request. by rewrite (bind_step _ _ _ _ _ E1).
Qed.

Lemma receive_cmd_request_ok w0 w cmd rsv dst port rest out :
  talks w0 w (request_bytes cmd rsv dst port ++ rest) out -> destination_ok dst -> zlen port = 2 ->
  exists w' atyp, receive_cmd_request w = Ok (Some (mkRequest SOCKS_VERSION5 cmd atyp dst port), w') /\ talks w0 w' rest out.
Proof.
  intros Ht Hd Hp. unfold request_bytes in Ht. assert (Hport : port <> []) by (by eapply zlen_ne).
  destruct dst as [addr|name|addr]; cbn [destination_bytes] in Ht; [| |done]; rewrite <- !app_assoc in Ht; cbn [app] in Ht.
  - destruct Hd as [Ha _]. destruct (receive_header w0 w cmd rsv IPV4 (addr ++ port ++ rest) out Ht) as (w1 & T1 & ->).
    destruct (must_recv_ok w0 w1 addr _ out 4 T1) as (w2 & E2 & T2); [by eapply zlen_ne|done|].
    destruct (must_recv_ok w0 w2 port _ out 2 T2) as (w3 & E3 & T3); [done|done|].
    exists w3, IPV4. split; [|done]. erewrite bind_step; [|unfold receive_destination; cbn iota; exact (bind_step _ _ _ _ _ E2)].
    exact (bind_step _ _ _ _ _ E3).
  - destruct Hd as [Hn H0]. destruct (receive_header w0 w cmd rsv DOMAINNAME (zlen name :: name ++ port ++ rest) out Ht) as (w1 & T1 & ->).
    destruct (must_recv_ok w0 w1 [zlen name] (name ++ port ++ rest) out 1 T1) as (w2 & E2 & T2); [done|done|].
    destruct (must_recv_ok w0 w2 name _ out (zlen name) T2) as (w3 & E3 & T3); [done|done|].
    destruct (must_recv_ok w0 w3 port _ out 2 T3) as (w4 & E4 & T4); [done|done|].
    assert (En : receive_domain_name w1 = Ok (Some name, w3)).
    { unfold receive_domain_name. rewrite (bind_step _ _ _ _ _ E2). change (znth [zlen name] 0) with (zlen name).
      rewrite (bind_step _ _ _ _ _ E3), c_chars_all by done. done. }
    exists w4, DOMAINNAME. split; [|done]. erewrite bind_step; [|exact (bind_step _ _ _ _ _ En)].
    exact (bind_step _ _ _ _ _ E4).
Qed.

(** ** The connection *)

(** [w] after calls of [connect]. *)
Definition dial (w : world) (l : list address) : world := mkWorld (client w) (host w) (sockets w) (dialled w ++ l).

Section Reaching.
Context (resolve : list Z -> Z -> option (list address)) (accepts : address -> option sock)
  (sockname : address -> option address).

Lemma create_host_socket_ok w0 w inp out :
  talks w0 w inp out -> Forall (eq true) (sockets w0) -> exists w', create_host_socket w = Ok (Some tt, w') /\ talks w0 w' inp out.
Proof.
  intros [Ho Hh Hs Hd] H0. unfold create_host_socket, malloc. specialize (Hs H0).
  destruct (sockets w) as [|b answers].
  - eexists. split; [done|]. by split.
  - apply Forall_cons in Hs as [<- Hs]. eexists. split; [done|]. by split.
Qed.

Lemma connect_ok w0 w inp out a :
  talks w0 w inp out -> exists w', connect accepts a w = Ok (Some (accepts a), w') /\ talks (dial w0 [a]) w' inp out.
Proof. intros [Ho Hh Hs Hd]. eexists. split; [done|]. split; [done|done|done|]. cbn. by rewrite Hd. Qed.

Lemma dial_dial w l1 l2 : dial (dial w l1) l2 = dial w (l1 ++ l2).
Proof. unfold dial. cbn. by rewrite app_assoc. Qed.

Lemma connect_nodes_ok bad : forall w0 w inp out a h more,
  talks w0 w inp out -> Forall (eq true) (sockets w0) -> Forall (fun x => accepts x = None) bad -> accepts a = Some h ->
  exists w', connect_nodes accepts (bad ++ a :: more) w = Ok (Some (Some (a, h)), w') /\ talks (dial w0 (bad ++ [a])) w' inp out.
Proof.
  induction bad as [|b bad IH]; intros w0 w inp out a h more Ht Hs Hb Ha; cbn [connect_nodes app];
    destruct (create_host_socket_ok w0 w inp out Ht Hs) as (w1 & E1 & T1); rewrite (bind_step _ _ _ _ _ E1).
  - destruct (connect_ok w0 w1 inp out a T1) as (w2 & E2 & T2). rewrite (bind_step _ _ _ _ _ E2), Ha. by exists w2.
  - destruct (connect_ok w0 w1 inp out b T1) as (w2 & E2 & T2). apply Forall_cons in Hb as [Hb Hbad].
    rewrite (bind_step _ _ _ _ _ E2), Hb.
    destruct (IH (dial w0 [b]) w2 inp out a h more) as (w3 & -> & T3); [done..|]. exists w3. by rewrite dial_dial in T3.
Qed.

Lemma connect_nodes_none bad : forall w0 w inp out,
  talks w0 w inp out -> Forall (eq true) (sockets w0) -> Forall (fun x => accepts x = None) bad ->
  exists w', connect_nodes accepts bad w = Ok (Some None, w') /\ talks (dial w0 bad) w' inp out.
Proof.
  induction bad as [|b bad IH]; intros w0 w inp out Ht Hs Hb; cbn [connect_nodes].
  - exists w. split; [done|]. destruct Ht as [Ho Hh Hsk Hd]. split; [done|done|done|]. cbn. by rewrite app_nil_r.
  - destruct (create_host_socket_ok w0 w inp out Ht Hs) as (w1 & E1 & T1). rewrite (bind_step _ _ _ _ _ E1).
    destruct (connect_ok w0 w1 inp out b T1) as (w2 & E2 & T2). apply Forall_cons in Hb as [Hb Hbad].
    rewrite (bind_step _ _ _ _ _ E2), Hb.
    destruct (IH (dial w0 [b]) w2 inp out) as (w3 & -> & T3); [done..|]. exists w3. by rewrite dial_dial in T3.
Qed.

(** The addresses that are tried for a destination: of an address of the client's only the
    first byte is used. *)
Definition candidates (dst : destination) (port : list Z) : option (list address) :=
  match dst with
  | Ipv4 addr => Some [([znth addr 0; 0; 0; 0], port)]
  | DomainName name => resolve name (ntohs port)
  | Ipv6 _ => None
  end.

Lemma first_byte_address b : 0 <= b < 256 -> Z_to_little_endian 4 8 b = [b; 0; 0; 0].
Proof.
  intros Hb. rewrite <- (Z_to_little_endian_to_Z 4 8 [b; 0; 0; 0]).
  - cbn [little_endian_to_Z]. rewrite !Z.shiftl_0_l, !Z.lor_0_r. done.
  - done.
  - done.
  - repeat constructor; lia.
Qed.

Definition reach (dst : destination) (port : list Z) : prog (address * sock) :=
  match dst with
  | DomainName name => domain_name_connect resolve accepts name port
  | Ipv4 addr => ipv4_connect accepts (znth addr 0) port
  | Ipv6 _ => command_error ADDRESS_TYPE_NOT_SUPPORTED
  end.

Lemma reach_ok w0 w inp out dst port bad a h more :
  talks w0 w inp out -> Forall (eq true) (sockets w0) -> destination_ok dst ->
  candidates dst port = Some (bad ++ a :: more) -> Forall (fun x => accepts x = None) bad -> accepts a = Some h ->
  exists w', reach dst port w = Ok (Some (a, h), w') /\ talks (dial w0 (bad ++ [a])) w' inp out.
Proof.
  intros Ht Hs Hd Hc Hb Ha. destruct dst as [addr|name|addr]; cbn [candidates reach] in *; [| |done].
  - assert (H1 : bad = [] /\ a = ([znth addr 0; 0; 0; 0], port)) by (destruct bad as [|? [|]]; [injection Hc as <- <-|..]; done).
    destruct H1 as [-> ->]. destruct Hd as [Hl Hby]. unfold ipv4_connect. cbv zeta.
    rewrite first_byte_address by (unfold bytes in Hby; rewrite Forall_forall in Hby; apply Hby, znth_elem; lia).
    destruct (create_host_socket_ok w0 w inp out Ht Hs) as (w1 & E1 & T1). rewrite (bind_step _ _ _ _ _ E1).
    destruct (connect_ok w0 w1 inp out ([znth addr 0; 0; 0; 0], port) T1) as (w2 & E2 & T2).
    rewrite (bind_step _ _ _ _ _ E2), Ha. by exists w2.
  - unfold domain_name_connect. rewrite Hc.
    destruct (connect_nodes_ok bad w0 w inp out a h more Ht Hs Hb Ha) as (w1 & E1 & T1).
    rewrite (bind_step _ _ _ _ _ E1). by exists w1.
Qed.

Lemma reach_fails w0 w inp out dst port :
  talks w0 w inp out -> Forall (eq true) (sockets w0) -> destination_ok dst ->
  match candidates dst port with Some nodes => Forall (fun x => accepts x = None) nodes | None => True end ->
  exists w', reach dst port w = Ok (None, w') /\
    talks (dial w0 (default [] (candidates dst port))) w' inp
      (out ++ refusal (match candidates dst port with Some _ => CONN_REFUSED | None => HOST_UNREACHABLE end)).
Proof.
  intros Ht Hs Hd Hc. destruct dst as [addr|name|addr]; cbn [candidates reach] in *; [| |done].
  - destruct Hd as [Hl Hby]. unfold ipv4_connect. cbv zeta.
    rewrite first_byte_address by (unfold bytes in Hby; rewrite Forall_forall in Hby; apply Hby, znth_elem; lia).
    destruct (create_host_socket_ok w0 w inp out Ht Hs) as (w1 & E1 & T1). rewrite (bind_step _ _ _ _ _ E1).
    destruct (connect_ok w0 w1 inp out ([znth addr 0; 0; 0; 0], port) T1) as (w2 & E2 & T2).
    apply Forall_cons in Hc as [Hc _]. rewrite (bind_step _ _ _ _ _ E2), Hc. by apply command_error_ok.
  - unfold domain_name_connect. destruct (resolve name (ntohs port)) as [nodes|]; cbn [default].
    + destruct (connect_nodes_none nodes w0 w inp out Ht Hs Hc) as (w1 & E1 & T1).
      rewrite (bind_step _ _ _ _ _ E1). by apply command_error_ok.
    + destruct (command_error_ok (A := address * sock) w0 w inp out HOST_UNREACHABLE Ht) as (w1 & E1 & T1).
      exists w1. split; [done|]. destruct T1 as [Ho Hh Hsk Hdl]. split; [done|done|done|]. cbn. by rewrite app_nil_r.
Qed.
End Reaching.

(** ** Passing data on *)

Lemma recv_nonblock_open s inp out :
  open_at s inp out ->
  exists n p rest s', recv_nonblock s BUFSIZE = (n, p, s') /\ inp = p ++ rest /\ open_at s' rest out /\
    (n = NODATA /\ p = [] /\ (budget s' < budget s)%nat \/ n = 0 /\ p = [] /\ inp = [] \/ n = zlen p /\ p <> [] /\ (budget s' < budget s)%nat).
Proof.
  intros Ho. unfold recv_nonblock. destruct (recv s BUFSIZE) as [r s1] eqn:E.
  destruct (recv_open s BUFSIZE inp out r s1 ltac:(done) Ho E)
    as [(p & rest & -> & Hp & Hz & -> & Ho1 & Hb)|[(-> & -> & Ho1)|(-> & Ho1 & _ & Hb)]].
  - exists (zlen p), p, rest, s1. split; [done|]. split; [done|]. split; [done|]. by right; right.
  - exists 0, [], [], s1. split; [done|]. split; [done|]. split; [done|]. by right; left.
  - exists NODATA, [], inp, s1. split; [done|]. split; [done|]. split; [done|]. by left.
Qed.

(** Sending what was read, or nothing. *)
Lemma forward_open s inp out n p :
  open_at s inp out -> (n = NODATA /\ p = [] \/ n = 0 /\ p = [] \/ n = zlen p /\ p <> []) ->
  exists s', (if n >? 0 then let* '(_, s) := send_buf s p in Ok s else Ok s) = Ok s' /\ open_at s' inp (out ++ p) /\ budget s' = budget s.
Proof.
  intros Ho [[-> ->]|[[-> ->]|[-> Hp]]]; [exists s; by rewrite app_nil_r..|].
  pose proof (zlen_pos p Hp) as Hz. rewrite Z.gtb_ltb. destruct (Z.ltb_spec 0 (zlen p)); [|lia].
  destruct (send_buf_loop_open (length p) s p inp out (zlen p)) as (s' & E & Ho' & Hi); [done|done|].
  unfold send_buf. rewrite E. exists s'. split; [done|]. split; [done|]. unfold budget. by rewrite Hi.
Qed.

Lemma relay_step_open c h ic oc ih oh :
  open_at c ic oc -> open_at h ih oh ->
  exists over c' h' p rc q rh, relay_step c h = Ok (over, c', h') /\ ic = p ++ rc /\ ih = q ++ rh /\
    open_at c' rc (oc ++ q) /\ open_at h' rh (oh ++ p) /\
    (over = true -> ic = [] \/ ih = []) /\ (over = false -> (budget c' < budget c)%nat).
Proof.
  intros Hc Hh. unfold relay_step.
  destruct (recv_nonblock_open c ic oc Hc) as (n & p & rc & c1 & -> & Hic & Hc1 & Hn).
  destruct (recv_nonblock_open h ih oh Hh) as (m & q & rh & h1 & -> & Hih & Hh1 & Hm).
  assert (Hn1 : (n =? -1) = false) by (destruct Hn as [(-> & _)|[(-> & _)|(-> & _)]]; [done|done|]; apply Z.eqb_neq; pose proof (zlen_nonneg p); lia).
  assert (Hm1 : (m =? -1) = false) by (destruct Hm as [(-> & _)|[(-> & _)|(-> & _)]]; [done|done|]; apply Z.eqb_neq; pose proof (zlen_nonneg q); lia).
  rewrite Hn1, Hm1.
  destruct (forward_open h1 rh oh n p Hh1) as (h2 & -> & Hh2 & _); [naive_solver|].
  destruct (forward_open c1 rc oc m q Hc1) as (c2 & -> & Hc2 & Hb2); [naive_solver|].
  exists ((n =? 0) || (m =? 0)), c2, h2, p, rc, q, rh. split; [done|]. split; [done|]. split; [done|]. split; [done|]. split; [done|]. split.
  - intros [->%Z.eqb_eq| ->%Z.eqb_eq]%orb_true_iff.
    + destruct Hn as [(? & _)|[(_ & _ & ?)|(E & Hp & _)]]; [done|by left|]. pose proof (zlen_pos p Hp). lia.
    + destruct Hm as [(? & _)|[(_ & _ & ?)|(E & Hq & _)]]; [done|by right|]. pose proof (zlen_pos q Hq). lia.
  - intros [Hn0 _]%orb_false_iff. rewrite Hb2. destruct Hn as [(_ & _ & ?)|[(-> & _)|(_ & _ & ?)]]; done.
Qed.

(** The loop ends; both sides got what the other sent in order, and all of it from the
    side that was closed first. *)
Lemma relay_open fuel : forall c h ic oc ih oh,
  open_at c ic oc -> open_at h ih oh -> (budget c < fuel)%nat ->
  exists c' h' p rc q rh, relay fuel c h = Ok (c', h') /\ ic = p ++ rc /\ ih = q ++ rh /\
    outgoing c' = oc ++ q /\ outgoing h' = oh ++ p /\ (rc = [] \/ rh = []).
Proof.
  induction fuel as [|fuel IH]; intros c h ic oc ih oh Hc Hh Hf; [lia|]. cbn [relay].
  destruct (relay_step_open c h ic oc ih oh Hc Hh) as (over & c1 & h1 & p & rc & q & rh & -> & -> & -> & Hc1 & Hh1 & Ht & Hn).
  destruct over.
  - exists c1, h1, p, rc, q, rh. split; [done|]. split; [done|]. split; [done|].
    split; [apply Hc1|]. split; [apply Hh1|]. destruct (Ht eq_refl) as [E|E]; apply app_nil in E; naive_solver.
  - destruct (IH c1 h1 rc _ rh _ Hc1 Hh1) as (c' & h' & p' & rc' & q' & rh' & -> & -> & -> & Ho1 & Ho2 & He);
      [specialize (Hn eq_refl); lia|].
    exists c', h', (p ++ p'), rc', (q ++ q'), rh'. rewrite <- !app_assoc. split; [done|]. split; [done|]. split; [done|].
    rewrite Ho1, Ho2, <- !app_assoc. done.
Qed.

(** ** The whole service *)

Section Service.
Context (resolve : list Z -> Z -> option (list address)) (accepts : address -> option sock)
  (sockname : address -> option address).

Lemma cmd_connect_reach cmd :
  cmd_connect resolve accepts sockname cmd =
    (_ ← create_host_socket; c ← reach resolve accepts (dst_addr cmd) (dst_port cmd);
     let '(a, s) := (c : address * sock) in
     match sockname a with
     | None => client_drop
     | Some (addr, port) =>
         _ ← send_cmd_response (mkResponse SOCKS_VERSION5 SUCCEEDED 0 IPV4 (znth addr 0 :: replicate 15 0) [] port);
         mret s
     end).
Proof. done. Qed.

Lemma socks5_request w0 w cmd rsv dst port rest out ms :
  talks w0 w (greeting 5 ms ++ request_bytes cmd rsv dst port ++ rest) out -> 0 ∈ ms -> destination_ok dst -> zlen port = 2 ->
  exists w' atyp, talks w0 w' rest (out ++ [5; 0]) /\
    socks5_main resolve accepts sockname w =
      (s ← (if cmd =? CONNECT then cmd_connect resolve accepts sockname (mkRequest SOCKS_VERSION5 cmd atyp dst port)
            else if cmd =? UDP_ASSOCIATE then command_error COMMAND_NOT_SUPPORTED
            else if cmd =? BIND then command_error COMMAND_NOT_SUPPORTED
            else command_error COMMAND_NOT_SUPPORTED);
       _ ← connected s; relay_loop) w'.
Proof.
  intros Ht H0 Hd Hp. destruct (negotiate_spec w0 w 5 ms _ out Ht) as (w1 & E1 & T1); [by intros ->; apply elem_of_nil in H0|].
  rewrite !decide_True in * by done.
  destruct (receive_cmd_request_ok w0 w1 cmd rsv dst port rest _ T1 Hd Hp) as (w2 & atyp & E2 & T2).
  exists w2, atyp. split; [done|]. unfold socks5_main. rewrite (bind_step _ _ _ _ _ E1). by rewrite (bind_step _ _ _ _ _ E2).
Qed.
End Service.

(** C9.  A client that offers to do without authentication and asks for a connection is
    served, in whatever segments its bytes arrive: the candidates for the destination are
    tried in their order up to the first that accepts, the client gets the two answers,
    and then each side gets, in order, what the other sends, completely from the side
    that is closed first.  The candidates are what the resolver finds for a domain name;
    for an IPv4 address they are only the address of its first byte. *)
Theorem socks_serves (resolve : list Z -> Z -> option (list address)) (accepts : address -> option sock)
    (sockname : address -> option address) (w : world) (ms port data out hin hout addr lport : list Z) (rsv : Z)
    (dst : destination) (bad more : list address) (a : address) (h : sock) :
  open_at (client w) (greeting 5 ms ++ request_bytes CONNECT rsv dst port ++ data) out -> 0 ∈ ms ->
  destination_ok dst -> zlen port = 2 -> Forall (eq true) (sockets w) ->
  candidates resolve dst port = Some (bad ++ a :: more) -> Forall (fun x => accepts x = None) bad ->
  accepts a = Some h -> open_at h hin hout -> sockname a = Some (addr, lport) -> lport <> [] ->
  exists w' h' p rc q rh, socks5_main resolve accepts sockname w = Ok (None, w') /\
    dialled w' = dialled w ++ bad ++ [a] /\ host w' = Some h' /\
    outgoing (client w') = out ++ [5; 0] ++ [5; 0; 0; 1; znth addr 0; 0; 0; 0] ++ lport ++ q /\
    outgoing h' = hout ++ p /\ data = p ++ rc /\ hin = q ++ rh /\ (rc = [] \/ rh = []).
Proof.
  intros Ho H0 Hd Hp Hs Hc Hb Ha Hh Hn Hl. apply talks_start in Ho.
  destruct (socks5_request resolve accepts sockname w w CONNECT rsv dst port data out ms Ho H0 Hd Hp) as (w1 & atyp & T1 & ->).
  change (CONNECT =? CONNECT) with true. cbn iota. rewrite cmd_connect_reach. cbn [dst_addr dst_port].
  destruct (create_host_socket_ok w w1 _ _ T1 Hs) as (w2 & E2 & T2).
  destruct (reach_ok resolve accepts w w2 _ _ dst port bad a h more T2 Hs Hd Hc Hb Ha) as (w3 & E3 & T3).
  destruct (send_cmd_response_ok (dial w (bad ++ [a])) w3 _ _ SUCCEEDED (znth addr 0 :: replicate 15 0) lport T3) as (w4 & E4 & T4);
    [cbn; lia|done|].
  erewrite bind_step; [|erewrite bind_step by exact E2; erewrite bind_step by exact E3; cbn iota; rewrite Hn; cbn iota;
    exact (bind_step _ _ _ _ _ E4)].
  erewrite bind_step; [|done]. unfold relay_loop. cbn [host set_host client].
  destruct T4 as [Ho4 _ _ Hd4].
  destruct (relay_open (S (budget (client w4))) (client w4) h data _ hin hout Ho4 Hh ltac:(lia))
    as (c' & h' & p & rc & q & rh & E & Hdata & Hhin & Hoc & Hoh & He).
  rewrite E. do 2 eexists. exists p, rc, q, rh. split; [done|]. cbn [dialled host client]. split; [exact Hd4|]. split; [done|].
  split; [|done]. rewrite Hoc. cbn [take replicate app]. by rewrite <- !app_assoc.
Qed.

Lemma socks_serves_witness :
  exists w' h', socks5_main (fun _ _ => None) (fun _ => Some (mkSock [inl [7; 8; 9]] [inr EAGAIN] [])) (fun _ => Some ([192; 168; 0; 1], [31; 64]))
    (mkWorld (mkSock [inl (greeting 5 [2; 0] ++ [5; 1]); inr EAGAIN; inl ([0; 1; 10; 1; 2; 3; 0; 80] ++ [33; 34])] [inl 1] []) None [] [])
      = Ok (None, w') /\ host w' = Some h' /\ dialled w' = [([10; 0; 0; 0], [0; 80])].
Proof.
  destruct (socks_serves (fun _ _ => None) (fun _ => Some (mkSock [inl [7; 8; 9]] [inr EAGAIN] [])) (fun _ => Some ([192; 168; 0; 1], [31; 64]))
    (mkWorld (mkSock [inl (greeting 5 [2; 0] ++ [5; 1]); inr EAGAIN; inl ([0; 1; 10; 1; 2; 3; 0; 80] ++ [33; 34])] [inl 1] []) None [] [])
    [2; 0] [0; 80] [33; 34] [] [7; 8; 9] [] [192; 168; 0; 1] [31; 64] 0 (Ipv4 [10; 1; 2; 3]) [] [] ([10; 0; 0; 0], [0; 80])
    (mkSock [inl [7; 8; 9]] [inr EAGAIN] [])) as (w' & h' & p & rc & q & rh & E & Hd & Hh & _).
  - split; [|repeat (apply Forall_cons; split; [by right; eexists|]); apply Forall_nil_2|done|done].
    repeat (apply Forall_cons; split; [(split; [done|by repeat constructor]) || exact I|]). apply Forall_nil_2.
  - apply (bool_decide_unpack _). by vm_compute.
  - split; [done|]. by repeat constructor.
  - done.
  - constructor.
  - done.
  - constructor.
  - done.
  - split; [|repeat (apply Forall_cons; split; [by left|]); apply Forall_nil_2|done|done].
    repeat (apply Forall_cons; split; [split; [done|by repeat constructor]|]). apply Forall_nil_2.
  - done.
  - done.
  - exists w', h'. split; [exact E|]. split; [exact Hh|exact Hd].
Defined.

(** C39.  Refusals.  Another protocol version, or a list of methods without the one of no
    authentication, ends the connection without a byte of answer.  Otherwise the client
    is told what is wrong and dropped: a command other than to connect, an unknown type
    of address, a name that is not found, or hosts that all refuse; no host is called but
    in the last case. *)
Theorem socks_refuses (resolve : list Z -> Z -> option (list address)) (accepts : address -> option sock)
    (sockname : address -> option address) (w : world) (ver cmd rsv atyp : Z) (ms port rest out : list Z) (dst : destination) :
  ms <> [] -> zlen port = 2 -> Forall (eq true) (sockets w) ->
  let run := socks5_main resolve accepts sockname w in
  let answered w' ans calls := outgoing (client w') = out ++ ans /\ dialled w' = dialled w ++ calls in
  (open_at (client w) (greeting ver ms ++ rest) out -> ~ (ver = 5 /\ 0 ∈ ms) ->
     exists w', run = Ok (None, w') /\ answered w' [] []) /\
  (open_at (client w) (greeting 5 ms ++ [5; cmd; rsv; atyp] ++ rest) out -> 0 ∈ ms -> atyp <> IPV4 -> atyp <> DOMAINNAME -> atyp <> IPV6 ->
     exists w', run = Ok (None, w') /\ answered w' ([5; 0] ++ refusal ADDRESS_TYPE_NOT_SUPPORTED) []) /\
  (open_at (client w) (greeting 5 ms ++ request_bytes cmd rsv dst port ++ rest) out -> 0 ∈ ms -> destination_ok dst ->
     (cmd <> CONNECT -> exists w', run = Ok (None, w') /\ answered w' ([5; 0] ++ refusal COMMAND_NOT_SUPPORTED) []) /\
     (cmd = CONNECT -> candidates resolve dst port = None ->
        exists w', run = Ok (None, w') /\ answered w' ([5; 0] ++ refusal HOST_UNREACHABLE) []) /\
     (forall nodes, cmd = CONNECT -> candidates resolve dst port = Some nodes -> Forall (fun x => accepts x = None) nodes ->
        exists w', run = Ok (None, w') /\ answered w' ([5; 0] ++ refusal CONN_REFUSED) nodes)).
Proof.
  intros Hms Hp Hs run answered.
  assert (Hdone : forall w0 w' inp ans, talks w0 w' inp (out ++ ans) -> forall calls, dialled w0 = dialled w ++ calls -> answered w' ans calls).
  { intros w0 w' inp ans [Ho _ _ Hd] calls Hc. split; [apply Ho|congruence]. }
  assert (Hnil : dialled w = dialled w ++ []) by (by rewrite app_nil_r).
  split; [|split].
  - intros Ho Hn. apply talks_start in Ho. destruct (negotiate_spec w w ver ms rest out Ho Hms) as (w1 & E1 & T1).
    rewrite !decide_False in * by done. exists w1. split; [by apply bind_drop|by eapply Hdone].
  - intros Ho H0 N1 N2 N3. apply talks_start in Ho. destruct (negotiate_spec w w 5 ms _ out Ho Hms) as (w1 & E1 & T1).
    rewrite !decide_True in * by done. destruct (receive_header w w1 cmd rsv atyp rest _ T1) as (w2 & T2 & Hrec).
    destruct (command_error_ok (A := destination) w w2 rest _ ADDRESS_TYPE_NOT_SUPPORTED T2) as (w3 & E3 & T3).
    exists w3. rewrite <- app_assoc in T3. split; [|by eapply Hdone].
    unfold run, socks5_main. rewrite (bind_step _ _ _ _ _ E1). apply bind_drop. rewrite Hrec. apply bind_drop.
    unfold receive_destination. by rewrite !(proj2 (Z.eqb_neq _ _)) by done.
  - intros Ho H0 Hd. apply talks_start in Ho.
    destruct (socks5_request resolve accepts sockname w w cmd rsv dst port rest out ms Ho H0 Hd Hp) as (w1 & aty & T1 & Hrun).
    fold run in Hrun. rewrite Hrun. split.
    + intros Hc. destruct (command_error_ok (A := sock) w w1 rest _ COMMAND_NOT_SUPPORTED T1) as (w2 & E2 & T2).
      exists w2. rewrite <- app_assoc in T2. split; [|by eapply Hdone]. apply bind_drop.
      rewrite (proj2 (Z.eqb_neq _ _)) by done. by destruct (cmd =? UDP_ASSOCIATE), (cmd =? BIND).
    + destruct (create_host_socket_ok w w1 _ _ T1 Hs) as (w2 & E2 & T2).
      assert (Hfail : cmd = CONNECT -> match candidates resolve dst port with Some nodes => Forall (fun x => accepts x = None) nodes | None => True end ->
        exists w', (s ← (if cmd =? CONNECT then cmd_connect resolve accepts sockname (mkRequest SOCKS_VERSION5 cmd aty dst port)
            else if cmd =? UDP_ASSOCIATE then command_error COMMAND_NOT_SUPPORTED
            else if cmd =? BIND then command_error COMMAND_NOT_SUPPORTED
            else command_error COMMAND_NOT_SUPPORTED);
          _ ← connected s; relay_loop) w1 = Ok (None, w') /\
          answered w' ([5; 0] ++ refusal (match candidates resolve dst port with Some _ => CONN_REFUSED | None => HOST_UNREACHABLE end))
            (default [] (candidates resolve dst port))).
      { intros -> Hc. destruct (reach_fails resolve accepts w w2 _ _ dst port T2 Hs Hd Hc) as (w3 & E3 & T3).
        exists w3. rewrite <- app_assoc in T3. split; [|by eapply Hdone]. apply bind_drop. change (CONNECT =? CONNECT) with true. cbn iota.
        rewrite cmd_connect_reach, (bind_step _ _ _ _ _ E2). by apply bind_drop. }
      split.
      * intros Hc Hn. specialize (Hfail Hc). rewrite Hn in Hfail. by apply Hfail.
      * intros nodes Hc Hn Hb. specialize (Hfail Hc). rewrite Hn in Hfail. by apply Hfail.
Qed.

Lemma socks_refuses_witness :
  exists w', socks5_main (fun _ _ => None) (fun _ => None) (fun _ => None)
    (mkWorld (mkSock [inl (greeting 5 [0] ++ request_bytes CONNECT 0 (DomainName [120]) [0; 80])] [] []) None [] [])
      = Ok (None, w') /\ outgoing (client w') = [5; 0; 5; 4; 0; 1; 0; 0; 0; 0; 0; 0].
Proof.
  destruct (socks_refuses (fun _ _ => None) (fun _ => None) (fun _ => None)
    (mkWorld (mkSock [inl (greeting 5 [0] ++ request_bytes CONNECT 0 (DomainName [120]) [0; 80])] [] []) None [] [])
    5 CONNECT 0 0 [0] [0; 80] [] [] (DomainName [120])) as (_ & _ & H); [done|done|constructor|].
  destruct H as (_ & H & _).
  - split; [|constructor|done|done]. apply Forall_cons. split; [split; [done|by repeat constructor]|apply Forall_nil_2].
  - by left.
  - split; [done|by repeat constructor].
  - destruct (H eq_refl eq_refl) as (w' & E & Ho & _). exists w'. split; [exact E|exact Ho].
Defined.

(** When the client has closed its direction, what the host has not sent yet is lost. *)
Lemma relay_cuts_off fuel c snd rest out :
  incoming c = [] ->
  relay (S fuel) c (mkSock (inr EAGAIN :: rest) snd out) = Ok (c, mkSock rest snd out).
Proof. intros Hc. destruct c as [inc sc oc]. cbn in Hc. subst. done. Qed.
