(* ===== verification/CircularBuffer.v ===== *)
(** * C++-Labs/lab_1_circular_buffer

    The class [CircularBuffer]: an array of which a range, that may wrap around its end,
    holds the elements.  [size_t] is computed modulo [2 ^ 64], the remainder of a division
    by 0 is undefined, and reading or writing outside the array is undefined.  Elements are
    of type [char], for which the library's [copy_n] is [memmove].  Allocation succeeds;
    the pointer of a buffer that was never given a capacity is an array without cells.  The
    array of a new buffer holds whatever [garbage] it is made of. *)
From S2P Require Import Prelude.

Record CircularBuffer := mkBuffer {
  buffer_ : list Z;
  buffer_start_ : Z;
  capacity_ : Z;
  size_ : Z
}.

Definition umod (a b : Z) : res Z := if b =? 0 then Err Undefined else Ok (a mod b).

(** [std::fill_n], [std::copy_n] within an array and between two, [std::rotate]. *)
Definition fill_n (a : list Z) (i n x : Z) : res (list Z) := memmove a i (replicate (Z.to_nat n) x) 0 n.
Definition copy_n (src : list Z) (i n : Z) (dst : list Z) (j : Z) : res (list Z) := memmove dst j src i n.
Definition rotate_array (a : list Z) (middle : Z) : res (list Z) :=
  if (0 <=? middle) && (middle <=? zlen a) then Ok (drop (Z.to_nat middle) a ++ take (Z.to_nat middle) a) else Err Undefined.

(** ** Construction *)

Definition empty_buffer : CircularBuffer := mkBuffer [] 0 0 0.

(** The new array is [garbage], of [new_capacity] cells. *)
Definition set_capacity (b : CircularBuffer) (new_capacity : Z) (garbage : list Z) : res CircularBuffer :=
  let new_size := Z.min (size_ b) new_capacity in
  let new_buffer := garbage in
  let first_part_size := Z.min new_size (u64 (capacity_ b - buffer_start_ b)) in
  let* new_buffer := copy_n (buffer_ b) (buffer_start_ b) first_part_size new_buffer 0 in
  let* new_buffer :=
    (if first_part_size <? new_size then
       let second_part_size := u64 (new_size - first_part_size) in
       copy_n (buffer_ b) 0 second_part_size new_buffer first_part_size
     else Ok new_buffer) in
  Ok (mkBuffer new_buffer 0 new_capacity new_size).

Definition with_capacity (capacity : Z) (garbage : list Z) : res CircularBuffer := set_capacity empty_buffer capacity garbage.

Definition resize (b : CircularBuffer) (new_size item : Z) (garbage : list Z) : res CircularBuffer :=
  if new_size <=? size_ b then Ok (mkBuffer (buffer_ b) (buffer_start_ b) (capacity_ b) new_size)
  else
    let* b := (if new_size >? capacity_ b then set_capacity b new_size garbage else Ok b) in
    let* fill_begin := umod (u64 (buffer_start_ b + size_ b)) (capacity_ b) in
    let fill_quantity := u64 (new_size - size_ b) in
    let first_part_size := Z.min fill_quantity (u64 (capacity_ b - fill_begin)) in
    let* a := fill_n (buffer_ b) fill_begin first_part_size item in
    let* a :=
      (if first_part_size <? fill_quantity then
         let second_part_size := u64 (fill_quantity - first_part_size) in
         fill_n a 0 second_part_size item
       else Ok a) in
    Ok (mkBuffer a (buffer_start_ b) (capacity_ b) new_size).

Definition filled (capacity elem : Z) (garbage garbage' : list Z) : res CircularBuffer :=
  let* b := with_capacity capacity garbage in resize b capacity elem garbage'.

Fixpoint store_all (a : list Z) (i : Z) (l : list Z) : res (list Z) :=
  match l with
  | [] => Ok a
  | x :: l => let* a := arr_set a i x in store_all a (i + 1) l
  end.

Definition of_list (l garbage : list Z) : res CircularBuffer :=
  let* b := with_capacity (zlen l) garbage in
  let* a := store_all (buffer_ b) 0 l in
  Ok (mkBuffer a (buffer_start_ b) (capacity_ b) (zlen l)).

(** The copy constructor. *)
Definition copy (other : CircularBuffer) (garbage : list Z) : res CircularBuffer :=
  let* a := copy_n (buffer_ other) 0 (size_ other) garbage 0 in
  Ok (mkBuffer a (buffer_start_ other) (capacity_ other) (size_ other)).

(** ** Both ends *)

Definition push_back (b : CircularBuffer) (item : Z) : res CircularBuffer :=
  if capacity_ b =? 0 then Ok b
  else
    let* i := umod (u64 (buffer_start_ b + size_ b)) (capacity_ b) in
    let* a := arr_set (buffer_ b) i item in
    if negb (size_ b =? capacity_ b) then Ok (mkBuffer a (buffer_start_ b) (capacity_ b) (u64 (size_ b + 1)))
    else
      let* start := umod (u64 (buffer_start_ b + 1)) (capacity_ b) in
      Ok (mkBuffer a start (capacity_ b) (size_ b)).

Definition push_front (b : CircularBuffer) (item : Z) : res CircularBuffer :=
  if capacity_ b =? 0 then Ok b
  else
    let* i := umod (u64 (u64 (buffer_start_ b + capacity_ b) - 1)) (capacity_ b) in
    let* a := arr_set (buffer_ b) i item in
    if negb (size_ b =? capacity_ b) then Ok (mkBuffer a i (capacity_ b) (u64 (size_ b + 1)))
    else Ok (mkBuffer a i (capacity_ b) (size_ b)).

Definition pop_back (b : CircularBuffer) : CircularBuffer :=
  mkBuffer (buffer_ b) (buffer_start_ b) (capacity_ b) (u64 (size_ b - 1)).

Definition pop_front (b : CircularBuffer) : res CircularBuffer :=
  let* start := umod (u64 (buffer_start_ b + 1)) (capacity_ b) in
  Ok (mkBuffer (buffer_ b) start (capacity_ b) (u64 (size_ b - 1))).

(** ** Observers *)

Definition empty (b : CircularBuffer) : bool := size_ b =? 0.
Definition full (b : CircularBuffer) : bool := size_ b =? capacity_ b.
Definition reserve (b : CircularBuffer) : Z := u64 (capacity_ b - size_ b).
Definition is_linearized (b : CircularBuffer) : bool := buffer_start_ b =? 0.

Definition elem_at (b : CircularBuffer) (i : Z) : res Z :=
  let* k := umod (u64 (buffer_start_ b + i)) (capacity_ b) in arr_get (buffer_ b) k.

Definition at_checked (b : CircularBuffer) (i : Z) : res Z :=
  if i >=? size_ b then Err (Exited 134 "std::out_of_range") else elem_at b i.

Definition front (b : CircularBuffer) : res Z := arr_get (buffer_ b) (buffer_start_ b).

Definition back (b : CircularBuffer) : res Z :=
  let* k := umod (u64 (buffer_start_ b + size_ b)) (capacity_ b) in arr_get (buffer_ b) k.

Fixpoint equal_from (n : nat) (i : Z) (a b : CircularBuffer) : res bool :=
  match n with
  | O => Ok true
  | S n =>
      let* x := elem_at a i in
      let* y := elem_at b i in
      if negb (x =? y) then Ok false else equal_from n (i + 1) a b
  end.

Definition equal (a b : CircularBuffer) : res bool :=
  if negb (size_ a =? size_ b) then Ok false else equal_from (Z.to_nat (size_ a)) 0 a b.

(** ** The middle *)

(** [pos] is an [int]. *)
Definition insert (b : CircularBuffer) (pos item : Z) : res CircularBuffer :=
  let pos := to_s32 pos in
  let shift_quantity := u64 (size_ b - pos) in
  let* absolute_pos := umod (u64 (buffer_start_ b + pos)) (capacity_ b) in
  let first_part_size := Z.min shift_quantity (u64 (capacity_ b - absolute_pos - 1)) in
  let* a :=
    (if first_part_size <? shift_quantity then
       let second_part_size := u64 (shift_quantity - first_part_size - 1) in
       let* a := copy_n (buffer_ b) 0 second_part_size (buffer_ b) 1 in
       let* x := arr_get a (u64 (capacity_ b - 1)) in
       arr_set a 0 x
     else Ok (buffer_ b)) in
  let* a := copy_n a absolute_pos first_part_size a (absolute_pos + 1) in
  let* '(start, size) :=
    (if capacity_ b =? size_ b then
       if negb (pos =? 0) then let* s := umod (u64 (buffer_start_ b + 1)) (capacity_ b) in Ok (s, size_ b)
       else Ok (buffer_start_ b, size_ b)
     else Ok (buffer_start_ b, u64 (size_ b + 1))) in
  let* a := arr_set a absolute_pos item in
  Ok (mkBuffer a start (capacity_ b) size).

Definition erase (b : CircularBuffer) (first last : Z) : res CircularBuffer :=
  if first =? last then Ok b
  else
    let shift_quantity := u64 (size_ b - last) in
    let* last_absolute := umod (u64 (buffer_start_ b + last)) (capacity_ b) in
    let* first_absolute := umod (u64 (buffer_start_ b + first)) (capacity_ b) in
    let* a :=
      (if first_absolute <=? last_absolute then
         let first_part_size := Z.min shift_quantity (u64 (capacity_ b - last_absolute)) in
         let* a := copy_n (buffer_ b) last_absolute first_part_size (buffer_ b) first_absolute in
         if first_part_size <? shift_quantity then
           let second_part_size := Z.min (u64 (shift_quantity - first_part_size)) (u64 (capacity_ b - last_absolute)) in
           let* a := copy_n a 0 second_part_size a (first_absolute + first_part_size) in
           if u64 (first_part_size + second_part_size) <? shift_quantity then
             let third_part_size := u64 (shift_quantity - first_part_size - second_part_size) in
             copy_n a second_part_size third_part_size a 0
           else Ok a
         else Ok a
       else
         let first_part_size := Z.min shift_quantity (u64 (capacity_ b - first_absolute)) in
         let* a := copy_n (buffer_ b) last_absolute first_part_size (buffer_ b) first_absolute in
         if first_part_size <? shift_quantity then
           let second_part_size := u64 (shift_quantity - first_part_size) in
           copy_n a (last_absolute + first_part_size) second_part_size a 0
         else Ok a) in
    Ok (mkBuffer a (buffer_start_ b) (capacity_ b) (u64 (size_ b - (last - first)))).

Definition clear (b : CircularBuffer) : CircularBuffer := mkBuffer (buffer_ b) (buffer_start_ b) (capacity_ b) 0.

(** [new_begin] is an [int]. *)
Definition rotate (b : CircularBuffer) (new_begin : Z) : res CircularBuffer :=
  let new_begin := to_s32 new_begin in
  let* a := rotate_array (buffer_ b) new_begin in Ok (mkBuffer a (buffer_start_ b) (capacity_ b) (size_ b)).

Definition linearize (b : CircularBuffer) : res CircularBuffer :=
  let* a := rotate_array (buffer_ b) (buffer_start_ b) in Ok (mkBuffer a 0 (capacity_ b) (size_ b)).

(** [operator=] exchanges the members with those of a copy. *)
Definition swap (b other : CircularBuffer) : CircularBuffer * CircularBuffer := (other, b).

(** The test of [insert]: 1 2 3 4 with two elements pushed to the front. *)
Example insert_run :
  (let* b := of_list [1; 2; 3; 4] [9; 9; 9; 9] in
   let* b := push_front b 0 in let* b := push_front b 0 in
   let* b := insert b 1 9 in
   let* c := of_list [9; 0; 1; 2] [0; 0; 0; 0] in equal b c) = Ok true.
Proof. reflexivity. Qed.

(** ** The elements *)

(** [b] holds the list [l]. *)
Record holds_list (b : CircularBuffer) (l : list Z) : Prop := {
  hl_cells : zlen (buffer_ b) = capacity_ b;
  hl_bound : capacity_ b < 2 ^ 63;
  hl_start : 0 <= buffer_start_ b /\ (buffer_start_ b < capacity_ b \/ capacity_ b = 0 /\ buffer_start_ b = 0);
  hl_size : size_ b = zlen l;
  hl_fits : zlen l <= capacity_ b;
  hl_elems : forall i, 0 <= i < zlen l -> znth (buffer_ b) ((buffer_start_ b + i) mod capacity_ b) = znth l i
}.

(** The remainder of a sum of two places, without a division. *)
Definition wrap (c k : Z) : Z := if k <? c then k else k - c.

Lemma mod_wrap c k : 0 <= k < 2 * c -> k mod c = wrap c k.
Proof.
  intros H. unfold wrap. destruct (Z.ltb_spec k c).
  - apply Z.mod_small. lia.
  - symmetry. apply (Z.mod_unique k c 1); lia.
Qed.

Lemma umod_wrap c k : 0 < c -> c < 2 ^ 63 -> 0 <= k < 2 * c -> umod (u64 k) c = Ok (wrap c k).
Proof.
  intros Hc Hb Hk. unfold umod. destruct (Z.eqb_spec c 0); [lia|]. rewrite u64_small by lia. by rewrite mod_wrap.
Qed.

Lemma holds_intro a start c n l :
  zlen a = c -> c < 2 ^ 63 -> 0 <= start < c -> n = zlen l -> zlen l <= c ->
  (forall i, 0 <= i < zlen l -> znth a (wrap c (start + i)) = znth l i) -> holds_list (mkBuffer a start c n) l.
Proof.
  intros Ha Hc Hs Hn Hl Hi. split; cbn; [done|done|lia|done|done|]. intros i H. rewrite mod_wrap by lia. by apply Hi.
Qed.

Lemma holds_nth b l i :
  holds_list b l -> 0 <= i < zlen l -> znth (buffer_ b) (wrap (capacity_ b) (buffer_start_ b + i)) = znth l i.
Proof.
  intros [Hc Hb Hs Hz Hf He] Hi. rewrite <- mod_wrap by lia. by apply He.
Qed.

Lemma znth_memmove (dst src : list Z) j i n a k :
  memmove dst j src i n = Ok a -> 0 <= k < zlen dst ->
  znth a k = if (j <=? k) && (k <? j + n) then znth src (i + (k - j)) else znth dst k.
Proof.
  unfold memmove. destruct (_ && _) eqn:E; [|done]. rewrite !andb_true_iff, !Z.leb_le in E.
  intros [= <-] Hk. destruct E as [[[[Hi Hj] Hn] His] Hjd].
  assert (Ht : zlen (take (Z.to_nat j) dst) = j) by (rewrite zlen_take; lia).
  assert (Hm : zlen (take (Z.to_nat n) (drop (Z.to_nat i) src)) = n) by (rewrite zlen_take; [lia|rewrite zlen_drop; lia]).
  destruct (Z.leb_spec j k); [destruct (Z.ltb_spec k (j + n))|]; cbn [andb].
  - rewrite znth_app_r, Ht by lia. rewrite znth_app_l by lia. rewrite znth_take by lia. rewrite znth_drop by lia. f_equal. lia.
  - rewrite znth_app_r, Ht by lia. rewrite znth_app_r, Hm by lia. rewrite znth_drop by lia. f_equal. lia.
  - rewrite znth_app_l by lia. by rewrite znth_take by lia.
Qed.

Lemma zlen_memmove (dst src : list Z) j i n a : memmove dst j src i n = Ok a -> zlen a = zlen dst.
Proof.
  unfold memmove. destruct (_ && _) eqn:E; [|done]. rewrite !andb_true_iff, !Z.leb_le in E. intros [= <-].
  unfold zlen. by rewrite memmove_length by lia.
Qed.

(** A copy inside the bounds: its length and its cells. *)
Lemma copy_n_ok src i n dst j :
  0 <= i -> 0 <= j -> 0 <= n -> i + n <= zlen src -> j + n <= zlen dst ->
  exists a, copy_n src i n dst j = Ok a /\ zlen a = zlen dst /\
    forall k, 0 <= k < zlen dst -> znth a k = if (j <=? k) && (k <? j + n) then znth src (i + (k - j)) else znth dst k.
Proof.
  intros. unfold copy_n. pose proof (memmove_ok dst j src i n ltac:(lia) ltac:(lia) ltac:(lia) ltac:(lia) ltac:(lia)) as E.
  eexists. split; [exact E|]. split; [by eapply zlen_memmove|]. intros k Hk. by eapply znth_memmove.
Qed.

Lemma fill_n_ok a i n x :
  0 <= i -> 0 <= n -> i + n <= zlen a ->
  exists a', fill_n a i n x = Ok a' /\ zlen a' = zlen a /\
    forall k, 0 <= k < zlen a -> znth a' k = if (i <=? k) && (k <? i + n) then x else znth a k.
Proof.
  intros. assert (Hr : zlen (replicate (Z.to_nat n) x) = n) by (unfold zlen; rewrite length_replicate; lia).
  destruct (copy_n_ok (replicate (Z.to_nat n) x) 0 n a i) as (a' & E & Hl & Hk); [lia..|].
  exists a'. split; [exact E|]. split; [done|]. intros k Hkr. rewrite Hk by done.
  destruct (Z.leb_spec i k), (Z.ltb_spec k (i + n)); cbn [andb]; try done.
  unfold znth. apply lookup_total_replicate_2. lia.
Qed.

(** Case analysis on the comparisons with [wrap] unfolded. *)
Ltac cells :=
  unfold wrap in *;
  repeat match goal with
  | |- context [Z.ltb ?x ?y] => destruct (Z.ltb_spec x y)
  | |- context [Z.leb ?x ?y] => destruct (Z.leb_spec x y)
  | H : context [Z.ltb ?x ?y] |- _ => destruct (Z.ltb_spec x y)
  | H : context [Z.leb ?x ?y] |- _ => destruct (Z.leb_spec x y)
  end; cbn [negb andb orb] in *; try lia.

(** ** Both ends *)

Lemma cb_push_back_spec b l x :
  holds_list b l -> exists b', push_back b x = Ok b' /\ capacity_ b' = capacity_ b /\
    holds_list b' (if capacity_ b =? 0 then l else if zlen l <? capacity_ b then l ++ [x] else tail l ++ [x]).
Proof.
  intros Hh. pose proof Hh as [Hc Hb Hs Hz Hf He]. unfold push_back. destruct (Z.eqb_spec (capacity_ b) 0) as [E|E].
  { exists b. done. }
  pose proof (zlen_nonneg l) as H0. rewrite umod_wrap by lia. set (k := wrap _ _).
  assert (Hk : 0 <= k < capacity_ b) by (subst k; cells). rewrite arr_set_ok by lia. rewrite Hz.
  destruct (Z.ltb_spec (zlen l) (capacity_ b)) as [Hlt|Hge]; destruct (Z.eqb_spec (zlen l) (capacity_ b)) as [Heq|Hne]; try lia; cbn [negb].
  - eexists. split; [done|]. split; [done|]. apply holds_intro; rewrite ?zlen_zset, ?zlen_app; change (zlen [x]) with 1; try lia.
    { rewrite u64_small by lia. lia. }
    intros i Hi. rewrite znth_zset by (subst k; cells). destruct (Z.eqb_spec k (wrap (capacity_ b) (buffer_start_ b + i))) as [Ek|Ek].
    + assert (i = zlen l) as -> by (subst k; cells). rewrite znth_app_r by lia. by rewrite Z.sub_diag.
    + assert (i <> zlen l) by (intros ->; subst k; cells). rewrite znth_app_l by lia. apply holds_nth; [done|lia].
  - rewrite umod_wrap by lia. eexists. split; [done|]. split; [done|].
    destruct l as [|y l]; [rewrite zlen_nil in *; lia|]. rewrite zlen_cons in *. cbn [tail]. pose proof (zlen_nonneg l).
    apply holds_intro; rewrite ?zlen_zset, ?zlen_app; change (zlen [x]) with 1; try lia; [cells|].
    intros i Hi. rewrite znth_zset by (subst k; cells).
    destruct (Z.eqb_spec k (wrap (capacity_ b) (wrap (capacity_ b) (buffer_start_ b + 1) + i))) as [Ek|Ek].
    + assert (i = zlen l) as -> by (subst k; cells). rewrite znth_app_r by lia. by rewrite Z.sub_diag.
    + assert (i <> zlen l) by (intros ->; subst k; cells). rewrite znth_app_l by lia.
      rewrite <- (znth_cons_succ y l i) by lia. rewrite <- (holds_nth b (y :: l)) by (done || rewrite zlen_cons; lia).
      f_equal. cells.
Qed.

Lemma cb_push_front_spec b l x :
  holds_list b l -> exists b', push_front b x = Ok b' /\ capacity_ b' = capacity_ b /\
    holds_list b' (if capacity_ b =? 0 then l else x :: take (Z.to_nat (capacity_ b - 1)) l).
Proof.
  intros Hh. pose proof Hh as [Hc Hb Hs Hz Hf He]. unfold push_front. destruct (Z.eqb_spec (capacity_ b) 0) as [E|E].
  { exists b. done. }
  pose proof (zlen_nonneg l) as H0. rewrite (u64_small (buffer_start_ b + capacity_ b)) by lia. rewrite umod_wrap by lia. set (k := wrap _ _).
  assert (Hk : 0 <= k < capacity_ b) by (subst k; cells). rewrite arr_set_ok by lia. rewrite Hz.
  set (l' := take (Z.to_nat (capacity_ b - 1)) l).
  assert (Hl' : zlen l' = Z.min (zlen l) (capacity_ b - 1)) by (unfold l', zlen; rewrite length_take; unfold zlen in *; lia).
  assert (Hres : forall n, n = zlen l' + 1 -> holds_list (mkBuffer (zset (buffer_ b) k x) k (capacity_ b) n) (x :: l')).
  { intros n Hn. apply holds_intro; rewrite ?zlen_zset, ?zlen_cons; try lia.
    intros i Hi. rewrite znth_zset by cells. destruct (Z.eqb_spec k (wrap (capacity_ b) (k + i))) as [Ek|Ek].
    - assert (i = 0) as -> by cells. done.
    - assert (i <> 0) by (intros ->; cells). replace i with (Z.succ (i - 1)) at 2 by lia.
      rewrite znth_cons_succ by lia. unfold l'. rewrite znth_take by lia. rewrite <- (holds_nth b l) by (done || lia).
      f_equal. subst k. cells. }
  destruct (Z.eqb_spec (zlen l) (capacity_ b)) as [Heq|Hne]; cbn [negb]; (eexists; split; [done|]; split; [done|]; apply Hres).
  - lia.
  - rewrite u64_small by lia. lia.
Qed.

Lemma cb_pop_back_spec b l x : holds_list b (l ++ [x]) -> holds_list (pop_back b) l /\ capacity_ (pop_back b) = capacity_ b.
Proof.
  intros [Hc Hb Hs Hz Hf He]. rewrite zlen_app in *. change (zlen [x]) with 1 in *. pose proof (zlen_nonneg l). split; [|done].
  split; cbn; [done|done|done| |lia|].
  - rewrite Hz, u64_small by lia. lia.
  - intros i Hi. rewrite He by lia. by rewrite znth_app_l by lia.
Qed.

Lemma cb_pop_front_spec b l x :
  holds_list b (x :: l) -> exists b', pop_front b = Ok b' /\ holds_list b' l /\ capacity_ b' = capacity_ b.
Proof.
  intros Hh. pose proof Hh as [Hc Hb Hs Hz Hf He]. rewrite zlen_cons in *. pose proof (zlen_nonneg l). unfold pop_front.
  rewrite umod_wrap by lia. eexists. split; [done|]. split; [|done].
  apply holds_intro; [done|done|cells| |lia|].
  - rewrite Hz, u64_small by lia. lia.
  - intros i Hi. rewrite <- (znth_cons_succ x l i) by lia.
    rewrite <- (holds_nth b (x :: l)) by (done || rewrite zlen_cons; lia). f_equal. cells.
Qed.

(** ** Observers *)

Lemma elem_at_spec b l i : holds_list b l -> 0 <= i < zlen l -> elem_at b i = Ok (znth l i).
Proof.
  intros Hh Hi. pose proof Hh as [Hc Hb Hs Hz Hf He]. unfold elem_at. rewrite umod_wrap by lia.
  rewrite arr_get_ok by cells. by rewrite (holds_nth b l).
Qed.

Lemma at_checked_spec b l i :
  holds_list b l -> 0 <= i -> at_checked b i = if i <? zlen l then Ok (znth l i) else Err (Exited 134 "std::out_of_range").
Proof.
  intros Hh Hi. unfold at_checked. rewrite (hl_size _ _ Hh), Z.geb_leb.
  destruct (Z.leb_spec (zlen l) i), (Z.ltb_spec i (zlen l)); try lia; [done|]. by apply elem_at_spec.
Qed.

Lemma front_spec b l x : holds_list b (x :: l) -> front b = Ok x.
Proof.
  intros Hh. pose proof (elem_at_spec b (x :: l) 0 Hh) as H. rewrite zlen_cons in H. pose proof (zlen_nonneg l).
  specialize (H ltac:(lia)). pose proof Hh as [Hc Hb Hs Hz Hf He]. rewrite zlen_cons in *.
  unfold elem_at in H. rewrite umod_wrap in H by lia. unfold front. change (znth (x :: l) 0) with x in H. rewrite <- H. f_equal. cells.
Qed.

Lemma equal_from_spec n : forall i a b la lb,
  holds_list a la -> holds_list b lb -> 0 <= i -> i + Z.of_nat n = zlen la -> zlen la = zlen lb ->
  equal_from n i a b = Ok (bool_decide (drop (Z.to_nat i) la = drop (Z.to_nat i) lb)).
Proof.
  induction n as [|n IH]; intros i a b la lb Ha Hb Hi Hn Hl; cbn [equal_from].
  - rewrite bool_decide_true; [done|]. rewrite !drop_ge by (unfold zlen in *; lia). done.
  - rewrite (elem_at_spec a la), (elem_at_spec b lb) by (done || lia).
    assert (Hd : forall l : list Z, zlen l = zlen la -> drop (Z.to_nat i) l = znth l i :: drop (Z.to_nat (i + 1)) l).
    { intros l Hz. replace (Z.to_nat (i + 1)) with (S (Z.to_nat i)) by lia. apply drop_S.
      unfold znth. apply list_lookup_lookup_total_lt. unfold zlen in *. lia. }
    rewrite (Hd la eq_refl), (Hd lb ltac:(lia)). destruct (Z.eqb_spec (znth la i) (znth lb i)) as [E|E]; cbn [negb].
    + rewrite (IH (i + 1) a b la lb) by (done || lia). f_equal. apply bool_decide_ext. rewrite E. split; [by intros ->|by intros [= ?]].
    + rewrite bool_decide_false; [done|]. by intros [= ? _].
Qed.

Lemma equal_spec a b la lb : holds_list a la -> holds_list b lb -> equal a b = Ok (bool_decide (la = lb)).
Proof.
  intros Ha Hb. unfold equal. rewrite (hl_size _ _ Ha), (hl_size _ _ Hb).
  destruct (Z.eqb_spec (zlen la) (zlen lb)) as [E|E]; cbn [negb].
  - rewrite (equal_from_spec _ 0 a b la lb) by (done || unfold zlen; lia). done.
  - rewrite bool_decide_false; [done|]. by intros ->.
Qed.

(** ** Capacity and size *)

Lemma zlen_take_min (l : list Z) n : 0 <= n -> zlen (take (Z.to_nat n) l) = Z.min n (zlen l).
Proof. intros. unfold zlen. rewrite length_take. lia. Qed.

(** The elements are copied in two parts to the start of the new array. *)
Lemma set_capacity_spec b l n garbage :
  holds_list b l -> 0 <= n < 2 ^ 63 -> zlen garbage = n ->
  exists b', set_capacity b n garbage = Ok b' /\ capacity_ b' = n /\ buffer_start_ b' = 0 /\
    holds_list b' (take (Z.to_nat n) l).
Proof.
  intros Hh Hn Hg. pose proof Hh as [Hc Hb Hs Hz Hf He]. pose proof (zlen_nonneg l). unfold set_capacity.
  rewrite (u64_small (capacity_ b - buffer_start_ b)) by lia. rewrite Hz.
  set (m := Z.min (zlen l) n). set (f := Z.min m (capacity_ b - buffer_start_ b)).
  destruct (copy_n_ok (buffer_ b) (buffer_start_ b) f garbage 0) as (a1 & -> & Hl1 & Hk1); [lia..|].
  assert (Hres : forall a, zlen a = n -> (forall k, 0 <= k < m -> znth a k = znth l k) ->
    holds_list (mkBuffer a 0 n m) (take (Z.to_nat n) l)).
  { intros a Ha Hk. split; cbn; rewrite ?zlen_take_min by lia; [done|lia|lia|lia|lia|].
    intros i Hi. rewrite Z.mod_small by lia. rewrite znth_take by lia. apply Hk. lia. }
  assert (Hfirst : forall k, 0 <= k < f -> znth a1 k = znth l k).
  { intros k Hkr. rewrite Hk1 by lia. rewrite <- (holds_nth b l) by (done || lia).
    destruct (Z.leb_spec 0 k), (Z.ltb_spec k (0 + f)); try lia; cbn [andb]. f_equal. cells. }
  destruct (Z.ltb_spec f m) as [Hlt|Hge].
  - rewrite u64_small by lia.
    destruct (copy_n_ok (buffer_ b) 0 (m - f) a1 f) as (a2 & -> & Hl2 & Hk2); [lia..|].
    eexists. split; [done|]. split; [done|]. split; [done|]. apply Hres; [lia|]. intros k Hkr. rewrite Hk2 by lia.
    destruct (Z.leb_spec f k), (Z.ltb_spec k (f + (m - f))); try lia; cbn [andb]; [|apply Hfirst; lia].
    rewrite <- (holds_nth b l) by (done || lia). f_equal. cells.
  - eexists. split; [done|]. split; [done|]. split; [done|]. apply Hres; [lia|]. intros k Hkr. apply Hfirst. lia.
Qed.

Lemma empty_spec : holds_list empty_buffer [].
Proof. split; cbn; [done|done|lia|done|done|]. intros i Hi. change (zlen []) with 0 in Hi. lia. Qed.

(** New elements behind the others; the capacity grows when it has to. *)
Lemma fill_spec b l n x :
  holds_list b l -> zlen l < n <= capacity_ b ->
  exists a, (let* fill_begin := umod (u64 (buffer_start_ b + size_ b)) (capacity_ b) in
    let fill_quantity := u64 (n - size_ b) in
    let first_part_size := Z.min fill_quantity (u64 (capacity_ b - fill_begin)) in
    let* a := fill_n (buffer_ b) fill_begin first_part_size x in
    let* a :=
      (if first_part_size <? fill_quantity then
         let second_part_size := u64 (fill_quantity - first_part_size) in
         fill_n a 0 second_part_size x
       else Ok a) in
    Ok (mkBuffer a (buffer_start_ b) (capacity_ b) n)) = Ok (mkBuffer a (buffer_start_ b) (capacity_ b) n) /\
    holds_list (mkBuffer a (buffer_start_ b) (capacity_ b) n) (l ++ replicate (Z.to_nat (n - zlen l)) x).
Proof.
  intros Hh Hn. pose proof Hh as [Hc Hb Hs Hz Hf He]. pose proof (zlen_nonneg l). rewrite Hz, umod_wrap by lia.
  set (k0 := wrap _ _). assert (Hk0 : 0 <= k0 < capacity_ b) by (subst k0; cells).
  rewrite (u64_small (n - zlen l)), (u64_small (capacity_ b - k0)) by lia. cbv zeta.
  set (q := n - zlen l). set (f := Z.min q (capacity_ b - k0)).
  destruct (fill_n_ok (buffer_ b) k0 f x) as (a1 & -> & Hl1 & Hk1); [lia..|].
  assert (Hr : zlen (replicate (Z.to_nat q) x) = q) by (unfold zlen; rewrite length_replicate; lia).
  assert (Hres : forall a, zlen a = capacity_ b ->
    (forall k, 0 <= k < capacity_ b -> znth a k = if (k0 <=? k) && (k <? k0 + f) || (k <? q - f) then x else znth (buffer_ b) k) ->
    holds_list (mkBuffer a (buffer_start_ b) (capacity_ b) n) (l ++ replicate (Z.to_nat q) x)).
  { intros a Ha Hk. apply holds_intro; rewrite ?zlen_app, ?Hr; try lia. intros i Hi.
    rewrite Hk by cells. destruct (decide (i < zlen l)) as [Hil|Hil].
    - rewrite znth_app_l by lia. rewrite <- (holds_nth b l) by (done || lia). subst k0. cells.
    - rewrite znth_app_r by lia. assert (znth (replicate (Z.to_nat q) x) (i - zlen l) = x) as ->.
      { unfold znth. apply lookup_total_replicate_2. lia. }
      subst k0. cells. }
  destruct (Z.ltb_spec f q) as [Hlt|Hge].
  - rewrite u64_small by lia. destruct (fill_n_ok a1 0 (q - f) x) as (a2 & -> & Hl2 & Hk2); [lia..|].
    eexists. split; [done|]. apply Hres; [lia|]. intros k Hk. rewrite Hk2 by lia. rewrite Hk1 by lia.
    destruct (Z.leb_spec 0 k); [|lia]. replace (0 + (q - f)) with (q - f) by lia.
    by destruct (k <? q - f), ((k0 <=? k) && (k <? k0 + f)).
  - eexists. split; [done|]. apply Hres; [lia|]. intros k Hk. rewrite Hk1 by lia.
    destruct (Z.ltb_spec k (q - f)); [lia|]. by rewrite orb_false_r.
Qed.

Lemma resize_spec b l n x garbage :
  holds_list b l -> 0 <= n < 2 ^ 63 -> zlen garbage = n ->
  exists b', resize b n x garbage = Ok b' /\ capacity_ b' = Z.max (capacity_ b) n /\
    holds_list b' (if n <=? zlen l then take (Z.to_nat n) l else l ++ replicate (Z.to_nat (n - zlen l)) x).
Proof.
  intros Hh Hn Hg. pose proof Hh as [Hc Hb Hs Hz Hf He]. pose proof (zlen_nonneg l). unfold resize. rewrite Hz.
  destruct (Z.leb_spec n (zlen l)) as [Hle|Hgt].
  - eexists. split; [done|]. cbn. split; [lia|]. split; cbn; rewrite ?zlen_take_min by lia; [done|done|done|lia|lia|].
    intros i Hi. rewrite He by lia. by rewrite znth_take by lia.
  - rewrite Z.gtb_ltb. destruct (Z.ltb_spec (capacity_ b) n) as [Hc1|Hc1].
    + destruct (set_capacity_spec b l n garbage Hh Hn Hg) as (b1 & -> & Hc' & _ & Hh1).
      rewrite take_ge in Hh1 by (unfold zlen in *; lia).
      destruct (fill_spec b1 l n x Hh1 ltac:(lia)) as (a & E & Hr). cbv zeta in *. rewrite E.
      eexists. split; [done|]. cbn. split; [lia|done].
    + destruct (fill_spec b l n x Hh ltac:(lia)) as (a & E & Hr). cbv zeta in *. rewrite E.
      eexists. split; [done|]. cbn. split; [lia|done].
Qed.

(** ** Insertion and removal in the middle *)

(** The array that [insert] leaves: the cells behind the place, up to the end of the
    elements, are moved by one, around the end of the array if need be. *)
Lemma int_small n : 0 <= n < 2 ^ 31 -> to_s32 n = n.
Proof. intros Hn. by apply to_signed_small; [|change (2 ^ (32 - 1)) with (2 ^ 31); lia]. Qed.

Lemma insert_cells b l pos x :
  holds_list b l -> 0 < capacity_ b -> 0 <= pos <= zlen l -> pos < 2 ^ 31 ->
  (zlen l = capacity_ b -> 0 < pos) ->
  exists a start size, insert b pos x = Ok (mkBuffer a start (capacity_ b) size) /\ zlen a = capacity_ b /\
    start = (if zlen l =? capacity_ b then wrap (capacity_ b) (buffer_start_ b + 1) else buffer_start_ b) /\
    size = (if zlen l =? capacity_ b then zlen l else zlen l + 1) /\
    znth a (wrap (capacity_ b) (buffer_start_ b + pos)) = x /\
    (forall i, pos <= i < zlen l ->
       znth a (wrap (capacity_ b) (wrap (capacity_ b) (buffer_start_ b + i) + 1)) = znth l i) /\
    (forall i, 0 <= i < pos -> (zlen l = capacity_ b -> 0 < i) -> znth a (wrap (capacity_ b) (buffer_start_ b + i)) = znth l i).
Proof.
  intros Hh Hc0 Hp Hw Hex. pose proof Hh as [Hc Hb Hs Hz Hf He]. pose proof (zlen_nonneg l). unfold insert. rewrite int_small by lia. rewrite Hz.
  rewrite (u64_small (zlen l - pos)) by lia. rewrite umod_wrap by lia. cbv zeta. set (ab := wrap _ _).
  assert (Hab : 0 <= ab < capacity_ b) by (subst ab; cells). rewrite (u64_small (capacity_ b - ab - 1)) by lia.
  set (sh := zlen l - pos). set (f := Z.min sh (capacity_ b - ab - 1)).
  assert (H1 : exists a1, (if f <? sh then
       let* a := copy_n (buffer_ b) 0 (u64 (sh - f - 1)) (buffer_ b) 1 in
       let* x := arr_get a (u64 (capacity_ b - 1)) in arr_set a 0 x
     else Ok (buffer_ b)) = Ok a1 /\ zlen a1 = capacity_ b /\
     forall k, 0 <= k < capacity_ b -> znth a1 k =
       if f <? sh then if k =? 0 then znth (buffer_ b) (capacity_ b - 1)
         else if k <? sh - f then znth (buffer_ b) (k - 1) else znth (buffer_ b) k
       else znth (buffer_ b) k).
  { destruct (Z.ltb_spec f sh) as [Hlt|Hge]; [|by exists (buffer_ b)]. rewrite (u64_small (sh - f - 1)) by lia.
    destruct (copy_n_ok (buffer_ b) 0 (sh - f - 1) (buffer_ b) 1) as (a1 & -> & Hl1 & Hk1); [subst ab; cells..|].
    rewrite (u64_small (capacity_ b - 1)) by lia. rewrite arr_get_ok by lia. rewrite arr_set_ok by lia.
    eexists. split; [done|]. split; [by rewrite zlen_zset, Hl1|]. intros k Hk. rewrite znth_zset by lia. rewrite !Hk1 by lia.
    assert (sh - f < capacity_ b \/ capacity_ b = 1) by (subst ab; cells).
    rewrite (Z.eqb_sym 0 k). destruct (Z.eqb_spec k 0); subst ab; cells; f_equal; lia. }
  destruct H1 as (a1 & -> & Hl1 & Hk1).
  destruct (copy_n_ok a1 ab f a1 (ab + 1)) as (a2 & -> & Hl2 & Hk2); [lia..|].
  assert (Hz2 : zlen (zset a2 ab x) = capacity_ b) by (rewrite zlen_zset; lia).
  assert (Hst : forall start size, (let* a := arr_set a2 ab x in Ok (mkBuffer a start (capacity_ b) size)) = Ok (mkBuffer (zset a2 ab x) start (capacity_ b) size))
    by (intros; by rewrite arr_set_ok by lia).
  exists (zset a2 ab x), (if zlen l =? capacity_ b then wrap (capacity_ b) (buffer_start_ b + 1) else buffer_start_ b),
    (if zlen l =? capacity_ b then zlen l else zlen l + 1).
  split; [|split; [done|split; [done|split; [done|split; [|split]]]]].
  - rewrite (Z.eqb_sym (capacity_ b)). destruct (Z.eqb_spec (zlen l) (capacity_ b)); [destruct (Z.eqb_spec pos 0)|]; cbn [negb andb].
    + lia.
    + rewrite umod_wrap by lia. apply Hst.
    + rewrite u64_small by lia. apply Hst.
  - apply znth_zset_eq. lia.
  - intros i Hi. rewrite znth_zset_ne by (subst ab; cells).
    rewrite <- (holds_nth b l) by (done || lia). rewrite Hk2 by (subst ab; cells).
    remember (wrap (capacity_ b) (buffer_start_ b + i)) as q eqn:Eq.
    remember (wrap (capacity_ b) (q + 1)) as p eqn:Ep.
    assert (Hq : 0 <= q < capacity_ b /\ (q = ab + (i - pos) \/ q = ab + (i - pos) - capacity_ b)) by (subst ab; cells).
    assert (Hpq : p = q + 1 /\ q < capacity_ b - 1 \/ p = 0 /\ q = capacity_ b - 1) by (clear Eq; cells).
    clear Eq Ep. clearbody ab.
    destruct (Z.leb_spec (ab + 1) p), (Z.ltb_spec p (ab + 1 + f)); cbn [andb]; rewrite Hk1 by lia.
    all: destruct (Z.ltb_spec f sh); [repeat (zcase; try lia)|]; try (f_equal; lia); try lia.
  - intros i Hi Hi'. rewrite znth_zset_ne by (subst ab; cells).
    rewrite <- (holds_nth b l) by (done || lia). rewrite Hk2 by (subst ab; cells).
    remember (wrap (capacity_ b) (buffer_start_ b + i)) as q eqn:Eq.
    assert (Hq : 0 <= q < capacity_ b /\ (q = ab - (pos - i) \/ q = ab - (pos - i) + capacity_ b)) by (subst ab; cells).
    clear Eq. clearbody ab.
    destruct (Z.leb_spec (ab + 1) q), (Z.ltb_spec q (ab + 1 + f)); cbn [andb]; rewrite Hk1 by lia.
    all: destruct (Z.ltb_spec f sh); [repeat (zcase; try lia)|]; try (f_equal; lia); try lia.
Qed.

Lemma znth_inserted (l : list Z) pos x i :
  0 <= pos <= zlen l -> 0 <= i <= zlen l ->
  znth (take (Z.to_nat pos) l ++ x :: drop (Z.to_nat pos) l) i = if i <? pos then znth l i else if i =? pos then x else znth l (i - 1).
Proof.
  intros Hp Hi. assert (Ht : zlen (take (Z.to_nat pos) l) = pos) by (rewrite zlen_take_min; lia).
  destruct (Z.ltb_spec i pos).
  - rewrite znth_app_l by lia. by rewrite znth_take by lia.
  - rewrite znth_app_r by lia. rewrite Ht. destruct (Z.eqb_spec i pos) as [->|]; [by rewrite Z.sub_diag|].
    replace (i - pos) with (Z.succ (i - pos - 1)) by lia. rewrite znth_cons_succ by lia. rewrite znth_drop by lia. f_equal. lia.
Qed.

Lemma zlen_inserted (l : list Z) pos x :
  0 <= pos <= zlen l -> zlen (take (Z.to_nat pos) l ++ x :: drop (Z.to_nat pos) l) = zlen l + 1.
Proof. intros Hp. rewrite zlen_app, zlen_cons, zlen_take_min, zlen_drop by lia. lia. Qed.

(** In a full buffer the first element gives way. *)
Lemma cb_insert_spec b l pos x :
  holds_list b l -> 0 < capacity_ b -> 0 <= pos <= zlen l -> pos < 2 ^ 31 -> (zlen l = capacity_ b -> 0 < pos) ->
  exists b', insert b pos x = Ok b' /\ capacity_ b' = capacity_ b /\
    holds_list b' (drop (if zlen l =? capacity_ b then 1 else 0) (take (Z.to_nat pos) l ++ x :: drop (Z.to_nat pos) l)).
Proof.
  intros Hh Hc0 Hp Hw Hfull. pose proof Hh as [Hc Hb Hs Hz Hf He]. pose proof (zlen_nonneg l).
  destruct (insert_cells b l pos x Hh Hc0 Hp Hw Hfull) as (a & start & size & -> & Ha & -> & -> & Hx & Hafter & Hbefore).
  eexists. split; [done|]. split; [done|]. set (l' := take (Z.to_nat pos) l ++ x :: drop (Z.to_nat pos) l).
  assert (Hl' : zlen l' = zlen l + 1) by (by apply zlen_inserted).
  destruct (Z.eqb_spec (zlen l) (capacity_ b)) as [Heq|Hne].
  - apply holds_intro; rewrite ?(zlen_drop 1) by lia; try lia; [cells|]. intros i Hi. rewrite znth_drop by lia.
    unfold l'. rewrite znth_inserted by lia. destruct (Z.ltb_spec (Z.of_nat 1 + i) pos); [|destruct (Z.eqb_spec (Z.of_nat 1 + i) pos) as [Ei|Ei]].
    + rewrite <- (Hbefore (Z.of_nat 1 + i)) by lia. f_equal. cells.
    + rewrite <- Hx. f_equal. cells.
    + rewrite <- (Hafter (Z.of_nat 1 + i - 1)) by lia. f_equal. cells.
  - rewrite drop_0. apply holds_intro; rewrite ?Hl'; try lia. intros i Hi. unfold l'. rewrite znth_inserted by lia.
    destruct (Z.ltb_spec i pos); [|destruct (Z.eqb_spec i pos) as [->|Ei]].
    + apply Hbefore; lia.
    + done.
    + rewrite <- (Hafter (i - 1)) by lia. f_equal. cells.
Qed.

(** The cases in which [erase] does what it says. *)
Definition erase_fits (b : CircularBuffer) (first last : Z) : Prop :=
  let la := wrap (capacity_ b) (buffer_start_ b + last) in
  let fa := wrap (capacity_ b) (buffer_start_ b + first) in
  let behind := capacity_ b - la in
  la < fa \/ size_ b - last - behind <= Z.min behind (last - first) \/ behind = last - first.

(** The value of a cell after copies, given what each copy does: case analysis on whether
    the cell was written. *)
Ltac trace_cell :=
  repeat (match goal with
          | Hk : forall k, _ -> znth ?a k = _ |- context [znth ?a ?k] => rewrite (Hk k) by lia
          end; zcase; try lia);
  f_equal; lia.

Lemma erase_cells b l first last :
  holds_list b l -> 0 <= first < last -> last <= zlen l -> erase_fits b first last ->
  exists a, erase b first last = Ok (mkBuffer a (buffer_start_ b) (capacity_ b) (zlen l - (last - first))) /\ zlen a = capacity_ b /\
    (forall i, 0 <= i < first -> znth a (wrap (capacity_ b) (buffer_start_ b + i)) = znth l i) /\
    (forall i, first <= i < zlen l - (last - first) -> znth a (wrap (capacity_ b) (buffer_start_ b + i)) = znth l (i + (last - first))).
Proof.
  intros Hh Hr Hl Hfit. pose proof Hh as [Hc Hb Hs Hz Hf He]. unfold erase, erase_fits in *. rewrite Hz in *.
  destruct (Z.eqb_spec first last); [lia|]. rewrite !(u64_small (zlen l - last)) by lia. rewrite !umod_wrap by lia. cbv zeta in *.
  remember (wrap (capacity_ b) (buffer_start_ b + last)) as la eqn:Ela. remember (wrap (capacity_ b) (buffer_start_ b + first)) as fa eqn:Efa.
  assert (Hla : 0 <= la < capacity_ b /\ 0 <= fa < capacity_ b) by cells.
  rewrite (u64_small (capacity_ b - la)), (u64_small (capacity_ b - fa)), (u64_small (zlen l - (last - first))) by lia.
  set (sh := zlen l - last) in *.
  cut (exists a, (if fa <=? la then
         let* a := copy_n (buffer_ b) la (Z.min sh (capacity_ b - la)) (buffer_ b) fa in
         if Z.min sh (capacity_ b - la) <? sh then
           let* a := copy_n a 0 (Z.min (u64 (sh - Z.min sh (capacity_ b - la))) (capacity_ b - la)) a (fa + Z.min sh (capacity_ b - la)) in
           if u64 (Z.min sh (capacity_ b - la) + Z.min (u64 (sh - Z.min sh (capacity_ b - la))) (capacity_ b - la)) <? sh then
             copy_n a (Z.min (u64 (sh - Z.min sh (capacity_ b - la))) (capacity_ b - la)) (u64 (sh - Z.min sh (capacity_ b - la) - Z.min (u64 (sh - Z.min sh (capacity_ b - la))) (capacity_ b - la))) a 0
           else Ok a
         else Ok a
       else
         let* a := copy_n (buffer_ b) la (Z.min sh (capacity_ b - fa)) (buffer_ b) fa in
         if Z.min sh (capacity_ b - fa) <? sh then copy_n a (la + Z.min sh (capacity_ b - fa)) (u64 (sh - Z.min sh (capacity_ b - fa))) a 0
         else Ok a) = Ok a /\ zlen a = capacity_ b /\
    (forall i, 0 <= i < first -> znth a (wrap (capacity_ b) (buffer_start_ b + i)) = znth (buffer_ b) (wrap (capacity_ b) (buffer_start_ b + i))) /\
    (forall i, first <= i < zlen l - (last - first) -> znth a (wrap (capacity_ b) (buffer_start_ b + i)) = znth (buffer_ b) (wrap (capacity_ b) (buffer_start_ b + (i + (last - first)))))).
  { intros (a & -> & Ha & H1 & H2). exists a. split; [done|]. split; [done|]. split.
    - intros i Hi. rewrite H1 by lia. apply (holds_nth b l); [done|lia].
    - intros i Hi. rewrite H2 by lia. apply (holds_nth b l); [done|lia]. }
  pose (c := capacity_ b). pose (st := buffer_start_ b). fold c st in Ela, Efa, Hla, Hfit, Hs, Hf, Hc, Hb |- *.
  assert (Hpos : (fa = st + first \/ fa = st + first - c /\ c <= st + first) /\ (la = st + last \/ la = st + last - c /\ c <= st + last)) by (clear Hfit; cells).
  assert (Hwr : forall k, 0 <= k < 2 * c -> 0 <= wrap c k < c /\ (k < c /\ wrap c k = k \/ c <= k /\ wrap c k = k - c)) by (intros k Hk; cells).
  clear Ela Efa.
  assert (Hfin : forall a : list Z,
    (forall i p q : Z, 0 <= i < first -> 0 <= p < c /\ (p = st + i \/ p = st + i - c /\ c <= st + i) -> q = p -> znth a p = znth (buffer_ b) q) ->
    (forall i p q : Z, first <= i < zlen l - (last - first) -> 0 <= p < c /\ (p = st + i \/ p = st + i - c /\ c <= st + i) ->
       0 <= q < c /\ (q = st + (i + (last - first)) \/ q = st + (i + (last - first)) - c /\ c <= st + (i + (last - first))) -> znth a p = znth (buffer_ b) q) ->
    (forall i, 0 <= i < first -> znth a (wrap c (st + i)) = znth (buffer_ b) (wrap c (st + i))) /\
    (forall i, first <= i < zlen l - (last - first) -> znth a (wrap c (st + i)) = znth (buffer_ b) (wrap c (st + (i + (last - first)))))).
  { intros a H1 H2. split; intros i Hi; [apply (H1 i)|apply (H2 i)]; try done;
      [destruct (Hwr (st + i))|destruct (Hwr (st + i))|destruct (Hwr (st + (i + (last - first))))]; lia. }
  clear Hwr.
  destruct (Z.leb_spec fa la) as [Hle|Hgt].
  - destruct (Z.ltb_spec (Z.min sh (c - la)) sh) as [Hlt|Hge].
    + rewrite (Z.min_r sh (c - la)) in * by lia. rewrite (u64_small (sh - (c - la))) by lia.
      destruct (copy_n_ok (buffer_ b) la (c - la) (buffer_ b) fa) as (a1 & -> & Hl1 & Hk1); [lia..|].
      assert (Hd : last - first = la - fa) by lia. rewrite Hd in *.
      destruct (decide (sh - (c - la) <= c - la)) as [Hs2|Hs2].
      * rewrite (Z.min_l (sh - (c - la)) (c - la)) by lia.
        destruct (copy_n_ok a1 0 (sh - (c - la)) a1 (fa + (c - la))) as (a2 & -> & Hl2 & Hk2); [lia..|].
        rewrite u64_small by lia. destruct (Z.ltb_spec (c - la + (sh - (c - la))) sh); [lia|].
        exists a2. split; [done|]. split; [lia|]. by apply Hfin; clear Hfin; intros i p q Hi Hp Hq; trace_cell.
      * rewrite (Z.min_r (sh - (c - la)) (c - la)) by lia. assert (He2 : c - la = la - fa) by lia. rewrite He2 in *.
        destruct (copy_n_ok a1 0 (la - fa) a1 (fa + (la - fa))) as (a2 & -> & Hl2 & Hk2); [lia..|].
        rewrite u64_small by lia. destruct (Z.ltb_spec (la - fa + (la - fa)) sh); [|lia]. rewrite u64_small by lia.
        destruct (copy_n_ok a2 (la - fa) (sh - (la - fa) - (la - fa)) a2 0) as (a3 & -> & Hl3 & Hk3); [lia..|].
        exists a3. split; [done|]. split; [lia|]. by apply Hfin; clear Hfin; intros i p q Hi Hp Hq; trace_cell.
    + assert (Hge' : sh <= c - la) by lia. rewrite (Z.min_l sh (c - la)) by lia.
      destruct (copy_n_ok (buffer_ b) la sh (buffer_ b) fa) as (a1 & -> & Hl1 & Hk1); [lia..|].
      exists a1. split; [done|]. split; [lia|]. by apply Hfin; clear Hfin; intros i p q Hi Hp Hq; trace_cell.
  - clear Hfit. destruct (Z.ltb_spec (Z.min sh (c - fa)) sh) as [Hlt|Hge].
    + rewrite (Z.min_r sh (c - fa)) in * by lia. rewrite u64_small by lia.
      destruct (copy_n_ok (buffer_ b) la (c - fa) (buffer_ b) fa) as (a1 & -> & Hl1 & Hk1); [lia..|].
      destruct (copy_n_ok a1 (la + (c - fa)) (sh - (c - fa)) a1 0) as (a2 & -> & Hl2 & Hk2); [lia..|].
      exists a2. split; [done|]. split; [lia|]. by apply Hfin; clear Hfin; intros i p q Hi Hp Hq; trace_cell.
    + assert (Hge' : sh <= c - fa) by lia. rewrite (Z.min_l sh (c - fa)) by lia.
      destruct (copy_n_ok (buffer_ b) la sh (buffer_ b) fa) as (a1 & -> & Hl1 & Hk1); [lia..|].
      exists a1. split; [done|]. split; [lia|]. by apply Hfin; clear Hfin; intros i p q Hi Hp Hq; trace_cell.
Qed.

Lemma erase_spec b l first last :
  holds_list b l -> 0 <= first <= last -> last <= zlen l -> erase_fits b first last ->
  exists b', erase b first last = Ok b' /\ capacity_ b' = capacity_ b /\
    holds_list b' (take (Z.to_nat first) l ++ drop (Z.to_nat last) l).
Proof.
  intros Hh Hr Hl Hfit. pose proof Hh as [Hc Hb Hs Hz Hf He]. destruct (decide (first = last)) as [->|Hne].
  { exists b. unfold erase. rewrite Z.eqb_refl. by rewrite take_drop. }
  destruct (erase_cells b l first last Hh ltac:(lia) Hl Hfit) as (a & -> & Ha & H1 & H2).
  eexists. split; [done|]. split; [done|]. assert (Ht : zlen (take (Z.to_nat first) l) = first) by (rewrite zlen_take_min; lia).
  assert (Hd : zlen (drop (Z.to_nat last) l) = zlen l - last) by (rewrite zlen_drop; lia).
  apply holds_intro; rewrite ?zlen_app, ?Ht, ?Hd; try lia. intros i Hi. destruct (decide (i < first)).
  - rewrite znth_app_l by lia. rewrite znth_take by lia. apply H1. lia.
  - rewrite znth_app_r by lia. rewrite Ht, znth_drop by lia. rewrite H2 by lia. f_equal. lia.
Qed.

(** ** Rotations of the array *)

Lemma rotate_array_ok (a : list Z) m :
  0 <= m <= zlen a -> exists a', rotate_array a m = Ok a' /\ zlen a' = zlen a /\
    forall k, 0 <= k < zlen a -> znth a' k = znth a (wrap (zlen a) (k + m)).
Proof.
  intros Hm. unfold rotate_array. destruct (Z.leb_spec 0 m), (Z.leb_spec m (zlen a)); try lia. cbn [andb].
  eexists. split; [done|]. rewrite zlen_app, zlen_drop, zlen_take by lia. split; [lia|]. intros k Hk.
  assert (Hd : zlen (drop (Z.to_nat m) a) = zlen a - m) by (rewrite zlen_drop; lia). unfold wrap.
  destruct (Z.ltb_spec (k + m) (zlen a)).
  - rewrite znth_app_l by lia. rewrite znth_drop by lia. f_equal. lia.
  - rewrite znth_app_r by lia. rewrite Hd. rewrite znth_take by lia. f_equal. lia.
Qed.

Lemma linearize_spec b l :
  holds_list b l -> exists b', linearize b = Ok b' /\ is_linearized b' = true /\ capacity_ b' = capacity_ b /\ holds_list b' l.
Proof.
  intros Hh. pose proof Hh as [Hc Hb Hs Hz Hf He]. unfold linearize.
  destruct (rotate_array_ok (buffer_ b) (buffer_start_ b)) as (a & -> & Ha & Hk); [lia|].
  eexists. split; [done|]. split; [done|]. split; [done|]. split; cbn; [lia|done|lia|done|done|].
  intros i Hi. rewrite Z.mod_small by lia. rewrite Hk by lia. rewrite <- (holds_nth b l) by (done || lia). rewrite Hc. f_equal. f_equal. lia.
Qed.

(** Of a full buffer the elements are rotated as well. *)
Lemma rotate_spec b l m :
  holds_list b l -> zlen l = capacity_ b -> 0 <= m <= zlen l -> m < 2 ^ 31 ->
  exists b', rotate b m = Ok b' /\ capacity_ b' = capacity_ b /\ holds_list b' (drop (Z.to_nat m) l ++ take (Z.to_nat m) l).
Proof.
  intros Hh Hfull Hm Hw. pose proof Hh as [Hc Hb Hs Hz Hf He]. unfold rotate. rewrite int_small by lia.
  destruct (rotate_array_ok (buffer_ b) m) as (a & -> & Ha & Hk); [lia|]. eexists. split; [done|]. split; [done|].
  assert (Hd : zlen (drop (Z.to_nat m) l) = zlen l - m) by (rewrite zlen_drop; lia).
  assert (Ht : zlen (take (Z.to_nat m) l) = m) by (rewrite zlen_take; lia).
  split; cbn; rewrite ?zlen_app, ?Hd, ?Ht; [lia|done|done|lia|lia|]. intros i Hi. rewrite mod_wrap by lia. rewrite Hk by cells.
  rewrite Hc. destruct (decide (i + m < zlen l)).
  - rewrite znth_app_l by lia. rewrite znth_drop by lia. rewrite <- (holds_nth b l) by (done || lia). f_equal. cells.
  - rewrite znth_app_r by lia. rewrite Hd, znth_take by lia. rewrite <- (holds_nth b l) by (done || lia). f_equal. cells.
Qed.

(** ** Construction *)

Lemma store_all_spec l : forall a i,
  0 <= i -> i + zlen l <= zlen a -> exists a', store_all a i l = Ok a' /\ zlen a' = zlen a /\
    forall k, 0 <= k < zlen a -> znth a' k = if (i <=? k) && (k <? i + zlen l) then znth l (k - i) else znth a k.
Proof.
  induction l as [|x l IH]; intros a i Hi Hl; cbn [store_all].
  - exists a. split; [done|]. split; [done|]. intros k Hk. rewrite zlen_nil. zcase; done || lia.
  - rewrite zlen_cons in *. pose proof (zlen_nonneg l). rewrite arr_set_ok by lia.
    destruct (IH (zset a i x) (i + 1)) as (a' & -> & Hl' & Hk'); [lia|rewrite zlen_zset; lia|].
    exists a'. split; [done|]. rewrite zlen_zset in *. split; [done|]. intros k Hk. rewrite Hk' by lia. rewrite znth_zset by lia.
    destruct (decide (k = i)) as [->|Hne].
    + rewrite Z.sub_diag. zcase; try lia. done.
    + zcase; try lia; try done. replace (k - i) with (Z.succ (k - (i + 1))) by lia. by rewrite znth_cons_succ by lia.
Qed.

Lemma of_list_spec l garbage :
  zlen l < 2 ^ 63 -> zlen garbage = zlen l -> exists b, of_list l garbage = Ok b /\ capacity_ b = zlen l /\ holds_list b l.
Proof.
  intros Hb Hg. pose proof (zlen_nonneg l). unfold of_list, with_capacity.
  destruct (set_capacity_spec empty_buffer [] (zlen l) garbage empty_spec ltac:(lia) Hg) as (b & -> & Hc & Hs & Hh).
  destruct (store_all_spec l (buffer_ b) 0) as (a & -> & Ha & Hk); [lia|rewrite (hl_cells _ _ Hh); lia|].
  eexists. split; [done|]. cbn. split; [done|]. pose proof (hl_cells _ _ Hh).
  split; cbn; rewrite ?Hs, ?Hc; [lia|lia|lia|done|lia|]. intros i Hi. rewrite Z.mod_small by lia. rewrite Hk by lia.
  zcase; try lia. f_equal. lia.
Qed.

Lemma filled_spec n x garbage garbage' :
  0 <= n < 2 ^ 63 -> zlen garbage = n -> zlen garbage' = n ->
  exists b, filled n x garbage garbage' = Ok b /\ capacity_ b = n /\ holds_list b (replicate (Z.to_nat n) x).
Proof.
  intros Hn Hg Hg'. unfold filled, with_capacity.
  destruct (set_capacity_spec empty_buffer [] n garbage empty_spec Hn Hg) as (b & -> & Hc & Hs & Hh).
  rewrite take_nil in Hh. destruct (resize_spec b [] n x garbage' Hh Hn Hg') as (b' & -> & Hc' & Hh').
  exists b'. split; [done|]. split; [lia|]. rewrite zlen_nil in Hh'. destruct (Z.leb_spec n 0).
  - by replace n with 0 in * by lia.
  - by rewrite Z.sub_0_r in Hh'.
Qed.

(** ** The contract *)

Inductive operation :=
| PushBack (x : Z) | PushFront (x : Z) | PopBack | PopFront
| Insert (pos x : Z) | Erase (first last : Z) | Clear
| SetCapacity (n : Z) | Resize (n x : Z) | Linearize | Rotate (m : Z).

(** The methods of the class; [garbage] is for the array that is allocated. *)
Definition perform (b : CircularBuffer) (op : operation) (garbage : list Z) : res CircularBuffer :=
  match op with
  | PushBack x => push_back b x
  | PushFront x => push_front b x
  | PopBack => Ok (pop_back b)
  | PopFront => pop_front b
  | Insert pos x => insert b pos x
  | Erase first last => erase b first last
  | Clear => Ok (clear b)
  | SetCapacity n => set_capacity b n garbage
  | Resize n x => resize b n x garbage
  | Linearize => linearize b
  | Rotate m => rotate b m
  end.

(** What they promise of a buffer of a capacity that holds a list. *)
Definition promised (cap : Z) (l : list Z) (op : operation) : Z * list Z :=
  match op with
  | PushBack x => (cap, if cap =? 0 then l else if zlen l <? cap then l ++ [x] else tail l ++ [x])
  | PushFront x => (cap, if cap =? 0 then l else x :: take (Z.to_nat (cap - 1)) l)
  | PopBack => (cap, removelast l)
  | PopFront => (cap, tail l)
  | Insert pos x => (cap, drop (if zlen l =? cap then 1 else 0) (take (Z.to_nat pos) l ++ x :: drop (Z.to_nat pos) l))
  | Erase first last => (cap, take (Z.to_nat first) l ++ drop (Z.to_nat last) l)
  | Clear => (cap, [])
  | SetCapacity n => (n, take (Z.to_nat n) l)
  | Resize n x => (Z.max cap n, if n <=? zlen l then take (Z.to_nat n) l else l ++ replicate (Z.to_nat (n - zlen l)) x)
  | Linearize => (cap, l)
  | Rotate m => (cap, drop (Z.to_nat m) l ++ take (Z.to_nat m) l)
  end.

(** The documented conditions, with what has to be added to them: positions are [int], an insertion into a full
    buffer is not at its front, a rotation is of a full buffer, and an erasure fits. *)
Definition allowed (b : CircularBuffer) (l : list Z) (op : operation) (garbage : list Z) : Prop :=
  match op with
  | PopBack | PopFront => l <> []
  | Insert pos _ => 0 < capacity_ b /\ 0 <= pos <= zlen l /\ pos < 2 ^ 31 /\ (zlen l = capacity_ b -> 0 < pos)
  | Erase first last => 0 <= first <= last /\ last <= zlen l /\ erase_fits b first last
  | SetCapacity n | Resize n _ => 0 <= n < 2 ^ 63 /\ zlen garbage = n
  | Rotate m => zlen l = capacity_ b /\ 0 <= m <= zlen l /\ m < 2 ^ 31
  | _ => True
  end.

Lemma perform_spec b l op garbage :
  holds_list b l -> allowed b l op garbage ->
  exists b' l', perform b op garbage = Ok b' /\ promised (capacity_ b) l op = (capacity_ b', l') /\ holds_list b' l'.
Proof.
  intros Hh Ha. destruct op as [x|x| | |pos x|first last| |n|n x| |m]; cbn [perform promised allowed] in *.
  - destruct (cb_push_back_spec b l x Hh) as (b' & -> & <- & Hb). eauto.
  - destruct (cb_push_front_spec b l x Hh) as (b' & -> & <- & Hb). eauto.
  - destruct (exists_last Ha) as (l' & x & ->). apply cb_pop_back_spec in Hh as [Hb Hc]. rewrite removelast_last. eauto.
  - destruct l as [|x l]; [done|]. destruct (cb_pop_front_spec b l x Hh) as (b' & -> & Hb & <-). eauto.
  - destruct Ha as (Hc & Hp & Hw & Hf). destruct (cb_insert_spec b l pos x Hh Hc Hp Hw Hf) as (b' & -> & <- & Hb). eauto.
  - destruct Ha as (Hr & Hl & Hf). destruct (erase_spec b l first last Hh Hr Hl Hf) as (b' & -> & <- & Hb). eauto.
  - exists (clear b), []. split; [done|]. split; [done|]. destruct Hh as [Hc Hb Hs Hz Hf He].
    split; cbn; [done|done|done|done|pose proof (zlen_nonneg l); unfold zlen at 1; cbn; lia|]. intros i Hi. unfold zlen in Hi. cbn in Hi. lia.
  - destruct Ha as [Hn Hg]. destruct (set_capacity_spec b l n garbage Hh Hn Hg) as (b' & -> & <- & _ & Hb). eauto.
  - destruct Ha as [Hn Hg]. destruct (resize_spec b l n x garbage Hh Hn Hg) as (b' & -> & <- & Hb). eauto.
  - destruct (linearize_spec b l Hh) as (b' & -> & _ & <- & Hb). eauto.
  - destruct Ha as (Hf & Hm & Hw). destruct (rotate_spec b l m Hh Hf Hm Hw) as (b' & -> & <- & Hb). eauto.
Qed.

(** The class is a double-ended queue of bounded capacity.  From a buffer that holds a
    list, each of the methods of [operation], called when it is [allowed], gives a buffer
    of the capacity and the list that it promises; of that buffer [at] returns the elements and throws behind
    them, [front] the first one, and two buffers are equal exactly when their lists are. *)
Theorem circular_buffer_refines (b : CircularBuffer) (l : list Z) (op : operation) (garbage : list Z) :
  holds_list b l -> allowed b l op garbage ->
  exists b' l', perform b op garbage = Ok b' /\ promised (capacity_ b) l op = (capacity_ b', l') /\ holds_list b' l' /\
    (forall i, 0 <= i -> at_checked b' i = if i <? zlen l' then Ok (znth l' i) else Err (Exited 134 "std::out_of_range")) /\
    (forall x rest, l' = x :: rest -> front b' = Ok x) /\
    (forall c lc, holds_list c lc -> equal b' c = Ok (bool_decide (l' = lc))).
Proof.
  intros Hh Ha. destruct (perform_spec b l op garbage Hh Ha) as (b' & l' & E & Hp & Hh').
  exists b', l'. split; [done|]. split; [done|]. split; [done|]. split; [|split].
  - intros i Hi. by apply at_checked_spec.
  - intros x rest ->. by eapply front_spec.
  - intros c lc Hc. by apply equal_spec.
Qed.

(** 5 elements of a buffer of 6, over the end of the array. *)
Definition demo_buffer : CircularBuffer := mkBuffer [14; 15; 0; 11; 12; 13] 3 6 5.

Lemma demo_holds : holds_list demo_buffer [11; 12; 13; 14; 15].
Proof.
  apply holds_intro; [done|by vm_compute|lia|done|by vm_compute|]. change (zlen [11; 12; 13; 14; 15]) with 5. intros i Hi.
  assert (i = 0 \/ i = 1 \/ i = 2 \/ i = 3 \/ i = 4) as [->|[->|[->|[->| ->]]]] by lia; done.
Qed.

Lemma circular_buffer_refines_witness :
  exists b', perform demo_buffer (Insert 2 9) [] = Ok b' /\ holds_list b' [11; 12; 9; 13; 14; 15] /\ at_checked b' 2 = Ok 9.
Proof.
  destruct (circular_buffer_refines demo_buffer [11; 12; 13; 14; 15] (Insert 2 9) [] demo_holds) as (b' & l' & E & Hp & Hh & Hat & _).
  - cbn. change (zlen [11; 12; 13; 14; 15]) with 5. lia.
  - exists b'. injection Hp as _ <-. split; [exact E|]. split; [exact Hh|]. by rewrite Hat.
Defined.

(** What does not work.  [back] returns the cell behind the last element, which in a
    full buffer is the first one.  A copy of a buffer that is not full has an array of
    only as many cells as elements, so that when the elements start at the front of the
    array, the next [push_back] writes outside it.  An
    erasure writes outside the array when the elements behind it continue at the start of
    the array and neither the erased range nor the part of the array behind it has room
    for them.  An insertion at the front of a full buffer of three elements loses the
    first one instead of the last. *)
Theorem circular_buffer_defects (b : CircularBuffer) (l : list Z) :
  holds_list b l ->
  (0 < zlen l -> zlen l = capacity_ b -> back b = Ok (znth l 0)) /\
  (forall garbage x, buffer_start_ b = 0 -> zlen l < capacity_ b -> zlen garbage = zlen l ->
     exists c, copy b garbage = Ok c /\ push_back c x = Err Undefined) /\
  (forall first last, 0 <= first < last -> last <= zlen l ->
     let la := wrap (capacity_ b) (buffer_start_ b + last) in
     wrap (capacity_ b) (buffer_start_ b + first) <= la ->
     last - first < capacity_ b - la -> last - first < zlen l - last - (capacity_ b - la) ->
     erase b first last = Err Undefined) /\
  (forall x, zlen l = 3 -> capacity_ b = 3 -> buffer_start_ b = 0 ->
     exists b', insert b 0 x = Ok b' /\ holds_list b' [x; znth l 2; znth l 1]).
Proof.
  intros Hh. pose proof Hh as [Hc Hb Hs Hz Hf He]. pose proof (zlen_nonneg l). split; [|split; [|split]].
  - intros H0 Hfull. pose proof (elem_at_spec b l 0 Hh ltac:(lia)) as H1. unfold elem_at in H1. rewrite umod_wrap in H1 by lia.
    unfold back. rewrite Hz, umod_wrap by lia. rewrite <- H1. f_equal. cells.
  - intros garbage x H0 Hlt Hg. unfold copy. destruct (copy_n_ok (buffer_ b) 0 (size_ b) garbage 0) as (a & -> & Ha & _); [lia..|].
    eexists. split; [done|]. unfold push_back. cbn. destruct (Z.eqb_spec (capacity_ b) 0); [lia|]. rewrite umod_wrap by lia.
    unfold arr_set. rewrite Ha. replace (wrap (capacity_ b) (buffer_start_ b + size_ b)) with (zlen l) by cells.
    destruct (Z.leb_spec 0 (zlen l)), (Z.ltb_spec (zlen l) (zlen garbage)); lia || done.
  - intros first last Hr Hl la Hle H1 H2. unfold erase. rewrite Hz. destruct (Z.eqb_spec first last); [lia|].
    rewrite (u64_small (zlen l - last)) by lia. rewrite !umod_wrap by lia. fold la. set (fa := wrap (capacity_ b) (buffer_start_ b + first)) in *.
    assert (Hla : 0 <= la < capacity_ b /\ 0 <= fa < capacity_ b) by (subst la fa; cells).
    assert (Hd : la - fa = last - first) by (subst la fa; cells).
    destruct (Z.leb_spec fa la); [|lia]. rewrite (u64_small (capacity_ b - la)) by lia. cbv zeta.
    rewrite (Z.min_r (zlen l - last) (capacity_ b - la)) by lia.
    destruct (copy_n_ok (buffer_ b) la (capacity_ b - la) (buffer_ b) fa) as (a1 & -> & Hl1 & _); [lia..|].
    destruct (Z.ltb_spec (capacity_ b - la) (zlen l - last)); [|lia]. rewrite (u64_small (zlen l - last - (capacity_ b - la))) by lia.
    assert (copy_n a1 0 (Z.min (zlen l - last - (capacity_ b - la)) (capacity_ b - la)) a1 (fa + (capacity_ b - la)) = Err Undefined) as ->; [|done].
    unfold copy_n, memmove. destruct (_ && _) eqn:E; [|done]. rewrite !andb_true_iff, !Z.leb_le in E. lia.
  - intros x H3 Hcap H0. destruct b as [a st c sz]. cbn in Hc, Hcap, H0, Hz, He. clear Hh Hb Hs Hf H.
    assert (Hc' : zlen a = 3) by congruence. assert (Hz' : sz = 3) by congruence. clear Hc Hz. subst c st sz.
    destruct l as [|x0 [|x1 [|x2 [|]]]]; try (unfold zlen in H3; cbn in H3; lia).
    destruct a as [|y0 [|y1 [|y2 [|]]]]; try (unfold zlen in Hc'; cbn in Hc'; lia).
    pose proof (He 0 ltac:(done)) as E0. pose proof (He 1 ltac:(done)) as E1. pose proof (He 2 ltac:(done)) as E2.
    cbn in E0, E1, E2. vm_compute in E0, E1, E2. subst. eexists. split; [by vm_compute|].
    apply holds_intro; [done|done|lia|done|by vm_compute|]. change (zlen [x; znth [x0; x1; x2] 2; znth [x0; x1; x2] 1]) with 3. intros i Hi.
    assert (i = 0 \/ i = 1 \/ i = 2) as [->|[->| ->]] by lia; done.
Qed.

Lemma circular_buffer_defects_witness :
  erase (mkBuffer [14; 15; 16; 11; 12; 13] 3 6 6) 0 1 = Err Undefined.
Proof.
  destruct (circular_buffer_defects (mkBuffer [14; 15; 16; 11; 12; 13] 3 6 6) [11; 12; 13; 14; 15; 16]) as (_ & _ & H & _).
  - apply holds_intro; [done|by vm_compute|lia|done|by vm_compute|]. change (zlen [11; 12; 13; 14; 15; 16]) with 6. intros i Hi.
    assert (i = 0 \/ i = 1 \/ i = 2 \/ i = 3 \/ i = 4 \/ i = 5) as [->|[->|[->|[->|[->| ->]]]]] by lia; done.
  - apply (H 0 1); by vm_compute.
Defined.
