(* ===== verification/PoolAllocator.v ===== *)
(** * C-Homework/PoolAllocator/src

    The allocator of chunks of one size ([pool_allocator.c]) and its test program
    ([main.c]).  An address is a number, 0 is the null pointer; the memory is the word at
    the start of each chunk, where a free chunk holds the address of the next one and a
    chunk in use whatever its user writes.  [malloc] takes its answers from a list of
    addresses, 0 when it fails. *)
From stdpp Require Import gmap.
From S2P Require Import Prelude.
#[local] Set Warnings "-clear-no-such-hyp".

Definition chunksPerBlock : nat := 5.

Record PoolAllocator_t := mkPool {
  chunkSize : Z;
  allocationPointer : Z
}.

(** The words of the chunks, and what [malloc] will return. *)
Record memory := mkMemory { words : gmap Z Z; blocks : list Z }.

Definition write (m : memory) (p v : Z) : memory := mkMemory (<[p := v]> (words m)) (blocks m).

(** [sizeof(void * )] is 8; the allocator's own structure is taken to be there. *)
Definition createPoolAllocator (size : Z) : res PoolAllocator_t :=
  check! assert (size >=? 8) in Ok (mkPool size 0).

(** The chain through a block that ends at [limit]: [n] chunks behind [cur]; the word of
    every chunk has to lie in the block. *)
Fixpoint connect_chunks (n : nat) (m : memory) (cur size limit : Z) : res memory :=
  if cur + 8 <=? limit then
    match n with
    | O => Ok (write m cur 0)
    | S n => connect_chunks n (write m cur (cur + size)) (cur + size) size limit
    end
  else Err Undefined.

(** The size of a block, a [size_t]. *)
Definition blockSize (size : Z) : Z := u64 (Z.of_nat chunksPerBlock * size).

(** [malloc] gives the block of [blockSize] bytes at the next address. *)
Definition allocateBlock (alloc : PoolAllocator_t) (m : memory) : res (Z * memory) :=
  match blocks m with
  | [] => Ok (0, m)
  | b :: rest =>
      let m := mkMemory (words m) rest in
      if b =? 0 then Ok (0, m)
      else
        let* m := connect_chunks (chunksPerBlock - 1) m b (chunkSize alloc) (b + blockSize (chunkSize alloc)) in
        Ok (b, m)
  end.

(** The address, 0 when there is no memory. *)
Definition allocate (alloc : PoolAllocator_t) (m : memory) : res (Z * PoolAllocator_t * memory) :=
  let* '(p, m) := (if allocationPointer alloc =? 0 then allocateBlock alloc m else Ok (allocationPointer alloc, m)) in
  if p =? 0 then Ok (0, alloc, m)
  else
    match words m !! p with
    | None => Err Undefined
    | Some nextChunk => Ok (p, mkPool (chunkSize alloc) nextChunk, m)
    end.

Definition callocate (alloc : PoolAllocator_t) (m : memory) : res (Z * PoolAllocator_t * memory) :=
  let* '(p, alloc, m) := allocate alloc m in
  if p =? 0 then Err Undefined else Ok (p, alloc, write m p 0).

Definition deallocate (alloc : PoolAllocator_t) (m : memory) (p : Z) : PoolAllocator_t * memory :=
  if p =? 0 then (alloc, m) else (mkPool (chunkSize alloc) p, write m p (allocationPointer alloc)).

(** ** main.c *)

Fixpoint allocate_many (n : nat) (alloc : PoolAllocator_t) (m : memory) : res (list Z * PoolAllocator_t * memory) :=
  match n with
  | O => Ok ([], alloc, m)
  | S n =>
      let* '(p, alloc, m) := allocate alloc m in
      let* '(ps, alloc, m) := allocate_many n alloc m in
      Ok (p :: ps, alloc, m)
  end.

(** The 18 addresses that are printed. *)
Definition main (m : memory) : res (list Z) :=
  let* alloc := createPoolAllocator 8 in
  let* '(testbench, alloc, m) := allocate_many 15 alloc m in
  let* t1 := arr_get testbench 1 in
  let '(alloc, m) := deallocate alloc m t1 in
  let* t0 := arr_get testbench 0 in
  let '(alloc, m) := deallocate alloc m t0 in
  let* t12 := arr_get testbench 12 in
  let '(alloc, m) := deallocate alloc m t12 in
  let* '(more, alloc, m) := allocate_many 3 alloc m in
  Ok (testbench ++ more).

(** The output in the comment behind the program, from the last digits on. *)
Example pool_main_run :
  main (mkMemory ∅ [0x6d0; 0x700; 0x730]) =
  Ok [0x6d0; 0x6d8; 0x6e0; 0x6e8; 0x6f0; 0x700; 0x708; 0x710; 0x718; 0x720; 0x730; 0x738; 0x740; 0x748; 0x750; 0x740; 0x6d0; 0x6d8].
Proof. vm_compute. reflexivity. Qed.

(** ** The free chunks *)

(** From [p] the words lead through the chunks [l] to 0. *)
Fixpoint chain (w : gmap Z Z) (p : Z) (l : list Z) : Prop :=
  match l with
  | [] => p = 0
  | c :: l => p = c /\ c <> 0 /\ exists next, w !! c = Some next /\ chain w next l
  end.

Lemma chain_frame w p l q v : chain w p l -> q ∉ l -> chain (<[q := v]> w) p l.
Proof.
  revert p. induction l as [|c l IH]; intros p; cbn [chain]; [done|]. intros (-> & Hc & next & Hn & Hch) [Hq Hl]%not_elem_of_cons.
  split; [done|]. split; [done|]. exists next. split; [by rewrite lookup_insert_ne|by apply IH].
Qed.

Lemma chain_nonzero w p l : chain w p l -> 0 ∉ l.
Proof.
  revert p. induction l as [|c l IH]; intros p; cbn [chain]; [intros _; apply not_elem_of_nil|].
  intros (-> & Hc & next & _ & Hch). apply not_elem_of_cons. split; [done|by eapply IH].
Qed.

(** The chunks of a block. *)
Definition block_chunks (b size : Z) (n : nat) : list Z := (fun i => b + i * size) <$> seqZ 0 (Z.of_nat n).

Lemma block_chunks_S b size n : block_chunks b size (S n) = b :: block_chunks (b + size) size n.
Proof.
  unfold block_chunks. rewrite seqZ_cons by lia. cbn [fmap list_fmap]. f_equal; [lia|].
  replace (Z.pred (Z.of_nat (S n))) with (Z.of_nat n) by lia. rewrite <- (fmap_add_seqZ 1 0), <- list_fmap_compose.
  apply list_fmap_ext. intros _ i _. cbn. lia.
Qed.

Lemma elem_block_chunks b size n x : x ∈ block_chunks b size n <-> exists i, 0 <= i < Z.of_nat n /\ x = b + i * size.
Proof.
  unfold block_chunks. rewrite list_elem_of_fmap. setoid_rewrite elem_of_seqZ. split; intros (i & H1 & H2); exists i; (split; [|]); lia || done.
Qed.

Lemma connect_chunks_spec size limit n : forall m cur,
  0 < cur -> 8 <= size -> cur + (Z.of_nat n + 1) * size <= limit ->
  exists m', connect_chunks n m cur size limit = Ok m' /\
  chain (words m') cur (block_chunks cur size (S n)) /\ blocks m' = blocks m /\
  forall q, q ∉ block_chunks cur size (S n) -> words m' !! q = words m !! q.
Proof.
  induction n as [|n IH]; intros m cur Hc Hs Hl; rewrite block_chunks_S; cbn [connect_chunks]; destruct (Z.leb_spec (cur + 8) limit); try nia.
  - eexists. split; [done|]. cbn. split; [|split; [done|]].
    + split; [done|]. split; [lia|]. exists 0. by rewrite lookup_insert_eq.
    + intros q Hq. rewrite lookup_insert_ne; [done|]. apply not_elem_of_cons in Hq as [? _]. congruence.
  - destruct (IH (write m cur (cur + size)) (cur + size)) as (m' & -> & Hch & Hb & Hw); [lia|done|nia|]. exists m'. split; [done|]. split; [|split; [done|]].
    + cbn [chain]. split; [done|]. split; [lia|]. exists (cur + size). split; [|done]. rewrite Hw; [by apply lookup_insert_eq|].
      rewrite elem_block_chunks. intros (i & Hi & E). nia.
    + intros q [Hq1 Hq2]%not_elem_of_cons. rewrite Hw by done. by apply lookup_insert_ne.
Qed.

(** A block that ends before the word of the last chunk. *)
Lemma connect_chunks_outside size limit n : forall m cur,
  limit < cur + Z.of_nat n * size + 8 -> connect_chunks n m cur size limit = Err Undefined.
Proof.
  induction n as [|n IH]; intros m cur Hl; cbn [connect_chunks]; destruct (Z.leb_spec (cur + 8) limit); try done; [lia|]. apply IH. lia.
Qed.

(** ** Programs that use the allocator *)

(** Chunks in use are named by their place in a list, the last one first; [Put] is the
    user writing into one of them. *)
Inductive usage := Allocate | Deallocate (k : nat) | Put (k : nat) (v : Z).

Fixpoint run (ops : list usage) (alloc : PoolAllocator_t) (m : memory) (live : list Z) : res (PoolAllocator_t * memory * list Z) :=
  match ops with
  | [] => Ok (alloc, m, live)
  | Allocate :: ops =>
      let* '(p, alloc, m) := allocate alloc m in run ops alloc m (if p =? 0 then live else p :: live)
  | Deallocate k :: ops =>
      match live !! k with
      | Some p => let '(alloc, m) := deallocate alloc m p in run ops alloc m (delete k live)
      | None => run ops alloc m live
      end
  | Put k v :: ops =>
      match live !! k with
      | Some p => run ops alloc (write m p v) live
      | None => run ops alloc m live
      end
  end.

(** What [malloc] promises of its blocks: they do not overlap. *)
Definition blocks_ok (size : Z) (total : list Z) : Prop :=
  Forall (fun b => 0 <= b) total /\
  forall i j a b, total !! i = Some a -> total !! j = Some b -> i <> j -> a <> 0 -> b <> 0 -> blockSize size <= Z.abs (a - b).

(** A chunk of one of the blocks handed out so far. *)
Definition chunk_of (size : Z) (used : list Z) (x : Z) : Prop :=
  exists b i, b ∈ used /\ b <> 0 /\ 0 <= i < 5 /\ x = b + i * size.

Record pool_ok (size : Z) (total : list Z) (alloc : PoolAllocator_t) (m : memory) (free live : list Z) : Prop := {
  po_size : chunkSize alloc = size;
  po_chain : chain (words m) (allocationPointer alloc) free;
  po_nodup : NoDup (free ++ live);
  po_blocks : exists used, total = used ++ blocks m /\ Forall (chunk_of size used) (free ++ live);
  po_words : Forall (fun p => is_Some (words m !! p)) live
}.

Section Pool.
Context (size : Z) (total : list Z) (Hsize : 8 <= size) (Hwrap : 5 * size < 2 ^ 64) (Htotal : blocks_ok size total).

Lemma blockSize_small : blockSize size = 5 * size.
Proof. unfold blockSize. change (Z.of_nat chunksPerBlock) with 5. apply u64_small. lia. Qed.

Lemma chunks_apart used rest x y :
  total = used ++ rest -> chunk_of size used x -> chunk_of size used y -> x <> y -> size <= Z.abs (x - y).
Proof.
  intros Ht (b & i & Hb & Hb0 & Hi & ->) (c & j & Hc & Hc0 & Hj & ->) Hne. destruct Htotal as [_ Hd]. rewrite blockSize_small in Hd.
  destruct (decide (b = c)) as [->|Hbc].
  - assert (i <> j) by congruence. nia.
  - apply list_elem_of_lookup in Hb as [ib Hb]. apply list_elem_of_lookup in Hc as [ic Hc].
    assert (H : 5 * size <= Z.abs (b - c)).
    { apply (Hd ib ic); [rewrite Ht; by apply lookup_app_l_Some..| |done|done]. intros ->. congruence. }
    nia.
Qed.

Lemma chunk_of_mono used b x : chunk_of size used x -> chunk_of size (used ++ [b]) x.
Proof. intros (c & i & Hc & H). exists c, i. split; [|done]. apply elem_of_app. by left. Qed.

(** A new block overlaps no chunk handed out before. *)
Lemma new_block_fresh used b rest :
  total = used ++ b :: rest -> b <> 0 ->
  forall x, chunk_of size used x -> x ∉ block_chunks b size 5.
Proof.
  intros Ht Hb x (c & i & Hc & Hc0 & Hi & ->) (j & Hj & E)%elem_block_chunks. destruct Htotal as [_ Hd]. rewrite blockSize_small in Hd.
  apply list_elem_of_lookup in Hc as [ic Hc]. pose proof (lookup_lt_Some _ _ _ Hc).
  assert (H' : 5 * size <= Z.abs (c - b)).
  { apply (Hd ic (length used)); [rewrite Ht; by apply lookup_app_l_Some|rewrite Ht; by apply list_lookup_middle|lia|done|done]. }
  nia.
Qed.

Lemma NoDup_block_chunks b n : NoDup (block_chunks b size n).
Proof. unfold block_chunks. apply NoDup_fmap_2; [|apply NoDup_seqZ]. intros i j E. nia. Qed.

Lemma allocate_head alloc m c free live :
  pool_ok size total alloc m (c :: free) live ->
  exists alloc', allocate alloc m = Ok (c, alloc', m) /\ pool_ok size total alloc' m free (c :: live).
Proof.
  intros [H1 H2 H3 H4 H5]. cbn [chain] in H2. destruct H2 as (Hp & Hc & next & Hn & Hch).
  exists (mkPool size next). unfold allocate. rewrite Hp. destruct (Z.eqb_spec c 0); [done|].
  destruct (Z.eqb_spec c 0); [done|]. rewrite Hn, H1. split; [done|]. split; cbn; [done|done| | |].
  - rewrite <- Permutation_middle. done.
  - destruct H4 as (used & Ht & Hf). exists used. split; [done|]. by rewrite <- Permutation_middle.
  - constructor; [by eexists|done].
Qed.

Lemma allocate_spec alloc m free live :
  pool_ok size total alloc m free live ->
  exists p alloc' m' free', allocate alloc m = Ok (p, alloc', m') /\
    pool_ok size total alloc' m' free' (if p =? 0 then live else p :: live) /\ (free <> [] -> free = p :: free').
Proof.
  intros Hp. destruct free as [|c free].
  2: { destruct (allocate_head alloc m c free live Hp) as (alloc' & -> & Hp'). exists c, alloc', m, free. split; [done|].
       destruct (Z.eqb_spec c 0) as [->|]; [|done]. destruct Hp as [_ Hch _ _ _]. apply chain_nonzero in Hch. by destruct Hch; left. }
  pose proof Hp as [H1 H2 H3 (used & Ht & Hf) H5]. cbn in H2, H3, Hf.
  destruct (blocks m) as [|b rest] eqn:Eb.
  { exists 0, alloc, m, []. unfold allocate, allocateBlock. rewrite H2, Eb. done. }
  destruct (decide (b = 0)) as [->|Hb].
  { exists 0, alloc, (mkMemory (words m) rest), []. unfold allocate, allocateBlock. rewrite H2, Eb. split; [done|]. split; [|done].
    split; cbn; [done|done|done| |done]. exists (used ++ [0]). split; [by rewrite <- app_assoc|].
    eapply Forall_impl; [exact Hf|]. intros x. apply chunk_of_mono. }
  assert (Hb0 : 0 < b).
  { destruct Htotal as [H0 _]. rewrite Ht in H0. apply Forall_app in H0 as [_ H0]. apply Forall_cons in H0 as [? _]. lia. }
  destruct (connect_chunks_spec size (b + blockSize size) 4 (mkMemory (words m) rest) b Hb0 Hsize) as (m' & Em & Hch & Hbl & Hw); [rewrite blockSize_small; lia|].
  assert (Hfresh : forall x, x ∈ live -> x ∉ block_chunks b size 5).
  { intros x Hx. eapply new_block_fresh; [exact Ht|done|]. rewrite Forall_forall in Hf. by apply Hf. }
  assert (Hok : pool_ok size total (mkPool size b) m' (block_chunks b size 5) live).
  { split; cbn; [done|done| | |].
    - apply NoDup_app. split; [apply NoDup_block_chunks|]. split; [|done]. intros x Hx Hl. by apply (Hfresh x).
    - exists (used ++ [b]). rewrite Hbl. split; [by rewrite <- app_assoc|]. apply Forall_app. split.
      + apply Forall_forall. intros x (i & Hi & ->)%elem_block_chunks. exists b, i. split; [apply elem_of_app; right; by left|done].
      + eapply Forall_impl; [exact Hf|]. intros x. apply chunk_of_mono.
    - apply Forall_forall. intros x Hx. rewrite Hw by (by apply Hfresh). cbn. rewrite Forall_forall in H5. by apply H5. }
  rewrite block_chunks_S in Hok. destruct (allocate_head _ _ _ _ _ Hok) as (alloc' & E & Hok').
  exists b, alloc', m', (block_chunks (b + size) size 4). split; [|split; [|done]].
  - unfold allocate in *. rewrite H2. cbn [Z.eqb]. unfold allocateBlock. rewrite Eb. destruct (Z.eqb_spec b 0); [done|].
    cbn [allocationPointer chunkSize] in E. destruct (Z.eqb_spec b 0); [done|].
    change (chunksPerBlock - 1)%nat with 4%nat. rewrite H1, Em. destruct (Z.eqb_spec b 0); [done|]. exact E.
  - destruct (Z.eqb_spec b 0); [done|]. exact Hok'.
Qed.

Lemma deallocate_spec alloc m free live k p :
  pool_ok size total alloc m free live -> live !! k = Some p -> p <> 0 ->
  exists alloc' m', deallocate alloc m p = (alloc', m') /\ pool_ok size total alloc' m' (p :: free) (delete k live).
Proof.
  intros [H1 H2 H3 (used & Ht & Hf) H5] Hk Hp. unfold deallocate. destruct (Z.eqb_spec p 0); [done|]. do 2 eexists. split; [done|].
  assert (Hperm : free ++ live ≡ₚ p :: free ++ delete k live).
  { rewrite (delete_Permutation live k p Hk) at 1. by rewrite Permutation_middle. }
  pose proof H3 as H3'. rewrite Hperm in H3', Hf.
  split; cbn; [done| |done| |].
  - split; [done|]. split; [done|]. exists (allocationPointer alloc). split; [apply lookup_insert_eq|].
    apply chain_frame; [done|]. apply NoDup_cons in H3' as [Hn _]. intros Hin. apply Hn, elem_of_app. by left.
  - exists used. split; [done|]. done.
  - apply Forall_forall. intros x Hx. rewrite Forall_forall in H5. destruct (decide (x = p)) as [->|].
    + by rewrite lookup_insert_eq.
    + rewrite lookup_insert_ne by done. apply H5. rewrite (delete_Permutation live k p Hk). by right.
Qed.

Lemma pool_put_spec alloc m free live k p v :
  pool_ok size total alloc m free live -> live !! k = Some p -> pool_ok size total alloc (write m p v) free live.
Proof.
  intros [H1 H2 H3 H4 H5] Hk. split; cbn; [done| |done|done|].
  - apply chain_frame; [done|]. apply NoDup_app in H3 as (_ & Hd & _). intros Hin. apply (Hd p Hin). by eapply list_elem_of_lookup_2.
  - eapply Forall_impl; [exact H5|]. intros x Hx. cbn. destruct (decide (x = p)) as [->|]; [by rewrite lookup_insert_eq|by rewrite lookup_insert_ne].
Qed.
End Pool.

Section Run.
Context (size : Z) (total : list Z) (Hsize : 8 <= size) (Hwrap : 5 * size < 2 ^ 64) (Htotal : blocks_ok size total).

Lemma pool_live_nonzero alloc m free live k p : pool_ok size total alloc m free live -> live !! k = Some p -> p <> 0.
Proof.
  intros [_ _ _ (used & Ht & Hf) _] Hk. apply Forall_app in Hf as [_ Hf]. rewrite Forall_lookup in Hf.
  destruct (Hf k p Hk) as (b & i & Hb & Hb0 & Hi & ->). destruct Htotal as [H0 _]. rewrite Ht in H0.
  apply Forall_app in H0 as [H0 _]. rewrite Forall_forall in H0. specialize (H0 b Hb). nia.
Qed.

Lemma run_ok ops : forall alloc m free live,
  pool_ok size total alloc m free live ->
  exists alloc' m' free' live', run ops alloc m live = Ok (alloc', m', live') /\ pool_ok size total alloc' m' free' live'.
Proof.
  induction ops as [|[|k|k v] ops IH]; intros alloc m free live Hp; cbn [run].
  - by exists alloc, m, free, live.
  - destruct (allocate_spec size total Hsize Hwrap Htotal _ _ _ _ Hp) as (p & alloc1 & m1 & free1 & -> & Hp1 & _). by eapply IH.
  - destruct (live !! k) as [p|] eqn:Ek; [|by eapply IH].
    destruct (deallocate_spec size total _ _ _ _ k p Hp Ek) as (alloc1 & m1 & -> & Hp1); [by eapply pool_live_nonzero|]. by eapply IH.
  - destruct (live !! k) as [p|] eqn:Ek; [|by eapply IH]. eapply IH. by eapply pool_put_spec.
Qed.
End Run.

Lemma createPoolAllocator_spec size : 8 <= size -> createPoolAllocator size = Ok (mkPool size 0).
Proof. intros H. unfold createPoolAllocator. rewrite Z.geb_leb. by destruct (Z.leb_spec 8 size); [|lia]. Qed.

(** C33.  Whatever a program does with an allocator of chunks of 8 bytes or more, five of
    which take less than 2^64 bytes, with blocks of [malloc] that do not overlap, nothing
    undefined happens, and the chunks in use lie as a whole in the blocks and do not
    overlap each other; and a chunk that is given back is the next one handed out.  With
    larger chunks the size of a block wraps around, and the first allocation for which
    [malloc] has a block writes outside it. *)
Theorem pool_never_overlaps (size : Z) (total : list Z) (w : gmap Z Z) (ops : list usage) :
  8 <= size < 2 ^ 64 -> blocks_ok size total ->
  exists alloc, createPoolAllocator size = Ok alloc /\
    (5 * size < 2 ^ 64 -> exists alloc' m live, run ops alloc (mkMemory w total) [] = Ok (alloc', m, live) /\
       Forall (fun p => exists b, b ∈ total /\ b <> 0 /\ b <= p /\ p + size <= b + blockSize size) live /\
       (forall i j p q, live !! i = Some p -> live !! j = Some q -> i <> j -> size <= Z.abs (p - q)) /\
       (forall k p, live !! k = Some p -> exists alloc1 m1 alloc2,
          deallocate alloc' m p = (alloc1, m1) /\ allocate alloc1 m1 = Ok (p, alloc2, m1))) /\
    (2 ^ 64 <= 5 * size -> forall b rest, b <> 0 -> allocate alloc (mkMemory w (b :: rest)) = Err Undefined).
Proof.
  intros Hs Ht. exists (mkPool size 0). split; [apply createPoolAllocator_spec; lia|]. split.
  - intros Hwrap. assert (Hsz : 8 <= size) by lia.
    assert (H0 : pool_ok size total (mkPool size 0) (mkMemory w total) [] []).
    { split; cbn; [done|done|constructor| |constructor]. exists []. split; [done|constructor]. }
    destruct (run_ok size total Hsz Hwrap Ht ops _ _ _ _ H0) as (alloc' & m & free & live & E & Hp).
    exists alloc', m, live. split; [done|].
    pose proof Hp as [_ _ Hn (used & Hu & Hf) _]. apply Forall_app in Hf as [_ Hf]. apply NoDup_app in Hn as (_ & _ & Hn).
    split; [|split].
    + eapply Forall_impl; [exact Hf|]. intros x (b & i & Hb & Hb0 & Hi & ->). exists b. rewrite (blockSize_small size Hsz Hwrap).
      split; [rewrite Hu; apply elem_of_app; by left|]. split; [done|]. nia.
    + intros i j p q Hi Hj Hij. rewrite Forall_lookup in Hf.
      apply (chunks_apart size total Hsz Hwrap Ht used (blocks m) p q Hu); [by eapply Hf..|]. intros ->. by apply Hij, (NoDup_lookup live i j q).
    + intros k p Hk. destruct (deallocate_spec size total _ _ _ _ k p Hp Hk) as (alloc1 & m1 & Ed & Hp1); [by eapply pool_live_nonzero|].
      destruct (allocate_head size total _ _ _ _ _ Hp1) as (alloc2 & Ea & _). by exists alloc1, m1, alloc2.
  - intros Hwrap b rest Hb. unfold allocate, allocateBlock. cbn [allocationPointer Z.eqb blocks]. destruct (Z.eqb_spec b 0); [done|].
    change (chunksPerBlock - 1)%nat with 4%nat. cbn [chunkSize]. rewrite connect_chunks_outside; [done|].
    unfold blockSize, u64. change (Z.of_nat chunksPerBlock) with 5. change (Z.of_nat 4) with 4.
    pose proof (Z.div_mod (5 * size) (2 ^ 64) ltac:(lia)). assert (1 <= 5 * size / 2 ^ 64) by (apply Z.div_le_lower_bound; lia). lia.
Qed.

Lemma pool_never_overlaps_witness :
  exists alloc alloc' m live,
    createPoolAllocator 8 = Ok alloc /\ run [Allocate; Allocate; Put 1 77; Deallocate 0; Allocate] alloc (mkMemory ∅ [1000; 0; 2000]) [] = Ok (alloc', m, live) /\
    Forall (fun p => exists b, b ∈ [1000; 0; 2000] /\ b <> 0 /\ b <= p /\ p + 8 <= b + blockSize 8) live.
Proof.
  destruct (pool_never_overlaps 8 [1000; 0; 2000] ∅ [Allocate; Allocate; Put 1 77; Deallocate 0; Allocate])
    as (alloc & Hc & H & _); [lia| |].
  - split; [repeat constructor; lia|]. intros i j a b Hi Hj Hij Ha Hb. change (blockSize 8) with 40.
    do 3 (destruct i as [|i]; [cbn in Hi; injection Hi as <-; do 3 (destruct j as [|j]; [cbn in Hj; injection Hj as <-; lia|]); done|]). done.
  - destruct H as (alloc' & m & live & Hr & Hf & _); [lia|]. exists alloc, alloc', m, live. split; [exact Hc|]. split; [exact Hr|exact Hf].
Defined.

(** The memory of a chunk that could not be had is cleared all the same. *)
Lemma callocate_without_memory size w : callocate (mkPool size 0) (mkMemory w [0]) = Err Undefined.
Proof. done. Qed.
