(* ===== verification/Discovery.v ===== *)
(** * Networks/1-multicast_self_discovery

    The program that finds its own copies in the network ([self_discovery.c]): an instance
    asks the multicast group for the instances that are alive when it starts and when it
    ends, and answers and collects answers when it is asked.

    What happens around the process is data of the world: the datagrams that arrive, the
    pauses of half a second, the signals, and the answers of the system calls.  A signal
    comes while the process waits in [recvfrom], which it interrupts ([setup_signal_handlers]
    does not set [SA_RESTART]), or just before the call, when only the flag is set.  A
    program ends with a value or waits for ever, when nothing arrives any more.  The
    address of a datagram is the one that [recvfrom] leaves in [src]; the size [srclen] that
    it gets is not initialised by the code, so that a call may fail for this reason alone.
    Everything the program sends and prints is one list, in order; the time in the banner
    and the texts of [strerror] are left out.

    The resolution of addresses and names are arguments. *)
From S2P Require Import Prelude Sockets.
#[local] Set Warnings "-clear-no-such-hyp".

(** ** Data *)

Inductive Result_t := OK | ERROR | TIMED_OUT | INTERRUPTED.

#[export] Instance Result_t_eq_dec : EqDecision Result_t.
Proof. solve_decision. Defined.

Definition IM_ALIVE_MSG : Z := 0xA11A.
Definition STATUS_REQUEST_MSG : Z := 0xB22B.

Inductive family := AF_INET | AF_INET6 | AF_OTHER.

Record sockaddr := mkAddr { sa_family : family; sin_addr : list Z; sin_port : Z }.

Inductive event :=
  | Datagram (src : sockaddr) (payload : list Z)
  | Quiet
  | Sigint (waiting : bool)
  | Fails.

(** The text in [err_descr]. *)
Inductive text := NoText | Sigaction | ReuseAddr | Getaddrinfo | CouldNotBind | LoopFamily | UnknownFamily | Membership | Sendto | Recvfrom | Getnameinfo | Timeout.

Inductive line := WrongCount | Usage | Banner | IsAlive (host numeric_host service : list Z) | Finishing.

Inductive action := Sent (dest : sockaddr) (p : list Z) | Printed (l : line) | Complained (t : text).

Record world := mkWorld {
  inbox : list event;
  timeo : bool;
  is_interrupted : bool;
  sendtos : list (Z + errno);
  calls : list bool;
  opened : list Z;
  next_fd : Z;
  joined : list sockaddr;
  performed : list action;
  err_descr : text
}.

Definition prog (A : Type) : Type := world -> res (option A * world).

#[export] Instance prog_ret : MRet prog := fun A a w => Ok (Some a, w).

#[export] Instance prog_bind : MBind prog := fun A B f m w =>
  match m w with
  | Ok (Some a, w) => f a w
  | Ok (None, w) => Ok (None, w)
  | Err e => Err e
  end.

Definition fails {A : Type} (e : fault) : prog A := fun _ => Err e.

(** ** What the system does *)

(** The next answer of a system call that succeeds or fails. *)
Definition syscall : prog bool := fun w =>
  let '(ok, rest) := malloc (calls w) in
  Ok (Some ok, mkWorld (inbox w) (timeo w) (is_interrupted w) (sendtos w) rest (opened w) (next_fd w) (joined w) (performed w) (err_descr w)).

Definition act (a : action) : prog unit := fun w =>
  Ok (Some tt, mkWorld (inbox w) (timeo w) (is_interrupted w) (sendtos w) (calls w) (opened w) (next_fd w) (joined w) (performed w ++ [a]) (err_descr w)).

Definition describe (t : text) : prog unit := fun w =>
  Ok (Some tt, mkWorld (inbox w) (timeo w) (is_interrupted w) (sendtos w) (calls w) (opened w) (next_fd w) (joined w) (performed w) t).

Definition set_timeo (b : bool) : prog unit := fun w =>
  Ok (Some tt, mkWorld (inbox w) b (is_interrupted w) (sendtos w) (calls w) (opened w) (next_fd w) (joined w) (performed w) (err_descr w)).

Definition join (a : sockaddr) : prog unit := fun w =>
  Ok (Some tt, mkWorld (inbox w) (timeo w) (is_interrupted w) (sendtos w) (calls w) (opened w) (next_fd w) (joined w ++ [a]) (performed w) (err_descr w)).

Definition interrupted : prog bool := fun w => Ok (Some (is_interrupted w), w).

(** The descriptor, or -1. *)
Definition socket : prog Z := fun w =>
  let '(ok, rest) := malloc (calls w) in
  if ok then
    Ok (Some (next_fd w), mkWorld (inbox w) (timeo w) (is_interrupted w) (sendtos w) rest (opened w ++ [next_fd w]) (next_fd w + 1) (joined w) (performed w) (err_descr w))
  else
    Ok (Some (-1), mkWorld (inbox w) (timeo w) (is_interrupted w) (sendtos w) rest (opened w) (next_fd w) (joined w) (performed w) (err_descr w)).

(** A descriptor that is not open is left alone; one that was never assigned is
    indeterminate. *)
Definition close (sfd : option Z) : prog unit := fun w =>
  match sfd with
  | None => Err Undefined
  | Some fd =>
      Ok (Some tt, mkWorld (inbox w) (timeo w) (is_interrupted w) (sendtos w) (calls w)
                     (filter (fun x => x <> fd) (opened w)) (next_fd w) (joined w) (performed w) (err_descr w))
  end.

(** None when the call never returns; the rest of a datagram that is too long is lost. *)
Fixpoint next_event (n : Z) (timeo intr : bool) (es : list event) : option (sockaddr * list Z + errno) * bool * list event :=
  match es with
  | [] => (if timeo then Some (inr EAGAIN) else None, intr, [])
  | Quiet :: es => if timeo then (Some (inr EAGAIN), intr, es) else next_event n timeo intr es
  | Sigint true :: es => (Some (inr EINTR), true, es)
  | Sigint false :: es => next_event n timeo true es
  | Fails :: es => (Some (inr EOTHER), intr, es)
  | Datagram src p :: es => (Some (inl (src, take (Z.to_nat n) p)), intr, es)
  end.

Definition recvfrom (n : Z) : prog (sockaddr * list Z + errno) := fun w =>
  let '(r, intr, es) := next_event n (timeo w) (is_interrupted w) (inbox w) in
  Ok (r, mkWorld es (timeo w) intr (sendtos w) (calls w) (opened w) (next_fd w) (joined w) (performed w) (err_descr w)).

(** Behind the end of the answers a datagram is sent whole. *)
Definition sendto (dest : sockaddr) (p : list Z) : prog (Z + errno) := fun w =>
  let sends rest r a := Ok (Some r, mkWorld (inbox w) (timeo w) (is_interrupted w) rest (calls w) (opened w) (next_fd w) (joined w) (performed w ++ a) (err_descr w)) in
  match sendtos w with
  | [] => sends [] (inl (zlen p)) [Sent dest p]
  | inr e :: rest => sends rest (inr e) []
  | inl n :: rest => let n := Z.max 1 (Z.min n (zlen p)) in sends rest (inl n) [Sent dest (take (Z.to_nat n) p)]
  end.

(** ** The messages *)

Definition message (z : Z) : list Z := Z_to_little_endian 4 8 z.

(** The value of the variable, when all its bytes have been written. *)
Definition msg_value (bs : list Z) : prog Z :=
  if zlen bs =? 4 then mret (to_s32 (little_endian_to_Z 8 bs)) else fails Undefined.

Fixpoint send_message_loop (fuel : nat) (dest : sockaddr) (p : list Z) : prog Result_t :=
  if 0 <? zlen p then
    match fuel with
    | O => fails OutOfFuel
    | S fuel =>
        r ← sendto dest p;
        match r with
        | inr _ => _ ← describe Sendto; mret ERROR
        | inl n => send_message_loop fuel dest (drop (Z.to_nat n) p)
        end
    end
  else mret OK.

Definition send_message (msg : Z) (dest : sockaddr) : prog Result_t := send_message_loop 4 dest (message msg).

(** The result, the bytes of the message that have been written, and the source of the
    last datagram. *)
Fixpoint recieve_message_loop (fuel : nat) (buf : list Z) (src : option sockaddr) : prog (Result_t * list Z * option sockaddr) :=
  if zlen buf <? 4 then
    match fuel with
    | O => fails OutOfFuel
    | S fuel =>
        r ← recvfrom (4 - zlen buf);
        match r with
        | inr EAGAIN => mret (TIMED_OUT, buf, src)
        | inr EINTR => mret (INTERRUPTED, buf, src)
        | inr EOTHER => _ ← describe Recvfrom; mret (ERROR, buf, src)
        | inl (a, p) => recieve_message_loop fuel (buf ++ p) (Some a)
        end
    end
  else mret (OK, buf, src).

Definition recieve_message : prog (Result_t * list Z * option sockaddr) := fun w =>
  recieve_message_loop (S (length (inbox w))) [] None w.

(** ** The socket *)

Definition setup_signal_handlers : prog Result_t :=
  ok ← syscall;
  if (ok : bool) then mret OK else (_ ← describe Sigaction; mret ERROR).

Definition enable_reuse_addr : prog Result_t :=
  ok ← syscall;
  if (ok : bool) then mret OK else (_ ← describe ReuseAddr; mret ERROR).

(** Not called by the program; when the call fails, the text is the one of the function
    below. *)
Definition disable_multicast_loop (af : family) : prog Result_t :=
  match af with
  | AF_OTHER => _ ← describe LoopFamily; mret ERROR
  | _ =>
      ok ← syscall;
      if (ok : bool) then mret OK else (_ ← describe Membership; mret ERROR)
  end.

Definition multicast_add_membership (af : family) (bound_addr : sockaddr) : prog Result_t :=
  match af with
  | AF_OTHER => _ ← describe UnknownFamily; mret ERROR
  | _ =>
      ok ← syscall;
      if (ok : bool) then (_ ← join bound_addr; mret OK) else (_ ← describe Membership; mret ERROR)
  end.

(** How the loop over the addresses is left, with the descriptor of [*sfd], when it has
    been assigned. *)
Inductive binding := Bound (a : sockaddr) | NotReusable | NotBound.

Fixpoint bind_loop (result : list sockaddr) (sfd : option Z) : prog (binding * option Z) :=
  match result with
  | [] => mret (NotBound, sfd)
  | rp :: rest =>
      fd ← socket;
      if fd =? -1 then bind_loop rest (Some fd)
      else
        ret ← enable_reuse_addr;
        if negb (bool_decide (ret = OK)) then mret (NotReusable, Some fd)
        else
          ok ← syscall;
          if (ok : bool) then mret (Bound rp, Some fd)
          else (_ ← close (Some fd); bind_loop rest (Some fd))
  end.

Section Discovery.
(** [getaddrinfo] for the address and the port, None when it fails; [getnameinfo] with
    numbers or names, the value it returns and the host and service it writes when this
    is 0. *)
Context (getaddrinfo : list Z -> list Z -> option (list sockaddr)).
Context (getnameinfo : sockaddr -> bool -> Z * (list Z * list Z)).

Definition create_multicast_socket (ip port : list Z) : prog (Result_t * option Z * option sockaddr) :=
  match getaddrinfo ip port with
  | None => _ ← describe Getaddrinfo; mret (ERROR, None, None)
  | Some result =>
      r ← bind_loop result None;
      let '(b, sfd) := r in
      match b with
      | NotReusable => _ ← close sfd; mret (ERROR, sfd, None)
      | NotBound => _ ← describe CouldNotBind; mret (ERROR, sfd, None)
      | Bound a =>
          ret ← multicast_add_membership (sa_family a) a;
          if bool_decide (ret = OK) then mret (OK, sfd, Some a)
          else (_ ← close sfd; mret (ERROR, sfd, Some a))
      end
  end.

(** ** Collecting the instances that are alive *)

Definition print_app_instance_info (addr : sockaddr) : prog Result_t :=
  let '(ret, (numeric_host, service)) := getnameinfo addr true in
  if ret =? -1 then (_ ← describe Getnameinfo; mret ERROR)
  else
    let '(ret', (host, _)) := getnameinfo addr false in
    if ret' =? -1 then (_ ← describe Getnameinfo; mret ERROR)
    else if (ret =? 0) && (ret' =? 0) then (_ ← act (Printed (IsAlive host numeric_host service)); mret OK)
    else fails Undefined.

(** The result of the call is not looked at. *)
Definition disable_rcv_timeout : prog unit :=
  ok ← syscall;
  if (ok : bool) then set_timeo false else mret tt.

Fixpoint collect_loop (fuel : nat) : prog Result_t :=
  match fuel with
  | O => fails OutOfFuel
  | S fuel =>
      r ← recieve_message;
      let '(ret, msg, src) := r in
      match ret with
      | TIMED_OUT => mret OK
      | ERROR => mret ERROR
      | _ =>
          msg ← msg_value msg;
          if msg =? IM_ALIVE_MSG then
            match src with
            | None => fails Undefined
            | Some src =>
                ret ← print_app_instance_info src;
                if negb (bool_decide (ret = OK)) then mret ERROR else collect_loop fuel
            end
          else collect_loop fuel
      end
  end.

Definition collect_app_instances_info : prog Result_t :=
  ok ← syscall;
  if negb ok then (_ ← describe Timeout; mret ERROR)
  else
    _ ← set_timeo true;
    _ ← act (Printed Banner);
    ret ← (fun w => collect_loop (S (length (inbox w))) w);
    _ ← disable_rcv_timeout;
    mret ret.

(** ** The program *)

(** The label [error]. *)
Definition main_error (sfd : option Z) : prog bool := fun w =>
  (_ ← act (Complained (err_descr w)); _ ← close sfd; mret false) w.

(** Whether the loop is left at its end, or for the label [error]. *)
Fixpoint main_loop (fuel : nat) (groupaddr : sockaddr) : prog bool :=
  intr ← interrupted;
  if (intr : bool) then mret true
  else
    match fuel with
    | O => fails OutOfFuel
    | S fuel =>
        r ← recieve_message;
        let '(ret, msg, src) := r in
        match ret with
        | INTERRUPTED => mret true
        | OK =>
            msg ← msg_value msg;
            if msg =? STATUS_REQUEST_MSG then
              ret ← send_message IM_ALIVE_MSG groupaddr;
              if negb (bool_decide (ret = OK)) then mret false
              else
                ret ← collect_app_instances_info;
                _ ← (if negb (bool_decide (ret = OK)) then fun w => act (Complained (err_descr w)) w else mret tt);
                main_loop fuel groupaddr
            else main_loop fuel groupaddr
        | _ => mret false
        end
    end.

Definition default_group_ip : list Z := [50; 50; 52; 46; 49; 46; 50; 46; 51].
Definition default_port : list Z := [56; 54; 56; 54].

(** What follows the choice of the address and the port. *)
Definition serve (group_ip port : list Z) : prog bool :=
  ret ← setup_signal_handlers;
  if negb (bool_decide (ret = OK)) then main_error None
  else
    r ← create_multicast_socket group_ip port;
    match r with
    | (OK, sfd, Some groupaddr) =>
        ret ← send_message STATUS_REQUEST_MSG groupaddr;
        if negb (bool_decide (ret = OK)) then main_error sfd
        else
          finished ← (fun w => main_loop (S (length (inbox w))) groupaddr w);
          if negb finished then main_error sfd
          else
            _ ← act (Printed Finishing);
            ret ← send_message STATUS_REQUEST_MSG groupaddr;
            if negb (bool_decide (ret = OK)) then main_error sfd
            else (_ ← close sfd; mret true)
    | (_, sfd, _) => main_error sfd
    end.

(** The arguments behind the name of the program; the result is whether it is
    [EXIT_SUCCESS]. *)
Definition main (args : list (list Z)) : prog bool :=
  match args with
  | [] => serve default_group_ip default_port
  | [ip] => serve ip default_port
  | [ip; port] => serve ip port
  | _ => _ ← act (Printed WrongCount); _ ← act (Printed Usage); mret false
  end.
End Discovery.

(** ** Running a program

    [runs m w Q]: from [w] the program [m] ends or waits in a state where [Q] holds, or
    reaches an operation without a meaning; it never runs out of fuel. *)
Definition runs {A : Type} (m : prog A) (w : world) (Q : option A -> world -> Prop) : Prop :=
  match m w with
  | Ok (r, w) => Q r w
  | Err OutOfFuel => False
  | Err _ => True
  end.

Lemma runs_ret {A} (a : A) w (Q : option A -> world -> Prop) : Q (Some a) w -> runs (mret a) w Q.
Proof. done. Qed.

Lemma runs_bind {A B} (m : prog A) (f : A -> prog B) w Q R :
  runs m w Q -> (forall w', Q None w' -> R None w') -> (forall a w', Q (Some a) w' -> runs (f a) w' R) ->
  runs (m ≫= f) w R.
Proof.
  unfold runs, mbind, prog_bind in *. intros H HN HS. destruct (m w) as [[[a|] w']|[]]; [by apply HS|by apply HN|done..].
Qed.

Lemma runs_mono {A} (m : prog A) w (Q R : option A -> world -> Prop) :
  runs m w Q -> (forall r w', Q r w' -> R r w') -> runs m w R.
Proof. unfold runs. destruct (m w) as [[r w']|[]]; auto. Qed.

(** What every part of the program leaves alone; [less] is how many events it takes at
    least. *)
Record follows (less : nat) (w w' : world) : Prop := {
  fo_opened : opened w' = opened w;
  fo_next : next_fd w' = next_fd w;
  fo_inbox : (length (inbox w') + less <= length (inbox w))%nat
}.

Lemma follows_refl w : follows 0 w w.
Proof. by split; [| |lia]. Qed.

Lemma follows_trans n m w1 w2 w3 : follows n w1 w2 -> follows m w2 w3 -> follows (n + m) w1 w3.
Proof. intros [? ? ?] [? ? ?]. split; [congruence|congruence|lia]. Qed.

Lemma follows_weaken n m w w' : follows n w w' -> (m <= n)%nat -> follows m w w'.
Proof. intros [? ? ?] ?. split; [done..|lia]. Qed.

(** A program without calls that take descriptors, at any number of events. *)
Definition harmless {A : Type} (m : prog A) : Prop := forall w, runs m w (fun _ w' => follows 0 w w').

Lemma harmless_ret {A} (a : A) : harmless (mret a).
Proof. intros w. apply follows_refl. Qed.

Lemma harmless_bind {A B} (m : prog A) (f : A -> prog B) :
  harmless m -> (forall a, harmless (f a)) -> harmless (m ≫= f).
Proof.
  intros Hm Hf w. eapply runs_bind; [apply Hm|done|]. intros a w' H. eapply runs_mono; [apply Hf|].
  intros ? w'' H'. apply (follows_trans 0 0 _ _ _ H H').
Qed.

Lemma harmless_runs {A} (m : prog A) w n w0 :
  harmless m -> follows n w0 w -> runs m w (fun _ w' => follows n w0 w').
Proof.
  intros Hm H. eapply runs_mono; [apply Hm|]. intros ? w' H'.
  rewrite <- (Nat.add_0_r n). by eapply follows_trans.
Qed.

Lemma harmless_fails {A} e : e <> OutOfFuel -> harmless (@fails A e).
Proof. intros He w. by destruct e. Qed.

Lemma harmless_syscall : harmless syscall.
Proof. intros w. unfold runs, syscall. destruct (malloc (calls w)). by split; [| |cbn; lia]. Qed.

Lemma harmless_act a : harmless (act a).
Proof. intros w. by split; [| |cbn; lia]. Qed.

Lemma harmless_describe t : harmless (describe t).
Proof. intros w. by split; [| |cbn; lia]. Qed.

Lemma harmless_set_timeo b : harmless (set_timeo b).
Proof. intros w. by split; [| |cbn; lia]. Qed.

Lemma harmless_join a : harmless (join a).
Proof. intros w. by split; [| |cbn; lia]. Qed.

Lemma harmless_sendto dest p : harmless (sendto dest p).
Proof. intros w. unfold runs, sendto. destruct (sendtos w) as [|[n|e] ?]; by split; [| |cbn; lia]. Qed.

Create HintDb harmless.
#[export] Hint Resolve harmless_ret harmless_syscall harmless_act harmless_describe harmless_set_timeo harmless_join harmless_sendto : harmless.
#[export] Hint Extern 1 (harmless (fails _)) => apply harmless_fails; discriminate : harmless.
#[export] Hint Extern 2 (harmless (_ ≫= _)) => apply harmless_bind; [|intros ?] : harmless.
#[export] Hint Extern 3 (harmless (if ?b then _ else _)) => destruct b : harmless.
#[export] Hint Extern 3 (harmless (match ?b with _ => _ end)) => destruct b : harmless.

Lemma harmless_bind_add_membership af a : harmless (multicast_add_membership af a).
Proof. unfold multicast_add_membership. auto 10 with harmless. Qed.

Lemma harmless_print getnameinfo a : harmless (print_app_instance_info getnameinfo a).
Proof. unfold print_app_instance_info. auto 10 with harmless. Qed.

Lemma harmless_msg_value p : harmless (msg_value p).
Proof. unfold msg_value. auto with harmless. Qed.

Lemma harmless_signals : harmless setup_signal_handlers.
Proof. unfold setup_signal_handlers. auto 10 with harmless. Qed.

Lemma harmless_disable : harmless disable_rcv_timeout.
Proof. unfold disable_rcv_timeout. auto 10 with harmless. Qed.

#[export] Hint Resolve harmless_bind_add_membership harmless_print harmless_msg_value harmless_signals harmless_disable : harmless.

(** Every turn of the loop that sends passes on a byte. *)
Lemma harmless_send_message_loop fuel : forall dest p, (length p <= fuel)%nat -> harmless (send_message_loop fuel dest p).
Proof.
  induction fuel as [|fuel IH]; intros dest p Hp; cbn [send_message_loop]; unfold zlen;
    (destruct (Z.ltb_spec 0 (Z.of_nat (length p))) as [Hlt|]; [|auto with harmless]); [lia|].
  intros w. eapply (runs_bind _ _ _ (fun r w' => follows 0 w w' /\ forall n, r = Some (inl n) -> 1 <= n)).
  - unfold runs, sendto, zlen. destruct (sendtos w) as [|[n|e] ?];
      (split; [by split; [| |cbn; lia]|]); intros ? [= <-]; lia.
  - by intros w' [? _].
  - intros [n|e] w' [Hw Hn].
    + apply harmless_runs; [|done]. apply IH. rewrite length_drop. specialize (Hn n eq_refl). lia.
    + apply harmless_runs; [|done]. auto 10 with harmless.
Qed.

Lemma harmless_send_message msg dest : harmless (send_message msg dest).
Proof. apply harmless_send_message_loop. unfold message. pose proof (length_Z_to_little_endian 4 8 msg ltac:(lia)). lia. Qed.

#[export] Hint Resolve harmless_send_message : harmless.

(** ** Receiving *)

Lemma next_event_spec n t es : forall intr r intr' es',
  0 <= n -> next_event n t intr es = (r, intr', es') ->
  (length es' <= length es)%nat /\
  match r with
  | Some (inl (_, p)) => (length es' < length es)%nat /\ zlen p <= n
  | Some (inr EAGAIN) => t = true
  | Some (inr _) => (length es' < length es)%nat
  | None => True
  end.
Proof.
  induction es as [|e es IH]; intros intr r intr' es' Hn; cbn [next_event].
  - destruct t; by intros [= <- <- <-].
  - destruct e as [a p| |[]|].
    + intros [= <- <- <-]. cbn. unfold zlen. rewrite length_take. lia.
    + destruct t; [intros [= <- <- <-]; cbn; by split; [lia|]|]. intros E.
      apply IH in E as [E1 E2]; [|done]. cbn. destruct r as [[[a p]|[]]|]; (split; [lia|]); try lia; done.
    + intros [= <- <- <-]. cbn. lia.
    + intros E. apply IH in E as [E1 E2]; [|done]. cbn.
      destruct r as [[[a p]|[]]|]; (split; [lia|]); try lia; done.
    + intros [= <- <- <-]. cbn. lia.
Qed.

Definition receipt (w : world) (r : option (Result_t * list Z * option sockaddr)) (w' : world) : Prop :=
  follows 0 w w' /\
  match r with
  | Some (TIMED_OUT, _, _) | None => True
  | Some (st, msg, src) => follows 1 w w' /\ (st = OK -> zlen msg = 4 /\ is_Some src)
  end.

Lemma recieve_message_loop_runs fuel : forall w0 w buf src,
  (length (inbox w) < fuel)%nat -> zlen buf <= 4 -> follows 0 w0 w ->
  (src = None -> buf = []) -> (zlen buf = 4 -> follows 1 w0 w) ->
  runs (recieve_message_loop fuel buf src) w (receipt w0).
Proof.
  induction fuel as [|fuel IH]; intros w0 w buf src Hf Hb Hw Hsrc Hw1; [lia|]. cbn [recieve_message_loop].
  destruct (Z.ltb_spec (zlen buf) 4) as [Hlt|Hge].
  - apply (runs_bind _ _ _ (fun r w' =>
      follows 0 w w' /\
      match r with
      | Some (inl (_, p)) => follows 1 w w' /\ zlen p <= 4 - zlen buf
      | Some (inr EAGAIN) | None => True
      | Some (inr _) => follows 1 w w'
      end)).
    + unfold runs, recvfrom. destruct (next_event _ _ _ _) as [[r intr] es] eqn:E.
      apply next_event_spec in E as [E1 E2]; [|lia]. split; [by split; [| |cbn; lia]|].
      destruct r as [[[a p]|[]]|]; try done; [split; [|apply E2]|..]; by split; [| |cbn; lia].
    + intros w' [H _]. split; [apply (follows_trans 0 0 _ _ _ Hw H)|done].
    + intros [[a p]|e] w' [H0 H].
      * destruct H as [H Hp]. pose proof (follows_trans 0 1 _ _ _ Hw H) as H1. apply IH.
        -- destruct H as [_ _ H]. lia.
        -- rewrite zlen_app. lia.
        -- apply (follows_trans 0 0 _ _ _ Hw H0).
        -- done.
        -- done.
      * pose proof (follows_trans 0 0 _ _ _ Hw H0) as H1. destruct e.
        -- apply runs_ret. split; [done|]. split; [apply (follows_trans 0 1 _ _ _ Hw H)|done].
        -- apply runs_ret. by split.
        -- eapply runs_bind; [apply (harmless_runs _ _ 1 w0); [auto with harmless|apply (follows_trans 0 1 _ _ _ Hw H)]| |].
           ++ intros w'' Hw''. split; [apply (follows_weaken 1); [done|lia]|done].
           ++ intros ? w'' Hw''. apply runs_ret. split; [apply (follows_weaken 1); [done|lia]|]. by split.
  - apply runs_ret. split; [done|]. split; [apply Hw1; lia|]. intros _. split; [lia|].
    destruct src; [done|]. rewrite Hsrc in Hge by done. change (zlen []) with 0 in Hge. lia.
Qed.

Lemma recieve_message_runs w : runs recieve_message w (receipt w).
Proof.
  unfold runs, recieve_message. apply (recieve_message_loop_runs _ w w [] None); [lia|done|apply follows_refl|done|done].
Qed.

(** ** The loops *)

Section Loops.
Context (getnameinfo : sockaddr -> bool -> Z * (list Z * list Z)).

Lemma collect_loop_runs fuel : forall w0 w,
  (length (inbox w) < fuel)%nat -> follows 0 w0 w ->
  runs (collect_loop getnameinfo fuel) w (fun _ w' => follows 0 w0 w').
Proof.
  induction fuel as [|fuel IH]; intros w0 w Hf Hw; [lia|]. cbn [collect_loop].
  eapply runs_bind; [apply recieve_message_runs| |].
  - intros w' [H _]. apply (follows_trans 0 0 _ _ _ Hw H).
  - intros [[st msg] src] w' [H0 H]. pose proof (follows_trans 0 0 _ _ _ Hw H0) as H1.
    assert (forall w'', follows 0 w' w'' -> st <> TIMED_OUT -> runs (collect_loop getnameinfo fuel) w'' (fun _ w1 => follows 0 w0 w1)) as Hgo.
    { intros w'' Hw'' Hst. apply IH; [|apply (follows_trans 0 0 _ _ _ H1 Hw'')].
      assert (follows 1 w w') as [_ _ ?] by (destruct st; [apply H..|done|apply H]). destruct Hw'' as [_ _ ?]. lia. }
    assert (st <> TIMED_OUT ->
      runs (msg ← msg_value msg;
            if msg =? IM_ALIVE_MSG then
              match src with
              | None => fails Undefined
              | Some src =>
                  ret ← print_app_instance_info getnameinfo src;
                  if negb (bool_decide (ret = OK)) then mret ERROR else collect_loop getnameinfo fuel
              end
            else collect_loop getnameinfo fuel) w' (fun _ w1 => follows 0 w0 w1)) as Hrest.
    { intros Hst. eapply runs_bind; [apply (harmless_runs _ w' 0 w'); [auto with harmless|apply follows_refl]| |].
      - intros w1 Hw1. apply (follows_trans 0 0 _ _ _ H1 Hw1).
      - intros z w1 Hw1. destruct (z =? IM_ALIVE_MSG); [|by apply Hgo]. destruct src as [src|]; [|done].
        eapply runs_bind; [apply (harmless_runs _ w1 0 w'); [auto with harmless|done]| |].
        + intros w2 Hw2. apply (follows_trans 0 0 _ _ _ H1 Hw2).
        + intros r w2 Hw2. destruct (negb _); [|by apply Hgo]. apply runs_ret. apply (follows_trans 0 0 _ _ _ H1 Hw2). }
    destruct st; [by apply Hrest|by apply runs_ret|by apply runs_ret|by apply Hrest].
Qed.

Lemma harmless_collect_loop : harmless (fun w => collect_loop getnameinfo (S (length (inbox w))) w).
Proof.
  intros w. pose proof (collect_loop_runs (S (length (inbox w))) w w (Nat.lt_succ_diag_r _) (follows_refl w)) as H.
  unfold runs in *. exact H.
Qed.

Lemma harmless_collect : harmless (collect_app_instances_info getnameinfo).
Proof.
  unfold collect_app_instances_info. pose proof harmless_collect_loop. auto 12 with harmless.
Qed.

Lemma harmless_complain : harmless (fun w => act (Complained (err_descr w)) w).
Proof. intros w. apply harmless_act. Qed.
End Loops.

#[export] Hint Resolve harmless_collect harmless_complain : harmless.

Lemma main_loop_runs getnameinfo group fuel : forall w0 w,
  (length (inbox w) < fuel)%nat -> follows 0 w0 w ->
  runs (main_loop getnameinfo fuel group) w (fun _ w' => follows 0 w0 w').
Proof.
  induction fuel as [|fuel IH]; intros w0 w Hf Hw; [lia|]. cbn [main_loop]. unfold interrupted at 1.
  unfold runs at 1, mbind at 1, prog_bind at 1. destruct (is_interrupted w) eqn:Ei.
  { apply Hw. }
  eapply runs_bind; [apply recieve_message_runs| |].
  - intros w' [H _]. apply (follows_trans 0 0 _ _ _ Hw H).
  - intros [[st msg] src] w' [H0 H]. pose proof (follows_trans 0 0 _ _ _ Hw H0) as H1.
    destruct st; [|by apply runs_ret..].
    assert (forall w'', follows 0 w' w'' -> runs (main_loop getnameinfo fuel group) w'' (fun _ w1 => follows 0 w0 w1)) as Hgo.
    { intros w'' Hw''. apply IH; [|apply (follows_trans 0 0 _ _ _ H1 Hw'')].
      destruct H as [[_ _ H] _], Hw'' as [_ _ ?]. lia. }
    assert (forall w'' , follows 0 w' w'' -> follows 0 w0 w'') as Hend by (intros w'' Hw''; apply (follows_trans 0 0 _ _ _ H1 Hw'')).
    eapply runs_bind; [apply (harmless_runs _ w' 0 w'); [auto with harmless|apply follows_refl]|auto|].
    intros z w1 Hw1. destruct (z =? STATUS_REQUEST_MSG); [|by apply Hgo].
    eapply runs_bind; [apply (harmless_runs _ w1 0 w'); [auto with harmless|done]|auto|].
    intros r w2 Hw2. destruct (negb _); [by apply runs_ret, Hend|].
    eapply runs_bind; [apply (harmless_runs _ w2 0 w'); [auto with harmless|done]|auto|].
    intros r' w3 Hw3.
    eapply runs_bind; [apply (harmless_runs _ w3 0 w'); [destruct (negb _); auto with harmless|done]|auto|].
    intros ? w4 Hw4. by apply Hgo.
Qed.

(** ** The descriptors *)

Definition fds_ok (w : world) : Prop := 0 <= next_fd w /\ Forall (fun x => 0 <= x < next_fd w) (opened w).

(** A descriptor that is open besides those of [w0], and one that is not open. *)
Definition holds (w0 w : world) (sfd : option Z) : Prop := exists fd, sfd = Some fd /\ (fd ∉ opened w0) /\ opened w = opened w0 ++ [fd].
Definition stale (w0 : world) (sfd : option Z) : Prop := forall fd, sfd = Some fd -> fd ∉ opened w0.

Lemma filter_fresh (fd : Z) (l : list Z) : fd ∉ l -> filter (fun x => x <> fd) l = l.
Proof.
  induction l as [|x l IH]; [done|]. intros [Hx Hl]%not_elem_of_cons. rewrite filter_cons_True by done. by rewrite IH.
Qed.

Lemma filter_remove_fresh (fd : Z) (l : list Z) : fd ∉ l -> filter (fun x => x <> fd) (l ++ [fd]) = l.
Proof.
  intros H. rewrite filter_app, filter_cons_False by (intros H'; by apply H'). by rewrite filter_nil, app_nil_r, filter_fresh.
Qed.

Lemma close_held w0 w sfd : holds w0 w sfd -> runs (close sfd) w (fun r w' => is_Some r /\ opened w' = opened w0).
Proof. intros (fd & -> & Hfd & Ho). unfold runs, close. cbn. rewrite Ho, filter_remove_fresh by done. by split. Qed.

Lemma close_stale w0 w sfd :
  stale w0 sfd -> opened w = opened w0 -> runs (close sfd) w (fun r w' => is_Some r /\ opened w' = opened w0).
Proof.
  intros Hs Ho. destruct sfd as [fd|]; [|done]. unfold runs, close. cbn. rewrite Ho, filter_fresh by auto. by split.
Qed.

Lemma holds_follows n w0 w w' sfd : holds w0 w sfd -> follows n w w' -> holds w0 w' sfd.
Proof. intros (fd & -> & Hfd & Ho) [H _ _]. exists fd. by rewrite H. Qed.

Definition bound (w0 : world) (result : list sockaddr) (r : option (binding * option Z)) (w' : world) : Prop :=
  (length (inbox w') <= length (inbox w0))%nat /\
  match r with
  | None => False
  | Some (Bound a, sfd) => a ∈ result /\ holds w0 w' sfd
  | Some (NotReusable, sfd) => holds w0 w' sfd
  | Some (NotBound, sfd) => opened w' = opened w0 /\ stale w0 sfd
  end.

Lemma enable_reuse_addr_runs w : runs enable_reuse_addr w (fun r w' => is_Some r /\ follows 0 w w').
Proof.
  unfold runs, enable_reuse_addr, syscall, mbind, prog_bind. destruct (malloc (calls w)) as [[] rest]; cbn;
    (split; [done|by split; [| |cbn; lia]]).
Qed.

Lemma bind_loop_runs result : forall w0 w sfd all,
  fds_ok w -> opened w = opened w0 -> stale w0 sfd -> (forall a, a ∈ result -> a ∈ all) ->
  (length (inbox w) <= length (inbox w0))%nat ->
  runs (bind_loop result sfd) w (bound w0 all).
Proof.
  induction result as [|rp rest IH]; intros w0 w sfd all Hok Ho Hs Hall Hi; cbn [bind_loop].
  { by apply runs_ret. }
  assert (forall a, a ∈ rest -> a ∈ all) as Hrest by (intros a Ha; apply Hall, elem_of_cons; by right).
  unfold runs at 1, mbind at 1, prog_bind at 1, socket. destruct (malloc (calls w)) as [[] answers].
  2: { cbn. apply IH; [done|done| |done|done]. intros fd [= <-] H. rewrite <- Ho in H. destruct Hok as [? Hok].
       rewrite Forall_forall in Hok. specialize (Hok _ H). lia. }
  destruct Hok as [Hn Hok]. assert (next_fd w ∉ opened w0) as Hfresh.
  { rewrite <- Ho. intros H. rewrite Forall_forall in Hok. specialize (Hok _ H). lia. }
  destruct (Z.eqb_spec (next_fd w) (-1)) as [|_]; [lia|]. set (w1 := mkWorld _ _ _ _ _ _ _ _ _ _).
  assert (holds w0 w1 (Some (next_fd w))) as Hh by (exists (next_fd w); split_and!; [done|done|by cbn; rewrite Ho]).
  eapply runs_bind; [apply enable_reuse_addr_runs|by intros ? [[? ?] _]|].
  intros ret w2 [_ Hw2]. pose proof (holds_follows _ _ _ _ _ Hh Hw2) as Hh2.
  assert (length (inbox w2) <= length (inbox w0))%nat as Hi2 by (destruct Hw2 as [_ _ Hw2]; cbn in Hw2; lia).
  destruct (negb _); [by apply runs_ret|].
  unfold runs at 1, mbind at 1, prog_bind at 1, syscall. destruct (malloc (calls w2)) as [[] answers2].
  { split; [done|]. split; [apply Hall, elem_of_cons; by left|done]. }
  cbn. destruct Hw2 as [Ho2 Hn2 _]. cbn in Ho2, Hn2. unfold mbind, prog_bind, close. cbn.
  rewrite Ho2, Ho, filter_remove_fresh by done.
  apply IH; [|done| |done|done].
  - split; cbn; [lia|]. rewrite <- Ho. eapply Forall_impl; [exact Hok|]. cbn. lia.
  - by intros fd [= <-].
Qed.

Section Releases.
Context (getaddrinfo : list Z -> list Z -> option (list sockaddr)).
Context (getnameinfo : sockaddr -> bool -> Z * (list Z * list Z)).

(** The socket is open exactly when the set-up succeeds, and then bound to an address of
    the group. *)
Lemma create_multicast_socket_runs ip port w :
  fds_ok w ->
  runs (create_multicast_socket getaddrinfo ip port) w (fun r w' =>
    match r with
    | Some (OK, sfd, Some a) => (exists l, getaddrinfo ip port = Some l /\ a ∈ l) /\ holds w w' sfd
    | Some (_, sfd, _) => opened w' = opened w /\ stale w sfd
    | None => False
    end).
Proof.
  intros Hok. unfold create_multicast_socket. destruct (getaddrinfo ip port) as [result|] eqn:E; [|done].
  eapply runs_bind; [by apply (bind_loop_runs result w w None result)|by intros ? [_ []]|].
  intros [b sfd] w1 [Hi Hb].
  assert (forall w1 a, holds w w1 sfd -> runs (_ ← close sfd; mret (ERROR, sfd, a)) w1 (fun r w' =>
     match r with
     | Some (OK, sfd, Some a) => (exists l, Some result = Some l /\ a ∈ l) /\ holds w w' sfd
     | Some (_, sfd, _) => opened w' = opened w /\ stale w sfd
     | None => False
     end)) as Hclose.
  { intros w1' a Hh. eapply runs_bind; [by apply close_held|by intros ? [[? ?] _]|]. intros _ w2 [_ H2]. apply runs_ret.
    split; [done|]. destruct Hh as (fd & -> & Hfd & _). by intros fd' [= <-]. }
  destruct b as [a| |].
  - destruct Hb as [Ha Hh].
    assert (runs (multicast_add_membership (sa_family a) a) w1 (fun r w' => is_Some r /\ follows 0 w1 w')) as Hm.
    { unfold runs, multicast_add_membership, syscall, mbind, prog_bind.
      destruct (sa_family a); [| |by split; [|split; [| |cbn; lia]]];
        destruct (malloc (calls w1)) as [[] rest]; cbn; (split; [done|by split; [| |cbn; lia]]). }
    eapply runs_bind; [exact Hm|by intros ? [[? ?] _]|]. intros ret w2 [_ Hw2].
    pose proof (holds_follows _ _ _ _ _ Hh Hw2) as Hh2. case_bool_decide.
    + apply runs_ret. split; [by exists result|done].
    + by apply Hclose.
  - by apply Hclose.
  - apply Hb.
Qed.

Lemma main_error_runs w0 w sfd :
  holds w0 w sfd \/ opened w = opened w0 /\ stale w0 sfd ->
  runs (main_error sfd) w (fun r w' => is_Some r /\ opened w' = opened w0).
Proof.
  intros H. unfold main_error, runs. fold (runs (_ ← act (Complained (err_descr w)); _ ← close sfd; mret false) w
    (fun r w' => is_Some r /\ opened w' = opened w0)).
  apply (runs_bind _ _ _ (fun r w' => is_Some r /\ follows 0 w w')); [by split; [|split; [| |cbn; lia]]|by intros ? [[? ?] _]|].
  intros [] w1 [_ Hw1].
  eapply (runs_bind _ _ _ (fun r w' => is_Some r /\ opened w' = opened w0)); [|by intros ? [[? ?] _]|by intros _ ? [_ ?]; apply runs_ret].
  destruct H as [H|[H1 H2]]; [by eapply close_held, holds_follows|]. apply close_stale; [done|].
  destruct Hw1 as [-> _ _]. done.
Qed.

(** A step between opening the socket and closing it. *)
Lemma runs_holding {A B} w0 sfd (m : prog A) (f : A -> prog B) w (Q : option B -> world -> Prop) :
  harmless m -> holds w0 w sfd -> (forall w', holds w0 w' sfd -> Q None w') ->
  (forall a w', holds w0 w' sfd -> runs (f a) w' Q) -> runs (m ≫= f) w Q.
Proof.
  intros Hm Hh HN HS. eapply runs_bind; [apply Hm| |].
  - intros w' Hw'. apply HN. exact (holds_follows _ _ _ _ _ Hh Hw').
  - intros a w' Hw'. apply HS. exact (holds_follows _ _ _ _ _ Hh Hw').
Qed.

Lemma harmless_main_loop group : harmless (fun w => main_loop getnameinfo (S (length (inbox w))) group w).
Proof.
  intros w. pose proof (main_loop_runs getnameinfo group (S (length (inbox w))) w w (Nat.lt_succ_diag_r _) (follows_refl w)) as H.
  unfold runs in *. exact H.
Qed.

Definition released (w : world) (r : option bool) (w' : world) : Prop :=
  match r with
  | Some _ => opened w' = opened w
  | None => exists fd, holds w w' (Some fd)
  end.

Lemma main_error_released w0 w sfd :
  holds w0 w sfd \/ opened w = opened w0 /\ stale w0 sfd -> runs (main_error sfd) w (released w0).
Proof. intros H. eapply runs_mono; [by apply main_error_runs|]. by intros [b|] w' [[? ?] ?]. Qed.

Lemma serve_runs ip port w : fds_ok w -> runs (serve getaddrinfo getnameinfo ip port) w (released w).
Proof.
  intros Hok. unfold serve.
  eapply (runs_bind _ _ _ (fun r w' => is_Some r /\ follows 0 w w')).
  { unfold runs, setup_signal_handlers, syscall, mbind, prog_bind. destruct (malloc (calls w)) as [[] rest]; cbn;
      (split; [done|by split; [| |cbn; lia]]). }
  { by intros ? [[? ?] _]. }
  intros ret w1 [_ [Ho1 Hn1 _]]. destruct (negb _); [done|].
  eapply runs_bind; [apply create_multicast_socket_runs; unfold fds_ok; by rewrite Ho1, Hn1|done|].
  intros [[st sfd] a] w2 H2.
  assert (opened w2 = opened w1 /\ stale w1 sfd -> runs (main_error sfd) w2 (released w)) as Herr.
  { intros [H3 H4]. apply main_error_released. right. rewrite H3. split; [done|]. unfold stale. by rewrite <- Ho1. }
  destruct st; [|by apply Herr..]. destruct a as [group|]; [|by apply Herr]. clear Herr.
  destruct H2 as [_ H2]. assert (holds w w2 sfd) as Hh by (unfold holds; by rewrite <- Ho1).
  assert (forall w', holds w w' sfd -> released w None w') as HN.
  { intros w' (fd & -> & Hfd). by exists fd, fd. }
  assert (forall w', holds w w' sfd -> runs (main_error sfd) w' (released w)) as He.
  { intros w' Hw'. apply main_error_released. by left. }
  apply (runs_holding w sfd); [apply harmless_send_message|done|done|]. intros r w3 Hw3.
  destruct (negb _); [by apply He|].
  apply (runs_holding w sfd); [apply harmless_main_loop|done|done|]. intros fin w4 Hw4.
  destruct (negb fin); [by apply He|].
  apply (runs_holding w sfd); [apply harmless_act|done|done|]. intros _ w5 Hw5.
  apply (runs_holding w sfd); [apply harmless_send_message|done|done|]. intros r' w6 Hw6.
  destruct (negb _); [by apply He|].
  eapply runs_bind; [by apply close_held|by intros ? [[? ?] _]|]. by intros _ w7 [_ ?].
Qed.
End Releases.

(** Whatever arrives, whenever signals come and whichever system calls fail: the
    program never loops without receiving, so that it ends or waits for messages; when it
    ends, all descriptors it opened are closed again, and while it waits the socket of the
    group is the only one it has open.  (It may instead reach an operation without a
    meaning: those of [discovery_faults].) *)
Theorem discovery_releases getaddrinfo getnameinfo args w :
  fds_ok w -> runs (main getaddrinfo getnameinfo args) w (released w).
Proof.
  intros Hok. destruct args as [|ip [|port [|? ?]]]; cbn [main]; [by apply serve_runs..|done].
Qed.

(** ** What an instance is meant to do

    An instance listens, or for a while collects the answers to a request.  The actions
    and whether the instance comes to its end; [intr] is whether a signal has come. *)
Inductive phase := Listening | Collecting.

Definition says (z : Z) (p : list Z) : bool := bool_decide (take 4 p = message z).

Definition prepend (acts : list action) (r : list action * bool) : list action * bool := (acts ++ fst r, snd r).

Section Spec.
Context (getnameinfo : sockaddr -> bool -> Z * (list Z * list Z)) (group : sockaddr).

Definition alive_line (src : sockaddr) : action :=
  Printed (IsAlive (fst (snd (getnameinfo src false))) (fst (snd (getnameinfo src true))) (snd (snd (getnameinfo src true)))).

Fixpoint discovery (ph : phase) (intr : bool) (es : list event) : list action * bool :=
  match ph, es with
  | Listening, [] => ([], false)
  | Collecting, [] => ([], intr)
  | Listening, Quiet :: es => discovery Listening intr es
  | Collecting, Quiet :: es => if intr then ([], true) else discovery Listening false es
  | _, Sigint false :: es => discovery ph true es
  | _, Sigint true :: _ | _, Fails :: _ => ([], true)
  | Listening, Datagram _ p :: es =>
      if says STATUS_REQUEST_MSG p then
        prepend [Sent group (message IM_ALIVE_MSG); Printed Banner] (discovery Collecting intr es)
      else if intr then ([], true)
      else discovery Listening false es
  | Collecting, Datagram src p :: es =>
      prepend (if says IM_ALIVE_MSG p then [alive_line src] else []) (discovery Collecting intr es)
  end.

(** Messages come whole, from addresses that have names, no call fails, and no signal
    interrupts the collecting. *)
Definition resolvable (src : sockaddr) : Prop := forall b, fst (getnameinfo src b) = 0.
Definition payload_ok (p : list Z) : Prop := bytes p /\ 4 <= zlen p.

Fixpoint orderly (ph : phase) (es : list event) : Prop :=
  match es with
  | [] => True
  | Quiet :: es => orderly Listening es
  | Sigint true :: _ => ph = Listening
  | Sigint false :: es => orderly ph es
  | Fails :: _ => False
  | Datagram src p :: es =>
      payload_ok p /\ resolvable src /\
      orderly (if says STATUS_REQUEST_MSG p then Collecting else ph) es
  end.

(** The next event that [recvfrom] reports, while listening and while collecting. *)
Lemma listening_next es : forall intr,
  orderly Listening es ->
  match next_event 4 false intr es with
  | (None, intr', es') => es' = [] /\ discovery Listening intr es = ([], false)
  | (Some (inr e), intr', es') => e = EINTR /\ intr' = true /\ discovery Listening intr es = ([], true)
  | (Some (inl (src, q)), intr', es') => exists p,
      q = take 4 p /\ (length es' < length es)%nat /\ orderly Listening (Datagram src p :: es') /\
      discovery Listening intr es = discovery Listening intr' (Datagram src p :: es')
  end.
Proof.
  induction es as [|e es IH]; intros intr; [done|]. destruct e as [a p| |[]|]; cbn [next_event]; intros Ho.
  - exists p. split; [done|]. split; [cbn; lia|done].
  - cbn in Ho. specialize (IH intr Ho). destruct (next_event 4 false intr es) as [[[[[a q]|e]|] i] es'].
    + destruct IH as (p & -> & Hl & H). exists p. split; [done|]. cbn [length]. split; [lia|done].
    + done.
    + done.
  - done.
  - cbn in Ho. specialize (IH true Ho). destruct (next_event 4 false true es) as [[[[[a q]|e]|] i] es'].
    + destruct IH as (p & -> & Hl & H). exists p. split; [done|]. cbn [length]. split; [lia|done].
    + done.
    + done.
  - done.
Qed.

Lemma collecting_next es : forall intr,
  orderly Collecting es ->
  match next_event 4 true intr es with
  | (None, _, _) => False
  | (Some (inr e), intr', es') =>
      e = EAGAIN /\ (length es' <= length es)%nat /\ orderly Listening es' /\
      discovery Collecting intr es = if intr' then ([], true) else discovery Listening false es'
  | (Some (inl (src, q)), intr', es') => exists p,
      q = take 4 p /\ (length es' < length es)%nat /\ payload_ok p /\ resolvable src /\ orderly Collecting es' /\
      discovery Collecting intr es = prepend (if says IM_ALIVE_MSG p then [alive_line src] else []) (discovery Collecting intr' es')
  end.
Proof.
  induction es as [|e es IH]; intros intr.
  - cbn. by destruct intr.
  - destruct e as [a p| |[]|]; cbn [next_event]; intros Ho; [| |done| |done].
    + destruct Ho as (Hp & Ha & Ho). exists p. split; [done|]. split; [cbn; lia|].
      split; [done|]. split; [done|]. split; [by destruct (says _ p)|done].
    + split; [done|]. split; [cbn; lia|]. by destruct intr.
    + cbn in Ho. specialize (IH true Ho). destruct (next_event 4 true true es) as [[[[[a q]|e]|] i] es'].
      * destruct IH as (p & -> & Hl & H). exists p. split; [done|]. cbn [length]. split; [lia|done].
      * destruct IH as (-> & Hl & H). split; [done|]. cbn [length]. split; [lia|done].
      * done.
Qed.

(** ** The code does it *)

(** The state of the program in mid course. *)
Definition running (w : world) (es : list event) (t intr : bool) (acts : list action) : world :=
  mkWorld es t intr [] [] (opened w) (next_fd w) (joined w) (performed w ++ acts) (err_descr w).

Lemma recieve_message_running w es t intr acts :
  recieve_message (running w es t intr acts) =
  match next_event 4 t intr es with
  | (None, i, es') => Ok (None, running w es' t i acts)
  | (Some (inr EAGAIN), i, es') => Ok (Some (TIMED_OUT, [], None), running w es' t i acts)
  | (Some (inr EINTR), i, es') => Ok (Some (INTERRUPTED, [], None), running w es' t i acts)
  | (Some (inr EOTHER), i, es') => recieve_message (running w es t intr acts)
  | (Some (inl (src, p)), i, es') =>
      if 4 <=? zlen p then Ok (Some (OK, p, Some src), running w es' t i acts)
      else recieve_message (running w es t intr acts)
  end.
Proof.
  destruct (next_event 4 t intr es) as [[[[[src p]|[]]|] i] es'] eqn:E; try done.
  1: destruct (Z.leb_spec 4 (zlen p)) as [Hp|]; [|done].
  all: unfold recieve_message; cbn [recieve_message_loop]; change (zlen [] <? 4) with true; change (4 - zlen []) with 4; cbn iota;
    unfold mbind, prog_bind, recvfrom; cbn [timeo is_interrupted inbox running]; rewrite E; try done.
  cbn [app]. destruct (length es); cbn [recieve_message_loop]; by rewrite (proj2 (Z.ltb_ge _ _) Hp).
Qed.

Lemma message_value z : 0 <= z < 2 ^ 31 -> to_s32 (little_endian_to_Z 8 (message z)) = z.
Proof.
  intros Hz. unfold message. rewrite little_endian_to_Z_to_little_endian, Z.mod_small by lia. apply to_signed_small; lia.
Qed.

Lemma msg_value_says z p w :
  payload_ok p -> 0 <= z < 2 ^ 31 ->
  exists v, msg_value (take 4 p) w = Ok (Some v, w) /\ (v =? z) = says z p.
Proof.
  intros [Hb Hl] Hz. unfold msg_value. rewrite zlen_take by lia. cbn [Z.eqb]. eexists. split; [done|].
  unfold says. case_bool_decide as E.
  - rewrite E. apply Z.eqb_eq. by apply message_value.
  - apply Z.eqb_neq. intros Hv. apply E. assert (Z.of_nat (length (take 4 p)) = 4) as H4 by (unfold zlen in Hl; rewrite length_take; lia).
    assert (Forall (fun b => 0 <= b < 2 ^ 8) (take 4 p)) as Hb4 by (by apply Forall_take).
    rewrite <- (Z_to_little_endian_to_Z 4 8 (take 4 p)) by (done || lia). unfold message. f_equal.
    pose proof (little_endian_to_Z_bound 8 (take 4 p) ltac:(lia) Hb4) as Hbd. rewrite H4 in Hbd.
    revert Hv Hbd. generalize (little_endian_to_Z 8 (take 4 p)). intros u. unfold to_s32, to_signed.
    change (2 ^ (32 - 1)) with 2147483648. change (2 ^ 32) with 4294967296. change (4 * 8) with 32. change (2 ^ 32) with 4294967296.
    intros Hv Hu. destruct (Z.lt_ge_cases (u + 2147483648) 4294967296).
    + rewrite Z.mod_small in Hv by lia. lia.
    + rewrite <- (Z.mod_unique (u + 2147483648) 4294967296 1 (u + 2147483648 - 4294967296)) in Hv by lia. lia.
Qed.
Lemma bind_ok {A B} (m : prog A) (f : A -> prog B) w a w' : m w = Ok (Some a, w') -> (m ≫= f) w = f a w'.
Proof. unfold mbind, prog_bind. by intros ->. Qed.

Lemma bind_waits {A B} (m : prog A) (f : A -> prog B) w w' : m w = Ok (None, w') -> (m ≫= f) w = Ok (None, w').
Proof. unfold mbind, prog_bind. by intros ->. Qed.

Lemma running_act w es t intr acts a :
  act a (running w es t intr acts) = Ok (Some tt, running w es t intr (acts ++ [a])).
Proof. unfold act, running. cbn. by rewrite <- app_assoc. Qed.

Lemma running_send w es t intr acts z :
  z = IM_ALIVE_MSG \/ z = STATUS_REQUEST_MSG ->
  send_message z group (running w es t intr acts) = Ok (Some OK, running w es t intr (acts ++ [Sent group (message z)])).
Proof. intros [-> | ->]; unfold running; rewrite app_assoc; reflexivity. Qed.

Lemma running_print w es t intr acts src :
  resolvable src ->
  print_app_instance_info getnameinfo src (running w es t intr acts) = Ok (Some OK, running w es t intr (acts ++ [alive_line src])).
Proof.
  intros Hr. unfold print_app_instance_info, alive_line. pose proof (Hr true) as Ht. pose proof (Hr false) as Hf.
  destruct (getnameinfo src true) as [r1 [n1 s1]], (getnameinfo src false) as [r2 [n2 s2]]. cbn in Ht, Hf. subst. cbn.
  unfold mbind, prog_bind. by rewrite running_act.
Qed.

(** Collecting stops at the first pause. *)
Lemma collect_loop_refines w fuel : forall es intr acts,
  orderly Collecting es -> (length es < fuel)%nat ->
  exists lines es' intr',
    collect_loop getnameinfo fuel (running w es true intr acts) = Ok (Some OK, running w es' true intr' (acts ++ lines)) /\
    (length es' <= length es)%nat /\ orderly Listening es' /\
    discovery Collecting intr es = prepend lines (if intr' then ([], true) else discovery Listening false es').
Proof.
  induction fuel as [|fuel IH]; intros es intr acts Ho Hf; [lia|]. cbn [collect_loop].
  pose proof (recieve_message_running w es true intr acts) as Hrecv. pose proof (collecting_next es intr Ho) as Hn.
  destruct (next_event 4 true intr es) as [[[[[src q]|e]|] i] es']; [| |done].
  - destruct Hn as (p & -> & Hl & Hp & Hr & Ho' & Hd). pose proof Hp as [_ Hp4].
    rewrite zlen_take in Hrecv by lia. rewrite (bind_ok _ _ _ _ _ Hrecv). cbn beta iota.
    destruct (msg_value_says IM_ALIVE_MSG p (running w es' true i acts)) as (v & Hv & Hs); [done|done|].
    rewrite (bind_ok _ _ _ _ _ Hv), Hs, Hd. destruct (says IM_ALIVE_MSG p).
    + rewrite (bind_ok _ _ _ _ _ (running_print _ _ _ _ _ _ Hr)). rewrite bool_decide_true by done. cbn [negb].
      destruct (IH es' i (acts ++ [alive_line src])) as (lines & es2 & i2 & E & Hl2 & Ho2 & Hd2); [done|lia|].
      exists (alive_line src :: lines), es2, i2. rewrite E, Hd2, <- app_assoc. split; [done|]. split; [lia|]. done.
    + destruct (IH es' i acts) as (lines & es2 & i2 & E & Hl2 & Ho2 & Hd2); [done|lia|].
      exists lines, es2, i2. rewrite E, Hd2. split; [done|]. split; [lia|]. done.
  - destruct Hn as (-> & Hl & Ho' & Hd). exists [], es', i. rewrite (bind_ok _ _ _ _ _ Hrecv), app_nil_r, Hd.
    split; [done|]. split; [done|]. split; [done|]. destruct i; [done|]. unfold prepend. cbn [app]. apply surjective_pairing.
Qed.

Lemma collect_refines w es intr acts :
  orderly Collecting es ->
  exists lines es' intr',
    collect_app_instances_info getnameinfo (running w es false intr acts) = Ok (Some OK, running w es' false intr' (acts ++ Printed Banner :: lines)) /\
    (length es' <= length es)%nat /\ orderly Listening es' /\
    discovery Collecting intr es = prepend lines (if intr' then ([], true) else discovery Listening false es').
Proof.
  intros Ho. destruct (collect_loop_refines w (S (length es)) es intr (acts ++ [Printed Banner])) as (lines & es' & i & E & H); [done|lia|].
  exists lines, es', i. split; [|done].
  unfold collect_app_instances_info, mbind, prog_bind, syscall. cbn -[collect_loop]. unfold mbind, prog_bind.
  cbn -[collect_loop]. rewrite <- app_assoc. unfold running in E. rewrite E. unfold running. cbn. by rewrite <- app_assoc.
Qed.

Lemma main_loop_refines w fuel : forall es acts,
  orderly Listening es -> (length es < fuel)%nat ->
  exists es' t intr,
    main_loop getnameinfo fuel group (running w es false false acts) =
    Ok (if snd (discovery Listening false es) then Some true else None,
        running w es' t intr (acts ++ fst (discovery Listening false es))).
Proof.
  induction fuel as [|fuel IH]; intros es acts Ho Hf; [lia|]. cbn [main_loop].
  rewrite (bind_ok interrupted _ (running w es false false acts) false _ eq_refl). cbn iota.
  pose proof (recieve_message_running w es false false acts) as Hrecv. pose proof (listening_next es false Ho) as Hn.
  destruct (next_event 4 false false es) as [[[[[src q]|e]|] i] es'].
  - destruct Hn as (p & -> & Hl & (Hp & Hr & Ho') & Hd). pose proof Hp as [_ Hp4].
    rewrite zlen_take in Hrecv by lia. rewrite (bind_ok _ _ _ _ _ Hrecv). cbn beta iota.
    destruct (msg_value_says STATUS_REQUEST_MSG p (running w es' false i acts)) as (v & Hv & Hs); [done|done|].
    rewrite (bind_ok _ _ _ _ _ Hv), Hs, Hd. cbn [discovery]. destruct (says STATUS_REQUEST_MSG p).
    + rewrite (bind_ok _ _ _ _ _ (running_send _ _ _ _ _ IM_ALIVE_MSG (or_introl eq_refl))). cbn iota beta zeta.
      rewrite bool_decide_true by done. cbn [negb].
      destruct (collect_refines w es' i (acts ++ [Sent group (message IM_ALIVE_MSG)]) Ho') as (lines & es2 & i2 & E & Hl2 & Ho2 & Hd2).
      rewrite (bind_ok _ _ _ _ _ E). rewrite bool_decide_true by done. cbn [negb].
      erewrite (bind_ok (mret tt)) by reflexivity. rewrite Hd2. rewrite <- app_assoc. cbn [app].
      destruct i2.
      * destruct fuel; eexists _, _, _; cbn; by rewrite app_nil_r.
      * destruct (IH es2 (acts ++ Sent group (message IM_ALIVE_MSG) :: Printed Banner :: lines)) as (es3 & t3 & i3 & E3); [done|lia|].
        rewrite E3. eexists _, _, _. cbn. by rewrite <- app_assoc.
    + destruct i.
      * destruct fuel; eexists _, _, _; cbn; by rewrite app_nil_r.
      * apply IH; [done|lia].
  - destruct Hn as (-> & -> & Hd). rewrite (bind_ok _ _ _ _ _ Hrecv), Hd. cbn. rewrite app_nil_r. by eexists _, _, _.
  - destruct Hn as (-> & Hd). rewrite (bind_waits _ _ _ _ Hrecv), Hd. cbn. rewrite app_nil_r. by eexists _, _, _.
Qed.
End Spec.

(** ** The program *)

(** A process that has just started, on a system where no call fails. *)
Record fresh (w : world) : Prop := {
  fr_timeo : timeo w = false;
  fr_interrupted : is_interrupted w = false;
  fr_sendtos : sendtos w = [];
  fr_calls : calls w = [];
  fr_fd : 0 <= next_fd w
}.

(** The address and the port that the program takes. *)
Definition chosen (args : list (list Z)) : option (list Z * list Z) :=
  match args with
  | [] => Some (default_group_ip, default_port)
  | [ip] => Some (ip, default_port)
  | [ip; port] => Some (ip, port)
  | _ => None
  end.

Section Program.
Context (getaddrinfo : list Z -> list Z -> option (list sockaddr)).
Context (getnameinfo : sockaddr -> bool -> Z * (list Z * list Z)).

Definition with_socket (w : world) (group : sockaddr) : world :=
  mkWorld (inbox w) false false [] [] (opened w ++ [next_fd w]) (next_fd w + 1) (joined w ++ [group]) (performed w) (err_descr w).

Lemma create_fresh ip port w group others :
  fresh w -> getaddrinfo ip port = Some (group :: others) -> sa_family group <> AF_OTHER ->
  create_multicast_socket getaddrinfo ip port w = Ok (Some (OK, Some (next_fd w), Some group), with_socket w group).
Proof.
  intros [Ht Hi Hs Hc Hn] Hg Hf. destruct w as [es t i ss cs op fd jo pe er]. cbn in *. subst.
  unfold create_multicast_socket. rewrite Hg. unfold mbind, prog_bind. cbn. unfold mbind, prog_bind. cbn.
  destruct (Z.eqb_spec fd (-1)) as [|_]; [lia|]. 
  unfold multicast_add_membership, with_socket, enable_reuse_addr, mbind, prog_bind, syscall. cbn. rewrite (bool_decide_true (OK = OK)) by done. cbn.
  by destruct (sa_family group); [..|destruct Hf]; cbn; rewrite ?(bool_decide_true (OK = OK)).
Qed.

Definition goodbye (group : sockaddr) (ended : bool) : list action :=
  if ended then [Printed Finishing; Sent group (message STATUS_REQUEST_MSG)] else [].

Lemma serve_refines ip port w group others :
  fresh w -> getaddrinfo ip port = Some (group :: others) -> sa_family group <> AF_OTHER ->
  orderly getnameinfo Listening (inbox w) ->
  let d := discovery getnameinfo group Listening false (inbox w) in
  exists w',
    serve getaddrinfo getnameinfo ip port w = Ok (if snd d then Some true else None, w') /\
    performed w' = performed w ++ Sent group (message STATUS_REQUEST_MSG) :: fst d ++ goodbye group (snd d) /\
    joined w' = joined w ++ [group].
Proof.
  intros Hw Hg Hf Ho d. unfold serve. erewrite (bind_ok setup_signal_handlers _ w OK w).
  2: { destruct Hw as [Ht Hi Hs Hc Hn]. destruct w as [es t i ss cs op fd jo pe er]. cbn in *. by subst. }
  rewrite bool_decide_true by done. cbn [negb]. rewrite (bind_ok _ _ _ _ _ (create_fresh _ _ _ _ _ Hw Hg Hf)). cbn beta iota.
  set (w1 := with_socket w group).
  assert (w1 = running w1 (inbox w) false false []) as E1.
  { unfold running, w1, with_socket. cbn. by rewrite app_nil_r. }
  rewrite E1. rewrite (bind_ok _ _ _ _ _ (running_send group _ _ _ _ _ STATUS_REQUEST_MSG (or_intror eq_refl))).
  rewrite bool_decide_true by done. cbn [negb app]. clear E1.
  destruct (main_loop_refines getnameinfo group w1 (S (length (inbox w))) (inbox w) [Sent group (message STATUS_REQUEST_MSG)]) as (es' & t & i & E); [done|lia|].
  fold d in E. destruct (snd d).
  - erewrite (bind_ok (fun w => main_loop getnameinfo (S (length (inbox w))) group w)) by exact E. cbn [negb].
    rewrite (bind_ok _ _ _ _ _ (running_act _ _ _ _ _ _)).
    rewrite (bind_ok _ _ _ _ _ (running_send group _ _ _ _ _ STATUS_REQUEST_MSG (or_intror eq_refl))).
    rewrite bool_decide_true by done. cbn [negb]. eexists. split; [reflexivity|]. split; [|done]. cbn.
    by rewrite <- !app_assoc.
  - erewrite (bind_waits (fun w => main_loop getnameinfo (S (length (inbox w))) group w)) by exact E.
    eexists. split; [done|]. split; [|done]. cbn. by rewrite app_nil_r.
Qed.
End Program.

(** C14.  An instance that is started, with any of its forms of arguments, on a system
    where its calls succeed does what [discovery] says, for whole messages in any order,
    pauses and signals: it joins the group, asks who is alive, answers every request that
    it gets while listening, lists those that report themselves until there is a pause,
    ignores all other messages, and after a signal says so and asks the group again, so
    that the others notice. *)
Theorem discovery_refines getaddrinfo getnameinfo args ip port w group others :
  fresh w -> chosen args = Some (ip, port) -> getaddrinfo ip port = Some (group :: others) ->
  sa_family group <> AF_OTHER -> orderly getnameinfo Listening (inbox w) ->
  let d := discovery getnameinfo group Listening false (inbox w) in
  exists w',
    main getaddrinfo getnameinfo args w = Ok (if snd d then Some true else None, w') /\
    performed w' = performed w ++ Sent group (message STATUS_REQUEST_MSG) :: fst d ++ goodbye group (snd d) /\
    joined w' = joined w ++ [group].
Proof.
  intros Hw Hc Hg Hf Ho. destruct args as [|a [|b [|c rest]]]; [..|done]; injection Hc as <- <-; by eapply serve_refines.
Qed.

(** ** What goes wrong *)

(** No pause and nothing that ends the collecting. *)
Definition in_window (e : event) : Prop := match e with Datagram _ _ | Sigint false => True | _ => False end.

Lemma request_not_alive p : says STATUS_REQUEST_MSG p = true -> says IM_ALIVE_MSG p = false.
Proof.
  unfold says. intros H%bool_decide_eq_true. rewrite H. by apply bool_decide_false.
Qed.

Lemma deaf_while_collecting getnameinfo group b p post pre : forall intr,
  Forall in_window pre -> says STATUS_REQUEST_MSG p = true ->
  discovery getnameinfo group Collecting intr (pre ++ Datagram b p :: post) =
  discovery getnameinfo group Collecting intr (pre ++ post).
Proof.
  induction pre as [|e pre IH]; intros intr Hpre Hp; cbn [app discovery].
  - rewrite request_not_alive by done. unfold prepend. cbn. symmetry. apply surjective_pairing.
  - apply Forall_cons in Hpre as [He Hpre]. destruct e as [a q| |[]|]; try done; by rewrite IH.
Qed.

Lemma deaf_run getnameinfo group a q b p pre post intr :
  Forall in_window pre -> says STATUS_REQUEST_MSG q = true -> says STATUS_REQUEST_MSG p = true ->
  discovery getnameinfo group Listening intr (Datagram a q :: pre ++ Datagram b p :: post) =
  discovery getnameinfo group Listening intr (Datagram a q :: pre ++ post).
Proof. intros Hpre Hq Hp. cbn [discovery]. rewrite Hq. by rewrite deaf_while_collecting. Qed.

(** An example: a group, another instance, and names for every address. *)
Definition a_group : sockaddr := mkAddr AF_INET [224; 1; 2; 3] 8686.
Definition a_peer : sockaddr := mkAddr AF_INET [10; 0; 0; 7] 8686.
Definition a_resolver (ip port : list Z) : option (list sockaddr) := Some [a_group].
Definition some_names (code : Z) (src : sockaddr) (numeric : bool) : Z * (list Z * list Z) :=
  (code, (if numeric then sin_addr src else [104], [sin_port src])).
Definition started (es : list event) : world := mkWorld es false false [] [] [0; 1; 2] 3 [] [] NoText.

(** (1) A request that arrives while answers to another are collected is not
    answered, by any run of the program: the instance that sent it does not learn of this
    one.  (2) When the address of the group cannot be resolved, the program closes a
    descriptor that was never assigned.  (3) A signal while answers are collected makes
    it compare a message that has not been received; (4) a name that cannot be found
    makes it print a string that has not been written; (5) a signal just before a call of
    [recvfrom] is not noticed until the next message; (6) two short datagrams, even of two
    senders, count as one message. *)
Theorem discovery_faults :
  (forall getaddrinfo getnameinfo args ip port w w' group others a q b p pre post,
     fresh w -> fresh w' -> chosen args = Some (ip, port) -> getaddrinfo ip port = Some (group :: others) ->
     sa_family group <> AF_OTHER -> orderly getnameinfo Listening (inbox w) -> orderly getnameinfo Listening (inbox w') ->
     Forall in_window pre -> says STATUS_REQUEST_MSG q = true -> says STATUS_REQUEST_MSG p = true ->
     inbox w = Datagram a q :: pre ++ Datagram b p :: post -> inbox w' = Datagram a q :: pre ++ post ->
     performed w = performed w' ->
     exists r v v', main getaddrinfo getnameinfo args w = Ok (r, v) /\ main getaddrinfo getnameinfo args w' = Ok (r, v') /\
       performed v = performed v') /\
  (forall getaddrinfo getnameinfo args ip port w,
     chosen args = Some (ip, port) -> getaddrinfo ip port = None -> main getaddrinfo getnameinfo args w = Err Undefined) /\
  main a_resolver (some_names 0) [] (started [Datagram a_peer (message STATUS_REQUEST_MSG); Sigint true]) = Err Undefined /\
  main a_resolver (some_names (-2)) []
    (started [Datagram a_peer (message STATUS_REQUEST_MSG); Datagram a_peer (message IM_ALIVE_MSG)]) = Err Undefined /\
  (exists w, main a_resolver (some_names 0) [] (started [Sigint false]) = Ok (None, w) /\ is_interrupted w = true) /\
  (exists w, main a_resolver (some_names 0) []
       (started [Datagram a_peer (take 2 (message STATUS_REQUEST_MSG)); Datagram a_group (drop 2 (message STATUS_REQUEST_MSG))]) = Ok (None, w) /\
     Sent a_group (message IM_ALIVE_MSG) ∈ performed w).
Proof.
  split_and!.
  - intros * Hw Hw' Hc Hg Hf Ho Ho' Hpre Hq Hp E E' Hperf.
    assert (forall v, fresh v -> orderly getnameinfo Listening (inbox v) ->
      main getaddrinfo getnameinfo args v = serve getaddrinfo getnameinfo ip port v) as Hm.
    { intros v _ _. destruct args as [|x [|y [|z rest]]]; [..|done]; by injection Hc as <- <-. }
    rewrite !Hm by done. destruct (serve_refines _ getnameinfo _ _ _ _ _ Hw Hg Hf Ho) as (v & Ev & Pv & _).
    destruct (serve_refines _ getnameinfo _ _ _ _ _ Hw' Hg Hf Ho') as (v' & Ev' & Pv' & _).
    rewrite E, deaf_run in Ev, Pv by done. rewrite <- E' in Ev, Pv. do 3 eexists. split; [exact Ev|]. split; [exact Ev'|].
    by rewrite Pv, Pv', Hperf.
  - intros * Hc Hg. assert (serve getaddrinfo getnameinfo ip port w = Err Undefined) as Hs.
    { unfold serve, setup_signal_handlers, syscall, mbind, prog_bind. destruct (malloc (calls w)) as [[] rest]; cbn; [|done].
      unfold create_multicast_socket. by rewrite Hg. }
    destruct args as [|x [|y [|z rest]]]; [..|done]; by injection Hc as <- <-.
  - by vm_compute.
  - by vm_compute.
  - eexists. by vm_compute.
  - eexists. split; [by vm_compute|]. vm_compute. apply elem_of_cons. right. apply elem_of_cons. by left.
Qed.

(** The witnesses. *)

Lemma discovery_releases_witness :
  let w := started [Quiet; Datagram a_peer (message STATUS_REQUEST_MSG); Sigint false] in
  fds_ok w /\ runs (main a_resolver (some_names 0) []) w (released w).
Proof.
  intros w. assert (fds_ok w) as H by (split; [done|repeat (apply Forall_cons; split; [cbn; lia|]); apply Forall_nil_2]).
  split; [exact H|]. exact (discovery_releases a_resolver (some_names 0) [] w H).
Defined.

Lemma discovery_refines_witness :
  exists w',
    main a_resolver (some_names 0) []
      (started [Quiet; Datagram a_peer (message STATUS_REQUEST_MSG); Datagram a_peer (message IM_ALIVE_MSG); Quiet; Sigint true]) = Ok (Some true, w') /\
    performed w' =
      [Sent a_group (message STATUS_REQUEST_MSG); Sent a_group (message IM_ALIVE_MSG); Printed Banner;
       Printed (IsAlive [104] [10; 0; 0; 7] [8686]); Printed Finishing; Sent a_group (message STATUS_REQUEST_MSG)].
Proof.
  destruct (discovery_refines a_resolver (some_names 0) [] default_group_ip default_port
    (started [Quiet; Datagram a_peer (message STATUS_REQUEST_MSG); Datagram a_peer (message IM_ALIVE_MSG); Quiet; Sigint true])
    a_group []) as (w' & E & P & _); [by split|done|done|done| |].
  - cbn. split_and!; try done; by repeat constructor.
  - exists w'. by split.
Defined.
