(* ===== verification/Paint.v ===== *)
(** * Graphics/1-ICGPaint: filling areas and drawing lines

    The span filling of [FillTool.cpp] and the line of [BresenhamLine.cpp], on an image
    of 32-bit pixels.  Of Qt's image the code uses its sides, its rectangle and the array
    of its pixels, row by row; [QStack] is a list whose head is the top.  Coordinates
    and the error of the line are signed 32-bit numbers.  A colour is the number that
    [QColor::rgba] returns.  Repainting the window is left out, and so is the check of the
    image format; the other checks of [Q_ASSERT] are those of a debug build. *)
From stdpp Require Import relations.
From S2P Require Import Prelude.
#[local] Set Warnings "-clear-no-such-hyp".

(** ** Images *)

Record image := mkImage { iwidth : Z; iheight : Z; pixelData : list Z }.

(** [image.rect().contains(x, y)] *)
Definition contains (img : image) (x y : Z) : bool := (0 <=? x) && (x <? iwidth img) && (0 <=? y) && (y <? iheight img).

(** [y * image.width() + x] *)
Definition index (img : image) (x y : Z) : res Z := let* row := s32 (y * iwidth img) in s32 (row + x).

Definition get_pixel (img : image) (x y : Z) : res Z := let* i := index img x y in arr_get (pixelData img) i.

Definition set_pixel (img : image) (x y color : Z) : res image :=
  let* i := index img x y in
  let* p := arr_set (pixelData img) i color in
  Ok (mkImage (iwidth img) (iheight img) p).

(** ** FillTool.cpp *)

Definition inside (img : image) (areaColor x y : Z) : res bool :=
  if negb (contains img x y) then Ok false
  else let* p := get_pixel img x y in Ok (p =? areaColor).

(** [n] is what is left of the interval. *)
Fixpoint scan_loop (n : nat) (img : image) (areaColor x y : Z) (span_added : bool) (stack : list (Z * Z)) : res (list (Z * Z)) :=
  match n with
  | O => Ok stack
  | S n =>
      let* b := inside img areaColor x y in
      if negb b then scan_loop n img areaColor (x + 1) y false stack
      else if negb span_added then scan_loop n img areaColor (x + 1) y true ((x, y) :: stack)
      else scan_loop n img areaColor (x + 1) y span_added stack
  end.

Definition scan (img : image) (areaColor lx rx y : Z) (stack : list (Z * Z)) : res (list (Z * Z)) :=
  scan_loop (Z.to_nat (rx - lx)) img areaColor lx y false stack.

Fixpoint fill_left (fuel : nat) (img : image) (areaColor color lx y : Z) : res (image * Z) :=
  let* b := inside img areaColor (lx - 1) y in
  if (b : bool) then
    match fuel with
    | O => Err OutOfFuel
    | S fuel => let* img := set_pixel img (lx - 1) y color in fill_left fuel img areaColor color (lx - 1) y
    end
  else Ok (img, lx).

Fixpoint fill_right (fuel : nat) (img : image) (areaColor color rx y : Z) : res (image * Z) :=
  let* b := inside img areaColor rx y in
  if (b : bool) then
    match fuel with
    | O => Err OutOfFuel
    | S fuel => let* img := set_pixel img rx y color in fill_right fuel img areaColor color (rx + 1) y
    end
  else Ok (img, rx).

(** The two loops along a row make at most as many turns as the row has pixels. *)
Fixpoint span_loop (fuel : nat) (img : image) (areaColor color : Z) (stack : list (Z * Z)) : res image :=
  match stack with
  | [] => Ok img
  | (sx, y) :: stack =>
      match fuel with
      | O => Err OutOfFuel
      | S fuel =>
          let* '(img, lx) := fill_left (Z.to_nat (iwidth img)) img areaColor color sx y in
          let* '(img, rx) := fill_right (Z.to_nat (iwidth img)) img areaColor color sx y in
          let* up := s32 (y + 1) in
          let* stack := scan img areaColor lx rx up stack in
          let* down := s32 (y - 1) in
          let* stack := scan img areaColor lx rx down stack in
          span_loop fuel img areaColor color stack
      end
  end.

(** [chosen] is the colour of the options. *)
Definition doSpanFilling (img : image) (seed : Z * Z) (chosen color : Z) : res image :=
  let* areaColor := get_pixel img (fst seed) (snd seed) in
  if areaColor =? chosen then Ok img
  else span_loop (S (2 * length (pixelData img))) img areaColor color [seed].

Definition fill_mousePressEvent (left_button : bool) (img : image) (pos : Z * Z) (chosen : Z) : res image :=
  if left_button then doSpanFilling img pos chosen chosen else Ok img.

(** ** BresenhamLine.cpp *)

Definition setcolor (img : image) (x y color : Z) : res image :=
  if contains img x y then set_pixel img x y color else Ok img.

(** The inner loop across the line: along a column when [steep] is false. *)
Fixpoint thickness_loop (n : nat) (steep : bool) (img : image) (x y off i color : Z) : res image :=
  match n with
  | O => Ok img
  | S n =>
      let* c := s32 ((if steep then x else y) - off) in
      let* c := s32 (c + i) in
      let* img := (if steep then setcolor img c y color else setcolor img x c color) in
      thickness_loop n steep img x y off (i + 1) color
  end.

(** The loop for a line that is wider than high. *)
Fixpoint flat_loop (n : nat) (img : image) (x y err dx dy stepX stepY color width : Z) : res image :=
  match n with
  | O => Ok img
  | S n =>
      let x := x + stepX in
      let* err := s32 (err + 2 * dy) in
      let* '(err, y) := (if 0 <? err then let* err := s32 (err - 2 * dx) in Ok (err, y + stepY) else Ok (err, y)) in
      let* img := thickness_loop (Z.to_nat width) false img x y (Z.quot width 2) 0 color in
      flat_loop n img x y err dx dy stepX stepY color width
  end.

(** The loop for the other lines. *)
Fixpoint steep_loop (n : nat) (img : image) (x y err dx dy stepX stepY color width : Z) : res image :=
  match n with
  | O => Ok img
  | S n =>
      let y := y + stepY in
      let* err := s32 (err + 2 * dx) in
      let* '(err, x) := (if 0 <? err then let* err := s32 (err - 2 * dy) in Ok (err, x + stepX) else Ok (err, x)) in
      let* img := thickness_loop (Z.to_nat width) true img x y (Z.quot width 2) 0 color in
      steep_loop n img x y err dx dy stepX stepY color width
  end.

Definition Draw (img : image) (a b : Z * Z) (color width : Z) : res image :=
  check! assert (contains img (fst a) (snd a) && contains img (fst b) (snd b)) in
  check! assert (0 <? width) in
  let* ex := s32 (fst b - fst a) in
  let* ey := s32 (snd b - snd a) in
  let dx := Z.abs ex in
  let dy := Z.abs ey in
  let stepX := if fst a <? fst b then 1 else -1 in
  let stepY := if snd a <? snd b then 1 else -1 in
  if dy <? dx then
    let* err := s32 (-2 * dy - dx) in
    flat_loop (Z.to_nat dx) img (fst a) (snd a) err dx dy stepX stepY color width
  else
    let* err := s32 (-2 * dx - dy) in
    steep_loop (Z.to_nat dy) img (fst a) (snd a) err dx dy stepX stepY color width.

(** ** Pixels *)

(** The array has a cell for each pixel, and the numbers of the cells are [int]s. *)
Record image_ok (img : image) : Prop := {
  io_width : 0 < iwidth img < 2 ^ 28;
  io_height : 0 < iheight img < 2 ^ 28;
  io_cells : zlen (pixelData img) = iwidth img * iheight img;
  io_int : iwidth img * iheight img < 2 ^ 31
}.

(** A point of the image, and the pixel there. *)
Definition within (img : image) (x y : Z) : Prop := 0 <= x < iwidth img /\ 0 <= y < iheight img.
Definition pixel (img : image) (x y : Z) : Z := znth (pixelData img) (y * iwidth img + x).

Lemma contains_spec img x y : BoolSpec (within img x y) (~ within img x y) (contains img x y).
Proof.
  unfold contains, within.
  destruct (Z.leb_spec 0 x), (Z.ltb_spec x (iwidth img)), (Z.leb_spec 0 y), (Z.ltb_spec y (iheight img)); cbn; constructor; lia.
Qed.

Lemma cell_range img x y : image_ok img -> within img x y -> 0 <= y * iwidth img /\ 0 <= y * iwidth img + x < iwidth img * iheight img.
Proof. intros [Hw Hh _ _] [Hx Hy]. nia. Qed.

Lemma cell_injective img x y x' y' :
  within img x y -> within img x' y' -> y * iwidth img + x = y' * iwidth img + x' -> x = x' /\ y = y'.
Proof. intros [? ?] [? ?] E. assert (y = y') by nia. subst. lia. Qed.

Lemma index_ok img x y : image_ok img -> within img x y -> index img x y = Ok (y * iwidth img + x).
Proof.
  intros Hi Hp. pose proof (cell_range _ _ _ Hi Hp). destruct Hi as [? ? ? ?], Hp. unfold index.
  rewrite s32_ok by lia. apply s32_ok. lia.
Qed.

Lemma get_pixel_ok img x y : image_ok img -> within img x y -> get_pixel img x y = Ok (pixel img x y).
Proof.
  intros Hi Hp. unfold get_pixel. rewrite index_ok by done. pose proof (cell_range _ _ _ Hi Hp). apply arr_get_ok.
  rewrite io_cells by done. lia.
Qed.

(** The second image is the first with the colour at the points of [P]. *)
Record painted (P : Z -> Z -> bool) (color : Z) (img img' : image) : Prop := {
  pa_width : iwidth img' = iwidth img;
  pa_height : iheight img' = iheight img;
  pa_ok : image_ok img';
  pa_pixel : forall x y, within img x y -> pixel img' x y = if P x y then color else pixel img x y
}.

Lemma painted_within P color img img' x y : painted P color img img' -> within img' x y <-> within img x y.
Proof. intros [Hw Hh _ _]. unfold within. by rewrite Hw, Hh. Qed.

Lemma painted_refl P color img : image_ok img -> (forall x y, P x y = false) -> painted P color img img.
Proof. intros Hi HP. split; [done|done|done|]. intros x y _. by rewrite HP. Qed.

Lemma painted_trans P Q R color img1 img2 img3 :
  painted P color img1 img2 -> painted Q color img2 img3 -> (forall x y, R x y = P x y || Q x y) -> painted R color img1 img3.
Proof.
  intros H12 H23 HR. pose proof (fun x y => painted_within _ _ _ _ x y H12) as Hw.
  destruct H12 as [? ? _ H1], H23 as [? ? ? H2]. split; [congruence|congruence|done|].
  intros x y Hp. rewrite H2, H1, HR by (done || by apply Hw). by destruct (P x y), (Q x y).
Qed.

Lemma painted_ext P Q color img img' : painted P color img img' -> (forall x y, P x y = Q x y) -> painted Q color img img'.
Proof. intros [? ? ? H] E. split; [done..|]. intros x y Hp. by rewrite <- E, H. Qed.

Definition at_point (px py x y : Z) : bool := (x =? px) && (y =? py).

Lemma set_pixel_ok img x y color :
  image_ok img -> within img x y ->
  exists img', set_pixel img x y color = Ok img' /\ painted (at_point x y) color img img' /\
    pixelData img' = zset (pixelData img) (y * iwidth img + x) color.
Proof.
  intros Hi Hp. unfold set_pixel. rewrite index_ok by done. pose proof (cell_range _ _ _ Hi Hp) as Hc.
  rewrite arr_set_ok by (rewrite io_cells by done; lia). eexists. split; [done|]. split; [|done].
  split; cbn; [done|done| |].
  - destruct Hi. split; cbn; [done|done|by rewrite zlen_zset|done].
  - intros x' y' Hp'. unfold pixel, at_point. cbn. pose proof (cell_range _ _ _ Hi Hp').
    destruct (Z.eqb_spec x' x) as [->|Hx]; destruct (Z.eqb_spec y' y) as [->|Hy]; cbn;
      try (apply znth_zset_ne; [lia|lia|]; intros E; apply (cell_injective img) in E; [lia|done|done]).
    apply znth_zset_eq. rewrite io_cells by done. lia.
Qed.

(** ** Filling *)

Section Filling.
Context (areaColor color : Z) (Hdiff : areaColor <> color).

(** A point that is still to be filled. *)
Definition open (img : image) (x y : Z) : Prop := within img x y /\ pixel img x y = areaColor.

Lemma inside_spec img x y : image_ok img -> exists b, inside img areaColor x y = Ok b /\ (b = true <-> open img x y).
Proof.
  intros Hi. unfold inside, open. destruct (contains_spec img x y) as [Hp|Hp]; cbn [negb].
  - rewrite get_pixel_ok by done. eexists. split; [done|]. rewrite Z.eqb_eq. tauto.
  - exists false. split; [done|]. split; [done|tauto].
Qed.

(** The points of a row from [lx] to before [rx]. *)
Definition span (lx rx row x y : Z) : bool := (lx <=? x) && (x <? rx) && (y =? row).

(** How many pixels are left to fill. *)
Definition left_over (img : image) : Z := zlen (filter (fun p => p = areaColor) (pixelData img)).

Lemma count_insert (a : list Z) (i : nat) :
  a !! i = Some areaColor -> length (filter (fun p => p = areaColor) a) = S (length (filter (fun p => p = areaColor) (<[i := color]> a))).
Proof.
  revert i. induction a as [|x a IH]; intros [|i] E; cbn in E; [done|done| |].
  - injection E as ->. change (<[0%nat := color]> (areaColor :: a)) with (color :: a).
    rewrite filter_cons_True by done. by rewrite filter_cons_False by congruence.
  - change (<[S i := color]> (x :: a)) with (x :: <[i := color]> a).
    rewrite !filter_cons. destruct (decide (x = areaColor)); cbn [length]; by rewrite (IH i E).
Qed.

Lemma fill_one img x y :
  image_ok img -> open img x y ->
  exists img', set_pixel img x y color = Ok img' /\ painted (at_point x y) color img img' /\ left_over img' = left_over img - 1.
Proof.
  intros Hi [Hp Ha]. destruct (set_pixel_ok img x y color Hi Hp) as (img' & E & Hpa & Hd).
  exists img'. split; [done|]. split; [done|]. unfold left_over, zlen. rewrite Hd. unfold zset.
  pose proof (cell_range _ _ _ Hi Hp) as Hc. rewrite (count_insert (pixelData img) (Z.to_nat (y * iwidth img + x))); [lia|].
  unfold pixel, znth in Ha. rewrite <- Ha. apply list_lookup_lookup_total_lt.
  pose proof (io_cells _ Hi) as H. unfold zlen in H. lia.
Qed.

Lemma open_painted P img img' x y : painted P color img img' -> open img' x y <-> open img x y /\ P x y = false.
Proof.
  intros H. unfold open. rewrite (painted_within _ _ _ _ _ _ H). split.
  - intros [Hp E]. rewrite (pa_pixel _ _ _ _ H) in E by done. destruct (P x y); [done|tauto].
  - intros [[Hp E] HP]. split; [done|]. by rewrite (pa_pixel _ _ _ _ H), HP.
Qed.

Lemma fill_left_spec fuel : forall img lx y,
  image_ok img -> lx <= Z.of_nat fuel ->
  exists img' lx', fill_left fuel img areaColor color lx y = Ok (img', lx') /\ lx' <= lx /\
    painted (span lx' lx y) color img img' /\ (forall x, lx' <= x < lx -> open img x y) /\ ~ open img (lx' - 1) y /\
    left_over img' = left_over img - (lx - lx').
Proof.
  induction fuel as [|fuel IH]; intros img lx y Hi Hf; cbn [fill_left];
    destruct (inside_spec img (lx - 1) y Hi) as (b & E & Hb); rewrite E; destruct b;
    try (exists img, lx; split; [done|]; split; [lia|]; split; [apply painted_refl; [done|intros; unfold span; lia]|];
         split; [lia|]; split; [by intros H%Hb|lia]).
  - destruct (proj1 Hb eq_refl) as [[? _] _]. lia.
  - pose proof (proj1 Hb eq_refl) as Ho. destruct (fill_one img (lx - 1) y Hi Ho) as (img1 & -> & Hpa & Hl).
    destruct (IH img1 (lx - 1) y) as (img' & lx' & -> & Hle & Hpa' & Hop & Hno & Hl'); [apply Hpa|lia|].
    exists img', lx'. split; [done|]. split; [lia|]. split; [|split; [|split]].
    + eapply painted_trans; [exact Hpa|exact Hpa'|]. intros x' y'. unfold at_point, span. lia.
    + intros x Hx. destruct (decide (x = lx - 1)) as [->|]; [done|]. apply (open_painted _ _ _ _ _ Hpa), Hop. lia.
    + intros H. apply Hno. apply (open_painted _ _ _ _ _ Hpa). split; [done|]. unfold at_point. lia.
    + lia.
Qed.

Lemma fill_right_spec fuel : forall img rx y,
  image_ok img -> iwidth img - rx <= Z.of_nat fuel ->
  exists img' rx', fill_right fuel img areaColor color rx y = Ok (img', rx') /\ rx <= rx' /\
    painted (span rx rx' y) color img img' /\ (forall x, rx <= x < rx' -> open img x y) /\ ~ open img rx' y /\
    left_over img' = left_over img - (rx' - rx).
Proof.
  induction fuel as [|fuel IH]; intros img rx y Hi Hf; cbn [fill_right];
    destruct (inside_spec img rx y Hi) as (b & E & Hb); rewrite E; destruct b;
    try (exists img, rx; split; [done|]; split; [lia|]; split; [apply painted_refl; [done|intros; unfold span; lia]|];
         split; [lia|]; split; [by intros H%Hb|lia]).
  - destruct (proj1 Hb eq_refl) as [[? _] _]. lia.
  - pose proof (proj1 Hb eq_refl) as Ho. destruct (fill_one img rx y Hi Ho) as (img1 & -> & Hpa & Hl).
    destruct (IH img1 (rx + 1) y) as (img' & rx' & -> & Hle & Hpa' & Hop & Hno & Hl'); [apply Hpa|rewrite (pa_width _ _ _ _ Hpa); lia|].
    exists img', rx'. split; [done|]. split; [lia|]. split; [|split; [|split]].
    + eapply painted_trans; [exact Hpa|exact Hpa'|]. intros x' y'. unfold at_point, span. lia.
    + intros x Hx. destruct (decide (x = rx)) as [->|]; [done|]. apply (open_painted _ _ _ _ _ Hpa), Hop. lia.
    + intros H. apply Hno. apply (open_painted _ _ _ _ _ Hpa). split; [done|]. unfold at_point. lia.
    + lia.
Qed.

(** A row is scanned: the points put on the stack are open, one to the left of every
    open point of the interval, with nothing but open points between. *)
Definition covered (img : image) (stack : list (Z * Z)) (x y : Z) : Prop :=
  exists sx, (sx, y) ∈ stack /\ sx <= x /\ forall z, sx <= z <= x -> open img z y.

Lemma covered_app img s1 s2 x y : covered img s2 x y -> covered img (s1 ++ s2) x y.
Proof. intros (sx & H & Hx). exists sx. split; [apply elem_of_app; by right|done]. Qed.

Lemma scan_loop_spec n : forall img x y added stack,
  image_ok img ->
  exists new, scan_loop n img areaColor x y added stack = Ok (new ++ stack) /\ (length new <= n)%nat /\
    Forall (fun s => snd s = y /\ x <= fst s < x + Z.of_nat n /\ open img (fst s) y) new /\
    forall q, x <= q < x + Z.of_nat n -> open img q y ->
      covered img new q y \/ added = true /\ forall z, x <= z <= q -> open img z y.
Proof.
  induction n as [|n IH]; intros img x y added stack Hi; cbn [scan_loop].
  { exists []. split; [done|]. split; [done|]. split; [constructor|lia]. }
  destruct (inside_spec img x y Hi) as (b & -> & Hb). destruct b; cbn [negb].
  - pose proof (proj1 Hb eq_refl) as Ho. destruct added; cbn [negb].
    + destruct (IH img (x + 1) y true stack Hi) as (new & -> & Hl & Hf & Hc). exists new.
      split; [done|]. split; [lia|]. split.
      { eapply Forall_impl; [exact Hf|]. cbn. intros [sx sy]. cbn. intros (-> & ? & ?). split; [done|]. split; [lia|done]. }
      intros q Hq Hoq. destruct (decide (q = x)) as [->|].
      { right. split; [done|]. intros z Hz. by replace z with x by lia. }
      destruct (Hc q) as [H|[_ H]]; [lia|done|by left|]. right. split; [done|]. intros z Hz.
      destruct (decide (z = x)) as [->|]; [done|]. apply H. lia.
    + destruct (IH img (x + 1) y true ((x, y) :: stack) Hi) as (new & -> & Hl & Hf & Hc). exists (new ++ [(x, y)]).
      rewrite <- app_assoc. split; [done|]. split; [rewrite length_app; cbn; lia|]. split.
      { apply Forall_app. split.
        - eapply Forall_impl; [exact Hf|]. cbn. intros [sx sy]. cbn. intros (-> & ? & ?). split; [done|]. split; [lia|done].
        - constructor; [|constructor]. cbn. split; [done|]. split; [lia|done]. }
      intros q Hq Hoq. left. destruct (decide (q = x)) as [->|].
      { apply covered_app. exists x. split; [apply elem_of_cons; by left|]. split; [lia|]. intros z Hz. by replace z with x by lia. }
      destruct (Hc q) as [(sx & H & Hx)|[_ H]]; [lia|done| |].
      { exists sx. split; [apply elem_of_app; by left|done]. }
      apply covered_app. exists x. split; [apply elem_of_cons; by left|]. split; [lia|]. intros z Hz.
      destruct (decide (z = x)) as [->|]; [done|]. apply H. lia.
  - destruct (IH img (x + 1) y false stack Hi) as (new & -> & Hl & Hf & Hc). exists new.
    split; [done|]. split; [lia|]. split.
    { eapply Forall_impl; [exact Hf|]. cbn. intros [sx sy]. cbn. intros (-> & ? & ?). split; [done|]. split; [lia|done]. }
    intros q Hq Hoq. left. destruct (decide (q = x)) as [->|]; [by apply Hb in Hoq|].
    destruct (Hc q) as [H|[? _]]; [lia|done|done|done].
Qed.

Lemma scan_spec img lx rx y stack :
  image_ok img -> lx <= rx ->
  exists new, scan img areaColor lx rx y stack = Ok (new ++ stack) /\ zlen new <= rx - lx /\
    Forall (fun s => snd s = y /\ lx <= fst s < rx /\ open img (fst s) y) new /\
    forall q, lx <= q < rx -> open img q y -> covered img new q y.
Proof.
  intros Hi Hle. unfold scan. destruct (scan_loop_spec (Z.to_nat (rx - lx)) img lx y false stack Hi) as (new & -> & Hl & Hf & Hc).
  exists new. split; [done|]. split; [unfold zlen; lia|]. split.
  - eapply Forall_impl; [exact Hf|]. cbn. intros [sx sy]. cbn. intros (-> & ? & ?). split; [done|]. split; [lia|done].
  - intros q Hq Ho. destruct (Hc q) as [H|[? _]]; [lia|done|done|done].
Qed.
End Filling.

(** *** The area *)

(** Steps between neighbours of the same colour, and the points that can be reached. *)
Definition neighbours (p q : Z * Z) : Prop :=
  snd p = snd q /\ Z.abs (fst p - fst q) = 1 \/ fst p = fst q /\ Z.abs (snd p - snd q) = 1.

Definition area_step (areaColor : Z) (img : image) (p q : Z * Z) : Prop :=
  neighbours p q /\ open areaColor img (fst q) (snd q).

Definition area (areaColor : Z) (img : image) (seed p : Z * Z) : Prop := rtc (area_step areaColor img) seed p.

Section Area.
Context (areaColor color : Z) (Hdiff : areaColor <> color).
Context (img0 : image) (seed : Z * Z).
#[local] Notation open := (open areaColor).
#[local] Notation area0 x y := (area areaColor img0 seed (x, y)).

Definition filled (img : image) (x y : Z) : Prop := open img0 x y /\ ~ open img x y.

Record fill_inv (img : image) (stack : list (Z * Z)) : Prop := {
  fi_width : iwidth img = iwidth img0;
  fi_height : iheight img = iheight img0;
  fi_ok : image_ok img;
  fi_pixel : forall x y, within img0 x y ->
    pixel img x y = pixel img0 x y \/ open img0 x y /\ area0 x y /\ pixel img x y = color;
  fi_stack : Forall (fun s => area0 (fst s) (snd s) /\ open img0 (fst s) (snd s)) stack;
  fi_row : forall x x' y, filled img x y -> Z.abs (x - x') = 1 -> ~ open img x' y;
  fi_column : forall x y y', filled img x y -> Z.abs (y - y') = 1 -> open img x y' -> covered areaColor img stack x y';
  fi_seed : open img (fst seed) (snd seed) -> covered areaColor img stack (fst seed) (snd seed)
}.

Lemma inv_open img stack x y : fill_inv img stack -> open img x y -> open img0 x y.
Proof.
  intros H [Hp E]. unfold within in *. rewrite (fi_width _ _ H), (fi_height _ _ H) in Hp.
  destruct (fi_pixel _ _ H x y Hp) as [E'|(? & _ & E')]; [|done]. split; [done|congruence].
Qed.

(** A run of open points next to a point of the area belongs to it. *)
Lemma area_run x0 x1 y : area0 x0 y -> (forall z, Z.min x0 x1 <= z <= Z.max x0 x1 -> open img0 z y) -> area0 x1 y.
Proof.
  intros H0 Ho. destruct (Z.le_ge_cases x0 x1) as [Hle|Hge].
  - revert Ho. pattern x1. apply (Zlt_lower_bound_ind _ x0); [|done]. clear x1 Hle. intros x1 IH Hle Ho.
    destruct (decide (x1 = x0)) as [->|]; [done|]. eapply rtc_r; [apply (IH (x1 - 1)); [lia|intros z Hz; apply Ho; lia]|].
    split; [left; cbn; lia|]. cbn. apply Ho. lia.
  - revert Ho. replace x1 with (x0 - (x0 - x1)) by lia. assert (0 <= x0 - x1) as Hd by lia. revert Hd. generalize (x0 - x1). clear x1 Hge.
    intros d Hd. pattern d. apply (Zlt_lower_bound_ind _ 0); [|done]. clear d Hd. intros d IH Hd Ho.
    destruct (decide (d = 0)) as [->|]; [by rewrite Z.sub_0_r|].
    eapply rtc_r; [apply (IH (d - 1)); [lia|intros z Hz; apply Ho; lia]|]. split; [left; cbn; lia|]. cbn. apply Ho. lia.
Qed.

(** What the two loops along the row of a point of the stack do. *)
Lemma span_step img sx y stack :
  fill_inv img ((sx, y) :: stack) ->
  exists img1 img' lx rx,
    fill_left (Z.to_nat (iwidth img)) img areaColor color sx y = Ok (img1, lx) /\
    fill_right (Z.to_nat (iwidth img1)) img1 areaColor color sx y = Ok (img', rx) /\
    lx <= sx <= rx /\ painted (span lx rx y) color img img' /\
    (forall x, lx <= x < rx -> open img x y /\ area0 x y) /\
    (open img sx y -> sx < rx) /\ (~ open img (lx - 1) y /\ ~ open img rx y) /\
    left_over areaColor img' = left_over areaColor img - (rx - lx).
Proof.
  intros H. pose proof (fi_stack _ _ H) as [[Hconn Hseed] _]%Forall_cons. cbn in Hconn, Hseed.
  pose proof Hseed as [[Hsx _] _]. pose proof (fi_ok _ _ H) as Hok. rewrite <- (fi_width _ _ H) in Hsx.
  destruct (fill_left_spec areaColor color Hdiff (Z.to_nat (iwidth img)) img sx y) as (img1 & lx & E1 & Hle1 & Hpa1 & Hop1 & Hno1 & Hl1); [done|lia|].
  destruct (fill_right_spec areaColor color Hdiff (Z.to_nat (iwidth img1)) img1 sx y) as (img2 & rx & E2 & Hle2 & Hpa2 & Hop2 & Hno2 & Hl2);
    [apply Hpa1|lia|].
  exists img1, img2, lx, rx. split; [done|]. split; [done|]. split; [lia|].
  assert (forall x, sx <= x -> open img1 x y <-> open img x y) as Hsame.
  { intros x Hx. rewrite (open_painted _ _ Hdiff _ _ _ _ _ Hpa1). unfold span. split; [tauto|]. intros ?. split; [done|lia]. }
  assert (forall x, lx <= x < rx -> open img x y) as Hop.
  { intros x Hx. destruct (Z.lt_ge_cases x sx); [apply Hop1; lia|]. apply Hsame; [lia|]. apply Hop2. lia. }
  split; [eapply painted_trans; [exact Hpa1|exact Hpa2|]; intros x' y'; unfold span; lia|].
  split; [|split; [|split; [|lia]]].
  - intros x Hx. split; [by apply Hop|]. apply (area_run sx); [done|]. intros z Hz.
    destruct (decide (z = sx)) as [->|]; [done|]. eapply inv_open, Hop; [done|lia].
  - intros Hs. destruct (decide (rx = sx)) as [->|]; [|lia]. exfalso. apply Hno2. by apply Hsame.
  - split; [done|]. intros Ho. apply Hno2, Hsame; [lia|done].
Qed.

(** After a turn of the main loop the points that were put on the stack take the place of
    the one that was taken off. *)
Lemma span_step_inv img img' sx y stack lx rx new1 new2 :
  fill_inv img ((sx, y) :: stack) -> lx <= sx <= rx -> painted (span lx rx y) color img img' ->
  (forall x, lx <= x < rx -> open img x y /\ area0 x y) -> (open img sx y -> sx < rx) ->
  ~ open img (lx - 1) y -> ~ open img rx y ->
  Forall (fun s => snd s = y + 1 /\ lx <= fst s < rx /\ open img' (fst s) (y + 1)) new1 ->
  Forall (fun s => snd s = y - 1 /\ lx <= fst s < rx /\ open img' (fst s) (y - 1)) new2 ->
  (forall q, lx <= q < rx -> open img' q (y + 1) -> covered areaColor img' new1 q (y + 1)) ->
  (forall q, lx <= q < rx -> open img' q (y - 1) -> covered areaColor img' new2 q (y - 1)) ->
  fill_inv img' (new2 ++ new1 ++ stack).
Proof.
  intros H Hlr Hpa Hspan Hsx Hnl Hnr Hf1 Hf2 Hc1 Hc2.
  pose proof (fun x y => open_painted _ _ Hdiff _ _ _ x y Hpa) as Hopen.
  assert (forall x y', filled img' x y' -> filled img x y' \/ lx <= x < rx /\ y' = y) as Hfilled.
  { intros x y' [Ho Hn]. rewrite Hopen in Hn. destruct (span lx rx y x y') eqn:E; [unfold span in E; right; lia|].
    left. split; [done|]. tauto. }
  assert (forall q y', covered areaColor img ((sx, y) :: stack) q y' -> open img' q y' -> covered areaColor img' stack q y') as Hkeep.
  { intros q y' (s & Hs & Hle & Hz) Ho. pose proof (proj1 (Hopen _ _) Ho) as [Hoq Hout].
    assert (s <= rx <= q -> y' = y -> False) as Hclash by (intros ? ->; by apply Hnr, Hz).
    apply elem_of_cons in Hs as [[= -> ->]|Hs].
    - exfalso. assert (open img sx y) by (apply Hz; lia). specialize (Hsx ltac:(done)).
      unfold span in Hout. destruct (Z.le_gt_cases rx q); [apply Hclash; lia|lia].
    - exists s. split; [done|]. split; [done|]. intros z Hz'. apply Hopen. split; [by apply Hz|].
      unfold span in *. destruct (decide (y' = y)); [|lia]. destruct (Z.le_gt_cases rx q); [|lia].
      destruct (Z.lt_ge_cases rx s); [lia|]. exfalso. apply Hclash; [lia|done]. }
  assert (forall x y1, lx <= x < rx -> Z.abs (y - y1) = 1 -> open img' x y1 -> open img0 x y1 /\ area0 x y1) as Hnext.
  { intros x y1 Hx Hy Ho. assert (open img0 x y1) as Ho' by (eapply inv_open; [exact H|apply Hopen, Ho]).
    split; [done|]. eapply rtc_r; [apply (Hspan x Hx)|]. split; [right; cbn; lia|done]. }
  split.
  - rewrite (pa_width _ _ _ _ Hpa). apply H.
  - rewrite (pa_height _ _ _ _ Hpa). apply H.
  - apply Hpa.
  - intros x y' Hp. assert (within img x y') as Hp' by (unfold within; rewrite (fi_width _ _ H), (fi_height _ _ H); exact Hp).
    rewrite (pa_pixel _ _ _ _ Hpa) by done. destruct (span lx rx y x y') eqn:E; [|by apply H].
    right. assert (lx <= x < rx /\ y' = y) as [Hx ->] by (unfold span in E; lia).
    destruct (Hspan x Hx) as [Ho Ha]. split; [by eapply inv_open|done].
  - apply Forall_app. split; [|apply Forall_app; split].
    + eapply Forall_impl; [exact Hf2|]. intros [x y1]. cbn. intros (-> & Hx & Ho). destruct (Hnext x (y - 1)); [done|lia|done|done].
    + eapply Forall_impl; [exact Hf1|]. intros [x y1]. cbn. intros (-> & Hx & Ho). destruct (Hnext x (y + 1)); [done|lia|done|done].
    + by pose proof (fi_stack _ _ H) as [_ Hst]%Forall_cons.
  - intros x x' y' [Hf|[Hx ->]]%Hfilled Hn [Ho Hout]%Hopen; [by eapply (fi_row _ _ H)|].
    unfold span in Hout. assert (x' = lx - 1 \/ x' = rx) as [-> | ->] by lia; done.
  - intros x y1 y' Hf Hn Ho. apply Hfilled in Hf as [Hf|[Hx ->]].
    + do 2 apply covered_app. apply Hkeep; [|done]. apply (fi_column _ _ H x y1); [done|done|by apply Hopen].
    + assert (y' = y + 1 \/ y' = y - 1) as [-> | ->] by lia.
      * apply covered_app. destruct (Hc1 x) as (s & Hs & Hz); [done|done|]. exists s. split; [apply elem_of_app; by left|done].
      * destruct (Hc2 x) as (s & Hs & Hz); [done|done|]. exists s. split; [apply elem_of_app; by left|done].
  - intros Ho. do 2 apply covered_app. apply Hkeep; [|done]. apply (fi_seed _ _ H). by apply Hopen.
Qed.

Lemma span_loop_fills fuel : forall img stack,
  fill_inv img stack -> zlen stack + 2 * left_over areaColor img <= Z.of_nat fuel ->
  exists img', span_loop fuel img areaColor color stack = Ok img' /\ fill_inv img' [].
Proof.
  induction fuel as [|fuel IH]; intros img stack H Hf.
  { destruct stack as [|p stack]; [by exists img|]. exfalso. rewrite zlen_cons in Hf. pose proof (zlen_nonneg stack).
    unfold left_over in Hf. pose proof (zlen_nonneg (filter (fun p => p = areaColor) (pixelData img))). lia. }
  destruct stack as [|[sx y] stack]; [by exists img|]. cbn [span_loop].
  destruct (span_step img sx y stack H) as (img1 & img' & lx & rx & -> & -> & Hlr & Hpa & Hspan & Hsx & [Hnl Hnr] & Hl).
  pose proof (fi_stack _ _ H) as [[_ [[_ Hy] _]] _]%Forall_cons. cbn in Hy.
  pose proof (io_height _ (fi_ok _ _ H)) as Hh. rewrite (fi_height _ _ H) in Hh. pose proof (pa_ok _ _ _ _ Hpa) as Hok.
  rewrite s32_ok by lia. destruct (scan_spec areaColor img' lx rx (y + 1) stack Hok) as (new1 & -> & Hl1 & Hf1 & Hc1); [lia|].
  rewrite s32_ok by lia. destruct (scan_spec areaColor img' lx rx (y - 1) (new1 ++ stack) Hok) as (new2 & -> & Hl2 & Hf2 & Hc2); [lia|].
  apply IH; [by eapply span_step_inv|]. rewrite !zlen_app. rewrite zlen_cons in Hf. lia.
Qed.

Lemma fill_inv_start : image_ok img0 -> open img0 (fst seed) (snd seed) -> fill_inv img0 [seed].
Proof.
  intros Hi Ho. split; [done|done|done|by left| | | |].
  - constructor; [|constructor]. destruct seed. by split; [apply rtc_refl|].
  - by intros x x' y [? ?].
  - by intros x y y' [? ?].
  - intros _. exists (fst seed). split; [apply elem_of_cons; left; by destruct seed|]. split; [lia|].
    intros z Hz. by replace z with (fst seed) by lia.
Qed.

(** When nothing is left on the stack the whole area has been filled. *)
Lemma fill_inv_end img p : fill_inv img [] -> open img0 (fst seed) (snd seed) -> area areaColor img0 seed p ->
  filled img (fst p) (snd p).
Proof.
  intros H Hs Hp. assert (forall x y, open img0 x y -> (open img x y -> False) -> filled img x y) as Hfill.
  { intros x y ? ?. by split. }
  assert (forall x y, ~ covered areaColor img [] x y) as Hnone by (by intros x y (? & ?%elem_of_nil & _)).
  revert p Hp. apply (rtc_ind_r (fun p => filled img (fst p) (snd p))).
  - apply Hfill; [done|]. intros Ho. by eapply Hnone, (fi_seed _ _ H).
  - intros p q Hp [Hn Ho] IH. apply Hfill; [done|]. intros Ho'. destruct p as [px py], q as [qx qy]. cbn in *. destruct Hn as [[E Hn]|[E Hn]]; cbn in E, Hn; subst.
    + by eapply (fi_row _ _ H).
    + by eapply Hnone, (fi_column _ _ H).
Qed.
End Area.

(** C11.  Filling: a click with the left button on a point of the image ends, and gives
    the chosen colour to exactly the points that are connected with the point clicked
    through neighbours of its colour; all other pixels stay as they are. *)
Theorem fill_correct img x y color :
  image_ok img -> within img x y ->
  exists img', fill_mousePressEvent true img (x, y) color = Ok img' /\
    iwidth img' = iwidth img /\ iheight img' = iheight img /\
    forall x' y', within img x' y' ->
      (area (pixel img x y) img (x, y) (x', y') -> pixel img' x' y' = color) /\
      (~ area (pixel img x y) img (x, y) (x', y') -> pixel img' x' y' = pixel img x' y').
Proof.
  intros Hi Hp. cbn. unfold doSpanFilling. cbn [fst snd]. rewrite get_pixel_ok by done.
  assert (forall x' y', area (pixel img x y) img (x, y) (x', y') -> pixel img x' y' = pixel img x y) as Hsame.
  { intros x' y' H. destruct (rtc_inv_r _ _ H) as [[= <- <-]|(p & _ & [_ Ho])]; [done|apply Ho]. }
  destruct (Z.eqb_spec (pixel img x y) color) as [E|E].
  { exists img. split; [done|]. split; [done|]. split; [done|]. intros x' y' _. split; [|done].
    intros H. by rewrite (Hsame _ _ H). }
  assert (open (pixel img x y) img x y) as Ho by done.
  destruct (span_loop_fills (pixel img x y) color E img (x, y) (S (2 * length (pixelData img))) img [(x, y)]) as (img' & -> & H).
  { by apply fill_inv_start. }
  { change (zlen [(x, y)]) with 1. unfold left_over, zlen. pose proof (length_filter (fun p => p = pixel img x y) (pixelData img)). lia. }
  exists img'. split; [done|]. split; [apply H|]. split; [apply H|]. intros x' y' Hp'. split.
  - intros Ha. destruct (fill_inv_end _ _ _ _ _ (x', y') H Ho Ha) as [_ Hf]. cbn [fst snd] in Hf.
    destruct (fi_pixel _ _ _ _ _ _ H x' y' Hp') as [E'|(_ & _ & E')]; [|done]. exfalso. apply Hf. split.
    + unfold within in *. by rewrite (fi_width _ _ _ _ _ _ H), (fi_height _ _ _ _ _ _ H).
    + by rewrite E', (Hsame _ _ Ha).
  - intros Ha. by destruct (fi_pixel _ _ _ _ _ _ H x' y' Hp') as [E'|(_ & ? & _)].
Qed.

(** ** Lines *)

(** The steps across when [i] steps along the line have been made, of [M] in all with [m]
    across: the ideal line is the one of the step before, rounded to the nearest point. *)
Definition lag (m M i : Z) : Z := (2 * m * (i - 1) + M - 1) / (2 * M).

Lemma lag_range m M i : 0 <= m <= M -> 1 <= i <= M -> 0 <= lag m M i <= m.
Proof.
  intros Hm Hi. unfold lag. split; [apply Z.div_pos; nia|].
  assert (2 * m * (i - 1) + M - 1 < 2 * M * (m + 1)) as H by nia.
  apply Z.div_lt_upper_bound in H; lia.
Qed.

(** The error stands for the distance from the ideal line. *)
Definition error (m M i j : Z) : Z := - M - 2 * m + 2 * m * i - 2 * M * j.

Lemma lag_one m M : 0 < M -> lag m M 1 = 0.
Proof. intros HM. unfold lag. apply Z.div_small. lia. Qed.

Lemma lag_step m M i j :
  0 <= m <= M -> 0 < M -> i = 0 /\ j = 0 \/ 1 <= i /\ j = lag m M i ->
  - 2 * M <= error m M i j + 2 * m <= 2 * M /\
  lag m M (i + 1) = if 0 <? error m M i j + 2 * m then j + 1 else j.
Proof.
  intros Hm HM [[-> ->]|[Hi Hj]].
  - rewrite lag_one by done. unfold error. destruct (Z.ltb_spec 0 (- M - 2 * m + 2 * m * 0 - 2 * M * 0 + 2 * m)); lia.
  - pose proof (Z.div_mod (2 * m * (i - 1) + M - 1) (2 * M) ltac:(lia)) as Hd.
    pose proof (Z.mod_pos_bound (2 * m * (i - 1) + M - 1) (2 * M) ltac:(lia)) as Hr.
    fold (lag m M i) in Hd. rewrite <- Hj in Hd. revert Hd Hr. generalize ((2 * m * (i - 1) + M - 1) mod (2 * M)). intros r Hd Hr.
    unfold error. split; [nia|]. destruct (Z.ltb_spec 0 (- M - 2 * m + 2 * m * i - 2 * M * j + 2 * m)) as [He|He]; unfold lag; symmetry.
    + apply (Z.div_unique _ _ _ (2 * m * (i + 1 - 1) + M - 1 - 2 * M * (j + 1))); [left; nia|nia].
    + apply (Z.div_unique _ _ _ (2 * m * (i + 1 - 1) + M - 1 - 2 * M * j)); [left; nia|nia].
Qed.

Section Line.
Context (color width : Z) (Hwidth : 0 < width < 2 ^ 31).

(** The brush: [c] is the coordinate across the line of a point, [mid] the one of the
    point of the line. *)
Definition brush (mid c : Z) : bool := (mid - Z.quot width 2 <=? c) && (c <? mid - Z.quot width 2 + width).

Lemma setcolor_spec img x y : image_ok img -> exists img', setcolor img x y color = Ok img' /\ painted (at_point x y) color img img'.
Proof.
  intros Hi. unfold setcolor. destruct (contains_spec img x y) as [Hp|Hp].
  - destruct (set_pixel_ok img x y color Hi Hp) as (img' & ? & ? & _). by exists img'.
  - exists img. split; [done|]. split; [done|done|done|]. intros x' y' Hp'. unfold at_point.
    destruct (Z.eqb_spec x' x) as [->|]; destruct (Z.eqb_spec y' y) as [->|]; done.
Qed.

Lemma half_width : 0 <= Z.quot width 2 <= 2 ^ 30 /\ width - Z.quot width 2 <= 2 ^ 30.
Proof. pose proof (Z.quot_rem width 2 ltac:(lia)). pose proof (Z.rem_bound_pos width 2 ltac:(lia) ltac:(lia)). lia. Qed.

Lemma thickness_loop_spec n : forall steep img x y i,
  image_ok img -> within img x y -> 0 <= i -> i + Z.of_nat n <= width ->
  exists img', thickness_loop n steep img x y (Z.quot width 2) i color = Ok img' /\
    painted (fun x' y' => let mid := (if steep then x else y) - Z.quot width 2 + i in
      if steep then (y' =? y) && (mid <=? x') && (x' <? mid + Z.of_nat n)
      else (x' =? x) && (mid <=? y') && (y' <? mid + Z.of_nat n)) color img img'.
Proof.
  induction n as [|n IH]; intros steep img x y i Hi Hp H0 Hn; cbn [thickness_loop].
  { exists img. split; [done|]. apply painted_refl; [done|]. intros x' y'. cbv beta zeta. destruct steep; zcase; lia. }
  pose proof half_width as Hh. pose proof (io_width _ Hi) as Hiw. pose proof (io_height _ Hi) as Hih. pose proof Hp as [Hpx Hpy].
  rewrite s32_ok by (destruct steep; cbv iota; lia). rewrite s32_ok by (destruct steep; cbv iota; lia).
  destruct (setcolor_spec img (if steep then x - Z.quot width 2 + i else x) (if steep then y else y - Z.quot width 2 + i) Hi) as (img1 & E & H1).
  assert ((if steep then setcolor img ((if steep then x else y) - Z.quot width 2 + i) y color
           else setcolor img x ((if steep then x else y) - Z.quot width 2 + i) color) = Ok img1) as -> by (by destruct steep).
  destruct (IH steep img1 x y (i + 1)) as (img' & -> & H2); [apply H1|by apply (painted_within _ _ _ _ _ _ H1)|lia|lia|].
  exists img'. split; [done|]. eapply painted_trans; [exact H1|exact H2|]. intros x' y'. unfold at_point. cbv beta zeta. destruct steep; zcase; lia.
Qed.

(** The points of a flat line from [a] behind the step [i]. *)
Definition flat_points (ax ay sx sy m M i x y : Z) : bool :=
  let k := sx * (x - ax) in (i <? k) && (k <=? M) && brush (ay + sy * lag m M k) y.

Definition steep_points (ax ay sx sy m M i x y : Z) : bool :=
  let k := sy * (y - ay) in (i <? k) && (k <=? M) && brush (ax + sx * lag m M k) x.

Definition sign (s : Z) : Prop := s = 1 \/ s = -1.

Lemma flat_loop_spec n : forall img ax ay sx sy m M i j,
  image_ok img -> sign sx -> sign sy -> 0 <= m <= M -> 0 < M < 2 ^ 28 -> i + Z.of_nat n = M ->
  within img ax ay -> within img (ax + sx * M) (ay + sy * m) ->
  i = 0 /\ j = 0 \/ 1 <= i /\ j = lag m M i ->
  exists img', flat_loop n img (ax + sx * i) (ay + sy * j) (error m M i j) M m sx sy color width = Ok img' /\
    painted (flat_points ax ay sx sy m M i) color img img'.
Proof.
  induction n as [|n IH]; intros img ax ay sx sy m M i j Hi Hsx Hsy Hm HM Hn Ha Hb Hj; cbn [flat_loop].
  { exists img. split; [done|]. apply painted_refl; [done|]. intros x' y'. unfold flat_points. lia. }
  destruct (lag_step m M i j Hm ltac:(lia) Hj) as [Hbound Hlag].
  rewrite s32_ok by lia. set (j' := lag m M (i + 1)) in *.
  assert ((if 0 <? error m M i j + 2 * m then let* err := s32 (error m M i j + 2 * m - 2 * M) in Ok (err, ay + sy * j + sy)
           else Ok (error m M i j + 2 * m, ay + sy * j)) = Ok (error m M (i + 1) j', ay + sy * j')) as ->.
  { rewrite Hlag. destruct (0 <? _); [rewrite s32_ok by lia|]; f_equal; f_equal; unfold error; lia. }
  pose proof (lag_range m M (i + 1) Hm ltac:(lia)) as Hr. fold j' in Hr.
  replace (ax + sx * i + sx) with (ax + sx * (i + 1)) by lia.
  assert (within img (ax + sx * (i + 1)) (ay + sy * j')) as Hp.
  { destruct Ha, Hb. split; destruct Hsx as [-> | ->], Hsy as [-> | ->]; lia. }
  destruct (thickness_loop_spec (Z.to_nat width) false img _ _ 0 Hi Hp) as (img1 & -> & H1); [lia|lia|].
  pose proof (fun x y => painted_within _ _ _ _ x y H1) as Hw.
  destruct (IH img1 ax ay sx sy m M (i + 1) j') as (img' & -> & H2); [apply H1|done|done|done|lia|lia|by apply Hw|by apply Hw|right; split; [lia|done]|].
  exists img'. split; [done|]. eapply painted_trans; [exact H1|exact H2|]. intros x' y'. cbn beta zeta.
  unfold flat_points. set (k := sx * (x' - ax)).
  destruct (Z.eqb_spec x' (ax + sx * (i + 1))) as [E|E].
  - assert (k = i + 1) as -> by (unfold k; destruct Hsx as [-> | ->]; lia). fold j'. unfold brush. zcase; lia.
  - assert (k <> i + 1) by (unfold k; destruct Hsx as [-> | ->]; lia). destruct (brush _ _); zcase; cbn [andb orb]; lia.
Qed.

Lemma steep_loop_spec n : forall img ax ay sx sy m M i j,
  image_ok img -> sign sx -> sign sy -> 0 <= m <= M -> 0 < M < 2 ^ 28 -> i + Z.of_nat n = M ->
  within img ax ay -> within img (ax + sx * m) (ay + sy * M) ->
  i = 0 /\ j = 0 \/ 1 <= i /\ j = lag m M i ->
  exists img', steep_loop n img (ax + sx * j) (ay + sy * i) (error m M i j) m M sx sy color width = Ok img' /\
    painted (steep_points ax ay sx sy m M i) color img img'.
Proof.
  induction n as [|n IH]; intros img ax ay sx sy m M i j Hi Hsx Hsy Hm HM Hn Ha Hb Hj; cbn [steep_loop].
  { exists img. split; [done|]. apply painted_refl; [done|]. intros x' y'. unfold steep_points. lia. }
  destruct (lag_step m M i j Hm ltac:(lia) Hj) as [Hbound Hlag].
  rewrite s32_ok by lia. set (j' := lag m M (i + 1)) in *.
  assert ((if 0 <? error m M i j + 2 * m then let* err := s32 (error m M i j + 2 * m - 2 * M) in Ok (err, ax + sx * j + sx)
           else Ok (error m M i j + 2 * m, ax + sx * j)) = Ok (error m M (i + 1) j', ax + sx * j')) as ->.
  { rewrite Hlag. destruct (0 <? _); [rewrite s32_ok by lia|]; f_equal; f_equal; unfold error; lia. }
  pose proof (lag_range m M (i + 1) Hm ltac:(lia)) as Hr. fold j' in Hr.
  replace (ay + sy * i + sy) with (ay + sy * (i + 1)) by lia.
  assert (within img (ax + sx * j') (ay + sy * (i + 1))) as Hp.
  { destruct Ha, Hb. split; destruct Hsx as [-> | ->], Hsy as [-> | ->]; lia. }
  destruct (thickness_loop_spec (Z.to_nat width) true img _ _ 0 Hi Hp) as (img1 & -> & H1); [lia|lia|].
  pose proof (fun x y => painted_within _ _ _ _ x y H1) as Hw.
  destruct (IH img1 ax ay sx sy m M (i + 1) j') as (img' & -> & H2); [apply H1|done|done|done|lia|lia|by apply Hw|by apply Hw|right; split; [lia|done]|].
  exists img'. split; [done|]. eapply painted_trans; [exact H1|exact H2|]. intros x' y'. cbn beta zeta.
  unfold steep_points. set (k := sy * (y' - ay)).
  destruct (Z.eqb_spec y' (ay + sy * (i + 1))) as [E|E].
  - assert (k = i + 1) as -> by (unfold k; destruct Hsy as [-> | ->]; lia). fold j'. unfold brush. zcase; lia.
  - assert (k <> i + 1) by (unfold k; destruct Hsy as [-> | ->]; lia). destruct (brush _ _); zcase; cbn [andb orb]; lia.
Qed.
End Line.

(** The points that a line gets: for a flat one, in the column [k] steps from the start,
    those that the brush covers around the rounded ideal line of the column before. *)
Definition line_points (a b : Z * Z) (width x y : Z) : bool :=
  let dx := Z.abs (fst b - fst a) in
  let dy := Z.abs (snd b - snd a) in
  let sx := if fst a <? fst b then 1 else -1 in
  let sy := if snd a <? snd b then 1 else -1 in
  if dy <? dx then flat_points width (fst a) (snd a) sx sy dy dx 0 x y
  else steep_points width (fst a) (snd a) sx sy dx dy 0 x y.

Lemma step_sign (c : bool) : sign (if c then 1 else -1).
Proof. destruct c; [by left|by right]. Qed.

Lemma step_end p q : p + (if p <? q then 1 else -1) * Z.abs (q - p) = q.
Proof. destruct (Z.ltb_spec p q); lia. Qed.

Lemma brush_one mid c : brush 1 mid c = (c =? mid).
Proof. unfold brush. change (1 ÷ 2) with 0. destruct (Z.eqb_spec c mid); zcase; lia. Qed.

(** The line is complete at its end only when it is less than half as high as wide. *)
Lemma lag_end m M : 0 <= m <= M -> 0 < M -> lag m M M = m <-> 2 * m < M.
Proof.
  intros Hm HM. unfold lag. pose proof (Z.div_mod (2 * m * (M - 1) + M - 1) (2 * M) ltac:(lia)) as Hd.
  pose proof (Z.mod_pos_bound (2 * m * (M - 1) + M - 1) (2 * M) ltac:(lia)) as Hr. split; [intros E; rewrite E in Hd; nia|].
  intros Hlt. symmetry. apply (Z.div_unique _ _ _ (M - 1 - 2 * m)); [left; lia|lia].
Qed.

Lemma line_start a b : line_points a b 1 (fst a) (snd a) = false.
Proof.
  unfold line_points, flat_points, steep_points. rewrite !Z.sub_diag, !Z.mul_0_r.
  by destruct (_ <? _).
Qed.

Lemma line_end a b :
  a <> b ->
  let dx := Z.abs (fst b - fst a) in let dy := Z.abs (snd b - snd a) in
  line_points a b 1 (fst b) (snd b) = true <-> 2 * Z.min dx dy < Z.max dx dy.
Proof.
  intros Hab dx dy. assert (0 < dx \/ 0 < dy) as Hpos.
  { destruct a as [ax ay], b as [bx by']. cbn in *. destruct (decide (ax = bx)), (decide (ay = by')); subst; [done|lia|lia|lia]. }
  unfold line_points. fold dx dy. destruct (Z.ltb_spec dy dx) as [Hlt|Hge].
  - rewrite Z.min_r, Z.max_l by lia. unfold flat_points.
    assert ((if fst a <? fst b then 1 else -1) * (fst b - fst a) = dx) as -> by (unfold dx; destruct (Z.ltb_spec (fst a) (fst b)); lia).
    rewrite brush_one, <- (lag_end dy dx) by lia. destruct (Z.ltb_spec 0 dx), (Z.leb_spec dx dx); [|lia..]. cbn [andb].
    rewrite Z.eqb_eq. rewrite <- (step_end (snd a) (snd b)) at 1. fold dy. destruct (snd a <? snd b); lia.
  - rewrite Z.min_l, Z.max_r by lia. unfold steep_points.
    assert ((if snd a <? snd b then 1 else -1) * (snd b - snd a) = dy) as -> by (unfold dy; destruct (Z.ltb_spec (snd a) (snd b)); lia).
    rewrite brush_one, <- (lag_end dx dy) by lia. destruct (Z.ltb_spec 0 dy), (Z.leb_spec dy dy); [|lia..]. cbn [andb].
    rewrite Z.eqb_eq. rewrite <- (step_end (fst a) (fst b)) at 1. fold dx. destruct (fst a <? fst b); lia.
Qed.

(** Drawing a line between two points of an image ends, without overflow, and
    changes exactly the points of [line_points], for any width.  A line of width 1 never
    has its first point, and its last point exactly when it is less than half as high
    as wide or the other way round: because the error starts one step too low every
    point is one step late. *)
Theorem draw_correct img a b color width :
  image_ok img -> within img (fst a) (snd a) -> within img (fst b) (snd b) -> 0 < width < 2 ^ 31 ->
  (exists img', Draw img a b color width = Ok img' /\ painted (line_points a b width) color img img') /\
  line_points a b 1 (fst a) (snd a) = false /\
  (a <> b -> let dx := Z.abs (fst b - fst a) in let dy := Z.abs (snd b - snd a) in
    line_points a b 1 (fst b) (snd b) = true <-> 2 * Z.min dx dy < Z.max dx dy).
Proof.
  intros Hi Ha Hb Hw. split; [|split; [apply line_start|apply line_end]].
  unfold Draw. destruct (contains_spec img (fst a) (snd a)) as [_|]; [|done]. destruct (contains_spec img (fst b) (snd b)) as [_|]; [|done].
  cbn [andb assert]. destruct (Z.ltb_spec 0 width); [|lia]. cbn [assert].
  pose proof (io_width _ Hi) as Hiw. pose proof (io_height _ Hi) as Hih. pose proof Ha as [Hax Hay]. pose proof Hb as [Hbx Hby].
  rewrite !s32_ok by lia. unfold line_points. set (sx := if fst a <? fst b then 1 else -1). set (sy := if snd a <? snd b then 1 else -1).
  assert (fst a + sx * Z.abs (fst b - fst a) = fst b) as Ex by apply step_end.
  assert (snd a + sy * Z.abs (snd b - snd a) = snd b) as Ey by apply step_end.
  assert (sign sx /\ sign sy) as [Hsx Hsy] by (split; apply step_sign).
  set (dx := Z.abs (fst b - fst a)) in *. set (dy := Z.abs (snd b - snd a)) in *.
  assert (0 <= dx < 2 ^ 28 /\ 0 <= dy < 2 ^ 28) as [Hdx Hdy] by (unfold dx, dy; lia).
  destruct (Z.ltb_spec dy dx) as [Hlt|Hge].
  - destruct (flat_loop_spec color width Hw (Z.to_nat dx) img (fst a) (snd a) sx sy dy dx 0 0) as (img' & E & Hp);
      [done|done|done|lia|lia|lia|done|by rewrite Ex, Ey|by left|].
    exists img'. split; [|done]. rewrite !Z.mul_0_r, !Z.add_0_r in E. rewrite <- E. f_equal. unfold error. lia.
  - destruct (decide (dy = 0)) as [E0|Hn].
    + rewrite E0. exists img. split; [done|]. apply painted_refl; [done|]. intros x y. unfold steep_points. zcase; lia.
    + destruct (steep_loop_spec color width Hw (Z.to_nat dy) img (fst a) (snd a) sx sy dx dy 0 0) as (img' & E & Hp);
        [done|done|done|lia|lia|lia|done|by rewrite Ex, Ey|by left|].
      exists img'. split; [|done]. rewrite !Z.mul_0_r, !Z.add_0_r in E. rewrite <- E. f_equal. unfold error. lia.
Qed.

Definition small_image : image := mkImage 3 3 [1; 1; 2; 1; 2; 2; 2; 2; 1].

Lemma small_image_ok : image_ok small_image.
Proof. split; cbn; [lia|lia|done|lia]. Qed.

Lemma fill_correct_witness :
  exists img', fill_mousePressEvent true small_image (0, 0) 7 = Ok img' /\ pixelData img' = [7; 7; 2; 7; 2; 2; 2; 2; 1] /\
    (area 1 small_image (0, 0) (0, 1) -> pixel img' 0 1 = 7).
Proof.
  assert (within small_image 0 0) as Hp by (split; cbn; lia).
  assert (within small_image 0 1) as Hq by (split; cbn; lia).
  destruct (fill_correct small_image 0 0 7 small_image_ok Hp) as (img' & E & _ & _ & H).
  exists img'. split; [exact E|]. split; [|exact (proj1 (H 0 1 Hq))].
  vm_compute in E. by injection E as <-.
Defined.

Lemma draw_correct_witness :
  (exists img', Draw small_image (0, 0) (2, 2) 7 1 = Ok img' /\ pixelData img' = [1; 1; 2; 7; 2; 2; 2; 7; 1]) /\
  line_points (0, 0) (2, 2) 1 2 2 = false.
Proof.
  assert (within small_image 0 0) as Hp by (split; cbn; lia).
  assert (within small_image 2 2) as Hq by (split; cbn; lia).
  destruct (draw_correct small_image (0, 0) (2, 2) 7 1 small_image_ok Hp Hq) as ((img' & E & _) & _ & H); [lia|].
  split; [|done]. exists img'. split; [exact E|]. vm_compute in E. by injection E as <-.
Defined.
