(* ===== verification/LedMatrix.v ===== *)
(** * microcontrollers/matrix.c: two balls on a panel of LED matrices

    The program keeps a picture of 32 by 16 points in the bytes of [display], one row of 8
    points of one of 8 matrices in each, moves two balls as the bytes from the serial line
    say, and sends the picture to the chain of drivers after each of them.  What is sent
    on the bus is a list: the changes of the chip-select pin and the bytes between them.
    Waiting for the bus and the set-up of the ports are left out; receiving takes the next
    byte of a list. *)
From Stdlib Require Import Ascii.
From S2P Require Import Prelude.
#[local] Set Warnings "-clear-no-such-hyp".

(** ** The picture *)

Definition NUM_DEVICES : Z := 8.
Definition INTENSITY : Z := 2.

Definition matrix_index (x y : Z) : Z := if y / 8 =? 0 then x / 8 else u8 (7 - x / 8).
Definition local_x (x y : Z) : Z := if y / 8 =? 0 then u8 (7 - x mod 8) else x mod 8.
Definition local_y (y : Z) : Z := if y / 8 =? 0 then u8 (7 - y mod 8) else y mod 8.

(** The arguments are converted to [uint8_t]. *)
Definition max7219_set_pixel (display : list (list Z)) (x y on : Z) : res (list (list Z)) :=
  let x := u8 x in let y := u8 y in let on := u8 on in
  if (32 <=? x) || (16 <=? y) then Ok display
  else
    let bit := Z.shiftl 1 (7 - local_x x y) in
    let* old := mat_get display (matrix_index x y) (local_y y) in
    mat_set display (matrix_index x y) (local_y y)
      (u8 (if negb (on =? 0) then Z.lor old bit else Z.land old (Z.lnot bit))).

(** [for (; y < n; ++y) max7219_set_pixel(x, y, on)], and the same along a row; [n] is the
    number of turns. *)
Fixpoint column_loop (n : nat) (display : list (list Z)) (x y on : Z) : res (list (list Z)) :=
  match n with
  | O => Ok display
  | S n => let* display := max7219_set_pixel display x y on in column_loop n display x (y + 1) on
  end.

Fixpoint row_loop (n : nat) (display : list (list Z)) (x y on : Z) : res (list (list Z)) :=
  match n with
  | O => Ok display
  | S n => let* display := max7219_set_pixel display x y on in row_loop n display (x + 1) y on
  end.

Fixpoint clear_loop (n : nat) (display : list (list Z)) (x : Z) : res (list (list Z)) :=
  match n with
  | O => Ok display
  | S n => let* display := column_loop 15 display x 0 0 in clear_loop n display (x + 1)
  end.

Definition max7219_clear (display : list (list Z)) : res (list (list Z)) := clear_loop 31 display 0.

Definition draw_border (d : list (list Z)) : res (list (list Z)) :=
  let* d := row_loop 30 d 1 1 1 in
  let* d := column_loop 14 d 30 1 1 in
  let* d := row_loop 30 d 1 14 1 in
  let* d := column_loop 14 d 1 1 1 in
  let* d := max7219_set_pixel d 0 0 1 in
  let* d := max7219_set_pixel d 31 0 1 in
  let* d := max7219_set_pixel d 0 15 1 in
  max7219_set_pixel d 31 15 1.

Definition draw_ball (d : list (list Z)) (x y : Z) : res (list (list Z)) :=
  let* d := max7219_set_pixel d x y 1 in
  let* d := max7219_set_pixel d (x + 1) (y - 1) 1 in
  let* d := max7219_set_pixel d (x + 1) y 1 in
  let* d := max7219_set_pixel d (x + 1) (y + 1) 1 in
  let* d := max7219_set_pixel d (x - 1) (y + 1) 1 in
  let* d := max7219_set_pixel d (x - 1) y 1 in
  let* d := max7219_set_pixel d (x - 1) (y - 1) 1 in
  let* d := max7219_set_pixel d x (y + 1) 1 in
  max7219_set_pixel d x (y - 1) 1.

(** ** The bus *)

Inductive bus := Select | Release | Byte (b : Z).

Fixpoint send_all_loop (n : nat) (address data : Z) : list bus :=
  match n with
  | O => []
  | S n => Byte address :: Byte data :: send_all_loop n address data
  end.

Definition max7219_send_all (address data : Z) : list bus :=
  Select :: send_all_loop (Z.to_nat NUM_DEVICES) address data ++ [Release].

Definition max7219_init : list bus :=
  max7219_send_all 0x0F 0x00 ++ max7219_send_all 0x0C 0x01 ++ max7219_send_all 0x0B 0x07 ++
  max7219_send_all 0x0A INTENSITY ++ max7219_send_all 0x09 0x00.

Fixpoint refresh_row (n : nat) (display : list (list Z)) (i row : Z) : res (list bus) :=
  match n with
  | O => Ok []
  | S n =>
      let* b := mat_get display (NUM_DEVICES - 1 - i) row in
      let* rest := refresh_row n display (i + 1) row in
      Ok (Byte (u8 (row + 1)) :: Byte b :: rest)
  end.

Fixpoint refresh_loop (n : nat) (display : list (list Z)) (row : Z) : res (list bus) :=
  match n with
  | O => Ok []
  | S n =>
      let* bytes := refresh_row (Z.to_nat NUM_DEVICES) display 0 row in
      let* rest := refresh_loop n display (row + 1) in
      Ok (Select :: bytes ++ Release :: rest)
  end.

Definition max7219_refresh (display : list (list Z)) : res (list bus) := refresh_loop 8 display 0.

(** ** The program *)

Record state := mkState {
  display : list (list Z);
  ball1_x : Z; ball1_y : Z;
  ball2_x : Z; ball2_y : Z;
  sent : list bus
}.

(** The picture is drawn and sent. *)
Definition redraw (s : state) : res state :=
  let* d := max7219_clear (display s) in
  let* d := draw_border d in
  let* d := draw_ball d (ball1_x s) (ball1_y s) in
  let* d := draw_ball d (ball2_x s) (ball2_y s) in
  let* out := max7219_refresh d in
  Ok (mkState d (ball1_x s) (ball1_y s) (ball2_x s) (ball2_y s) (sent s ++ out)).

Definition ch (c : Ascii.ascii) : Z := Z.of_N (Ascii.N_of_ascii c).

(** A coordinate that one byte moves down and another up. *)
Definition moved (cmd : Z) (down up : Z) (lo hi c : Z) : Z :=
  let c := if (cmd =? down) && (lo <? c) then u8 (c - 1) else c in
  if (cmd =? up) && (c <? hi) then u8 (c + 1) else c.

Definition command (s : state) (cmd : Z) : res state :=
  redraw (mkState (display s)
    (moved cmd (ch "L"%char) (ch "R"%char) 3 28 (ball1_x s)) (moved cmd (ch "F"%char) (ch "B"%char) 3 12 (ball1_y s))
    (moved cmd (ch "S"%char) (ch "C"%char) 3 28 (ball2_x s)) (moved cmd (ch "T"%char) (ch "X"%char) 3 12 (ball2_y s)) (sent s)).

Fixpoint commands (s : state) (input : list Z) : res state :=
  match input with
  | [] => Ok s
  | cmd :: input => let* s := command s cmd in commands s input
  end.

(** [display] is zero at the start; the state when the program waits for a byte that does
    not come. *)
Definition main (input : list Z) : res state :=
  let* s := redraw (mkState (replicate 8 (replicate 8 0)) 4 4 27 11 max7219_init) in
  commands s input.

(** ** Points *)

Definition panel (x y : Z) : Prop := 0 <= x < 32 /\ 0 <= y < 16.

(** Whether a point of the picture is on. *)
Definition lit (d : list (list Z)) (x y : Z) : bool := Z.testbit (znth (znth d (matrix_index x y)) (local_y y)) (7 - local_x x y).

Record display_ok (d : list (list Z)) : Prop := {
  do_matrices : zlen d = 8;
  do_rows : forall u, 0 <= u < 8 -> zlen (znth d u) = 8;
  do_bytes : forall u v, 0 <= u < 8 -> 0 <= v < 8 -> 0 <= znth (znth d u) v < 2 ^ 8
}.

(** The place of a point, without the conversions. *)
Lemma place x y :
  panel x y ->
  matrix_index x y = (if y <? 8 then x / 8 else 7 - x / 8) /\ local_y y = (if y <? 8 then 7 - y mod 8 else y mod 8) /\
  7 - local_x x y = (if y <? 8 then x mod 8 else 7 - x mod 8).
Proof.
  intros [Hx Hy]. unfold matrix_index, local_x, local_y. rewrite !u8_small by (Z.div_mod_to_equations; lia).
  destruct (Z.ltb_spec y 8), (Z.eqb_spec (y / 8) 0); try (exfalso; Z.div_mod_to_equations; lia); lia.
Qed.

Lemma place_range x y :
  panel x y -> 0 <= matrix_index x y < 8 /\ 0 <= local_y y < 8 /\ 0 <= 7 - local_x x y < 8.
Proof.
  intros Hp. destruct (place x y Hp) as (-> & -> & ->). destruct Hp. destruct (y <? 8); Z.div_mod_to_equations; lia.
Qed.

Lemma place_injective x y x' y' :
  panel x y -> panel x' y' -> matrix_index x y = matrix_index x' y' -> local_y y = local_y y' ->
  7 - local_x x y = 7 - local_x x' y' -> x = x' /\ y = y'.
Proof.
  intros Hp Hp'. destruct (place x y Hp) as (-> & -> & ->), (place x' y' Hp') as (-> & -> & ->). destruct Hp, Hp'.
  destruct (Z.ltb_spec y 8), (Z.ltb_spec y' 8); Z.div_mod_to_equations; lia.
Qed.

(** A bit is set or cleared in a byte. *)
Lemma byte_bits old k b (on : bool) :
  0 <= old < 2 ^ 8 -> 0 <= k < 8 -> 0 <= b < 8 ->
  Z.testbit (u8 (if on then Z.lor old (Z.shiftl 1 k) else Z.land old (Z.lnot (Z.shiftl 1 k)))) b =
  if b =? k then on else Z.testbit old b.
Proof.
  intros Ho Hk Hb. unfold u8. rewrite Z.mod_pow2_bits_low by lia.
  assert (Z.testbit (Z.shiftl 1 k) b = (b =? k)) as E.
  { rewrite Z.shiftl_spec by lia. destruct (Z.eqb_spec b k) as [->|Hne]; [by rewrite Z.sub_diag|].
    destruct (Z.lt_ge_cases b k); [by apply Z.testbit_neg_r; lia|]. apply (Z.bits_above_log2 1); [done|cbn; lia]. }
  destruct on; [rewrite Z.lor_spec, E|rewrite Z.land_spec, Z.lnot_spec, E by lia]; destruct (b =? k), (Z.testbit old b); done.
Qed.

(** A picture that differs from another at the points of [P], where it is on or off. *)
Record redrawn (P : Z -> Z -> bool) (on : bool) (d d' : list (list Z)) : Prop := {
  rd_ok : display_ok d';
  rd_lit : forall x y, panel x y -> lit d' x y = if P x y then on else lit d x y
}.

Lemma redrawn_refl P on d : display_ok d -> (forall x y, P x y = false) -> redrawn P on d d.
Proof. intros Hd HP. split; [done|]. intros x y _. by rewrite HP. Qed.

Lemma redrawn_trans P Q R on d1 d2 d3 :
  redrawn P on d1 d2 -> redrawn Q on d2 d3 -> (forall x y, R x y = P x y || Q x y) -> redrawn R on d1 d3.
Proof.
  intros [_ H1] [Hd H2] HR. split; [done|]. intros x y Hp. rewrite H2, H1, HR by done. by destruct (P x y), (Q x y).
Qed.

Definition point (px py x y : Z) : bool := (x =? px) && (y =? py).

Lemma set_pixel_redraws d x y (on : bool) :
  display_ok d -> 0 <= x < 256 -> 0 <= y < 256 ->
  exists d', max7219_set_pixel d x y (Z.b2z on) = Ok d' /\ redrawn (point x y) on d d'.
Proof.
  intros Hd Hx Hy. unfold max7219_set_pixel. rewrite !u8_small by (destruct on; cbn; lia).
  destruct (Z.leb_spec 32 x) as [Hout|Hx']; [|destruct (Z.leb_spec 16 y) as [Hout|Hy']]; cbn [orb];
    try (exists d; split; [done|]; split; [done|]; intros x' y' [? ?]; unfold point; zcase; lia || done).
  assert (panel x y) as Hp by (split; lia). destruct (place_range x y Hp) as (Hm & Hl & Hk).
  destruct Hd as [Hd1 Hd2 Hd3]. rewrite (mat_get_ok d 8 8) by done.
  set (k := 7 - local_x x y) in *. set (old := znth (znth d (matrix_index x y)) (local_y y)).
  assert (negb (Z.b2z on =? 0) = on) as -> by (by destruct on).
  set (new := u8 _). destruct (mat_set_ok d 8 8 (matrix_index x y) (local_y y) new Hd1 Hd2 Hm Hl) as (d' & -> & H1 & H2 & H3).
  exists d'. split; [done|]. split.
  - split; [done|done|]. intros u v Hu Hv. rewrite H3 by done. destruct (_ && _); [|by apply Hd3].
    unfold new, u8. apply Z.mod_pos_bound. lia.
  - intros x' y' Hp'. destruct (place_range x' y' Hp') as (Hm' & Hl' & Hk'). unfold lit. rewrite H3 by done. unfold point.
    destruct (Z.eqb_spec (matrix_index x y) (matrix_index x' y')) as [Em|Em]; cbn [andb].
    2: { destruct (Z.eqb_spec x' x) as [->|]; [|done]. destruct (Z.eqb_spec y' y) as [->|]; done. }
    destruct (Z.eqb_spec (local_y y) (local_y y')) as [El|El].
    2: { destruct (Z.eqb_spec x' x) as [->|]; [|done]. destruct (Z.eqb_spec y' y) as [->|]; done. }
    unfold new. rewrite byte_bits by (done || apply Hd3; done). unfold old. rewrite Em, El.
    destruct (Z.eqb_spec (7 - local_x x' y') k) as [Ek|Ek].
    + destruct (place_injective x y x' y') as [-> ->]; [done|done|done|done|done|]. by rewrite !Z.eqb_refl.
    + destruct (Z.eqb_spec x' x) as [->|]; [|done]. destruct (Z.eqb_spec y' y) as [->|]; done.
Qed.

(** ** The parts of the picture *)

Lemma column_redraws n : forall d x y (on : bool),
  display_ok d -> 0 <= x < 256 -> 0 <= y -> y + Z.of_nat n <= 256 ->
  exists d', column_loop n d x y (Z.b2z on) = Ok d' /\
    redrawn (fun x' y' => (x' =? x) && (y <=? y') && (y' <? y + Z.of_nat n)) on d d'.
Proof.
  induction n as [|n IH]; intros d x y on Hd Hx Hy Hn; cbn [column_loop].
  { exists d. split; [done|]. apply redrawn_refl; [done|]. intros x' y'. zcase; lia. }
  destruct (set_pixel_redraws d x y on Hd Hx ltac:(lia)) as (d1 & -> & H1).
  destruct (IH d1 x (y + 1) on) as (d' & -> & H2); [apply H1|done|lia|lia|].
  exists d'. split; [done|]. eapply redrawn_trans; [exact H1|exact H2|]. intros x' y'. unfold point. zcase; lia.
Qed.

Lemma row_redraws n : forall d x y (on : bool),
  display_ok d -> 0 <= y < 256 -> 0 <= x -> x + Z.of_nat n <= 256 ->
  exists d', row_loop n d x y (Z.b2z on) = Ok d' /\
    redrawn (fun x' y' => (y' =? y) && (x <=? x') && (x' <? x + Z.of_nat n)) on d d'.
Proof.
  induction n as [|n IH]; intros d x y on Hd Hy Hx Hn; cbn [row_loop].
  { exists d. split; [done|]. apply redrawn_refl; [done|]. intros x' y'. zcase; lia. }
  destruct (set_pixel_redraws d x y on Hd ltac:(lia) Hy) as (d1 & -> & H1).
  destruct (IH d1 (x + 1) y on) as (d' & -> & H2); [apply H1|done|lia|lia|].
  exists d'. split; [done|]. eapply redrawn_trans; [exact H1|exact H2|]. intros x' y'. unfold point. zcase; lia.
Qed.

Lemma clear_redraws n : forall d x,
  display_ok d -> 0 <= x -> x + Z.of_nat n <= 256 ->
  exists d', clear_loop n d x = Ok d' /\
    redrawn (fun x' y' => (0 <=? y') && (y' <? 15) && (x <=? x') && (x' <? x + Z.of_nat n)) false d d'.
Proof.
  induction n as [|n IH]; intros d x Hd Hx Hn; cbn [clear_loop].
  { exists d. split; [done|]. apply redrawn_refl; [done|]. intros x' y'. zcase; lia. }
  destruct (column_redraws 15 d x 0 false Hd) as (d1 & E & H1); [lia|lia|lia|]. cbn [Z.b2z] in E. rewrite E.
  destruct (IH d1 (x + 1)) as (d' & -> & H2); [apply H1|lia|lia|].
  exists d'. split; [done|]. eapply redrawn_trans; [exact H1|exact H2|]. intros x' y'. zcase; lia.
Qed.

(** A sequence of drawing steps, each of which switches the points of its own predicate on. *)
Definition draws (f : list (list Z) -> res (list (list Z))) (P : Z -> Z -> bool) : Prop :=
  forall d, display_ok d -> exists d', f d = Ok d' /\ redrawn P true d d'.

Lemma draws_seq f g P Q :
  draws f P -> draws g Q -> draws (fun d => let* d := f d in g d) (fun x y => P x y || Q x y).
Proof.
  intros Hf Hg d Hd. destruct (Hf d Hd) as (d1 & -> & H1). destruct (Hg d1) as (d2 & -> & H2); [apply H1|].
  exists d2. split; [done|]. by eapply redrawn_trans.
Qed.

Lemma draws_ext f P Q : draws f P -> (forall x y, P x y = Q x y) -> draws f Q.
Proof.
  intros Hf E d Hd. destruct (Hf d Hd) as (d' & ? & [? H]). exists d'. split; [done|]. split; [done|].
  intros x y Hp. by rewrite <- E, H.
Qed.

Lemma draws_point x y : 0 <= x < 256 -> 0 <= y < 256 -> draws (fun d => max7219_set_pixel d x y 1) (point x y).
Proof. intros Hx Hy d Hd. exact (set_pixel_redraws d x y true Hd Hx Hy). Qed.

Lemma draws_row n x y :
  0 <= y < 256 -> 0 <= x -> x + Z.of_nat n <= 256 ->
  draws (fun d => row_loop n d x y 1) (fun x' y' => (y' =? y) && (x <=? x') && (x' <? x + Z.of_nat n)).
Proof. intros Hy Hx Hn d Hd. exact (row_redraws n d x y true Hd Hy Hx Hn). Qed.

Lemma draws_column n x y :
  0 <= x < 256 -> 0 <= y -> y + Z.of_nat n <= 256 ->
  draws (fun d => column_loop n d x y 1) (fun x' y' => (x' =? x) && (y <=? y') && (y' <? y + Z.of_nat n)).
Proof. intros Hy Hx Hn d Hd. exact (column_redraws n d x y true Hd Hy Hx Hn). Qed.

(** The frame of the field and the four corners, and a ball. *)
Definition corner (x y : Z) : bool := ((x =? 0) || (x =? 31)) && ((y =? 0) || (y =? 15)).

Definition border (x y : Z) : bool :=
  (1 <=? x) && (x <=? 30) && (1 <=? y) && (y <=? 14) && ((x =? 1) || (x =? 30) || (y =? 1) || (y =? 14)) || corner x y.

Definition ball (bx b_y x y : Z) : bool := (Z.abs (x - bx) <=? 1) && (Z.abs (y - b_y) <=? 1).

Lemma draw_border_draws : draws draw_border border.
Proof.
  eapply draws_ext.
  - apply (draws_seq (fun d => row_loop 30 d 1 1 1)); [apply draws_row; lia|].
    apply (draws_seq (fun d => column_loop 14 d 30 1 1)); [apply draws_column; lia|].
    apply (draws_seq (fun d => row_loop 30 d 1 14 1)); [apply draws_row; lia|].
    apply (draws_seq (fun d => column_loop 14 d 1 1 1)); [apply draws_column; lia|].
    do 3 (apply (draws_seq (fun d => max7219_set_pixel d _ _ 1)); [apply draws_point; lia|]). apply draws_point; lia.
  - intros x y. unfold border, corner, point. cbn [Z.of_nat Pos.of_succ_nat Pos.succ]. zcase; lia.
Qed.

Lemma draw_ball_draws bx b_y : 1 <= bx <= 254 -> 1 <= b_y <= 254 -> draws (fun d => draw_ball d bx b_y) (ball bx b_y).
Proof.
  intros Hx Hy. eapply draws_ext.
  - do 8 (apply (draws_seq (fun d => max7219_set_pixel d _ _ 1)); [apply draws_point; lia|]). apply draws_point; lia.
  - intros x y. unfold ball, point.
    destruct (Z.leb_spec (Z.abs (x - bx)) 1), (Z.leb_spec (Z.abs (y - b_y)) 1); cbn [andb]; lia.
Qed.

(** ** What the panel shows

    By the data sheet of the drivers: the bytes are shifted through the chain, two to a
    driver, and when the pin is released each driver stores its last byte in the register
    with the number in the low half of the byte before.  The shift register of the whole
    chain is a list whose head came last, the registers are a list for each driver. *)
Definition clock_in (shift : list Z) (b : Z) : list Z := take 16 (b :: shift).

Definition latch (shift : list Z) (regs : list (list Z)) : list (list Z) :=
  imap (fun j r => zset r (Z.land (znth shift (2 * Z.of_nat j + 1)) 15) (znth shift (2 * Z.of_nat j))) regs.

Fixpoint chain (shift : list Z) (regs : list (list Z)) (es : list bus) : list Z * list (list Z) :=
  match es with
  | [] => (shift, regs)
  | Select :: es => chain shift regs es
  | Byte b :: es => chain (clock_in shift b) regs es
  | Release :: es => chain shift (latch shift regs) es
  end.

(** The point of the panel that the wiring puts at the same place as in [display]. *)
Definition shown (regs : list (list Z)) (x y : Z) : bool :=
  Z.testbit (znth (znth regs (matrix_index x y)) (local_y y + 1)) (7 - local_x x y).

Definition regs_ok (regs : list (list Z)) : Prop := zlen regs = 8 /\ forall j, 0 <= j < 8 -> zlen (znth regs j) = 16.

Lemma chain_app es : forall shift regs fs,
  chain shift regs (es ++ fs) = let '(shift, regs) := chain shift regs es in chain shift regs fs.
Proof. induction es as [|[| |b] es IH]; intros shift regs fs; cbn; [done|apply IH..]. Qed.

Lemma latch_znth shift regs j :
  zlen regs = 8 -> 0 <= j < 8 -> znth (latch shift regs) j = zset (znth regs j) (Z.land (znth shift (2 * j + 1)) 15) (znth shift (2 * j)).
Proof.
  intros Hl Hj. unfold znth at 1, latch. unfold zlen in Hl. apply list_lookup_total_correct. rewrite list_lookup_imap.
  rewrite (list_lookup_lookup_total_lt regs) by lia. cbn. by rewrite Z2Nat.id by lia.
Qed.

Lemma latch_ok shift regs : regs_ok regs -> regs_ok (latch shift regs).
Proof.
  intros [Hl Hr]. split; [unfold zlen, latch; by rewrite length_imap|]. intros j Hj. rewrite latch_znth by done.
  rewrite zlen_zset. by apply Hr.
Qed.

(** One frame: each driver gets its byte in the register with the given number. *)
Definition frame (address : Z) (bs : list Z) : list bus := Select :: flat_map (fun b => [Byte address; Byte b]) (rev bs) ++ [Release].

Lemma chain_latches shift regs address bs :
  regs_ok regs -> 0 <= address < 16 -> zlen bs = 8 ->
  exists shift' regs', chain shift regs (frame address bs) = (shift', regs') /\ regs_ok regs' /\
    forall j a, 0 <= j < 8 -> 0 <= a < 16 -> znth (znth regs' j) a = if a =? address then znth bs j else znth (znth regs j) a.
Proof.
  intros Hr Ha Hb. destruct bs as [|b0 [|b1 [|b2 [|b3 [|b4 [|b5 [|b6 [|b7 [|? ?]]]]]]]]]; try done;
    [|unfold zlen in Hb; cbn in Hb; lia].
  do 2 eexists. split; [reflexivity|]. split; [by apply latch_ok|].
  intros j a Hj Ha'. rewrite latch_znth by (apply Hr || done).
  assert (Z.land address 15 = address) as Hland.
  { change 15 with (Z.ones 4). rewrite Z.land_ones by lia. by apply Z.mod_small. }
  assert (j = 0 \/ j = 1 \/ j = 2 \/ j = 3 \/ j = 4 \/ j = 5 \/ j = 6 \/ j = 7) as Hcases by lia.
  destruct Hr as [_ Hr]. pose proof (Hr j Hj) as Hlen.
  assert (forall u v, u = address -> v = znth [b0; b1; b2; b3; b4; b5; b6; b7] j ->
    znth (zset (znth regs j) (Z.land u 15) v) a = if a =? address then znth [b0; b1; b2; b3; b4; b5; b6; b7] j else znth (znth regs j) a) as H.
  { intros u v -> ->. rewrite Hland, znth_zset by lia. by rewrite Z.eqb_sym. }
  by destruct Hcases as [-> |[-> |[-> |[-> |[-> |[-> |[-> | ->]]]]]]]; apply H.
Qed.

(** ** Refreshing *)

(** The byte of each driver for a row. *)
Definition row_bytes (d : list (list Z)) (row : Z) : list Z :=
  [znth (znth d 0) row; znth (znth d 1) row; znth (znth d 2) row; znth (znth d 3) row;
   znth (znth d 4) row; znth (znth d 5) row; znth (znth d 6) row; znth (znth d 7) row].

Lemma row_bytes_znth d row j : 0 <= j < 8 -> znth (row_bytes d row) j = znth (znth d j) row.
Proof.
  intros Hj. assert (j = 0 \/ j = 1 \/ j = 2 \/ j = 3 \/ j = 4 \/ j = 5 \/ j = 6 \/ j = 7) as H by lia.
  by destruct H as [-> |[-> |[-> |[-> |[-> |[-> |[-> | ->]]]]]]].
Qed.

Lemma refresh_row_frame d row :
  display_ok d -> 0 <= row < 8 ->
  exists bytes, refresh_row 8 d 0 row = Ok bytes /\ Select :: bytes ++ [Release] = frame (row + 1) (row_bytes d row).
Proof.
  intros [H1 H2 _] Hr. eexists. split.
  - cbn [refresh_row]. rewrite !(mat_get_ok d 8 8) by (done || unfold NUM_DEVICES; lia). reflexivity.
  - rewrite u8_small by lia. reflexivity.
Qed.

Lemma refresh_loop_shows n : forall d row shift regs,
  display_ok d -> regs_ok regs -> 0 <= row -> row + Z.of_nat n <= 8 ->
  exists out shift' regs', refresh_loop n d row = Ok out /\ chain shift regs out = (shift', regs') /\ regs_ok regs' /\
    forall j a, 0 <= j < 8 -> 0 <= a < 16 ->
      znth (znth regs' j) a = if (row <? a) && (a <=? row + Z.of_nat n) then znth (znth d j) (a - 1) else znth (znth regs j) a.
Proof.
  induction n as [|n IH]; intros d row shift regs Hd Hr H0 Hn; cbn [refresh_loop].
  { exists [], shift, regs. split; [done|]. split; [done|]. split; [done|]. intros j a Hj Ha. destruct (_ && _) eqn:E; [|done].
    exfalso. apply andb_true_iff in E as [?%Z.ltb_lt ?%Z.leb_le]. lia. }
  destruct (refresh_row_frame d row Hd ltac:(lia)) as (bytes & E & Hframe). change (Z.to_nat NUM_DEVICES) with 8%nat. rewrite E.
  destruct (chain_latches shift regs (row + 1) (row_bytes d row) Hr ltac:(lia) eq_refl) as (shift1 & regs1 & Ec & Hr1 & H1).
  destruct (IH d (row + 1) shift1 regs1 Hd Hr1 ltac:(lia) ltac:(lia)) as (out & shift' & regs' & -> & Eo & Hr' & H2).
  do 3 eexists. split; [done|].
  assert (Select :: bytes ++ Release :: out = frame (row + 1) (row_bytes d row) ++ out) as ->.
  { rewrite <- Hframe. cbn. by rewrite <- app_assoc. }
  rewrite chain_app, Ec. split; [exact Eo|]. split; [done|]. intros j a Hj Ha. rewrite H2, H1, row_bytes_znth by done.
  destruct (Z.eqb_spec a (row + 1)) as [->|].
  - replace (row + 1 - 1) with row by lia. zcase; (lia || done).
  - zcase; (lia || done).
Qed.

(** ** The program *)

Definition picture (s : state) (x y : Z) : bool :=
  border x y || ball (ball1_x s) (ball1_y s) x y || ball (ball2_x s) (ball2_y s) x y.

(** The balls stay inside the frame. *)
Definition inside_field (x y : Z) : Prop := 3 <= x <= 28 /\ 3 <= y <= 12.

(** No decoding, the chosen brightness, all rows, normal operation, no test. *)
Definition configured (regs : list (list Z)) : Prop := forall j, 0 <= j < 8 ->
  znth (znth regs j) 9 = 0 /\ znth (znth regs j) 10 = INTENSITY /\ znth (znth regs j) 11 = 7 /\
  znth (znth regs j) 12 = 1 /\ znth (znth regs j) 15 = 0.

Section Program.
Context (shift0 : list Z) (regs0 : list (list Z)) (Hregs : regs_ok regs0).

(** Points of the last column and the last row, which are never cleared, are on only in
    the corners. *)
Record state_ok (s : state) : Prop := {
  so_display : display_ok (display s);
  so_edges : forall x y, panel x y -> x = 31 \/ y = 15 -> lit (display s) x y = true -> corner x y = true;
  so_ball1 : inside_field (ball1_x s) (ball1_y s);
  so_ball2 : inside_field (ball2_x s) (ball2_y s);
  so_config : let regs := snd (chain shift0 regs0 (sent s)) in regs_ok regs /\ configured regs
}.

Definition shows_picture (s : state) : Prop :=
  forall x y, panel x y -> shown (snd (chain shift0 regs0 (sent s))) x y = picture s x y.

Lemma redraw_shows s :
  state_ok s ->
  exists s', redraw s = Ok s' /\ state_ok s' /\ shows_picture s' /\
    ball1_x s' = ball1_x s /\ ball1_y s' = ball1_y s /\ ball2_x s' = ball2_x s /\ ball2_y s' = ball2_y s.
Proof.
  intros [Hd He [H1x H1y] [H2x H2y] [Hr Hc]]. unfold redraw, max7219_clear, max7219_refresh.
  destruct (clear_redraws 31 (display s) 0 Hd) as (d1 & -> & Hd1); [lia|lia|].
  destruct (draw_border_draws d1 (rd_ok _ _ _ _ Hd1)) as (d2 & -> & Hd2).
  destruct (draw_ball_draws (ball1_x s) (ball1_y s) ltac:(lia) ltac:(lia) d2 (rd_ok _ _ _ _ Hd2)) as (d3 & -> & Hd3).
  destruct (draw_ball_draws (ball2_x s) (ball2_y s) ltac:(lia) ltac:(lia) d3 (rd_ok _ _ _ _ Hd3)) as (d4 & -> & Hd4).
  assert (forall x y, panel x y -> lit d4 x y = picture s x y) as Hlit.
  { intros x y Hp. rewrite (rd_lit _ _ _ _ Hd4), (rd_lit _ _ _ _ Hd3), (rd_lit _ _ _ _ Hd2), (rd_lit _ _ _ _ Hd1) by done. unfold picture.
    destruct (ball (ball2_x s) (ball2_y s) x y), (ball (ball1_x s) (ball1_y s) x y); rewrite ?orb_true_r; [done|done|done|].
    rewrite !orb_false_r. destruct (border x y) eqn:Eb; [done|]. cbn [Z.of_nat Pos.of_succ_nat Pos.succ].
    destruct (_ && _) eqn:E; [done|]. destruct (lit (display s) x y) eqn:El; [|done]. exfalso.
    unfold border in Eb. apply orb_false_iff in Eb as [_ Eb]. rewrite He in Eb; [done|done| |done]. destruct Hp. zcase_in E; (lia || done). }
  destruct (chain shift0 regs0 (sent s)) as [shift regs] eqn:Echain. cbn [snd] in Hr, Hc.
  destruct (refresh_loop_shows 8 d4 0 shift regs (rd_ok _ _ _ _ Hd4) Hr) as (out & shift' & regs' & -> & Eo & Hr' & Hregs'); [lia|lia|].
  eexists. split; [done|]. split; [split; cbn [display ball1_x ball1_y ball2_x ball2_y sent]|split; [|done]].
  - apply Hd4.
  - intros x y Hp Hxy Hl. rewrite Hlit in Hl by done. revert Hl. unfold picture, border, ball. destruct Hp.
    destruct (corner x y); [done|]. lia.
  - by split.
  - by split.
  - rewrite chain_app, Echain, Eo. cbn [snd]. split; [done|]. intros j Hj. rewrite !Hregs' by lia. by apply Hc.
  - intros x y Hp. cbn [sent]. rewrite chain_app, Echain, Eo. cbn [snd]. unfold shown.
    destruct (place_range x y Hp) as (Hm & Hl & _). rewrite Hregs' by lia.
    destruct (Z.ltb_spec 0 (local_y y + 1)), (Z.leb_spec (local_y y + 1) (0 + Z.of_nat 8)); [|lia..]. cbn [andb].
    replace (local_y y + 1 - 1) with (local_y y) by lia. change (lit d4 x y = picture s x y). by apply Hlit.
Qed.

(** A coordinate moves by one, but not out of its limits. *)
Definition step_coordinate (down up lo hi c cmd : Z) : Z :=
  if cmd =? down then Z.max lo (c - 1) else if cmd =? up then Z.min hi (c + 1) else c.

Lemma moved_step cmd down up lo hi c :
  down <> up -> lo <= c <= hi -> 0 <= lo -> hi < 255 -> moved cmd down up lo hi c = step_coordinate down up lo hi c cmd.
Proof.
  intros Hne Hc Hlo Hhi. unfold moved, step_coordinate. cbv zeta.
  destruct (Z.eqb_spec cmd down), (Z.eqb_spec cmd up); cbn [andb]; [congruence| | |done].
  - destruct (Z.ltb_spec lo c); [rewrite u8_small by lia; lia|lia].
  - destruct (Z.ltb_spec c hi); [rewrite u8_small by lia; lia|lia].
Qed.

Lemma step_coordinate_range down up lo hi c cmd : lo <= c <= hi -> lo <= step_coordinate down up lo hi c cmd <= hi.
Proof. intros Hc. unfold step_coordinate. destruct (_ =? _); [lia|]. destruct (_ =? _); lia. Qed.

(** Where the balls are after the commands, by the limits alone. *)
Definition balls_at (s : state) (b1x b1y b2x b2y : Z) (input : list Z) : Prop :=
  ball1_x s = foldl (step_coordinate (ch "L"%char) (ch "R"%char) 3 28) b1x input /\
  ball1_y s = foldl (step_coordinate (ch "F"%char) (ch "B"%char) 3 12) b1y input /\
  ball2_x s = foldl (step_coordinate (ch "S"%char) (ch "C"%char) 3 28) b2x input /\
  ball2_y s = foldl (step_coordinate (ch "T"%char) (ch "X"%char) 3 12) b2y input.

Lemma commands_show input : forall s,
  state_ok s -> shows_picture s ->
  exists s', commands s input = Ok s' /\ state_ok s' /\ shows_picture s' /\
    balls_at s' (ball1_x s) (ball1_y s) (ball2_x s) (ball2_y s) input.
Proof.
  induction input as [|cmd input IH]; intros s Hs Hshow; [by exists s|]. cbn [commands]. unfold command.
  destruct Hs as [Hd He [H1x H1y] [H2x H2y] Hc].
  rewrite !moved_step by (done || lia). set (s1 := mkState _ _ _ _ _ _).
  destruct (redraw_shows s1) as (s2 & -> & Hs2 & Hshow2 & E1 & E2 & E3 & E4).
  { split; [done|done| | |done]; (split; cbn; by apply step_coordinate_range). }
  destruct (IH s2 Hs2 Hshow2) as (s' & -> & Hs' & Hshow' & Hb). exists s'. split; [done|]. split; [done|]. split; [done|].
  unfold balls_at in *. rewrite E1, E2, E3, E4 in Hb. exact Hb.
Qed.

Lemma send_all_frame address data : max7219_send_all address data = frame address (replicate 8 data).
Proof. reflexivity. Qed.

Lemma init_configures : let regs := snd (chain shift0 regs0 max7219_init) in regs_ok regs /\ configured regs.
Proof.
  unfold max7219_init. rewrite !send_all_frame, !chain_app.
  destruct (chain_latches shift0 regs0 0x0F (replicate 8 0)) as (sh1 & r1 & -> & Hr1 & H1); [done|lia|done|].
  rewrite !chain_app. destruct (chain_latches sh1 r1 0x0C (replicate 8 1)) as (sh2 & r2 & -> & Hr2 & H2); [done|lia|done|].
  rewrite !chain_app. destruct (chain_latches sh2 r2 0x0B (replicate 8 7)) as (sh3 & r3 & -> & Hr3 & H3); [done|lia|done|].
  rewrite !chain_app. destruct (chain_latches sh3 r3 0x0A (replicate 8 INTENSITY)) as (sh4 & r4 & -> & Hr4 & H4); [done|lia|done|].
  destruct (chain_latches sh4 r4 0x09 (replicate 8 0)) as (sh5 & r5 & -> & Hr5 & H5); [done|lia|done|].
  cbn [snd]. split; [done|]. intros j Hj. rewrite !H5, !H4, !H3, !H2, !H1 by lia. cbn [Z.eqb Pos.eqb].
  assert (forall v : Z, znth (replicate 8 v) j = v) as Hrep.
  { intros v. unfold znth. apply list_lookup_total_correct, lookup_replicate. split; [done|lia]. }
  by rewrite !Hrep.
Qed.
End Program.

(** C23.  Whatever bytes arrive, and whatever the drivers held before, the program reaches
    the point where it waits for the next one, with the drivers configured and the panel
    showing exactly the frame, the corners and the two balls, each where its commands have
    taken it from its start within its limits.  (The last row and the last column are not
    cleared before the picture is drawn again; as nothing but the corners is ever drawn
    there this cannot be seen.) *)
Theorem panel_shows shift regs input :
  regs_ok regs ->
  exists s, main input = Ok s /\ configured (snd (chain shift regs (sent s))) /\
    balls_at s 4 4 27 11 input /\ inside_field (ball1_x s) (ball1_y s) /\ inside_field (ball2_x s) (ball2_y s) /\
    forall x y, panel x y -> shown (snd (chain shift regs (sent s))) x y = picture s x y.
Proof.
  intros Hr. unfold main. set (s0 := mkState _ _ _ _ _ _).
  assert (forall u v, 0 <= u < 8 -> 0 <= v < 8 -> znth (znth (replicate 8 (replicate 8 0)) u) v = 0) as Hz.
  { intros u v Hu Hv. unfold znth. rewrite (list_lookup_total_correct _ _ (replicate 8 0)) by (apply lookup_replicate; split; [done|lia]).
    apply list_lookup_total_correct, lookup_replicate. split; [done|lia]. }
  assert (state_ok shift regs s0) as Hs0.
  { split; cbn [display sent s0 ball1_x ball1_y ball2_x ball2_y].
    - split; [done| |intros u v Hu Hv; rewrite Hz by done; lia]. intros u Hu. unfold znth.
      by rewrite (list_lookup_total_correct _ _ (replicate 8 0)) by (apply lookup_replicate; split; [done|lia]).
    - intros x y Hp _. unfold lit. destruct (place_range x y Hp) as (Hm & Hl & _). rewrite Hz by done. by rewrite Z.testbit_0_l.
    - split; cbn; lia.
    - split; cbn; lia.
    - by apply init_configures. }
  destruct (redraw_shows shift regs s0 Hs0) as (s1 & -> & Hs1 & Hshow1 & E1 & E2 & E3 & E4).
  destruct (commands_show shift regs input s1 Hs1 Hshow1) as (s & -> & Hs & Hshow & Hb).
  exists s. split; [done|]. split; [apply Hs|]. rewrite E1, E2, E3, E4 in Hb. split; [exact Hb|].
  split; [apply Hs|]. split; [apply Hs|exact Hshow].
Qed.

Lemma panel_shows_witness :
  let regs := replicate 8 (replicate 16 255) in
  exists s, main [ch "L"%char; ch "L"%char; ch "X"%char] = Ok s /\ ball1_x s = 3 /\ ball2_y s = 12 /\
    shown (snd (chain [] regs (sent s))) 2 5 = true /\ shown (snd (chain [] regs (sent s))) 31 7 = false.
Proof.
  intros regs. assert (regs_ok regs) as Hr.
  { split; [done|]. intros j Hj. unfold regs, znth.
    by rewrite (list_lookup_total_correct _ _ (replicate 16 255)) by (apply lookup_replicate; split; [done|lia]). }
  destruct (panel_shows [] regs [ch "L"%char; ch "L"%char; ch "X"%char] Hr) as (s & E & _ & (B1 & B2 & B3 & B4) & _ & _ & H).
  cbn in B1, B2, B3, B4. exists s. split; [exact E|]. split; [exact B1|]. split; [exact B4|].
  rewrite !H by (split; lia). unfold picture. rewrite B1, B2, B3, B4. split; reflexivity.
Defined.
