(* ===== verification/Streams.v ===== *)
(** * Numbers and lines in text streams

    What the C++ programs that read and write text use of the streams of the standard
    library: printing numbers in decimal, reading numbers (white space is skipped, a sign
    is accepted, which for an unsigned number negates modulo 2^64, a missing or too large
    number sets the fail bit), and [getline].  Text is
    a list of bytes. *)
From S2P Require Import Prelude.
#[local] Set Warnings "-clear-no-such-hyp".

Definition ch_newline : Z := 10.
Definition ch_space : Z := 32.

Definition is_space (c : Z) : bool := (c =? 32) || ((9 <=? c) && (c <=? 13)).
Definition is_digit (c : Z) : bool := (48 <=? c) && (c <=? 57).

(** The decimal digits of a number; its size bounds their count. *)
Fixpoint digits_loop (fuel : nat) (n : Z) (acc : list Z) : list Z :=
  match fuel with
  | O => acc
  | S fuel => let acc := (48 + n mod 10) :: acc in if n <? 10 then acc else digits_loop fuel (n / 10) acc
  end.

Definition print_size (n : Z) : list Z := digits_loop 20 n [].

Fixpoint skip_space (s : list Z) : list Z :=
  match s with
  | c :: s' => if is_space c then skip_space s' else s
  | [] => []
  end.

(** The value of the digits in front, whether there were any, and the rest. *)
Fixpoint read_number (s : list Z) (acc : Z) (any : bool) : Z * bool * list Z :=
  match s with
  | c :: s' => if is_digit c then read_number s' (acc * 10 + (c - 48)) true else (acc, any, s)
  | [] => (acc, any, [])
  end.

(** [sstream >> n] for a [size_t]; None when the fail bit is set. *)
Definition read_size (s : list Z) : option (Z * list Z) :=
  let s := skip_space s in
  let '(negative, s) :=
    match s with
    | c :: s' => if c =? 45 then (true, s') else if c =? 43 then (false, s') else (false, s)
    | [] => (false, [])
    end in
  let '(n, any, s) := read_number s 0 false in
  if negb any || (UINT64_MAX <? n) then None
  else Some (if (negative : bool) then u64 (- n) else n, s).

(** [sstream >> a >> b] *)
Definition read_two (s : list Z) : option (Z * Z) :=
  match read_size s with
  | None => None
  | Some (a, s) => match read_size s with None => None | Some (b, _) => Some (a, b) end
  end.

(** The lines that [getline] returns one after the other; what follows the last newline
    is a line when it is not empty. *)
Fixpoint lines_loop (s : list Z) (acc : list Z) : list (list Z) :=
  match s with
  | [] => match acc with [] => [] | _ => [rev acc] end
  | c :: s => if c =? ch_newline then rev acc :: lines_loop s [] else lines_loop s (c :: acc)
  end.

Definition lines (s : list Z) : list (list Z) := lines_loop s [].

Fixpoint starts_with (s p : list Z) {struct p} : bool :=
  match p, s with
  | [], _ => true
  | _, [] => false
  | a :: p, b :: s => (a =? b) && starts_with s p
  end.

(** ** Numbers *)

Definition digits (l : list Z) : Prop := Forall (fun c => is_digit c = true) l.

Lemma digits_loop_spec fuel : forall n acc,
  0 <= n < 10 ^ Z.of_nat fuel -> (0 < fuel)%nat ->
  exists D, digits_loop fuel n acc = D ++ acc /\ digits D /\ D <> [] /\
    forall a any rest, read_number (D ++ rest) a any = read_number rest (a * 10 ^ zlen D + n) true.
Proof.
  induction fuel as [|fuel IH]; intros n acc Hn Hf; [lia|]. cbn [digits_loop].
  assert (0 <= n mod 10 < 10) as Hm by (apply Z.mod_pos_bound; lia).
  assert (is_digit (48 + n mod 10) = true) as Hd by (unfold is_digit; zcase; (lia || done)).
  destruct (Z.ltb_spec n 10) as [Hlt|Hge].
  - exists [48 + n mod 10]. split; [done|]. split; [by constructor|]. split; [done|].
    intros a any rest. cbn [app read_number]. rewrite Hd. f_equal. rewrite Z.mod_small by lia.
    change (zlen [48 + n]) with 1. lia.
  - rewrite Nat2Z.inj_succ, Z.pow_succ_r in Hn by lia.
    destruct (IH (n / 10) ((48 + n mod 10) :: acc)) as (D & -> & HD & Hne & Hr).
    { split; [apply Z.div_pos; lia|]. apply Z.div_lt_upper_bound; lia. }
    { destruct fuel; [cbn in Hn; lia|lia]. }
    exists (D ++ [48 + n mod 10]). rewrite <- app_assoc. split; [done|]. split; [apply Forall_app; by split; [|constructor]|].
    split; [by destruct D|]. intros a any rest. rewrite <- app_assoc, Hr. cbn [app read_number]. rewrite Hd. f_equal.
    rewrite zlen_app. change (zlen [48 + n mod 10]) with 1. rewrite Z.pow_add_r by (pose proof (zlen_nonneg D); lia).
    pose proof (Z.div_mod n 10 ltac:(lia)). lia.
Qed.

(** What may follow a number. *)
Definition ends_number (rest : list Z) : Prop := match rest with [] => True | c :: _ => is_digit c = false end.

Lemma print_size_spec n :
  0 <= n < 2 ^ 64 ->
  exists c D, print_size n = c :: D /\ digits (c :: D) /\
    forall rest, ends_number rest -> read_number (print_size n ++ rest) 0 false = (n, true, rest).
Proof.
  intros Hn. destruct (digits_loop_spec 20 n []) as (D & E & HD & Hne & Hr); [change (10 ^ Z.of_nat 20) with 100000000000000000000; lia|lia|].
  unfold print_size. rewrite E, app_nil_r. destruct D as [|c D]; [done|]. exists c, D. split; [done|]. split; [done|].
  intros rest Hrest. rewrite Hr. cbn [Z.mul Z.add]. destruct rest as [|d rest]; [done|]. cbn in Hrest. cbn [read_number]. by rewrite Hrest.
Qed.

Lemma digit_range c : is_digit c = true -> 48 <= c <= 57.
Proof. unfold is_digit. lia. Qed.

Lemma read_print n rest : 0 <= n < 2 ^ 64 -> ends_number rest -> read_size (print_size n ++ rest) = Some (n, rest).
Proof.
  intros Hn Hrest. destruct (print_size_spec n Hn) as (c & D & E & HD & Hr). specialize (Hr rest Hrest). revert Hr.
  unfold read_size. rewrite E. apply Forall_cons in HD as [Hc _]. apply digit_range in Hc. cbn [app skip_space].
  assert (is_space c = false) as -> by (unfold is_space; zcase; (lia || done)).
  destruct (Z.eqb_spec c 45); [lia|]. destruct (Z.eqb_spec c 43); [lia|]. intros Hr. cbn [app] in Hr. rewrite Hr.
  cbn [negb orb]. destruct (Z.ltb_spec UINT64_MAX n); [unfold UINT64_MAX in *; lia|done].
Qed.

Lemma read_two_print a b :
  0 <= a < 2 ^ 64 -> 0 <= b < 2 ^ 64 -> read_two (print_size a ++ [ch_space] ++ print_size b) = Some (a, b).
Proof.
  intros Ha Hb. unfold read_two. rewrite read_print by done.
  assert (read_size ([ch_space] ++ print_size b) = read_size (print_size b)) as -> by done.
  rewrite <- (app_nil_r (print_size b)). by rewrite read_print.
Qed.

(** ** Lines *)

Definition one_line (l : list Z) : Prop := Forall (fun c => c <> ch_newline) l.

Lemma lines_loop_line l : forall acc rest, one_line l -> lines_loop (l ++ ch_newline :: rest) acc = (rev acc ++ l) :: lines rest.
Proof.
  induction l as [|c l IH]; intros acc rest Hl; cbn [app lines_loop].
  - by rewrite Z.eqb_refl, app_nil_r.
  - apply Forall_cons in Hl as [Hc Hl]. destruct (Z.eqb_spec c ch_newline); [done|]. rewrite IH by done. cbn [rev].
    by rewrite <- app_assoc.
Qed.

Lemma lines_line l rest : one_line l -> lines (l ++ ch_newline :: rest) = l :: lines rest.
Proof. intros Hl. unfold lines. by rewrite lines_loop_line. Qed.

Lemma print_size_line n : 0 <= n < 2 ^ 64 -> one_line (print_size n).
Proof.
  intros Hn. destruct (print_size_spec n Hn) as (c & D & -> & HD & _). eapply Forall_impl; [exact HD|]. cbn.
  intros d Hd%digit_range. unfold ch_newline. lia.
Qed.
