(* ===== verification/Life.v ===== *)
(** * C++-Labs/lab_2_game_of_life: the field, the rules and the universe

    [Field.cpp], [Rules.cpp] and [Universe.cpp].  A [std::vector] is a list and access with
    [operator[]] outside it undefined, a [std::bitset<9>] a list of 9 flags, strings are
    lists of bytes, [size_t] has 64 bits.  A function that may throw returns a sum of the
    exception and its result.  The columns of a step are computed one after the other:
    the parallel loop has each column computed by one thread, from a field that none of
    them changes. *)
From S2P Require Import Prelude.
#[local] Set Warnings "-clear-no-such-hyp".

(** ** Exceptions *)

Inductive parse_error := NoSeparator | BadSize | BadCell | CellBeforeSize.

Inductive exn :=
  | InvalidArgument
  | RuntimeError (why : parse_error)
  | ParseError (line : list Z) (why : parse_error)
  | CannotOpen.

Definition may_throw (A : Type) : Type := res (exn + A).

Notation "'try*' x ':=' e 'in' k" :=
  (match e with Ok (inr x) => k | Ok (inl t) => Ok (inl t) | Err f => Err f end)
  (at level 10, x name, e at level 200, k at level 200) : cmodel_scope.

(** ** Field.cpp *)

Record Field := mkField { field_data : list (list bool); width : Z; height : Z }.

(** [Field()] *)
Definition Field_zero : Field := mkField [] 0 0.

Definition validateSize (size : Z) : exn + Z := if size <? 3 then inl InvalidArgument else inr size.

(** [vector::resize] *)
Definition vec_resize {A : Type} (l : list A) (n : Z) (d : A) : list A := take (Z.to_nat n) l ++ replicate (Z.to_nat n - length l) d.

Definition Field_new (w h : Z) : exn + Field :=
  match validateSize w, validateSize h with
  | inr w, inr h => inr (mkField (replicate (Z.to_nat w) (replicate (Z.to_nat h) false)) w h)
  | inl e, _ | _, inl e => inl e
  end.

(** [Field(matrix)]; the width is the number of columns, the height the length of the
    first one, and without a first one undefined. *)
Definition Field_of (matrix : list (list bool)) : may_throw Field :=
  match validateSize (zlen matrix) with
  | inl e => Ok (inl e)
  | inr w =>
      let* first := arr_get matrix 0 in
      match validateSize (zlen first) with
      | inl e => Ok (inl e)
      | inr h => Ok (inr (mkField matrix w h))
      end
  end.

Definition field_get (f : Field) (x y : Z) : res bool := mat_get (field_data f) x y.

Definition field_set (f : Field) (x y : Z) (v : bool) : res Field :=
  let* d := mat_set (field_data f) x y v in Ok (mkField d (width f) (height f)).

(** A width of 0 makes the remainder undefined. *)
Definition getNeighboursCount (f : Field) (x y : Z) : res Z :=
  if (width f =? 0) || (height f =? 0) then Err Undefined
  else
    let leftColumn := u64 (x + width f - 1) mod width f in
    let rightColumn := u64 (x + 1) mod width f in
    let topRow := u64 (y + height f - 1) mod height f in
    let bottomRow := u64 (y + 1) mod height f in
    let* c1 := field_get f leftColumn topRow in
    let* c2 := field_get f leftColumn y in
    let* c3 := field_get f leftColumn bottomRow in
    let* c4 := field_get f x topRow in
    let* c5 := field_get f x bottomRow in
    let* c6 := field_get f rightColumn topRow in
    let* c7 := field_get f rightColumn y in
    let* c8 := field_get f rightColumn bottomRow in
    Ok (u8 (Z.b2z c1 + Z.b2z c2 + Z.b2z c3 + Z.b2z c4 + Z.b2z c5 + Z.b2z c6 + Z.b2z c7 + Z.b2z c8)).

Definition Field_eqb (lhs rhs : Field) : bool := bool_decide (field_data lhs = field_data rhs).

(** What an exception leaves behind is not looked at any more. *)
Definition Field_resize (f : Field) (w h : Z) : exn + Field :=
  match validateSize w, validateSize h with
  | inr w, inr h => inr (mkField ((fun col => vec_resize col h false) <$> vec_resize (field_data f) w []) w h)
  | inl e, _ | _, inl e => inl e
  end.

(** ** Rules.cpp *)

Record Rules := mkRules { neighbours_to_born : list bool; neighbours_to_survive : list bool }.

Definition no_flags : list bool := replicate 9 false.

Fixpoint set_flags (ns : list Z) (flags : list bool) : res (list bool) :=
  match ns with
  | [] => Ok flags
  | i :: ns => let* flags := arr_set flags i true in set_flags ns flags
  end.

Definition Rules_of (born survive : list Z) : res Rules :=
  let* b := set_flags born no_flags in
  let* s := set_flags survive no_flags in
  Ok (mkRules b s).

Definition canBorn (r : Rules) (n : Z) : res bool := arr_get (neighbours_to_born r) n.
Definition canSurvive (r : Rules) (n : Z) : res bool := arr_get (neighbours_to_survive r) n.

Definition ch_slash : Z := 47.
Definition ch_0 : Z := 48.
Definition ch_B : Z := 66.
Definition ch_S : Z := 83.

(** The function that is called for each character. *)
Fixpoint read_flags (s : list Z) (flags : list bool) : res (list bool) :=
  match s with
  | [] => Ok flags
  | c :: s =>
      if (ch_0 <=? c) && (c <=? ch_0 + 9) && (c <=? ch_0 + 8) then
        let* flags := arr_set flags (c - ch_0) true in read_flags s flags
      else read_flags s flags
  end.

(** The part before the first separator, and the part from it on. *)
Fixpoint find_slash (s : list Z) : option (list Z * list Z) :=
  match s with
  | [] => None
  | c :: s' =>
      if c =? ch_slash then Some ([], s)
      else match find_slash s' with Some (l, r) => Some (c :: l, r) | None => None end
  end.

Definition FromMCellNotation (notation : list Z) : may_throw Rules :=
  match find_slash notation with
  | None => Ok (inl (RuntimeError NoSeparator))
  | Some (l, r) =>
      let* b := read_flags l no_flags in
      let* s := read_flags r no_flags in
      Ok (inr (mkRules b s))
  end.

Definition Rules_eqb (lhs rhs : Rules) : bool :=
  bool_decide (neighbours_to_born lhs = neighbours_to_born rhs) && bool_decide (neighbours_to_survive lhs = neighbours_to_survive rhs).

Definition ConwayGameOfLife : res Rules := Rules_of [3] [2; 3].

(** The digits of the flags that are set. *)
Fixpoint flag_digits (flags : list bool) (i : Z) : list Z :=
  match flags with
  | [] => []
  | b :: flags => (if (b : bool) then [ch_0 + i] else []) ++ flag_digits flags (i + 1)
  end.

Definition toMCellNotation (r : Rules) : list Z :=
  [ch_B] ++ flag_digits (neighbours_to_born r) 0 ++ [ch_slash; ch_S] ++ flag_digits (neighbours_to_survive r) 0.

Definition InterestingRules : list (string * res Rules) :=
  [("Life"%string, Rules_of [3] [2; 3]);
   ("HighLife"%string, Rules_of [3; 6] [2; 3]);
   ("Day & Night"%string, Rules_of [3; 6; 7; 8] [3; 4; 6; 7; 8]);
   ("Seeds"%string, Rules_of [2] []);
   ("Diamoeba"%string, Rules_of [3; 5; 6; 7; 8] [5; 6; 7; 8]);
   ("Anneal"%string, Rules_of [4; 6; 7; 8] [3; 5; 6; 7; 8]);
   ("Morley"%string, Rules_of [3; 6; 8] [2; 4; 5]);
   ("Life without death"%string, Rules_of [3] [0; 1; 2; 3; 4; 5; 6; 7; 8]);
   ("2x2"%string, Rules_of [3; 6] [1; 2; 5]);
   ("Replicator"%string, Rules_of [1; 3; 5; 7] [1; 3; 5; 7])].

(** ** Universe.cpp *)

Record Universe := mkUniverse { name : list Z; rules : Rules; main_field : Field; twin_field : Field }.

Definition unnamed : list Z := [85; 110; 110; 97; 109; 101; 100].

(** [Universe()] and [Universe(field, rules, name)] *)
Definition Universe_default : res Universe :=
  let* r := ConwayGameOfLife in Ok (mkUniverse unnamed r Field_zero Field_zero).

Definition Universe_new (f : Field) (r : Rules) (n : list Z) : exn + Universe :=
  match Field_new (width f) (height f) with
  | inl e => inl e
  | inr twin => inr (mkUniverse n r f twin)
  end.

Definition setRules (u : Universe) (r : Rules) : Universe := mkUniverse (name u) r (main_field u) (twin_field u).
Definition setName (u : Universe) (n : list Z) : Universe := mkUniverse n (rules u) (main_field u) (twin_field u).

Definition Universe_resize (u : Universe) (w h : Z) : exn + Universe :=
  match Field_resize (main_field u) w h, Field_resize (twin_field u) w h with
  | inr m, inr t => inr (mkUniverse (name u) (rules u) m t)
  | inl e, _ | _, inl e => inl e
  end.

Definition next_cell (r : Rules) (f : Field) (x y : Z) : res bool :=
  let* neighbours_count := getNeighboursCount f x y in
  let* born := canBorn r neighbours_count in
  if (born : bool) then Ok true
  else
    let* survive := canSurvive r neighbours_count in
    if (survive : bool) then field_get f x y else Ok false.

Fixpoint tick_column (n : nat) (r : Rules) (main twin : Field) (x y : Z) : res Field :=
  match n with
  | O => Ok twin
  | S n =>
      let* v := next_cell r main x y in
      let* twin := field_set twin x y v in
      tick_column n r main twin x (y + 1)
  end.

Fixpoint tick_columns (n : nat) (r : Rules) (main twin : Field) (x : Z) : res Field :=
  match n with
  | O => Ok twin
  | S n =>
      let* twin := tick_column (Z.to_nat (height main)) r main twin x 0 in
      tick_columns n r main twin (x + 1)
  end.

Definition tick (u : Universe) : res Universe :=
  let* twin := tick_columns (Z.to_nat (width (main_field u))) (rules u) (main_field u) (twin_field u) 0 in
  Ok (mkUniverse (name u) (rules u) twin (main_field u)).

Fixpoint tick_n (u : Universe) (n : nat) : res Universe :=
  match n with
  | O => Ok u
  | S n => let* u := tick u in tick_n u n
  end.

(** ** What a step means *)

Definition cell (f : Field) (x y : Z) : bool := znth (znth (field_data f) x) y.

(** The living ones among the 8 cells around a cell, on a torus. *)
Definition around : list (Z * Z) := [(-1, -1); (-1, 0); (-1, 1); (0, -1); (0, 1); (1, -1); (1, 0); (1, 1)].

Definition alive_around (w h : Z) (c : Z -> Z -> bool) (x y : Z) : Z :=
  foldr Z.add 0 ((fun d => Z.b2z (c ((x + fst d) mod w) ((y + snd d) mod h))) <$> around).

(** The rule of the code, and the one that the notation stands for. *)
Definition next_state (r : Rules) (alive : bool) (n : Z) : bool :=
  znth (neighbours_to_born r) n || (znth (neighbours_to_survive r) n && alive).

Definition standard_state (r : Rules) (alive : bool) (n : Z) : bool :=
  if alive then znth (neighbours_to_survive r) n else znth (neighbours_to_born r) n.

Definition evolve (r : Rules) (w h : Z) (c : Z -> Z -> bool) : Z -> Z -> bool :=
  fun x y => next_state r (c x y) (alive_around w h c x y).

Definition rules_ok (r : Rules) : Prop := zlen (neighbours_to_born r) = 9 /\ zlen (neighbours_to_survive r) = 9.

Record field_ok (f : Field) : Prop := {
  fd_columns : zlen (field_data f) = width f;
  fd_cells : forall x, 0 <= x < width f -> zlen (znth (field_data f) x) = height f;
  fd_width : 3 <= width f < 2 ^ 63;
  fd_height : 3 <= height f < 2 ^ 63
}.

Record universe_ok (u : Universe) : Prop := {
  un_rules : rules_ok (rules u);
  un_main : field_ok (main_field u);
  un_twin : field_ok (twin_field u);
  un_width : width (twin_field u) = width (main_field u);
  un_height : height (twin_field u) = height (main_field u)
}.

(** A cell of the field. *)
Definition on_field (f : Field) (x y : Z) : Prop := 0 <= x < width f /\ 0 <= y < height f.

Lemma field_get_ok f x y : field_ok f -> on_field f x y -> field_get f x y = Ok (cell f x y).
Proof. intros [H1 H2 _ _] [Hx Hy]. by apply (mat_get_ok _ (width f) (height f)). Qed.

Lemma field_set_ok f x y v :
  field_ok f -> on_field f x y ->
  exists f', field_set f x y v = Ok f' /\ field_ok f' /\ width f' = width f /\ height f' = height f /\
    forall a b, on_field f a b -> cell f' a b = if (x =? a) && (y =? b) then v else cell f a b.
Proof.
  intros [H1 H2 H3 H4] [Hx Hy]. unfold field_set.
  destruct (mat_set_ok (field_data f) (width f) (height f) x y v H1 H2 Hx Hy) as (d & -> & Hd1 & Hd2 & Hd3).
  eexists. split; [done|]. split; [by split|]. split; [done|]. split; [done|]. intros a b [Ha Hb]. by apply Hd3.
Qed.

(** The index arithmetic of the code goes around the torus. *)
Lemma torus_before x w : 0 <= x < w -> 3 <= w < 2 ^ 63 -> u64 (x + w - 1) mod w = (x + -1) mod w.
Proof.
  intros Hx Hw. rewrite u64_small by lia. replace (x + w - 1) with (x + -1 + 1 * w) by lia. apply Z.mod_add. lia.
Qed.

Lemma torus_after x w : 0 <= x < w -> 3 <= w < 2 ^ 63 -> u64 (x + 1) mod w = (x + 1) mod w.
Proof. intros Hx Hw. by rewrite u64_small by lia. Qed.

Lemma neighbours_count f x y :
  field_ok f -> on_field f x y ->
  getNeighboursCount f x y = Ok (alive_around (width f) (height f) (cell f) x y) /\
  0 <= alive_around (width f) (height f) (cell f) x y <= 8.
Proof.
  intros Hf [Hx Hy]. pose proof (fd_width _ Hf) as Hw. pose proof (fd_height _ Hf) as Hh.
  assert (forall d, 0 <= (x + d) mod width f < width f) as Hmx by (intros d; apply Z.mod_pos_bound; lia).
  assert (forall d, 0 <= (y + d) mod height f < height f) as Hmy by (intros d; apply Z.mod_pos_bound; lia).
  unfold getNeighboursCount. destruct (Z.eqb_spec (width f) 0), (Z.eqb_spec (height f) 0); [lia..|]. cbn [orb].
  rewrite !torus_before, !torus_after by done. rewrite !field_get_ok by (done || (split; auto)).
  unfold alive_around, around. cbn [fmap list_fmap foldr fst snd].
  rewrite (Z.mod_small (x + 0)), (Z.mod_small (y + 0)) by lia. rewrite !Z.add_0_r.
  assert (forall b : bool, 0 <= Z.b2z b <= 1) as Hb by (intros []; cbn; lia).
  set (c1 := cell f _ _). set (c2 := cell f _ y). set (c3 := cell f ((x + -1) mod _) ((y + 1) mod _)).
  set (c4 := cell f x _). set (c5 := cell f x ((y + 1) mod _)). set (c6 := cell f ((x + 1) mod _) ((y + -1) mod _)).
  set (c7 := cell f ((x + 1) mod _) y). set (c8 := cell f _ _).
  pose proof (Hb c1). pose proof (Hb c2). pose proof (Hb c3). pose proof (Hb c4).
  pose proof (Hb c5). pose proof (Hb c6). pose proof (Hb c7). pose proof (Hb c8).
  split; [|lia]. rewrite u8_small by lia. f_equal. lia.
Qed.

Lemma next_cell_ok r f x y :
  rules_ok r -> field_ok f -> on_field f x y -> next_cell r f x y = Ok (evolve r (width f) (height f) (cell f) x y).
Proof.
  intros [Hb Hs] Hf Hp. destruct (neighbours_count f x y Hf Hp) as [E Hn]. unfold next_cell, evolve, next_state, canBorn, canSurvive. rewrite E.
  rewrite !arr_get_ok by lia. set (n := alive_around _ _ _ _ _) in *.
  destruct (znth (neighbours_to_born r) n); [done|]. destruct (znth (neighbours_to_survive r) n); [|done].
  by rewrite field_get_ok.
Qed.

(** [twin] has the next state at the cells for which [P] holds, and its own elsewhere. *)
Record stepped (P : Z -> Z -> bool) (r : Rules) (main twin twin' : Field) : Prop := {
  st_ok : field_ok twin';
  st_width : width twin' = width twin;
  st_height : height twin' = height twin;
  st_cell : forall x y, on_field main x y ->
    cell twin' x y = if P x y then evolve r (width main) (height main) (cell main) x y else cell twin x y
}.

Lemma stepped_trans P Q R r main f1 f2 f3 :
  stepped P r main f1 f2 -> stepped Q r main f2 f3 -> (forall x y, R x y = P x y || Q x y) -> stepped R r main f1 f3.
Proof.
  intros [? ? ? H1] [? ? ? H2] HR. split; [done|congruence|congruence|]. intros x y Hp.
  rewrite H2, H1, HR by done. by destruct (P x y), (Q x y).
Qed.

Section Step.
Context (r : Rules) (main : Field) (Hr : rules_ok r) (Hm : field_ok main).

Definition same_size (f : Field) : Prop := width f = width main /\ height f = height main.

Lemma tick_column_steps n : forall twin x y,
  field_ok twin -> same_size twin -> 0 <= x < width main -> 0 <= y -> y + Z.of_nat n <= height main ->
  exists twin', tick_column n r main twin x y = Ok twin' /\
    stepped (fun x' y' => (x' =? x) && (y <=? y') && (y' <? y + Z.of_nat n)) r main twin twin'.
Proof.
  induction n as [|n IH]; intros twin x y Ht [Ew Eh] Hx Hy Hn; cbn [tick_column].
  { exists twin. split; [done|]. split; [done..|]. intros x' y' _. destruct (_ && _) eqn:E; [|done]. exfalso. zcase_in E; (lia || done). }
  assert (on_field main x y) as Hp by (split; lia). rewrite next_cell_ok by done.
  destruct (field_set_ok twin x y (evolve r (width main) (height main) (cell main) x y) Ht) as (t1 & -> & Ht1 & W1 & H1 & C1); [split; lia|].
  destruct (IH t1 x (y + 1)) as (twin' & -> & H); [done|split; congruence|done|lia|lia|].
  exists twin'. split; [done|]. eapply (stepped_trans (fun x' y' => (x =? x') && (y =? y'))); [|exact H|].
  - split; [done..|]. intros x' y' [? ?]. rewrite C1 by (split; lia).
    destruct (Z.eqb_spec x x') as [->|]; [|done]. by destruct (Z.eqb_spec y y') as [->|].
  - intros x' y'. zcase; lia.
Qed.

Lemma tick_columns_steps n : forall twin x,
  field_ok twin -> same_size twin -> 0 <= x -> x + Z.of_nat n <= width main ->
  exists twin', tick_columns n r main twin x = Ok twin' /\
    stepped (fun x' y' => (0 <=? y') && (y' <? height main) && (x <=? x') && (x' <? x + Z.of_nat n)) r main twin twin'.
Proof.
  induction n as [|n IH]; intros twin x Ht [Ew Eh] Hx Hn; cbn [tick_columns].
  { exists twin. split; [done|]. split; [done..|]. intros x' y' _. destruct (_ && _) eqn:E; [|done]. exfalso. zcase_in E; (lia || done). }
  pose proof (fd_height _ Hm) as Hh.
  destruct (tick_column_steps (Z.to_nat (height main)) twin x 0 Ht) as (t1 & -> & H1); [done|lia|lia|lia|].
  destruct (IH t1 (x + 1)) as (twin' & -> & H2); [apply H1| |lia|lia|].
  { split; [rewrite (st_width _ _ _ _ _ H1)|rewrite (st_height _ _ _ _ _ H1)]; done. }
  exists twin'. split; [done|]. eapply stepped_trans; [exact H1|exact H2|]. intros x' y'. zcase; lia.
Qed.
End Step.

Lemma tick_evolves u :
  universe_ok u ->
  exists u', tick u = Ok u' /\ universe_ok u' /\ rules u' = rules u /\ name u' = name u /\
    width (main_field u') = width (main_field u) /\ height (main_field u') = height (main_field u) /\
    forall x y, on_field (main_field u) x y ->
      cell (main_field u') x y = evolve (rules u) (width (main_field u)) (height (main_field u)) (cell (main_field u)) x y.
Proof.
  intros [Hr Hm Ht Ew Eh]. pose proof (fd_width _ Hm) as Hw. unfold tick.
  destruct (tick_columns_steps (rules u) (main_field u) Hr Hm (Z.to_nat (width (main_field u))) (twin_field u) 0) as (twin & -> & H);
    [done|by split|lia|lia|].
  destruct H as [H1 H2 H3 H4]. eexists. split; [done|]. split; [|split; [done|split; [done|split; [|split]]]].
  - split; cbn [rules main_field twin_field]; [done|done|done|congruence|congruence].
  - cbn [main_field]. congruence.
  - cbn [main_field]. congruence.
  - intros x y Hp. cbn [main_field]. rewrite H4 by done. destruct Hp. destruct (_ && _) eqn:E; [done|]. exfalso. zcase_in E; (lia || done).
Qed.

(** The state of a cell depends on the cells of the field only. *)
Lemma evolve_ext r w h (c c' : Z -> Z -> bool) :
  0 < w -> 0 < h -> (forall x y, 0 <= x < w -> 0 <= y < h -> c x y = c' x y) ->
  forall x y, 0 <= x < w -> 0 <= y < h -> evolve r w h c x y = evolve r w h c' x y.
Proof.
  intros Hw Hh E x y Hx Hy. unfold evolve, alive_around, around. cbn [fmap list_fmap foldr fst snd].
  by rewrite !E by (done || (apply Z.mod_pos_bound; lia)).
Qed.

Lemma iter_evolve_ext r w h n : forall (c c' : Z -> Z -> bool),
  0 < w -> 0 < h -> (forall x y, 0 <= x < w -> 0 <= y < h -> c x y = c' x y) ->
  forall x y, 0 <= x < w -> 0 <= y < h -> Nat.iter n (evolve r w h) c x y = Nat.iter n (evolve r w h) c' x y.
Proof.
  induction n as [|n IH]; intros c c' Hw Hh E; [done|]. cbn [Nat.iter nat_rect]. apply evolve_ext; [done|done|].
  intros x y Hx Hy. by apply IH.
Qed.

(** The rule of the code is the one of the notation when every number of neighbours that
    gives birth also lets survive, and only then. *)
Lemma rule_standard r :
  rules_ok r ->
  (forall alive n, 0 <= n <= 8 -> next_state r alive n = standard_state r alive n) <->
  (forall n, 0 <= n <= 8 -> znth (neighbours_to_born r) n = true -> znth (neighbours_to_survive r) n = true).
Proof.
  intros _. unfold next_state, standard_state. split.
  - intros H n Hn Hb. specialize (H true n Hn). by rewrite Hb in H.
  - intros H alive n Hn. specialize (H n Hn). destruct (znth (neighbours_to_born r) n).
    + by destruct alive; [rewrite H|].
    + destruct alive; [by rewrite andb_true_r|by rewrite andb_false_r].
Qed.

(** Whether a table entry has this property. *)
Definition birth_survives (r : res Rules) : bool :=
  match r with
  | Ok r => forallb (fun '(b, s) => implb b s) (zip (neighbours_to_born r) (neighbours_to_survive r))
  | Err _ => false
  end.

(** C24.  The universe evolves: for every field of at least 3 by 3 cells, every rule and
    every number of steps, [tick_n] ends and gives each cell the state that the rule gives
    it from the states of its 8 neighbours on the torus, all at once, whatever the second
    field held before.  The rule is the standard one for Conway's game and for three more
    entries of the table of rules; for the other six a living cell with a number of
    neighbours for a birth stays alive, though it should die. *)
Theorem life_evolves u n :
  universe_ok u ->
  (exists u', tick_n u n = Ok u' /\ universe_ok u' /\ rules u' = rules u /\ name u' = name u /\
    width (main_field u') = width (main_field u) /\ height (main_field u') = height (main_field u) /\
    forall x y, on_field (main_field u) x y ->
      cell (main_field u') x y =
      Nat.iter n (evolve (rules u) (width (main_field u)) (height (main_field u))) (cell (main_field u)) x y) /\
  ((forall alive k, 0 <= k <= 8 -> next_state (rules u) alive k = standard_state (rules u) alive k) <->
   (forall k, 0 <= k <= 8 -> znth (neighbours_to_born (rules u)) k = true -> znth (neighbours_to_survive (rules u)) k = true)) /\
  filter (fun e => birth_survives (snd e) = true) InterestingRules =
    filter (fun e => fst e ∈ ["Life"; "Day & Night"; "Life without death"; "Replicator"]%string) InterestingRules.
Proof.
  intros Hu. split; [|split; [by apply rule_standard, Hu|by vm_compute]].
  revert u Hu. induction n as [|n IH]; intros u Hu; [by exists u|]. cbn [tick_n].
  destruct (tick_evolves u Hu) as (u1 & -> & Hu1 & R1 & N1 & W1 & H1 & C1).
  destruct (IH u1 Hu1) as (u' & -> & Hu' & R' & N' & W' & H' & C'). exists u'. split; [done|]. split; [done|].
  split; [congruence|]. split; [congruence|]. split; [congruence|]. split; [congruence|].
  pose proof (fd_width _ (un_main _ Hu)). pose proof (fd_height _ (un_main _ Hu)).
  intros x y Hp. rewrite C' by (destruct Hp; split; lia). rewrite R1, W1, H1, Nat.iter_succ_r. destruct Hp.
  apply iter_evolve_ext; [lia|lia| |done|done]. intros a b Ha Hb. apply C1. by split.
Qed.

(** A blinker on a field of 5 by 5 cells. *)
Definition blinker : Universe :=
  let empty := replicate 5 false in
  let f := mkField [empty; empty; [false; true; true; true; false]; empty; empty] 5 5 in
  mkUniverse unnamed (mkRules [false; false; false; true; false; false; false; false; false] [false; false; true; true; false; false; false; false; false])
    f (mkField (replicate 5 empty) 5 5).

Lemma blinker_ok : universe_ok blinker.
Proof.
  assert (forall x, 0 <= x < 5 -> x = 0 \/ x = 1 \/ x = 2 \/ x = 3 \/ x = 4) as H5 by lia.
  split; [done| | |done|done]; (split; [done| |cbn; lia|cbn; lia]); intros x Hx; apply H5 in Hx;
    by destruct Hx as [-> |[-> |[-> |[-> | ->]]]].
Qed.

Lemma life_evolves_witness :
  exists u', tick_n blinker 1 = Ok u' /\ cell (main_field u') 1 2 = true /\ cell (main_field u') 2 1 = false.
Proof.
  destruct (life_evolves blinker 1 blinker_ok) as [(u' & E & _ & _ & _ & _ & _ & H) _].
  exists u'. split; [exact E|]. rewrite !H by (split; cbn; lia). clear E H. split; vm_compute; reflexivity.
Defined.
