(* ===== verification/LifeFile.v ===== *)
(** * C++-Labs/lab_2_game_of_life: files

    [LifeASCIISerializer.cpp].  A file is the list of its bytes, None when it cannot be
    opened.  Streams are those of [Streams].  The warnings of the log are left out. *)
From S2P Require Import Prelude Streams Life.
#[local] Set Warnings "-clear-no-such-hyp".

Definition ch_hash : Z := 35.

(** ** WriteToFile *)

Definition tag_N : list Z := [ch_hash; 78; ch_space].
Definition tag_S : list Z := [ch_hash; ch_S; ch_space].
Definition tag_R : list Z := [ch_hash; 82; ch_space].
Definition header_106 : list Z := [ch_hash; 76; 105; 102; 101; ch_space; 49; 46; 48; 54; ch_newline].

Fixpoint write_column (n : nat) (f : Field) (x y : Z) : res (list Z) :=
  match n with
  | O => Ok []
  | S n =>
      let* alive := field_get f x y in
      let* rest := write_column n f x (y + 1) in
      Ok ((if (alive : bool) then print_size x ++ [ch_space] ++ print_size y ++ [ch_newline] else []) ++ rest)
  end.

Fixpoint write_columns (n : nat) (f : Field) (x : Z) : res (list Z) :=
  match n with
  | O => Ok []
  | S n =>
      let* col := write_column (Z.to_nat (height f)) f x 0 in
      let* rest := write_columns n f (x + 1) in
      Ok (col ++ rest)
  end.

Definition WriteToFile (u : Universe) : res (list Z) :=
  let f := main_field u in
  let* cells := write_columns (Z.to_nat (width f)) f 0 in
  Ok (header_106 ++ tag_N ++ name u ++ [ch_newline] ++
      tag_S ++ print_size (width f) ++ [ch_space] ++ print_size (height f) ++ [ch_newline] ++
      tag_R ++ toMCellNotation (rules u) ++ [ch_newline] ++ cells).

(** ** ReadFromFile *)

(** The universe and the size, once it has been read. *)
Record reading := mkReading { universe : Universe; r_width : Z; r_height : Z; size_found : bool }.

Definition set_field (u : Universe) (f : Field) : Universe := mkUniverse (name u) (rules u) f (twin_field u).

Definition read_line (s : reading) (line : list Z) : may_throw reading :=
  if starts_with line tag_N then
    Ok (inr (mkReading (setName (universe s) (drop 3 line)) (r_width s) (r_height s) (size_found s)))
  else if starts_with line tag_R then
    let* parsed := FromMCellNotation (drop 3 line) in
    match parsed with
    | inl (RuntimeError e) => Ok (inl (ParseError line e))
    | inl _ => Ok (inl (ParseError line NoSeparator))
    | inr r => Ok (inr (mkReading (setRules (universe s) r) (r_width s) (r_height s) (size_found s)))
    end
  else if starts_with line tag_S then
    match read_two (drop 3 line) with
    | None => Ok (inl (ParseError line BadSize))
    | Some (w, h) =>
        match Universe_resize (universe s) w h with
        | inl e => Ok (inl e)
        | inr u => Ok (inr (mkReading u w h true))
        end
    end
  else if negb (starts_with line [ch_hash]) then
    if size_found s then
      match read_two line with
      | None => Ok (inl (ParseError line BadCell))
      | Some (x, y) =>
          if (r_width s <=? x) || (r_height s <=? y) then Ok (inr s)
          else
            let* f := field_set (main_field (universe s)) x y true in
            Ok (inr (mkReading (set_field (universe s) f) (r_width s) (r_height s) (size_found s)))
      end
    else Ok (inl (ParseError line CellBeforeSize))
  else Ok (inr s).

Fixpoint read_lines (s : reading) (ls : list (list Z)) : may_throw reading :=
  match ls with
  | [] => Ok (inr s)
  | line :: ls => try* s := read_line s line in read_lines s ls
  end.

Definition ReadFromFile (file : option (list Z)) : may_throw Universe :=
  match file with
  | None => Ok (inl CannotOpen)
  | Some text =>
      let* u := Universe_default in
      try* s := read_lines (mkReading u 0 0 false) (lines text) in
      Ok (inr (universe s))
  end.

Definition cell_line (p : Z * Z) : list Z := print_size (fst p) ++ [ch_space] ++ print_size (snd p).

Lemma cell_line_one p : 0 <= fst p < 2 ^ 64 -> 0 <= snd p < 2 ^ 64 -> one_line (cell_line p).
Proof.
  intros H1 H2. unfold cell_line, one_line. apply Forall_app. split; [by apply print_size_line|].
  apply Forall_app. split; [by constructor|by apply print_size_line].
Qed.

(** A cell line has no tag. *)
Lemma cell_line_plain p : 0 <= fst p < 2 ^ 64 -> exists c l, cell_line p = c :: l /\ c <> ch_hash.
Proof.
  intros H. unfold cell_line. destruct (print_size_spec (fst p) H) as (c & D & -> & HD & _).
  apply Forall_cons in HD as [Hc%digit_range _]. exists c, (D ++ [ch_space] ++ print_size (snd p)). split; [done|]. unfold ch_hash. lia.
Qed.

(** ** Rules *)

Lemma flag_digits_roundtrip flags : zlen flags = 9 -> read_flags (flag_digits flags 0) no_flags = Ok flags.
Proof.
  intros Hl. destruct flags as [|b0 [|b1 [|b2 [|b3 [|b4 [|b5 [|b6 [|b7 [|b8 [|? ?]]]]]]]]]]; try done;
    [|unfold zlen in Hl; cbn in Hl; lia].
  by destruct b0, b1, b2, b3, b4, b5, b6, b7, b8.
Qed.

Lemma flag_digits_range flags : forall i, 0 <= i -> i + zlen flags <= 9 -> Forall (fun c => 48 <= c <= 56) (flag_digits flags i).
Proof.
  induction flags as [|b flags IH]; intros i Hi Hl; [constructor|]. rewrite zlen_cons in Hl. pose proof (zlen_nonneg flags). cbn [flag_digits].
  apply Forall_app. split; [|apply IH; lia]. destruct b; [|constructor]. constructor; [unfold ch_0; lia|constructor].
Qed.

Lemma find_slash_app l r : Forall (fun c => c <> ch_slash) l -> find_slash (l ++ ch_slash :: r) = Some (l, ch_slash :: r).
Proof.
  induction l as [|c l IH]; intros Hl; cbn [app find_slash]; [by rewrite Z.eqb_refl|].
  apply Forall_cons in Hl as [Hc Hl]. destruct (Z.eqb_spec c ch_slash); [done|]. by rewrite IH.
Qed.

Lemma notation_roundtrip r : rules_ok r -> FromMCellNotation (toMCellNotation r) = Ok (inr r).
Proof.
  intros [Hb Hs]. unfold FromMCellNotation, toMCellNotation.
  pose proof (flag_digits_range (neighbours_to_born r) 0 ltac:(lia) ltac:(lia)) as Hd.
  replace ([ch_B] ++ flag_digits (neighbours_to_born r) 0 ++ [ch_slash; ch_S] ++ flag_digits (neighbours_to_survive r) 0)
    with ((ch_B :: flag_digits (neighbours_to_born r) 0) ++ ch_slash :: ch_S :: flag_digits (neighbours_to_survive r) 0) by done.
  rewrite find_slash_app.
  - cbn [read_flags]. rewrite flag_digits_roundtrip by done.
    change ((ch_0 <=? ch_B) && (ch_B <=? ch_0 + 9) && (ch_B <=? ch_0 + 8)) with false. cbn iota.
    rewrite flag_digits_roundtrip by done. by destruct r.
  - constructor; [done|]. eapply Forall_impl; [exact Hd|]. cbn. unfold ch_slash. lia.
Qed.

Lemma notation_line r : rules_ok r -> one_line (toMCellNotation r).
Proof.
  intros [Hb Hs]. unfold toMCellNotation, one_line.
  assert (forall flags, zlen flags = 9 -> Forall (fun c => c <> ch_newline) (flag_digits flags 0)) as H.
  { intros flags Hl. eapply Forall_impl; [apply flag_digits_range; lia|]. cbn. unfold ch_newline. lia. }
  apply Forall_app. split; [by constructor|]. apply Forall_app. split; [by apply H|]. apply Forall_app.
  split; [by repeat constructor|by apply H].
Qed.

(** ** Writing the cells *)

(** The text is a line for each of some cells: the living ones. *)
Definition cell_lines (ps : list (Z * Z)) : list Z := flat_map (fun p => cell_line p ++ [ch_newline]) ps.

Lemma write_column_lines n : forall f x y,
  field_ok f -> 0 <= x < width f -> 0 <= y -> y + Z.of_nat n <= height f ->
  exists ps, write_column n f x y = Ok (cell_lines ps) /\
    forall a b, (a, b) ∈ ps <-> a = x /\ y <= b < y + Z.of_nat n /\ cell f a b = true.
Proof.
  induction n as [|n IH]; intros f x y Hf Hx Hy Hn; cbn [write_column].
  { exists []. split; [done|]. intros a b. rewrite elem_of_nil. lia. }
  rewrite field_get_ok by (done || (split; lia)). destruct (IH f x (y + 1) Hf Hx ltac:(lia) ltac:(lia)) as (ps & -> & Hps).
  destruct (cell f x y) eqn:Ec.
  - exists ((x, y) :: ps). split; [unfold cell_lines; cbn [flat_map]; unfold cell_line; cbn [fst snd]; by rewrite <- !app_assoc|].
    intros a b. rewrite elem_of_cons, Hps. split.
    + intros [[= -> ->]|(-> & Hb & Hc)]; [split; [done|]; split; [lia|done]|]. split; [done|]. split; [lia|done].
    + intros (-> & Hb & Hc). destruct (decide (b = y)) as [->|]; [by left|]. right. split; [done|]. split; [lia|done].
  - exists ps. split; [done|]. intros a b. rewrite Hps. split; intros (-> & Hb & Hc); (split; [done|]); (split; [|done]); [lia|].
    destruct (decide (b = y)) as [->|]; [congruence|lia].
Qed.

Lemma write_columns_lines n : forall f x,
  field_ok f -> 0 <= x -> x + Z.of_nat n <= width f ->
  exists ps, write_columns n f x = Ok (cell_lines ps) /\
    forall a b, (a, b) ∈ ps <-> x <= a < x + Z.of_nat n /\ 0 <= b < height f /\ cell f a b = true.
Proof.
  induction n as [|n IH]; intros f x Hf Hx Hn; cbn [write_columns].
  { exists []. split; [done|]. intros a b. rewrite elem_of_nil. lia. }
  pose proof (fd_height _ Hf) as Hh.
  destruct (write_column_lines (Z.to_nat (height f)) f x 0 Hf) as (ps & -> & Hps); [lia|lia|lia|].
  destruct (IH f (x + 1) Hf) as (qs & -> & Hqs); [lia|lia|]. exists (ps ++ qs). split.
  - f_equal. unfold cell_lines. by rewrite flat_map_app.
  - intros a b. rewrite elem_of_app, Hps, Hqs. split.
    + intros [(-> & ? & ?)|(? & ? & ?)]; (split; [lia|]); (split; [lia|done]).
    + intros (Ha & Hb & Hc). destruct (decide (a = x)) as [->|]; [left|right]; (split; [lia|]); (split; [lia|done]).
Qed.

Lemma lines_cells ps :
  Forall (fun p => 0 <= fst p < 2 ^ 64 /\ 0 <= snd p < 2 ^ 64) ps -> lines (cell_lines ps) = cell_line <$> ps.
Proof.
  induction ps as [|p ps IH]; intros H; [done|]. apply Forall_cons in H as [[H1 H2] H]. unfold cell_lines. cbn [flat_map fmap list_fmap].
  rewrite <- app_assoc. cbn [app]. rewrite lines_line by (by apply cell_line_one). f_equal. by apply IH.
Qed.

(** ** Reading *)

Lemma read_cell_line s a b :
  size_found s = true -> field_ok (main_field (universe s)) ->
  r_width s = width (main_field (universe s)) -> r_height s = height (main_field (universe s)) ->
  on_field (main_field (universe s)) a b ->
  exists f', read_line s (cell_line (a, b)) = Ok (inr (mkReading (set_field (universe s) f') (r_width s) (r_height s) true)) /\
    field_ok f' /\ width f' = r_width s /\ height f' = r_height s /\
    forall x y, on_field (main_field (universe s)) x y ->
      cell f' x y = if (a =? x) && (b =? y) then true else cell (main_field (universe s)) x y.
Proof.
  intros Hs Hf Hw Hh [Ha Hb]. pose proof (fd_width _ Hf) as Hw'. pose proof (fd_height _ Hf) as Hh'.
  assert (0 <= a < 2 ^ 64 /\ 0 <= b < 2 ^ 64) as [Ha' Hb'] by lia.
  unfold read_line. destruct (cell_line_plain (a, b) Ha') as (c & l & E & Hc). rewrite E.
  assert (forall t, starts_with (c :: l) (ch_hash :: t) = false) as Ht.
  { intros t. cbn [starts_with]. destruct (Z.eqb_spec ch_hash c); [congruence|done]. }
  unfold tag_N, tag_R, tag_S. rewrite !Ht. cbn [negb]. rewrite Hs, <- E. unfold cell_line. cbn [fst snd]. rewrite read_two_print by done.
  destruct (Z.leb_spec (r_width s) a), (Z.leb_spec (r_height s) b); [lia..|]. cbn [orb].
  destruct (field_set_ok (main_field (universe s)) a b true Hf) as (f' & -> & Hf' & W & Hht & C); [by split|].
  exists f'. split; [done|]. split; [done|]. split; [congruence|]. split; [congruence|done].
Qed.

Lemma read_cells ps : forall s,
  size_found s = true -> field_ok (main_field (universe s)) ->
  r_width s = width (main_field (universe s)) -> r_height s = height (main_field (universe s)) ->
  Forall (fun p => on_field (main_field (universe s)) (fst p) (snd p)) ps ->
  exists f', read_lines s (cell_line <$> ps) = Ok (inr (mkReading (set_field (universe s) f') (r_width s) (r_height s) true)) /\
    field_ok f' /\ width f' = r_width s /\ height f' = r_height s /\
    forall x y, on_field (main_field (universe s)) x y ->
      cell f' x y = bool_decide ((x, y) ∈ ps) || cell (main_field (universe s)) x y.
Proof.
  induction ps as [|[a b] ps IH]; intros s Hs Hf Hw Hh Hps; cbn [fmap list_fmap read_lines].
  { exists (main_field (universe s)). destruct s as [[] w h []]; [|done]. cbn in *. split; [done|]. split; [done|]. split; [done|].
    split; [done|]. intros x y _. case_bool_decide as Hin; [|done]. by apply elem_of_nil in Hin. }
  apply Forall_cons in Hps as [Hab Hps]. cbn in Hab.
  destruct (read_cell_line s a b Hs Hf Hw Hh Hab) as (f1 & -> & Hf1 & W1 & H1 & C1). set (s1 := mkReading _ _ _ _).
  destruct (IH s1) as (f' & E & Hf' & W' & H' & C'); [done|done|done|done| |].
  { eapply Forall_impl; [exact Hps|]. cbn. unfold on_field. intros p. by rewrite W1, H1, Hw, Hh. }
  exists f'. split; [exact E|]. split; [done|]. split; [done|]. split; [done|].
  intros x y Hp. rewrite C' by (unfold on_field in *; cbn [universe s1 main_field set_field]; by rewrite W1, H1, Hw, Hh).
  cbn [universe s1 main_field set_field]. rewrite C1 by done.
  destruct (Z.eqb_spec a x) as [->|]; [destruct (Z.eqb_spec b y) as [->|]|]; cbn [andb].
  - rewrite orb_true_r. by rewrite bool_decide_true by (apply elem_of_cons; by left).
  - f_equal. apply bool_decide_ext. rewrite elem_of_cons. split; [by right|]. intros [[= <-]|]; done.
  - f_equal. apply bool_decide_ext. rewrite elem_of_cons. split; [by right|]. intros [[= <- <-]|]; done.
Qed.

(** Resizing an empty field gives an empty one. *)
Lemma resize_zero w h :
  3 <= w -> 3 <= h -> Field_resize Field_zero w h = inr (mkField (replicate (Z.to_nat w) (replicate (Z.to_nat h) false)) w h).
Proof.
  intros Hw Hh. unfold Field_resize, validateSize. destruct (Z.ltb_spec w 3), (Z.ltb_spec h 3); [lia..|].
  unfold vec_resize. cbn [field_data Field_zero length]. rewrite !take_nil, !Nat.sub_0_r. cbn [app].
  rewrite fmap_replicate. cbn [length]. by rewrite take_nil, Nat.sub_0_r.
Qed.

Lemma empty_field_ok w h :
  3 <= w < 2 ^ 63 -> 3 <= h < 2 ^ 63 ->
  let f := mkField (replicate (Z.to_nat w) (replicate (Z.to_nat h) false)) w h in
  field_ok f /\ forall x y, on_field f x y -> cell f x y = false.
Proof.
  intros Hw Hh f.
  assert (forall x, 0 <= x < w -> znth (field_data f) x = replicate (Z.to_nat h) false) as Hcol.
  { intros x Hx. unfold znth. apply list_lookup_total_correct, lookup_replicate. split; [done|lia]. }
  split; [split; cbn [width height f]; [unfold zlen; cbn; rewrite length_replicate; lia| |done|done]|].
  - intros x Hx. rewrite Hcol by done. unfold zlen. rewrite length_replicate. lia.
  - intros x y [Hx Hy]. cbn in Hx, Hy. unfold cell. rewrite Hcol by done. unfold znth. apply list_lookup_total_correct, lookup_replicate. split; [done|lia].
Qed.

Lemma field_eq f g :
  field_ok f -> field_ok g -> width f = width g -> height f = height g ->
  (forall x y, on_field f x y -> cell f x y = cell g x y) -> f = g.
Proof.
  intros [F1 F2 F3 F4] [G1 G2 G3 G4] W H C. destruct f as [df wf hf], g as [dg wg hg]. cbn in *. f_equal; [|done|done].
  assert (zlen df = zlen dg) as E by lia. apply zlist_eq; [exact E|]. intros x Hx. apply zlist_eq; [rewrite F2, G2 by lia; done|].
  intros y Hy. apply C. rewrite F2 in Hy by lia. split; cbn; lia.
Qed.

(** The lines in front of the cells. *)
Lemma read_header s : read_line s (take 10 header_106) = Ok (inr s).
Proof. reflexivity. Qed.

Lemma read_name s n : read_line s (tag_N ++ n) = Ok (inr (mkReading (setName (universe s) n) (r_width s) (r_height s) (size_found s))).
Proof. reflexivity. Qed.

Lemma read_rules s r :
  rules_ok r ->
  read_line s (tag_R ++ toMCellNotation r) = Ok (inr (mkReading (setRules (universe s) r) (r_width s) (r_height s) (size_found s))).
Proof.
  intros Hr. unfold read_line. change (starts_with (tag_R ++ _) tag_N) with false. change (starts_with (tag_R ++ _) tag_R) with true. cbn iota.
  change (drop 3 (tag_R ++ toMCellNotation r)) with (toMCellNotation r). by rewrite notation_roundtrip.
Qed.

Lemma read_dimensions s w h u' :
  0 <= w < 2 ^ 64 -> 0 <= h < 2 ^ 64 -> Universe_resize (universe s) w h = inr u' ->
  read_line s (tag_S ++ print_size w ++ [ch_space] ++ print_size h) = Ok (inr (mkReading u' w h true)).
Proof.
  intros Hw Hh Hu. unfold read_line. change (starts_with (tag_S ++ _) tag_N) with false.
  change (starts_with (tag_S ++ _) tag_R) with false. change (starts_with (tag_S ++ _) tag_S) with true. cbn iota.
  change (drop 3 (tag_S ++ ?l)) with l. rewrite read_two_print by done. by rewrite Hu.
Qed.

(** The lines of a file that has been written. *)
Lemma file_lines n w h r ps :
  one_line n -> 0 <= w < 2 ^ 64 -> 0 <= h < 2 ^ 64 -> rules_ok r ->
  Forall (fun p => 0 <= fst p < 2 ^ 64 /\ 0 <= snd p < 2 ^ 64) ps ->
  lines (header_106 ++ tag_N ++ n ++ [ch_newline] ++ tag_S ++ print_size w ++ [ch_space] ++ print_size h ++ [ch_newline] ++
         tag_R ++ toMCellNotation r ++ [ch_newline] ++ cell_lines ps) =
  take 10 header_106 :: (tag_N ++ n) :: (tag_S ++ print_size w ++ [ch_space] ++ print_size h) :: (tag_R ++ toMCellNotation r) :: (cell_line <$> ps).
Proof.
  intros Hn Hw Hh Hr Hps.
  assert (forall tag l, one_line tag -> one_line l -> one_line (tag ++ l)) as Htag by (intros; by apply Forall_app).
  assert (one_line (tag_S ++ print_size w ++ [ch_space] ++ print_size h)) as HS.
  { apply Htag; [by repeat constructor|]. by apply (cell_line_one (w, h)). }
  assert (one_line (tag_N ++ n)) as HN by (apply Htag; [by repeat constructor|done]).
  assert (one_line (tag_R ++ toMCellNotation r)) as HR by (apply Htag; [by repeat constructor|by apply notation_line]).
  replace (header_106 ++ tag_N ++ n ++ [ch_newline] ++ tag_S ++ print_size w ++ [ch_space] ++ print_size h ++ [ch_newline] ++
         tag_R ++ toMCellNotation r ++ [ch_newline] ++ cell_lines ps)
    with (take 10 header_106 ++ ch_newline :: (tag_N ++ n) ++ ch_newline :: (tag_S ++ print_size w ++ [ch_space] ++ print_size h) ++
          ch_newline :: (tag_R ++ toMCellNotation r) ++ ch_newline :: cell_lines ps) by (by rewrite <- !app_assoc).
  rewrite lines_line by (by repeat constructor). rewrite !lines_line by done. by rewrite lines_cells.
Qed.

(** Saving and loading: what [WriteToFile] writes for a universe, of any size, with
    any rules and any name without a line break, [ReadFromFile] reads back with the same
    name, the same rules and the same field. *)
Theorem life_file_roundtrip u :
  universe_ok u -> one_line (name u) ->
  exists text u', WriteToFile u = Ok text /\ ReadFromFile (Some text) = Ok (inr u') /\ universe_ok u' /\
    name u' = name u /\ rules u' = rules u /\ main_field u' = main_field u.
Proof.
  intros [Hr Hm _ _ _] Hname. pose proof (fd_width _ Hm) as Hw. pose proof (fd_height _ Hm) as Hh. unfold WriteToFile.
  set (f := main_field u) in *. destruct (write_columns_lines (Z.to_nat (width f)) f 0 Hm) as (ps & -> & Hps); [lia|lia|].
  set (f0 := mkField (replicate (Z.to_nat (width f)) (replicate (Z.to_nat (height f)) false)) (width f) (height f)).
  destruct (empty_field_ok (width f) (height f) Hw Hh) as [Hf0 C0]. fold f0 in Hf0, C0.
  destruct (read_cells ps (mkReading (mkUniverse (name u) (rules u) f0 f0) (width f) (height f) true)) as (f' & E & Hf' & W' & H' & C'); [done|done|done|done| |].
  { apply Forall_forall. intros [a b] Hin%Hps. split; cbn; lia. }
  assert (f' = f) as Ef.
  { apply field_eq; [done|done|done|done|]. intros x y [Hx Hy]. rewrite W' in Hx. rewrite H' in Hy. cbn in Hx, Hy.
    rewrite C' by (split; done). cbn [universe main_field]. rewrite C0, orb_false_r by (split; done).
    destruct (cell f x y) eqn:Ec; [apply bool_decide_true|apply bool_decide_false].
    - apply Hps. split; [lia|]. by split.
    - intros (_ & _ & ?)%Hps. congruence. }
  do 2 eexists. split; [done|]. cbn [ReadFromFile].
  change Universe_default with (Ok (mkUniverse unnamed (mkRules (<[3%nat := true]> no_flags) (<[3%nat := true]> (<[2%nat := true]> no_flags))) Field_zero Field_zero)). cbn iota.
  set (u0 := mkUniverse _ _ _ _).
  assert (lines (header_106 ++ tag_N ++ name u ++ [ch_newline] ++ tag_S ++ print_size (width f) ++ [ch_space] ++ print_size (height f) ++ [ch_newline] ++
      tag_R ++ toMCellNotation (rules u) ++ [ch_newline] ++ cell_lines ps) =
    take 10 header_106 :: (tag_N ++ name u) :: (tag_S ++ print_size (width f) ++ [ch_space] ++ print_size (height f)) ::
      (tag_R ++ toMCellNotation (rules u)) :: (cell_line <$> ps)) as ->.
  { apply file_lines; [done|lia|lia|done|]. apply Forall_forall. intros [a b] Hin%Hps. cbn. lia. }
  cbn [read_lines]. rewrite read_header, read_name.
  rewrite (read_dimensions _ _ _ (mkUniverse (name u) (rules u0) f0 f0)) by (lia || (unfold Universe_resize; cbn [universe setName main_field twin_field u0]; by rewrite resize_zero by lia)).
  rewrite read_rules by done. unfold setRules. cbn [universe name rules main_field twin_field r_width r_height size_found]. rewrite E. cbn iota.
  split; [done|]. cbn [universe set_field]. rewrite Ef. split; [|done].
  by split.
Qed.

(** ** Any file *)

(** The columns are as the sizes say, and there are none or at least 3 by 3 cells. *)
Record field_wf (f : Field) : Prop := {
  fw_columns : zlen (field_data f) = width f;
  fw_cells : forall x, 0 <= x < width f -> zlen (znth (field_data f) x) = height f;
  fw_sizes : width f = 0 /\ height f = 0 \/ 3 <= width f /\ 3 <= height f
}.

Record universe_wf (u : Universe) : Prop := {
  uw_rules : rules_ok (rules u);
  uw_main : field_wf (main_field u);
  uw_twin : field_wf (twin_field u);
  uw_width : width (twin_field u) = width (main_field u);
  uw_height : height (twin_field u) = height (main_field u)
}.

Record reading_wf (s : reading) : Prop := {
  rw_universe : universe_wf (universe s);
  rw_width : size_found s = true -> r_width s = width (main_field (universe s));
  rw_height : size_found s = true -> r_height s = height (main_field (universe s))
}.

Lemma vec_resize_length {A} (l : list A) n d : 0 <= n -> zlen (vec_resize l n d) = n.
Proof. intros Hn. unfold vec_resize, zlen. rewrite length_app, length_take, length_replicate. lia. Qed.

Lemma resize_wf f w h f' : Field_resize f w h = inr f' -> field_wf f' /\ width f' = w /\ height f' = h.
Proof.
  unfold Field_resize, validateSize. destruct (Z.ltb_spec w 3), (Z.ltb_spec h 3); try done. intros [= <-]. cbn [width height].
  split; [|done]. split; cbn [field_data width height].
  - unfold zlen. rewrite length_fmap. by apply vec_resize_length; lia.
  - intros x Hx. set (cols := vec_resize (field_data f) w []). assert (zlen cols = w) as Hc by (apply vec_resize_length; lia).
    assert (is_Some (cols !! Z.to_nat x)) as [col Hcol] by (apply lookup_lt_is_Some; unfold zlen in Hc; lia).
    unfold znth. rewrite (list_lookup_total_correct _ _ (vec_resize col h false)) by (by rewrite list_lookup_fmap, Hcol).
    apply vec_resize_length. lia.
  - right. lia.
Qed.

Lemma read_flags_total s : forall flags, zlen flags = 9 -> exists flags', read_flags s flags = Ok flags' /\ zlen flags' = 9.
Proof.
  induction s as [|c s IH]; intros flags Hl; cbn [read_flags]; [by exists flags|].
  destruct ((ch_0 <=? c) && (c <=? ch_0 + 9) && (c <=? ch_0 + 8)) eqn:E; [|by apply IH].
  rewrite arr_set_ok by (unfold ch_0 in *; lia). apply IH. by rewrite zlen_zset.
Qed.

Lemma notation_total n :
  FromMCellNotation n = Ok (inl (RuntimeError NoSeparator)) \/ exists r, FromMCellNotation n = Ok (inr r) /\ rules_ok r.
Proof.
  unfold FromMCellNotation. destruct (find_slash n) as [[l r]|]; [|by left]. right.
  destruct (read_flags_total l no_flags eq_refl) as (b & -> & Hb). destruct (read_flags_total r no_flags eq_refl) as (s & -> & Hs).
  eexists. split; [done|]. by split.
Qed.

Lemma field_set_wf f x y v :
  field_wf f -> on_field f x y -> exists f', field_set f x y v = Ok f' /\ field_wf f' /\ width f' = width f /\ height f' = height f.
Proof.
  intros [H1 H2 H3] [Hx Hy]. unfold field_set.
  destruct (mat_set_ok (field_data f) (width f) (height f) x y v H1 H2 Hx Hy) as (d & -> & Hd1 & Hd2 & _).
  eexists. split; [done|]. split; [by split|done].
Qed.

(** A number that has been read is one of 64 bits. *)
Lemma read_number_nonneg s : forall acc any n any' rest, 0 <= acc -> read_number s acc any = (n, any', rest) -> 0 <= n.
Proof.
  induction s as [|c s IH]; intros acc any n any' rest Ha; cbn [read_number]; [by intros [= <- _ _]|].
  destruct (is_digit c) eqn:Ed; [|by intros [= <- _ _]]. apply digit_range in Ed. apply IH. lia.
Qed.

Lemma read_size_range s n rest : read_size s = Some (n, rest) -> 0 <= n < 2 ^ 64.
Proof.
  unfold read_size. destruct (match skip_space s with [] => _ | _ :: _ => _ end) as [neg s'].
  destruct (read_number s' 0 false) as [[m any] r] eqn:E. apply read_number_nonneg in E; [|lia].
  destruct (negb any); [done|]. cbn [orb]. destruct (Z.ltb_spec UINT64_MAX m); [done|]. intros [= <- _].
  destruct neg; [unfold u64; apply Z.mod_pos_bound; lia|unfold UINT64_MAX in *; lia].
Qed.

Lemma read_two_range s a b : read_two s = Some (a, b) -> 0 <= a < 2 ^ 64 /\ 0 <= b < 2 ^ 64.
Proof.
  unfold read_two. destruct (read_size s) as [[n rest]|] eqn:E; [|done]. destruct (read_size rest) as [[m rest']|] eqn:E'; [|done].
  intros [= <- <-]. split; by eapply read_size_range.
Qed.

Lemma read_line_wf s line : reading_wf s -> exists r, read_line s line = Ok r /\ match r with inr s' => reading_wf s' | inl _ => True end.
Proof.
  intros Hs. pose proof Hs as [[Hr Hm Ht Ew Eh] Hw Hh]. unfold read_line.
  destruct (starts_with line tag_N); [eexists; split; [done|]; split; [split; done|done|done]|]. destruct (starts_with line tag_R).
  { destruct (notation_total (drop 3 line)) as [-> |(r & -> & Hr')]; [by eexists|]. eexists. split; [done|]. split; [|done|done].
    split; [done|done|done|done|done]. }
  destruct (starts_with line tag_S).
  { destruct (read_two (drop 3 line)) as [[w h]|]; [|by eexists]. unfold Universe_resize.
    destruct (Field_resize (main_field (universe s)) w h) as [e|m] eqn:Em; [by eexists|].
    destruct (Field_resize (twin_field (universe s)) w h) as [e|t] eqn:Et; [by eexists|].
    apply resize_wf in Em as (Hm' & <- & <-), Et as (Ht' & E1 & E2). eexists. split; [done|].
    split; [|done|done]. split; [done|done|done|done|done]. }
  destruct (negb _); [|by eexists]. destruct (size_found s) eqn:Ef; [|by eexists].
  destruct (read_two line) as [[x y]|] eqn:E2; [|by eexists]. apply read_two_range in E2 as [Hx Hy].
  destruct (Z.leb_spec (r_width s) x), (Z.leb_spec (r_height s) y); cbn [orb]; [by eexists..|].
  rewrite Hw in * by done. rewrite Hh in * by done.
  destruct (field_set_wf (main_field (universe s)) x y true Hm) as (f' & -> & Hf' & W' & H'); [split; lia|].
  eexists. split; [done|]. split; [|cbn; intros _; lia|cbn; intros _; lia].
  split; cbn; [done|done|done|congruence|congruence].
Qed.

Lemma read_lines_wf ls : forall s, reading_wf s -> exists r, read_lines s ls = Ok r /\ match r with inr s' => reading_wf s' | inl _ => True end.
Proof.
  induction ls as [|line ls IH]; intros s Hs; cbn [read_lines]; [by eexists|].
  destruct (read_line_wf s line Hs) as ([e|s'] & -> & Hs'); [by eexists|]. by apply IH.
Qed.

(** C37.  Whatever the file holds, [ReadFromFile] comes to an end without an access outside
    the field: it throws an exception, or returns a universe with 9 flags in each rule and
    with two fields of the same size, whose columns are as their sizes say, with no cells
    or at least 3 by 3. *)
Theorem life_file_wellformed file :
  exists r, ReadFromFile file = Ok r /\ match r with inr u => universe_wf u | inl _ => True end.
Proof.
  destruct file as [text|]; [|by eexists]. cbn [ReadFromFile].
  change Universe_default with (Ok (mkUniverse unnamed (mkRules (<[3%nat := true]> no_flags) (<[3%nat := true]> (<[2%nat := true]> no_flags))) Field_zero Field_zero)). cbn iota.
  set (s := mkReading _ _ _ _). destruct (read_lines_wf (lines text) s) as ([e|s'] & -> & Hs'); [|by eexists|].
  - split; [|done|done]. split; [done| | |done|done]; (split; [done|cbn; lia|by left]).
  - eexists. split; [done|]. apply Hs'.
Qed.

Lemma life_file_roundtrip_witness :
  exists text u', WriteToFile blinker = Ok text /\ ReadFromFile (Some text) = Ok (inr u') /\ main_field u' = main_field blinker.
Proof.
  destruct (life_file_roundtrip blinker blinker_ok) as (text & u' & H1 & H2 & _ & _ & _ & H3).
  - repeat (apply Forall_cons; split; [discriminate|]). apply Forall_nil_2.
  - exists text, u'. split; [exact H1|]. split; [exact H2|exact H3].
Defined.
