(* ===== verification/Csv.v ===== *)
(** * C++-Labs/lab_4_csv_parser

    The parser of [CSVParser.h], for columns of the types [std::string] and [int].  A
    stream is what is left of its text; the types of the template are a list.  An access
    outside a string is undefined, and so is the use of a variable that the stream did
    not write.  A row that is read gives its values or an exception; the parser is left as
    the code leaves it. *)
From S2P Require Import Prelude Streams.
#[local] Set Warnings "-clear-no-such-hyp".

(** ** Data *)

Record Config := mkConfig { column_delimiter : Z; line_delimiter : Z; escape_character : Z }.

Definition default_config : Config := mkConfig 44 10 92.

Inductive ctype := TString | TInt.
Inductive value := VString (s : list Z) | VInt (z : Z).

Inductive csv_error :=
  | WrongColumnCount (row expected_number : Z)
  | TypeMismatch (row col : Z) (field : list Z)
  | EmptyField (row col : Z).

(** [istream_] and [current_row_number_] *)
Record parser := mkParser { text : list Z; current_row_number : Z }.

(** The text up to a delimiter, and what follows it. *)
Fixpoint split_at (c : Z) (s : list Z) : list Z * list Z :=
  match s with
  | [] => ([], [])
  | d :: s => if d =? c then ([], s) else let '(l, rest) := split_at c s in (d :: l, rest)
  end.

Fixpoint skipLines (cfg : Config) (p : parser) (n : nat) : parser :=
  match n with
  | O => p
  | S n => skipLines cfg (mkParser (snd (split_at (line_delimiter cfg) (text p))) (current_row_number p)) n
  end.

(** The constructor. *)
Definition CSVParser (cfg : Config) (istream : list Z) (skip_first_lines_count : nat) : parser :=
  skipLines cfg (mkParser istream 1) skip_first_lines_count.

Definition eofReached (p : parser) : bool := bool_decide (text p = []).

(** ** FieldExtractor *)

(** The position of the first [c], or None for [npos]. *)
Fixpoint find_char (c : Z) (s : list Z) : option Z :=
  match s with
  | [] => None
  | d :: s => if d =? c then Some 0 else match find_char c s with Some i => Some (i + 1) | None => None end
  end.

(** The field, the rest of the row and [finished_].  For a delimiter at the position 0 the
    character before it is looked up outside the row. *)
Fixpoint extract_loop (fuel : nat) (cfg : Config) (remained_row extracted_field : list Z) : res (list Z * list Z * bool) :=
  match find_char (column_delimiter cfg) remained_row with
  | None => Ok (extracted_field ++ remained_row, remained_row, true)
  | Some delim_idx =>
      match fuel with
      | O => Err OutOfFuel
      | S fuel =>
          let* before := arr_get remained_row (delim_idx - 1) in
          let rest := drop (Z.to_nat (delim_idx + 1)) remained_row in
          if before =? escape_character cfg then
            extract_loop fuel cfg rest (extracted_field ++ take (Z.to_nat (delim_idx - 1)) remained_row ++ [column_delimiter cfg])
          else Ok (extracted_field ++ take (Z.to_nat delim_idx) remained_row, rest, false)
      end
  end.

Definition extractNextFieldInternal (cfg : Config) (remained_row : list Z) : res (list Z * list Z * bool) :=
  extract_loop (length remained_row) cfg remained_row [].

(** [ss >> value] for an [int]: the value and what the stream has left; None when there is
    nothing but white space, and the variable is not written.  Without digits the value
    is 0, and one that is too large or too small is the nearest limit. *)
Definition read_int (s : list Z) : option (Z * list Z) :=
  match skip_space s with
  | [] => None
  | c :: s' =>
      let '(negative, s) := if c =? 45 then (true, s') else if c =? 43 then (false, s') else (false, c :: s') in
      let '(n, _, rest) := read_number s 0 false in
      Some (Z.max INT_MIN (Z.min INT_MAX (if (negative : bool) then - n else n)), rest)
  end.

Definition convertFieldString (t : ctype) (field : list Z) (row col : Z) : res (csv_error + value) :=
  match t with
  | TString => Ok (inr (VString field))
  | TInt =>
      if bool_decide (field = []) then Ok (inl (EmptyField row col))
      else
        match read_int field with
        | None => Err Undefined
        | Some (v, rest) => if bool_decide (rest = []) then Ok (inr (VInt v)) else Ok (inl (TypeMismatch row col field))
        end
  end.

(** [extractNext] for each type in order; the values and [finished_]. *)
Fixpoint extract_columns (cfg : Config) (types : list ctype) (total row col : Z) (remained_row : list Z) (finished : bool) :
    res (csv_error + list value * bool) :=
  match types with
  | [] => Ok (inr ([], finished))
  | t :: types =>
      if finished then Ok (inl (WrongColumnCount row total))
      else
        let* '(field, remained_row, finished) := extractNextFieldInternal cfg remained_row in
        let* v := convertFieldString t field row col in
        match v with
        | inl e => Ok (inl e)
        | inr v =>
            let* rest := extract_columns cfg types total row (col + 1) remained_row finished in
            match rest with
            | inl e => Ok (inl e)
            | inr (vs, finished) => Ok (inr (v :: vs, finished))
            end
        end
  end.

(** ** Rows *)

Inductive outcome := AtEnd | Row (vs : list value) | Throws (e : csv_error).

(** [operator>>] *)
Definition read_row (cfg : Config) (types : list ctype) (p : parser) : res (outcome * parser) :=
  if eofReached p then Ok (AtEnd, p)
  else
    let '(line, rest) := split_at (line_delimiter cfg) (text p) in
    let* r := extract_columns cfg types (zlen types) (current_row_number p) 0 line false in
    match r with
    | inl e => Ok (Throws e, mkParser rest (current_row_number p))
    | inr (vs, finished) =>
        let p := mkParser rest (current_row_number p + 1) in
        if negb finished then Ok (Throws (WrongColumnCount (current_row_number p) (zlen types)), p)
        else Ok (Row vs, p)
    end.

(** A loop with the iterators from [begin] to [end]: the rows, and the exception that ends
    it, if one does. *)
Fixpoint rows_loop (fuel : nat) (cfg : Config) (types : list ctype) (p : parser) : res (list (list value) * option csv_error) :=
  if eofReached p then Ok ([], None)
  else
    match fuel with
    | O => Err OutOfFuel
    | S fuel =>
        let* '(o, p) := read_row cfg types p in
        match o with
        | Row vs => let* '(rest, e) := rows_loop fuel cfg types p in Ok (vs :: rest, e)
        | Throws e => Ok ([], Some e)
        | AtEnd => Ok ([], None)
        end
    end.

Definition rows (cfg : Config) (types : list ctype) (istream : list Z) (skip : nat) : res (list (list value) * option csv_error) :=
  let p := CSVParser cfg istream skip in rows_loop (length (text p)) cfg types p.

(** ** Writing rows *)

Section Format.
Context (cfg : Config).
#[local] Notation delim := (column_delimiter cfg).
#[local] Notation esc := (escape_character cfg).

(** A delimiter in a field is written with the escape character in front. *)
Definition encode (f : list Z) : list Z := flat_map (fun c => if c =? delim then [esc; delim] else [c]) f.

(** A field that can stand in front of a delimiter. *)
Definition good_field (f : list Z) : Prop := exists f' c, f = f' ++ [c] /\ c <> delim /\ c <> esc.

Lemma find_char_app s c rest : Forall (fun d => d <> c) s -> find_char c (s ++ c :: rest) = Some (zlen s).
Proof.
  induction s as [|d s IH]; intros Hs; cbn [app find_char]; [by rewrite Z.eqb_refl|].
  apply Forall_cons in Hs as [Hd Hs]. destruct (Z.eqb_spec d c); [done|]. by rewrite IH, zlen_cons.
Qed.

Lemma find_char_none s c : Forall (fun d => d <> c) s -> find_char c s = None.
Proof.
  induction s as [|d s IH]; intros Hs; cbn [find_char]; [done|]. apply Forall_cons in Hs as [Hd Hs].
  destruct (Z.eqb_spec d c); [done|]. by rewrite IH.
Qed.

(** A field has no delimiter, or a first one. *)
Lemma first_delimiter f : Forall (fun d => d <> delim) f \/ exists g f', f = g ++ delim :: f' /\ Forall (fun d => d <> delim) g.
Proof.
  induction f as [|c f IH]; [left; constructor|]. destruct (decide (c = delim)) as [->|Hc].
  - right. exists [], f. split; [done|constructor].
  - destruct IH as [H|(g & f' & -> & Hg)]; [left; by constructor|right]. exists (c :: g), f'. split; [done|by constructor].
Qed.

Lemma encode_plain f : Forall (fun d => d <> delim) f -> encode f = f.
Proof.
  induction f as [|c f IH]; intros Hf; [done|]. apply Forall_cons in Hf as [Hc Hf]. unfold encode. cbn [flat_map].
  destruct (Z.eqb_spec c delim); [done|]. cbn [app]. f_equal. by apply IH.
Qed.

Lemma encode_split g f' : Forall (fun d => d <> delim) g -> encode (g ++ delim :: f') = g ++ esc :: delim :: encode f'.
Proof.
  intros Hg. unfold encode. rewrite flat_map_app. fold (encode g). rewrite encode_plain by done. cbn [flat_map].
  by rewrite Z.eqb_refl.
Qed.

Context (Hde : delim <> esc).

Lemma arr_get_last (s : list Z) c rest : arr_get (s ++ c :: rest) (zlen s) = Ok c.
Proof.
  pose proof (zlen_nonneg s). pose proof (zlen_nonneg rest). rewrite arr_get_ok by (rewrite zlen_app, zlen_cons; lia).
  rewrite znth_app_r by lia. by rewrite Z.sub_diag.
Qed.

(** An escaped delimiter is taken over. *)
Lemma extract_escaped fuel g tail acc :
  Forall (fun d => d <> delim) g -> (0 < fuel)%nat ->
  extract_loop fuel cfg (g ++ esc :: delim :: tail) acc = extract_loop (pred fuel) cfg tail (acc ++ g ++ [delim]).
Proof.
  intros Hg Hf. destruct fuel as [|fuel]; [lia|]. cbn [extract_loop pred].
  replace (g ++ esc :: delim :: tail) with ((g ++ [esc]) ++ delim :: tail) by (by rewrite <- app_assoc).
  rewrite find_char_app by (apply Forall_app; split; [done|constructor; [done|constructor]]).
  rewrite zlen_app. change (zlen [esc]) with 1. replace (zlen g + 1 - 1) with (zlen g) by lia.
  replace ((g ++ [esc]) ++ delim :: tail) with (g ++ esc :: delim :: tail) by (by rewrite <- app_assoc).
  rewrite arr_get_last, Z.eqb_refl. unfold zlen. rewrite Nat2Z.id, take_app_length.
  replace (Z.to_nat (Z.of_nat (length g) + 1 + 1)) with (length (g ++ [esc; delim])) by (rewrite length_app; cbn; lia).
  replace (g ++ esc :: delim :: tail) with ((g ++ [esc; delim]) ++ tail) by (by rewrite <- app_assoc).
  by rewrite drop_app_length.
Qed.

(** A field before a delimiter, and the last field of a row. *)
Lemma extract_field n : forall fuel f rest acc,
  (length f <= n)%nat -> (length (encode f) < fuel)%nat -> good_field f ->
  extract_loop fuel cfg (encode f ++ delim :: rest) acc = Ok (acc ++ f, rest, false).
Proof.
  induction n as [|n IH]; intros fuel f rest acc Hn Hf (f0 & c & -> & Hc & Hc').
  { rewrite length_app in Hn. cbn in Hn. lia. }
  destruct (first_delimiter (f0 ++ [c])) as [Hplain|(g & f' & E & Hg)].
  - rewrite encode_plain in * by done. destruct fuel as [|fuel]; [lia|]. cbn [extract_loop]. rewrite find_char_app by done.
    rewrite zlen_app. change (zlen [c]) with 1. replace (zlen f0 + 1 - 1) with (zlen f0) by lia.
    replace ((f0 ++ [c]) ++ delim :: rest) with (f0 ++ c :: delim :: rest) by (by rewrite <- app_assoc).
    rewrite arr_get_last. destruct (Z.eqb_spec c esc); [done|].
    replace (f0 ++ c :: delim :: rest) with ((f0 ++ [c]) ++ delim :: rest) by (by rewrite <- app_assoc).
    replace (Z.to_nat (zlen f0 + 1)) with (length (f0 ++ [c])) by (unfold zlen; rewrite length_app; cbn; lia).
    rewrite take_app_length. unfold zlen. replace (Z.to_nat (Z.of_nat (length f0) + 1 + 1)) with (length ((f0 ++ [c]) ++ [delim])) by (rewrite !length_app; cbn; lia).
    replace ((f0 ++ [c]) ++ delim :: rest) with (((f0 ++ [c]) ++ [delim]) ++ rest) by (by rewrite <- !app_assoc).
    by rewrite drop_app_length.
  - rewrite E in *. rewrite encode_split in * by done. rewrite length_app in Hn, Hf. cbn in Hn, Hf.
    rewrite <- app_assoc. cbn [app]. rewrite extract_escaped by (done || lia). rewrite IH; [|lia|lia|].
    + by rewrite <- !app_assoc.
    + destruct (exists_last (l := f')) as (f1 & d & ->).
      { intros ->. apply app_inj_tail in E as [_ E]. done. }
      exists f1, d. split; [done|]. rewrite app_comm_cons, app_assoc in E. by apply app_inj_tail in E as [_ ->].
Qed.

Lemma extract_last n : forall fuel f acc,
  (length f <= n)%nat -> (length (encode f) <= fuel)%nat ->
  exists rest, extract_loop fuel cfg (encode f) acc = Ok (acc ++ f, rest, true).
Proof.
  induction n as [|n IH]; intros fuel f acc Hn Hf.
  { destruct f; [|cbn in Hn; lia]. exists []. by destruct fuel. }
  destruct (first_delimiter f) as [Hplain|(g & f' & -> & Hg)].
  - rewrite encode_plain by done. exists f. destruct fuel; cbn [extract_loop]; by rewrite find_char_none.
  - rewrite encode_split in * by done. rewrite length_app in Hn, Hf. cbn in Hn, Hf.
    rewrite extract_escaped by (done || lia). destruct (IH (pred fuel) f' (acc ++ g ++ [delim])) as (rest & ->); [lia|lia|].
    exists rest. by rewrite <- !app_assoc.
Qed.

(** *** Values *)

Definition print_int (z : Z) : list Z := if z <? 0 then 45 :: print_size (- z) else print_size z.

Lemma read_print_int z : INT_MIN <= z <= INT_MAX -> read_int (print_int z) = Some (z, []).
Proof.
  unfold INT_MIN, INT_MAX. intros Hz. unfold read_int, print_int. destruct (Z.ltb_spec z 0) as [Hneg|Hpos].
  - change (skip_space (45 :: print_size (- z))) with (45 :: print_size (- z)). cbn [Z.eqb Pos.eqb]. cbn iota.
    destruct (print_size_spec (- z)) as (c & D & E & _ & Hr); [lia|]. specialize (Hr [] I). rewrite app_nil_r in Hr. rewrite Hr.
    f_equal. f_equal. unfold INT_MIN, INT_MAX. lia.
  - destruct (print_size_spec z) as (c & D & E & HD & Hr); [lia|]. specialize (Hr [] I). rewrite app_nil_r in Hr. rewrite E in *.
    apply Forall_cons in HD as [Hc%digit_range _]. cbn [skip_space].
    assert (is_space c = false) as -> by (unfold is_space; zcase; (lia || done)).
    destruct (Z.eqb_spec c 45); [lia|]. destruct (Z.eqb_spec c 43); [lia|]. rewrite Hr. f_equal. f_equal. unfold INT_MIN, INT_MAX. lia.
Qed.

(** The characters of the format are different, and none is part of a number. *)
Definition no_number (c : Z) : Prop := is_digit c = false /\ c <> 45.

Record config_ok : Prop := {
  co_delim : no_number delim;
  co_esc : no_number esc;
  co_line : no_number (line_delimiter cfg);
  co_line_delim : line_delimiter cfg <> delim;
  co_line_esc : line_delimiter cfg <> esc
}.

Definition field_of (v : value) : list Z := match v with VString s => s | VInt z => print_int z end.

Definition has_type (v : value) (t : ctype) : Prop :=
  match v, t with VString _, TString => True | VInt z, TInt => INT_MIN <= z <= INT_MAX | _, _ => False end.

(** A string of one line, and one that can stand in front of others. *)
Definition line_ok (v : value) : Prop := match v with VString s => Forall (fun c => c <> line_delimiter cfg) s | VInt _ => True end.
Definition front_ok (v : value) : Prop := match v with VString s => good_field s | VInt _ => True end.

Fixpoint row_text (vs : list value) : list Z :=
  match vs with
  | [] => []
  | [v] => encode (field_of v)
  | v :: vs => encode (field_of v) ++ delim :: row_text vs
  end.

Fixpoint row_ok (vs : list value) : Prop :=
  match vs with
  | [] => False
  | [v] => line_ok v
  | v :: vs => line_ok v /\ front_ok v /\ row_ok vs
  end.

Context (Hcfg : config_ok).

Lemma print_int_chars z : INT_MIN <= z <= INT_MAX -> Forall (fun c => is_digit c = true \/ c = 45) (print_int z).
Proof.
  unfold INT_MIN, INT_MAX. intros Hz. unfold print_int.
  assert (forall n, 0 <= n < 2 ^ 64 -> Forall (fun c => is_digit c = true \/ c = 45) (print_size n)) as H.
  { intros n Hn. destruct (print_size_spec n Hn) as (c & D & -> & HD & _). eapply Forall_impl; [exact HD|]. by left. }
  destruct (Z.ltb_spec z 0); [constructor; [by right|]|]; apply H; lia.
Qed.

Lemma number_char c d : no_number c -> is_digit d = true \/ d = 45 -> d <> c.
Proof. intros [Hc Hc'] [Hd| ->]; congruence. Qed.

Lemma print_int_good z : INT_MIN <= z <= INT_MAX -> good_field (print_int z).
Proof.
  intros Hz. pose proof (print_int_chars z Hz) as H. destruct (exists_last (l := print_int z)) as (f & c & E).
  - unfold print_int, INT_MIN, INT_MAX in *. destruct (Z.ltb_spec z 0); [done|]. destruct (print_size_spec z) as (c & D & -> & _); [lia|done].
  - exists f, c. split; [done|]. rewrite E in H. apply Forall_app in H as [_ [H _]%Forall_cons].
    split; apply number_char; (apply Hcfg || done).
Qed.

Lemma field_good v t : has_type v t -> front_ok v -> good_field (field_of v).
Proof. destruct v as [s|z], t; cbn; try done. intros Hz _. by apply print_int_good. Qed.

Lemma convert_field v t row col : has_type v t -> convertFieldString t (field_of v) row col = Ok (inr v).
Proof.
  destruct v as [s|z], t; cbn [has_type field_of convertFieldString]; try done. intros Hz.
  destruct (print_int_good z Hz) as (f & c & E & _). rewrite bool_decide_false by (rewrite E; by destruct f).
  rewrite read_print_int by done. by rewrite bool_decide_true.
Qed.

Lemma extract_columns_row types : forall vs total row col,
  Forall2 has_type vs types -> row_ok vs ->
  extract_columns cfg types total row col (row_text vs) false = Ok (inr (vs, true)).
Proof.
  induction types as [|t types IH]; intros vs total row col Ht Hok; destruct vs as [|v vs]; [done|by inversion Ht|by inversion Ht|].
  apply Forall2_cons in Ht as [Hv Ht]. cbn [extract_columns]. unfold extractNextFieldInternal. destruct vs as [|v' vs].
  - apply Forall2_nil_inv_l in Ht as ->. cbn [row_text].
    destruct (extract_last (length (field_of v)) (length (encode (field_of v))) (field_of v) []) as (rest & ->); [lia|lia|].
    cbn [app]. by rewrite (convert_field v t) by done.
  - destruct Hok as (_ & Hfront & Hok). change (row_text (v :: v' :: vs)) with (encode (field_of v) ++ delim :: row_text (v' :: vs)).
    rewrite (extract_field (length (field_of v))); [|lia|rewrite length_app; cbn; lia|by eapply field_good].
    cbn [app]. rewrite (convert_field v t) by done. by rewrite IH.
Qed.

(** ** Tables *)

Lemma split_at_line l rest : Forall (fun c => c <> line_delimiter cfg) l -> split_at (line_delimiter cfg) (l ++ line_delimiter cfg :: rest) = (l, rest).
Proof.
  induction l as [|c l IH]; intros Hl; cbn [app split_at]; [by rewrite Z.eqb_refl|]. apply Forall_cons in Hl as [Hc Hl].
  destruct (Z.eqb_spec c (line_delimiter cfg)); [done|]. by rewrite IH.
Qed.

Lemma field_one_line v t : has_type v t -> line_ok v -> Forall (fun c => c <> line_delimiter cfg) (encode (field_of v)).
Proof.
  intros Ht Hl. assert (Forall (fun c => c <> line_delimiter cfg) (field_of v)) as H.
  { destruct v as [s|z], t; try done. eapply Forall_impl; [by apply print_int_chars|]. intros c Hc. apply number_char; [apply Hcfg|done]. }
  unfold encode. induction H as [|c f Hc H IH]; [constructor|]. cbn [flat_map]. apply Forall_app. split; [|done].
  pose proof (co_line_delim Hcfg). pose proof (co_line_esc Hcfg).
  destruct (Z.eqb_spec c delim); repeat (constructor; try congruence).
Qed.

Lemma row_one_line types : forall vs, Forall2 has_type vs types -> row_ok vs -> Forall (fun c => c <> line_delimiter cfg) (row_text vs).
Proof.
  induction types as [|t types IH]; intros vs Ht Hok; destruct vs as [|v vs]; [done|by inversion Ht|by inversion Ht|].
  apply Forall2_cons in Ht as [Hv Ht]. destruct vs as [|v' vs]; [by eapply field_one_line|].
  destruct Hok as (Hl & _ & Hok). change (row_text (v :: v' :: vs)) with (encode (field_of v) ++ delim :: row_text (v' :: vs)).
  apply Forall_app. split; [by eapply field_one_line|]. constructor; [|by apply IH]. pose proof (co_line_delim Hcfg). congruence.
Qed.

Definition table_text (t : list (list value)) : list Z := flat_map (fun r => row_text r ++ [line_delimiter cfg]) t.

Lemma read_row_ok types vs rest n :
  Forall2 has_type vs types -> row_ok vs ->
  read_row cfg types (mkParser (row_text vs ++ line_delimiter cfg :: rest) n) = Ok (Row vs, mkParser rest (n + 1)).
Proof.
  intros Ht Hok. unfold read_row, eofReached. cbn [text]. rewrite bool_decide_false by (by destruct (row_text vs)).
  rewrite split_at_line by (by eapply row_one_line). cbn [current_row_number]. by rewrite extract_columns_row.
Qed.

Lemma rows_loop_table types t : forall fuel n,
  Forall (fun vs => Forall2 has_type vs types /\ row_ok vs) t -> (length (table_text t) <= fuel)%nat ->
  rows_loop fuel cfg types (mkParser (table_text t) n) = Ok (t, None).
Proof.
  induction t as [|vs t IH]; intros fuel n Ht Hf; [by destruct fuel|]. apply Forall_cons in Ht as [[Hvs Hok] Ht].
  unfold table_text in *. cbn [flat_map] in *. rewrite length_app, length_app in Hf. cbn in Hf. destruct fuel as [|fuel]; [lia|].
  rewrite <- app_assoc. cbn [app rows_loop]. unfold eofReached at 1. cbn [text]. rewrite bool_decide_false by (by destruct (row_text vs)).
  rewrite read_row_ok by done. by rewrite IH by (done || lia).
Qed.

(** ** Wrong numbers of columns *)

Lemma extract_columns_short types : forall vs t more total row col,
  Forall2 has_type vs types -> row_ok vs ->
  extract_columns cfg (types ++ t :: more) total row col (row_text vs) false = Ok (inl (WrongColumnCount row total)).
Proof.
  induction types as [|t' types IH]; intros vs t more total row col Ht Hok; destruct vs as [|v vs]; [done|by inversion Ht|by inversion Ht|].
  apply Forall2_cons in Ht as [Hv Ht]. cbn [app extract_columns]. unfold extractNextFieldInternal. destruct vs as [|v' vs].
  - apply Forall2_nil_inv_l in Ht as ->. cbn [row_text].
    destruct (extract_last (length (field_of v)) (length (encode (field_of v))) (field_of v) []) as (rest & ->); [lia|lia|].
    cbn [app]. by rewrite (convert_field v t') by done.
  - destruct Hok as (_ & Hfront & Hok). change (row_text (v :: v' :: vs)) with (encode (field_of v) ++ delim :: row_text (v' :: vs)).
    rewrite (extract_field (length (field_of v))); [|lia|rewrite length_app; cbn; lia|by eapply field_good].
    cbn [app]. rewrite (convert_field v t') by done. by rewrite IH.
Qed.

Lemma extract_columns_long types : forall vs w ws total row col,
  Forall2 has_type vs types -> row_ok (vs ++ w :: ws) -> types <> [] ->
  extract_columns cfg types total row col (row_text (vs ++ w :: ws)) false = Ok (inr (vs, false)).
Proof.
  induction types as [|t types IH]; intros vs w ws total row col Ht Hok Hne; [done|]. destruct vs as [|v vs]; [by inversion Ht|].
  apply Forall2_cons in Ht as [Hv Ht]. cbn [extract_columns]. unfold extractNextFieldInternal.
  assert (row_text ((v :: vs) ++ w :: ws) = encode (field_of v) ++ delim :: row_text (vs ++ w :: ws)) as -> by (by destruct vs).
  assert (front_ok v /\ row_ok (vs ++ w :: ws)) as [Hfront Hrest] by (destruct vs; apply Hok).
  rewrite (extract_field (length (field_of v))); [|lia|rewrite length_app; cbn; lia|by eapply field_good].
  cbn [app]. rewrite (convert_field v t) by done. destruct types as [|t' types].
  - by apply Forall2_nil_inv_r in Ht as ->.
  - by rewrite IH.
Qed.

Lemma read_row_throws types line rest n e :
  Forall (fun c => c <> line_delimiter cfg) line -> extract_columns cfg types (zlen types) n 0 line false = Ok (inl e) ->
  read_row cfg types (mkParser (line ++ line_delimiter cfg :: rest) n) = Ok (Throws e, mkParser rest n).
Proof.
  intros Hl E. unfold read_row, eofReached. cbn [text]. rewrite bool_decide_false by (by destruct line).
  rewrite split_at_line by done. cbn [current_row_number]. by rewrite E.
Qed.
End Format.

(** The lines that are skipped. *)
Lemma skip_lines cfg hdr : forall rest n,
  Forall (Forall (fun c => c <> line_delimiter cfg)) hdr ->
  skipLines cfg (mkParser (flat_map (fun l => l ++ [line_delimiter cfg]) hdr ++ rest) n) (length hdr) = mkParser rest n.
Proof.
  induction hdr as [|l hdr IH]; intros rest n H; [done|]. apply Forall_cons in H as [Hl H]. cbn [flat_map length skipLines text].
  rewrite <- !app_assoc. cbn [app]. rewrite split_at_line by done. by apply IH.
Qed.

(** C30.  What is written is read: a table, below any number of lines that are skipped,
    whose rows have values of the types of the columns, with the delimiters inside strings
    escaped, is read row by row with exactly its values, and without an exception.  A
    string in front of another column must not be empty nor end with a delimiter or an
    escape character. *)
Theorem csv_roundtrip cfg types hdr t :
  column_delimiter cfg <> escape_character cfg -> config_ok cfg ->
  Forall (Forall (fun c => c <> line_delimiter cfg)) hdr ->
  Forall (fun vs => Forall2 has_type vs types /\ row_ok cfg vs) t ->
  rows cfg types (flat_map (fun l => l ++ [line_delimiter cfg]) hdr ++ table_text cfg t) (length hdr) = Ok (t, None).
Proof.
  intros Hde Hcfg Hh Ht. unfold rows, CSVParser. rewrite skip_lines by done. cbn [text]. by apply rows_loop_table.
Qed.

(** What is refused and what is not: a row with too few columns throws with its
    number, one with too many with the number of the next row, and both are behind the
    parser then; an empty field in front of another is looked up outside the row, in any
    row; and for an [int] a single sign is 0, a number that is too large the largest one,
    while an empty field and one with other characters throw. *)
Theorem csv_rejects cfg :
  column_delimiter cfg <> escape_character cfg -> config_ok cfg ->
  (forall ts t more vs rest n, Forall2 has_type vs ts -> row_ok cfg vs ->
    read_row cfg (ts ++ t :: more) (mkParser (row_text cfg vs ++ line_delimiter cfg :: rest) n) =
    Ok (Throws (WrongColumnCount n (zlen (ts ++ t :: more))), mkParser rest n)) /\
  (forall types vs w ws rest n, Forall2 has_type vs types -> types <> [] -> row_ok cfg (vs ++ w :: ws) ->
    Forall (fun c => c <> line_delimiter cfg) (row_text cfg (vs ++ w :: ws)) ->
    read_row cfg types (mkParser (row_text cfg (vs ++ w :: ws) ++ line_delimiter cfg :: rest) n) =
    Ok (Throws (WrongColumnCount (n + 1) (zlen types)), mkParser rest (n + 1))) /\
  (forall t types line rest n, Forall (fun c => c <> line_delimiter cfg) line ->
    read_row cfg (t :: types) (mkParser (column_delimiter cfg :: line ++ line_delimiter cfg :: rest) n) = Err Undefined) /\
  (forall row col, convertFieldString TInt [45] row col = Ok (inr (VInt 0)) /\
     convertFieldString TInt (print_size 99999999999) row col = Ok (inr (VInt INT_MAX)) /\
     convertFieldString TInt [] row col = Ok (inl (EmptyField row col)) /\
     convertFieldString TInt [49; 97] row col = Ok (inl (TypeMismatch row col [49; 97]))).
Proof.
  intros Hde Hcfg. split_and!.
  - intros ts t more vs rest n Ht Hok. apply read_row_throws; [by eapply row_one_line|]. by apply extract_columns_short.
  - intros types vs w ws rest n Ht Hne Hok Hline. unfold read_row, eofReached. cbn [text].
    rewrite bool_decide_false by (by destruct (row_text cfg (vs ++ w :: ws))).
    rewrite split_at_line by done. cbn [current_row_number]. by rewrite extract_columns_long.
  - intros t types line rest n Hl. unfold read_row, eofReached. cbn [text]. rewrite bool_decide_false by done.
    pose proof (co_line_delim _ Hcfg). change (column_delimiter cfg :: line ++ line_delimiter cfg :: rest) with ((column_delimiter cfg :: line) ++ line_delimiter cfg :: rest).
    rewrite split_at_line by (constructor; [congruence|done]). cbn [extract_columns]. unfold extractNextFieldInternal. cbn [length extract_loop find_char].
    by rewrite Z.eqb_refl.
  - done.
Qed.

Lemma default_config_ok : config_ok default_config.
Proof. split; by vm_compute. Qed.

Lemma csv_roundtrip_witness :
  rows default_config [TInt; TString] ([35; 10] ++ [45; 55; 44; 97; 92; 44; 98; 10]) 1 = Ok ([[VInt (-7); VString [97; 44; 98]]], None).
Proof.
  apply (csv_roundtrip default_config [TInt; TString] [[35]] [[VInt (-7); VString [97; 44; 98]]]).
  - discriminate.
  - exact default_config_ok.
  - apply Forall_cons. split; [apply Forall_cons; split; [discriminate|apply Forall_nil_2]|apply Forall_nil_2].
  - apply Forall_cons. split; [|apply Forall_nil_2]. split.
    + apply Forall2_cons. split; [cbn; unfold INT_MIN, INT_MAX; lia|]. apply Forall2_cons. split; [done|apply Forall2_nil_2].
    + split; [done|]. split; [done|]. cbn. repeat (apply Forall_cons; split; [discriminate|]). apply Forall_nil_2.
Defined.

Lemma csv_rejects_witness :
  read_row default_config [TInt; TInt] (mkParser [49; 10; 50] 1) = Ok (Throws (WrongColumnCount 1 2), mkParser [50] 1).
Proof.
  destruct (csv_rejects default_config) as (H & _); [discriminate|exact default_config_ok|].
  apply (H [TInt] TInt [] [VInt 1] [50] 1).
  - apply Forall2_cons. split; [cbn; unfold INT_MIN, INT_MAX; lia|apply Forall2_nil_2].
  - done.
Defined.
