(* ===== verification/Balancer.v ===== *)
(** * OPP-Labs/lab_5_loadbalancing

    Processes that share tasks: each has a queue ([BlockingQueue.h]), a thread that
    executes tasks ([WorkerThread.cpp]), one that asks other processes for tasks
    ([ReceiverThread.cpp]) and one that answers such requests ([SenderThread.cpp]).  A step
    of the model is one access of one thread to what the threads share: an operation of
    the queue, which its mutex makes atomic, a flag, or a message.  Messages of one
    process to another arrive in order; waiting for one may time out whenever there is
    none.  A process's state is followed through one iteration of [main.cpp]: the tasks
    are in the queues, and the call-back stops the worker.

    Tasks are numbers.  [lost] is not in the code: it holds the tasks that a thread has
    taken from a queue and dropped. *)
From S2P Require Import Prelude Threads.
#[local] Open Scope Z_scope.
#[local] Set Warnings "-clear-no-such-hyp".

Definition MIN_TASKS_IN_QUEUE_TO_REQUEST_NEW : Z := 10.
Definition WANTED_TASKS_COUNT : Z := 20000.
Definition MIN_TASKS_IN_QUEUE_TO_SHARE : Z := 5.
Definition MAX_TASKS_TO_SHARE : Z := 40.

(** ** The threads *)

Inductive worker :=
  | WTest                 (* the condition of the loop: mStopped, *)
  | WEmpty                (* then Empty *)
  | WRequest              (* RequestTasks *)
  | WPop                  (* the mutex of WaitAndPop, at its start or after being woken *)
  | WWaiting              (* in mCondVar.wait *)
  | WRun (t : Z)          (* Execute *)
  | WDone.

Inductive receiver :=
  | RLoop                                                   (* mWakeUp.wait_for and the flag *)
  | RClear
  | RSize
  | RShuffle
  | RAsk (order : list nat) (wanted got : Z)                (* the loop over the processes *)
  | RWait (proc : nat) (order : list nat) (wanted got : Z)  (* ReceiveTasks *)
  | RPush (tasks : list Z) (n : Z) (order : list nat) (wanted got : Z)
  | RStop                                                   (* the call-back: Stop, *)
  | RNotify                                                 (* then the two steps of *)
  | RInterrupt.                                             (* InterruptWaiting *)

Inductive sender :=
  | SWait                                                   (* ReceiveTasksRequest *)
  | SFill (src : nat) (wanted i : Z) (tasksToSend : list Z)
  | SPopped (src : nat) (wanted i : Z) (tasksToSend : list Z) (t : Z)
  | SSend (src : nat) (tasksToSend : list Z).

Record proc := mkProc {
  queue : list Z;
  interrupted : bool;
  requested : bool;
  stopped : bool;
  wk : worker;
  rc : receiver;
  sd : sender;
  executed : list Z;
  lost : list Z
}.

(** Requests carry the receiving and the asking process, replies the sending and the
    receiving one. *)
Record config := mkConfig {
  procs : list proc;
  requests : list (nat * nat * Z);
  replies : list (nat * nat * list Z)
}.

Definition set_wk (p : proc) (w : worker) : proc := mkProc (queue p) (interrupted p) (requested p) (stopped p) w (rc p) (sd p) (executed p) (lost p).
Definition set_rc (p : proc) (r : receiver) : proc := mkProc (queue p) (interrupted p) (requested p) (stopped p) (wk p) r (sd p) (executed p) (lost p).
Definition set_sd (p : proc) (s : sender) : proc := mkProc (queue p) (interrupted p) (requested p) (stopped p) (wk p) (rc p) s (executed p) (lost p).
Definition set_queue (p : proc) (q : list Z) : proc := mkProc q (interrupted p) (requested p) (stopped p) (wk p) (rc p) (sd p) (executed p) (lost p).
Definition set_interrupted (p : proc) (b : bool) : proc := mkProc (queue p) b (requested p) (stopped p) (wk p) (rc p) (sd p) (executed p) (lost p).
Definition set_requested (p : proc) (b : bool) : proc := mkProc (queue p) (interrupted p) b (stopped p) (wk p) (rc p) (sd p) (executed p) (lost p).
Definition set_stopped (p : proc) : proc := mkProc (queue p) (interrupted p) (requested p) true (wk p) (rc p) (sd p) (executed p) (lost p).
Definition add_executed (p : proc) (t : Z) : proc := mkProc (queue p) (interrupted p) (requested p) (stopped p) (wk p) (rc p) (sd p) (executed p ++ [t]) (lost p).
Definition add_lost (p : proc) (t : Z) : proc := mkProc (queue p) (interrupted p) (requested p) (stopped p) (wk p) (rc p) (sd p) (executed p) (lost p ++ [t]).

(** ** BlockingQueue.h *)

(** [notify_all]; only the worker waits. *)
Definition notify_all (p : proc) : proc := match wk p with WWaiting => set_wk p WPop | _ => p end.

Definition Push (p : proc) (t : Z) : proc := notify_all (set_queue p (queue p ++ [t])).

Definition TryPop (p : proc) : option Z * proc :=
  match queue p with
  | [] => (None, p)
  | t :: q => (Some t, set_queue p q)
  end.

(** [WaitAndPop] with the mutex: the worker waits, gets nothing, or gets a task. *)
Definition WaitAndPop (p : proc) : proc :=
  match queue p with
  | [] => if interrupted p then set_wk (set_interrupted p false) WTest else set_wk p WWaiting
  | t :: q => if interrupted p then set_wk (set_interrupted p false) WTest else set_wk (set_queue p q) (WRun t)
  end.

(** ** WorkerThread.cpp *)

Definition worker_step (p : proc) : option proc :=
  match wk p with
  | WTest => Some (set_wk p (if negb (stopped p) then WRequest else WEmpty))
  | WEmpty => Some (set_wk p (if negb (bool_decide (queue p = [])) then WRequest else WDone))
  | WRequest => Some (set_wk (set_requested p true) WPop)
  | WPop => Some (WaitAndPop p)
  | WWaiting | WDone => None
  | WRun t => Some (set_wk (add_executed p t) WTest)
  end.

(** ** ReceiverThread.cpp *)

(** The first message from one process to another, and the others. *)
Fixpoint take_reply (src dst : nat) (ms : list (nat * nat * list Z)) : option (list Z * list (nat * nat * list Z)) :=
  match ms with
  | [] => None
  | (s, d, ts) :: ms =>
      if (s =? src)%nat && (d =? dst)%nat then Some (ts, ms)
      else match take_reply src dst ms with Some (ts', ms') => Some (ts', (s, d, ts) :: ms') | None => None end
  end.

(** What follows the reply of a process with [n] tasks. *)
Definition after_reply (n : Z) (order : list nat) (wanted got : Z) : receiver :=
  if wanted - n <=? 0 then RAsk [] (wanted - n) (got + n) else RAsk order (wanted - n) (got + n).

(** [shuffled] is the order that the random numbers give, [timeout] whether waiting for the
    reply ends without one. *)
Definition receiver_step (n self : nat) (c : config) (p : proc) (shuffled : list nat) (timeout : bool) :
    option (proc * list (nat * nat * Z) * list (nat * nat * list Z)) :=
  match rc p with
  | RLoop => if requested p then Some (set_rc p RClear, requests c, replies c) else None
  | RClear => Some (set_rc (set_requested p false) RSize, requests c, replies c)
  | RSize =>
      Some (set_rc p (if MIN_TASKS_IN_QUEUE_TO_REQUEST_NEW <? zlen (queue p) then RLoop else RShuffle), requests c, replies c)
  | RShuffle =>
      if bool_decide (shuffled ≡ₚ seq 0 n) then Some (set_rc p (RAsk shuffled WANTED_TASKS_COUNT 0), requests c, replies c) else None
  | RAsk [] wanted got => Some (set_rc p (if got =? 0 then RStop else RLoop), requests c, replies c)
  | RAsk (q :: order) wanted got =>
      if (q =? self)%nat then Some (set_rc p (RAsk order wanted got), requests c, replies c)
      else Some (set_rc p (RWait q order wanted got), requests c ++ [(q, self, wanted)], replies c)
  | RWait q order wanted got =>
      match take_reply q self (replies c) with
      | Some (ts, ms) => Some (set_rc p (RPush ts (zlen ts) order wanted got), requests c, ms)
      | None => if timeout then Some (set_rc p (after_reply 0 order wanted got), requests c, replies c) else None
      end
  | RPush [] m order wanted got => Some (set_rc p (after_reply m order wanted got), requests c, replies c)
  | RPush (t :: ts) m order wanted got => Some (set_rc (Push p t) (RPush ts m order wanted got), requests c, replies c)
  | RStop => Some (set_rc (set_stopped p) RNotify, requests c, replies c)
  | RNotify => Some (set_rc (notify_all p) RInterrupt, requests c, replies c)
  | RInterrupt => Some (set_rc (set_interrupted p true) RLoop, requests c, replies c)
  end.

(** ** SenderThread.cpp *)

(** A request to a process: which of them, as they come from any source, is [k]. *)
Fixpoint take_request (k : nat) (dst : nat) (ms : list (nat * nat * Z)) : option (nat * Z * list (nat * nat * Z)) :=
  match ms with
  | [] => None
  | (d, s, wanted) :: ms =>
      let later k := match take_request k dst ms with Some (s', w', ms') => Some (s', w', (d, s, wanted) :: ms') | None => None end in
      if (d =? dst)%nat then match k with O => Some (s, wanted, ms) | S k => later k end else later k
  end.

(** [dropped] is whether the request comes in just before the reception is cancelled. *)
Definition sender_step (self : nat) (c : config) (p : proc) (k : nat) (dropped : bool) :
    option (proc * list (nat * nat * Z) * list (nat * nat * list Z)) :=
  match sd p with
  | SWait =>
      match take_request k self (requests c) with
      | None => None
      | Some (src, wanted, ms) => Some (set_sd p (if dropped then SWait else SFill src wanted 0 []), ms, replies c)
      end
  | SFill src wanted i ts =>
      if i <? Z.min wanted MAX_TASKS_TO_SHARE then
        match TryPop p with
        | (None, p) => Some (set_sd p (SSend src ts), requests c, replies c)
        | (Some t, p) => Some (set_sd p (SPopped src wanted i ts t), requests c, replies c)
        end
      else Some (set_sd p (SSend src ts), requests c, replies c)
  | SPopped src wanted i ts t =>
      if zlen (queue p) <? MIN_TASKS_IN_QUEUE_TO_SHARE then Some (set_sd (add_lost p t) (SSend src ts), requests c, replies c)
      else Some (set_sd p (SFill src wanted (i + 1) (ts ++ [t])), requests c, replies c)
  | SSend src ts => Some (set_sd p SWait, requests c, replies c ++ [(self, src, ts)])
  end.

(** ** Steps *)

Inductive action :=
  | Work
  | WakeUp                 (* the wait of the worker ends without a notification *)
  | Receive (shuffled : list nat) (timeout : bool)
  | Answer (k : nat) (dropped : bool).

Definition exec (c : config) (ia : nat * action) : option config :=
  let '(i, a) := ia in
  match procs c !! i with
  | None => None
  | Some p =>
      match
        match a with
        | Work => match worker_step p with Some p => Some (p, requests c, replies c) | None => None end
        | WakeUp => match wk p with WWaiting => Some (set_wk p WPop, requests c, replies c) | _ => None end
        | Receive shuffled timeout => receiver_step (length (procs c)) i c p shuffled timeout
        | Answer k dropped => sender_step i c p k dropped
        end
      with
      | None => None
      | Some (p, rq, rp) => Some (mkConfig (<[i := p]> (procs c)) rq rp)
      end
  end.

(** The start of an iteration: the tasks of each process in its queue. *)
Definition start_proc (ts : list Z) : proc := mkProc ts false false false WTest RLoop SWait [] [].
Definition start (qs : list (list Z)) : config := mkConfig (start_proc <$> qs) [] [].

(** ** Where the tasks are *)

(** The tasks that a thread has in its hands, those of a process, and all of them. *)
Definition worker_hand (w : worker) : list Z := match w with WRun t => [t] | _ => [] end.
Definition receiver_hand (r : receiver) : list Z := match r with RPush ts _ _ _ _ => ts | _ => [] end.
Definition sender_hand (s : sender) : list Z :=
  match s with SWait => [] | SFill _ _ _ ts => ts | SPopped _ _ _ ts t => ts ++ [t] | SSend _ ts => ts end.

Definition held (p : proc) : list Z :=
  queue p ++ executed p ++ lost p ++ worker_hand (wk p) ++ receiver_hand (rc p) ++ sender_hand (sd p).

Definition all_tasks (c : config) : list Z := concat (held <$> procs c) ++ concat (snd <$> replies c).

Lemma concat_insert (l : list proc) i p p' (x y : list Z) :
  l !! i = Some p -> held p' ++ x ≡ₚ held p ++ y ->
  concat (held <$> <[i := p']> l) ++ x ≡ₚ concat (held <$> l) ++ y.
Proof.
  intros Hi Hp. assert (i < length l)%nat as Hlt by (by apply lookup_lt_Some in Hi).
  rewrite insert_take_drop by done. rewrite <- (take_drop_middle l i p Hi) at 3.
  rewrite !fmap_app, !concat_app. cbn [fmap list_fmap concat]. rewrite <- !app_assoc. apply Permutation_app_head.
  rewrite (Permutation_app_comm _ x), (Permutation_app_comm _ y), !app_assoc. by apply Permutation_app_tail.
Qed.

Lemma take_reply_perm src dst ms : forall ts ms', take_reply src dst ms = Some (ts, ms') -> concat (snd <$> ms) ≡ₚ ts ++ concat (snd <$> ms').
Proof.
  induction ms as [|[[s d] us] ms IH]; intros ts ms'; cbn [take_reply]; [done|].
  destruct ((s =? src)%nat && (d =? dst)%nat); [by intros [= <- <-]|].
  destruct (take_reply src dst ms) as [[ts0 ms0]|]; [|done]. intros [= <- <-]. cbn [fmap list_fmap concat snd].
  rewrite (IH ts0 ms0 eq_refl). rewrite !app_assoc. by apply Permutation_app_tail, Permutation_app_comm.
Qed.

(** [solve_Permutation] for goals with elements in front of lists. *)
Ltac perm_lists :=
  repeat match goal with
  | |- context [?x :: ?l] => lazymatch l with [] => fail | _ => change (x :: l) with ([x] ++ l) end
  end;
  solve_Permutation.

Lemma worker_conserves p p' : worker_step p = Some p' -> held p' ≡ₚ held p.
Proof.
  destruct p as [q it rq st w r s ex lo]. unfold worker_step, WaitAndPop, held. cbn.
  destruct w; intros [= <-]; try done; cbn.
  - by destruct st.
  - by destruct (bool_decide _).
  - destruct q as [|t q], it; cbn; [done|done|done|]. perm_lists.
  - perm_lists.
Qed.

Lemma receiver_conserves n self c p shuffled timeout p' rq rp :
  receiver_step n self c p shuffled timeout = Some (p', rq, rp) -> held p' ++ concat (snd <$> rp) ≡ₚ held p ++ concat (snd <$> replies c).
Proof.
  unfold receiver_step. intros H.
  assert (forall r', receiver_hand (rc p) = receiver_hand r' -> held (set_rc p r') = held p) as Hrc.
  { intros r' E. unfold held. cbn. by rewrite E. }
  destruct (rc p) as [| | | |[|q order] wanted got|q order wanted got|[|t ts] m order wanted got| | |] eqn:Er.
  - destruct (requested p); [|done]. injection H as <- <- <-. by rewrite Hrc.
  - injection H as <- <- <-. unfold held. cbn. by rewrite Er.
  - injection H as <- <- <-. rewrite Hrc; [done|]. by destruct (_ <? _).
  - destruct (bool_decide _); [|done]. injection H as <- <- <-. by rewrite Hrc.
  - injection H as <- <- <-. rewrite Hrc; [done|]. by destruct (_ =? _).
  - destruct (_ =? _)%nat; injection H as <- <- <-; by rewrite Hrc.
  - destruct (take_reply q self (replies c)) as [[ts ms]|] eqn:Et.
    + injection H as <- <- <-. rewrite (take_reply_perm _ _ _ _ _ Et). unfold held. cbn. rewrite Er. cbn. perm_lists.
    + destruct timeout; [|done]. injection H as <- <- <-. rewrite Hrc; [done|]. unfold after_reply. by destruct (_ <=? _).
  - injection H as <- <- <-. rewrite Hrc; [done|]. unfold after_reply. by destruct (_ <=? _).
  - injection H as <- <- <-. apply Permutation_app_tail. unfold Push, notify_all. cbn. unfold held.
    destruct (wk p) eqn:Ew; cbn; rewrite ?Er, ?Ew; cbn; perm_lists.
  - injection H as <- <- <-. unfold held. cbn. by rewrite Er.
  - injection H as <- <- <-. unfold notify_all, held. destruct (wk p) eqn:Ew; cbn; rewrite ?Er, ?Ew; done.
  - injection H as <- <- <-. unfold held. cbn. by rewrite Er.
Qed.

Lemma sender_conserves self c p k dropped p' rq rp :
  sender_step self c p k dropped = Some (p', rq, rp) -> held p' ++ concat (snd <$> rp) ≡ₚ held p ++ concat (snd <$> replies c).
Proof.
  destruct p as [q it rqd st w r s ex lo]. unfold sender_step, TryPop, held. cbn.
  destruct s as [|src wanted i ts|src wanted i ts t|src ts].
  - destruct (take_request k self (requests c)) as [[[src wanted] ms]|]; [|done]. intros [= <- <- <-]. cbn. by destruct dropped.
  - destruct (i <? _); [|by intros [= <- <- <-]]. destruct q as [|t q]; intros [= <- <- <-]; cbn; [done|]. perm_lists.
  - destruct (_ <? _); intros [= <- <- <-]; cbn; perm_lists.
  - intros [= <- <- <-]. cbn. rewrite fmap_app, concat_app. cbn. rewrite !app_nil_r. perm_lists.
Qed.

Lemma exec_conserves c ia c' : exec c ia = Some c' -> all_tasks c' ≡ₚ all_tasks c.
Proof.
  destruct ia as [i a]. unfold exec. destruct (procs c !! i) as [p|] eqn:Ep; [|done].
  destruct (match a with Work => _ | WakeUp => _ | Receive _ _ => _ | Answer _ _ => _ end) as [[[p' rq] rp]|] eqn:E; [|done].
  intros [= <-]. unfold all_tasks. cbn [procs replies]. apply (concat_insert _ _ p); [done|].
  destruct a as [| |shuffled timeout|k dropped].
  - destruct (worker_step p) as [p1|] eqn:Ew; [|done]. injection E as <- <- <-. apply Permutation_app_tail. by apply worker_conserves.
  - destruct (wk p) eqn:Ew; try done. injection E as <- <- <-. apply Permutation_app_tail. unfold held. cbn. by rewrite Ew.
  - by eapply receiver_conserves.
  - by eapply sender_conserves.
Qed.

Lemma steps_conserve c c' : rtc (step exec) c c' -> all_tasks c' ≡ₚ all_tasks c.
Proof. induction 1 as [|c1 c2 c3 [ia H] _ IH]; [done|]. rewrite IH. by eapply exec_conserves. Qed.

(** ** What follows *)

Definition all_executed (c : config) : list Z := concat (executed <$> procs c).
Definition all_lost (c : config) : list Z := concat (lost <$> procs c).

Lemma executed_lost_held (l : list proc) : concat (executed <$> l) ++ concat (lost <$> l) ⊆+ concat (held <$> l).
Proof.
  induction l as [|p l IH]; [done|]. cbn [fmap list_fmap concat].
  transitivity ((executed p ++ lost p) ++ concat (executed <$> l) ++ concat (lost <$> l)); [solve_submseteq|].
  apply submseteq_app; [|exact IH]. unfold held. solve_submseteq.
Qed.

Lemma tasks_apart c :
  NoDup (all_tasks c) -> NoDup (all_executed c) /\ forall t, t ∈ all_lost c -> t ∉ all_executed c.
Proof.
  intros Hnd. assert (all_executed c ++ all_lost c ⊆+ all_tasks c) as Hsub.
  { unfold all_tasks. etransitivity; [apply executed_lost_held|]. solve_submseteq. }
  apply submseteq_Permutation in Hsub as (r & Hr). rewrite Hr in Hnd. apply NoDup_app in Hnd as [Hnd _].
  apply NoDup_app in Hnd as (H1 & H2 & _). split; [done|]. intros t Hl He. by apply (H2 t).
Qed.

Lemma exec_lost c ia c' t : exec c ia = Some c' -> t ∈ all_lost c -> t ∈ all_lost c'.
Proof.
  destruct ia as [i a]. unfold exec. destruct (procs c !! i) as [p|] eqn:Ep; [|done].
  destruct (match a with Work => _ | WakeUp => _ | Receive _ _ => _ | Answer _ _ => _ end) as [[[p' rq] rp]|] eqn:E; [|done].
  intros [= <-]. assert (exists more, lost p' = lost p ++ more) as [more Hmore].
  { destruct a as [| |shuffled timeout|k dropped].
    - unfold worker_step, WaitAndPop in E. exists [].
      destruct (wk p), (queue p), (interrupted p); try done; injection E as <- <- <-; cbn; by rewrite app_nil_r.
    - exists []. destruct (wk p); try done. injection E as <- <- <-. cbn. by rewrite app_nil_r.
    - exists []. rewrite app_nil_r. unfold receiver_step, Push, notify_all in E.
      destruct (rc p) as [| | | |[|]| |[|]| | |]; repeat case_match; simplify_eq; done.
    - unfold sender_step, TryPop in E. destruct (sd p); repeat case_match; simplify_eq; cbn; rewrite ?app_nil_r; eauto using app_nil_r. }
  unfold all_lost. cbn [procs]. assert (i < length (procs c))%nat as Hlt by (by apply lookup_lt_Some in Ep).
  rewrite insert_take_drop by done. rewrite <- (take_drop_middle (procs c) i p Ep) at 1.
  rewrite !fmap_app, !concat_app. cbn [fmap list_fmap concat]. rewrite Hmore, !elem_of_app. tauto.
Qed.

Lemma start_tasks qs : all_tasks (start qs) = concat qs.
Proof.
  unfold all_tasks, start. cbn. rewrite app_nil_r. induction qs as [|q qs IH]; [done|]. cbn. rewrite IH. unfold held. cbn.
  by rewrite app_nil_r.
Qed.

(** C16.  Whatever the threads of the processes do, in any order, and however long messages
    take: every task that was in a queue at the start is at any time in exactly one
    place: in a queue, in the hands of a thread, in a message, executed, or lost.  So no
    task is executed twice, none is executed that was not there, and one that is lost is
    never executed. *)
Theorem tasks_conserved qs c :
  NoDup (concat qs) -> rtc (step exec) (start qs) c ->
  all_tasks c ≡ₚ concat qs /\ NoDup (all_executed c) /\ (forall t, t ∈ all_executed c -> t ∈ concat qs) /\
  forall t c', t ∈ all_lost c -> rtc (step exec) c c' -> t ∉ all_executed c'.
Proof.
  intros Hnd Hc. pose proof (steps_conserve _ _ Hc) as Hall. rewrite start_tasks in Hall.
  assert (NoDup (all_tasks c)) as Hnd' by (by rewrite Hall). split; [done|]. split; [by apply tasks_apart|]. split.
  - intros t Ht. rewrite <- Hall. unfold all_tasks. apply elem_of_app. left.
    eapply elem_of_submseteq; [|apply executed_lost_held]. apply elem_of_app. by left.
  - intros t c' Ht Hcc'. assert (t ∈ all_lost c') as Ht'.
    { clear Hnd' Hall Hc. induction Hcc' as [|c1 c2 c3 [ia H] _ IH]; [done|]. by eapply IH, exec_lost. }
    apply tasks_apart; [|done]. by rewrite (steps_conserve _ _ Hcc').
Qed.

(** ** What goes wrong *)

(** A process without tasks asks one with five: the first is taken from the queue, four
    are too few to share, and it is not put back. *)
Definition losing : list (nat * action) :=
  [(0%nat, Work); (0%nat, Work); (0%nat, Receive [] false); (0%nat, Receive [] false); (0%nat, Receive [] false);
   (0%nat, Receive [0%nat; 1%nat] false); (0%nat, Receive [] false); (0%nat, Receive [] false);
   (1%nat, Answer 0 false); (1%nat, Answer 0 false); (1%nat, Answer 0 false)].

(** The worker is woken before the flag is set, and waits again. *)
Definition sleeping : list (nat * action) :=
  [(0%nat, Work); (0%nat, Work); (0%nat, Work); (0%nat, Receive [] false); (0%nat, Receive [] false); (0%nat, Receive [] false);
   (0%nat, Receive [0%nat] false); (0%nat, Receive [] false); (0%nat, Receive [] false); (0%nat, Receive [] false);
   (0%nat, Receive [] false); (0%nat, Work); (0%nat, Receive [] false)].

(** (1) A task can be lost: it is taken from the queue, not sent, and not put back.
    (2) A process can stop for good: its worker has been told to stop and waits, no message
    is on its way, and no thread can take a step unless the wait ends for no reason. *)
Theorem balancer_faults :
  (exists c, rtc (step exec) (start [[]; [1; 2; 3; 4; 5]]) c /\ all_lost c = [1]) /\
  (exists c p, rtc (step exec) (start [[]]) c /\ procs c = [p] /\ wk p = WWaiting /\ stopped p = true /\ interrupted p = true /\
    forall i a, a <> WakeUp -> exec c (i, a) = None).
Proof.
  split.
  - assert (exists c, run exec losing (start [[]; [1; 2; 3; 4; 5]]) = Some c /\ all_lost c = [1]) as (c & H & Hl).
    { eexists. split; [vm_compute; reflexivity|vm_compute; reflexivity]. }
    exists c. split; [by eapply run_steps|done].
  - set (p := mkProc [] true false true WWaiting RLoop SWait [] []).
    assert (run exec sleeping (start [[]]) = Some (mkConfig [p] [] [])) as H by (vm_compute; reflexivity).
    exists (mkConfig [p] [] []), p. split; [by eapply run_steps|]. split_and!; try done.
    intros [|i] a Ha; [|done]. by destruct a.
Qed.

Lemma tasks_conserved_witness :
  exists c, rtc (step exec) (start [[1; 2]]) c /\ all_executed c = [1] /\ all_tasks c ≡ₚ [1; 2].
Proof.
  assert (exists c, run exec [(0%nat, Work); (0%nat, Work); (0%nat, Work); (0%nat, Work)] (start [[1; 2]]) = Some c /\ all_executed c = [1]) as (c & H & He).
  { eexists. split; [vm_compute; reflexivity|vm_compute; reflexivity]. }
  assert (rtc (step exec) (start [[1; 2]]) c) as Hr by (eapply run_steps; exact H).
  exists c. split; [exact Hr|]. split; [exact He|]. apply (tasks_conserved [[1; 2]] c); [|exact Hr].
  cbn. apply NoDup_cons. split; [by vm_compute; intros ?%elem_of_cons; set_solver|]. apply NoDup_singleton.
Defined.
