(* ===== verification/ConvexHull.v ===== *)
(** * C-Labs/Minimal_convex_hull_Graham_algo/src: convex_hull.c, main.c, error_handling.c

    Graham's scan: the lowest point is moved to the front, the others are sorted by the
    angle around it, and a stack in the front of the same array is kept turning left.
    Coordinates are ints and the products of their differences doubles: [double] is the
    rounding of an integer to the nearest one that a double represents, applied after
    every operation.  [qsort_r] is an arbitrary function with the properties of the class
    [QsortR]. *)
From S2P Require Import Prelude.
#[local] Open Scope Z_scope.
#[local] Set Warnings "-clear-no-such-hyp".

Record Vec2i_t := mkVec2i { vx : Z; vy : Z }.

#[global] Instance Vec2i_eq_dec : EqDecision Vec2i_t.
Proof. solve_decision. Defined.
#[global] Instance Vec2i_inhabited : Inhabited Vec2i_t := populate (mkVec2i 0 0).

(** ** Doubles

    The value of an operation whose exact result is the integer [z]: doubles have 53
    significant bits, and ties go to the even one.  All operands here are integers, of
    at most 130 bits, so nothing overflows and nothing is lost below the point. *)
Definition double (z : Z) : Z :=
  let m := Z.abs z in
  if m <=? 2 ^ 53 then z
  else
    let e := Z.log2 m - 52 in
    let q := m / 2 ^ e in
    let r := m mod 2 ^ e in
    let up := (2 ^ (e - 1) <? r) || ((r =? 2 ^ (e - 1)) && Z.odd q) in
    Z.sgn z * ((if up then q + 1 else q) * 2 ^ e).

(** ** [qsort_r]

    For a comparison that orders the elements of the array, as the C standard asks, the
    result is in its order. *)
Class QsortR (A : Type) := {
  qsort_r : (A -> A -> Z) -> list A -> list A;
  qsort_r_perm cmp l : qsort_r cmp l ≡ₚ l;
  qsort_r_sorted cmp l :
    (forall a b, a ∈ l -> b ∈ l -> (0 < cmp a b <-> cmp b a < 0)) ->
    (forall a b c, a ∈ l -> b ∈ l -> c ∈ l -> cmp a b <= 0 -> cmp b c <= 0 -> cmp a c <= 0) ->
    StronglySorted (fun a b => cmp a b <= 0) (qsort_r cmp l)
}.

(** ** convex_hull.c *)

Fixpoint findStartingPoint_loop (fuel : nat) (points : list Vec2i_t) (i starting : Z) : res Z :=
  match fuel with
  | O => Ok starting
  | S fuel =>
      let* p := arr_get points i in
      let* s := arr_get points starting in
      let starting :=
        if vy p <? vy s then i
        else if (vy p =? vy s) && (vx p <? vx s) then i
        else starting in
      findStartingPoint_loop fuel points (i + 1) starting
  end.

Definition findStartingPoint (points : list Vec2i_t) : res Z :=
  findStartingPoint_loop (length points) points 0 0.

Definition cmp (origin a b : Vec2i_t) : Z :=
  let oa_x := double (vx a - vx origin) in
  let oa_y := double (vy a - vy origin) in
  let ob_x := double (vx b - vx origin) in
  let ob_y := double (vy b - vy origin) in
  let prod := double (double (oa_x * ob_y) - double (oa_y * ob_x)) in
  if 0 <? prod then -1
  else if prod <? 0 then 1
  else
    let oa_len := double (double (oa_x * oa_x) + double (oa_y * oa_y)) in
    let ob_len := double (double (ob_x * ob_x) + double (ob_y * ob_y)) in
    if oa_len <? ob_len then -1 else if ob_len <? oa_len then 1 else 0.

Definition checkRotation (o a b : Vec2i_t) : Z :=
  let oa_x := double (vx a - vx o) in
  let oa_y := double (vy a - vy o) in
  let ab_x := double (vx b - vx a) in
  let ab_y := double (vy b - vy a) in
  double (double (oa_x * ab_y) - double (oa_y * ab_x)).

(** The inner loop of [findConvexHull]; the new top of the stack. *)
Fixpoint unwind (fuel : nat) (points : list Vec2i_t) (i stackTop : Z) (a b c : Vec2i_t) : res Z :=
  match fuel with
  | O => Err OutOfFuel
  | S fuel =>
      if (0 <? stackTop) && (checkRotation a b c <=? 0) then
        let stackTop := stackTop - 1 in
        if stackTop =? 0 then
          let* a := arr_get points stackTop in
          let* b := arr_get points i in
          unwind fuel points i stackTop a b c
        else
          let* a := arr_get points (stackTop - 1) in
          let* b := arr_get points stackTop in
          unwind fuel points i stackTop a b c
      else Ok stackTop
  end.

(** The outer loop, over [count] more points. *)
Fixpoint scan (count : nat) (points : list Vec2i_t) (i stackTop : Z) : res (list Vec2i_t * Z) :=
  match count with
  | O => Ok (points, stackTop + 1)
  | S count =>
      let* a := arr_get points (stackTop - 1) in
      let* b := arr_get points stackTop in
      let* c := arr_get points i in
      let* top := unwind (S (Z.to_nat stackTop)) points i stackTop a b c in
      let* points := arr_set points (top + 1) c in
      scan count points (i + 1) (top + 1)
  end.

Section Program.
Context {Q : QsortR Vec2i_t}.

(** The array after the call, and the size of the hull. *)
Definition findConvexHull (points : list Vec2i_t) : res (list Vec2i_t * Z) :=
  if zlen points <? 2 then Ok (points, zlen points)
  else
    let* starting := findStartingPoint points in
    let* points := arr_swap points 0 starting in
    match points with
    | [] => Err Undefined
    | o :: rest =>
        let points := o :: qsort_r (cmp o) rest in
        scan (length points - 2) points 2 1
    end.

(** ** main.c *)

Definition validatePointsCount (pointsCount : Z) : bool := pointsCount <=? 100000.

Inductive exitCode_t := SUCCESS | ALLOCATION_ERROR | IO_ERROR | BAD_NUMBER_OF_POINTS | BAD_NUMBER_OF_LINES.

Fixpoint read_points (n : nat) (input : list Z) : option (list Vec2i_t) :=
  match n with
  | O => Some []
  | S n =>
      match input with
      | x :: y :: input =>
          match read_points n input with
          | Some points => Some (mkVec2i x y :: points)
          | None => None
          end
      | _ => None
      end
  end.

(** The points printed and the code whose description is printed after them.  [input] is
    [None] when the files cannot be opened, [mem] is the answer of [malloc]. *)
Definition main (input : option (list Z)) (mem : bool) : res (list Vec2i_t * exitCode_t) :=
  match input with
  | None => Ok ([], IO_ERROR)
  | Some input =>
      match scan_int input with
      | None => Ok ([], BAD_NUMBER_OF_LINES)
      | Some (n, input) =>
          let pointsCount := u64 n in
          if negb (validatePointsCount pointsCount) then Ok ([], BAD_NUMBER_OF_POINTS)
          else if negb mem then Ok ([], ALLOCATION_ERROR)
          else
            match read_points (Z.to_nat pointsCount) input with
            | None => Ok ([], BAD_NUMBER_OF_LINES)
            | Some points =>
                let* '(points, convexHullSize) := findConvexHull points in
                Ok (take (Z.to_nat convexHullSize) points, SUCCESS)
            end
      end
  end.
End Program.

(** One [qsort_r]: insertion sort. *)
Lemma insertion_sort_r_sorted {A} (cmp : A -> A -> Z) (l : list A) :
  (forall a b, a ∈ l -> b ∈ l -> (0 < cmp a b <-> cmp b a < 0)) ->
  (forall a b c, a ∈ l -> b ∈ l -> c ∈ l -> cmp a b <= 0 -> cmp b c <= 0 -> cmp a c <= 0) ->
  StronglySorted (fun a b => cmp a b <= 0) (insertion_sort cmp l).
Proof.
  induction l as [|x l IH]; intros Has Htr; [constructor|].
  change (insertion_sort cmp (x :: l)) with (insert_sorted cmp x (insertion_sort cmp l)).
  assert (forall a, a ∈ insertion_sort cmp l -> a ∈ x :: l) as Hin.
  { intros a. rewrite insertion_sort_perm. intros H. by apply elem_of_cons; right. }
  assert (x ∈ x :: l) as Hx by apply list_elem_of_here.
  specialize (IH ltac:(intros; apply Has; by apply elem_of_cons; right) ltac:(intros a b c ???; apply Htr; by apply elem_of_cons; right)).
  induction IH as [|y l' Hs IH' Hf]; cbn [insert_sorted]; [repeat constructor|].
  assert (y ∈ x :: l) as Hy by (apply Hin, list_elem_of_here).
  rewrite Z.gtb_ltb. destruct (Z.ltb_spec 0 (cmp x y)) as [Hlt|Hge].
  - apply Has in Hlt; [|done|done]. constructor; [apply IH'; intros a Ha; apply Hin; by apply elem_of_cons; right|].
    rewrite insert_sorted_perm. constructor; [lia|done].
  - constructor; [by constructor|]. constructor; [lia|]. apply Forall_forall. intros z Hz.
    apply (Htr x y z); [done|done| |lia|].
    + apply Hin. apply elem_of_cons. by right.
    + rewrite Forall_forall in Hf. by apply Hf.
Qed.

Definition InsertionQsortR (A : Type) : QsortR A :=
  {| qsort_r := insertion_sort; qsort_r_perm := insertion_sort_perm; qsort_r_sorted := insertion_sort_r_sorted |}.

(** ** Exact arithmetic

    Where no product is rounded: coordinates of up to 26 bits. *)

Definition turn (a b c : Vec2i_t) : Z := (vx b - vx a) * (vy c - vy b) - (vy b - vy a) * (vx c - vx b).
Definition dist2 (a b : Vec2i_t) : Z := (vx b - vx a) * (vx b - vx a) + (vy b - vy a) * (vy b - vy a).

Definition exact (p : Vec2i_t) : Prop := Z.abs (vx p) <= 2 ^ 25 /\ Z.abs (vy p) <= 2 ^ 25.

Lemma double_small z : Z.abs z <= 2 ^ 53 -> double z = z.
Proof. intros H. unfold double. by destruct (Z.leb_spec (Z.abs z) (2 ^ 53)); [|lia]. Qed.

Lemma small_product x y : Z.abs x <= 2 ^ 26 -> Z.abs y <= 2 ^ 26 -> Z.abs (x * y) <= 2 ^ 52.
Proof. intros. rewrite Z.abs_mul. change (2 ^ 52) with (2 ^ 26 * 2 ^ 26). apply Z.mul_le_mono_nonneg; lia. Qed.

(** The two forms of expressions in the code. *)
Lemma double_cross x y z w : Z.abs x <= 2 ^ 26 -> Z.abs y <= 2 ^ 26 -> Z.abs z <= 2 ^ 26 -> Z.abs w <= 2 ^ 26 ->
  double (double (x * y) - double (z * w)) = x * y - z * w.
Proof.
  intros Hx Hy Hz Hw. pose proof (small_product x y ltac:(done) ltac:(done)) as H1. pose proof (small_product z w ltac:(done) ltac:(done)) as H2.
  revert H1 H2. generalize (x * y), (z * w). intros u v ??. rewrite (double_small u), (double_small v) by lia. apply double_small. lia.
Qed.

Lemma double_squares x y : Z.abs x <= 2 ^ 26 -> Z.abs y <= 2 ^ 26 ->
  double (double (x * x) + double (y * y)) = x * x + y * y.
Proof.
  intros Hx Hy. pose proof (small_product x x ltac:(done) ltac:(done)) as H1. pose proof (small_product y y ltac:(done) ltac:(done)) as H2.
  revert H1 H2. generalize (x * x), (y * y). intros u v ??. rewrite (double_small u), (double_small v) by lia. apply double_small. lia.
Qed.

Lemma checkRotation_exact o a b : exact o -> exact a -> exact b -> checkRotation o a b = turn o a b.
Proof.
  intros [??] [??] [??]. unfold checkRotation, turn. rewrite !(double_small (_ - vx _)), !(double_small (_ - vy _)) by lia.
  apply double_cross; lia.
Qed.

(** What the comparison orders by. *)
Definition before (o a b : Vec2i_t) : Prop := 0 < turn o a b \/ turn o a b = 0 /\ dist2 o a <= dist2 o b.

Lemma cmp_exact o a b : exact o -> exact a -> exact b ->
  cmp o a b = match turn o a b ?= 0 with Gt => -1 | Lt => 1 | Eq => match dist2 o a ?= dist2 o b with Lt => -1 | Gt => 1 | Eq => 0 end end.
Proof.
  intros [??] [??] [??]. unfold cmp. rewrite !(double_small (_ - vx _)), !(double_small (_ - vy _)) by lia.
  rewrite double_cross, !double_squares by lia. replace (_ * _ - _ * _) with (turn o a b) by (unfold turn; ring). fold (dist2 o a) (dist2 o b).
  destruct (Z.compare_spec (turn o a b) 0), (Z.compare_spec (dist2 o a) (dist2 o b)); zcase; lia.
Qed.

Lemma turn_o_swap o a b : turn o b a = - turn o a b.
Proof. unfold turn. ring. Qed.

Lemma cmp_before o a b : exact o -> exact a -> exact b -> cmp o a b <= 0 <-> before o a b.
Proof.
  intros. rewrite cmp_exact by done. unfold before.
  destruct (Z.compare_spec (turn o a b) 0), (Z.compare_spec (dist2 o a) (dist2 o b)); lia.
Qed.

Lemma cmp_antisym o a b : exact o -> exact a -> exact b -> 0 < cmp o a b <-> cmp o b a < 0.
Proof.
  intros. rewrite !cmp_exact by done. rewrite (turn_o_swap o a b).
  destruct (Z.compare_spec (turn o a b) 0), (Z.compare_spec (- turn o a b) 0), (Z.compare_spec (dist2 o a) (dist2 o b)),
    (Z.compare_spec (dist2 o b) (dist2 o a)); lia.
Qed.

(** ** Turns *)

(** Where the points lie, seen from the lowest of them. *)
Definition above (o p : Vec2i_t) : Prop := vy o < vy p \/ vy o = vy p /\ vx o <= vx p.

Lemma turn_rotate a b c : turn a b c = turn b c a.
Proof. unfold turn. ring. Qed.

Lemma turn_refl a b : turn a b b = 0.
Proof. unfold turn. ring. Qed.

Lemma dist2_pos o a : 0 <= dist2 o a.
Proof. unfold dist2. pose proof (Z.square_nonneg (vx a - vx o)). pose proof (Z.square_nonneg (vy a - vy o)). lia. Qed.

Lemma dist2_zero o a : dist2 o a <= 0 -> a = o.
Proof.
  destruct a as [ax ay], o as [ox oy]. unfold dist2. cbn. intros. pose proof (Z.square_nonneg (ax - ox)). pose proof (Z.square_nonneg (ay - oy)).
  assert ((ax - ox) * (ax - ox) = 0) as [|]%Z.mul_eq_0 by lia; assert ((ay - oy) * (ay - oy) = 0) as [|]%Z.mul_eq_0 by lia; f_equal; lia.
Qed.

(** The angles of the points above [o] are ordered. *)
Lemma turn_trans o a b c : above o a -> above o b -> above o c -> b <> o -> c <> o ->
  0 <= turn o a b -> 0 <= turn o b c -> 0 <= turn o a c /\ (0 < turn o a b -> 0 < turn o a c).
Proof.
  destruct o as [ox oy], a as [ax ay], b as [bx by'], c as [cx cy]. unfold above, turn. cbn. intros Ha Hb Hc Nb Nc.
  assert (oy < by' \/ oy = by' /\ ox < bx) as Hb' by (destruct Hb as [|[-> ?]]; [by left|right; split; [done|]; destruct (decide (bx = ox)); [by subst|lia]]).
  assert (oy < cy \/ oy = cy /\ ox < cx) as Hc' by (destruct Hc as [|[-> ?]]; [by left|right; split; [done|]; destruct (decide (cx = ox)); [by subst|lia]]).
  clear Nb Nc Hb Hc. intros H1 H2.
  remember (ax - ox) as a1. remember (ay - oy) as a2. remember (bx - ox) as b1. remember (by' - oy) as b2.
  remember (cx - ox) as c1. remember (cy - oy) as c2.
  replace (bx - ax) with (b1 - a1) in * by lia. replace (by' - ay) with (b2 - a2) in * by lia.
  replace (cx - ax) with (c1 - a1) in * by lia. replace (cy - ay) with (c2 - a2) in * by lia.
  replace (cx - bx) with (c1 - b1) in * by lia. replace (cy - by') with (c2 - b2) in * by lia.
  assert (0 < a2 \/ a2 = 0 /\ 0 <= a1) as Ga by lia. assert (0 < b2 \/ b2 = 0 /\ 0 < b1) as Gb by lia.
  assert (0 < c2 \/ c2 = 0 /\ 0 < c1) as Gc by lia.
  clear Ha Hb' Hc' Heqa1 Heqa2 Heqb1 Heqb2 Heqc1 Heqc2 ox oy ax ay bx by' cx cy.
  assert ((a1 * (c2 - a2) - a2 * (c1 - a1)) * b2 = (a1 * (b2 - a2) - a2 * (b1 - a1)) * c2 + (b1 * (c2 - b2) - b2 * (c1 - b1)) * a2) as E by ring.
  destruct Gb as [Gb|[-> Gb]].
  - destruct Gc as [Gc|[-> Gc]]; [split; intros; nia|]. nia.
  - assert (a2 = 0) as -> by nia. destruct Gc as [Gc|[-> Gc]]; split; intros; nia.
Qed.

Lemma turn_trans_r o a b c : above o a -> above o b -> above o c -> a <> o -> b <> o ->
  0 <= turn o a b -> 0 < turn o b c -> 0 < turn o a c.
Proof.
  destruct o as [ox oy], a as [ax ay], b as [bx by'], c as [cx cy]. unfold above, turn. cbn. intros Ha Hb Hc Na Nb.
  assert (oy < by' \/ oy = by' /\ ox < bx) as Hb' by (destruct Hb as [|[-> ?]]; [by left|right; split; [done|]; destruct (decide (bx = ox)); [by subst|lia]]).
  assert (oy < ay \/ oy = ay /\ ox < ax) as Ha' by (destruct Ha as [|[-> ?]]; [by left|right; split; [done|]; destruct (decide (ax = ox)); [by subst|lia]]).
  clear Na Nb Ha Hb. intros H1 H2.
  remember (ax - ox) as a1. remember (ay - oy) as a2. remember (bx - ox) as b1. remember (by' - oy) as b2.
  remember (cx - ox) as c1. remember (cy - oy) as c2.
  replace (bx - ax) with (b1 - a1) in * by lia. replace (by' - ay) with (b2 - a2) in * by lia.
  replace (cx - ax) with (c1 - a1) in * by lia. replace (cy - ay) with (c2 - a2) in * by lia.
  replace (cx - bx) with (c1 - b1) in * by lia. replace (cy - by') with (c2 - b2) in * by lia.
  assert (0 < a2 \/ a2 = 0 /\ 0 < a1) as Ga by lia. assert (0 < b2 \/ b2 = 0 /\ 0 < b1) as Gb by lia.
  assert (0 < c2 \/ c2 = 0 /\ 0 <= c1) as Gc by lia.
  clear Ha' Hb' Hc Heqa1 Heqa2 Heqb1 Heqb2 Heqc1 Heqc2 ox oy ax ay bx by' cx cy.
  assert ((a1 * (c2 - a2) - a2 * (c1 - a1)) * b2 = (a1 * (b2 - a2) - a2 * (b1 - a1)) * c2 + (b1 * (c2 - b2) - b2 * (c1 - b1)) * a2) as E by ring.
  destruct Gb as [Gb|[-> Gb]].
  - destruct Ga as [Ga|[-> Ga]]; [nia|]. assert (0 < c2) by nia. nia.
  - assert (a2 = 0) as -> by nia. nia.
Qed.

Lemma before_origin o a : before o a o -> a = o.
Proof.
  unfold before. rewrite turn_rotate, turn_refl. intros [H|[_ H]]; [lia|]. apply dist2_zero.
  replace (dist2 o o) with 0 in H by (unfold dist2; ring). done.
Qed.

Lemma origin_before o a : before o o a.
Proof. right. split; [unfold turn; ring|]. unfold dist2 at 1. pose proof (dist2_pos o a). lia. Qed.

Lemma before_turn o a b : before o a b -> 0 <= turn o a b.
Proof. intros [|[]]; lia. Qed.

Lemma before_trans o a b c : above o a -> above o b -> above o c -> before o a b -> before o b c -> before o a c.
Proof.
  intros Ha Hb Hc H1 H2. destruct (decide (a = o)) as [->|Na]; [apply origin_before|].
  destruct (decide (b = o)) as [->|Nb]; [by apply before_origin in H1|].
  destruct (decide (c = o)) as [->|Nc]; [by apply before_origin in H2|].
  destruct (turn_trans o a b c) as [H3 H4]; [done..|by apply before_turn|by apply before_turn|].
  destruct H1 as [H1|[H1 D1]]; [left; by apply H4|].
  destruct H2 as [H2|[H2 D2]]; [left; apply (turn_trans_r o a b c); try done; lia|].
  destruct (decide (turn o a c = 0)); [right; lia|left; lia].
Qed.

(** The strict version. *)
Lemma turn_before o a b c : above o a -> above o b -> above o c -> 0 < turn o a b -> before o b c -> 0 < turn o a c.
Proof.
  intros Ha Hb Hc H1 H2. assert (b <> o) as Nb by (intros ->; rewrite turn_rotate, turn_refl in H1; lia).
  assert (c <> o) as Nc by (intros ->; by apply before_origin in H2).
  apply (turn_trans o a b c); try done; [lia|by apply before_turn].
Qed.

(** Five points, as seen from [w]: when [u] is left of [c] and of [v], [p] is between [v]
    and [u], and [v] is not right of [c], then [p] is not right of [c]. *)
Lemma turn_between w u v c p :
  turn w v c <= 0 -> 0 <= turn w v p -> 0 <= turn u w p -> 0 < turn u w c -> 0 < turn u w v -> 0 <= turn w c p.
Proof.
  intros H1 H2 H3 H4 H5.
  assert (turn w c p * turn u w v = - turn w v c * turn u w p + turn u w c * turn w v p) as E by (unfold turn; ring).
  revert E H1 H2 H3 H4 H5. generalize (turn w c p), (turn u w v), (turn w v c), (turn u w p), (turn u w c), (turn w v p). intros. nia.
Qed.

(** A point that is not right of an edge is not right of the one before it. *)
Lemma turn_down o a b d c :
  0 <= turn o a b -> 0 < turn o b d -> 0 <= turn o b c -> 0 < turn a b d -> 0 <= turn b d c -> 0 <= turn a b c.
Proof.
  intros H1 H2 H3 H4 H5.
  assert (turn a b c * turn o b d = turn a b d * turn o b c + turn o a b * turn b d c) as E by (unfold turn; ring).
  revert E H1 H2 H3 H4 H5. generalize (turn a b c), (turn o b d), (turn a b d), (turn o b c), (turn o a b), (turn b d c). intros. nia.
Qed.

(** The product of vectors from [o]. *)
Definition dot (o a b : Vec2i_t) : Z := (vx a - vx o) * (vx b - vx o) + (vy a - vy o) * (vy b - vy o).

Lemma dot_self o a : dot o a a = dist2 o a.
Proof. done. Qed.

Lemma dot_le o a b : turn o a b = 0 -> dist2 o a <= dist2 o b -> dot o a b <= dist2 o b.
Proof.
  intros H D. assert (dot o a b * dot o a b = dist2 o a * dist2 o b) as E.
  { replace (dot o a b * dot o a b) with (dist2 o a * dist2 o b - turn o a b * turn o a b) by (unfold dot, dist2, turn; ring). rewrite H. lia. }
  pose proof (dist2_pos o a). pose proof (dist2_pos o b). revert E D. generalize (dot o a b). intros. nia.
Qed.

Lemma dot_nonneg o a b : above o a -> above o b -> turn o a b = 0 -> 0 <= dot o a b.
Proof.
  unfold above, turn, dot. intros Ha Hb H.
  assert ((vx a - vx o) * (vy b - vy o) = (vy a - vy o) * (vx b - vx o)) as E by nia.
  assert (0 < vy a - vy o \/ vy a - vy o = 0 /\ 0 <= vx a - vx o) as Ga by lia.
  assert (0 < vy b - vy o \/ vy b - vy o = 0 /\ 0 <= vx b - vx o) as Gb by lia.
  clear Ha Hb H. revert E Ga Gb. generalize (vx a - vx o), (vy a - vy o), (vx b - vx o), (vy b - vy o). intros a1 a2 b1 b2 E Ga Gb.
  destruct Ga as [Ga|[-> Ga]], Gb as [Gb|[-> Gb]];
    [|assert (b1 = 0) as -> by nia; lia|assert (a1 = 0) as -> by nia; lia|nia].
  assert (a1 * b1 * b2 = a2 * (b1 * b1)) as E' by (rewrite <- (Z.mul_assoc a1), (Z.mul_comm b1 b2), Z.mul_assoc, E; ring).
  pose proof (Z.square_nonneg b1). assert (0 <= a1 * b1) by (revert E'; generalize (a1 * b1); intros; nia). nia.
Qed.

(** A farther point on the same ray is not left of an edge that ends on it. *)
Lemma turn_farther o u w c : above o w -> above o c -> w <> o -> 0 < turn o u w -> turn o w c = 0 -> dist2 o w <= dist2 o c -> turn u w c <= 0.
Proof.
  intros Hw Hc Nw H1 H2 D. assert (dist2 o w <= dot o w c) as Hd.
  { assert (dot o w c * dot o w c = dist2 o w * dist2 o c) as E.
    { replace (dot o w c * dot o w c) with (dist2 o w * dist2 o c - turn o w c * turn o w c) by (unfold dot, dist2, turn; ring). rewrite H2. lia. }
    pose proof (dot_nonneg o w c Hw Hc H2). pose proof (dist2_pos o w). apply Z.square_le_simpl_nonneg; [done|]. rewrite E. by apply Z.mul_le_mono_nonneg_l. }
  assert (0 < dist2 o w) as Hpos by (destruct (Z.le_gt_cases (dist2 o w) 0) as [E|E]; [by apply dist2_zero in E|lia]).
  assert (turn u w c * dist2 o w = turn o u w * (dist2 o w - dot o w c) + turn o w c * (dist2 o w - dot o u w)) as E by (unfold turn, dist2, dot; ring).
  rewrite H2 in E. revert E Hd H1 Hpos. generalize (turn u w c), (dist2 o w), (turn o u w), (dot o w c), (dot o u w). intros. nia.
Qed.

(** Points on the segment from [o] to [v] are not right of an edge from [v]. *)
Lemma turn_on_segment o v c p : turn o v p = 0 -> dist2 o p <= dist2 o v -> 0 < turn o v c -> 0 <= turn v c p.
Proof.
  intros H D Hc. assert (v <> o) as Nv by (intros ->; unfold turn in Hc; lia).
  assert (0 < dist2 o v) as Hpos by (destruct (Z.le_gt_cases (dist2 o v) 0) as [E|E]; [by apply dist2_zero in E|lia]).
  assert (dot o p v <= dist2 o v) as Hd by (apply dot_le; [rewrite turn_o_swap; lia|done]).
  assert (turn v c p * dist2 o v = turn o v c * (dist2 o v - dot o p v) + turn o v p * (dot o v c - dist2 o v)) as E by (unfold turn, dist2, dot; ring).
  rewrite H in E. revert E Hd Hc Hpos. generalize (turn v c p), (dist2 o v), (turn o v c), (dot o p v), (dot o v c). intros. nia.
Qed.

(** ** The stack

    As a list, the top first. *)

Fixpoint pop (st : list Vec2i_t) (c : Vec2i_t) : list Vec2i_t :=
  match st with
  | b :: (a :: _) as st' => if turn a b c <=? 0 then pop st' c else st
  | _ => st
  end.

Definition push (st : list Vec2i_t) (c : Vec2i_t) : list Vec2i_t := c :: pop st c.

(** The stack turns left at every vertex, its vertices go round [o] in order, and a point
    is not right of any of its edges. *)
Fixpoint left_chain (st : list Vec2i_t) : Prop :=
  match st with
  | c :: (b :: a :: _) as st' => 0 < turn a b c /\ left_chain st'
  | _ => True
  end.

Fixpoint rising (o : Vec2i_t) (st : list Vec2i_t) : Prop :=
  match st with
  | b :: (a :: _ :: _) as st' => 0 < turn o a b /\ rising o st'
  | _ => True
  end.

Fixpoint all_left (st : list Vec2i_t) (p : Vec2i_t) : Prop :=
  match st with
  | b :: (a :: _) as st' => 0 <= turn a b p /\ all_left st' p
  | _ => True
  end.

(** While all points are on one ray, and after that. *)
Definition flat (o : Vec2i_t) (st seen : list Vec2i_t) : Prop :=
  exists v, st = [v; o] /\ v ∈ seen /\ forall p, p ∈ seen -> turn o v p = 0 /\ dist2 o p <= dist2 o v.

Record polygon (o : Vec2i_t) (st seen : list Vec2i_t) : Prop := {
  poly_last : exists v2 v1 st', st = st' ++ [v2; v1; o];
  poly_chain : left_chain st;
  poly_rising : rising o st;
  poly_left : forall p, p ∈ seen -> all_left st p;
  poly_seen : st ⊆ seen;
  poly_top : forall w p, head st = Some w -> p ∈ seen -> before o p w
}.

Section Step.
Context (o c : Vec2i_t) (seen : list Vec2i_t).
Hypothesis Ho : o ∈ seen.
Hypothesis Habove : forall p, p ∈ seen -> above o p.
Hypothesis Hc : above o c.
Hypothesis Hbefore : forall p, p ∈ seen -> before o p c.

(** The new point is not right of the edges that are kept. *)
Lemma chain_all_left st d : left_chain (d :: st) -> rising o (d :: st) -> last (d :: st) = Some o -> (d :: st) ⊆ seen ->
  (forall b st', st = b :: st' -> 0 <= turn b d c) -> all_left (d :: st) c.
Proof.
  revert d. induction st as [|b st IH]; intros d Hch Hri Hla Hsub Hd; [done|].
  split; [by eapply Hd|]. destruct st as [|a st]; [done|]. apply IH; [apply Hch|apply Hri|done|set_solver|].
  intros a' st' [= <- <-]. assert (0 <= turn o b c) as Hbc by (apply before_turn, Hbefore; set_solver).
  destruct st as [|a2 st]; [by injection Hla as ->|].
  apply (turn_down o a b d c); [|apply Hri|done|apply Hch|by eapply Hd]. destruct Hri as (_ & Hri & _). lia.
Qed.

(** What is known when the stack has [w] and [u] on top: there is a point [v] that [p] and
    [c] are on different sides of. *)
Lemma pop_spec st w u : left_chain (w :: u :: st) -> (w :: u :: st) ⊆ seen ->
  (forall p, p ∈ seen -> all_left (w :: u :: st) p) -> rising o (w :: u :: st) ->
  last (w :: u :: st) = Some o ->
  (forall v1 st', w :: u :: st = st' ++ [v1; o] -> 0 < turn o v1 c) ->
  (exists v, turn w v c <= 0 /\ (forall p, p ∈ seen -> 0 <= turn w v p) /\ 0 < turn u w v) ->
  exists w1 u1 st1 st0, pop (w :: u :: st) c = w1 :: u1 :: st1 /\ w :: u :: st = st0 ++ w1 :: u1 :: st1 /\
    0 < turn u1 w1 c /\ (forall p, p ∈ seen -> 0 <= turn w1 c p).
Proof.
  revert w u. induction st as [|t st IH]; intros w u Hch Hsub Hal Hri Hla Hv1 (v & Hv & Hvp & Huv).
  - cbn [pop]. injection Hla as ->. specialize (Hv1 w [] eq_refl). destruct (Z.leb_spec (turn o w c) 0); [lia|].
    exists w, o, [], []. split_and!; try done. intros p Hp. apply (turn_between w o v c p); auto. by apply (Hal p).
  - cbn [pop]. destruct (Z.leb_spec (turn u w c) 0) as [Hle|Hgt].
    + destruct (IH u t) as (w1 & u1 & st1 & st0 & E1 & E2 & H1 & H2); [apply Hch|set_solver|intros p Hp; by apply (Hal p)|apply Hri|done| | |].
      * intros v1 st' E. apply (Hv1 v1 (w :: st')). by rewrite E.
      * exists w. split; [done|]. split; [|apply Hch]. intros p Hp. by apply (Hal p).
      * exists w1, u1, st1, (w :: st0). split_and!; try done. by rewrite E2.
    + exists w, u, (t :: st), []. split_and!; try done. intros p Hp. apply (turn_between w u v c p); auto. by apply (Hal p).
Qed.

(** A vertex that is kept is strictly before the new point. *)
Lemma kept_before st w u : rising o (w :: u :: st) -> last (w :: u :: st) = Some o -> (w :: u :: st) ⊆ seen -> 0 < turn u w c -> 0 < turn o w c.
Proof.
  intros Hri Hla Hsub Hw. destruct st as [|t st]; [by injection Hla as ->|].
  destruct (Hbefore w) as [|[H0 D]]; [set_solver|done|]. exfalso. destruct Hri as [Hri _].
  assert (turn u w c <= 0); [|lia]. apply (turn_farther o); try done; [apply Habove; set_solver|].
  intros ->. rewrite turn_rotate, turn_refl in Hri. lia.
Qed.

Lemma chain_suffix st0 st : left_chain (st0 ++ st) -> left_chain st.
Proof. induction st0 as [|x st0 IH]; [done|]. intros H. apply IH. cbn in H. destruct (st0 ++ st) as [|y [|z l]]; [done|done|apply H]. Qed.

Lemma rising_suffix st0 st : rising o (st0 ++ st) -> rising o st.
Proof. induction st0 as [|x st0 IH]; [done|]. intros H. apply IH. cbn in H. destruct (st0 ++ st) as [|y [|z l]]; [done|done|apply H]. Qed.

Lemma all_left_suffix st0 st p : all_left (st0 ++ st) p -> all_left st p.
Proof. induction st0 as [|x st0 IH]; [done|]. intros H. apply IH. cbn in H. destruct (st0 ++ st) as [|y l]; [done|apply H]. Qed.

(** The stack ends below the third vertex from its bottom. *)
Lemma push_last w u st : last (w :: u :: st) = Some o -> exists v2 v1 st', c :: w :: u :: st = st' ++ [v2; v1; o].
Proof.
  generalize c as d. revert w u. induction st as [|t st IH]; intros w u d Hla; [injection Hla as ->; by exists d, w, []|].
  destruct (IH u t w Hla) as (v2 & v1 & st' & E). exists v2, v1, (d :: st'). by rewrite E.
Qed.

Lemma push_polygon st : polygon o st seen -> polygon o (push st c) (c :: seen).
Proof.
  intros [(v2 & v1 & st' & Est) Hch Hri Hal Hsub Htop].
  assert (last st = Some o) as Hla by (rewrite Est; by rewrite last_app).
  assert (0 < turn o v1 v2) as H12 by (rewrite Est in Hch; by apply (chain_suffix st') in Hch as [? _]).
  assert (v1 ∈ seen /\ v2 ∈ seen) as [Hv1 Hv2] by set_solver.
  assert (0 < turn o v1 c) as Hv1c by (apply (turn_before o v1 v2 c); auto).
  destruct st as [|w [|u st]]; [by destruct st'|by destruct st' as [|? []]|].
  destruct (pop_spec st w u) as (w1 & u1 & st1 & st0 & E1 & E2 & H1 & H2); try done.
  { intros v1' st'' E. rewrite Est in E. change [v2; v1; o] with ([v2] ++ [v1; o]) in E. rewrite app_assoc in E.
    apply app_inj_2 in E as [_ [= <-]]; done. }
  { exists o. assert (before o w c) as Hwc by (apply Hbefore; set_solver). split_and!.
    - rewrite turn_rotate, turn_o_swap. apply before_turn in Hwc. lia.
    - intros p Hp. rewrite turn_rotate. by apply before_turn, Htop.
    - rewrite turn_rotate, turn_rotate. destruct st as [|t st]; [by destruct st' as [|? [|? []]]|]. apply Hri. }
  rewrite E2 in Hch, Hri, Hal, Hsub, Hla. apply chain_suffix in Hch. apply rising_suffix in Hri.
  assert (w1 :: u1 :: st1 ⊆ seen) as Hsub1 by (intros x Hx; apply Hsub; set_solver).
  assert (last (w1 :: u1 :: st1) = Some o) as Hla1.
  { rewrite last_app in Hla. destruct (last (w1 :: u1 :: st1)) eqn:El; [done|by apply last_None in El]. }
  assert (0 < turn o w1 c) as Hw1 by (by apply (kept_before st1 w1 u1)).
  unfold push. rewrite E1. split.
  - by apply push_last.
  - by split.
  - by split.
  - intros p [->|Hp]%elem_of_cons.
    + split; [rewrite turn_refl; lia|]. apply (chain_all_left (u1 :: st1) w1); try done. intros b st'' [= <- <-]. lia.
    + split; [by apply H2|]. eapply all_left_suffix, Hal, Hp.
  - set_solver.
  - intros w' p [= <-] [->|Hp]%elem_of_cons; [right; split; [apply turn_refl|lia]|by apply Hbefore].
Qed.

Lemma push_flat st : flat o st seen -> flat o (push st c) (c :: seen) \/ polygon o (push st c) (c :: seen).
Proof.
  intros (v & -> & Hv & Hall). unfold push. cbn [pop]. destruct (Z.leb_spec (turn o v c) 0) as [Hle|Hgt].
  - left. exists c. split; [done|]. split; [set_solver|].
    destruct (Hbefore v Hv) as [|[H0 D]]; [lia|]. intros p [->|Hp]%elem_of_cons; [split; [apply turn_refl|lia]|].
    destruct (Hall p Hp) as [Hp0 Dp]. split; [|lia]. destruct (decide (v = o)) as [->|Nv].
    + assert (p = o) as -> by (apply dist2_zero; etransitivity; [exact Dp|]; unfold dist2; lia). by rewrite turn_rotate, turn_refl.
    + destruct (Hbefore p Hp) as [Hpc|[Hpc _]]; [|rewrite turn_o_swap; lia]. exfalso.
      destruct (decide (p = o)) as [->|Np]; [unfold turn in Hpc; lia|].
      assert (0 < turn o v c); [|lia]. apply (turn_trans_r o v p c); auto. lia.
  - right. assert (v ∈ seen) by done. split.
    + by exists c, v, [].
    + done.
    + done.
    + intros p [->|Hp]%elem_of_cons; cbn; [rewrite turn_refl; split_and!; lia|]. destruct (Hall p Hp) as [Hp0 Dp].
      split_and!; [by apply (turn_on_segment o)|lia|done].
    + set_solver.
    + intros w' p [= <-] [->|Hp]%elem_of_cons; [right; split; [apply turn_refl|lia]|by apply Hbefore].
Qed.
End Step.

(** All points, in their order. *)
Lemma push_all o cs st seen : o ∈ seen -> (forall p, p ∈ seen ++ cs -> above o p) -> StronglySorted (before o) cs ->
  (forall p c, p ∈ seen -> c ∈ cs -> before o p c) -> flat o st seen \/ polygon o st seen ->
  exists all, all ≡ₚ cs ++ seen /\ (flat o (foldl push st cs) all \/ polygon o (foldl push st cs) all).
Proof.
  revert st seen. induction cs as [|c cs IH]; intros st seen Ho Hab Hso Hbe Hst; [by exists seen|].
  apply StronglySorted_inv in Hso as [Hso Hc]. rewrite Forall_forall in Hc.
  destruct (IH (push st c) (c :: seen)) as (all & Hall & Hres).
  - set_solver.
  - intros p Hp. apply Hab. set_solver.
  - done.
  - intros p d [->|Hp]%elem_of_cons Hd; [by apply Hc|]. apply Hbe; [done|set_solver].
  - destruct Hst as [Hst|Hst]; [apply push_flat|right; apply push_polygon]; try done; try (intros; apply Hab; set_solver);
      intros; apply Hbe; set_solver.
  - exists all. split; [|done]. rewrite Hall. symmetry. apply Permutation_middle.
Qed.

(** ** The array

    Its front is the stack, from the bottom to the top. *)

Lemma pop_suffix st c : exists st0, st = st0 ++ pop st c.
Proof.
  induction st as [|b st IH]; [by exists []|]. cbn [pop]. destruct st as [|a st]; [by exists []|].
  destruct (_ <=? _); [|by exists []]. destruct IH as [st0 E]. exists (b :: st0). cbn [app]. by rewrite <- E.
Qed.

Lemma pop_nonempty b st c : pop (b :: st) c <> [].
Proof. revert b. induction st as [|a st IH]; intros b; [done|]. cbn [pop]. destruct (_ <=? _); [apply IH|done]. Qed.

Lemma get_stack st (tail : list Vec2i_t) k b st0 : st = st0 ++ b :: k -> arr_get (rev st ++ tail) (zlen k) = Ok b.
Proof.
  intros ->. pose proof (zlen_rev k) as Hk. unfold zlen in *. rewrite arr_get_ok by (unfold zlen; rewrite length_app, length_rev, length_app; cbn; lia).
  f_equal. rewrite rev_app_distr. cbn [rev]. rewrite <- !app_assoc. unfold znth. rewrite Nat2Z.id, lookup_total_app_r by (rewrite length_rev; lia).
  by rewrite length_rev, Nat.sub_diag.
Qed.

Lemma unwind_spec st tail i c : forall fuel a b st', Forall exact st -> exact c -> 0 <= i < zlen (rev st' ++ tail) ->
  (exists st0, st' = st0 ++ st) -> (length st <= fuel)%nat -> st <> [] ->
  (forall b' a' st0, st = b' :: a' :: st0 -> b = b' /\ a = a') ->
  unwind fuel (rev st' ++ tail) i (zlen st - 1) a b c = Ok (zlen (pop st c) - 1).
Proof.
  induction st as [|b0 st IH]; intros fuel a b st' Hex Hc Hi [st0 Est] Hf Hne Hab; [done|]. clear Hne.
  destruct fuel as [|fuel]; cbn [length] in Hf; [lia|]. cbn [unwind pop]. destruct st as [|a0 st]; [done|].
  destruct (Hab b0 a0 st eq_refl) as [-> ->]. apply Forall_cons in Hex as [Hb0 Hex]. assert (exact a0) as Ha0 by (by apply Forall_cons in Hex as [? _]).
  rewrite checkRotation_exact by done.
  assert ((0 <? zlen (b0 :: a0 :: st) - 1) = true) as -> by (apply Z.ltb_lt; unfold zlen; cbn [length]; lia). cbn [andb].
  destruct (turn a0 b0 c <=? 0); [|done].
  replace (zlen (b0 :: a0 :: st) - 1 - 1) with (zlen (a0 :: st) - 1) by (unfold zlen; cbn [length]; lia).
  assert (exists st1, st' = st1 ++ a0 :: st) as Est' by (exists (st0 ++ [b0]); by rewrite Est, <- app_assoc).
  assert (forall a b, (forall b' a' st0, a0 :: st = b' :: a' :: st0 -> b = b' /\ a = a') ->
    unwind fuel (rev st' ++ tail) i (zlen (a0 :: st) - 1) a b c = Ok (zlen (pop (a0 :: st) c) - 1)) as IH'.
  { intros a' b' H. apply (IH fuel a' b' st'); try done. cbn [length] in *. lia. }
  replace (zlen (a0 :: st) - 1) with (zlen st) in * by (unfold zlen; cbn [length]; lia).
  destruct Est' as [st1 Est1]. rewrite (get_stack st' tail st a0 st1) by done.
  destruct (Z.eqb_spec (zlen st) 0) as [H0|H0].
  - rewrite arr_get_ok by done. apply IH'. intros b' a' st2 [= <- ->]. unfold zlen in H0. cbn in H0. lia.
  - destruct st as [|a1 st]; [done|]. replace (zlen (a1 :: st) - 1) with (zlen st) by (unfold zlen; cbn [length]; lia).
    rewrite (get_stack st' tail st a1 (st1 ++ [a0])) by (by rewrite Est1, <- app_assoc). apply IH'. by intros b' a' st2 [= <- <- _].
Qed.

(** The new point is put above the stack: what is behind it is still to come. *)
Lemma set_above (st1 pre rest : list Vec2i_t) c : exists junk,
  arr_set (rev st1 ++ pre ++ c :: rest) (zlen st1) c = Ok (rev (c :: st1) ++ junk ++ rest) /\ zlen junk = zlen pre.
Proof.
  rewrite arr_set_ok by (unfold zlen; rewrite !length_app, length_rev; cbn [length]; lia).
  unfold zset, zlen. rewrite Nat2Z.id. rewrite insert_app_r_alt by (by rewrite length_rev). rewrite length_rev, Nat.sub_diag.
  cbn [rev]. destruct pre as [|x pre]; cbn [app insert list_insert].
  - exists []. by rewrite <- app_assoc.
  - exists (pre ++ [c]). rewrite <- !app_assoc. split; [done|]. rewrite length_app. cbn. lia.
Qed.

Lemma scan_list rest : forall st junk i, Forall exact st -> Forall exact rest -> (2 <= length st)%nat -> i = zlen st + zlen junk ->
  exists junk', scan (length rest) (rev st ++ junk ++ rest) i (zlen st - 1) = Ok (rev (foldl push st rest) ++ junk', zlen (foldl push st rest)).
Proof.
  induction rest as [|c rest IH]; intros st junk i Hst Hrest Hlen ->; cbn [length scan foldl].
  { exists (junk ++ []). do 2 f_equal. lia. }
  destruct st as [|b [|a st]]; [cbn in Hlen; lia|cbn in Hlen; lia|]. apply Forall_cons in Hrest as [Hc Hrest].
  replace (zlen (b :: a :: st) - 1 - 1) with (zlen st) by (unfold zlen; cbn [length]; lia).
  rewrite (get_stack _ _ st a [b]) by done.
  assert (zlen (b :: a :: st) - 1 = zlen (a :: st)) as El by (unfold zlen; cbn [length]; lia).
  rewrite El, (get_stack _ _ (a :: st) b []) by done.
  set (arr := rev (b :: a :: st) ++ junk ++ c :: rest).
  assert (arr_get arr (zlen (b :: a :: st) + zlen junk) = Ok c) as ->.
  { unfold arr. rewrite arr_get_ok by (unfold zlen; rewrite !length_app, length_rev; cbn [length]; lia).
    rewrite app_assoc, znth_app_r by (rewrite zlen_app, zlen_rev; lia). rewrite zlen_app, zlen_rev, Z.sub_diag. done. }
  rewrite <- El. unfold arr. rewrite (unwind_spec (b :: a :: st) _ _ c _ a b (b :: a :: st)); try done.
  - destruct (pop_suffix (b :: a :: st) c) as [st0 Hst0]. set (st1 := pop (b :: a :: st) c) in *.
    replace (zlen st1 - 1 + 1) with (zlen st1) by lia.
    destruct (set_above st1 (rev st0 ++ junk) rest c) as (junk' & Hset & Hjl).
    rewrite <- app_assoc in Hset. replace (rev (b :: a :: st)) with (rev st1 ++ rev st0) by (by rewrite <- rev_app_distr, <- Hst0).
    rewrite <- app_assoc, Hset.
    destruct (IH (c :: st1) junk' (zlen (b :: a :: st) + zlen junk + 1)) as [junk'' E].
    + rewrite Hst0 in Hst. apply Forall_app in Hst as [_ Hst]. by constructor.
    + done.
    + assert (st1 <> []) by (apply pop_nonempty). destruct st1; [done|]. cbn. lia.
    + rewrite Hjl, Hst0, !zlen_app, zlen_rev. unfold zlen. cbn [length]. lia.
    + exists junk''. replace (zlen st1) with (zlen (c :: st1) - 1) by (unfold zlen; cbn [length]; lia). exact E.
  - unfold zlen. rewrite !length_app, length_rev. cbn [length]. lia.
  - by exists [].
  - unfold zlen. cbn [length]. lia.
  - by intros b' a' st0 [= <- <- _].
Qed.

(** ** The lowest point *)

Lemma above_refl p : above p p.
Proof. right. lia. Qed.

Lemma above_trans a b c : above a b -> above b c -> above a c.
Proof. unfold above. lia. Qed.

Lemma findStartingPoint_loop_spec points fuel : forall i s, 0 <= s < zlen points -> 0 <= i -> i + Z.of_nat fuel = zlen points ->
  (forall j, 0 <= j < i -> above (znth points s) (znth points j)) ->
  exists s', findStartingPoint_loop fuel points i s = Ok s' /\ 0 <= s' < zlen points /\
    forall j, 0 <= j < zlen points -> above (znth points s') (znth points j).
Proof.
  induction fuel as [|fuel IH]; intros i s Hs Hi Hlen Hab; cbn [findStartingPoint_loop].
  { exists s. split_and!; try lia; [done|]. intros j Hj. apply Hab. lia. }
  rewrite !arr_get_ok by lia.
  assert (forall s', (s' = i \/ s' = s) -> above (znth points s') (znth points i) -> above (znth points s') (znth points s) ->
    exists r, findStartingPoint_loop fuel points (i + 1) s' = Ok r /\ 0 <= r < zlen points /\
      forall j, 0 <= j < zlen points -> above (znth points r) (znth points j)) as Hnext.
  { intros s' Hs' H1 H2. apply IH; [lia|lia|lia|]. intros j Hj. destruct (decide (j = i)) as [->|]; [done|].
    eapply above_trans; [exact H2|]. apply Hab. lia. }
  unfold above in Hnext. zcase; apply Hnext; lia.
Qed.

Lemma findStartingPoint_spec points : points <> [] ->
  exists s, findStartingPoint points = Ok s /\ 0 <= s < zlen points /\ forall p, p ∈ points -> above (znth points s) p.
Proof.
  intros Hne. destruct (findStartingPoint_loop_spec points (length points) 0 0) as (s & E & Hs & Hab); unfold zlen in *; try lia.
  { destruct points; [done|]. cbn [length]. lia. }
  exists s. split_and!; [done|lia|lia|]. intros p [k Hk]%list_elem_of_lookup. pose proof (lookup_lt_Some _ _ _ Hk).
  specialize (Hab (Z.of_nat k) ltac:(lia)). unfold znth in Hab. rewrite Nat2Z.id in Hab. by rewrite (list_lookup_total_correct _ _ _ Hk) in Hab.
Qed.

(** ** The hull *)

(** The vertices are points, every three that follow one another (the first ones follow
    the last) turn left, and no point is right of an edge. *)
Record is_hull (pts h : list Vec2i_t) : Prop := {
  hull_size : (3 <= length h)%nat;
  hull_vertices : h ⊆ pts;
  hull_convex : forall l a b c r, h ++ take 2 h = l ++ [a; b; c] ++ r -> 0 < turn a b c;
  hull_encloses : forall p l a b r, p ∈ pts -> h ++ take 1 h = l ++ [a; b] ++ r -> 0 <= turn a b p
}.

(** The points between the ends [s] and [e], all on one line. *)
Definition is_segment (pts : list Vec2i_t) (s e : Vec2i_t) : Prop :=
  s ∈ pts /\ e ∈ pts /\ forall p, p ∈ pts -> turn s e p = 0 /\ 0 <= dot s p e <= dist2 s e.

Definition collinear (pts : list Vec2i_t) : Prop :=
  forall a b c, a ∈ pts -> b ∈ pts -> c ∈ pts -> turn a b c = 0.

Lemma rev_middle {A} (st l r : list A) m : rev st = l ++ m ++ r -> st = rev r ++ rev m ++ rev l.
Proof. intros E. rewrite <- (rev_involutive st), E, !rev_app_distr. by rewrite <- app_assoc. Qed.

Lemma polygon_hull o st pts : polygon o st pts -> (forall p, p ∈ pts -> above o p) -> is_hull pts (rev st).
Proof.
  intros [(v2 & v1 & st' & Est) Hch Hri Hal Hsub Htop] Hab.
  assert (0 < turn o v1 v2) as H12 by (rewrite Est in Hch; by apply (chain_suffix st') in Hch as [? _]).
  assert (v1 ∈ pts /\ v2 ∈ pts) as [Hv1 Hv2] by set_solver.
  destruct st as [|w [|u [|t st]]]; [by destruct st'|by destruct st' as [|? []]|by destruct st' as [|? [|? []]]|].
  assert (take 2 (rev (w :: u :: t :: st)) = [o; v1] /\ take 1 (rev (w :: u :: t :: st)) = [o]) as [Ht2 Ht1].
  { rewrite Est, rev_app_distr. done. }
  assert (left_chain (v1 :: o :: w :: u :: t :: st)) as Hch'.
  { split; [|split; [|done]].
    - rewrite turn_rotate. apply (turn_before o v1 v2 w); [by apply Hab|by apply Hab|apply Hab; set_solver|done|by apply Htop].
    - rewrite turn_rotate, turn_rotate. apply Hri. }
  split.
  - rewrite length_rev. cbn [length]. lia.
  - intros x Hx. apply Hsub. by apply list_elem_of_In, in_rev, list_elem_of_In.
  - intros l a b c r E. rewrite Ht2 in E. change [o; v1] with (rev [v1; o]) in E. rewrite <- rev_app_distr in E. apply rev_middle in E.
    cbn [rev app] in E, Hch'. rewrite E in Hch'. apply chain_suffix in Hch'. apply Hch'.
  - intros p l a b r Hp E. rewrite Ht1 in E. change [o] with (rev [o]) in E. rewrite <- rev_app_distr in E. apply rev_middle in E.
    assert (all_left (o :: w :: u :: t :: st) p) as Hal'.
    { split; [|by apply Hal]. rewrite turn_rotate. by apply before_turn, Htop. }
    cbn [rev app] in E. rewrite E in Hal'. apply all_left_suffix in Hal'. apply Hal'.
Qed.

Lemma polygon_not_collinear o st pts : polygon o st pts -> collinear pts -> False.
Proof.
  intros [(v2 & v1 & st' & Est) Hch _ _ Hsub _] Hcol. rewrite Est in Hch, Hsub. apply chain_suffix in Hch as [H _].
  assert (turn o v1 v2 = 0); [|lia]. apply Hcol; apply Hsub; set_solver.
Qed.

Lemma flat_parallel o v a b : v <> o -> turn o v a = 0 -> turn o v b = 0 -> turn o a b = 0.
Proof.
  intros Nv Ha Hb. assert (0 < dist2 o v) as Hpos by (destruct (Z.le_gt_cases (dist2 o v) 0) as [E|E]; [by apply dist2_zero in E|lia]).
  assert (turn o a b * dist2 o v = turn o v b * dot o a v - turn o v a * dot o b v) as E by (unfold turn, dist2, dot; ring).
  rewrite Ha, Hb in E. revert E Hpos. generalize (turn o a b), (dist2 o v), (dot o a v), (dot o b v). intros. nia.
Qed.

Lemma flat_collinear o st pts : flat o st pts -> collinear pts.
Proof.
  intros (v & _ & _ & Hall) a b c Ha%Hall Hb%Hall Hc%Hall. destruct Ha as [Ha Da], Hb as [Hb Db], Hc as [Hc Dc].
  destruct (decide (v = o)) as [->|Nv].
  - assert (forall p, dist2 o p <= dist2 o o -> p = o) as Hz.
    { intros p Hp. apply dist2_zero. etransitivity; [exact Hp|]. unfold dist2. lia. }
    rewrite (Hz a), (Hz b) by done. rewrite turn_rotate, turn_rotate. apply turn_refl.
  - assert (turn a b c = turn o a b + turn o b c + turn o c a) as -> by (unfold turn; ring).
    rewrite !(flat_parallel o v) by done. done.
Qed.

Lemma flat_segment o st pts : flat o st pts -> o ∈ pts -> (forall p, p ∈ pts -> above o p) -> exists e, st = [e; o] /\ is_segment pts o e.
Proof.
  intros (v & -> & Hv & Hall) Ho Hab. exists v. split; [done|]. split; [done|]. split; [done|]. intros p Hp.
  destruct (Hall p Hp) as [H D]. assert (turn o p v = 0) by (rewrite turn_o_swap; lia).
  split; [done|]. split; [apply dot_nonneg; auto|by apply dot_le].
Qed.

Lemma hull_perm pts pts' h : pts ≡ₚ pts' -> is_hull pts h -> is_hull pts' h.
Proof.
  intros Hp [H1 H2 H3 H4]. split; [done| |done|].
  - intros x Hx. rewrite <- Hp. by apply H2.
  - intros p l a b r Hin. rewrite <- Hp in Hin. by apply H4.
Qed.

Lemma segment_perm pts pts' s e : pts ≡ₚ pts' -> is_segment pts s e -> is_segment pts' s e.
Proof. intros Hp (H1 & H2 & H3). split_and!; [by rewrite <- Hp|by rewrite <- Hp|]. intros p. rewrite <- Hp. apply H3. Qed.

Lemma collinear_perm pts pts' : pts ≡ₚ pts' -> collinear pts -> collinear pts'.
Proof. intros Hp H a b c. rewrite <- !Hp. apply H. Qed.

Section Correct.
Context {Q : QsortR Vec2i_t}.

(** The points in the order of their angles. *)
Lemma sorted_rest o rest : exact o -> (forall p, p ∈ rest -> exact p /\ above o p) -> StronglySorted (before o) (qsort_r (cmp o) rest).
Proof.
  intros Ho Hr. assert (StronglySorted (fun a b => cmp o a b <= 0) (qsort_r (cmp o) rest)) as Hso.
  { apply qsort_r_sorted.
    - intros a b [Ha _]%Hr [Hb _]%Hr. by apply cmp_antisym.
    - intros a b c [Ha Ha']%Hr [Hb Hb']%Hr [Hc Hc']%Hr. rewrite !cmp_before by done. by apply before_trans. }
  assert (forall p, p ∈ qsort_r (cmp o) rest -> exact p) as Hex by (intros p; rewrite qsort_r_perm; apply Hr).
  induction Hso as [|p ps Hso IH Hf]; [constructor|]. constructor; [apply IH; intros x Hx; apply Hex; set_solver|].
  rewrite Forall_forall in *. intros q Hq. apply cmp_before; [done|apply Hex; set_solver|apply Hex; set_solver|by apply Hf].
Qed.

(** The scan of the sorted points. *)
Lemma scan_hull o p1 ps : exact o -> (forall p, p ∈ p1 :: ps -> exact p /\ above o p) -> StronglySorted (before o) (p1 :: ps) ->
  exists h junk, scan (length ps) (o :: p1 :: ps) 2 1 = Ok (h ++ junk, zlen h) /\
    ((exists s e, h = [s; e] /\ is_segment (o :: p1 :: ps) s e /\ collinear (o :: p1 :: ps)) \/
     (is_hull (o :: p1 :: ps) h /\ ~ collinear (o :: p1 :: ps))).
Proof.
  intros Heo Hps Hso. apply StronglySorted_inv in Hso as [Hso Hp1]. rewrite Forall_forall in Hp1.
  destruct (push_all o ps [p1; o] [p1; o]) as (all & Hall & Hres); [set_solver| |done|..].
  - intros p Hp. destruct (decide (p = o)) as [->|]; [apply above_refl|]. apply Hps. set_solver.
  - intros p q [->|[->|Hp]%elem_of_cons]%elem_of_cons Hq; [by apply Hp1|apply origin_before|by apply not_elem_of_nil in Hp].
  - left. exists p1. split; [done|]. split; [set_solver|]. intros p [->|[->|Hp]%elem_of_cons]%elem_of_cons; [|..|by apply not_elem_of_nil in Hp].
    + split; [apply turn_refl|lia].
    + split; [by rewrite turn_rotate, turn_refl|]. pose proof (dist2_pos o p1). unfold dist2 at 1. lia.
  - assert (all ≡ₚ o :: p1 :: ps) as Hap.
    { rewrite Hall. change [p1; o] with ([p1] ++ [o]). change (o :: p1 :: ps) with ([o] ++ [p1] ++ ps). solve_Permutation. }
    assert (forall p, p ∈ all -> above o p) as Hab.
    { intros p. rewrite Hap. intros [->|Hp]%elem_of_cons; [apply above_refl|by apply Hps]. }
    assert (o ∈ all) as Ho by (rewrite Hap; set_solver).
    destruct (scan_list ps [p1; o] [] 2) as (junk & E); [|apply Forall_forall; intros; apply Hps; set_solver|done|done|].
    { repeat constructor; try apply Heo; apply Hps; set_solver. }
    exists (rev (foldl push [p1; o] ps)), junk. rewrite zlen_rev. split; [exact E|].
    destruct Hres as [Hflat|Hpoly].
    + left. pose proof (flat_collinear _ _ _ Hflat) as Hcol. destruct (flat_segment _ _ _ Hflat Ho Hab) as (e & -> & Hseg).
      exists o, e. split; [done|]. split; [by eapply segment_perm|by eapply collinear_perm].
    + right. split; [eapply hull_perm; [exact Hap|]; by apply (polygon_hull o)|].
      intros Hcol. eapply (polygon_not_collinear o); [exact Hpoly|]. by eapply collinear_perm.
Qed.

(** The hull in the front of the array, and what is left behind it. *)
Lemma findConvexHull_spec pts : Forall exact pts -> (2 <= length pts)%nat ->
  exists h junk, findConvexHull pts = Ok (h ++ junk, zlen h) /\
    ((exists s e, h = [s; e] /\ is_segment pts s e /\ collinear pts) \/ (is_hull pts h /\ ~ collinear pts)).
Proof.
  intros Hex Hlen. unfold findConvexHull. destruct (Z.ltb_spec (zlen pts) 2) as [H|_]; [unfold zlen in H; lia|].
  destruct (findStartingPoint_spec pts) as (s & -> & Hs & Hab); [intros ->; cbn in Hlen; lia|].
  rewrite arr_swap_ok by lia. assert (zswap pts 0 s ≡ₚ pts) as Hsw by (apply zswap_perm; lia).
  assert (znth (zswap pts 0 s) 0 = znth pts s) as Hhd.
  { rewrite znth_zswap by lia. destruct (Z.eqb_spec s 0) as [->|]; done. }
  destruct (zswap pts 0 s) as [|o rest]; [apply Permutation_length in Hsw; cbn in Hsw; lia|].
  change (znth (o :: rest) 0) with o in Hhd. rewrite <- Hhd in Hab. clear Hhd Hs s.
  rewrite <- Hsw in Hex. apply Forall_cons in Hex as [Heo Hex]. rewrite Forall_forall in Hex.
  assert (forall p, p ∈ rest -> exact p /\ above o p) as Hr.
  { intros p Hp. split; [by apply Hex|]. apply Hab. rewrite <- Hsw. set_solver. }
  pose proof (sorted_rest o rest Heo Hr) as Hso. pose proof (qsort_r_perm (cmp o) rest) as Hpe.
  destruct (qsort_r (cmp o) rest) as [|p1 ps]; [apply Permutation_length in Hpe, Hsw; cbn in *; lia|].
  assert (o :: p1 :: ps ≡ₚ pts) as Hpp by (by rewrite Hpe).
  destruct (scan_hull o p1 ps) as (h & junk & E & Hres); [done|intros p; rewrite Hpe; apply Hr|done|].
  cbn [length]. replace (S (S (length ps)) - 2)%nat with (length ps) by lia. exists h, junk. split; [exact E|].
  destruct Hres as [(s & e & -> & Hseg & Hcol)|[Hh Hcol]].
  - left. exists s, e. split; [done|]. split; [by eapply segment_perm|by eapply collinear_perm].
  - right. split; [by eapply hull_perm|]. intros H. apply Hcol. by eapply collinear_perm.
Qed.

(** ** The program *)

Definition point_text (pts : list Vec2i_t) : list Z := flat_map (fun p => [vx p; vy p]) pts.

Lemma read_points_text pts more : read_points (length pts) (point_text pts ++ more) = Some pts.
Proof. unfold point_text. induction pts as [|[x y] pts IH]; [done|]. cbn [flat_map app length read_points vx vy]. by rewrite IH. Qed.

Lemma read_points_short n input : (length input < 2 * n)%nat -> read_points n input = None.
Proof.
  revert input. induction n as [|n IH]; intros [|x [|y input]] H; cbn [length] in H; try lia; try done.
  cbn [read_points]. by rewrite IH by lia.
Qed.
End Correct.

(** C12.  For points whose coordinates have at most 26 bits the program prints their convex
    hull: when they are not on one line, the vertices counter-clockwise from the lowest
    one, each of them a given point, with a strict turn to the left at every vertex and
    no point to the right of an edge; when they are on one line, the two ends between
    which they all are; and less than two points as they are.  A number of points that
    is negative or too large, and a file that ends early, are reported. *)
Theorem hull_correct (Q : QsortR Vec2i_t) (pts : list Vec2i_t) (more : list Z) :
  Forall exact pts -> zlen pts <= 100000 ->
  (exists h, main (Some (zlen pts :: point_text pts ++ more)) true = Ok (h, SUCCESS) /\
    ((length pts < 2)%nat -> h = pts) /\
    ((2 <= length pts)%nat -> collinear pts -> exists s e, h = [s; e] /\ is_segment pts s e) /\
    (~ collinear pts -> is_hull pts h)) /\
  (forall n input mem, - 2 ^ 31 <= n < 0 \/ 100000 < n < 2 ^ 31 -> main (Some (n :: input)) mem = Ok ([], BAD_NUMBER_OF_POINTS)) /\
  (forall n input, 0 <= n <= 100000 -> zlen input < 2 * n -> main (Some (n :: input)) true = Ok ([], BAD_NUMBER_OF_LINES)).
Proof.
  intros Hex Hn. split; [|split].
  - cbn [main scan_int]. rewrite u64_small by (unfold zlen in *; lia). unfold validatePointsCount.
    destruct (Z.leb_spec (zlen pts) 100000); [|lia]. cbn [negb]. unfold zlen. rewrite Nat2Z.id, read_points_text.
    destruct (Nat.lt_ge_cases (length pts) 2) as [Hl|Hl].
    + unfold findConvexHull. destruct (Z.ltb_spec (zlen pts) 2) as [_|H2]; [|unfold zlen in H2; lia]. eexists. split; [done|].
      unfold zlen. rewrite Nat2Z.id, firstn_all. split_and!; [done|lia|]. intros Hc. exfalso. apply Hc.
      destruct pts as [|p [|]]; cbn in Hl; [..|lia]; intros a b c; rewrite ?list_elem_of_singleton; [by intros ?%not_elem_of_nil|].
      intros -> -> ->. apply turn_refl.
    + destruct (findConvexHull_spec pts Hex Hl) as (h & junk & -> & Hres). eexists. split; [done|].
      unfold zlen. rewrite Nat2Z.id, take_app_length. split; [lia|].
      destruct Hres as [(s & e & -> & Hseg & Hcol)|[Hh Hcol]]; split; try done. intros _ _. by exists s, e.
  - intros n input mem Hr. cbn [main scan_int]. unfold validatePointsCount. destruct (Z.leb_spec (u64 n) 100000) as [H|]; [|done].
    exfalso. unfold u64 in H. destruct Hr as [Hr|Hr]; [|rewrite Z.mod_small in H; lia].
    rewrite <- (Z.mod_add n 1), Z.mod_small in H; lia.
  - intros n input Hr Hl. cbn [main scan_int]. rewrite u64_small by lia. unfold validatePointsCount. destruct (Z.leb_spec n 100000); [|lia].
    cbn [negb]. rewrite read_points_short; [done|]. unfold zlen in Hl. lia.
Qed.

(** A triangle whose products are rounded, and one point given three times. *)
Definition far_triangle : list Vec2i_t := [mkVec2i 0 0; mkVec2i 2147483647 2147483645; mkVec2i 1073741824 1073741823].

(** (1) With coordinates of 31 bits the products do not fit a double: a triangle is
    taken for a segment, and one of its corners, which is not between the others, is left
    out.  (2) Of a point that is given several times two copies are printed. *)
Theorem hull_faults :
  (exists s e arr, @findConvexHull (InsertionQsortR _) far_triangle = Ok (s :: e :: arr, 2) /\ ~ collinear far_triangle /\
    exists p, p ∈ far_triangle /\ turn s e p <> 0) /\
  forall Q : QsortR Vec2i_t, forall p, exact p -> exists arr, findConvexHull [p; p; p] = Ok (p :: p :: arr, 2).
Proof.
  split.
  - exists (mkVec2i 0 0), (mkVec2i 2147483647 2147483645), [mkVec2i 2147483647 2147483645]. split; [vm_compute; reflexivity|].
    assert (turn (mkVec2i 0 0) (mkVec2i 2147483647 2147483645) (mkVec2i 1073741824 1073741823) <> 0) as H by (vm_compute; discriminate).
    assert (mkVec2i 0 0 ∈ far_triangle /\ mkVec2i 2147483647 2147483645 ∈ far_triangle /\ mkVec2i 1073741824 1073741823 ∈ far_triangle) as (H1 & H2 & H3).
    { split_and!; apply list_elem_of_In; cbn; auto. }
    split; [|by exists (mkVec2i 1073741824 1073741823)]. intros Hc. by apply H, Hc.
  - intros Q p Hp. destruct (findConvexHull_spec [p; p; p]) as (h & junk & E & Hres); [by repeat (apply Forall_cons; split; [done|])|cbn; lia|].
    assert (collinear [p; p; p]) as Hcol.
    { intros a b c. rewrite !elem_of_cons, !elem_of_nil. intros Ha Hb Hc. assert (a = p /\ b = p /\ c = p) as (-> & -> & ->) by tauto. apply turn_refl. }
    destruct Hres as [(s & e & -> & (Hs & He & _) & _)|[_ Hn]]; [|done]. rewrite !elem_of_cons, !elem_of_nil in Hs, He.
    assert (s = p /\ e = p) as [-> ->] by tauto. by exists junk.
Qed.

Lemma hull_correct_witness :
  exists h, @main (InsertionQsortR _) (Some [5; 2; 1; 4; 0; 0; 0; 0; 4; 2; 0]) true = Ok (h, SUCCESS) /\
    is_hull [mkVec2i 2 1; mkVec2i 4 0; mkVec2i 0 0; mkVec2i 0 4; mkVec2i 2 0] h.
Proof.
  set (pts := [mkVec2i 2 1; mkVec2i 4 0; mkVec2i 0 0; mkVec2i 0 4; mkVec2i 2 0]).
  destruct (hull_correct (InsertionQsortR _) pts []) as [(h & E & _ & _ & Hh) _].
  - repeat constructor; unfold exact; cbn; lia.
  - vm_compute. discriminate.
  - exists h. split; [exact E|]. apply Hh. intros Hc. specialize (Hc (mkVec2i 0 0) (mkVec2i 4 0) (mkVec2i 0 4)).
    assert (turn (mkVec2i 0 0) (mkVec2i 4 0) (mkVec2i 0 4) = 0) as H by (apply Hc; unfold pts; set_solver). vm_compute in H. discriminate H.
Defined.
