(* ===== verification/Coroutines.v ===== *)
(** * OS-Labs/9.2-libmycoro: libmycoro.c

    Coroutines: descriptors in a ring ([ListRing]), of which one runs.  What a coroutine
    does is an arbitrary program ([routine]) with calls of the library in it.  A context
    is what a coroutine does when it is resumed: [swapcontext] saves one and continues
    with the other.  The addresses of new descriptors are arbitrary ones that are not in
    use; freed descriptors are taken out of the heap, so that an access to one is
    undefined, and so are running on a freed stack and freeing the stack in use. *)
From stdpp Require Import gmap relations.
From S2P Require Import Prelude ListRing.
#[local] Open Scope Z_scope.
#[local] Set Warnings "-clear-no-such-hyp".

(** The calls of the library in a program, what is printed, and the value returned.
    [Create] continues with the handle, or with nothing when it failed. *)
Inductive routine :=
  | Return (v : Z)
  | Emit (n : Z) (k : routine)
  | Yield (k : routine)
  | Create (f : routine) (k : option loc -> routine)
  | Join (h : loc) (k : Z -> routine).

(** [state_t]. *)
Inductive state_t := ACTIVE | FINISHED.

#[global] Instance state_eq_dec : EqDecision state_t.
Proof. solve_decision. Defined.

(** The start of a coroutine; the rest of a program; the loop of [mycoro_join]; the end of
    [coroutine_start]. *)
Inductive context :=
  | CStart
  | CRun (r : routine)
  | CJoin (h : loc) (k : Z -> routine)
  | CDead.

(** [stack] is whether there is one; the links are in the heap of [ListRing]. *)
Record coroutine := mkCoro {
  stack : bool;
  ctx : context;
  state : state_t;
  body : routine;
  ret : Z
}.

Inductive event := Created (h : loc) | Returned (h : loc) (v : Z) | Joined (h : loc) (v : Z) | Printed (n : Z).

(** [code] is what the running coroutine does next, [main_] the descriptor of the program
    itself, and [trace] what happened, the latest first. *)
Record machine := mkMachine {
  coros : gmap loc coroutine;
  chain : links;
  currently_running : loc;
  code : context;
  main_ : loc;
  trace : list event
}.

Definition set_stack (c : coroutine) (b : bool) : coroutine := mkCoro b (ctx c) (state c) (body c) (ret c).
Definition set_ctx (c : coroutine) (x : context) : coroutine := mkCoro (stack c) x (state c) (body c) (ret c).
Definition set_code (m : machine) (x : context) : machine := mkMachine (coros m) (chain m) (currently_running m) x (main_ m) (trace m).
Definition log (m : machine) (e : event) : machine := mkMachine (coros m) (chain m) (currently_running m) (code m) (main_ m) (e :: trace m).

Definition find (cs : gmap loc coroutine) (a : loc) : res coroutine :=
  match cs !! a with Some c => Ok c | None => Err Undefined end.

(** [mycoro_init], with the address that [malloc] returns; then the program goes on. *)
Definition mycoro_init (mem : option loc) (program : routine) : option machine :=
  match mem with
  | None => None
  | Some a => Some (mkMachine {[a := mkCoro false CDead ACTIVE (Return 0) 0]} (list_init ∅ a) a (CRun program) a [])
  end.

(** The new descriptor is linked in front of the running one. *)
Definition link_before (h : links) (cur mcd : loc) : res links :=
  let h := <[mcd := (0%nat, 0%nat)]> h in
  let* '(p, _) := get h cur in
  let* h := set_next h p mcd in
  let* '(p, _) := get h cur in
  let* h := set_prev h mcd p in
  let* h := set_prev h cur mcd in
  set_next h mcd cur.

(** [mem] has the address of the descriptor, if there is memory for it, and whether there
    is memory for the stack. *)
Definition mycoro_create (m : machine) (func : routine) (mem : option loc * bool) : res (machine * option loc) :=
  match mem with
  | (None, _) | (_, false) => Ok (m, None)
  | (Some mcd, true) =>
      let* h := link_before (chain m) (currently_running m) mcd in
      Ok (log (mkMachine (<[mcd := mkCoro true CStart ACTIVE func 0]> (coros m)) h (currently_running m) (code m) (main_ m) (trace m)) (Created mcd),
          Some mcd)
  end.

(** The context of the coroutine that is running is [code]. *)
Definition mycoro_switch (m : machine) (from to : loc) : res machine :=
  let* f := find (coros m) from in
  let cs := <[from := set_ctx f (code m)]> (coros m) in
  let* t := find cs to in
  if stack t || (to =? main_ m)%nat then
    Ok (mkMachine cs (chain m) to (match ctx t with CStart => CRun (body t) | x => x end) (main_ m) (trace m))
  else Err Undefined.

(** The loop of [schedule_next], run by [self]. *)
Fixpoint skip_finished (fuel : nat) (h : links) (cs : gmap loc coroutine) (self next : loc) : res (loc * gmap loc coroutine) :=
  match fuel with
  | O => Err OutOfFuel
  | S fuel =>
      let* c := find cs next in
      match state c with
      | ACTIVE => Ok (next, cs)
      | FINISHED =>
          if (next =? self)%nat then Err Undefined
          else
            let* '(_, n) := get h next in
            skip_finished fuel h (<[next := set_stack c false]> cs) self n
      end
  end.

Definition schedule_next (m : machine) (current : loc) : res machine :=
  let* '(_, n) := get (chain m) current in
  let* '(next, cs) := skip_finished (size (coros m)) (chain m) (coros m) current n in
  mycoro_switch (mkMachine cs (chain m) (currently_running m) (code m) (main_ m) (trace m)) current next.

Definition mycoro_yield (m : machine) : res machine := schedule_next m (currently_running m).

(** [mycoro_join] from the test of its loop on. *)
Definition mycoro_join (m : machine) (mcd : loc) (k : Z -> routine) : res machine :=
  let* c := find (coros m) mcd in
  match state c with
  | ACTIVE => mycoro_yield (set_code m (CJoin mcd k))
  | FINISHED =>
      let* h := list_unlink (chain m) mcd in
      if stack c && (mcd =? currently_running m)%nat then Err Undefined
      else
        Ok (log (mkMachine (delete mcd (coros m)) (delete mcd h) (currently_running m) (CRun (k (ret c))) (main_ m) (trace m))
              (Joined mcd (ret c)))
  end.

(** What follows the return of a routine. *)
Definition coroutine_start (m : machine) (v : Z) : res machine :=
  let mcd := currently_running m in
  let* c := find (coros m) mcd in
  let m := mkMachine (<[mcd := mkCoro (stack c) (ctx c) FINISHED (body c) v]> (coros m)) (chain m) mcd CDead (main_ m) (Returned mcd v :: trace m) in
  mycoro_yield m.

(** One step: the next call of the running coroutine.  [None]: the program has ended. *)
Definition exec (m : machine) (mem : option loc * bool) : res (option machine) :=
  match code m with
  | CRun (Return v) =>
      if (currently_running m =? main_ m)%nat then Ok None else let* m := coroutine_start m v in Ok (Some m)
  | CRun (Emit n k) => Ok (Some (log (set_code m (CRun k)) (Printed n)))
  | CRun (Yield k) => let* m := mycoro_yield (set_code m (CRun k)) in Ok (Some m)
  | CRun (Create f k) => let* '(m, h) := mycoro_create m f mem in Ok (Some (set_code m (CRun (k h))))
  | CRun (Join h k) | CJoin h k => let* m := mycoro_join m h k in Ok (Some m)
  | CDead => Err AssertFailed
  | CStart => Err Undefined
  end.

(** A run with given answers of [malloc]. *)
Fixpoint run (mems : list (option loc * bool)) (m : machine) : res (option machine) :=
  match mems with
  | [] => Ok (Some m)
  | mem :: mems => let* r := exec m mem in match r with Some m => run mems m | None => Ok None end
  end.

(** The program of [tst-normal.c]: each coroutine prints its number with each of four
    letters, here numbers. *)
Definition coro_func (id : Z) : routine :=
  Emit (10 * id + 1) (Yield (Emit (10 * id + 2) (Yield (Emit (10 * id + 3) (Yield (Emit (10 * id + 4) (Return 0))))))).

Fixpoint join_all (hs : list loc) : routine :=
  match hs with [] => Return 0 | h :: hs => Join h (fun _ => join_all hs) end.

Fixpoint create_all (n : nat) (id : Z) (hs : list loc) : routine :=
  match n with
  | O => Yield (join_all hs)
  | S n => Create (coro_func id) (fun h => match h with Some h => create_all n (id + 1) (hs ++ [h]) | None => Return 1 end)
  end.

Definition printed (t : list event) : list Z := rev (omap (fun e => match e with Printed n => Some n | _ => None end) t).

(** ** The ring *)

Lemma ring_rotate h hd l1 a l2 : ring h hd (l1 ++ a :: l2) -> ring h a (l2 ++ hd :: l1).
Proof.
  intros [Hnd Hl]. split.
  - assert (hd :: l1 ++ a :: l2 ≡ₚ a :: l2 ++ hd :: l1) as Hp; [|by rewrite <- Hp].
    change (hd :: l1 ++ a :: l2) with ([hd] ++ l1 ++ [a] ++ l2). change (a :: l2 ++ hd :: l1) with ([a] ++ l2 ++ [hd] ++ l1). solve_Permutation.
  - replace (hd :: (l1 ++ a :: l2) ++ [hd]) with ((hd :: l1) ++ a :: (l2 ++ [hd])) in Hl by (by rewrite <- app_comm_cons, <- app_assoc).
    apply linked_app in Hl as [H1 H2].
    replace (a :: (l2 ++ hd :: l1) ++ [a]) with ((a :: l2) ++ hd :: (l1 ++ [a])) by (by rewrite <- app_comm_cons, <- app_assoc).
    apply linked_app. by split.
Qed.

(** The ring as seen from another of its elements. *)
Lemma ring_turn h cur b xs l1 l2 : ring h cur xs -> xs ++ [cur] = l1 ++ b :: l2 -> exists xs', ring h b xs' /\ b :: xs' ≡ₚ cur :: xs.
Proof.
  intros Hr E. destruct (exists_last (l := b :: l2)) as (l3 & z & Hz); [done|]. rewrite Hz, app_assoc in E. apply app_inj_tail in E as [E1 E2].
  destruct l3 as [|y l3]; cbn in Hz; injection Hz as Hz1 Hz2.
  - exists xs. rewrite Hz1, <- E2. done.
  - subst y. exists (l3 ++ cur :: l1). subst xs. split; [by apply ring_rotate|].
    change (b :: l3 ++ cur :: l1) with ([b] ++ l3 ++ [cur] ++ l1).
    change (cur :: l1 ++ b :: l3) with ([cur] ++ l1 ++ [b] ++ l3). solve_Permutation.
Qed.

Lemma link_before_push_back h cur mcd p n : h !! cur = Some (p, n) -> is_Some (h !! p) -> h !! mcd = None ->
  link_before h cur mcd = list_push_back h cur mcd.
Proof.
  intros Hc [[pp pn] Hp] Hm.
  assert (mcd <> cur) as Nc by (intros ->; congruence). assert (mcd <> p) as Np by (intros ->; congruence).
  unfold link_before, list_push_back, get, set_next, set_prev, get.
  destruct (decide (p = cur)) as [->|Npc]; repeat (simplify_map_eq; cbn); f_equal; apply map_eq; intros i;
    (destruct (decide (i = mcd)) as [->|]; [by simplify_map_eq|]); (destruct (decide (i = cur)) as [->|]; [by simplify_map_eq|]);
    [by simplify_map_eq|]; destruct (decide (i = p)) as [->|]; by simplify_map_eq.
Qed.

Lemma link_before_ring h cur a xs : ring h cur xs -> a ∉ cur :: xs -> h !! a = None ->
  exists h', link_before h cur a = Ok h' /\ ring h' cur (xs ++ [a]) /\ forall x, x ∉ cur :: xs ++ [a] -> h' !! x = h !! x.
Proof.
  intros Hr Hn Ha. destruct (push_back_ring h cur a xs Hr Hn) as (h' & Eh & Hr' & Hframe). exists h'. split; [|done].
  destruct (ring_cell _ _ _ cur Hr ltac:(by left)) as [[p Hp] [n Hnx]]. rewrite (link_before_push_back _ _ _ p n); try done.
  - unfold prv, nxt in *. destruct (h !! cur) as [[]|]; cbn in *; congruence.
  - destruct (ring_cut cur xs []) as (L & q & n' & R & HL & HR & _). cbn in HR. injection HR as <- <-. pose proof (r_linked _ _ _ Hr) as Hl.
    replace (cur :: xs ++ [cur]) with (L ++ q :: [cur]) in Hl by (rewrite app_comm_cons, HL, <- app_assoc; done).
    apply linked_app in Hl as [_ (Hq & Hq' & _)]. assert (p = q) as -> by congruence. unfold nxt in Hq. destruct (h !! q); [by eexists|done].
Qed.

(** ** What holds between the steps *)

(** What a coroutine does when it goes on. *)
Definition resumed (c : coroutine) : context := match ctx c with CStart => CRun (body c) | x => x end.

Definition context_of (m : machine) (a : loc) : option context :=
  if decide (a = currently_running m) then Some (code m) else resumed <$> coros m !! a.

Definition active (m : machine) (a : loc) : Prop := exists c, coros m !! a = Some c /\ state c = ACTIVE.

(** A coroutine in the loop of [mycoro_join]. *)
Definition waits (m : machine) (a h : loc) : Prop := active m a /\ exists k, context_of m a = Some (CJoin h k).

(** The last event that concerns a handle. *)
Definition handle_of (e : event) : option loc :=
  match e with Created h | Returned h _ | Joined h _ => Some h | Printed _ => None end.

Fixpoint last_event (h : loc) (t : list event) : option event :=
  match t with
  | [] => None
  | e :: t => if decide (handle_of e = Some h) then Some e else last_event h t
  end.

(** Every coroutine is created, returns, and is joined with what it returned, in this
    order; then its address may be used again. *)
Definition may_follow (e : event) (t : list event) : Prop :=
  match e with
  | Created h => last_event h t = None \/ exists v, last_event h t = Some (Joined h v)
  | Returned h _ => last_event h t = Some (Created h)
  | Joined h v => last_event h t = Some (Returned h v)
  | Printed _ => True
  end.

Fixpoint follows (t : list event) : Prop :=
  match t with [] => True | e :: t => may_follow e t /\ follows t end.

Definition life (c : coroutine) (a : loc) : event := match state c with ACTIVE => Created a | FINISHED => Returned a (ret c) end.

Record inv (m : machine) (xs : list loc) : Prop := {
  i_ring : ring (chain m) (currently_running m) xs;
  i_dom : forall a, is_Some (coros m !! a) <-> a ∈ currently_running m :: xs;
  i_chain : forall a, is_Some (chain m !! a) -> is_Some (coros m !! a);
  i_main : active m (main_ m);
  i_code : code m <> CStart;
  i_active : forall a c, coros m !! a = Some c -> state c = ACTIVE -> (stack c = true \/ a = main_ m) /\ context_of m a <> Some CDead;
  i_wait : forall a h, waits m a h -> is_Some (coros m !! h);
  i_once : forall a b h, waits m a h -> waits m b h -> a = b;
  i_trace : follows (trace m);
  i_last : forall a c, coros m !! a = Some c -> a <> main_ m -> last_event a (trace m) = Some (life c a);
  i_free : forall a, coros m !! a = None -> last_event a (trace m) = None \/ exists v, last_event a (trace m) = Some (Joined a v)
}.

(** Proper use: a handle is joined while it is valid and nobody else waits for it; and
    memory that is in use is not allocated again. *)
Definition proper (m : machine) (mem : option loc * bool) : Prop :=
  (forall h k, code m = CRun (Join h k) -> is_Some (coros m !! h) /\ forall a, ~ waits m a h) /\
  (forall a, mem.1 = Some a -> coros m !! a = None).

(** ** Scheduling *)

Lemma find_ok cs a c : cs !! a = Some c -> find cs a = Ok c.
Proof. intros H. unfold find. by rewrite H. Qed.

Lemma skip_finished_spec h a self : forall l1 fuel cs,
  linked h (l1 ++ [a]) -> self ∉ l1 -> NoDup (l1 ++ [a]) ->
  (forall x, x ∈ l1 -> exists c, cs !! x = Some c /\ state c = FINISHED) -> (exists c, cs !! a = Some c /\ state c = ACTIVE) ->
  (length l1 < fuel)%nat ->
  exists cs', skip_finished fuel h cs self (match l1 with [] => a | x :: _ => x end) = Ok (a, cs') /\
    forall x, cs' !! x = if decide (x ∈ l1) then (fun c => set_stack c false) <$> cs !! x else cs !! x.
Proof.
  induction l1 as [|y l1 IH]; intros fuel cs Hl Hs Hnd Hfin Hact Hf; (destruct fuel as [|fuel]; [cbn in Hf; lia|]); cbn [skip_finished].
  - destruct Hact as (c & Hc & Hst). rewrite (find_ok _ _ _ Hc), Hst. exists cs. split; [done|]. done.
  - destruct (Hfin y) as (c & Hc & Hst); [set_solver|]. rewrite (find_ok _ _ _ Hc), Hst.
    destruct (Nat.eqb_spec y self) as [->|_]; [set_solver|].
    set (n := match l1 with [] => a | x :: _ => x end).
    assert (exists p, h !! y = Some (p, n) /\ linked h (l1 ++ [a])) as (p & Hy & Hl').
    { destruct l1 as [|z l1]; cbn in Hl; destruct Hl as (Hn & _ & Hl); unfold nxt in Hn;
        destruct (h !! y) as [[p q]|]; cbn in Hn; [|done|..|done]; injection Hn as ->; by exists p. }
    unfold get. rewrite Hy. cbn [app] in Hnd. apply NoDup_cons in Hnd as [Hny Hnd].
    destruct (IH fuel (<[y := set_stack c false]> cs)) as (cs' & E & Hcs'); try done.
    + set_solver.
    + intros x Hx. rewrite lookup_insert_ne by set_solver. apply Hfin. set_solver.
    + rewrite lookup_insert_ne by set_solver. done.
    + cbn in Hf. lia.
    + exists cs'. split; [done|]. intros x. rewrite Hcs'. destruct (decide (x = y)) as [->|Nxy].
      * rewrite decide_False by set_solver. rewrite decide_True by set_solver. by rewrite lookup_insert_eq, Hc.
      * rewrite lookup_insert_ne by done. destruct (decide (x ∈ l1)); [rewrite decide_True by set_solver|rewrite decide_False by set_solver]; done.
Qed.

(** The first one of a list that is active. *)
Lemma first_active (cs : gmap loc coroutine) (l : list loc) (a : loc) : a ∈ l -> (exists c, cs !! a = Some c /\ state c = ACTIVE) -> (forall x, x ∈ l -> is_Some (cs !! x)) ->
  exists l1 b l2, l = l1 ++ b :: l2 /\ (exists c, cs !! b = Some c /\ state c = ACTIVE) /\ forall x, x ∈ l1 -> exists c, cs !! x = Some c /\ state c = FINISHED.
Proof.
  induction l as [|y l IH]; intros Ha Hact Hall; [by apply not_elem_of_nil in Ha|].
  destruct (Hall y) as [c Hc]; [set_solver|]. destruct (state c) eqn:Es.
  - exists [], y, l. split; [done|]. split; [by exists c|]. intros x Hx. by apply not_elem_of_nil in Hx.
  - assert (a ∈ l) as Hal.
    { apply elem_of_cons in Ha as [->|]; [|done]. destruct Hact as (c' & Hc' & Hs'). congruence. }
    destruct IH as (l1 & b & l2 & -> & Hb & Hl1); [done|done|intros; apply Hall; set_solver|].
    exists (y :: l1), b, l2. split; [done|]. split; [done|]. intros x [->|Hx]%elem_of_cons; [by exists c|by apply Hl1].
Qed.

Lemma size_coros m xs : inv m xs -> size (coros m) = length (currently_running m :: xs).
Proof.
  intros Hi. pose proof (r_nodup _ _ _ (i_ring _ _ Hi)) as Hnd. rewrite <- size_dom.
  rewrite <- (size_list_to_set (C := gset loc) _ Hnd). f_equal. apply set_eq. intros a.
  rewrite elem_of_dom, (i_dom _ _ Hi), elem_of_list_to_set. done.
Qed.

(** Two machines that differ in which coroutine runs, and in the stacks of finished ones. *)
Record same (m m' : machine) : Prop := {
  s_main : main_ m' = main_ m;
  s_trace : trace m' = trace m;
  s_chain : chain m' = chain m;
  s_none : forall x, coros m' !! x = None <-> coros m !! x = None;
  s_some : forall x c', coros m' !! x = Some c' -> exists c, coros m !! x = Some c /\ state c' = state c /\ ret c' = ret c /\
    (state c = ACTIVE -> stack c' = stack c) /\ context_of m' x = context_of m x
}.

Lemma same_is_Some m m' x : same m m' -> is_Some (coros m' !! x) <-> is_Some (coros m !! x).
Proof. intros Hs. rewrite !is_Some_alt. pose proof (s_none _ _ Hs x). destruct (coros m !! x), (coros m' !! x); intuition congruence. Qed.

Lemma same_active m m' x : same m m' -> active m x -> active m' x.
Proof.
  intros Hs (c & Hc & Hst). assert (is_Some (coros m' !! x)) as [c' Hc'] by (apply (same_is_Some _ _ _ Hs); by exists c).
  destruct (s_some _ _ Hs x c' Hc') as (c0 & Hc0 & E & _). exists c'. split; [done|]. congruence.
Qed.

Lemma same_waits m m' a h : same m m' -> waits m' a h -> waits m a h.
Proof.
  intros Hs [(c' & Hc' & Hst) [k Hk]]. destruct (s_some _ _ Hs a c' Hc') as (c & Hc & E & _ & _ & Ek).
  split; [exists c; split; [done|congruence]|]. exists k. congruence.
Qed.

Lemma inv_same m m' xs xs' : inv m xs -> same m m' -> currently_running m' :: xs' ≡ₚ currently_running m :: xs ->
  ring (chain m') (currently_running m') xs' -> code m' <> CStart -> inv m' xs'.
Proof.
  intros Hi Hs Hp Hr Hc. split; try done.
  - intros a. rewrite (same_is_Some _ _ _ Hs), (i_dom _ _ Hi), Hp. done.
  - intros a. rewrite (s_chain _ _ Hs), (same_is_Some _ _ _ Hs). apply (i_chain _ _ Hi).
  - rewrite (s_main _ _ Hs). apply (same_active _ _ _ Hs), (i_main _ _ Hi).
  - intros a c' Hc' Hst. destruct (s_some _ _ Hs a c' Hc') as (c & Hc0 & E1 & _ & E2 & E3). rewrite E3, (s_main _ _ Hs).
    rewrite E2 by congruence. apply (i_active _ _ Hi); congruence.
  - intros a h Hw. rewrite (same_is_Some _ _ _ Hs). eapply (i_wait _ _ Hi), same_waits; done.
  - intros a b h Ha Hb. eapply (i_once _ _ Hi); eapply same_waits; done.
  - rewrite (s_trace _ _ Hs). apply (i_trace _ _ Hi).
  - intros a c' Hc' Ha. rewrite (s_trace _ _ Hs). rewrite (s_main _ _ Hs) in Ha. destruct (s_some _ _ Hs a c' Hc') as (c & Hc0 & E1 & E2 & _).
    rewrite (i_last _ _ Hi a c Hc0 Ha). unfold life. by rewrite E1, E2.
  - intros a Ha. rewrite (s_trace _ _ Hs). apply (i_free _ _ Hi). by apply (s_none _ _ Hs).
Qed.

(** [mycoro_switch] after the loop over the finished ones. *)
Lemma switch_same m xs (cs' : gmap loc coroutine) (l1 : list loc) a : inv m xs -> active m a -> currently_running m ∉ l1 -> a ∉ l1 ->
  (forall x, x ∈ l1 -> exists c, coros m !! x = Some c /\ state c = FINISHED) ->
  (forall x, cs' !! x = if decide (x ∈ l1) then (fun c => set_stack c false) <$> coros m !! x else coros m !! x) ->
  exists m', mycoro_switch (mkMachine cs' (chain m) (currently_running m) (code m) (main_ m) (trace m)) (currently_running m) a = Ok m' /\
    same m m' /\ currently_running m' = a /\ code m' <> CStart.
Proof.
  intros Hi (ca & Hca & Hact) Hcur Ha Hfin Hcs. set (cur := currently_running m) in *.
  destruct (proj2 (i_dom _ _ Hi cur) ltac:(unfold cur; set_solver)) as [f Hf].
  assert (cs' !! cur = Some f) as Hf' by (by rewrite Hcs, decide_False).
  assert (cs' !! a = Some ca) as Ha' by (by rewrite Hcs, decide_False).
  unfold mycoro_switch. cbn [coros code main_ chain trace]. rewrite (find_ok _ _ _ Hf'). set (cs := <[cur := set_ctx f (code m)]> cs').
  destruct (i_active _ _ Hi a ca Hca Hact) as [Hst _]. pose proof (i_code _ _ Hi) as Hcode.
  assert (exists t, cs !! a = Some t /\ stack t = stack ca /\ Some (resumed t) = context_of m a /\ resumed t <> CStart) as (t & Ht & Est & Ect & Hns).
  { unfold cs, context_of. fold cur. destruct (decide (a = cur)) as [->|Nac].
    - rewrite lookup_insert_eq. exists (set_ctx f (code m)). assert (ca = f) as -> by congruence. split_and!; try done;
        unfold resumed; cbn; destruct (code m); done.
    - rewrite lookup_insert_ne by done. exists ca. rewrite Hca. split_and!; try done. unfold resumed. destruct (ctx ca); done. }
  rewrite (find_ok _ _ _ Ht), Est.
  assert ((stack ca || (a =? main_ m)%nat) = true) as -> by (destruct Hst as [->| ->]; [done|rewrite Nat.eqb_refl; apply orb_true_r]).
  eexists. split; [done|]. split; [|split; [done|exact Hns]]. split; try done; cbn [coros].
  - intros x. unfold cs. destruct (decide (x = cur)) as [->|Nx].
    + rewrite lookup_insert_eq, Hf. done.
    + rewrite lookup_insert_ne, Hcs by done. destruct (decide (x ∈ l1)); [|done]. by rewrite fmap_None.
  - intros x c' Hc'. unfold context_of. cbn [currently_running code coros]. fold cur. destruct (decide (x = cur)) as [->|Nx].
    + unfold cs in Hc'. rewrite lookup_insert_eq in Hc'. injection Hc' as <-. exists f. split_and!; try done.
      destruct (decide (cur = a)) as [<-|]; [unfold context_of in Ect; fold cur in Ect; rewrite decide_True in Ect by done; rewrite <- Ect; f_equal|].
      unfold cs. rewrite lookup_insert_eq. cbn. unfold resumed. cbn. by destruct (code m).
    + pose proof Hc' as Hc2. unfold cs in Hc2. rewrite lookup_insert_ne, Hcs in Hc2 by done.
      assert (context_of m x = resumed <$> coros m !! x) as Hx by (unfold context_of; fold cur; by rewrite decide_False).
      destruct (decide (x ∈ l1)) as [Hx1|Hx1].
      * destruct (Hfin x Hx1) as (c & Hc & Hfc). rewrite Hc in Hc2. injection Hc2 as <-. exists c.
        rewrite decide_False by (by intros ->). rewrite Hc'. split_and!; try done; [by rewrite Hfc|]. rewrite Hc. done.
      * exists c'. split_and!; try done. destruct (decide (x = a)) as [->|]; [|by rewrite Hc', Hc2].
        rewrite <- Hx, <- Ect. done.
Qed.

(** [mycoro_yield] goes round the ring: the next active one runs. *)
Lemma yield_spec m xs : inv m xs ->
  exists m' xs' l1 l2, mycoro_yield m = Ok m' /\ same m m' /\ inv m' xs' /\ active m' (currently_running m') /\
    xs ++ [currently_running m] = l1 ++ currently_running m' :: l2 /\
    forall x, x ∈ l1 -> exists c, coros m !! x = Some c /\ state c = FINISHED.
Proof.
  intros Hi. set (cur := currently_running m). pose proof (i_ring _ _ Hi) as Hr. fold cur in Hr.
  pose proof (r_nodup _ _ _ Hr) as Hnd. pose proof (r_linked _ _ _ Hr) as Hl.
  destruct (first_active (coros m) (xs ++ [cur]) (main_ m)) as (l1 & b & l2 & E & Hb & Hfin).
  { rewrite <- Permutation_cons_append. apply (i_dom _ _ Hi). destruct (i_main _ _ Hi) as (c & Hc & _). by exists c. }
  { apply (i_main _ _ Hi). }
  { intros x. rewrite <- Permutation_cons_append. apply (i_dom _ _ Hi). }
  assert (NoDup (l1 ++ b :: l2)) as Hnd'. { rewrite <- E, <- Permutation_cons_append. exact Hnd. }
  assert ((b ∉ l1) /\ (cur ∉ l1)) as [Hbl Hcl].
  { apply NoDup_app in Hnd' as (_ & Hd & _). split; intros Hx; apply (Hd _ Hx); [by left|].
    destruct (exists_last (l := b :: l2)) as (l3 & z & Hz); [done|]. rewrite Hz, app_assoc in E. apply app_inj_tail in E as [_ <-].
    rewrite Hz. apply elem_of_app. right. by left. }
  assert (linked (chain m) (cur :: l1 ++ [b])) as Hl1.
  { rewrite E in Hl. change (cur :: l1 ++ b :: l2) with ((cur :: l1) ++ b :: l2) in Hl. apply linked_app in Hl as [Hl _]. exact Hl. }
  assert (exists p, chain m !! cur = Some (p, match l1 with [] => b | x :: _ => x end) /\ linked (chain m) (l1 ++ [b])) as (p & Hcur & Hl2).
  { destruct l1 as [|z l1]; cbn in Hl1; destruct Hl1 as (Hn & _ & Hl1); unfold nxt in Hn;
      destruct (chain m !! cur) as [[p q]|]; cbn in Hn; [|done|..|done]; injection Hn as ->; by exists p. }
  destruct (skip_finished_spec (chain m) b cur l1 (size (coros m)) (coros m)) as (cs' & Esk & Hcs'); try done.
  { apply NoDup_app in Hnd' as (H1 & _ & _). apply NoDup_app. split_and!; [done| |apply NoDup_singleton].
    intros x Hx Hx'%list_elem_of_singleton. by subst x. }
  { rewrite (size_coros _ _ Hi). apply (f_equal length) in E. rewrite !length_app in E. cbn in *. lia. }
  destruct (switch_same m xs cs' l1 b Hi Hb Hcl Hbl Hfin Hcs') as (m' & Esw & Hs & Ecur & Hcode). subst b.
  destruct (ring_turn (chain m) cur (currently_running m') xs l1 l2 Hr E) as (xs' & Hr' & Hp).
  exists m', xs', l1, l2. split; [|split; [done|]].
  - unfold mycoro_yield, schedule_next. fold cur. unfold get. rewrite Hcur, Esk. exact Esw.
  - split; [|split; [by apply (same_active m)|done]]. eapply inv_same; [exact Hi|exact Hs|exact Hp| |exact Hcode]. by rewrite (s_chain _ _ Hs).
Qed.

(** ** The steps keep the invariant *)

Lemma context_set_code m x a : context_of (set_code m x) a = if decide (a = currently_running m) then Some x else context_of m a.
Proof. unfold context_of. cbn. by destruct (decide (a = currently_running m)). Qed.

Lemma waits_set_code m x a h : waits (set_code m x) a h -> a = currently_running m /\ (exists k, x = CJoin h k) \/ a <> currently_running m /\ waits m a h.
Proof.
  intros [Hact [k Hk]]. rewrite context_set_code in Hk. destruct (decide (a = currently_running m)) as [->|Na].
  - left. split; [done|]. exists k. congruence.
  - right. split; [done|]. split; [exact Hact|]. by exists k.
Qed.

Lemma inv_set_code m xs x : inv m xs -> x <> CStart -> x <> CDead ->
  (forall h k, x = CJoin h k -> is_Some (coros m !! h) /\ forall a, a <> currently_running m -> ~ waits m a h) -> inv (set_code m x) xs.
Proof.
  intros Hi Hs Hd Hj. destruct Hi as [H1 H2 H3 H4 H5 H6 H7 H8 H9 H10 H11]. split; try done.
  - intros a c Hc Hst. split; [by eapply H6|]. rewrite context_set_code. destruct (decide (a = currently_running m)); [congruence|by eapply H6].
  - intros a h [[-> [k ->]]|[Na Hw]]%waits_set_code; [by eapply Hj|by eapply H7].
  - intros a b h [[-> [k ->]]|[Na Ha]]%waits_set_code [[-> [k' E]]|[Nb Hb]]%waits_set_code; [done| | |by eapply H8]; exfalso.
    + by apply (Hj h k eq_refl) in Nb.
    + subst x. by apply (Hj h k' eq_refl) in Na.
Qed.

Lemma inv_printed m xs n : inv m xs -> inv (log m (Printed n)) xs.
Proof. intros [H1 H2 H3 H4 H5 H6 H7 H8 H9 H10 H11]. by split. Qed.

Lemma last_event_other e t a : handle_of e <> Some a -> last_event a (e :: t) = last_event a t.
Proof. intros H. cbn. by rewrite decide_False. Qed.

Lemma last_event_this e t a : handle_of e = Some a -> last_event a (e :: t) = Some e.
Proof. intros H. cbn. by rewrite decide_True. Qed.

Lemma return_inv m xs c v : inv m xs -> coros m !! currently_running m = Some c -> state c = ACTIVE -> currently_running m <> main_ m ->
  inv (mkMachine (<[currently_running m := mkCoro (stack c) (ctx c) FINISHED (body c) v]> (coros m)) (chain m) (currently_running m) CDead (main_ m)
        (Returned (currently_running m) v :: trace m)) xs.
Proof.
  intros [H1 H2 H3 H4 H5 H6 H7 H8 H9 H10 H11] Hc Hst Hm. set (cur := currently_running m) in *. set (c' := mkCoro _ _ _ _ _).
  assert (forall a, is_Some (<[cur := c']> (coros m) !! a) <-> is_Some (coros m !! a)) as Hsome.
  { intros a. destruct (decide (a = cur)) as [->|]; [rewrite lookup_insert_eq, Hc; split; by eexists|by rewrite lookup_insert_ne]. }
  assert (forall t a h, waits (mkMachine (<[cur := c']> (coros m)) (chain m) cur CDead (main_ m) t) a h -> waits m a h) as Hw.
  { intros t a h [(d & Hd & Hds) [k Hk]]. unfold context_of in Hk. cbn in Hd, Hk. destruct (decide (a = cur)) as [->|Na]; [done|].
    rewrite lookup_insert_ne in Hd, Hk by done. split; [by exists d|]. exists k. unfold context_of. fold cur. by rewrite decide_False. }
  split; cbn [coros chain currently_running code main_ trace]; try done.
  - intros a. rewrite Hsome. apply H2.
  - intros a. rewrite Hsome. apply H3.
  - destruct H4 as (d & Hd & Hds). exists d. cbn. by rewrite lookup_insert_ne.
  - intros a d Hd Hds. destruct (decide (a = cur)) as [->|Na]; [rewrite lookup_insert_eq in Hd; by injection Hd as <-|].
    rewrite lookup_insert_ne in Hd by done. destruct (H6 a d Hd Hds) as [Ha Hb]. split; [done|].
    unfold context_of in *. cbn. fold cur in Hb. rewrite decide_False in * by done. by rewrite lookup_insert_ne.
  - intros a h Ha%Hw. rewrite Hsome. by eapply H7.
  - intros a b h Ha%Hw Hb%Hw. by eapply H8.
  - split; [|done]. cbn. rewrite (H10 cur c Hc Hm). unfold life. by rewrite Hst.
  - intros a d Hd Ha. destruct (decide (a = cur)) as [->|Na].
    + rewrite lookup_insert_eq in Hd. injection Hd as <-. by apply last_event_this.
    + rewrite lookup_insert_ne in Hd by done. rewrite last_event_other by (cbn; congruence). by apply H10.
  - intros a Ha. destruct (decide (a = cur)) as [->|Na]; [by rewrite lookup_insert_eq in Ha|].
    rewrite lookup_insert_ne in Ha by done. rewrite last_event_other by (cbn; congruence). by apply H11.
Qed.

Lemma create_inv m xs f a : inv m xs -> coros m !! a = None ->
  exists h, link_before (chain m) (currently_running m) a = Ok h /\
    inv (mkMachine (<[a := mkCoro true CStart ACTIVE f 0]> (coros m)) h (currently_running m) (code m) (main_ m) (Created a :: trace m)) (xs ++ [a]).
Proof.
  intros [H1 H2 H3 H4 H5 H6 H7 H8 H9 H10 H11] Ha. set (cur := currently_running m) in *. set (c' := mkCoro _ _ _ _ _).
  assert (a ∉ cur :: xs) as Hn by (intros [c Hc]%H2; congruence).
  assert (chain m !! a = None) as Hca by (destruct (chain m !! a) eqn:E; [destruct (H3 a) as [c Hc]; [by eexists|congruence]|done]).
  destruct (link_before_ring (chain m) cur a xs H1 Hn Hca) as (h & Eh & Hr & Hframe). exists h. split; [done|].
  assert (forall x, is_Some (<[a := c']> (coros m) !! x) <-> x = a \/ is_Some (coros m !! x)) as Hsome.
  { intros x. destruct (decide (x = a)) as [->|]; [rewrite lookup_insert_eq; split; [by left|by eexists]|rewrite lookup_insert_ne by done; tauto]. }
  assert (a <> cur /\ a <> main_ m) as [Nac Nam].
  { split; [intros ->; apply Hn; by left|intros ->]. destruct H4 as (d & Hd & _). congruence. }
  set (m' := mkMachine _ _ _ _ _ _).
  assert (forall x, x <> a -> context_of m' x = context_of m x) as Hctx.
  { intros x Nx. unfold context_of. cbn. fold cur. destruct (decide (x = cur)); [done|]. by rewrite lookup_insert_ne. }
  assert (context_of m' a = Some (CRun f)) as Hctxa by (unfold context_of; cbn; by rewrite decide_False, lookup_insert_eq).
  assert (forall x y, waits m' x y -> waits m x y) as Hw.
  { intros x y [(d & Hd & Hds) [k Hk]]. destruct (decide (x = a)) as [->|Nx]; [congruence|]. cbn in Hd. rewrite lookup_insert_ne in Hd by done.
    split; [by exists d|]. exists k. by rewrite <- Hctx. }
  split; subst m'; cbn [coros chain currently_running code main_ trace]; try done.
  - intros x. rewrite Hsome, H2, app_comm_cons, elem_of_app, list_elem_of_singleton. tauto.
  - intros x Hx. rewrite Hsome. destruct (decide (x ∈ cur :: xs ++ [a])) as [Hin|Hout].
    + rewrite app_comm_cons, elem_of_app, list_elem_of_singleton in Hin. destruct Hin as [Hin| ->]; [right; by apply H2|by left].
    + rewrite Hframe in Hx by done. right. by apply H3.
  - destruct H4 as (d & Hd & Hds). exists d. cbn. by rewrite lookup_insert_ne.
  - intros x d Hd Hds. destruct (decide (x = a)) as [->|Nx].
    + rewrite lookup_insert_eq in Hd. injection Hd as <-. split; [by left|]. by rewrite Hctxa.
    + rewrite lookup_insert_ne in Hd by done. rewrite Hctx by done. by apply H6.
  - intros x y Hx%Hw. rewrite Hsome. right. by eapply H7.
  - intros x y z Hx%Hw Hy%Hw. by eapply H8.
  - split; [by apply H11|done].
  - intros x d Hd Hx. destruct (decide (x = a)) as [->|Nx].
    + rewrite lookup_insert_eq in Hd. injection Hd as <-. by apply last_event_this.
    + rewrite lookup_insert_ne in Hd by done. rewrite last_event_other by (cbn; congruence). by apply H10.
  - intros x Hx. destruct (decide (x = a)) as [->|Nx]; [by rewrite lookup_insert_eq in Hx|].
    rewrite lookup_insert_ne in Hx by done. rewrite last_event_other by (cbn; congruence). by apply H11.
Qed.

Lemma ring_delete l hd xs h : ring l hd xs -> h ∉ hd :: xs -> ring (delete h l) hd xs.
Proof.
  intros [Hnd Hl] Hh. split; [done|]. eapply linked_ext; [| |exact Hl]; intros a Ha; unfold nxt, prv; rewrite lookup_delete_ne; try done; intros <-; apply Hh.
  - rewrite app_comm_cons, removelast_snoc in Ha. done.
  - cbn in Ha. apply elem_of_app in Ha as [Ha| ->%list_elem_of_singleton]; [by right|by left].
Qed.

Lemma join_inv m xs h c r : inv m xs -> active m (currently_running m) -> coros m !! h = Some c -> state c = FINISHED ->
  (forall a, a <> currently_running m -> ~ waits m a h) ->
  exists l xs', list_unlink (chain m) h = Ok l /\ h <> currently_running m /\
    inv (mkMachine (delete h (coros m)) (delete h l) (currently_running m) (CRun r) (main_ m) (Joined h (ret c) :: trace m)) xs'.
Proof.
  intros [H1 H2 H3 H4 H5 H6 H7 H8 H9 H10 H11] Hcur Hc Hst Hno. set (cur := currently_running m) in *.
  assert (h <> cur) as Nh by (intros ->; destruct Hcur as (d & Hd & Hds); congruence).
  assert (h <> main_ m) as Nm by (intros ->; destruct H4 as (d & Hd & Hds); congruence).
  assert (h ∈ xs) as Hin.
  { assert (h ∈ cur :: xs) as [|]%elem_of_cons by (apply H2; by eexists); done. }
  apply list_elem_of_split in Hin as (l1 & l2 & ->). pose proof (r_nodup _ _ _ H1) as Hnd.
  assert (h ∉ cur :: l1 ++ l2) as Hout.
  { assert (cur :: l1 ++ h :: l2 ≡ₚ h :: cur :: l1 ++ l2) as Hp by (rewrite <- Permutation_middle; apply Permutation_swap).
    rewrite Hp in Hnd. by apply NoDup_cons in Hnd as [? _]. }
  destruct (unlink_spec (chain m) cur l1 h l2 H1) as (l & El & Hr & Hframe). exists l, (l1 ++ l2). split; [done|]. split; [done|].
  assert (forall x, is_Some (delete h (coros m) !! x) <-> x <> h /\ is_Some (coros m !! x)) as Hsome.
  { intros x. destruct (decide (x = h)) as [->|]; [rewrite lookup_delete_eq; split; [intros []; done|tauto]|rewrite lookup_delete_ne by done; tauto]. }
  set (m' := mkMachine _ _ _ _ _ _).
  assert (forall x, x <> h -> x <> cur -> context_of m' x = context_of m x) as Hctx.
  { intros x Nx Nx'. unfold context_of. cbn. fold cur. rewrite !decide_False by done. by rewrite lookup_delete_ne. }
  assert (forall x y, waits m' x y -> x <> cur /\ waits m x y) as Hw.
  { intros x y [(d & Hd & Hds) [k Hk]]. cbn in Hd. destruct (decide (x = h)) as [->|Nx]; [by rewrite lookup_delete_eq in Hd|].
    rewrite lookup_delete_ne in Hd by done. destruct (decide (x = cur)) as [->|Nc].
    - unfold context_of in Hk. cbn in Hk. rewrite decide_True in Hk by done. done.
    - split; [done|]. split; [by exists d|]. exists k. by rewrite <- Hctx. }
  split; subst m'; cbn [coros chain currently_running code main_ trace]; try done.
  - by apply ring_delete.
  - intros x. rewrite Hsome, H2. rewrite !elem_of_cons, !elem_of_app, elem_of_cons. split; [tauto|].
    intros Hx. split; [|tauto]. intros ->. apply Hout. rewrite elem_of_cons, elem_of_app. tauto.
  - intros x Hx. rewrite Hsome. destruct (decide (x = h)) as [->|Nx]; [rewrite lookup_delete_eq in Hx; by destruct Hx|]. split; [done|].
    rewrite lookup_delete_ne in Hx by done. destruct (decide (x ∈ cur :: l1 ++ l2)) as [Hin|Hout'].
    + apply H2. rewrite elem_of_cons, elem_of_app, elem_of_cons in *. tauto.
    + rewrite Hframe in Hx by done. by apply H3.
  - destruct H4 as (d & Hd & Hds). exists d. cbn. by rewrite lookup_delete_ne.
  - intros x d Hd Hds. destruct (decide (x = h)) as [->|Nx]; [by rewrite lookup_delete_eq in Hd|]. rewrite lookup_delete_ne in Hd by done.
    destruct (H6 x d Hd Hds) as [Ha Hb]. split; [done|]. destruct (decide (x = cur)) as [->|Nc]; [|by rewrite Hctx].
    unfold context_of. cbn. by rewrite decide_True.
  - intros x y [Nx Hx]%Hw. rewrite Hsome. split; [|by eapply H7]. intros ->. by apply (Hno x Nx).
  - intros x y z [_ Hx]%Hw [_ Hy]%Hw. by eapply H8.
  - split; [|done]. cbn. rewrite (H10 h c Hc Nm). unfold life. by rewrite Hst.
  - intros x d Hd Hx. destruct (decide (x = h)) as [->|Nx]; [by rewrite lookup_delete_eq in Hd|].
    rewrite lookup_delete_ne in Hd by done. rewrite last_event_other by (cbn; congruence). by apply H10.
  - intros x Hx. destruct (decide (x = h)) as [->|Nx]; [right; exists (ret c); by apply last_event_this|].
    rewrite lookup_delete_ne in Hx by done. rewrite last_event_other by (cbn; congruence). by apply H11.
Qed.

(** ** Executions *)

Definition step (m m' : machine) : Prop := exists mem, proper m mem /\ exec m mem = Ok (Some m').

Definition good (m : machine) : Prop := (exists xs, inv m xs) /\ active m (currently_running m).

Lemma yield_good m xs : inv m xs -> exists m', mycoro_yield m = Ok m' /\ good m'.
Proof. intros Hi. destruct (yield_spec m xs Hi) as (m' & xs' & l1 & l2 & E & _ & Hi' & Ha & _). exists m'. split; [done|]. split; [by exists xs'|done]. Qed.

Lemma join_good m xs h k : inv m xs -> active m (currently_running m) -> is_Some (coros m !! h) -> (forall a, a <> currently_running m -> ~ waits m a h) ->
  exists m', mycoro_join m h k = Ok m' /\ good m'.
Proof.
  intros Hi Ha [c Hc] Hno. unfold mycoro_join. rewrite (find_ok _ _ _ Hc). destruct (state c) eqn:Es.
  - apply (yield_good _ xs). apply inv_set_code; try done. intros h' k' [= <- <-]. split; [by exists c|done].
  - destruct (join_inv m xs h c (k (ret c)) Hi Ha Hc Es Hno) as (l & xs' & -> & Nh & Hi').
    destruct (Nat.eqb_spec h (currently_running m)); [done|]. rewrite andb_false_r. eexists. split; [done|]. split; [by exists xs'|].
    destruct Ha as (d & Hd & Hds). exists d. cbn. by rewrite lookup_delete_ne.
Qed.

Lemma exec_good m mem : good m -> proper m mem -> exists r, exec m mem = Ok r /\ forall m', r = Some m' -> good m'.
Proof.
  intros [[xs Hi] Ha] [Hj Hm]. unfold exec. destruct (code m) as [|[v|n k|k|f k|h k]|h k|] eqn:Ec.
  - by apply (i_code _ _ Hi) in Ec.
  - destruct (Nat.eqb_spec (currently_running m) (main_ m)) as [|Nm]; [by exists None|]. pose proof Ha as (c & Hc & Hst).
    unfold coroutine_start. rewrite (find_ok _ _ _ Hc). destruct (yield_good _ xs (return_inv m xs c v Hi Hc Hst Nm)) as (m' & -> & Hg).
    exists (Some m'). split; [done|]. by intros ? [= <-].
  - eexists. split; [done|]. intros ? [= <-]. split; [|done]. exists xs. apply inv_printed. by apply inv_set_code.
  - destruct (yield_good (set_code m (CRun k)) xs) as (m' & -> & Hg); [by apply inv_set_code|]. exists (Some m'). split; [done|]. by intros ? [= <-].
  - unfold mycoro_create. destruct mem as [[a|] [|]].
    + destruct (create_inv m xs f a Hi (Hm a eq_refl)) as (h & -> & Hi'). eexists. split; [done|]. intros ? [= <-].
      split; [exists (xs ++ [a]); by apply inv_set_code|]. destruct Ha as (d & Hd & Hds). exists d. cbn. rewrite lookup_insert_ne; [done|].
      intros ->. specialize (Hm _ eq_refl). congruence.
    + eexists. split; [done|]. intros ? [= <-]. split; [|done]. exists xs. by apply inv_set_code.
    + eexists. split; [done|]. intros ? [= <-]. split; [|done]. exists xs. by apply inv_set_code.
    + eexists. split; [done|]. intros ? [= <-]. split; [|done]. exists xs. by apply inv_set_code.
  - destruct (Hj h k eq_refl) as [Hh Hno]. destruct (join_good m xs h k Hi Ha Hh) as (m' & -> & Hg); [auto|].
    exists (Some m'). split; [done|]. by intros ? [= <-].
  - assert (waits m (currently_running m) h) as Hw by (split; [done|]; exists k; unfold context_of; rewrite decide_True by done; by rewrite Ec).
    destruct (join_good m xs h k Hi Ha) as (m' & -> & Hg).
    + by eapply (i_wait _ _ Hi).
    + intros a Na Hwa. by apply Na, (i_once _ _ Hi a _ h).
    + exists (Some m'). split; [done|]. by intros ? [= <-].
  - destruct Ha as (c & Hc & Hst). destruct (i_active _ _ Hi _ c Hc Hst) as [_ H]. unfold context_of in H. rewrite decide_True in H by done. congruence.
Qed.

Lemma init_good mem program m : mycoro_init mem program = Some m -> good m.
Proof.
  destruct mem as [a|]; [|done]. intros [= <-]. split.
  - exists []. split; cbn; try done.
    + apply list_init_spec.
    + intros x. rewrite list_elem_of_singleton, lookup_singleton_is_Some. naive_solver.
    + intros x. unfold list_init. rewrite lookup_insert_is_Some, lookup_singleton_is_Some, lookup_empty. intros [->|[_ []]]; done.
    + eexists. cbn. by rewrite lookup_singleton_eq.
    + intros x c [-> <-]%lookup_singleton_Some _. split; [by right|]. unfold context_of. cbn. by rewrite decide_True.
    + intros x h [(c & Hc & _) [k Hk]]. cbn in Hc. apply lookup_singleton_Some in Hc as [-> <-]. unfold context_of in Hk. cbn in Hk. by rewrite decide_True in Hk.
    + intros x y h [(c & Hc & _) [k Hk]]. cbn in Hc. apply lookup_singleton_Some in Hc as [-> <-]. unfold context_of in Hk. cbn in Hk. by rewrite decide_True in Hk.
    + intros x c [-> _]%lookup_singleton_Some. done.
    + intros x _. by left.
  - eexists. cbn. by rewrite lookup_singleton_eq.
Qed.

Lemma steps_good m m' : good m -> rtc step m m' -> good m'.
Proof.
  intros Hg Hr. induction Hr as [|m1 m2 m3 (mem & Hp & E) _ IH]; [done|]. apply IH.
  destruct (exec_good m1 mem Hg Hp) as (r & E' & Hr). apply Hr. congruence.
Qed.

(** C17.  Whatever the coroutines of a program do, as long as each handle is joined while it
    is valid and by one of them: no step goes wrong.  No freed descriptor or stack is
    used, no stack is freed that is in use, a finished coroutine is never resumed, and
    the search for the next one ends.  Every coroutine is created, returns, and is joined
    with the value that it returned, in this order.  Yielding goes round: the next one to
    run is the first behind the current one in the ring that is not finished. *)
Theorem coroutines_safe mem program m0 m :
  mycoro_init mem program = Some m0 -> rtc step m0 m ->
  (forall mem, proper m mem -> exists r, exec m mem = Ok r) /\ follows (trace m) /\
  (forall k, code m = CRun (Yield k) -> forall mem m', exec m mem = Ok (Some m') -> exists xs l1 l2, ring (chain m) (currently_running m) xs /\
    xs ++ [currently_running m] = l1 ++ currently_running m' :: l2 /\ active m (currently_running m') /\ forall x, x ∈ l1 -> ~ active m x).
Proof.
  intros Hini Hr. pose proof (steps_good _ _ (init_good _ _ _ Hini) Hr) as Hg. split; [|split].
  - intros mem' Hp. destruct (exec_good m mem' Hg Hp) as (r & E & _). by exists r.
  - destruct Hg as [[xs Hi] _]. apply (i_trace _ _ Hi).
  - intros k Ec mem' m' E. destruct Hg as [[xs Hi] Ha]. unfold exec in E. rewrite Ec in E.
    assert (inv (set_code m (CRun k)) xs) as Hi' by (by apply inv_set_code).
    destruct (yield_spec _ xs Hi') as (m1 & xs' & l1 & l2 & E1 & Hs & _ & Ha' & Esp & Hfin). rewrite E1 in E. injection E as <-.
    exists xs, l1, l2. split; [apply (i_ring _ _ Hi)|]. split; [exact Esp|]. split.
    + destruct Ha' as (c' & Hc' & Hst'). destruct (s_some _ _ Hs _ c' Hc') as (c & Hc & Es & _). exists c. split; [exact Hc|congruence].
    + intros x Hx (c & Hc & Hst). destruct (Hfin x Hx) as (c' & Hc' & Hst'). cbn in Hc'. congruence.
Qed.

(** The program of [tst-normal.c] with three coroutines prints the letters in turns. *)
Definition mems_demo : list (option loc * bool) := (fun i => (Some (2 + i)%nat, true)) <$> seq 0 40.

Example tst_normal_prints :
  match mycoro_init (Some 1%nat) (create_all 3 0 []) with
  | Some m => (exists m', run (take 34 mems_demo) m = Ok (Some m') /\ printed (trace m') = [1; 11; 21; 2; 12; 22; 3; 13; 23; 4; 14; 24]) /\
      run mems_demo m = Ok None
  | None => False
  end.
Proof. split; [|vm_compute; reflexivity]. eexists. split; vm_compute; reflexivity. Qed.

(** Joining a handle again uses a freed descriptor. *)
Definition joins_twice : routine :=
  Create (Return 7) (fun h => match h with Some h => Join h (fun _ => Join h (fun v => Return v)) | None => Return 0 end).

Example joins_twice_undefined :
  match mycoro_init (Some 1%nat) joins_twice with Some m => run (take 5 mems_demo) m = Err Undefined | None => False end.
Proof. vm_compute. reflexivity. Qed.

Definition demo_program : routine := Create (Return 7) (fun h => match h with Some h => Join h (fun v => Return v) | None => Return 0 end).

Lemma coroutines_safe_witness :
  exists m0 m, mycoro_init (Some 1%nat) demo_program = Some m0 /\ rtc step m0 m /\ follows (trace m) /\ exists r, exec m (None, false) = Ok r.
Proof.
  destruct (mycoro_init (Some 1%nat) demo_program) as [m0|] eqn:E0; [|discriminate E0].
  assert (exists m, exec m0 (Some 2%nat, true) = Ok (Some m) /\ code m = CRun (Join 2%nat (fun v => Return v)) /\
    coros m = {[2%nat := mkCoro true CStart ACTIVE (Return 7) 0; 1%nat := mkCoro false CDead ACTIVE (Return 0) 0]} /\ currently_running m = 1%nat)
    as (m & E & Ec & Ecs & Ecur).
  { injection E0 as <-. eexists. split; [vm_compute; reflexivity|]. split_and!; vm_compute; reflexivity. }
  assert (rtc step m0 m) as Hr.
  { apply rtc_once. exists (Some 2%nat, true). split; [|exact E]. injection E0 as <-. split; [intros h k H; discriminate H|].
    intros a [= <-]. vm_compute. reflexivity. }
  exists m0, m. split; [reflexivity|]. split; [exact Hr|]. destruct (coroutines_safe (Some 1%nat) demo_program m0 m E0 Hr) as (Hsafe & Htr & _).
  split; [exact Htr|]. apply Hsafe. split; [|intros a H; discriminate H]. intros h k H. rewrite Ec in H. injection H as <- _.
  split; [rewrite Ecs; vm_compute; by eexists|]. intros a [(c & Hc & _) [k' Hk]]. unfold context_of in Hk. rewrite Ecur in Hk.
  destruct (decide (a = 1%nat)) as [->|Na]; [rewrite Ec in Hk; discriminate Hk|]. rewrite Ecs in Hk.
  destruct (decide (a = 2%nat)) as [->|Na']; [rewrite lookup_insert_eq in Hk; discriminate Hk|].
  rewrite lookup_insert_ne, lookup_singleton_ne in Hk by done. discriminate Hk.
Defined.
