(* ===== verification/MyThread.v ===== *)
(** * OS-Labs/9.1-libmythread: libmythread.c

    Threads made with [clone]: a mapping holds the stack and above it the descriptor,
    which is also the thread pointer.  The life of a thread is modelled with the one that
    joins it and the ones that cancel it, interleaved at every access to the descriptor.
    The kernel's part: a new mapping is zero; [FUTEX_WAIT] puts the caller to sleep while
    the word has the given value, and may end for no reason; when the thread exits,
    [child_tid] is set to 0 and a sleeper on it is woken.  An access to the mapping after
    it was removed, and running on its stack, is a crash. *)
From S2P Require Import Prelude Threads.
#[local] Open Scope Z_scope.

(** ** Addresses *)

Definition STACK_SIZE : Z := 8 * 1024 * 1024.

Section Addresses.
(** The size of a descriptor. *)
Context (sizeof_descriptor : Z).

(** The address of the stack and of the descriptor, in a mapping at [mapped]. *)
Definition allocate_stack (mapped : Z) : Z * Z := (mapped + STACK_SIZE - 1, mapped + STACK_SIZE).

(** What is mapped, and what is unmapped. *)
Definition mapping (mapped : Z) : Z * Z := (mapped, STACK_SIZE + sizeof_descriptor).
Definition destroy_stack (stackaddr : Z) : Z * Z := (stackaddr - STACK_SIZE + 1, STACK_SIZE + sizeof_descriptor).
End Addresses.

(** On x86-64 the thread pointer is the word that the base of the thread's segment points
    to: here the first one of the descriptor, [stackaddr]. *)
Definition mythread_self (stackaddr : Z) : Z := stackaddr + 1.

(** ** A thread and its joiner *)

(** [thread_start], at its accesses to the descriptor. *)
Inductive child :=
  | TStart                 (* is_running = true *)
  | TUncancel              (* is_cancelled = false *)
  | TClearRet              (* ret = NULL *)
  | TContext               (* getcontext *)
  | TTest                  (* if (!is_cancelled) *)
  | TWork                  (* start_routine *)
  | TStore                 (* ret = *)
  | TStop                  (* is_running = false *)
  | TReturn                (* return to the end of the thread *)
  | TExit                  (* the kernel's part of the exit *)
  | TGone.

(** [MyThreadJoin] *)
Inductive joiner :=
  | JIdle                  (* not called yet *)
  | JTest                  (* if (is_running) *)
  | JWait                  (* FUTEX_WAIT *)
  | JAsleep
  | JWord                  (* if ( *futex_addr == val) *)
  | JRead                  (* *ret = mtd->ret *)
  | JUnmap (v : Z)
  | JDone (v : Z).

Record thread := mkThread {
  is_cancelled : bool;
  is_running : bool;
  child_tid : Z;
  ret : Z;
  mapped : bool;
  th : child;
  jn : joiner
}.

Inductive config := Alive (t : thread) | Crash.

Definition set_th (t : thread) (c : child) : thread := mkThread (is_cancelled t) (is_running t) (child_tid t) (ret t) (mapped t) c (jn t).
Definition set_jn (t : thread) (j : joiner) : thread := mkThread (is_cancelled t) (is_running t) (child_tid t) (ret t) (mapped t) (th t) j.
Definition set_running (t : thread) (b : bool) : thread := mkThread (is_cancelled t) b (child_tid t) (ret t) (mapped t) (th t) (jn t).
Definition set_cancelled (t : thread) (b : bool) : thread := mkThread b (is_running t) (child_tid t) (ret t) (mapped t) (th t) (jn t).
Definition set_ret (t : thread) (v : Z) : thread := mkThread (is_cancelled t) (is_running t) (child_tid t) v (mapped t) (th t) (jn t).
Definition set_tid (t : thread) (v : Z) : thread := mkThread (is_cancelled t) (is_running t) v (ret t) (mapped t) (th t) (jn t).
Definition unmap (t : thread) : thread := mkThread (is_cancelled t) (is_running t) (child_tid t) (ret t) false (th t) (jn t).

(** [MyThreadCreate]: whether [mmap] and [clone] succeed. *)
Definition MyThreadCreate (mmap_ok clone_ok : bool) : option thread :=
  if negb mmap_ok then None
  else
    let t := mkThread false false 0 0 true TStart JIdle in
    if clone_ok then Some t else None.

(** What the routine does next: it tests for cancellation, or returns. *)
Inductive work := TestCancel | Finish.

Section Thread.
(** The value that the routine returns. *)
Context (result : Z).

Definition MyThreadTestCancel (t : thread) : thread := if is_cancelled t then set_th t TTest else t.

Definition thread_start (t : thread) (w : work) : option config :=
  match th t with
  | TGone => None
  | TExit => Some (Alive (let t := if mapped t then set_tid t 0 else t in
                          set_th (match jn t with JAsleep => set_jn t JWord | _ => t end) TGone))
  | _ =>
      if negb (mapped t) then Some Crash
      else
        Some (Alive
          match th t with
          | TStart => set_th (set_running t true) TUncancel
          | TUncancel => set_th (set_cancelled t false) TClearRet
          | TClearRet => set_th (set_ret t 0) TContext
          | TContext => set_th t TTest
          | TTest => set_th t (if negb (is_cancelled t) then TWork else TStop)
          | TWork => match w with TestCancel => MyThreadTestCancel t | Finish => set_th t TStore end
          | TStore => set_th (set_ret t result) TStop
          | TStop => set_th (set_running t false) TReturn
          | _ => set_th t TExit
          end)
  end.

Definition MyThreadJoin (t : thread) : option config :=
  match jn t with
  | JIdle => Some (Alive (set_jn t JTest))
  | JTest => Some (Alive (set_jn t (if is_running t then JWait else JRead)))
  | JWait => Some (Alive (if child_tid t =? 0 then set_jn t JAsleep else t))
  | JAsleep => None
  | JWord => Some (Alive (set_jn t (if child_tid t =? 0 then JRead else JWait)))
  | JRead => Some (Alive (set_jn t (JUnmap (ret t))))
  | JUnmap v => Some (Alive (set_jn (unmap t) (JDone v)))
  | JDone _ => None
  end.

(** Who goes on.  A thread is cancelled before it is joined. *)
Inductive action := Child (w : work) | Joins | Cancel | WakeUp.

Definition exec (c : config) (ia : nat * action) : option config :=
  match c with
  | Crash => None
  | Alive t =>
      match ia.2 with
      | Child w => thread_start t w
      | Joins => MyThreadJoin t
      | Cancel => match jn t with JIdle => Some (Alive (set_cancelled t true)) | _ => None end
      | WakeUp => match jn t with JAsleep => Some (Alive (set_jn t JWord)) | _ => None end
      end
  end.
End Thread.

(** ** What holds *)

Section Proofs.
Context (result : Z).

(** The value in the descriptor, by how far the thread has come. *)
Definition ret_ok (t : thread) : Prop :=
  match th t with
  | TStop | TReturn | TExit | TGone => ret t = result \/ ret t = 0 /\ is_cancelled t = true
  | _ => ret t = 0
  end.

Definition sound (c : config) : Prop :=
  match c with
  | Alive t => child_tid t = 0 /\ ret_ok t /\ (mapped t = false -> exists v, jn t = JDone v)
  | Crash => True
  end.

Lemma create_sound m c t : MyThreadCreate m c = Some t -> sound (Alive t).
Proof. destruct m, c; cbn; intros [= <-]. done. Qed.

Lemma exec_sound c ia c' : sound c -> exec result c ia = Some c' -> sound c'.
Proof.
  destruct c as [[ca ru ti re ma p j]|]; [|done]. intros (Ht & Hr & Hm). unfold ret_ok in Hr. cbn in Ht, Hr, Hm. destruct ia as [i [w| | |]]; cbn.
  - unfold thread_start. cbn. destruct p; try (destruct ma; cbn); try (intros [= <-]); try done; cbn.
    all: try (split_and!; cbn; auto; done).
    all: try (destruct ca; cbn; split_and!; cbn; auto; done).
    all: try (destruct w; unfold MyThreadTestCancel; cbn; try destruct ca; split_and!; cbn; auto; done).
    + destruct j; cbn; split_and!; cbn; auto; done.
    + destruct (Hm eq_refl) as [v ->]. cbn. split_and!; cbn; eauto.
  - unfold MyThreadJoin. cbn. destruct j; try (intros [= <-]); try done; cbn; rewrite ?Ht; cbn; unfold ret_ok; cbn; split_and!; auto; eauto;
      intros Hf; destruct (Hm Hf) as [v' Hv]; discriminate Hv.
  - destruct j; try done. intros [= <-]. cbn. split_and!; auto. unfold ret_ok in *. cbn. destruct p; cbn in *; tauto.
  - destruct j; try done. intros [= <-]. cbn. split_and!; auto. intros Hf. destruct (Hm Hf) as [v' Hv]. discriminate Hv.
Qed.

Lemma steps_sound c c' : sound c -> rtc (step (exec result)) c c' -> sound c'.
Proof. intros Hs Hr. eapply steps_keep; [|exact Hs|exact Hr]. intros c1 c2 H [a Ha]. by eapply exec_sound. Qed.

(** Steps after which nobody was woken for no reason. *)
Definition quiet (c c' : config) : Prop := exists ia, ia.2 <> WakeUp /\ exec result c ia = Some c'.

(** A joiner that sleeps is woken when the thread is gone. *)
Definition waited (c : config) : Prop :=
  match c with
  | Alive t =>
      sound c /\
      match jn t with
      | JAsleep => mapped t = true
      | JWord | JRead => th t = TGone /\ mapped t = true
      | JUnmap v => th t = TGone /\ mapped t = true /\ v = ret t
      | JDone v => th t = TGone /\ v = ret t
      | _ => False
      end
  | Crash => False
  end.

Lemma quiet_waited c c' : waited c -> quiet c c' -> waited c'.
Proof.
  intros Hw (ia & Hn & E). destruct c as [t|]; [|done]. destruct Hw as [Hs Hw]. pose proof (exec_sound _ _ _ Hs E) as Hs'.
  destruct Hs as (Ht & _ & _). destruct t as [ca ru ti re ma p j]. cbn in Ht, Hw. destruct ia as [i [w| | |]]; cbn in *.
  - unfold thread_start in E. cbn in E. destruct j; try done; [|destruct Hw as [-> Hw]; done|destruct Hw as [-> Hw]; done|destruct Hw as [-> Hw]; done|destruct Hw as [-> Hw]; done].
    subst ma. destruct p; cbn in E; try done; injection E as <-; (split; [exact Hs'|]); cbn; try done.
    destruct w; unfold MyThreadTestCancel; cbn; [|done]. by destruct ca.
  - unfold MyThreadJoin in E. cbn in E. destruct j; try done; injection E as <-; (split; [exact Hs'|]); cbn; rewrite ?Ht; cbn; intuition.
  - by destruct j.
  - done.
Qed.

Lemma quiets_waited c c' : waited c -> rtc quiet c c' -> waited c'.
Proof. intros Hw Hr. induction Hr as [|c1 c2 c3 Hq _ IH]; [done|]. by eapply IH, quiet_waited. Qed.
End Proofs.

(** C18.  A join that has gone to sleep before the thread ended: unless it is woken for no
    reason, nothing crashes, the mapping is removed only when the thread is gone, and
    what the join returns is the result of the routine, or [NULL] when the thread was
    cancelled.  What is unmapped is what was mapped, and a thread finds its own
    descriptor from its thread pointer. *)
Theorem join_correct (result : Z) m c t0 t c' :
  MyThreadCreate m c = Some t0 -> rtc (step (exec result)) (Alive t0) (Alive t) -> jn t = JAsleep -> rtc (quiet result) (Alive t) c' ->
  (exists t', c' = Alive t' /\ (mapped t' = false -> th t' = TGone) /\
    forall v, jn t' = JDone v -> v = result \/ v = 0 /\ is_cancelled t' = true) /\
  forall size base, let '(stackaddr, mtd) := allocate_stack base in destroy_stack size stackaddr = mapping size base /\ mythread_self stackaddr = mtd.
Proof.
  intros Hc Hr Hj Hq. pose proof (steps_sound result _ _ (create_sound result _ _ _ Hc) Hr) as Hs. split.
  - assert (waited result (Alive t)) as Hw.
    { split; [exact Hs|]. rewrite Hj. destruct Hs as (_ & _ & Hm). destruct (mapped t); [done|]. destruct (Hm eq_refl) as [v Hv]. congruence. }
    pose proof (quiets_waited result _ _ Hw Hq) as Hw'. destruct c' as [t'|]; [|done]. exists t'. destruct Hw' as ((_ & Hret & Hm) & Hw').
    split; [done|]. split.
    + intros Hf. destruct (Hm Hf) as [v Hv]. rewrite Hv in Hw'. apply Hw'.
    + intros v Hv. rewrite Hv in Hw'. destruct Hw' as [Hg ->]. unfold ret_ok in Hret. by rewrite Hg in Hret.
  - intros size base. cbn [allocate_stack]. unfold destroy_stack, mapping, mythread_self. split; [apply (f_equal2 pair)|]; lia.
Qed.

(** ** What goes wrong *)

Definition child_steps (n : nat) : list (nat * action) := replicate n (0%nat, Child Finish).
Definition join_steps (n : nat) : list (nat * action) := replicate n (1%nat, Joins).

(** (1) A join before the thread has set its flag returns at once, without the result,
    and removes the stack on which the thread starts to run.  (2) So does a join after
    the flag was cleared, while the thread still returns.  (3) A join that finds the
    thread running, and sleeps after it has ended, is never woken.  (4) A cancellation
    before the thread has started is lost. *)
Theorem join_faults :
  let t0 := mkThread false false 0 0 true TStart JIdle in
  MyThreadCreate true true = Some t0 /\
  (exists t, rtc (step (exec 42)) (Alive t0) (Alive t) /\ jn t = JDone 0 /\ exec 42 (Alive t) (0%nat, Child Finish) = Some Crash) /\
  (exists t, rtc (step (exec 42)) (Alive t0) (Alive t) /\ jn t = JDone 42 /\ exec 42 (Alive t) (0%nat, Child Finish) = Some Crash) /\
  (exists t, rtc (step (exec 42)) (Alive t0) (Alive t) /\ th t = TGone /\ jn t = JAsleep /\ forall ia, ia.2 <> WakeUp -> exec 42 (Alive t) ia = None) /\
  (exists t t1, exec 42 (Alive t0) (2%nat, Cancel) = Some (Alive t) /\ rtc (step (exec 42)) (Alive t) (Alive t1) /\ th t1 = TGone /\ ret t1 = 42).
Proof.
  intros t0. split; [done|]. split_and!.
  - assert (exists t, run (exec 42) (join_steps 4) (Alive t0) = Some (Alive t) /\ jn t = JDone 0 /\ exec 42 (Alive t) (0%nat, Child Finish) = Some Crash) as (t & H & H')
      by (eexists; split_and!; vm_compute; reflexivity).
    exists t. split; [by eapply run_steps|done].
  - assert (exists t, run (exec 42) (child_steps 8 ++ join_steps 4) (Alive t0) = Some (Alive t) /\ jn t = JDone 42 /\ exec 42 (Alive t) (0%nat, Child Finish) = Some Crash) as (t & H & H')
      by (eexists; split_and!; vm_compute; reflexivity).
    exists t. split; [by eapply run_steps|done].
  - set (t := mkThread false false 0 42 true TGone JAsleep).
    assert (run (exec 42) (child_steps 6 ++ join_steps 2 ++ child_steps 4 ++ join_steps 1) (Alive t0) = Some (Alive t)) as H by (vm_compute; reflexivity).
    exists t. split; [by eapply run_steps|]. split; [reflexivity|]. split; [reflexivity|].
    intros [i [w| | |]] Hn; [reflexivity|reflexivity|reflexivity|by destruct Hn].
  - exists (set_cancelled t0 true), (mkThread false false 0 42 true TGone JIdle). split; [done|]. split; [|done].
    apply (run_steps (exec 42) (child_steps 10)). vm_compute. reflexivity.
Qed.

Lemma join_correct_witness :
  exists t t', rtc (step (exec 42)) (Alive (mkThread false false 0 0 true TStart JIdle)) (Alive t) /\ jn t = JAsleep /\
    rtc (quiet 42) (Alive t) (Alive t') /\ jn t' = JDone 42 /\ (42 = 42 \/ 42 = 0 /\ is_cancelled t' = true).
Proof.
  set (t := mkThread false true 0 0 true TWork JAsleep). set (t' := mkThread false false 0 42 false TGone (JDone 42)).
  assert (rtc (step (exec 42)) (Alive (mkThread false false 0 0 true TStart JIdle)) (Alive t)) as Hr.
  { apply (run_steps (exec 42) (child_steps 5 ++ join_steps 3)). vm_compute. reflexivity. }
  assert (rtc (quiet 42) (Alive t) (Alive t')) as Hq.
  { do 5 (eapply rtc_l; [exists (0%nat, Child Finish); split; [discriminate|vm_compute; reflexivity]|]).
    do 3 (eapply rtc_l; [exists (1%nat, Joins); split; [discriminate|vm_compute; reflexivity]|]). apply rtc_refl. }
  exists t, t'. split; [exact Hr|]. split; [reflexivity|]. split; [exact Hq|]. split; [reflexivity|].
  destruct (join_correct 42 true true _ t (Alive t') eq_refl Hr eq_refl Hq) as [(t1 & E & _ & Hv) _]. injection E as <-. exact (Hv 42 eq_refl).
Defined.
