(* ===== verification/CopyBackwards.v ===== *)
(** * OS-Labs/3-filesystems/task_1_copy_backwards: copy_backwards.c

    The program that copies a directory tree with the names and the contents of the files
    reversed.  A directory is the list of the entries that [readdir] returns, in its
    order, with the entries [.] and [..]; names and contents are lists of bytes.  Of the
    system calls, which ones fail and how much [read] and [write] transfer is data of the
    world.  Files do not change while they are copied; reading entries does not fail, and
    printing and freeing are left out.  Using a descriptor or directory stream that was
    never set is undefined. *)
From S2P Require Import Prelude.
#[local] Open Scope Z_scope.
#[local] Set Warnings "-clear-no-such-hyp,-register-all".

Definition BUFFER_SIZE : Z := 1024.

Definition ch_slash : Z := 47.
Definition ch_dot : Z := 46.

(** Files, directories, the entries [.] and [..], and what is neither file nor directory. *)
Inductive node :=
  | Reg (mode : Z) (data : list Z)
  | Dir (mode : Z) (entries : list (list Z * node))
  | Dots
  | Other.

(** What the next calls that can fail do ([true]: the call fails; when the list is used
    up all succeed), and how many bytes [read] and [write] transfer: at least one, at most
    what is asked for and there. *)
Record world := mkWorld { fails : list bool; reads : list Z; writes : list Z }.

Definition sys (w : world) : bool * world :=
  match fails w with
  | [] => (true, w)
  | f :: fs => (negb f, mkWorld fs (reads w) (writes w))
  end.

Definition amount (answers : list Z) (most : Z) : Z * list Z :=
  match answers with
  | [] => (most, [])
  | k :: ks => (Z.max 1 (Z.min k most), ks)
  end.

(** [read] of up to [n] bytes at [pos]; nothing at the end of the file. *)
Definition sys_read (w : world) (data : list Z) (pos n : Z) : option (list Z) * world :=
  let '(ok, w) := sys w in
  if negb ok then (None, w)
  else
    let most := Z.min n (zlen data - pos) in
    if most <=? 0 then (Some [], w)
    else
      let '(k, ks) := amount (reads w) most in
      (Some (take (Z.to_nat k) (drop (Z.to_nat pos) data)), mkWorld (fails w) ks (writes w)).

(** [write] of [bytes]: how many are written. *)
Definition sys_write (w : world) (bytes : list Z) : option Z * world :=
  let '(ok, w) := sys w in
  if negb ok then (None, w)
  else if zlen bytes =? 0 then (Some 0, w)
  else
    let '(k, ks) := amount (writes w) (zlen bytes) in
    (Some k, mkWorld (fails w) (reads w) ks).

(** ** Names *)

Fixpoint reverse_buffer (fuel : nat) (a : list Z) (b e : Z) : res (list Z) :=
  if b <? e then
    match fuel with
    | O => Err OutOfFuel
    | S fuel =>
        let* tmp := arr_get a b in
        let* x := arr_get a e in
        let* a := arr_set a b x in
        let* a := arr_set a e tmp in
        reverse_buffer fuel a (b + 1) (e - 1)
    end
  else Ok a.

(** What is behind the last slash. *)
Fixpoint after_slash (path acc : list Z) : list Z :=
  match path with
  | [] => acc
  | c :: path => after_slash path (if c =? ch_slash then [] else acc ++ [c])
  end.

Definition get_path_basename (path : list Z) : list Z := after_slash path [].

Definition get_reversed_path_basename (path : list Z) : res (list Z) :=
  let bname := get_path_basename path in
  reverse_buffer (length bname) bname 0 (zlen bname - 1).

(** ** Files *)

(** Fill the buffer from [bytes_read] on; [None] when a call failed. *)
Fixpoint read_chunk (fuel : nat) (w : world) (data buffer : list Z) (offset chunk_size bytes_read : Z) : res (option (list Z) * world) :=
  if bytes_read <? chunk_size then
    match fuel with
    | O => Err OutOfFuel
    | S fuel =>
        match sys_read w data (offset + bytes_read) (chunk_size - bytes_read) with
        | (None, w) => Ok (None, w)
        | (Some bytes, w) =>
            let* buffer := memmove buffer bytes_read bytes 0 (zlen bytes) in
            read_chunk fuel w data buffer offset chunk_size (bytes_read + zlen bytes)
        end
    end
  else Ok (Some buffer, w).

(** The data written so far, and whether no call failed. *)
Fixpoint write_chunk (fuel : nat) (w : world) (buffer out : list Z) (chunk_size bytes_written : Z) : res (list Z * bool * world) :=
  if bytes_written <? chunk_size then
    match fuel with
    | O => Err OutOfFuel
    | S fuel =>
        let bytes := take (Z.to_nat (chunk_size - bytes_written)) (drop (Z.to_nat bytes_written) buffer) in
        match sys_write w bytes with
        | (None, w) => Ok (out, false, w)
        | (Some wlen, w) => write_chunk fuel w buffer (out ++ take (Z.to_nat wlen) bytes) chunk_size (bytes_written + wlen)
        end
    end
  else Ok (out, true, w).

(** The loop over the chunks; what is written, whatever happens. *)
Fixpoint copy_chunks (fuel : nat) (w : world) (garbage data out : list Z) (i : Z) : res (list Z * world) :=
  let src_size := zlen data in
  if i <? src_size then
    match fuel with
    | O => Err OutOfFuel
    | S fuel =>
        let remaining_size := src_size - i in
        let chunk_size := if remaining_size <? BUFFER_SIZE then remaining_size else BUFFER_SIZE in
        let src_offset := src_size - i - chunk_size in
        let '(ok, w) := sys w in
        if negb ok then Ok (out, w)
        else
          let* '(buffer, w) := read_chunk (Z.to_nat chunk_size) w data garbage src_offset chunk_size 0 in
          match buffer with
          | None => Ok (out, w)
          | Some buffer =>
              let* buffer := reverse_buffer (Z.to_nat chunk_size) buffer 0 (chunk_size - 1) in
              let* '(out, ok, w) := write_chunk (Z.to_nat chunk_size) w buffer out chunk_size 0 in
              if ok then copy_chunks fuel w garbage data out (i + BUFFER_SIZE) else Ok (out, w)
          end
    end
  else Ok (out, w).

Section Copy.
(** The mask of the process, and what is in the buffer on the stack. *)
Context (umask : Z) (garbage : list Z).

Definition masked (mode : Z) : Z := Z.land mode (Z.lnot umask).

Fixpoint entry (es : list (list Z * node)) (name : list Z) : option node :=
  match es with
  | [] => None
  | (n, e) :: es => if bool_decide (n = name) then Some e else entry es name
  end.

Fixpoint replace_entry (es : list (list Z * node)) (name : list Z) (x : node) : list (list Z * node) :=
  match es with
  | [] => []
  | (n, e) :: es => if bool_decide (n = name) then (n, x) :: es else (n, e) :: replace_entry es name x
  end.

(** [openat] with [O_CREAT | O_TRUNC | O_WRONLY]: the directory with the empty file, and the
    mode that the file has. *)
Definition creat (es : list (list Z * node)) (name : list Z) (mode : Z) : option (list (list Z * node) * Z) :=
  match entry es name with
  | None => Some (es ++ [(name, Reg (masked mode) [])], masked mode)
  | Some (Reg m _) => Some (replace_entry es name (Reg m []), m)
  | Some _ => None
  end.

(** The entries of the destination after the call.  The first descriptor that is not set
    when the function ends early is [dst_fd]. *)
Definition copy_file_backwards_at (w : world) (mode : Z) (data : list Z) (es : list (list Z * node)) (dst_path : list Z) :
    res (list (list Z * node) * world) :=
  let '(ok, w) := sys w in
  if negb ok then Err Undefined
  else
    let '(ok, w) := sys w in
    if negb ok then Err Undefined
    else
      let '(ok, w) := sys w in
      if negb ok then Ok (es, w)
      else
        match creat es dst_path mode with
        | None => Ok (es, w)
        | Some (es, m) =>
            let '(ok, w) := sys w in
            if negb ok then Ok (es, w)
            else
              let* '(out, w) := copy_chunks (S (length data)) w garbage data [] 0 in
              Ok (replace_entry es dst_path (Reg m out), w)
        end.

(** ** Directories *)

Definition is_dots (name : list Z) : bool := bool_decide (name = [ch_dot]) || bool_decide (name = [ch_dot; ch_dot]).

(** The loop over the entries [src], for a function that copies directories. *)
Section Entries.
Context (copy_dir : world -> node -> list (list Z * node) -> list Z -> res (list (list Z * node) * world)).

Fixpoint copy_entries (w : world) (src es : list (list Z * node)) : res (list (list Z * node) * world) :=
  match src with
  | [] => Ok (es, w)
  | (name, e) :: src =>
      match e with
      | Reg mode data =>
          let* reversed_name := get_reversed_path_basename name in
          let* '(es, w) := copy_file_backwards_at w mode data es reversed_name in
          copy_entries w src es
      | Dir _ _ | Dots =>
          if is_dots name then copy_entries w src es
          else
            let* reversed_name := get_reversed_path_basename name in
            let* '(es, w) := copy_dir w e es reversed_name in
            copy_entries w src es
      | Other => copy_entries w src es
      end
  end.
End Entries.

(** [es] are the entries of the destination, [None] when it could not be opened.  [fuel]
    bounds the depth of the tree. *)
Fixpoint copy_dir_backwards_at (fuel : nat) (w : world) (src : node) (es : list (list Z * node)) (dst_path : list Z) :
    res (list (list Z * node) * world) :=
  match fuel with
  | O => Err OutOfFuel
  | S fuel =>
      let '(ok, w) := sys w in
      match src with
      | Dir mode entries =>
          if negb ok then Err Undefined
          else
            let '(ok, w) := sys w in
            if negb ok then Ok (es, w)
            else
              let '(ok, w) := sys w in
              if negb ok then Ok (es, w)
              else
                let '(ok, w) := sys w in
                if negb ok || negb (bool_decide (entry es dst_path = None)) || bool_decide (dst_path = []) then Ok (es, w)
                else
                  let '(ok, w) := sys w in
                  if negb ok then Ok (es ++ [(dst_path, Dir (masked mode) [])], w)
                  else
                    let* '(new, w) := copy_entries (copy_dir_backwards_at fuel) w entries [] in
                    Ok (es ++ [(dst_path, Dir (masked mode) new)], w)
      | _ => Err Undefined
      end
  end.

Fixpoint depth (n : node) : nat :=
  match n with
  | Dir _ es => S (foldr Nat.max 0%nat (map (fun e => depth e.2) es))
  | _ => 1
  end.

(** [main]: the tree at the path [argv[1]], the entries of the directory [argv[2]]. *)
Definition main (w : world) (path : list Z) (src : node) (dst : option (list (list Z * node))) : res (option (list (list Z * node)) * world) :=
  let* reversed_basename := get_reversed_path_basename path in
  match dst with
  | Some es =>
      let* '(es, w) := copy_dir_backwards_at (depth src) w src es reversed_basename in
      Ok (Some es, w)
  | None =>
      (* mkdirat fails *)
      let '(ok, w) := sys w in
      match src with
      | Dir _ _ => if ok then Ok (None, w) else Err Undefined
      | _ => Err Undefined
      end
  end.
End Copy.

(** ** What is copied *)

(** The tree with everything reversed. *)
Fixpoint mirror (umask : Z) (n : node) : node :=
  match n with
  | Reg mode data => Reg (masked umask mode) (rev data)
  | Dir mode es =>
      Dir (masked umask mode)
        (flat_map (fun e => match e.2 with Reg _ _ | Dir _ _ => [(rev e.1, mirror umask e.2)] | Dots | Other => [] end) es)
  | n => n
  end.

(** A name is not empty, has no slash, and is that of the entries [.] and [..] exactly when
    it is one of them; the names in a directory differ. *)
Fixpoint tree_ok (n : node) : Prop :=
  match n with
  | Dir _ es => NoDup es.*1 /\ foldr (fun e P => (e.1 <> [] /\ (ch_slash ∉ e.1) /\ (is_dots e.1 = true <-> e.2 = Dots) /\ tree_ok e.2) /\ P) True es
  | _ => True
  end.

(** ** Reversing *)

Lemma reverse_buffer_nth fuel : forall a b e, 0 <= b -> e < zlen a -> e - b <= 2 * Z.of_nat fuel ->
  exists a', reverse_buffer fuel a b e = Ok a' /\ zlen a' = zlen a /\
    forall k, 0 <= k -> znth a' k = if (b <=? k) && (k <=? e) then znth a (b + e - k) else znth a k.
Proof.
  induction fuel as [|fuel IH]; intros a b e Hb He Hf; cbn [reverse_buffer]; destruct (Z.ltb_spec b e) as [Hlt|Hge]; try lia.
  - exists a. split; [done|]. split; [done|]. intros k Hk. destruct (Z.leb_spec b k), (Z.leb_spec k e); cbn; try done. f_equal. lia.
  - rewrite !arr_get_ok by lia. rewrite arr_set_ok by lia. rewrite arr_set_ok by (rewrite zlen_zset; lia).
    destruct (IH (zset (zset a b (znth a e)) e (znth a b)) (b + 1) (e - 1)) as (a' & E & Hl & Hn); [lia|rewrite !zlen_zset; lia|lia|].
    exists a'. split; [done|]. rewrite !zlen_zset in Hl. split; [done|]. intros k Hk. rewrite Hn by done.
    assert (forall j, 0 <= j -> znth (zset (zset a b (znth a e)) e (znth a b)) j = if e =? j then znth a b else if b =? j then znth a e else znth a j) as Hz.
    { intros j Hj. rewrite znth_zset by (rewrite ?zlen_zset; lia). destruct (e =? j); [done|]. by rewrite znth_zset by lia. }
    zcase; try lia; rewrite Hz by lia; zcase; try lia; f_equal; lia.
  - exists a. split; [done|]. split; [done|]. intros k Hk. destruct (Z.leb_spec b k), (Z.leb_spec k e); cbn; try done. f_equal. lia.
Qed.

Lemma reverse_buffer_rev fuel a n : 0 <= n <= zlen a -> n <= Z.of_nat fuel ->
  reverse_buffer fuel a 0 (n - 1) = Ok (rev (take (Z.to_nat n) a) ++ drop (Z.to_nat n) a).
Proof.
  intros Hn Hf. destruct (reverse_buffer_nth fuel a 0 (n - 1)) as (a' & -> & Hl & Hk); [lia|lia|lia|]. f_equal.
  assert (zlen (take (Z.to_nat n) a) = n) as Ht by (rewrite zlen_take; lia).
  apply zlist_eq.
  - rewrite zlen_app, zlen_rev, Ht, zlen_drop; lia.
  - intros i Hi. rewrite Hk by lia. zcase; try lia.
    + rewrite znth_app_l by (rewrite zlen_rev; lia). rewrite znth_rev by lia. rewrite znth_take by lia. f_equal. lia.
    + rewrite znth_app_r by (rewrite zlen_rev; lia). rewrite zlen_rev, znth_drop by lia. f_equal. lia.
Qed.

Lemma reversed_name path : get_reversed_path_basename path = Ok (rev (get_path_basename path)).
Proof.
  unfold get_reversed_path_basename. rewrite reverse_buffer_rev by (unfold zlen; lia). unfold zlen. rewrite Nat2Z.id, firstn_all, drop_all, app_nil_r. done.
Qed.

Lemma after_slash_none path acc : ch_slash ∉ path -> after_slash path acc = acc ++ path.
Proof.
  revert acc. induction path as [|c path IH]; intros acc H; cbn [after_slash]; [by rewrite app_nil_r|].
  destruct (Z.eqb_spec c ch_slash) as [->|]; [set_solver|]. rewrite IH by set_solver. by rewrite <- app_assoc.
Qed.

Lemma after_slash_last path acc : after_slash (path ++ [ch_slash]) acc = [].
Proof. revert acc. induction path as [|c path IH]; intros acc; [done|]. cbn [app after_slash]. apply IH. Qed.

Lemma basename_name name : ch_slash ∉ name -> get_path_basename name = name.
Proof. intros H. unfold get_path_basename. by rewrite after_slash_none. Qed.

(** ** Chunks *)

Definition calm (w : world) : Prop := fails w = [].

Lemma sys_calm w : calm w -> sys w = (true, w).
Proof. unfold calm, sys. by intros ->. Qed.

Lemma amount_spec ks most : 0 < most -> let '(k, ks') := amount ks most in 1 <= k <= most.
Proof. intros H. destruct ks; cbn; lia. Qed.

Lemma sys_read_spec w data pos n : calm w -> 0 <= pos -> pos < zlen data -> 0 < n ->
  exists k w', sys_read w data pos n = (Some (take (Z.to_nat k) (drop (Z.to_nat pos) data)), w') /\ calm w' /\ 1 <= k <= n /\ pos + k <= zlen data.
Proof.
  intros Hw Hp Hl Hn. unfold sys_read. rewrite sys_calm by done. cbn [negb]. destruct (Z.leb_spec (Z.min n (zlen data - pos)) 0); [lia|].
  pose proof (amount_spec (reads w) (Z.min n (zlen data - pos)) ltac:(lia)) as Ha.
  destruct (amount _ _) as [k ks]. exists k. eexists. split; [done|]. split; [exact Hw|]. lia.
Qed.

Lemma sys_write_spec w bytes : calm w -> 0 < zlen bytes -> exists k w', sys_write w bytes = (Some k, w') /\ calm w' /\ 1 <= k <= zlen bytes.
Proof.
  intros Hw Hl. unfold sys_write. rewrite sys_calm by done. cbn [negb]. destruct (Z.eqb_spec (zlen bytes) 0); [lia|].
  pose proof (amount_spec (writes w) (zlen bytes) Hl) as Ha. destruct (amount _ _) as [k ks]. exists k. eexists. split; [done|]. by split.
Qed.

Lemma read_chunk_spec data offset chunk fuel : forall w buffer got, calm w -> 0 <= got <= chunk -> 0 <= offset -> offset + chunk <= zlen data ->
  chunk <= zlen buffer -> chunk - got <= Z.of_nat fuel -> take (Z.to_nat got) buffer = take (Z.to_nat got) (drop (Z.to_nat offset) data) ->
  exists buffer' w', read_chunk fuel w data buffer offset chunk got = Ok (Some buffer', w') /\ calm w' /\ zlen buffer' = zlen buffer /\
    take (Z.to_nat chunk) buffer' = take (Z.to_nat chunk) (drop (Z.to_nat offset) data).
Proof.
  induction fuel as [|fuel IH]; intros w buffer got Hw Hg Ho Hd Hb Hf Ht; cbn [read_chunk]; destruct (Z.ltb_spec got chunk) as [Hlt|Hge]; try lia.
  1, 3: (replace chunk with got in * by lia; by exists buffer, w).
  destruct (sys_read_spec w data (offset + got) (chunk - got)) as (k & w' & -> & Hw' & Hk & Hkd); [done|lia|lia|lia|].
  set (bytes := take _ _). assert (zlen bytes = k) as Hbl by (unfold bytes, zlen in *; rewrite length_take, length_drop; lia).
  rewrite memmove_ok by lia. rewrite Hbl. cbn [Z.to_nat]. rewrite drop_0.
  pose proof (memmove_length buffer got bytes 0 k) as Hml. rewrite drop_0 in Hml. specialize (Hml ltac:(lia) ltac:(lia) ltac:(lia) ltac:(lia) ltac:(lia)).
  destruct (IH w' (take (Z.to_nat got) buffer ++ take (Z.to_nat k) bytes ++ drop (Z.to_nat (got + k)) buffer) (got + k)) as (b' & w'' & E & Hw'' & Hl & Hr); try done; try lia.
  { unfold zlen. rewrite Hml. unfold zlen in *. lia. }
  { assert (length (take (Z.to_nat got) buffer) = Z.to_nat got) as Hl1 by (rewrite length_take; unfold zlen in *; lia).
    assert (length (take (Z.to_nat k) bytes) = Z.to_nat k) as Hl2 by (rewrite length_take; unfold zlen in *; lia).
    rewrite app_assoc, take_app_le by (rewrite length_app; lia). rewrite take_ge by (rewrite length_app; lia).
    rewrite Ht. unfold bytes. rewrite take_take, Nat.min_id. replace (Z.to_nat (offset + got)) with (Z.to_nat offset + Z.to_nat got)%nat by lia.
    rewrite <- drop_drop. replace (Z.to_nat (got + k)) with (Z.to_nat got + Z.to_nat k)%nat by lia.
    by rewrite take_take_drop. }
  exists b', w''. split; [exact E|]. split; [done|]. split; [|done]. rewrite Hl. unfold zlen. by rewrite Hml.
Qed.

Lemma write_chunk_spec buffer chunk fuel : forall w out done_, calm w -> 0 <= done_ <= chunk -> chunk <= zlen buffer -> chunk - done_ <= Z.of_nat fuel ->
  exists w', write_chunk fuel w buffer out chunk done_ = Ok (out ++ take (Z.to_nat (chunk - done_)) (drop (Z.to_nat done_) buffer), true, w') /\ calm w'.
Proof.
  induction fuel as [|fuel IH]; intros w out k Hw Hk Hb Hf; cbn [write_chunk]; destruct (Z.ltb_spec k chunk) as [Hlt|Hge]; try lia.
  1, 3: (exists w; replace (chunk - k) with 0 by lia; cbn; by rewrite app_nil_r).
  set (bytes := take _ _). assert (zlen bytes = chunk - k) as Hbl by (unfold bytes, zlen in *; rewrite length_take, length_drop; lia).
  destruct (sys_write_spec w bytes Hw ltac:(lia)) as (n & w' & -> & Hw' & Hn).
  destruct (IH w' (out ++ take (Z.to_nat n) bytes) (k + n)) as (w'' & -> & Hw''); [done|lia|lia|lia|].
  exists w''. split; [|done]. do 3 f_equal. rewrite <- app_assoc. f_equal. unfold bytes.
  replace (Z.to_nat (chunk - k)) with (Z.to_nat n + Z.to_nat (chunk - (k + n)))%nat by lia. rewrite take_take.
  replace (Nat.min _ _) with (Z.to_nat n) by lia. replace (Z.to_nat (k + n)) with (Z.to_nat k + Z.to_nat n)%nat by lia.
  rewrite <- drop_drop. apply take_take_drop.
Qed.

(** The reversal of the end of a list, in front of the reversal of the rest. *)
Lemma rev_chunk (data : list Z) (i chunk : Z) : 0 <= i -> 0 <= chunk -> i + chunk <= zlen data ->
  take (Z.to_nat (i + chunk)) (rev data) =
    take (Z.to_nat i) (rev data) ++ rev (take (Z.to_nat chunk) (drop (Z.to_nat (zlen data - i - chunk)) data)).
Proof.
  intros Hi Hc Hl. assert (zlen (take (Z.to_nat chunk) (drop (Z.to_nat (zlen data - i - chunk)) data)) = chunk) as Hz.
  { unfold zlen in *. rewrite length_take, length_drop. lia. }
  assert (zlen (take (Z.to_nat i) (rev data)) = i) as Hz' by (rewrite zlen_take; rewrite ?zlen_rev; lia).
  apply zlist_eq.
  - rewrite zlen_app, zlen_rev, Hz, Hz', zlen_take; rewrite ?zlen_rev; lia.
  - rewrite zlen_take by (rewrite zlen_rev; lia). intros k Hk. rewrite znth_take by lia.
    destruct (Z.lt_ge_cases k i).
    + rewrite znth_app_l by lia. by rewrite znth_take by lia.
    + rewrite znth_app_r by lia. rewrite Hz'. rewrite !znth_rev by (rewrite ?Hz; lia). rewrite znth_take, znth_drop by lia. rewrite Hz. f_equal. lia.
Qed.

Lemma copy_chunks_spec garbage data fuel : forall w i, calm w -> zlen garbage = BUFFER_SIZE -> 0 <= i -> zlen data - i <= BUFFER_SIZE * Z.of_nat fuel ->
  exists w', copy_chunks fuel w garbage data (take (Z.to_nat i) (rev data)) i = Ok (rev data, w') /\ calm w'.
Proof.
  unfold BUFFER_SIZE. induction fuel as [|fuel IH]; intros w i Hw Hg Hi Hf; cbn [copy_chunks]; destruct (Z.ltb_spec i (zlen data)) as [Hlt|Hge]; try lia.
  1, 3: (exists w; rewrite take_ge by (rewrite length_rev; unfold zlen in *; lia); done).
  unfold BUFFER_SIZE. rewrite sys_calm by done. cbn [negb]. set (chunk := if _ <? _ then _ else _).
  assert (1 <= chunk <= 1024 /\ i + chunk <= zlen data /\ (i + chunk = zlen data \/ chunk = 1024)) as (Hc1 & Hc2 & Hc3) by (unfold chunk; zcase; lia).
  destruct (read_chunk_spec data (zlen data - i - chunk) chunk (Z.to_nat chunk) w garbage 0) as (buffer & w1 & -> & Hw1 & Hbl & Hbt); try done; try lia.
  rewrite reverse_buffer_rev by lia. rewrite Hbt.
  assert (zlen (rev (take (Z.to_nat chunk) (drop (Z.to_nat (zlen data - i - chunk)) data))) = chunk) as Hrl.
  { rewrite zlen_rev. unfold zlen in *. rewrite length_take, length_drop. lia. }
  destruct (write_chunk_spec (rev (take (Z.to_nat chunk) (drop (Z.to_nat (zlen data - i - chunk)) data)) ++ drop (Z.to_nat chunk) buffer) chunk (Z.to_nat chunk)
    w1 (take (Z.to_nat i) (rev data)) 0) as (w2 & -> & Hw2); [done|lia|rewrite zlen_app; unfold zlen in *; lia|lia|].
  rewrite Z.sub_0_r, drop_0. rewrite take_app_le by (unfold zlen in *; lia).
  rewrite (take_ge (rev (take (Z.to_nat chunk) _))) by (unfold zlen in *; lia).
  rewrite <- rev_chunk by lia. destruct Hc3 as [Hend|Hfull].
  - assert (take (Z.to_nat (i + chunk)) (rev data) = take (Z.to_nat (i + 1024)) (rev data)) as ->.
    { rewrite !take_ge; [done|..]; rewrite length_rev; unfold zlen in *; lia. }
    apply IH; try done; lia.
  - rewrite Hfull. apply IH; try done; lia.
Qed.

(** ** Trees *)

Lemma entry_app es name x n : entry (es ++ [(name, x)]) n = match entry es n with Some e => Some e | None => if bool_decide (name = n) then Some x else None end.
Proof. induction es as [|[m e] es IH]; cbn; [by destruct (bool_decide (name = n))|]. by destruct (bool_decide (m = n)). Qed.

Lemma replace_last es name x y : entry es name = None -> replace_entry (es ++ [(name, x)]) name y = es ++ [(name, y)].
Proof.
  induction es as [|[m e] es IH]; cbn; [by rewrite bool_decide_true|]. destruct (bool_decide (m = name)); [done|]. intros H. by rewrite IH.
Qed.

Section Trees.
Context (umask : Z) (garbage : list Z) (Hgarbage : zlen garbage = BUFFER_SIZE).

Lemma copy_file_spec w mode data es name : calm w -> entry es name = None ->
  exists w', copy_file_backwards_at umask garbage w mode data es name = Ok (es ++ [(name, Reg (masked umask mode) (rev data))], w') /\ calm w'.
Proof.
  intros Hw He. unfold copy_file_backwards_at. rewrite !sys_calm by done. cbn [negb]. unfold creat. rewrite He.
  destruct (copy_chunks_spec garbage data (S (length data)) w 0) as (w' & E & Hw'); [done|done|lia|unfold zlen, BUFFER_SIZE; lia|].
  change (take (Z.to_nat 0) (rev data)) with (@nil Z) in E. rewrite E. exists w'. split; [|done]. by rewrite replace_last.
Qed.

Definition entry_ok (e : list Z * node) : Prop := e.1 <> [] /\ (ch_slash ∉ e.1) /\ (is_dots e.1 = true <-> e.2 = Dots) /\ tree_ok e.2.

Definition mirror_entry (e : list Z * node) : list (list Z * node) :=
  match e.2 with Reg _ _ | Dir _ _ => [(rev e.1, mirror umask e.2)] | Dots | Other => [] end.

Lemma tree_ok_dir mode es : tree_ok (Dir mode es) -> NoDup es.*1 /\ Forall entry_ok es.
Proof. intros [Hnd H]. split; [done|]. clear Hnd. induction es as [|e es IH]; [constructor|]. destruct H as [He H]. constructor; [exact He|by apply IH]. Qed.

Lemma mirror_dir mode es : mirror umask (Dir mode es) = Dir (masked umask mode) (flat_map mirror_entry es).
Proof. done. Qed.

Section Entries.
Context (copy_dir : world -> node -> list (list Z * node) -> list Z -> res (list (list Z * node) * world)) (fuel : nat).
Hypothesis Hdir : forall w mode sub es name, calm w -> tree_ok (Dir mode sub) -> (depth (Dir mode sub) <= fuel)%nat -> entry es name = None -> name <> [] ->
  exists w', copy_dir w (Dir mode sub) es name = Ok (es ++ [(name, mirror umask (Dir mode sub))], w') /\ calm w'.

Lemma copy_entries_spec src : forall w es, calm w -> Forall entry_ok src -> NoDup src.*1 -> Forall (fun e => (depth e.2 <= fuel)%nat) src ->
  (forall n, n ∈ src.*1 -> entry es (rev n) = None) ->
  exists w', copy_entries umask garbage copy_dir w src es = Ok (es ++ flat_map mirror_entry src, w') /\ calm w'.
Proof.
  induction src as [|[name e] src IH]; intros w es Hw Hok Hnd Hde Hes; cbn [copy_entries flat_map].
  { exists w. by rewrite app_nil_r. }
  apply Forall_cons in Hok as [(Hne & Hsl & Hdots & Hok1) Hok]. apply Forall_cons in Hde as [Hd1 Hde]. cbn in Hnd, Hne, Hsl, Hdots, Hok1, Hd1.
  apply NoDup_cons in Hnd as [Hni Hnd].
  assert (forall x n, n ∈ src.*1 -> entry (es ++ [(rev name, x)]) (rev n) = None) as Hes'.
  { intros x n Hn. rewrite entry_app, Hes by (cbn; set_solver). rewrite bool_decide_false; [done|]. intros E.
    apply (f_equal (@rev Z)) in E. rewrite !rev_involutive in E. by subst n. }
  assert (entry es (rev name) = None) as He by (apply Hes; cbn; set_solver).
  assert (forall x w', calm w' -> exists w'', copy_entries umask garbage copy_dir w' src (es ++ [(rev name, x)]) = Ok (es ++ (rev name, x) :: flat_map mirror_entry src, w'') /\ calm w'') as Hnext.
  { intros x w' Hw'. destruct (IH w' (es ++ [(rev name, x)])) as (w'' & -> & Hw''); [done|done|done|done|by apply Hes'|].
    exists w''. by rewrite <- app_assoc. }
  destruct e as [mode data|mode sub| |].
  - rewrite reversed_name, basename_name by done. destruct (copy_file_spec w mode data es (rev name) Hw He) as (w' & -> & Hw'). by apply Hnext.
  - assert (is_dots name = false) as -> by (destruct (is_dots name); [|done]; by destruct Hdots as [Hx _]; specialize (Hx eq_refl)).
    rewrite reversed_name, basename_name by done. destruct (Hdir w mode sub es (rev name) Hw Hok1 Hd1 He) as (w' & -> & Hw'); [|by apply Hnext].
    intros E. apply Hne. apply (f_equal (@rev Z)) in E. by rewrite rev_involutive in E.
  - assert (is_dots name = true) as -> by (by apply Hdots). apply IH; try done. intros n Hn. apply Hes. cbn. set_solver.
  - apply IH; try done. intros n Hn. apply Hes. cbn. set_solver.
Qed.
End Entries.

Lemma depth_entries mode es fuel : (depth (Dir mode es) <= S fuel)%nat -> Forall (fun e => (depth e.2 <= fuel)%nat) es.
Proof.
  cbn [depth]. intros H%le_S_n. induction es as [|e es IH]; [constructor|]. cbn in H. constructor; [lia|]. apply IH. lia.
Qed.

Lemma copy_dir_spec fuel : forall w mode sub es name, calm w -> tree_ok (Dir mode sub) -> (depth (Dir mode sub) <= fuel)%nat -> entry es name = None -> name <> [] ->
  exists w', copy_dir_backwards_at umask garbage fuel w (Dir mode sub) es name = Ok (es ++ [(name, mirror umask (Dir mode sub))], w') /\ calm w'.
Proof.
  induction fuel as [|fuel IH]; intros w mode sub es name Hw Hok Hde He Hne; [cbn in Hde; lia|].
  cbn [copy_dir_backwards_at]. rewrite !sys_calm by done. cbn [negb orb]. rewrite bool_decide_true, bool_decide_false by done. cbn [negb orb].
  apply tree_ok_dir in Hok as [Hnd Hok]. apply depth_entries in Hde.
  destruct (copy_entries_spec (copy_dir_backwards_at umask garbage fuel) fuel IH sub w []) as (w' & -> & Hw'); try done.
  exists w'. by rewrite mirror_dir.
Qed.
End Trees.

(** ** The program *)

(** What there is to copy: files and directories. *)
Fixpoint erase (n : node) : node :=
  match n with
  | Dir mode es => Dir mode (flat_map (fun e => match e.2 with Reg _ _ | Dir _ _ => [(e.1, erase e.2)] | Dots | Other => [] end) es)
  | n => n
  end.

Lemma masked_0 mode : masked 0 mode = mode.
Proof. unfold masked. apply Z.land_m1_r. Qed.

Lemma node_nested_ind (P : node -> Prop) :
  (forall mode data, P (Reg mode data)) -> (forall mode es, Forall (fun e => P e.2) es -> P (Dir mode es)) -> P Dots -> P Other -> forall n, P n.
Proof.
  intros H1 H2 H3 H4. fix IH 1. intros [mode data|mode es| |]; [apply H1| |apply H3|apply H4]. apply H2.
  induction es as [|e es IHes]; constructor; [apply IH|apply IHes].
Qed.

(** Mirroring twice, and mirroring what is left of a tree. *)
Lemma mirror_twice n : mirror 0 (mirror 0 n) = erase n.
Proof.
  induction n as [mode data|mode es IH| |] using node_nested_ind; [cbn; by rewrite !masked_0, rev_involutive| |done|done].
  cbn. rewrite !masked_0. f_equal. induction IH as [|[name e] es He _ IHes]; [done|]. cbn. rewrite flat_map_app, IHes. f_equal. cbn in He.
  destruct e as [m d|m sub| |]; [| |done|done]; cbn in He |- *; by rewrite He, rev_involutive.
Qed.

Lemma mirror_erase umask n : mirror umask (erase n) = mirror umask n.
Proof.
  induction n as [mode data|mode es IH| |] using node_nested_ind; [done| |done|done].
  cbn. f_equal. induction IH as [|[name e] es He _ IHes]; [done|]. cbn. rewrite flat_map_app, IHes. f_equal. cbn in He.
  destruct e as [m d|m sub| |]; [done| |done|done]. cbn in He |- *. by rewrite He.
Qed.

Lemma main_spec umask garbage w path mode sub dst :
  zlen garbage = BUFFER_SIZE -> calm w -> tree_ok (Dir mode sub) -> get_path_basename path <> [] -> entry dst (rev (get_path_basename path)) = None ->
  exists w', main umask garbage w path (Dir mode sub) (Some dst) =
    Ok (Some (dst ++ [(rev (get_path_basename path), mirror umask (Dir mode sub))]), w').
Proof.
  intros Hg Hw Hok Hne He. unfold main. rewrite reversed_name.
  destruct (copy_dir_spec umask garbage Hg (depth (Dir mode sub)) w mode sub dst (rev (get_path_basename path))) as (w' & -> & _); try done.
  - intros E. apply Hne. apply (f_equal (@rev Z)) in E. by rewrite rev_involutive in E.
  - by exists w'.
Qed.

(** C29.  Copying backwards: whatever parts [read] and [write] transfer, when no call fails
    the destination gets one new entry, the tree with the bytes of all files and the names
    of all files and directories reversed, under the reversed name of the source; nothing
    but files and directories is copied.  Copying the copy gives the tree and the name
    that one started from. *)
Theorem copy_backwards_correct (umask : Z) (garbage : list Z) (w : world) (path : list Z) (mode : Z) (sub dst : list (list Z * node)) :
  zlen garbage = BUFFER_SIZE -> calm w -> tree_ok (Dir mode sub) -> get_path_basename path <> [] -> entry dst (rev (get_path_basename path)) = None ->
  (exists w', main umask garbage w path (Dir mode sub) (Some dst) =
    Ok (Some (dst ++ [(rev (get_path_basename path), mirror umask (Dir mode sub))]), w')) /\
  (forall w2 path2 mode2 sub2 dst2, calm w2 -> tree_ok (Dir mode2 sub2) -> erase (Dir mode2 sub2) = mirror 0 (Dir mode sub) ->
    get_path_basename path2 = rev (get_path_basename path) -> entry dst2 (get_path_basename path) = None ->
    exists w', main 0 garbage w2 path2 (Dir mode2 sub2) (Some dst2) = Ok (Some (dst2 ++ [(get_path_basename path, erase (Dir mode sub))]), w')).
Proof.
  intros Hg Hw Hok Hne He. split; [by apply main_spec|]. intros w2 path2 mode2 sub2 dst2 Hw2 Hok2 Her Hp He2.
  destruct (main_spec 0 garbage w2 path2 mode2 sub2 dst2) as (w' & ->); try done.
  - rewrite Hp. intros E. apply Hne. apply (f_equal (@rev Z)) in E. by rewrite rev_involutive in E.
  - by rewrite Hp, rev_involutive.
  - exists w'. by rewrite Hp, rev_involutive, <- (mirror_erase 0), Her, mirror_twice.
Qed.

(** (1) When a source cannot be opened a directory stream or descriptor that was never
    set is closed: for the tree itself, and for a file in it.  (2) A read that fails
    leaves a copy that ends early.  (3) A path that ends with a slash has an empty
    base name, and nothing is copied; (4) nothing is copied over an entry of the same
    name. *)
Theorem copy_backwards_faults (umask : Z) (garbage : list Z) :
  zlen garbage = BUFFER_SIZE ->
  (forall fs rs ws path mode sub dst, main umask garbage (mkWorld (true :: fs) rs ws) path (Dir mode sub) dst = Err Undefined) /\
  (forall fs rs ws mode data es name, copy_file_backwards_at umask garbage (mkWorld (true :: fs) rs ws) mode data es name = Err Undefined) /\
  (forall rs ws mode x data es name, entry es name = None ->
    exists w', copy_file_backwards_at umask garbage (mkWorld [false; false; false; false; false; true] rs ws) mode (x :: data) es name =
      Ok (es ++ [(name, Reg (masked umask mode) [])], w')) /\
  (forall w path mode sub dst, calm w -> exists w', main umask garbage w (path ++ [ch_slash]) (Dir mode sub) (Some dst) = Ok (Some dst, w')) /\
  (forall w path mode sub dst, calm w -> entry dst (rev (get_path_basename path)) <> None ->
    exists w', main umask garbage w path (Dir mode sub) (Some dst) = Ok (Some dst, w')).
Proof.
  intros Hg. split_and!.
  - intros fs rs ws path mode sub dst. unfold main. rewrite reversed_name. by destruct dst.
  - done.
  - intros rs ws mode x data es name He. unfold copy_file_backwards_at. cbn [sys fails negb reads writes]. unfold creat. rewrite He.
    cbn [copy_chunks]. destruct (Z.ltb_spec 0 (zlen (x :: data))) as [_|H]; [|unfold zlen in H; cbn in H; lia].
    cbn [sys fails negb reads writes]. set (chunk := if _ <? _ then _ else _).
    assert (0 < chunk) as Hc by (unfold chunk, BUFFER_SIZE; zcase; unfold zlen in *; cbn in *; lia).
    destruct (Z.to_nat chunk) as [|k] eqn:Ek; [lia|]. cbn [read_chunk]. destruct (Z.ltb_spec 0 chunk); [|lia].
    cbn [sys_read sys fails negb]. eexists. by rewrite replace_last.
  - intros w path mode sub dst Hw. unfold main. rewrite reversed_name. replace (get_path_basename (path ++ [ch_slash])) with (@nil Z).
    2: { symmetry. apply after_slash_last. }
    cbn [copy_dir_backwards_at depth]. rewrite !sys_calm by done. cbn [negb orb]. rewrite (bool_decide_true (rev [] = [])) by done. rewrite orb_true_r.
    by exists w.
  - intros w path mode sub dst Hw He. unfold main. rewrite reversed_name. cbn [copy_dir_backwards_at depth]. rewrite !sys_calm by done.
    cbn [negb orb]. rewrite (bool_decide_false (entry _ _ = None)) by done. by exists w.
Qed.

Definition demo_tree : list (list Z * node) :=
  [([ch_dot], Dots); ([ch_dot; ch_dot], Dots); ([97; 98], Reg 420 [1; 2; 3]); ([99], Dir 493 [([100; 101], Reg 384 [9; 8])]); ([113], Other)].

Lemma copy_backwards_correct_witness :
  exists w', main 18 (replicate 1024 7) (mkWorld [] [1; 2; 1] [2; 1]) [47; 120; 121] (Dir 511 demo_tree) (Some []) =
    Ok (Some [([121; 120], Dir 493 [([98; 97], Reg 420 [3; 2; 1]); ([99], Dir 493 [([101; 100], Reg 384 [8; 9])])])], w').
Proof.
  destruct (copy_backwards_correct 18 (replicate 1024 7) (mkWorld [] [1; 2; 1] [2; 1]) [47; 120; 121] 511 demo_tree []) as [(w' & E) _].
  - reflexivity.
  - reflexivity.
  - split; [apply (bool_decide_unpack _); vm_compute; exact I|]. cbn. split_and!; try discriminate; try (intros H; set_solver); try done; try (apply (bool_decide_unpack _); vm_compute; exact I).
  - discriminate.
  - reflexivity.
  - exists w'. rewrite E. vm_compute. reflexivity.
Defined.

Lemma copy_backwards_faults_witness :
  exists w', main 0 (replicate 1024 7) (mkWorld [] [] []) [97; ch_slash] (Dir 511 demo_tree) (Some []) = Ok (Some [], w').
Proof.
  destruct (copy_backwards_faults 0 (replicate 1024 7) eq_refl) as (_ & _ & _ & H & _). exact (H (mkWorld [] [] []) [97] 511 demo_tree [] eq_refl).
Defined.
